(* ===== verification/_CoqProject ===== *)
-Q . S2P
Prelude.v
Words.v
Stream.v
Interfaces.v
Uleb.v
DeltaTable.v
Util.v
Circuit.v
LFC.v
LFCFacts.v
Gf2_128.v
Archive.v
CodecTheorems.v
Merkle.v
MerkleTheorems.v
Field.v
FieldFacts.v
Interpolation.v
Gf2_128Facts.v
Transcript.v
TranscriptTheorems.v
SumcheckProof.v
SumcheckV1.v
SumcheckProtocol.v
DenseFacts.v
Gf2_128Sampling.v
SumcheckProofFacts.v
HQuadOrder.v
SumcheckRound.v
SumcheckLayer.v
EvalFacts.v
Completeness.v
SumcheckTheorems.v
CompletenessTheorems.v
RangeInterpolation.v
AlgebraTheorems.v
Ligero.v
TableauFacts.v
LigeroBatch.v
LigeroChecks.v
LigeroSamples.v
LigeroTheorems.v
LigeroCodec.v
ZkV1.v
ZkV1Facts.v
ZkComplete.v
ZkVerify.v
ZkTheorems.v
Scope.v
Segment.v
CompilerIR.v
CompilerPasses.v
CompilerSem.v
CseFacts.v
RewriterFacts.v
AlgsimpFacts.v
CopyFacts.v
Quad.v
SchedulerV1.v
QuadFacts.v
LayerBuild.v
SchedulerSound.v
SchedulerRun.v
CompilerTheorems.v
Logic.v
Boolean.v
Arithmetic.v
Bitvec.v
AnalogAdder.v
CompileFields.v
Limb.v
Montgomery.v
MontgomeryFacts.v
MontgomeryField.v
RuntimeFields.v
Carryless.v
Sha256Circuit.v
EvalLogic.v
CompilerLogic.v
GadgetTheorems.v
