(* ===== verification/Prelude.v ===== *)
(** * Longfellow ZK: verification library

    A model of the Rust implementation of Longfellow under [src/rust] and
    theorems that make it correct.  Longfellow proves in zero knowledge that a
    layered arithmetic circuit evaluates to zero on public and private inputs.

    ** The program and its parts

    - [core/proto]: the circuit (layers of quadratic terms, stored as
      deduplicated deltas, runs and tokens), its identifier, its two file
      formats LFC1 and LFC2 and the archives LFA1 and LFA2.
    - [core/algebra], [runtime/algebra]: field interfaces, GF(2^128), vector
      kernels, polynomials and interpolation over integer ranges.
    - [runtime/merkle], [runtime/random]: Merkle trees with salted leaves, the
      Fiat-Shamir transcript and its AES-based generator.
    - [runtime/sumcheck-v1]: per layer, the prover reduces two claims on the
      layer's outputs to two claims on its inputs with [2 * logw] round
      messages, masked by a pad; the verifier derives the challenges and the
      bound wiring tensor, and keeps the claims symbolic: one affine relation
      per layer in the pads and one in the inputs.
    - [runtime/ligero]: commitment to a witness vector as rows of a Reed-Solomon
      tableau under a Merkle root, with linear and quadratic constraints.
    - [runtime/zk-v1]: commits to private inputs and pad, runs the masked
      sumcheck, compiles the symbolic relations to Ligero constraints on the
      committed vector, and proves those.
    - [runtime/proto]: the wire formats of the proofs.
    - [circuits]: gadgets and applications written against the trait [Logic]:
      run on one backend they evaluate, on the other they build a program.
    - [compile/logic], [compile/compiler]: a program is an arena of expressions
      and a list of assertions; the compiler strips and simplifies them, levels
      the operands with copies, and schedules the quadratic circuit into
      layers; layers can be segmented into frequent runs.

    ** Files

    Foundations: [Prelude] (the outcome monad [Ok], [Err], [Panic] of a Rust
    computation, loops, list and option lemmas, tactics), [Words] (u8 and u32
    arithmetic), [Stream] ([BufRead] readers as a class with laws; a slice
    reader as instance), [Interfaces] (serialization, hash, cipher and
    random-engine classes, and the toy instances the witnesses use), [Field]
    and [FieldFacts] (field classes of core/algebra/src/field.rs and
    runtime/algebra/src/field.rs, vector kernels of blas.rs, sums).

    Circuits: [Uleb] (uleb.rs), [DeltaTable] (cache.rs), [Util] (ceil_log2,
    morton.rs), [Circuit] (circuit.rs, layer.rs), [LFC],
    [LFCFacts] (reader/, writer/), [Archive] (archive/), [CodecTheorems].

    Algebra: [Gf2_128], [Gf2_128Facts], [Gf2_128Sampling] (gf2_128.rs of
    core and runtime), [Interpolation] (poly.rs), [RangeInterpolation]
    (range_interpolation/mod.rs and scalar.rs), [AlgebraTheorems];
    [CompileFields] (compile/algebra: the basis and generator of GF(2^128),
    prime fields and fixed-width numbers).

    Runtime fields: [Limb] (limb/: arrays of limbs; the class [LimbWidth] is
    the width chosen by the build, with instances for 64 and 32 bits and the
    laws [LimbWidthLaws]), [Montgomery] (fp_generic.rs, p256/, q256.rs,
    nat.rs), [MontgomeryFacts] (congruences, the rows of a reduction, the class
    [MontgomeryStrategyLaws] and its three instances), [MontgomeryField] (what
    every operation does to the numbers elements represent), [RuntimeFields]
    (the refinement of the integers modulo a prime, a certificate that the
    modulus of P-256 is prime, the builds of P-256); [Carryless]
    (arch/generic.rs: the portable product of GF(2^128)).

    Commitments: [Merkle], [MerkleTheorems] (runtime/merkle); [Transcript],
    [TranscriptTheorems] (runtime/random).

    Sumcheck: [SumcheckProof], [SumcheckProofFacts]
    (runtime/proto/src/sumcheck_v1.rs, pad.rs), [SumcheckV1] (dense.rs, eq.rs,
    hquad.rs, eval.rs, poly.rs, transcript.rs), [SumcheckProtocol] (prover.rs,
    symbolic.rs, verifier.rs); their lemmas in [DenseFacts], [HQuadOrder],
    [SumcheckRound], [SumcheckLayer], [EvalFacts], [Completeness]; theorems in [SumcheckTheorems], [CompletenessTheorems].

    Ligero: [Ligero] (runtime/ligero), its lemmas [TableauFacts], [LigeroBatch],
    [LigeroChecks], a sample instance [LigeroSamples], [LigeroTheorems];
    [LigeroCodec] (runtime/proto/src/ligero.rs).

    The system: [ZkV1] (runtime/zk-v1 and runtime/proto/src/zk_v1.rs),
    [ZkV1Facts] (the constraint compiler), [ZkComplete] (honest runs),
    [ZkVerify] (arbitrary proofs), [ZkTheorems].

    The compiler: [Scope] (scope.rs), [Segment] (segment.rs), [CompilerIR] (ir.rs, node.rs, arena.rs),
    [CompilerPasses] (cse.rs, algsimp.rs, assertion.rs, copy.rs,
    logic_impl.rs), [Quad] (quad.rs, ir_to_quad.rs), [SchedulerV1]
    (v1/scheduler.rs, v1/top.rs).  [CompilerSem] gives expressions a value and
    compiler computations a weakest precondition, [CseFacts] the invariant of
    the memoizing arena and the walk, [RewriterFacts] the
    class [RewriterOk] of rewriters that preserve values and the strip pass;
    [AlgsimpFacts], [CopyFacts], [QuadFacts] are the other passes,
    [LayerBuild], [SchedulerSound], [SchedulerRun] the scheduler,
    [EvalFacts] when evaluation succeeds, [SchedulerRun] and
    [CompilerTheorems] the compiler end to end.

    Circuits as programs: [Logic] (logic.rs and util/src/array.rs: the trait a
    circuit is written against, with [LogicLaws], what a backend promises: a
    relation between wires and values, between assertions and propositions,
    kept as the state grows), [Boolean], [Arithmetic], [Bitvec] (boolean,
    arithmetic, bitvec and memcmp under circuits/), [AnalogAdder]
    (analog_adder, with the interface [FieldWrappingSumLaws]), [Sha256Circuit]
    (sha256); the backends [EvalLogic] (eval.rs) and [CompilerLogic]
    (logic_impl.rs, v1/top.rs), which discharge [LogicLaws];
    [GadgetTheorems].

    Names follow the source: the function [f] of module [m] is the definition
    [m.f] of the file of its crate, records and variants keep their fields and
    constructors.  A [&mut] argument is an argument and a component of the
    result.  [usize] values are [nat]: the sizes they count are bounded by
    memory, and every subtraction either follows a check or is bounded by the
    geometry that [try_new] accepts.  u8 and u32 values that wrap are reduced
    explicitly.

    ** Theorems

    - The zero-knowledge system: honest runs are accepted ([zk_complete]), the
      compiled constraints have the residuals of the relations as their values
      ([compile_residuals]), and on every proof whatsoever verification
      reduces to Ligero on the right statement ([zk_verify_refines]).
    - The compiler: [compile] either panics or returns a well-formed circuit
      that evaluates exactly on the inputs satisfying the source program
      ([compile_correct]), so that satisfied programs are proved and accepted
      ([program_proved]); simplification never panics ([simplify_sound]),
      scheduling preserves every assertion ([schedule_correct]), segmentation
      every expansion ([segment_circuit_preserves]).
    - Circuits: bits and vectors compute Boolean functions and arithmetic on
      every backend ([boolean_operations], [vector_arithmetic]), one product
      in the field asserts a sum modulo a power of two
      ([gf2_128_wrapping_sum], [prime_wrapping_sum]), the SHA-256 circuit
      asserts the compression function ([sha256_block_asserted]); a circuit
      proved against [LogicLaws] evaluates ([evaluation_reports]) and compiles
      ([circuit_compiles]) to what it asserts.
    - Sumcheck: completeness of prover and verifier, the verifier's derivation
      against the prover's data, the value of each table and tensor operation.
    - Ligero: completeness, exact characterisation of acceptance, every row a
      codeword, the batched inner product, parameter bounds.
    - Codecs: round trips and canonicity of circuits, archives and proofs, the
      guarantees of a successful read, binding of the circuit identifier, the
      one panic of the circuit readers ([reader_panics_iff_zero_outputs]).
    - Merkle and transcript: completeness and binding up to a collision among
      the strings hashed by the two runs ([merkle_commitment_binding]),
      refinement of a log of messages, rejection sampling.
    - Algebra: field laws of GF(2^128), exactness of the interpolations, the
      portable product against the bitwise one ([portable_backend_multiplies]);
      the Montgomery fields refine the integers modulo their prime
      ([montgomery_refines_prime_field]), all builds of P-256 compute the same
      inner products ([p256_inner_products]), and one width is accepted that
      the arithmetic cannot handle ([new_generic_accepts_unusable_width]).

    ** Parameters, fuel and bounds

    SHA-256 and AES-256 are classes without code ([Sha256], [Aes256]); binding
    theorems conclude with an explicit collision instead of assuming there is
    none, and toy instances make the witnesses concrete.  [RandomEngine] is the
    caller's generator.  The field is a class with laws, discharged for
    GF(2^128) and, for the compiler, for the integers modulo a prime; [modpow]
    of the integer library is known by its value only.  Rejection sampling takes fuel and may report that it ran out;
    [rng_nat_is_rejection_sampling] says when it returns.  The run-length
    reader uses one unit per run, at most one more than the elements announced.
    Inversion modulo a prime takes twice the bits of the modulus and one more,
    and the refinement shows that this is enough.
    The walks of the compiler take fuel measured by the arena; that it is
    enough is part of [simplify_sound] and [compile_correct].  The iteration
    order of a hash map is the class [HashOrder], any permutation.
    Other recursions are structural or bounded by a measure that the lemmas
    show to be enough.

    ** Not modelled

    The architecture backends (intrinsics and inline assembly), except the
    portable one; the FFT, LCH14, CRT and binary-field backends of range
    interpolation, represented by the interface [RangeInterpolatorFactory] with
    its laws; the quadratic extension of the prime field (fp2.rs) and its root
    of unity; the second protocol version (sumcheck-v2, polygero, zk-v2)
    and its scheduler; elliptic curves, signatures and the other gadgets, the
    mdoc application, tools and benchmarks. *)
From stdpp Require Import prelude gmap strings.
From Stdlib Require Import Lia.

(** ** Outcomes of a Rust computation

    A Rust function that returns [Result<A, E>] and may also hit a failed
    [assert!], an out-of-bounds index or an explicit [panic!] has three kinds
    of outcomes.  A function that cannot return [Err] is given an outcome
    whose error type is arbitrary. *)
Inductive outcome (E A : Type) : Type :=
| Ok (a : A)
| Err (e : E)
| Panic.
Arguments Ok {_ _} _.
Arguments Err {_ _} _.
Arguments Panic {_ _}.

#[export] Instance outcome_ret {E} : MRet (outcome E) := fun A a => Ok a.
#[export] Instance outcome_bind {E} : MBind (outcome E) := fun A B k m =>
  match m with Ok a => k a | Err e => Err e | Panic => Panic end.
#[export] Instance outcome_fmap {E} : FMap (outcome E) := fun A B f m =>
  match m with Ok a => Ok (f a) | Err e => Err e | Panic => Panic end.

(** [assert!(b)] *)
Definition rust_assert {E} (b : bool) : outcome E unit :=
  if b then Ok tt else Panic.

(** [if b { return Err(e) }] *)
Definition reject_if {E} (b : bool) (e : E) : outcome E unit :=
  if b then Err e else Ok tt.

(** Indexing [v[i]]: out of range panics. *)
Definition index {E A} (v : list A) (i : nat) : outcome E A :=
  match v !! i with Some a => Ok a | None => Panic end.

(** Assigning [v[i] = a]: out of range panics. *)
Definition store {E A} (v : list A) (i : nat) (a : A) : outcome E (list A) :=
  if i <? length v then Ok (<[i := a]> v) else Panic.

(** [&v[a..b]]: an inverted or out-of-range slice panics. *)
Definition slice {E A} (v : list A) (a b : nat) : outcome E (list A) :=
  if (a <=? b) && (b <=? length v) then Ok (take (b - a) (drop a v)) else Panic.

(** [dst.clone_from_slice(src)]: the lengths must agree. *)
Definition clone_from_slice {E A} (dst src : list A) : outcome E (list A) :=
  if length dst =? length src then Ok src else Panic.

(** A write through [&mut v[a..b]]: [body] maps the slice to its new
    contents, which have its length. *)
Definition slice_mut {E A} (v : list A) (a b : nat) (body : list A -> outcome E (list A))
  : outcome E (list A) :=
  match slice v a b with
  | Ok s => match body s with
            | Ok s' => Ok (take a v ++ s' ++ drop b v)
            | Err e => Err e | Panic => Panic
            end
  | Err e => Err e | Panic => Panic
  end.

(** [o.unwrap()] and [o.expect(..)] *)
Definition unwrap {E A} (o : option A) : outcome E A :=
  match o with Some a => Ok a | None => Panic end.

(** [for i in (1..n).rev()] *)
Definition down_to_1 (n : nat) : list nat := rev (seq 1 (n - 1)).

(** [o.ok_or(e)] *)
Definition ok_or {E A} (o : option A) (e : E) : outcome E A :=
  match o with Some a => Ok a | None => Err e end.

(** [r.map_err(f)] *)
Definition map_err {E E' A} (f : E -> E') (m : outcome E A) : outcome E' A :=
  match m with Ok a => Ok a | Err e => Err (f e) | Panic => Panic end.

(** A loop [for x in xs { s = body(s, x)? }]. *)
Fixpoint foldM {E S X} (body : S -> X -> outcome E S) (s : S) (xs : list X)
  : outcome E S :=
  match xs with
  | [] => Ok s
  | x :: xs' => body s x ≫= fun s' => foldM body s' xs'
  end.

Section outcome_lemmas.
Context {E : Type}.

Lemma bind_Ok {A B} (a : A) (k : A -> outcome E B) : Ok a ≫= k = k a.
Proof. reflexivity. Qed.

Lemma bind_ret {A B} (a : A) (k : A -> outcome E B) : mret a ≫= k = k a.
Proof. reflexivity. Qed.

Lemma map_err_ret {E' A} (f : E -> E') (a : A) : map_err f (mret a) = Ok a.
Proof. reflexivity. Qed.

Lemma bind_Ok_inv {A B} (m : outcome E A) (k : A -> outcome E B) b :
  m ≫= k = Ok b -> exists a, m = Ok a /\ k a = Ok b.
Proof. destruct m; cbn; try discriminate; eauto. Qed.

Lemma Ok_inj {A} (a b : A) : @Ok E A a = Ok b -> a = b.
Proof. congruence. Qed.

Lemma rust_assert_Ok (b : bool) u : @rust_assert E b = Ok u <-> b = true.
Proof. destruct u, b; cbn; split; congruence. Qed.

Lemma reject_if_Ok (b : bool) (e : E) u : reject_if b e = Ok u <-> b = false.
Proof. destruct u, b; cbn; split; congruence. Qed.

Lemma index_Ok {A} (v : list A) i a : @index E A v i = Ok a <-> v !! i = Some a.
Proof. unfold index. destruct (v !! i); split; congruence. Qed.

Lemma unwrap_Ok {A} (o : option A) a : @unwrap E A o = Ok a <-> o = Some a.
Proof. destruct o; cbn; split; congruence. Qed.

Lemma foldM_app {S X} (body : S -> X -> outcome E S) s xs ys :
  foldM body s (xs ++ ys) = foldM body s xs ≫= fun s' => foldM body s' ys.
Proof.
  revert s; induction xs as [|x xs IH]; intros s; [reflexivity|]; cbn.
  destruct (body s x); cbn; auto.
Qed.

(** A loop none of whose steps fails is the pure fold. *)
Lemma foldM_pure {S X} (body : S -> X -> outcome E S) (f : S -> X -> S) s xs :
  (forall s x, x ∈ xs -> body s x = Ok (f s x)) ->
  foldM body s xs = Ok (foldl f s xs).
Proof.
  revert s; induction xs as [|x xs IH]; intros s H; cbn; [reflexivity|].
  rewrite H by set_solver. cbn. apply IH. intros; apply H; set_solver.
Qed.

Lemma foldM_ext {S X} (f g : S -> X -> outcome E S) s xs :
  (forall s x, f s x = g s x) -> foldM f s xs = foldM g s xs.
Proof.
  intros Hfg. revert s; induction xs as [|x xs IH]; intros s; [done|]; cbn.
  rewrite Hfg. destruct (g s x); cbn; auto.
Qed.

(** Loop invariants: total correctness of a loop from its steps. *)
Lemma foldM_invariant {S X} (I : list X -> S -> Prop)
    (body : S -> X -> outcome E S) xs s0 :
  I [] s0 ->
  (forall done x rest s, xs = done ++ x :: rest -> I done s ->
     exists s', body s x = Ok s' /\ I (done ++ [x]) s') ->
  exists s, foldM body s0 xs = Ok s /\ I xs s.
Proof.
  intros H0 Hstep.
  enough (forall rest done s, xs = done ++ rest -> I done s ->
            exists s', foldM body s rest = Ok s' /\ I xs s') as Hgen.
  { apply (Hgen xs [] s0); auto. }
  induction rest as [|x rest IH]; intros done s -> Hs.
  - exists s. rewrite app_nil_r in *. auto.
  - destruct (Hstep done x rest s eq_refl Hs) as (s' & Hb & HI).
    cbn. rewrite Hb. cbn. apply (IH (done ++ [x])); [|done].
    by rewrite <- app_assoc.
Qed.

(** Partial correctness: what a successful loop has established. *)
Lemma foldM_Ok_invariant {S X} (I : list X -> S -> Prop)
    (body : S -> X -> outcome E S) xs s0 s :
  I [] s0 ->
  (forall done x s s', I done s -> body s x = Ok s' -> I (done ++ [x]) s') ->
  foldM body s0 xs = Ok s -> I xs s.
Proof.
  intros H0 Hstep.
  enough (forall rest done s1, I done s1 ->
            foldM body s1 rest = Ok s -> I (done ++ rest) s) as Hgen.
  { apply (Hgen xs [] s0); auto. }
  induction rest as [|x rest IH]; intros done s1 Hs1; cbn.
  - intros [= ->]. by rewrite app_nil_r.
  - destruct (body s1 x) as [s'| |] eqn:Hb; cbn; try discriminate.
    intros Hf. specialize (IH (done ++ [x]) s').
    rewrite <- app_assoc in IH. apply IH; eauto.
Qed.

(** The error type of a loop that succeeds does not matter. *)
Lemma foldM_any {E' S X} (f : S -> X -> outcome E S) (g : S -> X -> outcome E' S) xs : forall s r,
  (forall s x r, f s x = Ok r -> g s x = Ok r) -> foldM f s xs = Ok r -> foldM g s xs = Ok r.
Proof.
  induction xs as [|x xs IH]; intros s r Hfg Hr; [by injection Hr as ->|].
  apply bind_Ok_inv in Hr as (s' & Hx & Hr). cbn [foldM]. rewrite (Hfg _ _ _ Hx). by apply IH.
Qed.
Lemma index_any {E' A} (v : list A) i a : @index E A v i = Ok a -> @index E' A v i = Ok a.
Proof. unfold index. by destruct (v !! i); intros [=->]. Qed.
Lemma store_any {E' A} (v : list A) i a v' : @store E A v i a = Ok v' -> @store E' A v i a = Ok v'.
Proof. unfold store. by destruct (i <? length v); intros [=->]. Qed.

Lemma slice_Ok {A} (v : list A) a b :
  a <= b <= length v -> @slice E A v a b = Ok (take (b - a) (drop a v)).
Proof.
  intros Hab. unfold slice. rewrite (proj2 (Nat.leb_le a b)), (proj2 (Nat.leb_le b _)) by lia. done.
Qed.
Lemma clone_from_slice_Ok {A} (d s : list A) : length d = length s -> @clone_from_slice E A d s = Ok s.
Proof. intros Hl. unfold clone_from_slice. by rewrite (proj2 (Nat.eqb_eq _ _) Hl). Qed.
Lemma slice_mut_Ok {A} (v : list A) a b body s :
  a <= b <= length v -> body (take (b - a) (drop a v)) = Ok s ->
  @slice_mut E A v a b body = Ok (take a v ++ s ++ drop b v).
Proof. intros Hab Hb. unfold slice_mut. rewrite slice_Ok by done. by rewrite Hb. Qed.

Lemma store_Ok {A} (v : list A) i a :
  i < length v -> @store E A v i a = Ok (<[i := a]> v).
Proof. intros Hi. unfold store. by rewrite (proj2 (Nat.ltb_lt _ _) Hi). Qed.

Lemma index_lt {A} `{Inhabited A} (v : list A) i :
  i < length v -> @index E A v i = Ok (v !!! i).
Proof.
  intros Hi. unfold index. destruct (lookup_lt_is_Some_2 v i Hi) as [a Ha].
  rewrite Ha. f_equal. symmetry. by apply list_lookup_total_correct.
Qed.

(** A loop from [n - 1] down to 1: the invariant at [i] speaks of the
    indices from [i] up. *)
Lemma foldM_down {T} (I : nat -> T -> Prop) (body : T -> nat -> outcome E T) n s0 :
  1 <= n -> I n s0 ->
  (forall i s, 1 <= i < n -> I (i + 1) s -> exists s', body s i = Ok s' /\ I i s') ->
  exists s, foldM body s0 (down_to_1 n) = Ok s /\ I 1 s.
Proof.
  intros Hn H0 Hstep. unfold down_to_1.
  enough (forall m s, I (1 + m) s -> 1 + m <= n ->
            exists s', foldM body s (rev (seq 1 m)) = Ok s' /\ I 1 s') as Hg.
  { apply (Hg (n - 1)); [|lia]. by replace (1 + (n - 1)) with n by lia. }
  induction m as [|m IH]; intros s Hs Hm; [by exists s|].
  rewrite seq_S, rev_app_distr. cbn [rev app foldM].
  destruct (Hstep (1 + m) s) as (s' & -> & Hs'); [lia|by replace (1 + m + 1) with (1 + S m) by lia|].
  rewrite bind_Ok. apply IH; [done|lia].
Qed.
End outcome_lemmas.

(** [inv_outcome]: break a hypothesis [m = Ok x] about a monadic program into
    the facts that made each of its steps succeed. *)
Ltac inv_outcome_step :=
  match goal with
  | H : Ok _ = Ok _ |- _ => apply Ok_inj in H; subst
  | H : Err _ = Ok _ |- _ => discriminate H
  | H : Panic = Ok _ |- _ => discriminate H
  | H : Ok _ = Err _ |- _ => discriminate H
  | H : Ok _ = Panic |- _ => discriminate H
  | H : rust_assert _ = Ok _ |- _ => apply rust_assert_Ok in H
  | H : reject_if _ _ = Ok _ |- _ => apply reject_if_Ok in H
  | H : index _ _ = Ok _ |- _ => apply index_Ok in H
  | H : unwrap _ = Ok _ |- _ => apply unwrap_Ok in H
  | H : mret _ = Ok _ |- _ => unfold mret, outcome_ret in H
  | H : _ ≫= _ = Ok _ |- _ =>
      let x := fresh "x" in let Hx := fresh "Hx" in
      apply bind_Ok_inv in H; destruct H as (x & Hx & H)
  end.
Ltac inv_outcome := repeat (inv_outcome_step; cbn beta in *).

(** Run the steps of a monadic program whose results are known. *)
Ltac mstep := repeat first [rewrite bind_Ok | rewrite bind_ret].

(** The library's hint databases: [lf] closes the common side conditions,
    the rewrite base [lf] normalises lengths. *)
Create HintDb lf.
Create Rewrite HintDb lf.
#[export] Hint Rewrite @length_app @length_insert @length_replicate
  @length_take @length_drop @length_seq @length_fmap : lf.
Ltac len := autorewrite with lf in *; cbn [length] in *; try lia.

#[global] Arguments Nat.ltb _ _ : simpl never.
#[global] Arguments Nat.leb _ _ : simpl never.

(** [lia] with the Euclidean equations of every quotient and remainder. *)
Ltac dlia := zify; Z.to_euclidean_division_equations; lia.
