(* ===== verification/Words.v ===== *)
(** * Fixed-width integers and bytes

    [u8] is [Byte.byte]; [u32], [u64] and [usize] (64 bits wide) are [N] with
    the wrap-around of each operation written out.  Little-endian byte
    encodings ([to_le_bytes], [from_le_bytes]) and the laws the codecs use. *)
From stdpp Require Import prelude countable.
From Stdlib Require Import Lia.
From Stdlib Require Export Strings.Byte.
From Stdlib Require Import NArith.
From S2P Require Import Prelude.

Local Open Scope N_scope.

Abbreviation u8 := Byte.byte.

#[export] Instance u8_eq_dec : EqDecision u8 := Byte.byte_eq_dec.
#[export] Program Instance u8_countable : Countable u8 :=
  inj_countable Byte.to_N Byte.of_N _.
Next Obligation. intros b. apply Byte.of_to_N. Qed.

Definition u8_to_N (b : u8) : N := Byte.to_N b.
(** [x as u8] *)
Definition as_u8 (x : N) : u8 :=
  match Byte.of_N (x mod 256) with Some b => b | None => Byte.x00 end.

(** [x as u32], [x as usize]. *)
Definition wrap32 (x : N) : N := x mod 2 ^ 32.
Definition wrap64 (x : N) : N := x mod 2 ^ 64.

Definition wrapping_add32 (x y : N) : N := wrap32 (x + y).
Definition wrapping_sub32 (x y : N) : N := wrap32 (x + 2 ^ 32 - y).
Definition wrapping_neg32 (x : N) : N := wrap32 (2 ^ 32 - x).
Definition shl32 (x k : N) : N := wrap32 (N.shiftl x k).
Definition shl64 (x k : N) : N := wrap64 (N.shiftl x k).
Definition wrapping_mul64 (x y : N) : N := wrap64 (x * y).
(** [saturating_add] on [usize]. *)
Definition saturating_add64 (x y : N) : N := N.min (x + y) (2 ^ 64 - 1).

(** [x.to_le_bytes()] of an [n]-byte integer, and its inverse. *)
Fixpoint to_le_bytes (n : nat) (x : N) : list u8 :=
  match n with
  | O => []
  | S n' => as_u8 x :: to_le_bytes n' (N.shiftr x 8)
  end.
Fixpoint from_le_bytes (bs : list u8) : N :=
  match bs with
  | [] => 0
  | b :: bs' => u8_to_N b + 256 * from_le_bytes bs'
  end.

Lemma u8_to_N_bound b : u8_to_N b < 256.
Proof. unfold u8_to_N. pose proof (Byte.to_N_bounded b). lia. Qed.

Lemma as_u8_to_N x : u8_to_N (as_u8 x) = x mod 256.
Proof.
  unfold as_u8, u8_to_N.
  destruct (Byte.of_N (x mod 256)) as [b|] eqn:Hb.
  - by apply Byte.to_of_N.
  - apply Byte.of_N_None_iff in Hb.
    pose proof (N.mod_lt x 256). lia.
Qed.

Lemma as_u8_u8_to_N b : as_u8 (u8_to_N b) = b.
Proof.
  unfold as_u8. rewrite N.mod_small by apply u8_to_N_bound.
  unfold u8_to_N. by rewrite Byte.of_to_N.
Qed.

Lemma u8_to_N_inj b1 b2 : u8_to_N b1 = u8_to_N b2 -> b1 = b2.
Proof. intros H. by rewrite <- (as_u8_u8_to_N b1), H, as_u8_u8_to_N. Qed.

Lemma as_u8_small x : x < 256 -> u8_to_N (as_u8 x) = x.
Proof. intros H. rewrite as_u8_to_N. by apply N.mod_small. Qed.

Lemma wrap32_small x : x < 2 ^ 32 -> wrap32 x = x.
Proof. apply N.mod_small. Qed.
Lemma wrap64_small x : x < 2 ^ 64 -> wrap64 x = x.
Proof. apply N.mod_small. Qed.
Lemma wrap32_lt x : wrap32 x < 2 ^ 32.
Proof. by apply N.mod_lt. Qed.

Lemma wrapping_add_sub32 x y :
  x < 2 ^ 32 -> y < 2 ^ 32 -> wrapping_add32 y (wrapping_sub32 x y) = x.
Proof.
  intros Hx Hy. unfold wrapping_add32, wrapping_sub32, wrap32.
  rewrite N.Div0.add_mod_idemp_r.
  replace (y + (x + 2 ^ 32 - y)) with (x + 1 * 2 ^ 32) by lia.
  rewrite N.Div0.mod_add. by apply N.mod_small.
Qed.

(** *** Disjoint bitwise or *)

Lemma lor_disjoint_add a b k :
  a < 2 ^ k -> N.lor a (N.shiftl b k) = a + b * 2 ^ k.
Proof.
  intros Ha. rewrite N.shiftl_mul_pow2.
  assert (N.land a (b * 2 ^ k) = 0) as Hl.
  { apply N.bits_inj_0. intros i. rewrite N.land_spec.
    destruct (N.lt_ge_cases i k) as [Hi|Hi].
    - rewrite N.mul_pow2_bits_low by done. apply andb_false_r.
    - replace (N.testbit a i) with false; [done|].
      symmetry. destruct (N.eq_dec a 0) as [->|]; [apply N.bits_0|].
      apply N.bits_above_log2.
      assert (N.log2 a < k); [|lia].
      apply N.log2_lt_pow2; lia. }
  rewrite <- N.lxor_lor by done. by rewrite <- N.add_nocarry_lxor.
Qed.

Lemma land_ones_mod x k : N.land x (2 ^ k - 1) = x mod 2 ^ k.
Proof. rewrite <- N.land_ones, N.ones_equiv. f_equal. lia. Qed.

(** *** Little-endian encodings *)

Lemma length_to_le_bytes n x : length (to_le_bytes n x) = n.
Proof. revert x; induction n; intros x; cbn; auto. Qed.
#[export] Hint Rewrite length_to_le_bytes : lf.

Lemma to_le_bytes_0 n : to_le_bytes n 0 = replicate n x00.
Proof. induction n; cbn; [done|]. by f_equal. Qed.

Lemma from_to_le_bytes n x :
  x < 256 ^ N.of_nat n -> from_le_bytes (to_le_bytes n x) = x.
Proof.
  revert x; induction n as [|n IH]; intros x Hx.
  - cbn in *. lia.
  - cbn [to_le_bytes from_le_bytes]. rewrite as_u8_to_N, N.shiftr_div_pow2.
    change (2 ^ 8) with 256. rewrite IH.
    + pose proof (N.div_mod x 256). lia.
    + rewrite Nat2N.inj_succ, N.pow_succ_r' in Hx.
      apply N.Div0.div_lt_upper_bound. lia.
Qed.

Lemma to_from_le_bytes bs : to_le_bytes (length bs) (from_le_bytes bs) = bs.
Proof.
  induction bs as [|b bs IH]; [done|]. cbn [length to_le_bytes from_le_bytes].
  rewrite N.shiftr_div_pow2. change (2 ^ 8) with 256.
  pose proof (u8_to_N_bound b).
  assert ((u8_to_N b + 256 * from_le_bytes bs) / 256 = from_le_bytes bs) as ->.
  { symmetry; apply (N.div_unique _ _ _ (u8_to_N b)); lia. }
  rewrite IH. f_equal.
  apply u8_to_N_inj. rewrite as_u8_to_N.
  symmetry; apply (N.mod_unique _ _ (from_le_bytes bs)); lia.
Qed.

Lemma from_le_bytes_bound bs : from_le_bytes bs < 256 ^ N.of_nat (length bs).
Proof.
  induction bs as [|b bs IH]; [cbn; lia|]. cbn [from_le_bytes length].
  rewrite Nat2N.inj_succ, N.pow_succ_r'. pose proof (u8_to_N_bound b). lia.
Qed.

Lemma from_le_bytes_inj bs1 bs2 :
  length bs1 = length bs2 -> from_le_bytes bs1 = from_le_bytes bs2 -> bs1 = bs2.
Proof.
  intros Hl He.
  by rewrite <- (to_from_le_bytes bs1), <- (to_from_le_bytes bs2), Hl, He.
Qed.

Lemma to_le_bytes_inj n x y :
  x < 256 ^ N.of_nat n -> y < 256 ^ N.of_nat n ->
  to_le_bytes n x = to_le_bytes n y -> x = y.
Proof.
  intros Hx Hy He.
  by rewrite <- (from_to_le_bytes n x), <- (from_to_le_bytes n y), He.
Qed.

Lemma N_to_nat_mod_lt x n : n <> 0%nat -> (N.to_nat (x mod N.of_nat n) < n)%nat.
Proof.
  intros Hn. assert (x mod N.of_nat n < N.of_nat n) as H by (apply N.mod_lt; lia).
  revert H. generalize (x mod N.of_nat n). intros; lia.
Qed.

#[global] Arguments to_le_bytes : simpl never.
#[global] Arguments from_le_bytes : simpl never.
