(* ===== verification/Stream.v ===== *)
(** * Byte streams

    The decoders under [src/rust/core/proto] are generic over
    [std::io::BufRead].  [BufRead] states what they use of that trait: a
    buffer that is some prefix of the unread bytes (empty only at the end of
    the stream), [consume], and [read_exact].  Device errors other than the
    end of the stream are outside the model.

    Two instances are given: a byte slice [&[u8]], whose buffer is everything
    that is left, and a chunked stream, whose buffer is the current chunk.

    [parses p bs a] says that the decoder [p] turns any stream that starts
    with [bs] into the value [a], leaving exactly what followed [bs]; the
    round-trip theorems are stated and composed with it. *)
From stdpp Require Import prelude strings.
From Stdlib Require Import Lia.
From S2P Require Import Prelude Words.

Class BufRead (R : Type) := {
  remaining : R -> list u8;
  fill_buf : R -> list u8 * R;
  consume : nat -> R -> R;
  read_exact : nat -> R -> option (list u8 * R)
}.

Class BufReadLaws (R : Type) `{BufRead R} := {
  fill_buf_prefix s : exists rest, remaining s = (fill_buf s).1 ++ rest;
  fill_buf_empty s : (fill_buf s).1 = [] -> remaining s = [];
  fill_buf_remaining s : remaining (fill_buf s).2 = remaining s;
(** [consume] is called right after [fill_buf], within its buffer. *)
consume_remaining s n :
  n <= length (fill_buf s).1 ->
  remaining (consume n (fill_buf s).2) = drop n (remaining s);
read_exact_some s n :
  n <= length (remaining s) ->
  exists s', read_exact n s = Some (take n (remaining s), s') /\
    remaining s' = drop n (remaining s);
read_exact_none s n :
  length (remaining s) < n -> read_exact n s = None
}.

(** ** [&[u8]] *)
#[export] Instance slice_BufRead : BufRead (list u8) := {|
  remaining s := s;
  fill_buf s := (s, s);
  consume n s := drop n s;
  read_exact n s := if length s <? n then None else Some (take n s, drop n s)
|}.

#[export] Instance slice_BufReadLaws : BufReadLaws (list u8).
Proof.
  split; cbn; intros.
  - exists []. by rewrite app_nil_r.
  - done.
  - done.
  - done.
  - destruct (Nat.ltb_spec (length s) n); [lia|]. eauto.
  - by destruct (Nat.ltb_spec (length s) n); [|lia].
Qed.

(** ** A stream delivered in chunks *)
Fixpoint skip_empty (cs : list (list u8)) : list (list u8) :=
  match cs with [] :: cs' => skip_empty cs' | _ => cs end.

Definition chunks_drop (n : nat) (cs : list (list u8)) : list (list u8) :=
  match skip_empty cs with c :: cs' => drop n c :: cs' | [] => [] end.

#[export] Instance chunks_BufRead : BufRead (list (list u8)) := {|
  remaining cs := concat cs;
  fill_buf cs := (default [] (head (skip_empty cs)), skip_empty cs);
  consume := chunks_drop;
  read_exact n cs :=
    if length (concat cs) <? n then None
    else Some (take n (concat cs), [drop n (concat cs)])
|}.

Lemma concat_skip_empty cs : concat (skip_empty cs) = concat cs.
Proof. by induction cs as [|[|b c] cs IH]. Qed.

Lemma skip_empty_idemp cs : skip_empty (skip_empty cs) = skip_empty cs.
Proof. by induction cs as [|[|b c] cs IH]. Qed.

Lemma skip_empty_head cs c cs' : skip_empty cs = c :: cs' -> c <> [].
Proof. induction cs as [|[|b c0] cs IH]; cbn; [done|done|congruence]. Qed.

#[export] Instance chunks_BufReadLaws : BufReadLaws (list (list u8)).
Proof.
  split; cbn; intros.
  - rewrite <- concat_skip_empty. destruct (skip_empty s); cbn; [by exists []|eauto].
  - rewrite <- concat_skip_empty. destruct (skip_empty s) eqn:He; [done|].
    cbn in *. subst. by apply skip_empty_head in He.
  - apply concat_skip_empty.
  - unfold chunks_drop. rewrite skip_empty_idemp, <- (concat_skip_empty s).
    destruct (skip_empty s) as [|c cs]; cbn in *.
    + by rewrite drop_nil.
    + rewrite drop_app_le by lia. done.
  - destruct (Nat.ltb_spec (length (concat s)) n); [lia|].
    eexists; split; [done|]. cbn. by rewrite app_nil_r.
  - by destruct (Nat.ltb_spec (length (concat s)) n); [|lia].
Qed.

(** ** Decoders *)
Definition reader (R A : Type) : Type := R -> outcome string (A * R).

#[export] Instance reader_ret {R} : MRet (reader R) := fun A a s => Ok (a, s).
#[export] Instance reader_bind {R} : MBind (reader R) := fun A B k m s =>
  match m s with Ok (a, s') => k a s' | Err e => Err e | Panic => Panic end.

(** Run a computation that does not touch the stream. *)
Definition lift {R A} (m : outcome string A) : reader R A :=
  fun s => match m with Ok a => Ok (a, s) | Err e => Err e | Panic => Panic end.

(** [stream.read_exact(&mut buf).map_err(|_| e)?] with [buf.len() = n] *)
Definition read_bytes {R} `{BufRead R} (n : nat) (e : string) : reader R (list u8) :=
  fun s => ok_or (read_exact n s) e.

(** [for _ in 0..n { v.push(p(stream)?) }] *)
Fixpoint read_n {R A} (n : nat) (p : reader R A) : reader R (list A) :=
  match n with
  | O => mret []
  | S n' => p ≫= fun a => read_n n' p ≫= fun v => mret (a :: v)
  end.

(** [for _ in 0..n { s = body(s, stream)? }] *)
Fixpoint read_loop {R A} (n : nat) (body : A -> reader R A) (a : A) : reader R A :=
  match n with
  | O => mret a
  | S n' => body a ≫= fun a' => read_loop n' body a'
  end.

Definition parses {R A} `{BufRead R} (p : reader R A) (bs : list u8) (a : A) : Prop :=
  forall s rest, remaining s = bs ++ rest ->
    exists s', p s = Ok (a, s') /\ remaining s' = rest.

Section parses.
Context {R : Type} {BR : BufRead R} {BL : BufReadLaws R}.

Lemma parses_ret {A} (a : A) : parses (mret a) [] a.
Proof. intros s rest Hs. exists s. done. Qed.

Lemma parses_bind {A B} (p : reader R A) (k : A -> reader R B) bs1 bs2 a b :
  parses p bs1 a -> parses (k a) bs2 b -> parses (p ≫= k) (bs1 ++ bs2) b.
Proof.
  intros Hp Hk s rest Hs. rewrite <- app_assoc in Hs.
  destruct (Hp _ _ Hs) as (s1 & E1 & H1).
  destruct (Hk _ _ H1) as (s2 & E2 & H2).
  exists s2. split; [|done]. unfold mbind, reader_bind. by rewrite E1.
Qed.

(** A step that reads nothing. *)
Lemma parses_lift {A B} (m : outcome string A) (k : A -> reader R B) bs a b :
  m = Ok a -> parses (k a) bs b -> parses (lift m ≫= k) bs b.
Proof. intros -> Hk s rest Hs. unfold mbind, reader_bind, lift. eauto. Qed.

(** A check between two reads. *)
Lemma parses_check {B} (b : bool) e (k : unit -> reader R B) bs a :
  b = false -> parses (k tt) bs a -> parses (lift (reject_if b e) ≫= k) bs a.
Proof. intros Hb. apply parses_lift. by apply reject_if_Ok. Qed.

Lemma parses_bind_ret {A B} (p : reader R A) (f : A -> B) bs a b :
  parses p bs a -> f a = b -> parses (p ≫= fun x => mret (f x)) bs b.
Proof.
  intros Hp <-. rewrite <- (app_nil_r bs).
  eapply parses_bind; [done|apply parses_ret].
Qed.

Lemma parses_read_bytes bs n e :
  length bs = n -> parses (read_bytes n e) bs bs.
Proof.
  intros <- s rest Hs.
  destruct (read_exact_some s (length bs)) as (s' & E & Hr); [rewrite Hs; len|].
  exists s'. unfold read_bytes. rewrite E, Hs, take_app_length. cbn.
  by rewrite Hr, Hs, drop_app_length.
Qed.

Lemma parses_read_n {A} (p : reader R A) (enc : A -> list u8) (l : list A) n :
  length l = n ->
  (forall a, a ∈ l -> parses p (enc a) a) ->
  parses (read_n n p) (concat (map enc l)) l.
Proof.
  intros <-. induction l as [|a l IH]; intros Hp; [apply parses_ret|].
  cbn. eapply parses_bind; [apply Hp; set_solver|].
  eapply parses_bind_ret; [|done]. apply IH. intros; apply Hp; set_solver.
Qed.

(** A loop whose body, on the [i]-th element of [l], reads its encoding and
    updates the state by [f]. *)
Lemma parses_read_loop {A X} (body : A -> reader R A) (enc : X -> list u8)
    (f : A -> X -> A) (I : list X -> A -> Prop) (l : list X) a0 :
  I [] a0 ->
  (forall done x rest a, l = done ++ x :: rest -> I done a ->
     parses (body a) (enc x) (f a x) /\ I (done ++ [x]) (f a x)) ->
  parses (read_loop (length l) body a0) (concat (map enc l)) (foldl f a0 l).
Proof.
  intros H0 Hstep.
  enough (forall rest done a, l = done ++ rest -> I done a ->
    parses (read_loop (length rest) body a) (concat (map enc rest)) (foldl f a rest))
    as Hgen by (apply (Hgen l [] a0); auto).
  induction rest as [|x rest IH]; intros done a -> Ha; [apply parses_ret|].
  destruct (Hstep done x rest a eq_refl Ha) as [Hp HI].
  cbn. eapply parses_bind; [apply Hp|].
  apply (IH (done ++ [x])); [by rewrite <- app_assoc|done].
Qed.

Lemma parses_Ok {A} (p : reader R A) bs a s rest :
  parses p bs a -> remaining s = bs ++ rest ->
  exists s', p s = Ok (a, s') /\ remaining s' = rest.
Proof. intros Hp. apply Hp. Qed.
End parses.

(** A decoder of a stream and a decoder of the same bytes as a slice have the
    same outcome and leave the same bytes. *)
Definition same_outcome {R A} `{BufRead R}
    (x : outcome string (A * R)) (y : outcome string (A * list u8)) : Prop :=
  match x, y with
  | Ok (a, s), Ok (b, l) => a = b /\ remaining s = l
  | Err e, Err e' => e = e'
  | Panic, Panic => True
  | _, _ => False
  end.

(** A decoder that rejects every stream starting with [bs]. *)
Definition rejects {R A} `{BufRead R} (p : reader R A) (bs : list u8) (e : string) : Prop :=
  forall s rest, remaining s = bs ++ rest -> p s = Err e.

Section same_outcome.
Context {R : Type} {BR : BufRead R} {BL : BufReadLaws R}.

Lemma same_outcome_read_bytes n e s :
  same_outcome (read_bytes n e s) (read_bytes n e (remaining s)).
Proof.
  unfold read_bytes. destruct (Nat.ltb_spec (length (remaining s)) n) as [Hn|Hn].
  - by rewrite !read_exact_none.
  - destruct (read_exact_some s n Hn) as (s1 & -> & H1).
    cbn. rewrite (proj2 (Nat.ltb_ge _ _) Hn). by split.
Qed.

Lemma same_outcome_bind {A B} (p : reader R A) (q : reader (list u8) A)
    (k : A -> reader R B) (k' : A -> reader (list u8) B) s l :
  same_outcome (p s) (q l) ->
  (forall a s', same_outcome (k a s') (k' a (remaining s'))) ->
  same_outcome ((p ≫= k) s) ((q ≫= k') l).
Proof.
  intros Hpq Hk. unfold mbind, reader_bind, same_outcome in *.
  destruct (p s) as [[a s']| |], (q l) as [[b l']| |]; try done.
  destruct Hpq as [<- <-]. apply Hk.
Qed.

Lemma same_outcome_lift {A} (m : outcome string A) s :
  same_outcome (lift m s) (lift m (remaining s)).
Proof. unfold lift. by destruct m. Qed.

Lemma rejects_bind {A B} (p : reader R A) (k : A -> reader R B) bs1 bs2 a e :
  parses p bs1 a -> rejects (k a) bs2 e -> rejects (p ≫= k) (bs1 ++ bs2) e.
Proof.
  intros Hp Hk s rest Hs. rewrite <- app_assoc in Hs.
  destruct (Hp _ _ Hs) as (s1 & E1 & H1).
  unfold mbind, reader_bind. rewrite E1. eauto.
Qed.
End same_outcome.

(** [ensures p P]: every value the decoder returns satisfies [P]. *)
Definition ensures {R A} (p : reader R A) (P : A -> Prop) : Prop :=
  forall s a s', p s = Ok (a, s') -> P a.

Section ensures.
Context {R : Type}.

Lemma ensures_ret {A} (a : A) (P : A -> Prop) : P a -> ensures (R:=R) (mret a) P.
Proof. intros Ha s b s' E. by injection E as <- <-. Qed.

Lemma ensures_bind {A B} (p : reader R A) (k : A -> reader R B) P Q :
  ensures p P -> (forall a, P a -> ensures (k a) Q) -> ensures (p ≫= k) Q.
Proof.
  intros Hp Hk s b s' E. unfold mbind, reader_bind in E.
  destruct (p s) as [[a s1]| |] eqn:Ep; try discriminate.
  exact (Hk a (Hp _ _ _ Ep) _ _ _ E).
Qed.

Lemma ensures_lift {A} (m : outcome string A) (P : A -> Prop) :
  (forall a, m = Ok a -> P a) -> ensures (R:=R) (lift m) P.
Proof. intros Hm s a s' E. unfold lift in E. destruct m; [|done..]. injection E as <- <-. auto. Qed.

Lemma ensures_weaken {A} (p : reader R A) (P Q : A -> Prop) :
  ensures p P -> (forall a, P a -> Q a) -> ensures p Q.
Proof. intros Hp HPQ s a s' E. eauto. Qed.

Lemma ensures_true {A} (p : reader R A) : ensures p (fun _ => True).
Proof. done. Qed.

Lemma ensures_read_n {A} n (p : reader R A) P :
  ensures p P -> ensures (read_n n p) (fun l => length l = n /\ Forall P l).
Proof.
  intros Hp. induction n as [|n IH]; cbn; [by apply ensures_ret|].
  eapply ensures_bind; [done|]. intros a Ha. eapply ensures_bind; [done|].
  intros l [Hl Hall]. apply ensures_ret. cbn. auto.
Qed.

Lemma ensures_read_loop {A} n (body : A -> reader R A) (I : nat -> A -> Prop) a :
  I 0 a -> (forall i a, i < n -> I i a -> ensures (body a) (I (S i))) ->
  ensures (read_loop n body a) (I n).
Proof.
  intros H0 Hstep.
  enough (forall m i a, i + m = n -> I i a -> ensures (read_loop m body a) (I n)) as Hg
    by by apply (Hg n 0 a).
  induction m as [|m IH]; intros i a1 Hi Ha; cbn.
  - apply ensures_ret. rewrite Nat.add_0_r in Hi. by subst i.
  - eapply ensures_bind; [apply (Hstep i); [lia|done]|].
    intros a2 Ha2. apply (IH (S i)); [lia|done].
Qed.
End ensures.

(** [quiet p]: the decoder never panics.  A step may rely on what the steps
    before it ensure. *)
Definition quiet {R A} (p : reader R A) : Prop := forall s, p s <> Panic.

Section quiet.
Context {R : Type}.

Lemma quiet_ret {A} (a : A) : quiet (R:=R) (mret a).
Proof. done. Qed.

Lemma quiet_bind {A B} (p : reader R A) (k : A -> reader R B) P :
  quiet p -> ensures p P -> (forall a, P a -> quiet (k a)) -> quiet (p ≫= k).
Proof.
  intros Hq Hp Hk s. unfold mbind, reader_bind. specialize (Hq s).
  destruct (p s) as [[a s']| |] eqn:Ep; [|done|done]. exact (Hk a (Hp _ _ _ Ep) s').
Qed.

Lemma quiet_lift {A} (m : outcome string A) : m <> Panic -> quiet (R:=R) (lift m).
Proof. intros Hm s. unfold lift. by destruct m. Qed.

Lemma quiet_lift_bind {A B} (m : outcome string A) (k : A -> reader R B) :
  m <> Panic -> (forall a, m = Ok a -> quiet (k a)) -> quiet (lift m ≫= k).
Proof.
  intros Hm Hk. apply (quiet_bind _ _ (fun a => m = Ok a)); [by apply quiet_lift|by apply ensures_lift|done].
Qed.

Lemma quiet_check {B} (b : bool) e (k : unit -> reader R B) :
  (b = false -> quiet (k tt)) -> quiet (lift (reject_if b e) ≫= k).
Proof.
  intros Hk. apply quiet_lift_bind; [by destruct b|]. intros [] Hb. apply Hk. by apply reject_if_Ok in Hb.
Qed.

Lemma quiet_read_n {A} n (p : reader R A) : quiet p -> quiet (read_n n p).
Proof.
  intros Hp. induction n as [|n IH]; cbn [read_n]; [apply quiet_ret|].
  apply (quiet_bind _ _ (fun _ => True)); [done|apply ensures_true|intros a _].
  apply (quiet_bind _ _ (fun _ => True)); [done|apply ensures_true|intros l _; apply quiet_ret].
Qed.

Lemma quiet_read_loop {A} n (body : A -> reader R A) a : (forall a, quiet (body a)) -> quiet (read_loop n body a).
Proof.
  intros Hb. revert a. induction n as [|n IH]; intros a; cbn [read_loop]; [apply quiet_ret|].
  apply (quiet_bind _ _ (fun _ => True)); [apply Hb|apply ensures_true|intros a' _; apply IH].
Qed.

(** After a quiet step only the continuation panics. *)
Lemma panics_bind {A B} (p : reader R A) (k : A -> reader R B) s :
  quiet p -> (p ≫= k) s = Panic <-> exists a s', p s = Ok (a, s') /\ k a s' = Panic.
Proof.
  intros Hq. unfold mbind, reader_bind. specialize (Hq s). split.
  - destruct (p s) as [[a s']| |]; [eauto|done|done].
  - intros (a & s' & -> & Hk). done.
Qed.

Context {BR : BufRead R} {BL : BufReadLaws R}.
Lemma quiet_read_bytes n e : quiet (R:=R) (read_bytes n e).
Proof. intros s. unfold read_bytes. by destruct (read_exact n s). Qed.
End quiet.
