(* ===== verification/Interfaces.v ===== *)
(** * Interfaces between the components

    The Rust traits the components are generic over, as type classes, each
    with a second class for the laws its clients rely on:

    - [Sha256]: the [sha2] crate, used through [new], [update] and [finalize];
    - [SerializableField]: [src/rust/core/algebra/src/field.rs]. *)
From stdpp Require Import prelude strings.
From Stdlib Require Import Lia NArith.
From S2P Require Import Prelude Words.

(** ** SHA-256

    [sha2] is third-party: the digest of a byte string is a parameter.  A
    hasher in use is the list of the bytes it has absorbed: [update] appends
    and [finalize] digests. *)
Class Sha256 := sha256 : list u8 -> list u8.
Class Sha256Laws `{Sha256} := {
  sha256_length bs : length (sha256 bs) = 32
}.

Abbreviation Hasher := (list u8) (only parsing).
Definition hasher_update (h : Hasher) (data : list u8) : Hasher := h ++ data.

(** ** [SerializableField]

    [E] is the element type [F::E].  [to_bytes_into] writes exactly
    [serialized_size_bytes] bytes, so it is given as the list it writes. *)
Class SerializableField (E : Type) := {
  is_binary : bool;
  serialized_size_bytes : nat;
  to_bytes : E -> list u8;
  bytes_to_element : list u8 -> outcome string E;
  serialized_mone : list u8;
  elt_eq_dec :: EqDecision E
}.

(** What the codecs rely on: encodings have the announced size and decode to
    the element they encode. *)
Class SerializableFieldLaws (E : Type) `{SerializableField E} := {
  to_bytes_length (e : E) : length (to_bytes e) = serialized_size_bytes;
  bytes_to_element_to_bytes (e : E) : bytes_to_element (to_bytes e) = Ok e
}.

(** Decoding is canonical: only [to_bytes e] decodes to [e]. *)
Class CanonicalField (E : Type) `{SerializableField E} := {
  to_bytes_bytes_to_element bs (e : E) :
    bytes_to_element bs = Ok e -> to_bytes e = bs
}.

Lemma to_bytes_inj {E} `{SerializableFieldLaws E} (a b : E) :
  to_bytes a = to_bytes b -> a = b.
Proof.
  intros Hab. pose proof (bytes_to_element_to_bytes a) as Ha.
  rewrite Hab, bytes_to_element_to_bytes in Ha. congruence.
Qed.

(** * Concrete instances of the external parameters

    A toy digest and a toy random engine that satisfy the laws the components
    assume; the theorems are evaluated on them. *)
Local Open Scope N_scope.

Definition toy_sha256 : Sha256 := fun bs =>
  to_le_bytes 32 (foldl (fun h b => (h * 257 + u8_to_N b + 1) mod 2 ^ 256) 0 bs).
Lemma toy_sha256_laws : @Sha256Laws toy_sha256.
Proof. split. intros bs. apply length_to_le_bytes. Qed.

(** A counter. *)
Definition toy_bytes (n : nat) (g : N) : list u8 * N := (to_le_bytes n (g * 7919 + 1), g + 1).
Lemma toy_bytes_length n g : length (toy_bytes n g).1 = n.
Proof. apply length_to_le_bytes. Qed.
Definition toy_engine {E} (n : nat) (g : N) : outcome E (list u8 * N) := Ok (toy_bytes n g).
