(* ===== verification/Uleb.v ===== *)
(** * ULEB128 codecs ([src/rust/core/proto/src/uleb.rs])

    The unbounded writer and the 8-byte reader used by circuit archives, and
    the 4-byte (28-bit) codec used inside circuits, whose reader has a fast
    path over the stream's buffer and a byte-by-byte fallback.  The two paths
    are proved to agree on every buffering of the same bytes. *)
From stdpp Require Import prelude strings.
From Stdlib Require Import Lia NArith.
From S2P Require Import Prelude Words Stream.

Local Open Scope N_scope.

(** The loop runs at most ten times on a 64-bit value
    ([serialize_uleb128_unfold]). *)
Fixpoint serialize_uleb128_loop (fuel : nat) (val : N) : list u8 :=
  match fuel with
  | O => []
  | S fuel' =>
      let byte := N.land val 0x7F in
      let val := N.shiftr val 7 in
      if negb (val =? 0) then as_u8 (N.lor byte 0x80) :: serialize_uleb128_loop fuel' val
      else [as_u8 byte]
  end.

Definition serialize_uleb128 (val : N) : list u8 := serialize_uleb128_loop 10 val.

Definition read_u8 {R} `{BufRead R} (e : string) : reader R u8 :=
  b ← read_bytes 1 e; lift (index b 0).

Fixpoint read_uleb128_loop {R} `{BufRead R} (iters : nat) (val shift : N) : reader R N :=
  match iters with
  | O => lift (Err "ULEB128 value too large")
  | S iters' =>
      b ← read_u8 "Unexpected EOF reading ULEB128";
      let byte := u8_to_N b in
      let val := N.lor val (shl64 (N.land byte 0x7F) shift) in
      if N.land byte 0x80 =? 0 then mret val
      else read_uleb128_loop iters' val (shift + 7)
  end.

Definition read_uleb128 {R} `{BufRead R} : reader R N := read_uleb128_loop 8 0 0.

(** ** The 4-byte codec *)
Definition MAX_ULEB4 : N := 0x0FFFFFFF.

Fixpoint serialize_uleb128_max4_loop (iters : nat) (val : N) : list u8 :=
  match iters with
  | O => []
  | S iters' =>
      let byte := N.land val 0x7F in
      let val := N.shiftr val 7 in
      if val =? 0 then [as_u8 byte]
      else as_u8 (N.lor byte 0x80) :: serialize_uleb128_max4_loop iters' val
  end.

Definition serialize_uleb128_max4_u32 {E} (val : N) : outcome E (list u8) :=
  rust_assert (val <=? MAX_ULEB4) ;; mret (serialize_uleb128_max4_loop 4 val).

Definition serialize_uleb128_max4 {E} (val : N) : outcome E (list u8) :=
  rust_assert (val <=? MAX_ULEB4) ;; serialize_uleb128_max4_u32 (wrap32 val).

(** The fallback at the end of a buffer. *)
Fixpoint read_uleb128_max4_fallback {R} `{BufRead R} (iters : nat) (result shift : N)
  : reader R N :=
  match iters with
  | O => lift (Err "ULEB128 value exceeded 4 bytes (max 28 bits payload)")
  | S iters' =>
      b ← read_u8 "Failed to read ULEB128 byte";
      let byte := u8_to_N b in
      let result := N.lor result (shl32 (N.land byte 0x7F) shift) in
      if N.land byte 0x80 =? 0 then
        if MAX_ULEB4 <? result then lift (Err "ULEB128 value exceeds max 28 bits payload")
        else mret result
      else read_uleb128_max4_fallback iters' result (shift + 7)
  end.

(** What each arm of the fast path does once it has assembled [val] from the
    first [n] bytes of the buffer. *)
Definition uleb4_accept {R} `{BufRead R} (val : N) (n : nat) (s : R) : outcome string (N * R) :=
  if MAX_ULEB4 <? val then Err "ULEB128 value exceeds max 28 bits payload"
  else Ok (val, consume n s).

Definition read_uleb128_max4_u32 {R} `{BufRead R} : reader R N := fun s0 =>
  let (buf, s) := fill_buf s0 in
  let fallback := read_uleb128_max4_fallback 4 0 0 s in
  match buf with
  | [] => fallback
  | b0 :: buf1 =>
      let b0 := u8_to_N b0 in
      if b0 <? 0x80 then Ok (b0, consume 1 s)
      else
        match buf1 with
        | [] => fallback
        | b1 :: buf2 =>
            let b1 := u8_to_N b1 in
            if b1 <? 0x80 then
              uleb4_accept (N.lor (N.land b0 0x7F) (shl32 b1 7)) 2 s
            else
              match buf2 with
              | [] => fallback
              | b2 :: buf3 =>
                  let b2 := u8_to_N b2 in
                  if b2 <? 0x80 then
                    uleb4_accept
                      (N.lor (N.lor (N.land b0 0x7F) (shl32 (N.land b1 0x7F) 7))
                         (shl32 b2 14)) 3 s
                  else
                    match buf3 with
                    | [] => fallback
                    | b3 :: _ =>
                        let b3 := u8_to_N b3 in
                        if b3 <? 0x80 then
                          uleb4_accept
                            (N.lor (N.lor (N.lor (N.land b0 0x7F)
                                             (shl32 (N.land b1 0x7F) 7))
                                      (shl32 (N.land b2 0x7F) 14))
                               (shl32 b3 21)) 4 s
                        else fallback
                    end
              end
        end
  end.

Definition read_uleb128_max4 {R} `{BufRead R} : reader R N := read_uleb128_max4_u32.

Fixpoint uleb128_len_u32_loop (fuel : nat) (val len : N) : N :=
  match fuel with
  | O => len
  | S fuel' =>
      if 0x80 <=? val then uleb128_len_u32_loop fuel' (N.shiftr val 7) (len + 1) else len
  end.
(** At most five iterations on a 32-bit value. *)
Definition uleb128_len_u32 (val : N) : N := uleb128_len_u32_loop 5 val 1.

Example serialize_624485 : serialize_uleb128 624485 = [xe5; x8e; x26].
Proof. reflexivity. Qed.
Example read_624485 :
  read_uleb128 [xe5; x8e; x26; x07] = Ok (624485, [x07]).
Proof. reflexivity. Qed.

(** ** Seven-bit groups *)
Lemma land_7F x : N.land x 0x7F = x mod 128.
Proof. apply (land_ones_mod x 7). Qed.

Lemma shiftr_7 x : N.shiftr x 7 = x / 128.
Proof. apply N.shiftr_div_pow2. Qed.

Lemma land_80_eqb b : (N.land (u8_to_N b) 0x80 =? 0) = (u8_to_N b <? 128).
Proof. destruct b; reflexivity. Qed.

Lemma lor_80 x : N.lor (x mod 128) 0x80 = x mod 128 + 128.
Proof.
  apply (lor_disjoint_add (x mod 128) 1 7). by apply N.mod_lt.
Qed.

Lemma group_last x : x < 128 -> u8_to_N (as_u8 (N.land x 0x7F)) = x.
Proof.
  intros Hx. rewrite land_7F, N.mod_small by done. apply as_u8_small; lia.
Qed.

Lemma group_more x :
  u8_to_N (as_u8 (N.lor (N.land x 0x7F) 0x80)) = x mod 128 + 128.
Proof.
  rewrite land_7F, lor_80. apply as_u8_small.
  pose proof (N.mod_lt x 128). lia.
Qed.

Lemma group_payload x : (x mod 128 + 128) mod 128 = x mod 128.
Proof.
  rewrite <- (N.mul_1_l 128) at 2. rewrite N.Div0.mod_add.
  apply N.Div0.mod_mod.
Qed.

Lemma shl_group w x k :
  x < 128 -> k + 7 <= w -> N.shiftl x k mod 2 ^ w = N.shiftl x k.
Proof.
  intros Hx Hk. rewrite N.shiftl_mul_pow2. apply N.mod_small.
  assert (2 ^ (k + 7) <= 2 ^ w) as Hw by (apply N.pow_le_mono_r; lia).
  rewrite N.pow_add_r in Hw. change (2 ^ 7) with 128 in Hw.
  pose proof (N.pow_nonzero 2 k). nia.
Qed.

(** One group merged into the accumulator. *)
Lemma acc_group val x k :
  val < 2 ^ k -> x < 128 ->
  N.lor val (N.shiftl x k) = val + x * 2 ^ k /\ val + x * 2 ^ k < 2 ^ (k + 7).
Proof.
  intros Hv Hx. rewrite lor_disjoint_add by done. split; [done|].
  rewrite N.pow_add_r. change (2 ^ 7) with 128. nia.
Qed.

Lemma acc_combine val v k :
  val + v mod 128 * 2 ^ k + v / 128 * 2 ^ (k + 7) = val + v * 2 ^ k.
Proof.
  rewrite N.pow_add_r. change (2 ^ 7) with 128.
  pose proof (N.div_mod v 128). nia.
Qed.

Lemma pow_split v (i : nat) :
  v < 2 ^ (7 * N.of_nat (S i)) -> v / 128 < 2 ^ (7 * N.of_nat i).
Proof.
  intros Hv. apply N.Div0.div_lt_upper_bound.
  replace (7 * N.of_nat (S i)) with (7 + 7 * N.of_nat i) in Hv by lia.
  by rewrite N.pow_add_r in Hv.
Qed.

Lemma serialize_loop_nonempty fuel v :
  serialize_uleb128_loop (S fuel) v <> [].
Proof. cbn. by destruct (negb _). Qed.

(** Ten iterations complete a 64-bit value: the loop satisfies the source's
    recursion equation. *)
Lemma serialize_loop_fuel fuel v :
  v < 2 ^ (7 * N.of_nat (S fuel)) ->
  serialize_uleb128_loop (S (S fuel)) v = serialize_uleb128_loop (S fuel) v.
Proof.
  revert v; induction fuel as [|fuel IH]; intros v Hv.
  - cbn -[N.land N.shiftr N.lor N.eqb]. rewrite shiftr_7, (N.div_small v 128); done.
  - cbn [serialize_uleb128_loop]. rewrite shiftr_7.
    destruct (v / 128 =? 0); cbn [negb]; [done|].
    f_equal. apply IH. by apply pow_split.
Qed.

Lemma serialize_uleb128_unfold v :
  v < 2 ^ 64 ->
  serialize_uleb128 v =
    if negb (N.shiftr v 7 =? 0)
    then as_u8 (N.lor (N.land v 0x7F) 0x80) :: serialize_uleb128 (N.shiftr v 7)
    else [as_u8 (N.land v 0x7F)].
Proof.
  intros Hv. unfold serialize_uleb128 at 1.
  change (serialize_uleb128_loop 10 v) with
    (if negb (N.shiftr v 7 =? 0)
     then as_u8 (N.lor (N.land v 0x7F) 0x80) :: serialize_uleb128_loop 9 (N.shiftr v 7)
     else [as_u8 (N.land v 0x7F)]).
  destruct (negb _); [|done]. f_equal.
  unfold serialize_uleb128. symmetry. apply (serialize_loop_fuel 8).
  rewrite shiftr_7. apply N.Div0.div_lt_upper_bound.
  cbn in *. lia.
Qed.

(** ** Round trips *)
Section uleb_parses.
Context {R : Type} {BR : BufRead R} {BL : BufReadLaws R}.

Lemma parses_read_u8 e b : parses (read_u8 e) [b] b.
Proof.
  change [b] with ([b] ++ []). eapply parses_bind.
  - by apply parses_read_bytes.
  - intros s rest Hs. exists s. done.
Qed.

Lemma read_loop_last iters val b k :
  u8_to_N b < 128 ->
  parses (read_uleb128_loop (S iters) val k) [b]
    (N.lor val (shl64 (N.land (u8_to_N b) 0x7F) k)).
Proof.
  intros Hb. change [b] with ([b] ++ []). cbn [read_uleb128_loop].
  eapply parses_bind; [apply parses_read_u8|]. cbn beta zeta.
  rewrite land_80_eqb. rewrite (proj2 (N.ltb_lt _ _) Hb). apply parses_ret.
Qed.

Lemma read_loop_more iters val b k bs r :
  128 <= u8_to_N b ->
  parses (read_uleb128_loop iters
            (N.lor val (shl64 (N.land (u8_to_N b) 0x7F) k)) (k + 7)) bs r ->
  parses (read_uleb128_loop (S iters) val k) (b :: bs) r.
Proof.
  intros Hb Hp. change (b :: bs) with ([b] ++ bs). cbn [read_uleb128_loop].
  eapply parses_bind; [apply parses_read_u8|]. cbn beta zeta.
  rewrite land_80_eqb. by rewrite (proj2 (N.ltb_ge _ _) Hb).
Qed.

Lemma parses_uleb128_loop iters fuel val v k :
  v < 2 ^ (7 * N.of_nat (S iters)) -> (iters <= fuel)%nat ->
  val < 2 ^ k -> k + 7 * N.of_nat (S iters) <= 64 ->
  parses (read_uleb128_loop (S iters) val k)
    (serialize_uleb128_loop (S fuel) v) (val + v * 2 ^ k).
Proof.
  revert fuel val v k; induction iters as [|iters IH];
    intros fuel val v k Hv Hf Hval Hk; cbn [serialize_uleb128_loop];
    rewrite shiftr_7;
    (destruct (N.eqb_spec (v / 128) 0) as [Hz|Hz]; cbn [negb];
     [apply N.div_small_iff in Hz; [|lia]|]).
  - (* a last group *)
    replace (val + v * 2 ^ k) with
      (N.lor val (shl64 (N.land (u8_to_N (as_u8 (N.land v 127))) 127) k)).
    { apply read_loop_last. rewrite group_last; done. }
    rewrite group_last, land_7F, N.mod_small by done. unfold shl64, wrap64.
    rewrite shl_group by lia. by apply acc_group.
  - exfalso. apply Hz. apply N.div_small. by cbn in Hv.
  - replace (val + v * 2 ^ k) with
      (N.lor val (shl64 (N.land (u8_to_N (as_u8 (N.land v 127))) 127) k)).
    { apply read_loop_last. rewrite group_last; done. }
    rewrite group_last, land_7F, N.mod_small by done. unfold shl64, wrap64.
    rewrite shl_group by lia. by apply acc_group.
  - destruct fuel as [|fuel]; [lia|].
    apply read_loop_more; [rewrite group_more; apply N.le_add_l|].
    rewrite group_more, (land_7F (_ + _)), group_payload.
    unfold shl64, wrap64. pose proof (N.mod_lt v 128 ltac:(lia)).
    rewrite shl_group by lia.
    destruct (acc_group val (v mod 128) k Hval ltac:(lia)) as [-> Hlt].
    rewrite <- (acc_combine val v k). apply IH; [by apply pow_split|lia|done|lia].
Qed.

Lemma parses_uleb128 v :
  v < 2 ^ 56 -> parses read_uleb128 (serialize_uleb128 v) v.
Proof.
  intros Hv. unfold read_uleb128, serialize_uleb128.
  replace v with (0 + v * 2 ^ 0) at 2 by lia.
  apply parses_uleb128_loop; cbn; lia.
Qed.

Lemma rejects_uleb128_loop iters fuel val v k :
  2 ^ (7 * N.of_nat iters) <= v -> (iters <= fuel)%nat ->
  rejects (read_uleb128_loop iters val k)
    (serialize_uleb128_loop (S fuel) v) "ULEB128 value too large".
Proof.
  revert fuel val v k; induction iters as [|iters IH]; intros fuel val v k Hv Hf;
    [done|].
  assert (2 ^ (7 * N.of_nat iters) <= v / 128) as Hq.
  { apply N.div_le_lower_bound; [lia|].
    replace (7 * N.of_nat (S iters)) with (7 + 7 * N.of_nat iters) in Hv by lia.
    by rewrite N.pow_add_r in Hv. }
  destruct fuel as [|fuel]; [lia|].
  cbn [serialize_uleb128_loop]. rewrite shiftr_7.
  destruct (N.eqb_spec (v / 128) 0) as [Hz|Hz]; cbn [negb].
  { pose proof (N.pow_nonzero 2 (7 * N.of_nat iters)). lia. }
  cbn [read_uleb128_loop].
  eapply (rejects_bind _ _ [_] (serialize_uleb128_loop (S fuel) (v / 128)));
    [apply parses_read_u8|].
  cbn beta zeta. rewrite land_80_eqb, group_more.
  rewrite (proj2 (N.ltb_ge _ _)) by apply N.le_add_l. apply IH; [done|lia].
Qed.
End uleb_parses.

(** ** The 4-byte codec: fast path, fallback and round trip *)
Lemma max4_loop_eq iters v :
  serialize_uleb128_max4_loop iters v = serialize_uleb128_loop iters v.
Proof.
  revert v; induction iters as [|iters IH]; intros v; [done|]. cbn -[N.shiftr N.land N.lor].
  destruct (N.shiftr v 7 =? 0); cbn; [done|]. by rewrite IH.
Qed.

Section uleb4.
Context {R : Type} {BR : BufRead R} {BL : BufReadLaws R}.

(** One step of the fallback on a slice. *)
Definition fallback_arm (iters : nat) (r k : N) (l : list u8) : outcome string (N * list u8) :=
  if MAX_ULEB4 <? r then Err "ULEB128 value exceeds max 28 bits payload" else Ok (r, l).

Lemma fallback_cons iters r k b l :
  read_uleb128_max4_fallback (S iters) r k (b :: l) =
    let r' := N.lor r (shl32 (N.land (u8_to_N b) 0x7F) k) in
    if u8_to_N b <? 128 then fallback_arm iters r' k l
    else read_uleb128_max4_fallback iters r' (k + 7) l.
Proof.
  cbn [read_uleb128_max4_fallback]. unfold mbind at 1, reader_bind at 1.
  change (read_u8 _ (b :: l)) with (@Ok string (u8 * list u8) (b, l)).
  cbn beta iota zeta. rewrite land_80_eqb.
  destruct (u8_to_N b <? 128); [|done].
  unfold fallback_arm. by destruct (MAX_ULEB4 <? _).
Qed.

Lemma same_outcome_read_u8 e s :
  same_outcome (read_u8 e s) (read_u8 e (remaining s)).
Proof.
  unfold read_u8. eapply same_outcome_bind; [apply same_outcome_read_bytes|].
  intros; apply same_outcome_lift.
Qed.

Lemma same_outcome_fallback iters r k s :
  same_outcome (read_uleb128_max4_fallback iters r k s)
    (read_uleb128_max4_fallback iters r k (remaining s)).
Proof.
  revert r k s; induction iters as [|iters IH]; intros r k s; [done|].
  cbn [read_uleb128_max4_fallback].
  eapply same_outcome_bind; [apply same_outcome_read_u8|].
  intros b s'. cbn zeta. destruct (N.land (u8_to_N b) 128 =? 0); [|apply IH].
  destruct (MAX_ULEB4 <? _); [done|by split].
Qed.

Lemma accept_fallback val n (s0 : R) :
  n <= N.of_nat (length (fill_buf s0).1) ->
  same_outcome (uleb4_accept val (N.to_nat n) (fill_buf s0).2)
    (fallback_arm 0 val 0 (drop (N.to_nat n) (remaining s0))).
Proof.
  intros Hn. unfold uleb4_accept, fallback_arm.
  destruct (MAX_ULEB4 <? val); [done|]. split; [done|].
  apply consume_remaining. lia.
Qed.
End uleb4.

Lemma shl32_small_group b k :
  u8_to_N b < 128 -> k <= 25 ->
  shl32 (N.land (u8_to_N b) 0x7F) k = shl32 (u8_to_N b) k.
Proof. intros Hb Hk. by rewrite land_7F, N.mod_small. Qed.

Lemma shl32_0 b : N.lor 0 (shl32 (N.land (u8_to_N b) 0x7F) 0) = N.land (u8_to_N b) 0x7F.
Proof.
  unfold shl32, wrap32. rewrite N.lor_0_l, N.shiftl_0_r, land_7F.
  apply N.mod_small. pose proof (N.mod_lt (u8_to_N b) 128). lia.
Qed.

(** One arm of the fast path against one step of the fallback: [fin] closes
    the case where the group is the last one. *)
Ltac fallback_arm_cases fin :=
  match goal with Hfb : same_outcome _ _ |- _ =>
    rewrite fallback_cons in Hfb |- *; cbn zeta in *;
    let E := fresh "E" in
    match goal with |- context [if u8_to_N ?b <? 128 then _ else _] =>
      destruct (u8_to_N b <? 128) eqn:E; [apply N.ltb_lt in E; fin b|]
    end; try exact Hfb
  end.

(** The buffer of the stream does not matter: whichever of the fast path's
    arms is taken, the result is the one of the plain byte-by-byte loop over
    the unread bytes. *)
Lemma read_uleb128_max4_agrees {R} {BR : BufRead R} {BL : BufReadLaws R} (s : R) :
  same_outcome (read_uleb128_max4_u32 s)
    (read_uleb128_max4_fallback 4 0 0 (remaining s)).
Proof.
  unfold read_uleb128_max4_u32.
  destruct (fill_buf_prefix s) as [rest Hpre].
  pose proof (same_outcome_fallback 4 0 0 (fill_buf s).2) as Hfb.
  rewrite fill_buf_remaining in Hfb.
  pose proof (fun v n => accept_fallback v n s) as Hacc.
  rewrite (surjective_pairing (fill_buf s)).
  assert (forall b (s' : R), u8_to_N b < 128 ->
    Ok (u8_to_N b, consume 1 s') = uleb4_accept (N.land (u8_to_N b) 127) 1 s') as Hone.
  { intros b s' Hb. rewrite land_7F, N.mod_small by done.
    unfold uleb4_accept, MAX_ULEB4. destruct (N.ltb_spec 0x0FFFFFFF (u8_to_N b)); [lia|done]. }
  destruct (fill_buf s).1 as [|b0 [|b1 [|b2 [|b3 tl]]]] eqn:Hbuf;
    cbn [length] in Hacc; rewrite Hpre in Hacc, Hfb |- *; cbn [app] in *;
    try exact Hfb;
    fallback_arm_cases ltac:(fun b => rewrite Hone by done; rewrite shl32_0;
      apply (Hacc _ 1); lia);
    rewrite shl32_0 in *;
    do 3 try (fallback_arm_cases ltac:(fun b => rewrite (shl32_small_group b) by (done || lia);
      first [ apply (Hacc _ 2); lia | apply (Hacc _ 3); lia | apply (Hacc _ 4); lia ])).
Qed.

Lemma read_uleb128_max4_fallback_last iters r b k l :
  u8_to_N b < 128 ->
  read_uleb128_max4_fallback (S iters) r k (b :: l) =
    fallback_arm 0 (N.lor r (shl32 (N.land (u8_to_N b) 0x7F) k)) 0 l.
Proof. intros Hb. rewrite fallback_cons. cbn zeta. by rewrite (proj2 (N.ltb_lt _ _) Hb). Qed.

Lemma read_uleb128_max4_fallback_more iters r b k l :
  128 <= u8_to_N b ->
  read_uleb128_max4_fallback (S iters) r k (b :: l) =
    read_uleb128_max4_fallback iters (N.lor r (shl32 (N.land (u8_to_N b) 0x7F) k)) (k + 7) l.
Proof. intros Hb. rewrite fallback_cons. cbn zeta. by rewrite (proj2 (N.ltb_ge _ _) Hb). Qed.

Lemma fallback_decodes iters fuel r v k l :
  v < 2 ^ (7 * N.of_nat (S iters)) -> (iters <= fuel)%nat ->
  r < 2 ^ k -> k + 7 * N.of_nat (S iters) <= 28 ->
  read_uleb128_max4_fallback (S iters) r k (serialize_uleb128_loop (S fuel) v ++ l) =
    Ok (r + v * 2 ^ k, l).
Proof.
  revert fuel r v k; induction iters as [|iters IH];
    intros fuel r v k Hv Hf Hr Hk; cbn [serialize_uleb128_loop];
    rewrite shiftr_7;
    (destruct (N.eqb_spec (v / 128) 0) as [Hz|Hz]; cbn [negb];
     [apply N.div_small_iff in Hz; [|lia]|]).
  2: { exfalso. apply Hz. apply N.div_small. by cbn in Hv. }
  1, 2: cbn [app]; rewrite read_uleb128_max4_fallback_last by (by rewrite group_last);
    rewrite group_last, land_7F, N.mod_small by done;
    unfold shl32, wrap32; rewrite shl_group by lia;
    destruct (acc_group r v k Hr Hz) as [-> Hlt];
    unfold fallback_arm, MAX_ULEB4;
    assert (2 ^ (k + 7) <= 2 ^ 28) by (apply N.pow_le_mono_r; lia);
    change (2 ^ 28) with 268435456 in *;
    by rewrite (proj2 (N.ltb_ge _ _)) by lia.
  destruct fuel as [|fuel]; [lia|]. rewrite <- app_comm_cons.
  rewrite read_uleb128_max4_fallback_more by (rewrite group_more; apply N.le_add_l).
  rewrite group_more, (land_7F (_ + _)), group_payload.
  unfold shl32, wrap32. pose proof (N.mod_lt v 128 ltac:(lia)).
  rewrite shl_group by lia.
  destruct (acc_group r (v mod 128) k Hr ltac:(lia)) as [-> Hlt].
  rewrite <- (acc_combine r v k). apply IH; [by apply pow_split|lia|done|lia].
Qed.

Section uleb4_parses.
Context {R : Type} {BR : BufRead R} {BL : BufReadLaws R}.

Lemma parses_uleb4 v bs :
  serialize_uleb128_max4_u32 (E:=string) v = Ok bs -> parses read_uleb128_max4_u32 bs v.
Proof.
  unfold serialize_uleb128_max4_u32. intros H. inv_outcome.
  apply N.leb_le in Hx. unfold MAX_ULEB4 in Hx.
  intros s rest Hs. pose proof (read_uleb128_max4_agrees s) as Ha.
  assert (v < 2 ^ (7 * N.of_nat 4)) as Hv.
  { change (2 ^ (7 * N.of_nat 4)) with 268435456. lia. }
  assert (0 < 2 ^ 0 /\ 0 + 7 * N.of_nat 4 <= 28) as [H0 Hk] by done.
  rewrite Hs, max4_loop_eq, (fallback_decodes 3 3 0 v 0 rest Hv (le_n 3) H0 Hk) in Ha.
  unfold same_outcome in Ha.
  destruct (read_uleb128_max4_u32 s) as [[a s']| |]; try done.
  destruct Ha as [-> ?]. exists s'. split; [|done]. do 2 f_equal. lia.
Qed.

Lemma parses_uleb4_usize v bs :
  serialize_uleb128_max4 (E:=string) v = Ok bs -> parses read_uleb128_max4 bs v.
Proof.
  unfold serialize_uleb128_max4. intros H. inv_outcome.
  apply N.leb_le in Hx. unfold MAX_ULEB4 in Hx. rewrite wrap32_small in H by lia.
  by apply parses_uleb4.
Qed.
End uleb4_parses.
