(* ===== verification/DeltaTable.v ===== *)
(** * Delta tables ([src/rust/core/proto/src/cache.rs])

    The two deduplicating builders of a layer's [TermDelta] table: the
    two-way set-associative LRU cache used when reading LFC1 circuits, which
    may miss, and the exact hash-map builder used by the compiler. *)
From stdpp Require Import prelude gmap strings.
From Stdlib Require Import Lia NArith.
From S2P Require Import Prelude Words.

Local Open Scope N_scope.

(** [TermDelta] ([layer.rs]): the [u32] differences between consecutive terms
    and the index of the term's constant. *)
Record TermDelta := { d_g : N; d_h : N * N; d_k_index : N }.

#[export] Instance TermDelta_eq_dec : EqDecision TermDelta.
Proof. solve_decision. Defined.

Definition TermDelta_tuple (d : TermDelta) : N * (N * N) * N := (d_g d, d_h d, d_k_index d).
Definition tuple_TermDelta (t : N * (N * N) * N) : TermDelta :=
  {| d_g := t.1.1; d_h := t.1.2; d_k_index := t.2 |}.
#[export] Instance TermDelta_countable : Countable TermDelta.
Proof.
  refine (inj_countable' TermDelta_tuple tuple_TermDelta _). by intros [].
Defined.

Definition TermDelta_default : TermDelta := {| d_g := 0; d_h := (0, 0); d_k_index := 0 |}.

(** ** The approximate builder *)
Record Slot := { slot_d : TermDelta; slot_index : N; slot_valid : bool }.
Definition Slot_default : Slot :=
  {| slot_d := TermDelta_default; slot_index := 0; slot_valid := false |}.

(** [slots[0]] is the most recently used one. *)
Record CacheEntry := { slot0 : Slot; slot1 : Slot }.
Definition CacheEntry_default : CacheEntry := {| slot0 := Slot_default; slot1 := Slot_default |}.

Module Approximate.
Record builder := { deltas : list TermDelta; cache : list CacheEntry }.

Definition new (cache_size : N) : builder :=
  {| deltas := []; cache := replicate (N.to_nat cache_size) CacheEntry_default |}.

Definition hash_combine (seed v : N) : N :=
  N.lxor (wrapping_mul64 seed 0x100000001b3) v.

Definition hash (dg dh0 dh1 vi : N) : N :=
  let h := 0xcbf29ce484222325 in
  let h := hash_combine h dg in
  let h := hash_combine h dh0 in
  let h := hash_combine h dh1 in
  hash_combine h vi.

Definition dedup {E} (b : builder) (dg dh0 dh1 vi : N) : outcome E (N * builder) :=
  let d := {| d_g := dg; d_h := (dh0, dh1); d_k_index := vi |} in
  let h := hash dg dh0 dh1 vi in
  (* [%] by zero panics *)
  rust_assert (negb (Nat.eqb (length (cache b)) 0)) ;;
  let idx := N.to_nat (h mod N.of_nat (length (cache b))) in
  ent ← index (cache b) idx;
  if slot_valid (slot0 ent) && bool_decide (slot_d (slot0 ent) = d) then
    mret (slot_index (slot0 ent), b)
  else if slot_valid (slot1 ent) && bool_decide (slot_d (slot1 ent) = d) then
    let ent' := {| slot0 := slot1 ent; slot1 := slot0 ent |} in
    mret (slot_index (slot0 ent'), {| deltas := deltas b; cache := <[idx := ent']> (cache b) |})
  else
    let i := wrap32 (N.of_nat (length (deltas b))) in
    let ent' := {| slot0 := {| slot_d := d; slot_index := i; slot_valid := true |};
                   slot1 := slot0 ent |} in
    mret (i, {| deltas := deltas b ++ [d]; cache := <[idx := ent']> (cache b) |}).

(** Every valid slot points at its own delta in the table. *)
Definition slot_ok (ds : list TermDelta) (s : Slot) : Prop :=
  slot_valid s = true -> ds !! N.to_nat (slot_index s) = Some (slot_d s).
Definition invariant (b : builder) : Prop :=
  cache b <> [] /\
  forall ent, ent ∈ cache b -> slot_ok (deltas b) (slot0 ent) /\ slot_ok (deltas b) (slot1 ent).

Lemma slot_ok_snoc ds s d : slot_ok ds s -> slot_ok (ds ++ [d]) s.
Proof. intros Hs Hv. apply lookup_app_l_Some. auto. Qed.

Lemma approximate_new_invariant n : n <> 0 -> invariant (new n).
Proof.
  intros Hn. split; cbn.
  - destruct (N.to_nat n) eqn:E; cbn; [lia|done].
  - intros ent He. apply elem_of_replicate in He as [-> _]. by split.
Qed.

Lemma insert_invariant ds ds' c i ent :
  c <> [] ->
  (forall e, e ∈ c -> slot_ok ds (slot0 e) /\ slot_ok ds (slot1 e)) ->
  (forall s, slot_ok ds s -> slot_ok ds' s) ->
  slot_ok ds' (slot0 ent) -> slot_ok ds' (slot1 ent) ->
  invariant {| deltas := ds'; cache := <[i := ent]> c |}.
Proof.
  intros Hc Hall Hmono H0 H1. split; cbn.
  - intros E. apply (f_equal length) in E. rewrite length_insert in E.
    by destruct c.
  - intros e He. apply list_elem_of_lookup in He as [j Hj].
    destruct (decide (i = j)) as [->|Hne].
    + apply list_lookup_insert_Some in Hj as [(_ & <- & _)|(? & _)]; [by split|done].
    + rewrite list_lookup_insert_ne in Hj by done.
      apply list_elem_of_lookup_2 in Hj. apply Hall in Hj as []. split; auto.
Qed.

(** Deduplication never fails, only ever appends to the table, returns the
    index of the delta it was given, and keeps the cache consistent.  Below
    2^32 deltas the index does not wrap. *)
Lemma approximate_dedup_spec {E} b dg dh0 dh1 vi :
  invariant b -> N.of_nat (length (deltas b)) < 2 ^ 32 ->
  exists i b', dedup (E:=E) b dg dh0 dh1 vi = Ok (i, b') /\ invariant b' /\
    (exists suffix, deltas b' = deltas b ++ suffix /\
     (suffix = [] \/ suffix = [{| d_g := dg; d_h := (dh0, dh1); d_k_index := vi |}])) /\
    deltas b' !! N.to_nat i = Some {| d_g := dg; d_h := (dh0, dh1); d_k_index := vi |}.
Proof.
  intros [Hne Hall] Hlen. unfold dedup.
  set (d := {| d_g := dg; d_h := (dh0, dh1); d_k_index := vi |}).
  destruct (Nat.eqb_spec (length (cache b)) 0) as [Hz|Hz]; [by destruct (cache b)|].
  cbn [negb rust_assert]. rewrite bind_Ok.
  set (idx := N.to_nat _).
  assert (idx < length (cache b))%nat as Hidx by by apply N_to_nat_mod_lt.
  destruct (lookup_lt_is_Some_2 _ _ Hidx) as [ent Hent].
  unfold index. rewrite Hent, bind_Ok.
  destruct (Hall ent) as [Hs0 Hs1]; [by apply list_elem_of_lookup_2 in Hent|].
  destruct (slot_valid (slot0 ent) && _) eqn:Hm0.
  { apply andb_true_iff in Hm0 as [Hv Hd]. apply bool_decide_eq_true in Hd.
    exists (slot_index (slot0 ent)), b. rewrite <- Hd.
    split_and!; [done|done| |by apply Hs0]. exists []. rewrite app_nil_r; auto. }
  destruct (slot_valid (slot1 ent) && _) eqn:Hm1.
  { apply andb_true_iff in Hm1 as [Hv Hd]. apply bool_decide_eq_true in Hd.
    eexists _, _. split; [done|]. cbn. rewrite <- Hd. split_and!.
    - by eapply insert_invariant; eauto.
    - exists []. rewrite app_nil_r; auto.
    - by apply Hs1. }
  eexists _, _. split; [done|]. cbn [deltas cache].
  rewrite wrap32_small, Nat2N.id by done.
  assert ((deltas b ++ [d]) !! length (deltas b) = Some d) as Hlast
    by by rewrite lookup_app_r, Nat.sub_diag.
  split_and!; [|exists [d]; auto|done].
  eapply insert_invariant; eauto; cbn.
  - intros s Hs. by apply slot_ok_snoc.
  - intros _. cbn. by rewrite Nat2N.id.
  - by apply slot_ok_snoc.
Qed.
End Approximate.

(** ** The exact builder *)
Module Exact.
Record builder := { deltas : list TermDelta; map : gmap TermDelta N }.

Definition new : builder := {| deltas := []; map := ∅ |}.

Definition dedup (b : builder) (dg dh0 dh1 vi : N) : N * builder :=
  let d := {| d_g := dg; d_h := (dh0, dh1); d_k_index := vi |} in
  match map b !! d with
  | Some i => (i, b)
  | None =>
      let i := wrap32 (N.of_nat (length (deltas b))) in
      (i, {| deltas := deltas b ++ [d]; map := <[d := i]> (map b) |})
  end.

(** The map is the inverse of the table. *)
Definition invariant (b : builder) : Prop :=
  forall d i, map b !! d = Some i <-> (deltas b !! N.to_nat i = Some d).

Lemma exact_new_invariant : invariant new.
Proof. intros d i. cbn. by rewrite lookup_empty. Qed.

Lemma invariant_NoDup b : invariant b -> NoDup (deltas b).
Proof.
  intros Hinv. apply NoDup_alt. intros i j d Hi Hj.
  rewrite <- (Nat2N.id i) in Hi. rewrite <- (Nat2N.id j) in Hj.
  apply Hinv in Hi, Hj. rewrite Hi in Hj. injection Hj. lia.
Qed.

Lemma exact_dedup_spec b dg dh0 dh1 vi :
  invariant b -> N.of_nat (length (deltas b)) < 2 ^ 32 ->
  let '(i, b') := dedup b dg dh0 dh1 vi in
  invariant b' /\
  (exists suffix, deltas b' = deltas b ++ suffix /\
     (suffix = [] \/ suffix = [{| d_g := dg; d_h := (dh0, dh1); d_k_index := vi |}])) /\
  deltas b' !! N.to_nat i = Some {| d_g := dg; d_h := (dh0, dh1); d_k_index := vi |}.
Proof.
  intros Hinv Hlen. unfold dedup. set (d := {| d_g := dg |}).
  destruct (map b !! d) as [i|] eqn:Hd.
  { split_and!; [done| |by apply Hinv]. exists []. rewrite app_nil_r; auto. }
  cbn [deltas map]. rewrite wrap32_small, Nat2N.id by done.
  assert ((deltas b ++ [d]) !! length (deltas b) = Some d) as Hlast
    by by rewrite lookup_app_r, Nat.sub_diag.
  split_and!; [|exists [d]; auto|done].
  intros d' i. cbn. destruct (decide (d' = d)) as [->|Hne].
  - rewrite lookup_insert_eq. split; [intros Heq; injection Heq as <-; by rewrite Nat2N.id|].
    intros Hi. apply lookup_app_Some in Hi as [Hi|[Hge Hi]].
    + apply Hinv in Hi. congruence.
    + apply list_lookup_singleton_Some in Hi as [Hi _]. f_equal. lia.
  - rewrite lookup_insert_ne by done. rewrite (Hinv d' i). split; intros Hi.
    + by apply lookup_app_l_Some.
    + apply lookup_app_Some in Hi as [Hi|[Hge Hi]]; [done|].
      apply list_lookup_singleton_Some in Hi as [_ Hi]. congruence.
Qed.
End Exact.
