(* ===== verification/Util.v ===== *)
(** * Utilities ([src/rust/util/src])

    [ceil_log2] and the Morton (Z-order) comparison of wire pairs, with the
    facts that identify the latter with the order of interleaved bits. *)
From stdpp Require Import prelude.
From Stdlib Require Import Lia NArith.
From S2P Require Import Prelude Words.

(** Panics on zero. *)
Definition ceil_log2 {E} (n : nat) : outcome E nat :=
  match n with
  | 0 => Panic
  | 1 => Ok 0
  | _ => Ok (Nat.log2 (n - 1) + 1)
  end.

Lemma ceil_log2_spec {E} n k :
  @ceil_log2 E n = Ok k -> n <= 2 ^ k /\ (k = 0 \/ 2 ^ (k - 1) < n).
Proof.
  destruct n as [|[|n]]; cbn [ceil_log2]; [done| |].
  - intros [= <-]. cbn. lia.
  - intros Hk. apply Ok_inj in Hk as <-.
    assert (0 < S (S n) - 1) as Hpos by lia.
    destruct (Nat.log2_spec _ Hpos) as [Hlo Hhi].
    replace (Nat.log2 (S (S n) - 1) + 1 - 1) with (Nat.log2 (S (S n) - 1)) by lia.
    rewrite Nat.add_1_r. split; [|right]; lia.
Qed.

Lemma ceil_log2_pos {E} n : n <> 0 -> exists k, @ceil_log2 E n = Ok k.
Proof. destruct n as [|[|n]]; cbn; eauto; lia. Qed.

Module morton.
Local Open Scope N_scope.

(** [(usize::BITS - 1) - diff.leading_zeros()] of a nonzero [diff]. *)
Definition msb (diff : N) : N := N.log2 diff.

Definition bit_is_zero (x k : N) : bool := N.land (N.shiftr x k) 1 =? 0.

Definition cmp (x0 x1 y0 y1 : N) : comparison :=
  let diff0 := N.lxor x0 y0 in
  let diff1 := N.lxor x1 y1 in
  if (diff0 =? 0) && (diff1 =? 0) then Eq
  else if diff1 =? 0 then
    if bit_is_zero x0 (msb diff0) then Lt else Gt
  else if diff0 =? 0 then
    if bit_is_zero x1 (msb diff1) then Lt else Gt
  else
    let msb0 := msb diff0 in
    let msb1 := msb diff1 in
    let is_less := if msb0 <=? msb1 then bit_is_zero x1 msb1 else bit_is_zero x0 msb0 in
    if is_less then Lt else Gt.

(** *** The interleaved key

    [key n x0 x1] interleaves the low [n] bits of both indices, the bit of
    [x1] being the more significant of each pair; [key' n] starts with a bit
    of [x1]. *)
Fixpoint key (n : nat) (x0 x1 : N) : N :=
  match n with
  | O => 0
  | S n' => x0 mod 2 + 2 * (x1 mod 2 + 2 * key n' (x0 / 2) (x1 / 2))
  end.
Definition key' (n : nat) (x0 x1 : N) : N :=
  match n with
  | O => 0
  | S n' => x1 mod 2 + 2 * key n' x0 (x1 / 2)
  end.

Lemma key_succ n x0 x1 : key (S n) x0 x1 = x0 mod 2 + 2 * key' (S n) (x0 / 2) x1.
Proof. reflexivity. Qed.

Lemma key_inj n x0 x1 y0 y1 :
  x0 < 2 ^ N.of_nat n -> x1 < 2 ^ N.of_nat n ->
  y0 < 2 ^ N.of_nat n -> y1 < 2 ^ N.of_nat n ->
  key n x0 x1 = key n y0 y1 -> x0 = y0 /\ x1 = y1.
Proof.
  revert x0 x1 y0 y1; induction n as [|n IH]; intros x0 x1 y0 y1 Hx0 Hx1 Hy0 Hy1 Hk.
  { cbn in *. lia. }
  rewrite Nat2N.inj_succ, N.pow_succ_r' in *. cbn [key] in Hk.
  pose proof (N.mod_lt x0 2 ltac:(lia)). pose proof (N.mod_lt x1 2 ltac:(lia)).
  pose proof (N.mod_lt y0 2 ltac:(lia)). pose proof (N.mod_lt y1 2 ltac:(lia)).
  assert (forall a, a < 2 * 2 ^ N.of_nat n -> a / 2 < 2 ^ N.of_nat n) as Hdiv
    by (intros; by apply N.Div0.div_lt_upper_bound).
  destruct (IH (x0 / 2) (x1 / 2) (y0 / 2) (y1 / 2)) as [E0 E1]; auto; [dlia|].
  rewrite (N.div_mod x0 2), (N.div_mod x1 2), (N.div_mod y0 2), (N.div_mod y1 2) by lia.
  rewrite E0, E1. split; dlia.
Qed.
(** [msb] and [bit_is_zero] one bit down. *)
Lemma msb_half d : d / 2 <> 0 -> msb d = N.succ (msb (d / 2)).
Proof.
  intros Hd. unfold msb. rewrite <- N.div2_div in *. symmetry.
  apply N.neq_0_lt_0 in Hd. rewrite (N.div2_odd d) at 2. destruct (N.odd d); cbn [N.b2n].
  - by rewrite N.log2_succ_double.
  - by rewrite N.add_0_r, N.log2_double.
Qed.

Lemma bit_is_zero_succ x k : bit_is_zero x (N.succ k) = bit_is_zero (x / 2) k.
Proof.
  unfold bit_is_zero. do 2 f_equal. rewrite <- N.div2_div, N.div2_spec, N.shiftr_shiftr.
  f_equal. lia.
Qed.

Lemma lxor_half x y : N.lxor x y / 2 = N.lxor (x / 2) (y / 2).
Proof. rewrite <- !N.div2_div, !N.div2_spec. apply N.shiftr_lxor. Qed.

Lemma small_half d : d / 2 = 0 -> d = 0 \/ d = 1.
Proof. intros. dlia. Qed.

(** Above the lowest bit the comparison does not look at it. *)
Lemma cmp_high x0 x1 y0 y1 :
  x0 / 2 <> y0 / 2 \/ x1 / 2 <> y1 / 2 ->
  cmp x0 x1 y0 y1 = cmp (x0 / 2) (x1 / 2) (y0 / 2) (y1 / 2).
Proof.
  intros Hor.
  assert (N.lxor x0 y0 / 2 <> 0 \/ N.lxor x1 y1 / 2 <> 0) as Hne
    by (rewrite !lxor_half; destruct Hor; [left|right]; by rewrite N.lxor_eq_0_iff).
  unfold cmp.
  rewrite <- !lxor_half. generalize (N.lxor x0 y0) (N.lxor x1 y1) Hne. clear.
  intros d0 d1 Hne.
  destruct (N.eqb_spec (d0 / 2) 0) as [E0|E0], (N.eqb_spec (d1 / 2) 0) as [E1|E1];
    cbn [andb]; [tauto| | |].
  - destruct (N.eqb_spec d1 0) as [->|_]; [done|].
    rewrite (msb_half d1 E1), bit_is_zero_succ, andb_false_r.
    destruct (small_half _ E0) as [->| ->]; [done|].
    rewrite (proj2 (N.leb_le _ _)) by (cbn; lia). done.
  - destruct (N.eqb_spec d0 0) as [->|_]; [done|]. cbn [andb].
    rewrite (msb_half d0 E0), !bit_is_zero_succ.
    destruct (small_half _ E1) as [->| ->]; [done|]. cbn.
    rewrite (proj2 (N.leb_gt _ _)) by lia. done.
  - destruct (N.eqb_spec d0 0) as [->|_]; [done|].
    destruct (N.eqb_spec d1 0) as [->|_]; [done|]. cbn [andb].
    rewrite (msb_half d0 E0), (msb_half d1 E1), !bit_is_zero_succ.
    replace (N.succ (msb (d0 / 2)) <=? N.succ (msb (d1 / 2)))
      with (msb (d0 / 2) <=? msb (d1 / 2)); [done|].
    destruct (N.leb_spec (msb (d0 / 2)) (msb (d1 / 2))),
      (N.leb_spec (N.succ (msb (d0 / 2))) (N.succ (msb (d1 / 2)))); lia.
Qed.

Lemma half_mod x : x = 2 * (x / 2) + x mod 2.
Proof. apply N.div_mod. lia. Qed.

(** Indices that agree above the lowest bit compare by it, [x1] first. *)
Lemma cmp_low q0 q1 (b0 b1 c0 c1 : bool) :
  cmp (2 * q0 + N.b2n b0) (2 * q1 + N.b2n b1) (2 * q0 + N.b2n c0) (2 * q1 + N.b2n c1)
  = N.compare (N.b2n b0 + 2 * N.b2n b1) (N.b2n c0 + 2 * N.b2n c1).
Proof.
  assert (forall q (b c : bool), N.lxor (2 * q + N.b2n b) (2 * q + N.b2n c) = N.b2n (xorb b c)) as Hx.
  { intros q b c. apply N.bits_inj. intros k. rewrite N.lxor_spec.
    destruct (N.zero_or_succ k) as [->|[j ->]].
    - rewrite !N.testbit_0_r, N.b2n_bit0. done.
    - rewrite !N.testbit_succ_r, xorb_nilpotent. destruct (xorb b c); cbn [N.b2n];
        [symmetry; apply N.bits_above_log2; cbn; lia|by rewrite N.bits_0]. }
  assert (forall q (b : bool), bit_is_zero (2 * q + N.b2n b) 0 = negb b) as Hb.
  { intros q b. unfold bit_is_zero. rewrite N.shiftr_0_r.
    replace 1 with (N.ones 1) by done. rewrite N.land_ones, N.pow_1_r.
    rewrite N.add_comm, N.mul_comm, N.Div0.mod_add. by destruct b. }
  pose proof (fun q => Hb q true) as Hb1. pose proof (fun q => Hb q false) as Hb0.
  cbn [N.b2n negb] in Hb1, Hb0. unfold cmp. rewrite !Hx.
  destruct b0, c0, b1, c1; cbn [xorb N.b2n]; try reflexivity;
    cbn -[bit_is_zero N.mul N.add];
    first [rewrite Hb1 | rewrite Hb0]; reflexivity.
Qed.

Lemma b2n_mod2 x : x mod 2 = N.b2n (N.odd x).
Proof. rewrite <- N.bit0_odd. symmetry. apply N.bit0_mod. Qed.

(** The comparison is the order of the interleaved keys. *)
Lemma cmp_key n x0 x1 y0 y1 :
  x0 < 2 ^ N.of_nat n -> x1 < 2 ^ N.of_nat n ->
  y0 < 2 ^ N.of_nat n -> y1 < 2 ^ N.of_nat n ->
  cmp x0 x1 y0 y1 = N.compare (key n x0 x1) (key n y0 y1).
Proof.
  revert x0 x1 y0 y1; induction n as [|n IH]; intros x0 x1 y0 y1 Hx0 Hx1 Hy0 Hy1.
  { cbn in *. replace x0 with 0 by lia. replace x1 with 0 by lia.
    replace y0 with 0 by lia. replace y1 with 0 by lia. done. }
  rewrite Nat2N.inj_succ, N.pow_succ_r' in *. cbn [key].
  assert (forall a, a < 2 * 2 ^ N.of_nat n -> a / 2 < 2 ^ N.of_nat n) as Hdiv
    by (intros; by apply N.Div0.div_lt_upper_bound).
  pose proof (N.mod_lt x0 2 ltac:(lia)). pose proof (N.mod_lt x1 2 ltac:(lia)).
  pose proof (N.mod_lt y0 2 ltac:(lia)). pose proof (N.mod_lt y1 2 ltac:(lia)).
  destruct (decide (x0 / 2 = y0 / 2 /\ x1 / 2 = y1 / 2)) as [[E0 E1]|Hne].
  - rewrite E0, E1, (half_mod x0), (half_mod x1), (half_mod y0), (half_mod y1) at 1.
    rewrite E0, E1, !b2n_mod2, cmp_low.
    destruct (N.odd x0), (N.odd x1), (N.odd y0), (N.odd y1); cbn [N.b2n]; symmetry;
      (apply N.compare_eq_iff || apply N.compare_lt_iff || apply N.compare_gt_iff); lia.
  - rewrite cmp_high by (destruct (decide (x0 / 2 = y0 / 2)); tauto). rewrite IH by auto.
    assert (key n (x0 / 2) (x1 / 2) <> key n (y0 / 2) (y1 / 2)) as Hk.
    { intros Hk. apply Hne, (key_inj n); auto. }
    revert Hk. generalize (key n (x0 / 2) (x1 / 2)) (key n (y0 / 2) (y1 / 2)).
    intros kx ky Hk. destruct (N.lt_trichotomy kx ky) as [Hlt|[Heq|Hgt]]; [|done|].
    + rewrite (proj2 (N.compare_lt_iff _ _) Hlt). symmetry. apply N.compare_lt_iff. dlia.
    + rewrite (proj2 (N.compare_gt_iff _ _) Hgt). symmetry. apply N.compare_gt_iff. dlia.
Qed.
End morton.
