(* ===== verification/Circuit.v ===== *)
(** * Circuits ([src/rust/core/proto/src/{layer,circuit}.rs])

    A layer's quadratic terms are stored as a table of deltas, segments of
    indices into that table and a sequence of tokens naming segments.  This
    file models the data, the traversals that expand it and [compute_id]. *)
From stdpp Require Import prelude gmap strings.
From Stdlib Require Import Lia NArith.
From S2P Require Import Prelude Words Interfaces DeltaTable Util.

Definition MAX_LOGW : nat := 40.
Definition sane_logw (logw : nat) : bool := (logw <=? MAX_LOGW) && (logw <? 64).

Record Term (E : Type) := { t_k : E; t_g : N; t_h0 : N; t_h1 : N }.
Arguments t_k {_} _. Arguments t_g {_} _. Arguments t_h0 {_} _. Arguments t_h1 {_} _.
Arguments Build_Term {_} _ _ _ _.

Record Layer := {
  nw : nat;
  logw : nat;
  deltas : list TermDelta;
  delta_segments : list (list N);
  delta_tokens : list N
}.

Definition new_uncompressed (nw logw : nat) (deltas : list TermDelta)
    (delta_sequence : list N) : Layer :=
  {| nw := nw; logw := logw; deltas := deltas;
     delta_segments := [delta_sequence]; delta_tokens := [0%N] |}.

(** Deduplicate one run of deltas, in order. *)
Definition compress_run (db : Exact.builder) (run : list TermDelta)
  : list N * Exact.builder :=
  foldl (fun '(seg, db) d =>
    let (idx, db) := Exact.dedup db (d_g d) (d_h d).1 (d_h d).2 (d_k_index d) in
    (seg ++ [idx], db)) ([], db) run.

Definition new_compressed (nw logw : nat) (runs : list (list TermDelta))
    (tokens : list N) : Layer :=
  let '(segs, db) :=
    foldl (fun '(segs, db) run =>
      let (seg, db) := compress_run db run in (segs ++ [seg], db))
      ([], Exact.new) runs in
  {| nw := nw; logw := logw; deltas := Exact.deltas db;
     delta_segments := segs; delta_tokens := tokens |}.

(** The nested loops over tokens and segments every traversal is made of. *)
Definition for_each_delta_index {E S} (layer : Layer) (cb : S -> N -> outcome E S) (s : S)
  : outcome E S :=
  foldM (fun s tok =>
    seg ← index (delta_segments layer) (N.to_nat tok);
    foldM cb s seg) s (delta_tokens layer).

Definition for_each_delta {E S} (layer : Layer) (cb : S -> TermDelta -> outcome E S) (s : S)
  : outcome E S :=
  for_each_delta_index layer (fun s d_idx =>
    d ← index (deltas layer) (N.to_nat d_idx); cb s d) s.

(** The running [(prev_g, prev_h0, prev_h1)]. *)
Abbreviation prev := (N * N * N)%type.

Definition apply_delta (p : prev) (d : TermDelta) : prev :=
  let '(prev_g, prev_h0, prev_h1) := p in
  (wrapping_add32 prev_g (d_g d), wrapping_add32 prev_h0 (d_h d).1,
   wrapping_add32 prev_h1 (d_h d).2).

Definition term_at {A} (k : A) (p : prev) : Term A :=
  let '(g, h0, h1) := p in {| t_k := k; t_g := g; t_h0 := h0; t_h1 := h1 |}.

(** [for_each_term] and, when the callback can fail, [try_for_each_term]. *)
Definition for_each_term {E S A} (layer : Layer) (constants : list A)
    (cb : S -> Term A -> outcome E S) (s : S) : outcome E S :=
  snd <$> for_each_delta_index layer (fun '(p, s) d_idx =>
    d ← index (deltas layer) (N.to_nat d_idx);
    let p := apply_delta p d in
    k ← index constants (N.to_nat (d_k_index d));
    s ← cb s (term_at k p);
    mret (p, s)) ((0%N, 0%N, 0%N), s).

Definition terms {E A} (layer : Layer) (constants : list A) : outcome E (list (Term A)) :=
  for_each_term layer constants (fun ts t => mret (ts ++ [t])) [].

Definition num_terms {E} (layer : Layer) : outcome E nat :=
  foldM (fun n tok =>
    seg ← index (delta_segments layer) (N.to_nat tok);
    mret (n + length seg)) 0 (delta_tokens layer).

(** A term that starts a new corner when the output index is bound. *)
Definition moves_h (d : TermDelta) : bool :=
  negb ((d_h d).1 =? 0)%N || negb ((d_h d).2 =? 0)%N.

Definition nterms_after_bind_g {E} (layer : Layer) : outcome E nat :=
  seg_counts ← mapM (fun seg =>
    foldM (fun n d_idx =>
      d ← index (deltas layer) (N.to_nat d_idx);
      mret (if moves_h d then S n else n)) 0 seg) (delta_segments layer);
  fst <$> foldM (fun '(total, is_first) tok =>
    seg ← index (delta_segments layer) (N.to_nat tok);
    match seg with
    | [] => mret (total, is_first)
    | d0 :: _ =>
        total ← (if is_first : bool then
                   first_d ← index (deltas layer) (N.to_nat d0);
                   mret (if moves_h first_d then total else S total)
                 else mret total);
        n ← index seg_counts (N.to_nat tok);
        mret (total + n, false)
    end) (0, true) (delta_tokens layer).

Section terms_order.
Context {A : Type} `{SerializableField A}.

Definition canonical_term (t : Term A) : Term A :=
  if (t_h1 t <? t_h0 t)%N
  then {| t_k := t_k t; t_g := t_g t; t_h0 := t_h1 t; t_h1 := t_h0 t |}
  else t.

(** [Vec<u8>]'s lexicographic order. *)
Fixpoint cmp_bytes (a b : list u8) : comparison :=
  match a, b with
  | [], [] => Eq
  | [], _ :: _ => Lt
  | _ :: _, [] => Gt
  | x :: a', y :: b' =>
      match N.compare (u8_to_N x) (u8_to_N y) with
      | Eq => cmp_bytes a' b'
      | c => c
      end
  end.

(** [Ordering::then_with] *)
Definition then_with (c d : comparison) : comparison :=
  match c with Eq => d | _ => c end.

Definition compare_term (t s : Term A) : comparison :=
  then_with (then_with (morton.cmp (t_h0 t) (t_h1 t) (t_h0 s) (t_h1 s))
               (N.compare (t_g t) (t_g s)))
    (cmp_bytes (to_bytes (t_k t)) (to_bytes (t_k s))).
End terms_order.

Record RawCircuit (E : Type) := {
  ninput : nat;
  npublic_input : nat;
  noutput : nat;
  logv : nat;
  subfield_boundary : nat;
  constants : list E;
  layers : list Layer
}.
Arguments ninput {_} _. Arguments npublic_input {_} _. Arguments noutput {_} _.
Arguments logv {_} _. Arguments subfield_boundary {_} _. Arguments constants {_} _.
Arguments layers {_} _.

Record Circuit (E : Type) := { raw : RawCircuit E; id : list u8 }.
Arguments raw {_} _. Arguments id {_} _.

Inductive FieldID :=
| FieldNone | P256 | P384 | P521 | Gf2_128 | Gf2_16 | Fp128 | Fp64 | Goldi | Fp64_2 | Secp.
Definition FieldID_as_usize (f : FieldID) : N :=
  match f with
  | FieldNone => 0 | P256 => 1 | P384 => 2 | P521 => 3 | Gf2_128 => 4 | Gf2_16 => 5
  | Fp128 => 6 | Fp64 => 7 | Goldi => 8 | Fp64_2 => 9 | Secp => 10
  end.

(** ** [compute_id] *)
Definition update8 (hasher : Hasher) (val : nat) : Hasher :=
  hasher_update hasher (to_le_bytes 8 (N.of_nat val)).

(** The 8192-byte staging buffer in front of the hasher. *)
Definition ID_BUF : N := 8192.
Record IdBuf := { ib_hasher : Hasher; ib_buf : list u8 }.

(** [if buf_len + n > buf.len() { hasher.update(&buf[..buf_len]); buf_len = 0 }] *)
Definition id_reserve (b : IdBuf) (n : N) : IdBuf :=
  if (ID_BUF <? N.of_nat (length (ib_buf b)) + n)%N
  then {| ib_hasher := hasher_update (ib_hasher b) (ib_buf b); ib_buf := [] |}
  else b.

(** [buf[buf_len..buf_len + n].copy_from_slice(..); buf_len += n]: panics
    when the range leaves the buffer. *)
Definition id_put {E} (b : IdBuf) (bs : list u8) : outcome E IdBuf :=
  rust_assert (N.of_nat (length (ib_buf b)) + N.of_nat (length bs) <=? ID_BUF)%N ;;
  mret {| ib_hasher := ib_hasher b; ib_buf := ib_buf b ++ bs |}.

Definition id_put_nums {E} (b : IdBuf) (vals : list N) : outcome E IdBuf :=
  foldM (fun b v => id_put b (to_le_bytes 8 v)) b vals.

(** The constant's bytes: those that do not fit the buffer go straight to the
    hasher. *)
Definition id_put_const {E} (b : IdBuf) (cb : list u8) : outcome E IdBuf :=
  if (ID_BUF <? N.of_nat (length cb))%N then
    let h := match ib_buf b with [] => ib_hasher b
             | _ => hasher_update (ib_hasher b) (ib_buf b) end in
    mret {| ib_hasher := hasher_update h cb; ib_buf := [] |}
  else id_put b cb.

Definition id_layer {E} (const_bytes : list (list u8)) (b : IdBuf) (layer : Layer)
  : outcome E IdBuf :=
  nt ← num_terms layer;
  b ← foldM (fun b val => id_put (id_reserve b 8) (to_le_bytes 8 val)) b
        [N.of_nat (nw layer); N.of_nat (logw layer); N.of_nat nt];
  snd <$> for_each_delta_index layer (fun '(p, b) d_idx =>
    d ← index (deltas layer) (N.to_nat d_idx);
    let '(g, h0, h1) := apply_delta p d in
    cb ← index const_bytes (N.to_nat (d_k_index d));
    b ← id_put_nums (id_reserve b (24 + N.of_nat (length cb))) [g; h0; h1];
    b ← id_put_const b cb;
    mret ((g, h0, h1), b)) ((0%N, 0%N, 0%N), b).

Section compute_id.
Context {A : Type} `{SerializableField A} `{Sha256}.

Definition id_header (raw : RawCircuit A) : Hasher :=
  let hasher : Hasher := [] in
  let hasher :=
    if is_binary then
      let hasher := hasher_update hasher (to_le_bytes 8 2) in
      hasher_update hasher (to_le_bytes 8 (N.of_nat (serialized_size_bytes * 8)))
    else
      let hasher := hasher_update hasher (to_le_bytes 8 1) in
      hasher_update hasher serialized_mone in
  let hasher := update8 hasher (noutput raw) in
  let hasher := update8 hasher (logv raw) in
  let hasher := update8 hasher 1 in (* ncopies *)
  let hasher := update8 hasher 0 in (* logc *)
  let hasher := update8 hasher (length (layers raw)) in
  let hasher := update8 hasher (ninput raw) in
  let hasher := update8 hasher (npublic_input raw) in
  update8 hasher (subfield_boundary raw).

Definition compute_id {E} (raw : RawCircuit A) : outcome E (list u8) :=
  let const_bytes := map to_bytes (constants raw) in
  b ← foldM (id_layer const_bytes) {| ib_hasher := id_header raw; ib_buf := [] |} (layers raw);
  let hasher := match ib_buf b with [] => ib_hasher b
                | _ => hasher_update (ib_hasher b) (ib_buf b) end in
  mret (sha256 hasher).
End compute_id.

(** ** Facts about circuits

    The well-formedness the readers establish, the expansion of a layer as a
    pure list of terms, the loops of [Circuit] in terms of that list, and
    [compute_id] as the digest of an explicit preimage. *)
(** ** Well-formed layers: every stored index is in range. *)
Record layer_wf (nconst : nat) (l : Layer) : Prop := {
  tokens_in_range : Forall (fun tok => N.to_nat tok < length (delta_segments l)) (delta_tokens l);
  segments_in_range :
    Forall (Forall (fun i => N.to_nat i < length (deltas l))) (delta_segments l);
  deltas_in_range : Forall (fun d => N.to_nat (d_k_index d) < nconst) (deltas l)
}.

(** The deltas are [u32]s. *)
Definition delta_u32 (d : TermDelta) : Prop :=
  (d_g d < 2 ^ 32 /\ (d_h d).1 < 2 ^ 32 /\ (d_h d).2 < 2 ^ 32)%N.
Definition layer_u32 (l : Layer) : Prop := Forall delta_u32 (deltas l).

(** The deltas of a layer in traversal order. *)
Definition layer_indices (l : Layer) : list N :=
  concat (omap (fun tok => delta_segments l !! N.to_nat tok) (delta_tokens l)).
Definition layer_deltas (l : Layer) : list TermDelta :=
  omap (fun i => deltas l !! N.to_nat i) (layer_indices l).

Fixpoint terms_from {A} (constants : list A) (p : prev) (ds : list TermDelta) : list (Term A) :=
  match ds with
  | [] => []
  | d :: ds' =>
      let p := apply_delta p d in
      match constants !! N.to_nat (d_k_index d) with
      | Some k => term_at k p :: terms_from constants p ds'
      | None => terms_from constants p ds'
      end
  end.

(** The quadratic terms a layer stands for. *)
Definition layer_terms {A} (l : Layer) (constants : list A) : list (Term A) :=
  terms_from constants (0%N, 0%N, 0%N) (layer_deltas l).

Lemma index_lookup {E A} (v : list A) i a : v !! i = Some a -> @index E A v i = Ok a.
Proof. apply index_Ok. Qed.

Section loops.
Context {E : Type}.

Lemma for_each_delta_index_spec {S} nconst l (cb : S -> N -> outcome E S) s :
  layer_wf nconst l ->
  for_each_delta_index l cb s = foldM cb s (layer_indices l).
Proof.
  intros [Htok _ _]. unfold for_each_delta_index, layer_indices. revert s.
  induction (delta_tokens l) as [|tok toks IH]; intros s; [done|].
  apply Forall_cons in Htok as [Ht Htoks].
  destruct (lookup_lt_is_Some_2 _ _ Ht) as [seg Hseg].
  cbn. rewrite (index_lookup _ _ _ Hseg), bind_Ok, Hseg. cbn. rewrite foldM_app.
  destruct (foldM cb s seg); cbn; auto.
Qed.

Lemma layer_indices_in_range nconst l :
  layer_wf nconst l -> Forall (fun i => N.to_nat i < length (deltas l)) (layer_indices l).
Proof.
  intros [Htok Hseg _]. unfold layer_indices. apply Forall_concat, Forall_forall.
  intros seg Hin. apply list_elem_of_omap in Hin as (tok & _ & Hl).
  rewrite Forall_forall in Hseg. apply Hseg. by eapply list_elem_of_lookup_2.
Qed.

(** A loop over indices that starts by fetching the delta is a loop over
    the deltas. *)
Lemma foldM_deltas {S} (ds : list TermDelta) (idxs : list N)
    (body : S -> TermDelta -> outcome E S) s :
  Forall (fun i => N.to_nat i < length ds) idxs ->
  foldM (fun s i => d ← index ds (N.to_nat i); body s d) s idxs =
  foldM body s (omap (fun i => ds !! N.to_nat i) idxs).
Proof.
  intros Hin. revert s. induction Hin as [|i idxs Hi Hin IH]; intros s; [done|].
  destruct (lookup_lt_is_Some_2 _ _ Hi) as [d Hd].
  cbn. rewrite (index_lookup _ _ _ Hd), bind_Ok, Hd. cbn.
  destruct (body s d); cbn; auto.
Qed.

Lemma for_each_delta_spec {S} nconst l (cb : S -> TermDelta -> outcome E S) s :
  layer_wf nconst l -> for_each_delta l cb s = foldM cb s (layer_deltas l).
Proof.
  intros Hwf. unfold for_each_delta. rewrite (for_each_delta_index_spec nconst) by done.
  apply foldM_deltas. by eapply layer_indices_in_range.
Qed.

Lemma layer_deltas_in_range nconst l :
  layer_wf nconst l -> Forall (fun d => N.to_nat (d_k_index d) < nconst) (layer_deltas l).
Proof.
  intros Hwf. destruct (Hwf) as [_ _ Hd]. rewrite Forall_forall in *.
  intros d Hin. apply list_elem_of_omap in Hin as (i & _ & Hl).
  apply Hd. by eapply list_elem_of_lookup_2.
Qed.

(** A loop that decodes one term per delta is a loop over the terms. *)
Lemma foldM_terms {S A} (constants : list A) (cb : S -> Term A -> outcome E S) ds p s :
  Forall (fun d => N.to_nat (d_k_index d) < length constants) ds ->
  snd <$> foldM (fun '(p, s) d =>
     let p := apply_delta p d in
     k ← index constants (N.to_nat (d_k_index d));
     s ← cb s (term_at k p);
     mret (p, s)) (p, s) ds =
  foldM cb s (terms_from constants p ds).
Proof.
  intros Hin. revert p s. induction Hin as [|d ds Hd Hin IH]; intros p s; [done|].
  destruct (lookup_lt_is_Some_2 _ _ Hd) as [k Hk].
  cbn. rewrite (index_lookup _ _ _ Hk), Hk, bind_Ok. cbn.
  destruct (cb s _) as [s'| |]; cbn; auto.
Qed.

Lemma for_each_term_spec {S A} l (constants : list A) (cb : S -> Term A -> outcome E S) s :
  layer_wf (length constants) l ->
  for_each_term l constants cb s = foldM cb s (layer_terms l constants).
Proof.
  intros Hwf. unfold for_each_term, layer_terms.
  rewrite (for_each_delta_index_spec _ _ _ _ Hwf), <- foldM_terms
    by by eapply layer_deltas_in_range.
  unfold layer_deltas. rewrite <- foldM_deltas by by eapply layer_indices_in_range.
  f_equal. apply foldM_ext. intros [p s'] i. reflexivity.
Qed.
End loops.

Lemma terms_from_length {A} (cs : list A) p ds :
  Forall (fun d => N.to_nat (d_k_index d) < length cs) ds ->
  length (terms_from cs p ds) = length ds.
Proof.
  intros H. revert p. induction H as [|d ds Hd Hds IH]; intros p; [done|].
  cbn. destruct (lookup_lt_is_Some_2 _ _ Hd) as [k ->]. cbn. by rewrite IH.
Qed.

Lemma length_omap_lookup {X} (l : list X) (idxs : list N) :
  Forall (fun i => N.to_nat i < length l) idxs ->
  length (omap (fun i => l !! N.to_nat i) idxs) = length idxs.
Proof.
  induction 1 as [|i idxs Hi _ IH]; [done|]. cbn.
  destruct (lookup_lt_is_Some_2 _ _ Hi) as [x ->]. cbn. by rewrite IH.
Qed.

Lemma layer_terms_length {A} l (cs : list A) :
  layer_wf (length cs) l -> length (layer_terms l cs) = length (layer_indices l).
Proof.
  intros Hwf. unfold layer_terms.
  rewrite terms_from_length by by eapply layer_deltas_in_range.
  unfold layer_deltas. apply length_omap_lookup. by eapply layer_indices_in_range.
Qed.

Section loops2.
Context {E : Type}.

Lemma terms_spec {A} l (cs : list A) :
  layer_wf (length cs) l -> @terms E A l cs = Ok (layer_terms l cs).
Proof.
  intros Hwf. unfold terms. rewrite for_each_term_spec by done.
  rewrite (foldM_pure _ (fun ts t => ts ++ [t])) by done. f_equal.
  enough (forall ts acc, foldl (fun ts t => ts ++ [t]) acc ts = acc ++ ts :> list (Term A)) as Hg
    by apply Hg.
  induction ts as [|t ts IH]; intros acc; cbn; [by rewrite app_nil_r|].
  by rewrite IH, <- app_assoc.
Qed.

Lemma num_terms_spec nconst l :
  layer_wf nconst l -> @num_terms E l = Ok (length (layer_indices l)).
Proof.
  intros [Htok _ _]. unfold num_terms, layer_indices.
  enough (forall toks n, Forall (fun tok => N.to_nat tok < length (delta_segments l)) toks ->
    foldM (fun n tok => seg ← index (delta_segments l) (N.to_nat tok); mret (n + length seg)) n toks
    = @Ok E nat (n + length (concat (omap (fun tok => delta_segments l !! N.to_nat tok) toks))))
    as H by by apply (H _ 0).
  induction toks as [|tok toks IH]; intros n Hin; cbn; [by rewrite Nat.add_0_r|].
  apply Forall_cons in Hin as [Ht Hin].
  destruct (lookup_lt_is_Some_2 _ _ Ht) as [seg Hseg].
  rewrite (index_lookup _ _ _ Hseg), Hseg. cbn. rewrite IH by done.
  f_equal. len.
Qed.
End loops2.

(** ** [compute_id] *)
Section id.
Context {A : Type} `{SerializableFieldLaws A} `{Sha256}.

Definition term_bytes (t : Term A) : list u8 :=
  to_le_bytes 8 (t_g t) ++ to_le_bytes 8 (t_h0 t) ++ to_le_bytes 8 (t_h1 t) ++ to_bytes (t_k t).

Definition layer_bytes (cs : list A) (l : Layer) : list u8 :=
  to_le_bytes 8 (N.of_nat (nw l)) ++ to_le_bytes 8 (N.of_nat (logw l)) ++
  to_le_bytes 8 (N.of_nat (length (layer_terms l cs))) ++
  concat (map term_bytes (layer_terms l cs)).

(** What the circuit id is the digest of: the header, then for each layer
    its dimensions and its expanded terms. *)
Definition id_preimage (raw : RawCircuit A) : list u8 :=
  id_header raw ++ concat (map (layer_bytes (constants raw)) (layers raw)).

Definition circuit_wf (raw : RawCircuit A) : Prop :=
  Forall (layer_wf (length (constants raw))) (layers raw).

(** The staging buffer stays within its size, and what has been absorbed is
    what the hasher has seen followed by what is buffered. *)
Definition id_inv (b : IdBuf) (bs : list u8) : Prop :=
  ib_hasher b ++ ib_buf b = bs /\ (N.of_nat (length (ib_buf b)) <= ID_BUF)%N.

Lemma id_put_reserved {E} b bs new n :
  id_inv b bs -> (N.of_nat (length new) <= n)%N -> (n <= ID_BUF)%N ->
  exists b', id_put (E:=E) (id_reserve b n) new = Ok b' /\ id_inv b' (bs ++ new) /\
    (N.of_nat (length (ib_buf b')) + (n - N.of_nat (length new)) <= ID_BUF)%N.
Proof.
  intros [Hb Hlen] Hnew Hn. unfold id_put, id_reserve.
  destruct (N.ltb_spec ID_BUF (N.of_nat (length (ib_buf b)) + n)) as [Hov|Hov];
    cbn [ib_buf ib_hasher length].
  - rewrite (proj2 (N.leb_le _ _)) by lia. eexists. split; [done|].
    unfold id_inv. cbn. unfold hasher_update. rewrite Hb. split; [split|]; [done|lia..].
  - rewrite (proj2 (N.leb_le _ _)) by lia. eexists. split; [done|].
    unfold id_inv. cbn. rewrite app_assoc, Hb, length_app. split; [split|]; [done|lia..].
Qed.

Lemma id_put_ok {E} b bs new :
  id_inv b bs -> (N.of_nat (length (ib_buf b)) + N.of_nat (length new) <= ID_BUF)%N ->
  exists b', id_put (E:=E) b new = Ok b' /\ id_inv b' (bs ++ new) /\
    length (ib_buf b') = length (ib_buf b) + length new.
Proof.
  intros [Hb Hlen] Hn. unfold id_put. rewrite (proj2 (N.leb_le _ _)) by lia.
  eexists. split; [done|]. unfold id_inv. cbn.
  rewrite app_assoc, Hb, length_app. split; [split|]; [done|lia..].
Qed.

Hypothesis elt_fits : (N.of_nat (serialized_size_bytes (E:=A)) + 24 <= ID_BUF)%N.

Lemma id_term_step {E} b bs (t : Term A) :
  id_inv b bs ->
  exists b',
    (b ← id_put_nums (E:=E) (id_reserve b (24 + N.of_nat (length (to_bytes (t_k t)))))
           [t_g t; t_h0 t; t_h1 t];
     id_put_const b (to_bytes (t_k t))) = Ok b' /\ id_inv b' (bs ++ term_bytes t).
Proof.
  intros Hb. set (cb := to_bytes (t_k t)).
  assert (length cb = serialized_size_bytes (E:=A)) as Hcb by apply to_bytes_length.
  set (n := (24 + N.of_nat (length cb))%N).
  destruct (id_put_reserved (E:=E) b bs (to_le_bytes 8 (t_g t)) n Hb) as (b1 & E1 & I1 & L1);
    [len|lia|].
  rewrite length_to_le_bytes in L1.
  destruct (id_put_ok (E:=E) b1 _ (to_le_bytes 8 (t_h0 t)) I1) as (b2 & E2 & I2 & L2); [len|].
  destruct (id_put_ok (E:=E) b2 _ (to_le_bytes 8 (t_h1 t)) I2) as (b3 & E3 & I3 & L3); [len|].
  destruct (id_put_ok (E:=E) b3 _ cb I3) as (b4 & E4 & I4 & L4); [len|].
  exists b4. unfold id_put_nums. cbn [foldM].
  rewrite E1, bind_Ok, E2, bind_Ok, E3, !bind_Ok. unfold id_put_const.
  rewrite (proj2 (N.ltb_ge _ _)) by lia. split; [done|].
  unfold term_bytes. by rewrite <- !app_assoc in I4.
Qed.

(** One term of [id_layer]'s loop. *)
Definition id_put_term {E} (b : IdBuf) (t : Term A) : outcome E IdBuf :=
  b ← id_put_nums (id_reserve b (24 + N.of_nat (length (to_bytes (t_k t)))))
        [t_g t; t_h0 t; t_h1 t];
  id_put_const b (to_bytes (t_k t)).

Lemma id_terms_loop {E} cs l b :
  layer_wf (length cs) l ->
  snd <$> foldM (fun '(p, b) d_idx =>
    d ← index (deltas l) (N.to_nat d_idx);
    let '(g, h0, h1) := apply_delta p d in
    cb ← index (map to_bytes cs) (N.to_nat (d_k_index d));
    b ← id_put_nums (id_reserve b (24 + N.of_nat (length cb))) [g; h0; h1];
    b ← id_put_const b cb;
    mret ((g, h0, h1), b)) ((0%N, 0%N, 0%N), b) (layer_indices l) =
  foldM (E:=E) id_put_term b (layer_terms l cs).
Proof.
  intros Hwf. unfold layer_terms.
  rewrite <- foldM_terms by by eapply layer_deltas_in_range.
  unfold layer_deltas. rewrite <- foldM_deltas by by eapply layer_indices_in_range.
  f_equal. apply foldM_ext. intros [p b'] i.
  destruct (index (deltas l) (N.to_nat i)) as [d| |]; [|done..].
  rewrite !bind_Ok. destruct (apply_delta p d) as [[g h0] h1]. unfold index.
  rewrite list_lookup_fmap. destruct (cs !! N.to_nat (d_k_index d)) as [k|]; [|done].
  cbn [fmap option_fmap option_map]. rewrite !bind_Ok.
  unfold id_put_term. cbn [t_k t_g t_h0 t_h1 term_at].
  destruct (id_put_nums (E:=E) _ [g; h0; h1]) as [b1| |]; [|done..].
  by rewrite !bind_Ok.
Qed.

Lemma id_layer_spec {E} cs l b bs :
  layer_wf (length cs) l -> id_inv b bs ->
  exists b', id_layer (E:=E) (map to_bytes cs) b l = Ok b' /\
    id_inv b' (bs ++ layer_bytes cs l).
Proof.
  intros Hwf Hb. unfold id_layer.
  rewrite (num_terms_spec _ _ Hwf), bind_Ok, <- (layer_terms_length l cs Hwf).
  assert (forall b bs v, id_inv b bs -> exists b',
    id_put (E:=E) (id_reserve b 8) (to_le_bytes 8 v) = Ok b' /\ id_inv b' (bs ++ to_le_bytes 8 v))
    as Hnum.
  { intros b0 bs0 v Hb0. destruct (id_put_reserved (E:=E) b0 bs0 (to_le_bytes 8 v) 8 Hb0)
      as (b' & ? & ? & _); [len|by unfold ID_BUF|eauto]. }
  cbn [foldM].
  destruct (Hnum b bs (N.of_nat (nw l)) Hb) as (b1 & -> & I1).
  rewrite bind_Ok. destruct (Hnum _ _ (N.of_nat (logw l)) I1) as (b2 & -> & I2).
  rewrite bind_Ok. destruct (Hnum _ _ (N.of_nat (length (layer_terms l cs))) I2) as (b3 & -> & I3).
  rewrite !bind_Ok.
  rewrite (for_each_delta_index_spec _ _ _ _ Hwf).
  rewrite (id_terms_loop _ _ _ Hwf).
  destruct (foldM_invariant (E:=E)
    (fun ts b => id_inv b ((((bs ++ to_le_bytes 8 (N.of_nat (nw l))) ++
       to_le_bytes 8 (N.of_nat (logw l))) ++
       to_le_bytes 8 (N.of_nat (length (layer_terms l cs)))) ++ concat (map term_bytes ts)))
    id_put_term (layer_terms l cs) b3) as (b4 & -> & I4).
  - cbn. by rewrite app_nil_r.
  - intros done t rest b0 _ Hb0. destruct (id_term_step (E:=E) b0 _ t Hb0) as (b' & Hp & Hi).
    exists b'. split; [exact Hp|]. rewrite map_app, concat_app. cbn.
    by rewrite app_nil_r, app_assoc.
  - exists b4. split; [done|]. unfold layer_bytes. by rewrite <- !app_assoc in I4.
Qed.

Lemma circuit_id_loop {E} cs ls b bs :
  Forall (layer_wf (length cs)) ls -> id_inv b bs ->
  exists b', foldM (id_layer (E:=E) (map to_bytes cs)) b ls = Ok b' /\
    id_inv b' (bs ++ concat (map (layer_bytes cs) ls)).
Proof.
  intros Hls. revert b bs. induction Hls as [|l ls Hl Hls IH]; intros b bs Hb; cbn.
  - exists b. by rewrite app_nil_r.
  - destruct (id_layer_spec (E:=E) cs l b bs Hl Hb) as (b1 & -> & I1). cbn.
    destruct (IH _ _ I1) as (b2 & -> & I2). exists b2. by rewrite <- app_assoc in I2.
Qed.

Lemma compute_id_spec {E} (raw : RawCircuit A) :
  circuit_wf raw -> compute_id (E:=E) raw = Ok (sha256 (id_preimage raw)).
Proof.
  intros Hwf. unfold compute_id.
  destruct (circuit_id_loop (E:=E) (constants raw) (layers raw)
    {| ib_hasher := id_header raw; ib_buf := [] |} (id_header raw) Hwf)
    as (b & -> & [Hb _]).
  { split; cbn; [by rewrite app_nil_r|done]. }
  cbn. unfold id_preimage. rewrite <- Hb. unfold hasher_update.
  destruct (ib_buf b); [by rewrite app_nil_r|done].
Qed.
End id.
