(* ===== verification/LFC.v ===== *)
(** * Circuit files ([src/rust/core/proto/src/{reader,writer}])

    The writers and readers of the two circuit formats: [lfc1] (3-byte
    numbers, expanded terms) and [lfc2] (ULEB128 numbers, delta tables with
    segments and tokens), and the header dispatch of [CircuitReader].

    [usize] values read from a stream are [N] until they are stored. *)
From stdpp Require Import prelude gmap strings.
From Stdlib Require Import Lia NArith.
From S2P Require Import Prelude Words Stream Interfaces Uleb DeltaTable Util Circuit.

Local Open Scope N_scope.

Definition MAX_WIRES : N := 5000000.
Definition MAX_TERMS_PER_LAYER : N := 20000000.
Definition MAX_TOTAL_TERMS : N := 20000000.
Definition MAX_DELTAS : N := 20000000.
Definition MAX_CONSTANTS : N := 5000000.
Definition MAX_LAYERS : N := 10000.
Definition MAX_LAYER_INPUTS : N := 5000000.
Definition BYTES_PER_SIZE_T : nat := 3.

Definition LFC2_MAGIC : list u8 := [x4c; x46; x43; x32].

(** The reader's and the writer's configuration (the field itself is the
    [SerializableField] instance). *)
Record CircuitReader := { rd_field_id : FieldID; rd_max_total_terms : N }.
Definition CircuitReader_new (field_id : FieldID) : CircuitReader :=
  {| rd_field_id := field_id; rd_max_total_terms := MAX_TOTAL_TERMS |}.
Definition with_total_term_limit (r : CircuitReader) (n : N) : CircuitReader :=
  {| rd_field_id := rd_field_id r; rd_max_total_terms := n |}.
Record CircuitWriter := { wr_field_id : FieldID }.

(** The bytes pushed by a sequence of steps, any of which may panic. *)
Fixpoint emit {E} (ws : list (outcome E (list u8))) : outcome E (list u8) :=
  match ws with
  | [] => mret []
  | w :: ws => b ← w; bs ← emit ws; mret (b ++ bs)
  end.
Definition emit_each {E X} (f : X -> outcome E (list u8)) (xs : list X) : outcome E (list u8) :=
  emit (map f xs).

(** [if n > max { return Err(..) }] *)
Definition at_most (n max : N) (e : string) : outcome string unit := reject_if (max <? n) e.

Definition validate_raw_circuit {A} (raw : RawCircuit A) : outcome string unit :=
  at_most (N.of_nat (noutput raw)) MAX_WIRES "Excessive noutput: " ;;
  at_most (N.of_nat (npublic_input raw)) MAX_WIRES "Excessive npublic_input: " ;;
  at_most (N.of_nat (ninput raw)) MAX_WIRES "Excessive ninput: " ;;
  reject_if (Nat.ltb (ninput raw) (npublic_input raw))
    "Invalid public input count: npublic_input (" ;;
  at_most (N.of_nat (length (constants raw))) MAX_CONSTANTS "Excessive constants: " ;;
  at_most (N.of_nat (length (layers raw))) MAX_LAYERS "Excessive layers: ".

Section readers.
Context {A : Type} `{SerializableField A} `{Sha256}.
Context {R : Type} `{BufRead R}.

(** One element of the constant table. *)
Definition read_constant : reader R A :=
  chunk ← read_bytes serialized_size_bytes "Failed to read constant: ";
  lift (map_err (fun _ => "Field deserialization error: "%string) (bytes_to_element chunk)).

(** The end of both formats: the id, the final validation, and the id check
    unless the caller opted out of it. *)
Definition finish_circuit (enforce_circuit_id : bool) (raw : RawCircuit A)
  : reader R (Circuit A) :=
  id ← read_bytes 32 "Failed to read ID: ";
  lift (validate_raw_circuit raw ;;
    (if enforce_circuit_id then
       computed_id ← compute_id raw;
       reject_if (negb (bool_decide (computed_id = id))) "Circuit ID verification failed"%string
     else mret tt) ;;
    mret {| raw := raw; id := id |}).
End readers.

(** ** LFC2 *)
Module lfc2.
(** [(delta << 1) ^ ((delta as i32 >> 31) as u32)]: the arithmetic shift
    yields all ones when bit 31 is set and zero otherwise. *)
Definition zigzag_encode_delta (delta : N) : N :=
  N.lxor (shl32 delta 1) (if N.testbit delta 31 then 2 ^ 32 - 1 else 0).
Definition decode_delta_u32 (val : N) : N :=
  N.lxor (N.shiftr val 1) (wrapping_neg32 (N.land val 1)).

Section writer.
Context {A : Type} `{SerializableField A} {E : Type}.

Definition write_usize (n : nat) : outcome E (list u8) :=
  serialize_uleb128_max4 (N.of_nat n).

Definition write_delta (d : TermDelta) : outcome E (list u8) :=
  emit [serialize_uleb128_max4_u32 (zigzag_encode_delta (d_g d));
        serialize_uleb128_max4_u32 (zigzag_encode_delta (d_h d).1);
        serialize_uleb128_max4_u32 (zigzag_encode_delta (d_h d).2);
        serialize_uleb128_max4_u32 (d_k_index d)].

Definition write_segment (seg : list N) : outcome E (list u8) :=
  emit [write_usize (length seg); emit_each serialize_uleb128_max4_u32 seg].

Definition write_layer (l : Layer) : outcome E (list u8) :=
  rust_assert (sane_logw (logw l)) ;;
  emit [write_usize (logw l); write_usize (nw l);
        write_usize (length (deltas l)); emit_each write_delta (deltas l);
        write_usize (length (delta_segments l)); emit_each write_segment (delta_segments l);
        write_usize (length (delta_tokens l));
        emit_each serialize_uleb128_max4_u32 (delta_tokens l)].

Definition to_bytes_lfc2 (writer : CircuitWriter) (c : Circuit A) : outcome E (list u8) :=
  emit [mret LFC2_MAGIC;
        serialize_uleb128_max4 (FieldID_as_usize (wr_field_id writer));
        write_usize (noutput (raw c)); write_usize 1;
        write_usize (npublic_input (raw c)); write_usize (subfield_boundary (raw c));
        write_usize (ninput (raw c)); write_usize (length (layers (raw c)));
        write_usize (length (constants (raw c)));
        emit_each (fun k => mret (to_bytes k)) (constants (raw c));
        emit_each write_layer (layers (raw c));
        mret (id c)].
End writer.

Section reader.
Context {A : Type} `{SerializableField A} `{Sha256}.
Context {R : Type} `{BufRead R}.

Definition read_delta (nconst : N) : reader R TermDelta :=
  g ← read_uleb128_max4_u32;
  h0 ← read_uleb128_max4_u32;
  h1 ← read_uleb128_max4_u32;
  k_index ← read_uleb128_max4_u32;
  lift (reject_if (nconst <=? k_index) "v2 delta k_index out of bounds: "%string) ≫= fun _ =>
  mret {| d_g := decode_delta_u32 g; d_h := (decode_delta_u32 h0, decode_delta_u32 h1);
          d_k_index := k_index |}.

(** An index checked against the length of what it indexes. *)
Definition read_index (len : nat) (e : string) : reader R N :=
  i ← read_uleb128_max4_u32;
  lift (reject_if (N.of_nat len <=? i) e) ≫= fun _ => mret i.

Definition read_count (max : N) (e : string) : reader R N :=
  n ← read_uleb128_max4; lift (at_most n max e) ≫= fun _ => mret n.

Definition read_segment (ndeltas : nat) : reader R (list N) :=
  seg_len ← read_count MAX_TERMS_PER_LAYER "Excessive segment length: ";
  read_n (N.to_nat seg_len) (read_index ndeltas "v2 delta index out of bounds: ").

Definition layer_nterms {E} (segs : list (list N)) (toks : list N) : outcome E N :=
  foldM (fun n tok =>
    seg ← index segs (N.to_nat tok);
    mret (saturating_add64 n (N.of_nat (length seg)))) 0 toks.

Definition read_layer (rd : CircuitReader) (nconst : N) (total_terms : N)
  : reader R (Layer * N) :=
  logw ← read_uleb128_max4;
  lift (reject_if (negb (sane_logw (N.to_nat logw))) "Layer logw "%string) ≫= fun _ =>
  nw ← read_count MAX_LAYER_INPUTS "Excessive nw count: ";
  ndeltas ← read_count MAX_DELTAS "Excessive deltas count: ";
  deltas ← read_n (N.to_nat ndeltas) (read_delta nconst);
  n_segments ← read_count MAX_DELTAS "Excessive segments count: ";
  segs ← read_n (N.to_nat n_segments) (read_segment (length deltas));
  ntokens ← read_count MAX_TERMS_PER_LAYER "Excessive layer token count: ";
  toks ← read_n (N.to_nat ntokens) (read_index (length segs) "v2 token out of bounds: ");
  nterms ← lift (layer_nterms segs toks);
  lift (at_most nterms MAX_TERMS_PER_LAYER
    "Excessive layer term count after expansion: ") ≫= fun _ =>
  let total_terms := saturating_add64 total_terms nterms in
  lift (at_most total_terms (rd_max_total_terms rd) "Total terms across layers ") ≫= fun _ =>
  mret ({| nw := N.to_nat nw; logw := N.to_nat logw; deltas := deltas;
           delta_segments := segs; delta_tokens := toks |}, total_terms).

Definition from_stream_lfc2_inner (rd : CircuitReader) (enforce_circuit_id : bool)
  : reader R (Circuit A) :=
  fid ← read_uleb128_max4;
  nv ← read_count MAX_WIRES "Excessive noutput count: ";
  logv ← lift (ceil_log2 (N.to_nat nv));
  lift (reject_if (negb (sane_logw logv)) "Circuit logv "%string) ≫= fun _ =>
  nc ← read_uleb128_max4;
  lift (reject_if (negb (nc =? 1)) "Unsupported ncopies: expected 1, got "%string) ≫= fun _ =>
  npub_in ← read_count MAX_WIRES "Excessive npublic_input count: ";
  subfield_boundary ← read_count MAX_WIRES "Excessive subfield_boundary: ";
  ninputs ← read_count MAX_WIRES "Excessive ninput count: ";
  nl ← read_count MAX_LAYERS "Excessive layer count: ";
  lift (reject_if (negb (fid =? FieldID_as_usize (rd_field_id rd)))
    "Field ID mismatch: expected "%string) ≫= fun _ =>
  numconst ← read_count MAX_CONSTANTS "Excessive constants count: ";
  constants ← read_n (N.to_nat numconst) read_constant;
  lt ← read_loop (N.to_nat nl) (fun '(ls, total) =>
         r ← read_layer rd (N.of_nat (length constants)) total;
         mret (ls ++ [r.1], r.2)) ([], 0);
  finish_circuit enforce_circuit_id
    {| ninput := N.to_nat ninputs; npublic_input := N.to_nat npub_in;
       noutput := N.to_nat nv; logv := logv;
       subfield_boundary := N.to_nat subfield_boundary;
       constants := constants; layers := lt.1 |}.
End reader.
End lfc2.

(** ** LFC1 *)
Module lfc1.
Section writer.
Context {A : Type} `{SerializableField A} {E : Type}.

Definition serialize_num (g : N) : outcome E (list u8) :=
  let max_val := N.shiftl 1 (N.of_nat BYTES_PER_SIZE_T * 8) - 1 in
  rust_assert (g <=? max_val) ;; mret (to_le_bytes BYTES_PER_SIZE_T g).

Definition serialize_size (sz : nat) : outcome E (list u8) := serialize_num (N.of_nat sz).

(** The differences and their doubles are [u32]. *)
Definition serialize_index (val prev_val : N) : outcome E (list u8) :=
  if prev_val <=? val then serialize_num (wrap32 (2 * (val - prev_val)))
  else serialize_num (wrap32 (2 * (prev_val - val) + 1)).

(** [k_to_index] and [kvec]. *)
Definition kmap : Type := gmap (list u8) nat * list A.

Definition intern (m : kmap) (t : Term A) : kmap :=
  let key := to_bytes (t_k t) in
  match m.1 !! key with
  | Some _ => m
  | None => (<[key := length m.2]> m.1, m.2 ++ [t_k t])
  end.

Definition collect_constants (raw : RawCircuit A) : outcome E kmap :=
  foldM (fun m layer =>
    for_each_term layer (constants raw) (fun m t => mret (intern m t)) m) (∅, []) (layers raw).

Definition write_term (k_to_index : gmap (list u8) nat) (p : prev) (t : Term A)
  : outcome E (list u8) :=
  let '(prevg, prevh0, prevh1) := p in
  emit [serialize_index (t_g t) prevg; serialize_index (t_h0 t) prevh0;
        serialize_index (t_h1 t) prevh1;
        match k_to_index !! to_bytes (t_k t) with
        | Some k_idx => serialize_size k_idx
        | None => Panic
        end].

Definition write_layer (cs : list A) (k_to_index : gmap (list u8) nat) (l : Layer)
  : outcome E (list u8) :=
  rust_assert (sane_logw (logw l)) ;;
  nt ← num_terms l;
  hd ← emit [serialize_size (logw l); serialize_size (nw l); serialize_size nt];
  snd <$> for_each_term l cs (fun '(p, bytes) t =>
    bs ← write_term k_to_index p t;
    mret ((t_g t, t_h0 t, t_h1 t), bytes ++ bs)) ((0, 0, 0), hd).

Definition to_bytes_lfc1 (writer : CircuitWriter) (c : Circuit A) : outcome E (list u8) :=
  '(k_to_index, kvec) ← collect_constants (raw c);
  emit [mret [x01];
        serialize_num (FieldID_as_usize (wr_field_id writer));
        serialize_size (noutput (raw c)); serialize_size 1;
        serialize_size (npublic_input (raw c)); serialize_size (subfield_boundary (raw c));
        serialize_size (ninput (raw c)); serialize_size (length (layers (raw c)));
        serialize_size (length kvec);
        emit_each (fun k => mret (to_bytes k)) kvec;
        emit_each (write_layer (constants (raw c)) k_to_index) (layers (raw c));
        mret (id c)].
End writer.

Section reader.
Context {A : Type} `{SerializableField A} `{Sha256}.
Context {R : Type} `{BufRead R}.

Definition read_u24_le (slice : list u8) : N := from_le_bytes slice.

Definition read_num_stream : reader R N :=
  buf ← read_bytes BYTES_PER_SIZE_T "Failed to read num: "; mret (from_le_bytes buf).

Definition read_num_max (max : N) (e : string) : reader R N :=
  n ← read_num_stream; lift (at_most n max e) ≫= fun _ => mret n.

Definition decode_delta_u32 (val : N) : N :=
  if negb (N.land val 1 =? 0) then wrapping_neg32 (N.shiftr val 1) else N.shiftr val 1.

Definition DELTA_CACHE_SIZE : N := 65521.

(** One 12-byte term of a batch. *)
Definition parse_term (numconst : N) (st : Approximate.builder * list N) (chunk : list u8)
  : outcome string (Approximate.builder * list N) :=
  let '(db, seg) := st in
  let delta_g := read_u24_le (take 3 chunk) in
  let delta_h0 := read_u24_le (take 3 (drop 3 chunk)) in
  let delta_h1 := read_u24_le (take 3 (drop 6 chunk)) in
  let vi := read_u24_le (take 3 (drop 9 chunk)) in
  reject_if (numconst <=? vi) "Constant index out of bounds: "%string ;;
  '(idx, db) ← Approximate.dedup db (decode_delta_u32 delta_g) (decode_delta_u32 delta_h0)
                 (decode_delta_u32 delta_h1) (wrap32 vi);
  mret (db, seg ++ [idx]).

(** [(0..batch).map(|i| &buf[i * 12..(i + 1) * 12])] *)
Definition term_chunks (batch : nat) (buf : list u8) : list (list u8) :=
  map (fun i => take 12 (drop (i * 12) buf)) (seq 0 batch).

Definition read_batch (numconst : N) (batch : nat) (st : Approximate.builder * list N)
  : reader R (Approximate.builder * list N) :=
  buf ← read_bytes (batch * 12) "Failed to read terms batch: ";
  lift (foldM (parse_term numconst) st (term_chunks batch buf)).

(** [while remaining_terms > 0]: each iteration consumes at least one
    term, so [remaining_terms] is enough fuel. *)
Fixpoint read_batches (fuel : nat) (numconst : N) (remaining_terms : nat)
    (st : Approximate.builder * list N) : reader R (Approximate.builder * list N) :=
  match fuel, remaining_terms with
  | S fuel', S _ =>
      let batch := Nat.min remaining_terms 256 in
      st ← read_batch numconst batch st;
      read_batches fuel' numconst (remaining_terms - batch) st
  | _, _ => mret st
  end.

Definition read_layer (rd : CircuitReader) (numconst : N) (total_terms : N)
  : reader R (Layer * N) :=
  let db := Approximate.new DELTA_CACHE_SIZE in
  logw ← read_num_stream;
  lift (reject_if (negb (sane_logw (N.to_nat logw))) "Layer logw "%string) ≫= fun _ =>
  nw ← read_num_max MAX_LAYER_INPUTS "Excessive nw count: ";
  nterms ← read_num_max MAX_TERMS_PER_LAYER "Excessive layer term count: ";
  let total_terms := saturating_add64 total_terms nterms in
  lift (at_most total_terms (rd_max_total_terms rd) "Total terms across layers ") ≫= fun _ =>
  st ← read_batches (N.to_nat nterms) numconst (N.to_nat nterms) (db, []);
  mret (new_uncompressed (N.to_nat nw) (N.to_nat logw) (Approximate.deltas st.1) st.2,
        total_terms).

Definition from_stream_lfc1_inner (rd : CircuitReader) (enforce_circuit_id : bool)
  : reader R (Circuit A) :=
  fid ← read_num_stream;
  nv ← read_num_max MAX_WIRES "Excessive noutput count: ";
  logv ← lift (ceil_log2 (N.to_nat nv));
  lift (reject_if (negb (sane_logw logv)) "Circuit logv "%string) ≫= fun _ =>
  nc ← read_num_stream;
  lift (reject_if (negb (nc =? 1)) "Unsupported ncopies: expected 1, got "%string) ≫= fun _ =>
  npub_in ← read_num_max MAX_WIRES "Excessive npublic_input count: ";
  subfield_boundary ← read_num_max MAX_WIRES "Excessive subfield_boundary: ";
  ninputs ← read_num_max MAX_WIRES "Excessive ninput count: ";
  nl ← read_num_max MAX_LAYERS "Excessive layer count: ";
  numconst ← read_num_max MAX_CONSTANTS "Excessive constants count: ";
  lift (reject_if (negb (fid =? FieldID_as_usize (rd_field_id rd)))
    "Field ID mismatch: expected "%string) ≫= fun _ =>
  constants ← read_n (N.to_nat numconst) read_constant;
  lt ← read_loop (N.to_nat nl) (fun '(ls, total) =>
         r ← read_layer rd numconst total;
         mret (ls ++ [r.1], r.2)) ([], 0);
  finish_circuit enforce_circuit_id
    {| ninput := N.to_nat ninputs; npublic_input := N.to_nat npub_in;
       noutput := N.to_nat nv; logv := logv;
       subfield_boundary := N.to_nat subfield_boundary;
       constants := constants; layers := lt.1 |}.
End reader.
End lfc1.

(** ** Header dispatch *)
Section dispatch.
Context {A : Type} `{SerializableField A} `{Sha256}.
Context {R : Type} `{BufRead R}.

Definition from_stream (rd : CircuitReader) (enforce_circuit_id : bool)
  : reader R (Circuit A) := fun s =>
  let (buf, s) := fill_buf s in
  if bool_decide (take 4 buf = LFC2_MAGIC) then
    lfc2.from_stream_lfc2_inner rd enforce_circuit_id (consume 4 s)
  else if bool_decide (head buf = Some x01) then
    lfc1.from_stream_lfc1_inner rd enforce_circuit_id (consume 1 s)
  else Err "Unsupported format header".

Definition from_stream_lfc1 (rd : CircuitReader) (enforce_circuit_id : bool)
  : reader R (Circuit A) :=
  ver_buf ← read_bytes 1 "Empty or incomplete stream buffer";
  lift (v ← index ver_buf 0;
        reject_if (negb (bool_decide (v = x01))) "Unsupported LFC1 header: expected 1, got "%string)
    ≫= fun _ =>
  lfc1.from_stream_lfc1_inner rd enforce_circuit_id.

Definition from_stream_lfc2 (rd : CircuitReader) (enforce_circuit_id : bool)
  : reader R (Circuit A) :=
  header ← read_bytes 4 "Empty or incomplete stream buffer";
  lift (reject_if (negb (bool_decide (header = LFC2_MAGIC)))
    "Unsupported LFC2 header: expected b"%string) ≫= fun _ =>
  lfc2.from_stream_lfc2_inner rd enforce_circuit_id.

Definition to_bytes_circuit {E} (writer : CircuitWriter) (c : Circuit A) : outcome E (list u8) :=
  lfc2.to_bytes_lfc2 writer c.
End dispatch.
