(* ===== verification/LFCFacts.v ===== *)
(** * Facts about circuit files

    What the two encoders of layer data decode to, round trips of the two
    formats, and what a successful read guarantees. *)
From stdpp Require Import prelude gmap strings.
From Stdlib Require Import Lia NArith.
From S2P Require Import Prelude Words Stream Interfaces Uleb DeltaTable Util Circuit LFC.

Local Open Scope N_scope.

(** ** Deltas *)
Lemma lxor_ones a n : a < 2 ^ n -> N.lxor a (2 ^ n - 1) = 2 ^ n - 1 - a.
Proof.
  intros Ha. rewrite <- N.pred_sub, <- N.ones_equiv. fold (N.lnot a n).
  destruct (N.eq_dec a 0) as [->|Hz].
  - unfold N.lnot. by rewrite N.lxor_0_l, N.sub_0_r.
  - apply N.lnot_sub_low. apply N.log2_lt_pow2; lia.
Qed.

Lemma zigzag_round_trip d :
  d < 2 ^ 32 -> lfc2.decode_delta_u32 (lfc2.zigzag_encode_delta d) = d.
Proof.
  intros Hd. unfold lfc2.decode_delta_u32, lfc2.zigzag_encode_delta.
  assert (forall x, N.land x 1 = x mod 2) as Hland
    by (intros x; exact (land_ones_mod x 1)).
  rewrite Hland, N.shiftr_div_pow2. change (2 ^ 1) with 2.
  unfold shl32. rewrite N.shiftl_mul_pow2. change (2 ^ 1) with 2.
  destruct (N.testbit d 31) eqn:Hb.
  - assert (2 ^ 31 <= d) as Hlo.
    { destruct (N.le_gt_cases (2 ^ 31) d) as [|Hlt]; [done|].
      rewrite N.testbit_eqb, N.div_small in Hb by done. done. }
    assert (wrap32 (d * 2) = d * 2 - 2 ^ 32) as ->.
    { unfold wrap32. symmetry. apply (N.mod_unique _ _ 1); [lia|]. lia. }
    rewrite lxor_ones by lia.
    assert ((2 ^ 32 - 1 - (d * 2 - 2 ^ 32)) / 2 = 2 ^ 32 - 1 - d) as -> by dlia.
    assert ((2 ^ 32 - 1 - (d * 2 - 2 ^ 32)) mod 2 = 1) as -> by dlia.
    change (wrapping_neg32 1) with (2 ^ 32 - 1). rewrite lxor_ones by lia. lia.
  - assert (d < 2 ^ 31) as Hlt.
    { destruct (N.lt_ge_cases d (2 ^ 31)) as [|Hge]; [done|].
      rewrite N.testbit_eqb in Hb. apply N.eqb_neq in Hb.
      assert (d / 2 ^ 31 = 1) as Hq by dlia. by rewrite Hq in Hb. }
    rewrite N.lxor_0_r, wrap32_small by lia.
    rewrite N.div_mul, N.Div0.mod_mul by lia.
    change (wrapping_neg32 0) with 0. apply N.lxor_0_r.
Qed.

(** ** The limits the readers enforce *)
Record layer_limits (l : Layer) : Prop := {
  logw_sane : sane_logw (logw l) = true;
  nw_bound : N.of_nat (nw l) <= MAX_LAYER_INPUTS;
  deltas_bound : N.of_nat (length (deltas l)) <= MAX_DELTAS;
  segments_bound : N.of_nat (length (delta_segments l)) <= MAX_DELTAS;
  segment_bound :
    Forall (fun seg => N.of_nat (length seg) <= MAX_TERMS_PER_LAYER) (delta_segments l);
  tokens_bound : N.of_nat (length (delta_tokens l)) <= MAX_TERMS_PER_LAYER;
  layer_terms_bound : N.of_nat (length (layer_indices l)) <= MAX_TERMS_PER_LAYER
}.

(** The running total of terms over a list of layers. *)
Definition add_terms (total : N) (l : Layer) : N :=
  saturating_add64 total (N.of_nat (length (layer_indices l))).
Definition total_terms (ls : list Layer) : N := foldl add_terms 0 ls.

Record circuit_limits {A} (rd : CircuitReader) (raw : RawCircuit A) : Prop := {
  noutput_bound : N.of_nat (noutput raw) <= MAX_WIRES;
  logv_eq : @ceil_log2 string (noutput raw) = Ok (logv raw);
  npublic_bound : N.of_nat (npublic_input raw) <= MAX_WIRES;
  ninput_bound : N.of_nat (ninput raw) <= MAX_WIRES;
  npublic_le_ninput : (npublic_input raw <= ninput raw)%nat;
  subfield_boundary_bound : N.of_nat (subfield_boundary raw) <= MAX_WIRES;
  constants_bound : N.of_nat (length (constants raw)) <= MAX_CONSTANTS;
  layers_bound : N.of_nat (length (layers raw)) <= MAX_LAYERS;
  layers_limits : Forall layer_limits (layers raw);
  total_bound : total_terms (layers raw) <= rd_max_total_terms rd
}.

Lemma total_terms_snoc ls l : total_terms (ls ++ [l]) = add_terms (total_terms ls) l.
Proof. unfold total_terms. by rewrite foldl_app. Qed.

Lemma foldl_add_terms_ge ls n : n <= 2 ^ 64 - 1 -> n <= foldl add_terms n ls.
Proof.
  revert n. induction ls as [|l ls IH]; intros n Hn; cbn; [lia|].
  etransitivity; [|apply IH]; unfold add_terms, saturating_add64; lia.
Qed.

Lemma total_terms_prefix ls ls' : total_terms ls <= 2 ^ 64 - 1 -> total_terms ls <= total_terms (ls ++ ls').
Proof.
  intros Hb. unfold total_terms at 2. rewrite foldl_app. fold (total_terms ls).
  by apply foldl_add_terms_ge.
Qed.

Lemma total_terms_64 ls : total_terms ls <= 2 ^ 64 - 1.
Proof.
  destruct ls as [|l ls _] using rev_ind; [cbn; lia|].
  rewrite total_terms_snoc. unfold add_terms, saturating_add64. lia.
Qed.

Lemma sane_logv n k : N.of_nat n <= MAX_WIRES -> @ceil_log2 string n = Ok k -> sane_logw k = true.
Proof.
  intros Hn Hk. apply ceil_log2_spec in Hk as [_ Hk]. unfold sane_logw, MAX_LOGW.
  enough (k <= 23)%nat.
  { apply andb_true_iff. rewrite Nat.leb_le, Nat.ltb_lt. lia. }
  destruct Hk as [->|Hk]; [lia|]. destruct (Nat.le_gt_cases k 23) as [|Hgt]; [done|].
  assert (2 ^ N.of_nat (k - 1) < N.of_nat n) as Hlt.
  { replace 2 with (N.of_nat 2) by done. rewrite <- Nat2N.inj_pow. lia. }
  assert (2 ^ 23 <= 2 ^ N.of_nat (k - 1)) as Hle by (apply N.pow_le_mono_r; lia).
  unfold MAX_WIRES in Hn. lia.
Qed.

Lemma at_most_Ok n max e u : at_most n max e = Ok u <-> n <= max.
Proof. unfold at_most. rewrite reject_if_Ok. apply N.ltb_ge. Qed.

Lemma validate_intro {A} (raw : RawCircuit A) :
  N.of_nat (noutput raw) <= MAX_WIRES -> N.of_nat (npublic_input raw) <= MAX_WIRES ->
  N.of_nat (ninput raw) <= MAX_WIRES -> (npublic_input raw <= ninput raw)%nat ->
  N.of_nat (length (constants raw)) <= MAX_CONSTANTS ->
  N.of_nat (length (layers raw)) <= MAX_LAYERS ->
  validate_raw_circuit raw = Ok tt.
Proof.
  intros. unfold validate_raw_circuit.
  repeat match goal with
  | |- context [at_most ?n ?m ?e] => rewrite (proj2 (at_most_Ok n m e tt)) by lia
  end.
  rewrite !bind_Ok. rewrite (proj2 (Nat.ltb_ge _ _)) by lia. done.
Qed.

Lemma validate_ok {A} rd (raw : RawCircuit A) :
  circuit_limits rd raw -> validate_raw_circuit raw = Ok tt.
Proof. intros []. by apply validate_intro. Qed.

(** ** Emitted bytes *)
Lemma emit_cons_inv {E} w (ws : list (outcome E (list u8))) bs :
  emit (w :: ws) = Ok bs -> exists b bs', w = Ok b /\ emit ws = Ok bs' /\ bs = b ++ bs'.
Proof. cbn. intros Hw. inv_outcome. eauto. Qed.

Lemma emit_nil_inv {E} bs : emit (E:=E) [] = Ok bs -> bs = [].
Proof. cbn. intros Hw. by inv_outcome. Qed.

(** Break [emit [w1; ..; wn] = Ok bs] into the bytes each step pushed. *)
Ltac inv_emit :=
  repeat match goal with
  | Hw : emit (_ :: _) = Ok _ |- _ =>
      let b := fresh "b" in let bs := fresh "bs" in let E := fresh "E" in
      apply emit_cons_inv in Hw as (b & bs & E & Hw & ->)
  | Hw : emit [] = Ok _ |- _ => apply emit_nil_inv in Hw as ->
  end.

Section emit_parse.
Context {R : Type} {BR : BufRead R} {BL : BufReadLaws R}.

Lemma parses_emit_each {A} (w : A -> outcome string (list u8)) (p : reader R A) l n bs :
  emit_each w l = Ok bs -> n = length l ->
  (forall a bs, a ∈ l -> w a = Ok bs -> parses p bs a) ->
  parses (read_n n p) bs l.
Proof.
  intros Hw -> Hp. unfold emit_each in Hw. revert bs Hw.
  induction l as [|a l IH]; intros bs Hw; cbn [map] in Hw; inv_emit; [apply parses_ret|].
  cbn. eapply parses_bind; [apply Hp; [apply list_elem_of_here|done]|].
  eapply parses_bind_ret; [|done]. apply IH; [|done]. intros a' ? ?; apply Hp; by apply list_elem_of_further.
Qed.

(** A loop that reads back what was written element by element, updating
    its state by [f]. *)
Lemma parses_emit_loop {A X} (w : X -> outcome string (list u8)) (body : A -> reader R A)
    (f : A -> X -> A) (I : list X -> A -> Prop) l n a0 bs :
  emit_each w l = Ok bs -> n = length l -> I [] a0 ->
  (forall done x rest a bs, l = done ++ x :: rest -> I done a -> w x = Ok bs ->
     parses (body a) bs (f a x) /\ I (done ++ [x]) (f a x)) ->
  parses (read_loop n body a0) bs (foldl f a0 l).
Proof.
  intros Hw -> H0 Hstep.
  enough (forall rest done a bs, l = done ++ rest -> I done a -> emit_each w rest = Ok bs ->
    parses (read_loop (length rest) body a) bs (foldl f a rest)) as Hg
    by by apply (Hg l [] a0 bs).
  clear bs Hw. induction rest as [|x rest IH]; intros done a bs -> Ha Hw; unfold emit_each in Hw;
    cbn [map] in Hw; inv_emit; [apply parses_ret|].
  edestruct Hstep as [Hp HI]; [done|done|eassumption|].
  cbn. eapply parses_bind; [apply Hp|]. apply (IH (done ++ [x])); [|done|done].
  by rewrite <- app_assoc.
Qed.

Lemma parses_at_most {B} n max e (k : unit -> reader R B) bs a :
  n <= max -> parses (k tt) bs a -> parses (lift (at_most n max e) ≫= k) bs a.
Proof. intros Hb. apply parses_lift. by apply at_most_Ok. Qed.
End emit_parse.

(** ** LFC2: reading what was written *)
Section lfc2_round_trip.
Context {A : Type} `{SerializableFieldLaws A} `{Sha256}.
Context {R : Type} {BR : BufRead R} {BL : BufReadLaws R}.

Lemma parses_count v max e bs (n : N) :
  lfc2.write_usize (E:=string) v = Ok bs -> n = N.of_nat v -> n <= max ->
  parses (lfc2.read_count max e) bs n.
Proof.
  intros Hw -> Hle. unfold lfc2.read_count. rewrite <- (app_nil_r bs).
  eapply parses_bind; [by apply parses_uleb4_usize|].
  apply parses_at_most; [done|apply parses_ret].
Qed.

Lemma parses_delta nconst d bs :
  d_g d < 2 ^ 32 -> (d_h d).1 < 2 ^ 32 -> (d_h d).2 < 2 ^ 32 -> d_k_index d < nconst ->
  lfc2.write_delta (E:=string) d = Ok bs -> parses (lfc2.read_delta nconst) bs d.
Proof.
  intros Hg Hh0 Hh1 Hk Hw. unfold lfc2.write_delta in Hw. inv_emit. unfold lfc2.read_delta.
  do 4 (eapply parses_bind; [by apply parses_uleb4|]).
  apply parses_check; [by apply N.leb_gt|].
  rewrite !zigzag_round_trip by done. destruct d as [g [h0 h1] k]. apply parses_ret.
Qed.

Lemma parses_index i (len : nat) e bs :
  (N.to_nat i < len)%nat -> serialize_uleb128_max4_u32 (E:=string) i = Ok bs ->
  parses (lfc2.read_index len e) bs i.
Proof.
  intros Hi Hw. unfold lfc2.read_index. rewrite <- (app_nil_r bs).
  eapply parses_bind; [by apply parses_uleb4|].
  apply parses_check; [apply N.leb_gt; lia|apply parses_ret].
Qed.

Lemma parses_segment ndeltas seg bs :
  Forall (fun i => (N.to_nat i < ndeltas)%nat) seg ->
  N.of_nat (length seg) <= MAX_TERMS_PER_LAYER ->
  lfc2.write_segment (E:=string) seg = Ok bs -> parses (lfc2.read_segment ndeltas) bs seg.
Proof.
  intros Hall Hlen Hw. unfold lfc2.write_segment in Hw. inv_emit.
  unfold lfc2.read_segment. eapply parses_bind; [eapply parses_count; [eassumption|reflexivity|lia]|].
  rewrite app_nil_r. eapply parses_emit_each; [done|by rewrite Nat2N.id|].
  intros i bs' Hi Hw'. rewrite Forall_forall in Hall. apply parses_index; auto.
Qed.

Lemma layer_nterms_spec nconst l :
  layer_wf nconst l ->
  lfc2.layer_nterms (E:=string) (delta_segments l) (delta_tokens l) =
  Ok (N.min (N.of_nat (length (layer_indices l))) (2 ^ 64 - 1)).
Proof.
  intros [Htok _ _]. unfold lfc2.layer_nterms, layer_indices.
  enough (forall toks n, n <= 2 ^ 64 - 1 ->
    Forall (fun tok => N.to_nat tok < length (delta_segments l))%nat toks ->
    foldM (E:=string) (fun n tok => seg ← index (delta_segments l) (N.to_nat tok);
      mret (saturating_add64 n (N.of_nat (length seg)))) n toks =
    Ok (N.min (n + N.of_nat (length
      (concat (omap (fun tok => delta_segments l !! N.to_nat tok) toks)))) (2 ^ 64 - 1)))
    as Hg by by apply (Hg _ 0).
  clear Htok. induction toks as [|tok toks IH]; intros n Hn Hin; cbn.
  { f_equal. lia. }
  apply Forall_cons in Hin as [Ht Hin].
  destruct (lookup_lt_is_Some_2 _ _ Ht) as [seg Hseg].
  rewrite (index_lookup _ _ _ Hseg), Hseg. cbn.
  rewrite IH by (unfold saturating_add64; try lia; done).
  f_equal. unfold saturating_add64. len.
Qed.

Lemma parses_lfc2_layer rd nconst total l bs :
  layer_limits l -> layer_wf (N.to_nat nconst) l -> layer_u32 l ->
  add_terms total l <= rd_max_total_terms rd ->
  lfc2.write_layer (E:=string) l = Ok bs ->
  parses (lfc2.read_layer rd nconst total) bs (l, add_terms total l).
Proof.
  intros [Hlw Hnw Hd Hs Hseg Ht Hterms] Hwf Hu Htot Hw. unfold lfc2.write_layer in Hw.
  inv_outcome. inv_emit. unfold lfc2.read_layer. destruct (Hwf) as [Wt Ws Wd].
  eapply parses_bind; [by apply parses_uleb4_usize|]. rewrite !Nat2N.id.
  apply parses_check; [by rewrite Hlw|].
  eapply parses_bind; [eapply parses_count; [eassumption|reflexivity|lia]|].
  eapply parses_bind; [eapply parses_count; [eassumption|reflexivity|lia]|]. rewrite !Nat2N.id.
  eapply parses_bind.
  { eapply parses_emit_each; [done|done|]. intros d bs' Hin Hw.
    unfold layer_u32 in Hu. rewrite Forall_forall in Hu, Wd.
    destruct (Hu d Hin) as (? & ? & ?). specialize (Wd d Hin). apply parses_delta; auto; lia. }
  eapply parses_bind; [eapply parses_count; [eassumption|reflexivity|lia]|]. rewrite !Nat2N.id.
  eapply parses_bind.
  { eapply parses_emit_each; [done|done|]. intros seg bs' Hin Hw.
    rewrite Forall_forall in Ws, Hseg. by apply parses_segment; auto. }
  eapply parses_bind; [eapply parses_count; [eassumption|reflexivity|lia]|]. rewrite !Nat2N.id.
  eapply parses_bind.
  { eapply parses_emit_each; [done|done|]. intros tok bs' Hin Hw.
    rewrite Forall_forall in Wt. by apply parses_index; auto. }
  eapply parses_lift; [by eapply layer_nterms_spec|].
  unfold MAX_TERMS_PER_LAYER in *.
  apply parses_at_most; [lia|].
  replace (saturating_add64 _ _) with (add_terms total l)
    by (unfold add_terms; f_equal; lia).
  apply parses_at_most; [done|]. destruct l. apply parses_ret.
Qed.
End lfc2_round_trip.

(** ** Whole circuits *)
Section circuit_round_trip.
Context {A : Type} `{SerializableFieldLaws A} `{Sha256}.
Context {R : Type} {BR : BufRead R} {BL : BufReadLaws R}.

Lemma parses_constant (k : A) bs :
  mret (to_bytes k) = @Ok string _ bs -> parses read_constant bs k.
Proof.
  intros Hb. inv_outcome. unfold read_constant. rewrite <- (app_nil_r (to_bytes k)).
  eapply parses_bind; [apply parses_read_bytes, to_bytes_length|].
  rewrite bytes_to_element_to_bytes. cbn. intros s rest Hs. by exists s.
Qed.

(** The id is either not checked or the one [compute_id] returns. *)
Definition id_ok (enforce : bool) (c : Circuit A) : Prop :=
  enforce = true -> compute_id (raw c) = @Ok string _ (id c).

Lemma parses_finish enforce (c : Circuit A) :
  validate_raw_circuit (raw c) = Ok tt -> length (id c) = 32%nat -> id_ok enforce c ->
  parses (finish_circuit enforce (raw c)) (id c) c.
Proof.
  intros Hlim Hlen Hid. unfold finish_circuit. rewrite <- (app_nil_r (id c)).
  eapply parses_bind; [by apply parses_read_bytes|].
  rewrite Hlim, bind_Ok.
  assert ((if enforce then computed_id ← compute_id (raw c);
     reject_if (negb (bool_decide (computed_id = id c))) "Circuit ID verification failed"%string
    else mret tt) = Ok tt) as ->.
  { destruct enforce; [|done]. rewrite (Hid eq_refl), bind_Ok.
    by rewrite bool_decide_eq_true_2. }
  rewrite bind_Ok. destruct c. intros s rest Hs. by exists s.
Qed.

(** What a circuit must satisfy to be read back: what every reader
    guarantees, and deltas that are [u32]s. *)
Record readable (rd : CircuitReader) (enforce : bool) (c : Circuit A) : Prop := {
  rd_limits : circuit_limits rd (raw c);
  rd_wf : circuit_wf (raw c);
  rd_u32 : Forall layer_u32 (layers (raw c));
  rd_id_length : length (id c) = 32%nat;
  rd_id_ok : id_ok enforce c
}.

Lemma parses_lfc2_layers rd nconst ls bs n :
  emit_each (lfc2.write_layer (E:=string)) ls = Ok bs -> n = length ls ->
  Forall layer_limits ls -> Forall (layer_wf (N.to_nat nconst)) ls -> Forall layer_u32 ls ->
  total_terms ls <= rd_max_total_terms rd ->
  parses (read_loop n (fun '(ls, total) =>
     r ← lfc2.read_layer rd nconst total; mret (ls ++ [r.1], r.2)) ([], 0)) bs
    (ls, total_terms ls).
Proof.
  intros Hw Hn Hlim Hwf Hu Htot.
  set (f := fun (a : list Layer * N) (l : Layer) => (a.1 ++ [l], add_terms a.2 l)).
  assert (forall ls a, foldl f a ls = (a.1 ++ ls, foldl add_terms a.2 ls)) as Hf.
  { intros ls'. induction ls' as [|l ls' IH]; intros [a1 a2]; cbn; [by rewrite app_nil_r|].
    rewrite IH. cbn. by rewrite <- app_assoc. }
  replace (ls, total_terms ls) with (foldl f ([], 0) ls) by by rewrite Hf.
  eapply (parses_emit_loop _ _ _ (fun done a => a = (done, total_terms done))); [done|done|done|].
  intros pre x rest a bs' -> -> Hx. subst f. cbn.
  rewrite Forall_app, Forall_cons in Hlim, Hwf, Hu. split; [|by rewrite total_terms_snoc].
  eapply (parses_bind_ret _ (fun r => (pre ++ [r.1], r.2)) _ (x, _)); [|reflexivity].
  apply parses_lfc2_layer; try done; try tauto.
  etransitivity; [|exact Htot]. rewrite <- total_terms_snoc.
  replace (pre ++ x :: rest) with ((pre ++ [x]) ++ rest) by by rewrite <- app_assoc.
  apply total_terms_prefix, total_terms_64.
Qed.

Lemma parses_lfc2_inner wr rd enforce c bs :
  rd_field_id rd = wr_field_id wr -> readable rd enforce c ->
  lfc2.to_bytes_lfc2 (E:=string) wr c = Ok bs ->
  exists body, bs = LFC2_MAGIC ++ body /\ parses (lfc2.from_stream_lfc2_inner rd enforce) body c.
Proof.
  intros Hfid [Hlim Hwf Hu Hidl Hid] Hw. unfold lfc2.to_bytes_lfc2 in Hw. inv_emit. inv_outcome.
  eexists. split; [done|]. unfold lfc2.from_stream_lfc2_inner. destruct (Hlim).
  eapply parses_bind; [by apply parses_uleb4_usize|].
  eapply parses_bind; [eapply parses_count; [eassumption|reflexivity|lia]|]. rewrite !Nat2N.id.
  eapply parses_lift; [done|].
  apply parses_check; [by rewrite (sane_logv (noutput (raw c)))|].
  eapply parses_bind; [by apply parses_uleb4_usize|]. apply parses_check; [done|].
  eapply parses_bind; [eapply parses_count; [eassumption|reflexivity|lia]|].
  eapply parses_bind; [eapply parses_count; [eassumption|reflexivity|lia]|].
  eapply parses_bind; [eapply parses_count; [eassumption|reflexivity|lia]|].
  eapply parses_bind; [eapply parses_count; [eassumption|reflexivity|lia]|].
  apply parses_check; [by rewrite Hfid, N.eqb_refl|].
  eapply parses_bind; [eapply parses_count; [eassumption|reflexivity|lia]|]. rewrite !Nat2N.id.
  eapply parses_bind.
  { eapply parses_emit_each; [done|done|]. intros k bs' _. apply parses_constant. }
  eapply parses_bind.
  { eapply parses_lfc2_layers; rewrite ?Nat2N.id; done. }
  rewrite app_nil_r. cbn [fst].
  replace {| ninput := _ |} with (raw c) by by destruct c as [[]].
  apply parses_finish; [by eapply validate_ok|done|done].
Qed.
End circuit_round_trip.

(** ** What a successful read guarantees *)
Section guarantees.
Context {R : Type} {BR : BufRead R} {BL : BufReadLaws R}.

Lemma ensures_check {B} (b : bool) e (k : unit -> reader R B) P :
  (b = false -> ensures (k tt) P) -> ensures (lift (reject_if b e) ≫= k) P.
Proof.
  intros Hk. eapply (ensures_bind _ _ (fun _ => b = false)); [|intros []; auto].
  apply ensures_lift. intros a Ha. by apply reject_if_Ok in Ha.
Qed.

Lemma ensures_lift_bind {A B} (m : outcome string A) (k : A -> reader R B) P :
  (forall a, m = Ok a -> ensures (k a) P) -> ensures (lift m ≫= k) P.
Proof. intros Hk. eapply ensures_bind; [by apply (ensures_lift m (fun a => m = Ok a))|done]. Qed.

Lemma ensures_read_bytes n e : ensures (R:=R) (read_bytes n e) (fun bs => length bs = n).
Proof.
  intros s bs s' E. unfold read_bytes in E.
  destruct (Nat.lt_ge_cases (length (remaining s)) n) as [Hlt|Hge].
  - by rewrite read_exact_none in E.
  - destruct (read_exact_some s n Hge) as (s1 & E1 & _). rewrite E1 in E.
    injection E as <- _. len.
Qed.

Lemma ensures_uleb4 : ensures (R:=R) read_uleb128_max4_u32 (fun v => v <= MAX_ULEB4).
Proof.
  assert (forall iters r k, ensures (R:=R) (read_uleb128_max4_fallback iters r k)
            (fun v => v <= MAX_ULEB4)) as Hfb.
  { induction iters as [|iters IH]; intros r k; cbn; [by apply ensures_lift|].
    eapply ensures_bind; [apply ensures_true|]. intros b _.
    destruct (N.land _ _ =? 0); [|apply IH].
    destruct (N.ltb_spec MAX_ULEB4 (N.lor r (shl32 (N.land (u8_to_N b) 0x7F) k)));
      [by apply ensures_lift|by apply ensures_ret]. }
  assert (forall val n (s : R) v s', uleb4_accept val n s = Ok (v, s') -> v <= MAX_ULEB4) as Hacc.
  { intros val n s v s' E. unfold uleb4_accept in E.
    destruct (N.ltb_spec MAX_ULEB4 val); [done|]. by injection E as <- _. }
  intros s v s' E. unfold read_uleb128_max4_u32 in E. destruct (fill_buf s) as [buf s1].
  destruct buf as [|b0 [|b1 [|b2 [|b3 buf]]]];
    repeat match type of E with
    | context [if ?b <? 0x80 then _ else _] => destruct (N.ltb_spec b 0x80)
    end;
    first [by eapply Hfb | by eapply Hacc | injection E as <- _; unfold MAX_ULEB4; lia].
Qed.

Lemma ensures_count max e : ensures (R:=R) (lfc2.read_count max e) (fun n => n <= max).
Proof.
  eapply ensures_bind; [apply ensures_true|]. intros n _.
  apply ensures_check. intros Hn. apply ensures_ret. by apply N.ltb_ge.
Qed.

Lemma ensures_index (len : nat) e :
  ensures (R:=R) (lfc2.read_index len e) (fun i => (N.to_nat i < len)%nat).
Proof.
  eapply ensures_bind; [apply ensures_true|]. intros n _.
  apply ensures_check. intros Hn. apply ensures_ret. apply N.leb_gt in Hn. lia.
Qed.

Lemma lxor_u32 a b : a < 2 ^ 32 -> b < 2 ^ 32 -> N.lxor a b < 2 ^ 32.
Proof.
  assert (forall x, x < 2 ^ 32 <-> x = x mod 2 ^ 32) as Hmod.
  { intros x. split; [intros; by rewrite N.mod_small|intros ->; by apply N.mod_lt]. }
  intros Ha%Hmod Hb%Hmod. apply Hmod.
  rewrite <- !N.land_ones in *. rewrite Ha, Hb at 1. apply N.bits_inj. intros n.
  rewrite !N.lxor_spec, !N.land_spec, !N.lxor_spec.
  by destruct (N.testbit a n), (N.testbit b n), (N.testbit (N.ones 32) n).
Qed.

Lemma decode_delta_u32_lt v : v <= MAX_ULEB4 -> lfc2.decode_delta_u32 v < 2 ^ 32.
Proof.
  unfold MAX_ULEB4. intros Hv. apply lxor_u32; [|apply wrap32_lt].
  rewrite N.shiftr_div_pow2. change (2 ^ 1) with 2. dlia.
Qed.

Lemma ensures_delta nconst :
  ensures (R:=R) (lfc2.read_delta nconst)
    (fun d => delta_u32 d /\ (N.to_nat (d_k_index d) < N.to_nat nconst)%nat).
Proof.
  unfold lfc2.read_delta.
  do 4 (eapply ensures_bind; [apply ensures_uleb4|]; intros ? ?).
  apply ensures_check. intros Hk. apply ensures_ret. apply N.leb_gt in Hk. cbn.
  split; [|lia]. unfold delta_u32. cbn. split_and!; by apply decode_delta_u32_lt.
Qed.

Lemma ensures_segment ndeltas :
  ensures (R:=R) (lfc2.read_segment ndeltas)
    (fun seg => N.of_nat (length seg) <= MAX_TERMS_PER_LAYER /\
       Forall (fun i => (N.to_nat i < ndeltas)%nat) seg).
Proof.
  eapply ensures_bind; [apply ensures_count|]. intros n Hn.
  eapply ensures_weaken; [apply ensures_read_n, ensures_index|].
  cbn beta in *. intros seg [Hl Hall]. split; [lia|done].
Qed.

(** A layer that has been read, given the total of terms before it. *)
Definition layer_read (rd : CircuitReader) (nconst : nat) (total : N) (r : Layer * N) : Prop :=
  layer_limits r.1 /\ layer_wf nconst r.1 /\ layer_u32 r.1 /\ r.2 = add_terms total r.1 /\
  r.2 <= rd_max_total_terms rd.

Lemma ensures_lfc2_layer rd nconst total :
  ensures (R:=R) (lfc2.read_layer rd nconst total) (layer_read rd (N.to_nat nconst) total).
Proof.
  unfold lfc2.read_layer.
  eapply ensures_bind; [apply ensures_true|]. intros lw _.
  apply ensures_check. intros Hlw%negb_false_iff.
  eapply ensures_bind; [apply ensures_count|]. intros w Hw.
  eapply ensures_bind; [apply ensures_count|]. intros nd Hnd.
  eapply ensures_bind; [apply ensures_read_n, ensures_delta|]. intros ds [Hds Hdall].
  eapply ensures_bind; [apply ensures_count|]. intros ns Hns.
  eapply ensures_bind; [apply ensures_read_n, ensures_segment|]. intros segs [Hss Hsall].
  eapply ensures_bind; [apply ensures_count|]. intros nt Hnt.
  eapply ensures_bind; [apply ensures_read_n, ensures_index|]. intros toks [Hts Htall].
  cbn beta in *. apply Forall_and in Hdall as [Hdu Hdk]. apply Forall_and in Hsall as [Hsl Hsi].
  set (l := {| nw := N.to_nat w; logw := N.to_nat lw; deltas := ds;
               delta_segments := segs; delta_tokens := toks |}).
  assert (layer_wf (N.to_nat nconst) l) as Hwf by by split.
  apply ensures_lift_bind. intros nterms Hterms.
  rewrite (layer_nterms_spec _ l Hwf : lfc2.layer_nterms segs toks = _) in Hterms.
  apply Ok_inj in Hterms as <-.
  apply ensures_check. intros Hmax%N.ltb_ge. apply ensures_check. intros Htot%N.ltb_ge.
  unfold MAX_TERMS_PER_LAYER in *. fold l.
  assert (N.of_nat (length (layer_indices l)) <= 20000000) as Hli by lia.
  assert (N.min (N.of_nat (length (layer_indices l))) (2 ^ 64 - 1) =
          N.of_nat (length (layer_indices l))) as Hmin by lia.
  rewrite Hmin in *. apply ensures_ret. split_and!; [|done..].
  split; unfold MAX_TERMS_PER_LAYER; cbn [fst]; try done; cbn; lia.
Qed.

(** The loop over the layers, for either format's [read_layer]. *)
Lemma ensures_layers rd nconst (p : N -> reader R (Layer * N)) n :
  (forall total, ensures (p total) (layer_read rd nconst total)) ->
  ensures (read_loop n (fun '(ls, total) => r ← p total; mret (ls ++ [r.1], r.2)) ([], 0))
    (fun lt => length lt.1 = n /\ Forall layer_limits lt.1 /\ Forall (layer_wf nconst) lt.1 /\
       Forall layer_u32 lt.1 /\ total_terms lt.1 <= rd_max_total_terms rd).
Proof.
  intros Hp.
  eapply ensures_weaken.
  - apply (ensures_read_loop n _ (fun i lt => length lt.1 = i /\ lt.2 = total_terms lt.1 /\
       Forall layer_limits lt.1 /\ Forall (layer_wf nconst) lt.1 /\ Forall layer_u32 lt.1 /\
       lt.2 <= rd_max_total_terms rd)); [split_and!; cbn; auto; lia|].
    intros i [ls total] _ Hinv. cbn [fst snd] in Hinv.
    destruct Hinv as (Hlen & -> & Hlim & Hwf & Hu & Htot).
    eapply ensures_bind; [apply Hp|]. intros [l tot'] Hr. unfold layer_read in Hr.
    cbn [fst snd] in Hr. destruct Hr as (Hl & Hw & Hlu & -> & Ht).
    apply ensures_ret. cbn [fst snd]. rewrite !Forall_app, !Forall_singleton, total_terms_snoc.
    split_and!; auto. len.
  - intros [ls total] (? & E & ? & ? & ? & ?). cbn in *. subst. auto.
Qed.
End guarantees.

Section guarantees_circuit.
Context {A : Type} `{SerializableField A} `{Sha256}.
Context {R : Type} {BR : BufRead R} {BL : BufReadLaws R}.

Lemma ensures_finish enforce (rc : RawCircuit A) :
  ensures (R:=R) (finish_circuit enforce rc)
    (fun c => raw c = rc /\ length (id c) = 32%nat /\ id_ok enforce c /\
       (npublic_input rc <= ninput rc)%nat).
Proof.
  eapply ensures_bind; [apply ensures_read_bytes|]. intros bs Hbs.
  apply ensures_lift. intros c Hc. inv_outcome. cbn. split_and!; [done|done| |].
  - intros ->. inv_outcome. cbn. apply negb_false_iff, bool_decide_eq_true in Hx0. by subst.
  - unfold validate_raw_circuit in Hx. inv_outcome. by apply Nat.ltb_ge in Hx4.
Qed.

Lemma ensures_lfc2_inner rd enforce :
  ensures (R:=R) (lfc2.from_stream_lfc2_inner rd enforce) (readable rd enforce).
Proof.
  unfold lfc2.from_stream_lfc2_inner.
  eapply ensures_bind; [apply ensures_true|]. intros fid _.
  eapply ensures_bind; [apply ensures_count|]. intros nv Hnv.
  apply ensures_lift_bind. intros lv Hlv.
  apply ensures_check. intros _.
  eapply ensures_bind; [apply ensures_true|]. intros nc _.
  apply ensures_check. intros _.
  eapply ensures_bind; [apply ensures_count|]. intros np Hnp.
  eapply ensures_bind; [apply ensures_count|]. intros sb Hsb.
  eapply ensures_bind; [apply ensures_count|]. intros ni Hni.
  eapply ensures_bind; [apply ensures_count|]. intros nl Hnl.
  apply ensures_check. intros _.
  eapply ensures_bind; [apply ensures_count|]. intros ncst Hncst.
  eapply ensures_bind; [apply (ensures_read_n _ _ (fun _ => True)), ensures_true|].
  intros cs [Hcs _].
  eapply ensures_bind; [apply ensures_layers; intros; apply ensures_lfc2_layer|].
  intros [ls tot]. cbn [fst snd]. rewrite Nat2N.id. intros (Hls & Hlim & Hwf & Hu & Htot).
  eapply ensures_weaken; [apply ensures_finish|]. intros c (Hraw & Hidl & Hid & Hpub).
  split; rewrite ?Hraw; try done. split; cbn in *; try done; lia.
Qed.
End guarantees_circuit.

(** ** LFC1 *)
Section lfc1_guarantees.
Context {R : Type} {BR : BufRead R} {BL : BufReadLaws R}.

Lemma from_le_bytes_24 bs : length bs = 3%nat -> from_le_bytes bs < 2 ^ 24.
Proof.
  intros Hl. pose proof (from_le_bytes_bound bs) as Hb. rewrite Hl in Hb. exact Hb.
Qed.

Lemma ensures_num_max max e : ensures (R:=R) (lfc1.read_num_max max e) (fun n => n <= max).
Proof.
  eapply ensures_bind; [apply ensures_true|]. intros n _.
  apply ensures_check. intros Hn. apply ensures_ret. by apply N.ltb_ge.
Qed.

Lemma lfc1_decode_lt v : v < 2 ^ 24 -> lfc1.decode_delta_u32 v < 2 ^ 32.
Proof.
  intros Hv. unfold lfc1.decode_delta_u32.
  destruct (negb _); [apply wrap32_lt|].
  rewrite N.shiftr_div_pow2. change (2 ^ 1) with 2. dlia.
Qed.

(** The table and the segment built from the terms read so far. *)
Record lfc1_state (nconst n : nat) (st : Approximate.builder * list N) : Prop := {
  st_inv : Approximate.invariant st.1;
  st_seg : Forall (fun i => (N.to_nat i < length (Approximate.deltas st.1))%nat) st.2;
  st_k : Forall (fun d => delta_u32 d /\ (N.to_nat (d_k_index d) < nconst)%nat)
           (Approximate.deltas st.1);
  st_len : (length (Approximate.deltas st.1) <= n)%nat;
  st_seg_len : length st.2 = n
}.

(** One term: what it decodes to and what it does to the state. *)
Definition chunk_delta (chunk : list u8) : TermDelta :=
  {| d_g := lfc1.decode_delta_u32 (from_le_bytes (take 3 chunk));
     d_h := (lfc1.decode_delta_u32 (from_le_bytes (take 3 (drop 3 chunk))),
             lfc1.decode_delta_u32 (from_le_bytes (take 3 (drop 6 chunk))));
     d_k_index := from_le_bytes (take 3 (drop 9 chunk)) |}.

Lemma parse_term_spec nconst n st chunk :
  length chunk = 12%nat -> lfc1_state (N.to_nat nconst) n st -> N.of_nat n < 2 ^ 32 ->
  d_k_index (chunk_delta chunk) < nconst ->
  exists db i, lfc1.parse_term nconst st chunk = Ok (db, st.2 ++ [i]) /\
    lfc1_state (N.to_nat nconst) (S n) (db, st.2 ++ [i]) /\
    (exists suffix, Approximate.deltas db = Approximate.deltas st.1 ++ suffix) /\
    Approximate.deltas db !! N.to_nat i = Some (chunk_delta chunk).
Proof.
  intros Hlen [Hinv Hseg Hk Hdl Hsl] Hn Hvi. destruct st as [db seg]. cbn [fst snd] in *.
  unfold lfc1.parse_term, lfc1.read_u24_le.
  assert (forall i, (i <= 9)%nat -> from_le_bytes (take 3 (drop i chunk)) < 2 ^ 24) as H24
    by (intros i Hi; apply from_le_bytes_24; len).
  pose proof (H24 0%nat ltac:(lia)) as B0. rewrite drop_0 in B0.
  pose proof (H24 3%nat ltac:(lia)) as B3. pose proof (H24 6%nat ltac:(lia)) as B6.
  pose proof (H24 9%nat ltac:(lia)) as B9.
  cbn [d_k_index chunk_delta] in Hvi.
  rewrite (proj2 (N.leb_gt _ _)) by done. cbn [reject_if]. rewrite bind_Ok.
  rewrite wrap32_small by lia.
  edestruct (Approximate.approximate_dedup_spec (E:=string) db) as (i & db' & -> & Hinv' & (suf & Hsuf & Hsufl) & Hi);
    [done|lia|].
  rewrite bind_Ok. exists db', i. split_and!; [done| |by exists suf|exact Hi].
  assert (length (Approximate.deltas db') <= S n)%nat
    by (rewrite Hsuf, length_app; destruct Hsufl as [->| ->]; cbn; lia).
  split; cbn [fst snd]; [done| | |done|len].
  - apply Forall_app. split; [|constructor; [by eapply lookup_lt_Some|done]].
    eapply Forall_impl; [done|]. intros j Hj. cbn in *. rewrite Hsuf. len.
  - rewrite Forall_forall. intros d Hd. rewrite Hsuf in Hd. apply elem_of_app in Hd as [Hd|Hd].
    { rewrite Forall_forall in Hk. by apply Hk. }
    destruct Hsufl as [->| ->]; [by apply elem_of_nil in Hd|].
    apply list_elem_of_singleton in Hd as ->. unfold delta_u32. cbn [d_g d_h d_k_index fst snd].
    split_and!; [by apply lfc1_decode_lt..|lia].
Qed.

(** The deltas a state's segment stands for. *)
Definition state_deltas (st : Approximate.builder * list N) : list TermDelta :=
  omap (fun i => Approximate.deltas st.1 !! N.to_nat i) st.2.

Lemma omap_lookup_prefix {X} (l suffix : list X) (idxs : list N) :
  Forall (fun i => (N.to_nat i < length l)%nat) idxs ->
  omap (fun i => (l ++ suffix) !! N.to_nat i) idxs = omap (fun i => l !! N.to_nat i) idxs.
Proof.
  induction 1 as [|i idxs Hi _ IH]; [done|]. cbn. by rewrite lookup_app_l, IH.
Qed.

Lemma parse_terms_spec nconst chunks n st :
  lfc1_state (N.to_nat nconst) n st -> N.of_nat (n + length chunks) <= 2 ^ 32 ->
  Forall (fun ch => length ch = 12%nat /\ d_k_index (chunk_delta ch) < nconst) chunks ->
  exists st', foldM (lfc1.parse_term nconst) st chunks = Ok st' /\
    lfc1_state (N.to_nat nconst) (n + length chunks) st' /\
    state_deltas st' = state_deltas st ++ map chunk_delta chunks.
Proof.
  intros Hst Hn Hall. revert n st Hst Hn.
  induction Hall as [|ch chunks [Hlen Hk] _ IH]; intros n st Hst Hn; cbn.
  { exists st. rewrite Nat.add_0_r, app_nil_r. done. }
  cbn in Hn. destruct (parse_term_spec nconst n st ch) as (db & i & -> & Hst1 & (suf & Hsuf) & Hi);
    [done..|lia|done|].
  rewrite bind_Ok. destruct (IH (S n) _ Hst1) as (st' & -> & Hst' & Hd); [lia|].
  exists st'. rewrite Nat.add_succ_comm in Hst'. split_and!; [done|done|].
  rewrite Hd. unfold state_deltas. cbn. rewrite omap_app. cbn. rewrite Hi. cbn.
  rewrite Hsuf, omap_lookup_prefix by apply Hst. by rewrite <- app_assoc.
Qed.

Lemma concat_take_chunks (chunks : list (list u8)) i :
  Forall (fun ch => length ch = 12%nat) chunks ->
  drop (i * 12) (concat chunks) = concat (drop i chunks).
Proof.
  intros Hall. revert i. induction Hall as [|ch chunks Hch Hall IH]; intros [|i]; try done.
  cbn [concat drop]. rewrite Nat.mul_succ_l, Nat.add_comm, <- IH, <- drop_drop.
  f_equal. rewrite <- Hch. by rewrite drop_app_length.
Qed.

Lemma term_chunks_concat (chunks : list (list u8)) :
  Forall (fun ch => length ch = 12%nat) chunks ->
  lfc1.term_chunks (length chunks) (concat chunks) = chunks.
Proof.
  intros Hall. apply list_eq. intros i. unfold lfc1.term_chunks.
  rewrite list_lookup_fmap. destruct (decide (i < length chunks)%nat) as [Hi|Hi].
  - rewrite lookup_seq_lt by done. cbn. rewrite concat_take_chunks by done.
    destruct (lookup_lt_is_Some_2 _ _ Hi) as [ch Hch]. rewrite Hch.
    rewrite (drop_S _ _ _ Hch). cbn. rewrite Forall_forall in Hall.
    rewrite <- (Hall ch) by by eapply list_elem_of_lookup_2. by rewrite take_app_length.
  - rewrite lookup_seq_ge by lia. symmetry. apply lookup_ge_None. lia.
Qed.

Lemma length_concat_chunks (chunks : list (list u8)) :
  Forall (fun ch => length ch = 12%nat) chunks -> length (concat chunks) = (length chunks * 12)%nat.
Proof. induction 1 as [|ch chunks Hch _ IH]; cbn; [done|]. len. Qed.

(** Reading in batches is one pass over the terms. *)
Lemma parses_batches nconst chunks fuel st st' :
  Forall (fun ch => length ch = 12%nat) chunks -> (length chunks <= fuel)%nat ->
  foldM (lfc1.parse_term nconst) st chunks = Ok st' ->
  parses (R:=R) (lfc1.read_batches fuel nconst (length chunks) st) (concat chunks) st'.
Proof.
  revert chunks st. induction fuel as [|fuel IH]; intros chunks st Hall Hlen Hf.
  { destruct chunks; [|cbn in Hlen; lia]. injection Hf as ->. apply parses_ret. }
  cbn [lfc1.read_batches]. destruct (length chunks) as [|m] eqn:El.
  { destruct chunks; [|done]. injection Hf as ->. apply parses_ret. }
  set (b := Nat.min (S m) 256). rewrite <- (take_drop b chunks) in Hf |- *.
  assert (length (take b chunks) = b) as Hb by (subst b; len).
  rewrite foldM_app in Hf. apply bind_Ok_inv in Hf as (st1 & Hf1 & Hf2).
  rewrite concat_app. rewrite <- (take_drop b chunks), Forall_app in Hall.
  destruct Hall as [Ht Hd]. eapply parses_bind.
  - unfold lfc1.read_batch. rewrite <- (app_nil_r (concat (take b chunks))).
    eapply parses_bind; [apply parses_read_bytes; by rewrite length_concat_chunks, Hb|].
    intros s rest Hs. exists s. split; [|done].
    rewrite <- Hb at 1. rewrite term_chunks_concat by done. by rewrite Hf1.
  - replace (S m - b)%nat with (length (drop b chunks)) by len.
    apply IH; [done|subst b; len|done].
Qed.
End lfc1_guarantees.

(** A layer with one segment, executed once. *)
Lemma uncompressed_indices w lw ds seg : layer_indices (new_uncompressed w lw ds seg) = seg.
Proof. unfold layer_indices, new_uncompressed. cbn. apply app_nil_r. Qed.

Section lfc1_layers.
Context {R : Type} {BR : BufRead R} {BL : BufReadLaws R}.

Lemma lfc1_state_new nconst :
  lfc1_state nconst 0 (Approximate.new lfc1.DELTA_CACHE_SIZE, []).
Proof. split; cbn; auto. by apply Approximate.approximate_new_invariant. Qed.

Lemma lfc1_state_layer rd nconst total n st w lw :
  lfc1_state nconst n st -> sane_logw lw = true -> N.of_nat w <= MAX_LAYER_INPUTS ->
  N.of_nat n <= MAX_TERMS_PER_LAYER ->
  saturating_add64 total (N.of_nat n) <= rd_max_total_terms rd ->
  layer_read rd nconst total
    (new_uncompressed w lw (Approximate.deltas st.1) st.2, saturating_add64 total (N.of_nat n)).
Proof.
  intros [Hinv Hseg Hk Hdl Hsl] Hlw Hw Hn Htot.
  apply Forall_and in Hk as [Hu Hk].
  unfold layer_read, add_terms. cbn [fst snd]. rewrite uncompressed_indices, Hsl.
  unfold MAX_TERMS_PER_LAYER, MAX_DELTAS in *. split_and!; try done.
  - split; rewrite ?uncompressed_indices; unfold MAX_TERMS_PER_LAYER, MAX_DELTAS;
      cbn [new_uncompressed logw nw deltas delta_segments delta_tokens length]; try done; try lia.
    constructor; [lia|done].
  - split; cbn; auto.
Qed.

Lemma parse_terms_inv nconst chunks n st st' :
  Forall (fun ch => length ch = 12%nat) chunks ->
  lfc1_state (N.to_nat nconst) n st -> N.of_nat (n + length chunks) <= 2 ^ 32 ->
  foldM (lfc1.parse_term nconst) st chunks = Ok st' ->
  lfc1_state (N.to_nat nconst) (n + length chunks) st'.
Proof.
  intros Hall Hst Hn Hf.
  assert (Forall (fun ch => d_k_index (chunk_delta ch) < nconst) chunks) as Hk.
  { clear -Hf. revert st Hf. induction chunks as [|ch chunks IH]; intros st Hf; [done|].
    cbn in Hf. apply bind_Ok_inv in Hf as (st1 & H1 & H2).
    constructor; [|by eapply IH]. unfold lfc1.parse_term in H1. destruct st.
    apply bind_Ok_inv in H1 as (u & Hu & _). apply reject_if_Ok in Hu. by apply N.leb_gt in Hu. }
  destruct (parse_terms_spec nconst chunks n st Hst Hn) as (st1 & Hf1 & Hst1 & _).
  { apply Forall_and. done. }
  rewrite Hf in Hf1. by apply Ok_inj in Hf1 as <-.
Qed.

Lemma ensures_batch nconst n batch st :
  lfc1_state (N.to_nat nconst) n st -> N.of_nat (n + batch) <= 2 ^ 32 ->
  ensures (R:=R) (lfc1.read_batch nconst batch st) (lfc1_state (N.to_nat nconst) (n + batch)).
Proof.
  intros Hst Hn. unfold lfc1.read_batch.
  eapply ensures_bind; [apply ensures_read_bytes|]. intros buf Hbuf. cbn beta in Hbuf.
  apply ensures_lift. intros st' Hf.
  assert (length (lfc1.term_chunks batch buf) = batch) as Hl
    by (unfold lfc1.term_chunks; by rewrite length_map, length_seq).
  rewrite <- Hl. eapply parse_terms_inv; [|done|by rewrite Hl|done].
  apply Forall_forall. intros ch Hin. apply list_elem_of_fmap in Hin as (i & -> & Hi).
  apply elem_of_seq in Hi. len.
Qed.

Lemma ensures_batches nconst fuel m n st :
  (m <= fuel)%nat -> lfc1_state (N.to_nat nconst) n st -> N.of_nat (n + m) <= 2 ^ 32 ->
  ensures (R:=R) (lfc1.read_batches fuel nconst m st) (lfc1_state (N.to_nat nconst) (n + m)).
Proof.
  revert m n st. induction fuel as [|fuel IH]; intros m n st Hm Hst Hn.
  { apply ensures_ret. replace m with 0%nat by lia. by rewrite Nat.add_0_r. }
  cbn [lfc1.read_batches]. destruct m as [|m].
  { apply ensures_ret. by rewrite Nat.add_0_r. }
  set (b := Nat.min (S m) 256).
  eapply ensures_bind; [apply (ensures_batch nconst n b); [done|subst b; lia]|].
  intros st' Hst'. replace (n + S m)%nat with (n + b + (S m - b))%nat by (subst b; lia).
  apply IH; [subst b; lia|done|subst b; lia].
Qed.

Lemma ensures_lfc1_layer rd nconst total :
  ensures (R:=R) (lfc1.read_layer rd nconst total) (layer_read rd (N.to_nat nconst) total).
Proof.
  unfold lfc1.read_layer.
  eapply ensures_bind; [apply ensures_true|]. intros lw _.
  apply ensures_check. intros Hlw%negb_false_iff.
  eapply ensures_bind; [apply ensures_num_max|]. intros w Hw.
  eapply ensures_bind; [apply ensures_num_max|]. intros nt Hnt. cbn beta in *.
  apply ensures_check. intros Htot%N.ltb_ge.
  eapply ensures_bind.
  { apply (ensures_batches nconst _ _ 0); [done|apply lfc1_state_new|].
    unfold MAX_TERMS_PER_LAYER in Hnt. lia. }
  intros st Hst. apply ensures_ret. set (n := N.to_nat nt) in *.
  replace nt with (N.of_nat n) in * by (subst n; lia).
  apply lfc1_state_layer; auto. lia.
Qed.
End lfc1_layers.

Section lfc1_circuit.
Context {A : Type} `{SerializableField A} `{Sha256}.
Context {R : Type} {BR : BufRead R} {BL : BufReadLaws R}.

Lemma ensures_lfc1_inner rd enforce :
  ensures (R:=R) (lfc1.from_stream_lfc1_inner rd enforce) (readable rd enforce).
Proof.
  unfold lfc1.from_stream_lfc1_inner.
  eapply ensures_bind; [apply ensures_true|]. intros fid _.
  eapply ensures_bind; [apply ensures_num_max|]. intros nv Hnv.
  apply ensures_lift_bind. intros lv Hlv.
  apply ensures_check. intros _.
  eapply ensures_bind; [apply ensures_true|]. intros nc _.
  apply ensures_check. intros _.
  eapply ensures_bind; [apply ensures_num_max|]. intros np Hnp.
  eapply ensures_bind; [apply ensures_num_max|]. intros sb Hsb.
  eapply ensures_bind; [apply ensures_num_max|]. intros ni Hni.
  eapply ensures_bind; [apply ensures_num_max|]. intros nl Hnl.
  eapply ensures_bind; [apply ensures_num_max|]. intros ncst Hncst.
  apply ensures_check. intros _.
  eapply ensures_bind; [apply (ensures_read_n _ _ (fun _ => True)), ensures_true|].
  intros cs [Hcs _].
  eapply ensures_bind; [apply ensures_layers; intros; apply ensures_lfc1_layer|].
  intros [ls tot]. cbn [fst snd]. intros (Hls & Hlim & Hwf & Hu & Htot).
  eapply ensures_weaken; [apply ensures_finish|]. intros c (Hraw & Hidl & Hid & Hpub).
  rewrite <- Hcs in Hwf.
  split; rewrite ?Hraw; try done. split; cbn in *; try done; lia.
Qed.

Lemma ensures_from_stream rd enforce :
  ensures (R:=R) (from_stream rd enforce) (readable rd enforce).
Proof.
  intros s c s' E. unfold from_stream in E. destruct (fill_buf s) as [buf s1].
  destruct (bool_decide (take 4 buf = LFC2_MAGIC)); [by eapply ensures_lfc2_inner|].
  destruct (bool_decide (head buf = Some x01)); [by eapply ensures_lfc1_inner|done].
Qed.
End lfc1_circuit.

(** ** What can panic

    Nothing in either reader except the logarithm of the announced number of
    outputs. *)
Section quiet_readers.
Context {R : Type} {BR : BufRead R} {BL : BufReadLaws R}.

Lemma quiet_uleb4 : quiet (R:=R) read_uleb128_max4_u32.
Proof.
  assert (forall iters r k, quiet (R:=R) (read_uleb128_max4_fallback iters r k)) as Hfb.
  { induction iters as [|iters IH]; intros r k; cbn [read_uleb128_max4_fallback]; [by apply quiet_lift|].
    apply (quiet_bind _ _ (fun _ => True)); [|apply ensures_true|].
    - apply (quiet_bind _ _ (fun bs => length bs = 1%nat)); [apply quiet_read_bytes|apply ensures_read_bytes|].
      intros bs Hbs. apply quiet_lift. by destruct bs.
    - intros b _. destruct (N.land _ _ =? 0); [|apply IH]. by destruct (MAX_ULEB4 <? _); [apply quiet_lift|]. }
  intros s. unfold read_uleb128_max4_u32. destruct (fill_buf s) as [buf s1].
  assert (forall v n, uleb4_accept v n s1 <> Panic) as Hacc by (intros v n; unfold uleb4_accept; by destruct (_ <? _)).
  destruct buf as [|b0 [|b1 [|b2 [|b3 buf]]]]; repeat match goal with |- context [if ?b <? 0x80 then _ else _] => destruct (b <? 0x80) end;
    first [done|apply Hfb|apply Hacc].
Qed.
Lemma quiet_count max e : quiet (R:=R) (lfc2.read_count max e).
Proof. apply (quiet_bind _ _ (fun _ => True)); [apply quiet_uleb4|apply ensures_true|]. intros n _. by apply quiet_check. Qed.
Lemma quiet_index len e : quiet (R:=R) (lfc2.read_index len e).
Proof. apply (quiet_bind _ _ (fun _ => True)); [apply quiet_uleb4|apply ensures_true|]. intros n _. by apply quiet_check. Qed.
Lemma quiet_delta nconst : quiet (R:=R) (lfc2.read_delta nconst).
Proof.
  do 4 (apply (quiet_bind _ _ (fun _ => True)); [apply quiet_uleb4|apply ensures_true|intros ? _]). by apply quiet_check.
Qed.
Lemma quiet_segment ndeltas : quiet (R:=R) (lfc2.read_segment ndeltas).
Proof. apply (quiet_bind _ _ (fun _ => True)); [apply quiet_count|apply ensures_true|]. intros n _. apply quiet_read_n, quiet_index. Qed.
Lemma quiet_lfc2_layer rd nconst total : quiet (R:=R) (lfc2.read_layer rd nconst total).
Proof.
  unfold lfc2.read_layer. apply (quiet_bind _ _ (fun _ => True)); [apply quiet_uleb4|apply ensures_true|intros lw _].
  apply quiet_check. intros _. do 2 (apply (quiet_bind _ _ (fun _ => True)); [apply quiet_count|apply ensures_true|intros ? _]).
  apply (quiet_bind _ _ (fun _ => True)); [apply quiet_read_n, quiet_delta|apply ensures_true|intros ds _].
  apply (quiet_bind _ _ (fun _ => True)); [apply quiet_count|apply ensures_true|intros ns _].
  apply (quiet_bind _ _ (fun _ => True)); [apply quiet_read_n, quiet_segment|apply ensures_true|intros segs _].
  apply (quiet_bind _ _ (fun _ => True)); [apply quiet_count|apply ensures_true|intros nt _].
  eapply quiet_bind; [apply quiet_read_n, quiet_index|apply ensures_read_n, ensures_index|]. intros toks [_ Htoks].
  apply quiet_lift_bind; [|intros nterms _; apply quiet_check; intros _; apply quiet_check; intros _; apply quiet_ret].
  unfold lfc2.layer_nterms. generalize 0. induction Htoks as [|tok toks Ht _ IH]; intros n; [done|].
  cbn [foldM]. destruct (lookup_lt_is_Some_2 _ _ Ht) as [seg Hseg]. rewrite (index_lookup _ _ _ Hseg), !bind_Ok. apply IH.
Qed.

Lemma quiet_num : quiet (R:=R) lfc1.read_num_stream.
Proof. apply (quiet_bind _ _ (fun _ => True)); [apply quiet_read_bytes|apply ensures_true|]. intros bs _. apply quiet_ret. Qed.
Lemma quiet_num_max max e : quiet (R:=R) (lfc1.read_num_max max e).
Proof. apply (quiet_bind _ _ (fun _ => True)); [apply quiet_num|apply ensures_true|]. intros n _. by apply quiet_check. Qed.
Lemma parse_terms_quiet nconst chunks : forall n st,
  Forall (fun ch => length ch = 12%nat) chunks -> lfc1_state (N.to_nat nconst) n st -> N.of_nat (n + length chunks) <= 2 ^ 32 ->
  foldM (lfc1.parse_term nconst) st chunks <> Panic.
Proof.
  induction chunks as [|ch chunks IH]; intros n st Hall Hst Hn; [done|]. apply Forall_cons in Hall as [Hch Hall]. cbn [foldM length] in *.
  destruct (N.lt_ge_cases (d_k_index (chunk_delta ch)) nconst) as [Hk|Hk].
  - destruct (parse_term_spec nconst n st ch) as (db & i & -> & Hst' & _); [done|done|lia|done|]. rewrite bind_Ok.
    apply (IH (S n)); [done|done|]. by rewrite Nat.add_succ_comm.
  - destruct st as [db seg]. unfold lfc1.parse_term, lfc1.read_u24_le. cbn [chunk_delta d_k_index] in Hk. by rewrite (proj2 (N.leb_le _ _) Hk).
Qed.
Lemma quiet_batches nconst fuel : forall m n st,
  lfc1_state (N.to_nat nconst) n st -> N.of_nat (n + m) <= 2 ^ 32 -> quiet (R:=R) (lfc1.read_batches fuel nconst m st).
Proof.
  induction fuel as [|fuel IH]; intros m n st Hst Hn; [apply quiet_ret|]. cbn [lfc1.read_batches]. destruct m as [|m]; [apply quiet_ret|].
  set (b := Nat.min (S m) 256). apply (quiet_bind _ _ (lfc1_state (N.to_nat nconst) (n + b))).
  - unfold lfc1.read_batch. apply (quiet_bind _ _ (fun buf => length buf = (b * 12)%nat)); [apply quiet_read_bytes|apply ensures_read_bytes|].
    intros buf Hbuf. assert (length (lfc1.term_chunks b buf) = b) as Hl by (unfold lfc1.term_chunks; by rewrite length_map, length_seq).
    apply quiet_lift. apply (parse_terms_quiet nconst _ n); [|done|rewrite Hl; subst b; lia].
    apply Forall_forall. intros ch Hin. apply list_elem_of_fmap in Hin as (i & -> & Hi). apply elem_of_seq in Hi. len.
  - apply ensures_batch; [done|subst b; lia].
  - intros st' Hst'. apply (IH _ (n + b)%nat); [done|subst b; lia].
Qed.
Lemma quiet_lfc1_layer rd nconst total : quiet (R:=R) (lfc1.read_layer rd nconst total).
Proof.
  unfold lfc1.read_layer. apply (quiet_bind _ _ (fun _ => True)); [apply quiet_num|apply ensures_true|intros lw _].
  apply quiet_check. intros _. apply (quiet_bind _ _ (fun _ => True)); [apply quiet_num_max|apply ensures_true|intros w _].
  eapply quiet_bind; [apply quiet_num_max|apply ensures_num_max|]. intros nt Hnt. apply quiet_check. intros _.
  apply (quiet_bind _ _ (fun _ => True)); [|apply ensures_true|intros st _; apply quiet_ret].
  apply (quiet_batches nconst _ _ 0); [apply lfc1_state_new|]. unfold MAX_TERMS_PER_LAYER in Hnt. lia.
Qed.
Lemma quiet_layers (p : N -> reader R (Layer * N)) n st :
  (forall total, quiet (p total)) -> quiet (read_loop n (fun '(ls, total) => r ← p total; mret (ls ++ [r.1], r.2)) st).
Proof.
  intros Hp. apply quiet_read_loop. intros [ls total]. apply (quiet_bind _ _ (fun _ => True)); [apply Hp|apply ensures_true|intros r _; apply quiet_ret].
Qed.
End quiet_readers.

Section panics.
Context {A : Type} `{SerializableFieldLaws A} `{Sha256}.
Context {R : Type} {BR : BufRead R} {BL : BufReadLaws R}.
(** An element with its three coordinates fits the staging buffer of
    [compute_id], and decoding one returns a [Result]. *)
Context (elt_fits : N.of_nat (serialized_size_bytes (E:=A)) + 24 <= ID_BUF).
Context (decode_total : forall bs, bytes_to_element (E:=A) bs <> Panic).

Lemma quiet_constant : quiet (R:=R) (read_constant (A:=A)).
Proof using decode_total.
  apply (quiet_bind _ _ (fun _ => True)); [apply quiet_read_bytes|apply ensures_true|]. intros bs _. apply quiet_lift.
  specialize (decode_total bs). by destruct (bytes_to_element bs).
Qed.
Lemma check_then {B} (b : bool) e (m : outcome string B) : m <> Panic -> (reject_if b e ;; m) <> Panic.
Proof using. intros Hm. by destruct b. Qed.
Lemma validate_total (rc : RawCircuit A) : validate_raw_circuit rc <> Panic.
Proof using. unfold validate_raw_circuit, at_most. repeat apply check_then. by destruct (_ <? _). Qed.
Lemma quiet_finish enforce (rc : RawCircuit A) : circuit_wf rc -> quiet (R:=R) (finish_circuit enforce rc).
Proof using All.
  intros Hwf. apply (quiet_bind _ _ (fun _ => True)); [apply quiet_read_bytes|apply ensures_true|]. intros bs _. apply quiet_lift.
  pose proof (validate_total rc) as Hv. destruct (validate_raw_circuit rc) as [[]| |]; [rewrite bind_Ok|done|done].
  destruct enforce; [|done]. rewrite (compute_id_spec elt_fits rc Hwf), bind_Ok. by destruct (bool_decide _).
Qed.

(** The number of outputs a file announces: the second number after the
    header of either format. *)
Definition announced_outputs (s : R) : outcome string N :=
  let (buf, s) := fill_buf s in
  if bool_decide (take 4 buf = LFC2_MAGIC) then
    fst <$> (read_uleb128_max4 ≫= fun _ => read_uleb128_max4) (consume 4 s)
  else if bool_decide (head buf = Some x01) then
    fst <$> (lfc1.read_num_stream ≫= fun _ => lfc1.read_num_stream) (consume 1 s)
  else Err "Unsupported format header"%string.

(** Two numbers, a limit on the second, and its logarithm. *)
Lemma panics_outputs {B} (num : reader R N) max e (k : N -> N -> nat -> reader R B) s :
  quiet num -> (forall fid nv lv, ceil_log2 (E:=string) (N.to_nat nv) = Ok lv -> quiet (k fid nv lv)) ->
  (fid ← num; nv ← (n ← num; lift (at_most n max e) ≫= fun _ => mret n); lv ← lift (ceil_log2 (N.to_nat nv)); k fid nv lv) s = Panic
  <-> fst <$> (num ≫= fun _ => num) s = Ok 0.
Proof using.
  clear elt_fits decode_total. intros Hq Hk. unfold mbind, reader_bind, lift. pose proof Hq as Hq2. specialize (Hq s). destruct (num s) as [[fid s1]| |]; [|done|done].
  specialize (Hq2 s1). destruct (num s1) as [[nv s2]| |]; [|done|done]. cbn [fmap outcome_fmap fst]. unfold at_most.
  destruct (N.eq_dec nv 0) as [->|Hnv].
  - rewrite (proj2 (N.ltb_ge max 0)) by lia. done.
  - split; [|by intros [= Hz]]. destruct (max <? nv); [done|]. cbn [reject_if].
    destruct (ceil_log2_pos (E:=string) (N.to_nat nv) ltac:(lia)) as [lv Hlv]. cbn. rewrite Hlv. intros Hp. by destruct (Hk fid nv lv Hlv s2).
Qed.
Lemma lfc2_panics rd enforce s :
  lfc2.from_stream_lfc2_inner (A:=A) rd enforce s = Panic <-> fst <$> (read_uleb128_max4 ≫= fun _ => read_uleb128_max4) s = Ok 0.
Proof using All.
  unfold lfc2.from_stream_lfc2_inner, lfc2.read_count at 1. apply panics_outputs; [apply quiet_uleb4|]. intros fid nv lv _.
  apply quiet_check. intros _. apply (quiet_bind _ _ (fun _ => True)); [apply quiet_uleb4|apply ensures_true|intros nc _].
  apply quiet_check. intros _. do 4 (apply (quiet_bind _ _ (fun _ => True)); [apply quiet_count|apply ensures_true|intros ? _]).
  apply quiet_check. intros _. apply (quiet_bind _ _ (fun _ => True)); [apply quiet_count|apply ensures_true|intros nk _].
  apply (quiet_bind _ _ (fun _ => True)); [apply quiet_read_n, quiet_constant|apply ensures_true|intros cs _].
  eapply quiet_bind; [apply quiet_layers; intros; apply quiet_lfc2_layer|apply ensures_layers; intros; apply ensures_lfc2_layer|].
  intros [ls tot] (_ & _ & Hwf & _). apply quiet_finish. by rewrite Nat2N.id in Hwf.
Qed.
Lemma lfc1_panics rd enforce s :
  lfc1.from_stream_lfc1_inner (A:=A) rd enforce s = Panic <-> fst <$> (lfc1.read_num_stream ≫= fun _ => lfc1.read_num_stream) s = Ok 0.
Proof using All.
  unfold lfc1.from_stream_lfc1_inner, lfc1.read_num_max at 1. apply panics_outputs; [apply quiet_num|]. intros fid nv lv _.
  apply quiet_check. intros _. apply (quiet_bind _ _ (fun _ => True)); [apply quiet_num|apply ensures_true|intros nc _].
  apply quiet_check. intros _. do 5 (apply (quiet_bind _ _ (fun _ => True)); [apply quiet_num_max|apply ensures_true|intros ? _]).
  apply quiet_check. intros _.
  eapply quiet_bind; [apply quiet_read_n, quiet_constant|apply (ensures_read_n _ _ (fun _ => True)), ensures_true|intros cs [Hcs _]].
  eapply quiet_bind; [apply quiet_layers; intros; apply quiet_lfc1_layer|apply ensures_layers; intros; apply ensures_lfc1_layer|].
  intros [ls tot] (_ & _ & Hwf & _). apply quiet_finish. by rewrite <- Hcs in Hwf.
Qed.
Lemma from_stream_panics rd enforce s : from_stream (A:=A) rd enforce s = Panic <-> announced_outputs s = Ok 0.
Proof using All.
  unfold from_stream, announced_outputs. destruct (fill_buf s) as [buf s1].
  destruct (bool_decide (take 4 buf = LFC2_MAGIC)); [apply lfc2_panics|]. by destruct (bool_decide (head buf = Some x01)); [apply lfc1_panics|].
Qed.
End panics.

(** * LFC1: reading what was written

    The LFC1 writer expands a circuit into its terms and numbers its
    constants afresh; the reader rebuilds a delta table.  The circuit that is
    read is therefore not the one written but one with the same expansion
    ([same_circuit]), which [compute_id] cannot tell apart. *)

(** ** Circuits with the same expansion *)
Section same_circuit.
Context {A : Type}.

Definition same_layer (cs cs' : list A) (l l' : Layer) : Prop :=
  nw l' = nw l /\ logw l' = logw l /\ layer_terms l' cs' = layer_terms l cs.

Record same_circuit (r r' : RawCircuit A) : Prop := {
  same_ninput : ninput r' = ninput r;
  same_npublic : npublic_input r' = npublic_input r;
  same_noutput : noutput r' = noutput r;
  same_logv : logv r' = logv r;
  same_boundary : subfield_boundary r' = subfield_boundary r;
  same_layers : Forall2 (same_layer (constants r) (constants r')) (layers r) (layers r')
}.

Context `{SerializableFieldLaws A} `{Sha256}.

Lemma same_id_preimage (r r' : RawCircuit A) :
  same_circuit r r' -> id_preimage r' = id_preimage r.
Proof.
  intros [Hi Hp Ho Hv Hb Hl]. unfold id_preimage.
  assert (id_header r' = id_header r) as ->.
  { unfold id_header. by rewrite Hi, Hp, Ho, Hv, Hb, (Forall2_length _ _ _ Hl). }
  f_equal. f_equal. induction Hl as [|l l' ls ls' (Hw & Hlw & Ht) _ IH]; [done|].
  cbn. rewrite IH. f_equal. unfold layer_bytes. by rewrite Hw, Hlw, Ht.
Qed.
End same_circuit.

(** ** One term *)
Lemma lfc1_decode_even d : d < 2 ^ 31 -> lfc1.decode_delta_u32 (2 * d) = d.
Proof.
  intros Hd. unfold lfc1.decode_delta_u32.
  rewrite (land_ones_mod _ 1 : N.land (2 * d) 1 = (2 * d) mod 2 ^ 1).
  rewrite N.shiftr_div_pow2. change (2 ^ 1) with 2.
  rewrite N.mul_comm, N.Div0.mod_mul, N.div_mul by lia. done.
Qed.

Lemma lfc1_decode_odd d : lfc1.decode_delta_u32 (2 * d + 1) = wrapping_neg32 d.
Proof.
  unfold lfc1.decode_delta_u32.
  rewrite (land_ones_mod _ 1 : N.land (2 * d + 1) 1 = (2 * d + 1) mod 2 ^ 1).
  rewrite N.shiftr_div_pow2. change (2 ^ 1) with 2.
  assert ((2 * d + 1) mod 2 = 1) as -> by dlia.
  assert ((2 * d + 1) / 2 = d) as -> by dlia. done.
Qed.

Lemma serialize_num_inv {E} g bs :
  lfc1.serialize_num (E:=E) g = Ok bs -> length bs = 3%nat /\ from_le_bytes bs = g.
Proof.
  unfold lfc1.serialize_num. intros Hw. inv_outcome. apply N.leb_le in Hx.
  split; [apply length_to_le_bytes|]. apply from_to_le_bytes.
  change (N.shiftl 1 (N.of_nat BYTES_PER_SIZE_T * 8)) with (2 ^ 24) in Hx.
  change (256 ^ N.of_nat BYTES_PER_SIZE_T) with (2 ^ 24). lia.
Qed.

(** An index is recovered from its difference to the previous one. *)
Lemma serialize_index_inv {E} v p bs :
  v < 2 ^ 31 -> p < 2 ^ 31 -> lfc1.serialize_index (E:=E) v p = Ok bs ->
  length bs = 3%nat /\ wrapping_add32 p (lfc1.decode_delta_u32 (from_le_bytes bs)) = v.
Proof.
  intros Hv Hp. unfold lfc1.serialize_index.
  destruct (N.leb_spec p v) as [Hle|Hlt]; intros Hw; apply serialize_num_inv in Hw as [Hl ->];
    (split; [done|]); rewrite wrap32_small by lia.
  - rewrite lfc1_decode_even by lia. unfold wrapping_add32. rewrite wrap32_small; lia.
  - rewrite lfc1_decode_odd. unfold wrapping_add32, wrapping_neg32.
    rewrite (wrap32_small (2 ^ 32 - (p - v))) by lia. unfold wrap32.
    replace (p + (2 ^ 32 - (p - v))) with (v + 1 * 2 ^ 32) by lia.
    rewrite N.Div0.mod_add, N.mod_small; lia.
Qed.

Section lfc1_terms.
Context {A : Type} `{SerializableFieldLaws A}.

(** [k_to_index] maps the encoding of every entry of [kvec] to its place. *)
Definition kmap_ok (m : lfc1.kmap (A:=A)) : Prop :=
  forall key i, m.1 !! key = Some i -> exists k, m.2 !! i = Some k /\ to_bytes k = key.

Lemma intern_ok m (t : Term A) : kmap_ok m -> kmap_ok (lfc1.intern m t).
Proof.
  intros Hm. unfold lfc1.intern. destruct (m.1 !! _) eqn:E; [done|].
  intros key i. cbn. rewrite lookup_insert_Some. intros [[<- <-]|[_ Hi]].
  - exists (t_k t). by rewrite lookup_app_r, Nat.sub_diag.
  - destruct (Hm _ _ Hi) as (k & Hk & Hb). exists k. split; [|done]. by apply lookup_app_l_Some.
Qed.

Lemma terms_from_constants (cs : list A) p ds t : t ∈ terms_from cs p ds -> t_k t ∈ cs.
Proof.
  revert p. induction ds as [|d ds IH]; intros p; cbn; [by intros ?%elem_of_nil|].
  destruct (apply_delta p d) as [[g h0] h1].
  destruct (cs !! _) as [k|] eqn:Hk; [|apply IH].
  intros [->|Ht]%elem_of_cons; [|by eapply IH]. cbn. by eapply list_elem_of_lookup_2.
Qed.

Lemma collect_constants_ind {E} (P : lfc1.kmap -> Prop) (r : RawCircuit A) m :
  P (∅, []) -> (forall m t, t_k t ∈ constants r -> P m -> P (lfc1.intern m t)) ->
  circuit_wf r -> lfc1.collect_constants (E:=E) r = Ok m -> P m.
Proof.
  intros Hm0 Hstep Hwf. unfold lfc1.collect_constants, circuit_wf in *.
  revert Hm0. generalize ((∅, []) : lfc1.kmap (A:=A)) as m0.
  induction Hwf as [|l ls Hl _ IH]; intros m0 Hm0 Hc; [by injection Hc as <-|].
  cbn in Hc. apply bind_Ok_inv in Hc as (m1 & Hm1 & Hc). eapply IH; [|exact Hc].
  rewrite for_each_term_spec in Hm1 by done.
  rewrite (foldM_pure _ lfc1.intern) in Hm1 by done. apply Ok_inj in Hm1 as <-.
  assert (Forall (fun t => t_k t ∈ constants r) (layer_terms l (constants r))) as Hts.
  { apply Forall_forall. intros t. apply terms_from_constants. }
  clear Hc IH. revert m0 Hm0. induction Hts as [|t ts Ht _ IH]; intros m0 Hm0; cbn; auto.
Qed.

Lemma collect_constants_ok {E} (r : RawCircuit A) m :
  circuit_wf r -> lfc1.collect_constants (E:=E) r = Ok m -> kmap_ok m.
Proof.
  apply collect_constants_ind; [intros ? ?; cbn; by rewrite lookup_empty|].
  intros. by apply intern_ok.
Qed.

(** Below 2^31 the [u32] arithmetic of [serialize_index] does not wrap. *)
Definition term_small (t : Term A) : Prop := t_g t < 2 ^ 31 /\ t_h0 t < 2 ^ 31 /\ t_h1 t < 2 ^ 31.
Definition prev_small (p : prev) : Prop := p.1.1 < 2 ^ 31 /\ p.1.2 < 2 ^ 31 /\ p.2 < 2 ^ 31.
Definition term_prev (t : Term A) : prev := (t_g t, t_h0 t, t_h1 t).

Lemma write_term_inv {E} m p (t : Term A) bs :
  kmap_ok m -> prev_small p -> term_small t -> lfc1.write_term (E:=E) m.1 p t = Ok bs ->
  length bs = 12%nat /\ apply_delta p (chunk_delta bs) = term_prev t /\
  m.2 !! N.to_nat (d_k_index (chunk_delta bs)) = Some (t_k t).
Proof.
  intros Hm (Hp0 & Hp1 & Hp2) (Hg & Hh0 & Hh1) Hw. destruct p as [[pg ph0] ph1]. cbn [fst snd] in *.
  unfold lfc1.write_term in Hw. inv_emit. rewrite app_nil_r.
  apply serialize_index_inv in E0 as [L0 E0]; [|done..].
  apply serialize_index_inv in E1 as [L1 E1]; [|done..].
  apply serialize_index_inv in E2 as [L2 E2]; [|done..].
  destruct (m.1 !! to_bytes (t_k t)) as [ki|] eqn:Hki; [|done].
  apply serialize_num_inv in E3 as [L3 E3].
  unfold chunk_delta.
  assert (take 3 (b ++ b0 ++ b1 ++ b2) = b) as ->.
  { rewrite <- L0. by rewrite take_app_length. }
  assert (take 3 (drop 3 (b ++ b0 ++ b1 ++ b2)) = b0) as ->.
  { rewrite <- L0 at 2. rewrite drop_app_length, <- L1. by rewrite take_app_length. }
  assert (take 3 (drop 6 (b ++ b0 ++ b1 ++ b2)) = b1) as ->.
  { rewrite !app_assoc, <- (app_assoc (b ++ b0)).
    replace 6%nat with (length (b ++ b0)) by len.
    rewrite drop_app_length, <- L2. by rewrite take_app_length. }
  assert (take 3 (drop 9 (b ++ b0 ++ b1 ++ b2)) = b2) as ->.
  { rewrite !app_assoc. replace 9%nat with (length ((b ++ b0) ++ b1)) by len.
    rewrite drop_app_length, <- L3. apply firstn_all. }
  split_and!; [len| |].
  - unfold apply_delta. cbn [d_g d_h fst snd]. by rewrite E0, E1, E2.
  - cbn. rewrite E3, Nat2N.id. destruct (Hm _ _ Hki) as (k & Hk & Hb).
    apply to_bytes_inj in Hb as ->. done.
Qed.
End lfc1_terms.

(** ** Layers and circuits *)
Section lfc1_round_trip.
Context {A : Type} `{SerializableFieldLaws A} `{Sha256}.
Context {R : Type} {BR : BufRead R} {BL : BufReadLaws R}.

(** The terms written one after the other are 12-byte chunks whose deltas
    expand to the same terms. *)
Lemma write_terms_inv {E} m (ts : list (Term A)) p bytes p' bytes' :
  kmap_ok m -> prev_small p -> Forall term_small ts ->
  foldM (E:=E) (fun '(p, bytes) t =>
    bs ← lfc1.write_term m.1 p t; mret (term_prev t, bytes ++ bs)) (p, bytes) ts = Ok (p', bytes') ->
  exists chunks, bytes' = bytes ++ concat chunks /\ length chunks = length ts /\
    Forall (fun ch => length ch = 12%nat /\ d_k_index (chunk_delta ch) < N.of_nat (length m.2)) chunks /\
    terms_from m.2 p (map chunk_delta chunks) = ts.
Proof.
  intros Hm Hp Hts. revert p bytes Hp. induction Hts as [|t ts Ht _ IH]; intros p bytes Hp Hf.
  { injection Hf as <- <-. exists []. by rewrite app_nil_r. }
  cbn in Hf. apply bind_Ok_inv in Hf as ([p1 b1] & Hb1 & Hf).
  apply bind_Ok_inv in Hb1 as (bs & Hbs & Hb1). injection Hb1 as <- <-.
  destruct (write_term_inv m p t bs Hm Hp Ht Hbs) as (Hl & Hd & Hk).
  destruct (IH (term_prev t) _ Ht Hf) as (chunks & -> & Hlen & Hall & Hterms).
  exists (bs :: chunks). split_and!.
  - cbn. by rewrite <- app_assoc.
  - cbn. by rewrite Hlen.
  - constructor; [|done]. split; [done|]. apply lookup_lt_Some in Hk. lia.
  - cbn [map terms_from]. rewrite Hd, Hk, Hterms. f_equal. by destruct t.
Qed.

Lemma prev_small_0 : prev_small (0, 0, 0).
Proof. repeat split; cbn; lia. Qed.

Definition layer_small (cs : list A) (l : Layer) : Prop := Forall term_small (layer_terms l cs).

Lemma write_layer_inv {E} m cs l bs :
  kmap_ok m -> layer_wf (length cs) l -> layer_small cs l ->
  lfc1.write_layer (E:=E) cs m.1 l = Ok bs ->
  exists b0 b1 b2 chunks, bs = b0 ++ b1 ++ b2 ++ concat chunks /\
    lfc1.serialize_size (E:=E) (logw l) = Ok b0 /\ lfc1.serialize_size (E:=E) (nw l) = Ok b1 /\
    lfc1.serialize_size (E:=E) (length (layer_indices l)) = Ok b2 /\
    length chunks = length (layer_indices l) /\
    Forall (fun ch => length ch = 12%nat /\ d_k_index (chunk_delta ch) < N.of_nat (length m.2)) chunks /\
    terms_from m.2 (0, 0, 0) (map chunk_delta chunks) = layer_terms l cs.
Proof.
  intros Hm Hwf Hsmall Hw. unfold lfc1.write_layer in Hw.
  rewrite (num_terms_spec _ _ Hwf) in Hw.
  apply bind_Ok_inv in Hw as (u & _ & Hw). rewrite bind_Ok in Hw.
  apply bind_Ok_inv in Hw as (hd & Hhd & Hw). inv_emit. rewrite app_nil_r in Hw.
  rewrite for_each_term_spec in Hw by done.
  match type of Hw with snd <$> ?x = _ => destruct x as [[p' b']| |] eqn:Hf end; [|done..].
  injection Hw as ->.
  destruct (write_terms_inv m (layer_terms l cs) _ _ _ _ Hm prev_small_0 Hsmall Hf)
    as (chunks & -> & Hlen & Hall & Hterms).
  exists b, b0, b1, chunks. rewrite <- !app_assoc.
  rewrite layer_terms_length in Hlen by done. by split_and!.
Qed.

Lemma parses_num v bs :
  lfc1.serialize_size (E:=string) v = Ok bs -> parses lfc1.read_num_stream bs (N.of_nat v).
Proof.
  intros Hw. apply serialize_num_inv in Hw as [Hl Hv]. rewrite <- Hv.
  eapply parses_bind_ret; [by apply parses_read_bytes|done].
Qed.

Lemma parses_num_max v max e bs (n : N) :
  lfc1.serialize_size (E:=string) v = Ok bs -> n = N.of_nat v -> n <= max ->
  parses (lfc1.read_num_max max e) bs n.
Proof.
  intros Hw -> Hle. unfold lfc1.read_num_max. rewrite <- (app_nil_r bs).
  eapply parses_bind; [by apply parses_num|].
  apply parses_at_most; [done|apply parses_ret].
Qed.

(** The limits of LFC1, which knows nothing of deltas. *)
Record layer_limits1 (l : Layer) : Prop := {
  logw_sane1 : sane_logw (logw l) = true;
  nw_bound1 : N.of_nat (nw l) <= MAX_LAYER_INPUTS;
  terms_bound1 : N.of_nat (length (layer_indices l)) <= MAX_TERMS_PER_LAYER
}.

Lemma parses_lfc1_layer rd m cs total l bs :
  kmap_ok m -> layer_limits1 l -> layer_wf (length cs) l -> layer_small cs l ->
  add_terms total l <= rd_max_total_terms rd ->
  lfc1.write_layer (E:=string) cs m.1 l = Ok bs ->
  exists l', parses (lfc1.read_layer rd (N.of_nat (length m.2)) total) bs (l', add_terms total l) /\
    same_layer cs m.2 l l' /\ layer_wf (length m.2) l'.
Proof.
  intros Hm [Hlw Hnw Hterms] Hwf Hsmall Htot Hw.
  destruct (write_layer_inv m cs l bs Hm Hwf Hsmall Hw)
    as (b0 & b1 & b2 & chunks & -> & E0 & E1 & E2 & Hlen & Hall & Hts).
  pose proof (lfc1_state_new (N.to_nat (N.of_nat (length m.2)))) as Hnew.
  destruct (parse_terms_spec (N.of_nat (length m.2)) chunks 0 _ Hnew) as (st & Hf & Hst & Hd);
    [unfold MAX_TERMS_PER_LAYER in *; lia|done|].
  rewrite !Nat2N.id in *. cbn [Nat.add] in Hst.
  exists (new_uncompressed (nw l) (logw l) (Approximate.deltas st.1) st.2).
  assert (layer_deltas (new_uncompressed (nw l) (logw l) (Approximate.deltas st.1) st.2) =
    map chunk_delta chunks) as Hdeltas.
  { unfold layer_deltas. rewrite uncompressed_indices. exact Hd. }
  split; [|split].
  - unfold lfc1.read_layer.
    eapply parses_bind; [by apply parses_num|]. rewrite !Nat2N.id.
    apply parses_check; [by rewrite Hlw|].
    eapply parses_bind; [eapply parses_num_max; [eassumption|reflexivity|lia]|].
    rewrite <- (app_nil_r (concat chunks)).
    eapply parses_bind; [eapply parses_num_max; [eassumption|reflexivity|lia]|].
    apply parses_at_most; [done|]. rewrite !Nat2N.id, <- Hlen.
    eapply parses_bind.
    + eapply parses_batches; [|done|exact Hf]. by apply Forall_and in Hall as [? _].
    + unfold add_terms. rewrite Hlen. apply parses_ret.
  - split_and!; [done|done|]. unfold layer_terms. by rewrite Hdeltas.
  - destruct Hst as [_ Hseg Hk _ _]. apply Forall_and in Hk as [_ Hk]. split; cbn; auto.
Qed.
End lfc1_round_trip.

(** The constant table: no duplicates, only constants of the circuit. *)
Section lfc1_constants.
Context {A : Type} `{SerializableFieldLaws A}.

Record kvec_ok (cs : list A) (m : lfc1.kmap (A:=A)) : Prop := {
  kvec_indexed : forall i k, m.2 !! i = Some k -> m.1 !! to_bytes k = Some i;
  kvec_used : m.2 ⊆ cs
}.

Lemma kvec_ok_intern cs m (t : Term A) : t_k t ∈ cs -> kvec_ok cs m -> kvec_ok cs (lfc1.intern m t).
Proof.
  intros Ht [Hidx Hin]. unfold lfc1.intern. destruct (m.1 !! _) eqn:E; [done|].
  split; cbn.
  - intros i k Hi. apply lookup_app_Some in Hi as [Hi|[Hge Hi]].
    + rewrite lookup_insert_ne; [by apply Hidx|]. intros Heq. rewrite Heq in E.
      apply Hidx in Hi. congruence.
    + apply list_lookup_singleton_Some in Hi as [Hi <-]. rewrite lookup_insert_eq. f_equal. lia.
  - intros k Hk. apply elem_of_app in Hk as [Hk|Hk]; [auto|].
    by apply list_elem_of_singleton in Hk as ->.
Qed.

Lemma kvec_length cs m : kvec_ok cs m -> (length m.2 <= length cs)%nat.
Proof.
  intros [Hidx Hin]. apply submseteq_length, NoDup_submseteq; [|exact Hin].
  apply NoDup_alt. intros i j k Hi Hj. apply Hidx in Hi, Hj. congruence.
Qed.

Lemma collect_constants_length {E} (r : RawCircuit A) m :
  circuit_wf r -> lfc1.collect_constants (E:=E) r = Ok m -> (length m.2 <= length (constants r))%nat.
Proof.
  intros Hwf Hc. apply kvec_length. revert Hwf Hc.
  apply collect_constants_ind; [|intros; by apply kvec_ok_intern].
  split; cbn; [done|]. by intros ? ?%elem_of_nil.
Qed.
End lfc1_constants.

Section lfc1_circuit_round_trip.
Context {A : Type} `{SerializableFieldLaws A} `{Sha256}.
Context {R : Type} {BR : BufRead R} {BL : BufReadLaws R}.

Lemma parses_lfc1_layers rd m cs ls acc total bs :
  kmap_ok m -> Forall layer_limits1 ls -> Forall (layer_wf (length cs)) ls ->
  Forall (layer_small cs) ls -> foldl add_terms total ls <= rd_max_total_terms rd ->
  emit_each (lfc1.write_layer (E:=string) cs m.1) ls = Ok bs ->
  exists ls', parses (R:=R) (read_loop (length ls) (fun '(ls, total) =>
       r ← lfc1.read_layer rd (N.of_nat (length m.2)) total; mret (ls ++ [r.1], r.2)) (acc, total)) bs
      (acc ++ ls', foldl add_terms total ls) /\
    Forall2 (same_layer cs m.2) ls ls' /\ Forall (layer_wf (length m.2)) ls'.
Proof.
  intros Hm. revert acc total bs. unfold emit_each.
  induction ls as [|l ls IH]; intros acc total bs Hlim Hwf Hsm Htot Hw; cbn [map] in Hw; inv_emit.
  { exists []. rewrite app_nil_r. split; [apply parses_ret|auto]. }
  apply Forall_cons in Hlim as [Hl Hlim], Hwf as [Hlw Hwf], Hsm as [Hls Hsm]. cbn in Htot.
  destruct (parses_lfc1_layer (R:=R) rd m cs total l b Hm Hl Hlw Hls) as (l' & Hp & Hsame & Hwf');
    [|done|].
  { etransitivity; [apply (foldl_add_terms_ge ls)|done]. unfold add_terms, saturating_add64. lia. }
  destruct (IH (acc ++ [l']) (add_terms total l) bs0 Hlim Hwf Hsm Htot Hw) as (ls' & Hp' & Hs' & Hw').
  exists (l' :: ls'). split_and!; [|by constructor..].
  cbn [length read_loop foldl]. eapply parses_bind.
  - eapply (parses_bind_ret _ (fun r => (acc ++ [r.1], r.2))); [exact Hp|reflexivity].
  - cbn [fst snd]. rewrite <- app_assoc in Hp'. exact Hp'.
Qed.

Lemma parses_lfc1_inner wr rd enforce (c : Circuit A) bs :
  (N.of_nat (serialized_size_bytes (E:=A)) + 24 <= ID_BUF) ->
  rd_field_id rd = wr_field_id wr -> readable rd enforce c ->
  Forall (layer_small (constants (raw c))) (layers (raw c)) ->
  lfc1.to_bytes_lfc1 (E:=string) wr c = Ok bs ->
  exists body c', bs = x01 :: body /\
    parses (R:=R) (lfc1.from_stream_lfc1_inner rd enforce) body c' /\
    same_circuit (raw c) (raw c') /\ id c' = id c.
Proof.
  intros Hfits Hfid [Hlim Hwf _ Hidl Hid] Hsmall Hw. unfold lfc1.to_bytes_lfc1 in Hw.
  apply bind_Ok_inv in Hw as (m & Hm & Hw).
  pose proof (collect_constants_length (raw c) m Hwf Hm) as Hkl.
  apply collect_constants_ok in Hm; [|done]. destruct m as [k_to_index kvec]. cbn [snd] in Hkl.
  inv_emit. apply Ok_inj in E, E10. subst b b10. destruct (Hlim).
  destruct (parses_lfc1_layers rd (k_to_index, kvec) (constants (raw c)) (layers (raw c)) [] 0 b9)
    as (ls' & Hp & Hsame & Hwf'); try done.
  { eapply Forall_impl; [done|]. intros l []. by split. }
  set (rc := {| ninput := ninput (raw c); npublic_input := npublic_input (raw c);
                noutput := noutput (raw c); logv := logv (raw c);
                subfield_boundary := subfield_boundary (raw c);
                constants := kvec; layers := ls' |}).
  assert (same_circuit (raw c) rc) as Hsc by by split.
  assert (length ls' = length (layers (raw c))) as Hlls by by rewrite (Forall2_length _ _ _ Hsame).
  eexists _, {| raw := rc; id := id c |}. split_and!; [reflexivity| |done|done].
  unfold lfc1.from_stream_lfc1_inner.
  eapply parses_bind.
  { apply (parses_num (N.to_nat (FieldID_as_usize (wr_field_id wr)))).
    unfold lfc1.serialize_size. by rewrite N2Nat.id. }
  eapply parses_bind; [eapply parses_num_max; [eassumption|reflexivity|lia]|]. rewrite !Nat2N.id.
  eapply parses_lift; [done|].
  apply parses_check; [by rewrite (sane_logv (noutput (raw c)))|].
  eapply parses_bind; [by apply parses_num|]. apply parses_check; [done|].
  do 5 (eapply parses_bind; [eapply parses_num_max; [eassumption|reflexivity|cbn; lia]|]).
  rewrite !Nat2N.id.
  apply parses_check; [by rewrite Hfid, N2Nat.id, N.eqb_refl|].
  eapply parses_bind.
  { eapply parses_emit_each; [eassumption|done|]. intros k bs' _. apply parses_constant. }
  eapply parses_bind; [exact Hp|].
  rewrite app_nil_r. cbn [fst app].
  change (parses (finish_circuit enforce (raw {| raw := rc; id := id c |}))
    (id {| raw := rc; id := id c |}) {| raw := rc; id := id c |}).
  apply parses_finish; [|done|].
  - apply validate_intro; cbn; try done; [lia|by rewrite Hlls].
  - intros He. specialize (Hid He). rewrite compute_id_spec in Hid |- * by done.
    by rewrite (same_id_preimage (raw c)).
Qed.
End lfc1_circuit_round_trip.

(** * The circuit id identifies the circuit

    [compute_id] digests an injective encoding of a circuit's expansion: two
    circuits with the same id have the same expansion, or exhibit a collision
    of the hash function. *)

Section id_binding.
Context {A : Type} `{SerializableFieldLaws A}.

Lemma le8_inj x y bs bs' :
  x < 2 ^ 64 -> y < 2 ^ 64 -> to_le_bytes 8 x ++ bs = to_le_bytes 8 y ++ bs' -> x = y /\ bs = bs'.
Proof.
  intros Hx Hy Heq. apply app_inj_1 in Heq as [Heq ->]; [|by rewrite !length_to_le_bytes].
  split; [|done]. by apply (to_le_bytes_inj 8).
Qed.

Definition term_u32 (t : Term A) : Prop := t_g t < 2 ^ 32 /\ t_h0 t < 2 ^ 32 /\ t_h1 t < 2 ^ 32.

Lemma terms_from_u32 (cs : list A) p ds : Forall term_u32 (terms_from cs p ds).
Proof.
  revert p. induction ds as [|d ds IH]; intros p; cbn; [done|].
  destruct (cs !! _); [|apply IH]. constructor; [|apply IH].
  destruct p as [[g h0] h1]. repeat split; apply wrap32_lt.
Qed.

Lemma term_bytes_inj (t t' : Term A) bs bs' :
  term_u32 t -> term_u32 t' -> term_bytes t ++ bs = term_bytes t' ++ bs' -> t = t' /\ bs = bs'.
Proof.
  intros (Hg & Hh0 & Hh1) (Hg' & Hh0' & Hh1'). unfold term_bytes. rewrite <- !app_assoc. intros Heq.
  apply le8_inj in Heq as [Eg Heq]; [|lia..].
  apply le8_inj in Heq as [E0 Heq]; [|lia..].
  apply le8_inj in Heq as [E1 Heq]; [|lia..].
  apply app_inj_1 in Heq as [Ek ->]; [|by rewrite !to_bytes_length].
  apply to_bytes_inj in Ek. split; [|done]. destruct t, t'; cbn in *; congruence.
Qed.

Lemma terms_bytes_inj (ts ts' : list (Term A)) bs bs' :
  Forall term_u32 ts -> Forall term_u32 ts' -> length ts = length ts' ->
  concat (map term_bytes ts) ++ bs = concat (map term_bytes ts') ++ bs' -> ts = ts' /\ bs = bs'.
Proof.
  intros Hts. revert ts' bs bs'. induction Hts as [|t ts Ht _ IH]; intros [|t' ts'] bs bs' Hts' Hl Heq;
    try done.
  apply Forall_cons in Hts' as [Ht' Hts']. cbn [map concat] in Heq. rewrite <- !app_assoc in Heq.
  apply term_bytes_inj in Heq as [-> Heq]; [|done..].
  apply IH in Heq as [-> ->]; [done|done|by injection Hl].
Qed.

(** Sizes are [usize]. *)
Definition layer_usize (l : Layer) : Prop :=
  N.of_nat (nw l) < 2 ^ 64 /\ N.of_nat (logw l) < 2 ^ 64 /\
  N.of_nat (length (layer_indices l)) < 2 ^ 64.

Record circuit_usize (r : RawCircuit A) : Prop := {
  u_ninput : N.of_nat (ninput r) < 2 ^ 64;
  u_npublic : N.of_nat (npublic_input r) < 2 ^ 64;
  u_noutput : N.of_nat (noutput r) < 2 ^ 64;
  u_logv : N.of_nat (logv r) < 2 ^ 64;
  u_boundary : N.of_nat (subfield_boundary r) < 2 ^ 64;
  u_layers : N.of_nat (length (layers r)) < 2 ^ 64;
  u_layer : Forall layer_usize (layers r)
}.

Lemma layer_bytes_inj cs cs' l l' bs bs' :
  layer_wf (length cs) l -> layer_wf (length cs') l' -> layer_usize l -> layer_usize l' ->
  layer_bytes cs l ++ bs = layer_bytes cs' l' ++ bs' -> same_layer cs cs' l l' /\ bs = bs'.
Proof.
  intros Hwf Hwf' (Hw & Hlw & Hn) (Hw' & Hlw' & Hn'). unfold layer_bytes.
  rewrite <- !app_assoc, !layer_terms_length by done. intros Heq.
  apply le8_inj in Heq as [Ew Heq]; [|done..].
  apply le8_inj in Heq as [El Heq]; [|done..].
  apply le8_inj in Heq as [En Heq]; [|done..].
  apply terms_bytes_inj in Heq as [Et ->]; [|apply terms_from_u32..|].
  - split; [|done]. split_and!; [lia|lia|done].
  - rewrite !layer_terms_length by done. lia.
Qed.

Lemma layers_bytes_inj cs cs' ls ls' :
  Forall (layer_wf (length cs)) ls -> Forall (layer_wf (length cs')) ls' ->
  Forall layer_usize ls -> Forall layer_usize ls' -> length ls = length ls' ->
  concat (map (layer_bytes cs) ls) = concat (map (layer_bytes cs') ls') ->
  Forall2 (same_layer cs cs') ls ls'.
Proof.
  intros Hwf. revert ls'. induction Hwf as [|l ls Hl _ IH]; intros [|l' ls'] Hwf' Hu Hu' Hlen Heq;
    try done.
  apply Forall_cons in Hwf' as [Hl' Hwf'], Hu as [Hlu Hu], Hu' as [Hlu' Hu'].
  cbn [map concat] in Heq. apply layer_bytes_inj in Heq as [Hs Heq]; [|done..].
  constructor; [done|]. apply IH; auto.
Qed.

Lemma id_preimage_inj (r r' : RawCircuit A) :
  circuit_wf r -> circuit_wf r' -> circuit_usize r -> circuit_usize r' ->
  id_preimage r = id_preimage r' -> same_circuit r r'.
Proof.
  intros Hwf Hwf' [] [] Heq. unfold id_preimage, id_header, update8, hasher_update in Heq.
  assert (exists pre, forall x, (if is_binary (E:=A) then
     ([] ++ to_le_bytes 8 2) ++ to_le_bytes 8 (N.of_nat (serialized_size_bytes (E:=A) * 8))
     else ([] ++ to_le_bytes 8 1) ++ serialized_mone (E:=A)) ++ x = pre ++ x) as [pre Hpre] by eauto.
  rewrite <- !app_assoc in Heq.
  rewrite !Hpre in Heq. apply app_inv_head in Heq.
  apply le8_inj in Heq as [Eo Heq]; [|done..].
  apply le8_inj in Heq as [Ev Heq]; [|done..].
  apply app_inv_head, app_inv_head in Heq.
  apply le8_inj in Heq as [El Heq]; [|done..].
  apply le8_inj in Heq as [Ei Heq]; [|done..].
  apply le8_inj in Heq as [Ep Heq]; [|done..].
  apply le8_inj in Heq as [Eb Heq]; [|done..].
  split; try lia. apply layers_bytes_inj; try done. lia.
Qed.
End id_binding.
