(* ===== verification/Gf2_128.v ===== *)
(** * GF(2^128) ([src/rust/core/algebra/src/gf2_128.rs])

    The reference implementation: a [u128] with bitwise multiplication and
    reduction by x^128 + x^7 + x^2 + x + 1, and its 16-byte encoding. *)
From stdpp Require Import prelude strings.
From Stdlib Require Import Lia NArith Eqdep_dec.
From S2P Require Import Prelude Words Interfaces.

Local Open Scope N_scope.

Definition POLY : N := 0x87.

(** The newtype around [u128]. *)
Record Gf2_128 := mk_gf { gf_val : N; gf_u128 : (gf_val <? 2 ^ 128) = true }.

(** Truncation to 128 bits. *)
Definition U128_MAX : N := Eval cbv in N.ones 128.
Definition u128 (x : N) : N := N.land x U128_MAX.
Lemma u128_mod x : u128 x = x mod 2 ^ 128.
Proof. apply (N.land_ones x 128). Qed.
(** [Gf2_128(x)]; the bound is decided, so that elements evaluate. *)
Definition gf (x : N) : Gf2_128 :=
  match Bool.bool_dec (u128 x <? 2 ^ 128) true with
  | left Hx => mk_gf (u128 x) Hx
  | right _ => mk_gf 0 eq_refl
  end.

Lemma gf_eq (a b : Gf2_128) : gf_val a = gf_val b -> a = b.
Proof.
  destruct a as [x Hx], b as [y Hy]. cbn. intros ->. f_equal.
  apply UIP_dec. decide equality.
Qed.
#[export] Instance Gf2_128_eq_dec : EqDecision Gf2_128.
Proof.
  intros a b. destruct (decide (gf_val a = gf_val b)) as [E|E].
  - left. by apply gf_eq.
  - right. congruence.
Defined.

Lemma gf_val_lt a : gf_val a < 2 ^ 128.
Proof. apply N.ltb_lt, gf_u128. Qed.
Lemma gf_val_gf x : x < 2 ^ 128 -> gf_val (gf x) = x.
Proof.
  intros Hx. unfold gf. rewrite <- (N.mod_small x (2 ^ 128) Hx) at 2. rewrite <- u128_mod.
  destruct (Bool.bool_dec _ true) as [|Hne]; [done|].
  exfalso. apply Hne, N.ltb_lt. rewrite u128_mod. by apply N.mod_lt.
Qed.
Lemma gf_gf_val a : gf (gf_val a) = a.
Proof. apply gf_eq, gf_val_gf, gf_val_lt. Qed.

Definition gf_zero : Gf2_128 := gf 0.
Definition gf_one : Gf2_128 := gf 1.
Definition gf_add (a b : Gf2_128) : Gf2_128 := gf (N.lxor (gf_val a) (gf_val b)).
Definition gf_sub (a b : Gf2_128) : Gf2_128 := gf (N.lxor (gf_val a) (gf_val b)).

(** One iteration of the multiplication loop on [(res, temp_a, cur_b)]. *)
Definition gf_mul_step (st : N * N * N) : N * N * N :=
  let '(res, temp_a, cur_b) := st in
  let res := if negb (N.land cur_b 1 =? 0) then N.lxor res temp_a else res in
  let msb := N.land (N.shiftr temp_a 127) 1 in
  let temp_a := u128 (N.shiftl temp_a 1) in
  let temp_a := if negb (msb =? 0) then N.lxor temp_a POLY else temp_a in
  (res, temp_a, N.shiftr cur_b 1).
Definition gf_mul (a b : Gf2_128) : Gf2_128 :=
  gf (Nat.iter 128 gf_mul_step (0, gf_val a, gf_val b)).1.1.

Definition gf_mone : Gf2_128 := gf_sub gf_zero gf_one.

(** One iteration of the exponentiation to 2^128 - 2 on [(res, temp)]. *)
Definition gf_invert_step (st : Gf2_128 * Gf2_128) (i : nat) : Gf2_128 * Gf2_128 :=
  let (res, temp) := st in
  let res := if Nat.ltb 0 i then gf_mul res temp else res in
  (res, gf_mul temp temp).

(** Panics on zero. *)
Definition gf_invert {E} (a : Gf2_128) : outcome E Gf2_128 :=
  rust_assert (negb (bool_decide (a = gf_zero))) ;;
  mret (foldl gf_invert_step (gf_one, a) (seq 0 128)).1.

Definition gf_to_bytes (e : Gf2_128) : list u8 := to_le_bytes 16 (gf_val e).
Definition gf_bytes_to_element (bs : list u8) : outcome string Gf2_128 :=
  reject_if (negb (Nat.eqb (length bs) 16)) "Invalid size"%string ;;
  mret (gf (from_le_bytes bs)).

#[export] Instance Gf2_128_SerializableField : SerializableField Gf2_128 := {|
  is_binary := true;
  serialized_size_bytes := 16;
  to_bytes := gf_to_bytes;
  bytes_to_element := gf_bytes_to_element;
  serialized_mone := gf_to_bytes gf_mone
|}.

#[export] Instance Gf2_128_SerializableFieldLaws : SerializableFieldLaws Gf2_128.
Proof.
  split; intros e; cbn.
  - apply length_to_le_bytes.
  - unfold gf_bytes_to_element, gf_to_bytes. rewrite length_to_le_bytes. cbn.
    rewrite from_to_le_bytes; [by rewrite gf_gf_val|]. exact (gf_val_lt e).
Qed.

#[export] Instance Gf2_128_CanonicalField : CanonicalField Gf2_128.
Proof.
  split. intros bs e He. cbn in *. unfold gf_bytes_to_element in He. inv_outcome.
  apply negb_false_iff, Nat.eqb_eq in Hx. unfold gf_to_bytes. rewrite <- Hx.
  rewrite gf_val_gf; [apply to_from_le_bytes|].
  pose proof (from_le_bytes_bound bs) as Hb. rewrite Hx in Hb. exact Hb.
Qed.

Example gf_mul_x127 : gf_mul (gf (2 ^ 127)) (gf 2) = gf POLY.
Proof. vm_compute. reflexivity. Qed.
