(* ===== verification/Archive.v ===== *)
(** * Circuit archives ([src/rust/core/proto/src/archive])

    The archive, its builder and the two container formats: [lfa2] with
    metadata, names and a combined id, and the legacy [lfa1], two circuits
    one after the other.  A Rust [String] is its UTF-8 bytes. *)
From stdpp Require Import prelude strings.
From Stdlib Require Import Lia NArith.
From S2P Require Import Prelude Words Stream Interfaces Uleb Circuit LFC Gf2_128.

Local Open Scope N_scope.

Abbreviation rstring := (list u8) (only parsing).

(** ASCII literals as Rust strings. *)
Definition rstr (s : string) : rstring := String.list_byte_of_string s.

(** [str::from_utf8]: well-formed UTF-8 (no overlong forms, no surrogates,
    nothing above U+10FFFF). *)
Definition in_range (b : u8) (lo hi : N) : bool := (lo <=? u8_to_N b) && (u8_to_N b <=? hi).
Fixpoint utf8_valid (bs : list u8) : bool :=
  match bs with
  | [] => true
  | b0 :: r0 =>
      if in_range b0 0x00 0x7F then utf8_valid r0
      else
        match r0 with
        | [] => false
        | b1 :: r1 =>
            if in_range b0 0xC2 0xDF then in_range b1 0x80 0xBF && utf8_valid r1
            else
              match r1 with
              | [] => false
              | b2 :: r2 =>
                  if in_range b0 0xE0 0xEF then
                    (if in_range b0 0xE0 0xE0 then in_range b1 0xA0 0xBF
                     else if in_range b0 0xED 0xED then in_range b1 0x80 0x9F
                     else in_range b1 0x80 0xBF) &&
                    in_range b2 0x80 0xBF && utf8_valid r2
                  else
                    match r2 with
                    | [] => false
                    | b3 :: r3 =>
                        in_range b0 0xF0 0xF4 &&
                        (if in_range b0 0xF0 0xF0 then in_range b1 0x90 0xBF
                         else if in_range b0 0xF4 0xF4 then in_range b1 0x80 0x8F
                         else in_range b1 0x80 0xBF) &&
                        in_range b2 0x80 0xBF && in_range b3 0x80 0xBF && utf8_valid r3
                    end
              end
        end
  end.

Definition LFA_VERSION : u8 := x01.
Definition LFA2_MAGIC : list u8 := [x4c; x46; x41; x32].

Record ArchiveEntry := { ae_name : rstring; ae_circuit_id : list u8; ae_payload : list u8 }.

Record CircuitArchive := {
  ar_version : u8;
  ar_circuit_version : N;
  ar_combined_id : list u8;
  ar_created_at : rstring;
  ar_author : rstring;
  ar_generator_tool : rstring;
  ar_description : rstring;
  ar_entries : list ArchiveEntry
}.

Definition compute_combined_id `{Sha256} (entries : list ArchiveEntry) : list u8 :=
  sha256 (foldl (fun h e => hasher_update h (ae_circuit_id e)) [] entries).

(** ** The builder *)
Module CircuitArchiveBuilder.
Record t := {
  circuit_version : option N;
  created_at : option rstring;
  author : option rstring;
  generator_tool : option rstring;
  description : option rstring;
  entries : list ArchiveEntry
}.
Definition new : t :=
  {| circuit_version := None; created_at := None; author := None;
     generator_tool := None; description := None; entries := [] |}.
Definition set_circuit_version (v : N) (b : t) : t :=
  {| circuit_version := Some v; created_at := created_at b; author := author b;
     generator_tool := generator_tool b; description := description b; entries := entries b |}.
Definition set_created_at (s : rstring) (b : t) : t :=
  {| circuit_version := circuit_version b; created_at := Some s; author := author b;
     generator_tool := generator_tool b; description := description b; entries := entries b |}.
Definition set_author (s : rstring) (b : t) : t :=
  {| circuit_version := circuit_version b; created_at := created_at b; author := Some s;
     generator_tool := generator_tool b; description := description b; entries := entries b |}.
Definition set_generator_tool (s : rstring) (b : t) : t :=
  {| circuit_version := circuit_version b; created_at := created_at b; author := author b;
     generator_tool := Some s; description := description b; entries := entries b |}.
Definition set_description (s : rstring) (b : t) : t :=
  {| circuit_version := circuit_version b; created_at := created_at b; author := author b;
     generator_tool := generator_tool b; description := Some s; entries := entries b |}.
Definition add_entry (name : rstring) (circuit_id payload : list u8) (b : t) : t :=
  {| circuit_version := circuit_version b; created_at := created_at b; author := author b;
     generator_tool := generator_tool b; description := description b;
     entries := entries b ++
       [{| ae_name := name; ae_circuit_id := circuit_id; ae_payload := payload |}] |}.
Definition build `{Sha256} (b : t) : CircuitArchive :=
  {| ar_version := LFA_VERSION;
     ar_circuit_version := default 0 (circuit_version b);
     ar_combined_id := compute_combined_id (entries b);
     ar_created_at := default (rstr "2026-07-15T00:00:00Z") (created_at b);
     ar_author := default (rstr "Google LLC") (author b);
     ar_generator_tool := default (rstr "rzkl-compiler v0.1.0") (generator_tool b);
     ar_description := default [] (description b);
     ar_entries := entries b |}.
End CircuitArchiveBuilder.

(** The first entry of that name. *)
Definition archive_get (a : CircuitArchive) (name : rstring) : option ArchiveEntry :=
  snd <$> list_find (fun e => ae_name e = name) (ar_entries a).

(** ** LFA2 *)
Definition write_utf8_string (s : rstring) : list u8 :=
  serialize_uleb128 (N.of_nat (length s)) ++ s.

Definition to_bytes_lfa2 (a : CircuitArchive) : list u8 :=
  LFA2_MAGIC ++ [ar_version a] ++ serialize_uleb128 (ar_circuit_version a) ++ ar_combined_id a ++
  write_utf8_string (ar_created_at a) ++ write_utf8_string (ar_author a) ++
  write_utf8_string (ar_generator_tool a) ++ write_utf8_string (ar_description a) ++
  serialize_uleb128 (N.of_nat (length (ar_entries a))) ++
  concat (map (fun e => write_utf8_string (ae_name e) ++ ae_circuit_id e ++
                        serialize_uleb128 (N.of_nat (length (ae_payload e)))) (ar_entries a)) ++
  concat (map ae_payload (ar_entries a)).

(** ** LFA1 *)
Definition to_bytes_lfa1 {E} (a : CircuitArchive) : outcome E (list u8) :=
  rust_assert (ar_circuit_version a =? 0) ;;
  rust_assert (Nat.eqb (length (ar_created_at a)) 0) ;;
  rust_assert (Nat.eqb (length (ar_author a)) 0) ;;
  rust_assert (Nat.eqb (length (ar_generator_tool a)) 0) ;;
  rust_assert (Nat.eqb (length (ar_description a)) 0) ;;
  rust_assert (Nat.eqb (length (ar_entries a)) 2) ;;
  match archive_get a (rstr "sig"), archive_get a (rstr "hash") with
  | Some sig_entry, Some hash_entry => mret (ae_payload sig_entry ++ ae_payload hash_entry)
  | _, _ => Panic
  end.

(** The P-256 elements of an LFA1 file: 32 bytes checked against the modulus. *)
Record Lfa1P256 := { p256_bytes : list u8; p256_len : (Nat.eqb (length p256_bytes) 32) = true }.
Definition P256_MODULUS : N :=
  0xffffffffffffffff + 2 ^ 64 * 0x00000000ffffffff + 2 ^ 192 * 0xffffffff00000001.

#[export] Instance Lfa1P256_eq_dec : EqDecision Lfa1P256.
Proof.
  intros [a Ha] [b Hb]. destruct (decide (a = b)) as [->|Hne].
  - left. f_equal. apply Eqdep_dec.UIP_dec. decide equality.
  - right. congruence.
Defined.

Definition p256_mk (bs : list u8) : option Lfa1P256 :=
  match bool_dec (Nat.eqb (length bs) 32) true with
  | left Hl => Some {| p256_bytes := bs; p256_len := Hl |}
  | right _ => None
  end.

#[local] Instance Lfa1P256Field : SerializableField Lfa1P256 := {|
  is_binary := false;
  serialized_size_bytes := 32;
  to_bytes := p256_bytes;
  bytes_to_element bs :=
    arr ← ok_or (p256_mk bs) "invalid P256 element length"%string;
    reject_if (P256_MODULUS <=? from_le_bytes bs) "P256 element >= modulus"%string ;;
    mret arr;
  serialized_mone :=
    [xfe; xff; xff; xff; xff; xff; xff; xff; xff; xff; xff; xff; x00; x00; x00; x00;
     x00; x00; x00; x00; x00; x00; x00; x00; x01; x00; x00; x00; xff; xff; xff; xff]
|}.

Section archive_readers.
Context `{Sha256} {R : Type} `{BufRead R}.

Definition read_utf8_string (max_len : N) : reader R rstring :=
  len ← read_uleb128;
  lift (reject_if (max_len <? len) "Excessive "%string) ≫= fun _ =>
  buf ← read_bytes (N.to_nat len) "Incomplete ";
  lift (reject_if (negb (utf8_valid buf)) "Invalid UTF-8 in "%string) ≫= fun _ => mret buf.

Definition read_metadata : reader R (rstring * list u8 * N) :=
  name ← read_utf8_string 4096;
  circuit_id ← read_bytes 32 "Incomplete entry circuit_id";
  payload_len ← read_uleb128;
  mret (name, circuit_id, payload_len).

Definition read_payload (m : rstring * list u8 * N) : reader R ArchiveEntry :=
  let '(name, circuit_id, payload_len) := m in
  payload ← read_bytes (N.to_nat payload_len) "Incomplete payload for entry '";
  mret {| ae_name := name; ae_circuit_id := circuit_id; ae_payload := payload |}.

Fixpoint read_payloads (ms : list (rstring * list u8 * N)) : reader R (list ArchiveEntry) :=
  match ms with
  | [] => mret []
  | m :: ms => e ← read_payload m; es ← read_payloads ms; mret (e :: es)
  end.

Definition from_stream_lfa2_body : reader R CircuitArchive :=
  ver_buf ← read_bytes 1 "Incomplete header: missing version byte";
  version ← lift (index ver_buf 0);
  lift (reject_if (negb (bool_decide (version = LFA_VERSION)))
    "Unsupported archive version: expected "%string) ≫= fun _ =>
  circuit_version ← read_uleb128;
  combined_id ← read_bytes 32 "Incomplete header: missing combined_id";
  created_at ← read_utf8_string 4096;
  author ← read_utf8_string 4096;
  generator_tool ← read_utf8_string 4096;
  description ← read_utf8_string 65536;
  num_entries ← read_uleb128;
  lift (reject_if (10000 <? num_entries) "Excessive circuit count in archive: "%string) ≫= fun _ =>
  metadata ← read_n (N.to_nat num_entries) read_metadata;
  entries ← read_payloads metadata;
  lift (reject_if (negb (bool_decide (combined_id = compute_combined_id entries)))
    "Combined archive ID mismatch: expected "%string) ≫= fun _ =>
  mret {| ar_version := version; ar_circuit_version := wrap32 circuit_version;
          ar_combined_id := combined_id; ar_created_at := created_at; ar_author := author;
          ar_generator_tool := generator_tool; ar_description := description;
          ar_entries := entries |}.

(** [read_to_end] takes every byte that is left. *)
Definition from_stream_lfa1 (s : R) : outcome string CircuitArchive :=
  let raw_bytes := remaining s in
  reject_if (negb (bool_decide (head raw_bytes = Some x01)))
    "Invalid LFA1 header: expected first byte to be 1 (LFC1), got "%string ;;
  '(c_sig, remaining1) ← from_stream (A:=Lfa1P256) (CircuitReader_new P256) false raw_bytes;
  let sig_len := (length raw_bytes - length remaining1)%nat in
  let payload_sig := take sig_len raw_bytes in
  '(c_hash, remaining2) ← from_stream (A:=Gf2_128) (CircuitReader_new Circuit.Gf2_128) false remaining1;
  let hash_len := (length remaining1 - length remaining2)%nat in
  let payload_hash := take hash_len remaining1 in
  let entries :=
    [{| ae_name := rstr "sig"; ae_circuit_id := id c_sig; ae_payload := payload_sig |};
     {| ae_name := rstr "hash"; ae_circuit_id := id c_hash; ae_payload := payload_hash |}] in
  mret {| ar_version := LFA_VERSION; ar_circuit_version := 0;
          ar_combined_id := compute_combined_id entries;
          ar_created_at := []; ar_author := []; ar_generator_tool := []; ar_description := [];
          ar_entries := entries |}.

Definition archive_from_stream (s : R) : outcome string CircuitArchive :=
  let (buf, s) := fill_buf s in
  if bool_decide (take 4 buf = LFA2_MAGIC) then fst <$> from_stream_lfa2_body (consume 4 s)
  else if bool_decide (head buf = Some x01) then from_stream_lfa1 s
  else Err "Unsupported archive header: expected b"%string.
End archive_readers.

Example utf8_snowman : utf8_valid [xe2; x98; x83; x21] = true.
Proof. reflexivity. Qed.
Example utf8_surrogate : utf8_valid [xed; xa0; x80] = false.
Proof. reflexivity. Qed.
Example p256_mone : serialized_mone (E:=Lfa1P256) = to_le_bytes 32 (P256_MODULUS - 1).
Proof. reflexivity. Qed.

(** ** Reading an LFA2 archive back *)
Record archive_ok `{Sha256} (a : CircuitArchive) : Prop := {
  ok_version : ar_version a = LFA_VERSION;
  ok_circuit_version : ar_circuit_version a < 2 ^ 32;
  ok_combined : ar_combined_id a = compute_combined_id (ar_entries a);
  ok_strings : Forall (fun s => utf8_valid s = true /\ N.of_nat (length s) <= 4096)
                 [ar_created_at a; ar_author a; ar_generator_tool a];
  ok_description : utf8_valid (ar_description a) = true /\
                   N.of_nat (length (ar_description a)) <= 65536;
  ok_entries : N.of_nat (length (ar_entries a)) <= 10000;
  ok_entry : Forall (fun e => utf8_valid (ae_name e) = true /\ N.of_nat (length (ae_name e)) <= 4096 /\
               length (ae_circuit_id e) = 32%nat /\ N.of_nat (length (ae_payload e)) < 2 ^ 56)
               (ar_entries a)
}.

Section lfa2_facts.
Context `{Sha256Laws} {R : Type} {BR : BufRead R} {BL : BufReadLaws R}.

Lemma parses_utf8 max s :
  max <= 65536 -> utf8_valid s = true -> N.of_nat (length s) <= max ->
  parses (read_utf8_string (R:=R) max) (write_utf8_string s) s.
Proof.
  intros Hmax Hv Hl. unfold read_utf8_string, write_utf8_string.
  rewrite <- (app_nil_r s) at 2.
  eapply parses_bind; [apply parses_uleb128; lia|].
  apply parses_check; [by apply N.ltb_ge|]. rewrite Nat2N.id.
  eapply parses_bind; [by apply parses_read_bytes|].
  apply parses_check; [by rewrite Hv|]. apply parses_ret.
Qed.

Definition entry_meta (e : ArchiveEntry) : rstring * list u8 * N :=
  (ae_name e, ae_circuit_id e, N.of_nat (length (ae_payload e))).

Lemma parses_payloads es :
  parses (read_payloads (R:=R) (map entry_meta es)) (concat (map ae_payload es)) es.
Proof.
  induction es as [|e es IH]; [apply parses_ret|]. cbn [map concat read_payloads].
  eapply parses_bind.
  - unfold read_payload, entry_meta. rewrite Nat2N.id.
    eapply parses_bind_ret; [by apply parses_read_bytes|reflexivity].
  - eapply parses_bind_ret; [exact IH|]. by destruct e.
Qed.

Lemma parses_metadata es :
  Forall (fun e => utf8_valid (ae_name e) = true /\ N.of_nat (length (ae_name e)) <= 4096 /\
     length (ae_circuit_id e) = 32%nat /\ N.of_nat (length (ae_payload e)) < 2 ^ 56) es ->
  parses (read_n (R:=R) (length es) read_metadata)
    (concat (map (fun e => write_utf8_string (ae_name e) ++ ae_circuit_id e ++
                      serialize_uleb128 (N.of_nat (length (ae_payload e)))) es))
    (map entry_meta es).
Proof.
  induction 1 as [|e es (Hv & Hl & Hid & Hp) _ IH]; [apply parses_ret|].
  cbn [map concat length read_n]. eapply parses_bind.
  - eapply parses_bind; [by apply parses_utf8|].
    eapply parses_bind; [by apply parses_read_bytes|].
    eapply parses_bind_ret; [by apply parses_uleb128|reflexivity].
  - eapply parses_bind_ret; [exact IH|reflexivity].
Qed.

Lemma parses_lfa2_body a :
  archive_ok a ->
  exists body, to_bytes_lfa2 a = LFA2_MAGIC ++ body /\
    parses (from_stream_lfa2_body (R:=R)) body a.
Proof.
  intros [Hver Hcv Hcomb Hstr [Hdv Hdl] Hn He]. eexists. split; [reflexivity|].
  apply Forall_cons in Hstr as [[? ?] Hstr]. apply Forall_cons in Hstr as [[? ?] Hstr].
  apply Forall_cons in Hstr as [[? ?] _].
  unfold from_stream_lfa2_body. eapply parses_bind; [by apply parses_read_bytes|].
  eapply parses_lift; [reflexivity|].
  apply parses_check; [by rewrite Hver|].
  eapply parses_bind; [apply parses_uleb128; lia|].
  eapply parses_bind; [apply parses_read_bytes; rewrite Hcomb; apply sha256_length|].
  do 4 (eapply parses_bind; [by apply parses_utf8|]).
  eapply parses_bind; [apply parses_uleb128; lia|].
  apply parses_check; [by apply N.ltb_ge|]. rewrite Nat2N.id.
  eapply parses_bind; [by apply parses_metadata|].
  rewrite <- (app_nil_r (concat (map ae_payload _))).
  eapply parses_bind; [apply parses_payloads|].
  apply parses_check; [by rewrite <- Hcomb, bool_decide_eq_true_2|].
  rewrite wrap32_small by done. destruct a. apply parses_ret.
Qed.
End lfa2_facts.
