(* ===== verification/CodecTheorems.v ===== *)
(** * Theorems about circuit files and archives

    The round trips, guarantees and failure modes of the codecs, each with a
    concrete instance: a one-layer circuit over GF(2^128) and a toy digest. *)
From stdpp Require Import prelude gmap strings.
From Stdlib Require Import Lia NArith.
From S2P Require Import Prelude Words Stream Interfaces Uleb DeltaTable Util Circuit LFC LFCFacts Gf2_128 Archive.

Local Open Scope N_scope.

(** ** A sample circuit *)
Module Sample.
Definition delta (g h0 h1 k : N) : TermDelta := {| d_g := g; d_h := (h0, h1); d_k_index := k |}.
(** Three terms from two segments; the last delta steps back. *)
Definition layer : Layer :=
  {| nw := 4; logw := 2;
     deltas := [delta 0 0 1 0; delta 1 2 (wrapping_neg32 1) 1];
     delta_segments := [[0]; [1; 0]]; delta_tokens := [0; 1] |}.
Definition raw_circuit : RawCircuit Gf2_128 :=
  {| ninput := 4; npublic_input := 1; noutput := 2; logv := 1; subfield_boundary := 4;
     constants := [gf 1; gf 0x87]; layers := [layer] |}.
Definition circuit : Circuit Gf2_128 :=
  {| raw := raw_circuit;
     id := match @compute_id _ _ toy_sha256 unit raw_circuit with Ok d => d | _ => [] end |}.
Definition rdr : CircuitReader := CircuitReader_new Circuit.Gf2_128.
Definition wtr : CircuitWriter := {| wr_field_id := Circuit.Gf2_128 |}.

Lemma circuit_id_ok enforce : @id_ok _ _ toy_sha256 enforce circuit.
Proof. intros _. vm_compute. reflexivity. Qed.

Lemma layer_wf_ok : layer_wf 2 layer.
Proof. split; repeat constructor; cbn; lia. Qed.

Lemma readable_ok : @readable _ _ toy_sha256 rdr true circuit.
Proof.
  split.
  - split; try (vm_compute; congruence); try reflexivity; try (cbn; lia).
    repeat constructor; try reflexivity; vm_compute; congruence.
  - repeat constructor; cbn; lia.
  - repeat constructor.
  - vm_compute. reflexivity.
  - apply circuit_id_ok.
Qed.

Lemma usize_ok : circuit_usize raw_circuit.
Proof.
  split; [vm_compute; reflexivity..|].
  constructor; [|constructor]. split_and!; vm_compute; reflexivity.
Qed.
End Sample.

(** ** ULEB128 *)

(** The buffered fast path of the 4-byte ULEB128 reader and the
    byte-by-byte fallback it replaces return the same value or the same error
    and leave the same bytes unread, however the stream is cut into buffers. *)
Theorem uleb4_fast_path_agrees {R} {BR : BufRead R} {BL : BufReadLaws R} (s : R) :
  same_outcome (read_uleb128_max4_u32 s) (read_uleb128_max4_fallback 4 0 0 (remaining s)).
Proof. apply read_uleb128_max4_agrees. Qed.

Lemma uleb4_fast_path_agrees_witness :
  same_outcome (read_uleb128_max4_u32 [[xe5]; [x8e; x26]])
    (read_uleb128_max4_fallback (R:=list u8) 4 0 0 [xe5; x8e; x26]).
Proof. exact (uleb4_fast_path_agrees (R:=list (list u8)) [[xe5]; [x8e; x26]]). Defined.

(** The archive ULEB128 codec round-trips every value below 2^56 on every
    stream, and the reader rejects the encoding of every larger [usize]. *)
Theorem uleb128_round_trip {R} {BR : BufRead R} {BL : BufReadLaws R} (v : N) :
  v < 2 ^ 64 ->
  (v < 2 ^ 56 -> parses (R:=R) read_uleb128 (serialize_uleb128 v) v) /\
  (2 ^ 56 <= v -> rejects (R:=R) read_uleb128 (serialize_uleb128 v) "ULEB128 value too large").
Proof.
  intros Hv. split; [apply parses_uleb128|]. intros Hge.
  apply (rejects_uleb128_loop 8 9 0 v 0); [exact Hge|lia].
Qed.

Lemma uleb128_round_trip_witness :
  parses (R:=list (list u8)) read_uleb128 [xe5; x8e; x26] 624485 /\
  rejects (R:=list u8) read_uleb128 (serialize_uleb128 (2 ^ 63)) "ULEB128 value too large".
Proof.
  split.
  - apply (proj1 (uleb128_round_trip (R:=list (list u8)) 624485 ltac:(lia))). lia.
  - apply (proj2 (uleb128_round_trip (R:=list u8) (2 ^ 63) ltac:(lia))). lia.
Defined.

(** ** Circuits *)
Section circuit_theorems.
Context {A : Type} `{SerializableFieldLaws A} `{Sha256}.
Context {R : Type} {BR : BufRead R} {BL : BufReadLaws R}.

(** C21: LFC2 round trip.  Whatever the buffering of the stream, the reader
    turns the bytes written for a circuit back into exactly that circuit and
    leaves what follows them, provided the circuit respects the limits every
    reader enforces and carries the id [compute_id] gives it (or the check
    is off). *)
Theorem lfc2_round_trip wr rd enforce (c : Circuit A) bs :
  rd_field_id rd = wr_field_id wr -> readable rd enforce c ->
  lfc2.to_bytes_lfc2 (E:=string) wr c = Ok bs ->
  parses (R:=R) (from_stream_lfc2 rd enforce) bs c.
Proof.
  intros Hfid Hok Hw.
  destruct (parses_lfc2_inner (R:=R) wr rd enforce c bs Hfid Hok Hw) as (body & -> & Hp).
  eapply parses_bind; [by apply parses_read_bytes|]. by apply parses_check.
Qed.

(** C31: LFC1 round trip.  The reader turns the bytes the LFC1 writer
    produces into a circuit with the same dimensions, the same expanded
    terms layer by layer and the same id, and the id check passes, although
    its delta tables and constant table are rebuilt. *)
Theorem lfc1_round_trip wr rd enforce (c : Circuit A) bs :
  N.of_nat (serialized_size_bytes (E:=A)) + 24 <= ID_BUF ->
  rd_field_id rd = wr_field_id wr -> readable rd enforce c ->
  Forall (layer_small (constants (raw c))) (layers (raw c)) ->
  lfc1.to_bytes_lfc1 (E:=string) wr c = Ok bs ->
  exists c', parses (R:=R) (from_stream_lfc1 rd enforce) bs c' /\
    same_circuit (raw c) (raw c') /\ id c' = id c.
Proof.
  intros Hfits Hfid Hok Hsm Hw.
  destruct (parses_lfc1_inner (R:=R) wr rd enforce c bs Hfits Hfid Hok Hsm Hw)
    as (body & c' & -> & Hp & Hs & Hi).
  exists c'. split; [|done]. change (x01 :: body) with ([x01] ++ body).
  eapply parses_bind; [by apply parses_read_bytes|]. eapply parses_lift; [reflexivity|done].
Qed.

(** C30: what a successful read guarantees, for both formats and any stream:
    every size is within its limit, every token, delta and constant index of
    the circuit is in range (so no later traversal of it can index out of
    bounds), the deltas are 32-bit, and the id was checked when asked for. *)
Theorem read_circuit_guarantees rd enforce (s s' : R) (c : Circuit A) :
  from_stream rd enforce s = Ok (c, s') -> readable rd enforce c.
Proof. apply ensures_from_stream. Qed.

(** [compute_id] does not fail on a well-formed circuit and is the digest
    of the header followed by the dimensions and expanded terms of each
    layer: its 8192-byte staging buffer loses, repeats and reorders nothing. *)
Theorem compute_id_digest (r : RawCircuit A) :
  N.of_nat (serialized_size_bytes (E:=A)) + 24 <= ID_BUF -> circuit_wf r ->
  compute_id (E:=string) r = Ok (sha256 (id_preimage r)).
Proof. intros Hfits. by apply compute_id_spec. Qed.

(** C26: the circuit id is binding.  Two circuits with the same id have the
    same dimensions and the same expanded terms in every layer, unless they
    exhibit two different inputs with the same digest; and circuits with the
    same expansion have the same id. *)
Theorem circuit_id_binding (r r' : RawCircuit A) :
  N.of_nat (serialized_size_bytes (E:=A)) + 24 <= ID_BUF ->
  circuit_wf r -> circuit_wf r' -> circuit_usize r -> circuit_usize r' ->
  (compute_id (E:=string) r = compute_id r' ->
     same_circuit r r' \/ exists x y, x <> y /\ sha256 x = sha256 y) /\
  (same_circuit r r' -> compute_id (E:=string) r = compute_id r').
Proof.
  intros Hfits Hwf Hwf' Hu Hu'. rewrite !compute_id_spec by done. split.
  - intros Heq%Ok_inj. destruct (decide (id_preimage r = id_preimage r')) as [Hp|Hp].
    + left. by apply id_preimage_inj.
    + right. eauto.
  - intros Hs. by rewrite (same_id_preimage r r' Hs).
Qed.
End circuit_theorems.

Lemma lfc2_round_trip_witness :
  exists bs, lfc2.to_bytes_lfc2 (E:=string) Sample.wtr Sample.circuit = Ok bs /\
    parses (R:=list (list u8)) (@from_stream_lfc2 Gf2_128 _ toy_sha256 _ _ Sample.rdr true) bs
      Sample.circuit.
Proof.
  eexists. split; [vm_compute; reflexivity|].
  eapply (@lfc2_round_trip Gf2_128 _ _ toy_sha256 _ _ _ Sample.wtr);
    [reflexivity|apply Sample.readable_ok|vm_compute; reflexivity].
Defined.

Lemma lfc1_round_trip_witness :
  exists bs c', lfc1.to_bytes_lfc1 (E:=string) Sample.wtr Sample.circuit = Ok bs /\
    parses (R:=list u8) (@from_stream_lfc1 Gf2_128 _ toy_sha256 _ _ Sample.rdr true) bs c' /\
    id c' = id Sample.circuit.
Proof.
  edestruct (@lfc1_round_trip Gf2_128 _ _ toy_sha256 (list u8) _ _ Sample.wtr Sample.rdr true
    Sample.circuit) as (c' & Hp & _ & Hid).
  - vm_compute. congruence.
  - reflexivity.
  - apply Sample.readable_ok.
  - repeat constructor.
  - vm_compute. reflexivity.
  - eexists _, c'. split; [|split; [exact Hp|exact Hid]]. vm_compute. reflexivity.
Defined.

Definition sample_bytes : list u8 :=
  match lfc2.to_bytes_lfc2 (E:=string) Sample.wtr Sample.circuit with Ok bs => bs | _ => [] end.

Lemma read_circuit_guarantees_witness :
  @from_stream Gf2_128 _ toy_sha256 (list u8) _ Sample.rdr true sample_bytes
    = Ok (Sample.circuit, []) /\
  @readable _ _ toy_sha256 Sample.rdr true Sample.circuit.
Proof.
  assert (@from_stream Gf2_128 _ toy_sha256 (list u8) _ Sample.rdr true sample_bytes
    = Ok (Sample.circuit, [])) as E.
  { vm_compute. reflexivity. }
  split; [exact E|]. exact (read_circuit_guarantees Sample.rdr true sample_bytes [] _ E).
Defined.

Lemma compute_id_digest_witness :
  @compute_id _ _ toy_sha256 string Sample.raw_circuit =
  Ok (toy_sha256 (id_preimage Sample.raw_circuit)).
Proof.
  apply (@compute_id_digest Gf2_128 _ _ toy_sha256); [vm_compute; congruence|].
  constructor; [apply Sample.layer_wf_ok|constructor].
Defined.

Lemma circuit_id_binding_witness :
  same_circuit Sample.raw_circuit Sample.raw_circuit \/
  exists x y, x <> y /\ toy_sha256 x = toy_sha256 y.
Proof.
  refine (proj1 (@circuit_id_binding Gf2_128 _ _ toy_sha256 Sample.raw_circuit
    Sample.raw_circuit _ _ _ _ _) eq_refl).
  - vm_compute. congruence.
  - constructor; [apply Sample.layer_wf_ok|constructor].
  - constructor; [apply Sample.layer_wf_ok|constructor].
  - apply Sample.usize_ok.
  - apply Sample.usize_ok.
Defined.

(** ** Term order *)

(** the Morton comparison of term indices is the comparison of the
    bit-interleaved keys, although it never builds them: for indices of at
    most [n] bits, [cmp] returns exactly how the keys compare, and distinct
    pairs have distinct keys, so that it is a strict total order. *)
Theorem morton_cmp_is_key_order n x0 x1 y0 y1 :
  x0 < 2 ^ N.of_nat n -> x1 < 2 ^ N.of_nat n -> y0 < 2 ^ N.of_nat n -> y1 < 2 ^ N.of_nat n ->
  morton.cmp x0 x1 y0 y1 = N.compare (morton.key n x0 x1) (morton.key n y0 y1) /\
  (morton.cmp x0 x1 y0 y1 = Eq <-> x0 = y0 /\ x1 = y1).
Proof.
  intros Hx0 Hx1 Hy0 Hy1. pose proof (morton.cmp_key n x0 x1 y0 y1 Hx0 Hx1 Hy0 Hy1) as Hc.
  split; [exact Hc|]. rewrite Hc, N.compare_eq_iff. split.
  - by apply morton.key_inj.
  - by intros [-> ->].
Qed.

Lemma morton_cmp_is_key_order_witness :
  morton.cmp 5 2 4 3 = Lt /\ (5 = 5 /\ 2 = 2).
Proof.
  split.
  - rewrite (proj1 (morton_cmp_is_key_order 3 5 2 4 3 eq_refl eq_refl eq_refl eq_refl)).
    vm_compute. reflexivity.
  - apply (proj2 (morton_cmp_is_key_order 3 5 2 5 2 eq_refl eq_refl eq_refl eq_refl)).
    vm_compute. reflexivity.
Defined.

(** ** Archives *)

(** LFA2 round trip.  An archive built with valid UTF-8 metadata within the
    reader's limits, whose combined id is the digest of its entries' ids, is
    read back exactly from its own bytes (here as a slice with anything
    after). *)
Theorem lfa2_round_trip `{Sha256Laws} (a : CircuitArchive) (rest : list u8) :
  archive_ok a -> archive_from_stream (to_bytes_lfa2 a ++ rest) = Ok a.
Proof.
  intros Hok. destruct (parses_lfa2_body (R:=list u8) a Hok) as (body & -> & Hp).
  destruct (Hp (body ++ rest) rest eq_refl) as (s' & E & _).
  unfold archive_from_stream. rewrite <- app_assoc. cbn [fill_buf slice_BufRead].
  rewrite take_app_length' by done. rewrite bool_decide_eq_true_2 by done.
  cbn [consume slice_BufRead]. rewrite drop_app_length' by done. by rewrite E.
Qed.

Definition sample_archive : CircuitArchive :=
  @CircuitArchiveBuilder.build toy_sha256
    (CircuitArchiveBuilder.add_entry (rstr "sig") (replicate 32 x07) sample_bytes
       (CircuitArchiveBuilder.set_circuit_version 7 CircuitArchiveBuilder.new)).

Lemma lfa2_round_trip_witness :
  @archive_from_stream toy_sha256 _ _ (to_bytes_lfa2 sample_archive ++ [x00]) = Ok sample_archive.
Proof.
  apply (@lfa2_round_trip toy_sha256 toy_sha256_laws). split.
  - reflexivity.
  - vm_compute. reflexivity.
  - reflexivity.
  - repeat constructor; vm_compute; congruence.
  - split; vm_compute; congruence.
  - vm_compute. congruence.
  - repeat constructor; vm_compute; congruence.
Defined.

(** ** Where the readers are stricter or looser than intended *)

(** the header dispatch of [CircuitReader::from_stream] looks only at the
    first buffer the stream hands out: when that buffer holds between one and
    three bytes of an LFC2 file the file is rejected, although the same bytes
    in one buffer are accepted. *)
Theorem from_stream_short_buffer {A} `{SerializableField A} `{Sha256} rd enforce
    (n : nat) (bs : list u8) (chunks : list (list u8)) :
  (1 <= n <= 3)%nat ->
  from_stream (A:=A) rd enforce (take n (LFC2_MAGIC ++ bs) :: chunks) =
  Err "Unsupported format header"%string.
Proof. intros Hn. destruct n as [|[|[|[|n]]]]; try lia; reflexivity. Qed.

Lemma from_stream_short_buffer_witness :
  concat [take 2 sample_bytes; drop 2 sample_bytes] = sample_bytes /\
  @from_stream Gf2_128 _ toy_sha256 _ _ Sample.rdr true
    [take 2 (LFC2_MAGIC ++ drop 4 sample_bytes); drop 2 sample_bytes] =
    Err "Unsupported format header"%string.
Proof.
  split; [vm_compute; reflexivity|].
  apply (@from_stream_short_buffer Gf2_128 _ toy_sha256). lia.
Defined.

(** C39: the one panic of the readers.  On every stream and in both formats,
    reading a circuit panics exactly when the file announces zero outputs,
    whatever the field id and whatever follows; every other malformed file is
    an [Err].  The field's decoder returns a [Result] and an element with its
    coordinates fits the staging buffer of the id. *)
Theorem reader_panics_iff_zero_outputs {A} `{SerializableFieldLaws A} `{Sha256} {R} `{BufReadLaws R} rd enforce (s : R) :
  N.of_nat (serialized_size_bytes (E:=A)) + 24 <= ID_BUF -> (forall bs, bytes_to_element (E:=A) bs <> Panic) ->
  from_stream (A:=A) rd enforce s = Panic <-> announced_outputs s = Ok 0.
Proof. intros Hfits Hdec. by apply from_stream_panics. Qed.

(** A file in two chunks, for another field, with the field id on two bytes;
    and a truncated circuit file, which is an error. *)
Lemma reader_panics_iff_zero_outputs_witness :
  @from_stream Gf2_128 _ toy_sha256 (list (list u8)) _ (CircuitReader_new P256) false [LFC2_MAGIC ++ [x81; x00]; [x00; x07]] = Panic /\
  @from_stream Gf2_128 _ toy_sha256 (list u8) _ Sample.rdr true (take 20 sample_bytes) <> Panic.
Proof.
  assert (forall bs, bytes_to_element (E:=Gf2_128) bs <> Panic) as Hdec.
  { intros bs. cbn. unfold gf_bytes_to_element. by destruct (negb _). }
  assert (N.of_nat (serialized_size_bytes (E:=Gf2_128)) + 24 <= ID_BUF) as Hfits by (vm_compute; discriminate).
  split.
  - apply (reader_panics_iff_zero_outputs (A:=Gf2_128) (CircuitReader_new P256) false [LFC2_MAGIC ++ [x81; x00]; [x00; x07]] Hfits Hdec).
    vm_compute. reflexivity.
  - intros Hp. apply (reader_panics_iff_zero_outputs (A:=Gf2_128) Sample.rdr true (take 20 sample_bytes) Hfits Hdec) in Hp.
    vm_compute in Hp. discriminate Hp.
Defined.
