(* ===== verification/Merkle.v ===== *)
(** * Merkle commitments ([src/rust/runtime/merkle/src/{heap,commitment,lib}.rs])

    The heap-shaped tree over any number of leaves, multi-leaf proofs, their
    verification, and the salted commitment on top of it. *)
From stdpp Require Import prelude.
From Stdlib Require Import Lia.
From S2P Require Import Prelude Words Interfaces.

Abbreviation Digest := (list u8) (only parsing).
Abbreviation MerkleNonce := (list u8) (only parsing).
Definition DIGEST_LEN : nat := 32.
Definition Digest_default : Digest := replicate DIGEST_LEN x00.

Inductive MerkleError (D : Type) :=
| InvalidNonceLength (expected found : nat)
| DuplicateLeafIndex (index : nat)
| LeafIndexOutOfBounds (index num_leaves : nat)
| ProofLengthMismatch (expected found : nat)
| RootMismatch (expected found : D)
| EmptyLeaves
| LeafIndexNotOnPath.
Arguments InvalidNonceLength {_} _ _. Arguments DuplicateLeafIndex {_} _.
Arguments LeafIndexOutOfBounds {_} _ _. Arguments ProofLengthMismatch {_} _ _.
Arguments RootMismatch {_} _ _. Arguments EmptyLeaves {_}. Arguments LeafIndexNotOnPath {_}.

(** [n.next_power_of_two().trailing_zeros() + 1] *)
Definition merkle_heap_len (num_leaves : nat) : nat :=
  match num_leaves with 0 => 0 | _ => Nat.log2_up num_leaves + 1 end.

(** The tree is generic in the digests and the hash of two of them
    ([new_with_hash], [verify_proof_with_hash]). *)
Section heap.
Context {D : Type} `{EqDecision D} (D_default : D) (hash : D -> D -> D).

(** One opened leaf, and one inner node, of the marking pass. *)
Definition mark_leaf (num_leaves : nat) (p : list bool) (leaf_idx : nat)
  : outcome (MerkleError D) (list bool) :=
  reject_if (num_leaves <=? leaf_idx) (LeafIndexOutOfBounds leaf_idx num_leaves) ;;
  b ← index p (leaf_idx + num_leaves);
  reject_if b (DuplicateLeafIndex leaf_idx) ;;
  store p (leaf_idx + num_leaves) true.
Definition mark_node {E} (p : list bool) (i : nat) : outcome E (list bool) :=
  l ← index p (2 * i);
  r ← index p (2 * i + 1);
  store p i (l || r).

Definition mark_paths_to_root (num_leaves : nat) (leaf_indices : list nat)
  : outcome (MerkleError D) (list bool) :=
  match leaf_indices with
  | [] => Err EmptyLeaves
  | _ =>
      let is_node_on_path := replicate (2 * num_leaves) false in
      p ← foldM (mark_leaf num_leaves) is_node_on_path leaf_indices;
      p ← foldM mark_node p (down_to_1 num_leaves);
      b ← index p 1;
      reject_if (negb b) LeafIndexNotOnPath ;;
      mret p
  end.

Record MerkleHeap := { mh_num_leaves : nat; mh_layers : list D }.

Definition hash_node {E} (layers : list D) (i : nat) : outcome E (list D) :=
  l ← index layers (2 * i);
  r ← index layers (2 * i + 1);
  store layers i (hash l r).

Definition new_with_hash {E} (leaves : list D) : outcome E MerkleHeap :=
  let num_leaves := length leaves in
  rust_assert (negb (num_leaves =? 0)) ;;
  let layers := replicate num_leaves D_default ++ leaves in
  layers ← foldM hash_node layers (down_to_1 num_leaves);
  mret {| mh_num_leaves := num_leaves; mh_layers := layers |}.

Definition root {E} (mh : MerkleHeap) : outcome E D := index (mh_layers mh) 1.

(** [expect] panics on an error. *)
Definition expect {E X} (m : outcome (MerkleError D) X) : outcome E X :=
  match m with Ok x => Ok x | _ => Panic end.

(** The child of [i] whose digest the proof must supply: [i] is on a path
    and exactly one of its children is. *)
Definition missing_child {E} (p : list bool) (i : nat) : outcome E (option nat) :=
  on ← index p i;
  if on : bool then
    l ← index p (2 * i);
    r ← index p (2 * i + 1);
    if l && negb r then mret (Some (2 * i + 1))
    else if negb l && r then mret (Some (2 * i))
    else mret None
  else mret None.

Definition push_sibling {E} (layers : list D) (p : list bool) (proof : list D) (i : nat)
  : outcome E (list D) :=
  k ← missing_child p i;
  match k with
  | Some k => d ← index layers k; mret (proof ++ [d])
  | None => mret proof
  end.

Definition generate_proof {E} (mh : MerkleHeap) (leaf_indices : list nat) : outcome E (list D) :=
  p ← expect (mark_paths_to_root (mh_num_leaves mh) leaf_indices);
  foldM (push_sibling (mh_layers mh) p) [] (down_to_1 (mh_num_leaves mh)).

(** Take the next digest of the proof for the missing child. *)
Definition take_sibling (p : list bool) (proof : list D) (st : list (option D) * nat) (i : nat)
  : outcome (MerkleError D) (list (option D) * nat) :=
  k ← missing_child p i;
  match k with
  | Some k =>
      let '(computed_nodes, proof_idx) := st in
      reject_if (length proof <=? proof_idx) (ProofLengthMismatch (proof_idx + 1) (length proof)) ;;
      d ← index proof proof_idx;
      computed_nodes ← store computed_nodes k (Some d);
      mret (computed_nodes, proof_idx + 1)
  | None => mret st
  end.

Definition derive_node {E} (c : list (option D)) (i : nat) : outcome E (list (option D)) :=
  l ← index c (2 * i);
  r ← index c (2 * i + 1);
  match l, r with
  | Some lt, Some rt => store c i (Some (hash lt rt))
  | _, _ => mret c
  end.

Definition verify_proof_with_hash (num_leaves : nat) (root : D) (proof : list D)
    (leaves : list (nat * D)) : outcome (MerkleError D) unit :=
  let leaf_indices := map fst leaves in
  let computed_nodes := replicate (2 * num_leaves) None in
  p ← mark_paths_to_root num_leaves leaf_indices;
  '(computed_nodes, proof_idx) ←
    foldM (take_sibling p proof) (computed_nodes, 0) (down_to_1 num_leaves);
  reject_if (negb (proof_idx =? length proof)) (ProofLengthMismatch proof_idx (length proof)) ;;
  computed_nodes ← foldM (fun c '(leaf_idx, leaf_digest) =>
    store c (leaf_idx + num_leaves) (Some leaf_digest)) computed_nodes leaves;
  computed_nodes ← foldM derive_node computed_nodes (down_to_1 num_leaves);
  c1 ← index computed_nodes 1;
  computed_root ← ok_or c1 (RootMismatch root D_default);
  reject_if (negb (bool_decide (root = computed_root))) (RootMismatch root computed_root).
End heap.
Arguments MerkleHeap : clear implicits.
Arguments mh_num_leaves {_} _. Arguments mh_layers {_} _.

(** ** SHA-256 trees and salted commitments *)
Section commitment.
Context `{Sha256}.

Definition hash2 (l r : Digest) : Digest := sha256 (hasher_update (hasher_update [] l) r).

Definition MerkleHeap_new {E} (leaves : list Digest) : outcome E (MerkleHeap Digest) :=
  new_with_hash Digest_default hash2 leaves.
Definition verify_proof := verify_proof_with_hash Digest_default hash2.

Record MerkleProof := { mp_nonce : list MerkleNonce; mp_path : list Digest }.

Record MerkleCommitment := {
  mc_num_leaves : nat;
  mc_mh : MerkleHeap Digest;
  mc_nonce : list MerkleNonce
}.

(** The salted leaf hash; [update_leaf_hash i] feeds leaf [i]'s bytes. *)
Definition leaf_digest (nonce : MerkleNonce) (leaf : list u8) : Digest :=
  sha256 (hasher_update (hasher_update [] nonce) leaf).

(** One salted leaf: [rng.bytes(32).try_into().unwrap()], then its digest. *)
Definition commit_leaf {G E} (rng_bytes : nat -> G -> outcome E (list u8 * G))
    (update_leaf_hash : nat -> list u8) (st : list MerkleNonce * list Digest * G) (i : nat)
  : outcome E (list MerkleNonce * list Digest * G) :=
  let '(nonce, leaves, rng) := st in
  '(nonce_bytes, rng) ← rng_bytes 32 rng;
  rust_assert (length nonce_bytes =? 32) ;;
  mret (nonce ++ [nonce_bytes], leaves ++ [leaf_digest nonce_bytes (update_leaf_hash i)], rng).
Definition commit {G E} (rng_bytes : nat -> G -> outcome E (list u8 * G)) (num_leaves : nat) (rng : G)
    (update_leaf_hash : nat -> list u8) : outcome E (MerkleCommitment * Digest * G) :=
  '(nonce, leaves, rng) ← foldM (commit_leaf rng_bytes update_leaf_hash) ([], [], rng) (seq 0 num_leaves);
  mh ← MerkleHeap_new leaves;
  root ← root mh;
  mret ({| mc_num_leaves := num_leaves; mc_mh := mh; mc_nonce := nonce |}, root, rng).

Definition open_nonce {E} (c : MerkleCommitment) (nonce : list MerkleNonce) (idx : nat)
  : outcome E (list MerkleNonce) :=
  rust_assert (idx <? mc_num_leaves c) ;;
  n ← index (mc_nonce c) idx;
  mret (nonce ++ [n]).

Definition open_commitment {E} (c : MerkleCommitment) (opened_indices : list nat)
  : outcome E MerkleProof :=
  nonce ← foldM (open_nonce c) [] opened_indices;
  path ← generate_proof (mc_mh c) opened_indices;
  mret {| mp_nonce := nonce; mp_path := path |}.

Definition query_leaf {E} (opened_indices : list nat) (proof : MerkleProof)
    (update_leaf_hash : nat -> nat -> list u8) (leaves : list Digest) (r : nat)
  : outcome E (list Digest) :=
  n ← index (mp_nonce proof) r;
  i ← index opened_indices r;
  mret (leaves ++ [leaf_digest n (update_leaf_hash r i)]).

Definition verify (num_leaves : nat) (root : Digest) (opened_indices : list nat)
    (proof : MerkleProof) (update_leaf_hash : nat -> nat -> list u8)
  : outcome (MerkleError Digest) unit :=
  let num_queries := length opened_indices in
  reject_if (negb (length (mp_nonce proof) =? num_queries))
    (InvalidNonceLength num_queries (length (mp_nonce proof))) ;;
  leaves ← foldM (query_leaf opened_indices proof update_leaf_hash) [] (seq 0 num_queries);
  verify_proof num_leaves root (mp_path proof) (zip opened_indices leaves).
End commitment.

(** ** Merkle trees: completeness and binding

    What the marking pass computes, the tree equation of the heap, that the
    proof generated for a set of leaves verifies, and that an accepted proof
    either opens the committed leaves or exhibits a collision.
    The salted commitment over it. *)
(** ** Writing a set of distinct cells *)
Section put_all.
Context {X : Type}.

Definition put_all (c : list X) (kvs : list (nat * X)) : list X :=
  foldl (fun c kv => <[kv.1 := kv.2]> c) c kvs.

Lemma length_put_all c kvs : length (put_all c kvs) = length c.
Proof.
  unfold put_all. revert c. induction kvs as [|kv kvs IH]; intros c; [done|].
  cbn. by rewrite IH, length_insert.
Qed.

Lemma put_all_out c kvs k : k ∉ kvs.*1 -> put_all c kvs !! k = c !! k.
Proof.
  unfold put_all. revert c. induction kvs as [|[k' v] kvs IH]; intros c Hk; [done|]. cbn in *.
  apply not_elem_of_cons in Hk as [Hne Hk]. rewrite IH by done. by apply list_lookup_insert_ne.
Qed.

Lemma put_all_in c kvs k v :
  NoDup kvs.*1 -> (k, v) ∈ kvs -> k < length c -> put_all c kvs !! k = Some v.
Proof.
  unfold put_all. revert c. induction kvs as [|[k' v'] kvs IH]; intros c Hnd Hin Hk; cbn in *.
  { by apply elem_of_nil in Hin. }
  apply NoDup_cons in Hnd as [Hk' Hnd]. apply elem_of_cons in Hin as [[= -> ->]|Hin].
  - fold (put_all (<[k' := v']> c) kvs). rewrite put_all_out by done.
    by apply list_lookup_insert_eq.
  - apply IH; [done|done|]. by rewrite length_insert.
Qed.

Lemma foldM_store {E} (f : nat -> nat) (g : X -> X) (kvs : list (nat * X)) c :
  Forall (fun kv => f kv.1 < length c) kvs ->
  foldM (E:=E) (fun c kv => store c (f kv.1) (g kv.2)) c kvs =
  Ok (put_all c (map (fun kv => (f kv.1, g kv.2)) kvs)).
Proof.
  revert c. induction kvs as [|kv kvs IH]; intros c Hall; [done|].
  apply Forall_cons in Hall as [Hkv Hall]. cbn [foldM]. rewrite store_Ok by done.
  rewrite bind_Ok. apply IH. eapply Forall_impl; [done|]. intros ? ?. cbn. by rewrite length_insert.
Qed.
End put_all.

Lemma zip_Some {K V} (ks : list K) (vs : list V) :
  zip ks (Some <$> vs) = map (fun kv => (kv.1, Some kv.2)) (zip ks vs).
Proof. revert vs. induction ks as [|k ks IH]; intros [|v vs]; cbn; [done..|]. by rewrite IH. Qed.

Section marking.
Context {D : Type}.

(** ** The marked nodes *)
Record path_spec (n : nat) (idxs : list nat) (p : list bool) : Prop := {
  path_length : length p = 2 * n;
  path_leaf j : n <= j < 2 * n -> p !! j = Some (bool_decide (j - n ∈ idxs));
  path_node i : 1 <= i < n -> p !! i = Some ((p !!! (2 * i)) || (p !!! (2 * i + 1)))
}.

Definition valid_indices (n : nat) (idxs : list nat) : Prop :=
  idxs <> [] /\ NoDup idxs /\ Forall (fun i => i < n) idxs.

Lemma mark_leaves_ok n idxs seen p :
  length p = 2 * n -> NoDup (seen ++ idxs) -> Forall (fun i => i < n) idxs ->
  (forall j, n <= j < 2 * n -> p !! j = Some (bool_decide (j - n ∈ seen))) ->
  exists p', foldM (mark_leaf (D:=D) n) p idxs = Ok p' /\
    length p' = 2 * n /\
    forall j, n <= j < 2 * n -> p' !! j = Some (bool_decide (j - n ∈ seen ++ idxs)).
Proof.
  revert seen p. induction idxs as [|i idxs IH]; intros seen p Hlen Hnd Hlt Hp.
  { exists p. rewrite app_nil_r. done. }
  apply Forall_cons in Hlt as [Hi Hlt]. cbn [foldM].
  assert (mark_leaf (D:=D) n p i = Ok (<[i + n := true]> p)) as ->.
  { unfold mark_leaf. rewrite (proj2 (Nat.leb_gt _ _)) by lia. cbn [reject_if].
    unfold index. rewrite bind_Ok, Hp, bind_Ok by lia. replace (i + n - n) with i by lia.
    assert (i ∉ seen) as Hns.
    { apply NoDup_app in Hnd as (_ & Hd & _). intros Hin. apply (Hd i Hin). set_solver. }
    rewrite bool_decide_eq_false_2 by done. cbn [reject_if]. rewrite bind_Ok. apply store_Ok. lia. }
  rewrite bind_Ok.
  destruct (IH (seen ++ [i]) (<[i + n := true]> p)) as (p' & -> & Hl' & Hp').
  - by rewrite length_insert.
  - by rewrite <- app_assoc.
  - done.
  - intros j Hj. destruct (decide (j = i + n)) as [->|Hne].
    + rewrite list_lookup_insert_eq by lia. f_equal. symmetry. apply bool_decide_eq_true_2.
      clear Hj. replace (i + n - n) with i by lia. set_solver.
    + rewrite list_lookup_insert_ne by done. rewrite Hp by done. f_equal.
      apply bool_decide_ext. rewrite elem_of_app, list_elem_of_singleton.
      split; [auto|]. intros [?|?]; [done|lia].
  - exists p'. split_and!; [done|done|]. intros j Hj. rewrite Hp' by done.
    by rewrite <- app_assoc.
Qed.

Lemma mark_nodes_ok n idxs p :
  1 <= n -> length p = 2 * n ->
  (forall j, n <= j < 2 * n -> p !! j = Some (bool_decide (j - n ∈ idxs))) ->
  exists p', foldM (mark_node (E:=MerkleError D)) p (down_to_1 n) = Ok p' /\ path_spec n idxs p'.
Proof.
  intros Hn Hlen Hp.
  destruct (foldM_down (E:=MerkleError D) (fun i q => length q = 2 * n /\
     (forall j, n <= j < 2 * n -> q !! j = p !! j) /\
     (forall j, i <= j < n -> q !! j = Some ((q !!! (2 * j)) || (q !!! (2 * j + 1)))))
    mark_node n p Hn) as (p' & -> & Hl & Hlv & Hnd).
  - split_and!; [done|done|lia].
  - intros i q Hi (Hq & Hql & Hqn). unfold mark_node. rewrite !index_lt by lia. rewrite !bind_Ok, store_Ok by lia.
    eexists. split; [done|]. split_and!; [by rewrite length_insert| |].
    + intros j Hj. rewrite list_lookup_insert_ne by lia. auto.
    + intros j Hj.
      assert (forall k, i < k -> <[i:=q !!! (2 * i) || q !!! (2 * i + 1)]> q !!! k = q !!! k) as Hne
        by (intros k Hk; apply list_lookup_total_insert_ne; lia).
      rewrite !Hne by lia. destruct (decide (j = i)) as [->|].
      * by rewrite list_lookup_insert_eq by lia.
      * rewrite list_lookup_insert_ne by done. apply Hqn. lia.
  - exists p'. split; [done|]. split; [done| |auto]. intros j Hj. rewrite Hlv by done. auto.
Qed.

Lemma path_root n idxs p j :
  path_spec n idxs p -> 1 <= j < 2 * n -> p !!! j = true -> p !!! 1 = true.
Proof.
  intros Hp. induction (Nat.lt_wf_0 j) as [j _ IH]. intros Hj Hon.
  destruct (decide (j = 1)) as [->|Hne]; [done|].
  assert (j = 2 * (j / 2) + j mod 2) as Hdm by (apply Nat.div_mod; lia).
  pose proof (Nat.mod_upper_bound j 2 ltac:(lia)).
  apply (IH (j / 2)); [lia|lia|].
  apply list_lookup_total_correct. rewrite (path_node _ _ _ Hp) by lia. f_equal.
  destruct (j mod 2) as [|[|]] eqn:Em; [| |lia].
  - rewrite Nat.add_0_r in Hdm. rewrite <- Hdm, Hon. done.
  - rewrite <- Hdm, Hon. apply orb_true_r.
Qed.

Lemma mark_ok n idxs :
  valid_indices n idxs ->
  exists p, mark_paths_to_root (D:=D) n idxs = Ok p /\ path_spec n idxs p /\ p !!! 1 = true.
Proof.
  intros (Hne & Hnd & Hlt).
  assert (1 <= n) as Hn.
  { destruct idxs as [|i idxs]; [done|]. apply Forall_cons in Hlt as [Hi _]. lia. }
  destruct (mark_leaves_ok n idxs [] (replicate (2 * n) false)) as (p0 & E0 & Hl0 & Hp0); auto.
  { apply length_replicate. }
  { intros j Hj. by rewrite lookup_replicate_2 by lia. }
  destruct (mark_nodes_ok n idxs p0 Hn Hl0 Hp0) as (p & E1 & Hp).
  assert (p !!! 1 = true) as Hroot.
  { destruct idxs as [|i idxs]; [done|]. apply Forall_cons in Hlt as [Hi _].
    apply (path_root n (i :: idxs) p (i + n) Hp); [lia|].
    apply list_lookup_total_correct. rewrite (path_leaf _ _ _ Hp) by lia. f_equal.
    apply bool_decide_eq_true_2. replace (i + n - n) with i by lia. set_solver. }
  exists p. split_and!; [|done|done]. unfold mark_paths_to_root.
  destruct idxs as [|i idxs]; [done|]. rewrite E0, bind_Ok, E1, bind_Ok.
  rewrite index_lt by (rewrite (path_length _ _ _ Hp); lia). rewrite bind_Ok, Hroot. done.
Qed.

Lemma mark_inv n idxs p :
  mark_paths_to_root (D:=D) n idxs = Ok p ->
  valid_indices n idxs /\ path_spec n idxs p /\ p !!! 1 = true.
Proof.
  intros Hm.
  assert (valid_indices n idxs) as Hv.
  { unfold mark_paths_to_root in Hm. destruct idxs as [|i idxs]; [done|].
    apply bind_Ok_inv in Hm as (p0 & Hm & _).
    apply (foldM_Ok_invariant (fun seen q => length q = 2 * n /\ NoDup seen /\
      Forall (fun i => i < n) seen /\
      forall j, n <= j < 2 * n -> q !! j = Some (bool_decide (j - n ∈ seen)))) in Hm.
    - split_and!; [done|apply Hm..].
    - split_and!; [apply length_replicate|constructor|constructor|].
      intros j Hj. by rewrite lookup_replicate_2 by lia.
    - intros seen x q q' (Hl & Hnd & Hlt & Hq) Hx. unfold mark_leaf in Hx.
      apply bind_Ok_inv in Hx as (u & Hlx & Hx). apply reject_if_Ok, Nat.leb_gt in Hlx.
      unfold index in Hx. rewrite Hq, bind_Ok in Hx by lia.
      replace (x + n - n) with x in Hx by lia.
      apply bind_Ok_inv in Hx as (u' & Hdup & Hx).
      apply reject_if_Ok, bool_decide_eq_false in Hdup. rewrite store_Ok in Hx by lia.
      apply Ok_inj in Hx as <-. split_and!; [by rewrite length_insert| | |].
      + apply NoDup_app. split_and!; [done| |apply NoDup_singleton].
        intros y Hy ->%list_elem_of_singleton. done.
      + apply Forall_app. split; [done|]. by constructor.
      + intros j Hj. destruct (decide (j = x + n)) as [->|Hne].
        * rewrite list_lookup_insert_eq by lia. f_equal. symmetry. apply bool_decide_eq_true_2.
          clear Hj. replace (x + n - n) with x by lia. set_solver.
        * rewrite list_lookup_insert_ne by done. rewrite Hq by done. f_equal.
          apply bool_decide_ext. rewrite elem_of_app, list_elem_of_singleton.
          split; [auto|]. intros [?|?]; [done|lia]. }
  destruct (mark_ok n idxs Hv) as (p' & Hm' & Hp'). rewrite Hm in Hm'.
  by apply Ok_inj in Hm' as <-.
Qed.

End marking.

Section heap_facts.
Context {D : Type} `{EqDecision D} (D_default : D) (hash : D -> D -> D).
#[local] Instance D_inhabited : Inhabited D := populate D_default.

(** ** The heap *)
Record heap_spec (leaves layers : list D) : Prop := {
  heap_length : length layers = 2 * length leaves;
  heap_leaf i : i < length leaves -> layers !!! (i + length leaves) = leaves !!! i;
  heap_node i : 1 <= i < length leaves ->
    layers !!! i = hash (layers !!! (2 * i)) (layers !!! (2 * i + 1))
}.

Lemma new_with_hash_ok {E} (leaves : list D) :
  leaves <> [] ->
  exists layers, new_with_hash (E:=E) D_default hash leaves =
      Ok {| mh_num_leaves := length leaves; mh_layers := layers |} /\ heap_spec leaves layers.
Proof.
  intros Hne. unfold new_with_hash. set (n := length leaves).
  assert (1 <= n) as Hn by (subst n; destruct leaves; cbn; [done|lia]).
  rewrite (proj2 (Nat.eqb_neq n 0)) by lia. cbn [negb rust_assert]. rewrite bind_Ok.
  set (l0 := replicate n D_default ++ leaves).
  assert (length l0 = 2 * n) as Hl0 by (subst l0; len; fold n; lia).
  destruct (foldM_down (E:=E) (fun i q => length q = 2 * n /\
     (forall j, n <= j < 2 * n -> q !!! j = l0 !!! j) /\
     (forall j, i <= j < n -> q !!! j = hash (q !!! (2 * j)) (q !!! (2 * j + 1))))
    (hash_node hash) n l0 Hn) as (layers & -> & Hl & Hlv & Hnd).
  - split_and!; [done|done|lia].
  - intros i q Hi (Hq & Hql & Hqn). unfold hash_node. rewrite !index_lt by lia.
    rewrite !bind_Ok, store_Ok by lia.
    eexists. split; [done|]. split_and!; [by rewrite length_insert| |].
    + intros j Hj. rewrite list_lookup_total_insert_ne by lia. auto.
    + intros j Hj. destruct (decide (j = i)) as [->|].
      * rewrite list_lookup_total_insert_eq by lia.
        rewrite !list_lookup_total_insert_ne by lia. done.
      * rewrite !list_lookup_total_insert_ne by lia. apply Hqn. lia.
  - exists layers. split; [done|]. split; fold n; [done| |auto].
    intros i Hi. rewrite Hlv by lia. subst l0. rewrite lookup_total_app_r by len.
    f_equal. len.
Qed.

(** ** The siblings a proof consists of *)
Definition missing (p : list bool) (i : nat) : option nat :=
  if (p !!! i : bool) then
    if (p !!! (2 * i)) && negb (p !!! (2 * i + 1)) then Some (2 * i + 1)
    else if negb (p !!! (2 * i)) && (p !!! (2 * i + 1)) then Some (2 * i)
    else None
  else None.
Definition siblings (p : list bool) (ns : list nat) : list nat := omap (missing p) ns.

Lemma missing_child_ok {E} n (p : list bool) i :
  length p = 2 * n -> 1 <= i < n -> missing_child (E:=E) p i = Ok (missing p i).
Proof.
  intros Hl Hi. unfold missing_child, missing. rewrite !index_lt by lia. rewrite !bind_Ok.
  by destruct (p !!! i), (p !!! (2 * i)), (p !!! (2 * i + 1)).
Qed.

Lemma missing_spec (p : list bool) i k :
  missing p i = Some k ->
  p !!! i = true /\ p !!! k = false /\ (k = 2 * i \/ k = 2 * i + 1).
Proof.
  unfold missing. destruct (p !!! i); [|done].
  destruct (p !!! (2 * i)) eqn:El, (p !!! (2 * i + 1)) eqn:Er; cbn; intros [= <-]; auto.
Qed.

Lemma missing_of_child n idxs p i k :
  path_spec n idxs p -> 1 <= i < n -> p !!! i = true -> p !!! k = false ->
  k = 2 * i \/ k = 2 * i + 1 -> missing p i = Some k.
Proof.
  intros Hp Hi Hon Hk Hor. unfold missing. rewrite Hon.
  pose proof (path_node _ _ _ Hp i Hi) as Hnode.
  apply list_lookup_total_correct in Hnode. rewrite Hon in Hnode.
  destruct Hor as [-> | ->]; rewrite Hk in *;
    [destruct (p !!! (2 * i + 1))|destruct (p !!! (2 * i))]; done.
Qed.

Lemma elem_of_down n i : i ∈ down_to_1 n <-> 1 <= i < n.
Proof. unfold down_to_1. rewrite list_elem_of_In, <- in_rev, <- list_elem_of_In, elem_of_seq. lia. Qed.

Lemma elem_of_siblings n idxs p k :
  path_spec n idxs p ->
  k ∈ siblings p (down_to_1 n) <-> 2 <= k < 2 * n /\ p !!! (k / 2) = true /\ p !!! k = false.
Proof.
  intros Hp. unfold siblings. rewrite list_elem_of_omap. split.
  - intros (i & Hi%elem_of_down & Hm). apply missing_spec in Hm as (Hon & Hk & Hor).
    assert (k / 2 = i) as -> by (destruct Hor as [-> | ->];
      [rewrite Nat.mul_comm; by apply Nat.div_mul|
       rewrite Nat.mul_comm; symmetry; apply (Nat.div_unique _ _ _ 1); lia]).
    split_and!; [lia|lia|done|done].
  - intros ([Hk1 Hk2] & Hon & Hk). exists (k / 2).
    pose proof (Nat.div_mod k 2 ltac:(lia)). pose proof (Nat.mod_upper_bound k 2 ltac:(lia)).
    assert (1 <= k / 2 < n) by lia. split; [by apply elem_of_down|].
    eapply missing_of_child; eauto. lia.
Qed.

Lemma NoDup_siblings (p : list bool) n : NoDup (siblings p (down_to_1 n)).
Proof.
  unfold siblings. assert (NoDup (down_to_1 n)) as Hnd.
  { unfold down_to_1. apply NoDup_ListNoDup, NoDup_rev, NoDup_ListNoDup, NoDup_seq. }
  induction Hnd as [|i ns Hi _ IH]; [constructor|]. cbn.
  destruct (missing p i) as [k|] eqn:Hm; [|done]. constructor; [|done].
  intros (j & Hj & Hmj)%list_elem_of_omap.
  apply missing_spec in Hm as (_ & _ & Hk), Hmj as (_ & _ & Hk').
  assert (i = j) as -> by lia. done.
Qed.

Lemma push_siblings_ok {E} n (p : list bool) (layers : list D) ns proof :
  length p = 2 * n -> length layers = 2 * n -> Forall (fun i => 1 <= i < n) ns ->
  foldM (E:=E) (push_sibling layers p) proof ns =
  Ok (proof ++ map (fun k => layers !!! k) (siblings p ns)).
Proof.
  intros Hp Hl. revert proof. induction ns as [|i ns IH]; intros proof Hall; cbn.
  { by rewrite app_nil_r. }
  apply Forall_cons in Hall as [Hi Hall].
  assert (push_sibling (E:=E) layers p proof i =
    Ok (proof ++ match missing p i with Some k => [layers !!! k] | None => [] end)) as ->.
  { unfold push_sibling. rewrite (missing_child_ok n) by done. rewrite bind_Ok.
    destruct (missing p i) as [k|] eqn:Hm; [|by rewrite app_nil_r].
    apply missing_spec in Hm as (_ & _ & Hk). by rewrite index_lt by lia. }
  rewrite bind_Ok, IH by done. destruct (missing p i); cbn; by rewrite <- app_assoc.
Qed.

Lemma Forall_down n : Forall (fun i => 1 <= i < n) (down_to_1 n).
Proof. apply Forall_forall. intros i. apply elem_of_down. Qed.

Lemma take_siblings_ok n (p : list bool) (proof : list D) ns c idx :
  length p = 2 * n -> length c = 2 * n -> idx <= length proof -> Forall (fun i => 1 <= i < n) ns ->
  foldM (take_sibling p proof) (c, idx) ns =
  if decide (idx + length (siblings p ns) <= length proof)
  then Ok (put_all c (zip (siblings p ns) (Some <$> drop idx proof)), idx + length (siblings p ns))
  else Err (ProofLengthMismatch (length proof + 1) (length proof)).
Proof.
  intros Hp. revert c idx. induction ns as [|i ns IH]; intros c idx Hc Hidx Hall; cbn [foldM siblings omap list_omap].
  { rewrite decide_True by (cbn; lia). cbn. by rewrite Nat.add_0_r. }
  apply Forall_cons in Hall as [Hi Hall].
  assert (take_sibling p proof (c, idx) i =
    match missing p i with
    | Some k => if decide (idx < length proof)
                then Ok (<[k := Some (proof !!! idx)]> c, idx + 1)
                else Err (ProofLengthMismatch (length proof + 1) (length proof))
    | None => Ok (c, idx)
    end) as ->.
  { unfold take_sibling. rewrite (missing_child_ok n) by done. rewrite bind_Ok.
    destruct (missing p i) as [k|] eqn:Hm; [|done].
    apply missing_spec in Hm as (_ & _ & Hk). destruct (decide (idx < length proof)) as [Hlt|Hge].
    - rewrite (proj2 (Nat.leb_gt _ _)) by lia. cbn [reject_if].
      rewrite bind_Ok, index_lt, bind_Ok, store_Ok by lia. done.
    - replace idx with (length proof) by lia. by rewrite Nat.leb_refl. }
  fold (siblings p ns).
  destruct (missing p i) as [k|] eqn:Hm; [|rewrite bind_Ok; by apply IH].
  destruct (decide (idx < length proof)) as [Hlt|Hge].
  2: { rewrite decide_False by (cbn; lia). done. }
  rewrite bind_Ok, IH by (rewrite ?length_insert; try done; lia).
  cbn [length]. replace (idx + 1 + length (siblings p ns)) with (idx + S (length (siblings p ns))) by lia.
  destruct (decide (idx + S (length (siblings p ns)) <= length proof)); [|done].
  destruct (lookup_lt_is_Some_2 proof idx Hlt) as [d Hd].
  rewrite (drop_S proof d idx Hd), (list_lookup_total_correct _ _ _ Hd).
  cbn. by rewrite Nat.add_1_r.
Qed.

(** ** The reconstruction pass *)
Definition derived (c c' : list (option D)) (n i : nat) : Prop :=
  c' !!! i = match c' !!! (2 * i), c' !!! (2 * i + 1) with
             | Some l, Some r => Some (hash l r)
             | _, _ => c !!! i
             end.

Lemma derive_nodes_ok {E} n c :
  1 <= n -> length c = 2 * n ->
  exists c', foldM (E:=E) (derive_node hash) c (down_to_1 n) = Ok c' /\ length c' = 2 * n /\
    (forall j, n <= j < 2 * n -> c' !!! j = c !!! j) /\ (forall i, 1 <= i < n -> derived c c' n i).
Proof.
  intros Hn Hc.
  destruct (foldM_down (E:=E) (fun i q => length q = 2 * n /\
     (forall j, j < i \/ n <= j < 2 * n -> q !!! j = c !!! j) /\
     (forall j, i <= j < n -> derived c q n j)) (derive_node hash) n c Hn)
    as (c' & -> & Hl & Hlv & Hnd).
  - split_and!; [done|done|lia].
  - intros i q Hi (Hq & Hql & Hqn). unfold derive_node. rewrite !index_lt by lia. rewrite !bind_Ok.
    set (v := match q !!! (2 * i), q !!! (2 * i + 1) with
              | Some l, Some r => Some (hash l r) | _, _ => c !!! i end).
    assert (match q !!! (2 * i), q !!! (2 * i + 1) with
            | Some lt, Some rt => store q i (Some (hash lt rt)) | _, _ => mret q end
            = Ok (E:=E) (<[i := v]> q)) as ->.
    { assert (mret q = Ok (E:=E) (<[i := c !!! i]> q)) as Hsame.
      { unfold mret, outcome_ret. f_equal. symmetry. apply list_insert_id'. intros Hi'.
        rewrite <- (Hql i) by lia. by apply list_lookup_lookup_total_lt. }
      subst v. destruct (q !!! (2 * i)), (q !!! (2 * i + 1)); try done. apply store_Ok. lia. }
    eexists. split; [done|]. split_and!; [by rewrite length_insert| |].
    + intros j Hj. rewrite list_lookup_total_insert_ne by lia. apply Hql. lia.
    + intros j Hj. unfold derived. destruct (decide (j = i)) as [->|].
      * rewrite list_lookup_total_insert_eq by lia.
        by rewrite !list_lookup_total_insert_ne by lia.
      * rewrite !list_lookup_total_insert_ne by lia. apply Hqn. lia.
  - exists c'. split_and!; auto.
Qed.

(** What the verifier has computed, for a proof of the right length. *)
Record computed_spec (n : nat) (p : list bool) (proof : list D) (leaves : list (nat * D))
    (c : list (option D)) : Prop := {
  computed_sibling k d :
    (k, d) ∈ zip (siblings p (down_to_1 n)) proof -> c !!! k = Some d;
  computed_leaf i d : (i, d) ∈ leaves -> c !!! (i + n) = Some d;
  computed_node i : 1 <= i < n -> p !!! i = true ->
    exists l r, c !!! (2 * i) = Some l /\ c !!! (2 * i + 1) = Some r /\ c !!! i = Some (hash l r)
}.

Definition filled (n : nat) (p : list bool) (proof : list D) (leaves : list (nat * D)) : list (option D) :=
  put_all (put_all (replicate (2 * n) None)
    (zip (siblings p (down_to_1 n)) (Some <$> proof)))
    (map (fun '(i, d) => (i + n, Some d)) leaves).

(** Siblings, leaves and everything else in the filled table. *)
Section filled.
Context (n : nat) (p : list bool) (proof : list D) (leaves : list (nat * D)).
Context (Hnd : NoDup (map fst leaves)) (Hlt : Forall (fun i => i < n) (map fst leaves)).
Context (Hp : path_spec n (map fst leaves) p).
Context (Hlen : length proof = length (siblings p (down_to_1 n))).

Lemma off_path_not_leaf k : p !!! k = false -> k ∉ (map (fun '(i, d) => (i + n, Some d)) leaves).*1.
Proof.
  intros Hoff Hx. apply list_elem_of_fmap in Hx as (kd & -> & Hx).
  apply list_elem_of_fmap in Hx as ([i d'] & -> & Hi). cbn in Hoff.
  assert (i ∈ map fst leaves) as Him by (apply list_elem_of_fmap; by exists (i, d')).
  rewrite Forall_forall in Hlt. specialize (Hlt i Him).
  pose proof (path_leaf _ _ _ Hp (i + n) ltac:(lia)) as Hl.
  apply list_lookup_total_correct in Hl. rewrite Hoff in Hl. symmetry in Hl.
  apply bool_decide_eq_false in Hl. apply Hl. by replace (i + n - n) with i by lia.
Qed.

Lemma filled_sibling k d :
  (k, d) ∈ zip (siblings p (down_to_1 n)) proof -> filled n p proof leaves !!! k = Some d.
Proof.
  intros Hin. assert (k ∈ siblings p (down_to_1 n)) as Hk by by eapply elem_of_zip_l.
  apply (elem_of_siblings _ _ _ _ Hp) in Hk as ([_ Hk] & _ & Hoff).
  apply list_lookup_total_correct. unfold filled. rewrite put_all_out by by apply off_path_not_leaf.
  apply put_all_in.
  - rewrite fst_zip by (rewrite length_fmap; lia). apply NoDup_siblings.
  - rewrite zip_Some. apply list_elem_of_fmap. by exists (k, d).
  - by rewrite length_replicate.
Qed.

Lemma filled_leaf i d : (i, d) ∈ leaves -> filled n p proof leaves !!! (i + n) = Some d.
Proof.
  intros Hin. apply list_lookup_total_correct. apply put_all_in.
  - replace ((map (fun '(i, d) => (i + n, Some d)) leaves).*1)
      with ((fun j => j + n) <$> map fst leaves)
      by (clear; induction leaves as [|[j e] l IH]; cbn; by f_equal).
    apply NoDup_fmap_2; [|done]. intros a b. lia.
  - apply list_elem_of_fmap. by exists (i, d).
  - rewrite length_put_all, length_replicate. rewrite Forall_forall in Hlt.
    assert (i < n) by (apply Hlt, list_elem_of_fmap; by exists (i, d)). lia.
Qed.

Lemma filled_none j :
  1 <= j < 2 * n -> p !!! (j / 2) = false -> p !!! j = false ->
  filled n p proof leaves !!! j = None.
Proof.
  intros Hj Hpar Hoff. apply list_lookup_total_correct. unfold filled.
  rewrite put_all_out by by apply off_path_not_leaf.
  rewrite put_all_out; [apply lookup_replicate_2; lia|].
  rewrite fst_zip by (rewrite length_fmap; lia).
  rewrite (elem_of_siblings _ _ _ _ Hp), Hpar. intros (_ & ? & _). done.
Qed.
End filled.

(** Downward induction on heap indices. *)
Lemma heap_ind (n : nat) (P : nat -> Prop) :
  (forall j, n <= j < 2 * n -> P j) ->
  (forall i, 1 <= i < n -> P (2 * i) -> P (2 * i + 1) -> P i) ->
  forall j, 1 <= j < 2 * n -> P j.
Proof.
  intros Hleaf Hnode.
  enough (forall m j, 2 * n - j <= m -> 1 <= j < 2 * n -> P j) as Hg by eauto.
  induction m as [|m IH]; intros j Hm Hj; [lia|].
  destruct (decide (n <= j)); [apply Hleaf; lia|].
  apply Hnode; [lia|apply IH; lia|apply IH; lia].
Qed.

Lemma half_even i : (2 * i) / 2 = i.
Proof. rewrite Nat.mul_comm. by apply Nat.div_mul. Qed.
Lemma half_odd i : (2 * i + 1) / 2 = i.
Proof. rewrite Nat.mul_comm. symmetry. apply (Nat.div_unique _ _ _ 1); lia. Qed.

Section computed.
Context (n : nat) (p : list bool) (proof : list D) (leaves : list (nat * D)).
Context (Hnd : NoDup (map fst leaves)) (Hlt : Forall (fun i => i < n) (map fst leaves)).
Context (Hp : path_spec n (map fst leaves) p).
Context (Hlen : length proof = length (siblings p (down_to_1 n))).
Context (c' : list (option D)).
Context (Hleaf : forall j, n <= j < 2 * n -> c' !!! j = filled n p proof leaves !!! j).
Context (Hder : forall i, 1 <= i < n -> derived (filled n p proof leaves) c' n i).

Lemma path_node_total i : 1 <= i < n -> p !!! i = (p !!! (2 * i)) || (p !!! (2 * i + 1)).
Proof. intros Hi. apply list_lookup_total_correct. by apply (path_node _ _ _ Hp). Qed.

Lemma off_path_children i :
  1 <= i < n -> p !!! i = false -> p !!! (2 * i) = false /\ p !!! (2 * i + 1) = false.
Proof. intros Hi Hpi. rewrite (path_node_total i Hi) in Hpi. by apply orb_false_iff in Hpi. Qed.

(** Nothing is known below a node that is off the paths. *)
Lemma computed_off_path j :
  1 <= j < 2 * n -> p !!! j = false -> p !!! (j / 2) = false -> c' !!! j = None.
Proof.
  revert j. apply (heap_ind n (fun j => p !!! j = false -> p !!! (j / 2) = false -> c' !!! j = None)).
  - intros j Hj Hpj Hpar. rewrite Hleaf by done. apply filled_none; auto. lia.
  - intros i Hi IHl IHr Hpi Hpar. rewrite (Hder i Hi).
    destruct (off_path_children i Hi Hpi) as [Hl Hr].
    rewrite IHl by (rewrite ?half_even; done). apply filled_none; auto. lia.
Qed.

Lemma computed_sibling_ok k d :
  (k, d) ∈ zip (siblings p (down_to_1 n)) proof -> c' !!! k = Some d.
Proof.
  intros Hkd. assert (k ∈ siblings p (down_to_1 n)) as Hk by by eapply elem_of_zip_l.
  apply (elem_of_siblings _ _ _ _ Hp) in Hk as ([Hk1 Hk2] & Hpar & Hpk).
  assert (filled n p proof leaves !!! k = Some d) as Hcd by by apply filled_sibling.
  destruct (decide (n <= k)); [by rewrite Hleaf by lia|].
  rewrite (Hder k) by lia. destruct (off_path_children k ltac:(lia) Hpk) as [Hl Hr].
  by rewrite (computed_off_path (2 * k)) by (rewrite ?half_even; try done; lia).
Qed.

(** A node with an on-path parent that is off the paths is supplied. *)
Lemma computed_supplied j :
  2 <= j < 2 * n -> p !!! (j / 2) = true -> p !!! j = false -> is_Some (c' !!! j).
Proof.
  intros Hj Hpar Hpj.
  assert (j ∈ siblings p (down_to_1 n)) as Hin by (by apply (elem_of_siblings _ _ _ _ Hp)).
  apply list_elem_of_lookup in Hin as [x Hx].
  destruct (lookup_lt_is_Some_2 proof x) as [d Hd].
  { rewrite Hlen. by eapply lookup_lt_Some. }
  exists d. apply computed_sibling_ok. apply list_elem_of_lookup. exists x.
  apply lookup_zip_with_Some. by exists j, d.
Qed.

Lemma computed_on_path j : 1 <= j < 2 * n -> p !!! j = true -> is_Some (c' !!! j).
Proof.
  revert j. apply (heap_ind n (fun j => p !!! j = true -> is_Some (c' !!! j))).
  - intros j Hj Hpj. rewrite Hleaf by done.
    pose proof (path_leaf _ _ _ Hp j Hj) as Hl. apply list_lookup_total_correct in Hl.
    rewrite Hpj in Hl. symmetry in Hl. apply bool_decide_eq_true in Hl.
    apply list_elem_of_fmap in Hl as ([i d] & Heq & Hin). cbn in Heq.
    exists d. replace j with (i + n) by lia. by apply filled_leaf.
  - intros i Hi IHl IHr Hpi.
    assert (is_Some (c' !!! (2 * i))) as [l El].
    { destruct (p !!! (2 * i)) eqn:Epl; [auto|].
      apply computed_supplied; [lia|by rewrite half_even|done]. }
    assert (is_Some (c' !!! (2 * i + 1))) as [r Er].
    { destruct (p !!! (2 * i + 1)) eqn:Epr; [auto|].
      apply computed_supplied; [lia|by rewrite half_odd|done]. }
    rewrite (Hder i Hi), El, Er. eauto.
Qed.

(** Both children of an on-path node are known. *)
Lemma computed_child i k :
  1 <= i < n -> p !!! i = true -> k = 2 * i \/ k = 2 * i + 1 -> is_Some (c' !!! k).
Proof.
  intros Hi Hpi Hk. destruct (p !!! k) eqn:Epk; [apply computed_on_path; [lia|done]|].
  apply computed_supplied; [lia| |done].
  destruct Hk as [-> | ->]; rewrite ?half_even, ?half_odd; done.
Qed.

Lemma computed_spec_ok : computed_spec n p proof leaves c'.
Proof.
  split; [apply computed_sibling_ok| |].
  - intros i d Hin. assert (i < n) as Hi.
    { rewrite Forall_forall in Hlt. apply Hlt, list_elem_of_fmap. by exists (i, d). }
    rewrite Hleaf by lia. by apply filled_leaf.
  - intros i Hi Hpi. pose proof (Hder i Hi) as Hd. unfold derived in Hd.
    destruct (computed_child i (2 * i) Hi Hpi) as [l El]; [auto|].
    destruct (computed_child i (2 * i + 1) Hi Hpi) as [r Er]; [auto|].
    exists l, r. rewrite El, Er in *. done.
Qed.
End computed.

(** ** What verification computes *)
Lemma fill_leaves_ok {E} n (c : list (option D)) leaves :
  length c = 2 * n -> Forall (fun i => i < n) (map fst leaves) ->
  foldM (E:=E) (fun c '(leaf_idx, leaf_digest) => store c (leaf_idx + n) (Some leaf_digest)) c leaves =
  Ok (put_all c (map (fun '(i, d) => (i + n, Some d)) leaves)).
Proof.
  intros Hc Hlt. revert c Hc. induction leaves as [|[i d] leaves IH]; intros c Hc; [done|].
  cbn in Hlt. apply Forall_cons in Hlt as [Hi Hlt]. cbn [foldM]. rewrite store_Ok by lia.
  rewrite bind_Ok, IH by (rewrite ?length_insert; done). done.
Qed.

(** The nodes a run of the verifier has computed when it compares the root. *)
Definition verified_nodes (num_leaves : nat) (proof : list D) (leaves : list (nat * D))
  : outcome (MerkleError D) (list (option D)) :=
  p ← mark_paths_to_root num_leaves (map fst leaves);
  '(computed_nodes, proof_idx) ←
    foldM (take_sibling p proof) (replicate (2 * num_leaves) None, 0) (down_to_1 num_leaves);
  reject_if (negb (proof_idx =? length proof)) (ProofLengthMismatch proof_idx (length proof)) ;;
  computed_nodes ← foldM (fun c '(leaf_idx, leaf_digest) =>
    store c (leaf_idx + num_leaves) (Some leaf_digest)) computed_nodes leaves;
  foldM (derive_node hash) computed_nodes (down_to_1 num_leaves).
Lemma verify_from_nodes n rt proof leaves :
  verify_proof_with_hash D_default hash n rt proof leaves =
  (computed_nodes ← verified_nodes n proof leaves;
   c1 ← index computed_nodes 1;
   computed_root ← ok_or c1 (RootMismatch rt D_default);
   reject_if (negb (bool_decide (rt = computed_root))) (RootMismatch rt computed_root)).
Proof.
  unfold verify_proof_with_hash, verified_nodes. destruct (mark_paths_to_root _ _) as [p| |]; [|done..]. rewrite !bind_Ok.
  destruct (foldM (take_sibling p proof) _ _) as [[c k]| |]; [|done..]. rewrite !bind_Ok.
  destruct (reject_if _ _) as [[]| |]; [|done..]. rewrite !bind_Ok. by destruct (foldM _ c leaves) as [c'| |].
Qed.

Lemma verify_spec n rt proof leaves p :
  mark_paths_to_root (D:=D) n (map fst leaves) = Ok p ->
  if decide (length proof = length (siblings p (down_to_1 n))) then
    exists c, computed_spec n p proof leaves c /\ verified_nodes n proof leaves = Ok c /\
      (verify_proof_with_hash D_default hash n rt proof leaves = Ok tt <-> c !!! 1 = Some rt) /\
      verify_proof_with_hash D_default hash n rt proof leaves <> Panic
  else exists expected, verify_proof_with_hash D_default hash n rt proof leaves =
         Err (ProofLengthMismatch expected (length proof)).
Proof.
  intros Hm. destruct (mark_inv _ _ _ Hm) as ((Hne & Hnd & Hlt) & Hp & Hroot).
  assert (1 <= n) as Hn.
  { destruct (map fst leaves) as [|i ns]; [done|]. apply Forall_cons in Hlt as [Hi _]. lia. }
  rewrite verify_from_nodes. unfold verified_nodes. rewrite Hm, bind_Ok.
  rewrite (take_siblings_ok n) by (try apply Forall_down; try apply length_replicate;
    try apply (path_length _ _ _ Hp); lia). cbn [Nat.add].
  destruct (decide (length proof = length (siblings p (down_to_1 n)))) as [Hlen|Hlen].
  2: { destruct (decide (length (siblings p (down_to_1 n)) <= length proof)); [|eauto].
       rewrite bind_Ok, (proj2 (Nat.eqb_neq _ _)) by lia. cbn. eauto. }
  rewrite decide_True by lia. rewrite bind_Ok, <- Hlen, Nat.eqb_refl. cbn [negb reject_if].
  rewrite bind_Ok, drop_0, (fill_leaves_ok n)
    by (rewrite ?length_put_all, ?length_replicate; done).
  rewrite bind_Ok. fold (filled n p proof leaves).
  destruct (derive_nodes_ok (E:=MerkleError D) n (filled n p proof leaves) Hn)
    as (c & -> & Hc & Hleaf & Hder).
  { unfold filled. by rewrite !length_put_all, length_replicate. }
  exists c. split; [by apply computed_spec_ok|]. split; [done|]. rewrite bind_Ok, index_lt, bind_Ok by lia.
  destruct (c !!! 1) as [d|]; cbn; [|split; done].
  destruct (bool_decide (rt = d)) eqn:Hb.
  - apply bool_decide_eq_true in Hb as ->. done.
  - apply bool_decide_eq_false in Hb. cbn. naive_solver.
Qed.

(** Every node the verifier knows is the heap's. *)
Lemma computed_complete n p idxs (leaves layers : list D) c :
  length leaves = n -> heap_spec leaves layers ->
  valid_indices n idxs -> path_spec n idxs p ->
  computed_spec n p (map (fun k => layers !!! k) (siblings p (down_to_1 n)))
    (map (fun i => (i, leaves !!! i)) idxs) c ->
  forall j, 1 <= j < 2 * n -> p !!! j = true -> c !!! j = Some (layers !!! j).
Proof.
  intros <- [Hl Hlf Hnode] (Hne & Hnd & Hlt) Hp [Hsib Hleaf Hin].
  set (n := length leaves) in *.
  apply (heap_ind n (fun j => p !!! j = true -> c !!! j = Some (layers !!! j))).
  - intros j Hj Hpj. pose proof (path_leaf _ _ _ Hp j Hj) as E. apply list_lookup_total_correct in E.
    rewrite Hpj in E. symmetry in E. apply bool_decide_eq_true in E.
    replace j with (j - n + n) by lia. rewrite (Hlf (j - n)) by lia.
    apply Hleaf, list_elem_of_fmap. eauto.
  - intros i Hi IHl IHr Hpi. destruct (Hin i Hi Hpi) as (l & r & El & Er & ->).
    assert (forall k v, k = 2 * i \/ k = 2 * i + 1 -> c !!! k = Some v ->
      (p !!! k = true -> c !!! k = Some (layers !!! k)) -> v = layers !!! k) as Hch.
    { intros k v Hk Hv IHk. destruct (p !!! k) eqn:Epk.
      - rewrite IHk in Hv by done. congruence.
      - assert (k ∈ siblings p (down_to_1 n)) as Hks.
        { apply (elem_of_siblings _ _ _ _ Hp). split_and!; [lia|lia| |done].
          destruct Hk as [-> | ->]; rewrite ?half_even, ?half_odd; done. }
        rewrite (Hsib k (layers !!! k)) in Hv; [congruence|].
        apply list_elem_of_lookup in Hks as [x Hx]. apply list_elem_of_lookup. exists x.
        apply lookup_zip_with_Some. exists k, (layers !!! k). split_and!; [done|done|].
        rewrite list_lookup_fmap, Hx. done. }
    rewrite (Hnode i Hi). f_equal. f_equal; eapply Hch; eauto.
Qed.

(** Digests have a fixed size ([okD]): that is what makes a collision of two
    pairs of digests a collision of the hash function on their
    concatenation. *)
Context (okD : D -> Prop) (hash_ok : forall l r, okD l -> okD r -> okD (hash l r)).

(** Two pairs of digests with the same hash. *)
Definition node_collision : Prop :=
  exists l r l' r', okD l /\ okD r /\ okD l' /\ okD r' /\ (l, r) <> (l', r') /\ hash l r = hash l' r'.

Lemma heap_values_ok leaves layers :
  heap_spec leaves layers -> Forall okD leaves ->
  forall j, 1 <= j < 2 * length leaves -> okD (layers !!! j).
Proof.
  intros [Hl Hlf Hnode] Hok. apply heap_ind.
  - intros j Hj. replace j with (j - length leaves + length leaves) by lia. rewrite Hlf by lia.
    rewrite Forall_forall in Hok. apply Hok. apply list_elem_of_lookup_total_2. lia.
  - intros i Hi Hokl Hokr. rewrite (Hnode i Hi). auto.
Qed.

Lemma sibling_value n p proof opened c k :
  path_spec n (map fst opened) p -> length proof = length (siblings p (down_to_1 n)) ->
  computed_spec n p proof opened c -> 2 <= k < 2 * n -> p !!! (k / 2) = true -> p !!! k = false ->
  exists d, d ∈ proof /\ c !!! k = Some d.
Proof.
  intros Hp Hlen [Hsib _ _] Hk Hpar Hpk.
  assert (k ∈ siblings p (down_to_1 n)) as Hks by by apply (elem_of_siblings _ _ _ _ Hp).
  apply list_elem_of_lookup in Hks as [x Hx].
  destruct (lookup_lt_is_Some_2 proof x) as [d Hd]; [rewrite Hlen; by eapply lookup_lt_Some|].
  exists d. split; [by eapply list_elem_of_lookup_2|]. apply Hsib, list_elem_of_lookup. exists x.
  apply lookup_zip_with_Some. by exists k, d.
Qed.

Lemma computed_values_ok n p proof opened c :
  path_spec n (map fst opened) p -> length proof = length (siblings p (down_to_1 n)) ->
  computed_spec n p proof opened c -> Forall okD proof -> Forall okD (map snd opened) ->
  forall j, 1 <= j < 2 * n -> p !!! j = true -> forall d, c !!! j = Some d -> okD d.
Proof.
  intros Hp Hlen Hc Hpr Hop. rewrite Forall_forall in Hpr, Hop.
  apply (heap_ind n (fun j => p !!! j = true -> forall d, c !!! j = Some d -> okD d)).
  - intros j Hj Hpj d Hd. pose proof (path_leaf _ _ _ Hp j Hj) as E.
    apply list_lookup_total_correct in E. rewrite Hpj in E. symmetry in E.
    apply bool_decide_eq_true, list_elem_of_fmap in E as ([i e] & Hi & Hin). cbn in Hi.
    pose proof (computed_leaf _ _ _ _ _ Hc i e Hin) as He.
    replace (i + n) with j in He by lia. rewrite Hd in He. injection He as ->.
    apply Hop, list_elem_of_fmap. by exists (i, e).
  - intros i Hi IHl IHr Hpi d Hd.
    destruct (computed_node _ _ _ _ _ Hc i Hi Hpi) as (l & r & El & Er & Ei).
    rewrite Hd in Ei. injection Ei as ->.
    assert (forall k v, k = 2 * i \/ k = 2 * i + 1 -> c !!! k = Some v ->
      (p !!! k = true -> forall d, c !!! k = Some d -> okD d) -> okD v) as Hch.
    { intros k v Hk Hv IHk. destruct (p !!! k) eqn:Epk; [by apply IHk|].
      destruct (sibling_value n p proof opened c k Hp Hlen Hc) as (d & Hd' & E); [lia| |done|].
      - destruct Hk as [-> | ->]; rewrite ?half_even, ?half_odd; done.
      - rewrite Hv in E. injection E as ->. auto. }
    apply hash_ok; [apply (Hch (2 * i) l)|apply (Hch (2 * i + 1) r)]; auto.
Qed.

(** The parent of an on-path node is on a path. *)
Lemma path_parent n idxs p i :
  path_spec n idxs p -> 2 <= i < 2 * n -> p !!! i = true -> p !!! (i / 2) = true.
Proof.
  intros Hp Hi Hpi.
  pose proof (Nat.div_mod i 2 ltac:(lia)). pose proof (Nat.mod_upper_bound i 2 ltac:(lia)).
  apply list_lookup_total_correct. rewrite (path_node _ _ _ Hp) by lia. f_equal.
  destruct (i mod 2) as [|[|]] eqn:Em; [| |lia].
  - replace (2 * (i / 2)) with i by lia. by rewrite Hpi.
  - replace (2 * (i / 2) + 1) with i by lia. rewrite Hpi. apply orb_true_r.
Qed.

(** The children the verifier computed for node [i] collide with the heap's. *)
Definition collision_at (layers : list D) (c : list (option D)) (i : nat) : Prop :=
  exists l r, c !!! (2 * i) = Some l /\ c !!! (2 * i + 1) = Some r /\
    okD l /\ okD r /\ okD (layers !!! (2 * i)) /\ okD (layers !!! (2 * i + 1)) /\
    (l, r) <> (layers !!! (2 * i), layers !!! (2 * i + 1)) /\
    hash l r = hash (layers !!! (2 * i)) (layers !!! (2 * i + 1)).
Lemma node_collision_of layers c i : collision_at layers c i -> node_collision.
Proof.
  intros (l & r & _ & _ & Hl & Hr & Hl' & Hr' & Hne & Heq).
  by exists l, r, (layers !!! (2 * i)), (layers !!! (2 * i + 1)).
Qed.
(** Going down from equal roots: the children of an on-path node agree with
    the heap's, or they collide with them. *)
Lemma computed_binding n p proof opened (leaves layers : list D) c :
  length leaves = n -> heap_spec leaves layers -> path_spec n (map fst opened) p ->
  length proof = length (siblings p (down_to_1 n)) ->
  Forall okD leaves -> Forall okD proof -> Forall okD (map snd opened) ->
  computed_spec n p proof opened c -> c !!! 1 = Some (layers !!! 1) ->
  (exists i, 1 <= i < n /\ collision_at layers c i) \/
  forall j, 1 <= j < 2 * n -> (j = 1 \/ p !!! (j / 2) = true) -> c !!! j = Some (layers !!! j).
Proof.
  intros <- Hh Hp Hlen Hokl Hokp Hoko Hc Hroot. set (n := length leaves) in *.
  pose proof (heap_values_ok _ _ Hh Hokl) as Hlok.
  pose proof (computed_values_ok _ _ _ _ _ Hp Hlen Hc Hokp Hoko) as Hcok.
  enough (forall m, m <= 2 * n -> (exists i, 1 <= i < n /\ collision_at layers c i) \/ forall j, 1 <= j < m ->
    (j = 1 \/ p !!! (j / 2) = true) -> c !!! j = Some (layers !!! j)) as Hg by by apply Hg.
  induction m as [|m IH]; intros Hm; [right; lia|].
  destruct IH as [Hcol|IH]; [lia|by left|].
  destruct (decide (m <= 1)) as [Hm1|Hm1].
  { right. intros j Hj _. by replace j with 1 by lia. }
  set (i := m / 2).
  pose proof (Nat.div_mod m 2 ltac:(lia)) as Hdm. pose proof (Nat.mod_upper_bound m 2 ltac:(lia)).
  fold i in Hdm.
  destruct (p !!! i) eqn:Epi.
  2: { right. intros j Hj Hor. destruct (decide (j = m)) as [->|]; [|apply IH; [lia|done]].
       fold i in Hor. destruct Hor; [lia|congruence]. }
  assert (1 <= i < n) as Hi by lia.
  destruct (computed_node _ _ _ _ _ Hc i Hi Epi) as (l & r & El & Er & Ei).
  assert (c !!! i = Some (layers !!! i)) as Hci.
  { apply IH; [lia|]. destruct (decide (i = 1)); [by left|right].
    eapply path_parent; eauto. lia. }
  rewrite Ei, (heap_node _ _ Hh i Hi) in Hci. injection Hci as Heq.
  destruct (decide ((l, r) = (layers !!! (2 * i), layers !!! (2 * i + 1)))) as [[= -> ->]|Hne].
  - right. intros j Hj Hor. destruct (decide (j = m)) as [->|]; [|apply IH; [lia|done]].
    assert (m = 2 * i \/ m = 2 * i + 1) as [E|E] by lia; rewrite E; done.
  - left. assert (forall k v, k = 2 * i \/ k = 2 * i + 1 -> c !!! k = Some v -> okD v) as Hch.
    { intros k v Hk Hv. destruct (p !!! k) eqn:Epk; [eapply Hcok; eauto; lia|].
      destruct (sibling_value n p proof opened c k Hp Hlen Hc) as (d & Hd' & E); [lia| |done|].
      - destruct Hk as [-> | ->]; rewrite ?half_even, ?half_odd; done.
      - rewrite Hv in E. injection E as ->. rewrite Forall_forall in Hokp. auto. }
    exists i. split; [done|]. exists l, r.
    split_and!; [done|done|apply (Hch (2 * i)); auto|apply (Hch (2 * i + 1)); auto|apply Hlok; lia..|done|done].
Qed.

(** When everything the verifier knows is the heap's, the opened leaves are
    the committed ones and the proof is the honest one. *)
Section agreement.
Context (leaves layers proof : list D) (opened : list (nat * D)) (p : list bool) (c : list (option D)).
Context (Hh : heap_spec leaves layers).
Context (Hlt : Forall (fun i => i < length leaves) (map fst opened)).
Context (Hp : path_spec (length leaves) (map fst opened) p).
Context (Hlen : length proof = length (siblings p (down_to_1 (length leaves)))).
Context (Hc : computed_spec (length leaves) p proof opened c).
Context (Hall : forall j, 1 <= j < 2 * length leaves -> (j = 1 \/ p !!! (j / 2) = true) ->
                  c !!! j = Some (layers !!! j)).

Lemma agreement_leaves : Forall (fun '(i, d) => leaves !! i = Some d) opened.
Proof.
  apply Forall_forall. intros [i d] Hin.
  assert (i < length leaves) as Hi.
  { rewrite Forall_forall in Hlt. apply Hlt, list_elem_of_fmap. by exists (i, d). }
  pose proof (computed_leaf _ _ _ _ _ Hc i d Hin) as Hd.
  rewrite Hall in Hd; [|lia|].
  - injection Hd as <-. rewrite (heap_leaf _ _ Hh) by done. by apply list_lookup_lookup_total_lt.
  - destruct (decide (i + length leaves = 1)); [by left|right].
    eapply path_parent; eauto; [lia|]. apply list_lookup_total_correct.
    rewrite (path_leaf _ _ _ Hp) by lia. f_equal. apply bool_decide_eq_true_2.
    replace (i + length leaves - length leaves) with i by lia.
    apply list_elem_of_fmap. by exists (i, d).
Qed.

Lemma agreement_path : map (fun k => layers !!! k) (siblings p (down_to_1 (length leaves))) = proof.
Proof.
  apply list_eq_same_length with (length proof); [done|by rewrite length_map|].
  intros x a b Hx Ha Hb. rewrite list_lookup_fmap in Ha.
  destruct (siblings p _ !! x) as [k|] eqn:Hk; [|done]. injection Ha as <-.
  assert (c !!! k = Some b) as Hcb.
  { apply (computed_sibling _ _ _ _ _ Hc), list_elem_of_lookup. exists x.
    apply lookup_zip_with_Some. by exists k, b. }
  assert (k ∈ siblings p (down_to_1 (length leaves))) as Hks by by eapply list_elem_of_lookup_2.
  apply (elem_of_siblings _ _ _ _ Hp) in Hks as (Hk2 & Hpar & _).
  rewrite Hall in Hcb; [congruence|lia|auto].
Qed.
End agreement.
End heap_facts.

(** ** Completeness and binding of the tree *)
Section tree_lemmas.
Context {D : Type} `{EqDecision D} (D_default : D) (hash : D -> D -> D).
#[local] Instance D_inh_lemmas : Inhabited D := populate D_default.

Lemma tree_complete (leaves : list D) (opened : list (nat * D)) :
  opened <> [] -> NoDup (map fst opened) -> Forall (fun '(i, d) => leaves !! i = Some d) opened ->
  exists mh rt path,
    new_with_hash (E:=MerkleError D) D_default hash leaves = Ok mh /\
    root (E:=MerkleError D) mh = Ok rt /\
    generate_proof (E:=MerkleError D) mh (map fst opened) = Ok path /\
    verify_proof_with_hash D_default hash (length leaves) rt path opened = Ok tt.
Proof.
  intros Hne Hnd Hop. set (idxs := map fst opened) in *.
  assert (opened = map (fun i => (i, leaves !!! i)) idxs) as Hmap.
  { subst idxs. clear Hne Hnd. induction Hop as [|[i d] opened Hi _ IH]; cbn; [done|].
    rewrite <- IH. by rewrite (list_lookup_total_correct _ _ _ Hi). }
  assert (Forall (fun i => i < length leaves) idxs) as Hlt.
  { subst idxs. clear -Hop. induction Hop as [|[i d] opened Hi _ IH]; cbn; constructor; [|done].
    by eapply lookup_lt_Some. }
  assert (valid_indices (length leaves) idxs) as Hval.
  { split_and!; [|done|done]. subst idxs. by destruct opened. }
  assert (1 <= length leaves) as Hn.
  { destruct idxs as [|i ns]; [by destruct Hval|]. apply Forall_cons in Hlt as [Hi _]. lia. }
  assert (leaves <> []) as Hl by (intros ->; cbn in Hn; lia).
  destruct (new_with_hash_ok (E:=MerkleError D) D_default hash leaves Hl) as (layers & Hnew & Hh).
  destruct (mark_ok (D:=D) (length leaves) idxs Hval) as (p & Hm & Hp & Hroot).
  set (path := map (fun k => layers !!! k) (siblings p (down_to_1 (length leaves)))).
  eexists _, (layers !!! 1), path. split_and!; [exact Hnew| | |].
  - unfold root. cbn [mh_layers]. apply index_lt. rewrite (heap_length _ _ _ _ Hh). lia.
  - unfold generate_proof. cbn [mh_num_leaves mh_layers]. rewrite Hm. cbn [expect]. rewrite bind_Ok.
    apply (push_siblings_ok D_default (length leaves));
      [apply (path_length _ _ _ Hp)|apply (heap_length _ _ _ _ Hh)|apply Forall_down].
  - pose proof (verify_spec D_default hash (length leaves) (layers !!! 1) path opened p Hm) as Hv.
    rewrite decide_True in Hv by (subst path; by rewrite length_map).
    destruct Hv as (c & Hc & _ & Hv & _). apply Hv. rewrite Hmap in Hc.
    apply (computed_complete D_default hash (length leaves) p idxs leaves layers c); auto. lia.
Qed.

Context (okD : D -> Prop) (hash_ok : forall l r, okD l -> okD r -> okD (hash l r)).

Lemma tree_binding_at (leaves proof : list D) (opened : list (nat * D)) mh rt :
  Forall okD leaves -> Forall okD proof -> Forall okD (map snd opened) ->
  new_with_hash (E:=MerkleError D) D_default hash leaves = Ok mh ->
  root (E:=MerkleError D) mh = Ok rt ->
  verify_proof_with_hash D_default hash (length leaves) rt proof opened = Ok tt ->
  NoDup (map fst opened) /\ length (mh_layers mh) = 2 * length leaves /\
  exists c, verified_nodes hash (length leaves) proof opened = Ok c /\
  ((exists i, 1 <= i < length leaves /\ collision_at D_default hash okD (mh_layers mh) c i) \/
   Forall (fun '(i, d) => leaves !! i = Some d) opened /\
   generate_proof (E:=MerkleError D) mh (map fst opened) = Ok proof).
Proof.
  intros Hokl Hokp Hoko Hnew Hrt Hver.
  assert (leaves <> []) as Hl by by intros ->.
  destruct (new_with_hash_ok (E:=MerkleError D) D_default hash leaves Hl) as (layers & Hnew' & Hh).
  rewrite Hnew in Hnew'. apply Ok_inj in Hnew' as ->.
  assert (1 <= length leaves) as Hn by (destruct leaves; cbn; [done|lia]).
  unfold root in Hrt. cbn [mh_layers] in Hrt.
  rewrite index_lt in Hrt by (rewrite (heap_length _ _ _ _ Hh); lia). apply Ok_inj in Hrt as <-.
  assert (exists p, mark_paths_to_root (D:=D) (length leaves) (map fst opened) = Ok p) as [p Hm].
  { unfold verify_proof_with_hash in Hver. apply bind_Ok_inv in Hver as (p & Hm & _). eauto. }
  destruct (mark_inv _ _ _ Hm) as ((Hne & Hnd & Hlt) & Hp & Hroot). split; [done|]. split; [apply (heap_length _ _ _ _ Hh)|].
  pose proof (verify_spec D_default hash (length leaves) (layers !!! 1) proof opened p Hm) as Hv.
  destruct (decide _) as [Hlen|] in Hv; [|destruct Hv as [e Hv]; congruence].
  destruct Hv as (c & Hc & Hvn & Hv & _). apply Hv in Hver. exists c. split; [done|].
  destruct (computed_binding D_default hash okD hash_ok (length leaves) p proof opened leaves layers c)
    as [Hcol|Hall]; auto.
  right. split; [by eapply agreement_leaves|].
  unfold generate_proof. cbn [mh_num_leaves mh_layers]. rewrite Hm. cbn [expect]. rewrite bind_Ok.
  rewrite (push_siblings_ok D_default (length leaves))
    by (try apply Forall_down; try apply (path_length _ _ _ Hp); apply (heap_length _ _ _ _ Hh)).
  cbn [app]. f_equal. by eapply agreement_path.
Qed.
Lemma tree_binding (leaves proof : list D) (opened : list (nat * D)) mh rt :
  Forall okD leaves -> Forall okD proof -> Forall okD (map snd opened) ->
  new_with_hash (E:=MerkleError D) D_default hash leaves = Ok mh ->
  root (E:=MerkleError D) mh = Ok rt ->
  verify_proof_with_hash D_default hash (length leaves) rt proof opened = Ok tt ->
  NoDup (map fst opened) /\
  (node_collision hash okD \/
   Forall (fun '(i, d) => leaves !! i = Some d) opened /\
   generate_proof (E:=MerkleError D) mh (map fst opened) = Ok proof).
Proof.
  intros H1 H2 H3 H4 H5 H6. destruct (tree_binding_at _ _ _ _ _ H1 H2 H3 H4 H5 H6) as (Hnd & _ & c & _ & [(i & _ & Hi)|Hok]).
  - split; [done|]. left. by eapply node_collision_of.
  - by split; [|right].
Qed.
End tree_lemmas.

(** * Salted Merkle commitments

    The state a commitment leaves, the leaves a verifier recomputes, and the
    completeness of openings. *)

(** ** The salted commitment *)
Section salted.
Context `{Sha256Laws}.

Definition digest_ok (d : Digest) : Prop := length d = DIGEST_LEN.

Lemma hash2_ok l r : digest_ok l -> digest_ok r -> digest_ok (hash2 l r).
Proof. intros _ _. apply sha256_length. Qed.

(** An input of one run and a different input of the other have the same
    digest. *)
Definition collision_among (xs ys : list (list u8)) : Prop :=
  Exists (fun x => Exists (fun y => x <> y /\ sha256 x = sha256 y) ys) xs.
#[export] Instance collision_among_dec xs ys : Decision (collision_among xs ys).
Proof. unfold collision_among. apply _. Defined.
Lemma collision_intro xs ys x y : x ∈ xs -> y ∈ ys -> x <> y -> sha256 x = sha256 y -> collision_among xs ys.
Proof. intros Hx Hy Hne Heq. apply Exists_exists. exists x. split; [done|]. apply Exists_exists. by exists y. Qed.

(** What is hashed for the inner nodes of a heap of [n] leaves: the children
    that are known. *)
Definition node_inputs (n : nat) (nodes : list (option Digest)) : list (list u8) :=
  omap (fun i => match mjoin (nodes !! (2 * i)), mjoin (nodes !! (2 * i + 1)) with
                 | Some l, Some r => Some (l ++ r) | _, _ => None end) (seq 1 (n - 1)).
Lemma elem_of_node_inputs n nodes i l r :
  1 <= i < n -> nodes !! (2 * i) = Some (Some l) -> nodes !! (2 * i + 1) = Some (Some r) -> l ++ r ∈ node_inputs n nodes.
Proof.
  intros Hi Hl Hr. apply list_elem_of_omap. exists i. split; [apply elem_of_seq; lia|]. by rewrite Hl, Hr.
Qed.

(** Every string that [commit] hashes. *)
Definition commit_inputs (c : MerkleCommitment) (f : nat -> list u8) : list (list u8) :=
  imap (fun i nonce => nonce ++ f i) (mc_nonce c) ++ node_inputs (mc_num_leaves c) (Some <$> mh_layers (mc_mh c)).
(** Every string that [verify] hashes. *)
Definition opened_inputs (idxs : list nat) (proof : MerkleProof) (g : nat -> nat -> list u8) : list (list u8) :=
  map (fun r => (mp_nonce proof !!! r) ++ g r (idxs !!! r)) (seq 0 (length idxs)).
Definition opened_nodes (n : nat) (idxs : list nat) (proof : MerkleProof) (g : nat -> nat -> list u8) :=
  verified_nodes hash2 n (mp_path proof) (zip idxs (map sha256 (opened_inputs idxs proof g))).
Definition verify_inputs (n : nat) (idxs : list nat) (proof : MerkleProof) (g : nat -> nat -> list u8) : list (list u8) :=
  opened_inputs idxs proof g ++ match opened_nodes n idxs proof g with Ok c => node_inputs n c | _ => [] end.

Lemma node_collision_among n layers c i xs ys :
  1 <= i < n -> length layers = 2 * n -> collision_at Digest_default hash2 digest_ok layers c i ->
  collision_among (xs ++ node_inputs n (Some <$> layers)) (ys ++ node_inputs n c).
Proof.
  intros Hi Hlen (l & r & Hl & Hr & Hokl & Hokr & Hokl' & Hokr' & Hne & Heq).
  assert (forall k d, c !!! k = Some d -> c !! k = Some (Some d)) as Hc.
  { intros k d Hk. rewrite list_lookup_total_alt in Hk. by destruct (c !! k) as [o|]; [cbn in Hk; subst|]. }
  eapply collision_intro.
  - apply elem_of_app. right. apply (elem_of_node_inputs n _ i); [done|..];
      rewrite list_lookup_fmap, (@list_lookup_lookup_total_lt _ (populate Digest_default)) by lia; reflexivity.
  - apply elem_of_app. right. eapply (elem_of_node_inputs n _ i); [done|by apply Hc..].
  - intros Happ. apply app_inj_1 in Happ as [E1 E2]; [apply Hne; f_equal; [exact (eq_sym E1)|exact (eq_sym E2)]|]. etransitivity; [exact Hokl'|symmetry; exact Hokl].
  - symmetry. exact Heq.
Qed.

(** The leaves hashed by [commit]. *)
Definition salted (nonces : list MerkleNonce) (f : nat -> list u8) : list Digest :=
  imap (fun i n => leaf_digest n (f i)) nonces.

Lemma commit_leaves {G Err} (rng_bytes : nat -> G -> outcome Err (list u8 * G)) n rng f nonces leaves rng' :
  foldM (commit_leaf rng_bytes f) ([], [], rng) (seq 0 n) = Ok (nonces, leaves, rng') ->
  length nonces = n /\ leaves = salted nonces f /\ Forall (fun m => length m = 32) nonces.
Proof.
  revert nonces leaves rng'. induction n as [|n IH]; intros nonces leaves rng' Heq.
  { by injection Heq as <- <- <-. }
  rewrite seq_S, foldM_app in Heq. apply bind_Ok_inv in Heq as ([[ns ls] r] & Hrun & Heq). cbn [foldM Nat.add] in Heq.
  destruct (IH ns ls r Hrun) as (Hl & -> & Hok). apply bind_Ok_inv in Heq as (st & Hleaf & Heq).
  apply Ok_inj in Heq as ->. unfold commit_leaf in Hleaf. apply bind_Ok_inv in Hleaf as ([m r'] & Hm & Hleaf).
  apply bind_Ok_inv in Hleaf as (u & Hlen & Hleaf). apply rust_assert_Ok, Nat.eqb_eq in Hlen.
  apply Ok_inj in Hleaf. injection Hleaf as <- <- <-.
  split_and!; [len| |apply Forall_app; by split; [|constructor]].
  unfold salted. rewrite imap_app. cbn. by rewrite Hl, Nat.add_0_r.
Qed.

(** Building and opening a heap do not depend on the error type. *)
Lemma new_with_hash_any {Err Err' D} (d : D) hash leaves mh :
  new_with_hash (E:=Err) d hash leaves = Ok mh -> new_with_hash (E:=Err') d hash leaves = Ok mh.
Proof.
  unfold new_with_hash. intros Hr. apply bind_Ok_inv in Hr as (u & Ha & Hr). apply rust_assert_Ok in Ha. rewrite Ha.
  apply bind_Ok_inv in Hr as (layers & Hl & Hr). cbn [rust_assert]. rewrite bind_Ok.
  assert (forall s x r, hash_node (E:=Err) hash s x = Ok r -> hash_node (E:=Err') hash s x = Ok r) as Hany.
  { intros s x r Hn. unfold hash_node in *. apply bind_Ok_inv in Hn as (l & H1 & Hn). apply bind_Ok_inv in Hn as (r' & H2 & Hn).
    rewrite (index_any _ _ _ H1), bind_Ok, (index_any _ _ _ H2), bind_Ok. by eapply store_any. }
  rewrite (foldM_any _ _ _ _ _ Hany Hl), bind_Ok. apply Ok_inj in Hr as <-. done.
Qed.
Lemma missing_child_any {Err Err'} p i k : missing_child (E:=Err) p i = Ok k -> missing_child (E:=Err') p i = Ok k.
Proof.
  unfold missing_child. intros Hr. apply bind_Ok_inv in Hr as (on & Ho & Hr). rewrite (index_any _ _ _ Ho), bind_Ok.
  destruct on; [|by apply Ok_inj in Hr as <-]. apply bind_Ok_inv in Hr as (l & H1 & Hr). apply bind_Ok_inv in Hr as (r & H2 & Hr).
  rewrite (index_any _ _ _ H1), bind_Ok, (index_any _ _ _ H2), bind_Ok.
  destruct (l && negb r); [|destruct (negb l && r)]; by apply Ok_inj in Hr as <-.
Qed.
Lemma generate_proof_any {Err Err' D} (mh : MerkleHeap D) idxs p :
  generate_proof (E:=Err) mh idxs = Ok p -> generate_proof (E:=Err') mh idxs = Ok p.
Proof.
  unfold generate_proof. intros Hr. apply bind_Ok_inv in Hr as (m & Hm & Hr).
  assert (expect (E:=Err') (mark_paths_to_root (D:=D) (mh_num_leaves mh) idxs) = Ok m) as ->.
  { unfold expect in *. destruct (mark_paths_to_root _ _); congruence. }
  rewrite bind_Ok. eapply foldM_any; [|exact Hr]. intros s x r Hs. unfold push_sibling in *.
  apply bind_Ok_inv in Hs as (k & Hk & Hs). rewrite (missing_child_any _ _ _ Hk), bind_Ok.
  destruct k; [|by apply Ok_inj in Hs as <-]. apply bind_Ok_inv in Hs as (d & Hd & Hs).
  rewrite (index_any _ _ _ Hd), bind_Ok. by apply Ok_inj in Hs as <-.
Qed.

(** The state a commitment is in. *)
Record commitment_spec (n : nat) (f : nat -> list u8) (c : MerkleCommitment) (rt : Digest) : Prop := {
  cs_num_leaves : mc_num_leaves c = n;
  cs_nonces : length (mc_nonce c) = n;
  cs_nonce_len : Forall (fun m => length m = 32) (mc_nonce c);
  cs_heap : MerkleHeap_new (E:=MerkleError Digest) (salted (mc_nonce c) f) = Ok (mc_mh c);
  cs_root : root (E:=MerkleError Digest) (mc_mh c) = Ok rt
}.

Lemma commit_inv {G Err} (rng_bytes : nat -> G -> outcome Err (list u8 * G)) n rng f c rt rng' :
  commit rng_bytes n rng f = Ok (c, rt, rng') -> n <> 0 -> commitment_spec n f c rt.
Proof.
  intros Hc Hn. unfold commit in Hc. apply bind_Ok_inv in Hc as ([[nonces leaves] r] & Hf & Hc).
  apply commit_leaves in Hf as (Hlen & -> & Hok). apply bind_Ok_inv in Hc as (mh & Hmh & Hc).
  apply bind_Ok_inv in Hc as (rt' & Hrt & Hc). apply Ok_inj in Hc. injection Hc as <- <- <-.
  assert (length (salted nonces f) = n) as Hls by (unfold salted; by rewrite length_imap).
  split; cbn [mc_num_leaves mc_nonce mc_mh]; [done..| |].
  - by eapply new_with_hash_any.
  - by eapply index_any.
Qed.

(** A random engine that never fails and returns as many bytes as asked. *)
Definition engine_ok {G Err} (rng_bytes : nat -> G -> outcome Err (list u8 * G)) : Prop :=
  forall n g, exists bs g', rng_bytes n g = Ok (bs, g') /\ length bs = n.

Lemma commit_ok {G Err} (rng_bytes : nat -> G -> outcome Err (list u8 * G)) n rng f :
  engine_ok rng_bytes -> n <> 0 ->
  exists c rt rng', commit rng_bytes n rng f = Ok (c, rt, rng') /\ commitment_spec n f c rt.
Proof.
  intros Hrng Hn.
  assert (forall k m st, exists st', foldM (commit_leaf rng_bytes f) st (seq m k) = Ok st') as Hrun.
  { induction k as [|k IH]; intros m st; cbn [seq foldM]; [by eexists|].
    destruct st as [[ns ls] g]. destruct (Hrng 32 g) as (bs & g' & Hg & Hl).
    assert (exists st', commit_leaf rng_bytes f (ns, ls, g) m = Ok st') as (st' & ->).
    { unfold commit_leaf. rewrite Hg, bind_Ok, Hl. cbn [Nat.eqb rust_assert]. rewrite bind_Ok. by eexists. }
    rewrite bind_Ok. apply IH. }
  destruct (Hrun n 0 ([], [], rng)) as ([[nonces leaves] rng'] & Hf).
  assert (exists c rt, commit rng_bytes n rng f = Ok (c, rt, rng')) as (c & rt & Hc).
  { unfold commit. rewrite Hf, bind_Ok. apply commit_leaves in Hf as (Hlen & -> & _).
    assert (length (salted nonces f) = n) as Hls by (unfold salted; by rewrite length_imap).
    destruct (new_with_hash_ok (E:=Err) Digest_default hash2 (salted nonces f)) as (layers & Hnew & Hh).
    { intros E. rewrite E in Hls. cbn in Hls. lia. }
    unfold MerkleHeap_new. rewrite Hnew, bind_Ok.
    assert (is_Some (layers !! 1)) as [rt Hrt] by (apply lookup_lt_is_Some_2; rewrite (heap_length _ _ _ _ Hh); lia).
    unfold root. cbn [mh_layers]. rewrite (proj2 (index_Ok _ _ _) Hrt), bind_Ok. by do 2 eexists. }
  exists c, rt, rng'. split; [done|]. by eapply commit_inv.
Qed.

Lemma open_nonces {Err} (c : MerkleCommitment) idxs :
  length (mc_nonce c) = mc_num_leaves c -> Forall (fun i => i < mc_num_leaves c) idxs ->
  foldM (open_nonce (E:=Err) c) [] idxs = Ok (map (fun i => mc_nonce c !!! i) idxs).
Proof.
  intros Hlen Hall. enough (forall acc, foldM (open_nonce (E:=Err) c) acc idxs =
    Ok (acc ++ map (fun i => mc_nonce c !!! i) idxs)) as Hg by apply Hg.
  induction Hall as [|i idxs Hi _ IH]; intros acc; cbn [foldM map]; [by rewrite app_nil_r|].
  assert (open_nonce (E:=Err) c acc i = Ok (acc ++ [mc_nonce c !!! i])) as ->.
  { unfold open_nonce. rewrite (proj2 (Nat.ltb_lt _ _)) by done. by rewrite index_lt by lia. }
  rewrite bind_Ok, IH. by rewrite <- app_assoc.
Qed.

Lemma verify_leaves (proof : MerkleProof) idxs g :
  length (mp_nonce proof) = length idxs ->
  foldM (query_leaf (E:=MerkleError Digest) idxs proof g) [] (seq 0 (length idxs)) =
  Ok (map (fun r => leaf_digest (mp_nonce proof !!! r) (g r (idxs !!! r))) (seq 0 (length idxs))).
Proof.
  intros Hlen. enough (forall m acc k, k + m <= length idxs ->
    foldM (query_leaf (E:=MerkleError Digest) idxs proof g) acc (seq k m) =
    Ok (acc ++ map (fun r => leaf_digest (mp_nonce proof !!! r) (g r (idxs !!! r))) (seq k m))) as Hg
    by by apply (Hg _ [] 0).
  induction m as [|m IH]; intros acc k Hk; cbn [foldM map seq]; [by rewrite app_nil_r|].
  assert (query_leaf (E:=MerkleError Digest) idxs proof g acc k =
    Ok (acc ++ [leaf_digest (mp_nonce proof !!! k) (g k (idxs !!! k))])) as ->.
  { unfold query_leaf. by rewrite !index_lt by lia. }
  rewrite bind_Ok, IH by lia. by rewrite <- app_assoc.
Qed.

Lemma salted_lookup nonces f i :
  i < length nonces -> salted nonces f !! i = Some (leaf_digest (nonces !!! i) (f i)).
Proof.
  intros Hi. unfold salted. rewrite list_lookup_imap, (list_lookup_lookup_total_lt _ _ Hi). done.
Qed.

Lemma Forall_salted nonces f : Forall digest_ok (salted nonces f).
Proof. apply Forall_lookup. intros i d. unfold salted. rewrite list_lookup_imap_Some. intros (n & _ & ->). apply sha256_length. Qed.

(** Equal digests: equal inputs, or a collision. *)
Lemma inputs_or_collision (k : nat) (com inp : nat -> list u8) xs ys :
  (forall r, r < k -> com r ∈ xs /\ inp r ∈ ys) -> (forall r, r < k -> sha256 (com r) = sha256 (inp r)) ->
  collision_among xs ys \/ forall r, r < k -> com r = inp r.
Proof.
  intros Hin Hdig. destruct (decide (Forall (fun r => com r = inp r) (seq 0 k))) as [Heq|Hne].
  - right. intros r Hr. rewrite Forall_seq in Heq. apply Heq. lia.
  - left. apply not_Forall_Exists in Hne; [|intros; apply _].
    apply Exists_exists in Hne as (r & Hr & Hne). apply elem_of_seq in Hr. destruct (Hin r) as [Hx Hy]; [lia|].
    apply (collision_intro _ _ (com r) (inp r)); [done|done|done|]. apply Hdig. lia.
Qed.

(** The digest opened at query [r] is the salted leaf at its position. *)
Lemma opened_digest nonces f (idxs : list nat) (ds : list Digest) r :
  length ds = length idxs -> r < length idxs ->
  Forall (fun '(i, d) => salted nonces f !! i = Some d) (zip idxs ds) ->
  (idxs !!! r) < length nonces /\
  leaf_digest (nonces !!! (idxs !!! r)) (f (idxs !!! r)) = (ds !!! r).
Proof.
  intros Hds Hr Hall. rewrite Forall_lookup in Hall.
  assert (zip idxs ds !! r = Some (idxs !!! r, ds !!! r)) as Hz.
  { apply lookup_zip_with_Some. eexists _, _. split; [done|].
    split; apply list_lookup_lookup_total_lt; lia. }
  specialize (Hall _ _ Hz). cbn in Hall.
  assert ((idxs !!! r) < length nonces) as Hi.
  { apply lookup_lt_Some in Hall. unfold salted in Hall. by rewrite length_imap in Hall. }
  split; [done|]. rewrite salted_lookup in Hall by done. by apply Some_inj in Hall.
Qed.


(** Opening distinct positions of a commitment verifies. *)
Lemma open_verify_ok n f c rt (idxs : list nat) (g : nat -> nat -> list u8) :
  commitment_spec n f c rt -> n <> 0 ->
  idxs <> [] -> NoDup idxs -> Forall (fun i => i < n) idxs ->
  (forall r i, idxs !! r = Some i -> g r i = f i) ->
  exists proof, (forall Err, open_commitment (E:=Err) c idxs = Ok proof) /\ verify n rt idxs proof g = Ok tt /\
    length (mp_nonce proof) = length idxs.
Proof.
  intros [Cn Cl Cok Ch Cr] Hn Hne Hnd Hlt Hg.
  assert (length (salted (mc_nonce c) f) = n) as Hls by (unfold salted; by rewrite length_imap).
  set (opened := map (fun i => (i, leaf_digest (mc_nonce c !!! i) (f i))) idxs).
  assert (map fst opened = idxs) as Hfst by (subst opened; rewrite map_map; apply map_id).
  destruct (tree_complete Digest_default hash2 (salted (mc_nonce c) f) opened) as
    (mh & rt' & path & Hmh & Hrt & Hgen & Hver).
  { subst opened. by destruct idxs. }
  { by rewrite Hfst. }
  { subst opened. apply Forall_map. eapply Forall_impl; [exact Hlt|].
    intros i Hi. cbn in *. apply salted_lookup. lia. }
  rewrite Hfst in Hgen. unfold MerkleHeap_new in Ch. rewrite Ch in Hmh. apply Ok_inj in Hmh as <-.
  rewrite Cr in Hrt. apply Ok_inj in Hrt as <-. rewrite Hls in Hver.
  exists {| mp_nonce := map (fun i => mc_nonce c !!! i) idxs; mp_path := path |}.
  split_and!; [intros Err| |cbn [mp_nonce]; by rewrite length_map].
  - unfold open_commitment. rewrite open_nonces by (rewrite Cn; done). rewrite bind_Ok.
    by rewrite (generate_proof_any _ _ _ Hgen).
  - unfold verify. cbn [mp_nonce mp_path]. rewrite length_map, Nat.eqb_refl. cbn [negb reject_if].
    rewrite bind_Ok, verify_leaves by (cbn; by rewrite length_map). rewrite bind_Ok.
    unfold verify_proof. cbn [mp_nonce]. rewrite <- Hver. f_equal. subst opened.
    apply list_eq. intros r. rewrite lookup_zip_with, !list_lookup_fmap.
    destruct (idxs !! r) as [i|] eqn:Hr; [|done]. cbn.
    assert (r < length idxs) as Hrl by by eapply lookup_lt_Some.
    rewrite lookup_seq_lt by done. cbn.
    rewrite (list_lookup_total_correct idxs r i Hr), (Hg r i Hr).
    rewrite (list_lookup_total_fmap (fun i => mc_nonce c !!! i)) by done.
    by rewrite (list_lookup_total_correct idxs r i Hr).
Qed.

(** What an accepted opening says about the commitment. *)
Lemma verify_opened n rt (idxs : list nat) proof g :
  verify n rt idxs proof g = Ok tt ->
  length (mp_nonce proof) = length idxs /\
  verify_proof n rt (mp_path proof) (zip idxs (map sha256 (opened_inputs idxs proof g))) = Ok tt.
Proof.
  intros Hver. unfold verify in Hver. apply bind_Ok_inv in Hver as (u & Hlen & Hver).
  apply reject_if_Ok, negb_false_iff, Nat.eqb_eq in Hlen. rewrite verify_leaves, bind_Ok in Hver by done.
  split; [done|]. unfold opened_inputs. rewrite map_map. exact Hver.
Qed.
Lemma open_of_nonces {Err} (c : MerkleCommitment) idxs (proof : MerkleProof) :
  length (mc_nonce c) = mc_num_leaves c -> Forall (fun i => i < mc_num_leaves c) idxs -> length (mp_nonce proof) = length idxs ->
  (forall r i, idxs !! r = Some i -> mp_nonce proof !! r = mc_nonce c !! i) ->
  generate_proof (E:=Err) (mc_mh c) idxs = Ok (mp_path proof) -> open_commitment (E:=Err) c idxs = Ok proof.
Proof.
  intros Hlen Hlt Hl Hnon Hgen. unfold open_commitment. rewrite open_nonces, bind_Ok, Hgen, bind_Ok by done.
  destruct proof as [nonce path]. cbn [mp_nonce mp_path] in *. change (mret ?x) with (Ok (E:=Err) x). do 2 f_equal.
  apply list_eq. intros r. rewrite list_lookup_fmap. destruct (idxs !! r) as [i|] eqn:Hr.
  - rewrite (Hnon r i Hr). cbn. symmetry. apply list_lookup_lookup_total_lt. rewrite Forall_lookup in Hlt. rewrite Hlen. by eapply Hlt.
  - symmetry. apply lookup_ge_None. apply lookup_ge_None in Hr. lia.
Qed.
Lemma binding_spec {Err} n f c rt (idxs : list nat) (proof : MerkleProof) g :
  n <> 0 -> commitment_spec n f c rt ->
  Forall (fun m => length m = 32) (mp_nonce proof) -> Forall digest_ok (mp_path proof) ->
  verify n rt idxs proof g = Ok tt ->
  collision_among (commit_inputs c f) (verify_inputs n idxs proof g) \/
  open_commitment (E:=Err) c idxs = Ok proof /\
  forall r i, idxs !! r = Some i -> g r i = f i /\ mp_nonce proof !! r = mc_nonce c !! i.
Proof.
  intros Hn [Cn Cl Cok Ch Cr] Hnl Hpl (Hlen & Hver)%verify_opened. set (ds := map sha256 (opened_inputs idxs proof g)) in *.
  assert (length (salted (mc_nonce c) f) = n) as Hls by (unfold salted; by rewrite length_imap).
  assert (length ds = length idxs) as Hds by (subst ds; unfold opened_inputs; by rewrite !length_map, length_seq).
  unfold verify_proof in Hver. rewrite <- Hls in Hver. unfold MerkleHeap_new in Ch.
  assert (map fst (zip idxs ds) = idxs) as Hfst by (apply fst_zip; lia).
  destruct (tree_binding_at Digest_default hash2 digest_ok hash2_ok
    (salted (mc_nonce c) f) (mp_path proof) (zip idxs ds) (mc_mh c) rt) as (_ & Hheap & cn & Hcn & Hb); try done.
  { apply Forall_salted. }
  { change (map snd (zip idxs ds)) with ((zip idxs ds).*2). rewrite snd_zip by lia. subst ds. apply Forall_map, Forall_forall. intros d _. apply sha256_length. }
  rewrite Hls in Hcn, Hheap. unfold verify_inputs, opened_nodes. fold ds. rewrite Hcn.
  destruct Hb as [(i & Hi & Hcol)|[Hall Hgen]]; [left; unfold commit_inputs; rewrite Cn; eapply node_collision_among; [by rewrite <- Hls|done|exact Hcol]|].
  assert (forall r, r < length idxs -> (idxs !!! r) < length (mc_nonce c) /\
    sha256 ((mc_nonce c !!! (idxs !!! r)) ++ f (idxs !!! r)) = sha256 ((mp_nonce proof !!! r) ++ g r (idxs !!! r))) as Hopen.
  { intros r Hr. destruct (opened_digest _ _ _ _ r Hds Hr Hall) as [Hi E]. split; [done|]. etransitivity; [exact E|].
    apply list_lookup_total_correct. subst ds. unfold opened_inputs. by rewrite !list_lookup_fmap, lookup_seq_lt. }
  destruct (inputs_or_collision (length idxs)
    (fun r => (mc_nonce c !!! (idxs !!! r)) ++ f (idxs !!! r))
    (fun r => (mp_nonce proof !!! r) ++ g r (idxs !!! r)) (commit_inputs c f) (opened_inputs idxs proof g ++ node_inputs n cn)) as [|Heq]; [..|by left|right].
  { intros r Hr. destruct (Hopen r Hr) as [Hi _]. split; apply elem_of_app; left.
    - apply list_elem_of_lookup. exists (idxs !!! r). rewrite list_lookup_imap, (list_lookup_lookup_total_lt _ _ Hi). done.
    - apply list_elem_of_fmap. exists r. split; [done|]. apply elem_of_seq. lia. }
  { intros r Hr. by apply Hopen. }
  assert (forall r i, idxs !! r = Some i -> g r i = f i /\ mp_nonce proof !! r = mc_nonce c !! i) as Hagree.
  { intros r i Hr. assert (r < length idxs) as Hrl by by eapply lookup_lt_Some.
    destruct (Hopen r Hrl) as [Hi _]. specialize (Heq r Hrl). cbn in Heq. rewrite (list_lookup_total_correct _ _ _ Hr) in Heq, Hi.
    assert (mp_nonce proof !! r = Some (mp_nonce proof !!! r)) as E1 by (apply list_lookup_lookup_total_lt; lia).
    assert (mc_nonce c !! i = Some (mc_nonce c !!! i)) as E2 by (apply list_lookup_lookup_total_lt; lia).
    rewrite Forall_lookup in Hnl, Cok. apply app_inj_1 in Heq as [En Ef]; [|by rewrite (Hnl _ _ E1), (Cok _ _ E2)].
    split; [done|]. by rewrite E1, E2, En. }
  split; [|exact Hagree]. rewrite Hfst in Hgen. apply open_of_nonces; [lia| |done|intros r i Hr; by apply Hagree|by eapply generate_proof_any].
  apply Forall_lookup. intros r i Hr. assert (r < length idxs) as Hrl by by eapply lookup_lt_Some.
  destruct (Hopen r Hrl) as [Hi _]. rewrite (list_lookup_total_correct _ _ _ Hr) in Hi. lia.
Qed.

(** On valid positions, [verify] answers whatever the proof. *)
Lemma verify_total n rt (idxs : list nat) proof g :
  idxs <> [] -> NoDup idxs -> Forall (fun i => i < n) idxs -> verify n rt idxs proof g <> Panic.
Proof.
  intros Hne Hnd Hlt. unfold verify. destruct (Nat.eqb_spec (length (mp_nonce proof)) (length idxs)) as [Hl|]; [|done].
  cbn [negb reject_if]. rewrite bind_Ok, verify_leaves by done. rewrite bind_Ok. unfold verify_proof.
  set (leaves := zip idxs _).
  assert (map fst leaves = idxs) as Hfst by (apply fst_zip; by rewrite length_map, length_seq).
  destruct (mark_ok (D:=Digest) n idxs) as (p & Hm & _); [done|]. rewrite <- Hfst in Hm.
  pose proof (verify_spec Digest_default hash2 n rt (mp_path proof) leaves p Hm) as Hv.
  destruct (decide _) in Hv; [by destruct Hv as (c & _ & _ & _ & Hv)|]. destruct Hv as [e Hv]. by rewrite Hv.
Qed.
End salted.
