(* ===== verification/MerkleTheorems.v ===== *)
(** * Theorems about Merkle commitments

    Completeness and binding of the tree for any hash of two digests, and of
    the salted SHA-256 commitment built on it. *)
From stdpp Require Import prelude.
From Stdlib Require Import Lia NArith.
From S2P Require Import Prelude Words Interfaces Merkle.

Section tree.
Context {D : Type} `{EqDecision D} (D_default : D) (hash : D -> D -> D).

(** C29: completeness of multi-leaf Merkle proofs.  For any nonempty list of
    leaves (not only powers of two) and any nonempty set of distinct leaf
    positions, building the heap, generating a proof and verifying it all
    succeed: nothing panics and the verifier accepts. *)
Theorem merkle_proof_complete (leaves : list D) (opened : list (nat * D)) :
  opened <> [] -> NoDup (map fst opened) -> Forall (fun '(i, d) => leaves !! i = Some d) opened ->
  exists mh rt path,
    new_with_hash (E:=MerkleError D) D_default hash leaves = Ok mh /\
    root (E:=MerkleError D) mh = Ok rt /\
    generate_proof (E:=MerkleError D) mh (map fst opened) = Ok path /\
    verify_proof_with_hash D_default hash (length leaves) rt path opened = Ok tt.
Proof. apply tree_complete. Qed.

Context (okD : D -> Prop) (hash_ok : forall l r, okD l -> okD r -> okD (hash l r)).

(** C24: binding of Merkle roots.  If the verifier accepts a proof against the
    root of a heap, then the opened positions are distinct and in range,
    every opened digest is the committed leaf at its position, and the proof
    is the very one the prover would generate (no second encoding is
    accepted) -- or else two different pairs of digests with the same hash
    have been exhibited. *)
Theorem merkle_proof_binding (leaves proof : list D) (opened : list (nat * D)) mh rt :
  Forall okD leaves -> Forall okD proof -> Forall okD (map snd opened) ->
  new_with_hash (E:=MerkleError D) D_default hash leaves = Ok mh ->
  root (E:=MerkleError D) mh = Ok rt ->
  verify_proof_with_hash D_default hash (length leaves) rt proof opened = Ok tt ->
  NoDup (map fst opened) /\
  (node_collision hash okD \/
   Forall (fun '(i, d) => leaves !! i = Some d) opened /\
   generate_proof (E:=MerkleError D) mh (map fst opened) = Ok proof).
Proof. by apply tree_binding. Qed.
End tree.

(** ** The salted commitment *)
Section salted.
Context `{Sha256Laws}.
Context {G : Type} (rng_bytes : nat -> G -> outcome (MerkleError Digest) (list u8 * G)).

(** Committing to any positive number of leaves, opening any nonempty set
    of distinct positions and verifying the opening against the same leaf
    contents succeeds end to end, whatever the random engine returned. *)
Theorem merkle_commitment_complete (rng_ok : engine_ok rng_bytes) (n : nat) (rng : G)
    (f : nat -> list u8) (idxs : list nat) (g : nat -> nat -> list u8) :
  idxs <> [] -> NoDup idxs -> Forall (fun i => i < n) idxs ->
  (forall r i, idxs !! r = Some i -> g r i = f i) ->
  exists c rt rng' proof,
    commit (E:=MerkleError Digest) rng_bytes n rng f = Ok (c, rt, rng') /\
    open_commitment (E:=MerkleError Digest) c idxs = Ok proof /\
    verify n rt idxs proof g = Ok tt.
Proof.
  intros Hne Hnd Hlt Hg.
  assert (n <> 0) as Hn.
  { destruct idxs as [|i ns]; [done|]. apply Forall_cons in Hlt as [Hi _]. lia. }
  destruct (commit_ok rng_bytes n rng f rng_ok Hn) as (c & rt & rng' & Hc & Hspec).
  destruct (open_verify_ok n f c rt idxs g Hspec Hn Hne Hnd Hlt Hg) as (proof & Ho & Hv & _).
  exists c, rt, rng', proof. split; [done|]. split; [apply Ho|done].
Qed.

(** C28: binding of salted commitments.  If an opening is accepted against the
    root of a commitment, then it is the opening the committer would produce
    (the revealed nonces are the committed ones, and the path has no second
    encoding) and the contents hashed at every queried position are the
    committed ones -- or one of the finitely many strings that this run of
    [verify] hashed collides with one that this run of [commit] hashed. *)
Theorem merkle_commitment_binding (n : nat) (rng rng' : G) (f : nat -> list u8) (idxs : list nat)
    (proof : MerkleProof) (g : nat -> nat -> list u8) c rt :
  commit (E:=MerkleError Digest) rng_bytes n rng f = Ok (c, rt, rng') ->
  Forall (fun m => length m = 32) (mp_nonce proof) -> Forall digest_ok (mp_path proof) ->
  verify n rt idxs proof g = Ok tt ->
  collision_among (commit_inputs c f) (verify_inputs n idxs proof g) \/
  open_commitment (E:=MerkleError Digest) c idxs = Ok proof /\
  forall r i, idxs !! r = Some i -> g r i = f i /\ mp_nonce proof !! r = mc_nonce c !! i.
Proof.
  intros Hcom Hnl Hpl Hver. assert (n <> 0) as Hn by (by intros ->).
  apply (binding_spec n f c rt); try done. by apply (commit_inv rng_bytes n rng f c rt rng').
Qed.
End salted.

(** ** Instances *)
Definition sample_hash (l r : N) : N := (31 * l + r + 1)%N.
Definition sample_leaves : list N := [5; 6; 7; 8; 9]%N.
Definition sample_opened : list (nat * N) := [(3, 8%N); (0, 5%N)].

Lemma sample_opened_NoDup : NoDup (map fst sample_opened).
Proof. by apply (bool_decide_unpack (NoDup [3; 0])). Qed.

Lemma merkle_proof_complete_witness :
  exists mh rt path,
    new_with_hash (E:=MerkleError N) 0%N sample_hash sample_leaves = Ok mh /\
    root (E:=MerkleError N) mh = Ok rt /\
    generate_proof (E:=MerkleError N) mh [3; 0] = Ok path /\
    verify_proof_with_hash 0%N sample_hash 5 rt path sample_opened = Ok tt.
Proof.
  apply (merkle_proof_complete 0%N sample_hash sample_leaves sample_opened);
    [done|apply sample_opened_NoDup|repeat constructor].
Defined.

Lemma merkle_proof_binding_witness :
  exists mh rt path,
    new_with_hash (E:=MerkleError N) 0%N sample_hash sample_leaves = Ok mh /\
    root (E:=MerkleError N) mh = Ok rt /\
    verify_proof_with_hash 0%N sample_hash 5 rt path sample_opened = Ok tt /\
    NoDup (map fst sample_opened).
Proof.
  eexists _, _, [9; 194]%N. split_and!; [vm_compute; reflexivity..|].
  eapply (merkle_proof_binding 0%N sample_hash (fun _ => True) (fun _ _ _ _ => I)
    sample_leaves [9; 194]%N); try (repeat constructor; done); vm_compute; reflexivity.
Defined.

Lemma toy_engine_ok : engine_ok (Err:=MerkleError Digest) toy_engine.
Proof. intros n g. eexists _, _. split; [reflexivity|apply toy_bytes_length]. Qed.

Definition sample_content (i : nat) : list u8 := [as_u8 (N.of_nat i)].

Lemma merkle_commitment_complete_witness :
  exists c rt rng' proof,
    @commit toy_sha256 N (MerkleError Digest) toy_engine 3 0%N sample_content = Ok (c, rt, rng') /\
    open_commitment (E:=MerkleError Digest) c [2; 0] = Ok proof /\
    @verify toy_sha256 3 rt [2; 0] proof (fun _ i => sample_content i) = Ok tt.
Proof.
  apply (@merkle_commitment_complete toy_sha256 N toy_engine toy_engine_ok 3 0%N
    sample_content [2; 0] (fun _ i => sample_content i)).
  - done.
  - by apply (bool_decide_unpack (NoDup [2; 0])).
  - repeat constructor.
  - done.
Defined.

Definition sample_commitment :=
  match @commit toy_sha256 N (MerkleError Digest) toy_engine 3 0%N sample_content with
  | Ok (c, rt, rng) => Some (c, rt, rng)
  | _ => None
  end.
Definition sample_opening : option MerkleProof :=
  match sample_commitment with
  | Some (c, _, _) => match open_commitment (E:=MerkleError Digest) c [2; 0] with Ok p => Some p | _ => None end
  | None => None
  end.

(** An honest opening; no string of the two runs collides, which is decided
    by evaluation. *)
Lemma merkle_commitment_binding_witness :
  exists c rt rng' proof, sample_commitment = Some (c, rt, rng') /\ sample_opening = Some proof /\
    length (@verify_inputs toy_sha256 3 [2; 0] proof (fun _ i => sample_content i)) = 4 /\
    open_commitment (E:=MerkleError Digest) c [2; 0] = Ok proof /\
    forall r i, [2; 0] !! r = Some i ->
      sample_content i = sample_content i /\ mp_nonce proof !! r = mc_nonce c !! i.
Proof.
  eexists _, _, _, _. split; [vm_compute; reflexivity|]. split; [vm_compute; reflexivity|]. split; [vm_compute; reflexivity|].
  eapply or_ind; [|intros Hok; exact Hok|]; cycle 1.
  - eapply (@merkle_commitment_binding toy_sha256 toy_sha256_laws N toy_engine 3 0%N _
      sample_content [2; 0] _ (fun _ i => sample_content i)).
    + vm_compute. reflexivity.
    + repeat constructor.
    + repeat constructor.
    + vm_compute. reflexivity.
  - intros Hcol. exfalso. revert Hcol. apply (bool_decide_unpack (~ _)). vm_compute. exact I.
Defined.
