(* ===== verification/Field.v ===== *)
(** * Fields and polynomials

    The field traits of [src/rust/core/algebra/src/field.rs] and
    [src/rust/runtime/algebra/src/field.rs] as type classes, with the laws
    their clients rely on; the vector kernels of
    [src/rust/runtime/algebra/src/blas.rs] and the interpolation routines of
    [src/rust/runtime/algebra/src/poly.rs] written against them. *)
From stdpp Require Import prelude.
From Stdlib Require Import Lia NArith Ring Ring_theory.
From S2P Require Import Prelude Words Interfaces.

Declare Scope fe_scope.
Delimit Scope fe_scope with fe.

(** [AlgebraicField]; [invert] has no value where the code panics. *)
Class AlgebraicField (E : Type) := {
  fzero : E;
  fone : E;
  fadd : E -> E -> E;
  fsub : E -> E -> E;
  fmul : E -> E -> E;
  fneg : E -> E;
  invert : E -> option E;
  is_zero : E -> bool
}.
Notation "0" := fzero : fe_scope.
Notation "1" := fone : fe_scope.
Infix "+" := fadd : fe_scope.
Infix "-" := fsub : fe_scope.
Infix "*" := fmul : fe_scope.
Notation "- x" := (fneg x) : fe_scope.

Class AlgebraicFieldLaws (E : Type) `{AlgebraicField E} := {
  field_ring : ring_theory fzero fone fadd fmul fsub fneg (@eq E);
  one_neq_zero : fone <> fzero;
  is_zero_spec (e : E) : is_zero e = true <-> e = fzero;
  invert_zero : invert fzero = None;
  invert_spec (e : E) : e <> fzero -> exists i, invert e = Some i /\ fmul e i = fone
}.

(** [RuntimeField]'s delayed-reduction accumulators. *)
Class RuntimeField (E : Type) `{AlgebraicField E} := {
  Accum : Type;
  zero_accum : Accum;
  mac : Accum -> E -> E -> Accum;
  accum_reduce : Accum -> E
}.

(** Reducing an accumulator gives the sum of the products put in. *)
Class RuntimeFieldLaws (E : Type) `{RuntimeField E} := {
  accum_reduce_zero : accum_reduce zero_accum = fzero;
  accum_reduce_mac acc x y : accum_reduce (mac acc x y) = fadd (accum_reduce acc) (fmul x y)
}.

Section arithmetic.
Context {E : Type} `{AlgebraicField E}.
Local Open Scope fe_scope.

Definition mone : E := 0 - 1.

(** [f.fma(&mut e1, a, b)] and [f.fnms(&mut e1, a, b)]. *)
Definition fma (e1 a b : E) : E := e1 + a * b.
Definition fnms (e1 a b : E) : E := e1 - a * b.

(** Repeated squaring; a [usize] exponent has at most 64 bits. *)
Fixpoint pow_loop (fuel : nat) (result base : E) (exponent : N) : E :=
  match fuel with
  | O => result
  | S fuel' =>
      if N.eqb exponent 0 then result
      else
        let result := if negb (N.eqb (N.land exponent 1) 0) then result * base else result in
        pow_loop fuel' result (base * base) (N.shiftr exponent 1)
  end.
Definition pow (value : E) (exponent : N) : E := pow_loop 64 1 value exponent.

(** One round of each pass of [batch_inverse]. *)
Definition batch_prefix {Err} (st : list E * E) (value : E) : outcome Err (list E * E) :=
  let '(products, product) := st in
  rust_assert (negb (is_zero value)) ;;
  mret (products ++ [product], product * value).
Definition batch_suffix {Err} (values : list E) (st : list E * E) (i : nat)
  : outcome Err (list E * E) :=
  let '(products, inverse) := st in
  prefix ← index products i;
  products ← store products i (inverse * prefix);
  value ← index values i;
  mret (products, inverse * value).
Definition batch_inverse {Err} (values : list E) : outcome Err (list E) :=
  '(products, product) ← foldM batch_prefix ([], 1) values;
  match values with
  | [] => mret products
  | _ =>
      inverse ← unwrap (invert product);
      fst <$> foldM (batch_suffix values) (products, inverse) (rev (seq 0 (length values)))
  end.
End arithmetic.

(** ** Vector kernels ([blas.rs])

    A slice the code updates in place is an argument and a result. *)
Module blas.
Section blas.
Context {E : Type} `{AlgebraicField E} {Err : Type}.
Local Open Scope fe_scope.

Definition dot_pairs (pairs : list (E * E)) : E :=
  foldl (fun r '(xi, yi) => fma r xi yi) 0 pairs.
Definition dot (x y : list E) : outcome Err E :=
  rust_assert (Nat.eqb (length x) (length y)) ;;
  mret (dot_pairs (zip x y)).
Definition dot1 (x : list E) : E := foldl fadd 0 x.
Definition scale (y : list E) (a : E) : list E := map (fun yi => yi * a) y.

(** The loops over two slices of one length. *)
Definition zip_update (g : E -> E -> E) (y x : list E) : outcome Err (list E) :=
  rust_assert (Nat.eqb (length y) (length x)) ;;
  mret (zip_with g y x).
Definition axpy (y : list E) (a : E) (x : list E) := zip_update (fun yi xi => fma yi a xi) y x.
Definition add (y x : list E) := zip_update fadd y x.
Definition sub (y x : list E) := zip_update fsub y x.
Definition mul (y x : list E) := zip_update fmul y x.
Definition axpby (y : list E) (a : E) (x : list E) (b : E) :=
  zip_update (fun yi xi => fma (b * xi) a yi) y x.

(** The loops over three slices. *)
Definition zip_update3 (g : E -> E -> E -> E) (y a x : list E) : outcome Err (list E) :=
  rust_assert (Nat.eqb (length y) (length a)) ;;
  rust_assert (Nat.eqb (length y) (length x)) ;;
  foldM (fun y i =>
    yi ← index y i; ai ← index a i; xi ← index x i;
    store y i (g yi ai xi)) y (seq 0 (length y)).
Definition vaxpy (y a x : list E) := zip_update3 fma y a x.
Definition vymax (y a x : list E) := zip_update3 fnms y a x.

Definition equal `{EqDecision E} (x y : list E) : outcome Err bool :=
  rust_assert (Nat.eqb (length x) (length y)) ;;
  mret (forallb (fun '(xi, yi) => bool_decide (xi = yi)) (zip x y)).
Definition equal0 (x : list E) : bool := forallb is_zero x.
Definition gather {T} (idx : list nat) (src : list T) : outcome Err (list T) :=
  foldM (fun dst i => s ← index src i; mret (dst ++ [s])) [] idx.
Definition clear (dst : list E) : list E := map (fun _ => 0) dst.
Definition add_const (y : list E) (c : E) : list E := map (fun yi => yi + c) y.
End blas.
End blas.

(** ** Interpolation ([poly.rs])

    [Poly<N, W, F>] is its array of [N] evaluations (or coefficients). *)
Class InterpolationField (E : Type) := {
  poly_evaluation_point : nat -> option E;
  newton_denominator : nat -> nat -> option E
}.

(** The first [n] points are distinct, start with 0 and 1, and the tabulated
    denominators are the inverses of their differences. *)
Class InterpolationFieldLaws (E : Type) `{AlgebraicField E, InterpolationField E} (n : nat) := {
  point_0 : 0 < n -> poly_evaluation_point 0 = Some fzero;
  point_1 : 1 < n -> poly_evaluation_point 1 = Some fone;
  point_defined k : k < n -> is_Some (poly_evaluation_point k);
  newton_denominator_spec k i a b :
    1 <= i <= k -> k < n ->
    poly_evaluation_point k = Some a -> poly_evaluation_point (k - i) = Some b ->
    exists d, newton_denominator k i = Some d /\ fmul (fsub a b) d = fone
}.

Module Poly.
Section Poly.
Context {E : Type} `{AlgebraicField E} `{InterpolationField E} {Err : Type}.
Local Open Scope fe_scope.

Definition zero (n : nat) : list E := replicate n 0.

(** [for i in 0..N { f.sub(&mut self.evaluations[i], &y.evaluations[i]) }] *)
Definition sub_in_place (p y : list E) : list E := zip_with fsub p y.
Definition add (p y : list E) : list E := zip_with fadd p y.

(** [for i in (0..(N - 1)).rev()] from the last coefficient. *)
Definition horner (step : E -> nat -> outcome Err E) (p : list E) : outcome Err E :=
  rust_assert (Nat.ltb 0 (length p)) ;;
  e ← index p (length p - 1);
  foldM step e (rev (seq 0 (length p - 1))).

Definition eval_monomial (p : list E) (x : E) : outcome Err E :=
  horner (fun e i => c ← index p i; mret (e * x + c)) p.

(** The body of the double loop: divide one difference. *)
Definition newton_step (i : nat) (p : list E) (k : nat) : outcome Err (list E) :=
  prev ← index p (k - 1);
  cur ← index p k;
  denom ← unwrap (newton_denominator k i);
  store p k ((cur - prev) * denom).
(** [for k in (i..N).rev()] *)
Definition newton_pass (n : nat) (p : list E) (i : nat) : outcome Err (list E) :=
  foldM (newton_step i) p (rev (seq i (n - i))).
Definition newton_of_lagrange (p : list E) : outcome Err (list E) :=
  foldM (newton_pass (length p)) p (seq 1 (length p - 1)).

Definition newton_eval_step (p : list E) (x : E) (e : E) (i : nat) : outcome Err E :=
  pt ← unwrap (poly_evaluation_point i);
  c ← index p i;
  mret (e * (x - pt) + c).
Definition eval_newton (p : list E) (x : E) : outcome Err E :=
  horner (newton_eval_step p x) p.

Definition eval_lagrange (p : list E) (x : E) : outcome Err E :=
  tmp ← newton_of_lagrange p;
  eval_newton tmp x.
End Poly.
End Poly.

Module LagrangeBasis.
Section LagrangeBasis.
Context {E : Type} `{AlgebraicField E} `{InterpolationField E} {Err : Type}.
Local Open Scope fe_scope.

(** The [k]-th Kronecker delta on [n] points. *)
Definition delta (n k : nat) : list E := map (fun i => if Nat.eqb i k then 1 else 0) (seq 0 n).

(** [delta_in_newton_basis] *)
Definition new (n : nat) : outcome Err (list (list E)) :=
  foldM (fun ds k => d ← Poly.newton_of_lagrange (delta n k); mret (ds ++ [d])) [] (seq 0 n).

Definition coef (basis : list (list E)) (x : E) : outcome Err (list E) :=
  foldM (fun c d => e ← Poly.eval_newton d x; mret (c ++ [e])) [] basis.
End LagrangeBasis.
End LagrangeBasis.
