(* ===== verification/FieldFacts.v ===== *)
(** * Facts about fields, vector kernels and interpolation *)
From stdpp Require Import prelude.
From Stdlib Require Import Lia NArith Ring Ring_theory.
From S2P Require Import Prelude Words Interfaces Field.

Local Open Scope fe_scope.

(** ** Finite sums and zero-extended vectors *)
Section sums.
Context {E : Type} `{AlgebraicField E}.

Fixpoint fsum (l : list E) : E :=
  match l with [] => 0 | a :: l' => a + fsum l' end.
(** The sum of [g] over a list of indices. *)
Definition sigma {I} (l : list I) (g : I -> E) : E := fsum (map g l).

(** A vector is conceptually extended by zeros. *)
Definition at0 (w : list E) (i : nat) : E := default 0 (w !! i).
End sums.

(** [tab g n] is the array [[g 0; ..; g (n - 1)]]. *)
Definition tab {A} (g : nat -> A) (n : nat) : list A := map g (seq 0 n).

Section tab.
Context {A : Type}.
Implicit Types g : nat -> A.

Lemma length_tab g n : length (tab g n) = n.
Proof. unfold tab. by rewrite length_map, length_seq. Qed.
Lemma lookup_tab g n i : i < n -> tab g n !! i = Some (g i).
Proof.
  intros Hi. unfold tab.
  rewrite list_lookup_fmap, lookup_seq_lt by done. done.
Qed.
Lemma lookup_tab_ge g n i : n <= i -> tab g n !! i = None.
Proof. intros Hi. apply lookup_ge_None. by rewrite length_tab. Qed.
Lemma tab_ext g g' n : (forall i, i < n -> g i = g' i) -> tab g n = tab g' n.
Proof.
  intros Hg. apply list_eq. intros i. destruct (decide (i < n)).
  - rewrite !lookup_tab by done. by rewrite Hg.
  - by rewrite !lookup_tab_ge by lia.
Qed.
Lemma tab_lookup (l : list A) (d : A) : tab (fun i => default d (l !! i)) (length l) = l.
Proof.
  apply list_eq. intros i. destruct (decide (i < length l)) as [Hi|Hi].
  - rewrite lookup_tab by done. destruct (lookup_lt_is_Some_2 l i Hi) as [x Hx]. by rewrite Hx.
  - rewrite lookup_tab_ge by lia. symmetry. apply lookup_ge_None. lia.
Qed.
Lemma insert_tab g n k a :
  <[k := a]> (tab g n) = tab (fun i => if Nat.eqb i k then a else g i) n.
Proof.
  apply list_eq. intros i. destruct (decide (i < n)).
  - rewrite lookup_tab by done. destruct (Nat.eqb_spec i k) as [->|].
    + rewrite list_lookup_insert_eq by (by rewrite length_tab). done.
    + rewrite list_lookup_insert_ne by done. by rewrite lookup_tab.
  - rewrite lookup_tab_ge by lia. apply lookup_ge_None. rewrite length_insert, length_tab. lia.
Qed.
Lemma tab_S g n : tab g (S n) = tab g n ++ [g n].
Proof. unfold tab. rewrite seq_S, map_app. done. Qed.
Lemma tab_0 g n : tab g (S n) = g 0%nat :: tab (fun i => g (S i)) n.
Proof. unfold tab. cbn [seq map]. by rewrite <- seq_shift, map_map. Qed.
Lemma index_tab {Err} g n i : i < n -> @index Err A (tab g n) i = Ok (g i).
Proof. intros Hi. unfold index. by rewrite lookup_tab. Qed.
Lemma store_tab {Err} g n k a :
  k < n -> @store Err A (tab g n) k a = Ok (tab (fun i => if Nat.eqb i k then a else g i) n).
Proof. intros Hk. rewrite store_Ok, insert_tab; [done|by rewrite length_tab]. Qed.
End tab.

Section facts.
Context {E : Type} `{AlgebraicFieldLaws E}.
Add Ring field_ring_facts : (field_ring (E:=E)).

Lemma fsum_app (l1 l2 : list E) : fsum (l1 ++ l2) = fsum l1 + fsum l2.
Proof. induction l1 as [|a l1 IH]; cbn; [ring|rewrite IH; ring]. Qed.

Lemma sigma_ext {I} (l : list I) (g g' : I -> E) :
  (forall i, i ∈ l -> g i = g' i) -> sigma l g = sigma l g'.
Proof.
  intros Hg. unfold sigma. f_equal. apply map_ext_in. intros i Hi. apply Hg.
  by apply list_elem_of_In.
Qed.
Lemma sigma_app {I} (l1 l2 : list I) (g : I -> E) :
  sigma (l1 ++ l2) g = sigma l1 g + sigma l2 g.
Proof. unfold sigma. rewrite map_app. apply fsum_app. Qed.
Lemma sigma_cons {I} i (l : list I) (g : I -> E) : sigma (i :: l) g = g i + sigma l g.
Proof. reflexivity. Qed.
Lemma sigma_add {I} (l : list I) (g g' : I -> E) :
  sigma l (fun i => g i + g' i) = sigma l g + sigma l g'.
Proof. induction l as [|i l IH]; [cbn; ring|]. rewrite !sigma_cons, IH. ring. Qed.
Lemma sigma_mul {I} (l : list I) (g : I -> E) c :
  sigma l (fun i => c * g i) = c * sigma l g.
Proof. induction l as [|i l IH]; [cbn; ring|]. rewrite !sigma_cons, IH. ring. Qed.
Lemma sigma_zero {I} (l : list I) (g : I -> E) :
  (forall i, i ∈ l -> g i = 0) -> sigma l g = 0.
Proof.
  induction l as [|i l IH]; intros Hg; [done|]. rewrite sigma_cons, Hg, IH; [ring|..].
  - intros; apply Hg; set_solver.
  - set_solver.
Qed.
Lemma sigma_map {I J} (h : I -> J) (l : list I) (g : J -> E) :
  sigma (map h l) g = sigma l (fun i => g (h i)).
Proof. unfold sigma. by rewrite map_map. Qed.
Lemma sigma_swap {I J} (l : list I) (l' : list J) (g : I -> J -> E) :
  sigma l (fun i => sigma l' (g i)) = sigma l' (fun j => sigma l (fun i => g i j)).
Proof.
  induction l as [|i l IH]; [symmetry; by apply sigma_zero|].
  rewrite sigma_cons, IH, <- sigma_add. done.
Qed.
(** A sum in which one index counts. *)
Lemma sigma_single n k (g : nat -> E) :
  k < n -> (forall i, i <> k -> g i = 0) -> sigma (seq 0 n) g = g k.
Proof.
  intros Hk Hg. replace n with (k + S (n - k - 1))%nat by lia.
  rewrite seq_app, sigma_app. cbn [seq]. rewrite sigma_cons, !sigma_zero; [cbn; ring|..];
    intros i Hi; apply Hg; apply elem_of_seq in Hi; cbn in *; lia.
Qed.
(** Even and odd indices. *)
Lemma sigma_pairs n (g : nat -> E) :
  sigma (seq 0 (2 * n)) g = sigma (seq 0 n) (fun i => g (2 * i)%nat + g (2 * i + 1)%nat).
Proof.
  induction n as [|n IH]; [done|].
  replace (2 * S n)%nat with (2 * n + 1 + 1)%nat by lia.
  rewrite !seq_app, !sigma_app, IH. replace (S n) with (n + 1)%nat by lia.
  rewrite seq_app, sigma_app. cbn [seq]. rewrite !sigma_cons. cbn.
  replace (n + (n + 0))%nat with (2 * n)%nat by lia. ring.
Qed.
(** Terms beyond the end that vanish may be dropped. *)
Lemma sigma_seq_extend m n (g : nat -> E) :
  m <= n -> (forall i, m <= i -> g i = 0) -> sigma (seq 0 n) g = sigma (seq 0 m) g.
Proof.
  intros Hm Hg. replace n with (m + (n - m))%nat by lia. rewrite seq_app, sigma_app.
  rewrite (sigma_zero (seq (0 + m) (n - m))); [ring|].
  intros i Hi. apply elem_of_seq in Hi. apply Hg. lia.
Qed.

Lemma at0_lt (w : list E) i : i < length w -> w !! i = Some (at0 w i).
Proof.
  intros Hi. destruct (lookup_lt_is_Some_2 w i Hi) as [x Hx]. unfold at0. by rewrite Hx.
Qed.
Lemma at0_ge (w : list E) i : length w <= i -> at0 w i = 0.
Proof. intros Hi. unfold at0. by rewrite lookup_ge_None_2. Qed.
Lemma index_at0 {Err} (w : list E) i : i < length w -> @index Err E w i = Ok (at0 w i).
Proof. intros Hi. unfold index. by rewrite at0_lt. Qed.
Lemma tab_at0 (w : list E) : tab (at0 w) (length w) = w.
Proof. apply tab_lookup. Qed.
Lemma at0_tab (g : nat -> E) n i : i < n -> at0 (tab g n) i = g i.
Proof. intros Hi. unfold at0. by rewrite lookup_tab. Qed.
Lemma at0_insert (w : list E) i j x :
  i < length w -> at0 (<[i := x]> w) j = if Nat.eqb j i then x else at0 w j.
Proof.
  intros Hi. unfold at0. destruct (Nat.eqb_spec j i) as [->|Hne].
  - by rewrite list_lookup_insert_eq.
  - by rewrite list_lookup_insert_ne.
Qed.
Lemma at0_replicate n i : at0 (replicate n 0) i = 0.
Proof.
  unfold at0. destruct (decide (i < n)).
  - by rewrite lookup_replicate_2.
  - rewrite lookup_ge_None_2; [done|]. rewrite length_replicate. lia.
Qed.

(** *** Dot products *)
Lemma foldl_fma (ps : list (E * E)) r :
  foldl (fun r '(xi, yi) => fma r xi yi) r ps = r + sigma ps (fun p => p.1 * p.2).
Proof.
  revert r; induction ps as [|[x y] ps IH]; intros r; [cbn; ring|].
  cbn [foldl]. rewrite IH, sigma_cons. unfold fma. cbn. ring.
Qed.
Lemma dot_pairs_spec (ps : list (E * E)) : blas.dot_pairs ps = sigma ps (fun p => p.1 * p.2).
Proof. unfold blas.dot_pairs. rewrite foldl_fma. ring. Qed.
Lemma sigma_zip (x y : list E) n :
  length x = n -> length y = n ->
  sigma (zip x y) (fun p => p.1 * p.2) = sigma (seq 0 n) (fun i => at0 x i * at0 y i).
Proof.
  revert y n; induction x as [|a x IH]; intros [|b y] n Hx Hy; cbn in Hx, Hy; subst n; try done.
  cbn [zip zip_with seq]. rewrite <- (seq_shift _ 0), !sigma_cons, sigma_map. cbn [fst snd].
  f_equal. apply IH; [done|lia].
Qed.
Lemma dot_spec {Err} (x y : list E) :
  length x = length y ->
  @blas.dot E _ Err x y = Ok (sigma (seq 0 (length y)) (fun i => at0 x i * at0 y i)).
Proof.
  intros Hl. unfold blas.dot. rewrite (proj2 (Nat.eqb_eq _ _) Hl). cbn [rust_assert].
  rewrite bind_Ok. rewrite dot_pairs_spec. erewrite sigma_zip by done. done.
Qed.

(** *** Division *)
Lemma invert_Some (e i : E) : invert e = Some i -> e <> 0 /\ e * i = 1.
Proof.
  intros Hi. assert (e <> 0) as Hne by (intros ->; by rewrite invert_zero in Hi).
  split; [done|]. destruct (invert_spec e Hne) as (j & Hj & Hmul). congruence.
Qed.
Lemma mul_eq_zero (a b : E) : a * b = 0 -> a <> 0 -> b = 0.
Proof.
  intros Hab Ha. destruct (invert_spec a Ha) as (i & _ & Hi).
  transitivity (i * (a * b)); [transitivity ((a * i) * b); [rewrite Hi; ring|ring]|].
  rewrite Hab. ring.
Qed.
Lemma mul_neq_zero (a b : E) : a <> 0 -> b <> 0 -> a * b <> 0.
Proof. intros Ha Hb Hab. by apply Hb, (mul_eq_zero a). Qed.
Lemma is_zero_false (e : E) : is_zero e = false <-> e <> 0.
Proof. rewrite <- not_true_iff_false, is_zero_spec. done. Qed.

(** *** Powers *)
Fixpoint fpow (b : E) (n : nat) : E := match n with O => 1 | S n' => b * fpow b n' end.
Lemma fpow_double b n : fpow b (2 * n) = fpow (b * b) n.
Proof.
  induction n as [|n IH]; [done|]. replace (2 * S n)%nat with (S (S (2 * n))) by lia.
  cbn [fpow]. rewrite IH. ring.
Qed.
Lemma pow_loop_spec fuel result base e :
  (e < 2 ^ N.of_nat fuel)%N ->
  pow_loop fuel result base e = result * fpow base (N.to_nat e).
Proof.
  revert result base e; induction fuel as [|fuel IH]; intros result base e He; cbn [pow_loop].
  { replace e with 0%N by (cbn in He; lia). change (N.to_nat 0) with 0%nat. cbn. ring. }
  destruct (N.eqb_spec e 0) as [->|Hne]; [change (N.to_nat 0) with 0%nat; cbn; ring|].
  rewrite Nat2N.inj_succ, N.pow_succ_r' in He.
  rewrite N.shiftr_div_pow2, N.pow_1_r.
  rewrite IH by (by apply N.Div0.div_lt_upper_bound).
  rewrite <- fpow_double. replace (N.land e 1) with (e mod 2)%N by (symmetry; apply (N.land_ones e 1)).
  pose proof (N.mod_lt e 2 ltac:(lia)). pose proof (N.div_mod e 2 ltac:(lia)) as Hdm.
  destruct (N.eqb_spec (e mod 2) 0) as [E0|E0]; cbn [negb].
  - do 2 f_equal. dlia.
  - replace (N.to_nat e) with (S (2 * N.to_nat (e / 2))) by dlia. cbn [fpow]. ring.
Qed.

(** *** Batch inversion *)
Fixpoint prefix_product (vs : list E) (i : nat) : E :=
  match i with O => 1 | S i' => prefix_product vs i' * at0 vs i' end.

Lemma prefix_product_nonzero vs i :
  Forall (fun v => v <> 0) vs -> i <= length vs -> prefix_product vs i <> 0.
Proof.
  intros Hvs. induction i as [|i IH]; intros Hi; cbn; [apply one_neq_zero|].
  apply mul_neq_zero; [apply IH; lia|].
  rewrite Forall_lookup in Hvs. apply (Hvs i). apply at0_lt. lia.
Qed.

Lemma batch_prefix_spec {Err} vs :
  Forall (fun v => v <> 0) vs ->
  foldM (@batch_prefix E _ Err) ([], 1) vs
  = Ok (tab (prefix_product vs) (length vs), prefix_product vs (length vs)).
Proof.
  intros Hvs. enough (forall rest done_, vs = done_ ++ rest ->
    foldM (@batch_prefix E _ Err) (tab (prefix_product vs) (length done_), prefix_product vs (length done_)) rest
    = Ok (tab (prefix_product vs) (length vs), prefix_product vs (length vs))) as Hg
    by (by apply (Hg vs [])).
  induction rest as [|v rest IH]; intros done_ Hd.
  { rewrite app_nil_r in Hd. subst. done. }
  assert (at0 vs (length done_) = v) as Hv.
  { subst vs. unfold at0. by rewrite lookup_app_r, Nat.sub_diag. }
  cbn [foldM batch_prefix]. rewrite (proj2 (is_zero_false v)).
  2:{ rewrite Forall_forall in Hvs. apply Hvs. set_solver. }
  cbn [negb rust_assert]. mstep. rewrite <- (IH (done_ ++ [v])) by (by rewrite <- app_assoc).
  rewrite length_app. cbn [length]. rewrite Nat.add_1_r, tab_S. cbn [prefix_product].
  by rewrite Hv.
Qed.

Lemma batch_suffix_ok {Err} vs g inv i :
  i < length vs ->
  @batch_suffix E _ Err vs (tab g (length vs), inv) i
  = Ok (tab (fun j => if Nat.eqb j i then inv * g i else g j) (length vs), inv * at0 vs i).
Proof.
  intros Hi. unfold batch_suffix. rewrite index_tab by done. mstep.
  rewrite store_tab by done. mstep. by rewrite index_at0.
Qed.

Lemma batch_suffix_spec {Err} vs m g inv :
  m <= length vs ->
  (forall j, j < m -> g j = prefix_product vs j) ->
  (forall j, m <= j < length vs -> at0 vs j * g j = 1) ->
  prefix_product vs m * inv = 1 ->
  exists h last, foldM (@batch_suffix E _ Err vs) (tab g (length vs), inv) (rev (seq 0 m))
    = Ok (tab h (length vs), last) /\ forall j, j < length vs -> at0 vs j * h j = 1.
Proof.
  revert g inv; induction m as [|m IH]; intros g inv Hm Hlo Hhi Hinv.
  { exists g, inv. split; [done|]. intros. apply Hhi. lia. }
  rewrite seq_S, rev_app_distr. cbn [rev app foldM].
  rewrite batch_suffix_ok by lia. mstep. cbn [prefix_product] in Hinv. apply IH.
  - lia.
  - intros j Hj. destruct (Nat.eqb_spec j (0 + m)); [cbn in *; lia|]. apply Hlo. lia.
  - intros j Hj. destruct (Nat.eqb_spec j (0 + m)) as [->|]; cbn [Nat.add] in *.
    + rewrite Hlo by lia. rewrite <- Hinv. ring.
    + apply Hhi. lia.
  - cbn [Nat.add]. rewrite <- Hinv. ring.
Qed.

Lemma batch_inverse_spec {Err} vs :
  Forall (fun v => v <> 0) vs ->
  exists rs, @batch_inverse E _ Err vs = Ok rs /\ Forall2 (fun v r => v * r = 1) vs rs.
Proof.
  intros Hvs. unfold batch_inverse. rewrite batch_prefix_spec by done. rewrite bind_Ok. cbn beta iota.
  destruct (invert_spec (prefix_product vs (length vs))) as (inv & Hinv & Hmul).
  { by apply prefix_product_nonzero. }
  destruct (batch_suffix_spec (Err:=Err) vs (length vs) (prefix_product vs) inv)
    as (h & last & Hrun & Hh); [done|done|lia|done|].
  exists (tab h (length vs)). split.
  - destruct vs as [|v vs']; [done|]. rewrite Hinv. cbn [unwrap]. mstep. by rewrite Hrun.
  - apply Forall2_same_length_lookup. split; [by rewrite length_tab|].
    intros i x y Hx Hy. pose proof (lookup_lt_Some _ _ _ Hx) as Hlt.
    rewrite lookup_tab in Hy by done. injection Hy as <-.
    rewrite <- (Hh i Hlt). unfold at0. by rewrite Hx.
Qed.
End facts.
