(* ===== verification/Interpolation.v ===== *)
(** * Newton interpolation

    [newton_of_lagrange] computes divided differences in place.  On the values
    of a polynomial at the field's points it recovers the Newton coefficients,
    so that [eval_lagrange] and the [LagrangeBasis] weights evaluate the
    polynomial anywhere. *)
From stdpp Require Import prelude.
From Stdlib Require Import Lia NArith Ring Ring_theory.
From S2P Require Import Prelude Words Interfaces Field FieldFacts.

Local Open Scope fe_scope.

Section interpolation.
Context {E : Type} `{AlgebraicFieldLaws E} `{InterpolationField E}.
Context (N0 : nat) `{!InterpolationFieldLaws E N0}.
Add Ring field_ring_interpolation : (field_ring (E:=E)).

(** The value of a polynomial given by its coefficients, lowest first. *)
Fixpoint mono (cs : list E) (x : E) : E :=
  match cs with [] => 0 | c :: cs' => c + x * mono cs' x end.

Definition pt (k : nat) : E := default 0 (poly_evaluation_point k).
Definition nd (k i : nat) : E := default 0 (newton_denominator k i).

Lemma point_pt k : k < N0 -> poly_evaluation_point k = Some (pt k).
Proof. intros Hk. destruct (point_defined k Hk) as [x Hx]. unfold pt. by rewrite Hx. Qed.
Lemma nd_spec k i :
  1 <= i <= k -> k < N0 ->
  newton_denominator k i = Some (nd k i) /\ (pt k - pt (k - i)) * nd k i = 1.
Proof.
  intros Hi Hk. edestruct (newton_denominator_spec k i) as (d & Hd & Hmul); eauto.
  - apply point_pt. lia.
  - apply point_pt. lia.
  - unfold nd. rewrite Hd. done.
Qed.

(** Divided differences over the window of [i + 1] points from [j]. *)
Fixpoint dd (f : nat -> E) (i j : nat) : E :=
  match i with
  | O => f j
  | S i' => (dd f i' (S j) - dd f i' j) * nd (S (j + i')) (S i')
  end.

Lemma dd_ext f g i j :
  (forall k, j <= k <= j + i -> f k = g k) -> dd f i j = dd g i j.
Proof.
  revert j; induction i as [|i IH]; intros j Hfg; cbn; [apply Hfg; lia|].
  rewrite (IH (S j)), (IH j); [done|..]; intros; apply Hfg; lia.
Qed.
Lemma dd_add f g i j : dd (fun k => f k + g k) i j = dd f i j + dd g i j.
Proof. revert j; induction i as [|i IH]; intros j; cbn; [ring|]. rewrite !IH. ring. Qed.
Lemma dd_scale c f i j : dd (fun k => c * f k) i j = c * dd f i j.
Proof. revert j; induction i as [|i IH]; intros j; cbn; [ring|]. rewrite !IH. ring. Qed.
Lemma dd_const c i j : dd (fun _ => c) (S i) j = 0.
Proof.
  revert j; induction i as [|i IH]; intros j; [cbn; ring|].
  cbn [dd] in *. rewrite !IH. ring.
Qed.

(** Leibniz' rule for a linear factor. *)
Lemma dd_linear a g i j :
  (j + i < N0)%nat ->
  dd (fun k => (pt k - a) * g k) i j
  = (pt j - a) * dd g i j + match i with O => 0 | S i' => dd g i' (S j) end.
Proof.
  revert j; induction i as [|i IH]; intros j Hj; [cbn; ring|].
  cbn [dd]. rewrite (IH (S j)), (IH j) by lia.
  destruct (nd_spec (S (j + i)) (S i)) as [_ Hn]; [lia|lia|].
  replace (S (j + i) - S i)%nat with j in Hn by lia.
  destruct i as [|i].
  - cbn [dd] in *. rewrite Nat.add_0_r in *.
    transitivity ((pt j - a) * ((g (S j) - g j) * nd (S j) 1)
                  + g (S j) * ((pt (S j) - pt j) * nd (S j) 1)); [ring|].
    rewrite Hn. ring.
  - destruct (nd_spec (S (S j + i)) (S i)) as [_ Hn']; [lia|lia|].
    replace (S (S j + i) - S i)%nat with (S j) in Hn' by lia.
    replace (S (j + S i)) with (S (S j + i)) in * by lia.
    cbn [dd] in *.
    remember (dd g i (S (S j))) as u. remember (dd g i (S j)) as v. remember (dd g i j) as w.
    remember (nd (S (S j + i)) (S i)) as n1. remember (nd (S (S j + i)) (S (S i))) as n2.
    remember (nd (S (j + i)) (S i)) as n3.
    remember (pt (S (S j + i))) as p2. remember (pt (S j)) as p1.
    transitivity ((pt j - a) * (((u - v) * n1 - (v - w) * n3) * n2)
      + (p1 - pt j) * ((u - v) * n1) * n2 + (u - v) * 1 * n2); [ring|].
    rewrite <- Hn'.
    transitivity ((pt j - a) * (((u - v) * n1 - (v - w) * n3) * n2)
      + ((p2 - pt j) * n2) * ((u - v) * n1)); [ring|].
    rewrite Hn. ring.
Qed.

(** The polynomial with Newton coefficients [cs] from the point [j]. *)
Fixpoint newt (cs : list E) (j : nat) (x : E) : E :=
  match cs with [] => 0 | c :: cs' => c + (x - pt j) * newt cs' (S j) x end.

(** Divided differences recover the Newton coefficients. *)
Lemma dd_newt cs i j :
  (j + i < N0)%nat -> dd (fun k => newt cs j (pt k)) i j = at0 cs i.
Proof.
  revert i j; induction cs as [|c cs IH]; intros i j Hj.
  - destruct i; [done|]. cbn [newt]. by rewrite dd_const.
  - cbn [newt]. rewrite dd_add, dd_linear by done.
    destruct i as [|i]; [unfold at0; cbn; ring|].
    rewrite dd_const, IH by lia. change (at0 (c :: cs) (S i)) with (at0 cs i). ring.
Qed.

(** Every polynomial has Newton coefficients. *)
Lemma newt_mul_x ds j c :
  exists ds', length ds' = S (length ds) /\ forall x, newt ds' j x = c + x * newt ds j x.
Proof.
  revert j c; induction ds as [|d ds IH]; intros j c.
  - exists [c]. split; [done|]. intros x. cbn. ring.
  - destruct (IH (S j) d) as (ds' & Hlen & Hds).
    exists ((c + pt j * d) :: ds'). split; [cbn; lia|].
    intros x. cbn [newt]. rewrite Hds. ring.
Qed.
Lemma mono_newt cs j :
  exists ds, length ds = length cs /\ forall x, newt ds j x = mono cs x.
Proof.
  induction cs as [|c cs (ds & Hlen & Hds)]; [by exists []|].
  destruct (newt_mul_x ds j c) as (ds' & Hlen' & Hds').
  exists ds'. split; [cbn; lia|]. intros x. cbn [mono]. by rewrite Hds', Hds.
Qed.

(** *** The loops *)
Section loops.
Context {Err : Type}.

Lemma newton_step_tab f n i k :
  1 <= i <= k -> k < n -> n <= N0 ->
  @Poly.newton_step E _ _ Err i (tab f n) k
  = Ok (tab (fun j => if Nat.eqb j k then (f k - f (k - 1)%nat) * nd k i else f j) n).
Proof.
  intros Hi Hk Hn. unfold Poly.newton_step.
  rewrite !index_tab by lia. mstep.
  destruct (nd_spec k i) as [-> _]; [done|lia|]. cbn [unwrap]. mstep.
  by rewrite store_tab.
Qed.

Lemma newton_pass_tab f n i :
  1 <= i <= n -> n <= N0 ->
  @Poly.newton_pass E _ _ Err n (tab f n) i
  = Ok (tab (fun k => if Nat.leb i k then (f k - f (k - 1)%nat) * nd k i else f k) n).
Proof.
  intros Hi Hn. unfold Poly.newton_pass.
  set (g m k := if Nat.leb (i + m) k then (f k - f (k - 1)%nat) * nd k i else f k).
  enough (forall m, i + m <= n ->
    foldM (@Poly.newton_step E _ _ Err i) (tab (g m) n) (rev (seq i m)) = Ok (tab (g 0%nat) n)) as Hg.
  { etransitivity; [|etransitivity; [apply (Hg (n - i)%nat); lia|]].
    - f_equal. apply tab_ext. intros k Hk. unfold g. destruct (Nat.leb_spec (i + (n - i)) k); [lia|done].
    - f_equal. apply tab_ext. intros k Hk. unfold g. by rewrite Nat.add_0_r. }
  induction m as [|m IH]; intros Hm; [done|].
  rewrite seq_S, rev_app_distr. cbn [rev app foldM].
  rewrite newton_step_tab by lia. mstep. rewrite <- IH by lia.
  f_equal. apply tab_ext. intros k Hk. unfold g.
  destruct (Nat.eqb_spec k (i + m)) as [->|];
    repeat match goal with |- context [Nat.leb ?a ?b] => destruct (Nat.leb_spec a b) end;
    try lia; done.
Qed.

Lemma newton_of_lagrange_tab f n :
  n <= N0 ->
  @Poly.newton_of_lagrange E _ _ Err (tab f n) = Ok (tab (fun k => dd f k 0) n).
Proof.
  intros Hn. unfold Poly.newton_of_lagrange. rewrite length_tab.
  set (g m k := dd f (Nat.min m k) (k - Nat.min m k)).
  enough (forall m i, i + m <= n -> 1 <= i ->
    foldM (@Poly.newton_pass E _ _ Err n) (tab (g (i - 1)%nat) n) (seq i m)
    = Ok (tab (g (i + m - 1)%nat) n)) as Hg.
  { destruct n as [|n]; [done|]. specialize (Hg n 1%nat ltac:(lia) ltac:(lia)).
    replace (S n - 1)%nat with n by lia.
    replace (1 + n - 1)%nat with n in Hg by lia. replace (1 - 1)%nat with 0%nat in Hg by lia.
    etransitivity; [|etransitivity; [exact Hg|]].
    - f_equal. apply tab_ext. intros k Hk. unfold g. cbn. by rewrite Nat.sub_0_r.
    - f_equal. apply tab_ext. intros k Hk. unfold g.
      replace (Nat.min n k) with k by lia. by rewrite Nat.sub_diag. }
  induction m as [|m IH]; intros i Him Hi.
  { cbn [seq foldM]. do 3 f_equal. lia. }
  cbn [seq foldM]. rewrite newton_pass_tab by lia. mstep.
  replace (i + S m - 1)%nat with (S i + m - 1)%nat by lia.
  rewrite <- IH by lia. f_equal. apply tab_ext. intros k Hk. unfold g.
  destruct (Nat.leb_spec i k).
  - replace (Nat.min (i - 1) k) with (i - 1)%nat by lia.
    replace (Nat.min (i - 1) (k - 1)) with (i - 1)%nat by lia.
    replace (Nat.min (S i - 1) k) with (S (i - 1)) by lia.
    replace (S (k - S (i - 1))) with (k - (i - 1))%nat by lia.
    cbn [dd]. replace (S (k - S (i - 1))) with (k - (i - 1))%nat by lia.
    replace (k - 1 - (i - 1))%nat with (k - S (i - 1))%nat by lia.
    f_equal. f_equal; lia.
  - replace (Nat.min (i - 1) k) with k by lia. by replace (Nat.min (S i - 1) k) with k by lia.
Qed.

Lemma newton_eval_step_ok (p : list E) x e i :
  i < length p -> i < N0 ->
  @Poly.newton_eval_step E _ _ Err p x e i = Ok (e * (x - pt i) + at0 p i).
Proof.
  intros Hi HN. unfold Poly.newton_eval_step. rewrite (point_pt i) by done.
  cbn [unwrap]. mstep. by rewrite index_at0.
Qed.

(** [horner] as an ascending recursion. *)
Lemma horner_newt (p : list E) x :
  0 < length p <= N0 -> @Poly.eval_newton E _ _ Err p x = Ok (newt p 0 x).
Proof.
  intros Hp. unfold Poly.eval_newton, Poly.horner.
  rewrite (proj2 (Nat.ltb_lt _ _)) by lia. cbn [rust_assert]. mstep.
  rewrite index_at0 by lia. mstep.
  enough (forall m, m < length p ->
    foldM (@Poly.newton_eval_step E _ _ Err p x) (newt (drop m p) m x) (rev (seq 0 m))
    = Ok (newt p 0 x)) as Hg.
  { rewrite <- (Hg (length p - 1)%nat) by lia. f_equal.
    rewrite (drop_S _ (at0 p (length p - 1))) by (apply at0_lt; lia).
    rewrite drop_ge by lia. cbn. ring. }
  induction m as [|m IH]; intros Hm; [done|].
  rewrite seq_S, rev_app_distr. cbn [rev app foldM].
  rewrite newton_eval_step_ok by lia. mstep. rewrite <- IH by lia. f_equal.
  rewrite (drop_S p (at0 p m) m) by (apply at0_lt; lia). cbn. ring.
Qed.

(** The weighted sums the basis stands for. *)
Lemma newt_sigma {I} (l : list I) (c : I -> E) (g : I -> nat -> E) n j x :
  newt (tab (fun i => sigma l (fun k => c k * g k i)) n) j x
  = sigma l (fun k => c k * newt (tab (g k) n) j x).
Proof.
  revert g j; induction n as [|n IH]; intros g j.
  { cbn. symmetry. apply sigma_zero. intros. ring. }
  rewrite tab_0. cbn [newt]. rewrite (IH (fun k i => g k (S i))).
  rewrite <- sigma_mul, <- sigma_add. apply sigma_ext. intros k _.
  rewrite tab_0. cbn [newt]. ring.
Qed.
Lemma dd_sigma {I} (l : list I) (c : I -> E) (g : I -> nat -> E) i j :
  dd (fun k => sigma l (fun a => c a * g a k)) i j = sigma l (fun a => c a * dd (g a) i j).
Proof.
  induction l as [|a l IH].
  - destruct i; [done|]. apply (dd_const 0).
  - rewrite sigma_cons, <- IH, <- dd_scale, <- dd_add. apply dd_ext. intros. by rewrite sigma_cons.
Qed.
End loops.

Lemma eval_lagrange_mono {Err} cs x :
  0 < length cs <= N0 ->
  @Poly.eval_lagrange E _ _ Err (tab (fun k => mono cs (pt k)) (length cs)) x = Ok (mono cs x).
Proof.
  intros Hcs. destruct (mono_newt cs 0) as (ds & Hlen & Hds).
  unfold Poly.eval_lagrange. rewrite newton_of_lagrange_tab by lia. mstep.
  rewrite <- Hds, <- horner_newt by lia. f_equal. rewrite <- (tab_at0 ds), Hlen at 1.
  apply tab_ext. intros k Hk. rewrite <- (dd_newt ds k 0) by lia.
  apply dd_ext. intros. by rewrite Hds.
Qed.

(** *** [LagrangeBasis] *)
Definition delta_fn (k i : nat) : E := if Nat.eqb i k then 1 else 0.
(** The weight of the [k]-th value at [x]. *)
Definition weight (n k : nat) (x : E) : E := newt (tab (fun i => dd (delta_fn k) i 0) n) 0 x.

Lemma foldM_collect {Err X Y} (g : X -> outcome Err Y) (h : X -> Y) xs acc :
  (forall x, x ∈ xs -> g x = Ok (h x)) ->
  foldM (fun ys x => y ← g x; mret (ys ++ [y])) acc xs = Ok (acc ++ map h xs).
Proof.
  revert acc; induction xs as [|x xs IH]; intros acc Hg; cbn [foldM map].
  { by rewrite app_nil_r. }
  rewrite Hg by set_solver. mstep. rewrite IH by (intros; apply Hg; set_solver).
  by rewrite <- app_assoc.
Qed.

Lemma basis_new {Err} n :
  n <= N0 ->
  @LagrangeBasis.new E _ _ Err n
  = Ok (map (fun k => tab (fun i => dd (delta_fn k) i 0) n) (seq 0 n)).
Proof.
  intros Hn. unfold LagrangeBasis.new. rewrite (foldM_collect _ (fun k => tab (fun i => dd (delta_fn k) i 0) n)).
  - done.
  - intros k _. change (LagrangeBasis.delta n k) with (tab (delta_fn k) n).
    by apply newton_of_lagrange_tab.
Qed.

Lemma basis_coef {Err} n x :
  n <= N0 ->
  @LagrangeBasis.coef E _ _ Err (map (fun k => tab (fun i => dd (delta_fn k) i 0) n) (seq 0 n)) x
  = Ok (tab (fun k => weight n k x) n).
Proof.
  intros Hn. unfold LagrangeBasis.coef.
  rewrite (foldM_collect _ (fun d => newt d 0 x)).
  - rewrite map_map. done.
  - intros d Hd. apply list_elem_of_In, in_map_iff in Hd as (k & <- & Hk).
    apply list_elem_of_In, elem_of_seq in Hk. apply horner_newt. rewrite length_tab. lia.
Qed.

(** The weights evaluate every polynomial of degree below [n]. *)
Lemma weight_spec n cs x :
  length cs = n -> n <= N0 ->
  sigma (seq 0 n) (fun k => mono cs (pt k) * weight n k x) = mono cs x.
Proof.
  intros Hlen Hn. destruct (mono_newt cs 0) as (ds & Hdl & Hds).
  unfold weight. rewrite <- newt_sigma, <- Hds. f_equal.
  rewrite <- (tab_at0 ds), Hdl, Hlen. apply tab_ext. intros i Hi.
  rewrite <- dd_sigma, <- (dd_newt ds i 0) by lia. apply dd_ext. intros k Hk.
  rewrite Hds, (sigma_single _ k); unfold delta_fn.
  - rewrite Nat.eqb_refl. ring.
  - lia.
  - intros j Hj. destruct (Nat.eqb_spec k j); [congruence|ring].
Qed.
End interpolation.

(** ** Polynomial functions of bounded degree

    [is_poly n f]: the function [f] is a polynomial with [n] coefficients.
    Closure under the operations of the row arguments, and the existence of an
    interpolating polynomial through any values at distinct points. *)
Definition is_poly {E} `{AlgebraicField E} (n : nat) (f : E -> E) : Prop :=
  exists cs, length cs = n /\ forall x, f x = mono cs x.

Section poly.
Context {E : Type} `{AlgebraicFieldLaws E}.
Add Ring field_ring_poly : (field_ring (E:=E)).

Lemma is_poly_ext n (f g : E -> E) : (forall x, f x = g x) -> is_poly n f -> is_poly n g.
Proof. intros Hfg (cs & Hl & Hc). exists cs. split; [done|]. intros x. by rewrite <- Hfg. Qed.

Lemma mono_replicate n (x : E) : mono (replicate n 0) x = 0.
Proof. induction n as [|n IH]; cbn; [done|]. rewrite IH. ring. Qed.
Lemma mono_app cs ds (x : E) : mono (cs ++ ds) x = mono cs x + fpow x (length cs) * mono ds x.
Proof. induction cs as [|c cs IH]; cbn; [ring|]. rewrite IH. ring. Qed.
Lemma mono_map_mul a cs (x : E) : mono (map (fmul a) cs) x = a * mono cs x.
Proof. induction cs as [|c cs IH]; cbn; [ring|]. rewrite IH. ring. Qed.
Lemma mono_zip_add cs ds (x : E) :
  length cs = length ds -> mono (zip_with fadd cs ds) x = mono cs x + mono ds x.
Proof.
  revert ds; induction cs as [|c cs IH]; intros [|d ds] Hl; cbn in *; try lia; [ring|].
  rewrite IH by lia. ring.
Qed.

Lemma is_poly_weaken n m (f : E -> E) : n <= m -> is_poly n f -> is_poly m f.
Proof.
  intros Hnm (cs & Hl & Hc). exists (cs ++ replicate (m - n) 0). split.
  { rewrite length_app, length_replicate. lia. }
  intros x. rewrite mono_app, mono_replicate, Hc. ring.
Qed.
Lemma is_poly_zero n : is_poly n (fun _ : E => 0).
Proof. exists (replicate n 0). split; [apply length_replicate|]. intros x. by rewrite mono_replicate. Qed.
Lemma is_poly_const n (c : E) : is_poly (S n) (fun _ => c).
Proof.
  exists (c :: replicate n 0). split; [cbn; by rewrite length_replicate|].
  intros x. cbn. rewrite mono_replicate. ring.
Qed.
Lemma is_poly_add n (f g : E -> E) : is_poly n f -> is_poly n g -> is_poly n (fun x => f x + g x).
Proof.
  intros (cs & Hl & Hc) (ds & Hl' & Hd). exists (zip_with fadd cs ds). split.
  { rewrite length_zip_with. lia. }
  intros x. rewrite mono_zip_add by lia. by rewrite Hc, Hd.
Qed.
Lemma is_poly_scale n a (f : E -> E) : is_poly n f -> is_poly n (fun x => a * f x).
Proof.
  intros (cs & Hl & Hc). exists (map (fmul a) cs). split; [by rewrite length_map|].
  intros x. by rewrite mono_map_mul, Hc.
Qed.
Lemma is_poly_sub n (f g : E -> E) : is_poly n f -> is_poly n g -> is_poly n (fun x => f x - g x).
Proof.
  intros Hf Hg. eapply is_poly_ext; [|exact (is_poly_add _ _ _ Hf (is_poly_scale _ (0 - 1) _ Hg))].
  intros x. cbn. ring.
Qed.
Lemma is_poly_shift n (f : E -> E) : is_poly n f -> is_poly (S n) (fun x => x * f x).
Proof.
  intros (cs & Hl & Hc). exists (0 :: cs). split; [cbn; lia|]. intros x. cbn. rewrite Hc. ring.
Qed.
(** The variable moved by a constant. *)
Lemma is_poly_translate n a (f : E -> E) : is_poly n f -> is_poly n (fun x => f (x + a)).
Proof.
  intros (cs & <- & Hc). apply (is_poly_ext _ (fun x => mono cs (x + a))); [intros x; by rewrite Hc|].
  clear f Hc. induction cs as [|c cs IH]; [apply is_poly_zero|].
  cbn [length]. eapply is_poly_ext.
  2:{ apply is_poly_add; [apply (is_poly_const _ c)|].
      apply is_poly_add; [apply is_poly_shift, IH|].
      apply (is_poly_weaken (length cs)); [lia|]. apply is_poly_scale, IH. }
  intros x. cbn. instantiate (1 := a). ring.
Qed.
Lemma is_poly_mul n m (f g : E -> E) :
  is_poly n f -> is_poly (S m) g -> is_poly (n + m) (fun x => f x * g x).
Proof.
  intros (cs & <- & Hc) Hg. apply (is_poly_ext _ (fun x => mono cs x * g x)); [intros x; by rewrite Hc|].
  clear f Hc. induction cs as [|c cs IH]; cbn [length].
  { apply (is_poly_ext _ (fun _ => 0)); [intros x; cbn; ring|]. apply is_poly_zero. }
  eapply is_poly_ext.
  2:{ apply is_poly_add; [|apply is_poly_shift, IH].
      apply (is_poly_weaken (S m)); [lia|]. exact (is_poly_scale _ c _ Hg). }
  intros x. cbn. ring.
Qed.
Lemma is_poly_sigma {I} n (l : list I) (f : I -> E -> E) :
  (forall i, i ∈ l -> is_poly n (f i)) -> is_poly n (fun x => sigma l (fun i => f i x)).
Proof.
  induction l as [|i l IH]; intros Hl; [apply is_poly_zero|].
  apply (is_poly_ext _ (fun x => f i x + sigma l (fun i => f i x))); [done|].
  apply is_poly_add; [apply Hl|apply IH; intros; apply Hl]; set_solver.
Qed.

(** The product of the linear factors vanishes at its roots only. *)
Fixpoint root_product (us : list E) (x : E) : E :=
  match us with [] => 1 | u :: us' => (x - u) * root_product us' x end.
Lemma root_product_poly us : is_poly (S (length us)) (root_product us).
Proof.
  induction us as [|u us IH]; cbn [length root_product]; [apply is_poly_const|].
  eapply is_poly_ext.
  2:{ apply is_poly_sub; [apply is_poly_shift, IH|].
      apply (is_poly_weaken (S (length us))); [lia|]. exact (is_poly_scale _ u _ IH). }
  intros x. cbn. ring.
Qed.
Lemma root_product_root us u : u ∈ us -> root_product us u = 0.
Proof.
  induction us as [|v us IH]; intros Hu; [set_solver|]. cbn.
  apply elem_of_cons in Hu as [->|Hu]; [ring|]. rewrite IH by done. ring.
Qed.
Lemma root_product_nonzero us x : (forall u, u ∈ us -> x - u <> 0) -> root_product us x <> 0.
Proof.
  induction us as [|u us IH]; intros Hx; cbn; [apply one_neq_zero|].
  apply mul_neq_zero; [apply Hx; set_solver|apply IH; intros; apply Hx; set_solver].
Qed.

(** Any values at distinct points are interpolated. *)
Lemma interpolate_exists (u : nat -> E) (v : nat -> E) n :
  (forall i j, i < j < n -> u j - u i <> 0) ->
  exists f, is_poly n f /\ forall i, i < n -> f (u i) = v i.
Proof.
  induction n as [|n IH]; intros Hu; [exists (fun _ => 0); split; [apply is_poly_zero|lia]|].
  destruct IH as (f & Hf & Hv); [intros; apply Hu; lia|].
  assert (root_product (map u (seq 0 n)) (u n) <> 0) as Hz.
  { apply root_product_nonzero. intros w Hw. apply list_elem_of_In, in_map_iff in Hw as (k & <- & Hk).
    apply in_seq in Hk. apply Hu. lia. }
  destruct (invert_spec _ Hz) as (i & _ & Hi).
  exists (fun x => f x + (v n - f (u n)) * i * root_product (map u (seq 0 n)) x). split.
  - apply is_poly_add; [apply (is_poly_weaken n); [lia|done]|].
    apply is_poly_scale. pose proof (root_product_poly (map u (seq 0 n))) as Hp.
    by rewrite length_map, length_seq in Hp.
  - intros k Hk. destruct (decide (k = n)) as [->|].
    + transitivity (f (u n) + (v n - f (u n)) * (root_product (map u (seq 0 n)) (u n) * i)); [ring|].
      rewrite Hi. ring.
    + rewrite Hv by lia. rewrite root_product_root; [ring|].
      apply list_elem_of_In, in_map, in_seq. lia.
Qed.
End poly.
