(* ===== verification/Gf2_128Facts.v ===== *)
(** * GF(2^128) is a field

    The bitwise multiplication of [src/rust/core/algebra/src/gf2_128.rs] makes
    the 128-bit words a commutative ring under exclusive or, every nonzero
    word has the inverse [invert] computes, and the interpolation tables of
    [src/rust/runtime/algebra/src/gf2_128.rs] are sound.

    Multiplication by x is linear over exclusive or; every ring law follows
    from that and from its action on the basis of single bits.  For inverses:
    squaring is additive and 128 squarings are the identity (checked on x), so
    [a * invert a] is idempotent; the only idempotents are 0 and 1 because the
    linear map [a + a^2] has a left inverse up to the constant term, given as a
    table and checked on the basis. *)
From stdpp Require Import prelude strings.
From Stdlib Require Import Lia NArith Ring_theory.
From S2P Require Import Prelude Words Interfaces Gf2_128 Field.

Local Open Scope N_scope.

(** ** Linear maps over exclusive or *)
Definition linear (h : N -> N) : Prop := forall a b, h (N.lxor a b) = N.lxor (h a) (h b).

Fixpoint xsig (l : list nat) (f : nat -> N) : N :=
  match l with [] => 0 | i :: l' => N.lxor (f i) (xsig l' f) end.
Definition sel (b : N) (f : nat -> N) (i : nat) : N := if N.testbit b (N.of_nat i) then f i else 0.

Lemma lxor4 a b c d :
  N.lxor (N.lxor a b) (N.lxor c d) = N.lxor (N.lxor a c) (N.lxor b d).
Proof. rewrite !N.lxor_assoc. f_equal. rewrite <- !N.lxor_assoc. f_equal. apply N.lxor_comm. Qed.

Lemma linear_0 h : linear h -> h 0 = 0.
Proof. intros Hh. specialize (Hh 0 0). rewrite N.lxor_0_l in Hh. by rewrite Hh, N.lxor_nilpotent. Qed.
Lemma linear_xsig h l f : linear h -> h (xsig l f) = xsig l (fun i => h (f i)).
Proof.
  intros Hh. induction l as [|i l IH]; cbn; [by apply linear_0|]. by rewrite Hh, IH.
Qed.
Lemma linear_sel h b f i : linear h -> h (sel b f i) = sel b (fun i => h (f i)) i.
Proof. intros Hh. unfold sel. destruct (N.testbit _ _); [done|by apply linear_0]. Qed.
Lemma linear_iter h n : linear h -> linear (fun a => Nat.iter n h a).
Proof.
  intros Hh a b. induction n as [|n IH]; [done|]. rewrite !Nat.iter_succ, IH. apply Hh.
Qed.

Lemma xsig_ext l f g : (forall i, i ∈ l -> f i = g i) -> xsig l f = xsig l g.
Proof.
  induction l as [|i l IH]; intros Hfg; cbn; [done|].
  rewrite Hfg by set_solver. f_equal. apply IH. intros; apply Hfg; set_solver.
Qed.
Lemma xsig_lxor l f g : xsig l (fun i => N.lxor (f i) (g i)) = N.lxor (xsig l f) (xsig l g).
Proof. induction l as [|i l IH]; cbn; [done|]. rewrite IH. apply lxor4. Qed.
Lemma xsig_app l1 l2 f : xsig (l1 ++ l2) f = N.lxor (xsig l1 f) (xsig l2 f).
Proof. induction l1 as [|i l1 IH]; cbn; [by rewrite N.lxor_0_l|]. by rewrite IH, N.lxor_assoc. Qed.
Lemma sel_lxor b f g i :
  sel b (fun i => N.lxor (f i) (g i)) i = N.lxor (sel b f i) (sel b g i).
Proof. unfold sel. by destruct (N.testbit _ _). Qed.
Lemma sel_bits b c f i : sel (N.lxor b c) f i = N.lxor (sel b f i) (sel c f i).
Proof.
  unfold sel. rewrite N.lxor_spec.
  destruct (N.testbit b _), (N.testbit c _); cbn; by rewrite ?N.lxor_nilpotent, ?N.lxor_0_r, ?N.lxor_0_l.
Qed.

(** A word is the sum of its bits. *)
Definition pow2 (i : nat) : N := 2 ^ N.of_nat i.
Lemma testbit_bits n a k :
  N.testbit (xsig (seq 0 n) (sel a pow2)) k = (k <? N.of_nat n) && N.testbit a k.
Proof.
  induction n as [|n IH]; [by rewrite N.bits_0; destruct k|].
  rewrite seq_S, xsig_app, N.lxor_spec, IH. cbn [xsig Nat.add]. rewrite N.lxor_0_r.
  unfold sel, pow2.
  destruct (N.ltb_spec k (N.of_nat n)), (N.ltb_spec k (N.of_nat (S n))); try lia; cbn [andb].
  - destruct (N.testbit a (N.of_nat n)); [rewrite N.pow2_bits_false by lia|rewrite N.bits_0];
      apply xorb_false_r.
  - replace k with (N.of_nat n) by lia.
    destruct (N.testbit a (N.of_nat n)); [by rewrite N.pow2_bits_true|by rewrite N.bits_0].
  - destruct (N.testbit a (N.of_nat n)); [by rewrite N.pow2_bits_false by lia|by rewrite N.bits_0].
Qed.
Lemma bits_sum n a : a < 2 ^ N.of_nat n -> xsig (seq 0 n) (sel a pow2) = a.
Proof.
  intros Ha. apply N.bits_inj. intros k. rewrite testbit_bits.
  destruct (N.ltb_spec k (N.of_nat n)); [done|]. cbn.
  symmetry. destruct (N.eq_dec a 0) as [->|Hne]; [apply N.bits_0|].
  apply N.bits_above_log2. apply N.log2_lt_pow2 in Ha; lia.
Qed.
(** Linear maps that agree on the bits agree. *)
Lemma linear_ext n g h a :
  linear g -> linear h -> (forall i, (i < n)%nat -> g (pow2 i) = h (pow2 i)) ->
  a < 2 ^ N.of_nat n -> g a = h a.
Proof.
  intros Hg Hh Hgh Ha. rewrite <- (bits_sum n a Ha), !linear_xsig by done.
  apply xsig_ext. intros i Hi. apply elem_of_seq in Hi. rewrite !linear_sel by done.
  unfold sel. rewrite Hgh by lia. done.
Qed.

(** ** Multiplication by x *)
Definition xt (t : N) : N :=
  let t' := u128 (N.shiftl t 1) in if N.testbit t 127 then N.lxor t' POLY else t'.

Lemma u128_land x : u128 x = N.land x (N.ones 128).
Proof. reflexivity. Qed.
Lemma xt_linear : linear xt.
Proof.
  intros a b. unfold xt. rewrite !u128_land, N.lxor_spec, N.shiftl_lxor.
  assert (forall x y z, N.land (N.lxor x y) z = N.lxor (N.land x z) (N.land y z)) as Hland.
  { intros x y z. apply N.bits_inj. intros k. rewrite !N.land_spec, !N.lxor_spec, !N.land_spec.
    by destruct (N.testbit x k), (N.testbit y k), (N.testbit z k). }
  rewrite Hland. generalize (N.land (N.shiftl a 1) (N.ones 128)) (N.land (N.shiftl b 1) (N.ones 128)).
  intros x y. destruct (N.testbit a 127), (N.testbit b 127); cbn [xorb].
  - rewrite lxor4, N.lxor_nilpotent, N.lxor_0_r. done.
  - rewrite !N.lxor_assoc. f_equal. apply N.lxor_comm.
  - by rewrite N.lxor_assoc.
  - done.
Qed.

Lemma lxor_lt n a b : a < 2 ^ n -> b < 2 ^ n -> N.lxor a b < 2 ^ n.
Proof.
  intros Ha Hb. destruct (N.eq_dec (N.lxor a b) 0) as [->|Hne]; [lia|].
  apply N.log2_lt_pow2; [lia|]. eapply N.le_lt_trans; [apply N.log2_lxor|].
  destruct (N.eq_dec a 0) as [->|], (N.eq_dec b 0) as [->|]; cbn in *; try done.
  - apply N.max_lub_lt; [|apply N.log2_lt_pow2; lia]. apply N.le_lt_trans with (N.log2 b); [lia|].
    apply N.log2_lt_pow2; lia.
  - rewrite N.max_0_r. apply N.log2_lt_pow2; lia.
  - apply N.max_lub_lt; apply N.log2_lt_pow2; lia.
Qed.
Lemma u128_lt x : u128 x < 2 ^ 128.
Proof. rewrite u128_mod. by apply N.mod_lt. Qed.
Lemma xt_lt t : xt t < 2 ^ 128.
Proof.
  unfold xt. destruct (N.testbit t 127); [apply lxor_lt; [apply u128_lt|done]|apply u128_lt].
Qed.
Lemma iter_xt_lt i a : a < 2 ^ 128 -> Nat.iter i xt a < 2 ^ 128.
Proof. intros Ha. destruct i; [done|]. apply xt_lt. Qed.
Lemma xsig_lt n l f : (forall i, i ∈ l -> f i < 2 ^ n) -> xsig l f < 2 ^ n.
Proof.
  induction l as [|i l IH]; intros Hf; cbn; [apply N.neq_0_lt_0, N.pow_nonzero; lia|].
  apply lxor_lt; [apply Hf; set_solver|apply IH; intros; apply Hf; set_solver].
Qed.

(** Powers of x below 128 are single bits. *)
Lemma xt_pow2 i : (i < 128)%nat -> Nat.iter i xt 1 = pow2 i.
Proof.
  intros Hi. assert (forallb (fun i => Nat.iter i xt 1 =? pow2 i) (seq 0 128) = true) as Hall
    by (vm_compute; reflexivity).
  rewrite forallb_forall in Hall. apply N.eqb_eq, Hall, in_seq. lia.
Qed.

(** ** The product *)
Definition mulN (a b : N) : N := xsig (seq 0 128) (sel b (fun i => Nat.iter i xt a)).

Lemma gf_mul_step_xt r t b :
  gf_mul_step (r, t, b) = (N.lxor r (sel b (fun _ => t) 0), xt t, N.shiftr b 1).
Proof.
  unfold gf_mul_step, sel, xt. change (N.of_nat 0) with 0.
  assert (forall x k, negb (N.land (N.shiftr x k) 1 =? 0) = N.testbit x k) as Hbit.
  { intros x k. replace 1 with (N.ones 1) by done. rewrite N.land_ones, N.pow_1_r.
    rewrite <- N.bit0_mod. rewrite <- (N.add_0_l k) at 2. rewrite <- N.shiftr_spec'.
    by destruct (N.testbit (N.shiftr x k) 0). }
  rewrite Hbit. specialize (Hbit b 0). rewrite N.shiftr_0_r in Hbit. rewrite Hbit.
  destruct (N.testbit b 0); [done|by rewrite N.lxor_0_r].
Qed.

Lemma gf_mul_iter n a b :
  Nat.iter n gf_mul_step (0, a, b)
  = (xsig (seq 0 n) (sel b (fun i => Nat.iter i xt a)), Nat.iter n xt a, N.shiftr b (N.of_nat n)).
Proof.
  induction n as [|n IH]; [by cbn; rewrite N.shiftr_0_r|].
  change (Nat.iter (S n) gf_mul_step (0, a, b)) with (gf_mul_step (Nat.iter n gf_mul_step (0, a, b))).
  rewrite IH, gf_mul_step_xt, seq_S, xsig_app. cbn [xsig Nat.add].
  rewrite N.lxor_0_r, N.shiftr_shiftr, Nat2N.inj_succ, N.add_1_r. do 3 f_equal.
  unfold sel. change (N.of_nat 0) with 0. by rewrite N.shiftr_spec', N.add_0_l.
Qed.

Lemma mulN_lt a b : a < 2 ^ 128 -> mulN a b < 2 ^ 128.
Proof.
  intros Ha. apply xsig_lt. intros i _. unfold sel. destruct (N.testbit _ _); [by apply iter_xt_lt|done].
Qed.
Lemma gf_val_mul a b : gf_val (gf_mul a b) = mulN (gf_val a) (gf_val b).
Proof.
  unfold gf_mul. rewrite gf_mul_iter. cbn [fst]. apply gf_val_gf, mulN_lt, gf_val_lt.
Qed.

Lemma mulN_linear_l b : linear (fun a => mulN a b).
Proof.
  intros a a'. unfold mulN. rewrite <- xsig_lxor. apply xsig_ext. intros i _.
  rewrite <- sel_lxor. unfold sel. destruct (N.testbit _ _); [|done].
  apply (linear_iter xt i xt_linear).
Qed.
Lemma mulN_linear_r a : linear (mulN a).
Proof.
  intros b b'. unfold mulN. rewrite <- xsig_lxor. apply xsig_ext. intros i _. apply sel_bits.
Qed.
Lemma mulN_1_l b : b < 2 ^ 128 -> mulN 1 b = b.
Proof.
  intros Hb. rewrite <- (bits_sum 128 b Hb) at 2. apply xsig_ext. intros i Hi.
  apply elem_of_seq in Hi. unfold sel. rewrite xt_pow2 by lia. done.
Qed.
Lemma iter_xt_mulN i a b : Nat.iter i xt (mulN a b) = mulN (Nat.iter i xt a) b.
Proof.
  unfold mulN. rewrite (linear_xsig (fun a => Nat.iter i xt a)) by apply linear_iter, xt_linear.
  apply xsig_ext. intros j _.
  rewrite (linear_sel (fun a => Nat.iter i xt a)) by apply linear_iter, xt_linear.
  unfold sel. destruct (N.testbit _ _); [|done].
  rewrite <- !Nat.iter_add. f_equal. lia.
Qed.
Lemma mulN_comm a b : a < 2 ^ 128 -> b < 2 ^ 128 -> mulN a b = mulN b a.
Proof.
  intros Ha Hb. rewrite <- (bits_sum 128 b Hb) at 2.
  rewrite (linear_xsig (fun b => mulN b a)) by apply mulN_linear_l.
  apply xsig_ext. intros i Hi. apply elem_of_seq in Hi.
  rewrite (linear_sel (fun b => mulN b a)) by apply mulN_linear_l.
  unfold sel. destruct (N.testbit _ _); [|done].
  rewrite <- xt_pow2 by lia. by rewrite <- iter_xt_mulN, mulN_1_l.
Qed.
(** Both factors of a product may be exchanged with a third. *)
Lemma mulN_swap a b c : mulN (mulN b c) a = mulN (mulN b a) c.
Proof.
  unfold mulN at 2. rewrite (linear_xsig (fun x => mulN x a)) by apply mulN_linear_l.
  unfold mulN at 2. apply xsig_ext. intros i _.
  rewrite (linear_sel (fun x => mulN x a)) by apply mulN_linear_l.
  unfold sel. destruct (N.testbit _ _); [|done]. by rewrite <- iter_xt_mulN.
Qed.

(** ** The ring *)
Lemma gf_val_add a b : gf_val (gf_add a b) = N.lxor (gf_val a) (gf_val b).
Proof. apply gf_val_gf, lxor_lt; apply gf_val_lt. Qed.
Lemma gf_val_0 : gf_val gf_zero = 0.
Proof. reflexivity. Qed.
Lemma gf_val_1 : gf_val gf_one = 1.
Proof. reflexivity. Qed.

Ltac gf_law :=
  intros; apply gf_eq; rewrite ?gf_val_add, ?gf_val_mul, ?gf_val_add, ?gf_val_0, ?gf_val_1.

Lemma gf_ring : ring_theory gf_zero gf_one gf_add gf_mul gf_sub (fun a => a) (@eq Gf2_128).
Proof.
  split.
  - gf_law. apply N.lxor_0_l.
  - gf_law. apply N.lxor_comm.
  - gf_law. symmetry. apply N.lxor_assoc.
  - gf_law. apply mulN_1_l, gf_val_lt.
  - gf_law. apply mulN_comm; apply gf_val_lt.
  - gf_law. pose proof (gf_val_lt x). pose proof (gf_val_lt y). pose proof (gf_val_lt z).
    rewrite (mulN_comm (gf_val x)) by auto using mulN_lt.
    rewrite mulN_swap. by rewrite (mulN_comm (gf_val y)).
  - gf_law. apply mulN_linear_l.
  - reflexivity.
  - gf_law. apply N.lxor_nilpotent.
Qed.

(** ** Inverses *)

(** The linear map with the given values on the bits. *)
Fixpoint lincomb (cols : list N) (a : N) : N :=
  match cols with
  | [] => 0
  | c :: cols' => N.lxor (if N.odd a then c else 0) (lincomb cols' (N.div2 a))
  end.
Lemma lincomb_linear cols : linear (lincomb cols).
Proof.
  induction cols as [|c cols IH]; intros a b; cbn [lincomb]; [done|].
  rewrite !N.div2_spec, N.shiftr_lxor, IH, lxor4. f_equal.
  rewrite <- !N.bit0_odd, N.lxor_spec.
  destruct (N.testbit a 0), (N.testbit b 0); cbn [xorb];
    by rewrite ?N.lxor_nilpotent, ?N.lxor_0_r, ?N.lxor_0_l.
Qed.

Definition squares : list N := Eval vm_compute in map (fun i => mulN (pow2 i) (pow2 i)) (seq 0 128).
Definition sqL : N -> N := lincomb squares.

(** Squaring is additive, so it is the linear map [sqL]. *)
Lemma square_add a b :
  a < 2 ^ 128 -> b < 2 ^ 128 ->
  mulN (N.lxor a b) (N.lxor a b) = N.lxor (mulN a a) (mulN b b).
Proof.
  intros Ha Hb. rewrite mulN_linear_r.
  pose proof (mulN_linear_l a a b) as Hl. pose proof (mulN_linear_l b a b) as Hr. cbn beta in Hl, Hr.
  rewrite Hl, Hr, (mulN_comm b a), N.lxor_assoc by done.
  rewrite <- (N.lxor_assoc (mulN a b)). by rewrite N.lxor_nilpotent, N.lxor_0_l.
Qed.
Lemma square_xsig l a :
  (forall i, i ∈ l -> (i < 128)%nat) ->
  mulN (xsig l (sel a pow2)) (xsig l (sel a pow2))
  = xsig l (sel a (fun i => mulN (pow2 i) (pow2 i))).
Proof.
  assert (forall i, (i < 128)%nat -> sel a pow2 i < 2 ^ 128) as Hlt.
  { intros i Hi. unfold sel, pow2. destruct (N.testbit _ _); [|done].
    apply N.pow_lt_mono_r; lia. }
  induction l as [|i l IH]; intros Hl; cbn [xsig]; [done|].
  rewrite square_add, IH.
  - f_equal. unfold sel. by destruct (N.testbit _ _).
  - intros; apply Hl; set_solver.
  - apply Hlt, Hl. set_solver.
  - apply xsig_lt. intros j Hj. apply Hlt, Hl. set_solver.
Qed.
Lemma sqL_pow2 i : (i < 128)%nat -> sqL (pow2 i) = mulN (pow2 i) (pow2 i).
Proof.
  intros Hi. assert (forallb (fun i => sqL (pow2 i) =? mulN (pow2 i) (pow2 i)) (seq 0 128) = true) as Hall
    by (vm_compute; reflexivity).
  rewrite forallb_forall in Hall. apply N.eqb_eq, Hall, in_seq. lia.
Qed.
Lemma square_sqL a : a < 2 ^ 128 -> mulN a a = sqL a.
Proof.
  intros Ha. rewrite <- (bits_sum 128 a Ha), square_xsig, (linear_xsig sqL).
  - apply xsig_ext. intros i Hi. apply elem_of_seq in Hi.
    rewrite (linear_sel sqL) by apply lincomb_linear. unfold sel. rewrite sqL_pow2 by lia. done.
  - apply lincomb_linear.
  - intros i Hi. apply elem_of_seq in Hi. lia.
Qed.

(** 128 squarings are the identity. *)
Lemma frobenius a : a < 2 ^ 128 -> Nat.iter 128 sqL a = a.
Proof.
  apply (linear_ext 128 (fun a => Nat.iter 128 sqL a) (fun a => a));
    [apply linear_iter, lincomb_linear|done|]. intros i Hi.
  assert (forallb (fun i => Nat.iter 128 sqL (pow2 i) =? pow2 i) (seq 0 128) = true) as Hall
    by (vm_compute; reflexivity).
  rewrite forallb_forall in Hall. apply N.eqb_eq, Hall, in_seq. lia.
Qed.

(** A left inverse of [a + a^2], up to the constant term of [a]. *)
Definition kernel_table : list N :=
  [0x295ac0b1f4731af9676aac9fa4b20b08; 0xe5da5595ee970b89929959af766af404; 0xe5da5595ee970b89929959af766af406;
   0x4e9826c74350bfe67783f7333404a20c; 0xe5da5595ee970b89929959af766af402; 0x2aaea79ad7da34b07dc714cb83074e6a;
   0x4e9826c74350bfe67783f7333404a204; 0xcc8095241ae41171f5f3f531d2d9fe18; 0xe5da5595ee970b89929959af766af412;
   0x4e983687d159ce9677cb862e8ac85b44; 0x2aaea79ad7da34b07dc714cb83074e4a; 0xaae2ab6aaf144aaff73fcb3c06aaff56;
   0x4e9826c74350bfe67783f7333404a244; 0xe62f327ccd5792dd893fe9ca40603f62; 0xcc8095241ae41171f5f3f531d2d9fe98;
   0xab52f0323f47c90be1336bc7d453b626; 0xe5da5595ee970b89929959af766af512; 0x2abe34bad75338b479a6a089abf4573a;
   0x4e983687d159ce9677cb862e8ac85944; 0x1e8ccb9dcc72f2e1a9cbef8232562fc; 0x2aaea79ad7da34b07dc714cb83074a4a;
   0x2442c3221f3dc1a0ce869b24a80e48c; 0xaae2ab6aaf144aaff73fcb3c06aaf756; 0xcf64612f39c4323deb3ff936dd9aa228;
   0x4e9826c74350bfe67783f7333404b244; 0xcc911696880d4909f0d5382a57572458; 0xe62f327ccd5792dd893fe9ca40601f62;
   0x4d7cd7cc29d28cf2697f6478e5db2834; 0xcc8095241ae41171f5f3f531d2d9be98; 0xccc99127569146a7fc0956ca1a5b86a4;
   0xab52f0323f47c90be1336bc7d4533626; 0x65cece94dacd5b1c14f5986b001eeb82; 0xe5da5595ee970b89929959af766bf512;
   0x2b0e7fa2d509ca746fe27169c7c3e73a; 0x2abe34bad75338b479a6a089abf6573a; 0x65df4d264824132411d3553885980142;
   0x4e983687d159ce9677cb862e8acc5944; 0xcf74f70e70ef2af7ef6fd21d2af671a4; 0x1e8ccb9dcc72f2e1a9cbef8232d62fc;
   0xcec4b9173b16cdf9f91a9d8499490f58; 0x2aaea79ad7da34b07dc714cb83174a4a; 0x83f16f99175f624799a6cf206b513bdc;
   0x2442c3221f3dc1a0ce869b24aa0e48c; 0x3f562a96a2aa9081b9e27ebe84671c0; 0xaae2ab6aaf144aaff73fcb3c06eaf756;
   0xccc9c07ae11bcce3fcd6d526cddeebd4; 0xcf64612f39c4323deb3ff936dd1aa228; 0xa95fc803c09556f7e461dfebe8467196;
   0x4e9826c74350bfe67783f7333504b244; 0x4cdc1ab0f0ab5b2e7b20ee03c15c7384; 0xcc911696880d4909f0d5382a55572458;
   0xaaba68961da11d79fb48c8c7fe68cf6a; 0xe62f327ccd5792dd893fe9ca44601f62; 0xe5db5416ee209847938b5c70638d3bee;
   0x4d7cd7cc29d28cf2697f6478eddb2834; 0x6437818b95e2e76e0b49fa26a7e512ce; 0xcc8095241ae41171f5f3f531c2d9be98;
   0x4cd9020746184ba27868a299022ddf34; 0xccc99127569146a7fc0956ca3a5b86a4; 0x824171dcefbe4a8b8f1d24e407e8e76c;
   0xab52f0323f47c90be1336bc794533626; 0xe62e22af1f6bf32b88711e202cdc3b5e; 0x65cece94dacd5b1c14f5986b801eeb82;
   0x83f4672b23a92e499aadb85427b54520; 0xe5da5595ee970b89929959ae766bf512; 0x1040920971720048711dbeccf94c;
   0x2b0e7fa2d509ca746fe2716bc7c3e73a; 0x81edd40a7a7437cb99d6b267d0d7976c; 0x2abe34bad75338b479a6a08dabf6573a;
   0xe46a1e8deccdf96d84dd884d1a5d4462; 0x65df4d264824132411d3553085980142; 0x804c1cb1eac70f698ab1aeeb3a605920;
   0x4e983687d159ce9677cb863e8acc5944; 0xa94f4b3252499e01e04514377dbd55aa; 0xcf74f70e70ef2af7ef6fd23d2af671a4;
   0xe7d77da5831189d3978a93f3f56f619e; 0x1e8ccb9dcc72f2e1a9cbeb8232d62fc; 0x4cdd0f362b68e52a7a5109eab0a16ef4;
   0xcec4b9173b16cdf9f91a9d0499490f58; 0xe4329c3d7bf233698830781e88d05912; 0x2aaea79ad7da34b07dc715cb83174a4a;
   0x82082082597387418618bcbfcff334e0; 0x83f16f99175f624799a6cd206b513bdc; 0x294b124ed1181a846297e291f4adcc3a;
   0x2442c3221f3dc1a0ce86db24aa0e48c; 0xe78fff41144664939b696b666550119e; 0x3f562a96a2aa9081b9e2febe84671c0;
   0xcd78dbfd54a1436beb568d9e63d55a14; 0xaae2ab6aaf144aaff73fdb3c06eaf756; 0xccdd4e7b1ce38d0ffacabbbeed722b64;
   0xccc9c07ae11bcce3fcd6f526cddeebd4; 0x3e5e1ccb1bf89c61fb4754fa43bbf3c; 0xcf64612f39c4323deb3fb936dd1aa228;
   0xe5da00893461b455926f68f4172caea2; 0xa95fc803c09556f7e4615febe8467196; 0xe78ae2a77b3e87b1981cf1dccb9d1fd2;
   0x4e9826c74350bfe67782f7333504b244; 0x2912d4222a675b0a6fd777b6c15f72c6; 0x4cdc1ab0f0ab5b2e7b22ee03c15c7384;
   0xe7d6682e58d237f196f8740f85956fd2; 0xcc911696880d4909f0d1382a55572458; 0xab4366b0764a0b4be46143c933474626;
   0xaaba68961da11d79fb40c8c7fe68cf6a; 0xe7d77d718378aeb397849bb7f7de0d9e; 0xe62f327ccd5792dd892fe9ca44601f62;
   0x64231d9efb5729d60d13f9bd382e380e; 0xe5db5416ee20984793ab5c70638d3bee; 0x81b51ab7a5fe1499959811bd9a557220;
   0x4d7cd7cc29d28cf2693f6478eddb2834; 0x295ab4bb43072c12678a4ee975a08406; 0x6437818b95e2e76e0bc9fa26a7e512ce;
   0xab0eead38eb165ebef9e1acd25989a26; 0xcc8095241ae41171f4f3f531c2d9be98; 0x3ba7996db230c0010185b9b29b00000;
   0x4cd9020746184ba27a68a299022ddf34; 0x8210932010890d058261f45338765990; 0xccc99127569146a7f80956ca3a5b86a4;
   0x2a88e0fbb92f0c2c7f14722e3db361fa; 0x824171dcefbe4a8b871d24e407e8e76c; 0x29b11e87b8989fd86fb067f47d17578a;
   0xab52f0323f47c90bf1336bc794533626; 0x38b21c09fae1613c0db7ed8c3891e6fa; 0xe62e22af1f6bf32ba8711e202cdc3b5e;
   0x862e22af1f6bf32ba8711e202cdc3b6c; 0x65cece94dacd5b1c54f5986b801eeb82; 0x8e8cbdc6770aef73b1ef36f7c270bdac;
   0x83f4672b23a92e491aadb85427b54520; 0x0].

Lemma kernel_table_spec a :
  a < 2 ^ 128 -> lincomb kernel_table (N.lxor (sqL a) a) = N.lxor a (N.land a 1).
Proof.
  apply (linear_ext 128 (fun a => lincomb kernel_table (N.lxor (sqL a) a)) (fun a => N.lxor a (N.land a 1))).
  - intros x y. rewrite <- lincomb_linear, (lincomb_linear squares). f_equal. apply lxor4.
  - intros x y. rewrite lxor4. f_equal. apply N.bits_inj. intros k.
    rewrite !N.land_spec, !N.lxor_spec, !N.land_spec.
    by destruct (N.testbit x k), (N.testbit y k), (N.testbit 1 k).
  - intros i Hi.
    assert (forallb (fun i => lincomb kernel_table (N.lxor (sqL (pow2 i)) (pow2 i))
                              =? N.lxor (pow2 i) (N.land (pow2 i) 1)) (seq 0 128) = true) as Hall
      by (vm_compute; reflexivity).
    rewrite forallb_forall in Hall. apply N.eqb_eq, Hall, in_seq. lia.
Qed.

Lemma idempotent e : e < 2 ^ 128 -> mulN e e = e -> e = 0 \/ e = 1.
Proof.
  intros He Hidem. rewrite square_sqL in Hidem by done.
  pose proof (kernel_table_spec e He) as Hk. rewrite Hidem, N.lxor_nilpotent in Hk.
  rewrite linear_0 in Hk by apply lincomb_linear. symmetry in Hk. apply N.lxor_eq in Hk.
  replace (N.land e 1) with (e mod 2) in Hk by (symmetry; apply (N.land_ones e 1)).
  pose proof (N.mod_lt e 2 ltac:(lia)). lia.
Qed.

(** The exponentiation loop of [invert]. *)
Lemma invert_loop a n :
  let st := foldl gf_invert_step (gf_one, a) (seq 0 (S n)) in
  gf_mul a (gf_mul a st.1) = st.2 /\ gf_val st.2 = Nat.iter (S n) sqL (gf_val a).
Proof.
  pose proof gf_ring as R. induction n as [|n IH].
  - cbn [seq foldl gf_invert_step]. change (Nat.ltb 0 0) with false. cbn [fst snd].
    rewrite (Rmul_comm R a gf_one), (Rmul_1_l R). split; [done|]. rewrite Nat.iter_succ.
    by rewrite gf_val_mul, square_sqL by apply gf_val_lt.
  - rewrite seq_S, foldl_app. destruct (foldl gf_invert_step (gf_one, a) (seq 0 (S n))) as [res temp].
    cbn [fst snd foldl Nat.add] in *. destruct IH as [Hmul Hval].
    cbn [gf_invert_step]. rewrite (proj2 (Nat.ltb_lt 0 (S n))) by lia. cbn [fst snd]. split.
    + by rewrite !(Rmul_assoc R), <- (Rmul_assoc R a a), Hmul.
    + rewrite gf_val_mul, square_sqL by apply gf_val_lt. by rewrite Hval.
Qed.

Lemma gf_invert_spec {Err} a :
  a <> gf_zero -> exists i, @gf_invert Err a = Ok i /\ gf_mul a i = gf_one.
Proof.
  intros Ha. pose proof gf_ring as R. unfold gf_invert. rewrite bool_decide_false by done.
  cbn [negb rust_assert]. mstep. eexists. split; [reflexivity|].
  destruct (invert_loop a 127) as [Hmul Hval].
  generalize dependent (foldl gf_invert_step (gf_one, a) (seq 0 128)). intros st Hmul Hval.
  rewrite frobenius in Hval by apply gf_val_lt. apply gf_eq in Hval. rewrite Hval in Hmul.
  set (e := gf_mul a st.1) in *.
  assert (gf_mul e e = e) as Hidem.
  { unfold e at 1. rewrite (Rmul_comm R a), <- (Rmul_assoc R), Hmul.
    unfold e. apply (Rmul_comm R). }
  apply (f_equal gf_val) in Hidem. rewrite gf_val_mul in Hidem.
  destruct (idempotent _ (gf_val_lt e) Hidem) as [E0|E1]; apply gf_eq.
  - exfalso. apply Ha. rewrite <- Hmul.
    apply gf_eq. rewrite gf_val_mul, E0, gf_val_0. reflexivity.
  - by rewrite E1.
Qed.

(** * GF(2^128) as a runtime field

    The instances of the field classes for GF(2^128): the arithmetic of
    [src/rust/core/algebra/src/gf2_128.rs], with the accumulators, the
    interpolation points and the table of denominators that
    [src/rust/runtime/algebra/src/gf2_128.rs] adds. *)

Definition gf_neg (a : Gf2_128) : Gf2_128 := gf_sub gf_zero a.
Definition gf_is_zero (a : Gf2_128) : bool := bool_decide (a = gf_zero).

(** The value of a computation that does not fail. *)
Definition ok {E A} (m : outcome E A) : option A :=
  match m with Ok a => Some a | _ => None end.

#[export] Instance Gf2_128_AlgebraicField : AlgebraicField Gf2_128 := {|
  fzero := gf_zero; fone := gf_one; fadd := gf_add; fsub := gf_sub; fmul := gf_mul;
  fneg := gf_neg; invert := fun a => ok (@gf_invert Empty_set a); is_zero := gf_is_zero
|}.

Lemma gf_neg_id a : gf_neg a = a.
Proof.
  apply gf_eq. unfold gf_neg, gf_sub. change (gf_val gf_zero) with 0.
  by rewrite N.lxor_0_l, gf_gf_val.
Qed.
Lemma gf_ring_neg : ring_theory gf_zero gf_one gf_add gf_mul gf_sub gf_neg (@eq Gf2_128).
Proof.
  pose proof gf_ring as [R1 R2 R3 R4 R5 R6 R7 R8 R9].
  constructor; try assumption; intros x; [intros y|]; rewrite gf_neg_id; [apply R8|apply R9].
Qed.
Lemma gf_one_neq_zero : gf_one <> gf_zero.
Proof. intros H. apply (f_equal gf_val) in H. rewrite gf_val_0, gf_val_1 in H. discriminate. Qed.
Lemma gf_invert_zero : ok (@gf_invert Empty_set gf_zero) = None.
Proof. unfold gf_invert. rewrite bool_decide_true; reflexivity. Qed.
Lemma gf_invert_ok a : a <> gf_zero -> exists i, ok (@gf_invert Empty_set a) = Some i /\ gf_mul a i = gf_one.
Proof.
  intros Ha. destruct (gf_invert_spec (Err:=Empty_set) a Ha) as (i & Hi & Hmul).
  exists i. rewrite Hi. exact (conj eq_refl Hmul).
Qed.

#[export] Instance Gf2_128_AlgebraicFieldLaws : AlgebraicFieldLaws Gf2_128 := {|
  field_ring := gf_ring_neg;
  one_neq_zero := gf_one_neq_zero;
  is_zero_spec := fun e => bool_decide_eq_true _;
  invert_zero := gf_invert_zero;
  invert_spec := gf_invert_ok
|}.

(** The accumulator of the portable backend is an element. *)
Definition gf2_128_mac (acc x y : Gf2_128) : Gf2_128 := gf_add acc (gf_mul x y).
Definition gf2_128_accum_reduce (acc : Gf2_128) : Gf2_128 := acc.
#[export] Instance Gf2_128_RuntimeField : RuntimeField Gf2_128 := {|
  Accum := Gf2_128; zero_accum := gf_zero; mac := gf2_128_mac; accum_reduce := gf2_128_accum_reduce
|}.

#[export] Instance Gf2_128_RuntimeFieldLaws : RuntimeFieldLaws Gf2_128 := {|
  accum_reduce_zero := eq_refl; accum_reduce_mac := fun acc x y => eq_refl
|}.

(** ** The binary Euclidean inversion of the runtime field

    State [(a_curr, bm1ox, u, v)]; every iteration shortens the pair, 256
    iterations are enough. *)
Definition XINV : Gf2_128 := gf 0x80000000000000000000000000000043.

Definition rt_invert_step (st : Gf2_128 * Gf2_128 * Gf2_128 * Gf2_128)
  : Gf2_128 * Gf2_128 * Gf2_128 * Gf2_128 :=
  let '(a_curr, bm1ox, u, v) := st in
  let val := gf_val a_curr in
  let atmp := gf (N.shiftr val 1) in
  if N.land val 1 =? 0 then (atmp, bm1ox, gf_mul XINV u, v)
  else
    let am1ox := atmp in
    let '(am1ox, bm1ox, u, v) :=
      if gf_val am1ox <? gf_val bm1ox then (bm1ox, am1ox, v, u) else (am1ox, bm1ox, u, v) in
    (gf_add am1ox bm1ox, bm1ox, gf_mul XINV (gf_add u v), v).

Fixpoint rt_invert_loop (fuel : nat) (st : Gf2_128 * Gf2_128 * Gf2_128 * Gf2_128) : option Gf2_128 :=
  match fuel with
  | O => None
  | S fuel' =>
      if gf_is_zero st.1.1.1 then Some st.2 else rt_invert_loop fuel' (rt_invert_step st)
  end.
Definition rt_invert (e : Gf2_128) : option Gf2_128 :=
  if gf_is_zero e then None else rt_invert_loop 257 (e, XINV, gf_one, gf_zero).

(** ** Interpolation points *)
Definition POLY_EVALUATION_POINTS : list N :=
  [0x00000000000000000000000000000000; 0x00000000000000000000000000000001;
   0x5c5971877501d4b8f1871e01b64fda4c; 0x8bb99658eaf2cae0a6e310fb6e176ea8;
   0xb61e08da12f9665c3f8de8a2f9ff7eed; 0xa76c2e634c6483ae9ba3282087a3f827].

Definition gf_points : list Gf2_128 := map gf POLY_EVALUATION_POINTS.
(** The entry [newton_denominators[k][i]] that [Gf2_128Field::new] fills for
    [1 <= k < 6] and [1 <= i <= k]; the others keep the default, zero. *)
Definition gf_newton_denominator (k i : nat) : option Gf2_128 :=
  if Nat.ltb k 6 && Nat.ltb i 6 then
    if Nat.leb 1 k && Nat.leb 1 i && Nat.leb i k then
      a ← gf_points !! k; b ← gf_points !! (k - i)%nat; rt_invert (gf_add a b)
    else Some gf_zero
  else None.

#[export] Instance Gf2_128_InterpolationField : InterpolationField Gf2_128 := {|
  poly_evaluation_point := fun i => gf_points !! i;
  newton_denominator := gf_newton_denominator
|}.

(** The table entry is the inverse of the difference. *)
Definition denominator_ok (k i : nat) : bool :=
  match gf_points !! k, gf_points !! (k - i)%nat, gf_newton_denominator k i with
  | Some a, Some b, Some d => bool_decide (gf_mul (gf_sub a b) d = gf_one)
  | _, _, _ => false
  end.
Lemma denominators_ok k i : (1 <= i <= k)%nat -> (k < 6)%nat -> denominator_ok k i = true.
Proof.
  intros Hi Hk.
  assert (forallb (fun k => forallb (fun i => denominator_ok k i) (seq 1 k)) (seq 0 6) = true) as Hall
    by (vm_compute; reflexivity).
  rewrite forallb_forall in Hall. specialize (Hall k). rewrite in_seq in Hall.
  specialize (Hall ltac:(lia)). rewrite forallb_forall in Hall. apply Hall, in_seq. lia.
Qed.

Lemma gf_point_0 : 0 < 6 -> gf_points !! 0%nat = Some gf_zero.
Proof. intros _. vm_compute. reflexivity. Qed.
Lemma gf_point_1 : 1 < 6 -> gf_points !! 1%nat = Some gf_one.
Proof. intros _. vm_compute. reflexivity. Qed.
Lemma gf_point_defined k : (k < 6)%nat -> is_Some (gf_points !! k).
Proof. intros Hk. apply lookup_lt_is_Some. unfold gf_points. by rewrite length_map. Qed.
Lemma gf_denominator_spec k i a b :
  (1 <= i <= k)%nat -> (k < 6)%nat -> gf_points !! k = Some a -> gf_points !! (k - i)%nat = Some b ->
  exists d, gf_newton_denominator k i = Some d /\ gf_mul (gf_sub a b) d = gf_one.
Proof.
  intros Hi Hk Ha Hb. pose proof (denominators_ok k i Hi Hk) as Hd.
  unfold denominator_ok in Hd. rewrite Ha, Hb in Hd.
  destruct (gf_newton_denominator k i) as [d|]; [|discriminate Hd].
  exists d. apply bool_decide_eq_true in Hd. exact (conj eq_refl Hd).
Qed.

#[export] Instance Gf2_128_InterpolationFieldLaws : InterpolationFieldLaws Gf2_128 6 := {|
  point_0 := fun _ => gf_point_0 eq_refl;
  point_1 := fun _ => gf_point_1 eq_refl;
  point_defined := gf_point_defined;
  newton_denominator_spec := gf_denominator_spec
|}.
