(* ===== verification/Transcript.v ===== *)
(** * Fiat-Shamir transcripts ([src/rust/runtime/random/src/{lib,transcript}.rs])

    The transcript absorbs tagged, length-prefixed messages into SHA-256 and
    derives challenges from AES-256 in counter mode keyed with the digest; the
    generator is dropped on every write.  On top of it, the sampling routines
    of the [RandomEngine] trait.

    [sha2] and [aes] are third-party: the digest and the block cipher are
    parameters. *)
From stdpp Require Import prelude.
From Stdlib Require Import Lia NArith.
From S2P Require Import Prelude Words Interfaces.

Local Open Scope N_scope.

(** One AES-256 block encryption: key, then block. *)
Class Aes256 := aes256 : list u8 -> list u8 -> list u8.
Class Aes256Laws `{Aes256} := { aes256_length key block : length (aes256 key block) = 16%nat }.

(** A rejection-sampling loop has no bound on its number of iterations: the
    models take fuel, and running out of it is this error. *)
Inductive stuck := OutOfFuel.

Definition TAG_BSTR : u8 := x00.
Definition TAG_FIELD_ELEM : u8 := x01.
Definition TAG_ARRAY : u8 := x02.
Definition MAX_PRF_BLOCKS : N := 0x10000000000.

(** ** The generator *)
Record FsPrf := {
  cipher_key : list u8;
  block_counter : N;
  read_pointer : nat;
  output_buffer : list u8
}.

Definition FsPrf_new (key : list u8) : FsPrf :=
  {| cipher_key := key; block_counter := 0; read_pointer := 16; output_buffer := replicate 16 x00 |}.

Section prf.
Context `{Aes256}.

Definition refill (g : FsPrf) : outcome stuck FsPrf :=
  rust_assert (block_counter g <? MAX_PRF_BLOCKS) ;;
  let inp := to_le_bytes 8 (block_counter g) ++ replicate 8 x00 in
  mret {| cipher_key := cipher_key g; block_counter := block_counter g + 1;
          read_pointer := 0; output_buffer := aes256 (cipher_key g) inp |}.

Definition next_byte (g : FsPrf) : outcome stuck (u8 * FsPrf) :=
  g ← (if Nat.eqb (read_pointer g) 16 then refill g else mret g);
  b ← index (output_buffer g) (read_pointer g);
  mret (b, {| cipher_key := cipher_key g; block_counter := block_counter g;
              read_pointer := read_pointer g + 1; output_buffer := output_buffer g |}).

Definition prf_bytes (len : nat) (g : FsPrf) : outcome stuck (list u8 * FsPrf) :=
  foldM (fun '(buf, g) _ => '(b, g) ← next_byte g; mret (buf ++ [b], g)) ([], g) (seq 0 len).
End prf.

(** ** The transcript *)
Record Transcript := {
  hash_accumulator : Hasher;
  pseudorandom_generator : option FsPrf
}.

(** Every write drops the generator. *)
Definition write_untyped (data : list u8) (t : Transcript) : Transcript :=
  {| hash_accumulator := hasher_update (hash_accumulator t) data;
     pseudorandom_generator := None |}.

Definition tag (b : u8) (t : Transcript) : Transcript := write_untyped [b] t.
Definition put_length (n : nat) (t : Transcript) : Transcript :=
  write_untyped (to_le_bytes 8 (wrap64 (N.of_nat n))) t.

Definition write_bytes (data : list u8) (t : Transcript) : Transcript :=
  write_untyped data (put_length (length data) (tag TAG_BSTR t)).

(** Zeros go in blocks of 8192; the loop runs [n / 8192] times. *)
Definition ZERO_BUF : nat := Eval cbv in 128 * 64.
Fixpoint write0_loop (fuel n : nat) (t : Transcript) : nat * Transcript :=
  match fuel with
  | O => (n, t)
  | S fuel' =>
      if Nat.leb ZERO_BUF n
      then write0_loop fuel' (n - ZERO_BUF) (write_untyped (replicate ZERO_BUF x00) t)
      else (n, t)
  end.
Definition write0 (n : nat) (t : Transcript) : Transcript :=
  let t := put_length n (tag TAG_BSTR t) in
  let (n, t) := write0_loop n n t in
  if Nat.ltb 0 n then write_untyped (replicate n x00) t else t.

Section field_writes.
Context {A : Type} `{SerializableField A}.

(** Elements are staged in a 128-byte array: a larger element panics. *)
Definition write_untyped_elt (e : A) (t : Transcript) : outcome stuck Transcript :=
  rust_assert (Nat.leb (serialized_size_bytes (E:=A)) 128) ;;
  mret (write_untyped (to_bytes e) t).

Definition write_elt_field (e : A) (t : Transcript) : outcome stuck Transcript :=
  write_untyped_elt e (tag TAG_FIELD_ELEM t).

Definition write_elt_field_slice (es : list A) (t : Transcript) : outcome stuck Transcript :=
  foldM (fun t e => write_untyped_elt e t) (put_length (length es) (tag TAG_ARRAY t)) es.
End field_writes.

Definition Transcript_new (init : list u8) : Transcript :=
  write_bytes init {| hash_accumulator := []; pseudorandom_generator := None |}.

Section transcript_bytes.
Context `{Sha256} `{Aes256}.

Definition get_hash (t : Transcript) : list u8 := sha256 (hash_accumulator t).

Definition transcript_bytes (len : nat) (t : Transcript) : outcome stuck (list u8 * Transcript) :=
  let g := match pseudorandom_generator t with
           | Some g => g
           | None => FsPrf_new (get_hash t)
           end in
  '(bs, g) ← prf_bytes len g;
  mret (bs, {| hash_accumulator := hash_accumulator t; pseudorandom_generator := Some g |}).
End transcript_bytes.

(** ** [RandomEngine]: the routines every engine derives from [bytes] *)
Class RandomEngine (G : Type) := rng_bytes : nat -> G -> outcome stuck (list u8 * G).

#[export] Instance Transcript_RandomEngine `{Sha256} `{Aes256} : RandomEngine Transcript :=
  transcript_bytes.

Section engine.
Context {G : Type} `{RandomEngine G}.

Definition rng_u128 (g : G) : outcome stuck (N * G) :=
  '(buf, g) ← rng_bytes 16 g; mret (from_le_bytes buf, g).

(** [while (n & msk) != n { msk = (msk << 1) | 1 }]: at most 64 rounds. *)
Fixpoint mask_loop (fuel : nat) (n msk : N) : N :=
  match fuel with
  | O => msk
  | S fuel' =>
      if N.land n msk =? n then msk else mask_loop fuel' n (N.lor (shl64 msk 1) 1)
  end.
Definition mask (n : N) : N := mask_loop 64 n 0.

(** [while nn != 0 { nn >>= 8; l += 1 }]: at most 8 rounds on a [usize]. *)
Fixpoint byte_len_loop (fuel : nat) (nn : N) (l : nat) : nat :=
  match fuel with
  | O => l
  | S fuel' => if nn =? 0 then l else byte_len_loop fuel' (N.shiftr nn 8) (l + 1)
  end.
Definition byte_len (n : N) : nat := byte_len_loop 9 n 0.

(** [for i in (0..l).rev() { r = (r << 8) | buf[i] }] *)
Definition fold_be (buf : list u8) : N :=
  foldr (fun b r => N.lor (shl64 r 8) (u8_to_N b)) 0 buf.

Fixpoint nat_loop (fuel : nat) (n : N) (l : nat) (msk : N) (g : G) : outcome stuck (N * G) :=
  match fuel with
  | O => Err OutOfFuel
  | S fuel' =>
      '(buf, g) ← rng_bytes l g;
      let r := N.land (fold_be buf) msk in
      if r <? n then mret (r, g) else nat_loop fuel' n l msk g
  end.

Definition rng_nat (fuel : nat) (n : N) (g : G) : outcome stuck (N * G) :=
  rust_assert (0 <? n) ;;
  let l := byte_len n in
  rust_assert (Nat.leb l 8) ;;
  nat_loop fuel n l (mask n) g.

(** Swap two cells; both indices must be in range. *)
Definition swap {E X} (a : list X) (i j : nat) : outcome E (list X) :=
  x ← index a i;
  y ← index a j;
  a ← store a i y;
  store a j x.

(** One round of the partial Fisher-Yates shuffle. *)
Definition choose_step (fuel : nat) (n : nat) (st : list nat * list nat * G) (i : nat)
  : outcome stuck (list nat * list nat * G) :=
  let '(a, res, g) := st in
  '(r, g) ← rng_nat fuel (N.of_nat (n - i)) g;
  let j := ((i + N.to_nat r) mod n)%nat in
  a ← swap a i j;
  x ← index a i;
  res ← store res i x;
  mret (a, res, g).

Definition choose (fuel : nat) (res : list nat) (n k : nat) (g : G)
  : outcome stuck (list nat * G) :=
  if (Nat.eqb n 0) || (Nat.eqb k 0) then mret (res, g)
  else
    rust_assert (Nat.leb k n && Nat.leb k (length res)) ;;
    '(_, res, g) ← foldM (choose_step fuel n) (seq 0 n, res, g) (seq 0 k);
    mret (res, g).
End engine.

(** ** Facts about transcripts

    The generator as a key stream, the transcript as a log of absorbed bytes
    and a position in the stream keyed by its digest, unique readability of
    the log, and the sampling routines. *)
(** ** The key stream *)
Section key_stream.
Context `{Aes256Laws}.

Definition key_block (key : list u8) (c : N) : list u8 :=
  aes256 key (to_le_bytes 8 c ++ replicate 8 x00).
Definition key_byte (key : list u8) (i : N) : u8 :=
  default x00 (key_block key (i / 16) !! N.to_nat (i mod 16)).
Definition key_bytes (key : list u8) (pos : N) (len : nat) : list u8 :=
  map (fun i => key_byte key (pos + N.of_nat i)) (seq 0 len).

(** The generator has delivered the first [pos] bytes of the stream. *)
Record prf_at (key : list u8) (pos : N) (g : FsPrf) : Prop := {
  at_key : cipher_key g = key;
  at_pos : pos + 16 = 16 * block_counter g + N.of_nat (read_pointer g);
  at_ptr : (read_pointer g <= 16)%nat;
  at_buf : (read_pointer g < 16)%nat -> output_buffer g = key_block key (block_counter g - 1)
}.

Lemma prf_at_new key : prf_at key 0 (FsPrf_new key).
Proof. split; cbn; [done|done|lia|lia]. Qed.

Lemma key_byte_index key c i :
  (i < 16)%nat -> index (E:=stuck) (key_block key c) i = Ok (key_byte key (16 * c + N.of_nat i)).
Proof.
  intros Hi. unfold key_byte.
  assert ((16 * c + N.of_nat i) / 16 = c) as -> by dlia.
  assert ((16 * c + N.of_nat i) mod 16 = N.of_nat i) as -> by dlia.
  rewrite Nat2N.id. unfold index.
  destruct (lookup_lt_is_Some_2 (key_block key c) i) as [b ->]; [|done].
  unfold key_block. by rewrite aes256_length.
Qed.

Lemma next_byte_spec key pos g :
  prf_at key pos g -> pos < 16 * MAX_PRF_BLOCKS ->
  exists g', next_byte g = Ok (key_byte key pos, g') /\ prf_at key (pos + 1) g'.
Proof.
  intros [Hk Hp Hptr Hbuf] Hmax. unfold next_byte, refill.
  destruct (Nat.eqb_spec (read_pointer g) 16) as [E|E].
  - assert (pos = 16 * block_counter g + N.of_nat 0) as Hpos by lia.
    rewrite (proj2 (N.ltb_lt _ _)) by lia. cbn [rust_assert]. mstep.
    cbn [output_buffer read_pointer cipher_key block_counter]. rewrite Hk.
    fold (key_block key (block_counter g)). rewrite key_byte_index by lia. rewrite <- Hpos, bind_Ok.
    eexists. split; [done|]. split; cbn; [done|lia|lia|].
    intros _. by replace (block_counter g + 1 - 1) with (block_counter g) by lia.
  - mstep. rewrite Hbuf by lia.
    rewrite key_byte_index by lia. rewrite bind_Ok.
    replace (16 * (block_counter g - 1) + N.of_nat (read_pointer g)) with pos by lia.
    eexists. split; [done|]. split; cbn; [done|lia|lia|done].
Qed.

Lemma key_bytes_S key pos len :
  key_bytes key pos (S len) = key_bytes key pos len ++ [key_byte key (pos + N.of_nat len)].
Proof. unfold key_bytes. rewrite seq_S, map_app. done. Qed.

Lemma length_key_bytes key pos len : length (key_bytes key pos len) = len.
Proof. unfold key_bytes. by rewrite length_map, length_seq. Qed.

Lemma prf_bytes_spec key pos len g :
  prf_at key pos g -> pos + N.of_nat len <= 16 * MAX_PRF_BLOCKS ->
  exists g', prf_bytes len g = Ok (key_bytes key pos len, g') /\ prf_at key (pos + N.of_nat len) g'.
Proof.
  intros Hg. unfold prf_bytes. induction len as [|len IH]; intros Hmax.
  { exists g. split; [done|]. by rewrite N.add_0_r. }
  rewrite seq_S, foldM_app. destruct IH as (g1 & -> & H1); [lia|]. rewrite bind_Ok. cbn [foldM Nat.add].
  destruct (next_byte_spec key _ g1 H1) as (g2 & -> & H2); [lia|].
  rewrite !bind_Ok. exists g2. rewrite key_bytes_S. split; [done|].
  by replace (pos + N.of_nat (S len)) with (pos + N.of_nat len + 1) by lia.
Qed.

Lemma key_bytes_app key pos a b :
  key_bytes key pos (a + b) = key_bytes key pos a ++ key_bytes key (pos + N.of_nat a) b.
Proof.
  unfold key_bytes. rewrite seq_app, map_app. f_equal. cbn.
  rewrite <- (Nat.add_0_r a) at 1. rewrite <- fmap_add_seq, <- list_fmap_compose.
  apply list_fmap_ext. intros _ i _. cbn. f_equal. lia.
Qed.
End key_stream.

(** ** The abstract transcript

    A log of absorbed bytes and the number of challenge bytes drawn since the
    last write. *)
Record log := { absorbed : list u8; drawn : N }.

Section refinement.
Context `{Sha256} `{Aes256Laws}.

Record represents (t : Transcript) (l : log) : Prop := {
  rep_absorbed : hash_accumulator t = absorbed l;
  rep_drawn : match pseudorandom_generator t with
              | None => drawn l = 0
              | Some g => prf_at (sha256 (absorbed l)) (drawn l) g
              end
}.

Lemma represents_write t l data :
  represents t l -> represents (write_untyped data t) {| absorbed := absorbed l ++ data; drawn := 0 |}.
Proof. intros [Ha _]. split; cbn; [|done]. unfold hasher_update. by rewrite Ha. Qed.

Lemma represents_bytes t l len :
  represents t l -> drawn l + N.of_nat len <= 16 * MAX_PRF_BLOCKS ->
  exists t', transcript_bytes len t = Ok (key_bytes (sha256 (absorbed l)) (drawn l) len, t') /\
    represents t' {| absorbed := absorbed l; drawn := drawn l + N.of_nat len |}.
Proof.
  intros [Ha Hd] Hmax. unfold transcript_bytes, get_hash. rewrite Ha.
  assert (prf_at (sha256 (absorbed l)) (drawn l)
    match pseudorandom_generator t with Some g => g | None => FsPrf_new (sha256 (absorbed l)) end) as Hg.
  { destruct (pseudorandom_generator t); [done|]. rewrite Hd. apply prf_at_new. }
  destruct (prf_bytes_spec _ _ len _ Hg Hmax) as (g' & -> & Hg'). rewrite bind_Ok.
  eexists. split; [done|]. by split.
Qed.

(** What each operation absorbs. *)
Definition enc_length (n : nat) : list u8 := to_le_bytes 8 (wrap64 (N.of_nat n)).
Definition enc_bytes (data : list u8) : list u8 := TAG_BSTR :: enc_length (length data) ++ data.

(** The log after absorbing more bytes. *)
Definition absorb (l : log) (data : list u8) : log := {| absorbed := absorbed l ++ data; drawn := 0 |}.

Lemma absorb_app l a b : absorb (absorb l a) b = absorb l (a ++ b).
Proof. unfold absorb. cbn. by rewrite app_assoc. Qed.

Lemma write_untyped_absorbs data t l : represents t l -> represents (write_untyped data t) (absorb l data).
Proof. apply represents_write. Qed.

Lemma write_bytes_absorbs data t l :
  represents t l -> represents (write_bytes data t) (absorb l (enc_bytes data)).
Proof.
  intros Ht. unfold write_bytes, put_length, tag.
  change (enc_bytes data) with ([TAG_BSTR] ++ enc_length (length data) ++ data).
  rewrite <- !absorb_app. by repeat apply write_untyped_absorbs.
Qed.

Lemma write0_loop_spec fuel n t l data :
  represents t (absorb l data) -> (n <= fuel)%nat ->
  let '(m, t') := write0_loop fuel n t in
  exists z, represents t' (absorb l (data ++ replicate z x00)) /\ (z + m = n)%nat.
Proof.
  revert n t data. induction fuel as [|fuel IH]; intros n t data Ht Hn; cbn [write0_loop].
  { exists 0%nat. by rewrite app_nil_r. }
  destruct (Nat.leb_spec ZERO_BUF n) as [Hle|Hgt].
  2: { exists 0%nat. by rewrite app_nil_r. }
  pose proof (write_untyped_absorbs (replicate ZERO_BUF x00) _ _ Ht) as Ht1. rewrite absorb_app in Ht1.
  assert (0 < ZERO_BUF)%nat as Hz by (unfold ZERO_BUF; lia).
  specialize (IH (n - ZERO_BUF)%nat _ _ Ht1 ltac:(lia)).
  destruct (write0_loop fuel _ _) as [m t']. destruct IH as (z & Hr & Hzm).
  exists (ZERO_BUF + z)%nat. split; [|lia]. by rewrite replicate_add, app_assoc.
Qed.

(** [write0 n] is [write_bytes] of [n] zeros. *)
Lemma write0_absorbs n t l :
  represents t l -> represents (write0 n t) (absorb l (enc_bytes (replicate n x00))).
Proof.
  intros Ht. unfold write0, put_length, tag.
  assert (represents (write_untyped (enc_length n) (write_untyped [TAG_BSTR] t))
    (absorb l ([TAG_BSTR] ++ enc_length n))) as Ht1.
  { rewrite <- absorb_app. by repeat apply write_untyped_absorbs. }
  pose proof (write0_loop_spec n n _ _ _ Ht1 (le_n n)) as Hloop. unfold enc_length in Hloop.
  destruct (write0_loop n n _) as [m t']. destruct Hloop as (z & Hr & Hzm).
  unfold enc_bytes. rewrite length_replicate. subst n.
  destruct (Nat.ltb_spec 0 m) as [Hm|Hm].
  - apply (write_untyped_absorbs (replicate m x00)) in Hr. rewrite absorb_app in Hr.
    rewrite <- !app_assoc, <- replicate_add in Hr. exact Hr.
  - replace m with 0%nat in * by lia. rewrite Nat.add_0_r in *.
    by rewrite <- !app_assoc in Hr.
Qed.

Context {A : Type} `{SerializableField A}.
Hypothesis elt_fits : (serialized_size_bytes (E:=A) <= 128)%nat.

Definition enc_elt (e : A) : list u8 := TAG_FIELD_ELEM :: to_bytes e.
Definition enc_slice (es : list A) : list u8 :=
  TAG_ARRAY :: enc_length (length es) ++ concat (map to_bytes es).

Lemma write_untyped_elt_ok e t : write_untyped_elt e t = Ok (write_untyped (to_bytes e) t).
Proof. unfold write_untyped_elt. rewrite (proj2 (Nat.leb_le _ _)) by done. done. Qed.

Lemma write_elt_absorbs (e : A) t l :
  represents t l -> exists t', write_elt_field e t = Ok t' /\ represents t' (absorb l (enc_elt e)).
Proof.
  intros Ht. unfold write_elt_field, tag. rewrite write_untyped_elt_ok. eexists. split; [done|].
  change (enc_elt e) with ([TAG_FIELD_ELEM] ++ to_bytes e). rewrite <- absorb_app.
  by repeat apply write_untyped_absorbs.
Qed.

Lemma write_elts_absorb (es : list A) t l data :
  represents t (absorb l data) ->
  represents (foldl (fun t e => write_untyped (to_bytes e) t) t es)
    (absorb l (data ++ concat (map to_bytes es))).
Proof.
  revert t data. induction es as [|e es IH]; intros t data Ht; cbn; [by rewrite app_nil_r|].
  rewrite app_assoc. apply IH. rewrite <- absorb_app. by apply write_untyped_absorbs.
Qed.

Lemma write_slice_absorbs (es : list A) t l :
  represents t l -> exists t', write_elt_field_slice es t = Ok t' /\ represents t' (absorb l (enc_slice es)).
Proof.
  intros Ht. unfold write_elt_field_slice, put_length, tag.
  rewrite (foldM_pure _ (fun t e => write_untyped (to_bytes e) t))
    by (intros; apply write_untyped_elt_ok).
  eexists. split; [done|].
  change (enc_slice es) with (([TAG_ARRAY] ++ enc_length (length es)) ++ concat (map to_bytes es)).
  apply write_elts_absorb. rewrite <- absorb_app. by repeat apply write_untyped_absorbs.
Qed.

(** ** Runs *)
Inductive op :=
| WriteBytes (data : list u8)
| Write0 (n : nat)
| WriteElt (e : A)
| WriteSlice (es : list A)
| Draw (len : nat).

(** Run a sequence of operations, collecting the challenges. *)
Definition step_op (st : list (list u8) * Transcript) (o : op)
  : outcome stuck (list (list u8) * Transcript) :=
  let '(outs, t) := st in
  match o with
  | WriteBytes data => mret (outs, write_bytes data t)
  | Write0 n => mret (outs, write0 n t)
  | WriteElt e => t ← write_elt_field e t; mret (outs, t)
  | WriteSlice es => t ← write_elt_field_slice es t; mret (outs, t)
  | Draw len => '(bs, t) ← transcript_bytes len t; mret (outs ++ [bs], t)
  end.
Definition run_ops (ops : list op) (t : Transcript) : outcome stuck (list (list u8) * Transcript) :=
  foldM step_op ([], t) ops.

(** The same on the abstract log. *)
Definition enc_op (o : op) : list u8 :=
  match o with
  | WriteBytes data => enc_bytes data
  | Write0 n => enc_bytes (replicate n x00)
  | WriteElt e => enc_elt e
  | WriteSlice es => enc_slice es
  | Draw _ => []
  end.
Definition spec_op (st : list (list u8) * log) (o : op) : list (list u8) * log :=
  let '(outs, l) := st in
  match o with
  | Draw len => (outs ++ [key_bytes (sha256 (absorbed l)) (drawn l) len],
                 {| absorbed := absorbed l; drawn := drawn l + N.of_nat len |})
  | _ => (outs, absorb l (enc_op o))
  end.

(** At most 2^44 bytes are ever drawn. *)
Definition draws (ops : list op) : N :=
  foldr (fun o n => (match o with Draw len => N.of_nat len | _ => 0 end) + n) 0 ops.

Lemma step_op_spec outs t l o :
  represents t l -> drawn l + draws [o] <= 16 * MAX_PRF_BLOCKS ->
  exists t', step_op (outs, t) o = Ok ((spec_op (outs, l) o).1, t') /\
    represents t' (spec_op (outs, l) o).2.
Proof.
  intros Ht Hmax. unfold step_op, spec_op.
  destruct o as [data|n|e|es|len]; cbn [enc_op fst snd].
  - eexists. split; [done|]. by apply write_bytes_absorbs.
  - eexists. split; [done|]. by apply write0_absorbs.
  - destruct (write_elt_absorbs e t l Ht) as (t' & -> & Ht'). by exists t'.
  - destruct (write_slice_absorbs es t l Ht) as (t' & -> & Ht'). by exists t'.
  - cbn [draws foldr] in Hmax.
    destruct (represents_bytes t l len Ht) as (t' & -> & Ht'); [lia|]. by exists t'.
Qed.

Lemma run_ops_spec ops outs t l :
  represents t l -> drawn l + draws ops <= 16 * MAX_PRF_BLOCKS ->
  exists t', foldM step_op (outs, t) ops = Ok ((foldl spec_op (outs, l) ops).1, t') /\
    represents t' (foldl spec_op (outs, l) ops).2.
Proof.
  revert outs t l. induction ops as [|o ops IH]; intros outs t l Ht Hmax; [by exists t|].
  cbn [foldM foldl]. cbn [draws foldr] in Hmax. fold (draws ops) in Hmax.
  destruct (step_op_spec outs t l o Ht) as (t' & -> & Ht'); [cbn [draws foldr]; lia|].
  rewrite bind_Ok. destruct (spec_op (outs, l) o) as [outs' l'] eqn:Ho. apply IH; [done|].
  unfold spec_op in Ho. destruct o; injection Ho as <- <-; cbn; lia.
Qed.
End refinement.

(** ** Unique readability of the log *)
Section readable.
Context {A : Type} `{SerializableFieldLaws A}.

(** [write0 n] and [write_bytes] of zeros are the same message. *)
Definition message (o : op (A:=A)) : op (A:=A) :=
  match o with Write0 n => WriteBytes (replicate n x00) | _ => o end.

(** Lengths are [usize]. *)
Definition op_ok (o : op (A:=A)) : Prop :=
  match o with
  | WriteBytes data => N.of_nat (length data) < 2 ^ 64
  | Write0 n => N.of_nat n < 2 ^ 64
  | WriteElt _ => True
  | WriteSlice es => N.of_nat (length es) < 2 ^ 64
  | Draw _ => False
  end.

Lemma cons_eq_inv {X} (x y : X) l k : x :: l = y :: k -> x = y /\ l = k.
Proof. intros Heq. by injection Heq. Qed.

Lemma enc_length_inj n m a b :
  N.of_nat n < 2 ^ 64 -> N.of_nat m < 2 ^ 64 -> enc_length n ++ a = enc_length m ++ b -> n = m /\ a = b.
Proof.
  intros Hn Hm Heq. unfold enc_length in Heq. rewrite !wrap64_small in Heq by done.
  apply app_inj_1 in Heq as [Heq ->]; [|by rewrite !length_to_le_bytes].
  apply to_le_bytes_inj in Heq; [|done..]. split; [lia|done].
Qed.

Lemma elts_inj (es es' : list A) a b :
  length es = length es' -> concat (map to_bytes es) ++ a = concat (map to_bytes es') ++ b ->
  es = es' /\ a = b.
Proof.
  revert es'. induction es as [|e es IH]; intros [|e' es'] Hl Heq; try done.
  cbn in Heq. rewrite <- !app_assoc in Heq.
  apply app_inj_1 in Heq as [Ee Heq]; [|by rewrite !to_bytes_length].
  apply to_bytes_inj in Ee as ->. apply IH in Heq as [-> ->]; [done|]. by injection Hl.
Qed.

Lemma enc_op_inj o o' a b :
  op_ok o -> op_ok o' -> enc_op o ++ a = enc_op o' ++ b -> message o = message o' /\ a = b.
Proof.
  assert (forall d d' a b, N.of_nat (length d) < 2 ^ 64 -> N.of_nat (length d') < 2 ^ 64 ->
    enc_bytes d ++ a = enc_bytes d' ++ b -> d = d' /\ a = b) as Hb.
  { intros d d' x y Hd Hd' Heq. unfold enc_bytes in Heq. rewrite <- !app_comm_cons in Heq.
    apply cons_eq_inv in Heq as [_ Heq]. rewrite <- !app_assoc in Heq. apply enc_length_inj in Heq as [Hl Heq]; [|done..].
    by apply app_inj_1 in Heq. }
  assert (forall n, N.of_nat n < 2 ^ 64 -> N.of_nat (length (replicate n x00)) < 2 ^ 64) as Hr
    by (intros; by rewrite length_replicate).
  intros Ho Ho' Heq.
  destruct o as [d|n|e|es|len], o' as [d'|n'|e'|es'|len']; cbn [op_ok enc_op message] in *; try done;
    try (apply Hb in Heq as [<- <-]; [done|auto..]).
  - unfold enc_elt in Heq. rewrite <- !app_comm_cons in Heq. apply cons_eq_inv in Heq as [_ Heq].
    apply app_inj_1 in Heq as [Ee <-]; [|by rewrite !to_bytes_length].
    by apply to_bytes_inj in Ee as ->.
  - unfold enc_slice in Heq. rewrite <- !app_comm_cons in Heq. apply cons_eq_inv in Heq as [_ Heq].
    rewrite <- !app_assoc in Heq.
    apply enc_length_inj in Heq as [Hl Heq]; [|done..]. by apply elts_inj in Heq as [-> ->].
Qed.

Lemma enc_op_nonempty o : op_ok o -> enc_op o <> [].
Proof. by destruct o. Qed.

Lemma enc_ops_inj (os os' : list op) :
  Forall op_ok os -> Forall op_ok os' -> concat (map enc_op os) = concat (map enc_op os') ->
  map message os = map message os'.
Proof.
  intros Hos. revert os'. induction Hos as [|o os Ho _ IH]; intros [|o' os'] Hos' Heq; cbn in *; [done|..].
  - apply Forall_cons in Hos' as [Ho' _]. symmetry in Heq. apply app_nil in Heq as [Heq _].
    by apply enc_op_nonempty in Ho'.
  - apply app_nil in Heq as [Heq _]. by apply enc_op_nonempty in Ho.
  - apply Forall_cons in Hos' as [Ho' Hos']. apply enc_op_inj in Heq as [-> Heq]; [|done..].
    f_equal. by apply IH.
Qed.
End readable.

(** ** Sampling *)
Section sampling.
Context {G : Type} `{RandomEngine G}.

(** More fuel never changes a result. *)
Lemma nat_loop_mono fuel fuel' n l msk g r :
  (fuel <= fuel')%nat -> nat_loop fuel n l msk g = Ok r -> nat_loop fuel' n l msk g = Ok r.
Proof.
  revert fuel' g. induction fuel as [|fuel IH]; intros [|fuel'] g Hf Hr; try done; [lia|].
  cbn [nat_loop] in *. apply bind_Ok_inv in Hr as ([buf g1] & -> & Hr). rewrite bind_Ok.
  destruct (_ <? n); [done|]. apply IH; [lia|done].
Qed.

Lemma nat_loop_lt fuel n l msk g r g' : nat_loop fuel n l msk g = Ok (r, g') -> r < n.
Proof.
  revert g. induction fuel as [|fuel IH]; intros g Hr; [done|].
  cbn [nat_loop] in Hr. apply bind_Ok_inv in Hr as ([buf g1] & _ & Hr).
  destruct (N.ltb_spec (N.land (fold_be buf) msk) n); [|by eapply IH].
  by injection Hr as <- <-.
Qed.

Lemma rng_nat_lt fuel n g r g' : rng_nat fuel n g = Ok (r, g') -> r < n.
Proof.
  unfold rng_nat. intros Hr. apply bind_Ok_inv in Hr as (u & _ & Hr).
  apply bind_Ok_inv in Hr as (u' & _ & Hr). by eapply nat_loop_lt.
Qed.

Lemma rng_nat_mono fuel fuel' n g r :
  (fuel <= fuel')%nat -> rng_nat fuel n g = Ok r -> rng_nat fuel' n g = Ok r.
Proof.
  intros Hf Hr. unfold rng_nat in *. apply bind_Ok_inv in Hr as (u & -> & Hr).
  apply bind_Ok_inv in Hr as (u' & -> & Hr). mstep. by eapply nat_loop_mono.
Qed.

(** A table with the numbers below [n], each once. *)
Definition distinct_below (n : nat) (a : list nat) : Prop :=
  length a = n /\ NoDup a /\ Forall (fun x => (x < n)%nat) a.

Lemma swap_spec {E} n a i j :
  distinct_below n a -> (i < n)%nat -> (j < n)%nat ->
  exists a', swap (E:=E) a i j = Ok a' /\ distinct_below n a' /\
    (forall p, p <> i -> p <> j -> a' !! p = a !! p).
Proof.
  intros (Hl & Hnd & Hlt) Hi Hj. unfold swap.
  destruct (lookup_lt_is_Some_2 a i) as [x Hx]; [lia|].
  destruct (lookup_lt_is_Some_2 a j) as [y Hy]; [lia|].
  unfold index. rewrite Hx, Hy. mstep. rewrite !store_Ok by (rewrite ?length_insert; lia). mstep.
  rewrite store_Ok by (rewrite length_insert; lia).
  eexists. split; [done|].
  set (a' := <[j := x]> (<[i := y]> a)).
  assert (length a' = n) as Hl' by (subst a'; by rewrite !length_insert).
  assert (forall p, p <> i -> p <> j -> a' !! p = a !! p) as Hother.
  { intros p Hpi Hpj. subst a'. by rewrite !list_lookup_insert_ne. }
  assert (forall p, exists q, a' !! p = a !! q /\ (p = i -> q = j) /\ (p = j -> q = i) /\
    (p <> i -> p <> j -> q = p)) as Hperm.
  { intros p. subst a'. destruct (decide (p = j)) as [->|Hpj].
    - exists i. rewrite list_lookup_insert_eq by (rewrite length_insert; lia). naive_solver.
    - rewrite list_lookup_insert_ne by done. destruct (decide (p = i)) as [->|Hpi].
      + exists j. rewrite list_lookup_insert_eq by lia. naive_solver.
      + exists p. rewrite list_lookup_insert_ne by done. naive_solver. }
  split; [|done]. split_and!; [done| |].
  - apply NoDup_alt. intros p q v Hp Hq.
    destruct (Hperm p) as (p' & Ep & P1 & P2 & P3), (Hperm q) as (q' & Eq & Q1 & Q2 & Q3).
    rewrite Ep in Hp. rewrite Eq in Hq. rewrite NoDup_alt in Hnd.
    pose proof (Hnd _ _ _ Hp Hq) as Hpq.
    destruct (decide (p = i)), (decide (p = j)), (decide (q = i)), (decide (q = j)); naive_solver lia.
  - apply Forall_lookup. intros p v Hp. destruct (Hperm p) as (q & Eq & _). rewrite Eq in Hp.
    rewrite Forall_lookup in Hlt. eauto.
Qed.

(** Invariant of the shuffle after [i] rounds. *)
Definition choose_inv (n : nat) (res0 : list nat) (i : nat) (st : list nat * list nat * G) : Prop :=
  distinct_below n st.1.1 /\ length st.1.2 = length res0 /\
  (forall p, (p < i)%nat -> st.1.2 !! p = st.1.1 !! p) /\
  (forall p, (i <= p)%nat -> st.1.2 !! p = res0 !! p).

Lemma choose_step_spec fuel n res0 i st st' :
  (i < n)%nat -> (i < length res0)%nat -> choose_inv n res0 i st ->
  choose_step fuel n st i = Ok st' -> choose_inv n res0 (S i) st'.
Proof.
  intros Hi Hir (Hd & Hlen & Hpre & Hpost) Hs. destruct st as [[a res] g]. cbn [fst snd] in *.
  unfold choose_step in Hs. apply bind_Ok_inv in Hs as ([r g1] & Hr & Hs).
  apply rng_nat_lt in Hr. rewrite Nat.mod_small in Hs by lia.
  destruct (swap_spec (E:=stuck) n a i (i + N.to_nat r) Hd Hi ltac:(lia)) as (a' & Ea & Hd' & Hother).
  rewrite Ea, bind_Ok in Hs. destruct (lookup_lt_is_Some_2 a' i) as [x Hx].
  { destruct Hd' as [-> _]. lia. }
  unfold index in Hs. rewrite Hx, bind_Ok, store_Ok, bind_Ok in Hs by lia.
  injection Hs as <-. split_and!; cbn [fst snd]; [done|by rewrite length_insert| |].
  - intros p Hp. destruct (decide (p = i)) as [->|Hne].
    + by rewrite list_lookup_insert_eq by lia.
    + rewrite list_lookup_insert_ne by done. rewrite Hpre by lia. symmetry. apply Hother; lia.
  - intros p Hp. rewrite list_lookup_insert_ne by lia. apply Hpost. lia.
Qed.

Lemma distinct_below_seq n : distinct_below n (seq 0 n).
Proof.
  split_and!; [apply length_seq|apply NoDup_seq|]. apply Forall_seq. lia.
Qed.

Lemma choose_spec fuel res n k g res' g' :
  n <> 0%nat -> choose fuel res n k g = Ok (res', g') ->
  length res' = length res /\ NoDup (take k res') /\ Forall (fun x => (x < n)%nat) (take k res') /\
  length (take k res') = k /\ drop k res' = drop k res.
Proof.
  intros Hn Hc. unfold choose in Hc. rewrite (proj2 (Nat.eqb_neq n 0) Hn) in Hc. cbn [orb] in Hc.
  destruct (Nat.eqb_spec k 0) as [->|Hk].
  { injection Hc as <- <-. cbn. split_and!; auto. constructor. }
  apply bind_Ok_inv in Hc as (u & Ha & Hc). apply rust_assert_Ok, andb_true_iff in Ha as [Hkn Hkr].
  apply Nat.leb_le in Hkn, Hkr.
  apply bind_Ok_inv in Hc as ([[a res1] g1] & Hf & Hc). injection Hc as <- <-.
  assert (choose_inv n res k (a, res1, g1)) as (Hd & Hlen & Hpre & Hpost).
  { enough (forall m i st, (i + m = k)%nat -> choose_inv n res i st ->
      foldM (choose_step fuel n) st (seq i m) = Ok (a, res1, g1) -> choose_inv n res k (a, res1, g1)) as Hg.
    { apply (Hg k 0%nat (seq 0 n, res, g)); [lia| |done].
      split_and!; [apply distinct_below_seq|done|lia|done]. }
    induction m as [|m IH]; intros i st Hi Hinv Hm.
    - injection Hm as ->. by rewrite Nat.add_0_r in Hi; subst.
    - cbn in Hm. apply bind_Ok_inv in Hm as (st1 & H1 & Hm).
      eapply (IH (S i)); [lia| |done]. eapply choose_step_spec; [..|done]; [lia|lia|done]. }
  cbn [fst snd] in *. destruct Hd as (Hla & Hnd & Hlt).
  assert (take k res1 = take k a) as Ht.
  { apply list_eq. intros p. destruct (decide (p < k)%nat).
    - rewrite !lookup_take_lt by done. auto.
    - rewrite !lookup_take_ge by lia. done. }
  split_and!; [done| | | |].
  - rewrite Ht. rewrite <- (take_drop k a) in Hnd. by apply NoDup_app in Hnd as [? _].
  - rewrite Ht. by apply Forall_take.
  - len.
  - apply list_eq. intros p. rewrite !lookup_drop. apply Hpost. lia.
Qed.
End sampling.

(** ** The bit mask and the byte count *)
Lemma land_mask n k : N.land n (2 ^ k - 1) = n mod 2 ^ k.
Proof. apply land_ones_mod. Qed.

Lemma mask_step k : k < 64 -> N.lor (shl64 (2 ^ k - 1) 1) 1 = 2 ^ (k + 1) - 1.
Proof.
  intros Hk. unfold shl64. rewrite N.shiftl_mul_pow2. change (2 ^ 1) with 2.
  assert (2 ^ (k + 1) <= 2 ^ 64) as Hle by (apply N.pow_le_mono_r; lia).
  assert (2 ^ (k + 1) = 2 * 2 ^ k) as E by (rewrite N.add_1_r; apply N.pow_succ_r'; lia).
  assert (0 < 2 ^ k) as Hpos by (apply N.neq_0_lt_0, N.pow_nonzero; lia).
  rewrite wrap64_small by lia.
  assert ((2 ^ k - 1) * 2 = N.shiftl (2 ^ k - 1) 1) as -> by by rewrite N.shiftl_mul_pow2.
  rewrite N.lor_comm, lor_disjoint_add by (cbn; lia). change (2 ^ 1) with 2. lia.
Qed.

Lemma mask_loop_spec fuel n k :
  n < 2 ^ 64 -> k + N.of_nat fuel = 64 -> k <= N.size n ->
  mask_loop fuel n (2 ^ k - 1) = 2 ^ N.size n - 1.
Proof.
  intros Hn. revert k. induction fuel as [|fuel IH]; intros k Hk Hs; cbn [mask_loop].
  - replace k with 64 in * by lia. f_equal. f_equal.
    assert (N.size n <= 64); [|lia].
    destruct n as [|p]; [done|]. rewrite N.size_log2 by done.
    pose proof (N.log2_lt_pow2 (N.pos p) 64 ltac:(lia)) as [Hl _]. specialize (Hl Hn). lia.
  - rewrite land_mask. destruct (N.eqb_spec (n mod 2 ^ k) n) as [E|E].
    + f_equal. f_equal. destruct (N.le_gt_cases (N.size n) k) as [|Hlt]; [lia|]. exfalso.
      assert (n < 2 ^ k) as Hnk by (rewrite <- E; apply N.mod_lt, N.pow_nonzero; lia).
      destruct n as [|p]; [cbn in *; lia|]. rewrite N.size_log2 in Hlt by done.
      apply N.log2_lt_pow2 in Hnk; lia.
    + assert (k < N.size n) as Hlt.
      { destruct (N.lt_ge_cases k (N.size n)) as [|Hge]; [done|]. exfalso. apply E.
        apply N.mod_small. eapply N.lt_le_trans; [apply N.size_gt|]. by apply N.pow_le_mono_r. }
      rewrite mask_step by lia. apply IH; lia.
Qed.

Lemma mask_spec n : n < 2 ^ 64 -> mask n = 2 ^ N.size n - 1.
Proof. intros Hn. unfold mask. apply (mask_loop_spec 64 n 0); [done|done|lia]. Qed.

Lemma byte_len_loop_spec fuel nn l :
  nn < 256 ^ N.of_nat fuel ->
  exists b, byte_len_loop fuel nn l = (l + b)%nat /\ (b <= fuel)%nat /\
    nn < 256 ^ N.of_nat b /\ (b = 0%nat \/ 256 ^ N.of_nat (b - 1) <= nn).
Proof.
  revert nn l. induction fuel as [|fuel IH]; intros nn l Hn; cbn [byte_len_loop].
  { exists 0%nat. rewrite Nat.add_0_r. auto. }
  destruct (N.eqb_spec nn 0) as [->|Hnz].
  { exists 0%nat. rewrite Nat.add_0_r. split_and!; [done|lia|done|auto]. }
  rewrite N.shiftr_div_pow2. change (2 ^ 8) with 256.
  rewrite Nat2N.inj_succ, N.pow_succ_r' in Hn.
  destruct (IH (nn / 256) (l + 1)%nat) as (b & -> & Hb & Hlt & Hge).
  { apply N.Div0.div_lt_upper_bound. lia. }
  exists (S b). split_and!; [lia|lia| |].
  - rewrite Nat2N.inj_succ, N.pow_succ_r'. dlia.
  - right. replace (S b - 1)%nat with b by lia. destruct Hge as [->|Hge]; [cbn; lia|].
    destruct b as [|b]; [cbn; lia|]. replace (S b - 1)%nat with b in Hge by lia.
    rewrite Nat2N.inj_succ, N.pow_succ_r'. dlia.
Qed.

Lemma byte_len_spec n :
  n < 2 ^ 64 -> (byte_len n <= 8)%nat /\ 2 ^ N.size n <= 256 ^ N.of_nat (byte_len n).
Proof.
  intros Hn. unfold byte_len.
  destruct (byte_len_loop_spec 9 n 0) as (b & -> & _ & Hlt & Hge); [cbn; lia|]. cbn [Nat.add].
  split.
  - destruct (Nat.le_gt_cases b 8) as [|Hgt]; [done|]. destruct Hge as [->|Hge]; [lia|].
    assert (256 ^ 8 <= 256 ^ N.of_nat (b - 1)) by (apply N.pow_le_mono_r; lia).
    change (256 ^ 8) with (2 ^ 64) in *. lia.
  - change 256 with (2 ^ 8) in *. rewrite <- N.pow_mul_r in *. apply N.pow_le_mono_r; [done|].
    destruct n as [|p]; [cbn; lia|]. rewrite N.size_log2 by done.
    apply N.log2_lt_pow2 in Hlt; lia.
Qed.

Lemma fold_be_le buf : (length buf <= 8)%nat -> fold_be buf = from_le_bytes buf.
Proof.
  induction buf as [|b buf IH]; intros Hl; [done|]. cbn [length] in Hl.
  cbn [fold_be foldr]. fold (fold_be buf). rewrite IH by lia.
  pose proof (from_le_bytes_bound buf) as Hb. pose proof (u8_to_N_bound b).
  assert (256 ^ N.of_nat (length buf) <= 256 ^ 7) as Hp by (apply N.pow_le_mono_r; lia).
  unfold shl64. rewrite N.shiftl_mul_pow2. change (2 ^ 8) with 256.
  change (256 ^ 7) with (2 ^ 56) in Hp. rewrite wrap64_small by lia.
  assert (from_le_bytes buf * 256 = N.shiftl (from_le_bytes buf) 8) as ->
    by by rewrite N.shiftl_mul_pow2.
  rewrite N.lor_comm, lor_disjoint_add by done. change (2 ^ 8) with 256.
  unfold from_le_bytes at 2. fold from_le_bytes. lia.
Qed.

(** The semantics of rejection sampling: draw, keep the low bits, retry until
    the value is below the bound. *)
Section rejection.
Context {G : Type} `{RandomEngine G}.
Hypothesis rng_length : forall n g bs g', rng_bytes n g = Ok (bs, g') -> length bs = n.

Definition candidate (n : N) (buf : list u8) : N := from_le_bytes buf mod 2 ^ N.size n.

Inductive samples (n : N) : G -> N -> G -> Prop :=
| samples_accept g buf g' :
    rng_bytes (byte_len n) g = Ok (buf, g') -> candidate n buf < n ->
    samples n g (candidate n buf) g'
| samples_reject g buf g1 r g' :
    rng_bytes (byte_len n) g = Ok (buf, g1) -> n <= candidate n buf ->
    samples n g1 r g' -> samples n g r g'.

Lemma rng_nat_loop fuel n g :
  0 < n < 2 ^ 64 -> rng_nat fuel n g = nat_loop fuel n (byte_len n) (mask n) g.
Proof.
  intros Hn. unfold rng_nat. rewrite (proj2 (N.ltb_lt _ _)) by lia. cbn [rust_assert]. mstep.
  destruct (byte_len_spec n) as [Hl _]; [lia|]. by rewrite (proj2 (Nat.leb_le _ _)).
Qed.

Lemma candidate_eq n g buf g' :
  n < 2 ^ 64 -> rng_bytes (byte_len n) g = Ok (buf, g') ->
  N.land (fold_be buf) (mask n) = candidate n buf.
Proof.
  intros Hn Hb. apply rng_length in Hb. destruct (byte_len_spec n Hn) as [Hl _].
  rewrite fold_be_le by lia. rewrite mask_spec, land_mask by done. done.
Qed.

Lemma rng_nat_samples n g r g' :
  0 < n < 2 ^ 64 -> (exists fuel, rng_nat fuel n g = Ok (r, g')) <-> samples n g r g'.
Proof.
  intros Hn. split.
  - intros [fuel Hr]. rewrite rng_nat_loop in Hr by done. revert g Hr.
    induction fuel as [|fuel IH]; intros g Hr; [done|]. cbn [nat_loop] in Hr.
    apply bind_Ok_inv in Hr as ([buf g1] & Hb & Hr).
    rewrite (candidate_eq n g buf g1) in Hr by (done || lia).
    destruct (N.ltb_spec (candidate n buf) n).
    + injection Hr as <- <-. by apply samples_accept.
    + eapply samples_reject; eauto.
  - induction 1 as [g buf g' Hb Hlt|g buf g1 r g' Hb Hge _ [fuel IH]].
    + exists 1%nat. rewrite rng_nat_loop by done. cbn [nat_loop]. rewrite Hb, bind_Ok.
      rewrite (candidate_eq n g buf g') by (done || lia). by rewrite (proj2 (N.ltb_lt _ _)).
    + exists (S fuel). rewrite rng_nat_loop in IH |- * by done. cbn [nat_loop]. rewrite Hb, bind_Ok.
      rewrite (candidate_eq n g buf g1) by (done || lia). by rewrite (proj2 (N.ltb_ge _ _)).
Qed.
End rejection.
