(* ===== verification/TranscriptTheorems.v ===== *)
(** * Theorems about transcripts and sampling *)
From stdpp Require Import prelude.
From Stdlib Require Import Lia NArith.
From S2P Require Import Prelude Words Interfaces Gf2_128 Transcript.

Local Open Scope N_scope.

Lemma represents_new `{Sha256} `{Aes256Laws} init :
  represents (Transcript_new init) (absorb {| absorbed := []; drawn := 0 |} (enc_bytes init)).
Proof. apply write_bytes_absorbs. by split. Qed.

Section theorems.
Context `{Sha256} `{Aes256Laws} {A : Type} `{SerializableField A}.

(** C27: refinement.  Any interleaving of writes and draws on a transcript
    behaves like a log of absorbed messages with a position: every draw
    returns the next bytes of the AES-256 counter-mode stream keyed by the
    SHA-256 digest of everything absorbed so far, the position restarts at
    zero after every write and continues across consecutive draws, and
    nothing panics below 2^44 drawn bytes. *)
Theorem transcript_refines_log (init : list u8) (ops : list (op (A:=A))) :
  (serialized_size_bytes (E:=A) <= 128)%nat -> draws ops <= 16 * MAX_PRF_BLOCKS ->
  exists t', run_ops ops (Transcript_new init) =
      Ok ((foldl spec_op ([], absorb {| absorbed := []; drawn := 0 |} (enc_bytes init)) ops).1, t') /\
    represents t' (foldl spec_op ([], absorb {| absorbed := []; drawn := 0 |} (enc_bytes init)) ops).2.
Proof.
  intros Hfit Hdraw. by apply run_ops_spec, Hdraw; [|apply represents_new].
Qed.
End theorems.


Section injectivity.
Context `{Sha256} `{Aes256Laws} {A : Type} `{SerializableFieldLaws A}.


End injectivity.

Section sampling_theorems.
Context {G : Type} `{RandomEngine G}.
Hypothesis rng_length : forall n g bs g', rng_bytes n g = Ok (bs, g') -> length bs = n.

(** C38: [nat(n)] is rejection sampling: it returns exactly when some draw of
    [ceil(bits(n) / 8)] bytes, reduced to the low [bits(n)] bits, falls below
    [n], and then returns the first such value with the engine's state after
    that draw; enough fuel always gives that result. *)
Theorem rng_nat_is_rejection_sampling (n : N) (g g' : G) (r : N) :
  0 < n < 2 ^ 64 -> (exists fuel, rng_nat fuel n g = Ok (r, g')) <-> samples n g r g'.
Proof. by apply rng_nat_samples. Qed.

(** [choose] fills the first [k] slots with distinct indices below [n]
    and leaves the others alone. *)
Theorem choose_distinct fuel (res : list nat) (n k : nat) (g : G) res' g' :
  n <> 0%nat -> choose fuel res n k g = Ok (res', g') ->
  length res' = length res /\ NoDup (take k res') /\ Forall (fun x => (x < n)%nat) (take k res') /\
  length (take k res') = k /\ drop k res' = drop k res.
Proof. apply choose_spec. Qed.
End sampling_theorems.

(** ** Instances *)
Definition toy_aes : Aes256 := fun key block =>
  to_le_bytes 16 (from_le_bytes key * 31 + from_le_bytes block * 0x9E3779B97F4A7C15).
Lemma toy_aes_laws : @Aes256Laws toy_aes.
Proof. split. intros. apply length_to_le_bytes. Qed.

Definition sample_ops : list (op (A:=Gf2_128)) :=
  [WriteBytes [x01; x02]; Draw 5; Draw 20; WriteElt (gf 7); Write0 3; WriteSlice [gf 1; gf 2]; Draw 4].

Lemma transcript_refines_log_witness :
  exists t', @run_ops toy_sha256 toy_aes Gf2_128 _ sample_ops (Transcript_new [x2a]) =
    Ok ((foldl (@spec_op toy_sha256 toy_aes Gf2_128 _)
           ([], absorb {| absorbed := []; drawn := 0 |} (enc_bytes [x2a])) sample_ops).1, t').
Proof.
  destruct (@transcript_refines_log toy_sha256 toy_aes toy_aes_laws Gf2_128 _ [x2a] sample_ops)
    as (t' & E & _).
  - cbn. lia.
  - vm_compute. congruence.
  - exists t'. exact E.
Defined.




#[local] Instance toy_engine : RandomEngine N := fun n g => Ok (toy_bytes n g).

Lemma toy_engine_length n g bs g' : rng_bytes n g = Ok (bs, g') -> length bs = n.
Proof. intros E. injection E as <- _. apply length_to_le_bytes. Qed.

Lemma rng_nat_is_rejection_sampling_witness : exists r g', samples 300 0 r g'.
Proof.
  eexists _, _. refine (proj1 (rng_nat_is_rejection_sampling toy_engine_length 300 0 _ _ ltac:(lia)) _).
  exists 10%nat. vm_compute. reflexivity.
Defined.

Lemma choose_distinct_witness :
  exists res' g', choose 50 [0; 0; 0; 9]%nat 10 3 0 = Ok (res', g') /\ NoDup (take 3 res').
Proof.
  eexists _, _. split; [vm_compute; reflexivity|].
  refine (proj1 (proj2 (choose_distinct 50 [0; 0; 0; 9]%nat 10 3 0 _ _ _ _))); [done|vm_compute; reflexivity].
Defined.
