(* ===== verification/SumcheckProof.v ===== *)
(** * Sumcheck proofs and their encoding

    The scalar codec of [src/rust/runtime/proto/src/util.rs] and the proof
    types, wire encoding and pad layout of
    [src/rust/runtime/proto/src/sumcheck_v1.rs]. *)
From stdpp Require Import prelude strings.
From Stdlib Require Import Lia NArith.
From S2P Require Import Prelude Words Stream Interfaces Circuit.

(** A two-element array [[A; 2]]; its index is one of 0 and 1. *)
Abbreviation pair2 A := (A * A)%type.
Definition at2 {A} (p : pair2 A) (i : nat) : A := if Nat.eqb i 0 then p.1 else p.2.
Definition set2 {A} (p : pair2 A) (i : nat) (a : A) : pair2 A :=
  if Nat.eqb i 0 then (a, p.2) else (p.1, a).

(** ** Scalars ([util.rs]) *)
Section scalars.
Context {A : Type} `{SerializableField A}.

Definition write_elt_field (bytes : list u8) (e : A) : list u8 := bytes ++ to_bytes e.

Definition read_elt_field : reader (list u8) A := fun bytes =>
  reject_if (length bytes <? serialized_size_bytes (E:=A)) "EOF reading proof element"%string ;;
  let chunk := take (serialized_size_bytes (E:=A)) bytes in
  let bytes := drop (serialized_size_bytes (E:=A)) bytes in
  elt ← bytes_to_element chunk;
  mret (elt, bytes).

Definition read_vec_field (n : nat) : reader (list u8) (list A) := read_n n read_elt_field.
End scalars.

Definition write_size_4bytes {E} (bytes : list u8) (val : nat) : outcome E (list u8) :=
  rust_assert (N.of_nat val <=? 2 ^ 32 - 1)%N ;;
  mret (bytes ++ to_le_bytes 4 (N.of_nat val)).
Definition read_size_4bytes : reader (list u8) nat := fun bytes =>
  reject_if (length bytes <? 4) "EOF reading size"%string ;;
  mret (N.to_nat (from_le_bytes (take 4 bytes)), drop 4 bytes).
Definition read_bytes_32 : reader (list u8) (list u8) := fun bytes =>
  reject_if (length bytes <? 32) "EOF reading 32 bytes"%string ;;
  mret (take 32 bytes, drop 32 bytes).

(** ** Proofs *)
Record RoundPoly (E : Type) := { evaluations : pair2 E }.
Arguments evaluations {_} _. Arguments Build_RoundPoly {_} _.

Record LayerProof (E : Type) := { hp : pair2 (list (RoundPoly E)); claims : pair2 E }.
Arguments hp {_} _. Arguments claims {_} _. Arguments Build_LayerProof {_} _ _.

Record SumcheckProof (E : Type) := { proof_layers : list (LayerProof E) }.
Arguments proof_layers {_} _. Arguments Build_SumcheckProof {_} _.

Record SumcheckProofGeometry := { logw_layers : list nat }.

Definition from_circuit {E} (circuit : Circuit E) : SumcheckProofGeometry :=
  {| logw_layers := map logw (layers (raw circuit)) |}.

(** [usize::checked_mul] and [checked_add] *)
Definition checked_mul (a b : N) : option N :=
  if (a * b <? 2 ^ 64)%N then Some (a * b)%N else None.
Definition checked_add (a b : N) : option N :=
  if (a + b <? 2 ^ 64)%N then Some (a + b)%N else None.

Section proof_codec.
Context {A : Type} `{SerializableField A}.
Local Open Scope string_scope.

(** The size check in front of [read]. *)
Definition add_layer_size (total_len : N) (logw : nat) : outcome string N :=
  reject_if (negb (sane_logw logw)) "Sumcheck layer logw " ;;
  let cp_elts := 0%N in
  hp_elts ← ok_or (checked_mul (N.of_nat logw) 4) "Overflow computing hp elements";
  layer_elts ← ok_or (checked_add cp_elts hp_elts ≫= fun sum => checked_add sum 2)
                     "Overflow computing layer elements";
  layer_bytes ← ok_or (checked_mul layer_elts (N.of_nat (serialized_size_bytes (E:=A))))
                      "Overflow computing layer bytes";
  ok_or (checked_add total_len layer_bytes) "Overflow computing total bytes".

Definition read_round : reader (list u8) (RoundPoly A * RoundPoly A) :=
  p0_0 ← read_elt_field;
  p1_0 ← read_elt_field;
  p0_2 ← read_elt_field;
  p1_2 ← read_elt_field;
  mret ({| evaluations := (p0_0, p0_2) |}, {| evaluations := (p1_0, p1_2) |}).

Definition read_layer (logw : nat) : reader (list u8) (LayerProof A) :=
  rounds ← read_n logw read_round;
  c0 ← read_elt_field;
  c1 ← read_elt_field;
  mret {| hp := (map fst rounds, map snd rounds); claims := (c0, c1) |}.

Fixpoint read_layers (logws : list nat) : reader (list u8) (list (LayerProof A)) :=
  match logws with
  | [] => mret []
  | logw :: logws' =>
      layer ← read_layer logw;
      layers ← read_layers logws';
      mret (layer :: layers)
  end.

Definition read_proof (geom : SumcheckProofGeometry) : reader (list u8) (SumcheckProof A) :=
  fun bytes =>
    total_len ← foldM add_layer_size 0%N (logw_layers geom);
    reject_if (N.of_nat (length bytes) <? total_len)%N
      "SumcheckProof size mismatch: expected at least " ;;
    (layers ← read_layers (logw_layers geom); mret {| proof_layers := layers |}) bytes.

(** Round by round, both hands' evaluations at 0 and then both at 2. *)
Definition write_round (layer : LayerProof A) (bytes : list u8) (r : nat)
  : outcome string (list u8) :=
  foldM (fun bytes k =>
    foldM (fun bytes hand =>
      p ← index (at2 (hp layer) hand) r;
      mret (write_elt_field bytes (at2 (evaluations p) k))) bytes [0; 1]) bytes [0; 1].

Definition write_layer (p : SumcheckProof A) (geom : SumcheckProofGeometry)
    (bytes : list u8) (ly : nat) : outcome string (list u8) :=
  logw ← index (logw_layers geom) ly;
  reject_if (negb (sane_logw logw)) "Sumcheck layer logw " ;;
  layer ← index (proof_layers p) ly;
  rust_assert (Nat.eqb (length (hp layer).1) logw) ;;
  rust_assert (Nat.eqb (length (hp layer).2) logw) ;;
  bytes ← foldM (write_round layer) bytes (seq 0 logw);
  mret (foldl (fun bytes k => write_elt_field bytes (at2 (claims layer) k)) bytes [0; 1]).

Definition write_to_buf (p : SumcheckProof A) (bytes : list u8) (geom : SumcheckProofGeometry)
  : outcome string (list u8) :=
  rust_assert (Nat.eqb (length (proof_layers p)) (length (logw_layers geom))) ;;
  foldM (write_layer p geom) bytes (seq 0 (length (logw_layers geom))).

Definition write_proof (p : SumcheckProof A) (geom : SumcheckProofGeometry)
  : outcome string (list u8) := write_to_buf p [] geom.
End proof_codec.

(** ** Geometry *)
Definition pad_count (logw : nat) : nat := 4 * logw + 3.

Definition serialized_elements (geom : SumcheckProofGeometry) : outcome string nat :=
  foldM (fun total logw =>
    reject_if (negb (sane_logw logw)) "sumcheck logw exceeds MAX_LOGW"%string ;;
    ok_or (if (N.of_nat (total + (4 * logw + 2)) <? 2 ^ 64)%N then Some (total + (4 * logw + 2)) else None)
      "sumcheck size overflow"%string) 0 (logw_layers geom).

(** [scan]: the three claim positions of each layer. *)
Definition claim_indices_step {E} (st : list (nat * nat * nat) * nat) (logw : nat)
  : outcome E (list (nat * nat * nat) * nat) :=
  let '(out, next) := st in
  rust_assert (sane_logw logw) ;;
  let claims := next + pad_count logw - 3 in
  mret (out ++ [(claims, claims + 1, claims + 2)], claims + 3).
Definition claim_indices {E} (geom : SumcheckProofGeometry) (base : nat)
  : outcome E (list (nat * nat * nat)) :=
  fst <$> foldM claim_indices_step ([], base) (logw_layers geom).

Record LayerPadLayout := {
  rounds : list (pair2 (pair2 nat));
  claim_positions : nat * nat * nat
}.

Definition layer_pad_layout (logw : nat) (claims : nat * nat * nat) : LayerPadLayout :=
  let start := claims.1.1 - 4 * logw in
  {| rounds := map (fun round =>
       ((start + 4 * round, start + 4 * round + 1),
        (start + 4 * round + 2, start + 4 * round + 3))) (seq 0 logw);
     claim_positions := claims |}.

Definition pad_layout {E} (geom : SumcheckProofGeometry) (base : nat)
  : outcome E (list LayerPadLayout) :=
  cs ← claim_indices geom base;
  mret (zip_with layer_pad_layout (logw_layers geom) cs).

(** Shapes agree: as many layers as the geometry, as many rounds as each
    layer has variables. *)
Definition layer_shape {A} (layer : LayerProof A) (logw : nat) : bool :=
  Nat.eqb (length (hp layer).1) logw && Nat.eqb (length (hp layer).2) logw.
Definition proof_shape {A} (p : SumcheckProof A) (geom : SumcheckProofGeometry) : bool :=
  Nat.eqb (length (proof_layers p)) (length (logw_layers geom))
  && forallb (fun '(layer, logw) => layer_shape layer logw)
       (zip (proof_layers p) (logw_layers geom)).
Definition validate {A} (p : SumcheckProof A) (geom : SumcheckProofGeometry) : outcome string unit :=
  reject_if (negb (proof_shape p geom)) "sumcheck shape mismatch"%string ;;
  _ ← serialized_elements geom;
  mret tt.
