(* ===== verification/SumcheckV1.v ===== *)
(** * Sumcheck v1: tables, tensors and messages

    The dense tables, equality weights, sparse wiring tensor, circuit
    evaluation and transcript encoding of [src/rust/runtime/sumcheck-v1/src]:
    one module per Rust module. *)
From stdpp Require Import prelude strings.
From Stdlib Require Import Lia NArith.
From S2P Require Import Prelude Words Interfaces Circuit Field Transcript SumcheckProof.

Local Open Scope fe_scope.

(** [SupportsSampling::sample], with the engine's [bytes] as its callback. *)
Class SupportsSampling (E : Type) :=
  sample : forall G : Type, (nat -> G -> outcome stuck (list u8 * G)) -> G -> outcome stuck (E * G).

Section sampling.
Context {E : Type} `{SupportsSampling E} {G : Type} `{RandomEngine G}.

Definition elt_field (g : G) : outcome stuck (E * G) := sample G rng_bytes g.
Definition elt_field_slice (len : nat) (g : G) : outcome stuck (list E * G) :=
  foldM (fun '(v, g) _ => '(e, g) ← elt_field g; mret (v ++ [e], g)) ([], g) (seq 0 len).
End sampling.

(** ** [dense.rs] *)
Module dense.
Section dense.
Context {E : Type} `{AlgebraicField E} {Err : Type}.

Definition affine_interpolation (r f0 f1 : E) : E := fma f0 (f1 - f0) r.
Definition affine_interpolation_z_nz (r f1 : E) : E := f1 * r.
Definition affine_interpolation_nz_z (r f0 : E) : E := f0 - f0 * r.

(** In place: entry [i] is overwritten after entries [2 i] and [2 i + 1]
    are read. *)
Definition bind_step (r : E) (v : list E) (i : nat) : outcome Err (list E) :=
  v0 ← index v (2 * i);
  v1 ← index v (2 * i + 1);
  store v i (affine_interpolation r v0 v1).
Definition bind (v : list E) (r : E) : outcome Err (list E) :=
  rust_assert (negb (Nat.eqb (length v) 0)) ;;
  let in_n := length v in
  let half := (in_n / 2)%nat in
  v ← foldM (bind_step r) v (seq 0 half);
  if negb (Nat.eqb (in_n mod 2) 0) then
    vn ← index v (in_n - 1);
    v ← store v half (affine_interpolation_nz_z r vn);
    mret (take (half + 1) v)
  else mret (take half v).

(** [chunks_exact(2)] *)
Fixpoint chunks_exact2 (v : list E) : list (E * E) :=
  match v with a :: b :: v' => (a, b) :: chunks_exact2 v' | _ => [] end.
Definition bind_out_of_place (v : list E) (r : E) : outcome Err (list E) :=
  rust_assert (negb (Nat.eqb (length v) 0)) ;;
  let in_n := length v in
  let half := (in_n / 2)%nat in
  let out := map (fun '(a, b) => affine_interpolation r a b) (chunks_exact2 (take (2 * half) v)) in
  if negb (Nat.eqb (in_n mod 2) 0) then
    vn ← index v (in_n - 1);
    mret (out ++ [affine_interpolation_nz_z r vn])
  else mret out.

Definition bind_all (logv : nat) (v : list E) (r : list E) : outcome Err (list E) :=
  rust_assert (negb (Nat.eqb (length v) 0)) ;;
  rust_assert (sane_logw logv) ;;
  rust_assert (N.of_nat (length v) <=? 2 ^ N.of_nat logv)%N ;;
  foldM bind v (take logv r).

Definition normalize (v : list E) : list E := match v with [] => [0] | _ => v end.

Definition as_scalar (v : list E) : outcome Err E :=
  rust_assert (Nat.eqb (length v) 1) ;;
  index v 0.
End dense.
End dense.

(** ** [eq.rs] *)
Module eq.
Section eq.
Context {E : Type} `{AlgebraicField E} {Err : Type}.

(** One coordinate, on the weights [(a, b)] of [n] entries. *)
Definition eval_step (st : E * E * nat) (ij : E * E) : E * E * nat :=
  let '(a, b, n) := st in
  let '(i1, j1) := ij in
  let i0 := 1 - i1 in
  let j0 := 1 - j1 in
  let i0j0 := i0 * j0 in
  let i1j1 := i1 * j1 in
  let b := if Nat.even n then fma (b * i1j1) a i0j0 else b * i0j0 in
  let a := a * (i0j0 + i1j1) in
  (a, b, ((n + 1) / 2)%nat).
Definition eval (logn n : nat) (input_i input_j : list E) : outcome Err E :=
  rust_assert (Nat.leb logn (length input_i) && Nat.leb logn (length input_j)) ;;
  mret (foldl eval_step (1, 1, n) (zip (take logn input_i) (take logn input_j))).1.2.

(** The slice [eq[0..n]] is filled; the rest is kept. *)
Fixpoint fill_recursive (eq : list E) (l n : nat) (g0 g1 : list E) (w0 w1 : E)
  : outcome Err (list E) :=
  rust_assert (Nat.leb n (length eq) && Nat.leb l (length g0) && Nat.leb l (length g1)
               && (Nat.eqb l 0 || negb (Nat.eqb (length eq) 0))) ;;
  match l with
  | S nl =>
      let s := (2 ^ nl)%nat in
      g0nl ← index g0 nl;
      g1nl ← index g1 nl;
      let w0hi := w0 * g0nl in
      let w1hi := w1 * g1nl in
      let w0lo := w0 - w0hi in
      let w1lo := w1 - w1hi in
      if Nat.ltb s n then
        eq_lo ← fill_recursive (take s eq) nl s g0 g1 w0lo w1lo;
        eq_hi ← fill_recursive (drop s (take n eq)) nl (n - s) g0 g1 w0hi w1hi;
        mret (eq_lo ++ eq_hi ++ drop n eq)
      else
        eq_lo ← fill_recursive (take n eq) nl n g0 g1 w0lo w1lo;
        mret (eq_lo ++ drop n eq)
  | O => store eq 0 (w0 + w1)
  end.

Definition eq2 (logn n : nat) (g0 g1 : list E) (alpha : E) : outcome Err (list E) :=
  fill_recursive (replicate n 0) logn n g0 g1 1 alpha.
End eq.
End eq.

(** ** [hquad.rs] *)
(** Remaining right- and left-wire indices. *)
Abbreviation HCorner := (pair2 N) (only parsing).

Record HQuad (E : Type) := { hc : list HCorner; vc : list E }.
Arguments hc {_} _. Arguments vc {_} _. Arguments Build_HQuad {_} _ _.

Module hquad.
Section hquad.
Context {E : Type} `{AlgebraicField E} {Err : Type}.

(** [if let Some(last) = vc.last_mut() { f.add(last, vcc) }] *)
Definition add_last (vc : list E) (x : E) : list E :=
  match last vc with
  | Some y => <[(length vc - 1)%nat := y + x]> vc
  | None => vc
  end.

(** The callback of the term loop, on [(hc, vc)] and the previous corner. *)
Definition bind_g_term (dot : list E) (beta : E) (st : HQuad E * (N * N)) (term : Term E)
  : outcome Err (HQuad E * (N * N)) :=
  let '(q, (prev_h0, prev_h1)) := st in
  dot_val ← unwrap (dot !! N.to_nat (t_g term));
  let vcc := if is_zero (t_k term) then beta * dot_val else t_k term * dot_val in
  if ((t_h0 term =? prev_h0) && (t_h1 term =? prev_h1))%N then
    mret ({| hc := hc q; vc := add_last (vc q) vcc |}, (prev_h0, prev_h1))
  else
    mret ({| hc := hc q ++ [(t_h0 term, t_h1 term)]; vc := vc q ++ [vcc] |},
          (t_h0 term, t_h1 term)).

Definition NO_CORNER : N := 0xffffffff.

Definition bind_g (layer : Layer) (constants : list E) (logv nv : nat) (g0 g1 : list E)
    (alpha beta : E) : outcome Err (HQuad E) :=
  _ ← nterms_after_bind_g layer;
  rust_assert (sane_logw logv) ;;
  dot ← eq.eq2 logv nv g0 g1 alpha;
  '(q, _) ← for_each_term layer constants (bind_g_term dot beta)
              ({| hc := []; vc := [] |}, (NO_CORNER, NO_CORNER));
  mret q.

(** The corner read at [rd] and, when its partner follows, the pair: the new
    corner, its value and how many corners were read. *)
Definition bind_h_read (q : HQuad E) (n : nat) (r : E) (hand rd : nat)
  : outcome Err (HCorner * E * nat) :=
  let ohand := (1 - hand)%nat in
  c ← index (hc q) rd;
  v ← index (vc q) rd;
  let hcc := set2 (set2 (0%N, 0%N) hand (N.shiftr (at2 c hand) 1)) ohand (at2 c ohand) in
  let single :=
    (hcc, if N.land (at2 c hand) 1 =? 0 then dense.affine_interpolation_nz_z r v
          else dense.affine_interpolation_z_nz r v, 1%nat)%N in
  let rd1 := (rd + 1)%nat in
  if Nat.ltb rd1 n then
    c1 ← index (hc q) rd1;
    v1 ← index (vc q) rd1;
    if ((at2 c ohand =? at2 c1 ohand)
        && (N.shiftr (at2 c hand) 1 =? N.shiftr (at2 c1 hand) 1)
        && (at2 c1 hand =? wrapping_add32 (at2 c hand) 1))%N
    then mret (hcc, dense.affine_interpolation r v v1, 2%nat)
    else mret single
  else mret single.

(** [while rd < n]: every iteration advances [rd], [n] iterations are
    enough. *)
Fixpoint bind_h_loop (fuel n : nat) (r : E) (hand : nat) (q : HQuad E) (rd wr : nat)
  : outcome Err (HQuad E * nat) :=
  match fuel with
  | O => mret (q, wr)
  | S fuel' =>
      if Nat.ltb rd n then
        '(c, v, k) ← bind_h_read q n r hand rd;
        hc' ← store (hc q) wr c;
        vc' ← store (vc q) wr v;
        bind_h_loop fuel' n r hand {| hc := hc'; vc := vc' |} (rd + k) (wr + 1)
      else mret (q, wr)
  end.

Definition bind_h (q : HQuad E) (r : E) (hand : nat) : outcome Err (HQuad E) :=
  let n := length (hc q) in
  rust_assert (Nat.eqb (length (vc q)) n) ;;
  '(q, wr) ← bind_h_loop n n r hand q 0 0;
  mret {| hc := take wr (hc q); vc := take wr (vc q) |}.

Definition scalar (q : HQuad E) : outcome Err E :=
  rust_assert (Nat.eqb (length (hc q)) 1) ;;
  c ← index (hc q) 0;
  rust_assert (c.1 =? 0)%N ;;
  rust_assert (c.2 =? 0)%N ;;
  rust_assert (Nat.eqb (length (vc q)) 1) ;;
  index (vc q) 0.
End hquad.
End hquad.

(** ** [eval.rs] *)
Section eval.
Context {E : Type} `{AlgebraicField E}.
Local Open Scope string_scope.

Definition eval_term (w : list E) (v : list E) (term : Term E) : outcome string (list E) :=
  wl ← index w (N.to_nat (t_h1 term));
  wr ← index w (N.to_nat (t_h0 term));
  if is_zero (t_k term) then
    let y := (wl * wr)%fe in
    reject_if (negb (is_zero y)) "gate multiplication constraint not satisfied: left_wire=" ;;
    mret v
  else
    let x := (t_k term * wl * wr)%fe in
    vg ← index v (N.to_nat (t_g term));
    store v (N.to_nat (t_g term)) (vg + x)%fe.

Definition eval_quad (nv : nat) (w : list E) (layer : Layer) (constants : list E)
  : outcome string (list E) :=
  for_each_term layer constants (eval_term w) (replicate nv 0%fe).

(** The iteration for layer [l]: the number of its outputs is the number of
    inputs of the layer above. *)
Definition eval_layer (circuit : Circuit E) (st : list (list E) * list E) (l : nat)
  : outcome string (list (list E) * list E) :=
  let '(in_layers, w) := st in
  nv ← (match l with
        | S l' => layer ← index (layers (raw circuit)) l'; mret (nw layer)
        | O => mret (noutput (raw circuit))
        end);
  layer ← index (layers (raw circuit)) l;
  v ← map_err (fun _ => "Witness does not satisfy circuit constraints at layer ")
        (eval_quad nv w layer (constants (raw circuit)));
  in_layers ← store in_layers l w;
  mret (in_layers, v).

Definition eval_circuit (w : list E) (circuit : Circuit E) : outcome string (list (list E)) :=
  let nl := length (layers (raw circuit)) in
  '(in_layers, w) ← foldM (eval_layer circuit) (replicate nl [], w) (rev (seq 0 nl));
  reject_if (negb (forallb is_zero w)) "Circuit output at index " ;;
  mret in_layers.
End eval.

(** ** [poly.rs] and [verifier_data.rs] *)
Record RoundCoefficients (E : Type) := { l1 : E; l0_minus_l1 : E; l2 : E }.
Arguments l1 {_} _. Arguments l0_minus_l1 {_} _. Arguments l2 {_} _.
Arguments Build_RoundCoefficients {_} _ _ _.

Record LayerVerifierData (E : Type) := {
  vd_rounds : pair2 (list (RoundCoefficients E));
  bound_quad : E;
  vd_alpha : E
}.
Arguments vd_rounds {_} _. Arguments bound_quad {_} _. Arguments vd_alpha {_} _.
Arguments Build_LayerVerifierData {_} _ _ _.

Record VerifierData (E : Type) := {
  vd_layers : list (LayerVerifierData E);
  input_alpha : E;
  input_weights : list E
}.
Arguments vd_layers {_} _. Arguments input_alpha {_} _. Arguments input_weights {_} _.
Arguments Build_VerifierData {_} _ _ _.

Section messages.
Context {E : Type} `{AlgebraicField E} `{InterpolationField E} {Err : Type}.

(** [QuadRoundPoly::to_wire] keeps the evaluations at the first and third
    points; [QuadWirePoly] restores the second from the claim. *)
Definition to_wire (p : list E) : outcome Err (RoundPoly E) :=
  e0 ← index p 0; e2 ← index p 2; mret {| evaluations := (e0, e2) |}.
Definition to_poly (p : RoundPoly E) (claim : E) : list E :=
  let g0 := (evaluations p).1 in
  let g2 := (evaluations p).2 in
  [g0; claim - g0; g2].
Definition poly_add (p q : RoundPoly E) : RoundPoly E :=
  {| evaluations := ((evaluations p).1 + (evaluations q).1, (evaluations p).2 + (evaluations q).2) |}.
Definition poly_sub (p q : RoundPoly E) : RoundPoly E :=
  {| evaluations := ((evaluations p).1 - (evaluations q).1, (evaluations p).2 - (evaluations q).2) |}.

Definition RoundCoefficients_new (basis : list (list E)) (challenge : E)
  : outcome Err (RoundCoefficients E) :=
  c ← LagrangeBasis.coef basis challenge;
  l0 ← index c 0; l1 ← index c 1; l2 ← index c 2;
  mret {| l1 := l1; l0_minus_l1 := l0 - l1; l2 := l2 |}.

Definition RoundCoefficients_evaluate (c : RoundCoefficients E) (p : RoundPoly E) (claim : E) : E :=
  let value := l1 c * claim in
  let value := fma value (l0_minus_l1 c) (evaluations p).1 in
  fma value (l2 c) (evaluations p).2.
End messages.

(** ** [transcript.rs] *)
Module transcript.
Section transcript.
Context {E : Type} `{AlgebraicField E} `{SerializableField E} `{SupportsSampling E}.
Context `{Sha256} `{Aes256}.

Definition write_sumcheck_statement (circuit : Circuit E) (public_inputs : list E) (t : Transcript)
  : outcome stuck Transcript :=
  rust_assert (Nat.eqb (length public_inputs) (npublic_input (raw circuit))) ;;
  let t := write_bytes (id circuit) t in
  t ← foldM (fun t inp => Transcript.write_elt_field inp t) t
        (take (npublic_input (raw circuit)) public_inputs);
  t ← Transcript.write_elt_field fzero t;
  nterms ← foldM (fun n layer => k ← num_terms layer; mret (n + k)%nat) 0%nat (layers (raw circuit));
  mret (write0 nterms t).

Definition begin_circuit (t : Transcript) : outcome stuck (list E * list E * Transcript) :=
  '(q, t) ← elt_field_slice MAX_LOGW t;
  '(g, t) ← elt_field_slice MAX_LOGW t;
  mret (q, g, t).

Definition begin_layer (t : Transcript) : outcome stuck (E * E * Transcript) :=
  '(alpha, t) ← elt_field t;
  '(beta, t) ← elt_field t;
  mret (alpha, beta, t).

Definition end_layer (claims : pair2 E) (t : Transcript) : outcome stuck Transcript :=
  write_elt_field_slice [claims.1; claims.2] t.

Definition write_poly (t : Transcript) (p : RoundPoly E) : outcome stuck Transcript :=
  foldM (fun t i => Transcript.write_elt_field (at2 (evaluations p) i) t) t [0; 1]%nat.

Definition round (p : RoundPoly E) (t : Transcript) : outcome stuck (E * Transcript) :=
  t ← write_poly t p;
  elt_field t.
End transcript.
End transcript.

(** ** [pad.rs] *)
Module pad.
Section pad.
Context {E : Type} `{AlgebraicField E} `{SupportsSampling E} {G : Type} `{RandomEngine G}.

(** State: the two hands' pads, the flattened witness, the engine. *)
Definition sample_hand (st : pair2 (list (RoundPoly E)) * list E * G) (hand : nat)
  : outcome stuck (pair2 (list (RoundPoly E)) * list E * G) :=
  let '(hp, witness, g) := st in
  '(r0, g) ← elt_field g;
  '(r2, g) ← elt_field g;
  mret (set2 hp hand (at2 hp hand ++ [{| evaluations := (r0, r2) |}]), witness ++ [r0; r2], g).
Definition sample_round (st : pair2 (list (RoundPoly E)) * list E * G) (round : nat) :=
  foldM sample_hand st [0; 1]%nat.

Definition sample_layer (st : list (LayerProof E) * list E * G) (logw : nat)
  : outcome stuck (list (LayerProof E) * list E * G) :=
  let '(layers, witness, g) := st in
  '(hp, witness, g) ← foldM sample_round (([], []), witness, g) (seq 0 logw);
  '(r0, g) ← elt_field g;
  '(r1, g) ← elt_field g;
  let rr := r0 * r1 in
  mret (layers ++ [{| hp := hp; claims := (r0, r1) |}], witness ++ [r0; r1] ++ [rr], g).

Definition sample_pad (geometry : SumcheckProofGeometry) (g : G)
  : outcome stuck (SumcheckProof E * list E * G) :=
  '(layers, witness, g) ← foldM sample_layer ([], [], g) (logw_layers geometry);
  mret ({| proof_layers := layers |}, witness, g).
End pad.
End pad.
