(* ===== verification/SumcheckProtocol.v ===== *)
(** * Sumcheck v1: prover, symbolic relations and verifier

    [src/rust/runtime/sumcheck-v1/src/{prover,symbolic,verifier}.rs]. *)
From stdpp Require Import prelude strings.
From Stdlib Require Import Lia NArith.
From S2P Require Import Prelude Words Interfaces Circuit Field Transcript SumcheckProof SumcheckV1.

Local Open Scope fe_scope.

(** ** [prover.rs] *)
Module prover.
Section prover.
Context {E : Type} `{AlgebraicField E} `{!RuntimeField E} `{InterpolationField E}.
Context `{SerializableField E} `{SupportsSampling E} `{Sha256} `{Aes256}.

Record Bindings := { b_logv : nat; b_nv : nat; b_challenges : pair2 (list E) }.

(** [qw[h] += Q[corner] * w_other[other]] over the corners, in order. *)
Definition fill_step {Err} (q : HQuad E) (w_other : list E) (hand : nat) (qw : list E) (i : nat)
  : outcome Err (list E) :=
  c ← index (hc q) i;
  let h := N.to_nat (at2 c hand) in
  let other := N.to_nat (at2 c (1 - hand)) in
  x ← index qw h;
  v ← index (vc q) i;
  w ← index w_other other;
  store qw h (fma x v w).
Definition fill_round_weights {Err} (qw : list E) (q : HQuad E) (w_other : list E) (hand : nat)
  : outcome Err (list E) :=
  foldM (fill_step q w_other hand) (blas.clear qw) (seq 0 (length (hc q))).

(** One pair of entries of the two accumulators. *)
Definition quad_round_step {Err} (qw w : list E) (acc : Accum * Accum) (i : nat)
  : outcome Err (Accum * Accum) :=
  let '(accum_a0, accum_a2) := acc in
  let idx := (2 * i)%nat in
  q0 ← index qw idx; w0 ← index w idx;
  let accum_a0 := mac accum_a0 q0 w0 in
  q1 ← index qw (idx + 1); w1 ← index w (idx + 1);
  let dqw := q1 - q0 in
  let dw := w1 - w0 in
  mret (accum_a0, mac accum_a2 dqw dw).
Definition quad_round_poly {Err} (n : nat) (qw w : list E) (sum : E) : outcome Err (list E) :=
  '(accum_a0, accum_a2) ← foldM (quad_round_step qw w) (zero_accum, zero_accum) (seq 0 (n / 2));
  '(accum_a0, accum_a2) ← (if negb (Nat.eqb (n mod 2) 0) then
      let last := (n - 1)%nat in
      ql ← index qw last; wl ← index w last;
      mret (mac accum_a0 ql wl, mac accum_a2 ql wl)
    else mret (accum_a0, accum_a2));
  let a0 := accum_reduce accum_a0 in
  let a2 := accum_reduce accum_a2 in
  let g1 := sum - a0 in
  let c1 := g1 - a0 - a2 in
  pt2 ← unwrap (poly_evaluation_point 2);
  let g2 := (a2 * pt2 + c1) * pt2 + a0 in
  mret [a0; g1; g2].

(** The state of [layer]'s loops.  [ls_shared] tells whether both hands
    still point to the initial buffer ([Rc::get_mut] fails). *)
Record LayerState := {
  ls_challenges : pair2 (list E);
  ls_polys : pair2 (list (RoundPoly E));
  ls_coefs : pair2 (list (RoundCoefficients E));
  ls_sum : E;
  ls_w : pair2 (list E);
  ls_shared : bool;
  ls_qw : list E;
  ls_hquad : HQuad E;
  ls_transcript : Transcript
}.

Definition push2 {A} (p : pair2 (list A)) (hand : nat) (a : A) : pair2 (list A) :=
  set2 p hand (at2 p hand ++ [a]).

Definition round_hand (basis : list (list E)) (pad : LayerProof E) (round : nat)
    (st : LayerState) (hand : nat) : outcome stuck LayerState :=
  let other_hand := (1 - hand)%nat in
  let wh_hand := at2 (ls_w st) hand in
  let wh_other_hand := at2 (ls_w st) other_hand in
  let wh_size := length wh_hand in
  rust_assert (Nat.leb wh_size (length (ls_qw st))) ;;
  q ← fill_round_weights (take wh_size (ls_qw st)) (ls_hquad st) wh_other_hand hand;
  let qw := q ++ drop wh_size (ls_qw st) in
  evals ← quad_round_poly wh_size (take wh_size qw) wh_hand (ls_sum st);
  rust_assert (Nat.ltb round MAX_LOGW) ;;
  round_values ← to_wire evals;
  pad_poly ← index (at2 (hp pad) hand) round;
  let message := poly_sub round_values pad_poly in
  '(round_challenge, t) ← transcript.round message (ls_transcript st);
  coefficients ← RoundCoefficients_new basis round_challenge;
  let sum := RoundCoefficients_evaluate coefficients round_values (ls_sum st) in
  bound ← (if ls_shared st then dense.bind_out_of_place wh_hand round_challenge
           else dense.bind wh_hand round_challenge);
  hquad ← hquad.bind_h (ls_hquad st) round_challenge hand;
  mret {| ls_challenges := push2 (ls_challenges st) hand round_challenge;
          ls_polys := push2 (ls_polys st) hand message;
          ls_coefs := push2 (ls_coefs st) hand coefficients;
          ls_sum := sum;
          ls_w := set2 (ls_w st) hand bound;
          ls_shared := false;
          ls_qw := qw;
          ls_hquad := hquad;
          ls_transcript := t |}.
Definition layer_round (basis : list (list E)) (pad : LayerProof E) (st : LayerState) (round : nat)
  : outcome stuck LayerState :=
  foldM (round_hand basis pad round) st [0; 1]%nat.

(** Returns the masked messages, the next bindings, the unmasked claims, the
    verifier data and the transcript. *)
Definition layer (logw nw : nat) (wires : list E) (pad : LayerProof E) (t : Transcript)
    (hquad : HQuad E) (alpha : E) (claims : pair2 E)
  : outcome stuck (LayerProof E * Bindings * pair2 E * LayerVerifierData E * Transcript) :=
  rust_assert (sane_logw logw) ;;
  rust_assert (N.of_nat (length wires) <=? 2 ^ N.of_nat logw)%N ;;
  basis ← LagrangeBasis.new 3;
  let sum := fma claims.1 alpha claims.2 in
  st ← foldM (layer_round basis pad)
    {| ls_challenges := ([], []); ls_polys := ([], []); ls_coefs := ([], []);
       ls_sum := sum; ls_w := (wires, wires); ls_shared := true;
       ls_qw := replicate (length wires) 0; ls_hquad := hquad; ls_transcript := t |}
    (seq 0 logw);
  c0 ← dense.as_scalar (ls_w st).1;
  c1 ← dense.as_scalar (ls_w st).2;
  hquad_scalar ← hquad.scalar (ls_hquad st);
  let expected_sum := c0 * c1 * hquad_scalar in
  rust_assert (bool_decide (ls_sum st = expected_sum)) ;;
  let proof_claims := (c0 - (SumcheckProof.claims pad).1, c1 - (SumcheckProof.claims pad).2) in
  t ← transcript.end_layer proof_claims (ls_transcript st);
  mret ({| hp := ls_polys st; claims := proof_claims |},
        {| b_logv := logw; b_nv := nw; b_challenges := ls_challenges st |},
        (c0, c1),
        {| vd_rounds := ls_coefs st; bound_quad := hquad_scalar; vd_alpha := alpha |},
        t).

(** The state of [prove_core]'s loop over the layers. *)
Record ProveState := {
  ps_bindings : Bindings;
  ps_claims : pair2 E;
  ps_layers : list (LayerProof E);
  ps_data : list (LayerVerifierData E);
  ps_transcript : Transcript
}.

Definition prove_layer (circuit : Circuit E) (in_layers : list (list E)) (pad : SumcheckProof E)
    (st : ProveState) (i : nat) : outcome stuck ProveState :=
  clr ← index (layers (raw circuit)) i;
  '(alpha, beta, t) ← transcript.begin_layer (ps_transcript st);
  wires ← index in_layers i;
  let b := ps_bindings st in
  hquad ← hquad.bind_g clr (constants (raw circuit)) (b_logv b) (b_nv b)
            (b_challenges b).1 (b_challenges b).2 alpha beta;
  layer_pad ← index (proof_layers pad) i;
  '(layer_proof, bindings, claims, layer_data, t) ←
    layer (logw clr) (nw clr) wires layer_pad t hquad alpha (ps_claims st);
  mret {| ps_bindings := bindings; ps_claims := claims;
          ps_layers := ps_layers st ++ [layer_proof];
          ps_data := ps_data st ++ [layer_data];
          ps_transcript := t |}.

Definition prove_core (in_layers : list (list E)) (pad : SumcheckProof E) (circuit : Circuit E)
    (t : Transcript) : outcome stuck (SumcheckProof E * VerifierData E * Transcript) :=
  (match validate pad (from_circuit circuit) with Ok _ => mret tt | _ => Panic end) ;;
  let in_layers := map dense.normalize in_layers in
  '(_, challenges_0, t) ← transcript.begin_circuit t;
  let logv := logv (raw circuit) in
  rust_assert (Nat.leb logv (length challenges_0)) ;;
  let bindings := {| b_logv := logv; b_nv := noutput (raw circuit);
                     b_challenges := (take logv challenges_0, take logv challenges_0) |} in
  let num_layers := length (layers (raw circuit)) in
  rust_assert (Nat.leb num_layers (length in_layers)
               && Nat.leb num_layers (length (proof_layers pad))) ;;
  st ← foldM (prove_layer circuit in_layers pad)
    {| ps_bindings := bindings; ps_claims := (0, 0); ps_layers := []; ps_data := [];
       ps_transcript := t |} (seq 0 num_layers);
  '(input_alpha, t) ← elt_field (ps_transcript st);
  let b := ps_bindings st in
  input_weights ← eq.eq2 (b_logv b) (ninput (raw circuit)) (b_challenges b).1 (b_challenges b).2
                    input_alpha;
  mret ({| proof_layers := ps_layers st |},
        {| vd_layers := ps_data st; input_alpha := input_alpha; input_weights := input_weights |},
        t).

Definition prove (in_layers : list (list E)) (pad : SumcheckProof E) (circuit : Circuit E)
    (t : Transcript) : outcome stuck (SumcheckProof E * VerifierData E * Transcript) :=
  let raw := raw circuit in
  rust_assert (Nat.leb (npublic_input raw) (ninput raw)) ;;
  inputs ← (match length (layers raw) with
            | S k => index in_layers k
            | O => Panic
            end);
  rust_assert (Nat.leb (npublic_input raw) (length inputs)) ;;
  let public_inputs := take (npublic_input raw) inputs in
  t ← transcript.write_sumcheck_statement circuit public_inputs t;
  prove_core in_layers pad circuit t.
End prover.
End prover.

(** ** [symbolic.rs] *)
Inductive Pad :=
| Round (layer round hand evaluation : nat)
| Endpoint (layer endpoint : nat).

Record PadTerm (E : Type) := { pt_pad : Pad; coefficient : E }.
Arguments pt_pad {_} _. Arguments coefficient {_} _. Arguments Build_PadTerm {_} _ _.
Record PadExpression (E : Type) := { constant : E; pe_terms : list (PadTerm E) }.
Arguments constant {_} _. Arguments pe_terms {_} _. Arguments Build_PadExpression {_} _ _.
Record LayerRelation (E : Type) := { linear : PadExpression E; product_coefficient : E }.
Arguments linear {_} _. Arguments product_coefficient {_} _. Arguments Build_LayerRelation {_} _ _.
Record InputRelation (E : Type) := { weights : list E; ir_linear : PadExpression E }.
Arguments weights {_} _. Arguments ir_linear {_} _. Arguments Build_InputRelation {_} _ _.
Record VerificationRelations (E : Type) := {
  vr_layers : list (LayerRelation E);
  vr_input : InputRelation E
}.
Arguments vr_layers {_} _. Arguments vr_input {_} _. Arguments Build_VerificationRelations {_} _ _.

Module symbolic.
Section symbolic.
Context {E : Type} `{AlgebraicField E}.
Local Open Scope string_scope.
Local Open Scope list_scope.
Local Open Scope fe_scope.

Definition endpoint_claim (layer : nat) (messages : pair2 E) (alpha : E) : PadExpression E :=
  {| constant := messages.1 + alpha * messages.2;
     pe_terms := [{| pt_pad := Endpoint layer 0; coefficient := 1 |};
                  {| pt_pad := Endpoint layer 1; coefficient := alpha |}] |}.

(** Scale the claim by L1 and add one round's message and pads. *)
Definition round_claim (layer round hand : nat) (coefs : RoundCoefficients E)
    (message : RoundPoly E) (claim : PadExpression E) : PadExpression E :=
  let c := constant claim * l1 coefs in
  let ts := map (fun t => {| pt_pad := pt_pad t; coefficient := coefficient t * l1 coefs |})
              (pe_terms claim) in
  let c := fma c (l0_minus_l1 coefs) (evaluations message).1 in
  let c := fma c (l2 coefs) (evaluations message).2 in
  {| constant := c;
     pe_terms := ts ++ [{| pt_pad := Round layer round hand 0; coefficient := l0_minus_l1 coefs |};
                        {| pt_pad := Round layer round hand 1; coefficient := l2 coefs |}] |}.

Definition round_hand (layer : nat) (messages : LayerProof E) (data : LayerVerifierData E)
    (round : nat) (claim : PadExpression E) (hand : nat) : outcome string (PadExpression E) :=
  message ← index (at2 (hp messages) hand) round;
  coefs ← index (at2 (vd_rounds data) hand) round;
  mret (round_claim layer round hand coefs message claim).

(** [C - Q * A * B] expanded over the endpoint pads. *)
Definition finish_layer (layer : nat) (messages : LayerProof E) (data : LayerVerifierData E)
    (claim : PadExpression E) : LayerRelation E :=
  let product := (claims messages).1 * (claims messages).2 in
  let c := constant claim - bound_quad data * product in
  let term endpoint := {| pt_pad := Endpoint layer endpoint;
    coefficient := - (bound_quad data * at2 (claims messages) (1 - endpoint)) |} in
  {| linear := {| constant := c; pe_terms := pe_terms claim ++ [term 0%nat; term 1%nat] |};
     product_coefficient := - (bound_quad data) |}.

Definition verify_layer (proof : SumcheckProof E) (relations : list (LayerRelation E))
    (ld : nat * LayerVerifierData E) : outcome string (list (LayerRelation E)) :=
  let '(layer, layer_data) := ld in
  messages ← index (proof_layers proof) layer;
  let rounds := length (hp messages).1 in
  reject_if (negb (Nat.eqb (length (hp messages).2) rounds
                   && Nat.eqb (length (vd_rounds layer_data).1) rounds
                   && Nat.eqb (length (vd_rounds layer_data).2) rounds))
    "sumcheck verifier data round count mismatch" ;;
  claim ← (match layer with
           | O => mret {| constant := 0; pe_terms := [] |}
           | S l => above ← index (proof_layers proof) l;
                    mret (endpoint_claim l (claims above) (vd_alpha layer_data))
           end);
  claim ← foldM (fun claim round =>
            foldM (round_hand layer messages layer_data round) claim [0; 1]%nat)
          claim (seq 0 rounds);
  mret (relations ++ [finish_layer layer messages layer_data claim]).

Definition neg_expression (e : PadExpression E) : PadExpression E :=
  {| constant := - constant e;
     pe_terms := map (fun t => {| pt_pad := pt_pad t; coefficient := - coefficient t |}) (pe_terms e) |}.

Definition verify (proof : SumcheckProof E) (data : VerifierData E)
  : outcome string (VerificationRelations E) :=
  reject_if (negb (Nat.eqb (length (proof_layers proof)) (length (vd_layers data))))
    "sumcheck verifier data layer count mismatch" ;;
  relations ← foldM (verify_layer proof) []
                (zip (seq 0 (length (vd_layers data))) (vd_layers data));
  let claim :=
    match last (proof_layers proof) with
    | Some l => endpoint_claim (length (proof_layers proof) - 1) (claims l) (input_alpha data)
    | None => {| constant := 0; pe_terms := [] |}
    end in
  mret {| vr_layers := relations;
          vr_input := {| weights := input_weights data; ir_linear := neg_expression claim |} |}.

(** The pad a term names; [None] when the shapes do not match. *)
Definition lookup_pad (pads : SumcheckProof E) (p : Pad) : option E :=
  match p with
  | Round layer round hand evaluation =>
      layer_pads ← proof_layers pads !! layer;
      rounds ← [(hp layer_pads).1; (hp layer_pads).2] !! hand;
      poly ← rounds !! round;
      [(evaluations poly).1; (evaluations poly).2] !! evaluation
  | Endpoint layer endpoint =>
      layer_pads ← proof_layers pads !! layer;
      [(claims layer_pads).1; (claims layer_pads).2] !! endpoint
  end.
Definition eval_pad_term (pads : SumcheckProof E) (value : E) (t : PadTerm E) : outcome string E :=
  pad ← ok_or (lookup_pad pads (pt_pad t)) "sumcheck relation pad shape mismatch";
  mret (fma value (coefficient t) pad).
Definition evaluate_expression (e : PadExpression E) (pads : SumcheckProof E) : outcome string E :=
  foldM (eval_pad_term pads) (constant e) (pe_terms e).

Definition evaluate_layer (pads : SumcheckProof E) (residuals : list E)
    (rp : LayerRelation E * LayerProof E) : outcome string (list E) :=
  let '(relation, layer_pads) := rp in
  value ← evaluate_expression (linear relation) pads;
  let value := fma value (product_coefficient relation)
                 ((claims layer_pads).1 * (claims layer_pads).2) in
  mret (residuals ++ [value]).
Definition evaluate (r : VerificationRelations E) (inputs : list E) (pads : SumcheckProof E)
  : outcome string (list E) :=
  reject_if (negb (Nat.eqb (length (proof_layers pads)) (length (vr_layers r)))
             || negb (Nat.eqb (length inputs) (length (weights (vr_input r)))))
    "sumcheck relation input shape mismatch" ;;
  residuals ← foldM (evaluate_layer pads) [] (zip (vr_layers r) (proof_layers pads));
  value ← evaluate_expression (ir_linear (vr_input r)) pads;
  d ← blas.dot (weights (vr_input r)) inputs;
  mret (residuals ++ [value + d]).
End symbolic.
End symbolic.

(** ** [verifier.rs]

    The verifier returns messages of its own and runs transcript operations
    that may run out of fuel. *)
Inductive verifier_error := Message (m : string) | Stuck (s : stuck).

Module verifier.
Section verifier.
Context {E : Type} `{AlgebraicField E} `{InterpolationField E}.
Context `{SerializableField E} `{SupportsSampling E} `{Sha256} `{Aes256}.

(** A message received: its challenge, appended to the hand's points and
    coefficients. *)
Definition derive_hand (basis : list (list E)) (messages : LayerProof E) (round : nat)
    (st : pair2 (list E) * pair2 (list (RoundCoefficients E)) * Transcript) (hand : nat)
  : outcome stuck (pair2 (list E) * pair2 (list (RoundCoefficients E)) * Transcript) :=
  let '(points_next, rounds, t) := st in
  p ← index (at2 (hp messages) hand) round;
  '(challenge, t) ← transcript.round p t;
  c ← RoundCoefficients_new basis challenge;
  mret (prover.push2 points_next hand challenge, prover.push2 rounds hand c, t).
Definition derive_round (basis : list (list E)) (messages : LayerProof E)
    (st : pair2 (list E) * pair2 (list (RoundCoefficients E)) * Transcript) (round : nat) :=
  foldM (derive_hand basis messages round) st [0; 1]%nat.

(** Bind both hands of the quad at the final points. *)
Definition bind_points {Err} (q : HQuad E) (rl : E * E) : outcome Err (HQuad E) :=
  q ← hquad.bind_h q rl.1 0;
  hquad.bind_h q rl.2 1.

Record DeriveState := {
  ds_points : pair2 (list E);
  ds_logv : nat;
  ds_nv : nat;
  ds_layers : list (LayerVerifierData E);
  ds_transcript : Transcript
}.

Definition derive_layer (circuit : Circuit E) (basis : list (list E)) (st : DeriveState)
    (lm : Layer * LayerProof E) : outcome stuck DeriveState :=
  let '(layer, messages) := lm in
  '(alpha, beta, t) ← transcript.begin_layer (ds_transcript st);
  '(points_next, rounds, t) ←
    foldM (derive_round basis messages) (([], []), ([], []), t) (seq 0 (logw layer));
  quad ← hquad.bind_g layer (constants (raw circuit)) (ds_logv st) (ds_nv st)
           (ds_points st).1 (ds_points st).2 alpha beta;
  quad ← foldM bind_points quad (zip points_next.1 points_next.2);
  bound_quad ← hquad.scalar quad;
  t ← transcript.end_layer (claims messages) t;
  mret {| ds_points := points_next; ds_logv := logw layer; ds_nv := nw layer;
          ds_layers := ds_layers st ++
            [{| vd_rounds := rounds; bound_quad := bound_quad; vd_alpha := alpha |}];
          ds_transcript := t |}.

Definition derive_body (circuit : Circuit E) (proof : SumcheckProof E) (t : Transcript)
  : outcome stuck (VerifierData E * Transcript) :=
  '(_, initial, t) ← transcript.begin_circuit t;
  basis ← LagrangeBasis.new 3;
  st ← foldM (derive_layer circuit basis)
    {| ds_points := (initial, initial); ds_logv := logv (raw circuit);
       ds_nv := noutput (raw circuit); ds_layers := []; ds_transcript := t |}
    (zip (layers (raw circuit)) (proof_layers proof));
  '(input_alpha, t) ← elt_field (ds_transcript st);
  input_weights ← eq.eq2 (ds_logv st) (ninput (raw circuit)) (ds_points st).1 (ds_points st).2
                    input_alpha;
  mret ({| vd_layers := ds_layers st; input_alpha := input_alpha; input_weights := input_weights |},
        t).

Definition derive_verifier_data (circuit : Circuit E) (proof : SumcheckProof E) (t : Transcript)
  : outcome verifier_error (VerifierData E * Transcript) :=
  map_err Message (validate proof (from_circuit circuit)) ;;
  map_err Stuck (derive_body circuit proof t).

(** [residuals.last().expect(..)] and the layer residuals before it. *)
Definition check_residuals (n : nat) (residuals : list E) : outcome verifier_error unit :=
  rust_assert (Nat.leb n (length residuals)) ;;
  reject_if (negb (forallb is_zero (take n residuals))) (Message "got != claim (layer)") ;;
  r ← unwrap (last residuals);
  reject_if (negb (is_zero r)) (Message "input claim mismatch").

Definition verify_core (inputs : list E) (pad : SumcheckProof E) (circuit : Circuit E)
    (proof : SumcheckProof E) (t : Transcript) : outcome verifier_error Transcript :=
  map_err Message (validate pad (from_circuit circuit)) ;;
  '(data, t) ← derive_verifier_data circuit proof t;
  relations ← map_err Message (symbolic.verify proof data);
  residuals ← map_err Message (symbolic.evaluate relations inputs pad);
  check_residuals (length (proof_layers proof)) residuals ;;
  mret t.

Definition verify (inputs : list E) (pad : SumcheckProof E) (circuit : Circuit E)
    (proof : SumcheckProof E) (t : Transcript) : outcome verifier_error Transcript :=
  let npublic := npublic_input (raw circuit) in
  reject_if (Nat.ltb (length inputs) npublic) (Message "public input length mismatch") ;;
  t ← map_err Stuck (transcript.write_sumcheck_statement circuit (take npublic inputs) t);
  verify_core inputs pad circuit proof t.
End verifier.
End verifier.
