(* ===== verification/DenseFacts.v ===== *)
(** * Multilinear tables and equality weights

    [bind] and [bind_out_of_place] compute the same half-sized table; binding
    all coordinates evaluates the multilinear extension, a sum against the
    equality weights that [eq2] tabulates and [eq::eval] contracts.  The sparse wiring tensor as a
    sum over its terms. *)
From stdpp Require Import prelude sorting.
From Stdlib Require Import Lia NArith ZifyNat Ring Ring_theory.
From S2P Require Import Prelude Words Interfaces Util Circuit Field FieldFacts Transcript SumcheckProof SumcheckV1.

Local Open Scope fe_scope.

Section dense.
Context {E : Type} `{AlgebraicFieldLaws E}.
Add Ring field_ring_dense : (field_ring (E:=E)).

(** ** Binding one coordinate *)
Definition half_up (n : nat) : nat := ((n + 1) / 2)%nat.
Definition line (r a b : E) : E := a + (b - a) * r.
Definition bound (r : E) (v : list E) : list E :=
  tab (fun i => line r (at0 v (2 * i)) (at0 v (2 * i + 1))) (half_up (length v)).

Lemma length_bound r v : length (bound r v) = half_up (length v).
Proof. apply length_tab. Qed.
Lemma at0_bound r v i : at0 (bound r v) i = line r (at0 v (2 * i)) (at0 v (2 * i + 1)).
Proof.
  unfold bound, half_up. destruct (decide (i < (length v + 1) / 2)) as [Hi|Hi].
  - by rewrite at0_tab.
  - rewrite (at0_ge (tab _ _)) by (rewrite length_tab; lia).
    rewrite !at0_ge by dlia. unfold line. ring.
Qed.

Lemma half_up_odd n : (n mod 2 <> 0 -> half_up n = S (n / 2) /\ n = S (2 * (n / 2)))%nat.
Proof. unfold half_up. intros. split; dlia. Qed.
Lemma half_up_even n : (n mod 2 = 0 -> half_up n = n / 2 /\ n = 2 * (n / 2))%nat.
Proof. unfold half_up. intros. split; dlia. Qed.

Section loops.
Context {Err : Type}.

Lemma bind_step_ok r v i :
  2 * i + 1 < length v ->
  @dense.bind_step E _ Err r v i = Ok (<[i := line r (at0 v (2 * i)) (at0 v (2 * i + 1))]> v).
Proof.
  intros Hi. unfold dense.bind_step. rewrite !index_at0 by lia. mstep.
  by rewrite store_Ok by lia.
Qed.

(** After [m] iterations the first [m] entries are bound and the entries
    from [m] on are those of the input. *)
Lemma bind_loop_ok r v m :
  2 * m <= length v ->
  exists v', foldM (@dense.bind_step E _ Err r) v (seq 0 m) = Ok v' /\ length v' = length v /\
    (forall i, i < m -> at0 v' i = at0 (bound r v) i) /\ (forall i, m <= i -> at0 v' i = at0 v i).
Proof.
  induction m as [|m IH]; intros Hm; [exists v; repeat split; auto; lia|].
  destruct IH as (v' & Hrun & Hlen & Hlo & Hhi); [lia|].
  exists (<[m := line r (at0 v' (2 * m)) (at0 v' (2 * m + 1))]> v').
  rewrite seq_S, foldM_app, Hrun. mstep. cbn [foldM Nat.add].
  rewrite bind_step_ok by lia. mstep. rewrite length_insert.
  repeat split; [done|..]; intros i Hi; rewrite at0_insert by lia;
    destruct (Nat.eqb_spec i m) as [->|]; try lia; [|apply Hlo; lia|apply Hhi; lia].
  rewrite at0_bound. destruct (decide (m = 0%nat)) as [->|]; [|by rewrite !Hhi by lia].
  by rewrite !Hhi by lia.
Qed.

Lemma eq_at0 (v w : list E) :
  length v = length w -> (forall i, i < length v -> at0 v i = at0 w i) -> v = w.
Proof.
  intros Hlen Hat. rewrite <- (tab_at0 v), <- (tab_at0 w), <- Hlen. by apply tab_ext.
Qed.
Lemma at0_take v n i : i < n -> at0 (take n v) i = at0 v i.
Proof. intros Hi. unfold at0. by rewrite lookup_take_lt. Qed.

Lemma line_nz_z r a : line r a 0 = dense.affine_interpolation_nz_z r a.
Proof. unfold line, dense.affine_interpolation_nz_z. ring. Qed.

Lemma bind_ok r v : v <> [] -> @dense.bind E _ Err v r = Ok (bound r v).
Proof.
  intros Hv. unfold dense.bind.
  assert (length v <> 0%nat) as Hlen by (by destruct v).
  rewrite (proj2 (Nat.eqb_neq _ _) Hlen). cbn [negb rust_assert]. mstep.
  destruct (bind_loop_ok r v (length v / 2)) as (v' & Hrun & Hlen' & Hlo & Hhi); [dlia|].
  rewrite Hrun. mstep. destruct (Nat.eqb_spec (length v mod 2) 0) as [Heven|Hodd]; cbn [negb].
  - destruct (half_up_even _ Heven) as [Hh He]. f_equal. apply eq_at0.
    + rewrite length_take, length_bound. lia.
    + rewrite length_take. intros i Hi. rewrite at0_take by lia. apply Hlo. lia.
  - destruct (half_up_odd _ Hodd) as [Hh He].
    rewrite index_at0 by lia. mstep. rewrite store_Ok by lia. mstep. f_equal. apply eq_at0.
    + rewrite length_take, length_insert, length_bound. lia.
    + rewrite length_take, length_insert. intros i Hi.
      rewrite at0_take, at0_insert by lia.
      destruct (Nat.eqb_spec i (length v / 2)) as [->|]; [|apply Hlo; lia].
      rewrite Hhi by lia. rewrite at0_bound, (at0_ge v (2 * _ + 1)) by lia.
      rewrite line_nz_z. f_equal. f_equal. lia.
Qed.

Lemma chunks_exact2_tab (v : list E) m :
  length v = (2 * m)%nat -> dense.chunks_exact2 v = tab (fun i => (at0 v (2 * i), at0 v (2 * i + 1))) m.
Proof.
  revert v; induction m as [|m IH]; intros v Hv; [by destruct v|].
  destruct v as [|a [|b v]]; cbn in Hv; try lia. cbn [dense.chunks_exact2].
  rewrite tab_0, (IH v) by lia. f_equal. apply tab_ext. intros i _. unfold at0.
  replace (2 * S i)%nat with (S (S (2 * i))) by lia. done.
Qed.

(** The two bindings agree. *)
Lemma bind_out_of_place_ok r v : v <> [] -> @dense.bind_out_of_place E _ Err v r = Ok (bound r v).
Proof.
  intros Hv. unfold dense.bind_out_of_place.
  assert (length v <> 0%nat) as Hlen by (by destruct v).
  rewrite (proj2 (Nat.eqb_neq _ _) Hlen). cbn [negb rust_assert]. mstep.
  rewrite (chunks_exact2_tab _ (length v / 2)) by (rewrite length_take; dlia).
  unfold tab at 1 2. rewrite !map_map.
  change (map ?g (seq 0 ?n)) with (tab g n).
  assert (tab (fun i => dense.affine_interpolation r
            (at0 (take (2 * (length v / 2)) v) (2 * i)) (at0 (take (2 * (length v / 2)) v) (2 * i + 1)))
          (length v / 2)
          = tab (fun i => line r (at0 v (2 * i)) (at0 v (2 * i + 1))) (length v / 2)) as ->.
  { apply tab_ext. intros i Hi. rewrite !at0_take by lia. done. }
  unfold bound. destruct (Nat.eqb_spec (length v mod 2) 0) as [Heven|Hodd]; cbn [negb].
  - by destruct (half_up_even _ Heven) as [-> _].
  - destruct (half_up_odd _ Hodd) as [-> He]. rewrite index_at0 by lia. mstep.
    rewrite tab_S, <- line_nz_z. do 4 f_equal; [f_equal; lia|]. symmetry. apply at0_ge. lia.
Qed.
End loops.

(** ** Multilinear extensions *)
(** The weight of the index [i] at the point [rs], lowest bit first. *)
Fixpoint eqw (rs : list E) (i : nat) : E :=
  match rs with
  | [] => 1
  | r :: rs' => (if Nat.even i then 1 - r else r) * eqw rs' (i / 2)
  end.
Definition mle (w : list E) (rs : list E) : E :=
  sigma (seq 0 (length w)) (fun i => eqw rs i * at0 w i).

Lemma mle_extend w rs n :
  length w <= n -> mle w rs = sigma (seq 0 n) (fun i => eqw rs i * at0 w i).
Proof.
  intros Hn. unfold mle. symmetry. apply sigma_seq_extend; [done|].
  intros i Hi. rewrite at0_ge by done. ring.
Qed.

Lemma even_double i : Nat.even (2 * i) = true.
Proof. apply Nat.even_spec. by exists i. Qed.
Lemma even_double_1 i : Nat.even (2 * i + 1) = false.
Proof. apply Nat.even_odd. Qed.

(** Binding one coordinate leaves the extension in the others. *)
Lemma mle_bound w r rs : mle w (r :: rs) = mle (bound r w) rs.
Proof.
  rewrite (mle_extend _ _ (2 * half_up (length w))) by (unfold half_up; dlia).
  rewrite sigma_pairs. unfold mle. rewrite length_bound. apply sigma_ext. intros i _.
  cbn [eqw]. rewrite even_double, even_double_1, at0_bound.
  replace (2 * i / 2)%nat with i by dlia. replace ((2 * i + 1) / 2)%nat with i by dlia.
  unfold line. ring.
Qed.

Lemma mle_nil w : length w <= 1 -> mle w [] = at0 w 0.
Proof. intros Hw. rewrite (mle_extend _ _ 1) by done. cbn. ring. Qed.

Definition bound_all (w : list E) (rs : list E) : list E := foldl (fun w r => bound r w) w rs.

Lemma half_up_pos n : 0 < n -> 0 < half_up n.
Proof. unfold half_up. intros. dlia. Qed.
Lemma half_up_pow n k : n <= 2 ^ S k -> half_up n <= 2 ^ k.
Proof. unfold half_up. rewrite Nat.pow_succ_r'. intros. dlia. Qed.

Lemma length_bound_all w rs :
  0 < length w <= 2 ^ length rs -> length (bound_all w rs) = 1%nat.
Proof.
  revert w; induction rs as [|r rs IH]; intros w Hw; [cbn in *; lia|].
  apply (IH (bound r w)). rewrite length_bound. split; [apply half_up_pos; lia|].
  apply half_up_pow, Hw.
Qed.
Lemma mle_bound_all w rs :
  0 < length w <= 2 ^ length rs -> at0 (bound_all w rs) 0 = mle w rs.
Proof.
  revert w; induction rs as [|r rs IH]; intros w Hw.
  - rewrite mle_nil; [done|]. cbn in Hw. lia.
  - rewrite mle_bound. apply (IH (bound r w)). rewrite length_bound. split; [apply half_up_pos; lia|].
    apply half_up_pow. apply Hw.
Qed.

Lemma bound_nonempty r v : v <> [] -> bound r v <> [].
Proof.
  intros Hv Hn. apply (f_equal length) in Hn. rewrite length_bound in Hn.
  destruct v; [done|]. cbn [length] in Hn. pose proof (half_up_pos (S (length v))). lia.
Qed.
Lemma bind_run {Err} rs : forall v, v <> [] -> foldM (@dense.bind E _ Err) v rs = Ok (bound_all v rs).
Proof.
  induction rs as [|r rs IH]; intros v Hv; [done|]. cbn [foldM].
  rewrite bind_ok by done. mstep. by apply IH, bound_nonempty.
Qed.
Lemma bind_out_of_place_run {Err} rs : forall v,
  v <> [] -> foldM (@dense.bind_out_of_place E _ Err) v rs = Ok (bound_all v rs).
Proof.
  induction rs as [|r rs IH]; intros v Hv; [done|]. cbn [foldM].
  rewrite bind_out_of_place_ok by done. mstep. by apply IH, bound_nonempty.
Qed.
Lemma bound_all_mle v rs : 0 < length v <= 2 ^ length rs -> bound_all v rs = [mle v rs].
Proof.
  intros Hv. apply eq_at0; rewrite length_bound_all by lia; [done|].
  intros i Hi. replace i with 0%nat by lia. rewrite mle_bound_all by lia. done.
Qed.

Lemma bind_all_ok {Err} logv v rs :
  0 < length v <= 2 ^ logv -> sane_logw logv = true -> length rs = logv ->
  @dense.bind_all E _ Err logv v rs = Ok [mle v rs].
Proof.
  intros Hv Hs Hlen. unfold dense.bind_all.
  rewrite (proj2 (Nat.eqb_neq _ _)) by lia. cbn [negb rust_assert]. mstep.
  rewrite Hs. cbn [rust_assert]. mstep. rewrite (proj2 (N.leb_le _ _)).
  2:{ change 2%N with (N.of_nat 2). rewrite <- Nat2N.inj_pow. lia. }
  cbn [rust_assert]. mstep. rewrite take_ge by lia. subst logv.
  rewrite bind_run, bound_all_mle by first [lia|by destruct v; [cbn in Hv; lia|]]. done.
Qed.

(** ** Equality weights *)
Lemma eqw_snoc rs r i :
  i < 2 ^ S (length rs) ->
  eqw (rs ++ [r]) i
  = if Nat.ltb i (2 ^ length rs) then eqw rs i * (1 - r) else eqw rs (i - 2 ^ length rs) * r.
Proof.
  revert i; induction rs as [|q rs IH]; intros i Hi; cbn [app eqw length] in *.
  - cbn in Hi. destruct i as [|[|i]]; [| |lia].
    + change (Nat.ltb 0 (2 ^ 0)) with true. cbn. ring.
    + change (Nat.ltb 1 (2 ^ 0)) with false. cbn. ring.
  - rewrite !Nat.pow_succ_r' in *. rewrite IH by (apply Nat.Div0.div_lt_upper_bound; lia).
    destruct (Nat.ltb_spec (i / 2) (2 ^ length rs)), (Nat.ltb_spec i (2 * 2 ^ length rs));
      [ring|exfalso; dlia|exfalso; dlia|].
    replace ((i - 2 * 2 ^ length rs) / 2)%nat with (i / 2 - 2 ^ length rs)%nat by dlia.
    rewrite Nat.even_sub by done. rewrite Nat.even_mul. cbn [Nat.even orb Bool.eqb].
    destruct (Nat.even i); cbn; ring.
Qed.

Lemma fill_recursive_ok {Err} l eq n g0 g1 w0 w1 :
  1 <= n <= 2 ^ l -> n <= length eq -> l <= length g0 -> l <= length g1 ->
  @eq.fill_recursive E _ Err eq l n g0 g1 w0 w1
  = Ok (tab (fun i => w0 * eqw (take l g0) i + w1 * eqw (take l g1) i) n ++ drop n eq).
Proof.
  revert eq n w0 w1; induction l as [|l IH]; intros eq n w0 w1 Hn Heq H0' H1.
  - cbn in Hn. replace n with 1%nat in * by lia. cbn [eq.fill_recursive].
    rewrite (proj2 (Nat.leb_le _ _) Heq). cbn. destruct eq as [|e eq]; [cbn in Heq; lia|].
    rewrite store_Ok by (cbn; lia).
    rewrite (proj2 (Nat.leb_le _ _) H0'), (proj2 (Nat.leb_le _ _) H1). cbn. rewrite drop_0.
    rewrite !take_0. cbn [eqw]. do 2 f_equal. ring.
  - cbn [eq.fill_recursive].
    rewrite (proj2 (Nat.leb_le _ _) Heq), (proj2 (Nat.leb_le _ _) H0'), (proj2 (Nat.leb_le _ _) H1).
    rewrite (proj2 (Nat.eqb_neq (length eq) 0)) by lia. cbn [andb orb negb Nat.eqb rust_assert]. mstep.
    rewrite (index_at0 g0), (index_at0 g1) by lia. mstep.
    rewrite (take_S_r g0 l (at0 g0 l)), (take_S_r g1 l (at0 g1 l)) by (apply at0_lt; lia).
    assert (length (take l g0) = l) as L0 by (rewrite length_take; lia).
    assert (length (take l g1) = l) as L1 by (rewrite length_take; lia).
    rewrite Nat.pow_succ_r' in Hn. destruct (Nat.ltb_spec (2 ^ l) n) as [Hs|Hs].
    + assert (1 <= 2 ^ l) as Hp by (apply Nat.neq_0_lt_0, Nat.pow_nonzero; lia).
      rewrite (IH (take (2 ^ l) eq)) by len. mstep. rewrite IH by len. mstep. f_equal.
      rewrite (drop_ge (take (2 ^ l) eq)) by len. rewrite (drop_ge (drop _ _)) by len.
      rewrite !app_nil_r, app_assoc. f_equal.
      apply eq_at0; rewrite length_app, !length_tab; [lia|]. intros i Hi.
      rewrite at0_tab by lia. unfold at0. destruct (decide (i < 2 ^ l)) as [Hlt|Hge].
      * rewrite lookup_app_l by (by rewrite length_tab). rewrite lookup_tab by done. cbn.
        rewrite !eqw_snoc, L0, L1, (proj2 (Nat.ltb_lt _ _) Hlt) by (rewrite ?L0, ?L1, Nat.pow_succ_r'; lia). ring.
      * rewrite lookup_app_r by (rewrite length_tab; lia). rewrite length_tab, lookup_tab by lia. cbn.
        rewrite !eqw_snoc, L0, L1, (proj2 (Nat.ltb_ge _ _)) by (rewrite ?L0, ?L1, ?Nat.pow_succ_r'; lia). ring.
    + rewrite IH by len. mstep. f_equal.
      rewrite (drop_ge (take n eq)) by len. rewrite app_nil_r. f_equal. apply tab_ext. intros i Hi.
      rewrite !eqw_snoc, L0, L1, (proj2 (Nat.ltb_lt _ _)) by (rewrite ?L0, ?L1, ?Nat.pow_succ_r'; lia). ring.
Qed.

(** The table [eq2] returns. *)
Lemma eq2_ok {Err} logn n g0 g1 alpha :
  1 <= n <= 2 ^ logn -> logn <= length g0 -> logn <= length g1 ->
  @eq.eq2 E _ Err logn n g0 g1 alpha
  = Ok (tab (fun i => eqw (take logn g0) i + alpha * eqw (take logn g1) i) n).
Proof.
  intros Hn H0' H1. unfold eq.eq2. rewrite fill_recursive_ok by (rewrite ?length_replicate; lia).
  rewrite drop_ge by len. rewrite app_nil_r. f_equal. apply tab_ext. intros. ring.
Qed.

(** [eval] contracts the first [n] entries: [n - 1] entries of weight [a]
    and a last one of weight [b]. *)
Definition contract (I J : list E) (n : nat) (a b : E) : E :=
  sigma (seq 0 n) (fun i => (if Nat.eqb (S i) n then b else a) * (eqw I i * eqw J i)).

Lemma contract_step I J i1 j1 n a b :
  1 <= n ->
  contract (i1 :: I) (j1 :: J) n a b
  = contract I J (half_up n) (a * ((1 - i1) * (1 - j1) + i1 * j1))
      (if Nat.even n then fma (b * (i1 * j1)) a ((1 - i1) * (1 - j1)) else b * ((1 - i1) * (1 - j1))).
Proof.
  intros Hn. unfold half_up.
  set (h := ((n + 1) / 2)%nat). unfold contract.
  set (g i := (if Nat.eqb (S i) n then b else if Nat.leb n i then 0 else a)
              * (eqw (i1 :: I) i * eqw (j1 :: J) i)).
  transitivity (sigma (seq 0 (2 * h)) g).
  { symmetry. rewrite (sigma_seq_extend n); [|unfold h; dlia|].
    - apply sigma_ext. intros i Hi. apply elem_of_seq in Hi. unfold g.
      destruct (Nat.eqb_spec (S i) n); [done|]. by rewrite (proj2 (Nat.leb_gt _ _)) by lia.
    - intros i Hi. unfold g. rewrite (proj2 (Nat.eqb_neq _ _)), (proj2 (Nat.leb_le _ _)) by lia. ring. }
  rewrite sigma_pairs. apply sigma_ext. intros k Hk. apply elem_of_seq in Hk. unfold g.
  cbn [eqw]. rewrite even_double, even_double_1.
  replace (2 * k / 2)%nat with k by dlia. replace ((2 * k + 1) / 2)%nat with k by dlia.
  unfold fma. destruct (Nat.eqb_spec (S k) h) as [Hlast|Hlast]; unfold h in *.
  - destruct (Nat.even n) eqn:Hev.
    + apply Nat.even_spec in Hev as [m ->].
      rewrite (proj2 (Nat.eqb_neq (S (2 * k)) _)) by dlia. rewrite (proj2 (Nat.leb_gt _ (2 * k))) by dlia.
      rewrite (proj2 (Nat.eqb_eq (S (2 * k + 1)) _)) by dlia. ring.
    + assert (Nat.odd n = true) as Hodd by (unfold Nat.odd; by rewrite Hev).
      apply Nat.odd_spec in Hodd as [m ->].
      rewrite (proj2 (Nat.eqb_eq (S (2 * k)) _)) by dlia.
      rewrite (proj2 (Nat.eqb_neq (S (2 * k + 1)) _)) by dlia.
      rewrite (proj2 (Nat.leb_le _ (2 * k + 1))) by dlia. ring.
  - rewrite (proj2 (Nat.eqb_neq (S (2 * k)) _)) by dlia. rewrite (proj2 (Nat.leb_gt _ (2 * k))) by dlia.
    rewrite (proj2 (Nat.eqb_neq (S (2 * k + 1)) _)) by dlia. rewrite (proj2 (Nat.leb_gt _ (2 * k + 1))) by dlia.
    ring.
Qed.

Lemma eval_loop I J n a b :
  length I = length J -> 1 <= n <= 2 ^ length I ->
  (foldl eq.eval_step (a, b, n) (zip I J)).1.2 = contract I J n a b.
Proof.
  revert J n a b; induction I as [|i1 I IH]; intros [|j1 J] n a b Hlen Hn; try done.
  - cbn in Hn. replace n with 1%nat by lia. cbn. ring.
  - cbn [zip zip_with foldl]. rewrite contract_step by lia. apply IH; [by injection Hlen|].
    split; [apply half_up_pos; lia|]. apply half_up_pow. apply Hn.
Qed.

Lemma eval_ok {Err} logn n I J :
  logn <= length I -> logn <= length J -> 1 <= n <= 2 ^ logn ->
  @eq.eval E _ Err logn n I J
  = Ok (sigma (seq 0 n) (fun i => eqw (take logn I) i * eqw (take logn J) i)).
Proof.
  intros HI HJ Hn. unfold eq.eval.
  rewrite (proj2 (Nat.leb_le _ _) HI), (proj2 (Nat.leb_le _ _) HJ). cbn [andb rust_assert]. mstep.
  f_equal. rewrite eval_loop; [|len..|]; [|rewrite length_take; replace (Nat.min logn (length I)) with logn by lia; done].
  apply sigma_ext. intros i _. destruct (Nat.eqb _ _); ring.
Qed.
End dense.

(** * The sparse wiring tensor

    [bind_h] halves one hand of every corner, weighting it by the bit dropped;
    on corners in Morton order it also keeps the order, so that binding every
    bit of both hands leaves a single corner, the one [scalar] reads.
    [bind_g] contracts the output index of a layer's terms. *)

(** A corner with its value. *)
Abbreviation corner E := ((N * N) * E)%type.
Definition corners {E} (q : HQuad E) : list (corner E) := zip (hc q) (vc q).

Definition is_hand (hand : nat) : Prop := hand = 0%nat \/ hand = 1%nat.
(** The corner without the lowest bit of one hand. *)
Definition halve (hand : nat) (h : N * N) : N * N :=
  set2 (set2 (0, 0)%N hand (N.shiftr (at2 h hand) 1)) (1 - hand) (at2 h (1 - hand)).
(** The corner and its successor differ in the lowest bit of the hand. *)
Definition partners (hand : nat) (c c1 : N * N) : bool :=
  ((at2 c (1 - hand) =? at2 c1 (1 - hand))
   && (N.shiftr (at2 c hand) 1 =? N.shiftr (at2 c1 hand) 1)
   && (at2 c1 hand =? wrapping_add32 (at2 c hand) 1))%N.

Lemma halve_0 h : halve 0 h = (h.1 / 2, h.2)%N.
Proof. unfold halve, set2, at2. cbn. by rewrite N.shiftr_div_pow2. Qed.
Lemma halve_1 h : halve 1 h = (h.1, h.2 / 2)%N.
Proof. unfold halve, set2, at2. cbn. by rewrite N.shiftr_div_pow2. Qed.

Lemma partners_spec hand c c1 :
  is_hand hand -> partners hand c c1 = true ->
  halve hand c1 = halve hand c /\ (at2 c hand mod 2 = 0 /\ at2 c1 hand mod 2 = 1)%N.
Proof.
  intros Hh. unfold partners. rewrite !andb_true_iff, !N.eqb_eq. intros [[E1 E2] E3].
  split; [unfold halve; by rewrite E1, E2|].
  rewrite !N.shiftr_div_pow2 in E2. unfold wrapping_add32, wrap32 in E3.
  revert E2 E3. generalize (at2 c1 hand) (at2 c hand). clear. intros y x.
  change (2 ^ 1)%N with 2%N. change (2 ^ 32)%N with 4294967296%N. intros E2 E3. dlia.
Qed.

Lemma partners_complete hand c c1 :
  is_hand hand -> halve hand c1 = halve hand c ->
  (at2 c hand mod 2 = 0)%N -> (at2 c1 hand mod 2 = 1)%N -> (at2 c hand < 2 ^ 32)%N ->
  partners hand c c1 = true.
Proof.
  intros Hh Hhalf E0 E1 Hlt. unfold partners. rewrite !andb_true_iff, !N.eqb_eq.
  unfold wrapping_add32, wrap32. rewrite !N.shiftr_div_pow2. change (2 ^ 1)%N with 2%N in *.
  change (2 ^ 32)%N with 4294967296%N in *.
  destruct Hh as [-> | ->]; rewrite ?halve_0, ?halve_1 in Hhalf; injection Hhalf as H1 H2;
    unfold at2 in *; cbn [Nat.eqb Nat.sub] in *; repeat split; dlia.
Qed.

Section bind.
Context {E : Type} `{AlgebraicFieldLaws E}.
Add Ring field_ring_hquad : (field_ring (E:=E)).

(** The tensor applied to a function of the two remaining indices. *)
Definition qsum (cs : list (corner E)) (g : N * N -> E) : E := sigma cs (fun c => c.2 * g c.1).

Lemma qsum_app cs1 cs2 g : qsum (cs1 ++ cs2) g = qsum cs1 g + qsum cs2 g.
Proof. apply sigma_app. Qed.
Lemma qsum_ext cs g g' : (forall c, c ∈ cs -> g c.1 = g' c.1) -> qsum cs g = qsum cs g'.
Proof. intros Hg. apply sigma_ext. intros c Hc. by rewrite Hg. Qed.

(** ** Binding one bit *)
Definition bit_weight (r : E) (x : N) : E := if N.even x then 1 - r else r.

Definition single (r : E) (hand : nat) (c : corner E) : corner E :=
  (halve hand c.1, if (N.land (at2 c.1 hand) 1 =? 0)%N then dense.affine_interpolation_nz_z r c.2
                   else dense.affine_interpolation_z_nz r c.2).
Fixpoint merge (r : E) (hand : nat) (cs : list (corner E)) : list (corner E) :=
  match cs with
  | [] => []
  | c :: cs1 =>
      match cs1 with
      | c1 :: cs2 =>
          if partners hand c.1 c1.1
          then (halve hand c.1, dense.affine_interpolation r c.2 c1.2) :: merge r hand cs2
          else single r hand c :: merge r hand cs1
      | [] => [single r hand c]
      end
  end.

Lemma single_sum r hand c g :
  (single r hand c).2 * g (single r hand c).1
  = c.2 * (bit_weight r (at2 c.1 hand) * g (halve hand c.1)).
Proof.
  unfold single, bit_weight. cbn [fst snd].
  assert ((N.land (at2 c.1 hand) 1 =? 0)%N = N.even (at2 c.1 hand)) as ->.
  { replace (N.land (at2 c.1 hand) 1) with (at2 c.1 hand mod 2)%N by (symmetry; apply (N.land_ones _ 1)).
    rewrite <- N.bit0_mod, N.bit0_odd, <- N.negb_even. by destruct (N.even _). }
  unfold dense.affine_interpolation_nz_z, dense.affine_interpolation_z_nz.
  destruct (N.even _); ring.
Qed.

Lemma even_mod2 x : (x mod 2 = 0)%N -> N.even x = true.
Proof. intros Hx. apply N.even_spec. exists (x / 2)%N. dlia. Qed.
Lemma odd_mod2 x : (x mod 2 = 1)%N -> N.even x = false.
Proof.
  intros Hx. rewrite <- N.negb_odd. apply negb_false_iff, N.odd_spec. exists (x / 2)%N. dlia.
Qed.

(** Induction over the list as [merge] traverses it. *)
Lemma merge_ind r hand (P : list (corner E) -> list (corner E) -> Prop) :
  P [] [] ->
  (forall c c1 cs, partners hand c.1 c1.1 = true -> P cs (merge r hand cs) ->
     P (c :: c1 :: cs) ((halve hand c.1, dense.affine_interpolation r c.2 c1.2) :: merge r hand cs)) ->
  (forall c cs, match cs with c1 :: _ => partners hand c.1 c1.1 = false | [] => True end ->
     P cs (merge r hand cs) -> P (c :: cs) (single r hand c :: merge r hand cs)) ->
  forall cs, P cs (merge r hand cs).
Proof.
  intros H0' Hpair Hsingle cs. remember (length cs) as n eqn:Hn. revert cs Hn.
  induction n as [n IH] using lt_wf_ind. intros [|c [|c1 cs]] ->; [done|..].
  - apply (Hsingle c []); [done|exact H0'].
  - cbn [merge]. destruct (partners hand c.1 c1.1) eqn:Hp.
    + apply Hpair; [done|]. apply (IH (length cs)); [cbn; lia|done].
    + apply (Hsingle c (c1 :: cs)); [done|]. apply (IH (length (c1 :: cs))); [cbn; lia|done].
Qed.

Lemma merge_sum r hand cs g :
  is_hand hand ->
  qsum (merge r hand cs) g
  = qsum cs (fun h => bit_weight r (at2 h hand) * g (halve hand h)).
Proof.
  intros Hh. apply (merge_ind r hand (fun cs ms => qsum ms g
    = qsum cs (fun h => bit_weight r (at2 h hand) * g (halve hand h)))); [done|..].
  - intros c c1 cs' Hp IH. unfold qsum in *. rewrite !sigma_cons, IH. cbn [fst snd].
    apply partners_spec in Hp as (Hhalf & E0 & E1); [|done].
    assert (bit_weight r (at2 c.1 hand) = 1 - r) as -> by (unfold bit_weight; by rewrite (even_mod2 _ E0)).
    assert (bit_weight r (at2 c1.1 hand) = r) as -> by (unfold bit_weight; by rewrite (odd_mod2 _ E1)).
    rewrite Hhalf. unfold dense.affine_interpolation, fma. ring.
  - intros c cs' _ IH. unfold qsum in *. by rewrite !sigma_cons, IH, single_sum.
Qed.

Lemma merge_nonempty r hand cs : cs <> [] -> merge r hand cs <> [].
Proof. destruct cs as [|c [|c1 cs]]; cbn; [done..|]. by destruct (partners _ _ _). Qed.
Lemma merge_length r hand cs : length (merge r hand cs) <= length cs.
Proof. apply (merge_ind r hand (fun cs ms => length ms <= length cs)); cbn; intros; lia. Qed.
(** Every new corner halves an old one. *)
Lemma merge_elem r hand cs c :
  c ∈ merge r hand cs -> exists c', c' ∈ cs /\ c.1 = halve hand c'.1.
Proof.
  revert c. apply (merge_ind r hand (fun cs ms =>
    forall c, c ∈ ms -> exists c', c' ∈ cs /\ c.1 = halve hand c'.1)); [set_solver|..].
  - intros c c1 cs' _ IH c' [->|Hc']%elem_of_cons; [exists c; set_solver|].
    apply IH in Hc' as (x & ? & ?). exists x. set_solver.
  - intros c cs' _ IH c' [->|Hc']%elem_of_cons; [exists c; set_solver|].
    apply IH in Hc' as (x & ? & ?). exists x. set_solver.
Qed.

(** *** The loop *)
Lemma length_corners (q : HQuad E) :
  length (vc q) = length (hc q) -> length (corners q) = length (hc q).
Proof. intros Hl. unfold corners. rewrite length_zip. lia. Qed.
Lemma corners_lookup (q : HQuad E) i h v :
  corners q !! i = Some (h, v) <-> hc q !! i = Some h /\ vc q !! i = Some v.
Proof. apply lookup_zip_Some. Qed.
Lemma corners_insert (q : HQuad E) i h v :
  zip (<[i := h]> (hc q)) (<[i := v]> (vc q)) = <[i := (h, v)]> (corners q).
Proof. unfold corners. symmetry. apply insert_zip_with. Qed.

Lemma bind_h_read_ok {Err} (q : HQuad E) r hand rd c rest :
  length (vc q) = length (hc q) -> drop rd (corners q) = c :: rest ->
  @hquad.bind_h_read E _ Err q (length (hc q)) r hand rd
  = Ok (match rest with
        | c1 :: _ => if partners hand c.1 c1.1
                     then (halve hand c.1, dense.affine_interpolation r c.2 c1.2, 2%nat)
                     else (single r hand c, 1%nat)
        | [] => (single r hand c, 1%nat)
        end).
Proof.
  intros Hlen Hdrop. destruct c as [h v].
  assert (corners q !! rd = Some (h, v)) as Hc.
  { rewrite <- (Nat.add_0_r rd), <- lookup_drop, Hdrop. done. }
  apply corners_lookup in Hc as [Hh Hv]. unfold hquad.bind_h_read, index. rewrite Hh, Hv. mstep.
  fold (halve hand h). pose proof (f_equal length Hdrop) as Hl.
  rewrite length_drop, length_corners in Hl by done. cbn [length] in Hl.
  destruct rest as [|[h1 v1] rest].
  - rewrite (proj2 (Nat.ltb_ge _ _)) by (cbn in Hl; lia). done.
  - rewrite (proj2 (Nat.ltb_lt _ _)) by (cbn [length] in Hl; lia).
    assert (corners q !! (rd + 1)%nat = Some (h1, v1)) as Hc1.
    { rewrite <- lookup_drop, Hdrop. done. }
    apply corners_lookup in Hc1 as [-> ->]. mstep. cbn [fst snd]. fold (partners hand h h1).
    by destruct (partners hand h h1).
Qed.

Lemma bind_h_loop_ok {Err} r hand fuel (q : HQuad E) rd wr :
  length (vc q) = length (hc q) -> wr <= rd <= length (hc q) -> length (hc q) - rd <= fuel ->
  exists q' wr', @hquad.bind_h_loop E _ Err fuel (length (hc q)) r hand q rd wr = Ok (q', wr')
    /\ length (vc q') = length (hc q') /\ wr' <= length (hc q')
    /\ take wr' (corners q') = take wr (corners q) ++ merge r hand (drop rd (corners q)).
Proof.
  revert q rd wr; induction fuel as [|fuel IH]; intros q rd wr Hlen Hrd Hfuel; cbn [hquad.bind_h_loop].
  { exists q, wr. rewrite drop_ge by (rewrite length_corners by done; lia).
    repeat split; [done|lia|cbn; by rewrite app_nil_r]. }
  destruct (Nat.ltb_spec rd (length (hc q))) as [Hlt|Hge].
  2:{ exists q, wr. rewrite drop_ge by (rewrite length_corners by done; lia).
      repeat split; [done|lia|cbn; by rewrite app_nil_r]. }
  destruct (drop rd (corners q)) as [|c rest] eqn:Hdrop.
  { apply (f_equal length) in Hdrop. rewrite length_drop, length_corners in Hdrop by done. cbn in Hdrop. lia. }
  rewrite (bind_h_read_ok q r hand rd c rest) by done.
  (* one corner or a pair: [k] corners are read, the tail is untouched *)
  assert (forall h v k, (k + length (drop k (c :: rest)))%nat = length (c :: rest) -> 1 <= k ->
    merge r hand (c :: rest) = (h, v) :: merge r hand (drop k (c :: rest)) ->
    exists q' wr',
      (hc' ← store (hc q) wr h; vc' ← store (vc q) wr v;
       @hquad.bind_h_loop E _ Err fuel (length (hc q)) r hand {| hc := hc'; vc := vc' |} (rd + k)%nat (wr + 1)%nat)
      = Ok (q', wr') /\ length (vc q') = length (hc q') /\ wr' <= length (hc q')
      /\ take wr' (corners q') = take wr (corners q) ++ merge r hand (c :: rest)) as Hstep.
  { intros h v k Hk Hk1 Hm. rewrite store_Ok by lia. mstep. rewrite store_Ok by lia. mstep.
    pose proof (f_equal length Hdrop) as Hl. rewrite length_drop, length_corners in Hl by done.
    specialize (IH {| hc := <[wr := h]> (hc q); vc := <[wr := v]> (vc q) |} (rd + k)%nat (wr + 1)%nat).
    cbn [hc vc] in IH. rewrite !length_insert in IH.
    destruct IH as (q' & wr' & Hrun & Hlen' & Hwr' & Htake); [done|lia|lia|].
    exists q', wr'. split; [done|]. split; [done|]. split; [done|].
    rewrite Htake, Hm. unfold corners at 1 2. cbn [hc vc]. rewrite corners_insert.
    rewrite drop_insert_lt by lia. rewrite <- drop_drop, Hdrop.
    replace (wr + 1)%nat with (S wr) by lia.
    rewrite (take_S_r _ wr (h, v)) by (apply list_lookup_insert_eq; rewrite length_corners by done; lia).
    rewrite take_insert_ge by lia. by rewrite <- app_assoc. }
  destruct rest as [|c1 rest]; [|cbn [merge]; destruct (partners hand c.1 c1.1) eqn:Hp]; mstep.
  - destruct (single r hand c) as [h v] eqn:Hs. apply (Hstep h v 1%nat); cbn; rewrite ?drop_0; [done|lia|by rewrite ?Hs].
  - cbn [merge] in Hstep. rewrite Hp in Hstep. apply (Hstep _ _ 2%nat); cbn; rewrite ?drop_0; [lia|lia|done].
  - cbn [merge] in Hstep. rewrite Hp in Hstep.
    destruct (single r hand c) as [h v] eqn:Hs. apply (Hstep h v 1%nat); cbn; rewrite ?drop_0; [done|lia|done].
Qed.

(** [bind_h] on well-formed tensors. *)
Lemma bind_h_ok {Err} (q : HQuad E) r hand :
  length (vc q) = length (hc q) ->
  exists q', @hquad.bind_h E _ Err q r hand = Ok q' /\ length (vc q') = length (hc q')
    /\ corners q' = merge r hand (corners q).
Proof.
  intros Hlen. unfold hquad.bind_h. rewrite (proj2 (Nat.eqb_eq _ _) Hlen). cbn [rust_assert]. mstep.
  destruct (bind_h_loop_ok (Err:=Err) r hand (length (hc q)) q 0 0)
    as (q' & wr & Hrun & Hlen' & Hwr & Htake); [done|lia|lia|].
  rewrite Hrun. mstep. rewrite take_0, drop_0 in Htake. cbn [app] in Htake.
  exists {| hc := take wr (hc q'); vc := take wr (vc q') |}. cbn [hc vc].
  rewrite !length_take. split; [done|]. split; [lia|].
  rewrite <- Htake. unfold corners. cbn [hc vc]. symmetry. apply zip_with_take.
Qed.
End bind.
