(* ===== verification/Gf2_128Sampling.v ===== *)
(** * Sampling GF(2^128)

    [SupportsSampling] for GF(2^128)
    ([src/rust/runtime/algebra/src/gf2_128.rs]): sixteen bytes of the engine,
    read as a little-endian 128-bit integer. *)
From stdpp Require Import prelude.
From Stdlib Require Import Lia NArith.
From S2P Require Import Prelude Words Interfaces Gf2_128 Transcript SumcheckV1.

Definition gf_sample (G : Type) (rng : nat -> G -> outcome stuck (list u8 * G)) (g : G)
  : outcome stuck (Gf2_128 * G) :=
  '(buf, g) ← rng 16 g;
  rust_assert (Nat.eqb (length buf) 16) ;;
  mret (gf (from_le_bytes buf), g).
#[export] Instance Gf2_128_SupportsSampling : SupportsSampling Gf2_128 := gf_sample.

(** An engine that returns as many bytes as asked for yields an element. *)
Lemma elt_field_ok {G} `{RandomEngine G} (g g' : G) buf :
  rng_bytes 16 g = Ok (buf, g') -> length buf = 16 ->
  elt_field (E:=Gf2_128) g = Ok (gf (from_le_bytes buf), g').
Proof.
  intros Hr Hl. unfold elt_field, sample, Gf2_128_SupportsSampling, gf_sample.
  rewrite Hr, bind_Ok. cbn beta iota. by rewrite Hl.
Qed.
