(* ===== verification/SumcheckProofFacts.v ===== *)
(** * Facts about the sumcheck proof codec and the pad layout *)
From stdpp Require Import prelude strings.
From Stdlib Require Import Lia NArith.
From S2P Require Import Prelude Words Stream Interfaces Circuit Field Transcript SumcheckProof SumcheckV1.

(** A decoder of a slice that inverts an encoder: it accepts exactly one
    encoding of each value. *)
Definition canonical {A} (p : reader (list u8) A) (enc : A -> list u8) : Prop :=
  forall s a s', p s = Ok (a, s') -> s = enc a ++ s'.

Lemma reader_bind_inv {A B} (p : reader (list u8) A) (k : A -> reader (list u8) B) s r :
  (p ≫= k) s = Ok r -> exists a s1, p s = Ok (a, s1) /\ k a s1 = Ok r.
Proof. unfold mbind, reader_bind. destruct (p s) as [[a s1]| |]; [eauto|done..]. Qed.

Section canonical.
Context {A : Type}.

Lemma canonical_read_n (p : reader (list u8) A) enc n :
  canonical p enc -> forall s l s', read_n n p s = Ok (l, s') ->
  s = concat (map enc l) ++ s' /\ length l = n.
Proof.
  intros Hp. induction n as [|n IH]; intros s l s' Hr; cbn [read_n] in Hr.
  { injection Hr as <- <-. done. }
  apply reader_bind_inv in Hr as (a & s1 & Ha & Hr).
  apply Hp in Ha as ->. unfold mbind, reader_bind in Hr.
  destruct (read_n n p s1) as [[l' s2]| |] eqn:Hl; [|done..].
  injection Hr as <- <-. apply IH in Hl as [-> <-]. cbn. by rewrite <- app_assoc.
Qed.
End canonical.

Lemma checked_mul_ok a b : (a * b < 2 ^ 64)%N -> checked_mul a b = Some (a * b)%N.
Proof. intros Hb. unfold checked_mul. by rewrite (proj2 (N.ltb_lt _ _) Hb). Qed.
Lemma checked_add_ok a b : (a + b < 2 ^ 64)%N -> checked_add a b = Some (a + b)%N.
Proof. intros Hb. unfold checked_add. by rewrite (proj2 (N.ltb_lt _ _) Hb). Qed.

Section codec.
Context {A : Type} `{SerializableFieldLaws A}.

Lemma parses_elt (e : A) : parses read_elt_field (to_bytes e) e.
Proof.
  intros s rest Hs. cbn in Hs. subst s. exists rest. split; [|done].
  unfold read_elt_field. rewrite (proj2 (Nat.ltb_ge _ _)) by (len; rewrite to_bytes_length; lia).
  cbn [reject_if]. mstep.
  rewrite <- (to_bytes_length e), take_app_length, drop_app_length, bytes_to_element_to_bytes.
  done.
Qed.

Definition enc_round (q : RoundPoly A * RoundPoly A) : list u8 :=
  to_bytes (evaluations q.1).1 ++ to_bytes (evaluations q.2).1
  ++ to_bytes (evaluations q.1).2 ++ to_bytes (evaluations q.2).2.
Definition enc_layer (l : LayerProof A) : list u8 :=
  concat (map enc_round (zip (hp l).1 (hp l).2)) ++ to_bytes (claims l).1 ++ to_bytes (claims l).2.
Definition enc_proof (p : SumcheckProof A) : list u8 := concat (map enc_layer (proof_layers p)).

Lemma parses_round q : parses read_round (enc_round q) q.
Proof.
  destruct q as [[[a b]] [[c d]]]. unfold read_round, enc_round. cbn.
  do 3 (eapply parses_bind; [apply parses_elt|]).
  eapply parses_bind_ret; [apply parses_elt|done].
Qed.

Lemma parses_layer l logw : layer_shape l logw = true -> parses (read_layer logw) (enc_layer l) l.
Proof.
  unfold layer_shape. rewrite andb_true_iff, !Nat.eqb_eq. intros [H1 H2].
  destruct l as [[h0 h1] [c0 c1]]. cbn in H1, H2. unfold read_layer, enc_layer. cbn [hp claims fst snd].
  eapply parses_bind.
  { apply parses_read_n; [rewrite length_zip; lia|]. intros q _. apply parses_round. }
  eapply parses_bind; [apply parses_elt|]. eapply parses_bind_ret; [apply parses_elt|].
  change (map fst ?l) with (l.*1). change (map snd ?l) with (l.*2).
  rewrite fst_zip, snd_zip by lia. done.
Qed.

Lemma parses_layers ls logws :
  length ls = length logws ->
  forallb (fun '(layer, logw) => layer_shape layer logw) (zip ls logws) = true ->
  parses (read_layers logws) (concat (map enc_layer ls)) ls.
Proof.
  revert ls; induction logws as [|logw logws IH]; intros [|l ls] Hlen Hall; try done.
  { apply parses_ret. }
  cbn in Hall. apply andb_true_iff in Hall as [Hl Hall]. cbn [read_layers map concat].
  eapply parses_bind; [by apply parses_layer|]. eapply parses_bind_ret; [|done].
  apply IH; [by injection Hlen|done].
Qed.

(** *** Sizes *)
Definition layer_elements (logw : nat) : nat := 4 * logw + 2.
Definition elements (geom : SumcheckProofGeometry) : nat :=
  sum_list_with layer_elements (logw_layers geom).
Definition geometry_ok (geom : SumcheckProofGeometry) : Prop :=
  Forall (fun logw => sane_logw logw = true) (logw_layers geom)
  /\ (N.of_nat (elements geom) * N.of_nat (Nat.max 1 (serialized_size_bytes (E:=A))) < 2 ^ 64)%N.

Lemma length_enc_layer l logw :
  layer_shape l logw = true ->
  length (enc_layer l) = layer_elements logw * serialized_size_bytes (E:=A).
Proof.
  unfold layer_shape. rewrite andb_true_iff, !Nat.eqb_eq. intros [H1 H2].
  unfold enc_layer, layer_elements. rewrite !length_app, !to_bytes_length.
  enough (forall qs, length (concat (map enc_round qs)) = 4 * length qs * serialized_size_bytes (E:=A)) as Hq.
  { rewrite Hq, length_zip, H1, H2, Nat.min_id. lia. }
  induction qs as [|q qs IH]; [done|]. cbn [map concat length].
  rewrite length_app, IH. unfold enc_round. rewrite !length_app, !to_bytes_length. lia.
Qed.
Lemma length_enc_layers ls logws :
  length ls = length logws ->
  forallb (fun '(layer, logw) => layer_shape layer logw) (zip ls logws) = true ->
  length (concat (map enc_layer ls)) = sum_list_with layer_elements logws * serialized_size_bytes (E:=A).
Proof.
  revert ls; induction logws as [|logw logws IH]; intros [|l ls] Hlen Hall; try done.
  cbn in Hall. apply andb_true_iff in Hall as [Hl Hall]. cbn [map concat sum_list_with].
  rewrite length_app, (IH ls) by (done || by injection Hlen). rewrite (length_enc_layer _ _ Hl). lia.
Qed.

Lemma size_check geom total :
  Forall (fun logw => sane_logw logw = true) (logw_layers geom) ->
  (total + N.of_nat (elements geom) * N.of_nat (serialized_size_bytes (E:=A)) < 2 ^ 64)%N ->
  (N.of_nat (elements geom) < 2 ^ 64)%N ->
  foldM (add_layer_size (A:=A)) total (logw_layers geom)
  = Ok (total + N.of_nat (elements geom) * N.of_nat (serialized_size_bytes (E:=A)))%N.
Proof.
  destruct geom as [logws]. unfold elements. cbn [logw_layers].
  intros Hs. revert total. induction Hs as [|logw logws Hl Hs IH]; intros total Hb He.
  { cbn. f_equal. lia. }
  cbn [sum_list_with foldM] in *. rewrite Nat2N.inj_add, N.mul_add_distr_r in *.
  assert (add_layer_size (A:=A) total logw
          = Ok (total + N.of_nat (layer_elements logw) * N.of_nat (serialized_size_bytes (E:=A)))%N) as ->.
  { unfold add_layer_size. rewrite Hl. cbn [negb reject_if]. mstep.
    replace (N.of_nat (layer_elements logw)) with (N.of_nat logw * 4 + 2)%N in *
      by (unfold layer_elements; lia).
    generalize dependent (N.of_nat (sum_list_with layer_elements logws)). intros rest IH Hb He. clear IH.
    set (sz := N.of_nat (serialized_size_bytes (E:=A))) in *.
    rewrite checked_mul_ok by lia. cbn [ok_or]. mstep.
    rewrite (checked_add_ok 0) by lia. cbn [mbind option_bind].
    rewrite checked_add_ok by lia. cbn [ok_or]. mstep.
    rewrite checked_mul_ok by nia. cbn [ok_or]. mstep.
    rewrite checked_add_ok by nia. done. }
  mstep. rewrite IH; [f_equal; lia|lia|lia].
Qed.

(** *** The writer *)
Lemma write_round_ok (l : LayerProof A) bs r q0 q1 :
  (hp l).1 !! r = Some q0 -> (hp l).2 !! r = Some q1 ->
  write_round l bs r = Ok (bs ++ enc_round (q0, q1)).
Proof.
  intros H0' H1. unfold write_round, at2. cbn [foldM Nat.eqb].
  unfold index. rewrite H0', H1. mstep. unfold write_elt_field, enc_round. cbn [fst snd].
  by rewrite <- !app_assoc.
Qed.

Lemma write_rounds_ok (l : LayerProof A) n bs :
  layer_shape l n = true ->
  foldM (write_round l) bs (seq 0 n) = Ok (bs ++ concat (map enc_round (zip (hp l).1 (hp l).2))).
Proof.
  unfold layer_shape. rewrite andb_true_iff, !Nat.eqb_eq. intros [H1 H2].
  enough (forall m, m <= n -> foldM (write_round l) bs (seq 0 m)
    = Ok (bs ++ concat (map enc_round (take m (zip (hp l).1 (hp l).2))))) as Hg.
  { rewrite Hg by done. rewrite take_ge; [done|]. rewrite length_zip. lia. }
  induction m as [|m IH]; intros Hm; [cbn; by rewrite app_nil_r|].
  rewrite seq_S, foldM_app, IH by lia. mstep. cbn [foldM Nat.add].
  destruct (lookup_lt_is_Some_2 (hp l).1 m) as [q0 E0]; [lia|].
  destruct (lookup_lt_is_Some_2 (hp l).2 m) as [q1 E1]; [lia|].
  rewrite (write_round_ok l _ m q0 q1) by done. mstep.
  rewrite (take_S_r _ m (q0, q1)); [|by apply lookup_zip_Some].
  rewrite map_app, concat_app. cbn. by rewrite app_nil_r, <- app_assoc.
Qed.

Lemma write_layer_ok (p : SumcheckProof A) geom bs i l logw :
  logw_layers geom !! i = Some logw -> proof_layers p !! i = Some l ->
  sane_logw logw = true -> layer_shape l logw = true ->
  write_layer p geom bs i = Ok (bs ++ enc_layer l).
Proof.
  intros Hg Hp Hs Hl. unfold write_layer, index. rewrite Hg. mstep. rewrite Hs. cbn [negb reject_if].
  mstep. rewrite Hp. mstep. pose proof Hl as Hsh. unfold layer_shape in Hsh.
  apply andb_true_iff in Hsh as [-> ->]. cbn [rust_assert]. mstep.
  rewrite write_rounds_ok by done. mstep. cbn. unfold write_elt_field, at2, enc_layer. cbn.
  by rewrite <- !app_assoc.
Qed.

Lemma write_to_buf_ok (p : SumcheckProof A) geom bs :
  proof_shape p geom = true ->
  Forall (fun logw => sane_logw logw = true) (logw_layers geom) ->
  write_to_buf p bs geom = Ok (bs ++ enc_proof p).
Proof.
  intros Hsh Hs. unfold proof_shape in Hsh. apply andb_true_iff in Hsh as [Hlen Hall].
  unfold write_to_buf. rewrite Hlen. cbn [rust_assert]. mstep.
  apply Nat.eqb_eq in Hlen.
  enough (forall m, m <= length (logw_layers geom) ->
    foldM (write_layer p geom) bs (seq 0 m) = Ok (bs ++ concat (map enc_layer (take m (proof_layers p))))) as Hg.
  { rewrite Hg by done. unfold enc_proof. rewrite take_ge by lia. done. }
  induction m as [|m IH]; intros Hm; [cbn; by rewrite app_nil_r|].
  rewrite seq_S, foldM_app, IH by lia. mstep. cbn [foldM Nat.add].
  destruct (lookup_lt_is_Some_2 (logw_layers geom) m) as [logw E0]; [lia|].
  destruct (lookup_lt_is_Some_2 (proof_layers p) m) as [l E1]; [lia|].
  rewrite (write_layer_ok p geom _ m l logw); [mstep|done|done|..].
  - rewrite (take_S_r _ m l) by done. rewrite map_app, concat_app. cbn. by rewrite app_nil_r, <- app_assoc.
  - rewrite Forall_lookup in Hs. eauto.
  - rewrite forallb_forall in Hall. apply (Hall (l, logw)). apply list_elem_of_In.
    apply list_elem_of_lookup. exists m. by apply lookup_zip_Some.
Qed.
Lemma write_proof_ok (p : SumcheckProof A) geom :
  proof_shape p geom = true ->
  Forall (fun logw => sane_logw logw = true) (logw_layers geom) ->
  write_proof p geom = Ok (enc_proof p).
Proof. apply write_to_buf_ok. Qed.

Lemma read_proof_ok (p : SumcheckProof A) geom :
  proof_shape p geom = true -> geometry_ok geom -> parses (read_proof geom) (enc_proof p) p.
Proof.
  intros Hsh [Hs Hb] s rest Hr. cbn in Hr. subst s. exists rest. split; [|done].
  unfold proof_shape in Hsh. apply andb_true_iff in Hsh as [Hlen Hall]. apply Nat.eqb_eq in Hlen.
  unfold read_proof. rewrite size_check; [|done|nia|nia]. mstep.
  rewrite (proj2 (N.ltb_ge _ _)).
  2:{ rewrite length_app. unfold enc_proof, elements.
      rewrite (length_enc_layers _ (logw_layers geom)) by done. lia. }
  cbn [reject_if]. mstep.
  destruct (parses_layers _ _ Hlen Hall (enc_proof p ++ rest) rest eq_refl) as (s' & E & Hr').
  cbn in Hr'. subst s'. unfold mbind, reader_bind. rewrite E. by destruct p.
Qed.

(** *** Canonicity of the reader *)
Context `{!CanonicalField A}.

Lemma canonical_elt : canonical read_elt_field (to_bytes (E:=A)).
Proof.
  intros s a s' Hr. unfold read_elt_field in Hr. inv_outcome.
  injection Hr as -> <-. apply to_bytes_bytes_to_element in Hx0 as ->.
  by rewrite take_drop.
Qed.

Lemma canonical_round : canonical read_round enc_round.
Proof.
  intros s a s' Hr. unfold read_round in Hr.
  apply reader_bind_inv in Hr as (e1 & s1 & ->%canonical_elt & Hr).
  apply reader_bind_inv in Hr as (e2 & s2 & ->%canonical_elt & Hr).
  apply reader_bind_inv in Hr as (e3 & s3 & ->%canonical_elt & Hr).
  apply reader_bind_inv in Hr as (e4 & s4 & ->%canonical_elt & Hr).
  injection Hr as <- <-. unfold enc_round. cbn. by rewrite <- !app_assoc.
Qed.

Lemma canonical_layer logw s l s' :
  read_layer logw s = Ok (l, s') -> s = enc_layer l ++ s' /\ layer_shape l logw = true.
Proof.
  intros Hr. unfold read_layer in Hr.
  apply reader_bind_inv in Hr as (qs & s1 & Hq & Hr).
  apply (canonical_read_n _ _ _ canonical_round) in Hq as [-> Hlen].
  apply reader_bind_inv in Hr as (e1 & s2 & ->%canonical_elt & Hr).
  apply reader_bind_inv in Hr as (e2 & s3 & ->%canonical_elt & Hr).
  injection Hr as <- <-. unfold enc_layer, layer_shape. cbn [hp claims fst snd].
  rewrite !length_map, Hlen, Nat.eqb_refl. split; [|done].
  change (map fst qs) with (qs.*1). change (map snd qs) with (qs.*2).
  by rewrite zip_fst_snd, <- !app_assoc.
Qed.

Lemma canonical_layers logws s ls s' :
  read_layers logws s = Ok (ls, s') ->
  s = concat (map enc_layer ls) ++ s' /\ length ls = length logws /\
  forallb (fun '(layer, logw) => layer_shape layer logw) (zip ls logws) = true.
Proof.
  revert s ls s'; induction logws as [|logw logws IH]; intros s ls s0 Hr; cbn [read_layers] in Hr.
  { by injection Hr as <- <-. }
  apply reader_bind_inv in Hr as (l & s1 & [-> Hl]%canonical_layer & Hr).
  apply reader_bind_inv in Hr as (ls' & s2 & (-> & Hlen & Hall)%IH & Hr).
  injection Hr as <- <-. cbn [map concat length zip zip_with forallb].
  rewrite Hl, <- app_assoc, Hlen. auto.
Qed.

Lemma canonical_proof geom s p s' :
  read_proof geom s = Ok (p, s') -> s = enc_proof p ++ s' /\ proof_shape p geom = true.
Proof.
  intros Hr. unfold read_proof in Hr. inv_outcome.
  apply reader_bind_inv in Hr as (ls & s1 & (-> & Hlen & Hall)%canonical_layers & Hr).
  injection Hr as <- <-. split; [done|]. unfold proof_shape. cbn [proof_layers].
  rewrite Hlen, Nat.eqb_refl. exact Hall.
Qed.
Lemma read_proof_sane geom s (p : SumcheckProof A) s' :
  read_proof geom s = Ok (p, s') -> Forall (fun logw => sane_logw logw = true) (logw_layers geom).
Proof.
  intros Hr. unfold read_proof in Hr. apply bind_Ok_inv in Hr as (total & Hf & _).
  apply (foldM_Ok_invariant (fun done _ => Forall (fun logw => sane_logw logw = true) done)) in Hf; [done|constructor|].
  intros done logw t t' Hd Hl. apply Forall_app. split; [done|]. repeat constructor. unfold add_layer_size in Hl.
  apply bind_Ok_inv in Hl as ([] & Hc & _). by apply reject_if_Ok, negb_false_iff in Hc.
Qed.
End codec.

(** * The order of the pads

    [pad::sample] flattens the pads it draws into the witness in the very
    order in which [pad_layout] numbers them. *)

(** The pads of a round, and of a layer with the product of its endpoint
    pads, in witness order. *)
Definition round_pads {E} (q : RoundPoly E * RoundPoly E) : list E :=
  [(evaluations q.1).1; (evaluations q.1).2; (evaluations q.2).1; (evaluations q.2).2].
Definition layer_pads {E} `{AlgebraicField E} (l : LayerProof E) : list E :=
  concat (map round_pads (zip (hp l).1 (hp l).2))
  ++ [(claims l).1; (claims l).2; fmul (claims l).1 (claims l).2].

(** The positions of a layer's pads in the same order. *)
Definition round_positions (r : pair2 (pair2 nat)) : list nat := [r.1.1; r.1.2; r.2.1; r.2.2].
Definition layer_positions (l : LayerPadLayout) : list nat :=
  concat (map round_positions (rounds l))
  ++ [(claim_positions l).1.1; (claim_positions l).1.2; (claim_positions l).2].

(** ** The layout numbers the pads consecutively *)
Lemma rounds_consecutive start logw :
  concat (map round_positions
    (map (fun round => ((start + 4 * round, start + 4 * round + 1),
                        (start + 4 * round + 2, start + 4 * round + 3))) (seq 0 logw)))
  = seq start (4 * logw).
Proof.
  induction logw as [|logw IH]; [done|].
  rewrite seq_S, !map_app, concat_app, IH. cbn [map concat app round_positions fst snd Nat.add].
  replace (4 * S logw) with (4 * logw + 4) by lia. rewrite seq_app.
  cbn [seq]. repeat f_equal; lia.
Qed.
Lemma layer_consecutive next logw :
  layer_positions (layer_pad_layout logw
    (next + pad_count logw - 3, next + pad_count logw - 3 + 1, next + pad_count logw - 3 + 2))
  = seq next (pad_count logw).
Proof.
  unfold layer_positions, layer_pad_layout. cbn [rounds claim_positions fst snd].
  rewrite rounds_consecutive. unfold pad_count.
  replace (next + (4 * logw + 3) - 3 - 4 * logw) with next by lia.
  rewrite seq_app. cbn [seq]. repeat f_equal; lia.
Qed.

Definition pad_total (geom : SumcheckProofGeometry) : nat := sum_list_with pad_count (logw_layers geom).

Lemma claim_indices_run {Err} logws : forall out next,
  Forall (fun logw => sane_logw logw = true) logws ->
  exists cs, foldM (@claim_indices_step Err) (out, next) logws
    = Ok (out ++ cs, next + sum_list_with pad_count logws) /\
  length cs = length logws /\
  concat (map layer_positions (zip_with layer_pad_layout logws cs))
  = seq next (sum_list_with pad_count logws).
Proof.
  induction logws as [|logw logws IH]; intros out next Hs.
  { exists []. rewrite app_nil_r. cbn. by rewrite Nat.add_0_r. }
  inversion_clear Hs as [|? ? H1 H2]. cbn [foldM claim_indices_step]. rewrite H1.
  cbn [rust_assert]. mstep.
  set (c := next + pad_count logw - 3).
  assert (c + 3 = next + pad_count logw) as Hc by (unfold c, pad_count; lia). rewrite Hc.
  destruct (IH (out ++ [(c, c + 1, c + 2)]) (next + pad_count logw) H2) as (cs & -> & Hl & Hp).
  exists ((c, c + 1, c + 2) :: cs). rewrite <- app_assoc. cbn [app]. split.
  { do 2 f_equal. cbn [sum_list_with]. lia. }
  split; [cbn; lia|]. cbn [zip_with map concat sum_list_with]. rewrite Hp.
  unfold c. rewrite layer_consecutive, seq_app. done.
Qed.

Lemma pad_layout_consecutive {Err} geom base :
  Forall (fun logw => sane_logw logw = true) (logw_layers geom) ->
  exists ls, pad_layout (E:=Err) geom base = Ok ls /\ length ls = length (logw_layers geom) /\
    concat (map layer_positions ls) = seq base (pad_total geom).
Proof.
  intros Hs. destruct (claim_indices_run (Err:=Err) (logw_layers geom) [] base Hs) as (cs & Hrun & Hl & Hp).
  exists (zip_with layer_pad_layout (logw_layers geom) cs). split; [|split].
  - unfold pad_layout, claim_indices. rewrite Hrun. cbn [fmap outcome_fmap fst app]. by mstep.
  - rewrite length_zip_with. lia.
  - exact Hp.
Qed.

(** ** Sampling *)
Section sampling.
Context {E : Type} `{AlgebraicField E} `{SupportsSampling E} {G : Type} `{RandomEngine G}.

Ltac split_pairs := repeat match goal with x : _ * _ |- _ => destruct x; cbn beta iota in * end.

Lemma sample_round_spec h0 h1 w (g : G) r st :
  pad.sample_round ((h0, h1), w, g) r = Ok st ->
  exists q g', st = ((h0 ++ [q.1], h1 ++ [q.2]), w ++ round_pads q, g').
Proof.
  unfold pad.sample_round, pad.sample_hand. cbn [foldM]. intros Hr. inv_outcome.
  do 3 (split_pairs; inv_outcome).
  cbn in *. simplify_eq/=.
  rewrite <- app_assoc.
  lazymatch goal with |- context [(?x ++ [?a], ?y ++ [?b], _, ?g')] => exists (a, b), g' end.
  reflexivity.
Qed.

Lemma sample_rounds_spec n : forall k h0 h1 w (g : G) st,
  length h0 = length h1 ->
  foldM pad.sample_round ((h0, h1), w, g) (seq k n) = Ok st ->
  exists qs g', length qs = n /\
    st = ((h0 ++ map fst qs, h1 ++ map snd qs), w ++ concat (map round_pads qs), g').
Proof.
  induction n as [|n IH]; intros k h0 h1 w g st Hl Hr; cbn [seq foldM] in Hr.
  { injection Hr as <-. exists [], g. cbn. by rewrite !app_nil_r. }
  apply bind_Ok_inv in Hr as (s1 & (q & g1 & ->)%sample_round_spec & Hr).
  apply IH in Hr as (qs & g' & Hn & ->); [|rewrite !length_app; cbn; lia].
  exists (q :: qs), g'. cbn. rewrite <- !app_assoc. cbn. split; [lia|done].
Qed.

Lemma sample_layer_spec ls w (g : G) logw st :
  pad.sample_layer (ls, w, g) logw = Ok st ->
  exists l g', layer_shape l logw = true /\ st = (ls ++ [l], w ++ layer_pads l, g').
Proof.
  unfold pad.sample_layer. intros Hr. apply bind_Ok_inv in Hr as (s1 & Hrun & Hr).
  apply sample_rounds_spec in Hrun as (qs & g1 & Hn & ->); [|done]. cbn beta iota in Hr.
  inv_outcome. do 2 (split_pairs; inv_outcome).
  rewrite <- Hr. cbn [app] in *.
  lazymatch goal with |- context [(ls ++ [?l], _, ?g')] => exists l, g' end. split.
  - unfold layer_shape. cbn [hp fst snd]. by rewrite !length_map, Nat.eqb_refl.
  - unfold layer_pads. cbn [hp claims fst snd app]. rewrite <- app_assoc.
    change (map fst ?l) with (l.*1). change (map snd ?l) with (l.*2). by rewrite zip_fst_snd.
Qed.

Lemma sample_layers_spec logws : forall ls w (g : G) st,
  foldM pad.sample_layer (ls, w, g) logws = Ok st ->
  exists ls' g', st = (ls ++ ls', w ++ concat (map layer_pads ls'), g') /\
    Forall2 (fun l logw => layer_shape l logw = true) ls' logws.
Proof.
  induction logws as [|logw logws IH]; intros ls w g st Hr; cbn [foldM] in Hr.
  { injection Hr as <-. exists [], g. cbn. by rewrite !app_nil_r. }
  apply bind_Ok_inv in Hr as (s1 & (l & g1 & Hsh & ->)%sample_layer_spec & Hr).
  apply IH in Hr as (ls' & g' & -> & Hall). exists (l :: ls'), g'.
  cbn. rewrite <- !app_assoc. split; [done|by constructor].
Qed.

Lemma shape_Forall2 (ls : list (LayerProof E)) logws :
  Forall2 (fun l logw => layer_shape l logw = true) ls logws ->
  proof_shape {| proof_layers := ls |} {| logw_layers := logws |} = true.
Proof.
  intros Hf. unfold proof_shape. cbn [proof_layers logw_layers].
  rewrite (Forall2_length _ _ _ Hf), Nat.eqb_refl. cbn [andb].
  induction Hf as [|l logw ls logws Hl Hf IH]; cbn; [done|by rewrite Hl].
Qed.

Lemma shape_Forall2_inv (p : SumcheckProof E) geom : proof_shape p geom = true ->
  Forall2 (fun l logw => layer_shape l logw = true) (proof_layers p) (logw_layers geom).
Proof.
  unfold proof_shape. intros [Hn%Nat.eqb_eq Hall]%andb_true_iff. revert Hn Hall. generalize (logw_layers geom).
  induction (proof_layers p) as [|l ls IH]; intros [|logw logws] Hn Ha; try done.
  cbn in Ha. apply andb_true_iff in Ha as [H2 H3]. constructor; [done|]. apply IH; [by injection Hn|done].
Qed.

Lemma length_layer_pads (l : LayerProof E) logw :
  layer_shape l logw = true -> length (layer_pads l) = pad_count logw.
Proof.
  unfold layer_shape. rewrite andb_true_iff, !Nat.eqb_eq. intros [H2 H3].
  unfold layer_pads, pad_count. rewrite length_app. cbn [length].
  enough (forall qs : list (RoundPoly E * RoundPoly E),
    length (concat (map round_pads qs)) = 4 * length qs) as Hq by (rewrite Hq, length_zip; lia).
  induction qs as [|q qs IH]; [done|]. cbn [map concat length]. rewrite length_app, IH. cbn. lia.
Qed.
Lemma length_pads (ls : list (LayerProof E)) logws :
  Forall2 (fun l logw => layer_shape l logw = true) ls logws ->
  length (concat (map layer_pads ls)) = sum_list_with pad_count logws.
Proof.
  induction 1 as [|l logw ls logws Hl Hf IH]; [done|].
  cbn [map concat sum_list_with]. by rewrite length_app, (length_layer_pads _ _ Hl), IH.
Qed.
End sampling.
