(* ===== verification/HQuadOrder.v ===== *)
(** * The order of the corners of the wiring tensor

    The corners a canonical layer yields are in increasing Morton order.
    Binding the lowest bit of the right hand and then of the left hand keeps
    them so, one key bit at a time: the pairs that differ in the bound bit
    are adjacent, and after all bits one corner is left. *)
From stdpp Require Import prelude sorting.
From Stdlib Require Import Lia NArith ZifyNat Ring Ring_theory.
From S2P Require Import Prelude Words Interfaces DeltaTable Util Circuit Field FieldFacts SumcheckProof SumcheckV1 DenseFacts.

(** Corners in strictly increasing order of a key. *)
Definition keyed {E} (f : N * N -> N) (cs : list (corner E)) : Prop :=
  Sorted (fun c d => f c.1 < f d.1)%N cs.

Section order.
Context {E : Type} `{AlgebraicFieldLaws E}.

(** Binding a bit removes the lowest bit of the key. *)
Record bit_of (hand : nat) (f g : N * N -> N) (okh : N * N -> Prop) : Prop := {
  bit_key h : f h = (at2 h hand mod 2 + 2 * g (halve hand h))%N;
  bit_inj h h' : okh h -> okh h' -> g (halve hand h) = g (halve hand h') -> halve hand h = halve hand h';
  bit_small h : okh h -> (at2 h hand < 2 ^ 32)%N
}.

Lemma merge_head (r : E) hand (cs : list (corner E)) :
  match cs, merge r hand cs with
  | [], [] => True
  | c :: _, m :: _ => m.1 = halve hand c.1
  | _, _ => False
  end.
Proof. destruct cs as [|c [|c1 cs]]; cbn; [done..|]. by destruct (partners _ _ _). Qed.

Lemma HdRel_merge (g : N * N -> N) r hand (cs : list (corner E)) (m : corner E) :
  match cs with c :: _ => (g m.1 < g (halve hand c.1))%N | [] => True end ->
  HdRel (fun c d => g c.1 < g d.1)%N m (merge r hand cs).
Proof.
  intros Hc. pose proof (merge_head r hand cs) as Hm.
  destruct cs as [|c cs], (merge r hand _) as [|d ds]; try done.
  constructor. by rewrite Hm.
Qed.

Lemma merge_keyed (r : E) hand f g okh cs :
  is_hand hand -> bit_of hand f g okh ->
  Forall (fun c => okh c.1) cs -> keyed f cs -> keyed g (merge r hand cs).
Proof.
  intros Hh Hb. unfold keyed.
  apply (merge_ind r hand (fun cs ms => Forall (fun c => okh c.1) cs ->
    Sorted (fun c d => f c.1 < f d.1)%N cs -> Sorted (fun c d => g c.1 < g d.1)%N ms)); [done|..].
  - intros c c1 cs' Hp IH Hok Hs. inversion_clear Hok as [|? ? _ Hok1].
    inversion_clear Hok1 as [|? ? _ Hok2]. inversion_clear Hs as [|? ? Hs1 _].
    inversion_clear Hs1 as [|? ? Hs2 Hhd]. constructor; [by apply IH|].
    apply HdRel_merge. cbn [fst]. destruct cs' as [|c2 cs']; [done|].
    inversion_clear Hhd as [|? ? Hlt]. rewrite !(bit_key _ _ _ _ Hb) in Hlt.
    apply partners_spec in Hp as (Hhalf & _ & E1); [|done]. rewrite Hhalf, E1 in Hlt.
    pose proof (N.mod_lt (at2 c2.1 hand) 2 ltac:(lia)). lia.
  - intros c cs' Hp IH Hok Hs. inversion_clear Hok as [|? ? Hokc Hok1].
    inversion_clear Hs as [|? ? Hs1 Hhd]. constructor; [by apply IH|].
    apply HdRel_merge. cbn [single fst]. destruct cs' as [|c1 cs']; [done|].
    inversion_clear Hhd as [|? ? Hlt]. inversion_clear Hok1 as [|? ? Hokc1 _].
    rewrite !(bit_key _ _ _ _ Hb) in Hlt.
    pose proof (N.mod_lt (at2 c.1 hand) 2 ltac:(lia)). pose proof (N.mod_lt (at2 c1.1 hand) 2 ltac:(lia)).
    destruct (N.eq_dec (g (halve hand c.1)) (g (halve hand c1.1))) as [Heq|]; [exfalso|lia].
    rewrite Heq in Hlt. apply (bit_inj _ _ _ _ Hb) in Heq; [|done..].
    rewrite (partners_complete hand) in Hp; [done|done|done|lia|lia|by apply (bit_small _ _ _ _ Hb)].
Qed.

(** Fewer than [2^n] (at most [2^32]) wires on both hands. *)
Definition key_ok (n0 n1 : nat) (h : N * N) : Prop :=
  (h.1 < 2 ^ N.of_nat n0 /\ h.2 < 2 ^ N.of_nat n1 /\ h.1 < 2 ^ 32 /\ h.2 < 2 ^ 32)%N.
Definition pair_key (n : nat) (h : N * N) : N := morton.key n h.1 h.2.
Definition pair_key' (n : nat) (h : N * N) : N := morton.key' n h.1 h.2.

Lemma div_pow2_lt x n : (x < 2 ^ N.of_nat (S n) -> x / 2 < 2 ^ N.of_nat n)%N.
Proof. rewrite Nat2N.inj_succ, N.pow_succ_r'. intros. by apply N.Div0.div_lt_upper_bound. Qed.

Lemma bit_right n : bit_of 0 (pair_key (S n)) (pair_key' (S n)) (key_ok (S n) (S n)).
Proof.
  split.
  - intros h. unfold pair_key, pair_key'. rewrite halve_0. reflexivity.
  - intros h h' (H1 & H2 & _) (H1' & H2' & _). rewrite !halve_0. unfold pair_key'. cbn [fst snd morton.key'].
    intros Hk. pose proof (N.mod_lt h.2 2 ltac:(lia)). pose proof (N.mod_lt h'.2 2 ltac:(lia)).
    destruct (morton.key_inj n (h.1 / 2) (h.2 / 2) (h'.1 / 2) (h'.2 / 2)) as [E1 E2];
      [by apply div_pow2_lt..|lia|].
    f_equal; [done|]. dlia.
  - intros h (_ & _ & H1 & _). exact H1.
Qed.
Lemma bit_left n : bit_of 1 (pair_key' (S n)) (pair_key n) (key_ok n (S n)).
Proof.
  split.
  - intros h. unfold pair_key, pair_key'. rewrite halve_1. reflexivity.
  - intros h h' (H1 & H2 & _) (H1' & H2' & _). rewrite !halve_1. unfold pair_key. cbn [fst snd].
    intros Hk. destruct (morton.key_inj n h.1 (h.2 / 2) h'.1 (h'.2 / 2)) as [E1 E2];
      [done|by apply div_pow2_lt|done|by apply div_pow2_lt|exact Hk|].
    by rewrite E1, E2.
  - intros h (_ & _ & _ & H1). exact H1.
Qed.

(** No bits are left: at most one corner. *)
Lemma keyed_0_single (cs : list (corner E)) :
  keyed (pair_key 0) cs -> Forall (fun c => key_ok 0 0 c.1) cs -> cs <> [] -> exists v, cs = [((0, 0)%N, v)].
Proof.
  intros Hs Hok Hne. destruct cs as [|[[x y] v] [|d cs]]; [done|..].
  - exists v. inversion_clear Hok as [|? ? (H1 & H2 & _) _]. cbn in H1, H2. do 3 f_equal; lia.
  - inversion_clear Hs as [|? ? _ Hhd]. inversion_clear Hhd as [|? ? Hlt]. cbn in Hlt. lia.
Qed.
End order.

(** * Binding the outputs of a layer

    [bind_g] weighs every term by the equality weight of its output and adds
    up runs of terms with the same corner.  The corners it yields, their sum
    against any function, their order and their number. *)
Local Open Scope fe_scope.

Definition term_corner {A} (t : Term A) : N * N := (t_h0 t, t_h1 t).

Section group.
Context {E : Type} `{AlgebraicFieldLaws E}.
Add Ring field_ring_bind_g : (field_ring (E:=E)).

(** The value a term contributes, given the weight of each output. *)
Definition term_value (beta : E) (dot : nat -> E) (t : Term E) : E :=
  (if is_zero (t_k t) then beta else t_k t) * dot (N.to_nat (t_g t)).

(** Runs of equal corners are added up, the first into [cur]. *)
Fixpoint group (x : Term E -> E) (cur : corner E) (ts : list (Term E)) : list (corner E) :=
  match ts with
  | [] => [cur]
  | t :: ts' =>
      if decide (term_corner t = cur.1) then group x (cur.1, cur.2 + x t) ts'
      else cur :: group x (term_corner t, x t) ts'
  end.
Definition group_terms (x : Term E -> E) (ts : list (Term E)) : list (corner E) :=
  match ts with [] => [] | t :: ts' => group x (term_corner t, x t) ts' end.

Lemma group_sum x g ts : forall cur,
  qsum (group x cur ts) g = cur.2 * g cur.1 + sigma ts (fun t => x t * g (term_corner t)).
Proof.
  induction ts as [|t ts IH]; intros cur; cbn [group].
  { unfold qsum. rewrite sigma_cons. cbn. ring. }
  rewrite sigma_cons. destruct (decide (term_corner t = cur.1)) as [->|].
  - rewrite IH. cbn [fst snd]. ring.
  - unfold qsum in *. rewrite sigma_cons, IH. cbn [fst snd]. ring.
Qed.
Lemma group_terms_sum x g ts :
  qsum (group_terms x ts) g = sigma ts (fun t => x t * g (term_corner t)).
Proof. destruct ts as [|t ts]; [done|]. unfold group_terms. by rewrite group_sum, sigma_cons. Qed.

Lemma group_elem x ts : forall cur c,
  c ∈ group x cur ts -> c.1 = cur.1 \/ exists t, t ∈ ts /\ c.1 = term_corner t.
Proof.
  induction ts as [|t ts IH]; intros cur c; cbn [group].
  { intros ->%list_elem_of_singleton. by left. }
  destruct (decide (term_corner t = cur.1)) as [Heq|].
  - intros [Hc|(u & Hu & Hc)]%IH; [by left|right; exists u; set_solver].
  - intros [->|[Hc|(u & Hu & Hc)]%IH]%elem_of_cons; [by left|right; exists t; set_solver|right; exists u; set_solver].
Qed.
Lemma group_terms_elem x ts c : c ∈ group_terms x ts -> exists t, t ∈ ts /\ c.1 = term_corner t.
Proof.
  destruct ts as [|t ts]; cbn [group_terms]; [by intros Hc%elem_of_nil|].
  intros [Hc|(u & Hu & Hc)]%group_elem; [exists t|exists u]; set_solver.
Qed.
Lemma group_nonempty x cur ts : group x cur ts <> [].
Proof. revert cur; induction ts as [|t ts IH]; intros cur; cbn; [done|]. by destruct (decide _). Qed.

(** Terms in nondecreasing order of an injective key give corners in
    increasing order. *)
Context (okh : N * N -> Prop) (f : N * N -> N).
Context (f_inj : forall a b, okh a -> okh b -> f a = f b -> a = b).

Lemma group_keyed x ts : forall cur,
  okh cur.1 -> Forall (fun t => okh (term_corner t)) ts ->
  Sorted N.le (f cur.1 :: map (fun t => f (term_corner t)) ts) ->
  keyed f (group x cur ts) /\
  match group x cur ts with c :: _ => c.1 = cur.1 | [] => False end.
Proof.
  unfold keyed. induction ts as [|t ts IH]; intros cur Hok Hoks Hs; cbn [group].
  { split; [repeat constructor|done]. }
  cbn [map] in Hs. inversion_clear Hs as [|? ? Hs1 Hhd]. inversion_clear Hhd as [|? ? Hle].
  inversion_clear Hoks as [|? ? Hok1 Hok2].
  destruct (decide (term_corner t = cur.1)) as [Heq|Hne].
  - apply (IH (cur.1, cur.2 + x t)); cbn [fst]; [done|done|by rewrite Heq in Hs1].
  - destruct (IH (term_corner t, x t)) as [IHs IHh]; [done..|].
    split; [|done]. constructor; [done|].
    destruct (group x _ ts) as [|c cs]; [done|]. constructor. rewrite IHh. cbn [fst].
    apply N.le_neq. split; [done|]. intros Hf. apply Hne. symmetry. by apply f_inj.
Qed.

Lemma group_terms_keyed x ts :
  Forall (fun t => okh (term_corner t)) ts ->
  Sorted N.le (map (fun t => f (term_corner t)) ts) -> keyed f (group_terms x ts).
Proof.
  destruct ts as [|t ts]; intros Hok Hs; [constructor|]. inversion_clear Hok as [|? ? H1 H2].
  by apply (group_keyed x ts (term_corner t, x t)).
Qed.
End group.

Section callback.
Context {E : Type} `{AlgebraicFieldLaws E}.

(** *** The callback *)
Lemma bind_g_term_ok {Err} (dot : list E) beta hs vs prev t :
  (N.to_nat (t_g t) < length dot)%nat ->
  @hquad.bind_g_term E _ Err dot beta ({| hc := hs; vc := vs |}, prev) t
  = Ok (if decide (term_corner t = prev)
        then ({| hc := hs; vc := hquad.add_last vs (term_value beta (at0 dot) t) |}, prev)
        else ({| hc := hs ++ [term_corner t]; vc := vs ++ [term_value beta (at0 dot) t] |}, term_corner t)).
Proof.
  intros Hg. unfold hquad.bind_g_term. destruct prev as [p0 p1]. rewrite at0_lt by done. cbn [unwrap]. mstep.
  assert ((if is_zero (t_k t) then beta * at0 dot (N.to_nat (t_g t)) else t_k t * at0 dot (N.to_nat (t_g t)))
    = term_value beta (at0 dot) t) as -> by (unfold term_value; by destruct (is_zero _)).
  unfold term_corner. destruct (decide ((t_h0 t, t_h1 t) = (p0, p1))) as [[= -> ->]|Hne].
  - rewrite !N.eqb_refl. done.
  - destruct (N.eqb_spec (t_h0 t) p0), (N.eqb_spec (t_h1 t) p1); first [congruence|reflexivity].
Qed.

Lemma add_last_snoc (vs : list E) v x : hquad.add_last (vs ++ [v]) x = vs ++ [v + x].
Proof.
  unfold hquad.add_last. rewrite last_snoc, length_app. cbn [length].
  replace (length vs + 1 - 1)%nat with (length vs + 0)%nat by lia.
  rewrite insert_app_r. done.
Qed.

Lemma bind_g_terms_ok {Err} (dot : list E) beta ts : forall hs vs (cur : corner E),
  Forall (fun t => (N.to_nat (t_g t) < length dot)%nat) ts ->
  exists prev, foldM (@hquad.bind_g_term E _ Err dot beta)
      ({| hc := hs ++ [cur.1]; vc := vs ++ [cur.2] |}, cur.1) ts
    = Ok ({| hc := hs ++ map fst (group (term_value beta (at0 dot)) cur ts);
             vc := vs ++ map snd (group (term_value beta (at0 dot)) cur ts) |}, prev).
Proof.
  induction ts as [|t ts IH]; intros hs vs cur Hg; cbn [foldM group]; [by eexists|].
  inversion_clear Hg as [|? ? Hg1 Hg2]. rewrite bind_g_term_ok by done. mstep.
  destruct (decide (term_corner t = cur.1)) as [Heq|Hne].
  - rewrite add_last_snoc. apply (IH hs vs (cur.1, cur.2 + _)). done.
  - destruct (IH (hs ++ [cur.1]) (vs ++ [cur.2]) (term_corner t, term_value beta (at0 dot) t) Hg2) as (p & Hp).
    cbn [fst snd] in Hp. rewrite Hp. exists p. cbn [map]. by rewrite <- !app_assoc.
Qed.
End callback.

(** ** The tensor of a layer *)
Section bind_g.
Context {E : Type} `{AlgebraicFieldLaws E}.

(** What a layer must satisfy for its terms to be bound: nothing is out of
    range and no corner is the sentinel. *)
Record terms_ok (nv nw : nat) (ts : list (Term E)) : Prop := {
  terms_nonempty : ts <> [];
  terms_g : Forall (fun t => N.to_nat (t_g t) < nv)%nat ts;
  terms_h : Forall (fun t => N.to_nat (t_h0 t) < nw /\ N.to_nat (t_h1 t) < nw)%nat ts;
  terms_small : (N.of_nat nw < 2 ^ 32)%N
}.

Definition output_weight (g0 g1 : list E) (alpha : E) (i : nat) : E :=
  eqw g0 i + alpha * eqw g1 i.

Definition moves (ds : list TermDelta) : nat := length (filter (fun d => moves_h d = true) ds).
(** The number of corners the deltas stand for. *)
Definition capacity (ds : list TermDelta) : nat := match ds with [] => O | _ :: ds' => S (moves ds') end.
Definition deltas_of (l : Layer) (idxs : list N) : list TermDelta := omap (fun i => deltas l !! N.to_nat i) idxs.

Lemma moves_app ds ds' : moves (ds ++ ds') = (moves ds + moves ds')%nat.
Proof. unfold moves. by rewrite filter_app, length_app. Qed.
Lemma moves_cons d ds : moves (d :: ds) = ((if moves_h d then 1 else 0) + moves ds)%nat.
Proof. unfold moves. rewrite filter_cons. by destruct (moves_h d). Qed.

Lemma segment_moves {Err} l seg n :
  Forall (fun i => N.to_nat i < length (deltas l))%nat seg ->
  foldM (fun n d_idx => d ← index (deltas l) (N.to_nat d_idx);
    mret (if moves_h d then S n else n)) n seg = @Ok Err nat (n + moves (deltas_of l seg))%nat.
Proof.
  intros Hin. revert n. induction Hin as [|i seg Hi Hin IH]; intros n; cbn [foldM].
  { by rewrite Nat.add_0_r. }
  destruct (lookup_lt_is_Some_2 _ _ Hi) as [d Hd]. rewrite (index_lookup _ _ _ Hd). mstep.
  rewrite IH. f_equal. unfold deltas_of. cbn [omap list_omap]. rewrite Hd, moves_cons. destruct (moves_h d); lia.
Qed.
Lemma segments_moves {Err} l segs :
  Forall (Forall (fun i => N.to_nat i < length (deltas l))%nat) segs ->
  mapM (fun seg => foldM (fun n d_idx => d ← index (deltas l) (N.to_nat d_idx);
    mret (if moves_h d then S n else n)) O seg) segs
  = @Ok Err _ (map (fun seg => moves (deltas_of l seg)) segs).
Proof.
  induction 1 as [|seg segs H1 H2 IH]; [done|]. cbn [mapM]. rewrite segment_moves by done. mstep.
  rewrite IH. done.
Qed.

Lemma deltas_of_app l a b : deltas_of l (a ++ b) = deltas_of l a ++ deltas_of l b.
Proof. apply omap_app. Qed.

(** The capacity of the corners' vector. *)
Lemma nterms_spec {Err} nconst (l : Layer) :
  layer_wf nconst l -> @nterms_after_bind_g Err l = Ok (capacity (layer_deltas l)).
Proof.
  intros [Htok Hseg _]. unfold nterms_after_bind_g. rewrite segments_moves by done. mstep.
  unfold layer_deltas, layer_indices. fold (deltas_of l (concat (omap (fun tok => delta_segments l !! N.to_nat tok) (delta_tokens l)))).
  assert (forall toks (total : nat) (first : bool), Forall (fun tok => N.to_nat tok < length (delta_segments l))%nat toks ->
    exists b, foldM (fun '(total, is_first) tok => seg ← index (delta_segments l) (N.to_nat tok);
      match seg with
      | [] => mret (total, is_first)
      | d0 :: _ => total ← (if is_first : bool then first_d ← index (deltas l) (N.to_nat d0);
            mret (if moves_h first_d then total else S total) else mret total);
          n ← index (map (fun seg => moves (deltas_of l seg)) (delta_segments l)) (N.to_nat tok);
          mret ((total + n)%nat, false)
      end) (total, first) toks
    = @Ok Err _ ((total + (if first then capacity else moves)
        (deltas_of l (concat (omap (fun tok => delta_segments l !! N.to_nat tok) toks))))%nat, b)) as Hg.
  2:{ destruct (Hg (delta_tokens l) O true Htok) as (b & ->). done. }
  induction toks as [|tok toks IH]; intros total first Hin.
  { exists first. cbn. destruct first; by rewrite Nat.add_0_r. }
  apply Forall_cons in Hin as [Ht Hts]. cbn [foldM]. destruct (lookup_lt_is_Some_2 _ _ Ht) as [seg Hs].
  rewrite (index_lookup _ _ _ Hs). mstep. cbn [omap list_omap]. rewrite Hs. cbn [concat].
  rewrite deltas_of_app. destruct seg as [|d0 seg]; [mstep; by apply IH|].
  rewrite Forall_lookup in Hseg. specialize (Hseg _ _ Hs). apply Forall_cons in Hseg as [Hd Hseg].
  destruct (lookup_lt_is_Some_2 _ _ Hd) as [d Hd'].
  assert (index (map (fun seg => moves (deltas_of l seg)) (delta_segments l)) (N.to_nat tok)
    = @Ok Err nat (moves (deltas_of l (d0 :: seg)))) as ->.
  { apply index_lookup. change (map ?f ?l) with (f <$> l). by rewrite list_lookup_fmap, Hs. }
  assert (deltas_of l (d0 :: seg) = d :: deltas_of l seg) as -> by (unfold deltas_of; cbn [omap list_omap]; by rewrite Hd').
  rewrite moves_cons. destruct first.
  - rewrite (index_lookup _ _ _ Hd'). mstep.
    match goal with |- exists b, foldM _ (?n, _) _ = _ => destruct (IH n false Hts) as (b & ->) end.
    exists b. do 2 f_equal. cbn [capacity app]. rewrite moves_app. destruct (moves_h d); lia.
  - mstep. match goal with |- exists b, foldM _ (?n, _) _ = _ => destruct (IH n false Hts) as (b & ->) end.
    exists b. do 2 f_equal. cbn [app]. rewrite moves_cons, moves_app. lia.
Qed.

Lemma wrapping_add32_same p d : (p < 2 ^ 32 -> d < 2 ^ 32 -> wrapping_add32 p d = p <-> d = 0)%N.
Proof. unfold wrapping_add32, wrap32. intros. split; intros; dlia. Qed.

Lemma group_moves (x : Term E -> E) cs ds : forall p v,
  (p.1.2 < 2 ^ 32)%N -> (p.2 < 2 ^ 32)%N -> Forall delta_u32 ds ->
  Forall (fun d => N.to_nat (d_k_index d) < length cs)%nat ds ->
  length (group x ((p.1.2, p.2), v) (terms_from cs p ds)) = S (moves ds).
Proof.
  induction ds as [|d ds IH]; intros [[g h0] h1] v H0' H1 Hs Hk; [done|].
  apply Forall_cons in Hs as [(_ & S0 & S1) Hs], Hk as [Hd Hk]. cbn [fst snd] in *. cbn [terms_from apply_delta].
  destruct (lookup_lt_is_Some_2 _ _ Hd) as [k ->]. cbn [group term_at term_corner t_h0 t_h1 fst].
  assert (wrapping_add32 h0 (d_h d).1 < 2 ^ 32 /\ wrapping_add32 h1 (d_h d).2 < 2 ^ 32)%N as [W0 W1]
    by (unfold wrapping_add32, wrap32; split; apply N.mod_lt; lia).
  rewrite moves_cons. unfold moves_h.
  destruct (wrapping_add32_same h0 (d_h d).1 H0' S0) as [A0 B0].
  destruct (wrapping_add32_same h1 (d_h d).2 H1 S1) as [A1 B1].
  unfold term_corner. cbn [t_h0 t_h1]. case_decide as Heq.
  - injection Heq as E0 E1. rewrite E0, E1. specialize (A0 E0). specialize (A1 E1).
    rewrite A0, A1. cbn [N.eqb negb orb Nat.add].
    apply (IH (_, h0, h1)); cbn [fst snd]; done.
  - pose proof (IH (wrapping_add32 g (d_g d), wrapping_add32 h0 (d_h d).1, wrapping_add32 h1 (d_h d).2)) as IH1.
    cbn [fst snd] in IH1. cbn [length]. rewrite IH1 by done.
    destruct (N.eqb_spec (d_h d).1 0) as [Z0|], (N.eqb_spec (d_h d).2 0) as [Z1|]; cbn [negb orb]; try lia.
    destruct Heq. by rewrite (B0 Z0), (B1 Z1).
Qed.

Lemma nterms_exact {Err} (x : Term E -> E) (l : Layer) (cs : list E) :
  layer_wf (length cs) l -> layer_u32 l ->
  @nterms_after_bind_g Err l = Ok (length (group_terms x (layer_terms l cs))).
Proof.
  intros Hwf Hsm. rewrite (nterms_spec (length cs)) by done. f_equal. unfold layer_terms.
  pose proof (layer_deltas_in_range (length cs) l Hwf) as Hk.
  assert (Forall delta_u32 (layer_deltas l)) as Hs.
  { unfold layer_u32 in Hsm. rewrite Forall_forall in *. intros d (i & _ & Hl)%list_elem_of_omap. apply Hsm. by eapply list_elem_of_lookup_2. }
  destruct (layer_deltas l) as [|d ds]; [done|]. apply Forall_cons in Hs as [(_ & S0 & S1) Hs], Hk as [Hd Hk].
  cbn [terms_from apply_delta capacity]. destruct (lookup_lt_is_Some_2 _ _ Hd) as [k ->]. cbn [group_terms].
  symmetry. apply (group_moves x cs ds (_, _, _)); cbn [fst snd]; [..|done|done];
    unfold wrapping_add32, wrap32; apply N.mod_lt; lia.
Qed.

Lemma bind_g_ok {Err} (l : Layer) (cs : list E) logv nv nw g0 g1 alpha beta :
  layer_wf (length cs) l -> sane_logw logv = true ->
  nv <= 2 ^ logv -> logv <= length g0 -> logv <= length g1 ->
  terms_ok nv nw (layer_terms l cs) ->
  exists q, @hquad.bind_g E _ Err l cs logv nv g0 g1 alpha beta = Ok q /\
    length (vc q) = length (hc q) /\
    corners q = group_terms (term_value beta (output_weight (take logv g0) (take logv g1) alpha)) (layer_terms l cs).
Proof.
  intros Hwf Hs Hn H0' H1 [Hne Hg Hh Hsm]. unfold hquad.bind_g.
  rewrite (nterms_spec _ _ Hwf). mstep. rewrite Hs. cbn [rust_assert]. mstep.
  assert (1 <= nv)%nat as Hnv.
  { destruct (layer_terms l cs); [done|]. inversion_clear Hg as [|? ? Hg1 _]. lia. }
  rewrite eq2_ok by lia. mstep. rewrite for_each_term_spec by done.
  set (dot := tab _ nv).
  assert (length dot = nv) as Hdot by apply length_tab.
  destruct (layer_terms l cs) as [|t ts]; [done|]. apply Forall_cons in Hg as [Hg1 Hg2].
  apply Forall_cons in Hh as [[Hh0 Hh1] _].
  cbn [foldM]. rewrite bind_g_term_ok by lia. mstep.
  rewrite decide_False.
  2:{ unfold term_corner, hquad.NO_CORNER. intros [= Hc _]. rewrite Hc in Hh0. lia. }
  destruct (bind_g_terms_ok (Err:=Err) dot beta ts [] [] (term_corner t, term_value beta (at0 dot) t))
    as (p & Hp). { eapply Forall_impl; [exact Hg2|]. intros u Hu. cbn beta in *. rewrite Hdot. exact Hu. }
  cbn [fst snd] in Hp. cbn [app] in *. rewrite Hp. mstep. eexists. split; [reflexivity|]. cbn [hc vc].
  split; [by rewrite !length_map|]. unfold corners. cbn [hc vc].
  change (map fst ?l) with (l.*1). change (map snd ?l) with (l.*2). rewrite zip_fst_snd.
  cbn [group_terms].
  assert (forall u, (N.to_nat (t_g u) < nv)%nat -> term_value beta (at0 dot) u
    = term_value beta (output_weight (take logv g0) (take logv g1) alpha) u) as Hv.
  { intros u Hu. unfold term_value. subst dot. by rewrite at0_tab by done. }
  rewrite (Hv t Hg1). generalize (term_corner t, term_value beta (output_weight (take logv g0) (take logv g1) alpha) t).
  clear -Hg2 Hv. induction ts as [|u ts IH]; intros cur; [done|]. inversion_clear Hg2 as [|? ? Hu Hus].
  cbn [group]. rewrite (Hv u Hu). destruct (decide _); by rewrite IH.
Qed.
End bind_g.
