(* ===== verification/SumcheckRound.v ===== *)
(** * One round of sumcheck

    The algebra of a round of the v1 prover: the weights of one hand, the
    quadratic round polynomial, and the value of the bound tensor at the
    challenge; the same round on the symbolic claims. *)
From stdpp Require Import prelude strings.
From Stdlib Require Import Lia NArith ZifyNat Ring Ring_theory.
From S2P Require Import Prelude Words Interfaces Circuit Field FieldFacts Interpolation Transcript SumcheckProof SumcheckV1 SumcheckProtocol DenseFacts.

Local Open Scope fe_scope.

Section round.
Context {E : Type} `{AlgebraicFieldLaws E}.
Add Ring field_ring_round : (field_ring (E:=E)).

(** The tensor summed against the two tables, the bound hand first. *)
Definition tensor_value (hand : nat) (cs : list (corner E)) (wh wo : list E) : E :=
  qsum cs (fun h => at0 wh (N.to_nat (at2 h hand)) * at0 wo (N.to_nat (at2 h (1 - hand)))).
Lemma tensor_value_swap cs w0 w1 : tensor_value 1 cs w1 w0 = tensor_value 0 cs w0 w1.
Proof. apply qsum_ext. intros c _. cbn. ring. Qed.

(** The part of the tensor at index [i] of a hand. *)
Definition hand_weight (hand : nat) (cs : list (corner E)) (wo : list E) (i : nat) : E :=
  qsum cs (fun h => if Nat.eqb (N.to_nat (at2 h hand)) i then at0 wo (N.to_nat (at2 h (1 - hand))) else 0).

Lemma hand_weight_sum hand cs wo m (G : nat -> E) :
  Forall (fun c => N.to_nat (at2 c.1 hand) < m) cs ->
  sigma (seq 0 m) (fun i => hand_weight hand cs wo i * G i)
  = qsum cs (fun h => at0 wo (N.to_nat (at2 h (1 - hand))) * G (N.to_nat (at2 h hand))).
Proof.
  intros Hm. unfold hand_weight, qsum. induction Hm as [|c cs Hc Hm IH].
  { apply sigma_zero. intros i _. cbn. ring. }
  rewrite sigma_cons, <- IH.
  pose proof (sigma_single m (N.to_nat (at2 c.1 hand))
    (fun i => if Nat.eqb (N.to_nat (at2 c.1 hand)) i
              then c.2 * (at0 wo (N.to_nat (at2 c.1 (1 - hand))) * G i) else 0)) as Hs.
  cbn beta in Hs. rewrite Nat.eqb_refl in Hs. rewrite <- Hs; [|done|].
  2:{ intros i Hi. destruct (Nat.eqb_spec (N.to_nat (at2 c.1 hand)) i); [lia|done]. }
  rewrite <- sigma_add. apply sigma_ext. intros i _. rewrite sigma_cons. cbn beta.
  destruct (Nat.eqb _ i); ring.
Qed.

Lemma at2_halve hand h : is_hand hand ->
  at2 (halve hand h) hand = (at2 h hand / 2)%N /\ at2 (halve hand h) (1 - hand) = at2 h (1 - hand).
Proof. intros [-> | ->]; [rewrite halve_0|rewrite halve_1]; done. Qed.

Lemma bit_weight_nat r x : bit_weight r x = if Nat.even (N.to_nat x) then 1 - r else r.
Proof.
  unfold bit_weight. assert (N.even x = Nat.even (N.to_nat x)) as ->; [|done].
  rewrite <- (N2Nat.id x) at 1. generalize (N.to_nat x) as n. intros n.
  destruct (Nat.even n) eqn:He.
  - apply Nat.even_spec in He as [k ->]. apply N.even_spec. exists (N.of_nat k). lia.
  - rewrite <- Nat.negb_odd in He. apply negb_false_iff, Nat.odd_spec in He as [k ->].
    rewrite <- N.negb_odd. apply negb_false_iff, N.odd_spec. exists (N.of_nat k). lia.
Qed.

(** Pairs of consecutive indices, the last one possibly incomplete. *)
Lemma sigma_half_up n (G : nat -> E) :
  (forall i, n <= i -> G i = 0) ->
  sigma (seq 0 n) G = sigma (seq 0 (half_up n)) (fun i => G (2 * i)%nat + G (2 * i + 1)%nat).
Proof.
  intros Hg. rewrite <- sigma_pairs. symmetry. apply sigma_seq_extend; [unfold half_up; dlia|done].
Qed.

(** The value of the bound tensor is the product of the two bound lines. *)
Lemma tensor_value_merge r hand cs wh wo :
  is_hand hand -> Forall (fun c => N.to_nat (at2 c.1 hand) < length wh) cs ->
  tensor_value hand (merge r hand cs) (bound r wh) wo
  = sigma (seq 0 (half_up (length wh))) (fun i =>
      line r (hand_weight hand cs wo (2 * i)) (hand_weight hand cs wo (2 * i + 1))
      * line r (at0 wh (2 * i)) (at0 wh (2 * i + 1))).
Proof.
  intros Hh Hcs. unfold tensor_value. rewrite merge_sum by done.
  set (G i := (if Nat.even i then 1 - r else r) * at0 (bound r wh) (i / 2)).
  transitivity (qsum cs (fun h => at0 wo (N.to_nat (at2 h (1 - hand))) * G (N.to_nat (at2 h hand)))).
  { apply qsum_ext. intros c _. unfold G. destruct (at2_halve hand c.1 Hh) as [-> ->].
    rewrite bit_weight_nat, N2Nat.inj_div. change (N.to_nat 2) with 2%nat. ring. }
  rewrite <- (hand_weight_sum hand cs wo (2 * half_up (length wh)) G).
  2:{ eapply Forall_impl; [exact Hcs|]. intros c Hc. cbn beta in *. unfold half_up. dlia. }
  rewrite sigma_pairs. apply sigma_ext. intros i _. unfold G.
  rewrite even_double, even_double_1. replace (2 * i / 2)%nat with i by dlia.
  replace ((2 * i + 1) / 2)%nat with i by dlia. rewrite at0_bound. unfold line. ring.
Qed.

(** The current claim as a sum over the bound hand. *)
Lemma tensor_value_sum hand cs wh wo :
  Forall (fun c => N.to_nat (at2 c.1 hand) < length wh) cs ->
  sigma (seq 0 (length wh)) (fun i => hand_weight hand cs wo i * at0 wh i) = tensor_value hand cs wh wo.
Proof.
  intros Hcs. rewrite hand_weight_sum by done. apply qsum_ext. intros. ring.
Qed.

(** ** The round's weights *)
Lemma qsum_nil g : qsum (E:=E) [] g = 0.
Proof. reflexivity. Qed.
Lemma qsum_cons c cs g : qsum (E:=E) (c :: cs) g = c.2 * g c.1 + qsum cs g.
Proof. reflexivity. Qed.
Lemma fill_step_ok {Err} (q : HQuad E) wo hand g n i c :
  corners q !! i = Some c -> N.to_nat (at2 c.1 hand) < n -> N.to_nat (at2 c.1 (1 - hand)) < length wo ->
  @prover.fill_step E _ Err q wo hand (tab g n) i
  = Ok (tab (fun j => if Nat.eqb j (N.to_nat (at2 c.1 hand))
                      then g j + c.2 * at0 wo (N.to_nat (at2 c.1 (1 - hand))) else g j) n).
Proof.
  intros Hc Hn Ho. destruct c as [h v]. apply corners_lookup in Hc as [Hh Hv]. cbn [fst snd] in *.
  unfold prover.fill_step. rewrite (proj2 (index_Ok _ _ _) Hh). mstep.
  rewrite index_tab by done. mstep. rewrite (proj2 (index_Ok _ _ _) Hv). mstep.
  rewrite index_at0 by done. mstep. rewrite store_tab by done. f_equal. apply tab_ext. intros j _.
  destruct (Nat.eqb_spec j (N.to_nat (at2 h hand))) as [->|]; done.
Qed.

Lemma fill_round_weights_ok {Err} (q : HQuad E) wo hand qw :
  length (vc q) = length (hc q) ->
  Forall (fun c => N.to_nat (at2 c.1 hand) < length qw /\ N.to_nat (at2 c.1 (1 - hand)) < length wo)
    (corners q) ->
  @prover.fill_round_weights E _ Err qw q wo hand
  = Ok (tab (hand_weight hand (corners q) wo) (length qw)).
Proof.
  intros Hl Hcs. unfold prover.fill_round_weights.
  assert (blas.clear qw = tab (hand_weight hand (take 0 (corners q)) wo) (length qw)) as ->.
  { unfold blas.clear, tab. rewrite take_0. cbn. clear Hcs. induction qw as [|x qw IH]; [done|].
    cbn [length seq map]. by rewrite IH, <- seq_shift, map_map. }
  rewrite <- (length_corners q Hl).
  enough (forall m, m <= length (corners q) ->
    foldM (@prover.fill_step E _ Err q wo hand)
      (tab (hand_weight hand (take 0 (corners q)) wo) (length qw)) (seq 0 m)
    = Ok (tab (hand_weight hand (take m (corners q)) wo) (length qw))) as Hg.
  { rewrite Hg by done. by rewrite (take_ge (corners q) (length (corners q))). }
  induction m as [|m IH]; intros Hm; [done|].
  rewrite seq_S, foldM_app, IH by lia. mstep. cbn [foldM Nat.add].
  destruct (lookup_lt_is_Some_2 (corners q) m Hm) as [c Hc].
  rewrite Forall_lookup in Hcs. destruct (Hcs _ _ Hc) as [H1 H2].
  rewrite (fill_step_ok q wo hand _ _ m c) by done. mstep. f_equal. apply tab_ext. intros j _.
  rewrite (take_S_r _ _ _ Hc). unfold hand_weight. rewrite qsum_app, qsum_cons, qsum_nil.
  rewrite (Nat.eqb_sym j). destruct (Nat.eqb _ j); ring.
Qed.
End round.

(** ** The round polynomial *)
Section polynomial.
Context {E : Type} `{AF : AlgebraicField E} `{!AlgebraicFieldLaws E} `{!RuntimeField E}
  `{!RuntimeFieldLaws E} `{!InterpolationField E}.
Context (N0 : nat) `{!InterpolationFieldLaws E N0} (N0_3 : 3 <= N0).
Add Ring field_ring_poly : (field_ring (E:=E)).

(** The constant and the leading coefficient. *)
Definition round_a0 (qw w : list E) (m : nat) : E :=
  sigma (seq 0 m) (fun i => at0 qw (2 * i) * at0 w (2 * i)).
Definition round_a2 (qw w : list E) (m : nat) : E :=
  sigma (seq 0 m) (fun i => (at0 qw (2 * i + 1) - at0 qw (2 * i)) * (at0 w (2 * i + 1) - at0 w (2 * i))).
Definition round_coefs (qw w : list E) (sum : E) : list E :=
  let a0 := round_a0 qw w (half_up (length w)) in
  let a2 := round_a2 qw w (half_up (length w)) in
  [a0; sum - a0 - a0 - a2; a2].

Lemma quad_round_loop {Err} (qw w : list E) m :
  length qw = length w -> 2 * m <= length w ->
  exists A0 A2, foldM (@prover.quad_round_step E _ _ Err qw w) (zero_accum, zero_accum) (seq 0 m)
      = Ok (A0, A2) /\ accum_reduce A0 = round_a0 qw w m /\ accum_reduce A2 = round_a2 qw w m.
Proof.
  intros Hl. induction m as [|m IH]; intros Hm.
  { exists zero_accum, zero_accum. split; [done|]. rewrite accum_reduce_zero. done. }
  destruct IH as (A0 & A2 & Hrun & H1 & H2); [lia|].
  rewrite seq_S, foldM_app, Hrun. mstep. cbn [foldM Nat.add]. unfold prover.quad_round_step at 1.
  rewrite !index_at0 by lia. mstep. do 2 eexists. split; [reflexivity|].
  rewrite !accum_reduce_mac, H1, H2. unfold round_a0, round_a2. rewrite seq_S, !sigma_app.
  cbn [Nat.add]. rewrite !sigma_cons. split; cbn [sigma map fsum]; ring.
Qed.

Lemma round_coefs_eval qw w sum r :
  length qw = length w -> sum = sigma (seq 0 (length w)) (fun i => at0 qw i * at0 w i) ->
  mono (round_coefs qw w sum) r
  = sigma (seq 0 (half_up (length w))) (fun i =>
      line r (at0 qw (2 * i)) (at0 qw (2 * i + 1)) * line r (at0 w (2 * i)) (at0 w (2 * i + 1))).
Proof.
  intros Hl Hsum. rewrite sigma_half_up in Hsum.
  2:{ intros i Hi. rewrite (at0_ge w) by done. ring. }
  cbn [round_coefs mono]. unfold round_a0, round_a2. set (h := half_up (length w)) in *.
  transitivity (sigma (seq 0 h) (fun i => (1 - r - r) * (at0 qw (2 * i) * at0 w (2 * i))
    + (r * (at0 qw (2 * i) * at0 w (2 * i) + at0 qw (2 * i + 1) * at0 w (2 * i + 1))
       + (r * r - r) * ((at0 qw (2 * i + 1) - at0 qw (2 * i)) * (at0 w (2 * i + 1) - at0 w (2 * i)))))).
  - rewrite !sigma_add, !sigma_mul, <- Hsum. ring.
  - apply sigma_ext. intros i _. unfold line. ring.
Qed.

Lemma point_0_pt : pt 0 = (0 : E).
Proof. unfold pt. by rewrite (point_0 (E:=E) (n:=N0)) by lia. Qed.
Lemma point_1_pt : pt 1 = (1 : E).
Proof. unfold pt. by rewrite (point_1 (E:=E) (n:=N0)) by lia. Qed.

(** The three evaluations of the round polynomial. *)
Lemma quad_round_poly_ok {Err} (qw w : list E) sum :
  length qw = length w ->
  @prover.quad_round_poly E _ _ _ Err (length w) qw w sum
  = Ok [mono (round_coefs qw w sum) (pt 0); sum - mono (round_coefs qw w sum) (pt 0);
        mono (round_coefs qw w sum) (pt 2)].
Proof.
  intros Hl. unfold prover.quad_round_poly.
  destruct (quad_round_loop (Err:=Err) qw w (length w / 2) Hl) as (A0 & A2 & -> & H1 & H2); [dlia|]. mstep.
  assert (exists B0 B2, (if negb (Nat.eqb (length w mod 2) 0) then
      ql ← index qw (length w - 1); wl ← index w (length w - 1); mret (mac A0 ql wl, mac A2 ql wl)
    else mret (A0, A2)) = @Ok Err _ (B0, B2) /\
    accum_reduce B0 = round_a0 qw w (half_up (length w)) /\
    accum_reduce B2 = round_a2 qw w (half_up (length w))) as (B0 & B2 & -> & HB0 & HB2).
  { destruct (Nat.eqb_spec (length w mod 2) 0) as [He|Ho]; cbn [negb].
    - destruct (half_up_even _ He) as [-> _]. by exists A0, A2.
    - destruct (half_up_odd _ Ho) as [-> Hn]. rewrite !index_at0 by lia. mstep.
      do 2 eexists. split; [reflexivity|]. rewrite !accum_reduce_mac, H1, H2.
      unfold round_a0, round_a2. rewrite seq_S, !sigma_app, !sigma_cons. cbn [sigma map fsum Nat.add].
      replace (length w - 1)%nat with (2 * (length w / 2))%nat by lia.
      rewrite (at0_ge qw (2 * (length w / 2) + 1)), (at0_ge w (2 * (length w / 2) + 1)) by lia.
      split; ring. }
  mstep. rewrite HB0, HB2. rewrite (point_pt N0) by lia. cbn [unwrap]. mstep. f_equal.
  rewrite point_0_pt. cbn [round_coefs mono]. f_equal; [ring|]. f_equal; [ring|]. f_equal. ring.
Qed.

(** The coefficients of the challenge evaluate the transmitted message. *)
Definition message_of (cs : list E) : RoundPoly E :=
  {| evaluations := (mono cs (pt 0), mono cs (pt 2)) |}.
Lemma coefficients_evaluate {Err} (c0 c1 c2 r claim : E) :
  claim = mono [c0; c1; c2] 0 + mono [c0; c1; c2] 1 ->
  exists basis coefs, LagrangeBasis.new (Err:=Err) 3 = Ok basis /\
    RoundCoefficients_new (Err:=Err) basis r = Ok coefs /\
    RoundCoefficients_evaluate coefs (message_of [c0; c1; c2]) claim = mono [c0; c1; c2] r.
Proof.
  intros ->. do 2 eexists. split; [apply (basis_new N0); lia|]. split.
  - unfold RoundCoefficients_new. rewrite (basis_coef N0) by lia. mstep.
    cbn [tab map seq index lookup list_lookup]. mstep. reflexivity.
  - unfold RoundCoefficients_evaluate, fma, message_of. cbn [l1 l0_minus_l1 l2 evaluations fst snd].
    rewrite <- (weight_spec N0 3 [c0; c1; c2] r) by (done || lia).
    unfold sigma. cbn [map seq fsum]. rewrite point_0_pt, point_1_pt. ring.
Qed.
Lemma to_poly_message {Err} (c0 c1 c2 r claim : E) :
  claim = mono [c0; c1; c2] 0 + mono [c0; c1; c2] 1 ->
  Poly.eval_lagrange (Err:=Err) (to_poly (message_of [c0; c1; c2]) claim) r = Ok (mono [c0; c1; c2] r).
Proof.
  intros ->.
  replace (to_poly _ _) with (tab (fun k => mono [c0; c1; c2] (pt k)) 3).
  - apply (eval_lagrange_mono N0 [c0; c1; c2]). cbn [length]. lia.
  - unfold tab, to_poly, message_of. cbn [map seq evaluations fst snd].
    rewrite point_0_pt, point_1_pt. repeat f_equal. ring.
Qed.
End polynomial.

(** * The value of the symbolic relations

    A pad expression is a constant plus a linear combination of pads; its
    value under revealed pads, and what each construction step of
    [symbolic::verify] does to that value. *)

Section value.
Context {E : Type} `{AlgebraicFieldLaws E}.
Add Ring field_ring_symbolic : (field_ring (E:=E)).

Definition pad_value (pads : SumcheckProof E) (p : Pad) : E := default 0 (symbolic.lookup_pad pads p).
Definition pads_known (pads : SumcheckProof E) (e : PadExpression E) : Prop :=
  Forall (fun t => is_Some (symbolic.lookup_pad pads (pt_pad t))) (pe_terms e).
Definition expr_value (pads : SumcheckProof E) (e : PadExpression E) : E :=
  constant e + sigma (pe_terms e) (fun t => coefficient t * pad_value pads (pt_pad t)).

Lemma pad_value_Some pads x p : symbolic.lookup_pad pads x = Some p -> pad_value pads x = p.
Proof. intros Hp. unfold pad_value. by rewrite Hp. Qed.

Lemma eval_pad_term_ok pads v t p :
  symbolic.lookup_pad pads (pt_pad t) = Some p ->
  symbolic.eval_pad_term pads v t = Ok (fma v (coefficient t) p).
Proof. intros Hp. unfold symbolic.eval_pad_term. by rewrite Hp. Qed.

Lemma evaluate_expression_ok pads e :
  pads_known pads e -> symbolic.evaluate_expression e pads = Ok (expr_value pads e).
Proof.
  unfold symbolic.evaluate_expression, expr_value, pads_known. generalize (constant e).
  induction (pe_terms e) as [|t ts IH]; intros v Hk; cbn [foldM].
  { cbn. f_equal. ring. }
  inversion_clear Hk as [|? ? [p Hp] Hk']. rewrite (eval_pad_term_ok _ _ _ _ Hp). mstep.
  rewrite IH by done. f_equal. rewrite sigma_cons, (pad_value_Some _ _ _ Hp). unfold fma. ring.
Qed.

(** [pads] reveals the pads [pad] of a layer. *)
Definition reveals (pads : SumcheckProof E) (layer : nat) (pad : LayerProof E) : Prop :=
  proof_layers pads !! layer = Some pad.

Lemma pad_value_endpoint pads layer pad endpoint :
  reveals pads layer pad -> endpoint = 0%nat \/ endpoint = 1%nat ->
  symbolic.lookup_pad pads (Endpoint layer endpoint) = Some (at2 (claims pad) endpoint).
Proof. intros Hr [-> | ->]; cbn [symbolic.lookup_pad]; rewrite Hr; done. Qed.
Lemma pad_value_round pads layer pad round hand evaluation p :
  reveals pads layer pad -> hand = 0%nat \/ hand = 1%nat -> evaluation = 0%nat \/ evaluation = 1%nat ->
  at2 (hp pad) hand !! round = Some p ->
  symbolic.lookup_pad pads (Round layer round hand evaluation) = Some (at2 (evaluations p) evaluation).
Proof.
  intros Hr [-> | ->] [-> | ->] Hp; cbn [symbolic.lookup_pad]; rewrite Hr; cbn in *; by rewrite Hp.
Qed.

(** The combined endpoint claim of a layer, messages and pads together. *)
Lemma endpoint_claim_value pads layer pad (messages : pair2 E) alpha :
  reveals pads layer pad ->
  let e := symbolic.endpoint_claim layer messages alpha in
  pads_known pads e /\
  expr_value pads e
  = (messages.1 + (claims pad).1) + alpha * (messages.2 + (claims pad).2).
Proof.
  intros Hr. pose proof (pad_value_endpoint pads layer pad 0 Hr (or_introl eq_refl)) as L0.
  pose proof (pad_value_endpoint pads layer pad 1 Hr (or_intror eq_refl)) as L1. split.
  - repeat constructor; cbn [pt_pad]; [rewrite L0|rewrite L1]; by eexists.
  - unfold expr_value, symbolic.endpoint_claim. cbn [constant pe_terms].
    rewrite !sigma_cons. cbn [pt_pad coefficient].
    rewrite (pad_value_Some _ _ _ L0), (pad_value_Some _ _ _ L1). cbn. ring.
Qed.

Lemma sigma_scale (ts : list (PadTerm E)) (c : E) pads :
  sigma (map (fun t => {| pt_pad := pt_pad t; coefficient := coefficient t * c |}) ts)
    (fun t => coefficient t * pad_value pads (pt_pad t))
  = c * sigma ts (fun t => coefficient t * pad_value pads (pt_pad t)).
Proof. rewrite sigma_map, <- sigma_mul. apply sigma_ext. intros t _. cbn. ring. Qed.

(** A round evaluates the unmasked message at the challenge. *)
Lemma round_claim_value pads layer pad round hand coefs (message : RoundPoly E) claim p :
  reveals pads layer pad -> hand = 0%nat \/ hand = 1%nat -> at2 (hp pad) hand !! round = Some p ->
  pads_known pads claim ->
  let e := symbolic.round_claim layer round hand coefs message claim in
  pads_known pads e /\
  expr_value pads e = RoundCoefficients_evaluate coefs (poly_add message p) (expr_value pads claim).
Proof.
  intros Hr Hh Hp Hk.
  pose proof (pad_value_round pads layer pad round hand 0 p Hr Hh (or_introl eq_refl) Hp) as L0.
  pose proof (pad_value_round pads layer pad round hand 1 p Hr Hh (or_intror eq_refl) Hp) as L1. split.
  - unfold pads_known, symbolic.round_claim. cbn [pe_terms]. apply Forall_app. split.
    + apply Forall_map. eapply Forall_impl; [exact Hk|]. done.
    + repeat constructor; cbn [pt_pad]; [rewrite L0|rewrite L1]; by eexists.
  - unfold expr_value, symbolic.round_claim. cbn [constant pe_terms]. rewrite sigma_app, sigma_scale, !sigma_cons.
    cbn [pt_pad coefficient]. rewrite (pad_value_Some _ _ _ L0), (pad_value_Some _ _ _ L1).
    unfold RoundCoefficients_evaluate, fma, poly_add, at2. cbn. ring.
Qed.

(** The layer relation compares the claim with the unmasked product. *)
Lemma finish_layer_value pads layer pad messages data claim :
  reveals pads layer pad -> pads_known pads claim ->
  let rel := symbolic.finish_layer layer messages data claim in
  pads_known pads (linear rel) /\
  expr_value pads (linear rel) + product_coefficient rel * ((claims pad).1 * (claims pad).2)
  = expr_value pads claim
    - bound_quad data * (((claims messages).1 + (claims pad).1) * ((claims messages).2 + (claims pad).2)).
Proof.
  intros Hr Hk. pose proof (pad_value_endpoint pads layer pad 0 Hr (or_introl eq_refl)) as L0.
  pose proof (pad_value_endpoint pads layer pad 1 Hr (or_intror eq_refl)) as L1. split.
  - unfold pads_known, symbolic.finish_layer. cbn [linear pe_terms]. apply Forall_app. split; [done|].
    repeat constructor; cbn [pt_pad]; [rewrite L0|rewrite L1]; by eexists.
  - unfold expr_value, symbolic.finish_layer. cbn [linear constant pe_terms product_coefficient].
    rewrite sigma_app, !sigma_cons. cbn [pt_pad coefficient].
    rewrite (pad_value_Some _ _ _ L0), (pad_value_Some _ _ _ L1).
    unfold at2. cbn. ring.
Qed.

Lemma neg_expression_value pads e :
  pads_known pads e ->
  pads_known pads (symbolic.neg_expression e) /\
  expr_value pads (symbolic.neg_expression e) = - expr_value pads e.
Proof.
  intros Hk. split.
  - unfold pads_known, symbolic.neg_expression. cbn [pe_terms]. apply Forall_map.
    eapply Forall_impl; [exact Hk|]. done.
  - unfold expr_value, symbolic.neg_expression. cbn [constant pe_terms]. rewrite sigma_map.
    transitivity (- constant e + (0 - 1) * sigma (pe_terms e) (fun t => coefficient t * pad_value pads (pt_pad t)));
      [|ring]. f_equal. rewrite <- sigma_mul. apply sigma_ext. intros t _. cbn. ring.
Qed.
End value.
