(* ===== verification/SumcheckLayer.v ===== *)
(** * One layer of the sumcheck prover

    The prover's loop over the rounds and hands of a layer succeeds, keeps its
    running sum equal to the value of the bound tensor, and is mirrored by
    the verifier's derivation and by the symbolic relation. *)
From stdpp Require Import prelude sorting strings.
From Stdlib Require Import Lia NArith ZifyNat Ring Ring_theory.
From S2P Require Import Prelude Words Interfaces Util Circuit Field FieldFacts Interpolation Transcript SumcheckProof SumcheckV1 SumcheckProtocol DenseFacts HQuadOrder SumcheckRound.

Local Open Scope fe_scope.

(** ** Sampling from the transcript

    A transcript that has just absorbed a message yields at least 128
    elements. *)
Class SamplingLaws (E : Type) `{SupportsSampling E} `{Sha256} `{Aes256} := {
  can_draw : nat -> Transcript -> Prop;
  can_draw_fresh t n : pseudorandom_generator t = None -> n <= 128 -> can_draw n t;
  can_draw_sample t n : can_draw (S n) t -> exists e t', elt_field (E:=E) t = Ok (e, t') /\ can_draw n t'
}.

Section layer.
Context {E : Type} `{AF : AlgebraicField E} `{!AlgebraicFieldLaws E} `{!RuntimeField E}
  `{!RuntimeFieldLaws E} `{!InterpolationField E}.
Context (N0 : nat) `{!InterpolationFieldLaws E N0} (N0_3 : 3 <= N0).
Context `{SF : SerializableField E} (elt_size : serialized_size_bytes (E:=E) <= 128).
Context `{SS : SupportsSampling E} `{SH : Sha256} `{AE : Aes256} `{!SamplingLaws E}.
Add Ring field_ring_layer : (field_ring (E:=E)).

Lemma write_elt_fresh (e : E) t :
  exists t', Transcript.write_elt_field e t = Ok t' /\ pseudorandom_generator t' = None.
Proof.
  unfold Transcript.write_elt_field, write_untyped_elt. rewrite (proj2 (Nat.leb_le _ _)) by done.
  by eexists.
Qed.

Lemma round_ok (p : RoundPoly E) t :
  exists r t', transcript.round p t = Ok (r, t') /\ can_draw (E:=E) 127 t'.
Proof.
  unfold transcript.round, transcript.write_poly. cbn [foldM].
  destruct (write_elt_fresh (at2 (evaluations p) 0) t) as (t1 & -> & _). mstep.
  destruct (write_elt_fresh (at2 (evaluations p) 1) t1) as (t2 & -> & Hf). mstep.
  destruct (can_draw_sample (E:=E) t2 127) as (r & t3 & -> & Hd); [by apply can_draw_fresh|]. by eexists _, _.
Qed.

Lemma end_layer_ok (claims : pair2 E) t :
  exists t', transcript.end_layer claims t = Ok t' /\ pseudorandom_generator t' = None.
Proof.
  unfold transcript.end_layer, write_elt_field_slice. cbn [foldM].
  unfold write_untyped_elt. rewrite (proj2 (Nat.leb_le _ _)) by done. cbn [rust_assert]. mstep. by eexists.
Qed.

(** ** The invariant of the rounds *)
Record layer_inv (f : N * N -> N) (n0 n1 : nat) (st : prover.LayerState (E:=E)) : Prop := {
  inv_hquad : length (vc (prover.ls_hquad st)) = length (hc (prover.ls_hquad st));
  inv_range : Forall (fun c => N.to_nat c.1.1 < length (prover.ls_w st).1
                            /\ N.to_nat c.1.2 < length (prover.ls_w st).2) (corners (prover.ls_hquad st));
  inv_w0 : 0 < length (prover.ls_w st).1 <= 2 ^ n0;
  inv_w1 : 0 < length (prover.ls_w st).2 <= 2 ^ n1;
  inv_small : (N.of_nat (length (prover.ls_qw st)) < 2 ^ 32)%N;
  inv_qw : length (prover.ls_w st).1 <= length (prover.ls_qw st)
        /\ length (prover.ls_w st).2 <= length (prover.ls_qw st);
  inv_nonempty : corners (prover.ls_hquad st) <> [];
  inv_keyed : keyed f (corners (prover.ls_hquad st));
  inv_sum : prover.ls_sum st
    = tensor_value 0 (corners (prover.ls_hquad st)) (prover.ls_w st).1 (prover.ls_w st).2
}.

Lemma inv_key_ok f n0 n1 st :
  layer_inv f n0 n1 st -> Forall (fun c => key_ok n0 n1 c.1) (corners (prover.ls_hquad st)).
Proof.
  intros Hi. eapply Forall_impl; [apply Hi|]. intros c [H0 H1]. cbn beta in *.
  pose proof (inv_w0 _ _ _ _ Hi). pose proof (inv_w1 _ _ _ _ Hi). pose proof (inv_small _ _ _ _ Hi).
  destruct (inv_qw _ _ _ _ Hi).
  assert (forall n, (2 ^ N.of_nat n)%N = N.of_nat (2 ^ n)) as Hpow
    by (intros n; by rewrite Nat2N.inj_pow).
  unfold key_ok. rewrite !Hpow. repeat split; lia.
Qed.

(** The table a hand is about to bind, and the other one. *)
Lemma inv_range_hand f n0 n1 st hand :
  is_hand hand -> layer_inv f n0 n1 st ->
  Forall (fun c => N.to_nat (at2 c.1 hand) < length (at2 (prover.ls_w st) hand)
     /\ N.to_nat (at2 c.1 (1 - hand)) < length (at2 (prover.ls_w st) (1 - hand)))
    (corners (prover.ls_hquad st)).
Proof.
  intros Hh Hi. eapply Forall_impl; [apply Hi|]. intros c [H0 H1]. destruct Hh as [-> | ->]; cbn; auto.
Qed.

Lemma poly_add_sub (v p : RoundPoly E) : poly_add (poly_sub v p) p = v.
Proof. destruct v as [[a b]], p as [[c d]]. unfold poly_add, poly_sub. cbn. do 2 f_equal; ring. Qed.

Lemma tensor_hand hand cs (w : pair2 (list E)) :
  is_hand hand -> tensor_value 0 cs w.1 w.2 = tensor_value hand cs (at2 w hand) (at2 w (1 - hand)).
Proof. intros [-> | ->]; [done|]. symmetry. apply tensor_value_swap. Qed.

Lemma at0_hand_weight hand cs (wh wo : list E) i :
  Forall (fun c => N.to_nat (at2 c.1 hand) < length wh) cs ->
  at0 (tab (hand_weight hand cs wo) (length wh)) i = hand_weight hand cs wo i.
Proof.
  intros Hcs. destruct (decide (i < length wh)) as [Hi|Hi]; [by rewrite at0_tab|].
  rewrite at0_ge by (rewrite length_tab; lia). symmetry. unfold hand_weight, qsum. apply sigma_zero.
  intros c Hc. rewrite Forall_forall in Hcs. specialize (Hcs c Hc).
  destruct (Nat.eqb_spec (N.to_nat (at2 c.1 hand)) i); [lia|ring].
Qed.

(** What one iteration does, as both sides see it. *)
Record hand_step (basis : list (list E)) (pad : LayerProof E) (round hand : nat)
    (st st' : prover.LayerState (E:=E)) (r : E) (coefs : RoundCoefficients E) (message : RoundPoly E) : Prop := {
  step_transcript : transcript.round message (prover.ls_transcript st) = Ok (r, prover.ls_transcript st');
  step_coefficients : RoundCoefficients_new (Err:=stuck) basis r = Ok coefs;
  step_challenges : prover.ls_challenges st' = prover.push2 (prover.ls_challenges st) hand r;
  step_polys : prover.ls_polys st' = prover.push2 (prover.ls_polys st) hand message;
  step_coefs : prover.ls_coefs st' = prover.push2 (prover.ls_coefs st) hand coefs;
  step_sum : exists p, at2 (hp pad) hand !! round = Some p /\
    prover.ls_sum st' = RoundCoefficients_evaluate coefs (poly_add message p) (prover.ls_sum st);
  step_w : prover.ls_w st' = set2 (prover.ls_w st) hand (bound r (at2 (prover.ls_w st) hand));
  step_hquad : hquad.bind_h (Err:=stuck) (prover.ls_hquad st) r hand = Ok (prover.ls_hquad st');
  step_draw : can_draw (E:=E) 127 (prover.ls_transcript st')
}.

(** The round polynomial agrees with the running sum. *)
Lemma round_sums hand cs (wh wo : list E) sum :
  Forall (fun c => N.to_nat (at2 c.1 hand) < length wh) cs -> is_hand hand ->
  sum = tensor_value hand cs wh wo ->
  let qw := tab (hand_weight hand cs wo) (length wh) in
  let g := mono (round_coefs qw wh sum) in
  sum = g 0 + g 1 /\ forall r, g r = tensor_value hand (merge r hand cs) (bound r wh) wo.
Proof.
  intros Hcs Hh Hsum qw g.
  assert (sum = sigma (seq 0 (length wh)) (fun i => at0 qw i * at0 wh i)) as Hs.
  { rewrite Hsum, <- (tensor_value_sum hand cs wh wo) by done. apply sigma_ext. intros i _.
    unfold qw. by rewrite at0_hand_weight. }
  assert (forall r, g r = sigma (seq 0 (half_up (length wh))) (fun i =>
      line r (at0 qw (2 * i)) (at0 qw (2 * i + 1)) * line r (at0 wh (2 * i)) (at0 wh (2 * i + 1)))) as Hg.
  { intros r. apply round_coefs_eval; [apply length_tab|done]. }
  split.
  - rewrite !Hg, <- sigma_add, Hs, sigma_half_up.
    2:{ intros i Hi. rewrite (at0_ge wh) by done. ring. }
    apply sigma_ext. intros i _. unfold line. ring.
  - intros r. rewrite Hg, tensor_value_merge by done. apply sigma_ext. intros i _.
    unfold qw. by rewrite !at0_hand_weight.
Qed.

Lemma at2_set2 {A} (p : pair2 A) hand a :
  is_hand hand -> at2 (set2 p hand a) hand = a /\ at2 (set2 p hand a) (1 - hand) = at2 p (1 - hand).
Proof. by intros [-> | ->]. Qed.

(** One bit less for the bound hand. *)
Definition less (hand n0 n1 m0 m1 : nat) : Prop :=
  (hand = 0%nat /\ n0 = S m0 /\ n1 = m1) \/ (hand = 1%nat /\ n0 = m0 /\ n1 = S m1).
Lemma less_hand hand n0 n1 m0 m1 : less hand n0 n1 m0 m1 -> is_hand hand.
Proof. intros [[-> _]|[-> _]]; [by left|by right]. Qed.

Lemma length_bound_le r (w : list E) : 0 < length w -> 0 < length (bound r w) <= length w.
Proof. rewrite length_bound. unfold half_up. intros. dlia. Qed.

Lemma layer_inv_step f g n0 n1 m0 m1 hand st st' r :
  less hand n0 n1 m0 m1 -> bit_of hand f g (key_ok n0 n1) -> layer_inv f n0 n1 st ->
  length (vc (prover.ls_hquad st')) = length (hc (prover.ls_hquad st')) ->
  corners (prover.ls_hquad st') = merge r hand (corners (prover.ls_hquad st)) ->
  prover.ls_w st' = set2 (prover.ls_w st) hand (bound r (at2 (prover.ls_w st) hand)) ->
  length (prover.ls_qw st') = length (prover.ls_qw st) ->
  prover.ls_sum st' = tensor_value hand (merge r hand (corners (prover.ls_hquad st)))
                        (bound r (at2 (prover.ls_w st) hand)) (at2 (prover.ls_w st) (1 - hand)) ->
  layer_inv g m0 m1 st'.
Proof.
  intros Hless Hbit Hi Hl Hcs Hw Hqw Hsum. pose proof (less_hand _ _ _ _ _ Hless) as Hh.
  pose proof (inv_w0 _ _ _ _ Hi) as H0. pose proof (inv_w1 _ _ _ _ Hi) as H1.
  destruct (inv_qw _ _ _ _ Hi) as [Q0 Q1].
  pose proof (length_bound_le r (prover.ls_w st).1 ltac:(lia)).
  pose proof (length_bound_le r (prover.ls_w st).2 ltac:(lia)).
  split; rewrite ?Hqw, ?Hcs; try done.
  - apply Forall_forall. intros c Hc. apply merge_elem in Hc as (c' & Hc' & Hhalf).
    pose proof (inv_range _ _ _ _ Hi) as Hr. rewrite Forall_forall in Hr. destruct (Hr _ Hc') as [R0 R1].
    rewrite Hhalf, Hw. destruct Hless as [(-> & _)|(-> & _)]; rewrite ?halve_0, ?halve_1;
      cbn [fst snd set2 Nat.eqb at2]; rewrite length_bound, N2Nat.inj_div; unfold half_up;
      change (N.to_nat 2) with 2%nat; split; try done; dlia.
  - rewrite Hw. destruct Hless as [(-> & -> & ->)|(-> & -> & ->)]; cbn [fst snd set2 Nat.eqb at2]; [|done].
    split; [lia|]. rewrite length_bound. apply half_up_pow, H0.
  - rewrite Hw. destruct Hless as [(-> & -> & ->)|(-> & -> & ->)]; cbn [fst snd set2 Nat.eqb at2]; [done|].
    split; [lia|]. rewrite length_bound. apply half_up_pow, H1.
  - apply Hi.
  - rewrite Hw. destruct Hh as [-> | ->]; cbn [fst snd set2 Nat.eqb at2]; lia.
  - apply merge_nonempty, Hi.
  - apply (merge_keyed r hand f g (key_ok n0 n1)); [done|done|by eapply inv_key_ok|apply Hi].
  - rewrite (tensor_hand hand) by done. rewrite Hw, Hsum.
    by destruct (at2_set2 (prover.ls_w st) hand (bound r (at2 (prover.ls_w st) hand)) Hh) as [-> ->].
Qed.

Lemma bound_step_ok st hand r :
  at2 (prover.ls_w st) hand <> [] ->
  (if prover.ls_shared st then dense.bind_out_of_place (at2 (prover.ls_w st) hand) r
   else dense.bind (at2 (prover.ls_w st) hand) r) = @Ok stuck _ (bound r (at2 (prover.ls_w st) hand)).
Proof. intros Hne. destruct (prover.ls_shared st); [by apply bind_out_of_place_ok|by apply bind_ok]. Qed.

(** One iteration succeeds and keeps the invariant. *)
Lemma round_hand_ok basis pad round st hand f g n0 n1 m0 m1 p :
  LagrangeBasis.new (Err:=stuck) 3 = Ok basis -> less hand n0 n1 m0 m1 ->
  bit_of hand f g (key_ok n0 n1) -> layer_inv f n0 n1 st ->
  at2 (hp pad) hand !! round = Some p -> round < MAX_LOGW ->
  exists st' r coefs message, prover.round_hand basis pad round st hand = Ok st' /\
    hand_step basis pad round hand st st' r coefs message /\ layer_inv g m0 m1 st' /\
    length (prover.ls_qw st') = length (prover.ls_qw st).
Proof.
  intros Hbasis Hless Hbit Hi Hp Hround. pose proof (less_hand _ _ _ _ _ Hless) as Hh.
  pose proof (inv_range_hand _ _ _ _ hand Hh Hi) as Hr.
  set (wh := at2 (prover.ls_w st) hand) in *. set (wo := at2 (prover.ls_w st) (1 - hand)) in *.
  assert (Forall (fun c => N.to_nat (at2 c.1 hand) < length wh) (corners (prover.ls_hquad st))) as Hr0
    by (eapply Forall_impl; [exact Hr|]; by intros c [? _]).
  assert (0 < length wh <= length (prover.ls_qw st)) as Hwh.
  { pose proof (inv_w0 _ _ _ _ Hi). pose proof (inv_w1 _ _ _ _ Hi). destruct (inv_qw _ _ _ _ Hi).
    unfold wh. destruct Hh as [-> | ->]; cbn; lia. }
  destruct (round_sums hand (corners (prover.ls_hquad st)) wh wo (prover.ls_sum st) Hr0 Hh) as [Hsum Hg].
  { rewrite (inv_sum _ _ _ _ Hi). by apply tensor_hand. }
  set (qw := tab (hand_weight hand (corners (prover.ls_hquad st)) wo) (length wh)) in *.
  set (values := message_of (round_coefs qw wh (prover.ls_sum st))).
  destruct (round_ok (poly_sub values p) (prover.ls_transcript st)) as (r & t' & Ht & Hd).
  destruct (coefficients_evaluate N0 N0_3 (Err:=stuck) _ _ _ r _ Hsum) as (basis' & coefs & Hb' & Hc & Hev).
  rewrite Hbasis in Hb'. injection Hb' as <-.
  destruct (bind_h_ok (Err:=stuck) (prover.ls_hquad st) r hand (inv_hquad _ _ _ _ Hi)) as (q' & Hq & Hql & Hqc).
  assert (wh <> []) as Hne by (intros Hnil; rewrite Hnil in Hwh; cbn in Hwh; lia).
  do 4 eexists. split; [|split; [|split]].
  - unfold prover.round_hand. fold wh wo. rewrite (proj2 (Nat.leb_le _ _)) by lia. cbn [rust_assert]. mstep.
    rewrite fill_round_weights_ok; [|apply Hi|].
    2:{ eapply Forall_impl; [exact Hr|]. intros c [H1 H2]. cbn beta in *. rewrite length_take. split; [lia|done]. }
    rewrite length_take. replace (Nat.min (length wh) (length (prover.ls_qw st))) with (length wh) by lia.
    fold qw. mstep. rewrite take_app_length' by (symmetry; apply length_tab).
    rewrite (quad_round_poly_ok N0 N0_3) by apply length_tab. mstep.
    rewrite (proj2 (Nat.ltb_lt _ _) Hround). cbn [rust_assert]. mstep.
    unfold to_wire. cbn [index lookup list_lookup]. mstep. fold (message_of (round_coefs qw wh (prover.ls_sum st))).
    fold values. rewrite (proj2 (index_Ok _ _ _) Hp). mstep. rewrite Ht. mstep. rewrite Hc. mstep.
    unfold wh at 1 2. rewrite bound_step_ok by done. mstep. rewrite Hq. mstep. reflexivity.
  - split; cbn [prover.ls_transcript prover.ls_challenges prover.ls_polys prover.ls_coefs prover.ls_sum
      prover.ls_w prover.ls_hquad]; try done.
    exists p. split; [done|]. by rewrite poly_add_sub.
  - eapply (layer_inv_step f g n0 n1 m0 m1 hand st _ r); try done; cbn [prover.ls_hquad prover.ls_w prover.ls_qw prover.ls_sum]; try done.
    + rewrite length_app, length_drop. unfold qw. rewrite length_tab. fold wh. lia.
    + fold wh wo. rewrite <- Hg. unfold values. exact Hev.
  - cbn [prover.ls_qw]. rewrite length_app, length_drop. unfold qw. rewrite length_tab. fold wh. lia.
Qed.
End layer.

(** * The rounds of a layer

    All rounds of the v1 prover's layer succeed, and they are mirrored by the
    verifier's derivation of the challenges, by its binding of the wiring
    tensor, and by the symbolic claim it folds over the messages. *)

Section rounds.
Context {E : Type} `{AF : AlgebraicField E} `{!AlgebraicFieldLaws E} `{!RuntimeField E}
  `{!RuntimeFieldLaws E} `{!InterpolationField E}.
Context (N0 : nat) `{!InterpolationFieldLaws E N0} (N0_3 : 3 <= N0).
Context `{SF : SerializableField E} (elt_size : serialized_size_bytes (E:=E) <= 128).
Context `{SS : SupportsSampling E} `{SH : Sha256} `{AE : Aes256} `{!SamplingLaws E}.
Add Ring field_ring_loop : (field_ring (E:=E)).

Abbreviation state := (prover.LayerState (E:=E)).

Definition prefix2 {A} (p q : pair2 (list A)) : Prop := p.1 `prefix_of` q.1 /\ p.2 `prefix_of` q.2.
Definition length2 {A} (p : pair2 (list A)) (n : nat) : Prop := length p.1 = n /\ length p.2 = n.

Lemma prefix2_push {A} (p q : pair2 (list A)) hand a :
  prefix2 (prover.push2 p hand a) q -> prefix2 p q.
Proof.
  unfold prover.push2. intros [H0 H1].
  destruct hand; cbn in *; (split; [etrans; [|exact H0]|etrans; [|exact H1]]); try done; by apply prefix_app_r.
Qed.
Lemma prefix2_lookup {A} (p q : pair2 (list A)) hand a :
  is_hand hand -> prefix2 (prover.push2 p hand a) q -> at2 q hand !! length (at2 p hand) = Some a.
Proof.
  unfold prover.push2. intros [-> | ->] [H0 H1]; cbn in *;
    [eapply prefix_lookup_Some, H0|eapply prefix_lookup_Some, H1]; by rewrite list_lookup_middle.
Qed.

(** What the rounds up to [k] did, as the verifier sees it. *)
Record mirrored (basis : list (list E)) (pad : LayerProof E) (wires : list E) (q0 : HQuad E) (sum0 : E)
    (t0 : Transcript) (k : nat) (st : state) : Prop := {
  mi_challenges : length2 (prover.ls_challenges st) k;
  mi_polys : length2 (prover.ls_polys st) k;
  mi_coefs : length2 (prover.ls_coefs st) k;
  mi_w : prover.ls_w st = (bound_all wires (prover.ls_challenges st).1, bound_all wires (prover.ls_challenges st).2);
  mi_derive messages :
    prefix2 (prover.ls_polys st) (hp messages) ->
    foldM (verifier.derive_round basis messages) (([], []), ([], []), t0) (seq 0 k)
    = Ok (prover.ls_challenges st, prover.ls_coefs st, prover.ls_transcript st);
  mi_quad : foldM (verifier.bind_points (Err:=stuck)) q0
      (zip (prover.ls_challenges st).1 (prover.ls_challenges st).2) = Ok (prover.ls_hquad st);
  mi_symbolic pads layer messages data claim :
    reveals pads layer pad -> prefix2 (prover.ls_polys st) (hp messages) ->
    prefix2 (prover.ls_coefs st) (vd_rounds data) ->
    pads_known pads claim -> expr_value pads claim = sum0 ->
    exists claim',
      foldM (fun claim round => foldM (symbolic.round_hand layer messages data round) claim [0; 1]%nat)
        claim (seq 0 k) = Ok claim' /\
      pads_known pads claim' /\ expr_value pads claim' = prover.ls_sum st
}.

Section steps.
Context (basis : list (list E)) (pad : LayerProof E).

Lemma derive_hand_ok messages round hand st st' r coefs message :
  is_hand hand -> length (at2 (prover.ls_polys st) hand) = round ->
  hand_step basis pad round hand st st' r coefs message ->
  prefix2 (prover.ls_polys st') (hp messages) ->
  verifier.derive_hand basis messages round
    (prover.ls_challenges st, prover.ls_coefs st, prover.ls_transcript st) hand
  = Ok (prover.ls_challenges st', prover.ls_coefs st', prover.ls_transcript st').
Proof.
  intros Hh Hl Hstep Hp. unfold verifier.derive_hand.
  rewrite (step_polys _ _ _ _ _ _ _ _ _ Hstep) in Hp. apply prefix2_lookup in Hp; [|done]. rewrite Hl in Hp.
  rewrite (index_lookup _ _ _ Hp). mstep. rewrite (step_transcript _ _ _ _ _ _ _ _ _ Hstep). mstep.
  rewrite (step_coefficients _ _ _ _ _ _ _ _ _ Hstep). mstep.
  by rewrite <- (step_challenges _ _ _ _ _ _ _ _ _ Hstep), <- (step_coefs _ _ _ _ _ _ _ _ _ Hstep).
Qed.

Lemma symbolic_hand_ok pads layer messages data round hand st st' r coefs message claim :
  is_hand hand -> length (at2 (prover.ls_polys st) hand) = round -> length (at2 (prover.ls_coefs st) hand) = round ->
  hand_step basis pad round hand st st' r coefs message ->
  reveals pads layer pad -> prefix2 (prover.ls_polys st') (hp messages) ->
  prefix2 (prover.ls_coefs st') (vd_rounds data) ->
  pads_known pads claim -> expr_value pads claim = prover.ls_sum st ->
  exists claim', symbolic.round_hand layer messages data round claim hand = Ok claim' /\
    pads_known pads claim' /\ expr_value pads claim' = prover.ls_sum st'.
Proof.
  intros Hh Hl Hl' Hstep Hrev Hp Hc Hk Hv. unfold symbolic.round_hand.
  rewrite (step_polys _ _ _ _ _ _ _ _ _ Hstep) in Hp. apply prefix2_lookup in Hp; [|done]. rewrite Hl in Hp.
  rewrite (step_coefs _ _ _ _ _ _ _ _ _ Hstep) in Hc. apply prefix2_lookup in Hc; [|done]. rewrite Hl' in Hc.
  rewrite (index_lookup _ _ _ Hp). mstep. rewrite (index_lookup _ _ _ Hc). mstep.
  destruct (step_sum _ _ _ _ _ _ _ _ _ Hstep) as (p & Hpad & Hsum).
  destruct (round_claim_value pads layer pad round hand coefs message claim p Hrev Hh Hpad Hk) as [Hk' Hv'].
  eexists. split; [reflexivity|]. split; [done|]. by rewrite Hv', Hv, Hsum.
Qed.

Lemma push2_length {A} (p : pair2 (list A)) a b k :
  length2 p k -> length2 (prover.push2 (prover.push2 p 0 a) 1 b) (S k).
Proof. intros [H0 H1]. split; cbn; rewrite length_app; cbn; lia. Qed.

Lemma bound_all_snoc (w : list E) rs r : bound_all w (rs ++ [r]) = bound r (bound_all w rs).
Proof. unfold bound_all. by rewrite foldl_app. Qed.

(** One round extends the mirror. *)
Lemma mirrored_round wires q0 sum0 t0 k st st1 st2 r0 r1 c0 c1 m0 m1 :
  mirrored basis pad wires q0 sum0 t0 k st ->
  hand_step basis pad k 0 st st1 r0 c0 m0 -> hand_step basis pad k 1 st1 st2 r1 c1 m1 ->
  mirrored basis pad wires q0 sum0 t0 (S k) st2.
Proof.
  intros [[L0 L1] [P0 P1] [C0 C1] Hw Hd Hq Hs] S0 S1.
  pose proof (step_challenges _ _ _ _ _ _ _ _ _ S0) as Hch0. pose proof (step_challenges _ _ _ _ _ _ _ _ _ S1) as Hch1.
  pose proof (step_polys _ _ _ _ _ _ _ _ _ S0) as Hp0. pose proof (step_polys _ _ _ _ _ _ _ _ _ S1) as Hp1.
  pose proof (step_coefs _ _ _ _ _ _ _ _ _ S0) as Hc0. pose proof (step_coefs _ _ _ _ _ _ _ _ _ S1) as Hc1.
  split.
  - rewrite Hch1, Hch0. by apply push2_length.
  - rewrite Hp1, Hp0. by apply push2_length.
  - rewrite Hc1, Hc0. by apply push2_length.
  - rewrite (step_w _ _ _ _ _ _ _ _ _ S1), (step_w _ _ _ _ _ _ _ _ _ S0), Hw, Hch1, Hch0.
    unfold prover.push2. cbn [fst snd at2 set2 Nat.eqb]. by rewrite !bound_all_snoc.
  - intros messages Hp. assert (prefix2 (prover.ls_polys st1) (hp messages)) as Hpre1
      by (rewrite Hp1 in Hp; by eapply prefix2_push).
    assert (prefix2 (prover.ls_polys st) (hp messages)) as Hpre0
      by (rewrite Hp0 in Hpre1; by eapply prefix2_push).
    rewrite seq_S, foldM_app, (Hd _ Hpre0). mstep. cbn [foldM Nat.add]. unfold verifier.derive_round. cbn [foldM].
    rewrite (derive_hand_ok messages k 0 st st1 r0 c0 m0); [|by left|done..]. mstep.
    rewrite (derive_hand_ok messages k 1 st1 st2 r1 c1 m1); [done|by right|by rewrite Hp0|done..].
  - rewrite Hch1, Hch0. unfold prover.push2. cbn [fst snd at2 set2 Nat.eqb].
    rewrite zip_with_app by congruence. rewrite foldM_app, Hq. mstep. cbn [zip_with foldM].
    unfold verifier.bind_points. cbn [fst snd].
    rewrite (step_hquad _ _ _ _ _ _ _ _ _ S0). mstep. rewrite (step_hquad _ _ _ _ _ _ _ _ _ S1). done.
  - intros pads layer messages data claim Hrev Hp Hc Hk Hv.
    assert (prefix2 (prover.ls_polys st1) (hp messages)) as Hpre1
      by (rewrite Hp1 in Hp; by eapply prefix2_push).
    assert (prefix2 (prover.ls_polys st) (hp messages)) as Hpre0
      by (rewrite Hp0 in Hpre1; by eapply prefix2_push).
    assert (prefix2 (prover.ls_coefs st1) (vd_rounds data)) as Hcre1
      by (rewrite Hc1 in Hc; by eapply prefix2_push).
    assert (prefix2 (prover.ls_coefs st) (vd_rounds data)) as Hcre0
      by (rewrite Hc0 in Hcre1; by eapply prefix2_push).
    destruct (Hs pads layer messages data claim Hrev Hpre0 Hcre0 Hk Hv) as (cl & Hrun & Hk0 & Hv0).
    rewrite seq_S, foldM_app, Hrun. mstep. cbn [foldM Nat.add].
    destruct (symbolic_hand_ok pads layer messages data k 0 st st1 r0 c0 m0 cl) as (cl1 & -> & Hk1 & Hv1);
      [by left|done..|]. mstep.
    destruct (symbolic_hand_ok pads layer messages data k 1 st1 st2 r1 c1 m1 cl1) as (cl2 & -> & Hk2 & Hv2);
      [by right|by rewrite Hp0|by rewrite Hc0|done..|]. mstep. by exists cl2.
Qed.
End steps.

(** ** All rounds *)
Lemma layer_round_ok basis pad wires q0 sum0 t0 k n st :
  LagrangeBasis.new (Err:=stuck) 3 = Ok basis -> length2 (hp pad) (k + S n) -> k < MAX_LOGW ->
  layer_inv (pair_key (S n)) (S n) (S n) st -> mirrored basis pad wires q0 sum0 t0 k st ->
  exists st', prover.layer_round basis pad st k = Ok st' /\
    layer_inv (pair_key n) n n st' /\ mirrored basis pad wires q0 sum0 t0 (S k) st' /\
    can_draw (E:=E) 127 (prover.ls_transcript st').
Proof.
  intros Hbasis [P0 P1] Hk Hi Hm. unfold prover.layer_round. cbn [foldM].
  destruct (lookup_lt_is_Some_2 (hp pad).1 k) as [p0 Hp0]; [lia|].
  destruct (lookup_lt_is_Some_2 (hp pad).2 k) as [p1 Hp1]; [lia|].
  destruct (round_hand_ok N0 N0_3 elt_size basis pad k st 0 (pair_key (S n)) (pair_key' (S n)) (S n) (S n) n (S n) p0)
    as (st1 & r0 & c0 & m0 & -> & S0 & Hi1 & _); [done|by left|apply bit_right|done..|]. mstep.
  destruct (round_hand_ok N0 N0_3 elt_size basis pad k st1 1 (pair_key' (S n)) (pair_key n) n (S n) n n p1)
    as (st2 & r1 & c1 & m1 & -> & S1 & Hi2 & _); [done|by right|apply bit_left|done..|]. mstep.
  exists st2. split; [done|]. split; [done|]. split; [by eapply mirrored_round|].
  apply (step_draw _ _ _ _ _ _ _ _ _ S1).
Qed.

Lemma layer_rounds_ok basis pad wires q0 sum0 t0 n : forall k st,
  LagrangeBasis.new (Err:=stuck) 3 = Ok basis -> length2 (hp pad) (k + n) -> k + n <= MAX_LOGW ->
  layer_inv (pair_key n) n n st -> mirrored basis pad wires q0 sum0 t0 k st ->
  exists st', foldM (prover.layer_round basis pad) st (seq k n) = Ok st' /\
    layer_inv (pair_key 0) 0 0 st' /\ mirrored basis pad wires q0 sum0 t0 (k + n) st'.
Proof.
  induction n as [|n IH]; intros k st Hbasis Hp Hk Hi Hm; cbn [seq foldM].
  { exists st. by rewrite Nat.add_0_r. }
  destruct (layer_round_ok basis pad wires q0 sum0 t0 k n st) as (st1 & -> & Hi1 & Hm1 & _); [done..|lia|done|done|].
  mstep. rewrite <- Nat.add_succ_comm in Hp, Hk |- *. by apply IH.
Qed.

(** ** The whole layer *)
(** The tensor a layer starts from. *)
Record tensor_ok (logw : nat) (wires : list E) (q : HQuad E) : Prop := {
  to_lengths : length (vc q) = length (hc q);
  to_nonempty : corners q <> [];
  to_range : Forall (fun c => N.to_nat c.1.1 < length wires /\ N.to_nat c.1.2 < length wires) (corners q);
  to_keyed : keyed (pair_key logw) (corners q)
}.

Lemma initial_inv logw wires q sum t :
  tensor_ok logw wires q -> 0 < length wires <= 2 ^ logw -> (N.of_nat (length wires) < 2 ^ 32)%N ->
  sum = tensor_value 0 (corners q) wires wires ->
  layer_inv (pair_key logw) logw logw
    {| prover.ls_challenges := ([], []); prover.ls_polys := ([], []); prover.ls_coefs := ([], []);
       prover.ls_sum := sum; prover.ls_w := (wires, wires); prover.ls_shared := true;
       prover.ls_qw := replicate (length wires) 0; prover.ls_hquad := q; prover.ls_transcript := t |}.
Proof.
  intros [] Hw Hs Hsum. split;
    cbn [prover.ls_hquad prover.ls_w prover.ls_qw prover.ls_sum fst snd]; rewrite ?length_replicate; try done.
Qed.
Lemma initial_mirrored basis pad wires q sum t :
  mirrored basis pad wires q sum t 0
    {| prover.ls_challenges := ([], []); prover.ls_polys := ([], []); prover.ls_coefs := ([], []);
       prover.ls_sum := sum; prover.ls_w := (wires, wires); prover.ls_shared := true;
       prover.ls_qw := replicate (length wires) 0; prover.ls_hquad := q; prover.ls_transcript := t |}.
Proof. split; try done. intros pads layer messages data claim _ _ _ Hk Hv. by exists claim. Qed.

Lemma scalar_ok {Err} (q : HQuad E) v :
  length (vc q) = length (hc q) -> corners q = [((0, 0)%N, v)] -> hquad.scalar (Err:=Err) q = Ok v.
Proof.
  destruct q as [hs vs]. unfold corners, hquad.scalar. cbn [hc vc]. intros Hl Hc.
  destruct hs as [|h [|h1 hs]], vs as [|x [|x1 vs]]; try done. cbn in Hc. by injection Hc as -> ->.
Qed.

(** What a layer returns, as the next layer, the verifier's derivation and
    the symbolic relation use it. *)
Record layer_mirror (basis : list (list E)) (pad : LayerProof E) (logw nw : nat) (wires : list E)
    (q : HQuad E) (alpha sum : E) (t : Transcript)
    (layer_proof : LayerProof E) (bindings : prover.Bindings (E:=E)) (cs : pair2 E)
    (data : LayerVerifierData E) (t' : Transcript) : Prop := {
  lm_logv : prover.b_logv bindings = logw;
  lm_nv : prover.b_nv bindings = nw;
  lm_challenges : length2 (prover.b_challenges bindings) logw;
  lm_claims : cs = (mle wires (prover.b_challenges bindings).1, mle wires (prover.b_challenges bindings).2);
  lm_messages : length2 (hp layer_proof) logw;
  lm_rounds : length2 (vd_rounds data) logw;
  lm_masked : claims layer_proof = (cs.1 - (claims pad).1, cs.2 - (claims pad).2);
  lm_alpha : vd_alpha data = alpha;
  lm_derive : exists t1, foldM (verifier.derive_round basis layer_proof) (([], []), ([], []), t) (seq 0 logw)
      = Ok (prover.b_challenges bindings, vd_rounds data, t1) /\
    transcript.end_layer (claims layer_proof) t1 = Ok t';
  lm_quad : exists q', foldM (verifier.bind_points (Err:=stuck)) q
      (zip (prover.b_challenges bindings).1 (prover.b_challenges bindings).2) = Ok q' /\
    hquad.scalar (Err:=stuck) q' = Ok (bound_quad data);
  lm_symbolic pads layer claim : reveals pads layer pad -> pads_known pads claim -> expr_value pads claim = sum ->
    exists claim',
      foldM (fun claim round => foldM (symbolic.round_hand layer layer_proof data round) claim [0; 1]%nat)
        claim (seq 0 logw) = Ok claim' /\
      pads_known pads claim' /\ expr_value pads claim' = cs.1 * cs.2 * bound_quad data;
  lm_fresh : pseudorandom_generator t' = None
}.

Lemma layer_ok basis pad logw nw wires q alpha (cl : pair2 E) t :
  LagrangeBasis.new (Err:=stuck) 3 = Ok basis -> sane_logw logw = true -> length2 (hp pad) logw ->
  tensor_ok logw wires q -> 0 < length wires <= 2 ^ logw -> (N.of_nat (length wires) < 2 ^ 32)%N ->
  fma cl.1 alpha cl.2 = tensor_value 0 (corners q) wires wires ->
  exists layer_proof bindings cs data t',
    prover.layer logw nw wires pad t q alpha cl = Ok (layer_proof, bindings, cs, data, t') /\
    layer_mirror basis pad logw nw wires q alpha (fma cl.1 alpha cl.2) t layer_proof bindings cs data t'.
Proof.
  intros Hbasis Hs Hp Hq Hw Hsm Hsum.
  pose proof (initial_inv logw wires q (fma cl.1 alpha cl.2) t Hq Hw Hsm Hsum) as Hinv.
  pose proof (initial_mirrored basis pad wires q (fma cl.1 alpha cl.2) t) as Hmir.
  assert (logw <= MAX_LOGW) as Hmax by (apply andb_true_iff in Hs as [Hs _]; by apply Nat.leb_le in Hs).
  destruct (layer_rounds_ok basis pad wires q _ t logw 0 _ Hbasis Hp Hmax Hinv Hmir) as (st & Hrun & Hi & Hm).
  cbn [Nat.add] in Hm. destruct Hm as [[L0 L1] [P0 P1] [C0 C1] Hws Hd Hqs Hsy].
  assert (prover.ls_w st = ([mle wires (prover.ls_challenges st).1], [mle wires (prover.ls_challenges st).2])) as Hw1
    by (rewrite Hws, !bound_all_mle by (rewrite ?L0, ?L1; done); done).
  destruct (keyed_0_single (corners (prover.ls_hquad st))) as (v & Hv);
    [apply Hi|by eapply inv_key_ok|apply Hi|].
  assert (prover.ls_sum st = mle wires (prover.ls_challenges st).1 * mle wires (prover.ls_challenges st).2 * v) as Hfin.
  { rewrite (inv_sum _ _ _ _ Hi), Hv, Hw1. unfold tensor_value. rewrite qsum_cons, qsum_nil.
    unfold at2. cbn [fst snd Nat.eqb]. change (at0 [?x] (N.to_nat 0)) with x. cbn [Nat.sub Nat.eqb fst snd].
    change (at0 [?x] (N.to_nat 0)) with x. ring. }
  destruct (end_layer_ok elt_size (mle wires (prover.ls_challenges st).1 - (claims pad).1,
    mle wires (prover.ls_challenges st).2 - (claims pad).2) (prover.ls_transcript st)) as (t' & He & Hf).
  do 5 eexists. split.
  - unfold prover.layer. rewrite Hs. cbn [rust_assert]. mstep. rewrite (proj2 (N.leb_le _ _)).
    2:{ change 2%N with (N.of_nat 2). rewrite <- Nat2N.inj_pow. lia. }
    cbn [rust_assert]. mstep. rewrite Hbasis. mstep. rewrite Hrun. mstep. rewrite Hw1. cbn [fst snd].
    unfold dense.as_scalar. cbn [length Nat.eqb rust_assert]. mstep. cbn [index lookup list_lookup]. mstep.
    rewrite (scalar_ok _ v) by (done || apply Hi). mstep.
    rewrite bool_decide_eq_true_2 by done. cbn [rust_assert]. mstep. rewrite He. mstep. reflexivity.
  - split; cbn [prover.b_logv prover.b_nv prover.b_challenges hp claims vd_rounds vd_alpha bound_quad fst snd]; try done.
    + exists (prover.ls_transcript st). split; [|done]. by apply Hd.
    + exists (prover.ls_hquad st). split; [done|]. by rewrite (scalar_ok _ v) by (done || apply Hi).
    + intros pads layer claim Hrev Hk Hval. rewrite <- Hfin. by apply Hsy with (data := {| vd_rounds := _; bound_quad := _; vd_alpha := _ |}).
Qed.
End rounds.
