(* ===== verification/EvalFacts.v ===== *)
(** * Circuit evaluation

    What a successful [eval_quad] and [eval_circuit] compute: every output
    wire is the sum of its terms, every assertion term vanishes, and the
    outputs are zero; hence the tensor bound at any output weights sums to
    the weighted outputs. *)
From stdpp Require Import prelude sorting strings.
From Stdlib Require Import Lia NArith ZifyNat Ring Ring_theory.
From S2P Require Import Prelude Words Interfaces Util Circuit Field FieldFacts SumcheckProof SumcheckV1 DenseFacts HQuadOrder SumcheckRound.

Local Open Scope fe_scope.

Section eval.
Context {E : Type} `{AlgebraicFieldLaws E}.
Add Ring field_ring_eval : (field_ring (E:=E)).

(** The product of the two input wires of a term. *)
Definition gate (w : list E) (t : Term E) : E := at0 w (N.to_nat (t_h0 t)) * at0 w (N.to_nat (t_h1 t)).

(** The value of output [i]: assertion terms do not count. *)
Definition output_value (w : list E) (ts : list (Term E)) (i : nat) : E :=
  sigma ts (fun t => if is_zero (t_k t) then 0
                     else if Nat.eqb (N.to_nat (t_g t)) i then t_k t * gate w t else 0).

(** What a layer computes. *)
Record layer_spec (w v : list E) (nv : nat) (ts : list (Term E)) : Prop := {
  ls_length : length v = nv;
  ls_wires : Forall (fun t => N.to_nat (t_h0 t) < length w /\ N.to_nat (t_h1 t) < length w) ts;
  ls_outputs : Forall (fun t => t_k t <> 0 -> N.to_nat (t_g t) < nv) ts;
  ls_values i : i < nv -> at0 v i = output_value w ts i;
  ls_assertions : Forall (fun t => t_k t = 0 -> gate w t = 0) ts
}.

Lemma eval_term_inv w v t v' :
  eval_term w v t = Ok v' ->
  N.to_nat (t_h0 t) < length w /\ N.to_nat (t_h1 t) < length w /\ length v' = length v /\
  (t_k t <> 0 -> N.to_nat (t_g t) < length v) /\ (t_k t = 0 -> gate w t = 0) /\
  (forall i, i < length v -> at0 v' i = at0 v i
     + (if is_zero (t_k t) then 0 else if Nat.eqb (N.to_nat (t_g t)) i then t_k t * gate w t else 0)).
Proof.
  unfold eval_term. intros Hr. apply bind_Ok_inv in Hr as (wl & Hl & Hr). apply bind_Ok_inv in Hr as (wr & Hw & Hr).
  apply index_Ok in Hl, Hw.
  assert (at0 w (N.to_nat (t_h1 t)) = wl) as Hal by (unfold at0; by rewrite Hl).
  assert (at0 w (N.to_nat (t_h0 t)) = wr) as Haw by (unfold at0; by rewrite Hw).
  apply lookup_lt_Some in Hl, Hw. split; [done|]. split; [done|]. unfold gate. rewrite Hal, Haw.
  destruct (is_zero (t_k t)) eqn:Hz.
  - apply is_zero_spec in Hz. apply bind_Ok_inv in Hr as (u & Hrej & Hr). apply reject_if_Ok in Hrej.
    apply Ok_inj in Hr as <-. apply negb_false_iff, is_zero_spec in Hrej.
    split; [done|]. split; [done|]. split; [intros _; rewrite <- Hrej; ring|]. intros i _. ring.
  - apply is_zero_false in Hz. apply bind_Ok_inv in Hr as (vg & Hvg & Hr).
    apply index_Ok in Hvg. pose proof (lookup_lt_Some _ _ _ Hvg) as Hlt.
    assert (at0 v (N.to_nat (t_g t)) = vg) as Hav by (unfold at0; by rewrite Hvg).
    rewrite store_Ok in Hr by done. apply Ok_inj in Hr as <-. rewrite length_insert.
    split; [done|]. split; [done|]. split; [done|]. intros i Hi. rewrite at0_insert by done.
    rewrite (Nat.eqb_sym i). destruct (Nat.eqb_spec (N.to_nat (t_g t)) i) as [<-|]; [rewrite Hav|]; ring.
Qed.

Lemma eval_terms_inv w ts : forall v v',
  foldM (eval_term w) v ts = Ok v' ->
  length v' = length v /\
  Forall (fun t => N.to_nat (t_h0 t) < length w /\ N.to_nat (t_h1 t) < length w) ts /\
  Forall (fun t => t_k t <> 0 -> N.to_nat (t_g t) < length v) ts /\
  (forall i, i < length v -> at0 v' i = at0 v i + output_value w ts i) /\
  Forall (fun t => t_k t = 0 -> gate w t = 0) ts.
Proof.
  induction ts as [|t ts IH]; intros v v'; cbn [foldM].
  { intros [= <-]. repeat split; try constructor. intros i _. unfold output_value. cbn. ring. }
  intros Hr. apply bind_Ok_inv in Hr as (v1 & Ht & Hr).
  destruct (eval_term_inv _ _ _ _ Ht) as (H0' & H1 & Hl & Hg & Ha & Hv).
  destruct (IH _ _ Hr) as (Hl' & Hw & Hg' & Hv' & Ha'). rewrite Hl in *.
  split; [done|]. repeat split; try by constructor.
  intros i Hi. rewrite Hv', Hv by done. unfold output_value. rewrite sigma_cons. ring.
Qed.

Lemma eval_quad_inv nv w l (cs : list E) v :
  layer_wf (length cs) l -> eval_quad nv w l cs = Ok v -> layer_spec w v nv (layer_terms l cs).
Proof.
  intros Hwf Hr. unfold eval_quad in Hr. rewrite for_each_term_spec in Hr by done.
  destruct (eval_terms_inv _ _ _ _ Hr) as (Hl & Hw & Hg & Hv & Ha). rewrite length_replicate in *.
  split; [done..| |done]. intros i Hi. rewrite Hv, at0_replicate by done. ring.
Qed.

(** ** Weighted outputs *)
Lemma outputs_weighted w v nv ts (dot : nat -> E) beta :
  layer_spec w v nv ts ->
  sigma ts (fun t => term_value beta dot t * gate w t) = sigma (seq 0 nv) (fun i => dot i * at0 v i).
Proof.
  intros [Hl Hw Hg Hv Ha].
  transitivity (sigma (seq 0 nv) (fun i => sigma ts (fun t =>
    dot i * (if is_zero (t_k t) then 0 else if Nat.eqb (N.to_nat (t_g t)) i then t_k t * gate w t else 0)))).
  - rewrite sigma_swap. rewrite Forall_forall in Hg, Ha. apply sigma_ext. intros t Ht.
    unfold term_value. destruct (is_zero (t_k t)) eqn:Hz.
    + apply is_zero_spec in Hz. rewrite (Ha t Ht Hz), sigma_zero; [ring|]. intros i _. ring.
    + apply is_zero_false in Hz.
      rewrite (sigma_single nv (N.to_nat (t_g t))); [|by apply Hg|].
      * rewrite Nat.eqb_refl. ring.
      * intros i Hi. destruct (Nat.eqb_spec (N.to_nat (t_g t)) i); [congruence|ring].
  - apply sigma_ext. intros i Hi. apply elem_of_seq in Hi. rewrite sigma_mul, Hv by lia. done.
Qed.

Lemma bound_tensor_value w v nv ts (g0 g1 : list E) alpha beta :
  layer_spec w v nv ts ->
  tensor_value 0 (group_terms (term_value beta (output_weight g0 g1 alpha)) ts) w w
  = mle v g0 + alpha * mle v g1.
Proof.
  intros Hs. unfold tensor_value. rewrite group_terms_sum. cbn [term_corner at2 Nat.eqb fst snd].
  transitivity (sigma (seq 0 nv) (fun i => output_weight g0 g1 alpha i * at0 v i)).
  - rewrite <- (outputs_weighted w v nv ts _ beta Hs). apply sigma_ext. intros t _. reflexivity.
  - unfold mle, output_weight. rewrite (ls_length _ _ _ _ Hs), <- sigma_mul, <- sigma_add.
    apply sigma_ext. intros i _. ring.
Qed.

Lemma mle_zeros (v rs : list E) : Forall (eq 0) v -> mle v rs = 0.
Proof.
  intros Hz. unfold mle. apply sigma_zero. intros i Hi. unfold at0.
  destruct (v !! i) as [e|] eqn:He; [|cbn; ring]. rewrite Forall_lookup in Hz. rewrite <- (Hz _ _ He). cbn. ring.
Qed.

(** ** All layers *)
Definition layer_outputs (circuit : Circuit E) (in_layers : list (list E)) (v0 : list E) (i : nat) : list E :=
  match i with O => v0 | S j => default [] (in_layers !! j) end.
Definition outputs_size (circuit : Circuit E) (i : nat) : nat :=
  match i with
  | O => noutput (raw circuit)
  | S j => match layers (raw circuit) !! j with Some l => nw l | None => O end
  end.

Lemma eval_layer_inv circuit ins w l st :
  eval_layer circuit (ins, w) l = Ok st ->
  exists layer v, layers (raw circuit) !! l = Some layer /\ l < length ins /\
    st = (<[l := w]> ins, v) /\
    eval_quad (outputs_size circuit l) w layer (constants (raw circuit)) = Ok v.
Proof.
  unfold eval_layer. intros Hr. apply bind_Ok_inv in Hr as (nv & Hnv & Hr).
  assert (nv = outputs_size circuit l) as ->.
  { destruct l as [|l]; cbn in *; [by injection Hnv|].
    apply bind_Ok_inv in Hnv as (la & Hla & Hnv). apply index_Ok in Hla. rewrite Hla. by injection Hnv. }
  apply bind_Ok_inv in Hr as (layer & Hlayer & Hr). apply index_Ok in Hlayer.
  apply bind_Ok_inv in Hr as (v & Hv & Hr). apply bind_Ok_inv in Hr as (ins' & Hst & Hr).
  apply Ok_inj in Hr as <-. exists layer, v. split; [done|].
  unfold store in Hst. destruct (Nat.ltb_spec l (length ins)) as [Hlt|]; [|done]. injection Hst as <-.
  split; [done|]. split; [done|]. unfold map_err in Hv. destruct (eval_quad _ _ _ _); by inv Hv.
Qed.

(** The wires of every layer, from the inputs down to the outputs. *)
Definition run_spec (circuit : Circuit E) (in_layers : list (list E)) (v0 : list E) (lo : nat) : Prop :=
  forall i layer, lo <= i -> layers (raw circuit) !! i = Some layer ->
    exists w, in_layers !! i = Some w /\
      layer_spec w (if Nat.eqb i lo then v0 else default [] (in_layers !! (i - 1)%nat))
        (outputs_size circuit i) (layer_terms layer (constants (raw circuit))).

Lemma eval_layers_inv circuit inputs nl :
  nl = length (layers (raw circuit)) ->
  Forall (layer_wf (length (constants (raw circuit)))) (layers (raw circuit)) ->
  forall k ins v, k <= nl ->
  foldM (eval_layer circuit) (replicate nl [], inputs) (rev (seq k (nl - k))) = Ok (ins, v) ->
  length ins = nl /\ run_spec circuit ins v k /\
  (k = nl -> v = inputs) /\ (k < nl -> ins !! (nl - 1)%nat = Some inputs).
Proof.
  intros Hnl Hwf k. remember (nl - k)%nat as d eqn:Hd. revert k Hd.
  induction d as [|d IH]; intros k Hd ins v Hk Hr; cbn [seq rev foldM] in Hr.
  { injection Hr as <- <-. rewrite length_replicate. split; [done|]. split; [|split; [done|lia]].
    intros i layer Hi Hl. apply lookup_lt_Some in Hl. lia. }
  rewrite foldM_app in Hr. apply bind_Ok_inv in Hr as ([ins1 v1] & Hr1 & Hr).
  destruct (IH (S k) ltac:(lia) _ _ ltac:(lia) Hr1) as (Hlen & Hrun & Hlast & Hin).
  cbn [foldM] in Hr. apply bind_Ok_inv in Hr as (st & He & Hr). apply Ok_inj in Hr as ->.
  apply eval_layer_inv in He as (layer & v' & Hlayer & Hlt & [= -> ->] & Hq).
  rewrite length_insert. split; [done|]. split; [|split; [lia|]].
  - intros i la Hi Hla. destruct (decide (i = k)) as [->|Hne].
    + exists v1. rewrite list_lookup_insert_eq by lia. split; [done|]. rewrite Nat.eqb_refl.
      assert (la = layer) as -> by congruence.
      apply eval_quad_inv; [|done]. rewrite Forall_lookup in Hwf. by eapply Hwf.
    + destruct (Hrun i la ltac:(lia) Hla) as (w & Hw & Hs). exists w.
      rewrite list_lookup_insert_ne by lia. split; [done|]. rewrite (proj2 (Nat.eqb_neq i k)) by done.
      destruct (Nat.eqb_spec i (S k)) as [->|].
      * replace (S k - 1)%nat with k by lia. by rewrite list_lookup_insert_eq by lia.
      * by rewrite list_lookup_insert_ne by lia.
  - intros _. destruct (decide (k = nl - 1)%nat) as [->|].
    + rewrite list_lookup_insert_eq by lia. f_equal. apply Hlast. lia.
    + rewrite list_lookup_insert_ne by lia. apply Hin. lia.
Qed.

(** The whole evaluation. *)
Record eval_spec (circuit : Circuit E) (inputs : list E) (in_layers : list (list E)) : Prop := {
  es_length : length in_layers = length (layers (raw circuit));
  es_inputs : layers (raw circuit) <> [] ->
    in_layers !! (length (layers (raw circuit)) - 1)%nat = Some inputs;
  es_layers : exists v0, Forall (eq 0) v0 /\ run_spec circuit in_layers v0 0
}.
Lemma eval_circuit_inv circuit inputs in_layers :
  Forall (layer_wf (length (constants (raw circuit)))) (layers (raw circuit)) ->
  eval_circuit inputs circuit = Ok in_layers -> eval_spec circuit inputs in_layers.
Proof.
  intros Hwf Hr. unfold eval_circuit in Hr. apply bind_Ok_inv in Hr as ([ins v] & Hrun & Hr).
  apply bind_Ok_inv in Hr as (u & Hz & Hr). apply Ok_inj in Hr as <-.
  apply reject_if_Ok, negb_false_iff in Hz.
  rewrite <- (Nat.sub_0_r (length _)) in Hrun at 2.
  destruct (eval_layers_inv circuit inputs _ eq_refl Hwf 0 ins v ltac:(lia) Hrun) as (Hl & Hspec & _ & Hin).
  split; [done| |].
  - intros Hne. apply Hin. destruct (layers (raw circuit)); [done|cbn; lia].
  - exists v. split; [|done]. apply Forall_forall. intros e He. rewrite forallb_forall in Hz.
    symmetry. apply is_zero_spec, Hz. by apply list_elem_of_In.
Qed.
End eval.

(** * Circuit evaluation, exactly

    The converse of [EvalFacts]: wires that satisfy every layer are what
    [eval_circuit] computes, so that it succeeds exactly when such wires
    exist with zero outputs. *)

Section exact.
Context {E : Type} `{AlgebraicFieldLaws E}.
Add Ring field_ring_exact : (field_ring (E:=E)).

Lemma at0_ext (v w : list E) : length v = length w -> (forall i, (i < length v)%nat -> at0 v i = at0 w i) -> v = w.
Proof. intros Hl Hv. transitivity (tab (at0 v) (length v)); [by rewrite tab_at0|]. rewrite (tab_ext _ (at0 w)) by done. by rewrite Hl, tab_at0. Qed.

Lemma eval_term_ok w v t :
  (N.to_nat (t_h0 t) < length w)%nat -> (N.to_nat (t_h1 t) < length w)%nat ->
  (t_k t <> 0 -> (N.to_nat (t_g t) < length v)%nat) -> (t_k t = 0 -> gate w t = 0) ->
  exists v', eval_term w v t = Ok v' /\ length v' = length v.
Proof.
  intros Hh0 Hh1 Hg Ha. unfold eval_term.
  rewrite (index_at0 w (N.to_nat (t_h1 t))), bind_Ok, (index_at0 w (N.to_nat (t_h0 t))), bind_Ok by done.
  destruct (is_zero (t_k t)) eqn:Hz.
  - apply is_zero_spec in Hz. specialize (Ha Hz). unfold gate in Ha.
    rewrite (proj2 (is_zero_spec _)); [by exists v|]. rewrite <- Ha. ring.
  - apply is_zero_false in Hz. rewrite index_at0, bind_Ok, store_Ok by auto. eexists. split; [done|]. apply length_insert.
Qed.
Lemma eval_terms_ok w ts : forall v,
  Forall (fun t => N.to_nat (t_h0 t) < length w /\ N.to_nat (t_h1 t) < length w)%nat ts ->
  Forall (fun t => t_k t <> 0 -> (N.to_nat (t_g t) < length v)%nat) ts ->
  Forall (fun t => t_k t = 0 -> gate w t = 0) ts ->
  exists v', foldM (eval_term w) v ts = Ok v'.
Proof.
  induction ts as [|t ts IH]; intros v Hw Hg Ha; cbn [foldM]; [by exists v|].
  apply Forall_cons in Hw as [[Hh0 Hh1] Hw], Hg as [Hgt Hg], Ha as [Hat Ha].
  destruct (eval_term_ok w v t Hh0 Hh1 Hgt Hat) as (v1 & -> & Hl). mstep. apply IH; [done| |done]. by rewrite Hl.
Qed.

Lemma layer_spec_unique w v v' nv ts : layer_spec w v nv ts -> layer_spec w v' nv ts -> v = v'.
Proof.
  intros [L1 _ _ V1 _] [L2 _ _ V2 _]. apply at0_ext; [congruence|]. intros i Hi. rewrite V1, V2 by lia. done.
Qed.
Lemma eval_quad_exact nv w l (cs : list E) v : layer_wf (length cs) l ->
  eval_quad nv w l cs = Ok v <-> layer_spec w v nv (layer_terms l cs).
Proof.
  intros Hwf. split; [by apply eval_quad_inv|]. intros Hs.
  destruct (eval_terms_ok w (layer_terms l cs) (replicate nv 0)) as [v' Hv'].
  - apply Hs.
  - rewrite length_replicate. apply Hs.
  - apply Hs.
  - assert (eval_quad nv w l cs = Ok v') as Hq by (unfold eval_quad; by rewrite for_each_term_spec).
    rewrite Hq. f_equal. eapply layer_spec_unique; [by apply eval_quad_inv|done].
Qed.

(** Wires of every level, the outputs being level 0. *)
Definition wires_run (circuit : Circuit E) (V : nat -> list E) : Prop := forall l layer,
  layers (raw circuit) !! l = Some layer ->
  layer_spec (V (S l)) (V l) (outputs_size circuit l) (layer_terms layer (constants (raw circuit))).

Lemma eval_layer_run circuit V ins l : Forall (layer_wf (length (constants (raw circuit)))) (layers (raw circuit)) ->
  wires_run circuit V -> (l < length (layers (raw circuit)))%nat -> length ins = length (layers (raw circuit)) ->
  eval_layer circuit (ins, V (S l)) l = Ok (<[l := V (S l)]> ins, V l).
Proof.
  intros Hwf HV Hl Hlen. destruct (lookup_lt_is_Some_2 _ _ Hl) as [layer Hlayer]. unfold eval_layer.
  assert ((match l with S l' => layer ← index (layers (raw circuit)) l'; mret (nw layer) | O => mret (noutput (raw circuit)) end)
    = @Ok string nat (outputs_size circuit l)) as ->.
  { destruct l as [|l]; [done|]. cbn [outputs_size]. destruct (lookup_lt_is_Some_2 (layers (raw circuit)) l) as [la Hla]; [lia|].
    rewrite (index_lookup _ _ _ Hla), Hla. done. }
  mstep. rewrite (index_lookup _ _ _ Hlayer). mstep.
  rewrite (proj2 (eval_quad_exact (outputs_size circuit l) (V (S l)) layer _ (V l) ltac:(rewrite Forall_lookup in Hwf; by eapply Hwf))).
  - cbn [map_err]. mstep. by rewrite store_Ok by lia.
  - by apply HV.
Qed.
Lemma eval_layers_run circuit V ins : Forall (layer_wf (length (constants (raw circuit)))) (layers (raw circuit)) ->
  wires_run circuit V -> length ins = length (layers (raw circuit)) ->
  forall k, (k <= length (layers (raw circuit)))%nat ->
  exists ins', foldM (eval_layer circuit) (ins, V (length (layers (raw circuit)))) (rev (seq k (length (layers (raw circuit)) - k)))
    = Ok (ins', V k) /\ length ins' = length (layers (raw circuit)).
Proof.
  intros Hwf HV Hlen k Hk. remember (length (layers (raw circuit)) - k)%nat as d eqn:Hd. revert k Hk Hd.
  induction d as [|d IH]; intros k Hk Hd; cbn [seq rev foldM].
  { exists ins. by replace k with (length (layers (raw circuit))) by lia. }
  destruct (IH (S k)) as (ins1 & Hr & Hl1); [lia..|]. rewrite foldM_app, Hr. mstep. cbn [foldM].
  rewrite eval_layer_run by (done || lia). eexists. split; [reflexivity|]. by rewrite length_insert.
Qed.

Theorem eval_circuit_iff circuit inputs :
  layers (raw circuit) <> [] -> Forall (layer_wf (length (constants (raw circuit)))) (layers (raw circuit)) ->
  (exists ls, eval_circuit inputs circuit = Ok ls) <->
  exists V, V (length (layers (raw circuit))) = inputs /\ wires_run circuit V /\ Forall (eq 0) (V 0%nat).
Proof.
  intros Hne Hwf. split.
  - intros [ls Hls]. destruct (eval_circuit_inv _ _ _ Hwf Hls) as [Hlen Hin (v0 & Hz & Hrun)].
    exists (fun i => match i with O => v0 | S j => default [] (ls !! j) end). split; [|split; [|done]].
    + specialize (Hin Hne). destruct (length (layers (raw circuit))) as [|n] eqn:Hn; [by destruct (layers (raw circuit))|].
      replace (S n - 1)%nat with n in Hin by lia. by rewrite Hin.
    + intros l layer Hl. destruct (Hrun l layer ltac:(lia) Hl) as (w & Hw & Hs). rewrite Hw. cbn [default].
      destruct l as [|l]; cbn [Nat.eqb] in Hs; [done|]. by replace (S l - 1)%nat with l in Hs by lia.
  - intros (V & HV & Hrun & Hz). unfold eval_circuit.
    destruct (eval_layers_run circuit V (replicate (length (layers (raw circuit))) []) Hwf Hrun (length_replicate _ _) 0 ltac:(lia)) as (ins & Hr & _).
    rewrite Nat.sub_0_r, HV in Hr. rewrite Hr. mstep.
    assert (forallb is_zero (V 0%nat) = true) as ->; [|by eexists].
    apply forallb_forall. intros e He. apply is_zero_spec. rewrite Forall_forall in Hz. symmetry. apply Hz. by apply list_elem_of_In.
Qed.
End exact.
