(* ===== verification/Completeness.v ===== *)
(** * Completeness of sumcheck v1, layer by layer

    The state the prover, the verifier's derivation and the symbolic
    relations share after each layer, and one layer's step of all three. *)
From stdpp Require Import prelude sorting strings.
From Stdlib Require Import Lia NArith ZifyNat Ring Ring_theory.
From S2P Require Import Prelude Words Interfaces Util Circuit Field FieldFacts Interpolation Transcript SumcheckProof SumcheckV1 SumcheckProtocol DenseFacts SumcheckProofFacts HQuadOrder SumcheckRound SumcheckLayer EvalFacts.

Local Open Scope fe_scope.

(** ** Well-formed circuits *)
Section circuit.
Context {E : Type}.

(** The number of input wires of layer [i]. *)
Definition wires_size (c : Circuit E) (i : nat) : nat :=
  match layers (raw c) !! S i with Some _ => outputs_size c (S i) | None => ninput (raw c) end.

(** Terms in the canonical order of the corners. *)
Definition morton_sorted (ts : list (Term E)) : Prop :=
  Sorted (fun t s => morton.cmp (t_h0 t) (t_h1 t) (t_h0 s) (t_h1 s) <> Gt) ts.

Record layer_ok_at (c : Circuit E) (i : nat) (l : Layer) : Prop := {
  lo_wf : layer_wf (length (constants (raw c))) l;
  lo_logw : sane_logw (logw l) = true;
  lo_size : wires_size c i <= 2 ^ logw l;
  lo_small : (N.of_nat (wires_size c i) < 2 ^ 32)%N;
  lo_nonempty : layer_terms l (constants (raw c)) <> [];
  lo_outputs : Forall (fun t => N.to_nat (t_g t) < outputs_size c i) (layer_terms l (constants (raw c)));
  lo_sorted : morton_sorted (layer_terms l (constants (raw c)))
}.
Record circuit_ok (c : Circuit E) : Prop := {
  co_layers : layers (raw c) <> [];
  co_logv : sane_logw (logv (raw c)) = true;
  co_outputs : noutput (raw c) <= 2 ^ logv (raw c);
  co_public : npublic_input (raw c) <= ninput (raw c);
  co_layer i l : layers (raw c) !! i = Some l -> layer_ok_at c i l
}.

Lemma circuit_ok_wf c : circuit_ok c -> Forall (layer_wf (length (constants (raw c)))) (layers (raw c)).
Proof. intros Hc. apply Forall_lookup. intros i l Hl. by apply (co_layer c Hc) in Hl as []. Qed.

Lemma morton_keyed n (ts : list (Term E)) :
  Forall (fun t => key_ok n n (term_corner t)) ts -> morton_sorted ts ->
  Sorted N.le (map (fun t => pair_key n (term_corner t)) ts).
Proof.
  intros Hok Hs. induction Hs as [|t ts Hs IH Hhd]; [constructor|]. apply Forall_cons in Hok as [Ht Hts].
  cbn [map]. constructor; [by apply IH|]. destruct Hhd as [|s ts Hcmp]; [constructor|]. cbn [map]. constructor.
  apply Forall_cons in Hts as [Hk _]. destruct Ht as (T0 & T1 & _), Hk as (S0 & S1 & _).
  cbn [term_corner fst snd] in *. unfold pair_key, term_corner. cbn [fst snd].
  rewrite (morton.cmp_key n) in Hcmp by done. by apply N.compare_le_iff.
Qed.
Lemma pair_key_inj n (a b : N * N) : key_ok n n a -> key_ok n n b -> pair_key n a = pair_key n b -> a = b.
Proof.
  destruct a as [a0 a1], b as [b0 b1]. intros (A0 & A1 & _) (B0 & B1 & _) Hk.
  destruct (morton.key_inj n a0 a1 b0 b1) as [-> ->]; done.
Qed.
End circuit.

Section completeness.
Context {E : Type} `{AF : AlgebraicField E} `{!AlgebraicFieldLaws E} `{!RuntimeField E}
  `{!RuntimeFieldLaws E} `{!InterpolationField E}.
Context (N0 : nat) `{!InterpolationFieldLaws E N0} (N0_3 : 3 <= N0).
Context `{SF : SerializableField E} (elt_size : serialized_size_bytes (E:=E) <= 128).
Context `{SS : SupportsSampling E} `{SH : Sha256} `{AE : Aes256} `{!SamplingLaws E}.
Add Ring field_ring_completeness : (field_ring (E:=E)).

Lemma corners_inj (p q : HQuad E) :
  length (vc p) = length (hc p) -> length (vc q) = length (hc q) -> corners p = corners q -> p = q.
Proof.
  destruct p as [hp vp], q as [hq vq]. unfold corners. cbn [hc vc]. intros Hp Hq Hc.
  assert (forall (h : list (N * N)) (v : list E), length v = length h -> (zip h v).*1 = h /\ (zip h v).*2 = v) as Hz
    by (intros h v Hl; split; [apply fst_zip|apply snd_zip]; lia).
  destruct (Hz _ _ Hp) as [Hp1 Hp2], (Hz _ _ Hq) as [Hq1 Hq2]. rewrite Hc in Hp1, Hp2. congruence.
Qed.

Lemma begin_layer_ok (t : Transcript) n :
  can_draw (E:=E) (S (S n)) t ->
  exists alpha beta t', transcript.begin_layer (E:=E) t = Ok (alpha, beta, t') /\ can_draw (E:=E) n t'.
Proof.
  intros Hd. unfold transcript.begin_layer.
  destruct (can_draw_sample t (S n) Hd) as (alpha & t1 & -> & Hd1). mstep.
  destruct (can_draw_sample t1 n Hd1) as (beta & t2 & -> & Hd2). mstep. by exists alpha, beta, t2.
Qed.
Lemma elt_field_slice_ok n : forall k (acc : list E) (t : Transcript) m,
  can_draw (E:=E) (n + k) t ->
  exists v t', foldM (fun '(v, g) (_ : nat) => '(e, g) ← elt_field g; mret (v ++ [e], g)) (acc, t) (seq m n)
      = Ok (acc ++ v, t') /\ length v = n /\ can_draw (E:=E) k t'.
Proof.
  induction n as [|n IH]; intros k acc t m Hd; cbn [seq foldM].
  { exists [], t. by rewrite app_nil_r. }
  destruct (can_draw_sample t (n + k) Hd) as (e & t1 & -> & Hd1). mstep.
  destruct (IH k (acc ++ [e]) t1 (S m) Hd1) as (v & t' & Hr & Hl & Hd'). exists (e :: v), t'.
  mstep. rewrite Hr, <- app_assoc. split; [done|]. split; [cbn; lia|done].
Qed.
Lemma begin_circuit_ok (t : Transcript) :
  can_draw (E:=E) 83 t ->
  exists q g t', transcript.begin_circuit (E:=E) t = Ok (q, g, t') /\ length g = MAX_LOGW /\ can_draw (E:=E) 3 t'.
Proof.
  intros Hd. unfold transcript.begin_circuit, elt_field_slice.
  destruct (elt_field_slice_ok MAX_LOGW 43 [] t 0 Hd) as (q & t1 & -> & _ & Hd1). mstep.
  destruct (elt_field_slice_ok MAX_LOGW 3 [] t1 0 Hd1) as (g & t2 & -> & Hl & Hd2). mstep.
  by exists q, g, t2.
Qed.

(** ** The shared state *)
Section run.
Context (circuit : Circuit E) (inputs : list E) (in_layers : list (list E)) (pad : SumcheckProof E).
Context (basis : list (list E)) (v0 initial : list E) (t0 : Transcript).

Definition outputs (i : nat) : list E :=
  match i with O => v0 | S j => default [] (in_layers !! j) end.

(** A layer relation that vanishes under the pad. *)
Definition relation_ok (rel : LayerRelation E) (layer_pad : LayerProof E) : Prop :=
  pads_known pad (linear rel) /\
  expr_value pad (linear rel) + product_coefficient rel * ((claims layer_pad).1 * (claims layer_pad).2) = 0.

Record agree (i : nat) (ps : prover.ProveState (E:=E)) : Prop := {
  ag_layers : length (prover.ps_layers ps) = i;
  ag_data : length (prover.ps_data ps) = i;
  ag_shapes : Forall2 (fun lp l => length2 (hp lp) (logw l)) (prover.ps_layers ps) (take i (layers (raw circuit)));
  ag_nv : i < length (layers (raw circuit)) -> prover.b_nv (prover.ps_bindings ps) = outputs_size circuit i;
  ag_logv : sane_logw (prover.b_logv (prover.ps_bindings ps)) = true;
  ag_size : length (outputs i) <= 2 ^ prover.b_logv (prover.ps_bindings ps);
  ag_challenges : length2 (prover.b_challenges (prover.ps_bindings ps)) (prover.b_logv (prover.ps_bindings ps));
  ag_claims : prover.ps_claims ps = (mle (outputs i) (prover.b_challenges (prover.ps_bindings ps)).1,
                                     mle (outputs i) (prover.b_challenges (prover.ps_bindings ps)).2);
  ag_derive : exists points, let b := prover.ps_bindings ps in
    prover.b_logv b <= length points.1 /\ prover.b_logv b <= length points.2 /\
    take (prover.b_logv b) points.1 = (prover.b_challenges b).1 /\
    take (prover.b_logv b) points.2 = (prover.b_challenges b).2 /\
    foldM (verifier.derive_layer circuit basis)
      {| verifier.ds_points := (initial, initial); verifier.ds_logv := logv (raw circuit);
         verifier.ds_nv := noutput (raw circuit); verifier.ds_layers := []; verifier.ds_transcript := t0 |}
      (zip (take i (layers (raw circuit))) (prover.ps_layers ps))
    = Ok {| verifier.ds_points := points; verifier.ds_logv := prover.b_logv b; verifier.ds_nv := prover.b_nv b;
            verifier.ds_layers := prover.ps_data ps; verifier.ds_transcript := prover.ps_transcript ps |};
  ag_symbolic proof rest : proof_layers proof = prover.ps_layers ps ++ rest ->
    exists rels, foldM (symbolic.verify_layer proof) [] (zip (seq 0 i) (prover.ps_data ps)) = Ok rels /\
      Forall2 relation_ok rels (take i (proof_layers pad));
  ag_endpoint : match i with
    | O => prover.ps_claims ps = (0, 0)
    | S j => exists lp pl, prover.ps_layers ps !! j = Some lp /\ reveals pad j pl /\
        claims lp = ((prover.ps_claims ps).1 - (claims pl).1, (prover.ps_claims ps).2 - (claims pl).2)
    end;
  ag_draw : can_draw (E:=E) 3 (prover.ps_transcript ps)
}.

(** The claim a layer starts from. *)
Lemma start_claim_ok i ps proof rest alpha :
  agree i ps -> proof_layers proof = prover.ps_layers ps ++ rest ->
  exists claim,
    match i with
    | O => mret {| constant := 0; pe_terms := [] |}
    | S l => above ← index (proof_layers proof) l; mret (symbolic.endpoint_claim l (claims above) alpha)
    end = @Ok string _ claim /\
    pads_known pad claim /\ expr_value pad claim = fma (prover.ps_claims ps).1 alpha (prover.ps_claims ps).2.
Proof.
  intros Ha Hp. pose proof (ag_endpoint _ _ Ha) as He. destruct i as [|j].
  - rewrite He. eexists. split; [reflexivity|]. split; [constructor|]. unfold expr_value, fma. cbn. ring.
  - destruct He as (lp & pl & Hlp & Hpl & Hcl).
    rewrite Hp, (index_lookup _ j lp) by by apply lookup_app_l_Some. mstep.
    destruct (endpoint_claim_value pad j pl (claims lp) alpha Hpl) as [Hk Hv].
    eexists. split; [reflexivity|]. split; [done|]. rewrite Hv, Hcl. unfold fma. cbn [fst snd]. ring.
Qed.

(** The relation of one layer. *)
Lemma verify_layer_ok i ps proof rest rels logw nw wires q alpha t lp b cs data t' layer_pad :
  agree i ps -> proof_layers proof = prover.ps_layers ps ++ lp :: rest ->
  reveals pad i layer_pad ->
  layer_mirror basis layer_pad logw nw wires q alpha
    (fma (prover.ps_claims ps).1 alpha (prover.ps_claims ps).2) t lp b cs data t' ->
  exists rel, symbolic.verify_layer proof rels (i, data) = Ok (rels ++ [rel]) /\ relation_ok rel layer_pad.
Proof.
  intros Ha Hp Hrev Hm. unfold symbolic.verify_layer.
  destruct (start_claim_ok i ps proof (lp :: rest) alpha Ha Hp) as (claim & Hc & Hk & Hv).
  rewrite (index_lookup _ i lp).
  2:{ rewrite Hp, <- (ag_layers _ _ Ha). by rewrite list_lookup_middle. }
  mstep. destruct (lm_messages _ _ _ _ _ _ _ _ _ _ _ _ _ _ Hm) as [M0 M1].
  destruct (lm_rounds _ _ _ _ _ _ _ _ _ _ _ _ _ _ Hm) as [R0 R1].
  rewrite M0, M1, R0, R1, Nat.eqb_refl. cbn [andb negb reject_if]. mstep.
  rewrite (lm_alpha _ _ _ _ _ _ _ _ _ _ _ _ _ _ Hm), Hc. mstep.
  destruct (lm_symbolic _ _ _ _ _ _ _ _ _ _ _ _ _ _ Hm pad i claim Hrev Hk Hv) as (claim' & -> & Hk' & Hv').
  mstep. eexists. split; [reflexivity|].
  destruct (finish_layer_value pad i layer_pad lp data claim' Hrev Hk') as [Hkf Hvf]. split; [done|].
  rewrite Hvf, Hv', (lm_masked _ _ _ _ _ _ _ _ _ _ _ _ _ _ Hm). cbn [fst snd]. ring.
Qed.

(** The verifier derives the layer's data. *)
Lemma derive_layer_ok points ds_layers logv0 nv0 layer lp t alpha beta t1 q wires layer_pad sum b cs data t' :
  transcript.begin_layer (E:=E) t = Ok (alpha, beta, t1) ->
  hquad.bind_g (Err:=stuck) layer (constants (raw circuit)) logv0 nv0 points.1 points.2 alpha beta = Ok q ->
  layer_mirror basis layer_pad (logw layer) (nw layer) wires q alpha sum t1 lp b cs data t' ->
  verifier.derive_layer circuit basis
    {| verifier.ds_points := points; verifier.ds_logv := logv0; verifier.ds_nv := nv0;
       verifier.ds_layers := ds_layers; verifier.ds_transcript := t |} (layer, lp)
  = Ok {| verifier.ds_points := prover.b_challenges b; verifier.ds_logv := prover.b_logv b;
          verifier.ds_nv := prover.b_nv b; verifier.ds_layers := ds_layers ++ [data];
          verifier.ds_transcript := t' |}.
Proof.
  intros Hb Hq Hm. unfold verifier.derive_layer.
  cbn [verifier.ds_points verifier.ds_logv verifier.ds_nv verifier.ds_layers verifier.ds_transcript].
  rewrite Hb. mstep. destruct (lm_derive _ _ _ _ _ _ _ _ _ _ _ _ _ _ Hm) as (t2 & -> & He). mstep.
  rewrite Hq. mstep. destruct (lm_quad _ _ _ _ _ _ _ _ _ _ _ _ _ _ Hm) as (q' & -> & Hsc). mstep.
  rewrite Hsc. mstep. rewrite He. mstep.
  rewrite (lm_logv _ _ _ _ _ _ _ _ _ _ _ _ _ _ Hm), (lm_nv _ _ _ _ _ _ _ _ _ _ _ _ _ _ Hm).
  rewrite <- (lm_alpha _ _ _ _ _ _ _ _ _ _ _ _ _ _ Hm). by destruct data.
Qed.

(** ** One layer of the prover *)
Section step.
Context (Hcircuit : circuit_ok circuit) (Hrun : run_spec circuit in_layers v0 0) (Hzero : Forall (eq 0) v0).
Context (Hlast : in_layers !! (length (layers (raw circuit)) - 1)%nat = Some inputs).
Context (Hinputs : length inputs = ninput (raw circuit)).
Context (Hpad : Forall2 (fun lp l => length2 (hp lp) (logw l)) (proof_layers pad) (layers (raw circuit))).
Context (Hbasis : LagrangeBasis.new (Err:=stuck) 3 = Ok basis).

(** The wires of a layer. *)
Record wires_at (i : nat) (layer : Layer) (w : list E) : Prop := {
  wa_lookup : in_layers !! i = Some w;
  wa_spec : layer_spec w (outputs i) (outputs_size circuit i) (layer_terms layer (constants (raw circuit)));
  wa_length : length w = wires_size circuit i;
  wa_nonempty : 0 < length w
}.
Lemma wires_at_ok i layer : layers (raw circuit) !! i = Some layer -> exists w, wires_at i layer w.
Proof.
  intros Hl. destruct (Hrun i layer ltac:(lia) Hl) as (w & Hw & Hspec). exists w. split; [done|..].
  - destruct i as [|i]; [done|]. cbn [Nat.eqb] in Hspec. by rewrite Nat.sub_succ, Nat.sub_0_r in Hspec.
  - unfold wires_size. destruct (layers (raw circuit) !! S i) as [l'|] eqn:Hl'.
    + destruct (Hrun (S i) l' ltac:(lia) Hl') as (w' & _ & Hspec'). apply ls_length in Hspec'.
      cbn [Nat.eqb] in Hspec'. by rewrite Nat.sub_succ, Nat.sub_0_r, Hw in Hspec'.
    + apply lookup_lt_Some in Hl. apply lookup_ge_None in Hl'.
      replace i with (length (layers (raw circuit)) - 1)%nat in Hw by lia.
      rewrite Hlast in Hw. by injection Hw as <-.
  - pose proof (lo_nonempty _ _ _ (co_layer _ Hcircuit _ _ Hl)) as Hne.
    apply ls_wires in Hspec. destruct (layer_terms _ _); [done|]. apply Forall_cons in Hspec as [[Hh _] _]. lia.
Qed.

(** The bound tensor of a layer. *)
Lemma layer_tensor_ok i layer w logv0 g0 g1 alpha beta :
  layers (raw circuit) !! i = Some layer -> wires_at i layer w ->
  sane_logw logv0 = true -> length (outputs i) <= 2 ^ logv0 -> logv0 <= length g0 -> logv0 <= length g1 ->
  exists q, hquad.bind_g (Err:=stuck) layer (constants (raw circuit)) logv0 (outputs_size circuit i) g0 g1 alpha beta = Ok q /\
    length (vc q) = length (hc q) /\
    corners q = group_terms (term_value beta (output_weight (take logv0 g0) (take logv0 g1) alpha))
                  (layer_terms layer (constants (raw circuit))) /\
    tensor_ok (logw layer) w q.
Proof.
  intros Hl [Hw Hspec Hlen Hpos] Hs Hv H0' H1. destruct (co_layer _ Hcircuit _ _ Hl) as [Hwf Hlw Hsz Hsm Hne Hout Hsort].
  destruct (bind_g_ok (Err:=stuck) layer (constants (raw circuit)) logv0 (outputs_size circuit i) (length w) g0 g1 alpha beta)
    as (q & Hq & Hqlen & Hqc); [done|done|by rewrite <- (ls_length _ _ _ _ Hspec)|done|done| |].
  { split; [done|done|apply Hspec|by rewrite Hlen]. }
  exists q. split; [done|]. split; [done|]. split; [done|]. pose proof (ls_wires _ _ _ _ Hspec) as Hwires.
  assert (Forall (fun t => key_ok (logw layer) (logw layer) (term_corner t)) (layer_terms layer (constants (raw circuit)))) as Hkeys.
  { eapply Forall_impl; [exact Hwires|]. intros t [T0 T1].
    assert (2 ^ N.of_nat (logw layer) = N.of_nat (2 ^ logw layer))%N as Hpow by by rewrite Nat2N.inj_pow.
    unfold key_ok, term_corner. cbn [fst snd]. rewrite Hpow. repeat split; lia. }
  split; [done|..]; rewrite Hqc.
  - destruct (layer_terms layer (constants (raw circuit))); [done|]. apply group_nonempty.
  - apply Forall_forall. intros c (t & Ht & ->)%group_terms_elem. rewrite Forall_forall in Hwires. by apply Hwires.
  - apply (group_terms_keyed (key_ok (logw layer) (logw layer))); [apply pair_key_inj|done|by apply morton_keyed].
Qed.

Lemma normalize_nonempty (w : list E) : 0 < length w -> dense.normalize w = w.
Proof. destruct w; cbn; [lia|done]. Qed.

Lemma agree_step i ps layer :
  layers (raw circuit) !! i = Some layer -> agree i ps ->
  exists ps', prover.prove_layer circuit (map dense.normalize in_layers) pad ps i = Ok ps' /\ agree (S i) ps'.
Proof.
  intros Hl Ha. destruct (wires_at_ok i layer Hl) as (w & Hw).
  destruct (co_layer _ Hcircuit _ _ Hl) as [Hwf Hlw Hsz Hsm Hne Hout Hsort].
  destruct (begin_layer_ok (prover.ps_transcript ps) 1 (ag_draw _ _ Ha)) as (alpha & beta & t1 & Hb & _).
  destruct (ag_challenges _ _ Ha) as [L0 L1]. destruct (ag_derive _ _ Ha) as (points & P0 & P1 & T0 & T1 & Hderive).
  pose proof (ag_nv _ _ Ha (lookup_lt_Some _ _ _ Hl)) as Hnv.
  destruct (layer_tensor_ok i layer w (prover.b_logv (prover.ps_bindings ps))
    (prover.b_challenges (prover.ps_bindings ps)).1 (prover.b_challenges (prover.ps_bindings ps)).2 alpha beta)
    as (q & Hq & Hql & Hqc & Hqt); [done|done|apply Ha|apply Ha|lia|lia|].
  destruct (layer_tensor_ok i layer w (prover.b_logv (prover.ps_bindings ps)) points.1 points.2 alpha beta)
    as (q2 & Hq2 & Hql2 & Hqc2 & _); [done|done|apply Ha|apply Ha|lia|lia|].
  rewrite T0, T1 in Hqc2. rewrite !take_ge in Hqc by lia.
  assert (q2 = q) as -> by (apply corners_inj; congruence).
  destruct (Forall2_lookup_r _ _ _ _ _ Hpad Hl) as (layer_pad & Hlp & Hshape).
  destruct (layer_ok N0 N0_3 elt_size basis layer_pad (logw layer) (nw layer) w q alpha (prover.ps_claims ps) t1)
    as (lp & b & cs & data & t' & Hlayer & Hm);
    [done|done|done|done|split; [apply Hw|by rewrite (wa_length _ _ _ Hw)]|by rewrite (wa_length _ _ _ Hw)| |].
  { rewrite Hqc, (bound_tensor_value w (outputs i) (outputs_size circuit i)) by apply Hw.
    rewrite (ag_claims _ _ Ha). cbn [fst snd]. unfold fma. done. }
  eexists. split.
  - unfold prover.prove_layer. rewrite (index_lookup _ _ _ Hl). mstep. rewrite Hb. mstep.
    rewrite (index_lookup _ i w).
    2:{ change (map ?f ?l) with (f <$> l). rewrite list_lookup_fmap, (wa_lookup _ _ _ Hw). cbn. f_equal. apply normalize_nonempty, Hw. }
    mstep. rewrite Hnv, Hq. mstep. rewrite (index_lookup _ _ _ Hlp). mstep. rewrite Hlayer. mstep. reflexivity.
  - assert (outputs (S i) = w) as Hout1 by (unfold outputs; by rewrite (wa_lookup _ _ _ Hw)).
    split; cbn [prover.ps_layers prover.ps_data prover.ps_bindings prover.ps_claims prover.ps_transcript];
      rewrite ?length_app, ?Hout1, ?(lm_logv _ _ _ _ _ _ _ _ _ _ _ _ _ _ Hm), ?(lm_nv _ _ _ _ _ _ _ _ _ _ _ _ _ _ Hm).
    + rewrite (ag_layers _ _ Ha). cbn. lia.
    + rewrite (ag_data _ _ Ha). cbn. lia.
    + rewrite (take_S_r _ _ _ Hl). apply Forall2_app; [apply Ha|]. repeat constructor; apply Hm.
    + intros _. cbn [outputs_size]. by rewrite Hl.
    + done.
    + by rewrite (wa_length _ _ _ Hw).
    + apply Hm.
    + apply Hm.
    + exists (prover.b_challenges b). destruct (lm_challenges _ _ _ _ _ _ _ _ _ _ _ _ _ _ Hm) as [C0 C1].
      split; [lia|]. split; [lia|]. split; [rewrite take_ge by lia; done|]. split; [rewrite take_ge by lia; done|].
      rewrite (take_S_r _ _ _ Hl), zip_with_app
        by (rewrite (ag_layers _ _ Ha), length_take; pose proof (lookup_lt_Some _ _ _ Hl); lia).
      rewrite foldM_app, Hderive. mstep. cbn [zip_with foldM]. rewrite Hnv.
      rewrite (derive_layer_ok points _ _ _ layer lp _ alpha beta t1 q w layer_pad _ b cs data t' Hb Hq2 Hm). mstep.
      by rewrite (lm_logv _ _ _ _ _ _ _ _ _ _ _ _ _ _ Hm), (lm_nv _ _ _ _ _ _ _ _ _ _ _ _ _ _ Hm).
    + intros proof rest Hp. rewrite <- app_assoc in Hp. cbn [app] in Hp.
      destruct (ag_symbolic _ _ Ha proof (lp :: rest) Hp) as (rels & Hrels & Hok).
      destruct (verify_layer_ok i ps proof rest rels (logw layer) (nw layer) w q alpha t1 lp b cs data t' layer_pad)
        as (rel & Hrel & Hrok); [done..|].
      exists (rels ++ [rel]). split.
      * rewrite seq_S, zip_with_app by (by rewrite length_seq, (ag_data _ _ Ha)).
        rewrite foldM_app, Hrels. mstep. cbn [zip_with foldM Nat.add]. rewrite Hrel. done.
      * rewrite (take_S_r _ _ _ Hlp). apply Forall2_app; [done|]. by constructor.
    + exists lp, layer_pad. split; [|split; [done|apply Hm]]. rewrite <- (ag_layers _ _ Ha). by rewrite list_lookup_middle.
    + apply can_draw_fresh; [apply Hm|lia].
Qed.

Lemma agree_steps n : forall i ps,
  i + n <= length (layers (raw circuit)) -> agree i ps ->
  exists ps', foldM (prover.prove_layer circuit (map dense.normalize in_layers) pad) ps (seq i n) = Ok ps' /\
    agree (i + n) ps'.
Proof.
  induction n as [|n IH]; intros i ps Hn Ha; cbn [seq foldM].
  { exists ps. by rewrite Nat.add_0_r. }
  destruct (lookup_lt_is_Some_2 (layers (raw circuit)) i) as [layer Hl]; [lia|].
  destruct (agree_step i ps layer Hl Ha) as (ps1 & -> & Ha1). mstep.
  rewrite <- Nat.add_succ_comm. apply IH; [lia|done].
Qed.
End step.
End run.
End completeness.

(** * Completeness of sumcheck v1: the whole run

    The statement, the first challenges, all layers, and the relations the
    verifier evaluates under the revealed pads. *)

Lemma write0_fresh n t : pseudorandom_generator (write0 n t) = None.
Proof.
  unfold write0. set (t1 := put_length n (tag TAG_BSTR t)).
  assert (forall fuel m u, pseudorandom_generator u = None -> pseudorandom_generator (write0_loop fuel m u).2 = None) as Hl.
  { induction fuel as [|fuel IH]; intros m u Hu; cbn [write0_loop]; [done|].
    destruct (Nat.leb ZERO_BUF m); [by apply IH|done]. }
  specialize (Hl n n t1 eq_refl). destruct (write0_loop n n t1) as [m u]. cbn [snd] in Hl.
  by destruct (Nat.ltb 0 m).
Qed.

Section run.
Context {E : Type} `{AF : AlgebraicField E} `{!AlgebraicFieldLaws E} `{!RuntimeField E}
  `{!RuntimeFieldLaws E} `{!InterpolationField E}.
Context (N0 : nat) `{!InterpolationFieldLaws E N0} (N0_3 : 3 <= N0).
Context `{SF : SerializableField E} (elt_size : serialized_size_bytes (E:=E) <= 128).
Context `{SS : SupportsSampling E} `{SH : Sha256} `{AE : Aes256} `{!SamplingLaws E}.
Add Ring field_ring_run : (field_ring (E:=E)).

(** ** The statement *)
Lemma write_statement_ok (circuit : Circuit E) pubs t :
  circuit_ok circuit -> length pubs = npublic_input (raw circuit) ->
  exists t', transcript.write_sumcheck_statement circuit pubs t = Ok t' /\ pseudorandom_generator t' = None.
Proof.
  intros Hc Hp. unfold transcript.write_sumcheck_statement.
  rewrite Hp, Nat.eqb_refl. cbn [rust_assert]. mstep.
  assert (forall es u, exists u', foldM (fun t (inp : E) => Transcript.write_elt_field inp t) u es = Ok u') as Hw.
  { induction es as [|e es IH]; intros u; cbn [foldM]; [by eexists|].
    destruct (write_elt_fresh elt_size e u) as (u1 & -> & _). mstep. apply IH. }
  destruct (Hw (take (npublic_input (raw circuit)) pubs) (write_bytes (id circuit) t)) as (u1 & ->). mstep.
  destruct (write_elt_fresh elt_size (0 : E) u1) as (u2 & -> & _). mstep.
  assert (forall ls n, Forall (layer_wf (length (constants (raw circuit)))) ls ->
    exists k, foldM (fun n layer => k ← num_terms layer; mret (n + k)%nat) n ls = @Ok stuck nat k) as Hn.
  { induction ls as [|l ls IH]; intros n Hwf; cbn [foldM]; [by eexists|].
    apply Forall_cons in Hwf as [Hl Hls]. rewrite (num_terms_spec _ _ Hl). mstep. by apply IH. }
  destruct (Hn (layers (raw circuit)) 0%nat (circuit_ok_wf _ Hc)) as (k & ->). mstep.
  eexists. split; [reflexivity|]. apply write0_fresh.
Qed.

Lemma validate_shape (p : SumcheckProof E) geom :
  validate p geom = Ok tt -> proof_shape p geom = true /\ exists n, serialized_elements geom = Ok n.
Proof.
  unfold validate. intros Hv. apply bind_Ok_inv in Hv as (u & Hs & Hv). apply bind_Ok_inv in Hv as (n & Hn & _).
  apply reject_if_Ok, negb_false_iff in Hs. split; [done|]. rewrite Hn. by eexists.
Qed.
Lemma shape_layers (p : SumcheckProof E) (circuit : Circuit E) :
  proof_shape p (from_circuit circuit) = true ->
  Forall2 (fun lp l => length2 (hp lp) (logw l)) (proof_layers p) (layers (raw circuit)).
Proof.
  unfold proof_shape, from_circuit. cbn [logw_layers]. rewrite length_map. intros [Hl Hf]%andb_true_iff.
  apply Nat.eqb_eq in Hl. revert Hl Hf. generalize (layers (raw circuit)).
  induction (proof_layers p) as [|lp lps IH]; intros [|l ls] Hl Hf; try done.
  cbn [map zip zip_with forallb] in Hf. apply andb_true_iff in Hf as [H1 H2].
  constructor; [|apply IH; [by injection Hl|done]]. unfold layer_shape in H1. apply andb_true_iff in H1 as [H3 H4].
  by apply Nat.eqb_eq in H3, H4.
Qed.
Lemma layers_shape (lps : list (LayerProof E)) (circuit : Circuit E) :
  Forall2 (fun lp l => length2 (hp lp) (logw l)) lps (layers (raw circuit)) ->
  proof_shape {| proof_layers := lps |} (from_circuit circuit) = true.
Proof.
  intros Hf. apply shape_Forall2. apply Forall2_fmap_r. eapply Forall2_impl; [exact Hf|].
  intros lp l [H0' H1]. unfold layer_shape. apply andb_true_iff. split; by apply Nat.eqb_eq.
Qed.

Lemma nl_pos (circuit : Circuit E) : circuit_ok circuit -> 0 < length (layers (raw circuit)).
Proof. intros Hc. pose proof (co_layers _ Hc). destruct (layers (raw circuit)); [done|apply Nat.lt_0_succ]. Qed.

Lemma check_residuals_zero n :
  verifier.check_residuals n (replicate n 0 ++ [0 : E]) = Ok tt.
Proof.
  unfold verifier.check_residuals. rewrite (proj2 (Nat.leb_le _ _)) by (rewrite length_app, length_replicate; apply Nat.le_add_r).
  cbn [rust_assert]. mstep. rewrite take_app_length' by (by rewrite length_replicate).
  assert (is_zero (0 : E) = true) as Hz by by apply is_zero_spec.
  assert (forallb is_zero (replicate n (0 : E)) = true) as ->.
  { apply forallb_forall. intros e He%list_elem_of_In%elem_of_replicate. by destruct He as [-> _]. }
  cbn [negb reject_if]. mstep. rewrite last_snoc. cbn [unwrap]. mstep. by rewrite Hz.
Qed.

Section final.
Context (circuit : Circuit E) (inputs : list E) (in_layers : list (list E)) (pad : SumcheckProof E).
Context (basis : list (list E)) (v0 initial : list E) (t0 : Transcript).
Context (Hcircuit : circuit_ok circuit) (Hrun : run_spec circuit in_layers v0 0) (Hzero : Forall (eq 0) v0).
Context (Hlast : in_layers !! (length (layers (raw circuit)) - 1)%nat = Some inputs).
Context (Hinputs : length inputs = ninput (raw circuit)).
Context (Hpad : Forall2 (fun lp l => length2 (hp lp) (logw l)) (proof_layers pad) (layers (raw circuit))).

Abbreviation agrees := (agree circuit in_layers pad basis v0 initial t0).
Abbreviation nl := (length (layers (raw circuit))).

(** ** Before the first layer *)
Lemma agree_start :
  logv (raw circuit) <= length initial -> can_draw (E:=E) 3 t0 ->
  agrees 0 {| prover.ps_bindings := {| prover.b_logv := logv (raw circuit); prover.b_nv := noutput (raw circuit);
                prover.b_challenges := (take (logv (raw circuit)) initial, take (logv (raw circuit)) initial) |};
              prover.ps_claims := (0, 0); prover.ps_layers := []; prover.ps_data := [];
              prover.ps_transcript := t0 |}.
Proof.
  intros Hi Hd. split;
    cbn [prover.ps_bindings prover.ps_claims prover.ps_layers prover.ps_data prover.ps_transcript prover.b_logv
      prover.b_nv prover.b_challenges fst snd outputs outputs_size]; try done.
  - apply Hcircuit.
  - destruct (lookup_lt_is_Some_2 (layers (raw circuit)) 0%nat (nl_pos circuit Hcircuit)) as [l Hl].
    destruct (Hrun 0%nat l ltac:(lia) Hl) as (w & _ & Hspec). rewrite (ls_length _ _ _ _ Hspec). apply Hcircuit.
  - split; cbn [fst snd]; rewrite length_take; lia.
  - by rewrite !mle_zeros.
  - exists (initial, initial). done.
  - intros proof rest _. exists []. split; [done|constructor].
Qed.

(** ** After the last layer *)
Definition final_weights (g0 g1 : list E) (alpha : E) : list E := tab (output_weight g0 g1 alpha) (ninput (raw circuit)).

Lemma outputs_last : outputs in_layers v0 nl = inputs.
Proof.
  pose proof (nl_pos circuit Hcircuit) as Hpos. destruct nl as [|n] eqn:Hn; [by apply Nat.lt_irrefl in Hpos|]. cbn [outputs]. revert Hlast.
  rewrite Nat.sub_succ, Nat.sub_0_r. by intros ->.
Qed.

Lemma input_weights_ok ps alpha (points : pair2 (list E)) :
  agrees nl ps ->
  let b := prover.ps_bindings ps in
  prover.b_logv b <= length points.1 -> prover.b_logv b <= length points.2 ->
  take (prover.b_logv b) points.1 = (prover.b_challenges b).1 ->
  take (prover.b_logv b) points.2 = (prover.b_challenges b).2 ->
  eq.eq2 (Err:=stuck) (prover.b_logv b) (ninput (raw circuit)) points.1 points.2 alpha
  = Ok (final_weights (prover.b_challenges b).1 (prover.b_challenges b).2 alpha).
Proof.
  intros Ha b P0 P1 T0 T1. pose proof (ag_size _ _ _ _ _ _ _ _ _ Ha) as Hs. rewrite outputs_last in Hs.
  assert (0 < length inputs).
  { pose proof (nl_pos circuit Hcircuit). destruct (lookup_lt_is_Some_2 (layers (raw circuit)) (nl - 1)%nat) as [l Hl]; [lia|].
    destruct (wires_at_ok N0 N0_3 elt_size circuit inputs in_layers v0 Hcircuit Hrun Hlast Hinputs _ l Hl) as (w & [Hw _ _ Hpos]).
    rewrite Hlast in Hw. by injection Hw as ->. }
  rewrite eq2_ok by (fold b in Hs; lia). by rewrite T0, T1.
Qed.

(** The evaluation of the layer relations. *)
Lemma evaluate_layers_ok rels lps acc :
  Forall2 (relation_ok pad) rels lps ->
  foldM (symbolic.evaluate_layer pad) acc (zip rels lps) = Ok (acc ++ replicate (length rels) 0).
Proof.
  intros Hf. revert acc. induction Hf as [|rel lp rels lps [Hk Hv] Hf IH]; intros acc; cbn [zip zip_with foldM length replicate].
  { by rewrite app_nil_r. }
  assert (symbolic.evaluate_layer pad acc (rel, lp) = Ok (acc ++ [0])) as ->.
  { unfold symbolic.evaluate_layer. rewrite (evaluate_expression_ok _ _ Hk). mstep. unfold fma. by rewrite Hv. }
  mstep. rewrite IH. by rewrite <- app_assoc.
Qed.

(** The relations hold: all residuals are zero. *)
Lemma relations_hold ps alpha :
  agrees nl ps ->
  let b := prover.ps_bindings ps in
  let proof := {| proof_layers := prover.ps_layers ps |} in
  let data := {| vd_layers := prover.ps_data ps; input_alpha := alpha;
                 input_weights := final_weights (prover.b_challenges b).1 (prover.b_challenges b).2 alpha |} in
  exists relations, symbolic.verify proof data = Ok relations /\
    symbolic.evaluate relations inputs pad = Ok (replicate nl 0 ++ [0]).
Proof.
  intros Ha b proof data. pose proof (nl_pos circuit Hcircuit) as Hpos. pose proof (Forall2_length _ _ _ Hpad) as Hpl.
  pose proof (ag_layers _ _ _ _ _ _ _ _ _ Ha) as HL. pose proof (ag_data _ _ _ _ _ _ _ _ _ Ha) as HD.
  destruct (ag_symbolic _ _ _ _ _ _ _ _ _ Ha proof [] ltac:(by rewrite app_nil_r)) as (rels & Hrels & Hok).
  rewrite take_ge in Hok by lia.
  pose proof (ag_endpoint _ _ _ _ _ _ _ _ _ Ha) as He.
  assert (exists lp pl, last (prover.ps_layers ps) = Some lp /\ reveals pad (nl - 1)%nat pl /\
    claims lp = ((prover.ps_claims ps).1 - (claims pl).1, (prover.ps_claims ps).2 - (claims pl).2)) as (lp & pl & Hlp & Hrev & Hcl).
  { clear -He HL Hpos. destruct nl as [|n]; [lia|]. destruct He as (lp & pl & Hl & Hr & Hc).
    exists lp, pl. rewrite last_lookup, HL, Nat.pred_succ, Nat.sub_succ, Nat.sub_0_r. done. }
  set (claim := symbolic.endpoint_claim (nl - 1)%nat (claims lp) alpha).
  destruct (endpoint_claim_value pad (nl - 1)%nat pl (claims lp) alpha Hrev) as [Hk Hv]. fold claim in Hk, Hv.
  destruct (neg_expression_value pad claim Hk) as [Hnk Hnv].
  eexists. split.
  - unfold symbolic.verify. cbn [proof_layers vd_layers proof data]. rewrite HL, HD, Nat.eqb_refl. cbn [negb reject_if].
    mstep. rewrite Hrels. mstep. rewrite Hlp. fold claim. reflexivity.
  - unfold symbolic.evaluate. cbn [vr_layers vr_input weights ir_linear input_weights data].
    change (input_alpha data) with alpha. fold claim.
    rewrite (Forall2_length _ _ _ Hok), Nat.eqb_refl. unfold final_weights. rewrite length_tab, Hinputs, Nat.eqb_refl. cbn [negb orb reject_if]. mstep.
    rewrite (evaluate_layers_ok _ _ _ Hok). mstep. rewrite (evaluate_expression_ok _ _ Hnk). mstep.
    rewrite dot_spec by (by rewrite length_tab). mstep. cbn [app].
    rewrite (Forall2_length _ _ _ Hok), Hpl. do 3 f_equal. rewrite Hnv, Hv, Hcl. cbn [fst snd].
    rewrite (ag_claims _ _ _ _ _ _ _ _ _ Ha), outputs_last. fold b. cbn [fst snd].
    transitivity (- (mle inputs (prover.b_challenges b).1 + alpha * mle inputs (prover.b_challenges b).2)
      + sigma (seq 0 (length inputs)) (fun i => output_weight (prover.b_challenges b).1 (prover.b_challenges b).2 alpha i * at0 inputs i)).
    { f_equal; [ring|]. apply sigma_ext. intros i Hi. apply elem_of_seq in Hi. by rewrite at0_tab by lia. }
    unfold mle, output_weight. rewrite <- sigma_mul.
    transitivity (- (sigma (seq 0 (length inputs)) (fun i => eqw (prover.b_challenges b).1 i * at0 inputs i)
       + sigma (seq 0 (length inputs)) (fun i => alpha * (eqw (prover.b_challenges b).2 i * at0 inputs i)))
      + (sigma (seq 0 (length inputs)) (fun i => eqw (prover.b_challenges b).1 i * at0 inputs i)
       + sigma (seq 0 (length inputs)) (fun i => alpha * (eqw (prover.b_challenges b).2 i * at0 inputs i)))); [|ring].
    f_equal. rewrite <- sigma_add. apply sigma_ext. intros i _. ring.
Qed.

End final.

(** ** The run *)
(** What the theorem needs of a circuit, its inputs and the pad. *)
Record run_ok (circuit : Circuit E) (inputs : list E) (in_layers : list (list E)) (pad : SumcheckProof E) : Prop := {
  ro_circuit : circuit_ok circuit;
  ro_inputs : length inputs = ninput (raw circuit);
  ro_eval : eval_circuit inputs circuit = Ok in_layers;
  ro_pad : validate pad (from_circuit circuit) = Ok tt
}.

Lemma prove_core_ok circuit inputs in_layers pad t :
  run_ok circuit inputs in_layers pad -> pseudorandom_generator t = None ->
  exists proof data t', prover.prove_core in_layers pad circuit t = Ok (proof, data, t') /\
    verifier.derive_verifier_data circuit proof t = Ok (data, t') /\
    exists relations, symbolic.verify proof data = Ok relations /\
      symbolic.evaluate relations inputs pad = Ok (replicate (length (layers (raw circuit))) 0 ++ [0]) /\
      length (proof_layers proof) = length (layers (raw circuit)).
Proof.
  intros [Hcircuit Hinputs Heval Hvalid] Hfresh.
  destruct (eval_circuit_inv circuit inputs in_layers (circuit_ok_wf _ Hcircuit) Heval)
    as [Hlen Hlast (v0 & Hzero & Hrun)]. specialize (Hlast (co_layers _ Hcircuit)).
  destruct (validate_shape _ _ Hvalid) as [Hshape [elements Hel]].
  pose proof (shape_layers _ _ Hshape) as Hpad. pose proof (Forall2_length _ _ _ Hpad) as Hpl.
  destruct (begin_circuit_ok N0 N0_3 elt_size t) as (q & initial & t0 & Hbegin & Hil & Hd); [apply can_draw_fresh; [done|lia]|].
  assert (logv (raw circuit) <= length initial) as Hlv.
  { rewrite Hil. pose proof (co_logv _ Hcircuit) as Hs. unfold sane_logw in Hs. by apply andb_true_iff in Hs as [Hs%Nat.leb_le _]. }
  assert (exists basis, LagrangeBasis.new (Err:=stuck) 3 = Ok basis) as [basis Hbasis]
    by (eexists; apply (basis_new N0); lia).
  pose proof (agree_start circuit inputs in_layers pad basis v0 initial t0 Hcircuit Hrun Hzero Hinputs Hlv Hd) as Hstart.
  destruct (agree_steps N0 N0_3 elt_size circuit inputs in_layers pad basis v0 initial t0 Hcircuit Hrun Hlast
    Hinputs Hpad Hbasis (length (layers (raw circuit))) 0%nat _ ltac:(lia) Hstart) as (ps & Hps & Ha).
  cbn [Nat.add] in Ha. destruct (ag_derive _ _ _ _ _ _ _ _ _ Ha) as (points & P0 & P1 & T0 & T1 & Hderive).
  destruct (can_draw_sample _ 2 (ag_draw _ _ _ _ _ _ _ _ _ Ha)) as (alpha & t' & Halpha & _).
  destruct (ag_challenges _ _ _ _ _ _ _ _ _ Ha) as [C0 C1].

  pose proof (input_weights_ok circuit inputs in_layers pad basis v0 initial t0 Hcircuit Hrun Hlast Hinputs ps alpha) as Hw.
  destruct (relations_hold circuit inputs in_layers pad basis v0 initial t0 Hcircuit Hlast Hinputs Hpad ps alpha Ha)
    as (relations & Hrel & Hres).
  do 3 eexists. split; [|split].
  - unfold prover.prove_core. rewrite Hvalid. mstep. rewrite Hbegin. mstep.
    rewrite (proj2 (Nat.leb_le _ _) Hlv), length_map, Hlen, Hpl, Nat.leb_refl. cbn [andb rust_assert]. mstep.
    rewrite Hps. mstep. rewrite Halpha. mstep. rewrite (Hw (prover.b_challenges (prover.ps_bindings ps)) Ha)
      by (rewrite ?take_ge by lia; first [lia|done]).
    mstep. reflexivity.
  - unfold verifier.derive_verifier_data, verifier.derive_body.
    assert (validate {| proof_layers := prover.ps_layers ps |} (from_circuit circuit) = Ok tt) as Hv.
    { unfold validate. rewrite layers_shape, Hel; [done|].
      rewrite <- (take_ge (layers (raw circuit)) (length (layers (raw circuit)))) by done. apply Ha. }
    rewrite Hv. cbn [map_err]. mstep. rewrite Hbegin. mstep. rewrite Hbasis. mstep.
    rewrite (take_ge (layers (raw circuit))) in Hderive by done. cbn [proof_layers]. rewrite Hderive. mstep.
    cbn [verifier.ds_transcript verifier.ds_logv verifier.ds_points verifier.ds_layers]. rewrite Halpha. mstep.
    rewrite (Hw points Ha P0 P1 T0 T1). mstep. by rewrite map_err_ret.
  - exists relations. split; [done|]. split; [done|]. apply (ag_layers _ _ _ _ _ _ _ _ _ Ha).
Qed.

Lemma prove_verify_ok circuit inputs in_layers pad t :
  run_ok circuit inputs in_layers pad ->
  exists proof data t', prover.prove in_layers pad circuit t = Ok (proof, data, t') /\
    verifier.verify inputs pad circuit proof t = Ok t'.
Proof.
  intros Hr. pose proof Hr as [Hcircuit Hinputs Heval Hvalid].
  destruct (eval_circuit_inv circuit inputs in_layers (circuit_ok_wf _ Hcircuit) Heval) as [Hlen Hlast _].
  specialize (Hlast (co_layers _ Hcircuit)). pose proof (co_public _ Hcircuit) as Hpub.
  destruct (write_statement_ok circuit (take (npublic_input (raw circuit)) inputs) t Hcircuit) as (t1 & Ht1 & Hf).
  { rewrite length_take. lia. }
  destruct (prove_core_ok circuit inputs in_layers pad t1 Hr Hf) as (proof & data & t' & Hp & Hd & relations & Hrel & Hres & Hl).
  exists proof, data, t'. split.
  - unfold prover.prove. rewrite (proj2 (Nat.leb_le _ _) Hpub). cbn [rust_assert]. mstep.
    assert (match length (layers (raw circuit)) with S k => index in_layers k | O => Panic end = @Ok stuck _ inputs) as ->.
    { pose proof (nl_pos circuit Hcircuit). destruct (length (layers (raw circuit))) as [|k]; [lia|].
      rewrite Nat.sub_succ, Nat.sub_0_r in Hlast. by rewrite (index_lookup _ _ _ Hlast). }
    mstep. rewrite (proj2 (Nat.leb_le _ _)) by lia. cbn [rust_assert]. mstep. rewrite Ht1. mstep. done.
  - unfold verifier.verify. rewrite (proj2 (Nat.ltb_ge _ _)) by lia. cbn [reject_if]. mstep.
    rewrite Ht1. cbn [map_err]. mstep. unfold verifier.verify_core. rewrite Hvalid. cbn [map_err]. mstep.
    rewrite Hd. mstep. rewrite Hrel. cbn [map_err]. mstep. rewrite Hres. cbn [map_err]. mstep.
    by rewrite Hl, check_residuals_zero.
Qed.
End run.
