(* ===== verification/SumcheckTheorems.v ===== *)
(** * Theorems about sumcheck: codec, pads and tables

    The proof encoding, the numbering of the pads, the dense tables and the
    equality weights, the round interpolation and the sparse wiring tensor,
    each with a concrete instance over GF(2^128). *)
From stdpp Require Import prelude strings.
From Stdlib Require Import Lia NArith Ring Ring_theory.
From S2P Require Import Prelude Words Stream Interfaces Circuit Gf2_128 Field FieldFacts Interpolation Gf2_128Facts Transcript SumcheckProof SumcheckProofFacts SumcheckV1 Gf2_128Sampling DenseFacts SumcheckRound.

(** ** The proof encoding *)
Section codec.
Context {A : Type} `{SerializableFieldLaws A}.

(** Sumcheck proof round trip.  A proof with the shape of the geometry is
    written without panic, and reading the bytes back with that geometry
    returns the proof and leaves whatever follows. *)
Theorem sumcheck_proof_round_trip (p : SumcheckProof A) geom (rest : list u8) :
  proof_shape p geom = true -> geometry_ok (A:=A) geom ->
  exists bs, write_proof p geom = Ok bs /\ read_proof geom (bs ++ rest) = Ok (p, rest).
Proof.
  intros Hsh Hok. exists (enc_proof p). split; [apply write_proof_ok; [done|apply Hok]|].
  destruct (read_proof_ok p geom Hsh Hok (enc_proof p ++ rest) rest eq_refl) as (s' & E & Hs').
  cbn in Hs'. by subst s'.
Qed.

(** The proof encoding is canonical.  Whatever bytes the reader accepts
    are, up to the rest it leaves, the bytes the writer produces for the proof
    it returns, and that proof has the shape of the geometry: no proof has a
    second encoding. *)
Theorem sumcheck_proof_canonical `{!CanonicalField A} geom (s s' : list u8) (p : SumcheckProof A) :
  read_proof geom s = Ok (p, s') ->
  proof_shape p geom = true /\
  (Forall (fun logw => sane_logw logw = true) (logw_layers geom) ->
   exists bs, write_proof p geom = Ok bs /\ s = bs ++ s').
Proof.
  intros Hr. destruct (canonical_proof _ _ _ _ Hr) as [-> Hsh]. split; [done|].
  intros Hs. exists (enc_proof p). split; [by apply write_proof_ok|done].
Qed.
End codec.

Definition sample_layer_proof : LayerProof Gf2_128 :=
  {| hp := ([{| evaluations := (gf 1, gf 2) |}], [{| evaluations := (gf 3, gf 4) |}]);
     claims := (gf 5, gf 6) |}.
Definition sample_proof : SumcheckProof Gf2_128 := {| proof_layers := [sample_layer_proof] |}.
Definition sample_geometry : SumcheckProofGeometry := {| logw_layers := [1] |}.

Lemma sample_geometry_ok : geometry_ok (A:=Gf2_128) sample_geometry.
Proof. split; [repeat constructor|vm_compute; reflexivity]. Qed.

Lemma sumcheck_proof_round_trip_witness :
  exists bs, write_proof sample_proof sample_geometry = Ok bs /\
    read_proof sample_geometry (bs ++ [x00]) = Ok (sample_proof, [x00]).
Proof. apply sumcheck_proof_round_trip; [reflexivity|apply sample_geometry_ok]. Defined.

Definition sample_proof_bytes : list u8 := enc_proof sample_proof.
Lemma sumcheck_proof_canonical_witness :
  read_proof sample_geometry sample_proof_bytes = Ok (sample_proof, []) /\
  proof_shape sample_proof sample_geometry = true.
Proof.
  assert (read_proof sample_geometry sample_proof_bytes = Ok (sample_proof, [])) as Hr
    by (vm_compute; reflexivity).
  split; [exact Hr|].
  exact (proj1 (sumcheck_proof_canonical sample_geometry sample_proof_bytes [] sample_proof Hr)).
Defined.

(** ** Pads *)

(** [pad_layout] partitions the pad positions.  For any sane geometry it
    does not panic, and reading its layers in order, round pads then endpoint
    pads and their product, gives each position from the base on exactly
    once, consecutively. *)
Theorem pad_layout_partition {Err} (geom : SumcheckProofGeometry) (base : nat) :
  Forall (fun logw => sane_logw logw = true) (logw_layers geom) ->
  exists ls, pad_layout (E:=Err) geom base = Ok ls /\ length ls = length (logw_layers geom) /\
    concat (map layer_positions ls) = seq base (pad_total geom).
Proof. apply pad_layout_consecutive. Qed.

Lemma pad_layout_partition_witness :
  exists ls, pad_layout (E:=unit) {| logw_layers := [1; 0] |} 10 = Ok ls /\
    concat (map layer_positions ls) = [10; 11; 12; 13; 14; 15; 16; 17; 18; 19].
Proof.
  destruct (pad_layout_partition (Err:=unit) {| logw_layers := [1; 0] |} 10) as (ls & Hl & _ & Hp).
  { repeat constructor. }
  exists ls. split; [exact Hl|]. rewrite Hp. reflexivity.
Defined.

(** the flattened witness of a sampled pad is laid out as [pad_layout]
    numbers it.  The sampled pad has the shape of the geometry, and its
    witness lists, layer by layer, the round pads, the endpoint pads and
    their product, one value for each position of the layout, in order. *)
Theorem pad_sample_layout {E} `{AlgebraicField E} `{SupportsSampling E} {G} `{RandomEngine G}
    {Err} (geom : SumcheckProofGeometry) (base : nat) (g g' : G) pads witness ls :
  pad.sample_pad geom g = Ok (pads, witness, g') ->
  Forall (fun logw => sane_logw logw = true) (logw_layers geom) ->
  pad_layout (E:=Err) geom base = Ok ls ->
  proof_shape pads geom = true /\
  witness = concat (map layer_pads (proof_layers pads)) /\
  concat (map layer_positions ls) = seq base (length witness).
Proof.
  intros Hp Hs Hl. unfold pad.sample_pad in Hp. apply bind_Ok_inv in Hp as (st & Hrun & Hp).
  apply sample_layers_spec in Hrun as (lps & g1 & -> & Hf). cbn in Hp. injection Hp as <- <- _.
  destruct (pad_layout_consecutive (Err:=Err) geom base Hs) as (ls' & Hl' & _ & Hpos).
  rewrite Hl in Hl'. injection Hl' as <-. destruct geom as [logws]. cbn [proof_layers].
  split; [by apply shape_Forall2|]. split; [done|]. rewrite Hpos. unfold pad_total. f_equal.
  symmetry. by apply length_pads.
Qed.

#[local] Instance toy_rng : RandomEngine N := fun n g => Ok (toy_bytes n g).

Lemma pad_sample_layout_witness :
  match pad.sample_pad (E:=Gf2_128) sample_geometry 7%N with
  | Ok (pads, witness, _) => proof_shape pads sample_geometry = true /\ length witness = 7
  | _ => False
  end.
Proof.
  destruct (pad.sample_pad (E:=Gf2_128) sample_geometry 7%N) as [[[pads w] g']| |] eqn:Hs;
    [|vm_compute in Hs; discriminate Hs..].
  destruct (pad_layout (E:=unit) sample_geometry 0) as [ls| |] eqn:Hl;
    [|vm_compute in Hl; discriminate Hl..].
  destruct (pad_sample_layout (Err:=unit) sample_geometry 0 7%N g' pads w ls) as (Hsh & Hw & Hpos);
    [exact Hs|repeat constructor|exact Hl|].
  split; [exact Hsh|]. vm_compute in Hl. injection Hl as <-.
  apply (f_equal length) in Hpos. rewrite length_seq in Hpos. rewrite <- Hpos. reflexivity.
Defined.

(** ** Tables *)
Section tables.
Context {E : Type} `{AlgebraicFieldLaws E}.
Local Open Scope fe_scope.

(** Binding a table is evaluating its multilinear extension.  Binding all
    [logv] coordinates of a table of at most [2^logv] entries (of any length,
    the missing entries being zeros) in place, lowest coordinate first, never
    panics and leaves the single value of the extension at the point; binding
    out of place gives the same tables. *)
Theorem dense_bind_evaluates {Err} (logv : nat) (v rs : list E) :
  (0 < length v <= 2 ^ logv)%nat -> sane_logw logv = true -> length rs = logv ->
  dense.bind_all (Err:=Err) logv v rs = Ok [mle v rs] /\
  foldM (dense.bind_out_of_place (Err:=Err)) v rs = Ok [mle v rs].
Proof.
  intros Hv Hs Hr. split; [by apply bind_all_ok|]. subst logv.
  assert (v <> []) as Hne by (by destruct v; [cbn in Hv; lia|]).
  rewrite bind_out_of_place_run, bound_all_mle by (done || lia). done.
Qed.

(** The equality weights.  [eq2] tabulates [eq(G0, i) + alpha eq(G1, i)]
    for every [i < n], also when [n] is not a power of two, and the linear
    time contraction [eq::eval] equals the sum over [i < n] of the products of
    the weights. *)
Theorem eq_weights {Err} (logn n : nat) (g0 g1 : list E) (alpha : E) :
  (1 <= n <= 2 ^ logn)%nat -> length g0 = logn -> length g1 = logn ->
  eq.eq2 (Err:=Err) logn n g0 g1 alpha = Ok (tab (fun i => eqw g0 i + alpha * eqw g1 i) n) /\
  eq.eval (Err:=Err) logn n g0 g1 = Ok (sigma (seq 0 n) (fun i => eqw g0 i * eqw g1 i)).
Proof.
  intros Hn H1 H2. rewrite eq2_ok, eval_ok by lia. by rewrite !take_ge by lia.
Qed.

(** Binding one bit of one hand of the sparse tensor never panics and
    multiplies every corner by the weight of that bit ([1 - r] for 0, [r] for
    1) while dropping the bit: summed against any function of the remaining
    corner indices, the result is the weighted sum of the original corners,
    whichever partners were merged. *)
Theorem bind_h_sum {Err} (q : HQuad E) (r : E) (hand : nat) (g : N * N -> E) :
  is_hand hand -> length (vc q) = length (hc q) ->
  exists q', hquad.bind_h (Err:=Err) q r hand = Ok q' /\ length (vc q') = length (hc q') /\
    length (hc q') <= length (hc q) /\
    qsum (corners q') g = qsum (corners q) (fun h => bit_weight r (at2 h hand) * g (halve hand h)).
Proof.
  intros Hh Hl. destruct (bind_h_ok (Err:=Err) q r hand Hl) as (q' & Hq & Hl' & Hc).
  exists q'. split; [done|]. split; [done|]. split; [|rewrite Hc; by apply merge_sum].
  pose proof (merge_length r hand (corners q)) as Hm. rewrite <- Hc in Hm. unfold corners in Hm.
  rewrite !length_zip in Hm. lia.
Qed.
End tables.

Lemma dense_bind_evaluates_witness :
  dense.bind_all (Err:=unit) 2 [gf 5; gf 6; gf 7] [gf 3; gf 9] = Ok [mle [gf 5; gf 6; gf 7] [gf 3; gf 9]].
Proof.
  apply (dense_bind_evaluates (Err:=unit) 2 [gf 5; gf 6; gf 7] [gf 3; gf 9]);
    [cbn [length Nat.pow Nat.mul Nat.add]; lia|reflexivity|reflexivity].
Defined.

Lemma eq_weights_witness :
  eq.eq2 (Err:=unit) 2 3 [gf 3; gf 9] [gf 4; gf 2] (gf 11)
  = Ok (tab (fun i => fadd (eqw [gf 3; gf 9] i) (fmul (gf 11) (eqw [gf 4; gf 2] i))) 3).
Proof. apply eq_weights; [cbn [Nat.pow Nat.mul Nat.add]; lia|reflexivity|reflexivity]. Defined.

Definition sample_hquad : HQuad Gf2_128 :=
  {| hc := [(0, 0); (1, 0); (1, 1)]%N; vc := [gf 2; gf 3; gf 5] |}.
Lemma bind_h_sum_witness :
  exists q', hquad.bind_h (Err:=unit) sample_hquad (gf 7) 0 = Ok q' /\ length (hc q') <= 3.
Proof.
  destruct (bind_h_sum (Err:=unit) sample_hquad (gf 7) 0 (fun _ => fone)) as (q' & Hq & _ & Hl & _);
    [by left|reflexivity|]. exists q'. split; [exact Hq|exact Hl].
Defined.

(** ** Round messages *)
Section messages.
Context {E : Type} `{AlgebraicFieldLaws E} `{InterpolationField E}.
Context (N0 : nat) `{!InterpolationFieldLaws E N0}.
Local Open Scope fe_scope.
Add Ring field_ring_messages : (field_ring (E:=E)).

(** A round needs only two evaluations.  For a quadratic [g], the values
    [g(0)] and [g(pt 2)] that are transmitted together with the claim
    [g(0) + g(1)] determine [g(r)]: [RoundCoefficients] computes it, and
    so does interpolating the message completed by [to_poly]. *)
Theorem round_message_evaluates {Err} (c0 c1 c2 r : E) :
  (3 <= N0)%nat ->
  let g := mono [c0; c1; c2] in
  let claim := g 0 + g 1 in
  (exists basis coefs, LagrangeBasis.new (Err:=Err) 3 = Ok basis /\
     RoundCoefficients_new (Err:=Err) basis r = Ok coefs /\
     RoundCoefficients_evaluate coefs (message_of [c0; c1; c2]) claim = g r) /\
  Poly.eval_lagrange (Err:=Err) (to_poly (message_of [c0; c1; c2]) claim) r = Ok (g r).
Proof.
  intros HN g claim. split.
  - by apply (coefficients_evaluate N0 HN).
  - by apply (to_poly_message N0 HN).
Qed.
End messages.

Lemma round_message_evaluates_witness :
  Poly.eval_lagrange (Err:=unit)
    (to_poly (message_of [gf 2; gf 3; gf 5])
      (fadd (mono [gf 2; gf 3; gf 5] fzero) (mono [gf 2; gf 3; gf 5] fone))) (gf 17)
  = Ok (mono [gf 2; gf 3; gf 5] (gf 17)).
Proof. apply (proj2 (round_message_evaluates (Err:=unit) 6 (gf 2) (gf 3) (gf 5) (gf 17) ltac:(lia))). Defined.
