(* ===== verification/CompletenessTheorems.v ===== *)
(** * Theorems: completeness of sumcheck v1

    An honest prover's proof is accepted by the verifier, and both sides
    derive the same data; instances over GF(2^128). *)
From stdpp Require Import prelude sorting strings.
From Stdlib Require Import Lia NArith.
From S2P Require Import Prelude Words Interfaces Util DeltaTable Circuit Gf2_128 Field FieldFacts Gf2_128Facts Transcript TranscriptTheorems SumcheckProof SumcheckV1 SumcheckProtocol Gf2_128Sampling DenseFacts HQuadOrder SumcheckLayer EvalFacts Completeness.

(** ** Sampling from the SHA-256/AES-256 transcript over GF(2^128) *)
Section sampling.
Context `{Sha256} `{Aes256Laws}.

Definition gf_can_draw (n : nat) (t : Transcript) : Prop :=
  exists l, represents t l /\ (drawn l + 16 * N.of_nat n <= 16 * MAX_PRF_BLOCKS)%N.

Lemma gf_can_draw_sample t n :
  gf_can_draw (S n) t -> exists e t', elt_field (E:=Gf2_128) t = Ok (e, t') /\ gf_can_draw n t'.
Proof.
  intros (l & Hl & Hd). destruct (represents_bytes t l 16 Hl) as (t' & Hb & Ht'); [lia|].
  eexists _, t'. split; [|by eexists; split; [exact Ht'|cbn [drawn]; lia]].
  eapply elt_field_ok; [exact Hb|]. unfold key_bytes. by rewrite length_map, length_seq.
Qed.

Lemma gf_can_draw_fresh t n : pseudorandom_generator t = None -> n <= 128 -> gf_can_draw n t.
Proof.
  intros Hf Hn. exists {| absorbed := hash_accumulator t; drawn := 0 |}.
  split; [split; cbn; [done|by rewrite Hf]|]. cbn [drawn]. unfold MAX_PRF_BLOCKS. lia.
Qed.

#[export] Instance Gf2_128_SamplingLaws : SamplingLaws Gf2_128 := {|
  can_draw := gf_can_draw;
  can_draw_fresh := gf_can_draw_fresh;
  can_draw_sample := gf_can_draw_sample
|}.
End sampling.

Section completeness.
Context {E : Type} `{AF : AlgebraicField E} `{!AlgebraicFieldLaws E} `{!RuntimeField E}
  `{!RuntimeFieldLaws E} `{!InterpolationField E}.
Context (N0 : nat) `{!InterpolationFieldLaws E N0}.
Context `{SF : SerializableField E}.
Context `{SS : SupportsSampling E} `{SH : Sha256} `{AE : Aes256} `{!SamplingLaws E}.

(** C13: completeness of sumcheck v1.  For a well-formed circuit whose
    evaluation on the inputs succeeds (every assertion holds and every output
    is zero) and any pad of the right shape, [prove] neither fails nor trips
    an assertion (its per-layer check of the running sum included), and
    [verify], run on the same transcript state with the revealed pad, accepts
    the proof and leaves the transcript in the prover's final state. *)
Theorem sumcheck_complete (circuit : Circuit E) (inputs : list E) in_layers (pad : SumcheckProof E) (t : Transcript) :
  3 <= N0 -> serialized_size_bytes (E:=E) <= 128 ->
  circuit_ok circuit -> length inputs = ninput (raw circuit) ->
  eval_circuit inputs circuit = Ok in_layers -> validate pad (from_circuit circuit) = Ok tt ->
  exists proof data t', prover.prove in_layers pad circuit t = Ok (proof, data, t') /\
    verifier.verify inputs pad circuit proof t = Ok t'.
Proof. intros. by apply (prove_verify_ok N0). Qed.

(** C20: the verifier re-derives the prover's data.  From the masked messages
    alone, [derive_verifier_data] obtains the challenges' coefficients, the
    bound tensors and the input weights that the prover computed with the
    witness at hand, and every relation it then builds evaluates to zero
    under the revealed pad. *)
Theorem derive_matches_prover (circuit : Circuit E) (inputs : list E) in_layers (pad : SumcheckProof E) (t : Transcript) :
  3 <= N0 -> serialized_size_bytes (E:=E) <= 128 ->
  circuit_ok circuit -> length inputs = ninput (raw circuit) ->
  eval_circuit inputs circuit = Ok in_layers -> validate pad (from_circuit circuit) = Ok tt ->
  pseudorandom_generator t = None ->
  exists proof data t', prover.prove_core in_layers pad circuit t = Ok (proof, data, t') /\
    verifier.derive_verifier_data circuit proof t = Ok (data, t') /\
    exists relations, symbolic.verify proof data = Ok relations /\
      symbolic.evaluate relations inputs pad = Ok (replicate (S (length (layers (raw circuit)))) fzero).
Proof.
  intros HN Hs Hc Hi He Hp Hf.
  destruct (prove_core_ok N0 HN Hs circuit inputs in_layers pad t) as (proof & data & t' & H1 & H2 & relations & H3 & H4 & _);
    [done..|]. exists proof, data, t'. split; [done|]. split; [done|]. exists relations. split; [done|].
  rewrite H4. f_equal. by rewrite replicate_S_end.
Qed.

(** What a successful evaluation means.  [eval_circuit] returns the wires
    of every layer: the last layer's wires are the inputs, each output wire is
    the sum of [k * wire * wire] over the terms that name it (terms whose
    constant is zero are assertions, do not contribute and have a zero
    product), every wire index is in range, and the circuit's outputs are all
    zero. *)
Theorem eval_circuit_sound (circuit : Circuit E) (inputs : list E) in_layers :
  Forall (layer_wf (length (constants (raw circuit)))) (layers (raw circuit)) ->
  eval_circuit inputs circuit = Ok in_layers -> eval_spec circuit inputs in_layers.
Proof. apply eval_circuit_inv. Qed.
(** Binding the outputs of a layer.  [bind_g] never panics on terms that
    are in range, and its corners sum, against any function of the two wires,
    to the terms weighted by the combined equality weight of their outputs
    (assertion terms by [beta]), runs of equal corners having been added up;
    the number of corners is exactly the capacity [nterms_after_bind_g]
    announces, so the preallocated vectors never grow. *)
Theorem bind_g_sum {Err} (l : Layer) (cs : list E) logv nv nw g0 g1 alpha beta :
  layer_wf (length cs) l -> layer_u32 l -> sane_logw logv = true ->
  nv <= 2 ^ logv -> length g0 = logv -> length g1 = logv -> terms_ok nv nw (layer_terms l cs) ->
  exists q, hquad.bind_g (Err:=Err) l cs logv nv g0 g1 alpha beta = Ok q /\
    nterms_after_bind_g (E:=Err) l = Ok (length (hc q)) /\ length (vc q) = length (hc q) /\
    forall g, qsum (corners q) g
      = sigma (layer_terms l cs) (fun t => fmul (term_value beta (output_weight g0 g1 alpha) t) (g (t_h0 t, t_h1 t))).
Proof.
  intros Hwf Hu Hs Hn L0 L1 Hok.
  destruct (bind_g_ok (Err:=Err) l cs logv nv nw g0 g1 alpha beta) as (q & Hq & Hl & Hc); [done..|lia|lia|done|].
  exists q. split; [done|]. split; [|split; [done|]].
  - rewrite (nterms_exact (term_value beta (output_weight (take logv g0) (take logv g1) alpha)) l cs) by done.
    rewrite <- Hc, length_corners; done.
  - intros g. by rewrite Hc, group_terms_sum, !take_ge by lia.
Qed.
End completeness.

(** ** A satisfied circuit over GF(2^128) *)
Module Squares.
Local Open Scope N_scope.
Definition delta (g h0 h1 k : N) : TermDelta := {| d_g := g; d_h := (h0, h1); d_k_index := k |}.
(** [w0 * w0 + w0 * w1], zero when the wires are equal. *)
Definition output_layer : Layer :=
  new_uncompressed 2 1 [delta 0 0 0 0; delta 0 0 1 0] [0; 1].
(** [w0 = x0 * x1], [w1 = x0 * x2], and the assertion [x0 * x3 = 0]. *)
Definition input_layer : Layer :=
  new_uncompressed 4 2 [delta 0 0 1 0; delta 1 0 1 0; delta 0 0 1 1] [0; 1; 2].
Definition circuit : Circuit Gf2_128 :=
  {| raw := {| ninput := 4; npublic_input := 1; noutput := 1; logv := 0; subfield_boundary := 4;
               constants := [gf 1; gf 0]; layers := [output_layer; input_layer] |};
     id := [x01; x02] |}.
Definition inputs : list Gf2_128 := [gf 3; gf 5; gf 5; gf 0].
Definition poly (a b : N) : RoundPoly Gf2_128 := {| evaluations := (gf a, gf b) |}.
Definition pad : SumcheckProof Gf2_128 :=
  {| proof_layers :=
       [{| hp := ([poly 2 3], [poly 4 5]); claims := (gf 6, gf 7) |};
        {| hp := ([poly 8 9; poly 10 11], [poly 12 13; poly 14 15]); claims := (gf 16, gf 17) |}] |}.

Lemma circuit_is_ok : circuit_ok circuit.
Proof.
  split; try done; try (cbn; lia).
  intros [|[|i]] l [= <-].
  - split; try done; try (vm_compute; congruence); try (cbn; lia).
    + split; repeat constructor; cbn; lia.
    + repeat constructor; cbn; lia.
    + repeat constructor; vm_compute; congruence.
  - split; try done; try (vm_compute; congruence); try (cbn; lia).
    + split; repeat constructor; cbn; lia.
    + repeat constructor; cbn; lia.
    + repeat constructor; vm_compute; congruence.
Qed.
End Squares.

#[local] Existing Instances toy_sha256 toy_aes toy_aes_laws.

Definition squares_wires : list (list Gf2_128) :=
  match eval_circuit Squares.inputs Squares.circuit with Ok ls => ls | _ => [] end.
Lemma squares_evaluates : eval_circuit Squares.inputs Squares.circuit = Ok squares_wires.
Proof. vm_compute. reflexivity. Qed.
Lemma squares_pad_shape : validate Squares.pad (from_circuit Squares.circuit) = Ok tt.
Proof. vm_compute. reflexivity. Qed.

Lemma sumcheck_complete_witness :
  exists proof data t',
    prover.prove squares_wires Squares.pad Squares.circuit (Transcript_new [x2a]) = Ok (proof, data, t') /\
    verifier.verify Squares.inputs Squares.pad Squares.circuit proof (Transcript_new [x2a]) = Ok t'.
Proof.
  apply (sumcheck_complete 6 Squares.circuit Squares.inputs squares_wires Squares.pad (Transcript_new [x2a]));
    [lia|vm_compute; lia|apply Squares.circuit_is_ok|reflexivity|apply squares_evaluates|apply squares_pad_shape].
Defined.

Lemma derive_matches_prover_witness :
  exists proof data t',
    prover.prove_core squares_wires Squares.pad Squares.circuit (Transcript_new [x2a]) = Ok (proof, data, t') /\
    verifier.derive_verifier_data Squares.circuit proof (Transcript_new [x2a]) = Ok (data, t').
Proof.
  destruct (derive_matches_prover 6 Squares.circuit Squares.inputs squares_wires Squares.pad (Transcript_new [x2a]))
    as (proof & data & t' & Hp & Hd & _);
    [lia|vm_compute; lia|apply Squares.circuit_is_ok|reflexivity|apply squares_evaluates|apply squares_pad_shape|reflexivity|].
  exists proof, data, t'. split; [exact Hp|exact Hd].
Defined.

Lemma eval_circuit_sound_witness : eval_spec Squares.circuit Squares.inputs squares_wires.
Proof.
  apply eval_circuit_sound; [|apply squares_evaluates].
  apply (circuit_ok_wf Squares.circuit Squares.circuit_is_ok).
Defined.

Lemma bind_g_sum_witness :
  exists q, hquad.bind_g (Err:=unit) Squares.input_layer [gf 1; gf 0] 1 2 [gf 9] [gf 8] (gf 7) (gf 6) = Ok q /\
    length (hc q) = 3.
Proof.
  destruct (bind_g_sum (Err:=unit) Squares.input_layer [gf 1; gf 0] 1 2 4 [gf 9] [gf 8] (gf 7) (gf 6))
    as (q & Hq & Hcap & _).
  - split; repeat constructor; cbn; lia.
  - repeat constructor; cbn; lia.
  - reflexivity.
  - cbn. lia.
  - reflexivity.
  - reflexivity.
  - split; [vm_compute; discriminate|repeat constructor; vm_compute; lia|repeat constructor; vm_compute; lia|reflexivity].
  - exists q. split; [exact Hq|]. assert (nterms_after_bind_g (E:=unit) Squares.input_layer = Ok 3) as H3 by reflexivity.
    rewrite H3 in Hcap. injection Hcap as <-. reflexivity.
Defined.
