(* ===== verification/RangeInterpolation.v ===== *)
(** * Range interpolation

    The interface of [src/rust/runtime/algebra/src/range_interpolation/mod.rs]
    and its scalar implementation
    [src/rust/runtime/algebra/src/range_interpolation/scalar.rs]: from the
    values on one range of a fixed point table to the values on another. *)
From stdpp Require Import prelude strings.
From Stdlib Require Import Lia NArith Ring Ring_theory.
From S2P Require Import Prelude Words Interfaces Field FieldFacts Interpolation Transcript.

Local Open Scope fe_scope.

(** [std::ops::Range<usize>], start and (exclusive) end. *)
Abbreviation range := (nat * nat)%type (only parsing).
Definition range_len (r : range) : nat := (r.2 - r.1)%nat.
Definition range_seq (r : range) : list nat := seq r.1 (range_len r).

(** ** [Subfield] ([subfield.rs])

    [to_bytes_into] panics on an element outside the subfield. *)
Class Subfield (E : Type) := {
  sf_to_bytes : forall Err, E -> outcome Err (list u8);
  sf_contains : E -> bool;
  sf_serialized_size_bytes : nat;
  sf_bytes_to_element : list u8 -> outcome string E;
  sf_sample : forall G : Type, (nat -> G -> outcome stuck (list u8 * G)) -> G -> outcome stuck (E * G)
}.
Class SubfieldLaws (E : Type) `{Subfield E} := {
  sf_to_bytes_ok e : sf_contains e = true ->
    exists bs, (forall Err, sf_to_bytes Err e = Ok bs) /\ length bs = sf_serialized_size_bytes /\
      sf_bytes_to_element bs = Ok e;
  sf_bytes_to_element_contains bs e : sf_bytes_to_element bs = Ok e -> sf_contains e = true
}.

(** ** [RangeInterpolatorFactory] and [InterpolationPlan] *)
Class RangeInterpolatorFactory (E : Type) `{Subfield E} := {
  Plan : Type;
  can_interpolate : range -> range -> bool;
  make_range : forall Err, range -> range -> outcome Err Plan;
  apply_plan : forall Err, Plan -> list E -> outcome Err (list E);
  apply_subfield : forall Err, Plan -> list E -> outcome Err (list E)
}.

(** What the trait documents: the source values specify the unique polynomial
    of degree less than their number on the factory's point table
    ([plan_points]), whose points are distinct, and a plan evaluates it on the
    destination. *)
Class RangeInterpolatorLaws (E : Type) `{AlgebraicField E} `{Subfield E} `{!RangeInterpolatorFactory E} := {
  plan_points : nat -> E;
  points_distinct src dst i j :
    can_interpolate src dst = true -> i < j < src.2 -> plan_points j - plan_points i <> 0;
  plan_exact src dst :
    can_interpolate src dst = true -> exists p, (forall Err, make_range Err src dst = Ok p) /\
      forall Err f, is_poly (range_len src) f ->
        apply_plan Err p (map (fun i => f (plan_points i)) (range_seq src))
        = Ok (map (fun i => f (plan_points i)) (range_seq dst));
  apply_subfield_spec Err p v :
    Forall (fun e => sf_contains e = true) v -> apply_subfield Err p v = apply_plan Err p v;
  can_interpolate_range src dst : can_interpolate src dst = true -> src.1 < src.2 /\ dst.1 <= dst.2
}.

(** ** [Ranges] *)
Module Ranges.
Record Ranges := { source : range; destination : range }.

Definition range_is_empty (r : range) : bool := negb (Nat.ltb r.1 r.2).

Definition valid (source destination : range) (limit : nat) : bool :=
  Nat.ltb source.1 source.2 && Nat.leb source.2 limit
  && Nat.leb destination.1 destination.2 && Nat.leb destination.2 limit.

Definition outside (r : Ranges) : list range :=
  let before := ((destination r).1, Nat.min (destination r).2 (source r).1) in
  let out := if range_is_empty before then [] else [before] in
  let after := (Nat.max (destination r).1 (source r).2, (destination r).2) in
  if range_is_empty after then out else out ++ [after].

Section copy.
Context {E : Type} {Err : Type}.

(** [destination[b - d..e - d].clone_from_slice(&source[b - s..e - s])] *)
Definition copy_overlap (r : Ranges) (src dst : list E) : list E :=
  let begin := Nat.max (source r).1 (destination r).1 in
  let end' := Nat.min (source r).2 (destination r).2 in
  if Nat.ltb begin end' then
    let d := (begin - (destination r).1)%nat in
    take d dst ++ take (end' - begin) (drop (begin - (source r).1) src) ++ drop (d + (end' - begin)) dst
  else dst.

(** The cases without arithmetic; the flag tells that nothing is left to do. *)
Definition trivial (r : Ranges) (src dst : list E) : outcome Err (list E * bool) :=
  rust_assert (Nat.eqb (length src) (range_len (source r))) ;;
  match dst with
  | [] => mret (dst, true)
  | _ =>
      if Nat.eqb (length src) 1 then
        v ← index src 0; mret (map (fun _ => v) dst, true)
      else
        mret (copy_overlap r src dst,
              Nat.leb (source r).1 (destination r).1 && Nat.leb (destination r).2 (source r).2)
  end.

Definition needs_work (r : Ranges) : bool :=
  Nat.ltb 1 (range_len (source r)) && negb (match outside r with [] => true | _ => false end).
End copy.
End Ranges.

(** ** [SupportsU64Conversions] *)
Class SupportsU64Conversions (E : Type) := u64_to_element : nat -> E.

(** The image of a natural number: repeated addition of one. *)
Class U64ConversionsLaws (E : Type) `{AlgebraicField E, SupportsU64Conversions E} := {
  u64_to_element_0 : u64_to_element 0 = fzero;
  u64_to_element_S n : u64_to_element (S n) = fadd (u64_to_element n) fone
}.

Section difference.
Context {E : Type} `{AlgebraicField E} `{SupportsU64Conversions E}.
Definition difference (a b : nat) : E :=
  if Nat.leb b a then u64_to_element (a - b) else - u64_to_element (b - a).
End difference.

(** ** The scalar backend ([scalar.rs]) *)
Module scalar.
Section scalar.
Context {E : Type} `{AlgebraicField E} `{SupportsU64Conversions E}.

Record ScalarInterpolationPlan := { ranges : Ranges.Ranges; inverses : list E }.

Section plan.
Context {Err : Type}.

Definition newton_step (inverses : list E) (order : nat) (coefficients : list E) (i : nat)
  : outcome Err (list E) :=
  ci ← index coefficients i;
  cp ← index coefficients (i - 1);
  inv ← index inverses (order - 1);
  store coefficients i ((ci - cp) * inv).
Definition newton_coefficients (plan : ScalarInterpolationPlan) (source : list E) : outcome Err (list E) :=
  foldM (fun coefficients order =>
      foldM (newton_step (inverses plan) order) coefficients (rev (seq order (length source - order))))
    source (seq 1 (length source - 1)).

Definition evaluate (plan : ScalarInterpolationPlan) (coefficients : list E) (idx : nat) : outcome Err E :=
  value ← unwrap (last coefficients);
  foldM (fun value i =>
      next ← index coefficients i;
      mret (fma next value (difference idx ((Ranges.source (ranges plan)).1 + i))))
    value (rev (seq 0 (length coefficients - 1))).

Definition apply_segment (plan : ScalarInterpolationPlan) (coefficients destination : list E) (segment : range)
  : outcome Err (list E) :=
  foldM (fun destination j =>
      e ← evaluate plan coefficients j;
      store destination (j - (Ranges.destination (ranges plan)).1) e)
    destination (range_seq segment).
Definition apply (plan : ScalarInterpolationPlan) (source : list E) : outcome Err (list E) :=
  let destination := replicate (range_len (Ranges.destination (ranges plan))) 0 in
  '(destination, done) ← Ranges.trivial (ranges plan) source destination;
  if done : bool then mret destination
  else
    coefficients ← newton_coefficients plan source;
    foldM (apply_segment plan coefficients) destination (Ranges.outside (ranges plan)).

(** The factory is its [limit]. *)
Definition can_interpolate (limit : nat) (source destination : range) : bool :=
  Ranges.valid source destination limit.
Definition make_range (limit : nat) (source destination : range) : outcome Err ScalarInterpolationPlan :=
  rust_assert (can_interpolate limit source destination) ;;
  let ranges := {| Ranges.source := source; Ranges.destination := destination |} in
  let differences :=
    if Ranges.needs_work ranges
    then map u64_to_element (seq 1 (range_len source - 1)) else [] in
  inverses ← batch_inverse differences;
  mret {| ranges := ranges; inverses := inverses |}.
Definition point (limit : nat) (idx : nat) : outcome Err E :=
  rust_assert (Nat.ltb idx limit) ;;
  mret (u64_to_element idx).
End plan.
End scalar.
Arguments ScalarInterpolationPlan : clear implicits.
End scalar.

(** ** The scalar interpolation backend computes the interpolating polynomial

    [ScalarInterpolatorFactory] over a field in which the integers below
    [limit] are invertible: its plans satisfy what [RangeInterpolatorFactory]
    promises. *)
(** ** [copy_overlap] and [outside] on tables *)
Lemma take_tab {A} (g : nat -> A) n k : k <= n -> take k (tab g n) = tab g k.
Proof.
  intros Hk. apply list_eq. intros i. destruct (decide (i < k)).
  - rewrite lookup_take_lt by done. by rewrite !lookup_tab by lia.
  - rewrite lookup_take_ge by lia. by rewrite lookup_tab_ge by lia.
Qed.
Lemma drop_tab {A} (g : nat -> A) n k : drop k (tab g n) = tab (fun i => g (k + i)%nat) (n - k).
Proof.
  apply list_eq. intros i. rewrite lookup_drop. destruct (decide (i < n - k)).
  - by rewrite !lookup_tab by lia.
  - by rewrite !lookup_tab_ge by lia.
Qed.
Lemma tab_app {A} (g h : nat -> A) n m :
  tab g n ++ tab h m = tab (fun i => if Nat.ltb i n then g i else h (i - n)%nat) (n + m).
Proof.
  apply list_eq. intros i. destruct (decide (i < n)).
  - rewrite lookup_app_l by (by rewrite length_tab). rewrite !lookup_tab by lia.
    by rewrite (proj2 (Nat.ltb_lt _ _)).
  - rewrite lookup_app_r by (rewrite length_tab; lia). rewrite length_tab.
    destruct (decide (i < n + m)).
    + rewrite !lookup_tab by lia. by rewrite (proj2 (Nat.ltb_ge _ _)) by lia.
    + by rewrite !lookup_tab_ge by lia.
Qed.

Lemma replicate_tab {A} (a : A) n : replicate n a = tab (fun _ => a) n.
Proof.
  apply list_eq. intros i. destruct (decide (i < n)).
  - rewrite lookup_tab by done. by apply lookup_replicate_2.
  - rewrite lookup_tab_ge by lia. apply lookup_ge_None. rewrite length_replicate. lia.
Qed.

Lemma copy_overlap_tab {E} (src dst : nat * nat) (s d : nat -> E) :
  Ranges.copy_overlap {| Ranges.source := src; Ranges.destination := dst |}
    (tab (fun i => s (src.1 + i)%nat) (range_len src)) (tab d (range_len dst))
  = tab (fun i => if Nat.leb src.1 (dst.1 + i) && Nat.ltb (dst.1 + i) src.2 then s (dst.1 + i)%nat else d i)
      (range_len dst).
Proof.
  unfold Ranges.copy_overlap, range_len. cbn [Ranges.source Ranges.destination].
  destruct (Nat.ltb_spec (Nat.max src.1 dst.1) (Nat.min src.2 dst.2)) as [Hlt|Hge].
  - rewrite take_tab by lia. rewrite !drop_tab, take_tab by lia. rewrite !tab_app.
    match goal with |- tab _ ?m = tab _ ?n => replace m with n by lia end.
    apply tab_ext. intros i Hi.
    destruct (Nat.ltb_spec i (Nat.max src.1 dst.1 - dst.1)).
    + replace (_ && _) with false; [done|]. symmetry. apply andb_false_iff.
      destruct (Nat.leb_spec src.1 (dst.1 + i)); [right; apply Nat.ltb_ge; lia|by left].
    + destruct (Nat.ltb_spec (i - (Nat.max src.1 dst.1 - dst.1)) (Nat.min src.2 dst.2 - Nat.max src.1 dst.1)).
      * rewrite (proj2 (Nat.leb_le _ _)), (proj2 (Nat.ltb_lt _ _)) by lia. cbn. f_equal. lia.
      * replace (Nat.ltb (dst.1 + i) src.2) with false by (symmetry; apply Nat.ltb_ge; lia).
        rewrite andb_false_r. f_equal. lia.
  - apply tab_ext. intros i Hi. replace (_ && _) with false; [done|]. symmetry. apply andb_false_iff.
    destruct (Nat.leb_spec src.1 (dst.1 + i)); [right; apply Nat.ltb_ge; lia|by left].
Qed.

(** The error type of an inversion that succeeds does not matter. *)
Lemma batch_inverse_any {E} `{AlgebraicField E} {Err Err'} (vs rs : list E) :
  batch_inverse (Err:=Err) vs = Ok rs -> batch_inverse (Err:=Err') vs = Ok rs.
Proof.
  unfold batch_inverse. intros Hr. apply bind_Ok_inv in Hr as ([ps prod] & Hp & Hr).
  erewrite (foldM_any _ (batch_prefix (Err:=Err'))); [| |exact Hp].
  2:{ intros [? ?] x r Hx. unfold batch_prefix in *. apply bind_Ok_inv in Hx as ([] & Ha & Hx).
      apply rust_assert_Ok in Ha. rewrite Ha. apply Ok_inj in Hx as <-. done. }
  rewrite bind_Ok. cbn beta iota in *. destruct vs as [|v vs]; [by apply Ok_inj in Hr as <-|].
  apply bind_Ok_inv in Hr as (i & Hi & Hr). apply unwrap_Ok in Hi. rewrite Hi. cbn [unwrap]. rewrite bind_Ok.
  set (l := rev _) in *. clearbody l.
  destruct (foldM (batch_suffix (Err:=Err) (v :: vs)) (ps, i) l) as [[r z]| |] eqn:Hf; [|done..].
  apply Ok_inj in Hr as <-. erewrite (foldM_any _ (batch_suffix (Err:=Err') (v :: vs))); [| |exact Hf]; [done|].
  intros [? ?] x r' Hx. unfold batch_suffix in *.
  apply bind_Ok_inv in Hx as (a & Ha & Hx). apply bind_Ok_inv in Hx as (b & Hb & Hx). apply bind_Ok_inv in Hx as (c & Hc & Hx).
  rewrite (index_any _ _ _ Ha), bind_Ok, (store_any _ _ _ _ Hb), bind_Ok, (index_any _ _ _ Hc), bind_Ok.
  by apply Ok_inj in Hx as <-.
Qed.

Section scalar.
Context {E : Type} `{AlgebraicFieldLaws E} `{!SupportsU64Conversions E} `{!U64ConversionsLaws E}.
Add Ring field_ring_scalar : (field_ring (E:=E)).

Abbreviation u := (u64_to_element (E:=E)).

Lemma u64_add a b : u (a + b) = u a + u b.
Proof.
  induction b as [|b IH]; [rewrite Nat.add_0_r, u64_to_element_0; ring|].
  rewrite Nat.add_succ_r, !u64_to_element_S, IH. ring.
Qed.
Lemma u64_sub a b : b <= a -> u (a - b) = u a - u b.
Proof. intros Hb. replace a with (b + (a - b))%nat at 2 by lia. rewrite u64_add. ring. Qed.
Lemma difference_spec a b : difference a b = u a - u b.
Proof.
  unfold difference. destruct (Nat.leb_spec b a); rewrite u64_sub by lia; ring.
Qed.

Lemma fill_tab {A B} (xs : list A) (b : B) : map (fun _ => b) xs = tab (fun _ => b) (length xs).
Proof.
  apply list_eq. intros i. rewrite list_lookup_fmap. destruct (decide (i < length xs)) as [Hi|].
  - destruct (lookup_lt_is_Some_2 xs i Hi) as [x ->]. by rewrite lookup_tab.
  - rewrite (lookup_ge_None_2 xs) by lia. by rewrite lookup_tab_ge by lia.
Qed.

Lemma trivial_ok {Err} src dst f :
  src.1 < src.2 -> dst.1 <= dst.2 -> is_poly (range_len src) f ->
  exists g done,
    Ranges.trivial {| Ranges.source := src; Ranges.destination := dst |}
      (tab (fun i => f (u (src.1 + i))) (range_len src)) (tab (fun _ => 0) (range_len dst))
    = @Ok Err _ (tab g (range_len dst), done) /\
    (forall i, i < range_len dst -> src.1 <= dst.1 + i < src.2 -> g i = f (u (dst.1 + i))) /\
    (done = true -> forall i, i < range_len dst -> g i = f (u (dst.1 + i))) /\
    (done = false -> Ranges.needs_work {| Ranges.source := src; Ranges.destination := dst |} = true).
Proof.
  intros Hsrc Hdst Hf. unfold Ranges.trivial. cbn [Ranges.source Ranges.destination].
  rewrite length_tab, Nat.eqb_refl. cbn [rust_assert]. mstep.
  destruct (range_len dst) as [|nd] eqn:Hnd.
  { exists (fun _ => 0), true. split; [done|]. split; [lia|]. split; [lia|done]. }
  destruct (tab (fun _ => 0) (S nd)) as [|d0 dd] eqn:Hd; [done|]. rewrite <- Hd. clear d0 dd Hd.
  destruct (Nat.eqb_spec (range_len src) 1) as [H1|H1].
  - rewrite index_tab by lia. rewrite bind_Ok, fill_tab, length_tab. eexists _, true. split; [reflexivity|].
    assert (forall x y, f x = f y) as Hcst.
    { rewrite H1 in Hf. destruct Hf as ([|c [|]] & Hc & Hf); try done. intros x y. rewrite !Hf. cbn. ring. }
    split; [|split; [|done]]; intros; apply Hcst.
  - rewrite <- Hnd. rewrite (copy_overlap_tab src dst (fun i => f (u i)) (fun _ => 0)).
    eexists _, _. split; [reflexivity|]. split; [|split].
    + intros i Hi Hr. by rewrite (proj2 (Nat.leb_le _ _)), (proj2 (Nat.ltb_lt _ _)) by lia.
    + intros [Ha%Nat.leb_le Hb%Nat.leb_le]%andb_true_iff i Hi. unfold range_len in Hi.
      by rewrite (proj2 (Nat.leb_le _ _)), (proj2 (Nat.ltb_lt _ _)) by lia.
    + intros Hn. unfold Ranges.needs_work, Ranges.outside, Ranges.range_is_empty.
      cbn [Ranges.source Ranges.destination fst snd].
      unfold range_len in *. rewrite (proj2 (Nat.ltb_lt 1 _)) by lia. cbn [andb].
      apply andb_false_iff in Hn as [Hn%Nat.leb_gt|Hn%Nat.leb_gt];
      repeat match goal with |- context [Nat.ltb ?a ?b] => destruct (Nat.ltb_spec a b) end; cbn; first [done|lia].
Qed.

(** ** A plan in use *)
Section plan.
Context (src dst : nat * nat) (inv : list E).
Definition inverses_ok : Prop :=
  forall i, 1 <= i < range_len src -> exists r, inv !! (i - 1)%nat = Some r /\ u i * r = 1.
Context (inv_ok : Ranges.needs_work {| Ranges.source := src; Ranges.destination := dst |} = true -> inverses_ok).

(** The plan's points, from the start of the source, and its inverses. *)
#[local] Instance plan_field : InterpolationField E := {|
  poly_evaluation_point k := Some (u k);
  newton_denominator k i := inv !! (i - 1)%nat
|}.
Lemma plan_field_laws : inverses_ok -> InterpolationFieldLaws E (range_len src).
Proof.
  clear inv_ok. intros inv_ok. split; cbn [poly_evaluation_point newton_denominator plan_field].
  - intros _. by rewrite u64_to_element_0.
  - intros _. rewrite u64_to_element_S, u64_to_element_0. f_equal. ring.
  - intros k _. by eexists.
  - intros k i a b Hi Hk [= <-] [= <-]. destruct (inv_ok i ltac:(lia)) as (r & Hr & Hmul).
    exists r. split; [done|]. rewrite <- Hmul, (u64_sub k i) by lia. ring.
Qed.

Definition the_plan : scalar.ScalarInterpolationPlan E :=
  {| scalar.ranges := {| Ranges.source := src; Ranges.destination := dst |}; scalar.inverses := inv |}.

Context {Err : Type}.

Lemma newton_step_eq order cs i : 1 <= i ->
  scalar.newton_step (Err:=Err) inv order cs i = Poly.newton_step order cs i.
Proof.
  intros Hi. unfold scalar.newton_step, Poly.newton_step. cbn [newton_denominator plan_field].
  unfold index, unwrap. destruct (cs !! i), (cs !! (i - 1)%nat), (inv !! (order - 1)%nat); reflexivity.
Qed.
Lemma newton_coefficients_eq source :
  scalar.newton_coefficients (Err:=Err) the_plan source = Poly.newton_of_lagrange source.
Proof.
  unfold scalar.newton_coefficients, Poly.newton_of_lagrange.
  assert (forall orders cs, Forall (fun o => 1 <= o) orders ->
    foldM (fun cs order => foldM (scalar.newton_step (Err:=Err) inv order) cs (rev (seq order (length source - order)))) cs orders
    = foldM (Poly.newton_pass (length source)) cs orders) as Hg.
  { induction orders as [|o orders IH]; intros cs Ho; [done|]. apply Forall_cons in Ho as [H1 H2].
    cbn [foldM].
    change (Poly.newton_pass (length source) cs o)
      with (foldM (Poly.newton_step (Err:=Err) o) cs (rev (seq o (length source - o)))).
    assert (forall ks cs, Forall (fun i => 1 <= i) ks ->
      foldM (scalar.newton_step (Err:=Err) inv o) cs ks = foldM (Poly.newton_step o) cs ks) as Hi.
    { induction ks as [|i ks IHi]; intros cs' Hc; [done|]. apply Forall_cons in Hc as [H3 H4].
      cbn [foldM]. rewrite newton_step_eq by done. destruct (Poly.newton_step o cs' i); cbn; [by apply IHi|done..]. }
    rewrite Hi. { destruct (foldM _ cs _); cbn; [by apply IH|done..]. }
    apply Forall_rev, Forall_seq. intros. lia. }
  apply Hg, Forall_seq. intros. lia.
Qed.
Lemma evaluate_eq cs idx : cs <> [] ->
  scalar.evaluate (Err:=Err) the_plan cs idx = Poly.eval_newton cs (u idx - u src.1).
Proof.
  intros Hcs. unfold scalar.evaluate, Poly.eval_newton, Poly.horner.
  destruct (last cs) as [e|] eqn:Hl; [|by apply last_None in Hl].
  assert (0 < length cs) by (destruct cs; cbn; [done|lia]).
  rewrite (proj2 (Nat.ltb_lt _ _)) by done. cbn [rust_assert unwrap]. mstep.
  rewrite last_lookup in Hl. unfold index at 2.
  replace (length cs - 1)%nat with (Nat.pred (length cs)) by lia. rewrite Hl. mstep.
  apply foldM_ext. intros v i. unfold Poly.newton_eval_step. cbn [poly_evaluation_point plan_field unwrap]. mstep.
  unfold index. destruct (cs !! i); [|done]. mstep. unfold fma. rewrite difference_spec.
  cbn [scalar.ranges Ranges.source the_plan]. rewrite u64_add. unfold mret, outcome_ret. f_equal. ring.
Qed.

(** The Newton coefficients of a polynomial's samples evaluate it. *)
Lemma plan_coefficients f :
  inverses_ok -> 0 < range_len src -> is_poly (range_len src) f ->
  exists cs, scalar.newton_coefficients (Err:=Err) the_plan (tab (fun i => f (u (src.1 + i))) (range_len src)) = Ok cs /\
    forall idx, scalar.evaluate (Err:=Err) the_plan cs idx = Ok (f (u idx)).
Proof.
  intros Hinv Hpos Hf. pose proof (plan_field_laws Hinv) as Hlaws.
  destruct (is_poly_translate _ (u src.1) f Hf) as (cs & Hl & Hc).
  assert (tab (fun i => f (u (src.1 + i))) (range_len src) = tab (fun k => mono cs (pt k)) (length cs)) as Htab.
  { rewrite Hl. apply tab_ext. intros i Hi. unfold pt. cbn [poly_evaluation_point plan_field default].
    rewrite <- Hc. f_equal. unfold id. rewrite u64_add. ring. }
  pose proof (newton_of_lagrange_tab (Err:=Err) (range_len src) (fun k => mono cs (pt k)) (length cs) ltac:(lia)) as Hn.
  eexists. split. { rewrite newton_coefficients_eq, Htab. exact Hn. }
  intros idx. rewrite evaluate_eq.
  - pose proof (eval_lagrange_mono (Err:=Err) (range_len src) cs (u idx - u src.1) ltac:(lia)) as He.
    unfold Poly.eval_lagrange in He. rewrite Hn, bind_Ok in He. rewrite He, <- Hc. do 2 f_equal. ring.
  - intros Hnil. apply (f_equal length) in Hnil. rewrite length_tab in Hnil. cbn in Hnil. lia.
Qed.

Lemma apply_segment_ok cs f g seg :
  (forall idx, scalar.evaluate (Err:=Err) the_plan cs idx = Ok (f idx)) ->
  dst.1 <= seg.1 -> seg.2 <= dst.2 ->
  scalar.apply_segment (Err:=Err) the_plan cs (tab g (range_len dst)) seg
  = Ok (tab (fun i => if Nat.leb seg.1 (dst.1 + i) && Nat.ltb (dst.1 + i) seg.2 then f (dst.1 + i)%nat else g i)
      (range_len dst)).
Proof.
  intros Hev H1 H2. unfold scalar.apply_segment, range_seq, range_len in *. cbn [scalar.ranges Ranges.destination the_plan].
  enough (forall m a h, dst.1 <= a -> (a + m <= dst.2)%nat ->
    foldM (fun destination j => e ← scalar.evaluate the_plan cs j; store destination (j - dst.1) e)
      (tab h (dst.2 - dst.1)) (seq a m)
    = @Ok Err _ (tab (fun i => if Nat.leb a (dst.1 + i) && Nat.ltb (dst.1 + i) (a + m) then f (dst.1 + i)%nat else h i)
        (dst.2 - dst.1))) as Hg.
  { destruct (decide (seg.1 <= seg.2)).
    - rewrite Hg by lia. by replace (seg.1 + (seg.2 - seg.1))%nat with seg.2 by lia.
    - replace (seg.2 - seg.1)%nat with 0%nat by lia. cbn [seq foldM]. f_equal. apply tab_ext. intros i Hi.
      replace (_ && _) with false; [done|]. symmetry. apply andb_false_iff.
      destruct (Nat.leb_spec seg.1 (dst.1 + i)); [right; apply Nat.ltb_ge; lia|by left]. }
  induction m as [|m IH]; intros a h Ha Hm; cbn [seq foldM].
  - f_equal. apply tab_ext. intros i Hi. rewrite Nat.add_0_r.
    destruct (Nat.leb_spec a (dst.1 + i)), (Nat.ltb_spec (dst.1 + i) a); try lia; done.
  - rewrite Hev. mstep. rewrite store_tab by lia. mstep. rewrite IH by lia. f_equal. apply tab_ext. intros i Hi.
    destruct (Nat.eqb_spec i (a - dst.1)) as [->|].
    + replace (dst.1 + (a - dst.1))%nat with a by lia.
      destruct (Nat.leb_spec (S a) a); [lia|]. cbn. rewrite Nat.leb_refl, (proj2 (Nat.ltb_lt _ _)) by lia. done.
    + destruct (Nat.leb_spec (S a) (dst.1 + i)), (Nat.ltb_spec (dst.1 + i) (S a + m)),
        (Nat.leb_spec a (dst.1 + i)), (Nat.ltb_spec (dst.1 + i) (a + S m)); cbn; try done; lia.
Qed.

Lemma apply_ok f :
  src.1 < src.2 -> dst.1 <= dst.2 -> is_poly (range_len src) f ->
  scalar.apply (Err:=Err) the_plan (tab (fun i => f (u (src.1 + i))) (range_len src))
  = Ok (tab (fun i => f (u (dst.1 + i))) (range_len dst)).
Proof.
  intros Hsrc Hdst Hf. assert (0 < range_len src) as Hpos by (unfold range_len; lia).
  unfold scalar.apply. cbn [scalar.ranges the_plan Ranges.destination]. rewrite replicate_tab.
  destruct (trivial_ok (Err:=Err) src dst f Hsrc Hdst Hf) as (g & done & -> & Hover & Hdone & Hwork). mstep.
  destruct done; [apply (f_equal Ok), tab_ext; auto|]. pose proof (inv_ok (Hwork eq_refl)) as Hinv.
  destruct (plan_coefficients f Hinv Hpos Hf) as (cs & Hcs & Hev). rewrite Hcs, bind_Ok.
  unfold Ranges.outside, Ranges.range_is_empty; cbn [Ranges.source Ranges.destination fst snd].
  repeat match goal with |- context [Nat.ltb ?a ?b] => destruct (Nat.ltb_spec a b) end; cbn [negb app foldM].
  all: repeat (rewrite (apply_segment_ok cs (fun i => f (u i))) by (cbn [fst snd]; first [exact Hev|lia]); mstep; cbn [fst snd]).
  all: apply (f_equal Ok), tab_ext; intros i Hi; specialize (Hover i Hi); unfold range_len in *;
    repeat match goal with
    | |- context [Nat.leb ?a ?b] => destruct (Nat.leb_spec a b)
    | |- context [Nat.ltb ?a ?b] => destruct (Nat.ltb_spec a b) end; cbn; first [done|lia|apply Hover; lia].
Qed.
End plan.

(** ** The factory *)
Section factory.
Context (limit : nat) (invertible : forall n, 0 < n < limit -> u n <> 0).

Lemma make_range_ok {Err} src dst :
  scalar.can_interpolate limit src dst = true ->
  exists inv, scalar.make_range (Err:=Err) limit src dst = Ok (the_plan src dst inv) /\
    (Ranges.needs_work {| Ranges.source := src; Ranges.destination := dst |} = true ->
     inverses_ok src inv).
Proof.
  intros Hc. unfold scalar.make_range. rewrite Hc. cbn [rust_assert]. mstep.
  unfold scalar.can_interpolate, Ranges.valid in Hc.
  apply andb_true_iff in Hc as [[[H1%Nat.ltb_lt H2%Nat.leb_le]%andb_true_iff _]%andb_true_iff _].
  destruct (Ranges.needs_work _); [|exists []; by split].
  set (ds := map u (seq 1 (range_len src - 1))).
  assert (Forall (fun v => v <> 0) ds) as Hds.
  { apply Forall_forall. intros v Hv. apply list_elem_of_In, in_map_iff in Hv as (k & <- & Hk).
    apply in_seq in Hk. unfold range_len in Hk. apply invertible. lia. }
  destruct (batch_inverse_spec (Err:=Err) ds Hds) as (rs & -> & Hf). mstep. exists rs. split; [done|].
  intros _ i Hi. assert (ds !! (i - 1)%nat = Some (u i)) as Hd.
  { subst ds. rewrite list_lookup_fmap, lookup_seq_lt by lia. cbn. do 2 f_equal. lia. }
  destruct (Forall2_lookup_l _ _ _ _ _ Hf Hd) as (r & Hr & Hmul). by exists r.
Qed.


Lemma range_points (r : nat * nat) (f : E -> E) :
  map (fun i => f (u i)) (range_seq r) = tab (fun i => f (u (r.1 + i))) (range_len r).
Proof.
  unfold tab, range_seq. replace (seq r.1 (range_len r)) with (map (Nat.add r.1) (seq 0 (range_len r))).
  - by rewrite map_map.
  - etransitivity; [exact (fmap_add_seq r.1 0 (range_len r))|]. by rewrite Nat.add_0_r.
Qed.

Lemma scalar_plan_ok src dst :
  scalar.can_interpolate limit src dst = true ->
  exists plan, (forall Err, scalar.make_range (Err:=Err) limit src dst = Ok plan) /\
    forall Err f, is_poly (range_len src) f ->
      scalar.apply (Err:=Err) plan (map (fun i => f (u i)) (range_seq src))
      = Ok (map (fun i => f (u i)) (range_seq dst)).
Proof.
  intros Hc. destruct (make_range_ok (Err:=Empty_set) src dst Hc) as (inv & Hm & Hinv).
  exists (the_plan src dst inv). split.
  - intros Err. unfold scalar.make_range in *. destruct (rust_assert (E:=Empty_set) _) as [[]| |] eqn:Ha; try done.
    apply rust_assert_Ok in Ha. rewrite Ha. cbn [rust_assert]. rewrite bind_Ok in Hm. rewrite bind_Ok.
    cbv zeta in *. apply bind_Ok_inv in Hm as (rs & Hb & Hm). apply Ok_inj in Hm. injection Hm as <-.
    by rewrite (batch_inverse_any _ _ Hb), bind_Ok.
  - intros Err f Hf. rewrite !range_points. unfold scalar.can_interpolate, Ranges.valid in Hc.
    apply andb_true_iff in Hc as [[[H1%Nat.ltb_lt _]%andb_true_iff H3%Nat.leb_le]%andb_true_iff _].
    by apply apply_ok.
Qed.
End factory.
End scalar.
