(* ===== verification/AlgebraTheorems.v ===== *)
(** * Theorems about the fields and the interpolation routines

    The field GF(2^128), powers, batch inversion, polynomial interpolation at
    the fixed points and range interpolation by the scalar backend, each with
    a concrete instance. *)
From stdpp Require Import prelude strings.
From Stdlib Require Import Lia NArith Ring Ring_theory.
From S2P Require Import Prelude Words Interfaces Gf2_128 Field FieldFacts Interpolation Gf2_128Facts RangeInterpolation.

(** ** GF(2^128) *)

(** C34: the 128-bit reference arithmetic is the field GF(2)[x]/(x^128 + x^7 +
    x^2 + x + 1): addition and the 128-step shift-and-reduce product satisfy
    the ring laws, 0 and 1 differ, and the inversion (which panics exactly on
    zero) returns the inverse of every other element. *)
Theorem gf2_128_is_a_field {Err} :
  ring_theory gf_zero gf_one gf_add gf_mul gf_sub gf_neg (@eq Gf2_128) /\
  gf_one <> gf_zero /\
  forall a, (a = gf_zero -> gf_invert (E:=Err) a = Panic) /\
    (a <> gf_zero -> exists i, gf_invert (E:=Err) a = Ok i /\ gf_mul a i = gf_one).
Proof.
  split; [apply gf_ring_neg|]. split; [apply gf_one_neq_zero|]. intros a. split.
  - intros ->. unfold gf_invert. rewrite bool_decide_true; reflexivity.
  - apply gf_invert_spec.
Qed.
Lemma gf2_128_is_a_field_witness :
  exists i, gf_invert (E:=unit) (gf 0x87) = Ok i /\ gf_mul (gf 0x87) i = gf_one.
Proof.
  apply (proj2 (proj2 (proj2 (gf2_128_is_a_field (Err:=unit))) (gf 0x87))).
  intros Hz. apply (f_equal gf_val) in Hz. vm_compute in Hz. discriminate Hz.
Defined.

Section field.
Context {E : Type} `{AlgebraicFieldLaws E}.
Local Open Scope fe_scope.

(** [pow] is repeated multiplication for every 64-bit exponent: its 64
    squarings are enough and no bit of the exponent is lost. *)
Theorem pow_is_power (value : E) (exponent : N) :
  (exponent < 2 ^ 64)%N -> pow value exponent = fpow value (N.to_nat exponent).
Proof.
  pose proof (field_ring (E:=E)) as R. intros He. unfold pow. rewrite pow_loop_spec by exact He.
  apply (Rmul_1_l R).
Qed.

Lemma batch_prefix_zero {Err} (vs : list E) : forall st,
  0 ∈ vs -> foldM (@batch_prefix E _ Err) st vs = Panic.
Proof.
  induction vs as [|v vs IH]; intros [ps p] Hv; [by apply elem_of_nil in Hv|].
  cbn [foldM batch_prefix]. destruct (is_zero v) eqn:Hz; cbn [negb rust_assert]; [reflexivity|].
  mstep. apply IH. apply elem_of_cons in Hv as [<-|Hv]; [|exact Hv].
  rewrite (proj2 (is_zero_spec (E:=E) 0) eq_refl) in Hz. discriminate Hz.
Qed.

(** [batch_inverse] inverts every element of a list without zeros with one
    field inversion, in order (the empty list included), and panics when some
    element is zero. *)
Theorem batch_inverse_correct {Err} (values : list E) :
  (Forall (fun v => v <> 0) values ->
     exists rs, batch_inverse (Err:=Err) values = Ok rs /\
       Forall2 (fun v r => v * r = 1) values rs) /\
  (0 ∈ values -> batch_inverse (Err:=Err) values = Panic).
Proof.
  split; [apply batch_inverse_spec|]. intros Hz. unfold batch_inverse.
  by rewrite batch_prefix_zero.
Qed.
End field.

Lemma pow_is_power_witness : pow (gf 2) 10 = fpow (gf 2) 10.
Proof. apply (pow_is_power (gf 2) 10). vm_compute. reflexivity. Defined.

Lemma gf_neq0 (v : N) : gf_val (gf v) <> 0%N -> gf v <> gf_zero.
Proof. intros Hv Hz. apply Hv. rewrite Hz. apply gf_val_0. Qed.

Lemma batch_inverse_correct_witness :
  (exists rs, batch_inverse (Err:=unit) [gf 3; gf 5; gf 0x87] = Ok rs /\
     Forall2 (fun v r => fmul v r = fone) [gf 3; gf 5; gf 0x87] rs) /\
  batch_inverse (Err:=unit) [gf 3; fzero] = Panic.
Proof.
  split.
  - apply (proj1 (batch_inverse_correct (Err:=unit) [gf 3; gf 5; gf 0x87])).
    repeat constructor; apply gf_neq0; vm_compute; discriminate.
  - apply (proj2 (batch_inverse_correct (Err:=unit) [gf 3; fzero])).
    apply elem_of_cons. right. apply elem_of_cons. left. reflexivity.
Defined.

(** ** Interpolation *)
Section interpolation.
Context {E : Type} `{AlgebraicFieldLaws E} `{InterpolationField E}.
Context (N0 : nat) `{!InterpolationFieldLaws E N0}.
Local Open Scope fe_scope.
Add Ring field_ring_interpolation_thm : (field_ring (E:=E)).

(** Interpolation is exact.  From the values of a polynomial at the first
    [n] evaluation points (more than its degree, at most as many as the field
    tabulates), [eval_lagrange] returns its value at any point; and the dot
    product of those values with the [LagrangeBasis] coefficients at the
    point is that value too. *)
Theorem interpolation_exact {Err} (cs : list E) (x : E) :
  (0 < length cs <= N0)%nat ->
  let evals := tab (fun k => mono cs (pt k)) (length cs) in
  Poly.eval_lagrange (Err:=Err) evals x = Ok (mono cs x) /\
  exists basis c, LagrangeBasis.new (Err:=Err) (length cs) = Ok basis /\
    LagrangeBasis.coef (Err:=Err) basis x = Ok c /\
    blas.dot (Err:=Err) c evals = Ok (mono cs x).
Proof.
  intros Hcs evals. split; [by apply (eval_lagrange_mono N0)|].
  do 2 eexists. split; [apply (basis_new N0); lia|]. split; [apply (basis_coef N0); lia|].
  rewrite dot_spec by (unfold evals; by rewrite !length_tab). f_equal.
  rewrite <- (weight_spec N0 (length cs) cs x) by lia. unfold evals at 1. rewrite length_tab.
  apply sigma_ext. intros i Hi. apply elem_of_seq in Hi. unfold evals. rewrite !at0_tab by lia. ring.
Qed.
End interpolation.

Lemma interpolation_exact_witness :
  Poly.eval_lagrange (Err:=unit) (tab (fun k => mono [gf 7; gf 0; gf 9] (pt k)) 3) (gf 0x1234)
  = Ok (mono [gf 7; gf 0; gf 9] (gf 0x1234)).
Proof. apply (interpolation_exact 6 [gf 7; gf 0; gf 9] (gf 0x1234)). cbn [length]. lia. Defined.

(** ** Range interpolation *)
Section scalar.
Context {E : Type} `{AF : AlgebraicField E} `{!AlgebraicFieldLaws E} `{!SupportsU64Conversions E} `{!U64ConversionsLaws E}.

(** C37: the scalar backend evaluates the interpolating polynomial.  When the
    positive integers below [limit] are invertible in the field, a plan exists
    for all ranges that [can_interpolate] accepts, whatever their overlap, and
    given the values on the source range of a polynomial of degree less than
    its length it returns the values on the destination range, without
    panic. *)
Theorem scalar_interpolation_exact limit (src dst : nat * nat) :
  (forall n, 0 < n < limit -> u64_to_element n <> fzero :> E) ->
  scalar.can_interpolate limit src dst = true ->
  exists plan, (forall Err, scalar.make_range (E:=E) (Err:=Err) limit src dst = Ok plan) /\
    forall Err f, is_poly (range_len src) f ->
      scalar.apply (Err:=Err) plan (map (fun i => f (u64_to_element i)) (range_seq src))
      = Ok (map (fun i => f (u64_to_element i)) (range_seq dst)).
Proof. intros Hl Hc. by apply (scalar_plan_ok limit). Qed.
End scalar.

(** ** The field of seven elements *)
Inductive F7 := f7_0 | f7_1 | f7_2 | f7_3 | f7_4 | f7_5 | f7_6.
Definition f7_val (a : F7) : nat :=
  match a with f7_0 => 0 | f7_1 => 1 | f7_2 => 2 | f7_3 => 3 | f7_4 => 4 | f7_5 => 5 | f7_6 => 6 end.
Definition f7_succ (a : F7) : F7 :=
  match a with f7_0 => f7_1 | f7_1 => f7_2 | f7_2 => f7_3 | f7_3 => f7_4 | f7_4 => f7_5 | f7_5 => f7_6 | f7_6 => f7_0 end.
Fixpoint f7_of (n : nat) : F7 := match n with O => f7_0 | S n => f7_succ (f7_of n) end.
#[local] Instance F7_eq_dec : EqDecision F7.
Proof. solve_decision. Defined.
#[local] Instance F7_field : AlgebraicField F7 := {|
  fzero := f7_0; fone := f7_1;
  fadd a b := f7_of (f7_val a + f7_val b);
  fsub a b := f7_of (f7_val a + (7 - f7_val b));
  fmul a b := f7_of (f7_val a * f7_val b);
  fneg a := f7_of (7 - f7_val a);
  invert a := match a with
    | f7_0 => None | f7_1 => Some f7_1 | f7_2 => Some f7_4 | f7_3 => Some f7_5
    | f7_4 => Some f7_2 | f7_5 => Some f7_3 | f7_6 => Some f7_6 end;
  is_zero a := bool_decide (a = f7_0)
|}.
#[local] Instance F7_field_laws : AlgebraicFieldLaws F7.
Proof.
  split.
  - split; repeat (intros []); reflexivity.
  - done.
  - intros e. apply bool_decide_eq_true.
  - done.
  - intros [] He; try (by destruct He); eexists; (split; [reflexivity|reflexivity]).
Qed.
#[local] Instance F7_u64 : SupportsU64Conversions F7 := f7_of.
#[local] Instance F7_u64_laws : U64ConversionsLaws F7.
Proof. split; [done|]. intros n. unfold u64_to_element, F7_u64. cbn [f7_of]. by destruct (f7_of n). Qed.

Lemma is_poly_square : is_poly 3 (fun x : F7 => fadd (fmul x x) fone).
Proof. exists [f7_1; f7_0; f7_1]. split; [done|]. intros []; reflexivity. Qed.

(** [x^2 + 1] from the points 1, 2, 3 to the points 0 to 5. *)
Lemma scalar_interpolation_exact_witness :
  exists plan, scalar.make_range (E:=F7) (Err:=unit) 7 (1, 4) (0, 6) = Ok plan /\
    scalar.apply (Err:=unit) plan [f7_2; f7_5; f7_3] = Ok [f7_1; f7_2; f7_5; f7_3; f7_3; f7_5].
Proof.
  destruct (scalar_interpolation_exact (E:=F7) 7 (1, 4) (0, 6)) as (plan & Hm & Ha).
  - intros n Hn Hz. do 7 (destruct n as [|n]; [try discriminate Hz; lia|]). lia.
  - reflexivity.
  - exists plan. split; [exact (Hm unit)|]. exact (Ha unit _ is_poly_square).
Defined.
