(* ===== verification/Ligero.v ===== *)
(** * Ligero

    The argument of [src/rust/runtime/ligero/src]: the row layout ([param.rs],
    [geometry.rs]), the transcript format ([transcript.rs]), the batching of
    the constraints ([common.rs]), the prover's tableau and responses
    ([tableau.rs], [prover.rs]) and the verifier ([verifier.rs]).  One module
    per Rust module.

    A [usize] is a natural number: [try_new] bounds the block sizes by [2^28].
    The [debug_assert!]s of [prover.rs] are not part of a release build and
    not modelled. *)
From stdpp Require Import prelude strings.
From Stdlib Require Import Lia NArith.
From S2P Require Import Prelude Words Interfaces Merkle Field Transcript SumcheckV1 RangeInterpolation.

Local Open Scope fe_scope.

(** ** [param.rs] *)
Record LigeroConfig := { cfg_rateinv : nat; cfg_nreq : nat; cfg_block_enc : nat }.

(** [LigeroGeometry] ([src/rust/runtime/proto/src/ligero.rs]) *)
Record LigeroGeometry := {
  g_block : nat;
  g_dblock : nat;
  g_r : nat;
  g_block_enc : nat;
  g_nrow : nat;
  g_nreq : nat;
  g_mc_pathlen : nat
}.

Record LigeroParam := {
  geom : LigeroGeometry;
  p_nw : nat;
  p_nq : nat;
  p_w : nat;
  nwrow : nat;
  nqtriples : nat;
  nwqrow : nat;
  ildt : nat;
  idot : nat;
  iquad : nat;
  iw : nat;
  iq : nat
}.

(** [LigeroParam] dereferences to its geometry. *)
Definition block (p : LigeroParam) : nat := g_block (geom p).
Definition dblock (p : LigeroParam) : nat := g_dblock (geom p).
Definition p_r (p : LigeroParam) : nat := g_r (geom p).
Definition block_enc (p : LigeroParam) : nat := g_block_enc (geom p).
Definition nrow (p : LigeroParam) : nat := g_nrow (geom p).
Definition nreq (p : LigeroParam) : nat := g_nreq (geom p).
Definition mc_pathlen (p : LigeroParam) : nat := g_mc_pathlen (geom p).

(** [a.div_ceil(b)] for [b > 0]. *)
Definition div_ceil (a b : nat) : nat := ((a + b - 1) / b)%nat.

Record LigeroLinearConstraint (E : Type) := { lc_c : nat; lc_w : nat; lc_k : E }.
Arguments lc_c {_} _. Arguments lc_w {_} _. Arguments lc_k {_} _.
Arguments Build_LigeroLinearConstraint {_} _ _ _.
Record LigeroQuadraticConstraint := { qc_x : nat; qc_y : nat; qc_z : nat }.

Module param.
Section param.
Context {E : Type} `{Subfield E} `{!RangeInterpolatorFactory E}.

(** [1 << 28] *)
Definition max_size : N := 2 ^ 28.

(** The row layout of a block of [block] samples. *)
Definition layout_of (nw nq : nat) (config : LigeroConfig) (block : nat) : LigeroParam :=
  let w := (block - cfg_nreq config)%nat in
  let dblock := (2 * block - 1)%nat in
  let nwrow := div_ceil nw w in
  let nqtriples := div_ceil nq w in
  let iw := 3%nat in
  let iq := (iw + nwrow)%nat in
  let nwqrow := (nwrow + 3 * nqtriples)%nat in
  let nrow := (iw + nwqrow)%nat in
  {| geom := {| g_block := block; g_dblock := dblock; g_r := cfg_nreq config;
                g_block_enc := cfg_block_enc config; g_nrow := nrow; g_nreq := cfg_nreq config;
                g_mc_pathlen := merkle_heap_len (cfg_block_enc config - dblock) |};
     p_nw := nw; p_nq := nq; p_w := w; nwrow := nwrow; nqtriples := nqtriples; nwqrow := nwqrow;
     ildt := 0; idot := 1; iquad := 2; iw := iw; iq := iq |}.

Definition try_new (nw nq : nat) (config : LigeroConfig) : option LigeroParam :=
  if N.ltb max_size (N.of_nat (cfg_block_enc config)) || N.ltb max_size (N.of_nat (cfg_rateinv config))
     || Nat.ltb (cfg_block_enc config + 1) (2 + cfg_rateinv config)
  then None
  else
    let block := ((cfg_block_enc config + 1) / (2 + cfg_rateinv config))%nat in
    if negb (can_interpolate (0, block)%nat (block, cfg_block_enc config)) then None
    else if Nat.ltb block (cfg_nreq config) then None
    else
      let w := (block - cfg_nreq config)%nat in
      if Nat.ltb w (cfg_nreq config) then None
      else
        let dblock := (2 * block - 1)%nat in
        if Nat.ltb (cfg_block_enc config) dblock
           || Nat.ltb (cfg_block_enc config - dblock) (cfg_nreq config) then None
        else if negb (can_interpolate (0, dblock)%nat (dblock, cfg_block_enc config))
             || negb (can_interpolate (0, block)%nat (block, dblock))
             || negb (can_interpolate (0, block)%nat (dblock, cfg_block_enc config)) then None
        else Some (layout_of nw nq config block).

Definition sanity {Err} (p : LigeroParam) : outcome Err unit :=
  rust_assert (Nat.leb (nreq p) (block p)) ;;
  rust_assert (Nat.eqb (p_w p) (block p - nreq p)) ;;
  rust_assert (Nat.eqb (dblock p) (2 * block p - 1)) ;;
  rust_assert (Nat.leb (dblock p) (block_enc p)) ;;
  rust_assert (Nat.eqb (iw p) 3) ;;
  rust_assert (Nat.eqb (iq p) (iw p + nwrow p)) ;;
  rust_assert (Nat.eqb (nwqrow p) (nwrow p + 3 * nqtriples p)) ;;
  rust_assert (Nat.eqb (nrow p) (iw p + nwqrow p)) ;;
  rust_assert (Nat.eqb (mc_pathlen p) (merkle_heap_len (block_enc p - dblock p))).

Definition new {Err} (nw nq : nat) (config : LigeroConfig) : outcome Err LigeroParam :=
  param ← unwrap (try_new nw nq config);
  sanity param ;;
  mret param.
End param.
End param.

(** ** [geometry.rs] *)
Module geometry.
Section geometry.
Context {E : Type} `{Subfield E} `{!RangeInterpolatorFactory E}.
Local Open Scope N_scope.

Definition NONCE_LEN : N := 32.
Definition usize_max : N := 2 ^ 64 - 1.

(** [1_usize.checked_shl(level).unwrap_or(usize::MAX)] *)
Definition level_width (level : nat) : N :=
  if Nat.ltb level 64 then 2 ^ N.of_nat level else usize_max.
Definition merkle_path_length_digests (h : nat) (nreq : N) : N :=
  foldl (fun total level =>
      let unqueried := level_width level - nreq in
      total + N.min nreq unqueried) 0 (seq 1 (h - 1)).

Definition estimate_proof_size (nw nq : nat) (config : LigeroConfig) (k_bytes k_subfield_bytes : N)
  : option N :=
  p ← param.try_new nw nq config;
  let n := N.of_nat in
  let digest_len := n DIGEST_LEN in
  let sz := digest_len in
  let sz := sz + merkle_path_length_digests (mc_pathlen p) (n (nreq p)) * digest_len in
  let sz := sz + n (block p) * k_bytes in
  let sz := sz + n (dblock p) * k_bytes in
  let sz := sz + n (dblock p - p_w p)%nat * k_bytes in
  let sz := sz + n (nreq p) * NONCE_LEN in
  let sz := sz + n (nwqrow p) * n (nreq p) * k_subfield_bytes in
  let sz := sz + 3 * n (nreq p) * k_bytes in
  Some sz.

(** One candidate of the search; the state is the smallest size and its
    [block_enc]. *)
Definition optimize_step (nw nq rateinv nreq : nat) (k_bytes k_subfield_bytes : N)
    (best : N * nat) (e : nat) : N * nat :=
  let '(min_proof_size, best_block_enc) := best in
  let config := {| cfg_rateinv := rateinv; cfg_nreq := nreq; cfg_block_enc := e |} in
  match estimate_proof_size nw nq config k_bytes k_subfield_bytes with
  | Some proof_size =>
      if proof_size <? min_proof_size then (proof_size, e) else (min_proof_size, best_block_enc)
  | None => (min_proof_size, best_block_enc)
  end.
(** [for e in 100..=8192] *)
Definition block_enc_candidates : list nat := seq 100 (Z.to_nat (8192 - 100 + 1)).
Definition optimize_geometry (nw nq rateinv nreq : nat) (k_bytes k_subfield_bytes : N) : nat :=
  (foldl (optimize_step nw nq rateinv nreq k_bytes k_subfield_bytes)
     (usize_max, 0%nat) block_enc_candidates).2.
End geometry.
End geometry.

(** ** [transcript.rs] *)
Module ligero_transcript.
Section ligero_transcript.
Context {E : Type} `{AlgebraicField E} `{SupportsSampling E} `{Sha256} `{Aes256}.

Definition write_commitment (root : Digest) (t : Transcript) : Transcript := write_bytes root t.
Definition write_ligero_statement (hash : Digest) (t : Transcript) : Transcript := write_bytes hash t.
Definition gen_uldt (p : LigeroParam) (t : Transcript) : outcome stuck (list E * Transcript) :=
  elt_field_slice (nwqrow p) t.
Definition gen_alphal (nl : nat) (t : Transcript) : outcome stuck (list E * Transcript) :=
  elt_field_slice nl t.
Definition gen_triple (st : list (E * E * E) * Transcript) (_ : nat)
  : outcome stuck (list (E * E * E) * Transcript) :=
  let '(alpha, t) := st in
  '(a0, t) ← elt_field t;
  '(a1, t) ← elt_field t;
  '(a2, t) ← elt_field t;
  mret (alpha ++ [(a0, a1, a2)], t).
Definition gen_alphaq (p : LigeroParam) (t : Transcript)
  : outcome stuck (list (E * E * E) * Transcript) :=
  foldM gen_triple ([], t) (seq 0 (p_nq p)).
Definition gen_uquad (p : LigeroParam) (t : Transcript) : outcome stuck (list E * Transcript) :=
  elt_field_slice (nqtriples p) t.

(** The fuel bounds each rejection-sampling loop of [choose]. *)
Definition gen_idx (fuel : nat) (p : LigeroParam) (t : Transcript)
  : outcome stuck (list nat * Transcript) :=
  rust_assert (Nat.leb (dblock p) (block_enc p)) ;;
  rust_assert (Nat.leb (nreq p) (block_enc p - dblock p)) ;;
  choose fuel (replicate (nreq p) 0%nat) (block_enc p - dblock p) (nreq p) t.
End ligero_transcript.
End ligero_transcript.

(** ** [common.rs] *)
Module common.
Section common.
Context {E : Type} `{AlgebraicField E} {Err : Type}.

(** [v[i] = g(v[i])] *)
Definition update (v : list E) (i : nat) (g : E -> E) : outcome Err (list E) :=
  e ← index v i;
  store v i (g e).

Definition add_linear_term (nw : nat) (alphal : list E) (a : list E) (term : LigeroLinearConstraint E)
  : outcome Err (list E) :=
  rust_assert (Nat.ltb (lc_w term) nw) ;;
  rust_assert (Nat.ltb (lc_c term) (length alphal)) ;;
  al ← index alphal (lc_c term);
  update a (lc_w term) (fun e => fma e (lc_k term) al).

(** One coordinate of a quadratic constraint: the copy in the product rows
    minus the witness it copies. *)
Definition tie_copy (copy witness : nat) (alpha : E) (a : list E) : outcome Err (list E) :=
  a ← update a copy (fun e => e + alpha);
  update a witness (fun e => e - alpha).
Definition add_quadratic_copies (p : LigeroParam) (lqc : list LigeroQuadraticConstraint)
    (alphaq : list (E * E * E)) (i : nat) (a : list E) (j : nat) : outcome Err (list E) :=
  let nqtriples_w := (nqtriples p * p_w p)%nat in
  let ax_offset := (nwrow p * p_w p)%nat in
  let ay_offset := (ax_offset + nqtriples_w)%nat in
  let az_offset := (ay_offset + nqtriples_w)%nat in
  let iw := (j + i * p_w p)%nat in
  l ← index lqc iw;
  rust_assert (Nat.ltb (qc_x l) (p_nw p)) ;;
  rust_assert (Nat.ltb (qc_y l) (p_nw p)) ;;
  rust_assert (Nat.ltb (qc_z l) (p_nw p)) ;;
  '(a0, a1, a2) ← index alphaq iw;
  a ← tie_copy (ax_offset + iw) (qc_x l) a0 a;
  a ← tie_copy (ay_offset + iw) (qc_y l) a1 a;
  tie_copy (az_offset + iw) (qc_z l) a2 a.

(** [while j < w && j + i * w < nq] *)
Definition add_quadratic_row (p : LigeroParam) (lqc : list LigeroQuadraticConstraint)
    (alphaq : list (E * E * E)) (a : list E) (i : nat) : outcome Err (list E) :=
  foldM (add_quadratic_copies p lqc alphaq i) a (seq 0 (Nat.min (p_w p) (p_nq p - i * p_w p))).

Definition inner_product_vector (p : LigeroParam) (llterm : list (LigeroLinearConstraint E))
    (alphal : list E) (lqc : list LigeroQuadraticConstraint) (alphaq : list (E * E * E))
  : outcome Err (list E) :=
  let a := replicate (nwqrow p * p_w p) 0 in
  a ← foldM (add_linear_term (p_nw p) alphal) a llterm;
  foldM (add_quadratic_row p lqc alphaq) a (seq 0 (nqtriples p)).

Definition layout_aext_into (p : LigeroParam) (i : nat) (a a_ext : list E) : outcome Err (list E) :=
  let a_ext := blas.clear a_ext in
  slice_mut a_ext (p_r p) (p_r p + p_w p) (fun dst =>
    src ← slice a (i * p_w p) ((i + 1) * p_w p);
    clone_from_slice dst src).
End common.
End common.

(** ** [tableau.rs] *)
Record Tableau (T : Type) := { data : list T; width : nat; height : nat }.
Arguments data {_} _. Arguments width {_} _. Arguments height {_} _. Arguments Build_Tableau {_} _ _ _.

Module tableau.
Section tableau.
Context {T : Type} {Err : Type}.

Definition new (height width : nat) (default : T) : Tableau T :=
  {| data := replicate (height * width) default; width := width; height := height |}.

Definition row (t : Tableau T) (r : nat) : outcome Err (list T) :=
  rust_assert (Nat.ltb r (height t)) ;;
  slice (data t) (r * width t) ((r + 1) * width t).

(** A write through [row_mut(r)]. *)
Definition row_mut (t : Tableau T) (r : nat) (body : list T -> outcome Err (list T))
  : outcome Err (Tableau T) :=
  rust_assert (Nat.ltb r (height t)) ;;
  data ← slice_mut (data t) (r * width t) ((r + 1) * width t) body;
  mret {| data := data; width := width t; height := height t |}.

(** [tableau[(r, c)]] and its assignment. *)
Definition get (t : Tableau T) (r c : nat) : outcome Err T :=
  rust_assert (Nat.ltb r (height t) && Nat.ltb c (width t)) ;;
  index (data t) (r * width t + c).
Definition set (t : Tableau T) (r c : nat) (v : T) : outcome Err (Tableau T) :=
  rust_assert (Nat.ltb r (height t) && Nat.ltb c (width t)) ;;
  data ← store (data t) (r * width t + c) v;
  mret {| data := data; width := width t; height := height t |}.
End tableau.
End tableau.

(** ** [LigeroProof] ([src/rust/runtime/proto/src/ligero.rs]) *)
Record LigeroProof (E : Type) := {
  y_ldt : list E;
  y_dot : list E;
  y_quad_0 : list E;
  y_quad_2 : list E;
  req : list E;
  merkle : MerkleProof
}.
Arguments y_ldt {_} _. Arguments y_dot {_} _. Arguments y_quad_0 {_} _. Arguments y_quad_2 {_} _.
Arguments req {_} _. Arguments merkle {_} _. Arguments Build_LigeroProof {_} _ _ _ _ _ _.

(** Sampling from the subfield: [rng.elt_subfield(sf)]. *)
Definition elt_subfield {E} `{Subfield E} {G} `{RandomEngine G} (g : G) : outcome stuck (E * G) :=
  sf_sample G rng_bytes g.

(** ** [prover.rs]: the tableau *)
Module layout.
Section layout.
Context {E : Type} `{AlgebraicField E} `{SerializableField E} `{SupportsSampling E}.
Context `{Subfield E} `{!RangeInterpolatorFactory E} {G : Type} `{RandomEngine G}.

Definition random_cell (i : nat) (st : Tableau E * G) (j : nat) : outcome stuck (Tableau E * G) :=
  let '(t, rng) := st in
  '(e, rng) ← elt_field rng;
  t ← tableau.set t i j e;
  mret (t, rng).
Definition random_row (i n : nat) (t : Tableau E) (rng : G) : outcome stuck (Tableau E * G) :=
  foldM (random_cell i) (t, rng) (seq 0 n).

Definition random_subfield_cell (i : nat) (st : Tableau E * G) (j : nat)
  : outcome stuck (Tableau E * G) :=
  let '(t, rng) := st in
  '(e, rng) ← elt_subfield rng;
  t ← tableau.set t i j e;
  mret (t, rng).
Definition random_subfield_row (i n : nat) (t : Tableau E) (rng : G) : outcome stuck (Tableau E * G) :=
  foldM (random_subfield_cell i) (t, rng) (seq 0 n).

(** [row.split_at_mut(samples)], then the encoding of the first part is
    written over the second. *)
Definition extend_with {Err} (encode : list E -> outcome Err (list E)) (samples : nat) (row : list E)
  : outcome Err (list E) :=
  slice_mut row samples (length row) (fun destination =>
    source ← slice row 0 samples;
    encoded ← encode source;
    clone_from_slice destination encoded).
Definition extend_row {Err} (samples : nat) (encoder : Plan) (row : list E) : outcome Err (list E) :=
  extend_with (apply_plan Err encoder) samples row.

Definition clear_slice {Err} (a b : nat) (row : list E) : outcome Err (list E) :=
  slice_mut row a b (fun s => mret (blas.clear s)).

Definition layout_blinding_rows (p : LigeroParam) (t : Tableau E) (interp_block : Plan) (rng : G)
  : outcome stuck (Tableau E * G) :=
  '(t, rng) ← random_row (ildt p) (block p) t rng;
  t ← tableau.row_mut t (ildt p) (extend_row (block p) interp_block);
  interp_dblock ← make_range _ (0, dblock p)%nat (dblock p, block_enc p);
  '(t, rng) ← random_row (idot p) (dblock p) t rng;
  row ← tableau.row t (idot p);
  s ← slice row (p_r p) (p_r p + p_w p);
  let sum := blas.dot1 s in
  e ← tableau.get t (idot p) (p_r p);
  t ← tableau.set t (idot p) (p_r p) (e - sum);
  t ← tableau.row_mut t (idot p) (extend_row (dblock p) interp_dblock);
  '(t, rng) ← random_row (iquad p) (dblock p) t rng;
  t ← tableau.row_mut t (iquad p) (clear_slice (p_r p) (p_r p + p_w p));
  t ← tableau.row_mut t (iquad p) (extend_row (dblock p) interp_dblock);
  mret (t, rng).

(** The witness cells of one row, zero beyond the last witness. *)
Definition fill_witness {Err} (p : LigeroParam) (witness : list E) (i : nat) (row : list E)
  : outcome Err (list E) :=
  let max_col := Nat.min (p_w p) (p_nw p - i * p_w p) in
  slice_mut row (p_r p) (p_r p + p_w p) (fun row_slice =>
    row_slice ← slice_mut row_slice 0 max_col (fun dst =>
      src ← slice witness (i * p_w p) (i * p_w p + max_col);
      clone_from_slice dst src);
    if Nat.ltb max_col (p_w p) then clear_slice max_col (p_w p) row_slice else mret row_slice).

Definition layout_witness_row (subfield_boundary : nat) (witness : list E) (p : LigeroParam)
    (interp : Plan) (st : Tableau E * G) (i : nat) : outcome stuck (Tableau E * G) :=
  let '(t, rng) := st in
  let subfield_only := Nat.leb ((i + 1) * p_w p) subfield_boundary in
  let row_idx := (i + iw p)%nat in
  '(t, rng) ← (if subfield_only then random_subfield_row row_idx (p_r p) t rng
               else random_row row_idx (p_r p) t rng);
  t ← tableau.row_mut t row_idx (fill_witness p witness i);
  t ← (if subfield_only
       then tableau.row_mut t row_idx (extend_with (apply_subfield stuck interp) (block p))
       else tableau.row_mut t row_idx (extend_row (block p) interp));
  mret (t, rng).
Definition layout_witness_rows (subfield_boundary : nat) (witness : list E) (p : LigeroParam)
    (t : Tableau E) (interp : Plan) (rng : G) : outcome stuck (Tableau E * G) :=
  foldM (layout_witness_row subfield_boundary witness p interp) (t, rng) (seq 0 (nwrow p)).

Definition copy_factors {Err} (witness : list E) (p : LigeroParam)
    (quadratic_constraints : list LigeroQuadraticConstraint) (i : nat) (t : Tableau E) (j : nat)
  : outcome Err (Tableau E) :=
  let iqx := iq p in
  let iqy := (iqx + nqtriples p)%nat in
  let iqz := (iq p + 2 * nqtriples p)%nat in
  l ← index quadratic_constraints (j + i * p_w p);
  x ← index witness (qc_x l);
  t ← tableau.set t (iqx + i) (j + p_r p) x;
  y ← index witness (qc_y l);
  t ← tableau.set t (iqy + i) (j + p_r p) y;
  z ← index witness (qc_z l);
  tableau.set t (iqz + i) (j + p_r p) z.

Definition layout_quadratic_row (witness : list E) (p : LigeroParam)
    (quadratic_constraints : list LigeroQuadraticConstraint) (interp : Plan)
    (st : Tableau E * G) (i : nat) : outcome stuck (Tableau E * G) :=
  let '(t, rng) := st in
  let iqx := (iq p + i)%nat in
  let iqy := (iq p + nqtriples p + i)%nat in
  let iqz := (iq p + 2 * nqtriples p + i)%nat in
  '(t, rng) ← random_row iqx (p_r p) t rng;
  '(t, rng) ← random_row iqy (p_r p) t rng;
  '(t, rng) ← random_row iqz (p_r p) t rng;
  let max_j := Nat.min (p_w p) (p_nq p - i * p_w p) in
  t ← foldM (copy_factors witness p quadratic_constraints i) t (seq 0 max_j);
  t ← (if Nat.ltb max_j (p_w p) then
         foldM (fun t row => tableau.row_mut t row (clear_slice (p_r p + max_j) (p_r p + p_w p)))
           t [iqx; iqy; iqz]
       else mret t);
  t ← foldM (fun t row => tableau.row_mut t row (extend_row (block p) interp)) t [iqx; iqy; iqz];
  mret (t, rng).
Definition layout_quadratic_rows (witness : list E) (p : LigeroParam) (t : Tableau E)
    (quadratic_constraints : list LigeroQuadraticConstraint) (interp : Plan) (rng : G)
  : outcome stuck (Tableau E * G) :=
  foldM (layout_quadratic_row witness p quadratic_constraints interp) (t, rng) (seq 0 (nqtriples p)).

Definition layout (subfield_boundary : nat) (witness : list E) (p : LigeroParam)
    (quadratic_constraints : list LigeroQuadraticConstraint) (rng : G)
  : outcome stuck (Tableau E * G) :=
  let t := tableau.new (nrow p) (block_enc p) 0 in
  encoder ← make_range _ (0, block p)%nat (block p, block_enc p);
  '(t, rng) ← layout_blinding_rows p t encoder rng;
  '(t, rng) ← layout_witness_rows subfield_boundary witness p t encoder rng;
  layout_quadratic_rows witness p t quadratic_constraints encoder rng.
End layout.
End layout.

(** ** [prover.rs] *)
Record LigeroProver (E : Type) := {
  lp_param : LigeroParam;
  lp_mc : MerkleCommitment;
  lp_tableau : Tableau E
}.
Arguments lp_param {_} _. Arguments lp_mc {_} _. Arguments lp_tableau {_} _.
Arguments Build_LigeroProver {_} _ _ _.

(** Elements are serialized through a 128-byte buffer: the bytes hashed for
    one column. *)
Definition hash_elts {E} `{SerializableField E} {Err} (get : nat -> outcome Err E) (nrow : nat)
  : outcome Err (list u8) :=
  foldM (fun bs r =>
      e ← get r;
      rust_assert (Nat.leb (serialized_size_bytes (E:=E)) 128) ;;
      mret (bs ++ to_bytes e)) [] (seq 0 nrow).

Module ligero_prover.
Section ligero_prover.
Context {E : Type} `{AlgebraicField E} `{SerializableField E} `{SupportsSampling E}.
Context `{Subfield E} `{!RangeInterpolatorFactory E}.

Section responses.
Context {Err : Type} (p : LigeroParam) (t : Tableau E).

(** [y += u * tableau.row(i + iw)[..block]] *)
Definition low_degree_step (y : list E) (iu : nat * E) : outcome Err (list E) :=
  let '(i, u) := iu in
  row ← tableau.row t (i + iw p);
  s ← slice row 0 (block p);
  blas.axpy y u s.
Definition low_degree_proof (u_ldt : list E) : outcome Err (list E) :=
  row ← tableau.row t (ildt p);
  y ← slice row 0 (block p);
  foldM low_degree_step y (take (nwqrow p) (zip (seq 0 (length u_ldt)) u_ldt)).

(** [a_ext] is reused: its contents are cleared by the next row. *)
Definition dot_step (a : list E) (interp_a : Plan) (st : list E * list E) (i : nat)
  : outcome Err (list E * list E) :=
  let '(y, a_ext) := st in
  a_ext ← common.layout_aext_into p i a a_ext;
  a_ext ← layout.extend_row (block p) interp_a a_ext;
  row ← tableau.row t (i + iw p);
  s ← slice row 0 (dblock p);
  y ← blas.vaxpy y a_ext s;
  mret (y, a_ext).
Definition dot_proof (a : list E) : outcome Err (list E) :=
  interp_a ← make_range _ (0, block p)%nat (block p, dblock p);
  row ← tableau.row t (idot p);
  y ← slice row 0 (dblock p);
  let a_ext := replicate (dblock p) 0 in
  '(y, _) ← foldM (dot_step a interp_a) (y, a_ext) (seq 0 (nwqrow p));
  mret y.

(** [y += u * (z - x * y)] over one triple of rows. *)
Definition quadratic_step (st : list E * list E) (iu : nat * E) : outcome Err (list E * list E) :=
  let '(y, tmp) := st in
  let '(i, u) := iu in
  let iqx := iq p in
  let iqy := (iqx + nqtriples p)%nat in
  let iqz := (iq p + 2 * nqtriples p)%nat in
  zrow ← tableau.row t (iqz + i);
  zs ← slice zrow 0 (dblock p);
  tmp ← clone_from_slice tmp zs;
  xrow ← tableau.row t (iqx + i);
  xs ← slice xrow 0 (dblock p);
  yrow ← tableau.row t (iqy + i);
  ys ← slice yrow 0 (dblock p);
  tmp ← blas.vymax tmp xs ys;
  y ← blas.axpy y u tmp;
  mret (y, tmp).
Definition quadratic_proof (u_quad : list E) : outcome Err (list E * list E) :=
  row ← tableau.row t (iquad p);
  y ← slice row 0 (dblock p);
  let tmp := replicate (dblock p) 0 in
  '(y, _) ← foldM quadratic_step (y, tmp) (take (nqtriples p) (zip (seq 0 (length u_quad)) u_quad));
  w_part ← slice y (p_r p) (p_r p + p_w p);
  rust_assert (blas.equal0 w_part) ;;
  y0 ← slice y 0 (p_r p);
  y2 ← slice y (block p) (length y);
  mret (y0, y2).

Definition gather_row (idx : list nat) (req : list E) (i : nat) : outcome Err (list E) :=
  row ← tableau.row t i;
  s ← slice row (dblock p) (length row);
  row_req ← blas.gather idx s;
  mret (req ++ row_req).
Definition gather_opened_columns (idx : list nat) : outcome Err (list E) :=
  foldM (gather_row idx) [] (seq 0 (nrow p)).
End responses.

Section run.
Context `{Sha256} `{Aes256}.

(** The leaves are the columns past [dblock], read in order. *)
Definition leaf_bytes {Err} (p : LigeroParam) (t : Tableau E) (j : nat) : outcome Err (list u8) :=
  hash_elts (fun r => tableau.get t r (j + dblock p)) (nrow p).
Definition all_leaf_bytes {Err} (p : LigeroParam) (t : Tableau E) : outcome Err (list (list u8)) :=
  foldM (fun ls j => l ← leaf_bytes p t j; mret (ls ++ [l])) [] (seq 0 (block_enc p - dblock p)).

(** Returns the prover, the commitment's root, the transcript and the
    generator. *)
Definition commit {G} `{RandomEngine G} (subfield_boundary : nat) (witness : list E) (p : LigeroParam)
    (ts : Transcript) (quadratic_constraints : list LigeroQuadraticConstraint) (rng : G)
  : outcome stuck (LigeroProver E * Digest * Transcript * G) :=
  slice witness 0 subfield_boundary ;;
  '(t, rng) ← layout.layout subfield_boundary witness p quadratic_constraints rng;
  leaves ← all_leaf_bytes p t;
  '(mc, root, rng) ← Merkle.commit rng_bytes (block_enc p - dblock p) rng
                       (fun j => default [] (leaves !! j));
  mret ({| lp_param := p; lp_mc := mc; lp_tableau := t |}, root,
        ligero_transcript.write_commitment root ts, rng).

Definition prove (fuel : nat) (self : LigeroProver E) (linear_evals : list E) (ts : Transcript)
    (linear_constraints : list (LigeroLinearConstraint E)) (hash_of_ligero_statement : Digest)
    (quadratic_constraints : list LigeroQuadraticConstraint)
  : outcome stuck (LigeroProof E * Transcript) :=
  let p := lp_param self in
  let ts := ligero_transcript.write_ligero_statement hash_of_ligero_statement ts in
  '(u_ldt, ts) ← ligero_transcript.gen_uldt p ts;
  y_ldt ← low_degree_proof p (lp_tableau self) u_ldt;
  '(alphal, ts) ← ligero_transcript.gen_alphal (length linear_evals) ts;
  '(alphaq, ts) ← ligero_transcript.gen_alphaq p ts;
  a ← common.inner_product_vector p linear_constraints alphal quadratic_constraints alphaq;
  y_dot ← dot_proof p (lp_tableau self) a;
  '(u_quad, ts) ← ligero_transcript.gen_uquad p ts;
  '(y_quad_0, y_quad_2) ← quadratic_proof p (lp_tableau self) u_quad;
  ts ← write_elt_field_slice y_ldt ts;
  ts ← write_elt_field_slice y_dot ts;
  ts ← write_elt_field_slice y_quad_0 ts;
  ts ← write_elt_field_slice y_quad_2 ts;
  '(idx, ts) ← ligero_transcript.gen_idx fuel p ts;
  req ← gather_opened_columns p (lp_tableau self) idx;
  merkle ← open_commitment (lp_mc self) idx;
  mret ({| y_ldt := y_ldt; y_dot := y_dot; y_quad_0 := y_quad_0; y_quad_2 := y_quad_2;
           req := req; merkle := merkle |}, ts).
End run.
End ligero_prover.
End ligero_prover.

(** ** [verifier.rs] *)
Inductive LigeroError :=
| InvalidProof (m : string)
| MerkleCheckFailed (e : MerkleError Digest)
| LowDegreeCheckFailed
| DotCheckFailed
| LinearInnerProductMismatch
| QuadraticCheckFailed.

(** The transcript's sampling loops may also run out of fuel. *)
Inductive ligero_outcome := Rejected (e : LigeroError) | Unfinished (s : stuck).

Module ligero_verifier.
Section ligero_verifier.
Context {E : Type} `{AlgebraicField E} `{SerializableField E} `{SupportsSampling E}.
Context `{Subfield E} `{!RangeInterpolatorFactory E}.

Definition invalid_if (b : bool) (m : string) : outcome LigeroError unit := reject_if b (InvalidProof m).

Definition validate (p : LigeroParam) (proof : LigeroProof E) (nequations : nat)
    (linear_constraints : list (LigeroLinearConstraint E))
    (quadratic_constraints : list LigeroQuadraticConstraint) : outcome LigeroError unit :=
  invalid_if (negb (Nat.eqb (length (y_ldt proof)) (block p))) "invalid y_ldt length" ;;
  invalid_if (negb (Nat.eqb (length (y_dot proof)) (dblock p))) "invalid y_dot length" ;;
  invalid_if (negb (Nat.eqb (length (y_quad_0 proof)) (p_r p))) "invalid y_quad_0 length" ;;
  invalid_if (negb (Nat.eqb (length (y_quad_2 proof)) (dblock p - block p))) "invalid y_quad_2 length" ;;
  invalid_if (negb (Nat.eqb (length (req proof)) (nrow p * nreq p))) "invalid req length" ;;
  foldM (fun _ term =>
      invalid_if (Nat.leb (p_nw p) (lc_w term) || Nat.leb nequations (lc_c term))
        "linear constraint index out of bounds") tt linear_constraints ;;
  invalid_if (Nat.ltb (length quadratic_constraints) (p_nq p)) "invalid quadratic constraints length" ;;
  qs ← slice quadratic_constraints 0 (p_nq p);
  foldM (fun _ l =>
      invalid_if (Nat.leb (p_nw p) (qc_x l) || Nat.leb (p_nw p) (qc_y l) || Nat.leb (p_nw p) (qc_z l))
        "quadratic constraint index out of bounds") tt qs.

Section checks.
Context {Err : Type} (p : LigeroParam) (idx : list nat) (proof : LigeroProof E).

(** Row [i] of the opened columns. *)
Definition req_row (i : nat) : outcome Err (list E) :=
  slice (req proof) (i * nreq p) ((i + 1) * nreq p).

Definition interpolate_req_columns (y : list E) (encoder : Plan) : outcome Err (list E) :=
  yext ← apply_plan Err encoder y;
  blas.gather idx yext.

Definition low_degree_check_step (yc : list E) (iu : nat * E) : outcome Err (list E) :=
  let '(i, u) := iu in
  row ← req_row (i + iw p);
  blas.axpy yc u row.
Definition low_degree_check (u_ldt : list E) (encoder : Plan) : outcome Err bool :=
  yc ← req_row (ildt p);
  yc ← foldM low_degree_check_step yc (take (nwqrow p) (zip (seq 0 (length u_ldt)) u_ldt));
  yp ← interpolate_req_columns (y_ldt proof) encoder;
  blas.equal yp yc.

Definition dot_check_step (a : list E) (ordinary_encoder : Plan) (st : list E * list E) (i : nat)
  : outcome Err (list E * list E) :=
  let '(yc, samples) := st in
  samples ← common.layout_aext_into p i a samples;
  a_ext ← apply_plan Err ordinary_encoder samples;
  a_req ← blas.gather idx a_ext;
  row ← req_row (i + iw p);
  yc ← blas.vaxpy yc a_req row;
  mret (yc, samples).
Definition dot_check (a : list E) (ordinary_encoder response_encoder : Plan) : outcome Err bool :=
  yc ← req_row (idot p);
  '(yc, _) ← foldM (dot_check_step a ordinary_encoder) (yc, replicate (block p) 0) (seq 0 (nwqrow p));
  yp ← interpolate_req_columns (y_dot proof) response_encoder;
  blas.equal yp yc.

Definition quadratic_check_step (st : list E * list E) (iu : nat * E) : outcome Err (list E * list E) :=
  let '(yc, tmp) := st in
  let '(i, u) := iu in
  let iqx := iq p in
  let iqy := (iq p + nqtriples p)%nat in
  let iqz := (iq p + 2 * nqtriples p)%nat in
  zs ← req_row (iqz + i);
  tmp ← clone_from_slice tmp zs;
  xs ← req_row (iqx + i);
  ys ← req_row (iqy + i);
  tmp ← blas.vymax tmp xs ys;
  yc ← blas.axpy yc u tmp;
  mret (yc, tmp).

(** [Vec::resize] *)
Definition resize (v : list E) (n : nat) : list E := take n v ++ replicate (n - length v) 0.
Definition quadratic_check (u_quad : list E) (encoder : Plan) : outcome Err bool :=
  yc ← req_row (iquad p);
  '(yc, _) ← foldM quadratic_check_step (yc, replicate (nreq p) 0)
               (take (nqtriples p) (zip (seq 0 (length u_quad)) u_quad));
  let yquad := resize (y_quad_0 proof) (block p) ++ y_quad_2 proof in
  yp ← interpolate_req_columns yquad encoder;
  blas.equal yp yc.
End checks.

Section run.
Context `{Sha256} `{Aes256}.

(** The bytes of the opened column [r]. *)
Definition opened_bytes {Err} (p : LigeroParam) (proof : LigeroProof E) (r : nat) : outcome Err (list u8) :=
  hash_elts (fun i => index (req proof) (i * nreq p + r)) (nrow p).
Definition merkle_check (p : LigeroParam) (idx : list nat) (root : Digest) (proof : LigeroProof E)
  : outcome (MerkleError Digest) unit :=
  leaves ← foldM (fun ls r => l ← opened_bytes p proof r; mret (ls ++ [l])) [] (seq 0 (length idx));
  Merkle.verify (block_enc p - dblock p) root idx (merkle proof)
    (fun r _ => default [] (leaves !! r)).

Definition receive_commitment (root : Digest) (ts : Transcript) : Transcript :=
  ligero_transcript.write_commitment root ts.

(** What the verifier draws: the weights, then, after it has absorbed the
    responses, the columns. *)
Definition challenges (fuel : nat) (p : LigeroParam) (nequations : nat) (proof : LigeroProof E)
    (hash_of_ligero_statement : Digest) (ts : Transcript)
  : outcome stuck (list E * list E * list (E * E * E) * list E * list nat * Transcript) :=
  let ts := ligero_transcript.write_ligero_statement hash_of_ligero_statement ts in
  '(u_ldt, ts) ← ligero_transcript.gen_uldt p ts;
  '(alphal, ts) ← ligero_transcript.gen_alphal nequations ts;
  '(alphaq, ts) ← ligero_transcript.gen_alphaq p ts;
  '(u_quad, ts) ← ligero_transcript.gen_uquad p ts;
  ts ← write_elt_field_slice (y_ldt proof) ts;
  ts ← write_elt_field_slice (y_dot proof) ts;
  ts ← write_elt_field_slice (y_quad_0 proof) ts;
  ts ← write_elt_field_slice (y_quad_2 proof) ts;
  '(idx, ts) ← ligero_transcript.gen_idx fuel p ts;
  mret (u_ldt, alphal, alphaq, u_quad, idx, ts).

(** The checks, in the order of their errors. *)
Definition check_responses (p : LigeroParam) (linear_evals : list E) (root : Digest)
    (proof : LigeroProof E) (linear_constraints : list (LigeroLinearConstraint E))
    (quadratic_constraints : list LigeroQuadraticConstraint)
    (u_ldt alphal : list E) (alphaq : list (E * E * E)) (u_quad : list E) (idx : list nat)
  : outcome LigeroError unit :=
  map_err MerkleCheckFailed (merkle_check p idx root proof) ;;
  ordinary_encoder ← make_range _ (0, block p)%nat (dblock p, block_enc p);
  ok ← low_degree_check p idx proof u_ldt ordinary_encoder;
  reject_if (negb ok) LowDegreeCheckFailed ;;
  a ← common.inner_product_vector p linear_constraints alphal quadratic_constraints alphaq;
  response_encoder ← make_range _ (0, dblock p)%nat (dblock p, block_enc p);
  ok ← dot_check p idx proof a ordinary_encoder response_encoder;
  reject_if (negb ok) DotCheckFailed ;;
  want_dot ← blas.dot linear_evals alphal;
  y_w ← slice (y_dot proof) (p_r p) (p_r p + p_w p);
  let proof_dot := blas.dot1 y_w in
  let sum := proof_dot + want_dot in
  reject_if (negb (bool_decide (sum = 0))) LinearInnerProductMismatch ;;
  ok ← quadratic_check p idx proof u_quad response_encoder;
  reject_if (negb ok) QuadraticCheckFailed.

Definition verify (fuel : nat) (p : LigeroParam) (linear_evals : list E) (root : Digest)
    (proof : LigeroProof E) (linear_constraints : list (LigeroLinearConstraint E))
    (hash_of_ligero_statement : Digest) (quadratic_constraints : list LigeroQuadraticConstraint)
    (ts : Transcript) : outcome ligero_outcome Transcript :=
  map_err Rejected (validate p proof (length linear_evals) linear_constraints quadratic_constraints) ;;
  '(u_ldt, alphal, alphaq, u_quad, idx, ts) ←
    map_err Unfinished (challenges fuel p (length linear_evals) proof hash_of_ligero_statement ts);
  map_err Rejected (check_responses p linear_evals root proof linear_constraints quadratic_constraints
                      u_ldt alphal alphaq u_quad idx) ;;
  mret ts.
End run.
End ligero_verifier.
End ligero_verifier.
