(* ===== verification/TableauFacts.v ===== *)
(** * The tableau as a list of rows

    [mk wd rows] is the flat tableau whose rows are [rows]; every operation of
    [tableau.rs] acts on it as the corresponding operation on one row.  Every row of an honest tableau
    is a polynomial of bounded degree. *)
From stdpp Require Import prelude strings.
From Stdlib Require Import Lia NArith Ring Ring_theory.
From S2P Require Import Prelude Words Interfaces Merkle Field FieldFacts Transcript SumcheckV1 Interpolation RangeInterpolation Ligero.

Local Open Scope fe_scope.

Section rows.
Context {T : Type} (wd : nat).

Definition mk (rows : list (list T)) : Tableau T :=
  {| data := concat rows; width := wd; height := length rows |}.
Definition rows_wf (rows : list (list T)) : Prop := Forall (fun r => length r = wd) rows.

Lemma concat_length rows : rows_wf rows -> length (concat rows) = (length rows * wd)%nat.
Proof. induction 1 as [|r rows Hr _ IH]; cbn; [done|]. rewrite length_app. lia. Qed.
Lemma concat_split rows i r :
  rows_wf rows -> rows !! i = Some r ->
  concat rows = concat (take i rows) ++ r ++ concat (drop (S i) rows) /\
  length (concat (take i rows)) = (i * wd)%nat /\ length r = wd.
Proof.
  intros Hwf Hr. pose proof (lookup_lt_Some _ _ _ Hr). split; [|split].
  - rewrite <- (take_drop_middle _ _ _ Hr) at 1. by rewrite concat_app.
  - rewrite concat_length by by apply Forall_take. rewrite length_take. by rewrite Nat.min_l by lia.
  - unfold rows_wf in Hwf. rewrite Forall_lookup in Hwf. by eapply Hwf.
Qed.
Lemma concat_insert (rows : list (list T)) i (r r' : list T) :
  rows !! i = Some r -> concat (<[i := r']> rows) = concat (take i rows) ++ (r' ++ concat (drop (S i) rows)).
Proof.
  intros Hr. pose proof (lookup_lt_Some _ _ _ Hr).
  rewrite insert_take_drop by done. by rewrite concat_app.
Qed.
Lemma rows_wf_insert rows i r : rows_wf rows -> length r = wd -> rows_wf (<[i := r]> rows).
Proof. intros. by apply Forall_insert. Qed.

Lemma new_mk h (d : T) : tableau.new h wd d = mk (replicate h (replicate wd d)).
Proof.
  unfold tableau.new, mk. rewrite length_replicate. f_equal.
  induction h as [|h IH]; [done|]. cbn [replicate concat]. rewrite <- IH. by rewrite <- replicate_add.
Qed.

Context {Err : Type}.

Lemma row_mk rows i r : rows_wf rows -> rows !! i = Some r -> tableau.row (Err:=Err) (mk rows) i = Ok r.
Proof.
  intros Hwf Hr. pose proof (lookup_lt_Some _ _ _ Hr). unfold tableau.row. cbn [mk height data width].
  rewrite (proj2 (Nat.ltb_lt _ _)) by done. cbn [rust_assert]. mstep.
  destruct (concat_split _ _ _ Hwf Hr) as (Hc & Hl & Hw).
  rewrite slice_Ok by (rewrite concat_length by done; nia).
  rewrite Hc, drop_app_length' by done. f_equal. apply take_app_length'. lia.
Qed.
Lemma row_mut_mk rows i r r' body :
  rows_wf rows -> rows !! i = Some r -> body r = Ok r' -> length r' = length r ->
  tableau.row_mut (Err:=Err) (mk rows) i body = Ok (mk (<[i := r']> rows)).
Proof.
  intros Hwf Hr Hb Hl'. pose proof (lookup_lt_Some _ _ _ Hr). unfold tableau.row_mut. cbn [mk height data width].
  rewrite (proj2 (Nat.ltb_lt _ _)) by done. cbn [rust_assert]. mstep.
  destruct (concat_split _ _ _ Hwf Hr) as (Hc & Hl & Hw).
  rewrite (slice_mut_Ok _ _ _ _ r').
  - mstep. unfold mk. rewrite length_insert, (concat_insert _ _ _ _ Hr). unfold mret, outcome_ret.
    do 2 f_equal. rewrite Hc. rewrite take_app_length' by done. f_equal. f_equal.
    rewrite app_assoc. apply drop_app_length'. rewrite length_app. lia.
  - rewrite concat_length by done. nia.
  - rewrite Hc, drop_app_length' by done. rewrite take_app_length'; [done|]. lia.
Qed.
Lemma concat_lookup rows i j r x :
  rows_wf rows -> rows !! i = Some r -> r !! j = Some x -> concat rows !! (i * wd + j)%nat = Some x.
Proof.
  intros Hwf Hr Hx. destruct (concat_split _ _ _ Hwf Hr) as (-> & Hl & Hw).
  rewrite lookup_app_r by lia. rewrite Hl. replace (i * wd + j - i * wd)%nat with j by lia.
  rewrite lookup_app_l; [done|]. by eapply lookup_lt_Some.
Qed.
Lemma get_mk rows i j r x :
  rows_wf rows -> rows !! i = Some r -> r !! j = Some x -> tableau.get (Err:=Err) (mk rows) i j = Ok x.
Proof.
  intros Hwf Hr Hx. pose proof (lookup_lt_Some _ _ _ Hr). pose proof (lookup_lt_Some _ _ _ Hx).
  destruct (concat_split _ _ _ Hwf Hr) as (_ & _ & Hw).
  unfold tableau.get. cbn [mk height data width].
  rewrite (proj2 (Nat.ltb_lt i _)), (proj2 (Nat.ltb_lt j _)) by lia. cbn [rust_assert andb]. mstep.
  apply index_Ok. by eapply concat_lookup.
Qed.
Lemma set_mk rows i j r x :
  rows_wf rows -> rows !! i = Some r -> j < wd ->
  tableau.set (Err:=Err) (mk rows) i j x = Ok (mk (<[i := <[j := x]> r]> rows)).
Proof.
  intros Hwf Hr Hj. pose proof (lookup_lt_Some _ _ _ Hr). unfold tableau.set. cbn [mk height data width].
  rewrite (proj2 (Nat.ltb_lt i _)), (proj2 (Nat.ltb_lt j _)) by lia. cbn [rust_assert andb]. mstep.
  destruct (concat_split _ _ _ Hwf Hr) as (Hc & Hl & Hw).
  rewrite store_Ok by (rewrite concat_length by done; nia). mstep. unfold mk. rewrite length_insert, (concat_insert _ _ _ _ Hr).
  unfold mret, outcome_ret. do 2 f_equal. rewrite Hc.
  rewrite insert_app_r_alt by lia. rewrite Hl. replace (i * wd + j - i * wd)%nat with j by lia.
  f_equal. by rewrite insert_app_l by lia.
Qed.
End rows.

(** ** Slices of rows, cell by cell *)
Section cells.
Context {E : Type} `{AlgebraicFieldLaws E} {Err : Type}.

(** [v[a..b]] of a table. *)
Lemma slice_tab {A} (g : nat -> A) n a b :
  a <= b <= n -> slice (E:=Err) (tab g n) a b = Ok (tab (fun i => g (a + i)%nat) (b - a)).
Proof. intros Hab. rewrite slice_Ok by (rewrite length_tab; lia). rewrite drop_tab, take_tab by lia. done. Qed.
Lemma slice_mut_tab {A} (g h : nat -> A) n a b body :
  a <= b <= n -> body (tab (fun i => g (a + i)%nat) (b - a)) = Ok (tab h (b - a)) ->
  slice_mut (E:=Err) (tab g n) a b body
  = Ok (tab (fun i => if Nat.leb a i && Nat.ltb i b then h (i - a)%nat else g i) n).
Proof.
  intros Hab Hb. erewrite slice_mut_Ok; [|rewrite length_tab; lia|].
  2:{ rewrite drop_tab, take_tab by lia. exact Hb. }
  rewrite take_tab, drop_tab, !tab_app by lia. replace (a + (b - a + (n - b)))%nat with n by lia.
  f_equal. apply tab_ext. intros i Hi.
  destruct (Nat.ltb_spec i a), (Nat.leb_spec a i); cbn [andb]; try lia; [done|].
  destruct (Nat.ltb_spec (i - a) (b - a)), (Nat.ltb_spec i b); try lia; [done|]. f_equal. lia.
Qed.
(** An array of known length is a table. *)
Lemma as_tab {A} (l : list A) n : length l = n -> 0 < n -> exists g, l = tab g n.
Proof.
  intros <- Hl. destruct l as [|d l]; [cbn in Hl; lia|].
  exists (fun i => default d ((d :: l) !! i)). by rewrite tab_lookup.
Qed.
Lemma clear_tab {A} (l : list A) : map (fun _ => 0) l = tab (fun _ => (0 : E)) (length l).
Proof. apply fill_tab. Qed.
Lemma at0_slice (v : list E) a n i : i < n -> at0 (take n (drop a v)) i = at0 v (a + i).
Proof. intros Hi. unfold at0. by rewrite lookup_take_lt, lookup_drop. Qed.
End cells.

(** * The rows of the Ligero tableau

    What [layout] writes: every row is the evaluation, on the whole point
    table, of a polynomial of degree below [block] (or [dblock] for two of the
    blinding rows) whose values on the [w] witness positions are the blinding
    constraint, the witness, or the factors of the quadratic constraints. *)

(** ** Parameters *)
Record param_ok {E} `{RangeInterpolatorFactory E} (p : LigeroParam) : Prop := {
  po_block : block p = (p_r p + p_w p)%nat;
  po_dblock : dblock p = (2 * block p - 1)%nat;
  po_enc : dblock p + nreq p <= block_enc p;
  po_r : p_r p = nreq p;
  po_w : 0 < p_w p;
  po_iw : iw p = 3%nat;
  po_iq : iq p = (3 + nwrow p)%nat;
  po_nwqrow : nwqrow p = (nwrow p + 3 * nqtriples p)%nat;
  po_nrow : nrow p = (3 + nwqrow p)%nat;
  po_blinds : ildt p = 0%nat /\ idot p = 1%nat /\ iquad p = 2%nat;
  po_nwrow : nwrow p = div_ceil (p_nw p) (p_w p);
  po_nqtriples : nqtriples p = div_ceil (p_nq p) (p_w p);
  po_encode : can_interpolate (0, block p)%nat (block p, block_enc p) = true;
  po_dencode : can_interpolate (0, dblock p)%nat (dblock p, block_enc p) = true;
  po_double : can_interpolate (0, block p)%nat (block p, dblock p) = true;
  po_check : can_interpolate (0, block p)%nat (dblock p, block_enc p) = true
}.

Lemma try_new_ok {E} `{RangeInterpolatorFactory E} nw nq config p :
  param.try_new nw nq config = Some p ->
  param_ok (E:=E) p /\ p_nw p = nw /\ p_nq p = nq /\ nreq p = cfg_nreq config /\ block_enc p = cfg_block_enc config /\
  block p = ((cfg_block_enc config + 1) / (2 + cfg_rateinv config))%nat.
Proof.
  unfold param.try_new. set (b := ((cfg_block_enc config + 1) / (2 + cfg_rateinv config))%nat). intros Hp.
  destruct (_ || _ || _) eqn:Hs; [done|]. apply orb_false_iff in Hs as [_ Hs%Nat.ltb_ge].
  assert (0 < b) as Hb by (apply Nat.div_str_pos; lia).
  destruct (can_interpolate (0, b)%nat (b, cfg_block_enc config)) eqn:H1; [|done]. cbn [negb] in Hp.
  destruct (Nat.ltb_spec b (cfg_nreq config)) as [|H2]; [done|].
  destruct (Nat.ltb_spec (b - cfg_nreq config) (cfg_nreq config)) as [|H3]; [done|].
  destruct (_ || _) eqn:H4 in Hp; [done|]. apply orb_false_iff in H4 as [H4%Nat.ltb_ge H4'%Nat.ltb_ge].
  destruct (_ || _ || _) eqn:H5 in Hp; [done|].
  apply orb_false_iff in H5 as [[H5%negb_false_iff H6%negb_false_iff]%orb_false_iff H7%negb_false_iff].
  injection Hp as <-. clearbody b.
  unfold param.layout_of, block, dblock, p_r, block_enc, nrow, nreq in *. cbn -[Nat.mul] in *.
  split; [|done]. split; unfold block, dblock, p_r, block_enc, nrow, nreq; cbn -[Nat.mul]; try done; lia.
Qed.

Lemma try_new_pathlen {E} `{RangeInterpolatorFactory E} nw nq config p :
  param.try_new nw nq config = Some p -> mc_pathlen p = merkle_heap_len (block_enc p - dblock p).
Proof.
  unfold param.try_new. repeat (destruct (_ : bool); [done|]). by intros [= <-].
Qed.
Lemma try_new_w {E} `{RangeInterpolatorFactory E} nw nq config p :
  param.try_new nw nq config = Some p -> nreq p <= p_w p.
Proof.
  unfold param.try_new. destruct (_ || _ || _); [done|]. destruct (negb _); [done|]. destruct (Nat.ltb _ _); [done|].
  destruct (Nat.ltb_spec ((cfg_block_enc config + 1) / (2 + cfg_rateinv config) - cfg_nreq config) (cfg_nreq config)); [done|].
  destruct (_ || _); [done|]. destruct (_ || _ || _); [done|]. by intros [= <-].
Qed.

Lemma try_new_new {E} `{RangeInterpolatorFactory E} {Err} nw nq config p :
  param.try_new (E:=E) nw nq config = Some p -> param.new (E:=E) (Err:=Err) nw nq config = Ok p.
Proof.
  intros Hp. pose proof (try_new_ok _ _ _ _ Hp) as (Hok & <- & <- & Hr & He & Hb). pose proof Hok as Hok'. destruct Hok'.
  unfold param.new. rewrite Hp. cbn [unwrap]. rewrite bind_Ok. unfold param.sanity.
  rewrite (proj2 (Nat.leb_le (nreq p) (block p))), (proj2 (Nat.leb_le (dblock p) (block_enc p))) by lia.
  rewrite (proj2 (Nat.eqb_eq (p_w p) _)), (proj2 (Nat.eqb_eq (dblock p) _)), (proj2 (Nat.eqb_eq (iw p) _)), (proj2 (Nat.eqb_eq (iq p) _)),
    (proj2 (Nat.eqb_eq (nwqrow p) _)), (proj2 (Nat.eqb_eq (nrow p) _)) by lia.
  rewrite (proj2 (Nat.eqb_eq (mc_pathlen p) _)); [done|]. by rewrite (try_new_pathlen _ _ _ _ Hp).
Qed.

Lemma div_ceil_spec a b : 0 < b -> a <= div_ceil a b * b /\ forall i, i < div_ceil a b -> i * b < a.
Proof.
  intros Hb. unfold div_ceil. pose proof (Nat.div_mod (a + b - 1) b ltac:(lia)) as Hd.
  pose proof (Nat.mod_upper_bound (a + b - 1) b ltac:(lia)). split; [nia|].
  intros i Hi. nia.
Qed.

Section layout.
Context {E : Type} `{AF : AlgebraicField E} `{!AlgebraicFieldLaws E} `{SF : SerializableField E} `{SS : SupportsSampling E}.
Context `{SU : Subfield E} `{RI : !RangeInterpolatorFactory E} `{!RangeInterpolatorLaws E}.
Add Ring field_ring_rows : (field_ring (E:=E)).

Abbreviation pts := (plan_points (E:=E)).

(** ** Codewords *)
Section codewords.
Context (wd : nat).

(** The samples of a polynomial with [n] coefficients. *)
Definition samples (f : E -> E) : list E := tab (fun j => f (pts j)) wd.
Lemma length_samples f : length (samples f) = wd.
Proof. apply length_tab. Qed.

(** The values [cell] in the [w] slots from [r]. *)
Definition slots (r w : nat) (f : E -> E) (cell : nat -> E) : Prop := forall j, j < w -> f (pts (r + j)) = cell j.

Lemma range_tab (g : nat -> E) (a b : nat) : map g (range_seq (a, b)) = tab (fun i => g (a + i)%nat) (b - a).
Proof. unfold range_seq, range_len. cbn [fst snd]. unfold tab.
  replace (seq a (b - a)) with (map (Nat.add a) (seq 0 (b - a))).
  - by rewrite map_map.
  - etransitivity; [exact (fmap_add_seq a 0 (b - a))|]. by rewrite Nat.add_0_r.
Qed.

(** Any samples on the first [n] points are those of a polynomial. *)
Lemma polynomial_through n dst (g : nat -> E) :
  can_interpolate (0, n)%nat dst = true ->
  exists f, is_poly n f /\ forall j, j < n -> f (pts j) = g j.
Proof. intros Hc. apply interpolate_exists. intros i j Hij. by apply (points_distinct _ _ i j Hc). Qed.

(** A plan from the first [n] points. *)
Lemma plan_from_0 n b c :
  can_interpolate (0, n)%nat (b, c) = true ->
  exists p, (forall Err, make_range Err (0, n)%nat (b, c) = Ok p) /\
    forall Err f g, is_poly n f -> (forall j, j < n -> g j = f (pts j)) ->
      apply_plan Err p (tab g n) = Ok (tab (fun j => f (pts (b + j))) (c - b)).
Proof.
  intros Hc. destruct (plan_exact _ _ Hc) as (p & Hp & Ha). exists p. split; [done|]. intros Err f g Hf Hg.
  specialize (Ha Err f). rewrite !range_tab in Ha. unfold range_len in Ha. cbn [fst snd] in Ha. rewrite Nat.sub_0_r in Ha.
  rewrite <- (Ha Hf). f_equal. apply tab_ext. intros. by apply Hg.
Qed.

Lemma extend_with_ok {Err} (encode : list E -> outcome Err (list E)) n f g :
  n <= wd -> (forall j, j < n -> f (pts j) = g j) ->
  encode (tab g n) = Ok (tab (fun j => f (pts (n + j))) (wd - n)) ->
  layout.extend_with encode n (tab g wd) = Ok (samples f).
Proof.
  intros Hn Hf He. unfold layout.extend_with. rewrite length_tab.
  rewrite (slice_mut_tab g (fun j => f (pts (n + j)))); [|lia|].
  - unfold samples. apply (f_equal Ok), tab_ext. intros j Hj.
    destruct (Nat.leb_spec n j); cbn [andb].
    + rewrite (proj2 (Nat.ltb_lt _ _)) by done. do 2 f_equal. lia.
    + symmetry. by apply Hf.
  - rewrite slice_tab by lia. mstep. rewrite Nat.sub_0_r.
    change (tab (fun i => g (0 + i)%nat) n) with (tab g n). rewrite He. mstep.
    apply clone_from_slice_Ok. by rewrite !length_tab.
Qed.

(** Extending the first [n] cells gives a codeword. *)
Definition extends (n : nat) (p : Plan) : Prop :=
  forall g, exists f, is_poly n f /\ (forall j, j < n -> f (pts j) = g j) /\
    (forall Err, layout.extend_row (Err:=Err) n p (tab g wd) = Ok (samples f)) /\
    (forall Err, Forall (fun e => sf_contains e = true) (tab g n) ->
       layout.extend_with (apply_subfield Err p) n (tab g wd) = Ok (samples f)).
Lemma extend_ok n :
  n <= wd -> can_interpolate (0, n)%nat (n, wd) = true ->
  exists p, (forall Err, make_range Err (0, n)%nat (n, wd) = Ok p) /\ extends n p.
Proof.
  intros Hn Hc. destruct (plan_from_0 _ _ _ Hc) as (p & Hp & Ha). exists p. split; [done|]. intros g.
  destruct (polynomial_through n (n, wd) g Hc) as (f & Hf & Hg). exists f. split; [done|]. split; [done|]. split.
  - intros Err. apply extend_with_ok; [done|done|]. apply Ha; [done|]. intros. symmetry. by apply Hg.
  - intros Err Hsub. apply extend_with_ok; [done|done|]. rewrite apply_subfield_spec by done.
    apply Ha; [done|]. intros. symmetry. by apply Hg.
Qed.

(** ** Random cells *)
Section random.
Context {G : Type} (smp : G -> outcome stuck (E * G)) (P : E -> Prop).
Context (smp_ok : forall g, exists e g', smp g = Ok (e, g') /\ P e).

Lemma random_cells_ok rows i g n rng :
  rows_wf wd rows -> rows !! i = Some (tab g wd) -> n <= wd ->
  exists h rng', foldM (fun (st : Tableau E * G) j => let '(t, rng) := st in '(e, rng) ← smp rng; t ← tableau.set t i j e; mret (t, rng))
      (mk wd rows, rng) (seq 0 n)
    = Ok (mk wd (<[i := tab (fun j => if Nat.ltb j n then h j else g j) wd]> rows), rng') /\
    forall j, j < n -> P (h j).
Proof.
  intros Hwf Hi Hn. induction n as [|n IH].
  { exists g, rng. split; [|lia]. cbn [seq foldM]. rewrite list_insert_id; [done|]. rewrite Hi. f_equal. }
  destruct IH as (h & rng1 & Hr & HP); [lia|]. destruct (smp_ok rng1) as (e & rng2 & He & HPe).
  exists (fun j => if Nat.eqb j n then e else h j), rng2. split.
  - rewrite seq_S, foldM_app, Hr. mstep. cbn [foldM Nat.add]. rewrite He. mstep. pose proof (lookup_lt_Some _ _ _ Hi).
    erewrite set_mk; [|apply rows_wf_insert; [done|by rewrite length_tab]|by apply list_lookup_insert_eq|lia].
    mstep. rewrite list_insert_insert_eq, insert_tab. cbn [foldM]. erewrite tab_ext; [reflexivity|]. intros j Hj. cbn beta.
    destruct (Nat.eqb_spec j n) as [->|]; [by rewrite (proj2 (Nat.ltb_lt _ _)) by lia|].
    destruct (Nat.ltb_spec j n), (Nat.ltb_spec j (S n)); try lia; done.
  - intros j Hj. destruct (Nat.eqb_spec j n); [done|]. apply HP. lia.
Qed.
End random.
End codewords.

(** ** The three groups of rows *)
Section groups.
Context {G : Type} `{RandomEngine G}.
Context (field_samples : forall g : G, exists (e : E) g', elt_field g = Ok (e, g')).
Context (subfield_samples : forall g : G, exists (e : E) g', elt_subfield g = Ok (e, g') /\ sf_contains e = true).
Context (p : LigeroParam) (Hp : param_ok (E:=E) p).
Abbreviation wd := (block_enc p).

Lemma widths : 0 < wd /\ block p <= dblock p /\ dblock p <= wd /\ 0 < block p /\ (p_r p + p_w p)%nat = block p.
Proof. destruct Hp. lia. Qed.

Lemma random_row_ok rows i g n rng :
  rows_wf wd rows -> rows !! i = Some (tab g wd) -> n <= wd ->
  exists h rng', layout.random_row i n (mk wd rows) rng
    = Ok (mk wd (<[i := tab (fun j => if Nat.ltb j n then h j else g j) wd]> rows), rng').
Proof.
  intros Hwf Hi Hn.
  assert (forall g0 : G, exists (e : E) g', elt_field g0 = Ok (e, g') /\ True) as Hs
    by (intros g0; destruct (field_samples g0) as (e & g' & He); by exists e, g').
  destruct (random_cells_ok wd elt_field (fun _ => True) Hs rows i g n rng Hwf Hi Hn) as (h & rng' & Hr & _). exists h, rng'. exact Hr.
Qed.
Lemma random_subfield_row_ok rows i g n rng :
  rows_wf wd rows -> rows !! i = Some (tab g wd) -> n <= wd ->
  exists h rng', layout.random_subfield_row i n (mk wd rows) rng
    = Ok (mk wd (<[i := tab (fun j => if Nat.ltb j n then h j else g j) wd]> rows), rng') /\
    forall j, j < n -> sf_contains (h j) = true.
Proof. intros Hwf Hi Hn. exact (random_cells_ok wd elt_subfield _ subfield_samples rows i g n rng Hwf Hi Hn). Qed.

Lemma row_as_tab (rows : list (list E)) i : rows_wf wd rows -> i < length rows -> exists g, rows !! i = Some (tab g wd).
Proof.
  intros Hwf Hi. destruct (lookup_lt_is_Some_2 rows i Hi) as [row Hr].
  unfold rows_wf in Hwf. rewrite Forall_lookup in Hwf. destruct (as_tab row wd (Hwf _ _ Hr)) as [g ->]; [apply widths|].
  by exists g.
Qed.

(** A step that replaces one row. *)
Lemma row_mut_tab {Err} (rows : list (list E)) i g r' body :
  rows_wf wd rows -> rows !! i = Some (tab g wd) -> body (tab g wd) = Ok r' -> length r' = wd ->
  tableau.row_mut (Err:=Err) (mk wd rows) i body = Ok (mk wd (<[i := r']> rows)).
Proof. intros Hwf Hi Hb Hl. eapply row_mut_mk; [done|done|done|]. by rewrite length_tab. Qed.

Definition row_spec (n : nat) (cell : nat -> E) (row : list E) : Prop :=
  exists f, is_poly n f /\ row = samples wd f /\ slots (p_r p) (p_w p) f cell.

Definition blinding_spec (rows : list (list E)) : Prop :=
  (exists f, is_poly (block p) f /\ rows !! 0%nat = Some (samples wd f)) /\
  (exists f, is_poly (dblock p) f /\ rows !! 1%nat = Some (samples wd f) /\
     sigma (seq 0 (p_w p)) (fun j => f (pts (p_r p + j))) = 0) /\
  (exists row, rows !! 2%nat = Some row /\ row_spec (dblock p) (fun _ => 0) row).

Lemma foldl_add (g : nat -> E) n c : foldl fadd c (tab g n) = c + sigma (seq 0 n) g.
Proof.
  unfold tab, sigma. revert c. induction (seq 0 n) as [|i l IH]; intros c; cbn; [ring|]. rewrite IH. ring.
Qed.
Lemma dot1_tab (g : nat -> E) n : blas.dot1 (tab g n) = sigma (seq 0 n) g.
Proof. unfold blas.dot1. rewrite foldl_add. ring. Qed.

Lemma clear_slice_ok {Err} g n a b :
  a <= b <= n ->
  layout.clear_slice (Err:=Err) a b (tab g n) = Ok (tab (fun i => if Nat.leb a i && Nat.ltb i b then 0 else g i) n).
Proof.
  intros Hab. unfold layout.clear_slice. erewrite (slice_mut_tab g (fun _ => 0)); [done|lia|].
  unfold blas.clear. by rewrite clear_tab, length_tab.
Qed.

Lemma insert_wf (rows : list (list E)) i g : rows_wf wd rows -> rows_wf wd (<[i := tab g wd]> rows).
Proof. intros. apply rows_wf_insert; [done|apply length_tab]. Qed.

Lemma blinding_rows_ok rows enc rng :
  rows_wf wd rows -> 3 <= length rows -> extends wd (block p) enc ->
  exists rows' rng', layout.layout_blinding_rows p (mk wd rows) enc rng = Ok (mk wd rows', rng') /\
    rows_wf wd rows' /\ length rows' = length rows /\ (forall i, 3 <= i -> rows' !! i = rows !! i) /\
    blinding_spec rows'.
Proof.
  intros Hwf Hl Henc. destruct widths as (Hwd & Hbd & Hdw & Hb & Hrw). pose proof Hp as [].
  destruct po_blinds0 as (Hldt & Hdot & Hquad). unfold layout.layout_blinding_rows. rewrite Hldt, Hdot, Hquad.
  destruct (extend_ok wd (dblock p) Hdw po_dencode0) as (denc & Hdenc & Hdext).
  destruct (row_as_tab rows 0 Hwf ltac:(lia)) as [g0 H0].
  destruct (row_as_tab rows 1 Hwf ltac:(lia)) as [g1 H1].
  destruct (row_as_tab rows 2 Hwf ltac:(lia)) as [g2 H2].
  destruct (random_row_ok rows 0 g0 (block p) rng Hwf H0 ltac:(lia)) as (h0 & rng0 & Hr0). rewrite Hr0. mstep.
  set (k0 j := if Nat.ltb j (block p) then h0 j else g0 j) in *.
  destruct (Henc k0) as (f0 & Hf0 & _ & Hx0 & _).
  rewrite (row_mut_tab _ _ k0 (samples wd f0)); [|by apply insert_wf|apply list_lookup_insert_eq; lia|apply Hx0|apply length_samples].
  mstep. rewrite list_insert_insert_eq, Hdenc. mstep.
  set (rows0 := <[0%nat := samples wd f0]> rows).
  assert (rows_wf wd rows0) as Hwf0 by by apply insert_wf.
  assert (rows0 !! 1%nat = Some (tab g1 wd)) as H1' by (unfold rows0; by rewrite list_lookup_insert_ne).
  assert (rows0 !! 2%nat = Some (tab g2 wd)) as H2' by (unfold rows0; by rewrite list_lookup_insert_ne).
  assert (length rows0 = length rows) as Hl0 by apply length_insert.
  destruct (random_row_ok rows0 1 g1 (dblock p) rng0 Hwf0 H1' ltac:(lia)) as (h1 & rng1 & Hr1). rewrite Hr1. mstep.
  set (k1 j := if Nat.ltb j (dblock p) then h1 j else g1 j) in *.
  assert (rows_wf wd (<[1%nat := tab k1 wd]> rows0)) as Hwf1 by by apply insert_wf.
  assert (<[1%nat := tab k1 wd]> rows0 !! 1%nat = Some (tab k1 wd)) as Hk1 by (apply list_lookup_insert_eq; lia).
  rewrite (row_mk _ _ _ _ Hwf1 Hk1). mstep. rewrite slice_tab by lia. mstep. cbv zeta. rewrite dot1_tab.
  replace (p_r p + p_w p - p_r p)%nat with (p_w p) by lia.
  rewrite (get_mk _ _ _ (p_r p) _ (k1 (p_r p)) Hwf1 Hk1) by (apply lookup_tab; lia). mstep.
  erewrite (set_mk _ _ _ _ _ _ Hwf1 Hk1) by lia. mstep. rewrite list_insert_insert_eq, insert_tab.
  set (s := sigma _ _). set (k1' i := if Nat.eqb i (p_r p) then _ else _).
  destruct (Hdext k1') as (f1 & Hf1 & Hv1 & Hx1 & _).
  rewrite (row_mut_tab _ _ k1' (samples wd f1)); [|by apply insert_wf|apply list_lookup_insert_eq; lia|apply Hx1|apply length_samples].
  mstep. rewrite list_insert_insert_eq. set (rows1 := <[1%nat := samples wd f1]> rows0).
  assert (rows_wf wd rows1) as Hwf1' by by apply insert_wf.
  assert (rows1 !! 2%nat = Some (tab g2 wd)) as H2'' by (unfold rows1; by rewrite list_lookup_insert_ne).
  assert (length rows1 = length rows) as Hl1 by (unfold rows1; by rewrite length_insert).
  destruct (random_row_ok rows1 2 g2 (dblock p) rng1 Hwf1' H2'' ltac:(lia)) as (h2 & rng2 & Hr2). rewrite Hr2. mstep.
  set (k2 j := if Nat.ltb j (dblock p) then h2 j else g2 j) in *.
  erewrite (row_mut_tab _ _ k2); [|by apply insert_wf|apply list_lookup_insert_eq; lia|apply clear_slice_ok; lia|apply length_tab].
  mstep. rewrite list_insert_insert_eq. set (k2' i := if _ && _ then _ else _).
  destruct (Hdext k2') as (f2 & Hf2 & Hv2 & Hx2 & _).
  rewrite (row_mut_tab _ _ k2' (samples wd f2)); [|by apply insert_wf|apply list_lookup_insert_eq; lia|apply Hx2|apply length_samples].
  mstep. rewrite list_insert_insert_eq. eexists _, rng2. split; [reflexivity|].
  split; [by apply insert_wf|]. split; [by rewrite length_insert|]. split.
  { intros i Hi. unfold rows1, rows0. by rewrite !list_lookup_insert_ne by lia. }
  split; [|split].
  - exists f0. split; [done|]. unfold rows1, rows0. rewrite !list_lookup_insert_ne by done. apply list_lookup_insert_eq. lia.
  - exists f1. split; [done|]. split.
    { unfold rows1. rewrite !list_lookup_insert_ne by done. apply list_lookup_insert_eq. lia. }
    destruct (p_w p) as [|w] eqn:Hw; [lia|]. cbn [seq]. rewrite sigma_cons, Nat.add_0_r, Hv1 by lia.
    unfold k1'. rewrite Nat.eqb_refl. unfold s. cbn [seq]. rewrite sigma_cons, Nat.add_0_r.
    erewrite (sigma_ext (seq 1 w) (fun j => f1 _)).
    2:{ intros j [Hj Hj']%elem_of_seq. rewrite Hv1 by lia. unfold k1'. rewrite (proj2 (Nat.eqb_neq _ _)) by lia. reflexivity. }
    ring.
  - exists (samples wd f2). split; [apply list_lookup_insert_eq; lia|]. exists f2. split; [done|]. split; [done|].
    intros j Hj. rewrite Hv2 by lia. unfold k2'. by rewrite (proj2 (Nat.leb_le _ _)), (proj2 (Nat.ltb_lt _ _)) by lia.
Qed.

(** *** The witness rows *)
Context (witness : list E) (Hwitness : p_nw p <= length witness).

Definition wit_cell (i j : nat) : E :=
  if Nat.ltb (i * p_w p + j) (p_nw p) then at0 witness (i * p_w p + j) else 0.

Lemma slice_at0 {Err} (v : list E) a b :
  a <= b <= length v -> slice (E:=Err) v a b = Ok (tab (fun j => at0 v (a + j)) (b - a)).
Proof. intros Hab. rewrite <- (tab_at0 v) at 1. by apply slice_tab. Qed.

Lemma fill_witness_ok {Err} i g :
  (i * p_w p < p_nw p)%nat ->
  layout.fill_witness (Err:=Err) p witness i (tab g wd)
  = Ok (tab (fun j => if Nat.leb (p_r p) j && Nat.ltb j (p_r p + p_w p) then wit_cell i (j - p_r p) else g j) wd).
Proof.
  intros Hi. destruct widths as (Hwd & Hbd & Hdw & Hb & Hrw). unfold layout.fill_witness.
  set (mx := Nat.min (p_w p) (p_nw p - i * p_w p)). assert (0 < mx <= p_w p) as Hmx by (pose proof (po_w _ Hp); lia).
  apply slice_mut_tab; [lia|]. replace (p_r p + p_w p - p_r p)%nat with (p_w p) by lia.
  rewrite (slice_mut_tab _ (fun j => at0 witness (i * p_w p + j))); [|lia|].
  2:{ rewrite slice_at0 by lia. mstep. rewrite Nat.sub_0_r, clone_from_slice_Ok by (rewrite !length_tab; lia).
      by replace (i * p_w p + mx - i * p_w p)%nat with mx by lia. }
  mstep. destruct (Nat.ltb_spec mx (p_w p)).
  - rewrite clear_slice_ok by lia. apply (f_equal Ok), tab_ext. intros j Hj. unfold wit_cell.
    rewrite Nat.sub_0_r. cbn [Nat.leb andb].
    destruct (Nat.leb_spec mx j), (Nat.ltb_spec j (p_w p)), (Nat.ltb_spec j mx), (Nat.ltb_spec (i * p_w p + j) (p_nw p));
      cbn [andb]; try lia; done.
  - apply (f_equal Ok), tab_ext. intros j Hj. unfold wit_cell. rewrite Nat.sub_0_r. cbn [Nat.leb andb].
    destruct (Nat.ltb_spec j mx), (Nat.ltb_spec (i * p_w p + j) (p_nw p)); cbn [andb]; try lia; done.
Qed.

Context (boundary : nat) (Hbound : boundary <= p_nw p) (Hboundary : Forall (fun e => sf_contains e = true) (take boundary witness)).

Lemma witness_row_ok rows enc rng i :
  rows_wf wd rows -> i + iw p < length rows -> i < nwrow p -> extends wd (block p) enc ->
  exists row rng', layout.layout_witness_row boundary witness p enc (mk wd rows, rng) i
    = Ok (mk wd (<[(i + iw p)%nat := row]> rows), rng') /\ length row = wd /\ row_spec (block p) (wit_cell i) row.
Proof.
  intros Hwf Hi Hn Henc. destruct widths as (Hwd & Hbd & Hdw & Hb & Hrw).
  pose proof (po_nwrow _ Hp) as Hnw. destruct (div_ceil_spec (p_nw p) (p_w p) (po_w _ Hp)) as [_ Hlt].
  specialize (Hlt i ltac:(lia)). destruct (row_as_tab rows _ Hwf Hi) as [g Hg].
  unfold layout.layout_witness_row.
  destruct (Nat.leb_spec ((i + 1) * p_w p) boundary) as [Hsub|Hsub].
  - destruct (random_subfield_row_ok rows _ g (p_r p) rng Hwf Hg ltac:(lia)) as (h & rng' & -> & Hh). mstep.
    erewrite row_mut_tab; [|by apply insert_wf|apply list_lookup_insert_eq; lia|by apply fill_witness_ok|apply length_tab].
    mstep. rewrite list_insert_insert_eq. set (k j := if _ && _ then _ else _).
    destruct (Henc k) as (f & Hf & Hv & _ & Hx).
    rewrite (row_mut_tab _ _ k (samples wd f)); [|by apply insert_wf|apply list_lookup_insert_eq; lia| |apply length_samples].
    + mstep. rewrite list_insert_insert_eq. exists (samples wd f), rng'. split; [done|]. split; [apply length_samples|].
      exists f. split; [done|]. split; [done|]. intros j Hj. rewrite Hv by lia. unfold k.
      rewrite (proj2 (Nat.leb_le _ _)), (proj2 (Nat.ltb_lt _ _)) by lia. cbn [andb]. f_equal. lia.
    + apply Hx. apply Forall_forall. intros e He. apply list_elem_of_In, in_map_iff in He as (j & <- & Hj).
      apply in_seq in Hj. unfold k. destruct (Nat.leb_spec (p_r p) j); cbn [andb].
      * rewrite (proj2 (Nat.ltb_lt _ _)) by lia. unfold wit_cell. destruct (Nat.ltb_spec (i * p_w p + (j - p_r p)) (p_nw p)).
        -- rewrite Forall_lookup in Hboundary. apply (Hboundary (i * p_w p + (j - p_r p))%nat).
           rewrite lookup_take_lt by nia. apply at0_lt. lia.
        -- exfalso. nia.
      * rewrite (proj2 (Nat.ltb_lt _ _)) by lia. by apply Hh.
  - destruct (random_row_ok rows _ g (p_r p) rng Hwf Hg ltac:(lia)) as (h & rng' & ->). mstep.
    erewrite row_mut_tab; [|by apply insert_wf|apply list_lookup_insert_eq; lia|by apply fill_witness_ok|apply length_tab].
    mstep. rewrite list_insert_insert_eq. set (k j := if _ && _ then _ else _).
    destruct (Henc k) as (f & Hf & Hv & Hx & _).
    rewrite (row_mut_tab _ _ k (samples wd f)); [|by apply insert_wf|apply list_lookup_insert_eq; lia|apply Hx|apply length_samples].
    mstep. rewrite list_insert_insert_eq. exists (samples wd f), rng'. split; [done|]. split; [apply length_samples|].
    exists f. split; [done|]. split; [done|]. intros j Hj. rewrite Hv by lia. unfold k.
    rewrite (proj2 (Nat.leb_le _ _)), (proj2 (Nat.ltb_lt _ _)) by lia. cbn [andb]. f_equal. lia.
Qed.

Lemma witness_rows_ok rows enc rng :
  rows_wf wd rows -> iw p + nwrow p <= length rows -> extends wd (block p) enc ->
  exists rows' rng', layout.layout_witness_rows boundary witness p (mk wd rows) enc rng = Ok (mk wd rows', rng') /\
    rows_wf wd rows' /\ length rows' = length rows /\
    (forall i, i < iw p \/ iw p + nwrow p <= i -> rows' !! i = rows !! i) /\
    (forall i, i < nwrow p -> exists row, rows' !! (i + iw p)%nat = Some row /\ row_spec (block p) (wit_cell i) row).
Proof.
  intros Hwf Hl Henc. unfold layout.layout_witness_rows.
  enough (forall n, n <= nwrow p ->
    exists rows' rng', foldM (layout.layout_witness_row boundary witness p enc) (mk wd rows, rng) (seq 0 n) = Ok (mk wd rows', rng') /\
      rows_wf wd rows' /\ length rows' = length rows /\
      (forall i, i < iw p \/ iw p + n <= i -> rows' !! i = rows !! i) /\
      (forall i, i < n -> exists row, rows' !! (i + iw p)%nat = Some row /\ row_spec (block p) (wit_cell i) row)) as Hg
    by (by apply Hg).
  induction n as [|n IH]; intros Hn.
  { exists rows, rng. split_and!; try done. lia. }
  destruct IH as (rows1 & rng1 & Hr & Hwf1 & Hl1 & Hsame & Hspec); [lia|].
  destruct (witness_row_ok rows1 enc rng1 n Hwf1) as (row & rng2 & Hrow & Hlen & Hs); [lia|lia|done|].
  exists (<[(n + iw p)%nat := row]> rows1), rng2. rewrite seq_S, foldM_app, Hr. mstep. cbn [foldM Nat.add]. rewrite Hrow. mstep.
  split; [done|]. split; [by apply rows_wf_insert|]. split; [by rewrite length_insert|]. split.
  - intros i Hi. rewrite list_lookup_insert_ne by lia. apply Hsame. lia.
  - intros i Hi. destruct (decide (i = n)) as [->|].
    + exists row. split; [apply list_lookup_insert_eq; lia|done].
    + rewrite list_lookup_insert_ne by lia. apply Hspec. lia.
Qed.

(** *** The quadratic rows *)
Context (qcs : list LigeroQuadraticConstraint) (Hqcs : p_nq p <= length qcs).
Context (Hqs : forall k l, k < p_nq p -> qcs !! k = Some l ->
  qc_x l < p_nw p /\ qc_y l < p_nw p /\ qc_z l < p_nw p).

(** The factor [sel] of constraint [i * w + j]. *)
Definition quad_cell (sel : LigeroQuadraticConstraint -> nat) (i j : nat) : E :=
  if Nat.ltb (i * p_w p + j) (p_nq p)
  then match qcs !! (j + i * p_w p)%nat with Some l => at0 witness (sel l) | None => 0 end else 0.

(** Three rows change together. *)
Definition three (rows : list (list E)) (i : nat) (gx gy gz : nat -> E) : list (list E) :=
  <[(iq p + 2 * nqtriples p + i)%nat := tab gz wd]>
    (<[(iq p + nqtriples p + i)%nat := tab gy wd]> (<[(iq p + i)%nat := tab gx wd]> rows)).

Section row.
Context (i : nat) (Hi : i < nqtriples p).
Context (rows : list (list E)) (Hwf : rows_wf wd rows) (Hl : iq p + 3 * nqtriples p <= length rows).

Lemma three_wf gx gy gz : rows_wf wd (three rows i gx gy gz).
Proof. by repeat apply insert_wf. Qed.
Lemma three_length gx gy gz : length (three rows i gx gy gz) = length rows.
Proof. unfold three. by rewrite !length_insert. Qed.
Lemma three_x gx gy gz : three rows i gx gy gz !! (iq p + i)%nat = Some (tab gx wd).
Proof. unfold three. rewrite !list_lookup_insert_ne by lia. apply list_lookup_insert_eq. lia. Qed.
Lemma three_y gx gy gz : three rows i gx gy gz !! (iq p + nqtriples p + i)%nat = Some (tab gy wd).
Proof. unfold three. rewrite list_lookup_insert_ne by lia. apply list_lookup_insert_eq. rewrite length_insert. lia. Qed.
Lemma three_z gx gy gz : three rows i gx gy gz !! (iq p + 2 * nqtriples p + i)%nat = Some (tab gz wd).
Proof. unfold three. apply list_lookup_insert_eq. rewrite !length_insert. lia. Qed.
Lemma three_same gx gy gz k :
  k <> (iq p + i)%nat -> k <> (iq p + nqtriples p + i)%nat -> k <> (iq p + 2 * nqtriples p + i)%nat ->
  three rows i gx gy gz !! k = rows !! k.
Proof. intros. unfold three. by rewrite !list_lookup_insert_ne by done. Qed.
(** Writing one of the three again. *)
Lemma three_insert_x gx gy gz g : <[(iq p + i)%nat := tab g wd]> (three rows i gx gy gz) = three rows i g gy gz.
Proof.
  unfold three. rewrite (list_insert_insert_ne _ (iq p + i) (iq p + 2 * nqtriples p + i)) by lia.
  rewrite (list_insert_insert_ne _ (iq p + i) (iq p + nqtriples p + i)) by lia. by rewrite list_insert_insert_eq.
Qed.
Lemma three_insert_y gx gy gz g : <[(iq p + nqtriples p + i)%nat := tab g wd]> (three rows i gx gy gz) = three rows i gx g gz.
Proof.
  unfold three. rewrite (list_insert_insert_ne _ (iq p + nqtriples p + i) (iq p + 2 * nqtriples p + i)) by lia.
  by rewrite list_insert_insert_eq.
Qed.
Lemma three_insert_z gx gy gz g : <[(iq p + 2 * nqtriples p + i)%nat := tab g wd]> (three rows i gx gy gz) = three rows i gx gy g.
Proof. unfold three. by rewrite list_insert_insert_eq. Qed.

Lemma row_mut_x {Err} gx gy gz g body : body (tab gx wd) = Ok (tab g wd) ->
  tableau.row_mut (Err:=Err) (mk wd (three rows i gx gy gz)) (iq p + i) body = Ok (mk wd (three rows i g gy gz)).
Proof. intros Hb. erewrite row_mut_tab; [|apply three_wf|apply three_x|exact Hb|apply length_tab]. by rewrite three_insert_x. Qed.
Lemma row_mut_y {Err} gx gy gz g body : body (tab gy wd) = Ok (tab g wd) ->
  tableau.row_mut (Err:=Err) (mk wd (three rows i gx gy gz)) (iq p + nqtriples p + i) body = Ok (mk wd (three rows i gx g gz)).
Proof. intros Hb. erewrite row_mut_tab; [|apply three_wf|apply three_y|exact Hb|apply length_tab]. by rewrite three_insert_y. Qed.
Lemma row_mut_z {Err} gx gy gz g body : body (tab gz wd) = Ok (tab g wd) ->
  tableau.row_mut (Err:=Err) (mk wd (three rows i gx gy gz)) (iq p + 2 * nqtriples p + i) body = Ok (mk wd (three rows i gx gy g)).
Proof. intros Hb. erewrite row_mut_tab; [|apply three_wf|apply three_z|exact Hb|apply length_tab]. by rewrite three_insert_z. Qed.
Lemma row_mut_three {Err} gx gy gz hx hy hz body :
  body (tab gx wd) = Ok (tab hx wd) -> body (tab gy wd) = Ok (tab hy wd) -> body (tab gz wd) = Ok (tab hz wd) ->
  foldM (fun t row => tableau.row_mut (Err:=Err) t row body) (mk wd (three rows i gx gy gz))
    [(iq p + i)%nat; (iq p + nqtriples p + i)%nat; (iq p + 2 * nqtriples p + i)%nat]
  = Ok (mk wd (three rows i hx hy hz)).
Proof.
  intros Hx Hy Hz. cbn [foldM]. rewrite (row_mut_x _ _ _ hx) by done. mstep.
  rewrite (row_mut_y _ _ _ hy) by done. mstep. by rewrite (row_mut_z _ _ _ hz).
Qed.

(** The cells of the constraints copied so far. *)
Definition copied (sel : LigeroQuadraticConstraint -> nat) (n : nat) (g : nat -> E) (c : nat) : E :=
  if Nat.leb (p_r p) c && Nat.ltb c (p_r p + n) then quad_cell sel i (c - p_r p) else g c.
Lemma copied_step sel n g l :
  (i * p_w p + n < p_nq p)%nat -> qcs !! (n + i * p_w p)%nat = Some l ->
  tab (fun c => if Nat.eqb c (n + p_r p) then at0 witness (sel l) else copied sel n g c) wd = tab (copied sel (S n) g) wd.
Proof.
  intros Hn Hq. apply tab_ext. intros c Hc. unfold copied. destruct (Nat.eqb_spec c (n + p_r p)) as [->|].
  - rewrite (proj2 (Nat.leb_le _ _)), (proj2 (Nat.ltb_lt _ _)) by lia. cbn [andb]. unfold quad_cell.
    replace (n + p_r p - p_r p)%nat with n by lia. rewrite (proj2 (Nat.ltb_lt _ _)) by done. by rewrite Hq.
  - destruct (Nat.leb_spec (p_r p) c), (Nat.ltb_spec c (p_r p + n)), (Nat.ltb_spec c (p_r p + S n)); cbn [andb]; try lia; done.
Qed.

Lemma copy_factors_ok {Err} gx gy gz n :
  n <= p_w p -> (i * p_w p + n <= p_nq p)%nat ->
  foldM (layout.copy_factors (Err:=Err) witness p qcs i) (mk wd (three rows i gx gy gz)) (seq 0 n)
  = Ok (mk wd (three rows i (copied qc_x n gx) (copied qc_y n gy) (copied qc_z n gz))).
Proof.
  destruct widths as (Hwd & Hbd & Hdw & Hb & Hrw).
  induction n as [|n IH]; intros Hn Hnq.
  { cbn [seq foldM]. unfold three.
    assert (forall sel g, tab (copied sel 0 g) wd = tab g wd) as Ht.
    { intros sel g. apply tab_ext. intros c Hc. unfold copied.
      destruct (Nat.leb_spec (p_r p) c), (Nat.ltb_spec c (p_r p + 0)); cbn [andb]; try lia; done. }
    by rewrite !Ht. }
  rewrite seq_S, foldM_app, IH by lia. mstep. cbn [foldM Nat.add]. unfold layout.copy_factors.
  destruct (lookup_lt_is_Some_2 qcs (n + i * p_w p)%nat) as [l Hq]; [lia|].
  rewrite (proj2 (index_Ok _ _ _) Hq). mstep. destruct (Hqs (n + i * p_w p)%nat l ltac:(lia) Hq) as (Hx & Hy & Hz).
  rewrite !index_at0 by lia. mstep.
  rewrite (set_mk _ _ _ _ _ _ (three_wf _ _ _) (three_x _ _ _)) by lia. mstep.
  rewrite insert_tab, (copied_step qc_x) by (done || lia). rewrite three_insert_x.
  rewrite (set_mk _ _ _ _ _ _ (three_wf _ _ _) (three_y _ _ _)) by lia. mstep.
  rewrite insert_tab, (copied_step qc_y) by (done || lia). rewrite three_insert_y.
  rewrite (set_mk _ _ _ _ _ _ (three_wf _ _ _) (three_z _ _ _)) by lia. mstep.
  rewrite insert_tab, (copied_step qc_z) by (done || lia). by rewrite three_insert_z.
Qed.

Lemma random_three rng : exists gx gy gz rng',
  ('(t, rng) ← layout.random_row (iq p + i) (p_r p) (mk wd rows) rng;
   '(t, rng) ← layout.random_row (iq p + nqtriples p + i) (p_r p) t rng;
   layout.random_row (iq p + 2 * nqtriples p + i) (p_r p) t rng) = Ok (mk wd (three rows i gx gy gz), rng').
Proof.
  destruct widths as (Hwd & Hbd & Hdw & Hb & Hrw).
  destruct (row_as_tab rows (iq p + i) Hwf ltac:(lia)) as [g0 H0].
  destruct (random_row_ok rows _ g0 (p_r p) rng Hwf H0 ltac:(lia)) as (h0 & rng0 & ->). mstep.
  set (rows0 := <[_ := _]> rows). assert (rows_wf wd rows0) as Hwf0 by by apply insert_wf.
  destruct (row_as_tab rows0 (iq p + nqtriples p + i) Hwf0) as [g1 H1]; [unfold rows0; rewrite length_insert; lia|].
  destruct (random_row_ok rows0 _ g1 (p_r p) rng0 Hwf0 H1 ltac:(lia)) as (h1 & rng1 & ->). mstep.
  set (rows1 := <[_ := _]> rows0). assert (rows_wf wd rows1) as Hwf1 by by apply insert_wf.
  destruct (row_as_tab rows1 (iq p + 2 * nqtriples p + i) Hwf1) as [g2 H2]; [unfold rows1, rows0; rewrite !length_insert; lia|].
  destruct (random_row_ok rows1 _ g2 (p_r p) rng1 Hwf1 H2 ltac:(lia)) as (h2 & rng2 & ->). by do 4 eexists.
Qed.

Lemma quadratic_row_ok enc rng :
  extends wd (block p) enc ->
  exists fx fy fz rng',
    layout.layout_quadratic_row witness p qcs enc (mk wd rows, rng) i
    = Ok (mk wd (three rows i (fun j => fx (pts j)) (fun j => fy (pts j)) (fun j => fz (pts j))), rng') /\
    (is_poly (block p) fx /\ slots (p_r p) (p_w p) fx (quad_cell qc_x i)) /\
    (is_poly (block p) fy /\ slots (p_r p) (p_w p) fy (quad_cell qc_y i)) /\
    (is_poly (block p) fz /\ slots (p_r p) (p_w p) fz (quad_cell qc_z i)).
Proof.
  intros Henc. destruct widths as (Hwd & Hbd & Hdw & Hb & Hrw). pose proof (po_w _ Hp) as Hw.
  destruct (div_ceil_spec (p_nq p) (p_w p) Hw) as [_ Hlt]. rewrite <- (po_nqtriples _ Hp) in Hlt. specialize (Hlt i Hi).
  destruct (random_three rng) as (gx & gy & gz & rng' & Hr). unfold layout.layout_quadratic_row.
  apply bind_Ok_inv in Hr as ([t0 r0] & -> & Hr). mstep. apply bind_Ok_inv in Hr as ([t1 r1] & -> & Hr). mstep.
  rewrite Hr. mstep. set (mx := Nat.min (p_w p) (p_nq p - i * p_w p)). rewrite copy_factors_ok by lia. mstep.
  set (k (sel : LigeroQuadraticConstraint -> nat) (g : nat -> E) c :=
    if Nat.leb (p_r p + mx) c && Nat.ltb c (p_r p + p_w p) then 0 else copied sel mx g c).
  assert (exists kx ky kz, (if Nat.ltb mx (p_w p) then
      foldM (fun t row => tableau.row_mut t row (layout.clear_slice (p_r p + mx) (p_r p + p_w p)))
        (mk wd (three rows i (copied qc_x mx gx) (copied qc_y mx gy) (copied qc_z mx gz)))
        [(iq p + i)%nat; (iq p + nqtriples p + i)%nat; (iq p + 2 * nqtriples p + i)%nat]
      else mret (mk wd (three rows i (copied qc_x mx gx) (copied qc_y mx gy) (copied qc_z mx gz))))
    = @Ok stuck _ (mk wd (three rows i kx ky kz)) /\
    (forall j, j < p_w p -> kx (p_r p + j)%nat = quad_cell qc_x i j) /\
    (forall j, j < p_w p -> ky (p_r p + j)%nat = quad_cell qc_y i j) /\
    (forall j, j < p_w p -> kz (p_r p + j)%nat = quad_cell qc_z i j)) as (kx & ky & kz & -> & Hkx & Hky & Hkz).
  { destruct (Nat.ltb_spec mx (p_w p)).
    - exists (k qc_x gx), (k qc_y gy), (k qc_z gz). split.
      { apply row_mut_three; apply clear_slice_ok; lia. }
      assert (forall sel g j, j < p_w p -> k sel g (p_r p + j)%nat = quad_cell sel i j) as Hk; [|split_and!; apply Hk].
      intros sel g j Hj. unfold k, copied. replace (p_r p + j - p_r p)%nat with j by lia.
      destruct (Nat.leb_spec (p_r p + mx) (p_r p + j)), (Nat.ltb_spec (p_r p + j) (p_r p + p_w p)),
        (Nat.leb_spec (p_r p) (p_r p + j)), (Nat.ltb_spec (p_r p + j) (p_r p + mx)); cbn [andb]; try lia; try done.
      unfold quad_cell. by rewrite (proj2 (Nat.ltb_ge _ _)) by lia.
    - do 3 eexists. split; [reflexivity|].
      assert (forall sel g j, j < p_w p -> copied sel mx g (p_r p + j)%nat = quad_cell sel i j) as Hk; [|split_and!; apply Hk].
      intros sel g j Hj. unfold copied. replace (p_r p + j - p_r p)%nat with j by lia.
      by rewrite (proj2 (Nat.leb_le _ _)), (proj2 (Nat.ltb_lt _ _)) by lia. }
  mstep. destruct (Henc kx) as (fx & Hfx & Hvx & Hxx & _), (Henc ky) as (fy & Hfy & Hvy & Hxy & _),
    (Henc kz) as (fz & Hfz & Hvz & Hxz & _).
  rewrite (row_mut_three kx ky kz (fun j => fx (pts j)) (fun j => fy (pts j)) (fun j => fz (pts j)))
    by first [apply Hxx|apply Hxy|apply Hxz].
  mstep. exists fx, fy, fz, rng'. split; [done|].
  split_and!; try done; intros j Hj; rewrite ?Hvx, ?Hvy, ?Hvz by lia; [by apply Hkx|by apply Hky|by apply Hkz].
Qed.
End row.

Definition triple_spec (rows : list (list E)) (i : nat) : Prop :=
  (exists row, rows !! (iq p + i)%nat = Some row /\ row_spec (block p) (quad_cell qc_x i) row) /\
  (exists row, rows !! (iq p + nqtriples p + i)%nat = Some row /\ row_spec (block p) (quad_cell qc_y i) row) /\
  (exists row, rows !! (iq p + 2 * nqtriples p + i)%nat = Some row /\ row_spec (block p) (quad_cell qc_z i) row).

Lemma quadratic_rows_ok rows enc rng :
  rows_wf wd rows -> iq p + 3 * nqtriples p <= length rows -> extends wd (block p) enc ->
  exists rows' rng', layout.layout_quadratic_rows witness p (mk wd rows) qcs enc rng = Ok (mk wd rows', rng') /\
    rows_wf wd rows' /\ length rows' = length rows /\ (forall i, i < iq p -> rows' !! i = rows !! i) /\
    (forall i, i < nqtriples p -> triple_spec rows' i).
Proof.
  intros Hwf Hl Henc. unfold layout.layout_quadratic_rows.
  enough (forall n, n <= nqtriples p ->
    exists rows' rng', foldM (layout.layout_quadratic_row witness p qcs enc) (mk wd rows, rng) (seq 0 n) = Ok (mk wd rows', rng') /\
      rows_wf wd rows' /\ length rows' = length rows /\ (forall i, i < iq p -> rows' !! i = rows !! i) /\
      (forall i, i < n -> triple_spec rows' i)) as Hg by (by apply Hg).
  induction n as [|n IH]; intros Hn.
  { exists rows, rng. split_and!; try done. lia. }
  destruct IH as (rows1 & rng1 & Hr & Hwf1 & Hl1 & Hsame & Hspec); [lia|].
  destruct (quadratic_row_ok n ltac:(lia) rows1 Hwf1 ltac:(lia) enc rng1 Henc)
    as (fx & fy & fz & rng2 & Hrow & (Px & Sx) & (Py & Sy) & (Pz & Sz)).
  eexists _, rng2. rewrite seq_S, foldM_app, Hr. mstep. cbn [foldM Nat.add]. rewrite Hrow. mstep.
  split; [done|]. split; [by apply three_wf|]. split; [by rewrite three_length|]. split.
  - intros i Hi. rewrite three_same by lia. by apply Hsame.
  - intros i Hi. destruct (decide (i = n)) as [->|].
    + split; [|split].
      * exists (samples wd fx). split; [apply three_x; lia|]. by exists fx.
      * exists (samples wd fy). split; [apply three_y; lia|]. by exists fy.
      * exists (samples wd fz). split; [apply three_z; lia|]. by exists fz.
    + destruct (Hspec i ltac:(lia)) as (Hx & Hy & Hz). unfold triple_spec. rewrite !three_same by lia. done.
Qed.

(** ** The whole layout *)
Record layout_spec (rows : list (list E)) : Prop := {
  ls_wf : rows_wf wd rows;
  ls_len : length rows = nrow p;
  ls_blinding : blinding_spec rows;
  ls_witness i : i < nwrow p -> exists row, rows !! (i + iw p)%nat = Some row /\ row_spec (block p) (wit_cell i) row;
  ls_triples i : i < nqtriples p -> triple_spec rows i
}.

Lemma layout_ok rng :
  exists rows rng', layout.layout boundary witness p qcs rng = Ok (mk wd rows, rng') /\ layout_spec rows.
Proof.
  destruct widths as (Hwd & Hbd & Hdw & Hb & Hrw). pose proof Hp as Hp'. destruct Hp'.
  unfold layout.layout. rewrite new_mk. destruct (extend_ok wd (block p) ltac:(lia) po_encode0) as (enc & Henc & Hext).
  rewrite Henc. mstep. set (rows0 := replicate _ _).
  assert (rows_wf wd rows0) as Hwf0 by (apply Forall_replicate; by rewrite length_replicate).
  assert (length rows0 = nrow p) as Hl0 by apply length_replicate.
  destruct (blinding_rows_ok rows0 enc rng Hwf0 ltac:(lia) Hext) as (rows1 & rng1 & -> & Hwf1 & Hl1 & Hs1 & Hb1). mstep.
  destruct (witness_rows_ok rows1 enc rng1 Hwf1 ltac:(lia) Hext) as (rows2 & rng2 & -> & Hwf2 & Hl2 & Hs2 & Hb2). mstep.
  destruct (quadratic_rows_ok rows2 enc rng2 Hwf2 ltac:(lia) Hext) as (rows3 & rng3 & -> & Hwf3 & Hl3 & Hs3 & Hb3).
  exists rows3, rng3. split; [done|]. split; [done|lia| | |done].
  - destruct Hb1 as (H0 & H1 & H2). unfold blinding_spec.
    rewrite !Hs3 by lia. rewrite !Hs2 by lia. done.
  - intros i Hi. rewrite Hs3 by lia. by apply Hb2.
Qed.
End groups.
End layout.
