(* ===== verification/LigeroBatch.v ===== *)
(** * The batched constraints

    [inner_product_vector] pairs with any assignment of the witness and factor
    slots to the combination of the linear constraints and of the copy
    constraints of the quadratic rows; the responses of the prover. *)
From stdpp Require Import prelude strings.
From Stdlib Require Import Lia NArith Ring Ring_theory.
From S2P Require Import Prelude Words Interfaces Merkle Field FieldFacts Transcript SumcheckV1 Interpolation RangeInterpolation Ligero TableauFacts.

Local Open Scope fe_scope.

Section batch.
Context {E : Type} `{AF : AlgebraicField E} `{!AlgebraicFieldLaws E}.
Add Ring field_ring_batch : (field_ring (E:=E)).

Definition pairing (n : nat) (a : list E) (X : nat -> E) : E := sigma (seq 0 n) (fun k => at0 a k * X k).

Lemma pairing_zeros n m X : pairing n (replicate m 0) X = 0.
Proof. apply sigma_zero. intros k _. rewrite at0_replicate. ring. Qed.
Lemma pairing_insert n a X i d :
  i < n -> i < length a -> pairing n (<[i := at0 a i + d]> a) X = pairing n a X + d * X i.
Proof.
  intros Hn Hi. unfold pairing.
  assert (d * X i = sigma (seq 0 n) (fun k => (if Nat.eqb k i then d else 0) * X k)) as ->.
  { rewrite (sigma_single n i); [by rewrite Nat.eqb_refl|done|].
    intros k Hk. rewrite (proj2 (Nat.eqb_neq _ _)) by done. ring. }
  rewrite <- sigma_add. apply sigma_ext. intros k _. rewrite at0_insert by done. destruct (Nat.eqb_spec k i) as [->|]; ring.
Qed.
(** The same sum, in rows of [w]. *)
Lemma sigma_rows (g : nat -> E) w n m :
  m <= n * w ->
  sigma (seq 0 n) (fun i => sigma (seq 0 (Nat.min w (m - i * w))) (fun j => g (j + i * w)%nat)) = sigma (seq 0 m) g.
Proof.
  revert m. induction n as [|n IH]; intros m Hm.
  { replace m with 0%nat by lia. done. }
  rewrite seq_S, sigma_app, sigma_cons. cbn [Nat.add].
  transitivity (sigma (seq 0 (Nat.min m (n * w))) g + sigma (seq 0 (Nat.min w (m - n * w))) (fun j => g (j + n * w)%nat)).
  - f_equal; [|unfold sigma at 2; cbn; ring].
    rewrite <- (IH (Nat.min m (n * w))) by lia. apply sigma_ext. intros i [_ Hi]%elem_of_seq.
    replace (Nat.min w (Nat.min m (n * w) - i * w)) with (Nat.min w (m - i * w)) by nia. done.
  - destruct (decide (m <= n * w)).
    + replace (Nat.min w (m - n * w)) with 0%nat by lia. rewrite Nat.min_l by lia. unfold sigma at 2. cbn. ring.
    + rewrite !Nat.min_r by nia. replace m with (n * w + (m - n * w))%nat at 2 by lia. rewrite seq_app, sigma_app. f_equal.
      replace (seq (0 + n * w) (m - n * w)) with (map (Nat.add (n * w)) (seq 0 (m - n * w)))
        by (etransitivity; [exact (fmap_add_seq (n * w) 0 (m - n * w))|]; by rewrite Nat.add_0_r).
      rewrite sigma_map. apply sigma_ext. intros. f_equal. lia.
Qed.
Lemma sigma_grid (g : nat -> E) w n :
  sigma (seq 0 n) (fun i => sigma (seq 0 w) (fun j => g (j + i * w)%nat)) = sigma (seq 0 (n * w)) g.
Proof.
  rewrite <- (sigma_rows g w n (n * w)) by lia. apply sigma_ext. intros i [_ Hi]%elem_of_seq.
  by replace (Nat.min w (n * w - i * w)) with w by nia.
Qed.

(** The error type of a batch that succeeds does not matter. *)
Section any.
Context {Err Err' : Type}.
Lemma update_any (v : list E) i g r : common.update (Err:=Err) v i g = Ok r -> common.update (Err:=Err') v i g = Ok r.
Proof.
  unfold common.update. intros Hr. apply bind_Ok_inv in Hr as (e & He & Hr).
  rewrite (index_any _ _ _ He), bind_Ok. exact (store_any _ _ _ _ Hr).
Qed.
Lemma tie_copy_any copy wit alpha (a r : list E) :
  common.tie_copy (Err:=Err) copy wit alpha a = Ok r -> common.tie_copy (Err:=Err') copy wit alpha a = Ok r.
Proof.
  unfold common.tie_copy. intros Hr. apply bind_Ok_inv in Hr as (b & Hb & Hr).
  rewrite (update_any _ _ _ _ Hb), bind_Ok. by apply update_any.
Qed.
Lemma rust_assert_any (c : bool) : rust_assert (E:=Err) c = Ok tt -> rust_assert (E:=Err') c = Ok tt.
Proof. by destruct c. Qed.
Lemma inner_product_vector_any p llterm alphal lqc alphaq (r : list E) :
  common.inner_product_vector (Err:=Err) p llterm alphal lqc alphaq = Ok r ->
  common.inner_product_vector (Err:=Err') p llterm alphal lqc alphaq = Ok r.
Proof.
  unfold common.inner_product_vector. intros Hr. apply bind_Ok_inv in Hr as (a & Ha & Hr).
  erewrite foldM_any; [|intros s x r' Hx|exact Ha].
  - rewrite bind_Ok. revert Hr. apply foldM_any. intros s i r' Hi. revert Hi. unfold common.add_quadratic_row. apply foldM_any.
    intros s' j r'' Hj. unfold common.add_quadratic_copies in *. cbv zeta in *.
    apply bind_Ok_inv in Hj as (l & Hl & Hj). rewrite (index_any _ _ _ Hl), bind_Ok.
    do 3 (apply bind_Ok_inv in Hj as ([] & H0 & Hj); rewrite (rust_assert_any _ H0), bind_Ok; clear H0).
    apply bind_Ok_inv in Hj as ([[a0 a1] a2] & Haq & Hj). rewrite (index_any _ _ _ Haq), bind_Ok.
    apply bind_Ok_inv in Hj as (b & Hb & Hj). rewrite (tie_copy_any _ _ _ _ _ Hb), bind_Ok.
    apply bind_Ok_inv in Hj as (c & Hc & Hj). rewrite (tie_copy_any _ _ _ _ _ Hc), bind_Ok. by apply tie_copy_any.
  - unfold common.add_linear_term in *.
    do 2 (apply bind_Ok_inv in Hx as ([] & H0 & Hx); rewrite (rust_assert_any _ H0), bind_Ok; clear H0).
    apply bind_Ok_inv in Hx as (b & Hb & Hx). rewrite (index_any _ _ _ Hb), bind_Ok. by apply update_any.
Qed.
End any.

Section vector.
Context {Err : Type} (X : nat -> E).

Lemma update_ok (v : list E) i g : i < length v -> common.update (Err:=Err) v i g = Ok (<[i := g (at0 v i)]> v).
Proof. intros Hi. unfold common.update. rewrite index_at0 by done. mstep. by apply store_Ok. Qed.

(** A step adds [d] to what the vector pairs to. *)
Definition adds (n : nat) (m : outcome Err (list E)) (a : list E) (d : E) : Prop :=
  exists a', m = Ok a' /\ length a' = n /\ pairing n a' X = pairing n a X + d.

Lemma update_adds n a i g d :
  length a = n -> i < n -> (forall e, g e = e + d) -> adds n (common.update a i g) a (d * X i).
Proof.
  intros Hl Hi Hg. eexists. split; [apply update_ok; lia|]. split; [by rewrite length_insert|].
  rewrite Hg. apply pairing_insert; lia.
Qed.
Lemma adds_bind n m a d k d' :
  adds n m a d -> (forall a', length a' = n -> adds n (k a') a' d') -> adds n (m ≫= k) a (d + d').
Proof.
  intros (a1 & -> & Hl & Hp) Hk. destruct (Hk a1 Hl) as (a2 & H2 & Hl2 & Hp2). exists a2.
  split; [exact H2|]. split; [done|]. rewrite Hp2, Hp. ring.
Qed.
Lemma adds_eq n m a d d' : d = d' -> adds n m a d -> adds n m a d'.
Proof. by intros ->. Qed.
Lemma adds_foldM {I} n (body : list E -> I -> outcome Err (list E)) (d : I -> E) xs a :
  length a = n -> (forall x a, x ∈ xs -> length a = n -> adds n (body a x) a (d x)) ->
  adds n (foldM body a xs) a (sigma xs d).
Proof.
  revert a. induction xs as [|x xs IH]; intros a Hl Hb; cbn [foldM].
  { exists a. split; [done|]. split; [done|]. unfold sigma. cbn. ring. }
  rewrite sigma_cons. apply adds_bind; [apply Hb; [set_solver|done]|].
  intros a' Hl'. apply IH; [done|]. intros. apply Hb; [set_solver|done].
Qed.

Context (p : LigeroParam).
Context (alphal : list E) (alphaq : list (E * E * E)) (lqc : list LigeroQuadraticConstraint).
Context (llterm : list (LigeroLinearConstraint E)).
Abbreviation n := (nwqrow p * p_w p)%nat.
Abbreviation ax := (nwrow p * p_w p)%nat.
Abbreviation qw := (nqtriples p * p_w p)%nat.

Definition linear_combination : E :=
  sigma llterm (fun t => lc_k t * at0 alphal (lc_c t) * X (lc_w t)).
(** What constraint [k]'s copies add. *)
Definition tie (k : nat) : E :=
  match lqc !! k, alphaq !! k with
  | Some l, Some (a0, a1, a2) =>
      a0 * (X (ax + k)%nat - X (qc_x l)) + a1 * (X (ax + qw + k)%nat - X (qc_y l))
      + a2 * (X (ax + qw + qw + k)%nat - X (qc_z l))
  | _, _ => 0
  end.

Lemma tie_copy_adds copy wit alpha a m :
  length a = m -> copy < m -> wit < m ->
  adds m (common.tie_copy copy wit alpha a) a (alpha * (X copy - X wit)).
Proof.
  intros Hl Hc Hw. eapply adds_eq; [|eapply adds_bind; [by apply update_adds|]].
  2:{ intros a' Hl'. apply (update_adds _ _ _ _ (0 - alpha)); [done|done|]. intros e. ring. }
  ring.
Qed.

Context (Hlin : Forall (fun t => lc_w t < p_nw p /\ lc_c t < length alphal) llterm).
Context (Hq : p_nq p <= length lqc) (Hqa : length alphaq = p_nq p).
Context (Hqs : forall k l, k < p_nq p -> lqc !! k = Some l -> qc_x l < p_nw p /\ qc_y l < p_nw p /\ qc_z l < p_nw p).
Context (Hnw : p_nw p <= ax) (Hnq : p_nq p <= qw) (Hn : nwqrow p = (nwrow p + 3 * nqtriples p)%nat).

Lemma linear_term_adds t a :
  t ∈ llterm -> length a = n -> adds n (common.add_linear_term (p_nw p) alphal a t) a (lc_k t * at0 alphal (lc_c t) * X (lc_w t)).
Proof.
  intros Ht Hl. rewrite Forall_forall in Hlin. destruct (Hlin t Ht) as [Hw Hc]. unfold common.add_linear_term.
  rewrite (proj2 (Nat.ltb_lt _ _) Hw), (proj2 (Nat.ltb_lt _ _) Hc). cbn [rust_assert]. mstep.
  rewrite index_at0 by done. mstep. apply update_adds; [done|nia|]. intros e. unfold fma. ring.
Qed.
Lemma quadratic_copies_adds i j a :
  (j + i * p_w p < p_nq p)%nat -> length a = n ->
  adds n (common.add_quadratic_copies p lqc alphaq i a j) a (tie (j + i * p_w p)).
Proof.
  intros Hk Hl. unfold common.add_quadratic_copies, tie. set (k := (j + i * p_w p)%nat) in *.
  destruct (lookup_lt_is_Some_2 lqc k) as [l Hlk]; [lia|]. destruct (lookup_lt_is_Some_2 alphaq k) as [[[a0 a1] a2] Ha]; [lia|].
  rewrite (proj2 (index_Ok lqc k l) Hlk), (proj2 (index_Ok alphaq k _) Ha), Hlk, Ha. mstep.
  destruct (Hqs k l Hk Hlk) as (Hx & Hy & Hz).
  rewrite (proj2 (Nat.ltb_lt _ _) Hx), (proj2 (Nat.ltb_lt _ _) Hy), (proj2 (Nat.ltb_lt _ _) Hz). cbn [rust_assert]. mstep.
  eapply adds_eq; [|apply adds_bind; [apply tie_copy_adds; [done|nia|nia]|intros b Hb;
    apply adds_bind; [apply tie_copy_adds; [done|nia|nia]|intros c Hc; apply tie_copy_adds; [done|nia|nia]]]].
  ring.
Qed.

Lemma inner_product_vector_ok :
  exists a, common.inner_product_vector (Err:=Err) p llterm alphal lqc alphaq = Ok a /\ length a = n /\
    pairing n a X = linear_combination + sigma (seq 0 (p_nq p)) tie.
Proof.
  unfold common.inner_product_vector.
  destruct (adds_bind n (foldM (common.add_linear_term (p_nw p) alphal) (replicate n 0) llterm) (replicate n 0) linear_combination
    (fun a => foldM (common.add_quadratic_row p lqc alphaq) a (seq 0 (nqtriples p))) (sigma (seq 0 (p_nq p)) tie))
    as (a & Ha & Hl & Hv).
  - apply adds_foldM; [apply length_replicate|]. intros t a Ht Hl. by apply linear_term_adds.
  - intros a Hl. rewrite <- (sigma_rows tie (p_w p) (nqtriples p)) by done.
    apply adds_foldM; [done|]. intros i a' [_ Hi]%elem_of_seq Hl'. unfold common.add_quadratic_row.
    apply adds_foldM; [done|]. intros j a'' [_ Hj]%elem_of_seq Hl''. apply quadratic_copies_adds; [lia|done].
  - exists a. split; [done|]. split; [done|]. rewrite Hv, pairing_zeros. ring.
Qed.
End vector.
End batch.

(** * The Ligero responses

    On a tableau whose rows are codewords, the prover's responses are the
    samples of three polynomials, and the verifier's recomputation from the
    opened columns and its interpolation of the responses agree with them. *)

Lemma finite_choice {A} (d : A) (P : nat -> A -> Prop) n :
  (forall i, i < n -> exists x, P i x) -> exists f, forall i, i < n -> P i (f i).
Proof.
  induction n as [|n IH]; intros Hx; [exists (fun _ => d); lia|].
  destruct IH as [f Hf]; [intros; apply Hx; lia|]. destruct (Hx n) as [x Hn]; [lia|].
  exists (fun i => if Nat.eqb i n then x else f i). intros i Hi. destruct (Nat.eqb_spec i n) as [->|]; [done|apply Hf; lia].
Qed.

Section kernels.
Context {E : Type} `{AF : AlgebraicField E} `{!AlgebraicFieldLaws E} {Err : Type}.
Add Ring field_ring_kernels : (field_ring (E:=E)).

Lemma zip_with_tab {A B C} (k : A -> B -> C) g h n : zip_with k (tab g n) (tab h n) = tab (fun i => k (g i) (h i)) n.
Proof.
  apply list_eq. intros i. rewrite lookup_zip_with. destruct (decide (i < n)).
  - by rewrite !lookup_tab.
  - by rewrite !lookup_tab_ge by lia.
Qed.
Lemma axpy_tab (y x : nat -> E) a n :
  blas.axpy (Err:=Err) (tab y n) a (tab x n) = Ok (tab (fun i => y i + a * x i) n).
Proof.
  unfold blas.axpy, blas.zip_update. rewrite !length_tab, Nat.eqb_refl. cbn [rust_assert]. mstep.
  by rewrite zip_with_tab.
Qed.
Lemma zip_update3_tab k (y a x : nat -> E) n :
  blas.zip_update3 (Err:=Err) k (tab y n) (tab a n) (tab x n) = Ok (tab (fun i => k (y i) (a i) (x i)) n).
Proof.
  unfold blas.zip_update3. rewrite !length_tab, Nat.eqb_refl. cbn [rust_assert]. mstep.
  enough (forall m, m <= n -> foldM (fun v i => yi ← index v i; ai ← index (tab a n) i; xi ← index (tab x n) i;
      store v i (k yi ai xi)) (tab y n) (seq 0 m)
    = @Ok Err _ (tab (fun i => if Nat.ltb i m then k (y i) (a i) (x i) else y i) n)) as Hg.
  { rewrite Hg by done. apply (f_equal Ok), tab_ext. intros i Hi. by rewrite (proj2 (Nat.ltb_lt _ _)). }
  induction m as [|m IH]; intros Hm; [done|].
  rewrite seq_S, foldM_app, IH by lia. mstep. cbn [foldM Nat.add]. rewrite !index_tab by lia. mstep.
  rewrite Nat.ltb_irrefl, store_tab by lia. mstep. apply (f_equal Ok), tab_ext. intros i Hi.
  destruct (Nat.eqb_spec i m) as [->|]; [by rewrite (proj2 (Nat.ltb_lt _ _)) by lia|].
  destruct (Nat.ltb_spec i m), (Nat.ltb_spec i (S m)); try lia; done.
Qed.
Lemma vaxpy_tab (y a x : nat -> E) n :
  blas.vaxpy (Err:=Err) (tab y n) (tab a n) (tab x n) = Ok (tab (fun i => y i + a i * x i) n).
Proof. apply zip_update3_tab. Qed.
Lemma vymax_tab (y a x : nat -> E) n :
  blas.vymax (Err:=Err) (tab y n) (tab a n) (tab x n) = Ok (tab (fun i => y i - a i * x i) n).
Proof. apply zip_update3_tab. Qed.
Lemma equal_tab `{EqDecision E} (x y : nat -> E) n :
  exists b, blas.equal (Err:=Err) (tab x n) (tab y n) = Ok b /\ (b = true <-> forall i, i < n -> x i = y i).
Proof.
  unfold blas.equal. rewrite !length_tab, Nat.eqb_refl. cbn [rust_assert]. mstep. eexists. split; [reflexivity|].
  rewrite forallb_forall. split.
  - intros Hall i Hi. specialize (Hall (x i, y i)). cbn in Hall. eapply bool_decide_eq_true_1, Hall.
    apply list_elem_of_In, elem_of_lookup_zip_with. exists i, (x i), (y i). by rewrite !lookup_tab.
  - intros Hxy [u v] Hin%list_elem_of_In. apply bool_decide_eq_true_2.
    apply elem_of_lookup_zip_with in Hin as (i & a & b & Hab & Ha & Hb). injection Hab as -> ->.
    pose proof (lookup_lt_Some _ _ _ Ha) as Hi. rewrite length_tab in Hi. rewrite lookup_tab in Ha, Hb by done.
    rewrite <- (Hxy i Hi) in Hb. congruence.
Qed.
Lemma gather_tab (g : nat -> E) n idx :
  Forall (fun i => i < n) idx -> blas.gather (Err:=Err) idx (tab g n) = Ok (tab (fun r => g (idx !!! r)) (length idx)).
Proof.
  intros Hidx. unfold blas.gather.
  assert (tab (fun r => g (idx !!! r)) (length idx) = map g idx) as ->.
  { apply list_eq. intros i. rewrite list_lookup_fmap. destruct (decide (i < length idx)) as [Hi|].
    - rewrite lookup_tab by done. by rewrite (list_lookup_lookup_total_lt idx i Hi).
    - rewrite lookup_tab_ge by lia. by rewrite (lookup_ge_None_2 idx) by lia. }
  enough (forall acc, foldM (fun dst i => s ← index (tab g n) i; mret (dst ++ [s])) acc idx = @Ok Err _ (acc ++ map g idx)) as Hg by apply Hg.
  induction Hidx as [|i idx Hi _ IH]; intros acc; cbn [foldM map]; [by rewrite app_nil_r|].
  rewrite index_tab by done. mstep. rewrite IH. by rewrite <- app_assoc.
Qed.
Lemma enumerate_tab (u : list E) n :
  length u = n -> take n (zip (seq 0 (length u)) u) = map (fun i => (i, at0 u i)) (seq 0 n).
Proof.
  intros <-. rewrite take_ge by (rewrite length_zip_with, length_seq; lia).
  apply list_eq. intros i. rewrite lookup_zip_with, list_lookup_fmap. destruct (decide (i < length u)) as [Hi|].
  - rewrite !lookup_seq_lt by done. cbn. by rewrite (at0_lt u i Hi).
  - rewrite !lookup_seq_ge by lia. done.
Qed.

(** A loop whose steps add to an array. *)
Lemma accumulate {X S} (step : list E * S -> X -> outcome Err (list E * S)) (I : S -> Prop) (d : X -> nat -> E) xs n g s :
  I s ->
  (forall x g s, x ∈ xs -> I s -> exists s', I s' /\ step (tab g n, s) x = Ok (tab (fun j => g j + d x j) n, s')) ->
  exists s', foldM step (tab g n, s) xs = Ok (tab (fun j => g j + sigma xs (fun x => d x j)) n, s').
Proof.
  revert g s. induction xs as [|x xs IH]; intros g s Hs Hstep; cbn [foldM].
  { exists s. do 2 f_equal. apply tab_ext. intros. unfold sigma. cbn. ring. }
  destruct (Hstep x g s ltac:(set_solver) Hs) as (s1 & Hs1 & ->). mstep.
  destruct (IH (fun j => g j + d x j) s1 Hs1) as (s2 & ->); [intros; apply Hstep; [set_solver|done]|].
  exists s2. do 2 f_equal. apply tab_ext. intros. rewrite sigma_cons. ring.
Qed.
Lemma accumulate1 {X} (step : list E -> X -> outcome Err (list E)) (d : X -> nat -> E) xs n g :
  (forall x g, x ∈ xs -> step (tab g n) x = Ok (tab (fun j => g j + d x j) n)) ->
  foldM step (tab g n) xs = Ok (tab (fun j => g j + sigma xs (fun x => d x j)) n).
Proof.
  revert g. induction xs as [|x xs IH]; intros g Hstep; cbn [foldM].
  { apply (f_equal Ok), tab_ext. intros. unfold sigma. cbn. ring. }
  rewrite Hstep by set_solver. mstep. rewrite IH by (intros; apply Hstep; set_solver).
  apply (f_equal Ok), tab_ext. intros. rewrite sigma_cons. ring.
Qed.

(** The coefficients of one row, between the blinding slots and the end. *)
Definition aext (p : LigeroParam) (a : list E) (i j : nat) : E :=
  if Nat.leb (p_r p) j && Nat.ltb j (p_r p + p_w p) then at0 a (i * p_w p + (j - p_r p)) else 0.
Lemma layout_aext_into_ok (p : LigeroParam) i a s :
  ((i + 1) * p_w p <= length a)%nat -> (p_r p + p_w p <= length s)%nat ->
  common.layout_aext_into (Err:=Err) p i a s = Ok (tab (aext p a i) (length s)).
Proof.
  intros Ha Hs. unfold common.layout_aext_into, blas.clear. rewrite clear_tab.
  rewrite (slice_mut_tab _ (fun j => at0 a (i * p_w p + j))); [|lia|].
  - apply (f_equal Ok), tab_ext. intros j Hj. done.
  - rewrite slice_at0 by nia. mstep. rewrite clone_from_slice_Ok by (rewrite !length_tab; nia).
    do 2 f_equal. nia.
Qed.
End kernels.

Section responses.
Context {E : Type} `{AF : AlgebraicField E} `{!AlgebraicFieldLaws E} `{SF : SerializableField E} `{SS : SupportsSampling E}.
Context `{SU : Subfield E} `{RI : !RangeInterpolatorFactory E} `{!RangeInterpolatorLaws E}.
Add Ring field_ring_responses : (field_ring (E:=E)).
Context (p : LigeroParam) (Hp : param_ok (E:=E) p).
Context (witness : list E) (qcs : list LigeroQuadraticConstraint).

Abbreviation wd := (block_enc p).
Abbreviation pts := (plan_points (E:=E)).

(** ** A tableau of codewords *)
(** Row [i] is the codeword of the polynomial [R i]. *)
Record codewords (rows : list (list E)) (R : nat -> E -> E) : Prop := {
  cw_wf : rows_wf wd rows;
  cw_len : length rows = nrow p;
  cw_rows i : i < nrow p -> rows !! i = Some (samples wd (R i));
  cw_ldt : is_poly (block p) (R 0%nat);
  cw_dot : is_poly (dblock p) (R 1%nat);
  cw_quad : is_poly (dblock p) (R 2%nat);
  cw_poly i : i < nwqrow p -> is_poly (block p) (R (i + 3)%nat);
  cw_dot_sum : sigma (seq 0 (p_w p)) (fun j => R 1%nat (pts (p_r p + j))) = 0;
  cw_quad_zero : slots (p_r p) (p_w p) (R 2%nat) (fun _ => 0);
  cw_witness i : i < nwrow p -> slots (p_r p) (p_w p) (R (i + 3)%nat) (wit_cell p witness i);
  cw_x i : i < nqtriples p -> slots (p_r p) (p_w p) (R (iq p + i)%nat) (quad_cell p witness qcs qc_x i);
  cw_y i : i < nqtriples p -> slots (p_r p) (p_w p) (R (iq p + nqtriples p + i)%nat) (quad_cell p witness qcs qc_y i);
  cw_z i : i < nqtriples p -> slots (p_r p) (p_w p) (R (iq p + 2 * nqtriples p + i)%nat) (quad_cell p witness qcs qc_z i)
}.

Definition degree (i : nat) : nat := if Nat.eqb i 1 || Nat.eqb i 2 then dblock p else block p.

Lemma row_region rows i : layout_spec p witness qcs rows -> 3 <= i -> i < nrow p ->
  exists cell row, rows !! i = Some row /\ row_spec p (block p) cell row.
Proof.
  intros Hs H3 Hi. pose proof Hp as Hp'. destruct Hp'. destruct (decide (i < 3 + nwrow p)) as [Hw|Hw].
  - destruct (ls_witness _ _ _ _ Hs (i - 3)%nat ltac:(lia)) as (row & Hr & Hspec).
    replace (i - 3 + iw p)%nat with i in Hr by lia. eauto.
  - assert (exists k, k < nqtriples p /\ (i = iq p + k \/ i = iq p + nqtriples p + k \/ i = iq p + 2 * nqtriples p + k)%nat) as (k & Hk & Hik).
    { destruct (decide (i < iq p + nqtriples p)); [exists (i - iq p)%nat; lia|].
      destruct (decide (i < iq p + 2 * nqtriples p)); [exists (i - iq p - nqtriples p)%nat; lia|].
      exists (i - iq p - 2 * nqtriples p)%nat. lia. }
    destruct (ls_triples _ _ _ _ Hs k Hk) as ((rx & Hx & Sx) & (ry & Hy & Sy) & (rz & Hz & Sz)).
    destruct Hik as [ -> |[ -> | -> ]]; eauto.
Qed.

Lemma samples_slots f g cell : samples wd f = samples wd g -> slots (p_r p) (p_w p) f cell -> slots (p_r p) (p_w p) g cell.
Proof.
  intros Hfg Hf j Hj. rewrite <- (Hf j Hj). destruct (widths p Hp).
  assert (p_r p + j < wd) as Hlt by (destruct Hp; lia).
  apply (f_equal (fun l => l !! (p_r p + j)%nat)) in Hfg. unfold samples in Hfg. rewrite !lookup_tab in Hfg by done. congruence.
Qed.

Lemma layout_codewords rows : layout_spec p witness qcs rows -> exists R, codewords rows R.
Proof.
  intros Hs. pose proof Hp as Hp'. destruct Hp'.
  destruct (ls_blinding _ _ _ _ Hs) as ((f0 & P0 & R0) & (f1 & P1 & R1 & S1) & (row2 & R2 & f2 & P2 & E2 & S2)).
  destruct (finite_choice (fun _ => 0) (fun i f => rows !! i = Some (samples wd f) /\ is_poly (degree i) f) (nrow p)) as [R HR].
  { intros i Hi. destruct (decide (i = 0%nat)) as [->|]; [by exists f0|].
    destruct (decide (i = 1%nat)) as [->|]; [by exists f1|].
    destruct (decide (i = 2%nat)) as [->|]; [exists f2; by rewrite R2, E2|].
    destruct (row_region rows i Hs) as (cell & row & Hr & f & Hf & -> & _); [lia|done|]. exists f.
    unfold degree. rewrite !(proj2 (Nat.eqb_neq _ _)) by done. done. }
  assert (forall i cell row n, i < nrow p -> rows !! i = Some row -> row_spec p n cell row -> slots (p_r p) (p_w p) (R i) cell) as Hslots.
  { intros i cell row n Hi Hr (f & _ & -> & Hf). destruct (HR i Hi) as [Hri _]. rewrite Hr in Hri. injection Hri as Heq.
    by apply (samples_slots f). }
  exists R. split.
  - apply Hs.
  - apply Hs.
  - intros i Hi. apply HR, Hi.
  - apply (HR 0%nat). lia.
  - apply (HR 1%nat). lia.
  - apply (HR 2%nat). lia.
  - intros i Hi. destruct (HR (i + 3)%nat) as [_ Hpi]; [lia|]. unfold degree in Hpi.
    by rewrite !(proj2 (Nat.eqb_neq _ _)) in Hpi by lia.
  - destruct (HR 1%nat) as [H1 _]; [lia|]. rewrite R1 in H1. injection H1 as H1. rewrite <- S1.
    apply sigma_ext. intros j [_ Hj]%elem_of_seq. apply (f_equal (fun l => l !! (p_r p + j)%nat)) in H1.
    unfold samples in H1. rewrite !lookup_tab in H1 by lia. congruence.
  - apply (Hslots 2%nat _ row2 (dblock p)); [lia|done|]. by exists f2.
  - intros i Hi. destruct (ls_witness _ _ _ _ Hs i Hi) as (row & Hr & Hspec). rewrite po_iw in Hr.
    apply (Hslots _ _ row (block p)); [lia|done|done].
  - intros i Hi. destruct (ls_triples _ _ _ _ Hs i Hi) as ((r & Hr & Hspec) & _ & _). apply (Hslots _ _ r (block p)); [lia|done|done].
  - intros i Hi. destruct (ls_triples _ _ _ _ Hs i Hi) as (_ & (r & Hr & Hspec) & _). apply (Hslots _ _ r (block p)); [lia|done|done].
  - intros i Hi. destruct (ls_triples _ _ _ _ Hs i Hi) as (_ & _ & (r & Hr & Hspec)). apply (Hslots _ _ r (block p)); [lia|done|done].
Qed.

Section opened.
Context (rows : list (list E)) (R : nat -> E -> E) (HR : codewords rows R).

Lemma row_at {Err} i : i < nrow p -> tableau.row (Err:=Err) (mk wd rows) i = Ok (samples wd (R i)).
Proof. intros Hi. apply row_mk; [apply HR|by apply HR]. Qed.
Lemma row_prefix {Err} i n : n <= wd -> slice (E:=Err) (samples wd (R i)) 0 n = Ok (tab (fun j => R i (pts j)) n).
Proof. intros Hn. unfold samples. rewrite slice_tab by lia. by rewrite Nat.sub_0_r. Qed.

(** ** The prover's responses *)
Definition ldt_poly (u : list E) (x : E) : E :=
  R 0%nat x + sigma (seq 0 (nwqrow p)) (fun i => at0 u i * R (i + 3)%nat x).
Definition dot_poly (A : nat -> E -> E) (x : E) : E :=
  R 1%nat x + sigma (seq 0 (nwqrow p)) (fun i => A i x * R (i + 3)%nat x).
Definition quad_poly (u : list E) (x : E) : E :=
  R 2%nat x + sigma (seq 0 (nqtriples p)) (fun i =>
    at0 u i * (R (iq p + 2 * nqtriples p + i)%nat x - R (iq p + i)%nat x * R (iq p + nqtriples p + i)%nat x)).

Lemma ldt_poly_poly u : is_poly (block p) (ldt_poly u).
Proof.
  apply is_poly_add; [apply HR|]. apply is_poly_sigma. intros i [_ Hi]%elem_of_seq. apply is_poly_scale. apply HR. lia.
Qed.
Lemma quad_poly_poly u : is_poly (dblock p) (quad_poly u).
Proof.
  destruct (widths p Hp) as (Hwd & Hbd & Hdw & Hb & Hrw). pose proof Hp as Hp'. destruct Hp'.
  apply is_poly_add; [apply HR|]. apply is_poly_sigma. intros i [_ Hi]%elem_of_seq. apply is_poly_scale. apply is_poly_sub.
  - apply (is_poly_weaken (block p)); [done|]. replace (iq p + 2 * nqtriples p + i)%nat with (nwrow p + 2 * nqtriples p + i + 3)%nat by lia. apply HR. lia.
  - replace (dblock p) with (block p + (block p - 1))%nat by lia. apply is_poly_mul.
    + replace (iq p + i)%nat with (nwrow p + i + 3)%nat by lia. apply HR. lia.
    + replace (S (block p - 1)) with (block p) by lia.
      replace (iq p + nqtriples p + i)%nat with (nwrow p + nqtriples p + i + 3)%nat by lia. apply HR. lia.
Qed.

Lemma low_degree_proof_ok {Err} u :
  length u = nwqrow p ->
  ligero_prover.low_degree_proof (Err:=Err) p (mk wd rows) u = Ok (tab (fun j => ldt_poly u (pts j)) (block p)).
Proof.
  intros Hu. destruct (widths p Hp) as (Hwd & Hbd & Hdw & Hb & Hrw). pose proof Hp as Hp'. destruct Hp'.
  unfold ligero_prover.low_degree_proof. rewrite (proj1 po_blinds), row_at by lia. mstep. rewrite row_prefix by lia. mstep.
  rewrite enumerate_tab by done.
  rewrite (accumulate1 _ (fun iu j => iu.2 * R (iu.1 + 3)%nat (pts j))).
  - apply (f_equal Ok), tab_ext. intros j Hj. unfold ldt_poly. by rewrite sigma_map.
  - intros [i c] g Hin. apply list_elem_of_In, in_map_iff in Hin as (k & [= <- <-] & Hk). apply in_seq in Hk.
    unfold ligero_prover.low_degree_step. rewrite po_iw, row_at by lia. mstep. rewrite row_prefix by lia. mstep. apply axpy_tab.
Qed.

(** The polynomials of the coefficient rows. *)
Definition coefficient_polys (a : list E) (A : nat -> E -> E) : Prop :=
  forall i, i < nwqrow p -> is_poly (block p) (A i) /\ forall j, j < block p -> A i (pts j) = aext p a i j.
Lemma coefficient_polys_exist a : exists A, coefficient_polys a A.
Proof.
  destruct (finite_choice (fun _ => 0) (fun i f => is_poly (block p) f /\ forall j, j < block p -> f (pts j) = aext p a i j) (nwqrow p)) as [A HA].
  { intros i Hi. eapply polynomial_through, Hp. }
  by exists A.
Qed.

Lemma dot_poly_poly a A : coefficient_polys a A -> is_poly (dblock p) (dot_poly A).
Proof.
  intros HA. destruct (widths p Hp) as (Hwd & Hbd & Hdw & Hb & Hrw). pose proof Hp as Hp'. destruct Hp'.
  apply is_poly_add; [apply HR|]. apply is_poly_sigma. intros i [_ Hi]%elem_of_seq.
  replace (dblock p) with (block p + (block p - 1))%nat by lia. apply is_poly_mul; [apply HA; lia|].
  replace (S (block p - 1)) with (block p) by lia. apply HR. lia.
Qed.

Lemma dot_proof_ok {Err} a A :
  length a = (nwqrow p * p_w p)%nat -> coefficient_polys a A ->
  ligero_prover.dot_proof (Err:=Err) p (mk wd rows) a = Ok (tab (fun j => dot_poly A (pts j)) (dblock p)).
Proof.
  intros Ha HA. destruct (widths p Hp) as (Hwd & Hbd & Hdw & Hb & Hrw). pose proof Hp as Hp'. destruct Hp'.
  unfold ligero_prover.dot_proof. destruct (plan_from_0 _ _ _ po_double) as (enc & Henc & Happly). rewrite Henc. mstep.
  rewrite (proj1 (proj2 po_blinds)), row_at by lia. mstep. rewrite row_prefix by lia. mstep. cbv zeta.
  destruct (accumulate (Err:=Err) (ligero_prover.dot_step p (mk wd rows) a enc) (fun s => length s = dblock p)
    (fun i j => A i (pts j) * R (i + 3)%nat (pts j)) (seq 0 (nwqrow p)) (dblock p) (fun j => R 1%nat (pts j)) (replicate (dblock p) 0))
    as (s' & ->).
  - apply length_replicate.
  - intros i g s [_ Hi]%elem_of_seq Hs. destruct (HA i Hi) as [HP HV]. unfold ligero_prover.dot_step.
    rewrite layout_aext_into_ok by nia. mstep. rewrite Hs. unfold layout.extend_row.
    rewrite (extend_with_ok (dblock p) _ (block p) (A i)); [|done|done|].
    + mstep. rewrite po_iw, row_at by lia. mstep. rewrite row_prefix by lia. mstep. unfold samples. rewrite vaxpy_tab. mstep.
      eexists. split; [|reflexivity]. apply length_tab.
    + apply Happly; [done|]. intros j Hj. symmetry. by apply HV.
  - mstep. done.
Qed.

Lemma quadratic_step_ok {Err} u i g s :
  i < nqtriples p -> length s = dblock p ->
  exists s', length s' = dblock p /\
    ligero_prover.quadratic_step (Err:=Err) p (mk wd rows) (tab g (dblock p), s) (i, u)
    = Ok (tab (fun j => g j + u * (R (iq p + 2 * nqtriples p + i)%nat (pts j)
        - R (iq p + i)%nat (pts j) * R (iq p + nqtriples p + i)%nat (pts j))) (dblock p), s').
Proof.
  intros Hi Hs. destruct (widths p Hp) as (Hwd & Hbd & Hdw & Hb & Hrw). pose proof Hp as Hp'. destruct Hp'.
  unfold ligero_prover.quadratic_step. cbv zeta.
  rewrite (row_at (iq p + 2 * nqtriples p + i)) by lia. mstep. rewrite row_prefix by lia. mstep.
  rewrite clone_from_slice_Ok by (rewrite length_tab; done). mstep.
  rewrite (row_at (iq p + i)) by lia. mstep. rewrite row_prefix by lia. mstep.
  rewrite (row_at (iq p + nqtriples p + i)) by lia. mstep. rewrite row_prefix by lia. mstep.
  rewrite vymax_tab. mstep. rewrite axpy_tab. mstep. eexists. split; [|reflexivity]. apply length_tab.
Qed.

(** The constraints hold on the witness. *)
Definition quadratics_hold : Prop := forall k l, k < p_nq p -> qcs !! k = Some l ->
  at0 witness (qc_z l) = at0 witness (qc_x l) * at0 witness (qc_y l).

Lemma quad_poly_zero u : quadratics_hold -> slots (p_r p) (p_w p) (quad_poly u) (fun _ => 0).
Proof.
  intros Hq j Hj. unfold quad_poly. rewrite (cw_quad_zero _ _ HR j Hj), sigma_zero; [ring|].
  intros i [_ Hi]%elem_of_seq. rewrite (cw_x _ _ HR i Hi j Hj), (cw_y _ _ HR i Hi j Hj), (cw_z _ _ HR i Hi j Hj).
  unfold quad_cell. destruct (Nat.ltb_spec (i * p_w p + j) (p_nq p)); [|ring].
  destruct (qcs !! (j + i * p_w p)%nat) as [l|] eqn:Hl; [|ring]. rewrite (Hq (j + i * p_w p)%nat l); [ring|lia|done].
Qed.

Lemma quadratic_proof_ok {Err} u :
  length u = nqtriples p -> quadratics_hold ->
  ligero_prover.quadratic_proof (Err:=Err) p (mk wd rows) u
  = Ok (tab (fun j => quad_poly u (pts j)) (p_r p), tab (fun j => quad_poly u (pts (block p + j))) (dblock p - block p)).
Proof.
  intros Hu Hq. destruct (widths p Hp) as (Hwd & Hbd & Hdw & Hb & Hrw). pose proof Hp as Hp'. destruct Hp'.
  unfold ligero_prover.quadratic_proof. rewrite (proj2 (proj2 po_blinds)), row_at by lia. mstep.
  rewrite row_prefix by lia. mstep. cbv zeta. rewrite enumerate_tab by done.
  destruct (accumulate (Err:=Err) (ligero_prover.quadratic_step p (mk wd rows)) (fun s => length s = dblock p)
    (fun iu j => iu.2 * (R (iq p + 2 * nqtriples p + iu.1)%nat (pts j)
        - R (iq p + iu.1)%nat (pts j) * R (iq p + nqtriples p + iu.1)%nat (pts j)))
    (map (fun i => (i, at0 u i)) (seq 0 (nqtriples p))) (dblock p) (fun j => R 2%nat (pts j)) (replicate (dblock p) 0))
    as (s' & ->).
  - apply length_replicate.
  - intros [i c] g s Hin Hs. apply list_elem_of_In, in_map_iff in Hin as (k & [= <- <-] & Hk). apply in_seq in Hk.
    cbn [fst snd]. apply quadratic_step_ok; [lia|done].
  - mstep. set (Q := tab _ (dblock p)).
    assert (Q = tab (fun j => quad_poly u (pts j)) (dblock p)) as ->.
    { apply tab_ext. intros j Hj. unfold quad_poly. by rewrite sigma_map. }
    rewrite (slice_tab _ _ (p_r p) (p_r p + p_w p)) by lia. mstep.
    assert (blas.equal0 (tab (fun i => quad_poly u (pts (p_r p + i))) (p_r p + p_w p - p_r p)) = true) as ->.
    { apply forallb_forall. intros e He. apply in_map_iff in He as (j & <- & Hj%in_seq). apply is_zero_spec.
      apply (quad_poly_zero u Hq). lia. }
    cbn [rust_assert]. mstep. rewrite !slice_tab by (rewrite ?length_tab; lia). mstep.
    rewrite length_tab, Nat.sub_0_r. done.
Qed.
End opened.
End responses.
