(* ===== verification/LigeroChecks.v ===== *)
(** * The Ligero checks succeed on honest responses

    The verifier's recomputation at the opened columns, the linear sum, and
    the column hashes;
    what acceptance requires of an arbitrary proof, and honest runs. *)
From stdpp Require Import prelude strings.
From Stdlib Require Import Lia NArith ZifyNat Ring Ring_theory.
From S2P Require Import Prelude Words Interfaces Merkle Field FieldFacts Transcript SumcheckV1 SumcheckLayer Interpolation RangeInterpolation Ligero TableauFacts LigeroBatch.

Local Open Scope fe_scope.

Lemma slice_concat {T Err} (wd : nat) (rows : list (list T)) i r :
  rows_wf wd rows -> rows !! i = Some r -> slice (E:=Err) (concat rows) (i * wd) ((i + 1) * wd) = Ok r.
Proof.
  intros Hwf Hr. pose proof (row_mk (Err:=Err) wd rows i r Hwf Hr) as Hrow. unfold tableau.row in Hrow.
  apply bind_Ok_inv in Hrow as (? & _ & Hrow). exact Hrow.
Qed.

Section checks.
Context {E : Type} `{AF : AlgebraicField E} `{!AlgebraicFieldLaws E} `{SF : SerializableField E} `{SS : SupportsSampling E}.
Context `{SU : Subfield E} `{RI : !RangeInterpolatorFactory E} `{!RangeInterpolatorLaws E}.
Add Ring field_ring_checks : (field_ring (E:=E)).
Context (p : LigeroParam) (Hp : param_ok (E:=E) p).
Context (witness : list E) (qcs : list LigeroQuadraticConstraint).
Context (rows : list (list E)) (R : nat -> E -> E) (HR : codewords p witness qcs rows R).
Context (idx : list nat) (Hidx : Forall (fun i => i < block_enc p - dblock p) idx) (Hlen : length idx = nreq p).

Abbreviation wd := (block_enc p).
Abbreviation pts := (plan_points (E:=E)).

(** The point opened by query [r]. *)
Definition opened_at (r : nat) : E := pts (dblock p + idx !!! r).

(** The opened values, row by row. *)
Definition opened_rows : list (list E) :=
  map (fun i => tab (fun r => R i (opened_at r)) (nreq p)) (seq 0 (nrow p)).
Lemma opened_wf : rows_wf (nreq p) opened_rows.
Proof.
  apply Forall_forall. intros row Hr. apply list_elem_of_In, in_map_iff in Hr as (i & <- & _). apply length_tab.
Qed.
Lemma opened_lookup i : i < nrow p -> opened_rows !! i = Some (tab (fun r => R i (opened_at r)) (nreq p)).
Proof. intros Hi. unfold opened_rows. rewrite list_lookup_fmap, lookup_seq_lt by done. done. Qed.

Lemma gather_opened_columns_ok {Err} :
  ligero_prover.gather_opened_columns (Err:=Err) p (mk wd rows) idx = Ok (concat opened_rows).
Proof.
  destruct (widths p Hp) as (Hwd & Hbd & Hdw & Hb & Hrw).
  unfold ligero_prover.gather_opened_columns, opened_rows.
  enough (forall n, n <= nrow p -> foldM (ligero_prover.gather_row (Err:=Err) p (mk wd rows) idx) [] (seq 0 n)
    = Ok (concat (map (fun i => tab (fun r => R i (opened_at r)) (nreq p)) (seq 0 n)))) as Hg by (by apply Hg).
  induction n as [|n IH]; intros Hn; [done|].
  rewrite !seq_S, foldM_app, IH by lia. mstep. cbn [foldM Nat.add]. unfold ligero_prover.gather_row.
  rewrite (row_at p witness qcs rows R HR n) by lia. mstep. unfold samples. rewrite length_tab, slice_tab by lia. mstep.
  rewrite gather_tab by done. mstep. rewrite map_app, concat_app, Hlen. cbn [map concat]. by rewrite app_nil_r.
Qed.

End checks.

(** ** What each check decides

    [Q i r] is the value the proof opens in row [i] for query [r]. *)
Section spec.
Context {E : Type} `{AF : AlgebraicField E} `{!AlgebraicFieldLaws E} `{SF : SerializableField E}.
Context `{SU : Subfield E} `{RI : !RangeInterpolatorFactory E} `{!RangeInterpolatorLaws E}.
Add Ring field_ring_check_spec : (field_ring (E:=E)).
Context (p : LigeroParam) (Hp : param_ok (E:=E) p).
Context (idx : list nat) (Hidx : Forall (fun i => i < block_enc p - dblock p) idx) (Hlen : length idx = nreq p).
Context (proof : LigeroProof E) (Q : nat -> nat -> E).
Context (HQ : forall Err i, i < nrow p -> ligero_verifier.req_row (Err:=Err) p proof i = Ok (tab (Q i) (nreq p))).
Context {Err : Type}.

Abbreviation wd := (block_enc p).
Abbreviation pts := (plan_points (E:=E)).
Abbreviation at_query := (opened_at p idx).

(** The polynomial of a response. *)
Definition responds (n : nat) (y : list E) (f : E -> E) : Prop :=
  is_poly n f /\ length y = n /\ forall j, j < n -> at0 y j = f (pts j).

(** A plan from the first [n] points to the oracle columns. *)
Definition encodes (n : nat) (enc : Plan) : Prop :=
  forall Err f g, is_poly n f -> (forall j, j < n -> g j = f (pts j)) ->
    apply_plan Err enc (tab g n) = Ok (tab (fun j => f (pts (dblock p + j))) (wd - dblock p)).
Lemma encoder_ok n : can_interpolate (0, n)%nat (dblock p, wd) = true ->
  exists enc, (forall Err, make_range Err (0, n)%nat (dblock p, wd) = Ok enc) /\ encodes n enc.
Proof. apply plan_from_0. Qed.
Lemma responds_exists n dst (y : list E) :
  can_interpolate (0, n)%nat dst = true -> length y = n -> exists f, responds n y f.
Proof.
  intros Hc Hl. destruct (polynomial_through n dst (at0 y) Hc) as (f & Hf & Hv). exists f. split; [done|]. split; [done|].
  intros j Hj. symmetry. by apply Hv.
Qed.

Lemma interpolate_ok n f y enc :
  encodes n enc -> responds n y f ->
  ligero_verifier.interpolate_req_columns (Err:=Err) idx y enc = Ok (tab (fun r => f (at_query r)) (nreq p)).
Proof.
  intros Henc (Hf & Hl & Hv). unfold ligero_verifier.interpolate_req_columns. rewrite <- (tab_at0 y), Hl.
  rewrite (Henc _ f) by done. mstep. by rewrite gather_tab, Hlen.
Qed.

(** The combinations of the opened rows. *)
Definition ldt_opened (u : list E) (r : nat) : E :=
  Q 0%nat r + sigma (seq 0 (nwqrow p)) (fun i => at0 u i * Q (i + 3)%nat r).
Definition dot_opened (A : nat -> E -> E) (r : nat) : E :=
  Q 1%nat r + sigma (seq 0 (nwqrow p)) (fun i => A i (at_query r) * Q (i + 3)%nat r).
Definition quad_opened (u : list E) (r : nat) : E :=
  Q 2%nat r + sigma (seq 0 (nqtriples p)) (fun i =>
    at0 u i * (Q (iq p + 2 * nqtriples p + i)%nat r - Q (iq p + i)%nat r * Q (iq p + nqtriples p + i)%nat r)).

Lemma low_degree_check_spec u f enc :
  length u = nwqrow p -> encodes (block p) enc -> responds (block p) (y_ldt proof) f ->
  exists b, ligero_verifier.low_degree_check (Err:=Err) p idx proof u enc = Ok b /\
    (b = true <-> forall r, r < nreq p -> f (at_query r) = ldt_opened u r).
Proof.
  intros Hu Henc Hf. pose proof Hp as Hp'. destruct Hp'.
  unfold ligero_verifier.low_degree_check. rewrite (proj1 po_blinds), HQ by lia. mstep. rewrite enumerate_tab by done.
  rewrite (accumulate1 _ (fun iu r => iu.2 * Q (iu.1 + 3)%nat r)).
  2:{ intros [i c] g Hin. apply list_elem_of_In, in_map_iff in Hin as (k & [= <- <-] & Hk). apply in_seq in Hk.
      unfold ligero_verifier.low_degree_check_step. rewrite po_iw, HQ by lia. mstep. apply axpy_tab. }
  mstep. rewrite (interpolate_ok _ f _ _ Henc Hf). mstep.
  destruct (equal_tab (Err:=Err) (fun r => f (at_query r)) (ldt_opened u) (nreq p)) as (b & Hb & Hiff). exists b. split; [|done].
  rewrite <- Hb. f_equal. apply tab_ext. intros r Hr. unfold ldt_opened. by rewrite sigma_map.
Qed.

Lemma dot_check_spec a A f enc renc :
  length a = (nwqrow p * p_w p)%nat -> coefficient_polys p a A -> encodes (block p) enc -> encodes (dblock p) renc ->
  responds (dblock p) (y_dot proof) f ->
  exists b, ligero_verifier.dot_check (Err:=Err) p idx proof a enc renc = Ok b /\
    (b = true <-> forall r, r < nreq p -> f (at_query r) = dot_opened A r).
Proof.
  intros Ha HA Henc Hrenc Hf. destruct (widths p Hp) as (Hwd & Hbd & Hdw & Hb & Hrw). pose proof Hp as Hp'. destruct Hp'.
  unfold ligero_verifier.dot_check. rewrite (proj1 (proj2 po_blinds)), HQ by lia. mstep.
  destruct (accumulate (Err:=Err) (ligero_verifier.dot_check_step p idx proof a enc) (fun s => length s = block p)
    (fun i r => A i (at_query r) * Q (i + 3)%nat r) (seq 0 (nwqrow p)) (nreq p) (Q 1%nat) (replicate (block p) 0))
    as (s' & ->).
  - apply length_replicate.
  - intros i g s [_ Hi]%elem_of_seq Hs. destruct (HA i Hi) as [HP HV]. unfold ligero_verifier.dot_check_step.
    rewrite layout_aext_into_ok by nia. mstep. rewrite Hs, (Henc _ (A i)) by (first [done|intros; symmetry; by apply HV]). mstep.
    rewrite gather_tab by done. mstep. rewrite po_iw, HQ by lia. mstep. rewrite Hlen, vaxpy_tab. mstep.
    eexists. split; [|reflexivity]. apply length_tab.
  - mstep. rewrite (interpolate_ok _ f _ _ Hrenc Hf). mstep. apply equal_tab.
Qed.

(** The quadratic response with the zeros it leaves out. *)
Definition quad_response : list E := ligero_verifier.resize (y_quad_0 proof) (block p) ++ y_quad_2 proof.
Lemma quadratic_check_spec u f renc :
  length u = nqtriples p -> encodes (dblock p) renc -> responds (dblock p) quad_response f ->
  exists b, ligero_verifier.quadratic_check (Err:=Err) p idx proof u renc = Ok b /\
    (b = true <-> forall r, r < nreq p -> f (at_query r) = quad_opened u r).
Proof.
  intros Hu Hrenc Hf. pose proof Hp as Hp'. destruct Hp'.
  unfold ligero_verifier.quadratic_check. rewrite (proj2 (proj2 po_blinds)), HQ by lia. mstep. rewrite enumerate_tab by done.
  destruct (accumulate (Err:=Err) (ligero_verifier.quadratic_check_step p proof) (fun s => length s = nreq p)
    (fun iu r => iu.2 * (Q (iq p + 2 * nqtriples p + iu.1)%nat r - Q (iq p + iu.1)%nat r * Q (iq p + nqtriples p + iu.1)%nat r))
    (map (fun i => (i, at0 u i)) (seq 0 (nqtriples p))) (nreq p) (Q 2%nat) (replicate (nreq p) 0))
    as (s' & ->).
  - apply length_replicate.
  - intros [i c] g s Hin Hs. apply list_elem_of_In, in_map_iff in Hin as (k & [= <- <-] & Hk). apply in_seq in Hk.
    cbn [fst snd]. unfold ligero_verifier.quadratic_check_step. cbv zeta.
    rewrite (HQ _ (iq p + 2 * nqtriples p + k)%nat) by lia. mstep.
    rewrite clone_from_slice_Ok by (rewrite length_tab; done). mstep.
    rewrite (HQ _ (iq p + k)%nat) by lia. mstep. rewrite (HQ _ (iq p + nqtriples p + k)%nat) by lia. mstep.
    rewrite vymax_tab. mstep. rewrite axpy_tab. mstep. eexists. split; [|reflexivity]. apply length_tab.
  - mstep. cbv zeta. fold quad_response. rewrite (interpolate_ok _ f _ _ Hrenc Hf). mstep.
    destruct (equal_tab (Err:=Err) (fun r => f (at_query r)) (quad_opened u) (nreq p)) as (b & Hb & Hiff). exists b. split; [|done].
    rewrite <- Hb. f_equal. apply tab_ext. intros r Hr. unfold quad_opened. by rewrite sigma_map.
Qed.
End spec.

(** ** Honest responses *)
Section honest.
Context {E : Type} `{AF : AlgebraicField E} `{!AlgebraicFieldLaws E}.
Context `{SU : Subfield E} `{RI : !RangeInterpolatorFactory E} `{!RangeInterpolatorLaws E}.
Context (p : LigeroParam) (Hp : param_ok (E:=E) p).
Context (witness : list E) (qcs : list LigeroQuadraticConstraint).
Context (rows : list (list E)) (R : nat -> E -> E) (HR : codewords p witness qcs rows R).
Context (proof : LigeroProof E).
Abbreviation pts := (plan_points (E:=E)).

Lemma responds_tab n f y : is_poly n f -> y = tab (fun j => f (pts j)) n -> responds n y f.
Proof. intros Hf ->. split; [done|]. split; [apply length_tab|]. intros j Hj. by rewrite at0_tab. Qed.

Lemma quad_response_ok u :
  quadratics_hold p witness qcs ->
  y_quad_0 proof = tab (fun j => quad_poly p R u (pts j)) (p_r p) ->
  y_quad_2 proof = tab (fun j => quad_poly p R u (pts (block p + j))) (dblock p - block p) ->
  responds (dblock p) (quad_response p proof) (quad_poly p R u).
Proof.
  intros Hq Hy0 Hy2. destruct (widths p Hp) as (Hwd & Hbd & Hdw & Hb & Hrw). pose proof Hp as Hp'. destruct Hp'.
  apply responds_tab; [eapply quad_poly_poly; [exact Hp|exact HR]|].
  unfold quad_response, ligero_verifier.resize. rewrite Hy0, Hy2, length_tab, take_ge by (rewrite length_tab; lia).
  replace (block p - p_r p)%nat with (p_w p) by lia.
  rewrite replicate_tab, !tab_app. replace (p_r p + p_w p + (dblock p - block p))%nat with (dblock p) by lia.
  apply tab_ext. intros j Hj. destruct (Nat.ltb_spec j (p_r p + p_w p)).
  - destruct (Nat.ltb_spec j (p_r p)); [done|]. symmetry.
    replace j with (p_r p + (j - p_r p))%nat by lia. apply (quad_poly_zero p witness qcs rows R HR u Hq). lia.
  - do 2 f_equal. lia.
Qed.
End honest.

(** ** The linear sum *)
Section linear.
Context {E : Type} `{AF : AlgebraicField E} `{!AlgebraicFieldLaws E}.
Context `{SU : Subfield E} `{RI : !RangeInterpolatorFactory E} `{!RangeInterpolatorLaws E}.
Add Ring field_ring_linear : (field_ring (E:=E)).
Context (p : LigeroParam) (Hp : param_ok (E:=E) p).
Context (witness : list E) (qcs : list LigeroQuadraticConstraint).
Context (rows : list (list E)) (R : nat -> E -> E) (HR : codewords p witness qcs rows R).
Abbreviation pts := (plan_points (E:=E)).

(** The value in slot [k] of the witness and factor rows. *)
Definition slot_value (k : nat) : E := R (k / p_w p + 3)%nat (pts (p_r p + k mod p_w p)).

Lemma slot_witness k : k < p_nw p -> slot_value k = at0 witness k.
Proof.
  intros Hk. pose proof Hp as Hp'. destruct Hp'. destruct (div_ceil_spec (p_nw p) (p_w p) po_w) as [Hn _].
  pose proof (Nat.div_mod k (p_w p) ltac:(lia)) as Hd. pose proof (Nat.mod_upper_bound k (p_w p) ltac:(lia)) as Hm.
  unfold slot_value. rewrite (cw_witness _ _ _ _ _ HR) by (try lia; apply Nat.Div0.div_lt_upper_bound; lia).
  unfold wit_cell. replace (k / p_w p * p_w p + k mod p_w p)%nat with k by lia.
  by rewrite (proj2 (Nat.ltb_lt _ _)).
Qed.
Lemma slot_factor sel off k :
  (forall i, i < nqtriples p -> slots (p_r p) (p_w p) (R (3 + off + i)%nat) (quad_cell p witness qcs sel i)) ->
  k < p_nq p -> slot_value (off * p_w p + k) = match qcs !! k with Some l => at0 witness (sel l) | None => 0 end.
Proof.
  intros Hs Hk. pose proof Hp as Hp'. destruct Hp'. destruct (div_ceil_spec (p_nq p) (p_w p) po_w) as [Hn _].
  pose proof (Nat.div_mod k (p_w p) ltac:(lia)) as Hd. pose proof (Nat.mod_upper_bound k (p_w p) ltac:(lia)) as Hm.
  unfold slot_value. rewrite Nat.div_add_l by lia.
  replace ((off * p_w p + k) mod p_w p)%nat with (k mod p_w p)%nat
    by (rewrite Nat.add_comm, Nat.Div0.mod_add; done).
  replace (off + k / p_w p + 3)%nat with (3 + off + k / p_w p)%nat by lia.
  rewrite (Hs (k / p_w p)%nat) by (try lia; apply Nat.Div0.div_lt_upper_bound; lia).
  unfold quad_cell. replace (k / p_w p * p_w p + k mod p_w p)%nat with k by lia.
  rewrite (proj2 (Nat.ltb_lt _ _)) by done. by replace (k mod p_w p + k / p_w p * p_w p)%nat with k by lia.
Qed.

Lemma dot_poly_sum a A :
  coefficient_polys p a A ->
  sigma (seq 0 (p_w p)) (fun j => dot_poly p R A (pts (p_r p + j))) = pairing (nwqrow p * p_w p) a slot_value.
Proof.
  intros HA. pose proof Hp as Hp'. destruct Hp'. unfold dot_poly. rewrite sigma_add, (cw_dot_sum _ _ _ _ _ HR), sigma_swap.
  unfold pairing. rewrite <- sigma_grid. transitivity (sigma (seq 0 (nwqrow p))
    (fun i => sigma (seq 0 (p_w p)) (fun j => A i (pts (p_r p + j)) * R (i + 3)%nat (pts (p_r p + j))))); [ring|].
  apply sigma_ext. intros i [_ Hi]%elem_of_seq. apply sigma_ext. intros j [_ Hj]%elem_of_seq.
  destruct (HA i Hi) as [_ HV]. rewrite HV by lia. unfold aext.
  rewrite (proj2 (Nat.leb_le _ _)), (proj2 (Nat.ltb_lt _ _)) by lia. cbn [andb]. unfold slot_value.
  rewrite Nat.div_add, Nat.div_small by lia. rewrite Nat.Div0.mod_add, Nat.mod_small by lia.
  f_equal. f_equal. lia.
Qed.

(** The copies agree with the witness. *)
Lemma tie_zero alphaq k : k < p_nq p ->
  (forall l, qcs !! k = Some l -> qc_x l < p_nw p /\ qc_y l < p_nw p /\ qc_z l < p_nw p) ->
  tie slot_value p alphaq qcs k = 0.
Proof.
  intros Hk Hq. pose proof Hp as Hp'. destruct Hp'. unfold tie. destruct (qcs !! k) as [l|] eqn:Hl; [|done].
  destruct (alphaq !! k) as [[[a0 a1] a2]|]; [|done]. destruct (Hq l eq_refl) as (Hx & Hy & Hz).
  rewrite (slot_witness (qc_x l)), (slot_witness (qc_y l)), (slot_witness (qc_z l)) by done.
  replace (nwrow p * p_w p + nqtriples p * p_w p + nqtriples p * p_w p + k)%nat
    with ((nwrow p + 2 * nqtriples p) * p_w p + k)%nat by lia.
  replace (nwrow p * p_w p + nqtriples p * p_w p + k)%nat with ((nwrow p + nqtriples p) * p_w p + k)%nat by lia.
  rewrite (slot_factor qc_x (nwrow p)), (slot_factor qc_y (nwrow p + nqtriples p)), (slot_factor qc_z (nwrow p + 2 * nqtriples p)); try done.
  - rewrite Hl. ring.
  - intros i Hi. replace (3 + (nwrow p + 2 * nqtriples p) + i)%nat with (iq p + 2 * nqtriples p + i)%nat by lia. by apply HR.
  - intros i Hi. replace (3 + (nwrow p + nqtriples p) + i)%nat with (iq p + nqtriples p + i)%nat by lia. by apply HR.
  - intros i Hi. replace (3 + nwrow p + i)%nat with (iq p + i)%nat by lia. by apply HR.
Qed.
End linear.

(** * What the Ligero verifier decides

    On a proof of the announced shape, [check_responses] never panics, and it
    accepts exactly when the opened columns are in the Merkle tree and satisfy
    the equations of the three responses. *)

(** A loop that collects results. *)
Lemma foldM_map {Err X Y} (g : X -> outcome Err Y) (h : X -> Y) xs acc :
  (forall x, x ∈ xs -> g x = Ok (h x)) ->
  foldM (fun ys x => y ← g x; mret (ys ++ [y])) acc xs = Ok (acc ++ map h xs).
Proof.
  revert acc; induction xs as [|x xs IH]; intros acc Hg; cbn [foldM map]; [by rewrite app_nil_r|].
  rewrite Hg by set_solver. mstep. rewrite IH by (intros; apply Hg; set_solver). by rewrite <- app_assoc.
Qed.

Lemma hash_elts_ok {E} `{SerializableField E} {Err} (get : nat -> outcome Err E) (h : nat -> E) n :
  serialized_size_bytes (E:=E) <= 128 -> (forall r, r < n -> get r = Ok (h r)) ->
  hash_elts get n = Ok (flat_map (fun r => to_bytes (h r)) (seq 0 n)).
Proof.
  intros Hs. induction n as [|n IH]; intros Hg; [done|]. unfold hash_elts in *.
  rewrite seq_S, foldM_app, IH by (intros; apply Hg; lia). mstep. cbn [foldM Nat.add].
  rewrite Hg by lia. mstep. rewrite (proj2 (Nat.leb_le _ _)) by done. cbn [rust_assert]. mstep.
  rewrite flat_map_app. cbn [flat_map]. by rewrite app_nil_r.
Qed.

(** The statement is well formed: all indices are in range. *)
Record statement_ok {E} (p : LigeroParam) (lcs : list (LigeroLinearConstraint E)) (nl : nat)
    (qcs : list LigeroQuadraticConstraint) : Prop := {
  so_linear : Forall (fun t => lc_w t < p_nw p /\ lc_c t < nl) lcs;
  so_count : p_nq p <= length qcs;
  so_quadratic k l : k < p_nq p -> qcs !! k = Some l -> qc_x l < p_nw p /\ qc_y l < p_nw p /\ qc_z l < p_nw p
}.
(** The proof has the announced shape. *)
Record proof_ok {E} (p : LigeroParam) (proof : LigeroProof E) : Prop := {
  pf_ldt : length (y_ldt proof) = block p;
  pf_dot : length (y_dot proof) = dblock p;
  pf_quad_0 : length (y_quad_0 proof) = p_r p;
  pf_quad_2 : length (y_quad_2 proof) = (dblock p - block p)%nat;
  pf_req : length (req proof) = (nrow p * nreq p)%nat
}.

(** ** [validate] *)
Section validate.
Context {E : Type} (p : LigeroParam) (proof : LigeroProof E) (lcs : list (LigeroLinearConstraint E)) (nl : nat)
  (qcs : list LigeroQuadraticConstraint).

Lemma foldM_check {X} (bad : X -> bool) (e : LigeroError) xs :
  (forallb (fun x => negb (bad x)) xs = true /\ foldM (fun (_ : unit) x => reject_if (bad x) e) tt xs = Ok tt) \/
  (forallb (fun x => negb (bad x)) xs = false /\ foldM (fun (_ : unit) x => reject_if (bad x) e) tt xs = Err e).
Proof.
  induction xs as [|x xs IH]; cbn [foldM forallb]; [by left|]. destruct (bad x); cbn [negb andb reject_if]; [by right|].
  by rewrite bind_Ok.
Qed.

(** [validate] accepts exactly the well-shaped proofs and statements, and
    rejects everything else with [InvalidProof]. *)
Lemma validate_spec :
  (ligero_verifier.validate p proof nl lcs qcs = Ok tt /\ proof_ok p proof /\ statement_ok p lcs nl qcs) \/
  (exists m, ligero_verifier.validate p proof nl lcs qcs = Err (InvalidProof m) /\
     ~ (proof_ok p proof /\ statement_ok p lcs nl qcs)).
Proof.
  unfold ligero_verifier.validate, ligero_verifier.invalid_if.
  pose proof (Nat.eqb_spec (length (y_ldt proof)) (block p)) as H1. destruct H1; cbn [negb reject_if];
    [mstep|right; eexists; split; [reflexivity|]; by intros [[] _]].
  pose proof (Nat.eqb_spec (length (y_dot proof)) (dblock p)) as H2. destruct H2; cbn [negb reject_if];
    [mstep|right; eexists; split; [reflexivity|]; by intros [[] _]].
  pose proof (Nat.eqb_spec (length (y_quad_0 proof)) (p_r p)) as H3. destruct H3; cbn [negb reject_if];
    [mstep|right; eexists; split; [reflexivity|]; by intros [[] _]].
  pose proof (Nat.eqb_spec (length (y_quad_2 proof)) (dblock p - block p)) as H4. destruct H4; cbn [negb reject_if];
    [mstep|right; eexists; split; [reflexivity|]; by intros [[] _]].
  pose proof (Nat.eqb_spec (length (req proof)) (nrow p * nreq p)) as H5. destruct H5; cbn [negb reject_if];
    [mstep|right; eexists; split; [reflexivity|]; by intros [[] _]].
  destruct (foldM_check (fun t => Nat.leb (p_nw p) (lc_w t) || Nat.leb nl (lc_c t))
    (InvalidProof "linear constraint index out of bounds") lcs) as [[Hl Hr]|[Hl Hr]]; rewrite Hr.
  2:{ right. eexists. split; [reflexivity|]. intros [_ [Hlin _ _]]. apply not_true_iff_false in Hl. apply Hl.
      apply forallb_forall. intros t Ht%list_elem_of_In. rewrite Forall_forall in Hlin. destruct (Hlin t Ht) as [H1 H2].
      by rewrite (proj2 (Nat.leb_gt _ _) H1), (proj2 (Nat.leb_gt _ _) H2). }
  mstep. destruct (Nat.ltb_spec (length qcs) (p_nq p)) as [Hc|Hc]; cbn [reject_if].
  { right. eexists. split; [reflexivity|]. intros [_ [_ Hcount _]]. lia. }
  mstep. rewrite slice_Ok by lia. mstep. rewrite Nat.sub_0_r, drop_0.
  destruct (foldM_check (fun l => Nat.leb (p_nw p) (qc_x l) || Nat.leb (p_nw p) (qc_y l) || Nat.leb (p_nw p) (qc_z l))
    (InvalidProof "quadratic constraint index out of bounds") (take (p_nq p) qcs)) as [[Hq Hs]|[Hq Hs]]; rewrite Hs.
  - left. split; [done|]. split; [by split|]. rewrite forallb_forall in Hl, Hq. split; [|done|].
    + apply Forall_forall. intros t Ht%list_elem_of_In%Hl. apply negb_true_iff, orb_false_iff in Ht as [H1 H2].
      apply Nat.leb_gt in H1, H2. done.
    + intros k l Hk Hkl. assert (In l (take (p_nq p) qcs)) as Hin.
      { apply list_elem_of_In, list_elem_of_lookup. exists k. by rewrite lookup_take_lt. }
      specialize (Hq l Hin). apply negb_true_iff, orb_false_iff in Hq as [[H1 H2]%orb_false_iff H3].
      apply Nat.leb_gt in H1, H2, H3. done.
  - right. eexists. split; [reflexivity|]. intros [_ [_ _ Hquad]]. apply not_true_iff_false in Hq. apply Hq.
    apply forallb_forall. intros l Hin%list_elem_of_In%list_elem_of_lookup. destruct Hin as [k Hk].
    apply lookup_take_Some in Hk as [Hk Hlt]. destruct (Hquad k l Hlt Hk) as (H1 & H2 & H3).
    by rewrite (proj2 (Nat.leb_gt _ _) H1), (proj2 (Nat.leb_gt _ _) H2), (proj2 (Nat.leb_gt _ _) H3).
Qed.
End validate.

Section decide.
Context {E : Type} `{AF : AlgebraicField E} `{!AlgebraicFieldLaws E} `{SF : SerializableField E}.
Context `{SU : Subfield E} `{RI : !RangeInterpolatorFactory E} `{!RangeInterpolatorLaws E}.
Context `{SHL : Sha256Laws}.
Context (elt_size : serialized_size_bytes (E:=E) <= 128).
Context (p : LigeroParam) (Hp : param_ok (E:=E) p) (Hnreq : 0 < nreq p).
Context (qcs : list LigeroQuadraticConstraint) (lcs : list (LigeroLinearConstraint E)) (b : list E).
Context (Hst : statement_ok p lcs (length b) qcs).
Context (proof : LigeroProof E) (Hpf : proof_ok p proof).
Context (idx : list nat) (Hlen : length idx = nreq p) (Hnd : NoDup idx) (Hidx : Forall (fun i => i < block_enc p - dblock p) idx).

Abbreviation pts := (plan_points (E:=E)).

(** The value opened in row [i] for query [r]. *)
Definition opened_value (i r : nat) : E := at0 (req proof) (i * nreq p + r).

Lemma req_row_value {Err} i : i < nrow p ->
  ligero_verifier.req_row (Err:=Err) p proof i = Ok (tab (opened_value i) (nreq p)).
Proof.
  intros Hi. unfold ligero_verifier.req_row. rewrite slice_at0.
  - do 2 f_equal. lia.
  - destruct Hpf. nia.
Qed.

Lemma merkle_check_total root : ligero_verifier.merkle_check p idx root proof <> Panic.
Proof.
  unfold ligero_verifier.merkle_check.
  rewrite (foldM_map _ (fun r => flat_map (fun i => to_bytes (opened_value i r)) (seq 0 (nrow p)))).
  - mstep. apply verify_total; [|done|done]. intros ->. cbn in Hlen. lia.
  - intros r [_ Hr]%elem_of_seq. unfold ligero_verifier.opened_bytes. apply hash_elts_ok; [done|].
    intros i Hi. apply index_at0. destruct Hpf. nia.
Qed.

Lemma quad_response_length : length (quad_response p proof) = dblock p.
Proof.
  destruct (widths p Hp) as (Hwd & Hbd & Hdw & Hb & Hrw). destruct Hpf.
  unfold quad_response, ligero_verifier.resize. rewrite !length_app, length_take, length_replicate. lia.
Qed.

Context (u_ldt alphal : list E) (alphaq : list (E * E * E)) (u_quad : list E).
Context (Lu : length u_ldt = nwqrow p) (Lal : length alphal = length b) (Laq : length alphaq = p_nq p)
  (Luq : length u_quad = nqtriples p).

Lemma batch_exists (X : nat -> E) : exists a, (forall Err, common.inner_product_vector (Err:=Err) p lcs alphal qcs alphaq = Ok a) /\
  length a = (nwqrow p * p_w p)%nat /\
  pairing (nwqrow p * p_w p) a X = linear_combination X alphal lcs + sigma (seq 0 (p_nq p)) (tie X p alphaq qcs).
Proof.
  pose proof Hst as [Hln Hcount Hqd]. pose proof Hp as Hp'. destruct Hp'.
  destruct (div_ceil_spec (p_nw p) (p_w p) po_w) as [Hnwr _]. destruct (div_ceil_spec (p_nq p) (p_w p) po_w) as [Hnqr _].
  destruct (inner_product_vector_ok (Err:=unit) X p alphal alphaq qcs lcs) as (a & Ha & La & Sa);
    [by rewrite Lal|done|done|done|lia|lia|done|].
  exists a. split; [|done]. intros Err. by eapply inner_product_vector_any.
Qed.

(** The equations of an accepting run: [fl], [fd] and [fq] are the
    polynomials of the responses and [A] those of the coefficient rows. *)
Record accepts (fl fd fq : E -> E) (A : nat -> E -> E) : Prop := {
  ac_ldt r : r < nreq p -> fl (opened_at p idx r) = ldt_opened p opened_value u_ldt r;
  ac_dot r : r < nreq p -> fd (opened_at p idx r) = dot_opened p idx opened_value A r;
  ac_linear : sigma (seq 0 (p_w p)) (fun j => fd (pts (p_r p + j))) + sigma (seq 0 (length b)) (fun c => at0 b c * at0 alphal c) = 0;
  ac_quad r : r < nreq p -> fq (opened_at p idx r) = quad_opened p opened_value u_quad r
}.

Lemma check_responses_spec root a fl fd fq A :
  (forall Err, common.inner_product_vector (Err:=Err) p lcs alphal qcs alphaq = Ok a) ->
  length a = (nwqrow p * p_w p)%nat -> coefficient_polys p a A ->
  responds (block p) (y_ldt proof) fl -> responds (dblock p) (y_dot proof) fd -> responds (dblock p) (quad_response p proof) fq ->
  let m := ligero_verifier.check_responses p b root proof lcs qcs u_ldt alphal alphaq u_quad idx in
  m <> Panic /\ (m = Ok tt <-> ligero_verifier.merkle_check p idx root proof = Ok tt /\ accepts fl fd fq A).
Proof.
  intros Ha La HA Hfl Hfd Hfq. destruct (widths p Hp) as (Hwd & Hbd & Hdw & Hb & Hrw).
  destruct (encoder_ok p (block p) (po_check _ Hp)) as (enc & Henc & Eenc).
  destruct (encoder_ok p (dblock p) (po_dencode _ Hp)) as (renc & Hrenc & Erenc).
  assert (forall Err i, i < nrow p -> ligero_verifier.req_row (Err:=Err) p proof i = Ok (tab (opened_value i) (nreq p))) as HQ
    by (intros; by apply req_row_value).
  destruct (low_degree_check_spec (Err:=LigeroError) p Hp idx Hidx Hlen proof opened_value HQ u_ldt fl enc Lu Eenc Hfl) as (b1 & H1 & I1).
  destruct (dot_check_spec (Err:=LigeroError) p Hp idx Hidx Hlen proof opened_value HQ a A fd enc renc La HA Eenc Erenc Hfd) as (b2 & H2 & I2).
  destruct (quadratic_check_spec (Err:=LigeroError) p Hp idx Hidx Hlen proof opened_value HQ u_quad fq renc Luq Erenc Hfq) as (b3 & H3 & I3).
  cbv zeta. unfold ligero_verifier.check_responses.
  pose proof (merkle_check_total root) as Hmt.
  destruct (ligero_verifier.merkle_check p idx root proof) as [[]|e|] eqn:Hm; [|split; [done|split; [done|intros [? _]; done]]|done].
  cbn [map_err]. mstep. rewrite Henc. mstep. rewrite H1. mstep.
  destruct b1; cbn [negb reject_if]; [mstep|split; [done|split; [done|intros [_ [? _ _ _]]; exfalso; by apply diff_false_true, I1]]].
  rewrite Ha. mstep. rewrite Hrenc. mstep. rewrite H2. mstep.
  destruct b2; cbn [negb reject_if]; [mstep|split; [done|split; [done|intros [_ [_ ? _ _]]; exfalso; by apply diff_false_true, I2]]].
  rewrite dot_spec by done. mstep. rewrite slice_at0 by (destruct Hpf; lia). mstep. cbv zeta. rewrite dot1_tab.
  replace (p_r p + p_w p - p_r p)%nat with (p_w p) by lia.
  assert (sigma (seq 0 (p_w p)) (fun j => at0 (y_dot proof) (p_r p + j)) = sigma (seq 0 (p_w p)) (fun j => fd (pts (p_r p + j)))) as ->.
  { apply sigma_ext. intros j [_ Hj]%elem_of_seq. apply Hfd. lia. }
  rewrite Lal. set (sum := _ + _). destruct (bool_decide (sum = 0)) eqn:Hs; cbn [negb reject_if].
  2:{ apply bool_decide_eq_false in Hs. split; [done|split; [done|intros [_ [_ _ ? _]]; done]]. }
  apply bool_decide_eq_true in Hs. mstep. rewrite H3. mstep.
  destruct b3; cbn [negb reject_if]; [|split; [done|split; [done|intros [_ [_ _ _ ?]]; exfalso; by apply diff_false_true, I3]]].
  split; [done|]. split; [|done]. intros _. split; [done|]. split; [by apply I1|by apply I2|done|by apply I3].
Qed.
End decide.

(** * Completeness of Ligero

    [commit], [prove] and [verify] composed: the transcript's draws, the
    column hashes and all the checks. *)

Section draws.
Context {E : Type} `{AF : AlgebraicField E} `{SF : SerializableField E} `{SS : SupportsSampling E} `{SH : Sha256} `{AE : Aes256} `{!SamplingLaws E}.

Lemma drawn_slice_ok n m t :
  can_draw (E:=E) (n + m) t ->
  exists v t', elt_field_slice (E:=E) n t = Ok (v, t') /\ length v = n /\ can_draw (E:=E) m t'.
Proof.
  unfold elt_field_slice. intros Hd.
  enough (forall k a (v : list E) t, can_draw (E:=E) (k + m) t -> exists v' t',
    foldM (fun '(v, g) _ => '(e, g) ← elt_field g; mret (v ++ [e], g)) (v, t) (seq a k) = Ok (v ++ v', t') /\
    length v' = k /\ can_draw (E:=E) m t') as Hg by (destruct (Hg n 0%nat [] t Hd) as (v' & t' & ?); by exists v', t').
  clear. induction k as [|k IH]; intros a v t Hd; cbn [seq foldM].
  { exists [], t. by rewrite app_nil_r. }
  destruct (can_draw_sample t (k + m) Hd) as (e & t1 & He & Hd1). rewrite He. mstep.
  destruct (IH (S a) (v ++ [e]) t1 Hd1) as (v' & t' & -> & Hl & Hd'). exists (e :: v'), t'.
  rewrite <- app_assoc. split; [done|]. split; [cbn; lia|done].
Qed.
Lemma gen_alphaq_ok p m t :
  can_draw (E:=E) (3 * p_nq p + m) t ->
  exists v t', ligero_transcript.gen_alphaq (E:=E) p t = Ok (v, t') /\ length v = p_nq p /\ can_draw (E:=E) m t'.
Proof.
  unfold ligero_transcript.gen_alphaq. generalize (p_nq p). intros n Hd.
  enough (forall k a (v : list (E * E * E)) t, can_draw (E:=E) (3 * k + m) t -> exists v' t',
    foldM ligero_transcript.gen_triple (v, t) (seq a k) = Ok (v ++ v', t') /\
    length v' = k /\ can_draw (E:=E) m t') as Hg by (destruct (Hg n 0%nat [] t Hd) as (v' & t' & ?); by exists v', t').
  clear. induction k as [|k IH]; intros a v t Hd; cbn [seq foldM].
  { exists [], t. by rewrite app_nil_r. }
  replace (3 * S k + m)%nat with (S (S (S (3 * k + m)))) in Hd by lia.
  destruct (can_draw_sample t _ Hd) as (e0 & t0 & He0 & Hd0).
  destruct (can_draw_sample t0 _ Hd0) as (e1 & t1 & He1 & Hd1).
  destruct (can_draw_sample t1 _ Hd1) as (e2 & t2 & He2 & Hd2).
  assert (ligero_transcript.gen_triple (v, t) a = Ok (v ++ [(e0, e1, e2)], t2)) as ->
    by (unfold ligero_transcript.gen_triple; by rewrite He0, bind_Ok, He1, bind_Ok, He2).
  mstep.
  destruct (IH (S a) (v ++ [(e0, e1, e2)]) t2 Hd2) as (v' & t' & -> & Hl & Hd'). exists ((e0, e1, e2) :: v'), t'.
  rewrite <- app_assoc. split; [done|]. split; [cbn; lia|done].
Qed.
Lemma write_slice_ok (es : list E) t :
  serialized_size_bytes (E:=E) <= 128 -> exists t', write_elt_field_slice es t = Ok t'.
Proof.
  intros Hs. unfold write_elt_field_slice. generalize (put_length (length es) (tag TAG_ARRAY t)).
  induction es as [|e es IH]; intros u; cbn [foldM]; [by eexists|].
  assert (write_untyped_elt e u = Ok (write_untyped (to_bytes e) u)) as ->
    by (unfold write_untyped_elt; by rewrite (proj2 (Nat.leb_le _ _))).
  mstep. apply IH.
Qed.
End draws.

(** ** The statement *)
(** The linear constraints hold: each row of [A] applied to the witness
    cancels the corresponding evaluation. *)
Definition linear_holds {E} `{AlgebraicField E} (witness : list E) (lcs : list (LigeroLinearConstraint E)) (b : list E) : Prop :=
  forall c, c < length b ->
    sigma lcs (fun t => if Nat.eqb (lc_c t) c then lc_k t * at0 witness (lc_w t) else 0) + at0 b c = 0.

Section complete.
Context {E : Type} `{AF : AlgebraicField E} `{!AlgebraicFieldLaws E} `{SF : SerializableField E} `{SS : SupportsSampling E}.
Context `{SU : Subfield E} `{RI : !RangeInterpolatorFactory E} `{!RangeInterpolatorLaws E}.
Context `{SHL : Sha256Laws} `{AE : Aes256} `{!SamplingLaws E}.
Add Ring field_ring_complete : (field_ring (E:=E)).
Context (elt_size : serialized_size_bytes (E:=E) <= 128).
Context (p : LigeroParam) (Hp : param_ok (E:=E) p) (Hnreq : 0 < nreq p).
Context (witness : list E) (qcs : list LigeroQuadraticConstraint).

Abbreviation wd := (block_enc p).
Abbreviation pts := (plan_points (E:=E)).

(** The bytes of column [j] past [dblock]. *)
Definition column_bytes (R : nat -> E -> E) (j : nat) : list u8 :=
  flat_map (fun r => to_bytes (R r (pts (dblock p + j)))) (seq 0 (nrow p)).

Lemma all_leaf_bytes_ok {Err} rows R :
  codewords p witness qcs rows R ->
  ligero_prover.all_leaf_bytes (Err:=Err) p (mk wd rows) = Ok (map (column_bytes R) (seq 0 (wd - dblock p))).
Proof.
  intros HR. unfold ligero_prover.all_leaf_bytes. rewrite (foldM_map _ (column_bytes R)); [done|].
  intros j [_ Hj]%elem_of_seq. unfold ligero_prover.leaf_bytes, column_bytes. apply hash_elts_ok; [done|].
  intros r Hr. eapply get_mk; [apply HR|by apply HR|]. unfold samples. rewrite lookup_tab by lia. do 3 f_equal. lia.
Qed.

(** ** [commit] *)
Lemma ligero_commit_ok {G} `{RandomEngine G} boundary ts rng :
  (forall g : G, exists (e : E) g', elt_field g = Ok (e, g')) ->
  (forall g : G, exists (e : E) g', elt_subfield g = Ok (e, g') /\ sf_contains e = true) ->
  engine_ok (rng_bytes (G:=G)) ->
  p_nw p <= length witness -> boundary <= p_nw p -> Forall (fun e => sf_contains e = true) (take boundary witness) ->
  p_nq p <= length qcs ->
  (forall k l, k < p_nq p -> qcs !! k = Some l -> qc_x l < p_nw p /\ qc_y l < p_nw p /\ qc_z l < p_nw p) ->
  exists rows R mc root rng', codewords p witness qcs rows R /\
    ligero_prover.commit boundary witness p ts qcs rng
    = Ok ({| lp_param := p; lp_mc := mc; lp_tableau := mk wd rows |}, root, ligero_transcript.write_commitment root ts, rng') /\
    commitment_spec (wd - dblock p) (column_bytes R) mc root.
Proof.
  intros Hf Hs He Hw Hb Hbs Hq Hqs. unfold ligero_prover.commit. rewrite slice_Ok by lia. mstep.
  destruct (layout_ok Hf Hs p Hp witness Hw boundary Hb Hbs qcs Hq Hqs rng) as (rows & rng1 & -> & Hspec). mstep.
  destruct (layout_codewords p Hp witness qcs rows Hspec) as [R HR]. rewrite (all_leaf_bytes_ok rows R HR). mstep.
  pose proof (po_enc _ Hp) as Henc.
  destruct (Merkle.commit_ok rng_bytes (wd - dblock p) rng1
    (fun j => default [] (map (column_bytes R) (seq 0 (wd - dblock p)) !! j)) He ltac:(lia)) as (mc & root & rng2 & -> & Hc).
  mstep. exists rows, R, mc, root, rng2. split; [done|]. split; [done|].
  destruct Hc as [C1 C2 C3 C4 C5]. split; try done. rewrite <- C4. f_equal. unfold salted.
  apply imap_ext. intros i n Hi. apply lookup_lt_Some in Hi. rewrite list_lookup_fmap, lookup_seq_lt by lia. done.
Qed.

(** ** The linear sum *)
Lemma linear_group (alphal : list E) (lcs : list (LigeroLinearConstraint E)) (F : LigeroLinearConstraint E -> E) n :
  Forall (fun t => lc_c t < n) lcs ->
  sigma lcs (fun t => F t * at0 alphal (lc_c t))
  = sigma (seq 0 n) (fun c => at0 alphal c * sigma lcs (fun t => if Nat.eqb (lc_c t) c then F t else 0)).
Proof.
  intros Hl. transitivity (sigma lcs (fun t => sigma (seq 0 n) (fun c => at0 alphal c * (if Nat.eqb (lc_c t) c then F t else 0)))).
  - apply sigma_ext. intros t Ht. rewrite Forall_forall in Hl. specialize (Hl t Ht).
    rewrite (sigma_single n (lc_c t)); [rewrite Nat.eqb_refl; ring|done|].
    intros c Hc. rewrite (proj2 (Nat.eqb_neq _ _)) by done. ring.
  - rewrite sigma_swap. apply sigma_ext. intros c _. by rewrite sigma_mul.
Qed.

(** ** The opened columns *)
Lemma gen_idx_ok fuel ts idx ts' :
  ligero_transcript.gen_idx fuel p ts = Ok (idx, ts') ->
  length idx = nreq p /\ NoDup idx /\ Forall (fun i => i < wd - dblock p) idx.
Proof.
  intros Hg. unfold ligero_transcript.gen_idx in Hg. apply bind_Ok_inv in Hg as ([] & _ & Hg).
  apply bind_Ok_inv in Hg as ([] & Ha & Hg). apply rust_assert_Ok, Nat.leb_le in Ha.
  assert (wd - dblock p <> 0)%nat as Hn by lia.
  destruct (choose_spec _ _ _ _ _ _ _ Hn Hg) as (Hl & Hnd & Hlt & Ht & _).
  rewrite length_replicate in Hl. rewrite take_ge in Hnd, Hlt by lia. done.
Qed.

(** What drawing the challenges yields. *)
Lemma elt_field_slice_length n (t t' : Transcript) (v : list E) :
  elt_field_slice n t = Ok (v, t') -> length v = n.
Proof.
  intros Hv. unfold elt_field_slice in Hv.
  apply (foldM_Ok_invariant (fun done st => length st.1 = length done)) in Hv; [by rewrite length_seq in Hv|done|].
  intros done x [v0 g0] [v1 g1] Hl Hs. apply bind_Ok_inv in Hs as ([e g] & _ & Hs). apply Ok_inj in Hs. injection Hs as <- <-.
  cbn [fst] in *. rewrite !length_app. cbn. lia.
Qed.
Lemma gen_alphaq_length (t t' : Transcript) v :
  ligero_transcript.gen_alphaq (E:=E) p t = Ok (v, t') -> length v = p_nq p.
Proof.
  intros Hv. unfold ligero_transcript.gen_alphaq in Hv.
  apply (foldM_Ok_invariant (fun done st => length st.1 = length done)) in Hv; [by rewrite length_seq in Hv|done|].
  intros done x [v0 g0] [v1 g1] Hl Hs. unfold ligero_transcript.gen_triple in Hs.
  apply bind_Ok_inv in Hs as ([e0 t0] & _ & Hs). apply bind_Ok_inv in Hs as ([e1 t1] & _ & Hs). apply bind_Ok_inv in Hs as ([e2 t2] & _ & Hs).
  apply Ok_inj in Hs. injection Hs as <- <-. cbn [fst] in *. rewrite !length_app. cbn. lia.
Qed.

Lemma merkle_check_ok rows R mc root idx :
  codewords p witness qcs rows R -> commitment_spec (wd - dblock p) (column_bytes R) mc root ->
  length idx = nreq p -> NoDup idx -> Forall (fun i => i < wd - dblock p) idx ->
  exists mp, (forall Err, open_commitment (E:=Err) mc idx = Ok mp) /\
    forall proof, req proof = concat (opened_rows p R idx) -> merkle proof = mp ->
      ligero_verifier.merkle_check p idx root proof = Ok tt.
Proof.
  intros HR Hc Hl Hnd Hlt. pose proof (po_enc _ Hp) as Henc.
  assert (idx <> []) as Hne by (intros ->; cbn in Hl; lia).
  destruct (open_verify_ok (wd - dblock p) (column_bytes R) mc root idx
    (fun r _ => default [] (map (fun r => column_bytes R (idx !!! r)) (seq 0 (length idx)) !! r)) Hc ltac:(lia) Hne Hnd Hlt)
    as (mp & Hopen & Hver & _).
  { intros r i Hr. pose proof (lookup_lt_Some _ _ _ Hr). rewrite list_lookup_fmap, lookup_seq_lt by done. cbn.
    by rewrite (list_lookup_total_correct _ _ _ Hr). }
  exists mp. split; [done|]. intros proof Hreq Hmp. unfold ligero_verifier.merkle_check.
  rewrite (foldM_map _ (fun r => column_bytes R (idx !!! r))).
  - mstep. cbn [app]. by rewrite Hmp.
  - intros r [_ Hr]%elem_of_seq. unfold ligero_verifier.opened_bytes, column_bytes. apply hash_elts_ok; [done|].
    intros i Hi. rewrite Hreq. apply index_Ok. eapply concat_lookup; [apply opened_wf|by apply opened_lookup|].
    rewrite lookup_tab by lia. done.
Qed.

(** ** [prove] and [verify] *)
Section run.
Context (rows : list (list E)) (R : nat -> E -> E) (mc : MerkleCommitment) (root : Digest).
Context (HR : codewords p witness qcs rows R) (Hmc : commitment_spec (wd - dblock p) (column_bytes R) mc root).
Context (Hw : p_nw p <= length witness).
Context (b : list E) (lcs : list (LigeroLinearConstraint E)) (hash : Digest).
Context (Hst : statement_ok p lcs (length b) qcs).
Context (Hlin : linear_holds witness lcs b) (Hquad : quadratics_hold p witness qcs).

Definition honest_prover : LigeroProver E := {| lp_param := p; lp_mc := mc; lp_tableau := mk wd rows |}.

(** The number of elements the verifier draws before the columns. *)
Definition draws_needed : nat := (nwqrow p + (length b + (3 * p_nq p + (nqtriples p + 0))))%nat.

Lemma linear_sum_zero alphal alphaq :
  length alphal = length b -> length alphaq = p_nq p ->
  linear_combination (slot_value p R) alphal lcs + sigma (seq 0 (p_nq p)) (tie (slot_value p R) p alphaq qcs)
  + sigma (seq 0 (length alphal)) (fun i => at0 b i * at0 alphal i) = 0.
Proof.
  intros Hl Hq. destruct Hst as [Hln Hcount Hqd].
  rewrite (sigma_zero (seq 0 (p_nq p))).
  2:{ intros k [_ Hk]%elem_of_seq. apply (tie_zero p Hp witness qcs rows R HR); [lia|]. intros l Hkl. by eapply Hqd; [|exact Hkl]. }
  unfold linear_combination.
  rewrite (sigma_ext lcs _ (fun t => (lc_k t * at0 witness (lc_w t)) * at0 alphal (lc_c t))).
  2:{ intros t Ht. rewrite Forall_forall in Hln. rewrite (slot_witness p Hp witness qcs rows R HR) by by apply Hln. ring. }
  rewrite (linear_group alphal lcs (fun t => lc_k t * at0 witness (lc_w t)) (length alphal)).
  2:{ eapply Forall_impl; [exact Hln|]. intros t [_ ?]. by rewrite Hl. }
  match goal with |- ?a + 0 + ?c = 0 => transitivity (a + c); [ring|] end.
  rewrite <- sigma_add. apply sigma_zero. intros c [_ Hc]%elem_of_seq. rewrite Hl in Hc.
  specialize (Hlin c Hc). transitivity (at0 alphal c * (sigma lcs (fun t => if Nat.eqb (lc_c t) c then lc_k t * at0 witness (lc_w t) else 0) + at0 b c)); [ring|].
  rewrite Hlin. ring.
Qed.

Lemma ligero_prove_verify_ok ts :
  can_draw (E:=E) draws_needed (ligero_transcript.write_ligero_statement hash ts) ->
  exists ts1, forall fuel,
    match ligero_transcript.gen_idx fuel p ts1 with
    | Ok (idx, ts') => exists proof,
        ligero_prover.prove fuel honest_prover b ts lcs hash qcs = Ok (proof, ts') /\
        ligero_verifier.verify fuel p b root proof lcs hash qcs ts = Ok ts'
    | Err e => ligero_prover.prove fuel honest_prover b ts lcs hash qcs = Err e
    | Panic => ligero_prover.prove fuel honest_prover b ts lcs hash qcs = Panic
    end.
Proof.
  intros Hd. pose proof Hst as [Hln Hcount Hqd]. unfold draws_needed in Hd.
  pose proof Hp as Hp'. destruct Hp'. destruct (div_ceil_spec (p_nw p) (p_w p) po_w) as [Hnwr _].
  destruct (div_ceil_spec (p_nq p) (p_w p) po_w) as [Hnqr _].
  set (t0 := ligero_transcript.write_ligero_statement hash ts) in *.
  destruct (drawn_slice_ok _ _ _ Hd) as (u & t1 & Hu & Lu & Hd1).
  destruct (drawn_slice_ok _ _ _ Hd1) as (al & t2 & Hal & Lal & Hd2).
  destruct (gen_alphaq_ok p _ _ Hd2) as (aq & t3 & Haq & Laq & Hd3).
  destruct (drawn_slice_ok _ _ _ Hd3) as (uq & t4 & Huq & Luq & _).
  assert (exists a, (forall Err, common.inner_product_vector (Err:=Err) p lcs al qcs aq = Ok a) /\ length a = (nwqrow p * p_w p)%nat /\
    pairing (nwqrow p * p_w p) a (slot_value p R)
    = linear_combination (slot_value p R) al lcs + sigma (seq 0 (p_nq p)) (tie (slot_value p R) p aq qcs)) as (a & Ha & La & Sa).
  { destruct (inner_product_vector_ok (Err:=unit) (slot_value p R) p al aq qcs lcs) as (a & Ha & La & Sa); try done; try lia; [by rewrite Lal|].
    exists a. split; [|done]. intros Err. by eapply inner_product_vector_any. }
  destruct (coefficient_polys_exist p Hp a) as [A HA].
  set (yl := tab (fun j => ldt_poly p R u (pts j)) (block p)).
  set (yd := tab (fun j => dot_poly p R A (pts j)) (dblock p)).
  set (yq0 := tab (fun j => quad_poly p R uq (pts j)) (p_r p)).
  set (yq2 := tab (fun j => quad_poly p R uq (pts (block p + j))) (dblock p - block p)).
  destruct (write_slice_ok yl t4 elt_size) as (t5 & H5). destruct (write_slice_ok yd t5 elt_size) as (t6 & H6).
  destruct (write_slice_ok yq0 t6 elt_size) as (t7 & H7). destruct (write_slice_ok yq2 t7 elt_size) as (t8 & H8).
  exists t8. intros fuel.
  assert (forall (k : list nat * Transcript -> outcome stuck (LigeroProof E * Transcript)),
    (forall x, k x = ('(idx, ts') ← Ok x; req ← ligero_prover.gather_opened_columns p (mk wd rows) idx; merkle ← open_commitment mc idx;
        mret ({| y_ldt := yl; y_dot := yd; y_quad_0 := yq0; y_quad_2 := yq2; req := req; merkle := merkle |}, ts'))) ->
    ligero_prover.prove fuel honest_prover b ts lcs hash qcs = ligero_transcript.gen_idx fuel p t8 ≫= k) as Hprove.
  { intros k Hk. unfold ligero_prover.prove. cbn [lp_param lp_tableau lp_mc honest_prover]. fold t0. cbv zeta.
    unfold ligero_transcript.gen_uldt at 1. rewrite Hu. mstep.
    rewrite (low_degree_proof_ok p Hp witness qcs rows R HR) by done. mstep.
    unfold ligero_transcript.gen_alphal at 1. rewrite Hal. mstep. rewrite Haq. mstep. rewrite Ha. mstep.
    rewrite (dot_proof_ok p Hp witness qcs rows R HR a A) by done. mstep.
    unfold ligero_transcript.gen_uquad at 1. rewrite Huq. mstep.
    rewrite (quadratic_proof_ok p Hp witness qcs rows R HR uq) by done. mstep.
    fold yl yd yq0 yq2. rewrite H5. mstep. rewrite H6. mstep. rewrite H7. mstep. rewrite H8. mstep.
    destruct (ligero_transcript.gen_idx fuel p t8) as [[idx ts']| |]; [|done..]. mstep. by rewrite Hk. }
  specialize (Hprove _ (fun x => eq_refl)). rewrite Hprove.
  destruct (ligero_transcript.gen_idx fuel p t8) as [[idx ts']| |] eqn:Hidx; [|done..].
  destruct (gen_idx_ok _ _ _ _ Hidx) as (Li & Hnd & Hlt).
  destruct (merkle_check_ok rows R mc root idx HR Hmc Li Hnd Hlt) as (mp & Hopen & Hmerkle).
  rewrite bind_Ok. cbn beta iota. rewrite bind_Ok, (gather_opened_columns_ok p Hp witness qcs rows R HR idx Hlt Li), bind_Ok, Hopen, bind_Ok.
  set (proof := {| y_ldt := yl; y_dot := yd; y_quad_0 := yq0; y_quad_2 := yq2; req := concat (opened_rows p R idx); merkle := mp |}).
  exists proof. split; [done|].
  assert (ligero_verifier.challenges fuel p (length b) proof hash ts = Ok (u, al, aq, uq, idx, ts')) as Hch.
  { unfold ligero_verifier.challenges. fold t0. cbv zeta. unfold ligero_transcript.gen_uldt. rewrite Hu. mstep.
    unfold ligero_transcript.gen_alphal. rewrite Hal. mstep. rewrite Haq. mstep. unfold ligero_transcript.gen_uquad. rewrite Huq. mstep.
    cbn [y_ldt y_dot y_quad_0 y_quad_2 proof]. rewrite H5. mstep. rewrite H6. mstep. rewrite H7. mstep. rewrite H8. mstep.
    rewrite Hidx. by mstep. }
  assert (proof_ok p proof) as Hpf.
  { split; try apply length_tab. cbn [req proof]. rewrite (concat_length (nreq p)) by apply opened_wf.
    unfold opened_rows. by rewrite length_map, length_seq. }
  unfold ligero_verifier.verify.
  destruct (validate_spec p proof lcs (length b) qcs) as [[-> _]|(m & _ & Hno)]; [|by destruct Hno].
  cbn [map_err]. mstep. rewrite Hch. cbn [map_err]. mstep.
  assert (ligero_verifier.check_responses p b root proof lcs qcs u al aq uq idx = Ok tt) as ->; [|by mstep].
  assert (forall i r, i < nrow p -> r < nreq p -> opened_value p proof i r = R i (opened_at p idx r)) as Hov.
  { intros i r Hi Hr. unfold opened_value, at0. cbn [req proof].
    rewrite (concat_lookup (nreq p) (opened_rows p R idx) i r _ (R i (opened_at p idx r)) (opened_wf _ _ _) (opened_lookup _ _ _ i Hi)); [done|].
    by rewrite lookup_tab. }
  assert (forall n (f : E -> E) y, is_poly n f -> y = tab (fun j => f (pts j)) n -> responds n y f) as Hresp by exact responds_tab.
  apply (check_responses_spec elt_size p Hp Hnreq qcs lcs b proof Hpf idx Li Hnd Hlt u al aq uq Lu Lal Laq Luq root a
    (ldt_poly p R u) (dot_poly p R A) (quad_poly p R uq) A Ha La HA).
  - apply Hresp; [by eapply ldt_poly_poly|done].
  - apply Hresp; [by eapply dot_poly_poly|done].
  - by eapply quad_response_ok.
  - split; [by apply Hmerkle|]. split.
    + intros r Hr. unfold ldt_poly, ldt_opened. rewrite Hov by lia. f_equal.
      apply sigma_ext. intros i [_ Hi]%elem_of_seq. by rewrite Hov by lia.
    + intros r Hr. unfold dot_poly, dot_opened. rewrite Hov by lia. f_equal.
      apply sigma_ext. intros i [_ Hi]%elem_of_seq. by rewrite Hov by lia.
    + rewrite (dot_poly_sum p Hp witness qcs rows R HR a A HA), Sa, <- Lal. by apply linear_sum_zero.
    + intros r Hr. unfold quad_poly, quad_opened. rewrite Hov by lia. f_equal.
      apply sigma_ext. intros i [_ Hi]%elem_of_seq. by rewrite !Hov by lia.
Qed.
End run.

Lemma challenges_lengths fuel nl (proof : LigeroProof E) hash ts u al aq uq idx ts' :
  ligero_verifier.challenges fuel p nl proof hash ts = Ok (u, al, aq, uq, idx, ts') ->
  length u = nwqrow p /\ length al = nl /\ length aq = p_nq p /\ length uq = nqtriples p /\
  length idx = nreq p /\ NoDup idx /\ Forall (fun i => i < wd - dblock p) idx.
Proof.
  intros Hc. unfold ligero_verifier.challenges in Hc. cbv zeta in Hc.
  apply bind_Ok_inv in Hc as ([u' t1] & Hu & Hc). apply bind_Ok_inv in Hc as ([al' t2] & Hal & Hc).
  apply bind_Ok_inv in Hc as ([aq' t3] & Haq & Hc). apply bind_Ok_inv in Hc as ([uq' t4] & Huq & Hc).
  do 4 (apply bind_Ok_inv in Hc as (? & _ & Hc)). apply bind_Ok_inv in Hc as ([idx' t9] & Hidx & Hc).
  apply Ok_inj in Hc. injection Hc as <- <- <- <- <- <-.
  apply elt_field_slice_length in Hu, Hal, Huq. apply gen_alphaq_length in Haq.
  pose proof (gen_idx_ok _ _ _ _ Hidx) as (? & ? & ?). done.
Qed.
End complete.
