(* ===== verification/LigeroSamples.v ===== *)
(** * A concrete interpolation factory and subfield

    Interpolation by [Poly.eval_lagrange] on the tabulated evaluation points
    of a field, and the whole of GF(2^128) as its own subfield; the theorems
    about range interpolation and Ligero are evaluated on them. *)
From stdpp Require Import prelude strings.
From Stdlib Require Import Lia NArith.
From S2P Require Import Prelude Words Interfaces Merkle Gf2_128 Field FieldFacts Gf2_128Facts Interpolation Transcript TranscriptTheorems SumcheckV1 Gf2_128Sampling RangeInterpolation Ligero.

Local Open Scope fe_scope.

Section lagrange.
Context {E : Type} `{AlgebraicFieldLaws E} `{!InterpolationField E} `{!Subfield E}.
Context (n : nat) `{!InterpolationFieldLaws E n}.
Add Ring field_ring_lagrange : (field_ring (E:=E)).

Definition lagrange_can (src dst : nat * nat) : bool :=
  Nat.eqb src.1 0 && Nat.ltb 0 src.2 && Nat.leb src.2 n && Nat.leb dst.1 dst.2 && Nat.leb dst.2 n.
Definition lagrange_make (Err : Type) (src dst : nat * nat) : outcome Err (list nat) :=
  rust_assert (lagrange_can src dst) ;; mret (range_seq dst).
Definition lagrange_apply (Err : Type) (plan : list nat) (v : list E) : outcome Err (list E) :=
  foldM (fun out j => e ← Poly.eval_lagrange v (pt j); mret (out ++ [e])) [] plan.

Definition lagrange_factory : RangeInterpolatorFactory E := {|
  Plan := list nat;
  can_interpolate := lagrange_can;
  make_range := lagrange_make;
  apply_plan := lagrange_apply;
  apply_subfield := lagrange_apply
|}.

Lemma lagrange_can_inv src dst :
  lagrange_can src dst = true -> src.1 = 0%nat /\ 0 < src.2 <= n /\ dst.1 <= dst.2 <= n.
Proof.
  unfold lagrange_can. intros Hc. do 4 (apply andb_true_iff in Hc as [Hc ?]).
  apply Nat.eqb_eq in Hc. repeat match goal with H : Nat.leb _ _ = true |- _ => apply Nat.leb_le in H
    | H : Nat.ltb _ _ = true |- _ => apply Nat.ltb_lt in H end. lia.
Qed.

Lemma lagrange_laws : @RangeInterpolatorLaws E _ _ lagrange_factory.
Proof.
  refine {| plan_points := pt |}; cbn [can_interpolate make_range apply_plan apply_subfield Plan lagrange_factory].
  - intros src dst i j Hc Hij. apply lagrange_can_inv in Hc as (_ & Hs & _).
    destruct (nd_spec n j (j - i)) as [_ Hn]; [lia|lia|]. replace (j - (j - i))%nat with i in Hn by lia.
    intros Hz. rewrite Hz in Hn. apply one_neq_zero. rewrite <- Hn. ring.
  - intros src dst Hc. pose proof (lagrange_can_inv _ _ Hc) as (Hs0 & Hs & Hd). exists (range_seq dst). split.
    { intros Err. unfold lagrange_make. by rewrite Hc. }
    intros Err f (cs & Hl & Hf). unfold range_len in Hl. rewrite Hs0, Nat.sub_0_r in Hl.
    assert (map (fun i => f (pt i)) (range_seq src) = tab (fun k => mono cs (pt k)) (length cs)) as ->.
    { unfold range_seq, range_len, tab. rewrite Hs0, Nat.sub_0_r, Hl. apply map_ext. intros. apply Hf. }
    unfold lagrange_apply.
    enough (forall js acc, foldM (fun out j => e ← Poly.eval_lagrange (tab (fun k => mono cs (pt k)) (length cs)) (pt j);
      mret (out ++ [e])) acc js = @Ok Err _ (acc ++ map (fun i => f (pt i)) js)) as Hg by apply Hg.
    induction js as [|j js IH]; intros acc; cbn [foldM map]; [by rewrite app_nil_r|].
    rewrite (eval_lagrange_mono n) by lia. mstep. rewrite IH, <- app_assoc. cbn [app]. by rewrite Hf.
  - intros Err p v _. done.
  - intros src dst Hc. apply lagrange_can_inv in Hc as (-> & ? & ?). lia.
Defined.
End lagrange.

(** ** GF(2^128) as a subfield of itself *)
#[export] Instance gf_whole_subfield : Subfield Gf2_128 := {|
  sf_to_bytes Err e := Ok (to_bytes e);
  sf_contains _ := true;
  sf_serialized_size_bytes := 16;
  sf_bytes_to_element bs := bytes_to_element bs;
  sf_sample := gf_sample
|}.

(** Six points: a block of two, one query, rate 1/3. *)
#[export] Instance gf_factory : RangeInterpolatorFactory Gf2_128 := lagrange_factory 6.
#[export] Instance gf_factory_laws : RangeInterpolatorLaws Gf2_128 := lagrange_laws 6.

(** [w2 = w0 * w1] and [w0 + w1 + 6 = 0], with [w0 = 3] and [w1 = 5]. *)
Module Product.
Definition config : LigeroConfig := {| cfg_rateinv := 1; cfg_nreq := 1; cfg_block_enc := 5 |}.
Definition p : LigeroParam := param.layout_of 3 1 config 2.
Lemma p_ok : param.try_new 3 1 config = Some p.
Proof. reflexivity. Qed.
Definition witness : list Gf2_128 := [gf 3; gf 5; fmul (gf 3) (gf 5)].
Definition quadratics : list LigeroQuadraticConstraint := [{| qc_x := 0; qc_y := 1; qc_z := 2 |}].
Definition linear : list (LigeroLinearConstraint Gf2_128) :=
  [{| lc_c := 0; lc_w := 0; lc_k := gf 1 |}; {| lc_c := 0; lc_w := 1; lc_k := gf 1 |}].
Definition evals : list Gf2_128 := [gf 6].
End Product.

