(* ===== verification/LigeroTheorems.v ===== *)
(** * Theorems: Ligero

    Completeness, the exact acceptance condition, the row layout, the batched
    constraints and the parameters; instances over GF(2^128). *)
From stdpp Require Import prelude strings.
From Stdlib Require Import Lia NArith.
From S2P Require Import Prelude Words Interfaces Merkle Gf2_128 Field FieldFacts Gf2_128Facts Interpolation Transcript TranscriptTheorems SumcheckV1 SumcheckLayer Gf2_128Sampling CompletenessTheorems RangeInterpolation Ligero TableauFacts LigeroBatch LigeroChecks LigeroSamples.

Section ligero.
Context {E : Type} `{AF : AlgebraicField E} `{!AlgebraicFieldLaws E} `{SF : SerializableField E} `{SS : SupportsSampling E}.
Context `{SU : Subfield E} `{RI : !RangeInterpolatorFactory E} `{!RangeInterpolatorLaws E}.
Context `{SHL : Sha256Laws} `{AE : Aes256} `{!SamplingLaws E}.

(** C16: completeness of Ligero.  For parameters that [try_new] accepts, a
    witness that satisfies the quadratic constraints and the linear
    constraints, and a generator that yields elements, [commit] succeeds and
    leaves both parties with one transcript; then, whenever the columns can be
    drawn, [prove] returns a proof (its internal zero check passes) that
    [verify] accepts, leaving the same transcript, and otherwise [prove] fails
    exactly as the drawing does. *)
Theorem ligero_complete {G} `{RandomEngine G} nw nq config p boundary (witness : list E) qcs
    (lcs : list (LigeroLinearConstraint E)) b hash (ts : Transcript) (rng : G) :
  serialized_size_bytes (E:=E) <= 128 -> param.try_new nw nq config = Some p -> 0 < cfg_nreq config ->
  (forall g : G, exists (e : E) g', elt_field g = Ok (e, g')) ->
  (forall g : G, exists (e : E) g', elt_subfield g = Ok (e, g') /\ sf_contains e = true) ->
  engine_ok (rng_bytes (G:=G)) ->
  nw <= length witness -> boundary <= nw -> Forall (fun e => sf_contains e = true) (take boundary witness) ->
  statement_ok p lcs (length b) qcs -> quadratics_hold p witness qcs -> linear_holds witness lcs b ->
  (forall t, pseudorandom_generator t = None -> can_draw (E:=E) (draws_needed p b) t) ->
  exists lp root ts0 rng',
    ligero_prover.commit boundary witness p ts qcs rng = Ok (lp, root, ts0, rng') /\
    ligero_verifier.receive_commitment root ts = ts0 /\
    exists ts1, forall fuel,
      match ligero_transcript.gen_idx fuel p ts1 with
      | Ok (idx, ts') => exists proof,
          ligero_prover.prove fuel lp b ts0 lcs hash qcs = Ok (proof, ts') /\
          ligero_verifier.verify fuel p b root proof lcs hash qcs ts0 = Ok ts'
      | Err e => ligero_prover.prove fuel lp b ts0 lcs hash qcs = Err e
      | Panic => ligero_prover.prove fuel lp b ts0 lcs hash qcs = Panic
      end.
Proof.
  intros Hs Hp Hn Hf Hsf He Hw Hb Hbs Hst Hq Hl Hd.
  destruct (try_new_ok _ _ _ _ Hp) as (Hok & <- & <- & Hnr & _ & _). rewrite <- Hnr in Hn.
  destruct (ligero_commit_ok Hs p Hok Hn witness qcs boundary ts rng Hf Hsf He Hw Hb Hbs (so_count _ _ _ _ Hst) (so_quadratic _ _ _ _ Hst))
    as (rows & R & mc & root & rng' & HR & Hc & Hmc).
  eexists _, root, _, rng'. split; [exact Hc|]. split; [reflexivity|].
  apply (ligero_prove_verify_ok Hs p Hok Hn witness qcs rows R mc root HR Hmc Hw b lcs hash Hst Hl Hq). by apply Hd.
Qed.

(** C17: what the verifier accepts.  Once the challenges are drawn, [verify]
    never panics, whatever the proof; it accepts exactly the proofs and
    statements of the right shape whose opened columns hash to the committed
    root and whose responses, as polynomials, agree at every opened column
    with the same combination of the opened rows, the linear response having
    the sum the linear constraints demand. *)
Theorem ligero_accepts_iff fuel p b root (proof : LigeroProof E) lcs hash qcs ts u al aq uq idx ts' :
  serialized_size_bytes (E:=E) <= 128 -> param_ok (E:=E) p -> 0 < nreq p ->
  ligero_verifier.challenges fuel p (length b) proof hash ts = Ok (u, al, aq, uq, idx, ts') ->
  let m := ligero_verifier.verify fuel p b root proof lcs hash qcs ts in
  m <> Panic /\
  (m = Ok ts' <->
    proof_ok p proof /\ statement_ok p lcs (length b) qcs /\ ligero_verifier.merkle_check p idx root proof = Ok tt /\
    exists a fl fd fq A,
      (forall Err, common.inner_product_vector (Err:=Err) p lcs al qcs aq = Ok a) /\ coefficient_polys p a A /\
      responds (block p) (y_ldt proof) fl /\ responds (dblock p) (y_dot proof) fd /\
      responds (dblock p) (quad_response p proof) fq /\ accepts p b proof idx u al uq fl fd fq A).
Proof.
  intros Hs Hp Hn Hch. cbv zeta. unfold ligero_verifier.verify.
  destruct (challenges_lengths Hs p Hn _ _ _ _ _ _ _ _ _ _ _ Hch) as (Lu & Lal & Laq & Luq & Li & Hnd & Hlt).
  destruct (validate_spec p proof lcs (length b) qcs) as [(-> & Hpf & Hst)|(m & -> & Hno)]; cbn [map_err].
  2:{ split; [done|]. split; [done|]. intros (Hpf & Hst & _). by destruct Hno. }
  rewrite bind_Ok, Hch. cbn [map_err]. rewrite bind_Ok. cbn beta iota.
  destruct (batch_exists Hs p Hp Hn qcs lcs b Hst idx Li u al aq uq Lu Lal Laq Luq (fun _ => fzero)) as (a & Ha & La & _).
  destruct (coefficient_polys_exist p Hp a) as [A HA].
  destruct (responds_exists (block p) _ (y_ldt proof) (po_check _ Hp) (pf_ldt _ _ Hpf)) as [fl Hfl].
  destruct (responds_exists (dblock p) _ (y_dot proof) (po_dencode _ Hp) (pf_dot _ _ Hpf)) as [fd Hfd].
  destruct (responds_exists (dblock p) _ _ (po_dencode _ Hp) (quad_response_length Hs p Hp Hn proof Hpf idx Li)) as [fq Hfq].
  destruct (check_responses_spec Hs p Hp Hn qcs lcs b proof Hpf idx Li Hnd Hlt u al aq uq Lu Lal Laq Luq root a fl fd fq A Ha La HA Hfl Hfd Hfq)
    as [Hnp Hiff].
  destruct (ligero_verifier.check_responses _ _ _ _ _ _ _ _ _ _ _) as [[]|e|] eqn:Hc; [| |done]; cbn [map_err].
  - rewrite bind_Ok. split; [discriminate|]. split; [intros _|reflexivity]. destruct (proj1 Hiff eq_refl) as [Hm Hacc]. split_and!; try done.
    by exists a, fl, fd, fq, A.
  - split; [discriminate|]. split; [discriminate|]. intros (_ & _ & Hm & a' & fl' & fd' & fq' & A' & Ha' & HA' & Hfl' & Hfd' & Hfq' & Hacc).
    assert (a' = a) as -> by (specialize (Ha unit); specialize (Ha' unit); congruence).
    destruct (check_responses_spec Hs p Hp Hn qcs lcs b proof Hpf idx Li Hnd Hlt u al aq uq Lu Lal Laq Luq root a fl' fd' fq' A' Ha La HA' Hfl' Hfd' Hfq')
      as [_ Hiff']. rewrite Hc in Hiff'. discriminate (proj2 Hiff' (conj Hm Hacc)).
Qed.

(** C32: the rows of the tableau.  [layout] never fails; every row is the
    sample vector of a polynomial of degree below [block] ([dblock] for the
    second and third blinding rows), the blinding row of the linear test sums
    to zero on the witness slots and that of the quadratic test vanishes
    there, the witness rows hold the witness, padded with zeros, and the
    factor rows hold the factors of the quadratic constraints. *)
Theorem layout_codeword_rows {G} `{RandomEngine G} nw nq config p boundary (witness : list E) qcs (rng : G) :
  param.try_new nw nq config = Some p ->
  (forall g : G, exists (e : E) g', elt_field g = Ok (e, g')) ->
  (forall g : G, exists (e : E) g', elt_subfield g = Ok (e, g') /\ sf_contains e = true) ->
  nw <= length witness -> boundary <= nw -> Forall (fun e => sf_contains e = true) (take boundary witness) ->
  nq <= length qcs ->
  (forall k l, k < nq -> qcs !! k = Some l -> qc_x l < nw /\ qc_y l < nw /\ qc_z l < nw) ->
  exists rows R rng', layout.layout boundary witness p qcs rng = Ok (mk (block_enc p) rows, rng') /\
    codewords p witness qcs rows R.
Proof.
  intros Hp Hf Hsf Hw Hb Hbs Hq Hqs. destruct (try_new_ok _ _ _ _ Hp) as (Hok & <- & <- & _).
  destruct (layout_ok Hf Hsf p Hok witness Hw boundary Hb Hbs qcs Hq Hqs rng) as (rows & rng' & Hl & Hspec).
  destruct (layout_codewords p Hok witness qcs rows Hspec) as [R HR]. by exists rows, R, rng'.
Qed.

(** The batched constraints.  Paired with any assignment of the witness
    and factor slots, [inner_product_vector] yields the [alphal]-combination
    of the linear constraints' left-hand sides plus, for every quadratic
    constraint, the [alphaq]-combination of the differences between the three
    copies and the witnesses they copy. *)
Theorem inner_product_vector_pairing {Err} nw nq config p (X : nat -> E) alphal alphaq qcs (lcs : list (LigeroLinearConstraint E)) :
  param.try_new nw nq config = Some p ->
  statement_ok p lcs (length alphal) qcs -> length alphaq = nq ->
  exists a, common.inner_product_vector (Err:=Err) p lcs alphal qcs alphaq = Ok a /\
    length a = nwqrow p * p_w p /\
    pairing (nwqrow p * p_w p) a X
    = fadd (linear_combination X alphal lcs) (sigma (seq 0 nq) (tie X p alphaq qcs)).
Proof.
  intros Hp [Hlin Hc Hq] Ha. destruct (try_new_ok _ _ _ _ Hp) as (Hok & <- & <- & _). pose proof Hok as Hok'. destruct Hok'.
  destruct (div_ceil_spec (p_nw p) (p_w p) po_w) as [H1 _]. destruct (div_ceil_spec (p_nq p) (p_w p) po_w) as [H2 _].
  apply inner_product_vector_ok; try done; lia.
Qed.

(** C33: parameters.  When [try_new] answers, its assertions ([sanity]) hold,
    a block holds the [nreq] blinding slots and the [w] witness slots, the
    rows hold all the witnesses and all the factors without an unused row,
    and at least [nreq] columns lie past the double block. *)
Theorem try_new_layout {Err} nw nq config p :
  param.try_new (E:=E) nw nq config = Some p ->
  param.new (E:=E) (Err:=Err) nw nq config = Ok p /\
  block p = nreq p + p_w p /\ nreq p <= p_w p /\ nreq p = cfg_nreq config /\
  nw <= nwrow p * p_w p < nw + p_w p /\ nq <= nqtriples p * p_w p < nq + p_w p /\
  nrow p = 3 + nwrow p + 3 * nqtriples p /\
  nreq p <= block_enc p - dblock p /\ dblock p = 2 * block p - 1 /\
  (2 + cfg_rateinv config) * block p <= block_enc p + 1.
Proof.
  intros Hp. pose proof (try_new_ok _ _ _ _ Hp) as (Hok & <- & <- & Hr & He & Hb). pose proof Hok as Hok'. destruct Hok'.
  assert (forall a b, 0 < b -> a <= div_ceil a b * b < a + b) as Hceil.
  { intros a c Hc. unfold div_ceil. pose proof (Nat.div_mod (a + c - 1) c ltac:(lia)). pose proof (Nat.mod_upper_bound (a + c - 1) c ltac:(lia)). nia. }
  split.
  { by apply try_new_new. }
  rewrite po_nwrow, po_nqtriples in *. split_and!; try lia; try (by apply Hceil).
  - by eapply try_new_w.
Qed.
End ligero.

(** ** Over GF(2^128), six points *)
#[local] Existing Instances toy_sha256 toy_sha256_laws toy_aes toy_aes_laws.
#[local] Instance toy_random : RandomEngine N := toy_engine.

Lemma toy_field_samples (g : N) : exists (e : Gf2_128) g', elt_field g = Ok (e, g').
Proof.
  eexists _, _. eapply elt_field_ok; [reflexivity|]. apply length_to_le_bytes.
Qed.
Lemma toy_subfield_samples (g : N) : exists (e : Gf2_128) g', elt_subfield g = Ok (e, g') /\ sf_contains e = true.
Proof. destruct (toy_field_samples g) as (e & g' & He). exists e, g'. split; [exact He|reflexivity]. Qed.
Lemma toy_random_ok : engine_ok (rng_bytes (G:=N)).
Proof. intros n g. eexists _, _. split; [reflexivity|]. apply toy_bytes_length. Qed.

Lemma product_statement : statement_ok Product.p Product.linear (length Product.evals) Product.quadratics.
Proof.
  split.
  - repeat constructor; cbn; lia.
  - cbn. lia.
  - intros [|k] l Hk [= <-]. cbn. lia.
Qed.
Lemma product_quadratics : quadratics_hold Product.p Product.witness Product.quadratics.
Proof. intros [|k] l Hk [= <-]. reflexivity. Qed.
Lemma product_linear : linear_holds Product.witness Product.linear Product.evals.
Proof. intros [|c] Hc; [vm_compute; reflexivity|]. exfalso. cbn in Hc. lia. Qed.
Lemma product_draws (t : Transcript) :
  pseudorandom_generator t = None -> can_draw (E:=Gf2_128) (draws_needed Product.p Product.evals) t.
Proof. intros Hf. apply can_draw_fresh; [exact Hf|vm_compute; lia]. Qed.

(** The run of the witness: committing and proving, the drawing of the columns
    included, succeed with this fuel. *)
#[local] Notation product_commit :=
  (ligero_prover.commit 3 Product.witness Product.p (Transcript_new [x2a]) Product.quadratics 7%N).
#[local] Notation product_prove := (fun lp ts0 =>
  ligero_prover.prove 64 lp Product.evals ts0 Product.linear [x01] Product.quadratics).
Lemma product_run_ok :
  match product_commit with
  | Ok (lp, root, ts0, rng') => match product_prove lp ts0 with Ok _ => true | _ => false end
  | _ => false
  end = true.
Proof. vm_compute. reflexivity. Qed.
Lemma product_proves lp root ts0 rng' :
  product_commit = Ok (lp, root, ts0, rng') -> exists r, product_prove lp ts0 = Ok r.
Proof.
  intros Hc. pose proof product_run_ok as Hok. rewrite Hc in Hok. cbv beta iota in Hok |- *.
  destruct (ligero_prover.prove _ _ _ _ _ _ _) as [r| |]; [by exists r|discriminate Hok..].
Qed.
Lemma ligero_complete_witness :
  exists lp root ts0 rng' proof ts',
    product_commit = Ok (lp, root, ts0, rng') /\
    ligero_prover.prove 64 lp Product.evals ts0 Product.linear [x01] Product.quadratics = Ok (proof, ts') /\
    ligero_verifier.verify 64 Product.p Product.evals root proof Product.linear [x01] Product.quadratics ts0 = Ok ts'.
Proof.
  destruct (ligero_complete 3 1 Product.config Product.p 3 Product.witness Product.quadratics Product.linear Product.evals [x01]
    (Transcript_new [x2a]) 7%N) as (lp & root & ts0 & rng' & Hc & _ & ts1 & Hrun).
  - vm_compute. lia.
  - exact Product.p_ok.
  - cbn. lia.
  - exact toy_field_samples.
  - exact toy_subfield_samples.
  - exact toy_random_ok.
  - cbn. lia.
  - lia.
  - repeat constructor.
  - exact product_statement.
  - exact product_quadratics.
  - exact product_linear.
  - exact product_draws.
  - specialize (Hrun 64). destruct (product_proves _ _ _ _ Hc) as [r Hr]. cbv beta in Hr.
    destruct (ligero_transcript.gen_idx 64 Product.p ts1) as [[idx ts']| |]; [|rewrite Hrun in Hr; discriminate Hr..].
    destruct Hrun as (proof & Hp & Hv). exists lp, root, ts0, rng', proof, ts'. split; [exact Hc|]. split; [exact Hp|exact Hv].
Defined.

(** A proof of the right shape that proves nothing. *)
Definition zero_proof : LigeroProof Gf2_128 :=
  {| y_ldt := [gf 0; gf 0]; y_dot := [gf 0; gf 0; gf 0]; y_quad_0 := [gf 0]; y_quad_2 := [gf 0];
     req := replicate 9 (gf 0); merkle := {| mp_nonce := []; mp_path := [] |} |}.
Lemma product_param_ok : param_ok (E:=Gf2_128) Product.p.
Proof. exact (proj1 (try_new_ok _ _ _ _ Product.p_ok)). Qed.
Lemma zero_run_ok : exists u al aq uq idx ts',
  ligero_verifier.challenges 64 Product.p (length Product.evals) zero_proof [x01] (Transcript_new [x2a]) = Ok (u, al, aq, uq, idx, ts').
Proof.
  assert (match ligero_verifier.challenges 64 Product.p (length Product.evals) zero_proof [x01] (Transcript_new [x2a])
    with Ok _ => true | _ => false end = true) as Hr by (vm_compute; reflexivity).
  destruct (ligero_verifier.challenges _ _ _ _ _ _) as [[[[[[u al] aq] uq] idx] ts']| |]; [|discriminate Hr|discriminate Hr].
  exists u, al, aq, uq, idx, ts'. reflexivity.
Qed.

Lemma ligero_accepts_iff_witness :
  ligero_verifier.verify 64 Product.p Product.evals [x02] zero_proof Product.linear [x01] Product.quadratics (Transcript_new [x2a]) <> Panic.
Proof.
  destruct zero_run_ok as (u & al & aq & uq & idx & ts' & Hr).
  destruct (ligero_accepts_iff 64 Product.p Product.evals [x02] zero_proof Product.linear [x01] Product.quadratics (Transcript_new [x2a])
    u al aq uq idx ts') as [Hn _].
  - vm_compute. lia.
  - exact product_param_ok.
  - cbn. lia.
  - exact Hr.
  - exact Hn.
Defined.

Lemma layout_codeword_rows_witness :
  exists rows R rng', layout.layout 3 Product.witness Product.p Product.quadratics 7%N = Ok (mk 5 rows, rng') /\
    codewords Product.p Product.witness Product.quadratics rows R.
Proof.
  apply (layout_codeword_rows 3 1 Product.config Product.p 3 Product.witness Product.quadratics 7%N).
  - exact Product.p_ok.
  - exact toy_field_samples.
  - exact toy_subfield_samples.
  - cbn. lia.
  - lia.
  - repeat constructor.
  - cbn. lia.
  - exact (so_quadratic _ _ _ _ product_statement).
Defined.

Lemma inner_product_vector_pairing_witness :
  exists a, common.inner_product_vector (Err:=unit) Product.p Product.linear [gf 7] Product.quadratics [(gf 8, gf 9, gf 10)] = Ok a /\
    length a = 6.
Proof.
  destruct (inner_product_vector_pairing (Err:=unit) 3 1 Product.config Product.p (fun _ => gf 1) [gf 7] [(gf 8, gf 9, gf 10)]
    Product.quadratics Product.linear) as (a & Ha & Hl & _).
  - exact Product.p_ok.
  - exact product_statement.
  - reflexivity.
  - exists a. split; [exact Ha|]. rewrite Hl. reflexivity.
Defined.

Lemma try_new_layout_witness :
  param.new (E:=Gf2_128) (Err:=unit) 3 1 Product.config = Ok Product.p /\ block Product.p = 2.
Proof.
  destruct (try_new_layout (E:=Gf2_128) (Err:=unit) 3 1 Product.config Product.p Product.p_ok) as (Hn & _).
  split; [exact Hn|reflexivity].
Defined.
