(* ===== verification/LigeroCodec.v ===== *)
(** * The encoding of Ligero proofs

    The subfield scalars of [src/rust/runtime/proto/src/util.rs] and
    [LigeroProof::write] and [read] of [src/rust/runtime/proto/src/ligero.rs]:
    the four responses, the nonces, the opened values as alternating runs of
    full and of subfield elements, and the Merkle path. *)
From stdpp Require Import prelude strings.
From Stdlib Require Import Lia NArith.
From S2P Require Import Prelude Words Stream Interfaces Field Merkle Transcript SumcheckProof RangeInterpolation Ligero SumcheckProofFacts.

Module ligero_proof.
Section codec.
Context {A : Type} `{SerializableField A} `{Subfield A}.
Local Open Scope string_scope.

(** ** Subfield scalars ([util.rs]) *)
Definition write_subfield_elt (bytes : list u8) (x : A) : outcome string (list u8) :=
  reject_if (negb (sf_contains x)) "element not in subfield" ;;
  bs ← sf_to_bytes string x;
  mret (bytes ++ bs)%list.

Definition read_subfield_elt : reader (list u8) A := fun bytes =>
  let size := sf_serialized_size_bytes (E:=A) in
  reject_if (length bytes <? size)%nat "EOF reading subfield element" ;;
  let chunk := take size bytes in
  let bytes := drop size bytes in
  elt ← map_err (String.append "Failed to parse subfield element: ") (sf_bytes_to_element chunk);
  canonical ← sf_to_bytes string elt;
  reject_if (negb (bool_decide (canonical = chunk))) "Non-canonical subfield element encoding" ;;
  mret (elt, bytes).

(** ** The opened values *)

(** How far a run of elements inside ([subfield_run]) or outside the subfield
    extends. *)
Fixpoint run_length (subfield_run : bool) (elts : list A) : nat :=
  match elts with
  | [] => 0
  | e :: elts' => if Bool.eqb (sf_contains e) subfield_run then S (run_length subfield_run elts') else 0
  end.

Definition write_req_elt (subfield_run : bool) (bytes : list u8) (elt : A) : outcome string (list u8) :=
  if subfield_run then write_subfield_elt bytes elt else mret (write_elt_field bytes elt).

(** [while i < total_elts]: only the first run can be empty, so
    [total_elts + 1] iterations are enough. *)
Fixpoint write_runs (fuel : nat) (req : list A) (i : nat) (subfield_run : bool) (bytes : list u8)
  : outcome string (list u8) :=
  if (length req <=? i)%nat then mret bytes else
  match fuel with
  | O => Panic
  | S fuel =>
      let runlen := run_length subfield_run (drop i req) in
      bytes ← write_size_4bytes bytes runlen;
      bytes ← foldM (write_req_elt subfield_run) bytes (take runlen (drop i req));
      write_runs fuel req (i + runlen) (negb subfield_run) bytes
  end.

Definition MAX_RUN_LEN : N := 2 ^ 25.

Definition read_req_elt (subfield_run : bool) : reader (list u8) A :=
  if subfield_run then read_subfield_elt
  else
    elt ← read_elt_field;
    lift (reject_if (sf_contains elt) "Non-canonical field encoding of subfield element in LigeroProof") ;;
    mret elt.

(** [while ci < total_elts]: an empty run is accepted in first position only,
    so [total_elts + 1] iterations are enough here, too. *)
Fixpoint read_runs (fuel total_elts ci : nat) (subfield_run first_run : bool) (req : list A)
  : reader (list u8) (list A) :=
  if (total_elts <=? ci)%nat then mret req else
  match fuel with
  | O => fun _ => Panic
  | S fuel =>
      runlen ← read_size_4bytes;
      lift (reject_if ((runlen =? 0)%nat && negb first_run || (MAX_RUN_LEN <=? N.of_nat runlen)%N
                       || (total_elts <? ci + runlen)%nat)
              "Non-canonical or invalid RLE run length in LigeroProof") ;;
      elts ← read_n runlen (read_req_elt subfield_run);
      read_runs fuel total_elts (ci + runlen) (negb subfield_run) false (req ++ elts)%list
  end.

(** ** Proofs *)
Definition write_elts (bytes : list u8) (elts : list A) : list u8 := foldl write_elt_field bytes elts.
Definition write_raw (bytes : list u8) (items : list (list u8)) : list u8 :=
  foldl (fun bytes item => bytes ++ item)%list bytes items.

Definition write_to_buf (proof : LigeroProof A) (bytes : list u8) (geom : LigeroGeometry)
  : outcome string (list u8) :=
  rust_assert (Nat.eqb (length (y_ldt proof)) (g_block geom)) ;;
  rust_assert (Nat.eqb (length (y_dot proof)) (g_dblock geom)) ;;
  rust_assert (Nat.eqb (length (y_quad_0 proof)) (g_r geom)) ;;
  rust_assert (Nat.eqb (length (y_quad_2 proof)) (g_dblock geom - g_block geom)) ;;
  rust_assert (Nat.eqb (length (mp_nonce (merkle proof))) (g_nreq geom)) ;;
  rust_assert (Nat.eqb (length (req proof)) (g_nreq geom * g_nrow geom)) ;;
  let bytes := write_elts bytes (y_ldt proof) in
  let bytes := write_elts bytes (y_dot proof) in
  let bytes := write_elts bytes (y_quad_0 proof) in
  let bytes := write_elts bytes (y_quad_2 proof) in
  let bytes := write_raw bytes (mp_nonce (merkle proof)) in
  bytes ← write_runs (S (length (req proof))) (req proof) 0 false bytes;
  bytes ← write_size_4bytes bytes (length (mp_path (merkle proof)));
  mret (write_raw bytes (mp_path (merkle proof))).

Definition write (proof : LigeroProof A) (geom : LigeroGeometry) : outcome string (list u8) :=
  write_to_buf proof [] geom.

Definition read (geom : LigeroGeometry) : reader (list u8) (LigeroProof A) :=
  y_ldt ← read_vec_field (g_block geom);
  y_dot ← read_vec_field (g_dblock geom);
  y_quad_0 ← read_vec_field (g_r geom);
  y_quad_2 ← read_vec_field (g_dblock geom - g_block geom);
  nonce ← read_n (g_nreq geom) read_bytes_32;
  let total_elts := g_nreq geom * g_nrow geom in
  req ← read_runs (S total_elts) total_elts 0 false true [];
  path_len ← read_size_4bytes;
  lift (reject_if (g_nreq geom * g_mc_pathlen geom <? path_len)%nat
          "Invalid Merkle path size in LigeroProof") ;;
  path ← read_n path_len read_bytes_32;
  mret {| y_ldt := y_ldt; y_dot := y_dot; y_quad_0 := y_quad_0; y_quad_2 := y_quad_2; req := req;
          merkle := {| mp_nonce := nonce; mp_path := path |} |}.
End codec.
End ligero_proof.

(** ** Facts about the encoding *)
Import ligero_proof.

#[local] Arguments Nat.leb : simpl never.
#[local] Arguments Nat.ltb : simpl never.

Lemma parses_size n : (N.of_nat n <= 2 ^ 32 - 1)%N ->
  parses (R:=list u8) read_size_4bytes (to_le_bytes 4 (N.of_nat n)) n.
Proof.
  intros Hn s rest Hs. cbn in Hs. subst s. exists rest. split; [|done].
  unfold read_size_4bytes.
  pose proof (length_to_le_bytes 4 (N.of_nat n)) as Hl.
  rewrite (proj2 (Nat.ltb_ge _ _)) by (rewrite length_app; lia). cbn [reject_if]. mstep.
  rewrite <- Hl at 1. rewrite take_app_length.
  rewrite <- Hl at 2. rewrite drop_app_length.
  rewrite from_to_le_bytes by (cbn; lia). by rewrite Nat2N.id.
Qed.
Lemma canonical_size : canonical read_size_4bytes (fun n => to_le_bytes 4 (N.of_nat n)).
Proof.
  intros s n s' Hr. unfold read_size_4bytes in Hr. inv_outcome.
  apply Nat.ltb_ge in Hx. injection Hr as <- <-. rewrite N2Nat.id.
  assert (length (take 4 s) = 4) as Hl by (rewrite length_take; lia).
  rewrite <- Hl at 1. rewrite to_from_le_bytes. by rewrite take_drop.
Qed.
Lemma read_size_bound s n s' : read_size_4bytes s = Ok (n, s') -> (N.of_nat n <= 2 ^ 32 - 1)%N.
Proof.
  intros Hr. unfold read_size_4bytes in Hr. inv_outcome. injection Hr as <- <-. rewrite N2Nat.id.
  apply Nat.ltb_ge in Hx. pose proof (from_le_bytes_bound (take 4 s)) as Hb.
  rewrite length_take_le in Hb by lia. cbn in Hb. lia.
Qed.

Lemma parses_bytes_32 bs : length bs = 32 -> parses (R:=list u8) read_bytes_32 bs bs.
Proof.
  intros Hl s rest Hs. cbn in Hs. subst s. exists rest. split; [|done].
  unfold read_bytes_32. rewrite (proj2 (Nat.ltb_ge _ _)) by (rewrite length_app; lia). cbn [reject_if]. mstep.
  rewrite <- Hl. by rewrite take_app_length, drop_app_length.
Qed.
Lemma canonical_bytes_32 : canonical read_bytes_32 id.
Proof.
  intros s b s' Hr. unfold read_bytes_32 in Hr. inv_outcome. injection Hr as <- <-. unfold id. by rewrite take_drop.
Qed.
Lemma read_bytes_32_length s b s' : read_bytes_32 s = Ok (b, s') -> length b = 32.
Proof.
  intros Hr. unfold read_bytes_32 in Hr. inv_outcome. injection Hr as <- <-.
  apply Nat.ltb_ge in Hx. rewrite length_take. lia.
Qed.

(** A reader that never panics. *)
Definition total_reader {B} (p : reader (list u8) B) : Prop := forall s, p s <> Panic.

Lemma total_bind {B C} (p : reader (list u8) B) (k : B -> reader (list u8) C) :
  total_reader p -> (forall b, total_reader (k b)) -> total_reader (p ≫= k).
Proof. intros Hp Hk s. unfold mbind, reader_bind. destruct (p s) as [[b s']| |] eqn:E; [apply Hk|done|by destruct (Hp s)]. Qed.
Lemma total_ret {B} (b : B) : total_reader (mret b).
Proof. by intros s. Qed.
Lemma total_check (b : bool) e : total_reader (lift (reject_if b e)).
Proof. intros s. by destruct b. Qed.
Lemma total_read_n {B} (p : reader (list u8) B) n : total_reader p -> total_reader (read_n n p).
Proof.
  intros Hp. induction n as [|n IH]; [apply total_ret|].
  apply total_bind; [done|intros b]. apply total_bind; [done|intros l]. apply total_ret.
Qed.
Lemma total_size : total_reader read_size_4bytes.
Proof. intros s. unfold read_size_4bytes. by destruct (length s <? 4). Qed.
Lemma total_bytes_32 : total_reader read_bytes_32.
Proof. intros s. unfold read_bytes_32. by destruct (length s <? 32). Qed.

Section codec.
Context {A : Type} `{SerializableFieldLaws A} `{SubfieldLaws A}.

(** ** Scalars *)
Definition enc_sub (e : A) : list u8 := match sf_to_bytes unit e with Ok bs => bs | _ => [] end.
Definition enc_req (b : bool) (e : A) : list u8 := if b then enc_sub e else to_bytes e.

Lemma enc_sub_ok e : sf_contains e = true ->
  (forall Err, sf_to_bytes Err e = Ok (enc_sub e)) /\ length (enc_sub e) = sf_serialized_size_bytes (E:=A) /\
  sf_bytes_to_element (enc_sub e) = Ok e.
Proof.
  intros He. destruct (sf_to_bytes_ok e He) as (bs & Hb & Hl & Hd).
  assert (enc_sub e = bs) as -> by (unfold enc_sub; by rewrite Hb). done.
Qed.

Lemma write_req_elt_ok b bs e : sf_contains e = b -> write_req_elt b bs e = Ok (bs ++ enc_req b e).
Proof.
  intros <-. unfold write_req_elt, enc_req. destruct (sf_contains e) eqn:He; [|done].
  destruct (enc_sub_ok e He) as (Hb & _ & _). unfold write_subfield_elt. rewrite He. cbn [negb reject_if]. mstep.
  by rewrite Hb.
Qed.
Lemma write_reqs_ok b es : Forall (fun e => sf_contains e = b) es -> forall bs,
  foldM (write_req_elt b) bs es = Ok (bs ++ concat (map (enc_req b) es)).
Proof.
  induction 1 as [|e es He Hes IH]; intros bs; [cbn; by rewrite app_nil_r|].
  cbn [foldM map concat]. rewrite write_req_elt_ok by done. mstep. by rewrite IH, app_assoc.
Qed.

Lemma parses_req b e : sf_contains e = b -> parses (R:=list u8) (read_req_elt b) (enc_req b e) e.
Proof.
  intros <-. unfold read_req_elt, enc_req. destruct (sf_contains e) eqn:He.
  - destruct (enc_sub_ok e He) as (Hb & Hl & Hd). intros s rest Hs. cbn in Hs. subst s. exists rest. split; [|done].
    unfold read_subfield_elt. rewrite (proj2 (Nat.ltb_ge _ _)) by (rewrite length_app; lia). cbn [reject_if]. mstep.
    rewrite <- Hl, take_app_length, drop_app_length, Hd. cbn [map_err]. mstep. rewrite Hb. mstep.
    rewrite bool_decide_true by done. done.
  - rewrite <- (app_nil_r (to_bytes e)). eapply parses_bind; [apply parses_elt|].
    apply parses_check; [done|apply parses_ret].
Qed.

Lemma canonical_req `{!CanonicalField A} b s e s' :
  read_req_elt b s = Ok (e, s') -> s = enc_req b e ++ s' /\ sf_contains e = b.
Proof.
  unfold read_req_elt, enc_req. destruct b; intros Hr.
  - unfold read_subfield_elt in Hr. inv_outcome. injection Hr as -> <-.
    destruct (sf_bytes_to_element _) as [e'| |] eqn:Hd; [|done..]. injection Hx0 as ->.
    pose proof (sf_bytes_to_element_contains _ _ Hd) as Hc. destruct (enc_sub_ok e Hc) as (Hb & _ & _).
    rewrite Hb in Hx1. injection Hx1 as <-. apply negb_false_iff, bool_decide_eq_true in Hx2.
    rewrite Hx2. split; [by rewrite take_drop|done].
  - apply reader_bind_inv in Hr as (e1 & s1 & ->%canonical_elt & Hr).
    apply reader_bind_inv in Hr as ([] & s2 & Hc & Hr). injection Hr as <- <-.
    unfold lift in Hc. destruct (sf_contains e1); [done|]. by injection Hc as ->.
Qed.

(** ** Runs *)
Lemma run_length_le b (l : list A) : run_length b l <= length l.
Proof. induction l as [|e l IH]; [done|]. cbn. destruct (Bool.eqb _ _); lia. Qed.
Lemma run_length_run b (l : list A) : Forall (fun e => sf_contains e = b) (take (run_length b l) l).
Proof.
  induction l as [|e l IH]; [by rewrite take_nil|]. cbn. destruct (Bool.eqb (sf_contains e) b) eqn:Hb; [|constructor].
  cbn. constructor; [by apply eqb_prop|done].
Qed.

(** A run can start here: nothing is left or the next element belongs to it. *)
Definition starts (b : bool) (l : list A) : Prop := l = [] \/ 0 < run_length b l.

Lemma starts_after b (l : list A) : starts (negb b) (drop (run_length b l) l).
Proof.
  induction l as [|e l IH]; [by left|]. cbn. destruct (Bool.eqb (sf_contains e) b) eqn:Hb; [done|].
  right. cbn. destruct (sf_contains e), b; cbn in *; try done; lia.
Qed.
Lemma run_length_app b (l l' : list A) :
  Forall (fun e => sf_contains e = b) l -> starts (negb b) l' -> run_length b (l ++ l') = length l.
Proof.
  intros Hl [->|Hs]; induction Hl as [|e l He Hl IH]; cbn.
  - done.
  - by rewrite He, eqb_reflx, IH.
  - destruct l' as [|e' l']; [done|]. cbn in *. destruct (sf_contains e'), b; cbn in *; (done || lia).
  - by rewrite He, eqb_reflx, IH.
Qed.

Definition first_count (first : bool) : nat := if first then 1 else 0.

Lemma runs_ok fuel : forall (l : list A) i b first,
  length l - i + first_count first <= fuel -> (first = false -> starts b (drop i l)) ->
  (N.of_nat (length l) < MAX_RUN_LEN)%N -> i <= length l ->
  exists out, (forall bs, write_runs fuel l i b bs = Ok (bs ++ out)) /\
    forall acc, parses (R:=list u8) (read_runs fuel (length l) i b first acc) out (acc ++ drop i l).
Proof.
  induction fuel as [|fuel IH]; intros l i b first Hf Hs Hm Hi; cbn [write_runs read_runs].
  all: destruct (Nat.leb_spec (length l) i) as [Hl|Hl];
    [exists []; split; [intros bs; by rewrite app_nil_r|intros acc; rewrite drop_ge, app_nil_r by done; apply parses_ret]|try lia].
  set (n := run_length b (drop i l)).
  assert (n <= length l - i) as Hn by (pose proof (run_length_le b (drop i l)) as Hle; rewrite length_drop in Hle; exact Hle).
  assert (first = false -> 0 < n) as Hn0.
  { intros Hfst. destruct (Hs Hfst) as [Hd|Hp]; [|done]. apply (f_equal length) in Hd. rewrite length_drop in Hd. cbn in Hd. lia. }
  destruct (IH l (i + n) (negb b) false)
    as (out & Hw & Hr).
  { destruct first; cbn [first_count] in *; [|specialize (Hn0 eq_refl)]; lia. }
  { intros _. rewrite <- drop_drop. apply starts_after. }
  { done. } { lia. }
  eexists. split.
  - intros bs. unfold write_size_4bytes, MAX_RUN_LEN in *. rewrite (proj2 (N.leb_le _ _)) by lia. cbn [rust_assert]. mstep.
    rewrite write_reqs_ok by apply run_length_run. mstep. rewrite Hw. by rewrite <- !app_assoc.
  - intros acc. eapply parses_bind; [apply parses_size; unfold MAX_RUN_LEN in Hm; lia|].
    apply parses_check.
    { rewrite (proj2 (N.leb_gt _ _)), (proj2 (Nat.ltb_ge _ _)) by lia. rewrite !orb_false_r.
      destruct first; [apply andb_false_r|]. rewrite (proj2 (Nat.eqb_neq _ _)); [done|]. specialize (Hn0 eq_refl). lia. }
    eapply parses_bind.
    { apply (parses_read_n _ (enc_req b) (take n (drop i l))).
      - rewrite length_take, length_drop. lia.
      - intros e He. apply parses_req. pose proof (run_length_run b (drop i l)) as Hrun.
        rewrite Forall_forall in Hrun. by apply Hrun. }
    specialize (Hr (acc ++ take n (drop i l))). rewrite <- app_assoc, <- drop_drop, take_drop in Hr. exact Hr.
Qed.

Lemma canonical_reqs `{!CanonicalField A} b n : forall s (es : list A) s',
  read_n n (read_req_elt b) s = Ok (es, s') ->
  s = concat (map (enc_req b) es) ++ s' /\ length es = n /\ Forall (fun e => sf_contains e = b) es.
Proof.
  induction n as [|n IH]; intros s es s' He; cbn [read_n] in He; [by injection He as <- <-|].
  apply reader_bind_inv in He as (e & s4 & [-> Hb]%canonical_req & He).
  apply reader_bind_inv in He as (es' & s5 & (-> & <- & Hes)%IH & He). injection He as <- <-.
  cbn [map concat length]. rewrite <- app_assoc. split_and!; [done..|by constructor].
Qed.

Lemma runs_canonical `{!CanonicalField A} fuel : forall total i b first (acc : list A) s l s',
  read_runs fuel total i b first acc s = Ok (l, s') -> i <= total ->
  exists new out, l = acc ++ new /\ i + length new = total /\ s = out ++ s' /\ (first = false -> starts b new) /\
    forall pre bs, length pre = i -> write_runs fuel (pre ++ new) i b bs = Ok (bs ++ out).
Proof.
  induction fuel as [|fuel IH]; intros total i b first acc s l s' Hr Hi; cbn [read_runs write_runs] in *;
    (destruct (Nat.leb_spec total i) as [Hl|Hl];
     [injection Hr as <- <-; exists [], []; rewrite app_nil_r; split_and!; try done; [cbn; lia|by left|];
      intros pre bs Hp; cbn; rewrite !app_nil_r, (proj2 (Nat.leb_le _ _)) by lia; done|]); [done|].
  apply reader_bind_inv in Hr as (n & s1 & Hsz & Hr). pose proof (read_size_bound _ _ _ Hsz) as Hn32.
  apply canonical_size in Hsz as ->.
  apply reader_bind_inv in Hr as ([] & s2 & Hc & Hr). unfold lift in Hc.
  destruct (_ || _) eqn:Hrej in Hc; [done|]. injection Hc as <-.
  apply orb_false_iff in Hrej as [[Hz Hm]%orb_false_iff Ht]. apply Nat.ltb_ge in Ht.
  apply reader_bind_inv in Hr as (es & s3 & He & Hr).
  assert (s1 = concat (map (enc_req b) es) ++ s3 /\ length es = n /\ Forall (fun e => sf_contains e = b) es) as (-> & Hlen & Hes).
  { by apply canonical_reqs. }
  apply IH in Hr as (new & out & -> & Htot & -> & Hst & Hw); [|lia].
  specialize (Hst eq_refl).
  exists (es ++ new), (to_le_bytes 4 (N.of_nat n) ++ concat (map (enc_req b) es) ++ out).
  rewrite length_app. split_and!; [by rewrite app_assoc|lia|by rewrite <- !app_assoc| |].
  - intros ->. right. rewrite run_length_app by done. cbn in Hz. rewrite andb_true_r in Hz. apply Nat.eqb_neq in Hz. lia.
  - intros pre bs Hp. cbn [write_runs]. rewrite (proj2 (Nat.leb_gt _ _)) by (rewrite !length_app; lia).
    rewrite <- Hp, drop_app_length, run_length_app, take_app_length by done. rewrite Hlen.
    unfold write_size_4bytes. rewrite (proj2 (N.leb_le _ _)) by lia. cbn [rust_assert]. mstep.
    rewrite write_reqs_ok by done. mstep. rewrite app_assoc, Hp, Hw by (rewrite length_app; lia).
    by rewrite <- !app_assoc.
Qed.

(** ** Proofs *)

(** A proof the geometry describes: its vectors have the announced lengths,
    nonces and digests have 32 bytes, and the opened values and the path are
    within the bounds of the reader. *)
Record fits (proof : LigeroProof A) (geom : LigeroGeometry) : Prop := {
  fit_ldt : length (y_ldt proof) = g_block geom;
  fit_dot : length (y_dot proof) = g_dblock geom;
  fit_quad_0 : length (y_quad_0 proof) = g_r geom;
  fit_quad_2 : length (y_quad_2 proof) = g_dblock geom - g_block geom;
  fit_nonce : length (mp_nonce (merkle proof)) = g_nreq geom;
  fit_req : length (req proof) = g_nreq geom * g_nrow geom;
  fit_nonces : Forall (fun n => length n = 32) (mp_nonce (merkle proof));
  fit_digests : Forall (fun d => length d = 32) (mp_path (merkle proof));
  fit_path : length (mp_path (merkle proof)) <= g_nreq geom * g_mc_pathlen geom;
  fit_u32 : (N.of_nat (length (mp_path (merkle proof))) <= 2 ^ 32 - 1)%N
}.

Lemma write_elts_app (l : list A) : forall bs, write_elts bs l = bs ++ concat (map to_bytes l).
Proof.
  induction l as [|e l IH]; intros bs; [cbn; by rewrite app_nil_r|].
  unfold write_elts in *. cbn [foldl map concat]. rewrite IH. unfold write_elt_field. by rewrite app_assoc.
Qed.
Lemma write_raw_app (l : list (list u8)) : forall bs, write_raw bs l = bs ++ concat (map id l).
Proof.
  induction l as [|e l IH]; intros bs; [cbn; by rewrite app_nil_r|].
  unfold write_raw in *. cbn [foldl map concat]. rewrite IH. by rewrite app_assoc.
Qed.

Definition enc_elts (l : list A) : list u8 := concat (map to_bytes l).
Definition enc_raw (l : list (list u8)) : list u8 := concat (map id l).
Definition enc_with (proof : LigeroProof A) (out : list u8) : list u8 :=
  enc_elts (y_ldt proof) ++ enc_elts (y_dot proof) ++ enc_elts (y_quad_0 proof) ++ enc_elts (y_quad_2 proof)
  ++ enc_raw (mp_nonce (merkle proof)) ++ out
  ++ to_le_bytes 4 (N.of_nat (length (mp_path (merkle proof)))) ++ enc_raw (mp_path (merkle proof)).

Lemma ligero_write_to_buf_ok proof geom out bytes : fits proof geom ->
  (forall bs, write_runs (S (length (req proof))) (req proof) 0 false bs = Ok (bs ++ out)) ->
  write_to_buf proof bytes geom = Ok (bytes ++ enc_with proof out).
Proof.
  intros [H1' H2' H3' H4' H5' Hreq _ _ _ Hu] Hw. unfold write_to_buf.
  rewrite H1', H2', H3', H4', H5', (proj2 (Nat.eqb_eq _ _) Hreq), !Nat.eqb_refl. cbn [rust_assert]. mstep. rewrite Hw. mstep.
  unfold write_size_4bytes. rewrite (proj2 (N.leb_le _ _)) by lia. cbn [rust_assert]. mstep.
  rewrite !write_raw_app, !write_elts_app. unfold enc_with, enc_elts, enc_raw. by rewrite <- !app_assoc.
Qed.

Lemma parses_vec (l : list A) n : length l = n -> parses (R:=list u8) (read_vec_field n) (enc_elts l) l.
Proof. intros Hl. apply parses_read_n; [done|]. intros e _. apply parses_elt. Qed.
Lemma parses_raw (l : list (list u8)) n : length l = n -> Forall (fun d => length d = 32) l ->
  parses (R:=list u8) (read_n n read_bytes_32) (enc_raw l) l.
Proof. intros Hl Hf. apply parses_read_n; [done|]. intros d Hd. apply parses_bytes_32. rewrite Forall_forall in Hf. by apply Hf. Qed.

Lemma ligero_write_read proof geom : fits proof geom -> (N.of_nat (g_nreq geom * g_nrow geom) < MAX_RUN_LEN)%N ->
  exists out, (forall bytes, write_to_buf proof bytes geom = Ok (bytes ++ out)) /\ parses (R:=list u8) (read geom) out proof.
Proof.
  intros Hfit Hm. pose proof Hfit as [Hf1 Hf2 Hf3 Hf4 Hf5 Hreq Hn Hd Hp Hu]. rewrite <- Hreq in Hm.
  destruct (runs_ok (S (length (req proof))) (req proof) 0 false true) as (out & Hw & Hr); [cbn [first_count]; lia|done|done|lia|].
  exists (enc_with proof out). split; [intros bytes; by apply ligero_write_to_buf_ok|].
  unfold read, enc_with. do 4 (eapply parses_bind; [by apply parses_vec|]).
  eapply parses_bind; [by apply parses_raw|]. rewrite <- Hreq. eapply parses_bind; [apply (Hr [])|].
  eapply parses_bind; [by apply parses_size|]. apply parses_check; [by apply Nat.ltb_ge|].
  eapply parses_bind_ret; [by apply parses_raw|]. by destruct proof as [? ? ? ? ? []].
Qed.

Lemma canonical_vec `{!CanonicalField A} n s (l : list A) s' :
  read_vec_field n s = Ok (l, s') -> s = enc_elts l ++ s' /\ length l = n.
Proof. apply canonical_read_n, canonical_elt. Qed.
Lemma canonical_raw n s l s' : read_n n read_bytes_32 s = Ok (l, s') ->
  s = enc_raw l ++ s' /\ length l = n /\ Forall (fun d => length d = 32) l.
Proof.
  intros Hr. destruct (canonical_read_n _ _ n canonical_bytes_32 s l s' Hr) as [Hs Hl]. split_and!; [done..|].
  clear Hs Hl. revert s l Hr. induction n as [|n IH]; intros s l Hr; cbn [read_n] in Hr; [by injection Hr as <- _|].
  apply reader_bind_inv in Hr as (d & s1 & Hd & Hr). apply reader_bind_inv in Hr as (l' & s2 & Hl & Hr).
  injection Hr as <- <-. constructor; [by eapply read_bytes_32_length|by eapply IH].
Qed.

Lemma ligero_canonical `{!CanonicalField A} proof geom s s' : read geom s = Ok (proof, s') ->
  fits proof geom /\
  exists out, (forall bytes, write_to_buf proof bytes geom = Ok (bytes ++ out)) /\ s = out ++ s'.
Proof.
  intros Hr. unfold read in Hr.
  apply reader_bind_inv in Hr as (v1 & s1 & [-> L1]%canonical_vec & Hr).
  apply reader_bind_inv in Hr as (v2 & s2 & [-> L2]%canonical_vec & Hr).
  apply reader_bind_inv in Hr as (v3 & s3 & [-> L3]%canonical_vec & Hr).
  apply reader_bind_inv in Hr as (v4 & s4 & [-> L4]%canonical_vec & Hr).
  apply reader_bind_inv in Hr as (ns & s5 & (-> & L5 & F5)%canonical_raw & Hr).
  apply reader_bind_inv in Hr as (rq & s6 & Hq & Hr).
  apply runs_canonical in Hq as (new & out & -> & L6 & -> & _ & Hw); [|lia]. cbn [app] in *.
  apply reader_bind_inv in Hr as (n & s7 & Hsz & Hr). pose proof (read_size_bound _ _ _ Hsz) as Hu.
  apply canonical_size in Hsz as ->.
  apply reader_bind_inv in Hr as ([] & s8 & Hc & Hr). unfold lift in Hc.
  destruct (_ <? _) eqn:Hrej in Hc; [done|]. injection Hc as <-. apply Nat.ltb_ge in Hrej.
  apply reader_bind_inv in Hr as (path & s9 & (-> & L7 & F7)%canonical_raw & Hr). injection Hr as <- <-.
  cbn [Nat.add] in L6. rewrite <- L6 in Hw.
  set (proof := {| y_ldt := v1; merkle := {| mp_nonce := ns; mp_path := path |} |}).
  assert (fits proof geom) as Hfit by (split; cbn [proof y_ldt y_dot y_quad_0 y_quad_2 req merkle mp_nonce mp_path]; congruence || done || lia).
  split; [done|]. exists (enc_with proof out). split.
  - intros bytes. apply ligero_write_to_buf_ok; [done|]. intros bs. by apply (Hw []).
  - unfold enc_with. cbn [proof y_ldt y_dot y_quad_0 y_quad_2 req merkle mp_nonce mp_path].
    rewrite L7, <- !app_assoc. done.
Qed.

(** ** No input makes the reader panic *)
Context (Hdec : forall bs, bytes_to_element (E:=A) bs <> Panic) (Hsub : forall bs, sf_bytes_to_element (E:=A) bs <> Panic).

Lemma total_elt : total_reader (read_elt_field (A:=A)).
Proof.
  clear Hsub. intros s. unfold read_elt_field. destruct (length s <? _); [done|]. cbn [reject_if]. mstep.
  specialize (Hdec (take (serialized_size_bytes (E:=A)) s)). by destruct (bytes_to_element (E:=A) _).
Qed.
Lemma total_req b : total_reader (read_req_elt (A:=A) b).
Proof.
  unfold read_req_elt. destruct b.
  - intros s. unfold read_subfield_elt. destruct (length s <? _); [done|]. cbn [reject_if]. mstep.
    set (c := take _ s). specialize (Hsub c). destruct (sf_bytes_to_element (E:=A) c) as [e| |] eqn:Hd; [|done..].
    cbn [map_err]. mstep. pose proof (sf_bytes_to_element_contains _ _ Hd) as Hc. destruct (enc_sub_ok e Hc) as (-> & _ & _).
    mstep. by destruct (negb _).
  - apply total_bind; [apply total_elt|intros e]. apply total_bind; [apply total_check|intros ?]. apply total_ret.
Qed.
Lemma total_runs fuel : forall total i b first (acc : list A),
  total - i + first_count first <= fuel -> total_reader (read_runs fuel total i b first acc).
Proof.
  induction fuel as [|fuel IH]; intros total i b first acc Hf; cbn [read_runs];
    destruct (Nat.leb_spec total i) as [Hl|Hl]; try apply total_ret; [lia|].
  apply total_bind; [apply total_size|intros n s].
  destruct (_ || _) eqn:Hrej; [done|]. cbn [reject_if lift]. unfold mbind, reader_bind at 1. cbn.
  apply total_bind; [apply total_read_n, total_req|intros es]. apply IH.
  apply orb_false_iff in Hrej as [[Hz _]%orb_false_iff _]. destruct first; cbn in *; [lia|].
  rewrite andb_true_r in Hz. apply Nat.eqb_neq in Hz. lia.
Qed.
Lemma total_read geom : total_reader (read (A:=A) geom).
Proof.
  unfold read. do 4 (apply total_bind; [apply total_read_n, total_elt|intros ?]).
  apply total_bind; [apply total_read_n, total_bytes_32|intros ?].
  apply total_bind; [apply total_runs; cbn [first_count]; lia|intros ?].
  apply total_bind; [apply total_size|intros ?]. apply total_bind; [apply total_check|intros ?].
  apply total_bind; [apply total_read_n, total_bytes_32|intros ?]. apply total_ret.
Qed.
End codec.
