(* ===== verification/ZkV1.v ===== *)
(** * The zero-knowledge system, version 1

    The constraint compiler, the prover and the verifier of
    [src/rust/runtime/zk-v1/src] and the combined proof and its encoding of
    [src/rust/runtime/proto/src/zk_v1.rs]. *)
From stdpp Require Import prelude strings.
From Stdlib Require Import Lia NArith.
From S2P Require Import Prelude Words Stream Interfaces Circuit Merkle Field Transcript SumcheckProof SumcheckV1 SumcheckProtocol RangeInterpolation Ligero LigeroCodec.

(** ** [constraint_compiler.rs] *)
Module constraint_compiler.
Section compiler.
Context {E : Type} `{AlgebraicField E}.
Local Open Scope string_scope.
Local Open Scope list_scope.
Local Open Scope fe_scope.

(** The committed coordinate of a pad; [None] when the layout has no such
    pad. *)
Definition pad_position (pads : list LayerPadLayout) (p : Pad) : option nat :=
  match p with
  | Round layer round hand evaluation =>
      layer_pads ← pads !! layer;
      coordinates ← rounds layer_pads !! round;
      pair ← [coordinates.1; coordinates.2] !! hand;
      [pair.1; pair.2] !! evaluation
  | Endpoint layer endpoint =>
      layer_pads ← pads !! layer;
      [(claim_positions layer_pads).1.1; (claim_positions layer_pads).1.2] !! endpoint
  end.
Definition append_pad_term (c : nat) (pads : list LayerPadLayout)
    (constraints : list (LigeroLinearConstraint E)) (term : PadTerm E)
  : outcome string (list (LigeroLinearConstraint E)) :=
  w ← ok_or (pad_position pads (pt_pad term)) "sumcheck relation pad shape mismatch";
  mret (constraints ++ [{| lc_c := c; lc_w := w; lc_k := coefficient term |}]).
Definition append_pad_terms (constraints : list (LigeroLinearConstraint E)) (c : nat)
    (expression : PadExpression E) (pads : list LayerPadLayout)
  : outcome string (list (LigeroLinearConstraint E)) :=
  foldM (append_pad_term c pads) constraints (pe_terms expression).

(** The equation of one layer: its pads, the product of its endpoint pads
    and its constant. *)
Definition compile_layer (relations : VerificationRelations E) (pads : list LayerPadLayout)
    (st : list (LigeroLinearConstraint E) * list E) (c : nat)
  : outcome string (list (LigeroLinearConstraint E) * list E) :=
  let '(a, b) := st in
  relation ← index (vr_layers relations) c;
  a ← append_pad_terms a c (linear relation) pads;
  layer_pads ← index pads c;
  mret (a ++ [{| lc_c := c; lc_w := (claim_positions layer_pads).2; lc_k := product_coefficient relation |}],
        b ++ [constant (linear relation)]).

Definition compile (relations : VerificationRelations E) (pads : list LayerPadLayout)
    (public_inputs : list E) : outcome string (list (LigeroLinearConstraint E) * list E) :=
  reject_if (negb (Nat.eqb (length (vr_layers relations)) (length pads)))
    "sumcheck relation pad layer count mismatch" ;;
  reject_if (Nat.ltb (length (weights (vr_input relations))) (length public_inputs))
    "sumcheck relation public input length mismatch" ;;
  '(a, b) ← foldM (compile_layer relations pads) ([], []) (seq 0 (length (vr_layers relations)));
  let input := vr_input relations in
  let c := length b in
  public_weights ← slice (weights input) 0 (length public_inputs);
  d ← blas.dot public_weights public_inputs;
  let b := b ++ [constant (ir_linear input) + d] in
  let a := a ++ imap (fun w weight => {| lc_c := c; lc_w := w; lc_k := weight |})
                  (drop (length public_inputs) (weights input)) in
  a ← append_pad_terms a c (ir_linear input) pads;
  mret (a, b).

Definition product_constraints {Err} (start_pad : nat) (geometry : SumcheckProofGeometry)
  : outcome Err (list LigeroQuadraticConstraint) :=
  map (fun '(x, y, z) => {| qc_x := x; qc_y := y; qc_z := z |}) <$> claim_indices geometry start_pad.
End compiler.
End constraint_compiler.

(** ** [src/rust/runtime/proto/src/zk_v1.rs] *)
Record ZkProofGeometry := { sc_geom : SumcheckProofGeometry; com_geom : LigeroGeometry }.

Record ZkProof (E : Type) := {
  sumcheck_proof : SumcheckProof E;
  com : Digest;
  com_proof : LigeroProof E
}.
Arguments sumcheck_proof {_} _. Arguments com {_} _. Arguments com_proof {_} _.
Arguments Build_ZkProof {_} _ _ _.

Definition witness_and_constraint_count {E Err} (circuit : Circuit E) : outcome Err (nat * nat) :=
  rust_assert (Nat.leb (npublic_input (raw circuit)) (ninput (raw circuit))) ;;
  let n_witness := ninput (raw circuit) - npublic_input (raw circuit) in
  let pad_witness_len := foldl (fun n clr => n + (4 * logw clr + 3)) 0 (layers (raw circuit)) in
  mret (n_witness + pad_witness_len, length (layers (raw circuit))).

Module zk_proof.
Section codec.
Context {E : Type} `{SerializableField E} `{Subfield E}.

Definition write_to_buf (p : ZkProof E) (buf : list u8) (geom : ZkProofGeometry)
  : outcome string (list u8) :=
  let buf := buf ++ com p in
  buf ← SumcheckProof.write_to_buf (sumcheck_proof p) buf (sc_geom geom);
  ligero_proof.write_to_buf (com_proof p) buf (com_geom geom).

Definition write (p : ZkProof E) (geom : ZkProofGeometry) : outcome string (list u8) :=
  write_to_buf p [] geom.

Definition read (geom : ZkProofGeometry) : reader (list u8) (ZkProof E) :=
  root ← read_bytes_32;
  sumcheck_proof ← read_proof (sc_geom geom);
  com_proof ← ligero_proof.read (com_geom geom);
  mret {| sumcheck_proof := sumcheck_proof; com := root; com_proof := com_proof |}.
End codec.
End zk_proof.

(** ** [common.rs] *)
Definition DEFAULT_STATEMENT_HASH : Digest := [xde; xad; xbe; xef] ++ replicate 28 x00.

(** ** [prover.rs] *)
Record ZkProver (E : Type) := { zp_circuit : Circuit E; zp_config : LigeroConfig }.
Arguments zp_circuit {_} _. Arguments zp_config {_} _. Arguments Build_ZkProver {_} _ _.

Record ZkCommitResult (E : Type) := {
  cr_pad : SumcheckProof E;
  cr_lqc : list LigeroQuadraticConstraint;
  cr_lp : LigeroProver E;
  cr_com : Digest
}.
Arguments cr_pad {_} _. Arguments cr_lqc {_} _. Arguments cr_lp {_} _. Arguments cr_com {_} _.
Arguments Build_ZkCommitResult {_} _ _ _ _.

Module zk_prover.
Section prover.
Context {E : Type} `{AlgebraicField E} `{!RuntimeField E} `{InterpolationField E}.
Context `{SerializableField E} `{SupportsSampling E} `{Subfield E} `{!RangeInterpolatorFactory E}.
Context `{Sha256} `{Aes256}.

Definition commit {G} `{RandomEngine G} (self : ZkProver E) (witness_only : list E) (ts : Transcript) (rng : G)
  : outcome stuck (ZkCommitResult E * ZkProofGeometry * Transcript * G) :=
  let circuit := raw (zp_circuit self) in
  rust_assert (Nat.leb (npublic_input circuit) (ninput circuit)) ;;
  let n_witness := ninput circuit - npublic_input circuit in
  rust_assert (Nat.eqb (length witness_only) n_witness) ;;
  let subfield_boundary := subfield_boundary circuit - npublic_input circuit in
  let sc_geom := from_circuit (zp_circuit self) in
  '(pad, pad_witness, rng) ← pad.sample_pad sc_geom rng;
  let witness := witness_only ++ pad_witness in
  lqc ← constraint_compiler.product_constraints n_witness sc_geom;
  ligero_param ← param.new (E:=E) (length witness) (length (layers circuit)) (zp_config self);
  '(lp, com, ts, rng) ← ligero_prover.commit subfield_boundary witness ligero_param ts lqc rng;
  let geom := {| com_geom := geom ligero_param; sc_geom := sc_geom |} in
  mret ({| cr_pad := pad; cr_lqc := lqc; cr_lp := lp; cr_com := com |}, geom, ts, rng).

Definition prove (fuel : nat) (self : ZkProver E) (public_inputs witness_only : list E)
    (commit_info : ZkCommitResult E) (tsp : Transcript) : outcome verifier_error (ZkProof E * Transcript) :=
  let circuit := raw (zp_circuit self) in
  rust_assert (Nat.leb (npublic_input circuit) (ninput circuit)) ;;
  let n_public := npublic_input circuit in
  let n_witness := ninput circuit - npublic_input circuit in
  rust_assert (Nat.eqb (length public_inputs) n_public) ;;
  let inputs_and_witnesses := public_inputs ++ witness_only in
  tsp ← map_err Stuck (transcript.write_sumcheck_statement (zp_circuit self) public_inputs tsp);
  in_layers ← map_err (fun e => Message ("eval_circuit failed: " ++ e)%string)
                (eval_circuit inputs_and_witnesses (zp_circuit self));
  '(proof, data, tsp) ← map_err Stuck (prover.prove_core in_layers (cr_pad commit_info) (zp_circuit self) tsp);
  relations ← map_err Message (symbolic.verify proof data);
  let geometry := from_circuit (zp_circuit self) in
  pads ← pad_layout geometry n_witness;
  '(a, b) ← map_err Message (constraint_compiler.compile relations pads public_inputs);
  '(com_proof, tsp) ← map_err Stuck
    (ligero_prover.prove fuel (cr_lp commit_info) b tsp a DEFAULT_STATEMENT_HASH (cr_lqc commit_info));
  mret ({| com := cr_com commit_info; sumcheck_proof := proof; com_proof := com_proof |}, tsp).
End prover.
End zk_prover.

(** ** [verifier.rs]

    [LigeroVerification] carries the error that the code renders as text. *)
Inductive ZkVerificationError :=
| SumcheckProofLayerMismatch (expected actual : nat)
| SumcheckProofRoundMismatch (layer expected actual : nat)
| PublicInputLengthMismatch (expected actual : nat)
| InvalidSumcheck (m : string)
| LigeroVerification (e : LigeroError).

(** The verifier's errors, or the transcript ran out of random bytes or
    fuel. *)
Inductive zk_outcome := ZkRejected (e : ZkVerificationError) | ZkUnfinished (s : stuck).

Definition sumcheck_error (e : verifier_error) : zk_outcome :=
  match e with Message m => ZkRejected (InvalidSumcheck m) | Stuck s => ZkUnfinished s end.
Definition ligero_error (e : ligero_outcome) : zk_outcome :=
  match e with Rejected e => ZkRejected (LigeroVerification e) | Unfinished s => ZkUnfinished s end.

Record ZkVerifier (E : Type) := { zv_circuit : Circuit E; zv_config : LigeroConfig }.
Arguments zv_circuit {_} _. Arguments zv_config {_} _. Arguments Build_ZkVerifier {_} _ _.

Module zk_verifier.
Section verifier.
Context {E : Type} `{AlgebraicField E} `{InterpolationField E}.
Context `{SerializableField E} `{SupportsSampling E} `{Subfield E} `{!RangeInterpolatorFactory E}.
Context `{Sha256} `{Aes256}.

Definition ligero_param {Err} (self : ZkVerifier E) : outcome Err LigeroParam :=
  '(nw, nq) ← witness_and_constraint_count (zv_circuit self);
  param.new (E:=E) nw nq (zv_config self).

Definition geometry {Err} (self : ZkVerifier E) : outcome Err ZkProofGeometry :=
  p ← ligero_param self;
  mret {| sc_geom := from_circuit (zv_circuit self); com_geom := geom p |}.

Definition recv_commitment {Err} (self : ZkVerifier E) (zkp : ZkProof E) (tv : Transcript)
  : outcome Err Transcript :=
  _ ← ligero_param self;
  mret (ligero_verifier.receive_commitment (com zkp) tv).

Definition validate_layer (self : ZkVerifier E) (zkp : ZkProof E) (_ : unit) (layer : nat)
  : outcome ZkVerificationError unit :=
  message ← index (proof_layers (sumcheck_proof zkp)) layer;
  clr ← index (layers (raw (zv_circuit self))) layer;
  let logw := logw clr in
  reject_if (negb (Nat.eqb (length (hp message).1) logw) || negb (Nat.eqb (length (hp message).2) logw))
    (SumcheckProofRoundMismatch layer logw (length (hp message).1)).
Definition validate (self : ZkVerifier E) (npublic : nat) (zkp : ZkProof E)
  : outcome ZkVerificationError unit :=
  let circuit := raw (zv_circuit self) in
  rust_assert (Nat.leb (npublic_input circuit) (ninput circuit)) ;;
  reject_if (negb (Nat.eqb npublic (npublic_input circuit)))
    (PublicInputLengthMismatch (npublic_input circuit) npublic) ;;
  let actual := length (proof_layers (sumcheck_proof zkp)) in
  reject_if (negb (Nat.eqb actual (length (layers circuit))))
    (SumcheckProofLayerMismatch (length (layers circuit)) actual) ;;
  foldM (validate_layer self zkp) tt (seq 0 (length (layers circuit))).

Definition verify (fuel : nat) (self : ZkVerifier E) (pub_inputs : list E) (zkp : ZkProof E) (tv : Transcript)
  : outcome zk_outcome Transcript :=
  map_err ZkRejected (validate self (length pub_inputs) zkp) ;;
  tv ← map_err ZkUnfinished (transcript.write_sumcheck_statement (zv_circuit self) pub_inputs tv);
  let circuit := raw (zv_circuit self) in
  let n_witness := ninput circuit - npublic_input circuit in
  '(data, tv) ← map_err sumcheck_error
    (verifier.derive_verifier_data (zv_circuit self) (sumcheck_proof zkp) tv);
  relations ← map_err (fun m => ZkRejected (InvalidSumcheck m)) (symbolic.verify (sumcheck_proof zkp) data);
  let geometry := from_circuit (zv_circuit self) in
  pads ← pad_layout geometry n_witness;
  '(a, b) ← map_err (fun m => ZkRejected (InvalidSumcheck m))
    (constraint_compiler.compile relations pads pub_inputs);
  ligero_param ← ligero_param self;
  lqc ← constraint_compiler.product_constraints n_witness geometry;
  map_err ligero_error
    (ligero_verifier.verify fuel ligero_param b (com zkp) (com_proof zkp) a DEFAULT_STATEMENT_HASH lqc tv).
End verifier.
End zk_verifier.
