(* ===== verification/ZkV1Facts.v ===== *)
(** * Facts about the constraint compiler

    The equations it emits, evaluated on the committed witness, are the
    residuals of the symbolic relations under the revealed pads. *)
From stdpp Require Import prelude strings.
From Stdlib Require Import Lia NArith Ring Ring_theory.
From S2P Require Import Prelude Words Interfaces Circuit Merkle Field FieldFacts Transcript SumcheckProof SumcheckV1 SumcheckProtocol SumcheckProofFacts SumcheckRound RangeInterpolation Ligero LigeroBatch ZkV1.

Local Open Scope fe_scope.

Lemma Forall2_concat_inv {A B} (R : A -> B -> Prop) (xs : list (list A)) (ys : list (list B)) :
  Forall2 (fun x y => length x = length y) xs ys -> Forall2 R (concat xs) (concat ys) -> Forall2 (Forall2 R) xs ys.
Proof.
  induction 1 as [|x y xs ys Hl Hf IH]; intros Hc; [constructor|]. cbn [concat] in Hc.
  apply Forall2_app_inv in Hc as [H1 H2]; [|done]. constructor; [done|by apply IH].
Qed.

Lemma Forall2_map_inv {A B A' B'} (R : A' -> B' -> Prop) (f : A -> A') (g : B -> B') xs ys :
  Forall2 R (map f xs) (map g ys) -> Forall2 (fun x y => R (f x) (g y)) xs ys.
Proof. apply Forall2_fmap_1. Qed.

Section layout.
Context {E : Type} `{AlgebraicFieldLaws E}.

(** Where a layer's pads are committed: the position of every pad holds it. *)
Definition holds (W : list E) (pos : nat) (v : E) : Prop := W !! pos = Some v.
Record committed (W : list E) (lp : LayerPadLayout) (pl : LayerProof E) : Prop := {
  cm_length0 : length (hp pl).1 = length (rounds lp);
  cm_length1 : length (hp pl).2 = length (rounds lp);
  cm_rounds : Forall2 (fun r q => Forall2 (holds W) (round_positions r) (round_pads q))
                (rounds lp) (zip (hp pl).1 (hp pl).2);
  cm_0 : holds W (claim_positions lp).1.1 (claims pl).1;
  cm_1 : holds W (claim_positions lp).1.2 (claims pl).2;
  cm_product : holds W (claim_positions lp).2 (fmul (claims pl).1 (claims pl).2)
}.

Lemma committed_layer W lp pl logw :
  layer_shape pl logw = true -> length (rounds lp) = logw ->
  Forall2 (holds W) (layer_positions lp) (layer_pads pl) -> committed W lp pl.
Proof.
  intros Hs Hr Hf. unfold layer_positions, layer_pads in Hf.
  unfold layer_shape in Hs. apply andb_true_iff in Hs as [L0%Nat.eqb_eq L1%Nat.eqb_eq].
  assert (Forall2 (fun x y => length x = length y) (map round_positions (rounds lp)) (map round_pads (zip (hp pl).1 (hp pl).2))) as Hl.
  { apply Forall2_fmap. apply Forall2_same_length_lookup_2; [rewrite length_zip; lia|done]. }
  assert (length (concat (map round_positions (rounds lp))) = length (concat (map round_pads (zip (hp pl).1 (hp pl).2)))) as Hc.
  { clear -Hl. induction Hl as [|x y xs ys Hxy Hl IH]; [done|]. cbn [concat]. by rewrite !length_app, Hxy, IH. }
  apply Forall2_app_inv in Hf as [Hf Hcl]; [|done].
  apply (Forall2_concat_inv _ _ _ Hl), Forall2_map_inv in Hf.
  inversion_clear Hcl as [|? ? ? ? C0 Hcl1]. inversion_clear Hcl1 as [|? ? ? ? C1 Hcl2]. inversion_clear Hcl2 as [|? ? ? ? C2 _].
  split; [lia|lia|done..].
Qed.

Lemma pad_layout_inv {Err} geom base ls : pad_layout (E:=Err) geom base = Ok ls ->
  Forall (fun logw => sane_logw logw = true) (logw_layers geom) ->
  exists cs, (forall Err', claim_indices (E:=Err') geom base = Ok cs) /\ length cs = length (logw_layers geom) /\
    ls = zip_with layer_pad_layout (logw_layers geom) cs /\
    concat (map layer_positions ls) = seq base (pad_total geom).
Proof.
  intros Hl Hs. destruct (claim_indices_run (Err:=Err) (logw_layers geom) [] base Hs) as (cs & Hrun & Hlen & Hp).
  exists cs. split_and!; [|done|..].
  - intros Err'. unfold claim_indices. destruct (claim_indices_run (Err:=Err') (logw_layers geom) [] base Hs) as (cs' & Hrun' & _ & _).
    rewrite Hrun'. cbn. f_equal.
    assert (foldM (claim_indices_step (E:=Err')) ([], base) (logw_layers geom) = Ok ([] ++ cs, (base + sum_list_with pad_count (logw_layers geom))%nat)) as Hany.
    { eapply foldM_any; [|exact Hrun]. intros [o n] x r. unfold claim_indices_step. destruct (sane_logw x); cbn; intros [= <-]; done. }
    rewrite Hrun' in Hany. by injection Hany.
  - unfold pad_layout, claim_indices in Hl. rewrite Hrun in Hl. cbn in Hl. by injection Hl.
  - unfold pad_layout, claim_indices in Hl. rewrite Hrun in Hl. cbn in Hl. injection Hl as <-. exact Hp.
Qed.

Lemma committed_layers {Err} geom ls (wit : list E) (pad : SumcheckProof E) :
  pad_layout (E:=Err) geom (length wit) = Ok ls ->
  Forall (fun logw => sane_logw logw = true) (logw_layers geom) -> proof_shape pad geom = true ->
  Forall2 (committed (wit ++ concat (map layer_pads (proof_layers pad)))) ls (proof_layers pad).
Proof.
  intros Hl Hs Hp. destruct (pad_layout_inv _ _ _ Hl Hs) as (cs & _ & Hlen & Hls & Hpos).
  set (W := wit ++ _).
  pose proof (shape_Forall2_inv _ _ Hp) as Hsh.
  assert (Forall2 (fun lp logw => length (rounds lp) = logw) ls (logw_layers geom)) as Hr.
  { rewrite Hls. clear -Hlen. revert Hlen. generalize (logw_layers geom). induction cs as [|c cs IH]; intros [|l ls] Hlen; try done.
    cbn. constructor; [unfold layer_pad_layout; cbn; by rewrite length_map, length_seq|]. apply IH. by injection Hlen. }
  assert (Forall2 (Forall2 (holds W)) (map layer_positions ls) (map layer_pads (proof_layers pad))) as Hf.
  { apply Forall2_concat_inv.
    - apply Forall2_fmap. clear -Hsh Hr. revert ls Hr. induction Hsh as [|pl logw pls logws H1 Hsh IH]; intros ls Hr; inversion Hr as [|lp ? ls' ? Hlp Hr' E1]; subst; [constructor|].
      constructor; [|by apply IH]. rewrite (length_layer_pads _ _ H1). unfold layer_positions. rewrite length_app. cbn [length].
      unfold pad_count. generalize (rounds lp). induction l as [|r l IHl]; [done|]. cbn [map concat length]. rewrite length_app. cbn [length round_positions]. lia.
    - rewrite Hpos. apply Forall2_same_length_lookup_2.
      + rewrite length_seq. unfold pad_total. symmetry. by apply length_pads.
      + intros i pos v Hi Hv. apply lookup_seq in Hi as [-> Hi]. unfold holds, W. rewrite lookup_app_r by lia.
        by replace (length wit + i - length wit)%nat with i by lia. }
  apply Forall2_map_inv in Hf. clearbody W. clear -Hf Hsh Hr H. revert ls Hr Hf.
  induction Hsh as [|pl logw pls logws H1 Hsh IH]; intros ls Hr Hf; inversion Hf as [|lp ? ls' ? Hlp Hf' E1]; subst; [constructor|].
  inversion_clear Hr as [|? ? ? ? Hlr Hr']. constructor; [by eapply committed_layer|by apply IH].
Qed.

(** Every revealed pad is committed where the layout says. *)
Lemma pad_position_ok W ls (pad : SumcheckProof E) p v :
  Forall2 (committed W) ls (proof_layers pad) -> symbolic.lookup_pad pad p = Some v ->
  exists w, constraint_compiler.pad_position ls p = Some w /\ W !! w = Some v.
Proof.
  intros Hf Hp. destruct p as [layer round hand evaluation|layer endpoint]; cbn in Hp;
    apply bind_Some in Hp as (pl & Hpl & Hp);
    destruct (Forall2_lookup_r _ _ _ _ _ Hf Hpl) as (lp & Hlp & [L0 L1 Hr C0 C1 C2]); cbn; rewrite Hlp; cbn.
  - apply bind_Some in Hp as (rs & Hrs & Hp). apply bind_Some in Hp as (poly & Hpoly & Hp).
    assert (exists q, zip (hp pl).1 (hp pl).2 !! round = Some q /\ [q.1; q.2] !! hand = Some poly) as (q & Hq & Hqp).
    { assert (round < length rs /\ length rs = length (rounds lp)) as [Hlt Hrl].
      { split; [by eapply lookup_lt_Some|]. destruct hand as [|[|]]; cbn in Hrs; [by injection Hrs as <-..|done]. }
      destruct (lookup_lt_is_Some_2 (hp pl).1 round) as [q0 E0]; [lia|].
      destruct (lookup_lt_is_Some_2 (hp pl).2 round) as [q1 E1]; [lia|].
      exists (q0, q1). split; [by apply lookup_zip_Some|].
      destruct hand as [|[|]]; cbn in *; [injection Hrs as <-; congruence..|done]. }
    destruct (Forall2_lookup_r _ _ _ _ _ Hr Hq) as (co & Hco & Hpos). rewrite Hco. cbn.
    unfold round_positions, round_pads in Hpos.
    inversion_clear Hpos as [|? ? ? ? P0 Hpos1]. inversion_clear Hpos1 as [|? ? ? ? P1 Hpos2].
    inversion_clear Hpos2 as [|? ? ? ? P2 Hpos3]. inversion_clear Hpos3 as [|? ? ? ? P3 _].
    destruct hand as [|[|]]; cbn in *; [injection Hqp as <-..|done]; (destruct evaluation as [|[|]]; cbn in *; [injection Hp as <-; eauto..|done]).
  - destruct endpoint as [|[|]]; cbn in *; [injection Hp as <-; eauto..|done].
Qed.
End layout.

(** ** The equations *)
Section compile.
Context {E : Type} `{AlgebraicFieldLaws E}.
Add Ring field_ring_compile : (field_ring (E:=E)).
Context (W : list E) (ls : list LayerPadLayout) (pad : SumcheckProof E).
Context (Hcm : Forall2 (committed W) ls (proof_layers pad)).

Definition term_value (t : LigeroLinearConstraint E) : E := lc_k t * at0 W (lc_w t).
Definition row_value (lcs : list (LigeroLinearConstraint E)) (c : nat) : E :=
  sigma lcs (fun t => if Nat.eqb (lc_c t) c then term_value t else 0).

(** The equations emitted so far are the residuals computed so far. *)
Record compiled (a : list (LigeroLinearConstraint E)) (b res : list E) : Prop := {
  cp_length : length b = length res;
  cp_terms : Forall (fun t => lc_c t < length b /\ lc_w t < length W) a;
  cp_value c : c < length b -> row_value a c + at0 b c = at0 res c
}.

Lemma row_value_same lcs c : Forall (fun t => lc_c t = c) lcs -> row_value lcs c = sigma lcs term_value.
Proof.
  intros Hf. apply sigma_ext. intros t Ht. rewrite Forall_forall in Hf. by rewrite (Hf t Ht), Nat.eqb_refl.
Qed.
Lemma row_value_other lcs c : Forall (fun t => lc_c t <> c) lcs -> row_value lcs c = 0.
Proof.
  intros Hf. apply sigma_zero. intros t Ht. rewrite Forall_forall in Hf.
  by rewrite (proj2 (Nat.eqb_neq _ _) (Hf t Ht)).
Qed.

Lemma at0_snoc (v : list E) x i : at0 (v ++ [x]) i = if Nat.eqb i (length v) then x else at0 v i.
Proof.
  unfold at0. destruct (Nat.eqb_spec i (length v)) as [->|].
  - by rewrite list_lookup_middle.
  - destruct (decide (i < length v)); [by rewrite lookup_app_l|].
    rewrite !lookup_ge_None_2 by (rewrite ?length_app; cbn; lia). done.
Qed.

Lemma compiled_snoc a b res new k :
  compiled a b res -> Forall (fun t => lc_c t = length b /\ lc_w t < length W) new ->
  compiled (a ++ new) (b ++ [k]) (res ++ [sigma new term_value + k]).
Proof.
  intros [Hl Ht Hv] Hn. split.
  - rewrite !length_app, Hl. done.
  - rewrite length_app. cbn [length]. apply Forall_app. split; eapply Forall_impl; [exact Ht| |exact Hn|]; cbn; intros ? []; lia.
  - intros c Hc. rewrite length_app in Hc. cbn [length] in Hc. rewrite !at0_snoc, <- Hl.
    unfold row_value. rewrite sigma_app. fold (row_value a c). fold (row_value new c).
    destruct (Nat.eqb_spec c (length b)) as [->|Hne].
    + rewrite row_value_other, row_value_same; [ring|..].
      * eapply Forall_impl; [exact Hn|]. by intros ? [].
      * eapply Forall_impl; [exact Ht|]. intros ? []. lia.
    + rewrite (row_value_other new), <- Hv by (lia || (eapply Forall_impl; [exact Hn|]; intros ? []; lia)). ring.
Qed.

Lemma append_pad_terms_ok c e a v :
  symbolic.evaluate_expression e pad = Ok v ->
  exists new, constraint_compiler.append_pad_terms a c e ls = Ok (a ++ new) /\
    Forall (fun t => lc_c t = c /\ lc_w t < length W) new /\ v = constant e + sigma new term_value.
Proof.
  unfold symbolic.evaluate_expression, constraint_compiler.append_pad_terms. generalize (constant e). intros v0.
  revert v0 a. induction (pe_terms e) as [|t ts IH]; intros v0 a He; cbn [foldM] in *.
  { injection He as <-. exists []. rewrite app_nil_r. split_and!; [done|constructor|]. unfold sigma. cbn. ring. }
  apply bind_Ok_inv in He as (v1 & He & Hts). unfold symbolic.eval_pad_term in He.
  destruct (symbolic.lookup_pad pad (pt_pad t)) as [x|] eqn:Hx; [|done]. cbn in He. injection He as <-.
  destruct (pad_position_ok W ls pad _ _ Hcm Hx) as (w & Hw & Hwx).
  assert (at0 W w = x) as Hat by (unfold at0; by rewrite Hwx).
  assert (constraint_compiler.append_pad_term c ls a t
    = Ok (a ++ [{| lc_c := c; lc_w := w; lc_k := coefficient t |}])) as ->
    by (unfold constraint_compiler.append_pad_term; by rewrite Hw).
  mstep. destruct (IH _ (a ++ [{| lc_c := c; lc_w := w; lc_k := coefficient t |}]) Hts) as (new & Hr & Hf & ->). rewrite Hr.
  eexists. rewrite <- app_assoc. split; [reflexivity|]. split.
  - constructor; [split; [done|by eapply lookup_lt_Some]|done].
  - cbn [app]. rewrite sigma_cons. unfold term_value at 2. cbn [lc_k lc_w]. rewrite Hat. unfold fma. ring.
Qed.

Lemma compile_layer_ok relations a b res relation pl c res' :
  compiled a b res -> c = length b -> vr_layers relations !! c = Some relation -> proof_layers pad !! c = Some pl ->
  symbolic.evaluate_layer pad res (relation, pl) = Ok res' ->
  exists a' b', constraint_compiler.compile_layer relations ls (a, b) c = Ok (a', b') /\ compiled a' b' res' /\ length b' = S c.
Proof.
  intros Hc -> Hrel Hpl Hr. unfold symbolic.evaluate_layer in Hr. apply bind_Ok_inv in Hr as (v & Hv & Hr).
  injection Hr as <-. destruct (Forall2_lookup_r _ _ _ _ _ Hcm Hpl) as (lp & Hlp & Hlpc).
  destruct (append_pad_terms_ok (length b) (linear relation) a v Hv) as (new & Hn & Hf & ->).
  unfold constraint_compiler.compile_layer. rewrite (proj2 (index_Ok _ _ _) Hrel). mstep. rewrite Hn. mstep.
  rewrite (proj2 (index_Ok _ _ _) Hlp). mstep. eexists _, _. split; [reflexivity|].
  split; [|rewrite length_app; cbn; lia]. rewrite <- app_assoc.
  set (t := {| lc_c := length b; lc_w := (claim_positions lp).2; lc_k := product_coefficient relation |}).
  pose proof (cm_product _ _ _ Hlpc) as Hprod. unfold holds in Hprod.
  replace (fma (constant (linear relation) + sigma new term_value) (product_coefficient relation) ((claims pl).1 * (claims pl).2))
    with (sigma (new ++ [t]) term_value + constant (linear relation)).
  - apply compiled_snoc; [done|]. apply Forall_app. split; [done|]. repeat constructor. by eapply lookup_lt_Some.
  - rewrite sigma_app, sigma_cons. unfold sigma at 2, term_value at 2. cbn [map foldr lc_k lc_w t].
    assert (at0 W (claim_positions lp).2 = (claims pl).1 * (claims pl).2) as -> by (unfold at0; by rewrite Hprod).
    unfold fma. cbn. ring.
Qed.

Lemma compile_layers_ok relations rels : forall pls k a b res res',
  compiled a b res -> length b = k -> length rels = length pls ->
  (forall i r, rels !! i = Some r -> vr_layers relations !! (k + i)%nat = Some r) ->
  (forall i l, pls !! i = Some l -> proof_layers pad !! (k + i)%nat = Some l) ->
  foldM (symbolic.evaluate_layer pad) res (zip rels pls) = Ok res' ->
  exists a' b', foldM (constraint_compiler.compile_layer relations ls) (a, b) (seq k (length rels)) = Ok (a', b') /\
    compiled a' b' res' /\ length b' = (k + length rels)%nat.
Proof.
  induction rels as [|r rels IH]; intros [|l pls] k a b res res' Hc Hk Hlen Hr Hl He; try done; cbn [length seq foldM zip zip_with] in *.
  { injection He as <-. exists a, b. rewrite Nat.add_0_r. done. }
  apply bind_Ok_inv in He as (res1 & He1 & He).
  pose proof (Hr 0%nat r eq_refl) as Hr0. pose proof (Hl 0%nat l eq_refl) as Hl0. rewrite Nat.add_0_r in Hr0, Hl0.
  destruct (compile_layer_ok relations a b res r l k res1 Hc (eq_sym Hk) Hr0 Hl0 He1) as (a1 & b1 & -> & Hc1 & Hb1). mstep.
  destruct (IH pls (S k) a1 b1 res1 res' Hc1 Hb1) as (a' & b' & Hrun & Hc' & Hb'); [lia|..|done|].
  - intros i x Hx. specialize (Hr (S i) x Hx). by rewrite Nat.add_succ_r in Hr.
  - intros i x Hx. specialize (Hl (S i) x Hx). by rewrite Nat.add_succ_r in Hl.
  - exists a', b'. split; [done|]. split; [done|lia].
Qed.

(** The weighted sum of the inputs: the public part goes to the constant, the
    private part to the first columns. *)
Lemma sigma_imap (ws : list E) : forall k,
  sigma (imap (fun w weight => {| lc_c := k; lc_w := w; lc_k := weight |}) ws) term_value
  = sigma (seq 0 (length ws)) (fun i => at0 ws i * at0 W i).
Proof.
  intros k. rewrite <- (tab_at0 ws) at 1. unfold tab.
  assert (forall (g : nat -> E) n, imap (fun w weight => {| lc_c := k; lc_w := w; lc_k := weight |}) (map g (seq 0 n))
    = map (fun i => {| lc_c := k; lc_w := i; lc_k := g i |}) (seq 0 n)) as ->.
  { intros g n. apply list_eq. intros i. rewrite list_lookup_imap, !list_lookup_fmap.
    destruct (seq 0 n !! i) as [j|] eqn:Hj; [|done]. apply lookup_seq in Hj as [-> _]. done. }
  by rewrite sigma_map.
Qed.

Lemma compile_ok relations (pubs wit : list E) res :
  length (proof_layers pad) = length ls -> (exists rest, W = wit ++ rest) ->
  symbolic.evaluate relations (pubs ++ wit) pad = Ok res ->
  exists a b, constraint_compiler.compile relations ls pubs = Ok (a, b) /\ compiled a b res /\
    length res = S (length ls).
Proof.
  intros Hn (rest & HW) He. unfold symbolic.evaluate in He.
  apply bind_Ok_inv in He as ([] & Hshape & He). apply reject_if_Ok, orb_false_iff in Hshape as [H1 H2].
  apply negb_false_iff, Nat.eqb_eq in H1, H2.
  apply bind_Ok_inv in He as (res1 & Hres & He). apply bind_Ok_inv in He as (v & Hv & He).
  rewrite dot_spec in He by done. apply bind_Ok_inv in He as (d & Hd & He).
  injection Hd as <-. injection He as <-.
  destruct (compile_layers_ok relations (vr_layers relations) (proof_layers pad) 0 [] [] [] res1) as (a & b & Hrun & Hc & Hb);
    [split; [done|constructor|cbn; lia]|done|done|done|done|done|].
  unfold constraint_compiler.compile. rewrite <- H1, Hn, Nat.eqb_refl. cbn [negb reject_if]. mstep.
  rewrite length_app in H2. rewrite (proj2 (Nat.ltb_ge _ _)) by lia. cbn [reject_if]. mstep.
  rewrite <- Hn, H1, Hrun. mstep. cbn [Nat.add] in Hb. rewrite slice_Ok by lia. mstep.
  rewrite Nat.sub_0_r, drop_0, dot_spec by (rewrite length_take; lia). mstep.
  set (ws := weights (vr_input relations)) in *. set (np := length pubs) in *.
  set (new0 := imap _ (drop np ws)).
  destruct (append_pad_terms_ok (length b) (ir_linear (vr_input relations)) (a ++ new0) v Hv) as (new1 & -> & Hf1 & ->). mstep.
  eexists _, _. split; [reflexivity|]. rewrite <- app_assoc. split.
  2:{ rewrite length_app. cbn [length]. pose proof (cp_length _ _ _ Hc). lia. }
  replace (constant _ + sigma new1 term_value + sigma (seq 0 (length (pubs ++ wit))) _)
    with (sigma (new0 ++ new1) term_value
          + (constant (ir_linear (vr_input relations)) + sigma (seq 0 np) (fun i => at0 (take np ws) i * at0 pubs i))).
  - apply compiled_snoc; [done|]. apply Forall_app. split; [|done]. apply Forall_lookup. intros i t Ht. unfold new0 in Ht.
    rewrite list_lookup_imap in Ht. destruct (drop np ws !! i) as [x|] eqn:Hx; [|done]. injection Ht as <-. cbn.
    split; [done|]. apply lookup_lt_Some in Hx. rewrite length_drop in Hx. rewrite HW, length_app. lia.
  - rewrite sigma_app. unfold new0. rewrite sigma_imap, length_drop, length_app. fold np. rewrite seq_app, sigma_app.
    replace (length ws - np)%nat with (length wit) by lia.
    rewrite (sigma_ext (seq 0 np) (fun i => at0 ws i * at0 (pubs ++ wit) i) (fun i => at0 (take np ws) i * at0 pubs i)).
    2:{ intros i [_ Hi]%elem_of_seq. unfold at0. rewrite lookup_take_lt, lookup_app_l by (unfold np in *; lia). done. }
    replace (seq (0 + np) (length wit)) with (map (Nat.add np) (seq 0 (length wit)))
      by (etransitivity; [exact (fmap_add_seq np 0 (length wit))|]; by rewrite Nat.add_0_r).
    rewrite sigma_map.
    rewrite (sigma_ext (seq 0 (length wit)) (fun i => at0 (drop np ws) i * at0 W i) (fun i => at0 ws (np + i) * at0 (pubs ++ wit) (np + i))).
    2:{ intros i [_ Hi]%elem_of_seq. unfold at0. rewrite lookup_drop, lookup_app_r by (unfold np; lia).
        unfold np. rewrite Nat.add_comm, Nat.add_sub, HW, lookup_app_l by lia. by rewrite (Nat.add_comm i). }
    ring.
Qed.
End compile.
