(* ===== verification/ZkComplete.v ===== *)
(** * Completeness of the zero-knowledge system

    Commitment, masked sumcheck, constraint compilation and Ligero composed. *)
From stdpp Require Import prelude strings.
From Stdlib Require Import Lia NArith Ring Ring_theory.
From S2P Require Import Prelude Words Stream Interfaces Circuit Merkle Field FieldFacts Interpolation Transcript SumcheckProof SumcheckV1 SumcheckProtocol SumcheckProofFacts SumcheckLayer SumcheckRound EvalFacts Completeness RangeInterpolation Ligero TableauFacts LigeroBatch LigeroChecks ZkV1 ZkV1Facts.

Section sampling.
Context {E : Type} `{AlgebraicField E} `{SupportsSampling E} {G : Type} `{RandomEngine G}.
Context (Helt : forall g : G, exists (e : E) g', elt_field g = Ok (e, g')).

Lemma sample_hand_total st hand : exists st', pad.sample_hand (E:=E) (G:=G) st hand = Ok st'.
Proof.
  destruct st as [[hp w] g]. unfold pad.sample_hand. destruct (Helt g) as (r0 & g0 & ->). mstep.
  destruct (Helt g0) as (r2 & g2 & ->). mstep. by eexists.
Qed.
Lemma sample_round_total st k : exists st', pad.sample_round (E:=E) (G:=G) st k = Ok st'.
Proof.
  unfold pad.sample_round. generalize [0; 1]%nat. intros hs. revert st.
  induction hs as [|h hs IH]; intros st; cbn [foldM]; [by eexists|].
  destruct (sample_hand_total st h) as (s1 & ->). mstep. apply IH.
Qed.
Lemma sample_total geom (g : G) : exists r, pad.sample_pad (E:=E) geom g = Ok r.
Proof.
  unfold pad.sample_pad.
  enough (forall logws st, exists st', foldM (pad.sample_layer (E:=E) (G:=G)) st logws = Ok st') as Hl.
  { destruct (Hl (logw_layers geom) ([], [], g)) as ([[ls w] g'] & ->). mstep. by eexists. }
  induction logws as [|logw logws IH]; intros st; cbn [foldM]; [by eexists|].
  enough (exists st', pad.sample_layer (E:=E) (G:=G) st logw = Ok st') as (st' & ->) by (mstep; apply IH).
  destruct st as [[ls w] g0]. unfold pad.sample_layer.
  assert (forall ks st, exists st', foldM (pad.sample_round (E:=E) (G:=G)) st ks = Ok st') as Hr.
  { induction ks as [|k ks IHk]; intros st; cbn [foldM]; [by eexists|].
    destruct (sample_round_total st k) as (s1 & ->). mstep. apply IHk. }
  destruct (Hr (seq 0 logw) (([], []), w, g0)) as ([[hp w'] g1] & ->). mstep.
  destruct (Helt g1) as (r0 & g2 & ->). mstep. destruct (Helt g2) as (r1 & g3 & ->). mstep. by eexists.
Qed.
Lemma sample_pad_ok geom (g : G) : exists pads g',
  pad.sample_pad geom g = Ok (pads, concat (map layer_pads (proof_layers pads)), g') /\ proof_shape pads geom = true.
Proof.
  destruct (sample_total geom g) as ([[pads w] g'] & Hs). exists pads, g'.
  pose proof Hs as Hs'. unfold pad.sample_pad in Hs'. apply bind_Ok_inv in Hs' as (st & Hrun & Hp).
  apply sample_layers_spec in Hrun as (lps & g1 & -> & Hf). cbn in Hp. injection Hp as <- <- <-.
  split; [exact Hs|]. destruct geom as [logws]. by apply shape_Forall2.
Qed.
End sampling.

(** ** The product constraints *)
Section products.
Context {E : Type} `{AlgebraicFieldLaws E}.

Lemma product_constraints_ok geom (wit : list E) (pad : SumcheckProof E) ls {Err} :
  pad_layout (E:=Err) geom (length wit) = Ok ls ->
  Forall (fun logw => sane_logw logw = true) (logw_layers geom) -> proof_shape pad geom = true ->
  let W := wit ++ concat (map layer_pads (proof_layers pad)) in
  exists qcs, (forall Err', constraint_compiler.product_constraints (Err:=Err') (length wit) geom = Ok qcs) /\
    length qcs = length (logw_layers geom) /\
    forall k l, qcs !! k = Some l -> qc_x l < length W /\ qc_y l < length W /\ qc_z l < length W /\
      at0 W (qc_z l) = fmul (at0 W (qc_x l)) (at0 W (qc_y l)).
Proof.
  intros Hl Hs Hp W. destruct (pad_layout_inv _ _ _ Hl Hs) as (cs & Hcs & Hlen & Hls & _).
  pose proof (committed_layers _ _ _ _ Hl Hs Hp) as Hcm. fold W in Hcm.
  eexists. split; [intros Err'; unfold constraint_compiler.product_constraints; rewrite Hcs; reflexivity|].
  split; [by rewrite length_map|]. intros k l Hk. rewrite list_lookup_fmap in Hk.
  destruct (cs !! k) as [[[x y] z]|] eqn:Hck; [|done]. injection Hk as <-. cbn [qc_x qc_y qc_z].
  assert (exists lp, ls !! k = Some lp /\ claim_positions lp = (x, y, z)) as (lp & Hlp & Hpos).
  { destruct (lookup_lt_is_Some_2 (logw_layers geom) k) as [logw Hlw].
    { rewrite <- Hlen. by eapply lookup_lt_Some. }
    exists (layer_pad_layout logw (x, y, z)). split; [|done]. rewrite Hls, lookup_zip_with, Hlw, Hck. done. }
  destruct (Forall2_lookup_l _ _ _ _ _ Hcm Hlp) as (pl & _ & [_ _ _ C0 C1 C2]). rewrite Hpos in C0, C1, C2. cbn [fst snd] in *.
  unfold holds in *. unfold at0. rewrite C0, C1, C2. cbn. split_and!; try done; by eapply lookup_lt_Some.
Qed.
End products.

Lemma witness_count {E Err} (circuit : Circuit E) : npublic_input (raw circuit) <= ninput (raw circuit) ->
  witness_and_constraint_count (Err:=Err) circuit
  = Ok (ninput (raw circuit) - npublic_input (raw circuit) + pad_total (from_circuit circuit), length (layers (raw circuit))).
Proof.
  intros Hp. unfold witness_and_constraint_count. rewrite (proj2 (Nat.leb_le _ _) Hp). cbn [rust_assert]. mstep.
  unfold mret, outcome_ret. repeat f_equal. unfold pad_total, from_circuit. cbn [logw_layers].
  enough (forall ls n, foldl (fun n clr => n + (4 * logw clr + 3)) n ls = n + sum_list_with pad_count (map logw ls)) as Hg by by rewrite Hg.
  induction ls as [|l ls IH]; intros n; cbn [foldl map sum_list_with]; [lia|]. rewrite IH. unfold pad_count. lia.
Qed.

(** ** The composition *)
Section complete.
Context {E : Type} `{AF : AlgebraicField E} `{!AlgebraicFieldLaws E} `{!RuntimeField E} `{!RuntimeFieldLaws E} `{!InterpolationField E}.
Context (N0 : nat) `{!InterpolationFieldLaws E N0} (N0_3 : 3 <= N0).
Context `{SF : SerializableField E} (elt_size : serialized_size_bytes (E:=E) <= 128) `{SS : SupportsSampling E}.
Context `{SU : Subfield E} `{RI : !RangeInterpolatorFactory E} `{!RangeInterpolatorLaws E}.
Context `{SHL : Sha256Laws} `{AE : Aes256} `{!SamplingLaws E}.

(** What completeness needs of the circuit, the configuration and the
    inputs. *)
Record zk_ok (circuit : Circuit E) (config : LigeroConfig) (p : LigeroParam) (public_inputs witness : list E) : Prop := {
  zk_circuit : circuit_ok circuit;
  zk_boundary : subfield_boundary (raw circuit) <= ninput (raw circuit);
  zk_sizes : exists n, serialized_elements (from_circuit circuit) = Ok n;
  zk_params : param.try_new (E:=E) (ninput (raw circuit) - npublic_input (raw circuit) + pad_total (from_circuit circuit))
                (length (layers (raw circuit))) config = Some p;
  zk_nreq : 0 < cfg_nreq config;
  zk_public : length public_inputs = npublic_input (raw circuit);
  zk_witness : length witness = ninput (raw circuit) - npublic_input (raw circuit);
  zk_subfield : Forall (fun e => sf_contains e = true)
                  (take (subfield_boundary (raw circuit) - npublic_input (raw circuit)) witness);
  zk_satisfied : exists in_layers, eval_circuit (public_inputs ++ witness) circuit = Ok in_layers
}.

Definition zk_draws (p : LigeroParam) (circuit : Circuit E) : nat :=
  draws_needed p (replicate (S (length (layers (raw circuit)))) (fzero (E:=E))).

Lemma sane_layers (circuit : Circuit E) : circuit_ok circuit ->
  Forall (fun logw => sane_logw logw = true) (logw_layers (from_circuit circuit)).
Proof.
  intros Hc. unfold from_circuit. cbn [logw_layers]. apply Forall_map, Forall_lookup. intros i l Hl.
  by apply (co_layer circuit Hc) in Hl as [].
Qed.

Lemma zk_validate_ok (circuit : Circuit E) config zkp : circuit_ok circuit ->
  proof_shape (sumcheck_proof zkp) (from_circuit circuit) = true ->
  zk_verifier.validate {| zv_circuit := circuit; zv_config := config |} (npublic_input (raw circuit)) zkp = Ok tt.
Proof.
  intros Hc Hs. unfold zk_verifier.validate. cbn [zv_circuit].
  rewrite (proj2 (Nat.leb_le _ _) (co_public _ Hc)), Nat.eqb_refl. cbn [rust_assert negb reject_if]. mstep.
  pose proof (shape_layers _ _ Hs) as Hf. rewrite (Forall2_length _ _ _ Hf), Nat.eqb_refl. cbn [negb reject_if]. mstep.
  enough (forall k, k <= length (layers (raw circuit)) ->
    foldM (zk_verifier.validate_layer {| zv_circuit := circuit; zv_config := config |} zkp) tt (seq 0 k) = Ok tt) as Hg by by apply Hg.
  induction k as [|k IH]; intros Hk; [done|]. rewrite seq_S, foldM_app, IH by lia. mstep. cbn [foldM Nat.add].
  destruct (lookup_lt_is_Some_2 (layers (raw circuit)) k) as [l Hl]; [lia|].
  destruct (Forall2_lookup_r _ _ _ _ _ Hf Hl) as (lp & Hlp & [H0' H1']).
  unfold zk_verifier.validate_layer. cbn [zv_circuit]. rewrite (proj2 (index_Ok _ _ _) Hlp), (proj2 (index_Ok _ _ _) Hl). mstep.
  rewrite H0', H1', Nat.eqb_refl. done.
Qed.

Lemma ligero_param_ok {Err} circuit config p pubs wit : zk_ok circuit config p pubs wit ->
  zk_verifier.ligero_param (Err:=Err) {| zv_circuit := circuit; zv_config := config |} = Ok p /\
  param.new (E:=E) (Err:=Err) (ninput (raw circuit) - npublic_input (raw circuit) + pad_total (from_circuit circuit))
    (length (layers (raw circuit))) config = Ok p.
Proof.
  intros Hz. destruct Hz. unfold zk_verifier.ligero_param. cbn [zv_circuit zv_config].
  rewrite witness_count by apply zk_circuit0. mstep. cbn beta iota.
  assert (param.new (E:=E) (Err:=Err) (ninput (raw circuit) - npublic_input (raw circuit) + pad_total (from_circuit circuit))
    (length (layers (raw circuit))) config = Ok p) as ->; [|done].
  by apply try_new_new.
Qed.

Lemma zk_run {G} `{RandomEngine G} circuit config p pubs wit (ts : Transcript) (rng : G) :
  zk_ok circuit config p pubs wit ->
  (forall g : G, exists (e : E) g', elt_field g = Ok (e, g')) ->
  (forall g : G, exists (e : E) g', elt_subfield g = Ok (e, g') /\ sf_contains e = true) ->
  engine_ok (rng_bytes (G:=G)) ->
  (forall t, pseudorandom_generator t = None -> can_draw (E:=E) (zk_draws p circuit) t) ->
  let zp := {| zp_circuit := circuit; zp_config := config |} in
  let zv := {| zv_circuit := circuit; zv_config := config |} in
  exists ci geom ts0 rng',
    zk_prover.commit zp wit ts rng = Ok (ci, geom, ts0, rng') /\
    (forall Err, zk_verifier.geometry (Err:=Err) zv = Ok geom) /\
    exists ts1, forall fuel,
      match ligero_transcript.gen_idx fuel p ts1 with
      | Ok (idx, ts') => exists zkp,
          zk_prover.prove fuel zp pubs wit ci ts0 = Ok (zkp, ts') /\
          zk_verifier.recv_commitment (Err:=zk_outcome) zv zkp ts = Ok ts0 /\
          zk_verifier.verify fuel zv pubs zkp ts0 = Ok ts'
      | Err e => zk_prover.prove fuel zp pubs wit ci ts0 = Err (Stuck e)
      | Panic => zk_prover.prove fuel zp pubs wit ci ts0 = Panic
      end.
Proof.
  intros Hz Hf Hsf He Hd zp zv. pose proof Hz as [Hc Hbd (ne & Hne) Hp Hnr Hpub Hwit Hsub (in_layers & Heval)].
  pose proof (sane_layers circuit Hc) as Hsane.
  destruct (try_new_ok _ _ _ _ Hp) as (Hpok & Hnw & Hnq & Hpn & _).
  destruct (sample_pad_ok (E:=E) Hf (from_circuit circuit) rng) as (pad & rng1 & Hpad & Hshape).
  set (W := wit ++ concat (map layer_pads (proof_layers pad))).
  destruct (pad_layout_consecutive (Err:=unit) (from_circuit circuit) (length wit) Hsane) as (ls & Hls & Hlen & _).
  destruct (product_constraints_ok _ wit pad ls Hls Hsane Hshape) as (qcs & Hqcs & Hqlen & Hqs). fold W in Hqs.
  assert (length W = ninput (raw circuit) - npublic_input (raw circuit) + pad_total (from_circuit circuit)) as HWl.
  { unfold W. rewrite length_app, Hwit. f_equal. apply length_pads. by apply shape_Forall2_inv. }
  rewrite <- HWl in Hnw.
  assert (Forall (fun e => sf_contains e = true) (take (subfield_boundary (raw circuit) - npublic_input (raw circuit)) W)) as HWs.
  { unfold W. rewrite take_app_le by lia. done. }
  assert (p_nq p = length qcs) as Hnqc by (rewrite Hnq, Hqlen; unfold from_circuit; cbn [logw_layers]; by rewrite length_map).
  assert (forall k l, k < p_nq p -> qcs !! k = Some l -> qc_x l < p_nw p /\ qc_y l < p_nw p /\ qc_z l < p_nw p) as Hqb.
  { intros k l _ Hk. rewrite Hnw. by destruct (Hqs k l Hk) as (? & ? & ? & _). }
  rewrite <- Hpn in Hnr.
  destruct (ligero_commit_ok elt_size p Hpok Hnr W qcs (subfield_boundary (raw circuit) - npublic_input (raw circuit)) ts rng1
    Hf Hsf He ltac:(lia) ltac:(lia) HWs ltac:(lia) Hqb) as (rows & R & mc & root & rng2 & HR & Hcommit & Hmc).
  set (ts0 := ligero_transcript.write_commitment root ts) in *.
  eexists _, _, ts0, rng2. split; [|split].
  { unfold zk_prover.commit. cbn [zp_circuit zp_config zp]. cbv zeta.
    rewrite (proj2 (Nat.leb_le _ _) (co_public _ Hc)), Hwit, Nat.eqb_refl. cbn [rust_assert]. rewrite !bind_Ok, Hpad, bind_Ok. cbn beta iota.
    fold W. rewrite <- Hwit, Hqcs, bind_Ok, HWl. destruct (ligero_param_ok (Err:=stuck) circuit config p pubs wit Hz) as [_ ->].
    rewrite bind_Ok, Hcommit, bind_Ok. reflexivity. }
  { intros Err. unfold zk_verifier.geometry, zv. destruct (ligero_param_ok (Err:=Err) circuit config p pubs wit Hz) as [-> _]. reflexivity. }
  (* sumcheck *)
  destruct (write_statement_ok elt_size circuit pubs ts0 Hc Hpub) as (t1 & Ht1 & Hfresh).
  assert (run_ok circuit (pubs ++ wit) in_layers pad) as Hrun.
  { split; try done; [rewrite length_app; pose proof (co_public _ Hc); lia|]. unfold validate. rewrite Hshape, Hne. done. }
  destruct (prove_core_ok N0 N0_3 elt_size circuit (pubs ++ wit) in_layers pad t1 Hrun Hfresh)
    as (proof & data & t2 & Hprove & Hderive & relations & Hrel & Hres & Hpl).
  assert (proof_shape proof (from_circuit circuit) = true) as Hpshape.
  { unfold verifier.derive_verifier_data in Hderive. apply bind_Ok_inv in Hderive as ([] & Hv & _).
    destruct (validate proof (from_circuit circuit)) as [[]| |] eqn:Hvp; [|done..]. by apply validate_shape in Hvp as [? _]. }
  pose proof (committed_layers _ _ _ _ Hls Hsane Hshape) as Hcm. fold W in Hcm.
  destruct (compile_ok W ls pad Hcm relations pubs wit _ (eq_sym (Forall2_length _ _ _ Hcm)) ltac:(by eexists) Hres)
    as (a & b & Hcompile & [Cl Ct Cv] & Crl).
  assert (length b = S (length (layers (raw circuit)))) as Hbl.
  { rewrite Cl, length_app, length_replicate. cbn. lia. }
  assert (statement_ok p a (length b) qcs) as Hst.
  { split; [|lia|done]. eapply Forall_impl; [exact Ct|]. intros t [? ?]. rewrite Hnw. done. }
  assert (linear_holds W a b) as Hlin.
  { intros c Hcb. etransitivity; [exact (Cv c Hcb)|]. change [fzero] with (replicate 1 (fzero (E:=E))). by rewrite <- replicate_add, at0_replicate. }
  assert (quadratics_hold p W qcs) as Hqh by (intros k l _ Hk; by destruct (Hqs k l Hk) as (_ & _ & _ & ?)).
  destruct (ligero_prove_verify_ok elt_size p Hpok Hnr W qcs rows R mc root HR Hmc ltac:(lia) b a DEFAULT_STATEMENT_HASH Hst Hlin Hqh t2)
    as (ts1 & Hligero).
  { unfold zk_draws, draws_needed in Hd. rewrite length_replicate, <- Hbl in Hd. apply Hd. reflexivity. }
  assert (forall Err, pad_layout (E:=Err) (from_circuit circuit) (length wit) = Ok ls) as Hlayout.
  { intros Err. destruct (pad_layout_inv _ _ _ Hls Hsane) as (cs & Hcs & _ & -> & _). unfold pad_layout. by rewrite Hcs. }
  exists ts1. intros fuel. specialize (Hligero fuel).
  set (ci := {| cr_pad := pad; cr_lqc := qcs; cr_lp := _; cr_com := root |}).
  assert (zk_prover.prove fuel zp pubs wit ci ts0
    = ('(com_proof, tsp) ← map_err Stuck (ligero_prover.prove fuel (honest_prover p rows mc) b t2 a DEFAULT_STATEMENT_HASH qcs);
       mret ({| com := root; sumcheck_proof := proof; com_proof := com_proof |}, tsp))) as ->.
  { unfold zk_prover.prove. cbn [zp_circuit zp ci cr_pad cr_lqc cr_lp cr_com]. cbv zeta.
    rewrite (proj2 (Nat.leb_le _ _) (co_public _ Hc)), Hpub, Nat.eqb_refl. cbn [rust_assert]. rewrite !bind_Ok, Ht1.
    cbn [map_err]. rewrite bind_Ok, Heval. cbn [map_err]. rewrite bind_Ok, Hprove. cbn [map_err]. rewrite bind_Ok. cbn beta iota.
    rewrite Hrel. cbn [map_err]. rewrite bind_Ok, <- Hwit, Hlayout, bind_Ok, Hcompile. cbn [map_err]. rewrite bind_Ok. reflexivity. }
  destruct (ligero_transcript.gen_idx fuel p ts1) as [[idx ts']|e|]; [|by rewrite Hligero..].
  destruct Hligero as (cp & Hlp & Hlv). rewrite Hlp. cbn [map_err]. rewrite bind_Ok. cbn beta iota.
  exists {| com := root; sumcheck_proof := proof; com_proof := cp |}. split; [reflexivity|]. split.
  { unfold zk_verifier.recv_commitment, zv. destruct (ligero_param_ok (Err:=zk_outcome) circuit config p pubs wit Hz) as [-> _]. reflexivity. }
  unfold zk_verifier.verify, zv. cbn [zv_circuit]. cbv zeta.
  rewrite Hpub, zk_validate_ok by done. cbn [map_err]. rewrite bind_Ok, Ht1. cbn [map_err sumcheck_proof com com_proof]. rewrite bind_Ok, Hderive.
  cbn [map_err]. rewrite bind_Ok. cbn beta iota. rewrite Hrel. cbn [map_err]. rewrite bind_Ok, <- Hwit, Hlayout, bind_Ok, Hcompile.
  cbn [map_err]. rewrite bind_Ok. cbn beta iota. destruct (ligero_param_ok (Err:=zk_outcome) circuit config p pubs wit Hz) as [-> _].
  rewrite bind_Ok, Hqcs, bind_Ok, Hlv. reflexivity.
Qed.
End complete.
