(* ===== verification/ZkVerify.v ===== *)
(** * The verifier on arbitrary proofs

    Whatever the messages of a proof of the right shape, the verifier derives
    its data, builds its relations and evaluates them without panic. *)
From stdpp Require Import prelude sorting strings.
From Stdlib Require Import Lia NArith ZifyNat.
From S2P Require Import Prelude Words Interfaces Util Circuit Field FieldFacts Interpolation Transcript SumcheckProof SumcheckV1 SumcheckProtocol SumcheckProofFacts DenseFacts HQuadOrder SumcheckRound SumcheckLayer EvalFacts Completeness RangeInterpolation Ligero TableauFacts LigeroBatch LigeroChecks ZkV1 ZkV1Facts ZkComplete.

(** ** Binding the tensor *)
Section quad.
Context {E : Type} `{AlgebraicFieldLaws E}.

Record quad_inv (f : N * N -> N) (n0 n1 : nat) (q : HQuad E) : Prop := {
  qi_length : length (vc q) = length (hc q);
  qi_nonempty : corners q <> [];
  qi_key : Forall (fun c => key_ok n0 n1 c.1) (corners q);
  qi_keyed : keyed f (corners q)
}.

Lemma key_ok_halve hand n0 n1 m0 m1 h : less hand n0 n1 m0 m1 -> key_ok n0 n1 h -> key_ok m0 m1 (halve hand h).
Proof.
  intros [(-> & -> & ->)|(-> & -> & ->)] (K0 & K1 & K2 & K3); rewrite ?halve_0, ?halve_1; unfold key_ok; cbn [fst snd];
    split_and!; try done; try (by apply div_pow2_lt); dlia.
Qed.
Lemma bind_h_inv {Err} hand f g n0 n1 m0 m1 q r :
  less hand n0 n1 m0 m1 -> bit_of hand f g (key_ok n0 n1) -> quad_inv f n0 n1 q ->
  exists q', hquad.bind_h (Err:=Err) q r hand = Ok q' /\ quad_inv g m0 m1 q'.
Proof.
  intros Hless Hb [Hl Hn Hk Hs]. pose proof (less_hand _ _ _ _ _ Hless) as Hh.
  destruct (bind_h_ok (Err:=Err) q r hand Hl) as (q' & Hq & Hql & Hqc). exists q'. split; [done|].
  split; rewrite ?Hqc; [done|by apply merge_nonempty| |by apply (merge_keyed r hand f g (key_ok n0 n1))].
  apply Forall_forall. intros c (c' & Hc & ->)%merge_elem. rewrite Forall_forall in Hk. eapply key_ok_halve; [done|by apply Hk].
Qed.
Lemma bind_points_inv {Err} rs : forall q, quad_inv (pair_key (length rs)) (length rs) (length rs) q ->
  exists q', foldM (verifier.bind_points (Err:=Err)) q rs = Ok q' /\ quad_inv (pair_key 0) 0 0 q'.
Proof.
  induction rs as [|[r0 r1] rs IH]; intros q Hq; cbn [foldM length] in *; [by exists q|].
  destruct (bind_h_inv (Err:=Err) 0 _ (pair_key' (S (length rs))) _ _ (length rs) (S (length rs)) q r0 ltac:(by left) (bit_right _) Hq) as (q1 & Hb1 & Hq1).
  destruct (bind_h_inv (Err:=Err) 1 _ (pair_key (length rs)) _ _ (length rs) (length rs) q1 r1 ltac:(by right) (bit_left _) Hq1) as (q2 & Hb2 & Hq2).
  assert (verifier.bind_points (Err:=Err) q (r0, r1) = Ok q2) as ->; [|mstep; by apply IH].
  unfold verifier.bind_points. cbn [fst snd]. rewrite Hb1. mstep. exact Hb2.
Qed.
Lemma quad_inv_scalar {Err} q : quad_inv (pair_key 0) 0 0 q -> exists v, hquad.scalar (Err:=Err) q = Ok v.
Proof.
  intros [Hl Hn Hk Hs]. destruct (keyed_0_single _ Hs Hk Hn) as (v & Hv). exists v. by apply scalar_ok.
Qed.
End quad.

(** ** The derived data *)
Section derive.
Context {E : Type} `{AF : AlgebraicField E} `{!AlgebraicFieldLaws E} `{!RuntimeField E}
  `{!RuntimeFieldLaws E} `{!InterpolationField E}.
Context (N0 : nat) `{!InterpolationFieldLaws E N0} (N0_3 : 3 <= N0).
Context `{SF : SerializableField E} (elt_size : serialized_size_bytes (E:=E) <= 128).
Context `{SS : SupportsSampling E} `{SH : Sha256} `{AE : Aes256} `{!SamplingLaws E}.
Context (circuit : Circuit E) (Hcircuit : circuit_ok circuit).

(** The terms of every layer name wires that exist. *)
Definition wires_ok : Prop := forall i l, layers (raw circuit) !! i = Some l ->
  Forall (fun t => N.to_nat (t_h0 t) < wires_size circuit i /\ N.to_nat (t_h1 t) < wires_size circuit i)
    (layer_terms l (constants (raw circuit))).
Context (Hwires : wires_ok).

Lemma coefficients_total {Err} basis (r : E) :
  LagrangeBasis.new (Err:=Err) 3 = Ok basis -> exists c, RoundCoefficients_new (Err:=Err) basis r = Ok c.
Proof.
  intros Hb. destruct (coefficients_evaluate N0 N0_3 (Err:=Err) fzero fzero fzero r (fadd (mono [fzero; fzero; fzero] fzero) (mono [fzero; fzero; fzero] fone)) eq_refl)
    as (basis' & c & Hb' & Hc & _). exists c. congruence.
Qed.

Abbreviation derived := (pair2 (list E) * pair2 (list (RoundCoefficients E)) * Transcript)%type.
Lemma derive_rounds_total basis messages n : LagrangeBasis.new (Err:=stuck) 3 = Ok basis -> length2 (hp messages) n ->
  forall k (t : Transcript), k <= n -> exists points rounds t',
    foldM (verifier.derive_round basis messages) (([], []), ([], []), t) (seq 0 k) = Ok (points, rounds, t') /\
    length2 points k /\ length2 rounds k.
Proof.
  intros Hb [M0 M1] k t. induction k as [|k IH]; intros Hk; [by eexists _, _, _|].
  destruct (IH ltac:(lia)) as ([c0 c1] & [r0 r1] & t1 & Hrun & [C0 C1] & [R0 R1]). cbn [fst snd] in *.
  rewrite seq_S, foldM_app, Hrun. mstep. cbn [foldM Nat.add]. unfold verifier.derive_round. cbn [foldM].
  destruct (lookup_lt_is_Some_2 (hp messages).1 k) as [p0 P0]; [lia|].
  destruct (lookup_lt_is_Some_2 (hp messages).2 k) as [p1 P1]; [lia|].
  destruct (round_ok elt_size p0 t1) as (x0 & t2 & T2 & _). destruct (round_ok elt_size p1 t2) as (x1 & t3 & T3 & _).
  destruct (coefficients_total basis x0 Hb) as (k0 & K0). destruct (coefficients_total basis x1 Hb) as (k1 & K1).
  unfold verifier.derive_hand. cbn [at2 Nat.eqb]. rewrite (index_lookup _ _ _ P0). mstep. rewrite T2. mstep. rewrite K0. mstep.
  rewrite (index_lookup _ _ _ P1). mstep. rewrite T3. mstep. rewrite K1. mstep.
  eexists _, _, _. split; [reflexivity|]. unfold length2, prover.push2. cbn. rewrite !length_app. cbn. lia.
Qed.

(** The bound tensor of layer [i]. *)
Definition in_size (i : nat) : nat := match i with O => noutput (raw circuit) | S j => wires_size circuit j end.
Lemma tensor_exists i layer logv0 g0 g1 alpha beta :
  layers (raw circuit) !! i = Some layer ->
  sane_logw logv0 = true -> outputs_size circuit i <= 2 ^ logv0 -> logv0 <= length g0 -> logv0 <= length g1 ->
  exists q, hquad.bind_g (Err:=stuck) layer (constants (raw circuit)) logv0 (outputs_size circuit i) g0 g1 alpha beta = Ok q /\
    quad_inv (pair_key (logw layer)) (logw layer) (logw layer) q.
Proof.
  intros Hl Hs Hv H0' H1. destruct (co_layer _ Hcircuit _ _ Hl) as [Hwf Hlw Hsz Hsm Hne Hout Hsort].
  pose proof (Hwires _ _ Hl) as Hw.
  destruct (bind_g_ok (Err:=stuck) layer (constants (raw circuit)) logv0 (outputs_size circuit i) (wires_size circuit i) g0 g1 alpha beta)
    as (q & Hq & Hqlen & Hqc); [done..|].
  exists q. split; [done|].
  assert (Forall (fun t => key_ok (logw layer) (logw layer) (term_corner t)) (layer_terms layer (constants (raw circuit)))) as Hkeys.
  { eapply Forall_impl; [exact Hw|]. intros t [T0 T1].
    assert (2 ^ N.of_nat (logw layer) = N.of_nat (2 ^ logw layer))%N as Hpow by by rewrite Nat2N.inj_pow.
    unfold key_ok, term_corner. cbn [fst snd]. rewrite Hpow. repeat split; lia. }
  split; [done|..]; rewrite Hqc.
  - destruct (layer_terms layer (constants (raw circuit))); [done|]. apply group_nonempty.
  - apply Forall_forall. intros c (t & Ht & ->)%group_terms_elem. rewrite Forall_forall in Hkeys. by apply Hkeys.
  - apply (group_terms_keyed (key_ok (logw layer) (logw layer))); [apply pair_key_inj|done|by apply morton_keyed].
Qed.

Abbreviation nl := (length (layers (raw circuit))).
Definition layer_data_ok (d : LayerVerifierData E) (l : Layer) : Prop := length2 (vd_rounds d) (logw l).
Record derive_inv (i : nat) (st : verifier.DeriveState (E:=E)) : Prop := {
  di_logv : sane_logw (verifier.ds_logv st) = true;
  di_points : verifier.ds_logv st <= length (verifier.ds_points st).1 /\ verifier.ds_logv st <= length (verifier.ds_points st).2;
  di_nv : i < nl -> verifier.ds_nv st = outputs_size circuit i;
  di_size : in_size i <= 2 ^ verifier.ds_logv st;
  di_data : Forall2 layer_data_ok (verifier.ds_layers st) (take i (layers (raw circuit)));
  di_draw : can_draw (E:=E) 3 (verifier.ds_transcript st)
}.

Lemma in_size_outputs i : i < nl -> in_size i = outputs_size circuit i.
Proof.
  destruct i as [|i]; [done|]. intros Hi. unfold in_size, wires_size.
  by destruct (lookup_lt_is_Some_2 _ _ Hi) as [l ->].
Qed.

Lemma derive_layer_inv basis i st layer messages :
  LagrangeBasis.new (Err:=stuck) 3 = Ok basis -> layers (raw circuit) !! i = Some layer ->
  length2 (hp messages) (logw layer) -> derive_inv i st ->
  exists st', verifier.derive_layer circuit basis st (layer, messages) = Ok st' /\ derive_inv (S i) st'.
Proof.
  intros Hb Hl Hm [Hs [P0 P1] Hnv Hsz Hd Hdr]. pose proof (lookup_lt_Some _ _ _ Hl) as Hi.
  destruct (co_layer _ Hcircuit _ _ Hl) as [Hwf Hlw Hsize _ _ _ _].
  unfold verifier.derive_layer. destruct (begin_layer_ok _ 1 Hdr) as (alpha & beta & t1 & -> & _). mstep.
  destruct (derive_rounds_total basis messages (logw layer) Hb Hm (logw layer) t1 ltac:(lia)) as (points & rounds & t2 & -> & [C0 C1] & HR). mstep.
  rewrite (Hnv Hi). rewrite in_size_outputs in Hsz by done.
  destruct (tensor_exists i layer (verifier.ds_logv st) (verifier.ds_points st).1 (verifier.ds_points st).2 alpha beta) as (q & -> & Hq); [done..|]. mstep.
  assert (length (zip points.1 points.2) = logw layer) as Hz by (rewrite length_zip; lia). rewrite <- Hz in Hq.
  destruct (bind_points_inv (Err:=stuck) _ _ Hq) as (q' & -> & Hq'). mstep.
  destruct (quad_inv_scalar (Err:=stuck) _ Hq') as (v & ->). mstep.
  destruct (end_layer_ok elt_size (claims messages) t2) as (t3 & -> & Hf). mstep.
  eexists. split; [reflexivity|].
  split; cbn [verifier.ds_points verifier.ds_logv verifier.ds_nv verifier.ds_layers verifier.ds_transcript]; [done|lia|..|done| |].
  - intros _. cbn [outputs_size]. by rewrite Hl.
  - rewrite (take_S_r _ _ _ Hl). apply Forall2_app; [done|]. repeat constructor; apply HR.
  - apply can_draw_fresh; [done|lia].
Qed.

Lemma derive_layers_inv basis proof : LagrangeBasis.new (Err:=stuck) 3 = Ok basis ->
  Forall2 (fun lp l => length2 (hp lp) (logw l)) proof (layers (raw circuit)) ->
  forall ls' ps' i st, drop i (layers (raw circuit)) = ls' -> drop i proof = ps' -> derive_inv i st ->
  exists st', foldM (verifier.derive_layer circuit basis) st (zip ls' ps') = Ok st' /\ derive_inv (i + length ls') st'.
Proof.
  intros Hb Hf. induction ls' as [|l ls' IH]; intros ps' i st Hl Hp Hi.
  { exists st. by rewrite Nat.add_0_r. }
  assert (layers (raw circuit) !! i = Some l) as Hli by (rewrite <- (Nat.add_0_r i), <- lookup_drop, Hl; done).
  destruct (Forall2_lookup_r _ _ _ _ _ Hf Hli) as (m & Hm & Hs).
  rewrite (drop_S _ _ _ Hm) in Hp. subst ps'. rewrite (drop_S _ _ _ Hli) in Hl. injection Hl as Hl.
  cbn [zip zip_with foldM]. destruct (derive_layer_inv basis i st l m Hb Hli Hs Hi) as (st1 & -> & Hi1). mstep.
  destruct (IH _ (S i) st1 Hl eq_refl Hi1) as (st' & Hrun & Hi'). exists st'. split; [exact Hrun|].
  cbn [length]. by rewrite <- Nat.add_succ_comm.
Qed.

Record data_ok (data : VerifierData E) : Prop := {
  da_layers : Forall2 layer_data_ok (vd_layers data) (layers (raw circuit));
  da_weights : length (input_weights data) = ninput (raw circuit)
}.
Lemma ninput_pos : 0 < in_size nl.
Proof.
  destruct (lookup_lt_is_Some_2 (layers (raw circuit)) (nl - 1)) as [l Hl].
  { pose proof (nl_pos circuit Hcircuit). lia. }
  pose proof (Hwires _ _ Hl) as Hw. pose proof (lo_nonempty _ _ _ (co_layer _ Hcircuit _ _ Hl)) as Hn.
  destruct (layer_terms l (constants (raw circuit))); [done|]. apply Forall_cons in Hw as [[Hw _] _].
  pose proof (nl_pos circuit Hcircuit). replace nl with (S (nl - 1)) by lia. cbn [in_size]. lia.
Qed.
Lemma in_size_last : in_size nl = ninput (raw circuit).
Proof.
  pose proof (nl_pos circuit Hcircuit) as Hp. destruct nl as [|n] eqn:Hn; [lia|]. unfold in_size, wires_size.
  by rewrite lookup_ge_None_2 by lia.
Qed.

Lemma derive_total proof t : validate proof (from_circuit circuit) = Ok tt -> pseudorandom_generator t = None ->
  exists data t', verifier.derive_verifier_data circuit proof t = Ok (data, t') /\ data_ok data.
Proof.
  intros Hv Hf. unfold verifier.derive_verifier_data. rewrite Hv. cbn [map_err]. mstep. unfold verifier.derive_body.
  destruct (validate_shape _ _ Hv) as [Hshape _]. apply shape_layers in Hshape.
  destruct (begin_circuit_ok N0 N0_3 elt_size t) as (q & initial & t0 & -> & Hil & Hd); [apply can_draw_fresh; [done|lia]|]. mstep.
  assert (LagrangeBasis.new (Err:=stuck) 3 = Ok _) as Hb by (apply (basis_new N0); lia). rewrite Hb. mstep.
  pose proof (co_logv _ Hcircuit) as Hs. assert (logv (raw circuit) <= length initial) as Hlv.
  { rewrite Hil. unfold sane_logw in Hs. by apply andb_true_iff in Hs as [Hs%Nat.leb_le _]. }
  destruct (derive_layers_inv _ (proof_layers proof) Hb Hshape (layers (raw circuit)) (proof_layers proof) 0
    {| verifier.ds_points := (initial, initial); verifier.ds_logv := logv (raw circuit);
       verifier.ds_nv := noutput (raw circuit); verifier.ds_layers := []; verifier.ds_transcript := t0 |})
    as (st & -> & [Hls [P0 P1] _ Hsz Hdt Hdr]); [by rewrite drop_0..| |].
  { split; cbn [verifier.ds_points verifier.ds_logv verifier.ds_nv verifier.ds_layers verifier.ds_transcript fst snd in_size]; try done.
    apply Hcircuit. }
  mstep. cbn [Nat.add] in *. destruct (can_draw_sample _ 2 Hdr) as (alpha & t' & -> & _). mstep.
  pose proof ninput_pos. rewrite in_size_last in *. rewrite eq2_ok by lia. mstep. eexists _, _. split; [reflexivity|].
  split; cbn [vd_layers input_weights]; [by rewrite take_ge in Hdt by done|by rewrite length_tab].
Qed.
End derive.

(** ** The relations *)
Section relations.
Context {E : Type} `{AF : AlgebraicField E} `{!AlgebraicFieldLaws E}.
Context (circuit : Circuit E) (Hcircuit : circuit_ok circuit).
Abbreviation geom := (from_circuit circuit).
Abbreviation nl := (length (layers (raw circuit))).

(** Every pad of the right shape gives the expression a value. *)
Definition shaped_known (e : PadExpression E) : Prop :=
  forall pads : SumcheckProof E, proof_shape pads geom = true -> pads_known pads e.

Lemma shaped_reveals (pads : SumcheckProof E) i l : proof_shape pads geom = true -> layers (raw circuit) !! i = Some l ->
  exists lp : LayerProof E, reveals pads i lp /\ length2 (hp lp) (logw l).
Proof. intros Hs Hl. by destruct (Forall2_lookup_r _ _ _ _ _ (shape_layers _ _ Hs) Hl) as (lp & ? & ?); exists lp. Qed.

Lemma symbolic_rounds_total i l (messages : LayerProof E) (data : LayerVerifierData E) claim : layers (raw circuit) !! i = Some l ->
  length2 (hp messages) (logw l) -> length2 (vd_rounds data) (logw l) -> shaped_known claim -> forall k, k <= logw l ->
  exists claim', foldM (fun claim round => foldM (symbolic.round_hand i messages data round) claim [0; 1]%nat) claim (seq 0 k) = Ok claim' /\
    shaped_known claim'.
Proof.
  intros Hl [M0 M1] [D0 D1] Hk k. induction k as [|k IH]; intros Hle; [by exists claim|].
  destruct (IH ltac:(lia)) as (c & Hrun & Hc). rewrite seq_S, foldM_app, Hrun. mstep. cbn [foldM Nat.add].
  destruct (lookup_lt_is_Some_2 (hp messages).1 k) as [p0 P0]; [lia|]. destruct (lookup_lt_is_Some_2 (hp messages).2 k) as [p1 P1]; [lia|].
  destruct (lookup_lt_is_Some_2 (vd_rounds data).1 k) as [d0 K0]; [lia|]. destruct (lookup_lt_is_Some_2 (vd_rounds data).2 k) as [d1 K1]; [lia|].
  unfold symbolic.round_hand. cbn [at2 Nat.eqb].
  rewrite (index_lookup _ _ _ P0). mstep. rewrite (index_lookup _ _ _ K0). mstep.
  rewrite (index_lookup _ _ _ P1). mstep. rewrite (index_lookup _ _ _ K1). mstep.
  eexists. split; [reflexivity|]. intros pads Hs. destruct (shaped_reveals pads i l Hs Hl) as (lp & Hr & [L0 L1]).
  destruct (lookup_lt_is_Some_2 (hp lp).1 k) as [q0 Q0]; [lia|]. destruct (lookup_lt_is_Some_2 (hp lp).2 k) as [q1 Q1]; [lia|].
  apply (round_claim_value pads i lp k 1 _ _ _ q1); [done|by right|done|].
  apply (round_claim_value pads i lp k 0 _ _ _ q0); [done|by left|done|by apply Hc].
Qed.

Lemma endpoint_known i l (messages : pair2 E) alpha : layers (raw circuit) !! i = Some l ->
  shaped_known (symbolic.endpoint_claim i messages alpha).
Proof. intros Hl pads Hs. destruct (shaped_reveals pads i l Hs Hl) as (lp & Hr & _). by apply (endpoint_claim_value pads i lp). Qed.

Lemma verify_layer_total (proof : SumcheckProof E) rels i l data :
  proof_shape proof geom = true -> layers (raw circuit) !! i = Some l -> layer_data_ok data l ->
  exists rel, symbolic.verify_layer proof rels (i, data) = Ok (rels ++ [rel]) /\ shaped_known (linear rel).
Proof.
  intros Hs Hl [D0 D1]. destruct (shaped_reveals proof i l Hs Hl) as (m & Hm & [M0 M1]). unfold symbolic.verify_layer.
  rewrite (index_lookup _ _ _ Hm). mstep. rewrite M0, M1, D0, D1, Nat.eqb_refl. cbn [andb negb reject_if]. mstep.
  assert (exists claim, match i with
      | O => mret {| constant := fzero; pe_terms := [] |}
      | S j => above ← index (proof_layers proof) j; mret (symbolic.endpoint_claim j (claims above) (vd_alpha data))
      end = @Ok string _ claim /\ shaped_known claim) as (claim & Hc & Hk).
  { destruct i as [|j]; [eexists; split; [reflexivity|]; intros pads _; constructor|].
    destruct (lookup_lt_is_Some_2 (layers (raw circuit)) j) as [l' Hl']; [apply lookup_lt_Some in Hl; lia|].
    destruct (shaped_reveals proof j l' Hs Hl') as (m' & Hm' & _). rewrite (index_lookup _ _ _ Hm'). mstep.
    eexists. split; [reflexivity|]. by eapply endpoint_known. }
  rewrite Hc. mstep.
  destruct (symbolic_rounds_total i l m data claim Hl ltac:(done) ltac:(done) Hk (logw l) ltac:(lia)) as (claim' & -> & Hk'). mstep.
  eexists. split; [reflexivity|]. intros pads Hp. destruct (shaped_reveals pads i l Hp Hl) as (lp & Hr & _).
  by apply (finish_layer_value pads i lp); [|apply Hk'].
Qed.

Lemma verify_layers_total (proof : SumcheckProof E) datas : proof_shape proof geom = true ->
  Forall2 layer_data_ok datas (layers (raw circuit)) -> forall k, k <= nl ->
  exists rels, foldM (symbolic.verify_layer proof) [] (zip (seq 0 k) (take k datas)) = Ok rels /\
    length rels = k /\ Forall (fun r => shaped_known (linear r)) rels.
Proof.
  intros Hs Hd k. induction k as [|k IH]; intros Hk; [by exists []|].
  destruct (IH ltac:(lia)) as (rels & Hrun & Hlen & Hf). pose proof (Forall2_length _ _ _ Hd) as Hdl.
  destruct (lookup_lt_is_Some_2 (layers (raw circuit)) k) as [l Hl]; [lia|].
  destruct (Forall2_lookup_r _ _ _ _ _ Hd Hl) as (d & Hdk & Hdo).
  rewrite seq_S, (take_S_r _ _ _ Hdk), zip_with_app by (rewrite length_seq, length_take; lia).
  rewrite foldM_app, Hrun. mstep. cbn [zip_with foldM Nat.add].
  destruct (verify_layer_total proof rels k l d Hs Hl Hdo) as (rel & -> & Hr). mstep.
  exists (rels ++ [rel]). split; [done|]. rewrite length_app. cbn. split; [lia|]. apply Forall_app. auto.
Qed.

(** The relations can be evaluated under any pad of the shape. *)
Lemma evaluate_layers_total pads rels : Forall (fun r => pads_known pads (linear r)) rels -> forall lps acc,
  exists res, foldM (symbolic.evaluate_layer pads) acc (zip rels lps) = Ok res.
Proof.
  induction 1 as [|r rels Hr Hf IH]; intros [|lp lps] acc; cbn [zip zip_with foldM]; try by eexists.
  assert (exists acc', symbolic.evaluate_layer pads acc (r, lp) = Ok acc') as (acc' & ->); [|mstep; apply IH].
  unfold symbolic.evaluate_layer. rewrite (evaluate_expression_ok _ _ Hr). mstep. by eexists.
Qed.

Lemma relations_total (proof : SumcheckProof E) data : proof_shape proof geom = true -> data_ok circuit data ->
  exists relations, symbolic.verify proof data = Ok relations /\
    forall (pads : SumcheckProof E) inputs, proof_shape pads geom = true -> length inputs = ninput (raw circuit) ->
      exists res, symbolic.evaluate relations inputs pads = Ok res.
Proof.
  intros Hs [Hd Hw]. pose proof (Forall2_length _ _ _ Hd) as Hdl. pose proof (Forall2_length _ _ _ (shape_layers _ _ Hs)) as Hpl.
  unfold symbolic.verify. rewrite Hpl, Hdl, Nat.eqb_refl. cbn [negb reject_if]. mstep.
  destruct (verify_layers_total proof (vd_layers data) Hs Hd nl ltac:(done)) as (rels & Hrun & Hlen & Hf).
  rewrite take_ge in Hrun by lia. rewrite Hrun. mstep. eexists. split; [reflexivity|]. intros pads inputs Hp Hi.
  pose proof (Forall2_length _ _ _ (shape_layers _ _ Hp)) as Hpl'.
  unfold symbolic.evaluate. cbn [vr_layers vr_input weights ir_linear]. rewrite Hlen, Hpl', Hi, Hw, !Nat.eqb_refl. cbn [negb orb reject_if]. mstep.
  destruct (evaluate_layers_total pads rels) with (lps := proof_layers pads) (acc := @nil E) as (res & ->).
  { eapply Forall_impl; [exact Hf|]. intros r Hr. by apply Hr. }
  mstep. rewrite evaluate_expression_ok; [mstep; rewrite dot_spec by lia; by eexists|].
  apply neg_expression_value. pose proof (nl_pos circuit Hcircuit).
  destruct (last (proof_layers proof)) as [lp|]; [|constructor].
  destruct (lookup_lt_is_Some_2 (layers (raw circuit)) (nl - 1)) as [l Hl]; [lia|]. by eapply endpoint_known.
Qed.

(** The plain verifier's check. *)
Lemma check_residuals_iff n (res : list E) : length res = S n ->
  verifier.check_residuals n res = Ok tt <-> forall c, c < S n -> at0 res c = fzero.
Proof.
  intros Hl. unfold verifier.check_residuals. rewrite (proj2 (Nat.leb_le _ _)) by lia. cbn [rust_assert]. mstep.
  destruct (lookup_lt_is_Some_2 res n) as [x Hx]; [lia|]. rewrite last_lookup, Hl. cbn [Nat.pred]. rewrite Hx. cbn [unwrap].
  assert (forallb is_zero (take n res) = true <-> forall c, c < n -> at0 res c = fzero) as Hf.
  { rewrite forallb_forall. split.
    - intros Ha c Hc. destruct (lookup_lt_is_Some_2 res c) as [y Hy]; [lia|]. unfold at0. rewrite Hy. apply is_zero_spec, Ha.
      apply list_elem_of_In, list_elem_of_lookup_2 with c. by rewrite lookup_take_lt.
    - intros Ha y (c & Hc)%list_elem_of_In%list_elem_of_lookup. pose proof (lookup_lt_Some _ _ _ Hc) as Hlt. rewrite length_take in Hlt.
      rewrite lookup_take_lt in Hc by lia. apply is_zero_spec. rewrite <- (Ha c) by lia. unfold at0. by rewrite Hc. }
  assert (at0 res n = x) as Hn by (unfold at0; by rewrite Hx).
  destruct (forallb is_zero (take n res)) eqn:Hb; cbn [negb reject_if]; mstep.
  - pose proof (proj1 Hf eq_refl) as Hall. destruct (is_zero x) eqn:Hz; cbn [negb reject_if].
    + split; [|done]. intros _ c Hc. destruct (decide (c = n)) as [->|]; [rewrite Hn; by apply is_zero_spec|apply Hall; lia].
    + split; [done|]. intros Ha. rewrite (Ha n ltac:(lia)) in Hn. symmetry in Hn. apply is_zero_spec in Hn. congruence.
  - split; [done|]. intros Ha. exfalso. assert (false = true) by (apply Hf; intros; apply Ha; lia). done.
Qed.
End relations.

(** ** The verifier *)
Section shape.
Context {E : Type}.

Lemma validate_layers_total (circuit : Circuit E) config zkp :
  length (proof_layers (sumcheck_proof zkp)) = length (layers (raw circuit)) ->
  forall k, k <= length (layers (raw circuit)) ->
  let r := foldM (zk_verifier.validate_layer {| zv_circuit := circuit; zv_config := config |} zkp) tt (seq 0 k) in
  (r = Ok tt /\ Forall2 (fun lp l => length2 (hp lp) (logw l)) (take k (proof_layers (sumcheck_proof zkp))) (take k (layers (raw circuit)))) \/
  ((exists e, r = Err e) /\ ~ Forall2 (fun lp l => length2 (hp lp) (logw l)) (take k (proof_layers (sumcheck_proof zkp))) (take k (layers (raw circuit)))).
Proof.
  intros Hlen k. induction k as [|k IH]; intros Hk r; subst r; [left; split; [done|constructor]|].
  rewrite seq_S, foldM_app. cbn [foldM Nat.add].
  destruct (lookup_lt_is_Some_2 (layers (raw circuit)) k) as [l Hl]; [lia|].
  destruct (lookup_lt_is_Some_2 (proof_layers (sumcheck_proof zkp)) k) as [lp Hlp]; [lia|].
  rewrite (take_S_r _ _ _ Hl), (take_S_r _ _ _ Hlp).
  destruct (IH ltac:(lia)) as [[-> Hf]|[(e & ->) Hf]].
  2:{ right. split; [by exists e|]. cbn [mbind outcome_bind]. intros Hf'. apply Forall2_app_inv in Hf' as [? _]; [done|]. rewrite !length_take. lia. }
  mstep.
  unfold zk_verifier.validate_layer. cbn [zv_circuit]. rewrite (index_lookup _ _ _ Hl), (index_lookup _ _ _ Hlp). mstep.
  destruct (Nat.eqb_spec (length (hp lp).1) (logw l)) as [E0|E0], (Nat.eqb_spec (length (hp lp).2) (logw l)) as [E1|E1]; cbn [negb orb reject_if].
  1: left; split; [done|]; apply Forall2_app; [done|]; by repeat constructor.
  all: right; split; [by eexists|]; intros Hf'; apply Forall2_app_inv in Hf' as [_ Hf']; [|rewrite !length_take; lia];
    inversion_clear Hf' as [|? ? ? ? [? ?] _]; done.
Qed.

(** [validate] accepts exactly the announced shape. *)
Lemma validate_exact (circuit : Circuit E) config n zkp : circuit_ok circuit ->
  let r := zk_verifier.validate {| zv_circuit := circuit; zv_config := config |} n zkp in
  (r = Ok tt <-> n = npublic_input (raw circuit) /\ proof_shape (sumcheck_proof zkp) (from_circuit circuit) = true) /\
  (r = Ok tt \/ exists e, r = Err e).
Proof.
  intros Hc r. subst r. unfold zk_verifier.validate. cbn [zv_circuit].
  rewrite (proj2 (Nat.leb_le _ _) (co_public _ Hc)). cbn [rust_assert]. mstep.
  destruct (Nat.eqb_spec n (npublic_input (raw circuit))) as [->|Hn]; cbn [negb reject_if].
  2:{ split; [split; [done|by intros [? _]]|right; by eexists]. }
  mstep. destruct (Nat.eqb_spec (length (proof_layers (sumcheck_proof zkp))) (length (layers (raw circuit)))) as [Hl|Hl]; cbn [negb reject_if].
  2:{ split; [|right; by eexists]. split; [done|]. intros [_ Hs%shape_layers%Forall2_length]. done. }
  mstep. pose proof (validate_layers_total circuit config zkp Hl (length (layers (raw circuit))) ltac:(done)) as Hv. cbv zeta in Hv.
  rewrite (take_ge (layers (raw circuit))), take_ge in Hv by lia.
  destruct Hv as [[-> Hf]|[(e & ->) Hf]].
  - split; [|by left]. split; [|done]. intros _. split; [done|]. destruct (sumcheck_proof zkp) as [lps]. by apply layers_shape.
  - split; [|right; by exists e]. split; [done|]. by intros [_ Hs%shape_layers].
Qed.

End shape.

Section verify.
Context {E : Type} `{AF : AlgebraicField E} `{!AlgebraicFieldLaws E} `{!RuntimeField E} `{!RuntimeFieldLaws E} `{!InterpolationField E}.
Context (N0 : nat) `{!InterpolationFieldLaws E N0} (N0_3 : 3 <= N0).
Context `{SF : SerializableField E} (elt_size : serialized_size_bytes (E:=E) <= 128) `{SS : SupportsSampling E}.
Context `{SU : Subfield E} `{RI : !RangeInterpolatorFactory E}.
Context `{SH : Sha256} `{AE : Aes256} `{!SamplingLaws E}.

(** Acceptance reduces to Ligero's verifier on equations that hold for a
    witness exactly when the plain verifier accepts under the pads in it. *)
Lemma verify_reduces circuit config p pubs zkp tv :
  circuit_ok circuit -> wires_ok circuit -> (exists n, serialized_elements (from_circuit circuit) = Ok n) ->
  param.try_new (E:=E) (ninput (raw circuit) - npublic_input (raw circuit) + pad_total (from_circuit circuit))
    (length (layers (raw circuit))) config = Some p ->
  length pubs = npublic_input (raw circuit) -> proof_shape (sumcheck_proof zkp) (from_circuit circuit) = true ->
  exists a b qcs t2,
    (forall fuel, zk_verifier.verify fuel {| zv_circuit := circuit; zv_config := config |} pubs zkp tv
      = map_err ligero_error (ligero_verifier.verify fuel p b (com zkp) (com_proof zkp) a DEFAULT_STATEMENT_HASH qcs t2)) /\
    length b = S (length (layers (raw circuit))) /\ statement_ok p a (length b) qcs /\
    forall (pad : SumcheckProof E) wit, proof_shape pad (from_circuit circuit) = true ->
      length wit = ninput (raw circuit) - npublic_input (raw circuit) ->
      let W := wit ++ concat (map layer_pads (proof_layers pad)) in
      quadratics_hold p W qcs /\
      (linear_holds W a b <-> verifier.verify (pubs ++ wit) pad circuit (sumcheck_proof zkp) tv = Ok t2).
Proof.
  intros Hc Hw (ne & Hne) Hp Hpub Hshape. pose proof (sane_layers circuit Hc) as Hsane.
  destruct (try_new_ok _ _ _ _ Hp) as (Hpok & Hnw & Hnq & Hpn & _).
  destruct (write_statement_ok elt_size circuit pubs tv Hc Hpub) as (t1 & Ht1 & Hf).
  assert (forall q : SumcheckProof E, proof_shape q (from_circuit circuit) = true -> validate q (from_circuit circuit) = Ok tt) as Hvalid
    by (intros q Hq; unfold validate; by rewrite Hq, Hne).
  destruct (derive_total N0 N0_3 elt_size circuit Hc Hw (sumcheck_proof zkp) t1 (Hvalid _ Hshape) Hf) as (data & t2 & Hderive & Hdata).
  destruct (relations_total circuit Hc (sumcheck_proof zkp) data Hshape Hdata) as (relations & Hrel & Heval).
  set (nwit := ninput (raw circuit) - npublic_input (raw circuit)) in *.
  destruct (pad_layout_consecutive (Err:=unit) (from_circuit circuit) nwit Hsane) as (ls & Hls & _ & _).
  assert (forall (pad : SumcheckProof E) wit, proof_shape pad (from_circuit circuit) = true -> length wit = nwit ->
    exists res a b, symbolic.evaluate relations (pubs ++ wit) pad = Ok res /\
      constraint_compiler.compile relations ls pubs = Ok (a, b) /\ compiled (wit ++ concat (map layer_pads (proof_layers pad))) a b res /\
      length res = S (length (layers (raw circuit)))) as Hcomp.
  { intros pad wit Hps Hwl. rewrite <- Hwl in Hls. pose proof (committed_layers _ _ _ _ Hls Hsane Hps) as Hcm.
    destruct (Heval pad (pubs ++ wit) Hps) as (res & Hres); [rewrite length_app; pose proof (co_public _ Hc); lia|].
    destruct (compile_ok _ ls pad Hcm relations pubs wit res (eq_sym (Forall2_length _ _ _ Hcm)) ltac:(by eexists) Hres) as (a & b & ? & ? & Hl).
    exists res, a, b. split_and!; try done. by rewrite Hl, (Forall2_length _ _ _ Hcm), (Forall2_length _ _ _ (shape_layers _ _ Hps)). }
  assert (forall (pad : SumcheckProof E) (wit : list E), proof_shape pad (from_circuit circuit) = true -> length wit = nwit ->
    length (wit ++ concat (map layer_pads (proof_layers pad))) = p_nw p) as HW.
  { intros pad wit Hps Hwl. rewrite length_app, Hwl, Hnw. f_equal. apply length_pads. by apply shape_Forall2_inv. }
  set (wit0 := replicate nwit (fzero (E:=E))). assert (length wit0 = nwit) as Hw0 by apply length_replicate.
  destruct (Hcomp (sumcheck_proof zkp) wit0 Hshape Hw0) as (res0 & a & b & _ & Hcompile & [Cl Ct _] & Crl).
  pose proof Hls as Hls0. rewrite <- Hw0 in Hls0.
  destruct (product_constraints_ok _ wit0 (sumcheck_proof zkp) ls Hls0 Hsane Hshape) as (qcs & Hqcs & Hqlen & Hqs0).
  rewrite Hw0 in Hqcs.
  exists a, b, qcs, t2. split; [|split; [lia|split]].
  - intros fuel. unfold zk_verifier.verify. cbn [zv_circuit]. cbv zeta. fold nwit.
    rewrite Hpub, (proj2 (proj1 (validate_exact circuit config _ zkp Hc)) (conj eq_refl Hshape)). cbn [map_err]. rewrite bind_Ok, Ht1. cbn [map_err]. rewrite bind_Ok, Hderive.
    cbn [map_err]. rewrite bind_Ok. cbn beta iota. rewrite Hrel. cbn [map_err]. rewrite bind_Ok.
    assert (pad_layout (E:=zk_outcome) (from_circuit circuit) nwit = Ok ls) as ->.
    { destruct (pad_layout_inv _ _ _ Hls Hsane) as (cs & Hcs & _ & -> & _). unfold pad_layout. by rewrite Hcs. }
    rewrite bind_Ok, Hcompile. cbn [map_err]. rewrite bind_Ok. cbn beta iota.
    unfold zk_verifier.ligero_param. cbn [zv_circuit zv_config]. rewrite witness_count by apply Hc. rewrite bind_Ok. cbn beta iota.
    fold nwit. rewrite (try_new_new _ _ _ _ Hp), bind_Ok, Hqcs, bind_Ok. reflexivity.
  - split.
    + eapply Forall_impl; [exact Ct|]. intros t [? ?]. rewrite HW in * by done. done.
    + rewrite Hnq, Hqlen. unfold from_circuit. cbn [logw_layers]. by rewrite length_map.
    + intros k l _ Hk. destruct (Hqs0 k l Hk) as (? & ? & ? & _). rewrite HW in * by done. done.
  - intros pad wit Hps Hwl W. split.
    + rewrite <- Hwl in Hls, Hqcs.
      destruct (product_constraints_ok _ wit pad ls Hls Hsane Hps) as (qcs' & Hqcs' & _ & Hqs). fold W in Hqs.
      assert (qcs' = qcs) as -> by (specialize (Hqcs unit); specialize (Hqcs' unit); congruence).
      intros k l _ Hk. by destruct (Hqs k l Hk) as (_ & _ & _ & ?).
    + destruct (Hcomp pad wit Hps Hwl) as (res & a' & b' & Hres & Hcompile' & [Cl' _ Cv'] & Crl').
      rewrite Hcompile in Hcompile'. injection Hcompile' as <- <-. fold W in Cv'.
      assert (take (npublic_input (raw circuit)) (pubs ++ wit) = pubs) as Htk by by rewrite take_app_length'.
      unfold verifier.verify. rewrite Htk, (proj2 (Nat.ltb_ge _ _)) by (rewrite length_app; lia). cbn [reject_if]. mstep.
      rewrite Ht1. cbn [map_err]. mstep. unfold verifier.verify_core. rewrite (Hvalid _ Hps). cbn [map_err]. mstep.
      rewrite Hderive. mstep. rewrite Hrel. cbn [map_err]. mstep. rewrite Hres. cbn [map_err]. mstep.
      rewrite (Forall2_length _ _ _ (shape_layers _ _ Hshape)).
      pose proof (check_residuals_iff _ res Crl') as Hiff.
      assert (linear_holds W a b <-> forall c, c < S (length (layers (raw circuit))) -> at0 res c = fzero) as ->.
      { split; intros Hh c Hcb; [rewrite <- Cv' by lia; apply Hh; lia|etransitivity; [exact (Cv' c Hcb)|apply Hh; lia]]. }
      rewrite <- Hiff. destruct (verifier.check_residuals _ res) as [[]| |]; cbn; split; done.
Qed.
End verify.
