(* ===== verification/ZkTheorems.v ===== *)
(** * Theorems: the zero-knowledge system

    Completeness of the composed protocol and correctness of the constraint
    compiler, and the encoding of combined proofs; an instance over
    GF(2^128). *)
From stdpp Require Import prelude strings.
From Stdlib Require Import Lia NArith.
From S2P Require Import Prelude Words Stream Interfaces Circuit Gf2_128 Merkle Field FieldFacts Interpolation Gf2_128Facts Transcript TranscriptTheorems SumcheckProof SumcheckV1 SumcheckProtocol Gf2_128Sampling SumcheckProofFacts SumcheckLayer Completeness CompletenessTheorems RangeInterpolation Ligero TableauFacts LigeroBatch LigeroChecks LigeroSamples LigeroCodec ZkV1 ZkV1Facts ZkComplete ZkVerify.

Section zk.
Context {E : Type} `{AF : AlgebraicField E} `{!AlgebraicFieldLaws E} `{!RuntimeField E} `{!RuntimeFieldLaws E} `{!InterpolationField E}.
Context (N0 : nat) `{!InterpolationFieldLaws E N0}.
Context `{SF : SerializableField E} `{SS : SupportsSampling E}.
Context `{SU : Subfield E} `{RI : !RangeInterpolatorFactory E} `{!RangeInterpolatorLaws E}.
Context `{SHL : Sha256Laws} `{AE : Aes256} `{!SamplingLaws E}.

(** C1: completeness of the zero-knowledge system.  For a well-formed circuit
    that the public and private inputs satisfy, a configuration that fits and
    a generator that yields elements, [commit] succeeds with the geometry the
    verifier computes; whenever the opened columns can be drawn, [prove]
    returns a proof (evaluation, every assertion of the sumcheck prover, the
    constraint compiler and Ligero's zero check included), [recv_commitment]
    brings the verifier's transcript to the prover's, and [verify] accepts,
    both transcripts ending in one state; otherwise [prove] fails exactly as
    the drawing does. *)
Theorem zk_complete {G} `{RandomEngine G} circuit config p pubs wit (ts : Transcript) (rng : G) :
  3 <= N0 -> serialized_size_bytes (E:=E) <= 128 -> zk_ok circuit config p pubs wit ->
  (forall g : G, exists (e : E) g', elt_field g = Ok (e, g')) ->
  (forall g : G, exists (e : E) g', elt_subfield g = Ok (e, g') /\ sf_contains e = true) ->
  engine_ok (rng_bytes (G:=G)) ->
  (forall t, pseudorandom_generator t = None -> can_draw (E:=E) (zk_draws p circuit) t) ->
  let zp := {| zp_circuit := circuit; zp_config := config |} in
  let zv := {| zv_circuit := circuit; zv_config := config |} in
  exists ci geom ts0 rng',
    zk_prover.commit zp wit ts rng = Ok (ci, geom, ts0, rng') /\
    (forall Err, zk_verifier.geometry (Err:=Err) zv = Ok geom) /\
    exists ts1, forall fuel,
      match ligero_transcript.gen_idx fuel p ts1 with
      | Ok (idx, ts') => exists zkp,
          zk_prover.prove fuel zp pubs wit ci ts0 = Ok (zkp, ts') /\
          zk_verifier.recv_commitment (Err:=zk_outcome) zv zkp ts = Ok ts0 /\
          zk_verifier.verify fuel zv pubs zkp ts0 = Ok ts'
      | Err e => zk_prover.prove fuel zp pubs wit ci ts0 = Err (Stuck e)
      | Panic => zk_prover.prove fuel zp pubs wit ci ts0 = Panic
      end.
Proof. intros HN Hs Hz Hf Hsf He Hd. by apply (zk_run N0 HN Hs). Qed.

(** C11: the constraint compiler.  Whenever the symbolic relations can be
    evaluated under revealed pads, [compile] turns them into equations whose
    columns and rows are in range and which, on the committed witness
    (private inputs, then every pad and pad product in the order of the
    layout), have exactly the residuals of the relations as their values: row
    [c] of [A * w + b] is residual [c]. *)
Theorem compile_residuals {Err} geom ls (pad : SumcheckProof E) relations (pubs wit res : list E) :
  pad_layout (E:=Err) geom (length wit) = Ok ls ->
  Forall (fun logw => sane_logw logw = true) (logw_layers geom) -> proof_shape pad geom = true ->
  symbolic.evaluate relations (pubs ++ wit) pad = Ok res ->
  let W := wit ++ concat (map layer_pads (proof_layers pad)) in
  exists a b, constraint_compiler.compile relations ls pubs = Ok (a, b) /\
    length b = length res /\ length res = S (length ls) /\
    Forall (fun t => lc_c t < length b /\ lc_w t < length W) a /\
    forall c, c < length b -> fadd (row_value W a c) (at0 b c) = at0 res c.
Proof.
  intros Hl Hs Hp He W. pose proof (committed_layers _ _ _ _ Hl Hs Hp) as Hcm.
  destruct (compile_ok W ls pad Hcm relations pubs wit res (eq_sym (Forall2_length _ _ _ Hcm)) ltac:(by eexists) He)
    as (a & b & Hc & [H1 H2 H3] & Hlen).
  by exists a, b.
Qed.

(** C12: the verifier refines its specification on every proof.  A proof
    without the announced shape is rejected.  On any other proof, whatever
    its messages, deriving the challenges, building the relations and
    compiling them never panic, and acceptance is Ligero's acceptance of a
    valid statement [a], [b], [qcs] that says exactly what it should: a
    committed witness (private inputs, then the pads of any sumcheck pad)
    satisfies the products, and satisfies the equations if and only if the
    plain sumcheck verifier accepts the messages with that pad revealed. *)
Theorem zk_verify_refines circuit config p pubs zkp tv :
  3 <= N0 -> serialized_size_bytes (E:=E) <= 128 ->
  circuit_ok circuit -> wires_ok circuit -> (exists n, serialized_elements (from_circuit circuit) = Ok n) ->
  param.try_new (E:=E) (ninput (raw circuit) - npublic_input (raw circuit) + pad_total (from_circuit circuit))
    (length (layers (raw circuit))) config = Some p ->
  let zv := {| zv_circuit := circuit; zv_config := config |} in
  if bool_decide (length pubs = npublic_input (raw circuit)) && proof_shape (sumcheck_proof zkp) (from_circuit circuit)
  then exists a b qcs t2,
    (forall fuel, zk_verifier.verify fuel zv pubs zkp tv
      = map_err ligero_error (ligero_verifier.verify fuel p b (com zkp) (com_proof zkp) a DEFAULT_STATEMENT_HASH qcs t2)) /\
    length b = S (length (layers (raw circuit))) /\ statement_ok p a (length b) qcs /\
    forall (pad : SumcheckProof E) wit, proof_shape pad (from_circuit circuit) = true ->
      length wit = ninput (raw circuit) - npublic_input (raw circuit) ->
      let W := wit ++ concat (map layer_pads (proof_layers pad)) in
      quadratics_hold p W qcs /\
      (linear_holds W a b <-> verifier.verify (pubs ++ wit) pad circuit (sumcheck_proof zkp) tv = Ok t2)
  else exists e, forall fuel, zk_verifier.verify fuel zv pubs zkp tv = Err (ZkRejected e).
Proof.
  intros HN Hs Hc Hw Hn Hp zv. destruct (validate_exact circuit config (length pubs) zkp Hc) as [Hiff Hok].
  case_bool_decide as Hl; [destruct (proof_shape _ _) eqn:Hsh|]; cbn [andb].
  - by apply (verify_reduces N0 HN Hs).
  - destruct Hok as [Hok|(e & He)]; [by apply Hiff in Hok as [_ Hok]; congruence|].
    exists e. intros fuel. unfold zk_verifier.verify, zv. by rewrite He.
  - destruct Hok as [Hok|(e & He)]; [by apply Hiff in Hok as [Hok _]|].
    exists e. intros fuel. unfold zk_verifier.verify, zv. by rewrite He.
Qed.
End zk.

(** ** The satisfied circuit [Squares] over GF(2^128) *)
#[local] Existing Instances toy_sha256 toy_sha256_laws toy_aes toy_aes_laws.
#[local] Instance toy_random : RandomEngine N := toy_engine.

Definition squares_publics : list Gf2_128 := [gf 3].
Definition squares_witness : list Gf2_128 := [gf 5; gf 5; gf 0].
Definition squares_param : LigeroParam := param.layout_of 21 2 Product.config 2.

Lemma toy_elements (g : N) : exists (e : Gf2_128) g', elt_field g = Ok (e, g').
Proof. eexists _, _. eapply elt_field_ok; [reflexivity|]. apply length_to_le_bytes. Qed.
Lemma toy_sub_elements (g : N) : exists (e : Gf2_128) g', elt_subfield g = Ok (e, g') /\ sf_contains e = true.
Proof. destruct (toy_elements g) as (e & g' & He). exists e, g'. split; [exact He|reflexivity]. Qed.
Lemma toy_rng_total : engine_ok (rng_bytes (G:=N)).
Proof. intros n g. eexists _, _. split; [reflexivity|]. apply toy_bytes_length. Qed.

Lemma squares_zk_ok : zk_ok Squares.circuit Product.config squares_param squares_publics squares_witness.
Proof.
  split.
  - apply Squares.circuit_is_ok.
  - cbn. lia.
  - exists 16. vm_compute. reflexivity.
  - vm_compute. reflexivity.
  - cbn. lia.
  - reflexivity.
  - reflexivity.
  - repeat constructor.
  - exists squares_wires. exact squares_evaluates.
Qed.

Lemma zk_complete_witness :
  exists ci geom ts0 rng',
    zk_prover.commit {| zp_circuit := Squares.circuit; zp_config := Product.config |} squares_witness (Transcript_new [x2a]) 7%N
    = Ok (ci, geom, ts0, rng') /\
    exists ts1, forall fuel,
      match ligero_transcript.gen_idx fuel squares_param ts1 with
      | Ok (idx, ts') => exists zkp,
          zk_prover.prove fuel {| zp_circuit := Squares.circuit; zp_config := Product.config |} squares_publics squares_witness ci ts0 = Ok (zkp, ts') /\
          zk_verifier.recv_commitment (Err:=zk_outcome) {| zv_circuit := Squares.circuit; zv_config := Product.config |} zkp (Transcript_new [x2a]) = Ok ts0 /\
          zk_verifier.verify fuel {| zv_circuit := Squares.circuit; zv_config := Product.config |} squares_publics zkp ts0 = Ok ts'
      | _ => True
      end.
Proof.
  destruct (zk_complete 6 Squares.circuit Product.config squares_param squares_publics squares_witness (Transcript_new [x2a]) 7%N)
    as (ci & geom & ts0 & rng' & Hc & _ & ts1 & Hrun).
  - lia.
  - vm_compute. lia.
  - exact squares_zk_ok.
  - exact toy_elements.
  - exact toy_sub_elements.
  - exact toy_rng_total.
  - intros t Ht. apply can_draw_fresh; [exact Ht|vm_compute; lia].
  - exists ci, geom, ts0, rng'. split; [exact Hc|]. exists ts1. intros fuel. specialize (Hrun fuel).
    destruct (ligero_transcript.gen_idx fuel squares_param ts1) as [[idx ts']| |]; [exact Hrun|exact I|exact I].
Defined.

(** One layer without rounds: [5 + pad_0 - 7 * pad_0 * pad_1] and the input
    equation [1 + 2 * 3 + 4 * wit_0 + pad_1]. *)
Module Tiny.
Definition geometry : SumcheckProofGeometry := {| logw_layers := [0] |}.
Definition layout : list LayerPadLayout := [{| rounds := []; claim_positions := (1, 2, 3) |}].
Definition pad : SumcheckProof Gf2_128 := {| proof_layers := [{| hp := ([], []); claims := (gf 8, gf 9) |}] |}.
Definition relations : VerificationRelations Gf2_128 :=
  {| vr_layers := [{| linear := {| constant := gf 5; pe_terms := [{| pt_pad := Endpoint 0 0; coefficient := gf 1 |}] |};
                      product_coefficient := gf 7 |}];
     vr_input := {| weights := [gf 2; gf 4];
                    ir_linear := {| constant := gf 1; pe_terms := [{| pt_pad := Endpoint 0 1; coefficient := gf 1 |}] |} |} |}.
Definition residuals : list Gf2_128 :=
  match symbolic.evaluate relations ([gf 3] ++ [gf 6]) pad with Ok rs => rs | _ => [] end.
Lemma evaluates : symbolic.evaluate relations ([gf 3] ++ [gf 6]) pad = Ok residuals.
Proof. vm_compute. reflexivity. Qed.
End Tiny.

Lemma compile_residuals_witness :
  exists a b, constraint_compiler.compile Tiny.relations Tiny.layout [gf 3] = Ok (a, b) /\ length b = 2.
Proof.
  destruct (compile_residuals (Err:=unit) Tiny.geometry Tiny.layout Tiny.pad Tiny.relations [gf 3] [gf 6] Tiny.residuals)
    as (a & b & Hc & Hl & Hr & _).
  - reflexivity.
  - repeat constructor.
  - reflexivity.
  - exact Tiny.evaluates.
  - exists a, b. split; [exact Hc|]. rewrite Hl, Hr. reflexivity.
Defined.

(** Any messages of the right shape, here all zero, and any Ligero proof. *)
Definition zero_poly : RoundPoly Gf2_128 := {| evaluations := (gf 0, gf 0) |}.
Definition squares_messages : SumcheckProof Gf2_128 :=
  {| proof_layers := [{| hp := ([zero_poly], [zero_poly]); claims := (gf 0, gf 0) |};
                      {| hp := ([zero_poly; zero_poly], [zero_poly; zero_poly]); claims := (gf 0, gf 0) |}] |}.
Definition empty_proof : LigeroProof Gf2_128 :=
  {| y_ldt := []; y_dot := []; y_quad_0 := []; y_quad_2 := []; req := []; merkle := {| mp_nonce := []; mp_path := [] |} |}.
Lemma squares_wires_ok : wires_ok Squares.circuit.
Proof. intros [|[|i]] l Hl; [injection Hl as <-..|done]; repeat constructor; vm_compute; lia. Qed.

Lemma zk_verify_refines_witness :
  exists a b qcs t2, forall fuel,
    zk_verifier.verify fuel {| zv_circuit := Squares.circuit; zv_config := Product.config |} squares_publics
      {| sumcheck_proof := squares_messages; com := replicate 32 x01; com_proof := empty_proof |} (Transcript_new [x2a])
    = map_err ligero_error (ligero_verifier.verify fuel squares_param b (replicate 32 x01) empty_proof a DEFAULT_STATEMENT_HASH qcs t2) /\
    length b = 3.
Proof.
  pose proof (zk_verify_refines 6 Squares.circuit Product.config squares_param squares_publics
    {| sumcheck_proof := squares_messages; com := replicate 32 x01; com_proof := empty_proof |} (Transcript_new [x2a])) as Hr.
  destruct Hr as (a & b & qcs & t2 & Hv & Hb & _).
  - lia.
  - vm_compute. lia.
  - apply Squares.circuit_is_ok.
  - exact squares_wires_ok.
  - exists 16. vm_compute. reflexivity.
  - vm_compute. reflexivity.
  - exists a, b, qcs, t2. intros fuel. split; [exact (Hv fuel)|exact Hb].
Defined.

(** * Theorems: the proof encoding

    Round trip and canonicity of the combined proof; an instance over
    GF(2^128) with the subfield of two elements. *)

Lemma total_layers {A} `{SerializableField A} (Hdec : forall bs, bytes_to_element (E:=A) bs <> Panic) logws :
  total_reader (read_layers (A:=A) logws).
Proof.
  assert (total_reader (read_elt_field (A:=A))) as He.
  { intros s. unfold read_elt_field. destruct (length s <? _); [done|]. cbn [reject_if]. mstep.
    specialize (Hdec (take (serialized_size_bytes (E:=A)) s)). by destruct (bytes_to_element (E:=A) _). }
  induction logws as [|logw logws IH]; cbn [read_layers]; [apply total_ret|].
  apply total_bind; [|intros l; apply total_bind; [done|intros ls; apply total_ret]].
  unfold read_layer, read_round. apply total_bind; [apply total_read_n|intros rs].
  - do 4 (apply total_bind; [done|intros ?]). apply total_ret.
  - do 2 (apply total_bind; [done|intros ?]). apply total_ret.
Qed.
Lemma total_proof {A} `{SerializableField A} (Hdec : forall bs, bytes_to_element (E:=A) bs <> Panic) geom :
  total_reader (read_proof (A:=A) geom).
Proof.
  intros s. unfold read_proof.
  assert (forall logws t, foldM (add_layer_size (A:=A)) t logws <> Panic) as Hf.
  { induction logws as [|logw logws IH]; intros t; cbn [foldM]; [done|].
    destruct (add_layer_size (A:=A) t logw) as [t'| |] eqn:Ha; [apply IH|done|exfalso].
    unfold add_layer_size in Ha. destruct (negb _); [done|]. cbn [reject_if] in Ha. rewrite bind_Ok in Ha. cbv zeta in Ha.
    repeat (match type of Ha with context [ok_or ?o _] => destruct o end; cbn [ok_or] in Ha; rewrite ?bind_Ok in Ha; [|done]). done. }
  specialize (Hf (logw_layers geom) 0%N). destruct (foldM (add_layer_size (A:=A)) 0%N (logw_layers geom)) as [t| |]; [|done..]. mstep.
  destruct (N.ltb _ _); [done|]. cbn [reject_if]. mstep.
  apply total_bind; [by apply total_layers|intros ls; apply total_ret].
Qed.

Section codec.
Context {A : Type} `{SerializableFieldLaws A} `{SubfieldLaws A}.

(** The proof has the shape of the geometry. *)
Record zk_fits (p : ZkProof A) (geom : ZkProofGeometry) : Prop := {
  zf_root : length (com p) = 32;
  zf_sumcheck : proof_shape (sumcheck_proof p) (sc_geom geom) = true;
  zf_ligero : fits (com_proof p) (com_geom geom)
}.

(** C22: round trip of the combined proof.  A proof with the shape of the
    geometry (fewer than 2^25 opened values and sizes that do not overflow) is
    written without error or panic, and reading the bytes back returns the
    proof and leaves whatever follows. *)
Theorem zk_proof_round_trip (p : ZkProof A) geom (rest : list u8) :
  zk_fits p geom -> geometry_ok (A:=A) (sc_geom geom) ->
  (N.of_nat (g_nreq (com_geom geom) * g_nrow (com_geom geom)) < ligero_proof.MAX_RUN_LEN)%N ->
  exists bs, zk_proof.write p geom = Ok bs /\ zk_proof.read geom (bs ++ rest) = Ok (p, rest).
Proof.
  intros [Hr Hs Hl] Hg Hm. destruct (ligero_write_read _ _ Hl Hm) as (out & Hw & Hp).
  exists (com p ++ enc_proof (sumcheck_proof p) ++ out). split.
  - unfold zk_proof.write, zk_proof.write_to_buf. cbv zeta. rewrite write_to_buf_ok by (done || apply Hg). mstep.
    rewrite Hw. by rewrite <- !app_assoc.
  - assert (parses (R:=list u8) (zk_proof.read geom) (com p ++ enc_proof (sumcheck_proof p) ++ out) p) as Hz.
    { unfold zk_proof.read. eapply parses_bind; [by apply parses_bytes_32|].
      eapply parses_bind; [by apply read_proof_ok|]. eapply parses_bind_ret; [exact Hp|]. by destruct p. }
    destruct (Hz _ rest eq_refl) as (s' & E & Hs'). cbn in Hs'. by subst s'.
Qed.

(** C23: no proof has two encodings, and no input makes the reader panic or
    loop.  When element decoding does not panic, [read] answers on every byte
    string; an accepted string is, up to the rest left unread, what [write]
    produces for the proof returned, whose shape is the geometry's: the
    alternating runs of the opened values admit no padding, no empty run and
    no full-size encoding of a subfield element. *)
Theorem zk_proof_canonical `{!CanonicalField A} geom (s : list u8) :
  (forall bs, bytes_to_element (E:=A) bs <> Panic) -> (forall bs, sf_bytes_to_element (E:=A) bs <> Panic) ->
  zk_proof.read (E:=A) geom s <> Panic /\
  forall (p : ZkProof A) s', zk_proof.read geom s = Ok (p, s') ->
    zk_fits p geom /\ exists bs, zk_proof.write p geom = Ok bs /\ s = bs ++ s'.
Proof.
  intros Hd Hsd. split.
  { unfold zk_proof.read. apply total_bind; [apply total_bytes_32|intros ?]. apply total_bind; [by apply total_proof|intros ?].
    apply total_bind; [by apply total_read|intros ?]. apply total_ret. }
  intros p s' Hr. unfold zk_proof.read in Hr.
  apply reader_bind_inv in Hr as (root & s1 & Hroot & Hr). pose proof (read_bytes_32_length _ _ _ Hroot) as Hl.
  apply canonical_bytes_32 in Hroot as ->.
  apply reader_bind_inv in Hr as (sp & s2 & Hsp & Hr). pose proof (read_proof_sane _ _ _ _ Hsp) as Hsane.
  apply canonical_proof in Hsp as [-> Hsh].
  apply reader_bind_inv in Hr as (cp & s3 & Hcp & Hr). injection Hr as <- <-.
  apply ligero_canonical in Hcp as (Hfit & out & Hw & ->).
  split; [by split|]. exists (root ++ enc_proof sp ++ out). split; [|by rewrite <- !app_assoc].
  unfold zk_proof.write, zk_proof.write_to_buf. cbv zeta. cbn [com sumcheck_proof com_proof app].
  rewrite write_to_buf_ok by done. mstep. rewrite Hw. by rewrite <- !app_assoc.
Qed.
End codec.

(** ** The two-element subfield of GF(2^128), one byte per element *)
Definition gf_bits : Subfield Gf2_128 := {|
  sf_to_bytes Err e := if bool_decide (e = gf 0) then Ok [x00] else if bool_decide (e = gf 1) then Ok [x01] else Panic;
  sf_contains e := bool_decide (e = gf 0) || bool_decide (e = gf 1);
  sf_serialized_size_bytes := 1;
  sf_bytes_to_element bs :=
    match bs with [x00] => Ok (gf 0) | [x01] => Ok (gf 1) | _ => Err "not a bit"%string end;
  sf_sample G rng g := '(bs, g) ← rng 1 g; mret (if bool_decide (bs = [x01]) then gf 1 else gf 0, g)
|}.
#[local] Existing Instance gf_bits.
#[local] Instance gf_bits_laws : SubfieldLaws Gf2_128.
Proof.
  split.
  - intros e He. cbn [sf_contains gf_bits] in He. apply orb_true_iff in He as [He|He]; apply bool_decide_eq_true in He as ->.
    + exists [x00]. split; [reflexivity|]. split; reflexivity.
    + exists [x01]. split; [intros Err; vm_compute; reflexivity|]. split; reflexivity.
  - intros bs e He. cbn [sf_bytes_to_element gf_bits] in He. repeat case_match; try discriminate He; injection He as <-; reflexivity.
Qed.
Lemma gf_bits_decodes bs : sf_bytes_to_element (E:=Gf2_128) bs <> Panic.
Proof. cbn [sf_bytes_to_element gf_bits]. by repeat case_match. Qed.
Lemma gf_decodes bs : bytes_to_element (E:=Gf2_128) bs <> Panic.
Proof. cbn [bytes_to_element Gf2_128_SerializableField]. unfold gf_bytes_to_element. by destruct (negb _). Qed.

(** One layer without rounds; four opened values, in and out of the
    subfield. *)
Module Small.
Definition geometry : ZkProofGeometry :=
  {| sc_geom := {| logw_layers := [0] |};
     com_geom := {| g_block := 2; g_dblock := 3; g_r := 1; g_block_enc := 5; g_nrow := 4; g_nreq := 1; g_mc_pathlen := 2 |} |}.
Definition digest : list u8 := replicate 32 x07.
Definition proof : ZkProof Gf2_128 :=
  {| sumcheck_proof := {| proof_layers := [{| hp := ([], []); claims := (gf 5, gf 6) |}] |};
     com := digest;
     com_proof := {| y_ldt := [gf 1; gf 2]; y_dot := [gf 3; gf 4; gf 5]; y_quad_0 := [gf 6]; y_quad_2 := [gf 7];
       req := [gf 1; gf 0; gf 9; gf 1]; merkle := {| mp_nonce := [digest]; mp_path := [digest; digest] |} |} |}.
Lemma proof_fits : zk_fits proof geometry.
Proof.
  split; [reflexivity|reflexivity|].
  split; cbn; try reflexivity; try lia; repeat constructor.
Qed.
Lemma geometry_fits : geometry_ok (A:=Gf2_128) (sc_geom geometry).
Proof. split; [repeat constructor|vm_compute; reflexivity]. Qed.
End Small.

Lemma zk_proof_round_trip_witness :
  exists bs, zk_proof.write Small.proof Small.geometry = Ok bs /\
    zk_proof.read Small.geometry (bs ++ [x00]) = Ok (Small.proof, [x00]).
Proof. apply zk_proof_round_trip; [exact Small.proof_fits|exact Small.geometry_fits|reflexivity]. Defined.

Definition small_bytes : list u8 := match zk_proof.write Small.proof Small.geometry with Ok bs => bs | _ => [] end.
Lemma small_reads : zk_proof.read Small.geometry (small_bytes ++ [x2a]) = Ok (Small.proof, [x2a]).
Proof. vm_compute. reflexivity. Qed.
Lemma zk_proof_canonical_witness :
  zk_proof.read (E:=Gf2_128) Small.geometry [x01; x02] <> Panic /\
  exists bs, zk_proof.write Small.proof Small.geometry = Ok bs /\ small_bytes ++ [x2a] = bs ++ [x2a].
Proof.
  split; [apply (zk_proof_canonical Small.geometry [x01; x02] gf_decodes gf_bits_decodes)|].
  exact (proj2 (proj2 (zk_proof_canonical Small.geometry (small_bytes ++ [x2a]) gf_decodes gf_bits_decodes) Small.proof [x2a] small_reads)).
Defined.
