(* ===== verification/Scope.v ===== *)
(** * Assertion scopes ([src/rust/compile/logic/src/scope.rs])

    Every assertion of a circuit has an identifier and a path of scope names.
    Identifiers whose assertions were found to be the same are merged in a
    disjoint-set forest with path compression; names are interned in a tree of
    scopes.  A directly evaluated assertion passes or fails; the queries at the
    end select the paths by what became of them. *)
From stdpp Require Import prelude gmap sorting strings.
From Stdlib Require Import Lia NArith Ascii.
From S2P Require Import Prelude.

(** [AssertionId] and [ScopeId]; zero is the nil identifier and the empty
    scope. *)
Definition AssertionId : Type := nat.
Definition NIL_ASSERTION_ID : AssertionId := 0.
Definition is_nil (id : AssertionId) : bool := id =? 0.
Definition ScopeId : Type := nat.
Inductive AssertionStatus := Passed | Failed (message : string).
#[export] Instance AssertionStatus_eq_dec : EqDecision AssertionStatus.
Proof. solve_decision. Defined.
Definition passes (status : AssertionStatus) : bool := match status with Passed => true | Failed _ => false end.

(** ** The tree of scopes *)
Inductive ScopeNode := Empty | Cons (name : string) (next : ScopeId).
Record ScopeTree := { scopes : list ScopeNode; children : gmap ScopeId (gmap string ScopeId) }.

Module tree.
Definition new : ScopeTree := {| scopes := [Empty]; children := ∅ |}.
Definition empty_scope : ScopeId := 0.
Definition cons (t : ScopeTree) (name : string) (parent : ScopeId) : ScopeId * ScopeTree :=
  match children t !! parent ≫= fun child_map => child_map !! name with
  | Some id => (id, t)
  | None =>
      let id := length (scopes t) in
      (id, {| scopes := scopes t ++ [Cons name parent];
              children := <[parent := <[name := id]> (default ∅ (children t !! parent))]> (children t) |})
  end.

(** [while scope_id.0 != 0]: parents come before their children, so the number
    of scopes is fuel enough. *)
Fixpoint resolve_loop (fuel : nat) (t : ScopeTree) (scope_id : ScopeId) : list string :=
  match fuel with
  | O => []
  | S fuel =>
      if scope_id =? 0 then []
      else match scopes t !! scope_id with
           | Some (Cons name next) => name :: resolve_loop fuel t next
           | _ => []
           end
  end.
Definition resolve_path (t : ScopeTree) (scope_id : ScopeId) : list string :=
  resolve_loop (length (scopes t)) t scope_id.
End tree.

(** ** Records and the forest *)
Record AssertionRecord := { r_scope : ScopeId; r_parent : AssertionId }.
Record AssertionScope := {
  records : list AssertionRecord;
  members : gmap AssertionId (list AssertionId);
  names : ScopeTree
}.

Definition set_parent (r : AssertionRecord) (p : AssertionId) : AssertionRecord :=
  {| r_scope := r_scope r; r_parent := p |}.
Definition parent_of (rs : list AssertionRecord) (id : AssertionId) : AssertionId :=
  match rs !! id with Some r => r_parent r | None => NIL_ASSERTION_ID end.

(** The two loops of [find_rep]: climb to the root, then point the path at
    it.  A path has at most as many records as there are. *)
Fixpoint climb (fuel : nat) (rs : list AssertionRecord) (root : AssertionId) : AssertionId :=
  match fuel with
  | O => root
  | S fuel =>
      let p := parent_of rs root in
      if negb (p =? root) && negb (is_nil p) then climb fuel rs p else root
  end.
Fixpoint compress (fuel : nat) (rs : list AssertionRecord) (root curr : AssertionId)
  : list AssertionRecord :=
  match fuel with
  | O => rs
  | S fuel =>
      if negb (curr =? root) && negb (is_nil curr) then
        let nxt := parent_of rs curr in
        compress fuel (alter (fun r => set_parent r root) curr rs) root nxt
      else rs
  end.
Definition find_rep (rs : list AssertionRecord) (id : AssertionId) : AssertionId * list AssertionRecord :=
  if is_nil id || (length rs <=? id) then (NIL_ASSERTION_ID, rs)
  else
    let root := climb (length rs) rs id in
    (root, compress (length rs) rs root id).

Module scope.
Definition new : AssertionScope :=
  {| records := [{| r_scope := tree.empty_scope; r_parent := NIL_ASSERTION_ID |}];
     members := ∅; names := tree.new |}.

Definition new_leaf (s : AssertionScope) (name : string) : AssertionId * AssertionScope :=
  let id := length (records s) in
  let (sc, t) := tree.cons (names s) name tree.empty_scope in
  (id, {| records := records s ++ [{| r_scope := sc; r_parent := id |}];
          members := <[id := [id]]> (members s); names := t |}).

Definition find (s : AssertionScope) (id : AssertionId) : AssertionId * AssertionScope :=
  if is_nil id then (NIL_ASSERTION_ID, s)
  else let (rep, rs) := find_rep (records s) id in
       (rep, {| records := rs; members := members s; names := names s |}).

(** [a.join("/")] *)
Fixpoint join (parts : list string) : string :=
  match parts with
  | [] => ""
  | [p] => p
  | p :: ps => p +:+ "/" +:+ join ps
  end.
Definition get_path (s : AssertionScope) (id : AssertionId) : string :=
  if is_nil id then ""
  else match records s !! id with
       | Some r => join (tree.resolve_path (names s) (r_scope r))
       | None => ""
       end.

(** One member of the class: its scope goes under [name]. *)
Definition prepend_member (name : string) (st : list AssertionRecord * ScopeTree) (member_id : AssertionId)
  : list AssertionRecord * ScopeTree :=
  let '(rs, t) := st in
  match rs !! member_id with
  | Some r =>
      let (sc, t) := tree.cons t name (r_scope r) in
      (<[member_id := {| r_scope := sc; r_parent := r_parent r |}]> rs, t)
  | None => (rs, t)
  end.
Definition prepend_scope (s : AssertionScope) (id : AssertionId) (name : string) : AssertionScope :=
  if is_nil id then s
  else
    let (rep, rs) := find_rep (records s) id in
    let s := {| records := rs; members := members s; names := names s |} in
    if is_nil rep then s
    else match members s !! rep with
         | Some ms =>
             let '(rs, t) := foldl (prepend_member name) (records s, names s) ms in
             {| records := rs; members := members s; names := t |}
         | None => s
         end.

Definition union (s : AssertionScope) (id1 id2 : AssertionId) : AssertionScope :=
  if is_nil id1 || is_nil id2 then s
  else
    let (rep1, rs) := find_rep (records s) id1 in
    let (rep2, rs) := find_rep rs id2 in
    let s := {| records := rs; members := members s; names := names s |} in
    if is_nil rep1 || is_nil rep2 || (rep1 =? rep2) then s
    else
      let rs := alter (fun r => set_parent r rep1) rep2 rs in
      match members s !! rep2 with
      | Some m2 =>
          let ms := delete rep2 (members s) in
          {| records := rs; members := <[rep1 := default [] (ms !! rep1) ++ m2]> ms; names := names s |}
      | None => {| records := rs; members := members s; names := names s |}
      end.

(** ** Queries

    [fates] tells what became of the assertions that were evaluated. *)
Definition is_ok (fates : gmap AssertionId AssertionStatus) : bool := forallb (fun p => passes p.2) (map_to_list fates).
Definition is_err (fates : gmap AssertionId AssertionStatus) : bool := negb (is_ok fates).

(** [path.strip_prefix(prefix).is_some_and(|suffix| suffix.starts_with('/'))] *)
Fixpoint below (prefix path : string) : bool :=
  match prefix, path with
  | EmptyString, String c _ => Ascii.eqb c "/"%char
  | String c prefix, String d path => Ascii.eqb c d && below prefix path
  | _, EmptyString => false
  end.
Definition path_matches (path prefix : string) : bool :=
  bool_decide (path = prefix) || bool_decide (prefix = ""%string) || below prefix path.

Definition id_le (p q : AssertionId * AssertionStatus) : Prop := p.1 <= q.1.
#[export] Instance id_le_dec p q : Decision (id_le p q).
Proof. unfold id_le. apply _. Defined.
Definition sorted_fates (fates : gmap AssertionId AssertionStatus) : list (AssertionId * AssertionStatus) :=
  merge_sort id_le (map_to_list fates).
(** A class has failed when a member has. *)
Definition group_step (st : list AssertionRecord * gmap AssertionId AssertionStatus * list AssertionId)
    (entry : AssertionId * AssertionStatus) :=
  let '(rs, group_fates, reps) := st in
  let '(id, fate) := entry in
  let (rep, rs) := find_rep rs id in
  if is_nil rep then (rs, group_fates, reps)
  else match group_fates !! rep with
       | None => (rs, <[rep := fate]> group_fates, reps ++ [rep])
       | Some _ =>
           (rs, match fate with Failed _ => <[rep := fate]> group_fates | Passed => group_fates end, reps)
       end.
(** Members are records. *)
Definition member_paths (s : AssertionScope) (rs : list AssertionRecord) (path_prefix : string)
    (fate : AssertionStatus) (members : list AssertionId) : list (string * AssertionStatus) :=
  omap (fun member_id =>
    match rs !! member_id with
    | Some r =>
        let full_path := join (tree.resolve_path (names s) (r_scope r)) in
        if path_matches full_path path_prefix then Some (full_path, fate) else None
    | None => None
    end) members.
Definition query_fates (s : AssertionScope) (path_prefix : string) (fates : gmap AssertionId AssertionStatus)
  : list (string * AssertionStatus) * AssertionScope :=
  let '(rs, group_fates, reps) := foldl group_step (records s, ∅, []) (sorted_fates fates) in
  (concat (map (fun rep =>
     match group_fates !! rep, members s !! rep with
     | Some fate, Some ms => member_paths s rs path_prefix fate ms
     | _, _ => []
     end) reps),
   {| records := rs; members := members s; names := names s |}).

Definition all_paths (s : AssertionScope) (fates : gmap AssertionId AssertionStatus) : list string * AssertionScope :=
  let (res, s) := query_fates s "" fates in (map fst res, s).
Definition passed_paths (s : AssertionScope) (fates : gmap AssertionId AssertionStatus) : list string * AssertionScope :=
  let (res, s) := query_fates s "" fates in (map fst (filter (fun p => passes p.2) res), s).
Definition failed_paths (s : AssertionScope) (fates : gmap AssertionId AssertionStatus) : list string * AssertionScope :=
  let (res, s) := query_fates s "" fates in (map fst (filter (fun p => negb (passes p.2)) res), s).
Definition assert_all_passed (s : AssertionScope) (fates : gmap AssertionId AssertionStatus)
  : outcome Empty_set AssertionScope :=
  let (failed, s) := failed_paths s fates in
  rust_assert (is_ok fates && match failed with [] => true | _ => false end) ;;
  Ok s.
Definition assert_all_passed_at (s : AssertionScope) (expected_path : string) (fates : gmap AssertionId AssertionStatus)
  : outcome Empty_set AssertionScope :=
  let (res, s) := query_fates s expected_path fates in
  rust_assert (match filter (fun p => negb (passes p.2)) res with [] => true | _ => false end) ;;
  let (res, s) := query_fates s expected_path fates in
  rust_assert (negb (match filter (fun p => passes p.2) res with [] => true | _ => false end)) ;;
  Ok s.
Definition assert_any_failed_at (s : AssertionScope) (expected_path : string) (fates : gmap AssertionId AssertionStatus)
  : outcome Empty_set AssertionScope :=
  rust_assert (is_err fates) ;;
  let (fates_res, s) := query_fates s expected_path fates in
  rust_assert (existsb (fun p => bool_decide (p.1 = expected_path)) fates_res) ;;
  Ok s.
End scope.
