(* ===== verification/Segment.v ===== *)
(** * Segmentation of layers ([src/rust/compile/compiler/src/segment.rs])

    Re-encodes a layer's sequence of delta indices as runs and tokens with
    frequent runs first, and renumbers deltas, segments and constants by
    frequency. *)
From stdpp Require Import prelude gmap sorting strings.
From Stdlib Require Import Lia NArith ZifyNat.
From S2P Require Import Prelude Words Interfaces DeltaTable Circuit LFCFacts Gf2_128 CodecTheorems Field Gf2_128Facts SumcheckV1.

Definition W : nat := 32.
Definition BASE : N := 0x100000001b3.

(** [h.wrapping_mul(BASE).wrapping_add(t as u64)] *)
Definition wrap64 (x : N) : N := (x mod 2 ^ 64)%N.
Definition hash_step (h t : N) : N := wrap64 (wrap64 (h * BASE) + t).
Definition window_hash {E} (terms : list N) (i : nat) : outcome E N :=
  foldM (fun h j => t ← index terms (i + j); mret (hash_step h t)) 0%N (seq 0 W).

(** [*v[i] += 1] *)
Definition increment {E} (counts : list nat) (i : nat) : outcome E (list nat) :=
  c ← index counts i; store counts i (S c).

(** ** Pass 1: runs of 32 indices that occur more than once *)
Definition count_window {E} (terms : list N) (counts : gmap N (nat * nat)) (i : nat)
  : outcome E (gmap N (nat * nat)) :=
  h ← window_hash terms i;
  mret (match counts !! h with
        | Some (c, first_idx) => <[h := (S c, first_idx)]> counts
        | None => <[h := (1, i)]> counts
        end).

Record Candidate := { cand_hash : N; cand_count : nat; cand_first : nat }.
Definition candidate_le (a b : Candidate) : Prop :=
  cand_count b < cand_count a \/ (cand_count a = cand_count b /\ cand_first a <= cand_first b).
#[export] Instance candidate_le_dec : RelDecision candidate_le.
Proof. intros a b. unfold candidate_le. apply _. Defined.

Definition push_candidate {E} (terms : list N) (st : list (list N) * gmap N N) (c : Candidate)
  : outcome E (list (list N) * gmap N N) :=
  let '(macro_segments, macro_hash_map) := st in
  let seg_id := wrap32 (N.of_nat (length macro_segments)) in
  seg ← slice terms (cand_first c) (cand_first c + W);
  mret (macro_segments ++ [seg], <[cand_hash c := seg_id]> macro_hash_map).

(** The windows start at the multiples of 32 that leave room for one.  The
    order in which the map yields its entries does not matter: first indices
    differ, so the sort decides. *)
Definition find_macros {E} (terms : list N) : outcome E (list (list N) * gmap N N) :=
  if W <=? length terms then
    hash_counts ← foldM (count_window terms) ∅ (map (fun k => W * k) (seq 0 (length terms / W)));
    let candidate_hashes :=
      map (fun e => {| cand_hash := e.1; cand_count := e.2.1; cand_first := e.2.2 |})
        (filter (fun e : N * (nat * nat) => 2 <= e.2.1) (map_to_list hash_counts)) in
    foldM (push_candidate terms) ([], ∅) (merge_sort candidate_le candidate_hashes)
  else mret ([], ∅).

(** ** Pass 2: tokens *)
Record Segments := {
  raw_segments : list (list N);
  seg_dedup : gmap (list N) N;
  final_tokens : list N
}.
Definition push_segment (s : Segments) (seg : list N) : Segments :=
  match seg_dedup s !! seg with
  | Some seg_id =>
      {| raw_segments := raw_segments s; seg_dedup := seg_dedup s;
         final_tokens := final_tokens s ++ [seg_id] |}
  | None =>
      let id := wrap32 (N.of_nat (length (raw_segments s))) in
      {| raw_segments := raw_segments s ++ [seg]; seg_dedup := <[seg := id]> (seg_dedup s);
         final_tokens := final_tokens s ++ [id] |}
  end.
Definition push_literals (s : Segments) (literal_buf : list N) : Segments :=
  match literal_buf with [] => s | _ => push_segment s literal_buf end.

(** The macro that starts at [idx], if any. *)
Definition match_macro {E} (terms : list N) (macros : list (list N)) (hashes : gmap N N) (idx : nat)
  : outcome E (option N) :=
  if (idx + W <=? length terms) && negb (bool_decide (hashes = ∅)) then
    h ← window_hash terms idx;
    match hashes !! h with
    | Some m_id =>
        window ← slice terms idx (idx + W);
        macro ← index macros (N.to_nat m_id);
        mret (if bool_decide (window = macro) then Some m_id else None)
    | None => mret None
    end
  else mret None.

(** [while idx < terms.len()]: one unit of fuel per iteration. *)
Fixpoint tokenize {E} (fuel : nat) (terms : list N) (macros : list (list N)) (hashes : gmap N N)
    (idx : nat) (literal_buf : list N) (s : Segments) : outcome E Segments :=
  if length terms <=? idx then mret (push_literals s literal_buf)
  else match fuel with
  | O => Panic
  | S fuel =>
      matched_macro ← match_macro terms macros hashes idx;
      match matched_macro with
      | Some m_id =>
          let s := push_literals s literal_buf in
          macro ← index macros (N.to_nat m_id);
          tokenize fuel terms macros hashes (idx + W) [] (push_segment s macro)
      | None =>
          t ← index terms idx;
          let literal_buf := literal_buf ++ [t] in
          if length literal_buf =? W
          then tokenize fuel terms macros hashes (idx + 1) [] (push_segment s literal_buf)
          else tokenize fuel terms macros hashes (idx + 1) literal_buf s
      end
  end.

(** ** Pass 3: renumbering by frequency *)
(** [sort_by(|a, b| counts[b].cmp(&counts[a]).then(a.cmp(b)))] on indices. *)
Definition more_frequent (counts : list nat) (a b : nat) : Prop :=
  counts !!! b < counts !!! a \/ (counts !!! a = counts !!! b /\ a <= b).
#[export] Instance more_frequent_dec counts : RelDecision (more_frequent counts).
Proof. intros a b. unfold more_frequent. apply _. Defined.
Definition frequency_order (counts : list nat) (n : nat) : list nat :=
  merge_sort (more_frequent counts) (seq 0 n).

(** [for (new_idx, old_idx) in order: old_to_new[old_idx] = new_idx as u32;
    sorted.push(xs[old_idx])] *)
Definition renumber {E X} (xs : list X) (order : list nat) : outcome E (list N * list X) :=
  foldM (fun '(old_to_new, sorted) '(new_idx, old_idx) =>
    old_to_new ← store old_to_new old_idx (wrap32 (N.of_nat new_idx));
    x ← index xs old_idx;
    mret (old_to_new, sorted ++ [x])) (replicate (length xs) 0%N, []) (imap pair order).

Definition rename {E} (old_to_new : list N) (ids : list N) : outcome E (list N) :=
  mapM (fun i => index old_to_new (N.to_nat i)) ids.

Definition segment_layer {E} (layer : Layer) : outcome E Layer :=
  terms ← for_each_delta_index layer (fun ts idx => mret (ts ++ [idx])) [];
  match terms with
  | [] => mret {| nw := nw layer; logw := logw layer; deltas := []; delta_segments := []; delta_tokens := [] |}
  | _ =>
      '(macro_segments, macro_hash_map) ← find_macros terms;
      s ← tokenize (length terms) terms macro_segments macro_hash_map 0 []
            {| raw_segments := []; seg_dedup := ∅; final_tokens := [] |};
      delta_counts ← foldM (fun counts tok =>
          seg ← index (raw_segments s) (N.to_nat tok);
          foldM (fun counts d_idx => increment counts (N.to_nat d_idx)) counts seg)
        (replicate (length (deltas layer)) 0) (final_tokens s);
      '(old_to_new_delta, sorted_deltas) ←
        renumber (deltas layer) (frequency_order delta_counts (length (deltas layer)));
      raw_segs ← mapM (rename old_to_new_delta) (raw_segments s);
      seg_counts ← foldM (fun counts tok => increment counts (N.to_nat tok))
        (replicate (length raw_segs) 0) (final_tokens s);
      '(old_to_new_seg, sorted_segments) ←
        renumber raw_segs (frequency_order seg_counts (length raw_segs));
      tokens ← rename old_to_new_seg (final_tokens s);
      mret {| nw := nw layer; logw := logw layer; deltas := sorted_deltas;
              delta_segments := sorted_segments; delta_tokens := tokens |}
  end.

(** ** Circuits *)
Definition count_constants {E} (counts : list nat) (layer : Layer) : outcome E (list nat) :=
  for_each_delta_index layer (fun counts d_idx =>
    d ← index (deltas layer) (N.to_nat d_idx);
    increment counts (N.to_nat (d_k_index d))) counts.

Definition renumber_constants {E} (old_to_new_const : list N) (layer : Layer) : outcome E Layer :=
  ds ← mapM (fun d =>
    k ← index old_to_new_const (N.to_nat (d_k_index d));
    mret {| d_g := d_g d; d_h := d_h d; d_k_index := k |}) (deltas layer);
  mret {| nw := nw layer; logw := logw layer; deltas := ds;
          delta_segments := delta_segments layer; delta_tokens := delta_tokens layer |}.

Definition segment_circuit {A E} `{SerializableField A} `{Sha256} (circuit : Circuit A)
  : outcome E (Circuit A) :=
  compressed_layers ← mapM segment_layer (layers (raw circuit));
  let num_constants := length (constants (raw circuit)) in
  const_counts ← foldM count_constants (replicate num_constants 0) compressed_layers;
  '(old_to_new_const, sorted_constants) ←
    renumber (constants (raw circuit)) (frequency_order const_counts num_constants);
  compressed_layers ← mapM (renumber_constants old_to_new_const) compressed_layers;
  let new_raw := {|
    ninput := ninput (raw circuit); npublic_input := npublic_input (raw circuit);
    noutput := noutput (raw circuit); logv := logv (raw circuit);
    subfield_boundary := subfield_boundary (raw circuit);
    constants := sorted_constants; layers := compressed_layers |} in
  new_id ← compute_id new_raw;
  rust_assert (bool_decide (new_id = id circuit)) ;;
  mret {| raw := new_raw; id := id circuit |}.

(** ** Facts about segmentation

    The tokens of the new layer expand to the sequence of delta indices of the
    old one, and every renumbering is a bijection; hence segmentation preserves every
    layer. *)
(** ** Counters and renumbering *)
Section generic.
Context {Err : Type}.

Lemma increment_ok (counts : list nat) i : i < length counts ->
  exists counts', increment (E:=Err) counts i = Ok counts' /\ length counts' = length counts.
Proof.
  intros Hi. unfold increment. destruct (lookup_lt_is_Some_2 _ _ Hi) as [c Hc].
  rewrite (index_lookup _ _ _ Hc). mstep. rewrite store_Ok by done. eexists. split; [done|]. apply length_insert.
Qed.
Lemma increments_ok {X} (f : X -> nat) (xs : list X) : forall counts : list nat,
  Forall (fun x => f x < length counts) xs ->
  exists counts', foldM (fun counts x => increment (E:=Err) counts (f x)) counts xs = Ok counts' /\ length counts' = length counts.
Proof.
  induction xs as [|x xs IH]; intros counts Hf; [by exists counts|]. apply Forall_cons in Hf as [Hx Hf]. cbn [foldM].
  destruct (increment_ok counts _ Hx) as (c1 & -> & Hl). mstep. destruct (IH c1) as (c2 & -> & Hl2); [by rewrite Hl|].
  exists c2. split; [done|lia].
Qed.

Lemma frequency_order_perm counts n : frequency_order counts n ≡ₚ seq 0 n.
Proof. apply merge_sort_Permutation. Qed.

Lemma wrap32_id n : (N.of_nat n < 2 ^ 32)%N -> wrap32 (N.of_nat n) = N.of_nat n.
Proof. apply wrap32_small. Qed.

(** The result of renumbering by a permutation. *)
Record renumbered {X} (xs : list X) (old_to_new : list N) (sorted : list X) : Prop := {
  rn_length : length old_to_new = length xs;
  rn_perm : sorted ≡ₚ xs;
  rn_lookup old x : xs !! old = Some x -> exists n, old_to_new !! old = Some n /\ sorted !! N.to_nat n = Some x;
  rn_inj i j n : old_to_new !! i = Some n -> old_to_new !! j = Some n -> i = j
}.

Lemma renumber_ok {X} (xs : list X) order :
  order ≡ₚ seq 0 (length xs) -> (N.of_nat (length xs) <= 2 ^ 32)%N ->
  exists old_to_new sorted, renumber (E:=Err) xs order = Ok (old_to_new, sorted) /\ renumbered xs old_to_new sorted.
Proof.
  intros Hp Hs. pose proof (Permutation_length Hp) as Hlen. rewrite length_seq in Hlen.
  assert (NoDup order) as Hnd by (rewrite Hp; apply NoDup_seq).
  assert (forall o, o ∈ order -> o < length xs) as Hin by (intros o Ho; rewrite Hp, elem_of_seq in Ho; lia).
  unfold renumber.
  destruct (foldM_invariant (E:=Err) (fun (done : list (nat * nat)) (st : list N * list X) =>
      let k := length done in
      length st.1 = length xs /\ map Some st.2 = map (fun o => xs !! o) (take k order) /\
      forall j o, j < k -> order !! j = Some o -> st.1 !! o = Some (N.of_nat j))
    (fun '(old_to_new, sorted) '(new_idx, old_idx) =>
      old_to_new ← store old_to_new old_idx (wrap32 (N.of_nat new_idx));
      x ← index xs old_idx; mret (old_to_new, sorted ++ [x]))
    (imap pair order) (replicate (length xs) 0%N, [])) as ([o2n sorted] & Hr & Hl & Hm & Ho).
  - cbn. rewrite length_replicate. split_and!; [done|done|lia].
  - intros done [new old] rest [o2n sorted] Hsplit (Hl & Hm & Ho). cbn [fst snd] in *.
    assert (new = length done /\ order !! length done = Some old) as [-> Hold].
    { assert (imap pair order !! length done = Some (new, old)) as Hlk by by rewrite Hsplit, list_lookup_middle.
      rewrite list_lookup_imap in Hlk. destruct (order !! length done) as [o|] eqn:Hk; [|done]. injection Hlk as <- <-. done. }
    assert (old < length xs) as Hlt by (apply Hin; by eapply list_elem_of_lookup_2).
    rewrite store_Ok by lia. mstep. destruct (lookup_lt_is_Some_2 _ _ Hlt) as [x Hx]. rewrite (index_lookup _ _ _ Hx). mstep.
    pose proof (lookup_lt_Some _ _ _ Hold). rewrite wrap32_id by lia.
    eexists. split; [reflexivity|]. cbn [fst snd]. rewrite length_app, length_insert. cbn [length].
    split_and!; [done| |].
    + rewrite Nat.add_1_r, (take_S_r _ _ _ Hold), !map_app, Hm. cbn. by rewrite Hx.
    + intros j o Hj Hjo. destruct (decide (j = length done)) as [->|].
      * rewrite Hold in Hjo. injection Hjo as <-. rewrite list_lookup_insert_eq by lia. done.
      * rewrite list_lookup_insert_ne; [apply Ho; [lia|done]|]. intros ->. 
        assert (j = length done) by (eapply NoDup_lookup; done). lia.
  - exists o2n, sorted. split; [exact Hr|]. cbn [fst snd] in *. rewrite length_imap, Hlen in *. rewrite take_ge in Hm by lia.
    split; [done|..].
    + apply (Permutation_map (fun o => xs !! o)) in Hp. rewrite <- Hm in Hp.
      assert (map (fun o => xs !! o) (seq 0 (length xs)) = map Some xs) as Hid.
      { apply list_eq. intros i. rewrite !list_lookup_fmap. destruct (decide (i < length xs)).
        - rewrite lookup_seq_lt by lia. cbn. destruct (lookup_lt_is_Some_2 xs i) as [x Hx]; [lia|]. by rewrite Hx.
        - rewrite !lookup_ge_None_2 by (rewrite ?length_seq; lia). done. }
      rewrite Hid in Hp. apply (Permutation_flat_map (fun o => match o with Some a => [a] | None => [] end)) in Hp.
      assert (forall l : list X, flat_map (fun o => match o with Some a => [a] | None => [] end) (map Some l) = l) as Hc
        by (induction l as [|a l IH]; cbn; congruence).
      by rewrite !Hc in Hp.
    + intros old x Hx. assert (old ∈ order) as Hold by (rewrite Hp, elem_of_seq; apply lookup_lt_Some in Hx; lia).
      apply list_elem_of_lookup in Hold as (j & Hj). exists (N.of_nat j).
      pose proof (lookup_lt_Some _ _ _ Hj) as Hjl. split; [apply Ho; [lia|done]|].
      rewrite Nat2N.id. assert (map Some sorted !! j = map (fun o => xs !! o) order !! j) as Hmj by by rewrite Hm.
      rewrite !list_lookup_fmap, Hj in Hmj. cbn in Hmj. rewrite Hx in Hmj.
      destruct (sorted !! j); [|done]. cbn in Hmj. by injection Hmj as ->.
    + assert (forall i n, o2n !! i = Some n -> order !! N.to_nat n = Some i) as Hback.
      { intros i n Hi. assert (i ∈ order) as Hio by (rewrite Hp, elem_of_seq; apply lookup_lt_Some in Hi; lia).
        apply list_elem_of_lookup in Hio as (j & Hj). pose proof (lookup_lt_Some _ _ _ Hj).
        rewrite (Ho j i) in Hi by (lia || done). injection Hi as <-. by rewrite Nat2N.id. }
      intros i j n Hi%Hback Hj%Hback. congruence.
Qed.

Lemma rename_ok (o2n ids : list N) : Forall (fun i => N.to_nat i < length o2n) ids ->
  exists ids', rename (E:=Err) o2n ids = Ok ids' /\ Forall2 (fun i i' => o2n !! N.to_nat i = Some i') ids ids'.
Proof.
  unfold rename. induction 1 as [|i ids Hi Hf IH]; [by exists []|]. cbn [mapM].
  destruct (lookup_lt_is_Some_2 _ _ Hi) as [n Hn]. rewrite (index_lookup _ _ _ Hn). mstep.
  destruct IH as (ids' & -> & H2). mstep. eexists. split; [done|]. by constructor.
Qed.
Lemma renames_ok (o2n : list N) segs : Forall (Forall (fun i => N.to_nat i < length o2n)) segs ->
  exists segs', mapM (rename (E:=Err) o2n) segs = Ok segs' /\ Forall2 (Forall2 (fun i i' => o2n !! N.to_nat i = Some i')) segs segs'.
Proof.
  induction 1 as [|seg segs Hi Hf IH]; [by exists []|]. cbn [mapM].
  destruct (rename_ok o2n seg Hi) as (seg' & -> & H2). mstep. destruct IH as (segs' & -> & H3). mstep.
  eexists. split; [done|]. by constructor.
Qed.
End generic.

(** ** Macros *)
Section macros.
Context {Err : Type} (terms : list N) (Hsmall : (N.of_nat (length terms) < 2 ^ 32)%N).

Lemma window_hash_ok i : i + W <= length terms -> exists h, window_hash (E:=Err) terms i = Ok h.
Proof.
  intros Hi. unfold window_hash.
  destruct (foldM_invariant (E:=Err) (fun _ _ => True)
    (fun h j => t ← index terms (i + j); mret (hash_step h t)) (seq 0 W) 0%N I) as (h & Hh & _); [|by exists h].
  intros done j rest h Hs _. assert (j < W) as Hj.
  { assert (j ∈ seq 0 W) as Hin by (rewrite Hs; set_solver). apply elem_of_seq in Hin. lia. }
  destruct (lookup_lt_is_Some_2 terms (i + j)) as [t Ht]; [lia|]. rewrite (index_lookup _ _ _ Ht). mstep. by eexists.
Qed.

(** Every macro is one of the windows, and no map entry dangles. *)
Record macros_ok (macros : list (list N)) (hashes : gmap N N) : Prop := {
  mo_length : Forall (fun seg => length seg = W) macros;
  mo_hashes h m : hashes !! h = Some m -> N.to_nat m < length macros
}.

Lemma count_windows_ok ks counts : Forall (fun i => i + W <= length terms) ks ->
  map_Forall (fun _ e => e.2 + W <= length terms) counts ->
  exists counts', foldM (count_window (E:=Err) terms) counts ks = Ok counts' /\
    map_Forall (fun _ e => e.2 + W <= length terms) counts' /\ size counts' <= size counts + length ks.
Proof.
  intros Hf. revert counts. induction Hf as [|i ks Hi Hf IH]; intros counts Hc; cbn [foldM length]; [exists counts; split_and!; [done|done|lia]|].
  destruct (window_hash_ok i Hi) as (h & Hh).
  assert (exists e, count_window (E:=Err) terms counts i = Ok (<[h := e]> counts) /\ e.2 + W <= length terms) as (e & -> & He).
  { unfold count_window. rewrite Hh. mstep. destruct (counts !! h) as [[c f]|] eqn:Hl; [|by exists (1, i)].
    exists (S c, f). split; [done|]. apply (Hc h _ Hl). }
  mstep. destruct (IH (<[h := e]> counts)) as (c' & -> & Hc' & Hsz); [by apply map_Forall_insert_2|].
  exists c'. split_and!; [done|done|]. rewrite map_size_insert in Hsz. destruct (counts !! h); cbn in Hsz; lia.
Qed.

Lemma push_candidates_ok cs macros hashes : macros_ok macros hashes ->
  Forall (fun c => cand_first c + W <= length terms) cs -> length macros + length cs <= length terms ->
  exists macros' hashes', foldM (push_candidate (E:=Err) terms) (macros, hashes) cs = Ok (macros', hashes') /\ macros_ok macros' hashes'.
Proof.
  intros Hm Hf. revert macros hashes Hm. induction Hf as [|c cs Hc Hf IH]; intros macros hashes Hm Hl; cbn [foldM length] in *; [by exists macros, hashes|].
  assert (push_candidate (E:=Err) terms (macros, hashes) c
    = Ok (macros ++ [take W (drop (cand_first c) terms)], <[cand_hash c := wrap32 (N.of_nat (length macros))]> hashes)) as ->.
  { unfold push_candidate. rewrite slice_Ok by lia. mstep. by rewrite Nat.add_comm, Nat.add_sub. }
  mstep. apply IH; [|rewrite length_app; cbn; lia].
  destruct Hm as [M1 M2]. split.
  - apply Forall_app. split; [done|]. repeat constructor. rewrite length_take, length_drop. lia.
  - intros h m. rewrite length_app. cbn [length]. rewrite wrap32_id by lia. intros [[_ <-]|[_ Hh]]%lookup_insert_Some; [lia|].
    apply M2 in Hh. lia.
Qed.

Lemma find_macros_ok : exists macros hashes, find_macros (E:=Err) terms = Ok (macros, hashes) /\ macros_ok macros hashes.
Proof.
  unfold find_macros. destruct (Nat.leb_spec W (length terms)) as [Hw|Hw]; [|exists [], ∅; split; [done|split; [constructor|done]]].
  set (ks := map _ (seq 0 (length terms / W))).
  assert (length ks <= length terms) as Hkl.
  { unfold ks. rewrite length_map, length_seq. apply Nat.Div0.div_le_upper_bound. unfold W. lia. }
  destruct (count_windows_ok ks ∅) as (counts & -> & Hc & Hsz).
  { unfold ks. apply Forall_map, Forall_forall. intros k [_ Hk]%elem_of_seq. unfold W in *. dlia. }
  { apply map_Forall_empty. }
  mstep. rewrite map_size_empty in Hsz.
  set (cands := map _ _).
  apply push_candidates_ok; [split; [constructor|done]|..].
  - rewrite (merge_sort_Permutation candidate_le cands). unfold cands. apply Forall_map, Forall_forall.
    intros [h [c f]] [_ Hin]%list_elem_of_filter. apply elem_of_map_to_list in Hin. cbn. apply (Hc _ _ Hin).
  - rewrite (Permutation_length (merge_sort_Permutation candidate_le cands)). unfold cands. rewrite length_map.
    etransitivity; [apply Nat.add_le_mono_l, length_filter|]. rewrite length_map_to_list. cbn. lia.
Qed.
End macros.

(** ** Tokens *)
Section tokens.
Context {Err : Type} (terms : list N) (Hsmall : (N.of_nat (length terms) < 2 ^ 32)%N).
Context (macros : list (list N)) (hashes : gmap N N) (Hmacros : macros_ok macros hashes).

Definition expand (s : Segments) : list N :=
  concat (omap (fun tok => raw_segments s !! N.to_nat tok) (final_tokens s)).

(** The segments so far: each of 1 to 32 indices, distinct, as many as there
    are indices at most; the tokens are in range. *)
Record segments_inv (s : Segments) : Prop := {
  si_tokens : Forall (fun tok => N.to_nat tok < length (raw_segments s)) (final_tokens s);
  si_segments : Forall (fun seg => 0 < length seg <= W) (raw_segments s);
  si_dedup seg i : seg_dedup s !! seg = Some i <-> (raw_segments s !! N.to_nat i = Some seg);
  si_used i : i < length (raw_segments s) -> N.of_nat i ∈ final_tokens s;
  si_count : length (raw_segments s) <= length (final_tokens s) <= length (expand s)
}.

Lemma segments_distinct s : segments_inv s -> NoDup (raw_segments s).
Proof.
  intros Hi. apply NoDup_alt. intros i j seg Hx Hy.
  assert (forall k, raw_segments s !! k = Some seg -> seg_dedup s !! seg = Some (N.of_nat k)) as Hk
    by (intros k Hk; apply (si_dedup s Hi); by rewrite Nat2N.id).
  apply Hk in Hx, Hy. rewrite Hx in Hy. injection Hy. lia.
Qed.

Lemma omap_app_lookup (segs : list (list N)) seg toks : Forall (fun tok => N.to_nat tok < length segs) toks ->
  omap (fun tok => (segs ++ [seg]) !! N.to_nat tok) toks = omap (fun tok => segs !! N.to_nat tok) toks.
Proof.
  induction 1 as [|tok toks Ht Hf IH]; [done|]. cbn. rewrite IH, lookup_app_l by done. done.
Qed.

Lemma push_segment_ok s seg : segments_inv s -> 0 < length seg <= W -> (N.of_nat (length (expand s)) < 2 ^ 32)%N ->
  segments_inv (push_segment s seg) /\ expand (push_segment s seg) = expand s ++ seg.
Proof.
  intros [Ht Hs Hd Hu Hc] Hl Hsm. unfold push_segment. destruct (seg_dedup s !! seg) as [i|] eqn:Hi.
  - pose proof (proj1 (Hd _ _) Hi) as Hlk. pose proof (lookup_lt_Some _ _ _ Hlk).
    assert (expand {| raw_segments := raw_segments s; seg_dedup := seg_dedup s; final_tokens := final_tokens s ++ [i] |} = expand s ++ seg) as He.
    { unfold expand. cbn [raw_segments final_tokens]. rewrite omap_app, concat_app. cbn. rewrite Hlk. cbn. by rewrite app_nil_r. }
    split; [|done]. split; rewrite ?He; cbn [raw_segments seg_dedup final_tokens]; try done.
    + apply Forall_app. split; [done|]. by apply Forall_singleton.
    + intros j Hj. apply elem_of_app. left. by apply Hu.
    + rewrite !length_app. cbn. lia.
  - rewrite wrap32_id by lia. set (k := length (raw_segments s)).
    assert (expand {| raw_segments := raw_segments s ++ [seg]; seg_dedup := <[seg:=N.of_nat k]> (seg_dedup s); final_tokens := final_tokens s ++ [N.of_nat k] |} = expand s ++ seg) as He.
    { unfold expand. cbn [raw_segments final_tokens]. rewrite omap_app, concat_app, omap_app_lookup by done.
      cbn [omap list_omap]. rewrite Nat2N.id. unfold k. rewrite list_lookup_middle by done. cbn. by rewrite app_nil_r. }
    split; [|done]. split; rewrite ?He; cbn [raw_segments seg_dedup final_tokens].
    + rewrite length_app. cbn [length]. apply Forall_app. split; [eapply Forall_impl; [exact Ht|]; cbn; lia|]. repeat constructor. unfold k. lia.
    + apply Forall_app. split; [done|]. by apply Forall_singleton.
    + intros seg' i. destruct (decide (seg' = seg)) as [->|Hne].
      * rewrite lookup_insert_eq. split.
        -- intros [= <-]. rewrite Nat2N.id. unfold k. by rewrite list_lookup_middle.
        -- intros Hx. apply lookup_app_Some in Hx as [Hx|[Hge Hx]].
           ++ apply Hd in Hx. congruence.
           ++ apply list_lookup_singleton_Some in Hx as [Hx _]. f_equal. unfold k. lia.
      * rewrite lookup_insert_ne by done. rewrite Hd. split.
        -- intros Hx. by apply lookup_app_l_Some.
        -- intros Hx. apply lookup_app_Some in Hx as [Hx|[Hge Hx]]; [done|].
           apply list_lookup_singleton_Some in Hx as [_ Hx]. congruence.
    + intros j Hj. rewrite length_app in Hj. cbn [length] in Hj. apply elem_of_app.
      destruct (decide (j = k)) as [->|]; [right; by apply list_elem_of_singleton|left; apply Hu; unfold k in *; lia].
    + rewrite !length_app. cbn. lia.
Qed.
Lemma push_literals_ok s buf : segments_inv s -> length buf <= W -> (N.of_nat (length (expand s)) < 2 ^ 32)%N ->
  segments_inv (push_literals s buf) /\ expand (push_literals s buf) = expand s ++ buf.
Proof.
  intros Hs Hl Hsm. destruct buf as [|t buf]; cbn [push_literals]; [by rewrite app_nil_r|].
  apply push_segment_ok; [done| |done]. cbn [length] in *. lia.
Qed.

Lemma match_macro_ok idx : exists r, match_macro (E:=Err) terms macros hashes idx = Ok r /\
  forall m, r = Some m -> exists seg, macros !! N.to_nat m = Some seg /\ length seg = W /\
    idx + W <= length terms /\ take W (drop idx terms) = seg.
Proof.
  unfold match_macro. destruct (Nat.leb_spec (idx + W) (length terms)) as [Hi|Hi]; cbn [andb]; [|by exists None].
  destruct (negb (bool_decide (hashes = ∅))); [|by exists None].
  destruct (window_hash_ok (Err:=Err) terms Hsmall idx Hi) as (h & ->). mstep.
  destruct (hashes !! h) as [m|] eqn:Hm; [|by exists None].
  rewrite slice_Ok by lia. mstep. destruct (lookup_lt_is_Some_2 macros (N.to_nat m)) as [seg Hseg]; [by eapply mo_hashes|].
  rewrite (index_lookup _ _ _ Hseg). mstep. replace (idx + W - idx) with W by lia. case_bool_decide as Heq; [|by exists None].
  exists (Some m). split; [done|]. intros ? [= <-]. exists seg. split_and!; try done.
  pose proof (mo_length _ _ Hmacros) as Hl. rewrite Forall_forall in Hl. apply Hl. by eapply list_elem_of_lookup_2.
Qed.

Lemma tokenize_ok fuel : forall idx buf s, length terms <= idx + fuel -> idx <= length terms ->
  length buf < W -> segments_inv s -> expand s ++ buf = take idx terms ->
  exists s', tokenize (E:=Err) fuel terms macros hashes idx buf s = Ok s' /\ segments_inv s' /\ expand s' = terms.
Proof.
  induction fuel as [|fuel IH]; intros idx buf s Hf Hidx Hb Hs He; cbn [tokenize].
  all: assert (length (expand s) <= length terms) as Hel by
    (apply (f_equal length) in He; rewrite length_app, length_take in He; lia).
  all: destruct (Nat.leb_spec (length terms) idx) as [Hge|Hlt]; try lia.
  1-2: destruct (push_literals_ok s buf Hs ltac:(lia) ltac:(lia)) as [Hs' He']; eexists; split; [reflexivity|];
    split; [done|]; rewrite He', He; apply take_ge; lia.
  destruct (match_macro_ok idx) as (r & -> & Hr). mstep. destruct r as [m|].
  - destruct (Hr m eq_refl) as (seg & Hseg & Hsl & Hi & Htk). rewrite (index_lookup _ _ _ Hseg). mstep.
    destruct (push_literals_ok s buf Hs ltac:(lia) ltac:(lia)) as [Hs1 He1].
    assert (length (expand (push_literals s buf)) <= length terms) as Hel1 by (rewrite He1, He, length_take; lia).
    destruct (push_segment_ok (push_literals s buf) seg Hs1 ltac:(unfold W in *; lia) ltac:(lia)) as [Hs2 He2].
    apply IH; [unfold W in *; lia|lia|unfold W; cbn; lia|done|].
    rewrite He2, He1, He, app_nil_r, <- Htk. apply take_take_drop.
  - destruct (lookup_lt_is_Some_2 terms idx Hlt) as [t Ht]. rewrite (index_lookup _ _ _ Ht). mstep.
    assert (expand s ++ (buf ++ [t]) = take (idx + 1) terms) as He'.
    { rewrite app_assoc, He, Nat.add_1_r. by rewrite (take_S_r _ _ _ Ht). }
    destruct (Nat.eqb_spec (length (buf ++ [t])) W) as [Hw|Hw].
    + destruct (push_segment_ok s (buf ++ [t]) Hs ltac:(unfold W in *; lia) ltac:(lia)) as [Hs1 He1].
      apply IH; [lia|lia|unfold W; cbn; lia|done|]. by rewrite He1, app_nil_r.
    + apply IH; [lia|lia|rewrite length_app in *; cbn in *; lia|done|done].
Qed.
End tokens.

(** ** The layer *)
Section layer.
Context {Err : Type}.

(** Same width and the same deltas in the same order. *)
Record same_traversal (l l' : Layer) : Prop := {
  st_nw : nw l' = nw l;
  st_logw : logw l' = logw l;
  st_deltas : layer_deltas l' = layer_deltas l
}.

(** Looking up renamed indices in the reordered list. *)
Lemma renamed_lookups {X} (xs : list X) o2n sorted ids ids' :
  renumbered xs o2n sorted -> Forall (fun i => N.to_nat i < length xs) ids ->
  Forall2 (fun i i' => o2n !! N.to_nat i = Some i') ids ids' ->
  Forall (fun i' => N.to_nat i' < length sorted) ids' /\
  omap (fun i' => sorted !! N.to_nat i') ids' = omap (fun i => xs !! N.to_nat i) ids.
Proof.
  intros [_ _ Hl _] Hf H2. induction H2 as [|i i' ids ids' Hi H2 IH]; [done|].
  apply Forall_cons in Hf as [Hif Hf]. destruct (IH Hf) as [IH1 IH2].
  destruct (lookup_lt_is_Some_2 _ _ Hif) as [x Hx]. destruct (Hl _ _ Hx) as (n & Hn & Hs).
  rewrite Hi in Hn. injection Hn as <-. split.
  - constructor; [by eapply lookup_lt_Some|done].
  - cbn. by rewrite Hx, Hs, IH2.
Qed.

Lemma omap_concat {X Y} (f : X -> option Y) (ls : list (list X)) : omap f (concat ls) = concat (map (omap f) ls).
Proof. induction ls as [|l ls IH]; [done|]. cbn. by rewrite omap_app, IH. Qed.

Lemma Forall2_omap_lookup {X Y} (R : X -> Y -> Prop) xs ys toks : Forall2 R xs ys ->
  Forall2 R (omap (fun tok => xs !! N.to_nat tok) toks) (omap (fun tok => ys !! N.to_nat tok) toks).
Proof.
  intros HR. induction toks as [|tok toks IH]; [constructor|]. cbn.
  destruct (xs !! N.to_nat tok) as [x|] eqn:Hx.
  - destruct (Forall2_lookup_l _ _ _ _ _ HR Hx) as (y & -> & Hxy). by constructor.
  - rewrite (proj1 (Forall2_lookup_None _ _ _ _) HR Hx) || idtac.
    destruct (ys !! N.to_nat tok) as [y|] eqn:Hy; [|done].
    destruct (Forall2_lookup_r _ _ _ _ _ HR Hy) as (x & Hx' & _). congruence.
Qed.

Lemma collect_indices nconst l : layer_wf nconst l ->
  for_each_delta_index (E:=Err) l (fun ts idx => mret (ts ++ [idx])) [] = Ok (layer_indices l).
Proof.
  intros Hwf. rewrite (for_each_delta_index_spec nconst) by done.
  rewrite (foldM_pure _ (fun ts t => ts ++ [t])) by done. f_equal.
  enough (forall ts acc, foldl (fun ts t => ts ++ [t]) acc ts = acc ++ ts :> list N) as Hg by by rewrite Hg.
  induction ts as [|t ts IH]; intros acc; cbn; [by rewrite app_nil_r|]. by rewrite IH, <- app_assoc.
Qed.

Lemma count_deltas_ok n (segs : list (list N)) toks : Forall (fun tok => N.to_nat tok < length segs) toks ->
  Forall (Forall (fun i => N.to_nat i < n)) segs -> forall counts : list nat, length counts = n ->
  exists counts', foldM (fun counts tok => seg ← index segs (N.to_nat tok);
      foldM (fun counts d_idx => increment (E:=Err) counts (N.to_nat d_idx)) counts seg) counts toks = Ok counts' /\
    length counts' = n.
Proof.
  intros Ht Hs. induction Ht as [|tok toks Hl Ht IH]; intros counts Hc; cbn [foldM]; [by exists counts|].
  destruct (lookup_lt_is_Some_2 _ _ Hl) as [seg Hseg]. rewrite (index_lookup _ _ _ Hseg). mstep.
  destruct (increments_ok (Err:=Err) N.to_nat seg counts) as (c1 & Hc1 & Hl1).
  { rewrite Forall_forall in Hs. rewrite Hc. apply Hs. by eapply list_elem_of_lookup_2. }
  rewrite Hc1. mstep. apply IH. lia.
Qed.

Lemma segment_layer_ok nconst l : layer_wf nconst l ->
  (N.of_nat (length (layer_indices l)) < 2 ^ 32)%N -> (N.of_nat (length (deltas l)) <= 2 ^ 32)%N ->
  exists l', segment_layer (E:=Err) l = Ok l' /\ same_traversal l l' /\ layer_wf nconst l' /\
    Forall (fun seg => 0 < length seg <= W) (delta_segments l') /\ NoDup (delta_segments l') /\
    length (delta_segments l') <= length (layer_indices l) /\
    deltas l' ≡ₚ match layer_indices l with [] => [] | _ => deltas l end.
Proof.
  intros Hwf Hn Hd. pose proof (layer_indices_in_range _ _ Hwf) as Hrange.
  unfold segment_layer. rewrite (collect_indices nconst) by done. mstep.
  destruct (layer_indices l) as [|t0 ts] eqn:Hidx.
  { eexists. split; [reflexivity|]. split; [split; cbn; try done; unfold layer_deltas; by rewrite Hidx|].
    split; [split; constructor|]. split_and!; by try constructor. }
  rewrite <- Hidx in *. clear Hidx.
  destruct (find_macros_ok (Err:=Err) (layer_indices l) Hn) as (macros & hashes & -> & Hm). mstep.
  destruct (tokenize_ok (Err:=Err) (layer_indices l) Hn macros hashes Hm (length (layer_indices l)) 0 []
    {| raw_segments := []; seg_dedup := ∅; final_tokens := [] |}) as (s & -> & Hs & He); [lia|lia|cbn; unfold W; lia| |done|].
  { split; cbn; [constructor..| | |lia]; [|lia]. intros seg i. rewrite lookup_empty. split; [done|]. by destruct (N.to_nat i). }
  mstep. pose proof (segments_distinct (layer_indices l) Hn s Hs) as Hnd. destruct Hs as [S1 S2 S3 S4 S5].
  assert (Forall (Forall (fun i => N.to_nat i < length (deltas l))) (raw_segments s)) as Hsegs.
  { apply Forall_lookup. intros k seg Hk. rewrite <- He in Hrange. unfold expand in Hrange. rewrite Forall_concat in Hrange.
    rewrite Forall_forall in Hrange. apply Hrange, list_elem_of_omap. exists (N.of_nat k). rewrite Nat2N.id. split; [|done].
    apply S4. by eapply lookup_lt_Some. }
  destruct (count_deltas_ok (length (deltas l)) (raw_segments s) (final_tokens s) S1 Hsegs (replicate (length (deltas l)) 0))
    as (dc & -> & _); [apply length_replicate|]. mstep.
  destruct (renumber_ok (Err:=Err) (deltas l) _ (frequency_order_perm dc _) Hd) as (o2d & sd & -> & Hrd). mstep.
  destruct (renames_ok (Err:=Err) o2d (raw_segments s)) as (segs & -> & H2); [by rewrite (rn_length _ _ _ Hrd)|]. mstep.
  pose proof (Forall2_length _ _ _ H2) as Hsl.
  destruct (increments_ok (Err:=Err) N.to_nat (final_tokens s) (replicate (length segs) 0)) as (sc & -> & _).
  { rewrite length_replicate, <- Hsl. done. }
  mstep. rewrite <- He in Hn. destruct (renumber_ok (Err:=Err) segs _ (frequency_order_perm sc _)) as (o2s & ss & -> & Hrs); [lia|]. mstep.
  destruct (rename_ok (Err:=Err) o2s (final_tokens s)) as (toks & -> & Ht2); [by rewrite (rn_length _ _ _ Hrs), <- Hsl|]. mstep.
  eexists. split; [reflexivity|].
  destruct (renamed_lookups segs o2s ss (final_tokens s) toks Hrs) as [Htr Hto]; [by rewrite <- Hsl|done|].
  assert (forall seg seg', seg ∈ raw_segments s -> Forall2 (fun i i' => o2d !! N.to_nat i = Some i') seg seg' ->
    Forall (fun i' => N.to_nat i' < length sd) seg' /\
    omap (fun i' => sd !! N.to_nat i') seg' = omap (fun i => deltas l !! N.to_nat i) seg) as Hren.
  { intros seg seg' Hin Hs2. apply (renamed_lookups (deltas l) o2d); [done| |done]. rewrite Forall_forall in Hsegs. by apply Hsegs. }
  split; [split; cbn [nw logw deltas delta_segments delta_tokens]; [done|done|]|].
  { unfold layer_deltas, layer_indices. cbn [deltas delta_segments delta_tokens]. rewrite Hto.
    fold (layer_indices l). rewrite <- He. unfold expand. rewrite !omap_concat. f_equal.
    assert (Forall (fun seg => seg ∈ raw_segments s) (omap (fun tok => raw_segments s !! N.to_nat tok) (final_tokens s))) as Hin.
    { apply Forall_forall. intros seg (tok & _ & Hlk)%list_elem_of_omap. by eapply list_elem_of_lookup_2. }
    pose proof (Forall2_omap_lookup _ _ _ (final_tokens s) H2) as Hf2. revert Hin Hf2. clear -Hren.
    generalize (omap (fun tok => raw_segments s !! N.to_nat tok) (final_tokens s)) (omap (fun tok => segs !! N.to_nat tok) (final_tokens s)).
    intros xs. induction xs as [|seg ls IH]; intros xs' Hin Hf2; inversion Hf2 as [|? seg' ? ls' H1 H2' E1 E2]; subst; [done|].
    apply Forall_cons in Hin as [Hi Hin]. cbn. f_equal; [by apply Hren|by apply IH]. }
  assert (Forall (Forall (fun i' => N.to_nat i' < length sd)) segs) as Hsegs'.
  { apply Forall_lookup. intros k seg' Hk. destruct (Forall2_lookup_r _ _ _ _ _ H2 Hk) as (seg & Hseg & Hs2).
    eapply Hren; [by eapply list_elem_of_lookup_2|done]. }
  split; [split; cbn [deltas delta_segments delta_tokens]|cbn [deltas delta_segments delta_tokens]; split_and!].
  - done.
  - rewrite (rn_perm _ _ _ Hrs). done.
  - rewrite (rn_perm _ _ _ Hrd). apply Hwf.
  - rewrite (rn_perm _ _ _ Hrs). apply Forall_lookup. intros k seg' Hk. destruct (Forall2_lookup_r _ _ _ _ _ H2 Hk) as (seg & Hseg & Hs2).
    rewrite <- (Forall2_length _ _ _ Hs2). rewrite Forall_lookup in S2. by eapply S2.
  - rewrite (rn_perm _ _ _ Hrs). apply NoDup_alt. intros i j seg' Hi Hj.
    destruct (Forall2_lookup_r _ _ _ _ _ H2 Hi) as (x & Hx & Hx2). destruct (Forall2_lookup_r _ _ _ _ _ H2 Hj) as (y & Hy & Hy2).
    apply (NoDup_lookup (raw_segments s) i j x Hnd Hx). rewrite Hy. f_equal.
    clear -Hx2 Hy2 Hrd. revert y Hy2. induction Hx2 as [|a c x seg' Ha Hx2 IH]; intros y Hy2; inversion_clear Hy2 as [|b ? y' ? Hb Hy2']; [done|].
    f_equal; [|by apply IH]. apply N2Nat.inj. by apply (rn_inj _ _ _ Hrd _ _ c).
  - rewrite (Permutation_length (rn_perm _ _ _ Hrs)), <- Hsl, <- He. lia.
  - apply Hrd.
Qed.
End layer.

(** * Theorems: segmentation

    Segmenting a circuit keeps its expansion, its identifier and its meaning. *)

Section circuit.
Context {A : Type}.

(** Indices that fit the 32-bit integers they are stored in. *)
Record circuit_u32 (r : RawCircuit A) : Prop := {
  cu_constants : (N.of_nat (length (constants r)) <= 2 ^ 32)%N;
  cu_layers : Forall (fun l => (N.of_nat (length (layer_indices l)) < 2 ^ 32)%N
                            /\ (N.of_nat (length (deltas l)) <= 2 ^ 32)%N) (layers r)
}.

(** What one layer becomes. *)
Record segmented (nconst : nat) (l l' : Layer) : Prop := {
  sg_same : same_traversal l l';
  sg_wf : layer_wf nconst l';
  sg_runs : Forall (fun seg => 0 < length seg <= W) (delta_segments l');
  sg_distinct : NoDup (delta_segments l')
}.
Lemma segment_layers_ok {Err} (r : RawCircuit A) : circuit_wf r -> circuit_u32 r ->
  exists ls, mapM (segment_layer (E:=Err)) (layers r) = Ok ls /\ Forall2 (segmented (length (constants r))) (layers r) ls.
Proof.
  intros Hwf [_ Hs]. unfold circuit_wf in Hwf. revert Hwf Hs. generalize (layers r).
  induction l as [|l ls IH]; intros Hwf Hs; [by exists []|]. apply Forall_cons in Hwf as [Hl Hwf], Hs as [[S1 S2] Hs].
  destruct (segment_layer_ok (Err:=Err) _ l Hl S1 S2) as (l' & Hr & Ht & Hw & H1 & H2 & _).
  destruct (IH Hwf Hs) as (ls' & Hrs & Hf). exists (l' :: ls'). split; [|by constructor; [split|]].
  cbn [mapM]. rewrite Hr. mstep. rewrite Hrs. done.
Qed.

Lemma count_constants_ok {Err} (nconst : nat) (ls : list Layer) : Forall (layer_wf nconst) ls ->
  forall counts : list nat, length counts = nconst ->
  exists counts', foldM (count_constants (E:=Err)) counts ls = Ok counts' /\ length counts' = nconst.
Proof.
  induction 1 as [|l ls Hl Hf IH]; intros counts Hc; cbn [foldM]; [by exists counts|].
  destruct (increments_ok (Err:=Err) (fun d => N.to_nat (d_k_index d)) (layer_deltas l) counts) as (c1 & Hc1 & Hl1).
  { rewrite Hc. by apply layer_deltas_in_range. }
  assert (count_constants (E:=Err) counts l = Ok c1) as ->; [|mstep; apply IH; lia].
  unfold count_constants. rewrite (for_each_delta_index_spec nconst) by done.
  rewrite foldM_deltas by by eapply layer_indices_in_range. exact Hc1.
Qed.

(** ** Renumbered constants *)
Context (cs sorted : list A) (o2n : list N) (Hrn : renumbered cs o2n sorted).

Definition renamed_delta (d d' : TermDelta) : Prop :=
  d_g d' = d_g d /\ d_h d' = d_h d /\ o2n !! N.to_nat (d_k_index d) = Some (d_k_index d').

Lemma terms_from_renamed p ds ds' : Forall2 renamed_delta ds ds' ->
  Forall (fun d => N.to_nat (d_k_index d) < length cs) ds -> terms_from sorted p ds' = terms_from cs p ds.
Proof.
  intros H2. revert p. induction H2 as [|d d' ds ds' (Hg & Hh & Hk) H2 IH]; intros p Hf; [done|].
  apply Forall_cons in Hf as [Hd Hf]. cbn [terms_from].
  assert (apply_delta p d' = apply_delta p d) as -> by (destruct p as [[? ?] ?]; unfold apply_delta; by rewrite Hg, Hh).
  destruct (lookup_lt_is_Some_2 _ _ Hd) as [k Hc]. destruct (rn_lookup _ _ _ Hrn _ _ Hc) as (n & Hn & Hs).
  rewrite Hk in Hn. injection Hn as ->. rewrite Hc, Hs. by rewrite IH.
Qed.

Lemma renumber_constants_ok {Err} l : layer_wf (length cs) l ->
  exists l', renumber_constants (E:=Err) o2n l = Ok l' /\ layer_wf (length cs) l' /\
    nw l' = nw l /\ logw l' = logw l /\ delta_segments l' = delta_segments l /\
    layer_terms l' sorted = layer_terms l cs.
Proof.
  intros Hwf. pose proof Hwf as [W1 W2 W3]. unfold renumber_constants.
  assert (exists ds', mapM (fun d => k ← index (E:=Err) o2n (N.to_nat (d_k_index d));
      mret {| d_g := d_g d; d_h := d_h d; d_k_index := k |}) (deltas l) = Ok ds' /\ Forall2 renamed_delta (deltas l) ds') as (ds' & -> & H2).
  { clear -W3 Hrn. induction W3 as [|d ds Hd Hf IH]; [by exists []|]. cbn [mapM].
    rewrite <- (rn_length _ _ _ Hrn) in Hd. destruct (lookup_lt_is_Some_2 _ _ Hd) as [n Hn].
    rewrite (index_lookup _ _ _ Hn). mstep. destruct IH as (ds' & -> & H2). mstep. eexists. split; [reflexivity|]. by constructor. }
  mstep. eexists. split; [reflexivity|]. cbn [nw logw delta_segments].
  pose proof (Forall2_length _ _ _ H2) as Hl.
  split; [split; cbn [deltas delta_segments delta_tokens]; [done|by rewrite <- Hl|]|].
  { apply Forall_lookup. intros i d' Hd'. destruct (Forall2_lookup_r _ _ _ _ _ H2 Hd') as (d & Hd & _ & _ & Hk).
    rewrite Forall_lookup in W3. specialize (W3 _ _ Hd). destruct (lookup_lt_is_Some_2 _ _ W3) as [x Hx].
    destruct (rn_lookup _ _ _ Hrn _ _ Hx) as (n & Hn & Hs). rewrite Hk in Hn. injection Hn as <-.
    rewrite <- (Permutation_length (rn_perm _ _ _ Hrn)). by eapply lookup_lt_Some. }
  split_and!; [done..|]. unfold layer_terms. apply terms_from_renamed; [|by apply layer_deltas_in_range].
  unfold layer_deltas, layer_indices. cbn [deltas delta_segments delta_tokens]. by apply Forall2_omap_lookup.
Qed.
End circuit.

(** ** Evaluation depends on the expansion only *)
Lemma eval_circuit_same {E} `{AlgebraicField E} (c c' : Circuit E) (w : list E) :
  circuit_wf (raw c) -> circuit_wf (raw c') -> same_circuit (raw c) (raw c') ->
  eval_circuit w c' = eval_circuit w c.
Proof.
  intros Hwf Hwf' [_ _ Ho _ _ Hl]. unfold eval_circuit. rewrite <- (Forall2_length _ _ _ Hl).
  enough (forall ls st, Forall (fun l => l < length (layers (raw c))) ls -> foldM (eval_layer c') st ls = foldM (eval_layer c) st ls) as ->.
  { done. }
  { apply Forall_forall. intros x Hx. apply list_elem_of_In, in_rev, in_seq in Hx. lia. }
  induction ls as [|l ls IH]; intros st Hf; [done|]. apply Forall_cons in Hf as [Hlt Hf]. cbn [foldM].
  assert (eval_layer c' st l = eval_layer c st l) as ->; [|destruct (eval_layer c st l); cbn; auto].
  destruct st as [ins v]. unfold eval_layer.
  assert (forall k, k < length (layers (raw c)) -> exists a b, layers (raw c) !! k = Some a /\ layers (raw c') !! k = Some b /\
    nw b = nw a /\ layer_terms b (constants (raw c')) = layer_terms a (constants (raw c)) /\
    layer_wf (length (constants (raw c))) a /\ layer_wf (length (constants (raw c'))) b) as Hk.
  { intros k Hk. destruct (lookup_lt_is_Some_2 _ _ Hk) as [a Ha]. destruct (Forall2_lookup_l _ _ _ _ _ Hl Ha) as (b & Hb & Hnw & _ & Ht).
    exists a, b. unfold circuit_wf in Hwf, Hwf'. rewrite Forall_lookup in Hwf, Hwf'. split_and!; eauto. }
  destruct (Hk l Hlt) as (a & b & Ha & Hb & Hnw & Ht & Wa & Wb).
  assert (match l with S l' => layer ← index (layers (raw c')) l'; mret (nw layer) | O => mret (noutput (raw c')) end
    = match l with S l' => layer ← index (E:=string) (layers (raw c)) l'; mret (nw layer) | O => mret (noutput (raw c)) end) as ->.
  { destruct l as [|l']; [by rewrite Ho|]. destruct (Hk l' ltac:(lia)) as (a' & b' & Ha' & Hb' & Hnw' & _).
    rewrite (index_lookup _ _ _ Ha'), (index_lookup _ _ _ Hb'). mstep. by rewrite Hnw'. }
  rewrite (index_lookup _ _ _ Ha), (index_lookup _ _ _ Hb). 
  destruct (match l with S l' => _ | O => _ end) as [nv| |]; [|done..]. cbn [mbind outcome_bind].
  unfold eval_quad. rewrite !for_each_term_spec, Ht by done. done.
Qed.

Section segment.
Context {E : Type} `{AlgebraicField E} `{SerializableFieldLaws E} `{Sha256}.

(** C35: segmentation preserves the circuit.  On a well-formed circuit whose
    indices fit 32 bits and whose identifier is the computed one,
    [segment_circuit] does not panic, its own check that the identifier is
    unchanged included; every layer expands to the same terms in the same
    order over the reordered constants, in distinct runs of 1 to 32 indices;
    and the result evaluates to the same wires, or the same error, on every
    input. *)
Theorem segment_circuit_preserves {Err} (c : Circuit E) :
  (N.of_nat (serialized_size_bytes (E:=E)) + 24 <= ID_BUF)%N ->
  circuit_wf (raw c) -> circuit_u32 (raw c) -> compute_id (E:=Err) (raw c) = Ok (id c) ->
  exists c', segment_circuit (E:=Err) c = Ok c' /\
    same_circuit (raw c) (raw c') /\ id c' = id c /\ circuit_wf (raw c') /\
    constants (raw c') ≡ₚ constants (raw c) /\
    Forall (fun l => Forall (fun seg => 0 < length seg <= W) (delta_segments l) /\ NoDup (delta_segments l)) (layers (raw c')) /\
    forall w, eval_circuit w c' = eval_circuit w c.
Proof.
  intros Hfits Hwf Hs Hid. unfold segment_circuit.
  destruct (segment_layers_ok (Err:=Err) (raw c) Hwf Hs) as (ls & -> & Hf2). mstep.
  assert (Forall (layer_wf (length (constants (raw c)))) ls) as Hls.
  { apply Forall_lookup. intros i l' Hl'. destruct (Forall2_lookup_r _ _ _ _ _ Hf2 Hl') as (l & _ & Hsg). apply Hsg. }
  destruct (count_constants_ok (Err:=Err) _ ls Hls (replicate (length (constants (raw c))) 0)) as (counts & -> & _); [apply length_replicate|]. mstep.
  destruct (renumber_ok (Err:=Err) (constants (raw c)) _ (frequency_order_perm counts _) (cu_constants _ Hs)) as (o2n & sorted & -> & Hrn). mstep.
  assert (exists ls', mapM (renumber_constants (E:=Err) o2n) ls = Ok ls' /\
    Forall2 (fun l l' => layer_wf (length sorted) l' /\ same_layer (constants (raw c)) sorted l l' /\
      Forall (fun seg => 0 < length seg <= W) (delta_segments l') /\ NoDup (delta_segments l')) (layers (raw c)) ls') as (ls' & -> & Hf2x).
  { clear Hls Hid Hwf Hs. induction Hf2 as [|l l1 lx ly Hsg Hf2 IH]; [by exists []|]. destruct Hsg as [[Hn Hw Hd] Hwf1 Hr1 Hr2].
    destruct (renumber_constants_ok (constants (raw c)) sorted o2n Hrn (Err:=Err) l1 Hwf1) as (l2 & Hl2 & Wl2 & N2 & L2 & D2 & T2).
    destruct IH as (ls' & Hls' & HF). exists (l2 :: ls'). split; [cbn [mapM]; rewrite Hl2; mstep; by rewrite Hls'|].
    constructor; [|done]. rewrite D2, (Permutation_length (rn_perm _ _ _ Hrn)). split; [done|]. split; [|done].
    split_and!; [by rewrite N2, Hn|by rewrite L2, Hw|]. rewrite T2. unfold layer_terms. by rewrite Hd. }
  mstep. set (new_raw := {| ninput := _ |}).
  assert (circuit_wf new_raw) as Hwf'.
  { apply Forall_lookup. intros i l' Hl'. destruct (Forall2_lookup_r _ _ _ _ _ Hf2x Hl') as (l & _ & Hw & _). apply Hw. }
  assert (same_circuit (raw c) new_raw) as Hsame.
  { split; try done. eapply Forall2_impl; [exact Hf2x|]. by intros l l' (_ & ? & _). }
  rewrite compute_id_spec in Hid by done. rewrite compute_id_spec by done. mstep.
  rewrite (same_id_preimage _ _ Hsame). injection Hid as <-. rewrite bool_decide_eq_true_2 by done. cbn [rust_assert]. mstep.
  eexists. split; [reflexivity|]. cbn [raw id]. split; [done|]. split; [done|]. split; [done|].
  split; [apply Hrn|]. split; [|intros w; by apply eval_circuit_same].
  cbn [layers new_raw]. apply Forall_lookup. intros i l' Hl'. by destruct (Forall2_lookup_r _ _ _ _ _ Hf2x Hl') as (l & _ & _ & _ & ?).
Qed.
End segment.

Lemma segment_circuit_preserves_witness :
  exists c', @segment_circuit _ unit _ toy_sha256 Sample.circuit = Ok c' /\ length (layers (raw c')) = 1 /\
    eval_circuit [gf 1; gf 2; gf 3; gf 4] c' = eval_circuit [gf 1; gf 2; gf 3; gf 4] Sample.circuit.
Proof.
  destruct (@segment_circuit_preserves Gf2_128 _ _ _ toy_sha256 unit Sample.circuit) as (c' & Hc & Hs & _ & _ & _ & _ & He).
  - vm_compute. congruence.
  - constructor; [exact Sample.layer_wf_ok|constructor].
  - split; [vm_compute; congruence|]. constructor; [|constructor]. split; vm_compute; [reflexivity|congruence].
  - vm_compute. reflexivity.
  - exists c'. split; [exact Hc|]. split; [|apply He]. rewrite <- (Forall2_length _ _ _ (same_layers _ _ Hs)). reflexivity.
Defined.
