(* ===== verification/CompilerIR.v ===== *)
(** * The compiler's intermediate representation

    [src/rust/compile/compiler/src/{ir,node,arena,cse,algsimp}.rs]: expression
    nodes in an arena, the interface of rewriters, common-subexpression
    elimination, algebraic simplification and the walk that rewrites one arena
    into another. *)
From stdpp Require Import prelude gmap sorting strings.
From Stdlib Require Import Lia NArith.
From S2P Require Import Prelude Field Scope.

(** [Comparable]: some total order of field elements. *)
Class Comparable (E : Type) := compare : E -> E -> comparison.

(** ** Nodes

    A reference to a node is its identifier: its position in the arena that
    allocated it ([alloc_node] numbers nodes consecutively, and node equality
    is asserted to be identity). *)
Definition ExprNode : Type := nat.
Record AssertionItem := { ai_expr : ExprNode; ai_id : AssertionId }.
#[export] Instance AssertionItem_eq_dec : EqDecision AssertionItem.
Proof. solve_decision. Defined.

Inductive Expr (E : Type) :=
| Input (position : nat)
| Sum (elements : list ExprNode) (precious : bool)
| One
| Constant (e : E)
| Linear (e : E) (x : ExprNode)
| Quadratic (e : E) (x y : ExprNode)
| WithAssertions (assertions : list AssertionItem) (x : ExprNode).
Arguments Input {_} _. Arguments Sum {_} _ _. Arguments One {_}. Arguments Constant {_} _.
Arguments Linear {_} _ _. Arguments Quadratic {_} _ _ _. Arguments WithAssertions {_} _ _.
#[export] Instance Expr_eq_dec {E} `{EqDecision E} : EqDecision (Expr E).
Proof. solve_decision. Defined.

Record Node (E : Type) := { v : Expr E; depth : nat }.
Arguments v {_} _. Arguments depth {_} _. Arguments Build_Node {_} _ _.

(** ** The state of a rewriting pass

    The target arena, the memo table of [Cse], the memo of the copy pass and
    the assertions a stripping pass has collected.  [elt_memo] only shares
    allocations; a slice is a list. *)
Record State (E : Type) := {
  arena : list (Node E);
  memo : list (Expr E * ExprNode);
  ones : gmap nat ExprNode;
  collected : list AssertionItem
}.
Arguments arena {_} _. Arguments memo {_} _. Arguments ones {_} _. Arguments collected {_} _.
Arguments Build_State {_} _ _ _ _.

(** A pass may panic; the recursions that are not structural report when
    their fuel runs out. *)
Inductive fuel_error := OutOfFuel.
Definition comp (E A : Type) : Type := State E -> outcome fuel_error (A * State E).
#[export] Instance comp_ret {E} : MRet (comp E) := fun A a s => Ok (a, s).
#[export] Instance comp_bind {E} : MBind (comp E) := fun A B k m s =>
  match m s with Ok (a, s') => k a s' | Err e => Err e | Panic => Panic end.
Definition lift_comp {E A} (m : outcome fuel_error A) : comp E A := fun s => a ← m; Ok (a, s).

Definition out_of_fuel {E A} : comp E A := fun _ => Err OutOfFuel.

(** A loop whose iterations may change the state. *)
Fixpoint foldC {E S X} (body : S -> X -> comp E S) (s : S) (xs : list X) : comp E S :=
  match xs with
  | [] => mret s
  | x :: xs => s ← body s x; foldC body s xs
  end.

Section ir.
Context {E : Type} `{AlgebraicField E} `{!EqDecision E} `{!Comparable E}.

Definition empty_arena : State E := {| arena := []; memo := []; ones := ∅; collected := [] |}.
(** A new [Cse] over the same arena. *)
Definition new_cse (s : State E) : State E :=
  {| arena := arena s; memo := []; ones := ∅; collected := [] |}.

Definition node_of (x : ExprNode) : comp E (Node E) := fun s => n ← index (arena s) x; Ok (n, s).
Definition expr_of (x : ExprNode) : comp E (Expr E) := n ← node_of x; mret (v n).

Definition alloc_node (e : Expr E) (d : nat) : comp E ExprNode := fun s =>
  Ok (length (arena s),
      {| arena := arena s ++ [{| v := e; depth := d |}]; memo := memo s; ones := ones s; collected := collected s |}).

(** [depth_term]: terms count as one level. *)
Definition depth_term (node : Node E) : nat :=
  match v node with Input _ | One | Constant _ => 1 | _ => depth node end.
Definition max_list (ns : list nat) : nat := foldr Nat.max 0 ns.
Definition depth_expr (e : Expr E) : comp E nat :=
  match e with
  | Input _ | One | Constant _ => mret 0
  | Linear _ x => n ← node_of x; mret (1 + depth n)
  | Quadratic _ x y => n ← node_of x; m ← node_of y; mret (1 + Nat.max (depth n) (depth m))
  | WithAssertions a x =>
      ds ← mapM (fun item => n ← node_of (ai_expr item); mret (depth n)) a;
      n ← node_of x;
      mret (Nat.max (max_list ds) (depth n))
  | Sum elements _ => ds ← mapM (fun x => n ← node_of x; mret (depth_term n)) elements; mret (max_list ds)
  end.

(** ** The interface of rewriters ([RewriteT]) *)
Record RewriteT := {
  rw_ok : comp E (list ExprNode);
  rw_assert0 : ExprNode -> comp E (list ExprNode);
  rw_assertions : list (list ExprNode) -> comp E (list ExprNode);
  rw_input : nat -> comp E ExprNode;
  rw_sum : list ExprNode -> bool -> comp E ExprNode;
  rw_one : comp E ExprNode;
  rw_constant : E -> comp E ExprNode;
  rw_linear : E -> ExprNode -> comp E ExprNode;
  rw_quadratic : E -> ExprNode -> ExprNode -> comp E ExprNode;
  rw_with_assertions : list AssertionItem -> ExprNode -> comp E ExprNode
}.

(** [extract_assertions]: at most as many wrappers as nodes. *)
Fixpoint extract_assertions (fuel : nat) (x : ExprNode) : comp E (list (list AssertionItem) * ExprNode) :=
  e ← expr_of x;
  match e with
  | WithAssertions a y =>
      match fuel with
      | O => out_of_fuel
      | S fuel => '(rest, inner) ← extract_assertions fuel y; mret (a :: rest, inner)
      end
  | _ => mret ([], x)
  end.
Definition position_in_input_array (x : ExprNode) : comp E (option nat) :=
  '(_, xx) ← extract_assertions (S x) x;
  e ← expr_of xx;
  mret (match e with Input n => Some n | _ => None end).

Definition promote_sum_to_precious (x : ExprNode) (rewriter : RewriteT) : comp E ExprNode :=
  '(assertions, inner) ← extract_assertions (S x) x;
  e ← expr_of inner;
  match e with
  | Sum elements _ =>
      promoted ← rw_sum rewriter elements true;
      foldC (fun acc a => rw_with_assertions rewriter a acc) promoted (rev assertions)
  | _ => mret x
  end.

(** ** [walk] *)
Definition children_of (e : Expr E) : list ExprNode :=
  match e with
  | Input _ | One | Constant _ => []
  | Sum l _ => l
  | Linear _ x => [x]
  | Quadratic _ x y => [x; y]
  | WithAssertions a x => x :: map ai_expr a
  end.

(** [v.resize(id + 1, d)] when [id] is out of range, then [v[id] = x]. *)
Definition set_at {A} (d : A) (l : list A) (id : nat) (x : A) : list A :=
  <[id := x]> (l ++ replicate (S id - length l) d).

Record WalkState := { visited : list bool; cache : list (option ExprNode) }.
(** [cache[id].unwrap()] *)
Definition cached (w : WalkState) (id : ExprNode) : comp E ExprNode :=
  lift_comp (o ← index (cache w) id; unwrap o).

(** The assertions of a wrapper, rewritten; an expression met before in the
    same wrapper is skipped. *)
Definition walk_assertion (rewriter : RewriteT) (w : WalkState)
    (st : list ExprNode * list AssertionItem) (item : AssertionItem)
  : comp E (list ExprNode * list AssertionItem) :=
  walked_assertion ← cached w (ai_expr item);
  raw ← rw_assert0 rewriter walked_assertion;
  mret (foldl (fun '(seen, items) expr =>
          if bool_decide (expr ∈ seen) then (seen, items)
          else (seen ++ [expr], items ++ [{| ai_expr := expr; ai_id := ai_id item |}])) st raw).
Definition rewrite_node (rewriter : RewriteT) (w : WalkState) (e : Expr E) : comp E ExprNode :=
  match e with
  | Input a => rw_input rewriter a
  | One => rw_one rewriter
  | Constant e => rw_constant rewriter e
  | Sum list precious =>
      walked_list ← mapM (cached w) list;
      rw_sum rewriter walked_list precious
  | Linear e x => walked_x ← cached w x; rw_linear rewriter e walked_x
  | Quadratic e x y =>
      walked_x ← cached w x; walked_y ← cached w y; rw_quadratic rewriter e walked_x walked_y
  | WithAssertions a x =>
      '(_, walked_a) ← foldC (walk_assertion rewriter w) ([], []) a;
      walked_x ← cached w x;
      rw_with_assertions rewriter walked_a walked_x
  end.

(** The depth-first loop; the top of the stack is the head of the list. *)
Fixpoint walk_loop (fuel : nat) (rewriter : RewriteT) (src : list (Node E))
    (stack : list (ExprNode * bool)) (w : WalkState) : comp E WalkState :=
  match stack with
  | [] => mret w
  | (id, children_visited) :: stack =>
      match fuel with
      | O => out_of_fuel
      | S fuel =>
          if bool_decide (visited w !! id = Some true) then walk_loop fuel rewriter src stack w
          else
            node ← lift_comp (index src id);
            if children_visited : bool then
              let visited := set_at false (visited w) id true in
              rewritten ← rewrite_node rewriter w (v node);
              walk_loop fuel rewriter src stack
                {| visited := visited; cache := set_at None (cache w) id (Some rewritten) |}
            else
              walk_loop fuel rewriter src
                (map (fun c => (c, false)) (rev (children_of (v node))) ++ (id, true) :: stack) w
      end
  end.

(** One iteration per root, and per node one to expand it, one to rewrite it
    and one for each mention of a child. *)
Definition walk_fuel (src : list (Node E)) (roots : nat) : nat :=
  roots + sum_list_with (fun n => 2 + length (children_of (v n))) src.

Definition walk (src : list (Node E)) (assertions : list AssertionItem) (rewriter : RewriteT)
  : comp E (list AssertionItem) :=
  w ← walk_loop (walk_fuel src (length assertions)) rewriter src
        (map (fun item => (ai_expr item, false)) (rev assertions)) {| visited := []; cache := [] |};
  mapM (fun item => e ← cached w (ai_expr item); mret {| ai_expr := e; ai_id := ai_id item |}) assertions.
End ir.
Arguments RewriteT E : clear implicits.
