(* ===== verification/CompilerPasses.v ===== *)
(** * The rewriting passes

    [src/rust/compile/compiler/src/{cse,algsimp,assertion,copy,logic_impl}.rs]:
    common-subexpression elimination, algebraic simplification, stripping of
    nested assertions, insertion of copy wires, and the construction of
    expressions by the compiler's logic backend. *)
From stdpp Require Import prelude gmap sorting strings.
From Stdlib Require Import Lia NArith.
From S2P Require Import Prelude Field Scope CompilerIR.

(** ** [cse.rs] *)
Module cse.
Section cse.
Context {E : Type} `{AlgebraicField E} `{!EqDecision E}.

Definition canonical2 (x y : ExprNode) : ExprNode * ExprNode := if x <? y then (x, y) else (y, x).

Definition lookup_memo (m : list (Expr E * ExprNode)) (e : Expr E) : option ExprNode :=
  snd <$> (list_find (fun p => p.1 = e) m ≫= fun r => Some r.2).
Definition insert_memo (e : Expr E) (n : ExprNode) : comp E unit := fun s =>
  Ok (tt, {| arena := arena s; memo := memo s ++ [(e, n)]; ones := ones s; collected := collected s |}).
Definition get_memo (e : Expr E) : comp E (option ExprNode) := fun s => Ok (lookup_memo (memo s) e, s).

Definition memo_expr (e : Expr E) : comp E ExprNode :=
  found ← get_memo e;
  match found with
  | Some node => mret node
  | None =>
      d ← depth_expr e;
      node ← alloc_node e d;
      insert_memo e node ;;
      mret node
  end.

(** [sort_by_key(|n| n.id)], [dedup_by_key(|n| n.id)] *)
Definition sort_ids (l : list ExprNode) : list ExprNode := merge_sort le l.
Fixpoint dedup_ids (l : list ExprNode) : list ExprNode :=
  match l with
  | x :: ((y :: _) as l') => if x =? y then dedup_ids l' else x :: dedup_ids l'
  | _ => l
  end.

Definition rewriter : RewriteT E := {|
  rw_ok := mret [];
  rw_assert0 x := mret [x];
  rw_assertions l := mret (dedup_ids (sort_ids (concat l)));
  rw_input p := memo_expr (Input p);
  rw_sum elements precious := memo_expr (Sum (sort_ids elements) precious);
  rw_one := memo_expr One;
  rw_constant e := memo_expr (Constant e);
  rw_linear e x := memo_expr (Linear e x);
  rw_quadratic e x y := let '(cx, cy) := canonical2 x y in memo_expr (Quadratic e cx cy);
  rw_with_assertions a x := memo_expr (WithAssertions a x)
|}.
End cse.
End cse.

(** ** [algsimp.rs] *)
Module algsimp.
Section algsimp.
Context {E : Type} `{AlgebraicField E} `{!EqDecision E} `{!Comparable E}.
Context (next : RewriteT E).
Local Open Scope fe_scope.

Definition is_sum (ordinary : bool) (e : Expr E) : option (list ExprNode) :=
  match e with Sum l p => if Bool.eqb p (negb ordinary) then Some l else None | _ => None end.

Definition flatten_sum (l : list ExprNode) : comp E (list ExprNode) :=
  es ← mapM expr_of l;
  let ordinary_sums := omap (is_sum true) es in
  mret (concat (zip_with (fun x e =>
    match e with
    | Sum inner_list false => inner_list
    | Sum inner_list true => if bool_decide (inner_list ∈ ordinary_sums) then inner_list else [x]
    | _ => [x]
    end) l es)).

Definition low_degree (x : ExprNode) : comp E bool :=
  e ← expr_of x;
  mret (match e with Quadratic _ _ _ | Sum _ true => false | _ => true end).

Definition ground_linear (e : E) (x : ExprNode) : comp E ExprNode :=
  lift_comp (rust_assert (negb (is_zero e))) ;; rw_linear next e x.
Definition ground_quadratic (e : E) (a b : ExprNode) : comp E ExprNode :=
  lift_comp (rust_assert (negb (is_zero e))) ;; rw_quadratic next e a b.

Definition constant (e : E) : comp E ExprNode := rw_constant next e.
Definition one : comp E ExprNode := constant 1.

Definition triple : Type := E * ExprNode * ExprNode.
Definition canonical (e : E) (x y : ExprNode) : triple := if (x <? y)%nat then (e, x, y) else (e, y, x).
Definition unquadratic (n : ExprNode) : comp E triple :=
  ex ← expr_of n;
  match ex with
  | Quadratic e x y => mret (canonical e x y)
  | Linear e x => o ← one; mret (canonical e o x)
  | Constant e => o ← one; o' ← one; mret (e, o, o')
  | _ => o ← one; mret (canonical 1 o n)
  end.

Definition then_with (c d : comparison) : comparison := match c with Eq => d | _ => c end.
Definition compare_triples (a b : triple) : comparison :=
  let '(e, x, y) := a in
  let '(e1, x1, y1) := b in
  then_with (then_with (Nat.compare x x1) (Nat.compare y y1)) (compare e e1).
Definition triple_le (a b : triple) : Prop := compare_triples a b <> Gt.
#[export] Instance triple_le_dec : RelDecision triple_le.
Proof. intros a b. unfold triple_le. apply _. Defined.

(** Neighbours over the same pair are added up; the accumulator's last triple
    is kept apart. *)
Fixpoint fold_triples (last : triple) (l : list triple) : list triple :=
  match l with
  | [] => [last]
  | (e, x, y) :: l =>
      let '(last_e, last_x, last_y) := last in
      if ((last_x =? x) && (last_y =? y))%nat then fold_triples (last_e + e, last_x, last_y) l
      else last :: fold_triples (e, x, y) l
  end.
Definition folded (l : list triple) : list triple :=
  match l with [] => [] | t :: l => fold_triples t l end.

Definition constant_of (e : Expr E) : option E := match e with Constant e => Some e | _ => None end.

(** [sum] for a given [quadratic]; the two call each other. *)
Definition sum_with (quad : E -> ExprNode -> ExprNode -> comp E ExprNode)
    (l : list ExprNode) (precious : bool) : comp E ExprNode :=
  flat_l ← flatten_sum l;
  triples ← mapM unquadratic flat_l;
  let folded := folded (merge_sort triple_le triples) in
  term_nodes ← mapM (fun '(e, x, y) => quad e x y) folded;
  es ← mapM expr_of term_nodes;
  let non_constants := (filter (fun p => constant_of p.2 = None) (zip term_nodes es)).*1 in
  let const_sum := foldl fadd 0 (omap constant_of es) in
  final_list ← (if is_zero const_sum then mret non_constants
                else c ← constant const_sum; mret (non_constants ++ [c]));
  match final_list with
  | [] => constant 0
  | [x] => mret x
  | _ => rw_sum next final_list precious
  end.

(** [linear0] follows [Linear] nodes down: their identifiers decrease. *)
Fixpoint linear0_loop (fuel : nat) (e : E) (a : ExprNode) : comp E ExprNode :=
  ex ← expr_of a;
  if is_zero e then constant e
  else if bool_decide (e = 1) then mret a
  else match ex with
  | Constant e1 => constant (e * e1)
  | Linear e1 x =>
      match fuel with O => out_of_fuel | S fuel => linear0_loop fuel (e * e1) x end
  | Quadratic e1 x y => ground_quadratic (e * e1) x y
  | _ => ground_linear e a
  end.
Definition linear0 (e : E) (a : ExprNode) : comp E ExprNode := linear0_loop a e a.

Definition linear_with (quad : E -> ExprNode -> ExprNode -> comp E ExprNode)
    (e : E) (x : ExprNode) : comp E ExprNode :=
  ex ← expr_of x;
  match ex with
  | Sum l false => mapped ← mapM (linear0 e) l; sum_with quad mapped false
  | _ => linear0 e x
  end.

(** Distribution over an ordinary sum of terms of low degree. *)
Definition distributes (e : Expr E) : comp E (option (list ExprNode)) :=
  match e with
  | Sum l false => lows ← mapM low_degree l; mret (if forallb (fun b => b) lows then Some l else None)
  | _ => mret None
  end.
Definition is_any_sum (e : Expr E) : bool := match e with Sum _ _ => true | _ => false end.

Fixpoint quadratic_loop (fuel : nat) (e : E) (a b : ExprNode) : comp E ExprNode :=
  match fuel with
  | O => out_of_fuel
  | S fuel =>
      ea ← expr_of a;
      eb ← expr_of b;
      let linear := linear_with (quadratic_loop fuel) in
      if is_zero e then constant e
      else match ea, eb with
      | Constant e1, _ => linear (e * e1) b
      | _, Constant e1 => linear (e * e1) a
      | Linear e1 x1, _ => quadratic_loop fuel (e * e1) x1 b
      | _, Linear e1 x1 => quadratic_loop fuel (e * e1) x1 a
      | _, _ =>
          if is_any_sum ea && is_any_sum eb then ground_quadratic e a b
          else
            db ← distributes eb;
            match db with
            | Some l =>
                mapped ← mapM (fun x => quadratic_loop fuel e x a) l;
                sum_with (quadratic_loop fuel) mapped false
            | None =>
                da ← distributes ea;
                match da with
                | Some l =>
                    mapped ← mapM (fun x => quadratic_loop fuel e x b) l;
                    sum_with (quadratic_loop fuel) mapped false
                | None => ground_quadratic e a b
                end
            end
      end
  end.

(** Each unfolding replaces an operand by an older node; what [sum] and
    [linear] pass on is ground after one. *)
Definition quadratic (e : E) (a b : ExprNode) : comp E ExprNode := quadratic_loop (2 + a + b) e a b.
Definition sum : list ExprNode -> bool -> comp E ExprNode := sum_with (quadratic_loop 1).
Definition linear : E -> ExprNode -> comp E ExprNode := linear_with (quadratic_loop 1).

(** [assert0]: a constant zero needs no assertion, any other constant fails
    the build, and a coefficient does not matter. *)
Fixpoint assert0_loop (fuel : nat) (x : ExprNode) : comp E (list ExprNode) :=
  ex ← expr_of x;
  match ex with
  | Constant e => if is_zero e then rw_ok next else lift_comp Panic
  | Linear e inner_node =>
      lift_comp (rust_assert (negb (is_zero e))) ;;
      match fuel with O => out_of_fuel | S fuel => assert0_loop fuel inner_node end
  | _ => rw_assert0 next x
  end.

Definition rewriter : RewriteT E := {|
  rw_ok := rw_ok next;
  rw_assert0 x := assert0_loop x x;
  rw_assertions := rw_assertions next;
  rw_input := rw_input next;
  rw_sum := sum;
  rw_one := one;
  rw_constant := constant;
  rw_linear := linear;
  rw_quadratic := quadratic;
  rw_with_assertions assertions x :=
    match assertions with [] => mret x | _ => rw_with_assertions next assertions x end
|}.
End algsimp.
End algsimp.

(** ** [assertion.rs] *)
(** The order in which the hash map of [dedup_assertions] yields its values:
    some order of them. *)
Class HashOrder := into_values : list (ExprNode * AssertionItem) -> list AssertionItem.
Class HashOrderLaws `{HashOrder} := into_values_perm l : into_values l ≡ₚ map snd l.

Module assertion.
Section assertion.
Context {E : Type} `{AlgebraicField E} `{!EqDecision E} `{!Comparable E} `{HashOrder}.

Definition map_get (m : list (ExprNode * AssertionItem)) (k : ExprNode) : option AssertionItem :=
  snd <$> (list_find (fun p => p.1 = k) m ≫= fun r => Some r.2).
Definition dedup_step (st : list (ExprNode * AssertionItem) * AssertionScope) (item : AssertionItem)
  : list (ExprNode * AssertionItem) * AssertionScope :=
  let '(map, tracker) := st in
  match map_get map (ai_expr item) with
  | Some existing => (map, scope.union tracker (ai_id existing) (ai_id item))
  | None => (map ++ [(ai_expr item, item)], tracker)
  end.
Definition dedup_assertions (assertions : list AssertionItem) (tracker : AssertionScope)
  : list AssertionItem * AssertionScope :=
  let '(map, tracker) := foldl dedup_step ([], tracker) assertions in
  (into_values map, tracker).

Definition collect (a : list AssertionItem) : comp E unit := fun s =>
  Ok (tt, {| arena := arena s; memo := memo s; ones := ones s; collected := collected s ++ a |}).
(** [collected.replace(Vec::new())] *)
Definition take_collected : comp E (list AssertionItem) := fun s =>
  Ok (collected s, {| arena := arena s; memo := memo s; ones := ones s; collected := [] |}).

Definition strip_rewriter (next : RewriteT E) : RewriteT E := {|
  rw_ok := rw_ok next;
  rw_assert0 := rw_assert0 next;
  rw_assertions := rw_assertions next;
  rw_input := rw_input next;
  rw_sum := rw_sum next;
  rw_one := rw_one next;
  rw_constant := rw_constant next;
  rw_linear := rw_linear next;
  rw_quadratic := rw_quadratic next;
  rw_with_assertions assertions x := collect assertions ;; mret x
|}.

(** The loop of [strip_all] walks the arena it rewrites into; nothing is left
    to strip in its second iteration. *)
Definition current_arena : comp E (list (Node E)) := fun s => Ok (arena s, s).
Fixpoint strip_loop (fuel : nat) (current_items : list AssertionItem) (tracker : AssertionScope)
  : comp E (list AssertionItem * AssertionScope) :=
  let '(unique_items, tracker) := dedup_assertions current_items tracker in
  src ← current_arena;
  next_stripped ← walk src unique_items (strip_rewriter cse.rewriter);
  next_sub_exprs ← take_collected;
  match next_sub_exprs with
  | [] => mret (next_stripped, tracker)
  | _ =>
      match fuel with
      | O => out_of_fuel
      | S fuel => strip_loop fuel (next_stripped ++ next_sub_exprs) tracker
      end
  end.

Definition strip_all (src : list (Node E)) (assertions : list AssertionItem) (tracker : AssertionScope)
  : comp E (list AssertionItem * AssertionScope) :=
  stripped_slice ← walk src assertions (strip_rewriter cse.rewriter);
  new_sub_exprs ← take_collected;
  match new_sub_exprs with
  | [] => mret (dedup_assertions stripped_slice tracker)
  | _ =>
      '(current_items, tracker) ← strip_loop 1 (stripped_slice ++ new_sub_exprs) tracker;
      mret (dedup_assertions current_items tracker)
  end.

Definition reset_cse : comp E unit := fun s => Ok (tt, new_cse s).

(** The first pass: from the source arena into a new one. *)
Definition rewrite (src : list (Node E)) (assertions : list AssertionItem) (tracker : AssertionScope)
  : comp E (list AssertionItem * AssertionScope) :=
  '(stripped, tracker) ← strip_all src assertions tracker;
  reset_cse ;;
  src ← current_arena;
  rewritten ← walk src stripped (algsimp.rewriter cse.rewriter);
  mret (dedup_assertions rewritten tracker).
End assertion.
End assertion.

(** ** [copy.rs] *)
Module copy.
Section copy.
Context {E : Type} `{AlgebraicField E} `{!EqDecision E} `{!Comparable E}.
Context (next : RewriteT E).
Local Open Scope fe_scope.

(** The stricter [depth_term] of this pass. *)
Definition depth_term (x : ExprNode) : comp E nat :=
  n ← node_of x;
  match v n with
  | Input _ | One => mret 1%nat
  | Quadratic _ _ _ => mret (depth n)
  | _ => lift_comp Panic
  end.
Definition depth_of (x : ExprNode) : comp E nat := n ← node_of x; mret (depth n).

Definition ground_quadratic (e : E) (x y : ExprNode) : comp E ExprNode :=
  dx ← depth_of x; dy ← depth_of y;
  lift_comp (rust_assert (Nat.eqb dx dy)) ;;
  rw_quadratic next e x y.

Definition get_one (d : nat) : comp E (option ExprNode) := fun s => Ok (ones s !! d, s).
Definition set_one (d : nat) (n : ExprNode) : comp E unit := fun s =>
  Ok (tt, {| arena := arena s; memo := memo s; ones := <[d := n]> (ones s); collected := collected s |}).
Fixpoint one_at_depth (d : nat) : comp E ExprNode :=
  found ← get_one d;
  match found with
  | Some n => mret n
  | None =>
      n ← (match d with
           | O => rw_one next
           | S d' => oo ← one_at_depth d'; ground_quadratic 1 oo oo
           end);
      set_one d n ;;
      mret n
  end.

Definition copy (x : ExprNode) : comp E ExprNode :=
  d ← depth_of x;
  oo ← one_at_depth d;
  ex ← expr_of x;
  match ex with
  | Quadratic e1 x1 y1 =>
      sub_quad ← ground_quadratic 1 x1 y1;
      ground_quadratic e1 oo sub_quad
  | Linear _ _ | Constant _ => lift_comp Panic
  | _ => ground_quadratic 1 oo x
  end.

(** Every copy is one level deeper. *)
Fixpoint lift_loop (fuel d : nat) (current : ExprNode) : comp E ExprNode :=
  cx ← depth_term current;
  if Nat.eqb cx d then mret current
  else if Nat.ltb d cx then lift_comp Panic
  else match fuel with
  | O => out_of_fuel
  | S fuel => current ← copy current; lift_loop fuel d current
  end.
Definition lift (d : nat) (x : ExprNode) : comp E ExprNode := lift_loop (S d) d x.

(** Terms of less than maximal depth are added up first and copied up to it;
    there are fewer of them. *)
Fixpoint sum_no_nested_loop (fuel : nat) (elements : list ExprNode) : comp E ExprNode :=
  match elements with
  | [] => lift_comp Panic
  | [x] => mret x
  | _ =>
      ds ← mapM depth_term elements;
      let d := max_list ds in
      let yes := (filter (fun p => p.2 = d) (zip elements ds)).*1 in
      let no := (filter (fun p => p.2 <> d) (zip elements ds)).*1 in
      yes_lifted ← mapM (lift d) yes;
      match no with
      | [] => rw_sum next yes_lifted false
      | _ =>
          match fuel with
          | O => out_of_fuel
          | S fuel =>
              folded_no ← sum_no_nested_loop fuel no;
              copied_no ← copy folded_no;
              lifted_no ← lift d copied_no;
              sum_no_nested_loop fuel (yes_lifted ++ [lifted_no])
          end
      end
  end.
Definition sum_no_nested_sums (elements : list ExprNode) : comp E ExprNode :=
  sum_no_nested_loop (length elements) elements.

(** The shallower operand is copied until the depths agree. *)
Fixpoint quadratic_loop (fuel : nat) (e : E) (x y : ExprNode) : comp E ExprNode :=
  dx ← depth_of x; dy ← depth_of y;
  if Nat.eqb dx dy then ground_quadratic e x y
  else match fuel with
  | O => out_of_fuel
  | S fuel =>
      if Nat.ltb dx dy then x' ← copy x; quadratic_loop fuel e x' y
      else y' ← copy y; quadratic_loop fuel e y' x
  end.
Definition quadratic (e : E) (x y : ExprNode) : comp E ExprNode :=
  dx ← depth_of x; dy ← depth_of y; quadratic_loop (Nat.max dx dy) e x y.

Definition sum (elements : list ExprNode) (_ : bool) : comp E ExprNode :=
  no_nested_sums ← mapM (fun x =>
    ex ← expr_of x;
    match ex with Sum _ _ => o ← rw_one next; quadratic 1 o x | _ => mret x end) elements;
  sum_no_nested_sums no_nested_sums.
Definition constant (e : E) : comp E ExprNode :=
  if bool_decide (e = 1) then rw_one next
  else
    lift_comp (rust_assert (negb (is_zero e))) ;;
    o ← rw_one next; o' ← rw_one next; quadratic e o o'.
Definition linear (e : E) (x : ExprNode) : comp E ExprNode := o ← rw_one next; quadratic e o x.

Definition rewriter : RewriteT E := {|
  rw_ok := rw_ok next;
  rw_assert0 := rw_assert0 next;
  rw_assertions := rw_assertions next;
  rw_input := rw_input next;
  rw_sum := sum;
  rw_one := rw_one next;
  rw_constant := constant;
  rw_linear := linear;
  rw_quadratic := quadratic;
  rw_with_assertions _ _ := lift_comp Panic
|}.
End copy.

(** The second pass, into a new arena. *)
Definition rewrite {E} `{AlgebraicField E} `{!EqDecision E} (src : list (Node E)) (x : list AssertionItem)
  : comp E (list AssertionItem) := walk src x (rewriter cse.rewriter).
End copy.

(** ** [logic_impl.rs]: the compiler's logic backend *)
Module logic.
Section logic.
Context {E : Type} `{AlgebraicField E} `{!EqDecision E} `{!Comparable E}.
Local Open Scope fe_scope.

Definition next : RewriteT E := algsimp.rewriter cse.rewriter.
Definition zero : comp E ExprNode := rw_constant next 0.
Definition one : comp E ExprNode := rw_one next.
Definition konst (x : E) : comp E ExprNode := rw_constant next x.
Definition precious (x : ExprNode) : comp E ExprNode := promote_sum_to_precious x next.
Definition sum (xs : list ExprNode) : comp E ExprNode := rw_sum next xs false.
Definition neg (x : ExprNode) : comp E ExprNode := rw_linear next mone x.
Definition add (x y : ExprNode) : comp E ExprNode := rw_sum next [x; y] false.
Definition sub (x y : ExprNode) : comp E ExprNode := y' ← neg y; rw_sum next [x; y'] false.
Definition mul (x y : ExprNode) : comp E ExprNode := rw_quadratic next 1 x y.
Definition mulk (e : E) (y : ExprNode) : comp E ExprNode := rw_linear next e y.
Definition quadratic (e : E) (x y : ExprNode) : comp E ExprNode := rw_quadratic next e x y.
Definition input (position : nat) : comp E ExprNode :=
  lift_comp (rust_assert (Nat.ltb 0 position)) ;; rw_input next position.
Definition with_assertions (assertions : list AssertionItem) (x : ExprNode) : comp E ExprNode :=
  rw_with_assertions next assertions x.

Definition assert0 (tracker : AssertionScope) (name : string) (x : ExprNode)
  : comp E (list AssertionItem * AssertionScope) :=
  lift_comp (rust_assert (negb (bool_decide (name = ""%string)))) ;;
  let (id, tracker) := scope.new_leaf tracker name in
  own_raw ← rw_assert0 next x;
  mret (map (fun expr => {| ai_expr := expr; ai_id := id |}) own_raw, tracker).

Definition assert_all_step (name : string)
    (st : list AssertionItem * list (ExprNode * AssertionId) * list AssertionId * AssertionScope)
    (item : AssertionItem) :=
  let '(items, seen, seen_roots, tracker) := st in
  if bool_decide ((ai_expr item, ai_id item) ∈ seen) then st
  else
    let seen := seen ++ [(ai_expr item, ai_id item)] in
    let (root, tracker) := scope.find tracker (ai_id item) in
    if bool_decide (root ∈ seen_roots) then (items ++ [item], seen, seen_roots, tracker)
    else (items ++ [item], seen, seen_roots ++ [root], scope.prepend_scope tracker (ai_id item) name).
Definition assert_all (tracker : AssertionScope) (name : string) (assertions : list (list AssertionItem))
  : comp E (list AssertionItem * AssertionScope) :=
  lift_comp (rust_assert (negb (bool_decide (name = ""%string)))) ;;
  let '(items, _, _, tracker) := foldl (assert_all_step name) ([], [], [], tracker) (concat assertions) in
  mret (items, tracker).
End logic.
End logic.
