(* ===== verification/CompilerSem.v ===== *)
(** * The meaning of expressions

    A logic for the passes of the compiler ([wp]: a pass either returns a
    state with the postcondition or, where allowed, panics; it never runs out
    of fuel), the value of a node under an assignment of the inputs, the
    invariant of an arena with its memo table, and the rule for [walk]. *)
From stdpp Require Import prelude gmap sorting strings.
From Stdlib Require Import Lia NArith Ring Ring_theory.
From S2P Require Import Prelude Words Interfaces Field FieldFacts Scope CompilerIR CompilerPasses.

(** ** Weakest preconditions *)
Section wp.
Context {E : Type}.
Implicit Types s : State E.

Definition wp {A} (may_panic : bool) (m : comp E A) (Q : A -> State E -> Prop) (s : State E) : Prop :=
  match m s with Ok (a, s') => Q a s' | Err _ => False | Panic => Is_true may_panic end.

Lemma wp_ret {A} p (a : A) Q s : Q a s -> wp p (mret a) Q s.
Proof. done. Qed.
Lemma wp_bind {A B} p (m : comp E A) (k : A -> comp E B) Q s :
  wp p m (fun a => wp p (k a) Q) s -> wp p (m ≫= k) Q s.
Proof.
  unfold wp. change ((m ≫= k) s) with (match m s with Ok (a, s') => k a s' | Err e => Err e | Panic => Panic end).
  by destruct (m s) as [[a s']| |].
Qed.
Lemma bind_eq {A B} (m : comp E A) (k : A -> comp E B) s a s' : m s = Ok (a, s') -> (m ≫= k) s = k a s'.
Proof. unfold mbind, comp_bind. by intros ->. Qed.
Lemma wp_mono {A} p (m : comp E A) (Q Q' : A -> State E -> Prop) s :
  wp p m Q s -> (forall a s', Q a s' -> Q' a s') -> wp p m Q' s.
Proof. unfold wp. destruct (m s) as [[a s']| |]; auto. Qed.
(** A computation that is known to return. *)
Lemma wp_eq {A} p (m : comp E A) Q s a s' : m s = Ok (a, s') -> Q a s' -> wp p m Q s.
Proof. unfold wp. by intros ->. Qed.
Lemma wp_total {A} (m : comp E A) Q s : wp false m Q s -> exists a s', m s = Ok (a, s') /\ Q a s'.
Proof. unfold wp. destruct (m s) as [[a s']| |]; [eauto|done..]. Qed.
Lemma wp_weaken {A} p (m : comp E A) Q s : wp false m Q s -> wp p m Q s.
Proof. unfold wp. by destruct (m s) as [[a s']| |]. Qed.
Lemma wp_lift {A} p (a : A) (Q : A -> State E -> Prop) s : Q a s -> wp p (lift_comp (Ok a)) Q s.
Proof. done. Qed.
Lemma wp_assert p b (Q : unit -> State E -> Prop) s :
  b = true -> Q tt s -> wp p (lift_comp (rust_assert b)) Q s.
Proof. by intros ->. Qed.

(** A loop that keeps an invariant and extends the state. *)
Lemma wp_mapM {A B} p (I : State E -> Prop) (ext : State E -> State E -> Prop) `{!PreOrder ext}
    (R : A -> B -> State E -> Prop) (f : A -> comp E B) l : forall s,
  (forall x y s s', I s -> ext s s' -> R x y s -> R x y s') ->
  (forall x s', x ∈ l -> I s' -> ext s s' -> wp p (f x) (fun y s'' => I s'' /\ ext s' s'' /\ R x y s'') s') ->
  I s ->
  wp p (mapM f l) (fun ys s' => I s' /\ ext s s' /\ Forall2 (fun x y => R x y s') l ys) s.
Proof.
  intros s HR. revert s. induction l as [|x l IH]; intros s Hf Hs; cbn [mapM].
  { apply wp_ret. split; [done|]. split; [reflexivity|constructor]. }
  apply wp_bind. eapply wp_mono; [apply Hf; [set_solver|done|reflexivity]|]. cbn beta.
  intros y s1 (H1 & Hx1 & Hr). apply wp_bind. eapply wp_mono; [apply IH|].
  - intros z s' Hz HI Hext. apply Hf; [set_solver|done|by transitivity s1].
  - done.
  - cbn beta. intros ys s2 (H2 & Hx2 & Hr2). apply wp_ret.
    split; [done|]. split; [by transitivity s1|]. constructor; [by apply (HR _ _ s1)|done].
Qed.
Lemma wp_foldC {S X} p (I : State E -> list X -> S -> Prop) (body : S -> X -> comp E S) xs : forall done st s,
  I s done st ->
  (forall done x rest st s, xs = done ++ x :: rest -> I s done st ->
    wp p (body st x) (fun st' s' => I s' (done ++ [x]) st') s) ->
  forall rest, xs = done ++ rest -> wp p (foldC body st rest) (fun st' s' => I s' xs st') s.
Proof.
  intros done st s HI Hb rest. revert done st s HI. induction rest as [|x rest IH]; intros done st s HI Hxs; cbn [foldC].
  { apply wp_ret. by rewrite Hxs, app_nil_r. }
  apply wp_bind. eapply wp_mono; [by eapply Hb|]. cbn beta. intros st' s' HI'.
  eapply IH; [done|]. by rewrite Hxs, <- app_assoc.
Qed.
End wp.

(** ** The value of a node *)
Section value.
Context {E : Type} `{AlgebraicField E}.
Local Open Scope fe_scope.
Implicit Types a b : list (Node E).

(** The expression a node stands for. *)
Definition expr_at a (x : ExprNode) : option (Expr E) := v <$> a !! x.
(** Nodes refer to older nodes only. *)
Definition arena_wf a : Prop := forall i n, a !! i = Some n -> Forall (fun c => c < i) (children_of (v n)).
Definition scoped a (e : Expr E) : Prop := Forall (fun c => c < length a) (children_of e).

Context (inp : nat -> E).
Definition denote (ρ : ExprNode -> E) (e : Expr E) : E :=
  match e with
  | Input p => inp p
  | Sum l _ => sigma l ρ
  | One => 1
  | Constant e => e
  | Linear e x => e * ρ x
  | Quadratic e x y => e * (ρ x * ρ y)
  | WithAssertions _ x => ρ x
  end.
Definition values a : list E := foldl (fun ρ n => ρ ++ [denote (at0 ρ) (v n)]) [] a.
Definition value a (x : ExprNode) : E := at0 (values a) x.

Lemma denote_ext ρ ρ' e : (forall c, c ∈ children_of e -> ρ c = ρ' c) -> denote ρ e = denote ρ' e.
Proof.
  destruct e; cbn [denote children_of]; intros Hc; try done.
  - unfold sigma. f_equal. apply map_ext_in. intros c Hin. by apply Hc, list_elem_of_In.
  - by rewrite Hc by set_solver.
  - by rewrite !Hc by set_solver.
  - by rewrite Hc by set_solver.
Qed.

Lemma values_from ρ a : exists r, foldl (fun ρ n => ρ ++ [denote (at0 ρ) (v n)]) ρ a = ρ ++ r /\ length r = length a.
Proof.
  revert ρ. induction a as [|n a IH]; intros ρ; cbn [foldl]; [exists []; by rewrite app_nil_r|].
  destruct (IH (ρ ++ [denote (at0 ρ) (v n)])) as (r & -> & Hr). rewrite <- app_assoc. cbn [app].
  eexists. split; [reflexivity|]. cbn [length]. by rewrite Hr.
Qed.
Lemma length_values a : length (values a) = length a.
Proof. unfold values. by destruct (values_from [] a) as (r & -> & ?). Qed.
Lemma value_app a b x : x < length a -> value (a ++ b) x = value a x.
Proof.
  intros Hx. unfold value, values. rewrite foldl_app. fold (values a).
  destruct (values_from (values a) b) as (r & -> & _). unfold at0.
  rewrite lookup_app_l; [done|]. by rewrite length_values.
Qed.
Lemma value_prefix a b x : a `prefix_of` b -> x < length a -> value b x = value a x.
Proof. intros [r ->]. apply value_app. Qed.

Lemma value_node a x e : arena_wf a -> expr_at a x = Some e -> value a x = denote (value a) e.
Proof.
  intros Hwf Hx. unfold expr_at in Hx. apply fmap_Some in Hx as (n & Hn & ->).
  pose proof (lookup_lt_Some _ _ _ Hn) as Hlt. pose proof (Hwf _ _ Hn) as Hc.
  rewrite <- (take_drop_middle a x n Hn) at 1. change (n :: drop (S x) a) with ([n] ++ drop (S x) a).
  rewrite app_assoc, value_app by (rewrite length_app, length_take; cbn; lia).
  unfold value at 1, values. rewrite foldl_app. cbn [foldl]. fold (values (take x a)).
  assert (length (values (take x a)) = x) as Hl by (rewrite length_values, length_take; lia).
  unfold at0 at 1. rewrite lookup_app_r by lia. rewrite Hl, Nat.sub_diag. cbn.
  apply denote_ext. intros c Hin. rewrite Forall_forall in Hc. specialize (Hc c Hin).
  fold (value (take x a) c). rewrite <- (take_drop x a) at 2. symmetry. apply value_app. rewrite length_take. lia.
Qed.
End value.
