(* ===== verification/CseFacts.v ===== *)
(** * Hash-consing

    The invariant of an arena with its memo table, what every operation of
    [Cse] does to it, and the walk that rewrites one arena into another. *)
From stdpp Require Import prelude gmap sorting strings.
From Stdlib Require Import Lia NArith Ring Ring_theory.
From S2P Require Import Prelude Words Interfaces Field FieldFacts Scope CompilerIR CompilerPasses CompilerSem.

Section cse.
Context {E : Type} `{AlgebraicField E} `{!EqDecision E}.
Implicit Types s : State E.
Implicit Types a b : list (Node E).

(** The depth a node of the arena should have. *)
Definition depth_at a (x : ExprNode) : nat := match a !! x with Some n => depth n | None => 0 end.
Definition term_depth_at a (x : ExprNode) : nat := match a !! x with Some n => depth_term n | None => 0 end.
Definition depth_in a (e : Expr E) : nat :=
  match e with
  | Input _ | One | Constant _ => 0
  | Linear _ x => 1 + depth_at a x
  | Quadratic _ x y => 1 + Nat.max (depth_at a x) (depth_at a y)
  | WithAssertions l x => Nat.max (max_list (map (fun it => depth_at a (ai_expr it)) l)) (depth_at a x)
  | Sum l _ => max_list (map (term_depth_at a) l)
  end.

(** A node of the memo table. *)
Definition known s (x : ExprNode) : Prop := exists e, (e, x) ∈ memo s.

(** [N] is what the pass guarantees of its own nodes. *)
Record inv (N : list (Node E) -> Expr E -> Prop) s : Prop := {
  inv_wf : arena_wf (arena s);
  inv_depth x n : arena s !! x = Some n -> depth n = depth_in (arena s) (v n);
  inv_memo e x : (e, x) ∈ memo s -> expr_at (arena s) x = Some e;
  inv_closed e x : (e, x) ∈ memo s -> Forall (known s) (children_of e);
  inv_nodes e x : (e, x) ∈ memo s -> N (arena s) e
}.

(** States only grow. *)
Record ext s s' : Prop := { ext_arena : arena s `prefix_of` arena s'; ext_memo : memo s ⊆ memo s' }.
Record quiet s s' : Prop := { quiet_ext : ext s s'; quiet_ones : ones s' = ones s; quiet_collected : collected s' = collected s }.
#[export] Instance ext_preorder : PreOrder ext.
Proof. split; [split; [done|done]|]. intros s s1 s2 [A1 M1] [A2 M2]. split; [by transitivity (arena s1)|by transitivity (memo s1)]. Qed.
#[export] Instance quiet_preorder : PreOrder quiet.
Proof. split; [by split|]. intros s s1 s2 [X1 O1 C1] [X2 O2 C2]. split; [by transitivity s1|congruence..]. Qed.

Lemma known_ext s s' x : ext s s' -> known s x -> known s' x.
Proof. intros [_ Hm] [e He]. exists e. by apply Hm. Qed.
Lemma expr_at_prefix a b x e : a `prefix_of` b -> expr_at a x = Some e -> expr_at b x = Some e.
Proof.
  intros [r ->] Hx. unfold expr_at in *. apply fmap_Some in Hx as (n & Hn & ->).
  by rewrite (lookup_app_l_Some _ _ _ _ Hn).
Qed.
Lemma expr_at_lt a x e : expr_at a x = Some e -> x < length a.
Proof. intros Hx. apply fmap_Some in Hx as (n & Hn & _). by eapply lookup_lt_Some. Qed.
Lemma known_at N s x : inv N s -> known s x -> exists e, (e, x) ∈ memo s /\ expr_at (arena s) x = Some e.
Proof. intros Hi [e He]. exists e. split; [done|]. by apply Hi. Qed.
Lemma known_lt N s x : inv N s -> known s x -> x < length (arena s).
Proof. intros Hi Hk. destruct (known_at _ _ _ Hi Hk) as (e & _ & Hx). by eapply expr_at_lt. Qed.
Lemma known_expr N s x e : inv N s -> known s x -> expr_at (arena s) x = Some e -> (e, x) ∈ memo s.
Proof. intros Hi Hk Hx. destruct (known_at _ _ _ Hi Hk) as (e' & Hm & Hx'). congruence. Qed.
Lemma known_node N s x e : inv N s -> known s x -> expr_at (arena s) x = Some e -> N (arena s) e.
Proof. intros Hi Hk Hx. eapply (inv_nodes _ _ Hi). by eapply known_expr. Qed.
Lemma known_children N s x e : inv N s -> known s x -> expr_at (arena s) x = Some e -> Forall (known s) (children_of e).
Proof. intros Hi Hk Hx. eapply (inv_closed _ _ Hi). by eapply known_expr. Qed.
Lemma known_scoped N s e : inv N s -> Forall (known s) (children_of e) -> scoped (arena s) e.
Proof. intros Hi Hf. eapply Forall_impl; [exact Hf|]. intros c. by apply (known_lt N). Qed.
(** Children are older. *)
Lemma child_lt a x e c : arena_wf a -> expr_at a x = Some e -> c ∈ children_of e -> c < x.
Proof.
  intros Hwf Hx Hc. apply fmap_Some in Hx as (n & Hn & ->). specialize (Hwf _ _ Hn).
  rewrite Forall_forall in Hwf. by apply Hwf.
Qed.
Lemma value_ext inp s s' x : ext s s' -> x < length (arena s) -> value inp (arena s') x = value inp (arena s) x.
Proof. intros [Ha _]. by apply value_prefix. Qed.
Lemma value_known inp N s s' x : inv N s -> ext s s' -> known s x -> value inp (arena s') x = value inp (arena s) x.
Proof. intros Hi He Hk. apply value_ext; [done|]. by eapply known_lt. Qed.

Lemma depth_at_prefix a b x : a `prefix_of` b -> x < length a -> depth_at b x = depth_at a x.
Proof. intros [r ->] Hx. unfold depth_at. by rewrite lookup_app_l. Qed.
Lemma depth_in_prefix a b e : a `prefix_of` b -> scoped a e -> depth_in b e = depth_in a e.
Proof.
  intros [r ->] Hs. unfold scoped in Hs. rewrite Forall_forall in Hs.
  assert (forall c, c ∈ children_of e -> (a ++ r) !! c = a !! c) as Hc.
  { intros c Hin. apply lookup_app_l. by apply Hs. }
  destruct e; cbn [depth_in children_of] in *; unfold depth_at, term_depth_at; try done.
  - f_equal. apply map_ext_in. intros c Hin. by rewrite Hc by (by apply list_elem_of_In).
  - by rewrite Hc by set_solver.
  - by rewrite !Hc by set_solver.
  - rewrite Hc by set_solver. f_equal. f_equal. apply map_ext_in. intros it Hin.
    rewrite Hc; [done|]. right. apply list_elem_of_fmap. exists it. split; [done|]. by apply list_elem_of_In.
Qed.

(** Reads. *)
Lemma node_of_at s x n : arena s !! x = Some n -> node_of x s = Ok (n, s).
Proof. intros Hn. unfold node_of. by rewrite (proj2 (index_Ok _ _ _) Hn). Qed.
Lemma expr_of_at s x e : expr_at (arena s) x = Some e -> expr_of x s = Ok (e, s).
Proof.
  intros Hx. apply fmap_Some in Hx as (n & Hn & ->). unfold expr_of, mbind, comp_bind.
  by rewrite (node_of_at _ _ _ Hn).
Qed.
Lemma mapM_reads {A B} (f : A -> comp E B) (g : A -> B) l s :
  (forall x, x ∈ l -> f x s = Ok (g x, s)) -> mapM f l s = Ok (map g l, s).
Proof.
  induction l as [|x l IH]; intros Hf; [done|]. cbn [mapM map]. unfold mbind, comp_bind in *.
  rewrite Hf by set_solver. rewrite IH; [done|]. intros y Hy. apply Hf. set_solver.
Qed.
Lemma depth_expr_ok s e : scoped (arena s) e -> depth_expr e s = Ok (depth_in (arena s) e, s).
Proof.
  intros Hs. unfold scoped in Hs. rewrite Forall_forall in Hs.
  assert (forall c, c ∈ children_of e -> exists n, node_of c s = Ok (n, s) /\ arena s !! c = Some n) as Hc.
  { intros c Hin. destruct (lookup_lt_is_Some_2 _ _ (Hs c Hin)) as [n Hn]. exists n. by rewrite (node_of_at _ _ _ Hn). }
  destruct e; cbn [depth_expr depth_in children_of] in *; unfold mbind, comp_bind, depth_at, term_depth_at; try done.
  - rewrite (mapM_reads _ (term_depth_at (arena s))); [done|]. intros c Hin.
    destruct (Hc c Hin) as (n & -> & Hn). unfold term_depth_at. by rewrite Hn.
  - destruct (Hc x) as (n & -> & ->); [set_solver|]. done.
  - destruct (Hc x) as (n & -> & ->); [set_solver|]. destruct (Hc y) as (m & -> & ->); [set_solver|]. done.
  - rewrite (mapM_reads _ (fun it => depth_at (arena s) (ai_expr it))).
    + destruct (Hc x) as (n & -> & Hn); [set_solver|]. unfold depth_at. by rewrite Hn.
    + intros it Hin. destruct (Hc (ai_expr it)) as (n & -> & Hn); [|unfold depth_at; by rewrite Hn].
      right. apply list_elem_of_fmap. by exists it.
Qed.

Lemma lookup_memo_Some (m : list (Expr E * ExprNode)) e x : cse.lookup_memo m e = Some x -> (e, x) ∈ m.
Proof.
  unfold cse.lookup_memo. intros Hl. apply fmap_Some in Hl as ([e' x'] & Hl & ->).
  apply bind_Some in Hl as ([i p] & Hf & [= Hp]). apply list_find_Some in Hf as (Hi & He & _).
  cbn in Hp. subst p. cbn in He. subst e'. by eapply list_elem_of_lookup_2.
Qed.

(** ** [memo_expr] *)
Section memo.
Context (N : list (Node E) -> Expr E -> Prop).
Context (N_prefix : forall a b e, a `prefix_of` b -> scoped a e -> N a e -> N b e).

Lemma inv_alloc s e : inv N s -> Forall (known s) (children_of e) -> N (arena s) e ->
  inv N {| arena := arena s ++ [{| v := e; depth := depth_in (arena s) e |}]; memo := memo s ++ [(e, length (arena s))];
           ones := ones s; collected := collected s |}.
Proof.
  intros Hi Hc Hn. pose proof (known_scoped _ _ _ Hi Hc) as Hs.
  assert (arena s `prefix_of` arena s ++ [{| v := e; depth := depth_in (arena s) e |}]) as Hp by (by eexists).
  split; cbn [arena memo].
  - intros i n Hi'. apply lookup_app_Some in Hi' as [Hi'|[Hge Hi']]; [by eapply Hi|].
    apply list_lookup_singleton_Some in Hi' as [Hz <-]. replace i with (length (arena s)) by lia. exact Hs.
  - intros x n Hx. apply lookup_app_Some in Hx as [Hx|[Hge Hx]].
    + rewrite (inv_depth _ _ Hi _ _ Hx). symmetry. apply depth_in_prefix; [done|].
      pose proof (inv_wf _ _ Hi _ _ Hx) as Hw. eapply Forall_impl; [exact Hw|]. intros c. apply lookup_lt_Some in Hx. cbn. lia.
    + apply list_lookup_singleton_Some in Hx as [_ <-]. cbn [v depth]. symmetry. by apply depth_in_prefix.
  - intros e' x Hm. apply elem_of_app in Hm as [Hm|Hm].
    + eapply expr_at_prefix; [done|]. by apply Hi.
    + apply list_elem_of_singleton in Hm as [= -> ->]. unfold expr_at. by rewrite lookup_app_r, Nat.sub_diag.
  - intros e' x Hm. assert (forall y, known s y -> known {| arena := arena s ++ [{| v := e; depth := depth_in (arena s) e |}];
      memo := memo s ++ [(e, length (arena s))]; ones := ones s; collected := collected s |} y) as Hmono.
    { intros y [ey Hy]. exists ey. cbn. apply elem_of_app. by left. }
    apply elem_of_app in Hm as [Hm|Hm].
    + eapply Forall_impl; [by eapply (inv_closed _ _ Hi)|done].
    + apply list_elem_of_singleton in Hm as [= -> ->]. eapply Forall_impl; [exact Hc|done].
  - intros e' x Hm. apply elem_of_app in Hm as [Hm|Hm].
    + eapply N_prefix; [done|..|by eapply (inv_nodes _ _ Hi)].
      eapply known_scoped; [done|]. by eapply (inv_closed _ _ Hi).
    + apply list_elem_of_singleton in Hm as [= -> ->]. by eapply N_prefix.
Qed.

Lemma memo_expr_ok p s e (Q : ExprNode -> State E -> Prop) :
  inv N s -> Forall (known s) (children_of e) -> N (arena s) e ->
  (forall x s', inv N s' -> quiet s s' -> known s' x -> expr_at (arena s') x = Some e -> Q x s') ->
  wp p (cse.memo_expr e) Q s.
Proof.
  intros Hi Hc Hn HQ. unfold cse.memo_expr. apply wp_bind.
  apply (wp_eq _ _ _ _ (cse.lookup_memo (memo s) e) s); [done|].
  destruct (cse.lookup_memo (memo s) e) as [x|] eqn:Hl.
  { apply lookup_memo_Some in Hl. apply wp_ret. apply HQ; [done|reflexivity|by exists e|by apply Hi]. }
  apply wp_bind. eapply wp_eq; [apply depth_expr_ok; by eapply known_scoped|].
  apply wp_bind. eapply wp_eq; [reflexivity|]. apply wp_bind. eapply wp_eq; [reflexivity|]. apply wp_ret.
  cbn [arena memo ones collected]. apply HQ.
  - by apply inv_alloc.
  - split; [split|..]; cbn; [by eexists|intros z Hz; apply elem_of_app; by left|done..].
  - exists e. cbn. apply elem_of_app. right. by apply list_elem_of_singleton.
  - cbn [arena]. unfold expr_at. by rewrite lookup_app_r, Nat.sub_diag.
Qed.
End memo.

(** [new_cse] forgets the memo table. *)
Lemma inv_new_cse N N' s : inv N s -> inv N' (new_cse s).
Proof. intros Hi. split; cbn; [apply Hi|by apply (inv_depth _ _ Hi)|by intros ? ? ?%not_elem_of_nil..]. Qed.
Lemma inv_empty N : inv N empty_arena.
Proof. split; cbn; [by intros i n; rewrite lookup_nil|by intros x n; rewrite lookup_nil|by intros ? ? ?%not_elem_of_nil..]. Qed.
End cse.

(** * The rule for [walk]

    A depth-first walk visits exactly the nodes reachable from the roots, each
    after its children, in at most [walk_fuel] iterations.  So a relation
    between source and target nodes that every operation of the rewriter
    establishes from the relation on the children holds of every reachable
    node. *)

Section set_at.
Context {A : Type}.
Lemma length_set_at (d : A) l i x : i < length (set_at d l i x).
Proof. unfold set_at. rewrite length_insert, length_app, length_replicate. lia. Qed.
Lemma set_at_eq (d : A) l i x : set_at d l i x !! i = Some x.
Proof. apply list_lookup_insert_eq. rewrite length_app, length_replicate. lia. Qed.
Lemma set_at_old (d : A) l i x j y : j <> i -> l !! j = Some y -> set_at d l i x !! j = Some y.
Proof. intros Hj Hl. unfold set_at. rewrite list_lookup_insert_ne by done. by apply lookup_app_l_Some. Qed.
Lemma set_at_inv (d : A) l i x j y : j <> i -> set_at d l i x !! j = Some y -> y <> d -> l !! j = Some y.
Proof.
  intros Hj Hl Hd. unfold set_at in Hl. rewrite list_lookup_insert_ne in Hl by done.
  apply lookup_app_Some in Hl as [Hl|[_ Hl]]; [done|]. apply lookup_replicate in Hl as [-> _]. done.
Qed.
End set_at.

(** The nodes below the roots, the asserted ones included. *)
Inductive reaches {E} (src : list (Node E)) (roots : list ExprNode) : ExprNode -> Prop :=
| reach_root x : x ∈ roots -> reaches src roots x
| reach_child x n c : reaches src roots x -> src !! x = Some n -> c ∈ children_of (v n) -> reaches src roots c.

Lemma reaches_lt {E} (src : list (Node E)) roots x :
  arena_wf src -> Forall (fun x => x < length src) roots -> reaches src roots x -> x < length src.
Proof.
  intros Hwf Hr. rewrite Forall_forall in Hr. induction 1 as [x Hx|x n c _ IH Hn Hc]; [by apply Hr|].
  specialize (Hwf _ _ Hn). rewrite Forall_forall in Hwf. specialize (Hwf c Hc). lia.
Qed.

Section potential.
Context {E : Type} (src : list (Node E)).

Definition cost (w : WalkState) (i : nat) : nat :=
  if decide (visited w !! i = Some true) then 0
  else match src !! i with Some n => 2 + length (children_of (v n)) | None => 0 end.
(** The iterations left for the nodes below [k]. *)
Definition potential (w : WalkState) (k : nat) : nat := sum_list_with (cost w) (seq 0 k).

Lemma potential_S w k : potential w (S k) = potential w k + cost w k.
Proof. unfold potential. rewrite seq_S, sum_list_with_app. cbn. lia. Qed.
Lemma potential_mono w k k' : k <= k' -> potential w k <= potential w k'.
Proof. induction 1; [done|]. rewrite potential_S. lia. Qed.
Lemma potential_ext w w' k : (forall i, i < k -> cost w' i = cost w i) -> potential w' k = potential w k.
Proof.
  induction k as [|k IH]; intros Hc; [done|]. rewrite !potential_S, IH by (intros; apply Hc; lia).
  by rewrite Hc by lia.
Qed.
(** Visiting [x] pays for its own iterations. *)
Lemma potential_visit w c x n k :
  visited w !! x <> Some true -> src !! x = Some n -> x < k ->
  potential {| visited := set_at false (visited w) x true; cache := c |} k + (2 + length (children_of (v n))) = potential w k.
Proof.
  intros Hv Hn Hk. set (w' := {| visited := _ |}).
  assert (forall i, i <> x -> cost w' i = cost w i) as Hne.
  { intros i Hi. unfold cost. cbn [visited w']. destruct (decide (visited w !! i = Some true)) as [Ht|Ht].
    - rewrite decide_True; [done|]. by apply set_at_old.
    - rewrite decide_False; [done|]. intros Hx. apply Ht. by eapply set_at_inv. }
  induction Hk as [|k Hk IH]; rewrite !potential_S.
  - rewrite (potential_ext w w') by (intros; apply Hne; lia). unfold cost. cbn [visited w'].
    rewrite set_at_eq, decide_True, decide_False, Hn by done. lia.
  - rewrite <- IH, Hne by lia. lia.
Qed.
Lemma potential_start : potential {| visited := []; cache := [] |} (length src) = sum_list_with (fun n => 2 + length (children_of (v n))) src.
Proof.
  unfold potential. set (g := fun n : Node E => 2 + length (children_of (v n))).
  enough (forall l k, (forall i, i < length l -> src !! (k + i) = l !! i) ->
    sum_list_with (cost {| visited := []; cache := [] |}) (seq k (length l)) = sum_list_with g l) as Hg by by apply Hg.
  induction l as [|n l IH]; intros k Hl; [done|]. cbn [length seq sum_list_with]. f_equal.
  - unfold cost. cbn. specialize (Hl 0). rewrite Nat.add_0_r in Hl. rewrite Hl by (cbn; lia). done.
  - apply IH. intros i Hi. specialize (Hl (S i)). rewrite Nat.add_succ_r in Hl. apply Hl. cbn. lia.
Qed.
End potential.

Section walk.
Context {E : Type} (p : bool) (R : RewriteT E) (src : list (Node E)) (Hwf : arena_wf src).
Context (roots : list ExprNode) (Hroots : Forall (fun x => x < length src) roots).
Context (I : State E -> Prop) (ext : State E -> State E -> Prop) `{!PreOrder ext}.
(** [P s x y]: in state [s], the target node [y] renders the source node [x]. *)
Context (P : State E -> ExprNode -> ExprNode -> Prop).
Context (P_ext : forall s s' x y, I s -> ext s s' -> P s x y -> P s' x y).
Context (step : forall w s x n, I s -> reaches src roots x -> src !! x = Some n ->
  (forall c, c ∈ children_of (v n) -> exists y, cache w !! c = Some (Some y) /\ P s c y) ->
  wp p (rewrite_node R w (v n)) (fun y s' => I s' /\ ext s s' /\ P s' x y) s).

(** A visited node is rendered, and so are its children. *)
Definition rendered (w : WalkState) (s : State E) : Prop := forall x, visited w !! x = Some true ->
  reaches src roots x /\ (exists y, cache w !! x = Some (Some y) /\ P s x y) /\
  forall n c, src !! x = Some n -> c ∈ children_of (v n) -> visited w !! c = Some true.
Definition grows (w w' : WalkState) : Prop := forall j, visited w !! j = Some true -> visited w' !! j = Some true.
(** What a visit of nodes below [k] leaves behind. *)
Record visits (k : nat) (n : nat) (fuel : nat) (w : WalkState) (s : State E) (fuel' : nat) (w' : WalkState) (s' : State E) : Prop := {
  vi_inv : I s'; vi_ext : ext s s'; vi_rendered : rendered w' s'; vi_grows : grows w w';
  vi_below j : k <= j -> visited w' !! j = Some true -> visited w !! j = Some true;
  vi_fuel j : k <= j -> fuel + potential src w' j <= fuel' + n + potential src w j
}.

Lemma rendered_ext w s s' : I s -> ext s s' -> rendered w s -> rendered w s'.
Proof.
  intros HI He Hr x Hx. destruct (Hr x Hx) as (Hreach & (y & Hy & HP) & Hch). split; [done|]. split; [|done].
  exists y. split; [done|]. by eapply P_ext.
Qed.

Definition visit_rule (x : ExprNode) : Prop := forall fuel stack w s Q,
  rendered w s -> I s -> reaches src roots x -> potential src w (S x) + 1 <= fuel ->
  (forall fuel' w' s', visits (S x) 1 fuel w s fuel' w' s' -> visited w' !! x = Some true -> wp p (walk_loop fuel' R src stack w') Q s') ->
  wp p (walk_loop fuel R src ((x, false) :: stack) w) Q s.

Lemma visit_list k cs : forall fuel stack w s Q,
  (forall c, c < k -> visit_rule c) ->
  Forall (fun c => c < k /\ reaches src roots c) cs ->
  rendered w s -> I s -> potential src w k + length cs <= fuel ->
  (forall fuel' w' s', visits k (length cs) fuel w s fuel' w' s' ->
     (forall c, c ∈ cs -> visited w' !! c = Some true) -> wp p (walk_loop fuel' R src stack w') Q s') ->
  wp p (walk_loop fuel R src (map (fun c => (c, false)) cs ++ stack) w) Q s.
Proof.
  induction cs as [|c cs IH]; intros fuel stack w s Q Hrule Hcs Hr HI Hf HQ.
  { apply HQ; [|by intros c ?%not_elem_of_nil]. split; [done|reflexivity|done|by intros j|by intros j|]. intros j _. cbn [length]. lia. }
  apply Forall_cons in Hcs as [[Hck Hreach] Hcs]. cbn [map app].
  apply (Hrule c Hck); [done..| |].
  { pose proof (potential_mono src w (S c) k Hck). cbn [length] in Hf. lia. }
  intros f1 w1 s1 [HI1 He1 Hr1 Hg1 Hb1 Hf1] Hvis. apply IH; [done..| |].
  { pose proof (Hf1 k Hck). cbn [length] in Hf. lia. }
  intros f2 w2 s2 [HI2 He2 Hr2 Hg2 Hb2 Hf2] Hvis2. apply HQ.
  - split; [done|by transitivity s1|done|intros j Hj; by apply Hg2, Hg1|..].
    + intros j Hj Hv. apply Hb1; [lia|]. by apply Hb2.
    + intros j Hj. specialize (Hf1 j). specialize (Hf2 j). cbn [length]. lia.
  - intros j Hj. apply elem_of_cons in Hj as [->|Hj]; [by apply Hg2|by apply Hvis2].
Qed.

Lemma visit_node x : visit_rule x.
Proof.
  induction (lt_wf x) as [x _ IH]. intros fuel stack w s Q Hr HI Hreach Hf HQ.
  destruct fuel as [|fuel]; [lia|]. cbn [walk_loop].
  destruct (decide (visited w !! x = Some true)) as [Hv|Hv].
  { rewrite bool_decide_eq_true_2 by done. apply HQ; [|done].
    split; [done|reflexivity|done|by intros j|by intros j|]. intros j _. lia. }
  rewrite bool_decide_eq_false_2 by done.
  pose proof (reaches_lt src roots x Hwf Hroots Hreach) as Hlt. destruct (lookup_lt_is_Some_2 _ _ Hlt) as [n Hn].
  apply wp_bind. rewrite (proj2 (index_Ok _ _ _) Hn). apply wp_lift.
  assert (potential src w (S x) = potential src w x + (2 + length (children_of (v n)))) as Hpot.
  { rewrite potential_S. f_equal. unfold cost. by rewrite decide_False, Hn. }
  apply (visit_list x); [done| | done..| |].
  { apply Forall_forall. intros c Hc. apply list_elem_of_In, in_rev, list_elem_of_In in Hc.
    split; [|by eapply reach_child]. specialize (Hwf _ _ Hn). rewrite Forall_forall in Hwf. by apply Hwf. }
  { rewrite length_rev. lia. }
  rewrite length_rev. intros f1 w1 s1 [HI1 He1 Hr1 Hg1 Hb1 Hf1] Hch.
  assert (forall c, c ∈ children_of (v n) -> visited w1 !! c = Some true) as Hch1.
  { intros c Hc. apply Hch, list_elem_of_In, in_rev. rewrite rev_involutive. by apply list_elem_of_In. }
  pose proof (Hf1 x ltac:(lia)) as Hfx. destruct f1 as [|f1]; [lia|]. cbn [walk_loop].
  assert (visited w1 !! x <> Some true) as Hv1 by (intros Hx; by apply Hv, Hb1).
  rewrite bool_decide_eq_false_2 by done. apply wp_bind. rewrite (proj2 (index_Ok _ _ _) Hn). apply wp_lift.
  apply wp_bind. eapply wp_mono; [apply (step w1 s1 x n HI1 Hreach Hn)|].
  { intros c Hc. destruct (Hr1 c (Hch1 c Hc)) as (_ & Hy & _). exact Hy. }
  cbn beta. intros y s2 (HI2 & He2 & HP). apply HQ; cbn [visited]; [|apply set_at_eq].
  pose proof (rendered_ext _ _ _ HI1 He2 Hr1) as Hr2. split; [done|by transitivity s1|..].
  - intros j Hj. cbn [visited cache] in *. destruct (decide (j = x)) as [->|Hjx].
    + split; [done|]. split; [exists y; split; [apply set_at_eq|done]|].
      intros n' c Hn' Hc. assert (n' = n) as -> by (unfold ExprNode in *; congruence). destruct (decide (c = x)) as [->|]; [apply set_at_eq|].
      apply set_at_old; [done|]. by apply Hch1.
    + apply set_at_inv in Hj; [|done..]. destruct (Hr2 j Hj) as (Rj & (yj & Hyj & HPj) & Hcj).
      split; [done|]. split; [exists yj; split; [by apply set_at_old|done]|].
      intros n' c Hn' Hc. destruct (decide (c = x)) as [->|]; [apply set_at_eq|]. apply set_at_old; [done|]. by eapply Hcj.
  - intros j Hj. cbn [visited]. destruct (decide (j = x)) as [->|]; [apply set_at_eq|]. apply set_at_old; [done|]. by apply Hg1.
  - intros j Hj Hjv. cbn [visited] in Hjv. apply set_at_inv in Hjv; [|lia|done]. apply Hb1; [lia|done].
  - intros j Hj. pose proof (Hf1 j ltac:(lia)). pose proof (potential_visit src w1 (set_at None (cache w1) x (Some y)) x n j Hv1 Hn ltac:(lia)). lia.
Qed.
Lemma cached_at w s x y (Q : ExprNode -> State E -> Prop) : cache w !! x = Some (Some y) -> Q y s -> wp p (cached w x) Q s.
Proof. intros Hc HQ. eapply wp_eq; [|exact HQ]. unfold cached, lift_comp. by rewrite (proj2 (index_Ok _ _ _) Hc). Qed.

Lemma cached_items w s (items : list AssertionItem) :
  (forall it, it ∈ items -> exists y, cache w !! ai_expr it = Some (Some y) /\ P s (ai_expr it) y) ->
  exists items', mapM (fun item => e ← cached w (ai_expr item); mret {| ai_expr := e; ai_id := ai_id item |}) items s = Ok (items', s) /\
    Forall2 (fun it it' => ai_id it' = ai_id it /\ P s (ai_expr it) (ai_expr it')) items items'.
Proof.
  induction items as [|it items IH]; intros Hc; [by exists []|].
  destruct (Hc it) as (y & Hy & HP); [set_solver|]. destruct IH as (items' & Hm & HF); [intros; apply Hc; set_solver|].
  exists ({| ai_expr := y; ai_id := ai_id it |} :: items'). split; [|by constructor].
  cbn [mapM]. unfold mbind, comp_bind, cached, lift_comp in *. rewrite (proj2 (index_Ok _ _ _) Hy). cbn. by rewrite Hm.
Qed.

Lemma reaches_visited w s : rendered w s -> (forall x, x ∈ roots -> visited w !! x = Some true) ->
  forall x, reaches src roots x -> visited w !! x = Some true.
Proof.
  intros Hr Hroot x. induction 1 as [x Hx|x n c _ IH Hn Hc]; [by apply Hroot|].
  destruct (Hr x IH) as (_ & _ & Hch). by eapply Hch.
Qed.

Lemma walk_spec items s : roots = map ai_expr items -> I s ->
  wp p (walk src items R) (fun items' s' => I s' /\ ext s s' /\
    Forall2 (fun it it' => ai_id it' = ai_id it /\ P s' (ai_expr it) (ai_expr it')) items items' /\
    forall x, reaches src roots x -> exists y, P s' x y) s.
Proof.
  intros Hitems HI. unfold walk. apply wp_bind.
  rewrite <- (app_nil_r (map _ (rev items))).
  replace (map (fun item => (ai_expr item, false)) (rev items)) with (map (fun c => (c, false)) (map ai_expr (rev items))) by apply map_map.
  apply (visit_list (length src)).
  - intros c _. apply visit_node.
  - apply Forall_forall. intros c Hc. assert (c ∈ roots) as Hin.
    { rewrite Hitems. apply list_elem_of_In in Hc. rewrite map_rev, <- in_rev in Hc. by apply list_elem_of_In. }
    split; [by eapply Forall_forall in Hroots|by apply reach_root].
  - by intros x Hx%lookup_nil_Some || (intros x Hx; cbn in Hx; by rewrite lookup_nil in Hx).
  - done.
  - rewrite potential_start, length_map, length_rev. unfold walk_fuel. lia.
  - intros f1 w1 s1 [HI1 He1 Hr1 _ _ _] Hvis.
    assert (forall x, reaches src roots x -> visited w1 !! x = Some true) as Hall.
    { apply (reaches_visited w1 s1 Hr1). intros x Hx. apply Hvis. rewrite Hitems in Hx.
      apply list_elem_of_In. rewrite map_rev, <- in_rev. by apply list_elem_of_In. }
    destruct (cached_items w1 s1 items) as (items' & Hit & HF).
    { intros it Hin. destruct (Hr1 (ai_expr it)) as (_ & (y & Hy & HP) & _); [|by exists y].
      apply Hall, reach_root. rewrite Hitems. apply list_elem_of_fmap. by exists it. }
    destruct f1; cbn [walk_loop]; apply wp_ret; (eapply wp_eq; [exact Hit|]);
      (split; [done|]; split; [done|]; split; [done|]);
      intros x Hx; destruct (Hr1 x (Hall x Hx)) as (_ & (y & _ & HP) & _); by exists y.
Qed.
End walk.
