(* ===== verification/RewriterFacts.v ===== *)
(** * What a rewriter promises

    [RewriterOk]: every operation of a rewriter keeps the invariant of the
    state, only extends it, and returns a node whose value is the operation
    applied to the values of its operands.  A walk with such a rewriter
    preserves the value of every node.  The strip pass collects the nested
    assertions of the live nodes. *)
From stdpp Require Import prelude gmap sorting strings.
From Stdlib Require Import Lia NArith Ring Ring_theory.
From S2P Require Import Prelude Words Interfaces Field FieldFacts Scope CompilerIR CompilerPasses CompilerSem CseFacts.

Local Open Scope fe_scope.

Section interface.
Context {E : Type} `{AlgebraicField E}.

(** A node of the target with the value [f], in a state that extends [s]. *)
Record yields (I : State E -> Prop) (ext : State E -> State E -> Prop) (G : State E -> ExprNode -> Prop)
    (s : State E) (f : (nat -> E) -> E) (y : ExprNode) (s' : State E) : Prop := {
  y_inv : I s'; y_ext : ext s s'; y_good : G s' y;
  y_value inp : value inp (arena s') y = f inp
}.

(** [okc] and [okl] are what the rewriter expects of coefficients and of the
    operands of sums. *)
Class RewriterOk (p : bool) (R : RewriteT E) (I : State E -> Prop) (ext : State E -> State E -> Prop)
    (G : State E -> ExprNode -> Prop) (okc : E -> Prop) (okl : list ExprNode -> Prop) : Prop := {
  ro_preorder :: PreOrder ext;
  ro_extends s s' : ext s s' -> CseFacts.ext s s';
  ro_lt s x : I s -> G s x -> x < length (arena s);
  ro_good s s' x : I s -> ext s s' -> G s x -> G s' x;
  ro_input i s : I s -> wp p (rw_input R i) (yields I ext G s (fun inp => inp i)) s;
  ro_one s : I s -> wp p (rw_one R) (yields I ext G s (fun _ => 1)) s;
  ro_constant e s : okc e -> I s -> wp p (rw_constant R e) (yields I ext G s (fun _ => e)) s;
  ro_sum l b s : okl l -> I s -> Forall (G s) l ->
    wp p (rw_sum R l b) (yields I ext G s (fun inp => sigma l (value inp (arena s)))) s;
  ro_linear e x s : okc e -> I s -> G s x ->
    wp p (rw_linear R e x) (yields I ext G s (fun inp => e * value inp (arena s) x)) s;
  ro_quadratic e x y s : okc e -> I s -> G s x -> G s y ->
    wp p (rw_quadratic R e x y) (yields I ext G s (fun inp => e * (value inp (arena s) x * value inp (arena s) y))) s
}.
End interface.

Section plain.
Context {E : Type} `{AlgebraicFieldLaws E}.
Context (p : bool) (R : RewriteT E) (I : State E -> Prop) (ext : State E -> State E -> Prop)
  (G : State E -> ExprNode -> Prop) (okc : E -> Prop) (okl : list ExprNode -> Prop)
  `{!RewriterOk p R I ext G okc okl}.
Context (src : list (Node E)) (Hwf : arena_wf src).

Definition same_value (s : State E) (x y : ExprNode) : Prop :=
  G s y /\ forall inp, value inp (arena s) y = value inp src x.
Lemma same_value_ext s s' x y : I s -> ext s s' -> same_value s x y -> same_value s' x y.
Proof.
  intros HI He [Hg Hv]. split; [by eapply (ro_good (R:=R))|]. intros inp. rewrite <- Hv.
  apply value_ext; [by eapply (ro_extends (R:=R))|by eapply (ro_lt (R:=R))].
Qed.

(** The operands of a node that is not a wrapper. *)
Definition plain (e : Expr E) : Prop :=
  match e with
  | WithAssertions _ _ => False
  | Constant e | Linear e _ | Quadratic e _ _ => okc e
  | Sum l _ => forall l', length l' = length l -> okl l'
  | _ => True
  end.

Lemma cached_list w s l (P : ExprNode -> ExprNode -> Prop) :
  (forall c, c ∈ l -> exists y, cache w !! c = Some (Some y) /\ P c y) ->
  exists ys, mapM (cached (E:=E) w) l s = Ok (ys, s) /\ Forall2 P l ys.
Proof.
  induction l as [|c l IH]; intros Hc; [by exists []|].
  destruct (Hc c) as (y & Hy & HP); [set_solver|]. destruct IH as (ys & Hm & HF); [intros; apply Hc; set_solver|].
  exists (y :: ys). split; [|by constructor]. cbn [mapM]. unfold mbind, comp_bind, cached, lift_comp in *.
  rewrite (proj2 (index_Ok _ _ _) Hy). cbn. by rewrite Hm.
Qed.
Lemma cached_one w s c y : cache w !! c = Some (Some y) -> cached (E:=E) w c s = Ok (y, s).
Proof. intros Hc. unfold cached, lift_comp. by rewrite (proj2 (index_Ok _ _ _) Hc). Qed.

Lemma sigma_same s l ys inp : Forall2 (same_value s) l ys -> sigma ys (value inp (arena s)) = sigma l (value inp src).
Proof. induction 1 as [|c y l ys [_ Hv] _ IH]; [done|]. by rewrite !sigma_cons, IH, Hv. Qed.

Lemma plain_step w s x n :
  I s -> src !! x = Some n -> plain (v n) ->
  (forall c, c ∈ children_of (v n) -> exists y, cache w !! c = Some (Some y) /\ same_value s c y) ->
  wp p (rewrite_node R w (v n)) (fun y s' => I s' /\ ext s s' /\ same_value s' x y) s.
Proof.
  intros HI Hn Hok Hch.
  assert (forall f, (forall inp, f inp = value inp src x) -> forall (m : comp E ExprNode),
    wp p m (yields I ext G s f) s -> wp p m (fun y s' => I s' /\ ext s s' /\ same_value s' x y) s) as Hy.
  { intros f Hf m Hm. eapply wp_mono; [exact Hm|]. intros y s' [HI' He Hg Hv].
    split; [done|]. split; [done|]. split; [done|]. intros inp. by rewrite Hv. }
  assert (forall inp, value inp src x = denote inp (value inp src) (v n)) as Hval.
  { intros inp. apply value_node; [done|]. unfold expr_at. by rewrite Hn. }
  destruct (v n) as [i|l b| |e|e z|e z z'|a z]; cbn [rewrite_node children_of plain denote] in *.
  - eapply Hy; [|by apply (ro_input (R:=R))]. intros inp. by rewrite Hval.
  - destruct (cached_list w s l (same_value s) Hch) as (ys & Hm & HF). apply wp_bind. eapply wp_eq; [exact Hm|].
    eapply Hy; [|apply (ro_sum (R:=R)); [|done|]].
    + intros inp. cbn. rewrite Hval. by apply sigma_same.
    + apply Hok. symmetry. by eapply Forall2_length.
    + apply Forall_forall. intros y Hin. apply list_elem_of_lookup in Hin as [j Hj].
      destruct (Forall2_lookup_r _ _ _ _ _ HF Hj) as (c & _ & [Hg _]). done.
  - eapply Hy; [|by apply (ro_one (R:=R))]. intros inp. by rewrite Hval.
  - eapply Hy; [|by apply (ro_constant (R:=R))]. intros inp. by rewrite Hval.
  - destruct (Hch z) as (y & Hc & Hg & Hv); [set_solver|]. apply wp_bind. eapply wp_eq; [by apply cached_one|].
    eapply Hy; [|by apply (ro_linear (R:=R))]. intros inp. cbn. by rewrite Hval, Hv.
  - destruct (Hch z) as (y & Hc & Hg & Hv); [set_solver|]. destruct (Hch z') as (y' & Hc' & Hg' & Hv'); [set_solver|].
    apply wp_bind. eapply wp_eq; [by apply cached_one|]. apply wp_bind. eapply wp_eq; [by apply cached_one|].
    eapply Hy; [|by apply (ro_quadratic (R:=R))]. intros inp. cbn. by rewrite Hval, Hv, Hv'.
  - done.
Qed.

(** A walk over nodes that are not wrappers preserves their values. *)
Lemma walk_values items s :
  Forall (fun it => ai_expr it < length src) items ->
  (forall x n, reaches src (map ai_expr items) x -> src !! x = Some n -> plain (v n)) ->
  I s ->
  wp p (walk src items R) (fun items' s' => I s' /\ ext s s' /\
    Forall2 (fun it it' => ai_id it' = ai_id it /\ same_value s' (ai_expr it) (ai_expr it')) items items') s.
Proof.
  intros Hr Hplain HI. eapply wp_mono.
  - apply (walk_spec p R src Hwf (map ai_expr items)) with (ext := ext) (P := same_value).
    + by apply Forall_map.
    + apply (ro_preorder (R:=R)).
    + intros *. apply same_value_ext.
    + intros w s1 x n HI1 Hx Hn Hc. apply plain_step; [done..|by eapply Hplain|done].
    + done.
    + exact HI.
  - cbn beta. by intros items' s' (? & ? & ? & _).
Qed.
End plain.

(** * Stripping assertions

    [Cse] as a rewriter, and [assertion::strip_all]: the assertions that hold
    in the source, nested ones included, are those that the returned list
    says are zero. *)

Section cse.
Context {E : Type} `{AlgebraicFieldLaws E} `{!EqDecision E}.
Add Ring field_ring_strip : (field_ring (E:=E)).

Lemma sigma_perm {X} (l l' : list X) (g : X -> E) : l ≡ₚ l' -> sigma l g = sigma l' g.
Proof.
  induction 1 as [|x l l' _ IH|x y l|l1 l2 l3 _ IH1 _ IH2]; [done|by rewrite !sigma_cons, IH|rewrite !sigma_cons; ring|congruence].
Qed.
Lemma sort_ids_perm l : cse.sort_ids l ≡ₚ l.
Proof. apply merge_sort_Permutation. Qed.

Section ops.
Context (N : list (Node E) -> Expr E -> Prop).
Context (N_prefix : forall a b e, a `prefix_of` b -> scoped a e -> N a e -> N b e).

(** The node of an expression. *)
Definition is_node (e : Expr E) (s : State E) (y : ExprNode) (s' : State E) : Prop :=
  yields (inv N) quiet known s (fun inp => denote inp (value inp (arena s)) e) y s' /\ expr_at (arena s') y = Some e.

Lemma memo_yields p s e : inv N s -> Forall (known s) (children_of e) -> N (arena s) e ->
  wp p (cse.memo_expr e) (is_node e s) s.
Proof.
  intros Hi Hc Hn. apply (memo_expr_ok N N_prefix); [done..|]. intros y s' Hi' Hq Hk He. split; [|done].
  split; [done..|]. intros inp. rewrite (value_node inp _ _ e) by (done || apply Hi').
  apply denote_ext. intros c Hin. rewrite Forall_forall in Hc.
  eapply value_known; [done|apply Hq|by apply Hc].
Qed.

Lemma cse_sum_yields p s l b : inv N s -> Forall (known s) l -> N (arena s) (Sum (cse.sort_ids l) b) ->
  wp p (rw_sum cse.rewriter l b) (fun y s' =>
    yields (inv N) quiet known s (fun inp => sigma l (value inp (arena s))) y s' /\
    expr_at (arena s') y = Some (Sum (cse.sort_ids l) b)) s.
Proof.
  intros Hi Hk Hn. eapply wp_mono; [apply memo_yields; [done| |done]|].
  - cbn. eapply Forall_Permutation; [done| |exact Hk]. by rewrite sort_ids_perm.
  - intros y s' [[Hi' Hq Hg Hv] He]. split; [|done]. split; [done..|]. intros inp. rewrite Hv. cbn.
    apply sigma_perm, sort_ids_perm.
Qed.
Lemma cse_quadratic_yields p s e x y : inv N s -> known s x -> known s y ->
  (let '(cx, cy) := cse.canonical2 x y in N (arena s) (Quadratic e cx cy)) ->
  wp p (rw_quadratic cse.rewriter e x y) (fun z s' =>
    yields (inv N) quiet known s (fun inp => e * (value inp (arena s) x * value inp (arena s) y)) z s' /\
    (let '(cx, cy) := cse.canonical2 x y in expr_at (arena s') z = Some (Quadratic e cx cy))) s.
Proof.
  intros Hi Hx Hy Hn. cbn [rw_quadratic cse.rewriter]. unfold cse.canonical2 in *.
  destruct (x <? y)%nat; (eapply wp_mono; [apply memo_yields; [done|by repeat constructor|done]|]);
    intros z s' [[Hi' Hq Hg Hv] He]; (split; [|done]); (split; [done..|]); intros inp; rewrite Hv; cbn; ring.
Qed.
End ops.

(** [Cse] itself: any nodes will do that the predicate accepts. *)
Section rewriter.
Context (N : list (Node E) -> Expr E -> Prop) (J : State E -> Prop) (ext : State E -> State E -> Prop) `{!PreOrder ext}.
Context (N_prefix : forall a b e, a `prefix_of` b -> scoped a e -> N a e -> N b e).
Context (N_plain : forall a e, match e with WithAssertions _ _ => True | _ => N a e end).
Context (ext_weak : forall s s', ext s s' -> CseFacts.ext s s').
Context (ext_quiet : forall s s', quiet s s' -> ext s s').
Context (J_quiet : forall s s', inv N s -> quiet s s' -> J s -> J s').

Lemma yields_J p m s f : J s -> inv N s ->
  wp p m (yields (inv N) quiet known s f) s -> wp p m (yields (fun s => inv N s /\ J s) ext known s f) s.
Proof.
  intros HJ Hi Hm. eapply wp_mono; [exact Hm|]. intros y s' [Hi' Hq Hg Hv]. split; [|by apply ext_quiet|done|done].
  split; [done|]. by apply (J_quiet s).
Qed.
#[local] Instance cse_ok p : RewriterOk p cse.rewriter (fun s => inv N s /\ J s) ext known (fun _ => True) (fun _ => True).
Proof.
  split; try done.
  - intros s x [Hi _]. by apply (known_lt N).
  - intros s s' x _ He. by apply known_ext, ext_weak.
  - intros i s [Hi HJ]. apply yields_J; [done..|]. eapply wp_mono; [apply (memo_yields N N_prefix); [done|done|exact (N_plain _ (Input i))]|by intros y s' []].
  - intros s [Hi HJ]. apply yields_J; [done..|]. eapply wp_mono; [apply (memo_yields N N_prefix); [done|done|exact (N_plain _ One)]|by intros y s' []].
  - intros e s _ [Hi HJ]. apply yields_J; [done..|]. eapply wp_mono; [apply (memo_yields N N_prefix); [done|done|exact (N_plain _ (Constant e))]|by intros y s' []].
  - intros l b s _ [Hi HJ] Hl. apply yields_J; [done..|].
    eapply wp_mono; [apply (cse_sum_yields N N_prefix); [done|done|exact (N_plain _ (Sum _ b))]|by intros y s' []].
  - intros e x s _ [Hi HJ] Hx. apply yields_J; [done..|].
    eapply wp_mono; [apply (memo_yields N N_prefix); [done|by repeat constructor|exact (N_plain _ (Linear e x))]|by intros y s' []].
  - intros e x y s _ [Hi HJ] Hx Hy. apply yields_J; [done..|].
    eapply wp_mono; [apply (cse_quadratic_yields N N_prefix); [done..|]|by intros z s' []].
    destruct (cse.canonical2 x y) as [cx cy]. exact (N_plain _ (Quadratic e cx cy)).
Qed.
End rewriter.
End cse.

(** ** The assertions of a program *)
Section satisfied.
Context {E : Type} `{AlgebraicField E}.
Definition zeros (inp : nat -> E) (a : list (Node E)) (items : list AssertionItem) : Prop :=
  forall it, it ∈ items -> value inp a (ai_expr it) = 0.
(** Every root is zero and so is every assertion attached to a node below a
    root. *)
Definition satisfied (inp : nat -> E) (src : list (Node E)) (items : list AssertionItem) : Prop :=
  zeros inp src items /\
  forall x l z, reaches src (map ai_expr items) x -> expr_at src x = Some (WithAssertions l z) -> zeros inp src l.

Lemma zeros_map inp a items : zeros inp a items <-> forall x, x ∈ map ai_expr items -> value inp a x = 0.
Proof.
  split; intros Hz x Hx; [apply list_elem_of_fmap in Hx as (it & -> & Hin); by apply Hz|].
  apply Hz, list_elem_of_fmap. by exists x.
Qed.
Lemma zeros_exprs inp a items items' :
  (forall x, x ∈ map ai_expr items <-> x ∈ map ai_expr items') -> zeros inp a items <-> zeros inp a items'.
Proof. intros Hx. rewrite !zeros_map. split; intros Hz x Hin; by apply Hz, Hx. Qed.
End satisfied.

(** ** [dedup_assertions] *)
Section dedup.
Context `{HashOrder} `{!HashOrderLaws}.

Lemma map_get_Some (m : list (ExprNode * AssertionItem)) k it : assertion.map_get m k = Some it -> (k, it) ∈ m.
Proof.
  unfold assertion.map_get. intros Hl. apply fmap_Some in Hl as ([k' it'] & Hl & ->).
  apply bind_Some in Hl as ([i q] & Hf & [= Hp]). apply list_find_Some in Hf as (Hi & Hk & _).
  cbn in Hp. subst q. cbn in Hk. subst k'. by eapply list_elem_of_lookup_2.
Qed.
Lemma map_get_None (m : list (ExprNode * AssertionItem)) k : assertion.map_get m k = None -> k ∉ m.*1.
Proof.
  unfold assertion.map_get. intros Hl Hin. apply list_elem_of_fmap in Hin as ([k' it] & -> & Hin). cbn in Hl.
  destruct (list_find_elem_of (fun q : ExprNode * AssertionItem => q.1 = k') m (k', it)) as [[i q] Hf]; [done|done|].
  by rewrite Hf in Hl.
Qed.

Lemma dedup_fold items : forall m tracker,
  (forall k it, (k, it) ∈ m -> k = ai_expr it) -> NoDup m.*1 ->
  let m' := (foldl assertion.dedup_step (m, tracker) items).1 in
  (forall k it, (k, it) ∈ m' -> k = ai_expr it) /\ NoDup m'.*1 /\
  forall x, x ∈ m'.*1 <-> x ∈ m.*1 \/ x ∈ map ai_expr items.
Proof.
  induction items as [|it items IH]; intros m tracker Hk Hnd; cbn [foldl].
  { split; [done|]. split; [done|]. intros x. cbn. rewrite elem_of_nil. tauto. }
  assert (assertion.dedup_step (m, tracker) it = match assertion.map_get m (ai_expr it) with
    | Some ex => (m, scope.union tracker (ai_id ex) (ai_id it)) | None => (m ++ [(ai_expr it, it)], tracker) end) as -> by done.
  destruct (assertion.map_get m (ai_expr it)) as [ex|] eqn:Hg.
  - apply map_get_Some in Hg. destruct (IH m (scope.union tracker (ai_id ex) (ai_id it)) Hk Hnd) as (A & B & C).
    split; [exact A|]. split; [exact B|]. intros x. rewrite C. cbn [map]. rewrite elem_of_cons.
    split; [tauto|]. intros [?|[->|?]]; [by left| |by right]. left. apply list_elem_of_fmap. by exists (ai_expr it, ex).
  - apply map_get_None in Hg. destruct (IH (m ++ [(ai_expr it, it)]) tracker) as (A & B & C).
    { intros k it' [Hin|Hin%list_elem_of_singleton]%elem_of_app; [by apply Hk|]. by injection Hin as -> ->. }
    { rewrite fmap_app. apply NoDup_app. split; [done|]. split; [|apply NoDup_singleton]. intros x Hx Hx'.
      apply list_elem_of_singleton in Hx'. cbn in Hx'. by subst x. }
    split; [exact A|]. split; [exact B|]. intros x. rewrite C, fmap_app, elem_of_app. cbn [map fmap list_fmap fst].
    rewrite list_elem_of_singleton, elem_of_cons. tauto.
Qed.
Lemma dedup_exprs items tracker unique tracker' : assertion.dedup_assertions items tracker = (unique, tracker') ->
  (forall x, x ∈ map ai_expr unique <-> x ∈ map ai_expr items) /\ NoDup (map ai_expr unique).
Proof.
  unfold assertion.dedup_assertions. pose proof (dedup_fold items [] tracker) as Hf.
  destruct (foldl assertion.dedup_step ([], tracker) items) as [m t]. intros [= <- <-].
  destruct Hf as (A & B & C); [by intros k it ?%not_elem_of_nil|constructor|]. cbn [fst] in *.
  assert (map ai_expr (into_values m) ≡ₚ m.*1) as Hp.
  { rewrite (into_values_perm m), map_map.
    replace (map (fun x : ExprNode * AssertionItem => ai_expr x.2) m) with m.*1; [done|].
    apply map_ext_in. intros [k it] Hin. apply list_elem_of_In in Hin. by apply A. }
  split; [|by rewrite Hp]. intros x. rewrite Hp, C. cbn. rewrite elem_of_nil. tauto.
Qed.
End dedup.

(** ** [strip_all] *)
Section strip.
Context {E : Type} `{AlgebraicFieldLaws E} `{!EqDecision E} `{!Comparable E}.

(** No wrappers are built. *)
Definition unwrapped (_ : list (Node E)) (e : Expr E) : Prop :=
  match e with WithAssertions _ _ => False | _ => True end.
Lemma unwrapped_prefix a b e : a `prefix_of` b -> scoped a e -> unwrapped a e -> unwrapped b e.
Proof. done. Qed.
Lemma unwrapped_plain a e : match e with WithAssertions _ _ => True | _ => unwrapped a e end.
Proof. by destruct e. Qed.

Lemma strip_ok (J : State E -> Prop) (ext : State E -> State E -> Prop) `{!PreOrder ext} p :
  (forall s s', ext s s' -> CseFacts.ext s s') -> (forall s s', quiet s s' -> ext s s') ->
  (forall s s', inv unwrapped s -> quiet s s' -> J s -> J s') ->
  RewriterOk p (assertion.strip_rewriter cse.rewriter) (fun s => inv unwrapped s /\ J s) ext known (fun _ => True) (fun _ => True).
Proof.
  intros H1 H2 H3. destruct (cse_ok unwrapped J ext unwrapped_prefix unwrapped_plain H1 H2 H3 p). by split.
Qed.

(** The state may also collect assertions. *)
Record collects (s s' : State E) : Prop := { co_ext : CseFacts.ext s s'; co_collected : collected s ⊆ collected s' }.
#[local] Instance collects_preorder : PreOrder collects.
Proof. split; [by split|]. intros s s1 s2 [X1 C1] [X2 C2]. split; [by transitivity s1|set_solver]. Qed.

Section first.
Context (p : bool) (src : list (Node E)) (Hwf : arena_wf src) (roots : list ExprNode).

(** Only assertions below the roots are collected. *)
Definition genuine (s : State E) : Prop := forall it', it' ∈ collected s ->
  known s (ai_expr it') /\ exists x l z it, reaches src roots x /\ expr_at src x = Some (WithAssertions l z) /\ it ∈ l /\
    forall inp, value inp (arena s) (ai_expr it') = value inp src (ai_expr it).
Definition strip_inv (s : State E) : Prop := inv unwrapped s /\ genuine s.
(** The assertions of a wrapper are collected. *)
Definition stripped (s : State E) (x y : ExprNode) : Prop :=
  same_value known src s x y /\
  forall l z, expr_at src x = Some (WithAssertions l z) -> forall it, it ∈ l ->
    exists it', it' ∈ collected s /\ forall inp, value inp (arena s) (ai_expr it') = value inp src (ai_expr it).

Lemma genuine_ext s s' : inv unwrapped s -> CseFacts.ext s s' -> collected s' = collected s -> genuine s -> genuine s'.
Proof.
  intros Hi He Hc Hg it' Hin. rewrite Hc in Hin. destruct (Hg it' Hin) as (Hk & x & l & z & it & Hx & Hl & Hit & Hv).
  split; [by eapply known_ext|]. exists x, l, z, it. split; [done|]. split; [done|]. split; [done|]. intros inp.
  rewrite <- Hv. by eapply value_known.
Qed.
#[local] Instance strip_first_ok : RewriterOk p (assertion.strip_rewriter cse.rewriter) strip_inv collects known (fun _ => True) (fun _ => True).
Proof.
  apply strip_ok; [apply _|by intros s s' []|..].
  - intros s s' [Hx _ Hc]. split; [done|]. by rewrite Hc.
  - intros s s' Hi [Hx _ Hc]. by apply genuine_ext.
Qed.
Lemma stripped_ext s s' x y : strip_inv s -> collects s s' -> stripped s x y -> stripped s' x y.
Proof.
  intros Hs He [Hv Hc]. split.
  - by apply (same_value_ext p (assertion.strip_rewriter cse.rewriter) strip_inv collects known (fun _ => True) (fun _ => True) src s).
  - intros l z Hl it Hit. destruct (Hc l z Hl it Hit) as (it' & Hin & Hval). exists it'. split; [by apply He|].
    intros inp. rewrite <- Hval. eapply value_known; [apply Hs|apply He|]. by apply (proj2 Hs).
Qed.

(** The loop over the assertions of a wrapper only reads. *)
Lemma walk_assertions_ok w s l :
  (forall it, it ∈ l -> exists y, cache w !! ai_expr it = Some (Some y) /\ same_value known src s (ai_expr it) y) ->
  exists seen items, foldC (walk_assertion (assertion.strip_rewriter cse.rewriter) w) ([], []) l s = Ok ((seen, items), s) /\
    (forall it, it ∈ l -> exists it', it' ∈ items /\ same_value known src s (ai_expr it) (ai_expr it')) /\
    (forall it', it' ∈ items -> exists it, it ∈ l /\ same_value known src s (ai_expr it) (ai_expr it')).
Proof.
  intros Hl. set (I := fun (s' : State E) (done_ : list AssertionItem) (st : list ExprNode * list AssertionItem) =>
    s' = s /\ st.1 = map ai_expr st.2 /\
    (forall it, it ∈ done_ -> exists it', it' ∈ st.2 /\ same_value known src s (ai_expr it) (ai_expr it')) /\
    (forall it', it' ∈ st.2 -> exists it, it ∈ l /\ same_value known src s (ai_expr it) (ai_expr it'))).
  assert (wp false (foldC (walk_assertion (assertion.strip_rewriter cse.rewriter) w) ([], []) l) (fun st s' => I s' l st) s) as Hw.
  { apply (wp_foldC false I _ l []); [|..|done].
    - split; [done|]. split; [done|]. split; by intros it ?%not_elem_of_nil.
    - intros done_ it rest [seen items] s' Hd (-> & Hseen & Ha & Hb). cbn [fst snd] in *.
      destruct (Hl it) as (y & Hy & Hv); [rewrite Hd; set_solver|].
      unfold walk_assertion. apply wp_bind. eapply wp_eq; [by apply cached_one|].
      apply wp_bind. eapply wp_eq; [reflexivity|]. apply wp_ret. cbn [foldl].
      destruct (bool_decide_reflect (y ∈ seen)) as [Hin|Hin].
      + split; [done|]. split; [done|]. split; [|exact Hb]. intros it0 [Hit|Hit%list_elem_of_singleton]%elem_of_app; [by apply Ha|].
        subst it0. rewrite Hseen in Hin. apply list_elem_of_fmap in Hin as (it' & -> & Hin). by exists it'.
      + split; [done|]. split; [cbn [fst snd]; by rewrite Hseen, map_app|]. cbn [snd]. split.
        * intros it0 [Hit|Hit%list_elem_of_singleton]%elem_of_app.
          -- destruct (Ha it0 Hit) as (it' & Hin' & Hv'). exists it'. split; [set_solver|done].
          -- subst it0. exists {| ai_expr := y; ai_id := ai_id it |}. split; [set_solver|done].
        * intros it' [Hit|Hit%list_elem_of_singleton]%elem_of_app; [by apply Hb|]. subst it'. exists it. split; [|done]. rewrite Hd. set_solver. }
  apply wp_total in Hw as ([seen items] & s' & Hf & -> & _ & Ha & Hb). by exists seen, items.
Qed.

Lemma strip_step w s x n :
  strip_inv s -> reaches src roots x -> src !! x = Some n ->
  (forall c, c ∈ children_of (v n) -> exists y, cache w !! c = Some (Some y) /\ stripped s c y) ->
  wp p (rewrite_node (assertion.strip_rewriter cse.rewriter) w (v n)) (fun y s' => strip_inv s' /\ collects s s' /\ stripped s' x y) s.
Proof.
  intros HI Hx Hn Hch.
  assert (forall c, c ∈ children_of (v n) -> exists y, cache w !! c = Some (Some y) /\ same_value known src s c y) as Hch'.
  { intros c Hc. destruct (Hch c Hc) as (y & Hy & Hv & _). by exists y. }
  destruct (v n) as [i|l b| |e|e z|e z z'|l z] eqn:Hv.
  1-6: (eapply wp_mono; [rewrite <- Hv; eapply (plain_step p _ strip_inv collects known (fun _ => True) (fun _ => True) src Hwf w s x n); [done|done|by rewrite Hv|by rewrite Hv]|]);
    cbn beta; intros y s' (HI' & He & Hsv); split; [done|]; split; [done|]; split; [done|];
    intros l' z'' Hl'; unfold expr_at in Hl'; rewrite Hn in Hl'; cbn in Hl'; rewrite Hv in Hl'; discriminate.
  cbn [rewrite_node children_of] in *.
  destruct (walk_assertions_ok w s l) as (seen & items & Hf & Ha & Hb).
  { intros it Hit. apply Hch'. right. apply list_elem_of_fmap. by exists it. }
  apply wp_bind. eapply wp_eq; [exact Hf|]. destruct (Hch' z) as (y & Hy & Hsv); [set_solver|].
  apply wp_bind. eapply wp_eq; [by apply cached_one|]. apply wp_bind. eapply wp_eq; [reflexivity|]. apply wp_ret.
  cbn [arena memo ones collected]. assert (forall s1 : State E, arena s1 = arena s -> memo s1 = memo s -> forall a b, same_value known src s a b -> same_value known src s1 a b) as Hsame.
  { intros s1 Ea Em a b [[ek Hk] Hval]. split; [exists ek; by rewrite Em|]. by rewrite Ea. }
  split.
  - split; [by destruct HI as [[] _]; split|]. intros it' [Hin|Hin]%elem_of_app.
    + destruct (proj2 HI it' Hin) as (Hk & Hrest). by split.
    + destruct (Hb it' Hin) as (it & Hit & Hk & Hval). split; [exact Hk|]. exists x, l, z, it.
      split; [done|]. split; [unfold expr_at; rewrite Hn; cbn; by rewrite Hv|]. by split.
  - split; [split; [split; [done|done]|cbn; set_solver]|].
    split; [split; [apply Hsv|]|].
    + intros inp. cbn [arena]. rewrite (proj2 Hsv). symmetry. rewrite (value_node inp src x (WithAssertions l z)); [done|done|].
      unfold expr_at. rewrite Hn. cbn. by rewrite Hv.
    + intros l' z' Hl' it Hit. unfold expr_at in Hl'. rewrite Hn in Hl'. cbn in Hl'. rewrite Hv in Hl'. injection Hl' as <- <-.
      destruct (Ha it Hit) as (it' & Hin & _ & Hval). exists it'. split; [cbn; set_solver|exact Hval].
Qed.
End first.

Lemma reaches_known N (s : State E) roots x : inv N s -> Forall (known s) roots -> reaches (arena s) roots x -> known s x.
Proof.
  intros Hi Hr. induction 1 as [x Hx|x n c _ IH Hn Hc]; [by eapply Forall_forall in Hr|].
  assert (expr_at (arena s) x = Some (v n)) as He by (unfold expr_at; by rewrite Hn).
  pose proof (known_children _ _ _ _ Hi IH He) as Hch. rewrite Forall_forall in Hch. by apply Hch.
Qed.

(** A list of nodes of the table that stands for the assertions of the
    source. *)
Definition flattens (src : list (Node E)) (items : list AssertionItem) (items' : list AssertionItem) (s : State E) : Prop :=
  inv unwrapped s /\ collected s = [] /\ Forall (fun it => known s (ai_expr it)) items' /\
  forall inp, zeros inp (arena s) items' <-> satisfied inp src items.

Context `{HashOrder} `{!HashOrderLaws}.

Lemma flattens_dedup src items items' items'' tracker tracker' s :
  flattens src items items' s -> assertion.dedup_assertions items' tracker = (items'', tracker') -> flattens src items items'' s.
Proof.
  intros (Hi & Hc & Hk & Hz) Hd. destruct (dedup_exprs _ _ _ _ Hd) as [Hx _]. split; [done|]. split; [done|]. split.
  - apply Forall_forall. intros it Hin. assert (ai_expr it ∈ map ai_expr items') as Hin' by (apply Hx, list_elem_of_fmap; eauto).
    apply list_elem_of_fmap in Hin' as (it' & -> & Hin'). rewrite Forall_forall in Hk. by apply Hk.
  - intros inp. rewrite <- Hz. by apply zeros_exprs.
Qed.

(** The first walk and what it collected. *)
Lemma strip_first_walk p src items s :
  arena_wf src -> Forall (fun it => ai_expr it < length src)%nat items -> inv unwrapped s -> collected s = [] ->
  wp p (walk src items (assertion.strip_rewriter cse.rewriter)) (fun items' s' =>
    flattens src items (items' ++ collected s') {| arena := arena s'; memo := memo s'; ones := ones s'; collected := [] |}) s.
Proof.
  intros Hwf Hr Hi Hc. set (roots := map ai_expr items). eapply wp_mono.
  - apply (walk_spec p _ src Hwf roots) with (I := strip_inv src roots) (ext := collects) (P := stripped src).
    + by apply Forall_map.
    + apply _.
    + intros s1 s2 x y. by apply (stripped_ext p src roots).
    + intros w s1 x n. by apply strip_step.
    + done.
    + split; [done|]. intros it'. rewrite Hc. by intros ?%not_elem_of_nil.
  - cbn beta. intros items' s' ([Hi' Hg] & He & HF & Hall).
    assert (forall it', it' ∈ items' -> exists it, it ∈ items /\ stripped src s' (ai_expr it) (ai_expr it')) as Hback.
    { intros it' Hin. apply list_elem_of_lookup in Hin as [i Hl]. destruct (Forall2_lookup_r _ _ _ _ _ HF Hl) as (it & Hit & _ & Hs).
      exists it. split; [by eapply list_elem_of_lookup_2|done]. }
    split; [by destruct Hi'; split|]. split; [done|]. split.
    + apply Forall_forall. intros it' [Hin|Hin]%elem_of_app; [|by destruct (Hg it' Hin) as [[ek Hk] _]; exists ek].
      destruct (Hback it' Hin) as (it & _ & [[ek Hk] _] & _). by exists ek.
    + intros inp. cbn [arena]. split.
      * intros Hz. split.
        -- intros it Hin. apply list_elem_of_lookup in Hin as [i Hl]. destruct (Forall2_lookup_l _ _ _ _ _ HF Hl) as (it' & Hit' & _ & [_ Hv] & _).
           rewrite <- Hv. apply Hz. apply elem_of_app. left. by eapply list_elem_of_lookup_2.
        -- intros x l z Hx Hl it Hit. destruct (Hall x Hx) as (y & _ & Hw). destruct (Hw l z Hl it Hit) as (it' & Hin & Hv).
           rewrite <- Hv. apply Hz. apply elem_of_app. by right.
      * intros [Hz Hw] it' [Hin|Hin]%elem_of_app.
        -- destruct (Hback it' Hin) as (it & Hit & [_ Hv] & _). rewrite Hv. by apply Hz.
        -- destruct (Hg it' Hin) as (_ & x & l & z & it & Hx & Hl & Hit & Hv). rewrite Hv. by apply (Hw x l z).
Qed.

(** A second walk finds nothing to strip. *)
Lemma strip_second_walk p src items unique s :
  flattens src items unique s ->
  wp p (walk (arena s) unique (assertion.strip_rewriter cse.rewriter)) (fun items' s' => flattens src items items' s') s.
Proof.
  intros (Hi & Hc & Hk & Hz).
  assert (forall s s' : State E, inv unwrapped s -> quiet s s' -> collected s = [] -> collected s' = []) as HJ by (intros s1 s2 _ [_ _ ->]; done).
  pose proof (strip_ok (fun s => collected s = []) quiet p quiet_ext (fun _ _ q => q) HJ) as Hok.
  eapply wp_mono.
  - apply (walk_values p (assertion.strip_rewriter cse.rewriter) (fun s => inv unwrapped s /\ collected s = []) quiet known (fun _ => True) (fun _ => True) (arena s) (inv_wf _ _ Hi)).
    + eapply Forall_impl; [exact Hk|]. intros it. by apply (known_lt unwrapped).
    + intros x n Hx Hn. assert (known s x) as Hkx by (eapply reaches_known; [done|by apply Forall_map|done]).
      assert (expr_at (arena s) x = Some (v n)) as He by (unfold expr_at; by rewrite Hn).
      pose proof (known_node _ _ _ _ Hi Hkx He) as Hu. by destruct (v n).
    + done.
  - cbn beta. intros items' s' ((Hi' & Hc') & He & HF). split; [done|]. split; [done|]. split.
    + apply Forall_forall. intros it' Hin. apply list_elem_of_lookup in Hin as [i Hl].
      destruct (Forall2_lookup_r _ _ _ _ _ HF Hl) as (it & _ & _ & Hg & _). done.
    + intros inp. rewrite <- Hz. split; intros Hzz it Hin; apply list_elem_of_lookup in Hin as [i Hl].
      * destruct (Forall2_lookup_l _ _ _ _ _ HF Hl) as (it' & Hl' & _ & _ & Hv). rewrite <- Hv. apply Hzz. by eapply list_elem_of_lookup_2.
      * destruct (Forall2_lookup_r _ _ _ _ _ HF Hl) as (it' & Hl' & _ & _ & Hv). rewrite Hv. apply Hzz. by eapply list_elem_of_lookup_2.
Qed.

Lemma wp_take_collected p (Q : list AssertionItem -> State E -> Prop) s :
  Q (collected s) {| arena := arena s; memo := memo s; ones := ones s; collected := [] |} -> wp p assertion.take_collected Q s.
Proof. intros HQ. by eapply wp_eq. Qed.
Lemma clear_collected (s : State E) : collected s = [] -> {| arena := arena s; memo := memo s; ones := ones s; collected := [] |} = s.
Proof. destruct s; cbn. by intros ->. Qed.

Lemma strip_all_ok p src items tracker s :
  arena_wf src -> Forall (fun it => ai_expr it < length src)%nat items -> inv unwrapped s -> collected s = [] ->
  wp p (assertion.strip_all src items tracker) (fun r s' => flattens src items r.1 s') s.
Proof.
  intros Hwf Hr Hi Hc. unfold assertion.strip_all. apply wp_bind. eapply wp_mono; [by apply strip_first_walk|]. cbn beta.
  intros items1 s1 Hf1. apply wp_bind. apply wp_take_collected.
  destruct (collected s1) as [|c cs] eqn:Hcs.
  { rewrite app_nil_r in Hf1. apply wp_ret. destruct (assertion.dedup_assertions items1 tracker) as [u t] eqn:Hd.
    by eapply flattens_dedup. }
  rewrite <- Hcs in *. clear Hcs. set (s2 := {| arena := arena s1 |}) in *. apply wp_bind.
  assert (wp p (assertion.strip_loop 1 (items1 ++ collected s1) tracker) (fun r s' => flattens src items r.1 s') s2) as Hloop.
  { cbn [assertion.strip_loop]. destruct (assertion.dedup_assertions (items1 ++ collected s1) tracker) as [u t] eqn:Hd.
    pose proof (flattens_dedup _ _ _ _ _ _ _ Hf1 Hd) as Hf2. apply wp_bind. eapply wp_eq; [reflexivity|].
    apply wp_bind. eapply wp_mono; [by apply strip_second_walk|]. intros items3 s3 Hf3. apply wp_bind. apply wp_take_collected.
    pose proof Hf3 as (_ & Hc3 & _). rewrite clear_collected, Hc3 by done. apply wp_ret. exact Hf3. }
  eapply wp_mono; [exact Hloop|]. intros [items4 t4] s4 Hf4. apply wp_ret.
  destruct (assertion.dedup_assertions items4 t4) as [u t] eqn:Hd. by eapply flattens_dedup.
Qed.
End strip.
