(* ===== verification/AlgsimpFacts.v ===== *)
(** * Algebraic simplification

    The nodes [AlgebraicRewriter] builds over [Cse] are in a normal form, so
    its mutually recursive operations end, and each of them has the value it
    stands for. *)
From stdpp Require Import prelude gmap sorting strings.
From Stdlib Require Import Lia NArith Ring Ring_theory.
From S2P Require Import Prelude Words Interfaces Field FieldFacts Scope CompilerIR CompilerPasses CompilerSem CseFacts RewriterFacts.

Local Open Scope fe_scope.

(** ** The normal form *)
Section normal.
Context {E : Type} `{AlgebraicField E}.
Implicit Types a b : list (Node E).

(** An ordinary sum. *)
Definition osum a (x : ExprNode) : bool := match expr_at a x with Some (Sum _ false) => true | _ => false end.
Definition any_sum a (x : ExprNode) : bool := match expr_at a x with Some (Sum _ _) => true | _ => false end.
(** What a coefficient may stand in front of. *)
Definition atom a (x : ExprNode) : Prop :=
  match expr_at a x with Some (Input _) | Some (Sum _ true) | Some (WithAssertions _ _) => True | _ => False end.
Definition low a (x : ExprNode) : bool :=
  match expr_at a x with Some (Quadratic _ _ _) | Some (Sum _ true) => false | _ => true end.
Definition scalar a (x : ExprNode) : bool :=
  match expr_at a x with Some (Constant _) | Some (Linear _ _) => true | _ => false end.
(** An ordinary sum over which products are distributed. *)
Definition distributive a (x : ExprNode) : bool :=
  match expr_at a x with Some (Sum l false) => forallb (low a) l | _ => false end.
(** Products that are left alone. *)
Definition irreducible a (x y : ExprNode) : Prop :=
  scalar a x = false /\ scalar a y = false /\
  ((any_sum a x = true /\ any_sum a y = true) \/ (distributive a x = false /\ distributive a y = false)).

(** [wrappers a l]: what is asked of a wrapper with the assertions [l]. *)
Context (wrappers : list (Node E) -> list AssertionItem -> Prop).
Definition normal a (e : Expr E) : Prop :=
  match e with
  | Input _ | Constant _ => True
  | One => False
  | Sum l _ => l <> [] /\ Forall (fun x => osum a x = false) l
  | Linear e x => e <> 0 /\ atom a x
  | Quadratic e x y => e <> 0 /\ irreducible a x y
  | WithAssertions l _ => wrappers a l
  end.

Lemma irreducible_sym a x y : irreducible a x y -> irreducible a y x.
Proof. intros (? & ? & [[? ?]|[? ?]]); split_and!; auto. Qed.

Lemma expr_at_old a b x : a `prefix_of` b -> (x < length a)%nat -> expr_at b x = expr_at a x.
Proof. intros [r ->] Hx. unfold expr_at. by rewrite lookup_app_l. Qed.
Lemma low_old a b x : a `prefix_of` b -> low a x = false -> low b x = false.
Proof.
  intros Hp. unfold low. destruct (expr_at a x) as [e|] eqn:Hx; [|done]. by rewrite (expr_at_prefix _ _ _ _ Hp Hx).
Qed.
Lemma distributive_old a b x : a `prefix_of` b -> (x < length a)%nat -> distributive a x = false -> distributive b x = false.
Proof.
  intros Hp Hx. unfold distributive. rewrite (expr_at_old a b) by done.
  destruct (expr_at a x) as [[|l [|]| | | | |]|]; try done. intros Hf.
  apply not_true_iff_false in Hf. apply not_true_iff_false. intros Ht. apply Hf.
  apply forallb_forall. intros c Hc. rewrite forallb_forall in Ht. specialize (Ht c Hc).
  destruct (low a c) eqn:Hl; [done|]. by rewrite (low_old a b) in Ht.
Qed.
Lemma irreducible_old a b x y : a `prefix_of` b -> (x < length a)%nat -> (y < length a)%nat -> irreducible a x y -> irreducible b x y.
Proof.
  intros Hp Hx Hy (S1 & S2 & Hs). unfold irreducible, scalar, any_sum in *. rewrite !(expr_at_old a b) by done.
  split_and!; [done..|]. destruct Hs as [?|[? ?]]; [by left|]. right. split; by eapply distributive_old.
Qed.
Context (wrappers_prefix : forall a b l, a `prefix_of` b -> Forall (fun it => ai_expr it < length a)%nat l -> wrappers a l -> wrappers b l).
Lemma normal_prefix a b e : a `prefix_of` b -> scoped a e -> normal a e -> normal b e.
Proof.
  unfold scoped. rewrite Forall_forall. intros Hp Hs. destruct e; cbn [normal children_of] in *; try done.
  - intros [Hne Hf]. split; [done|]. rewrite Forall_forall in *. intros x Hx. unfold osum. rewrite (expr_at_old a b) by (try apply Hs; done). by apply Hf.
  - intros [He Ha]. split; [done|]. unfold atom. rewrite (expr_at_old a b); [done..|]. apply Hs. set_solver.
  - intros [He Hi]. split; [done|]. eapply irreducible_old; [done|apply Hs; set_solver..|done].
  - apply (wrappers_prefix a b); [done|]. apply Forall_forall. intros it Hit. apply Hs. right. apply list_elem_of_fmap. by exists it.
Qed.
End normal.
(** The simplified arena has no wrappers. *)
Definition no_wrappers {E} (_ : list (Node E)) (_ : list AssertionItem) : Prop := False.
Lemma no_wrappers_prefix {E} (a b : list (Node E)) l : a `prefix_of` b -> Forall (fun it => ai_expr it < length a)%nat l ->
  no_wrappers a l -> no_wrappers b l.
Proof. done. Qed.

Section algsimp.
Context {E : Type} `{AlgebraicFieldLaws E} `{!EqDecision E} `{!Comparable E}.
Add Ring field_ring_algsimp : (field_ring (E:=E)).
Context (wrappers : list (Node E) -> list AssertionItem -> Prop) (p : bool).
Context (wrappers_prefix : forall a b l, a `prefix_of` b -> Forall (fun it => ai_expr it < length a)%nat l -> wrappers a l -> wrappers b l).
#[local] Abbreviation N := (normal wrappers).
#[local] Abbreviation good := (inv N).
Implicit Types s : State E.

(** A known node with a given value. *)
Definition has s (f : (nat -> E) -> E) (y : ExprNode) : Prop :=
  known s y /\ (y < length (arena s))%nat /\ forall inp, value inp (arena s) y = f inp.
(** A node in a later state, of a given shape. *)
Definition makes (shape : list (Node E) -> ExprNode -> Prop) s (f : (nat -> E) -> E) (y : ExprNode) s' : Prop :=
  good s' /\ quiet s s' /\ has s' f y /\ shape (arena s') y.
Definition anything (_ : list (Node E)) (_ : ExprNode) : Prop := True.
Definition no_osum (a : list (Node E)) (x : ExprNode) : Prop := osum a x = false.
Definition is_expr (e : Expr E) (a : list (Node E)) (x : ExprNode) : Prop := expr_at a x = Some e.

Lemma has_ext s s' f y : CseFacts.ext s s' -> has s f y -> has s' f y.
Proof.
  intros He (Hk & Hl & Hv). split; [by eapply known_ext|]. split.
  - destruct He as [Ha _]. apply prefix_length in Ha. lia.
  - intros inp. by rewrite (value_ext inp s s').
Qed.
Lemma has_known s y : good s -> known s y -> has s (fun inp => value inp (arena s) y) y.
Proof. intros Hg Hk. split; [done|]. split; [by eapply known_lt|done]. Qed.
Lemma has_value s f g y : (forall inp, f inp = g inp) -> has s f y -> has s g y.
Proof. intros Hfg (Hk & Hl & Hv). split; [done|]. split; [done|]. intros inp. by rewrite Hv. Qed.
Lemma has_at s f y : good s -> has s f y -> exists e, expr_at (arena s) y = Some e.
Proof. intros Hg (Hk & _). destruct (known_at _ _ _ Hg Hk) as (e & _ & ?). by exists e. Qed.
Lemma no_osum_ext s s' y : CseFacts.ext s s' -> (y < length (arena s))%nat -> no_osum (arena s) y -> no_osum (arena s') y.
Proof. intros [Ha _] Hl. unfold no_osum, osum. by rewrite (expr_at_old (arena s) (arena s')). Qed.

Lemma makes_from s (m : comp E ExprNode) (shape shape' : list (Node E) -> ExprNode -> Prop) f g :
  wp p m (makes shape s f) s -> (forall inp, f inp = g inp) -> (forall a y, shape a y -> shape' a y) ->
  wp p m (makes shape' s g) s.
Proof.
  intros Hm Hfg Hs. eapply wp_mono; [exact Hm|]. intros y s' (Hg & Hq & Hh & Hsh).
  split; [done|]. split; [done|]. split; [by eapply has_value|by apply Hs].
Qed.
Lemma makes_trans s1 s (m : comp E ExprNode) shape f g :
  quiet s1 s -> (forall inp, f inp = g inp) -> wp p m (makes shape s f) s -> wp p m (makes shape s1 g) s.
Proof.
  intros Hq Hfg Hm. eapply wp_mono; [exact Hm|]. intros y s' (Hg & Hq' & Hh & Hsh).
  split; [done|]. split; [by transitivity s|]. split; [by eapply has_value|done].
Qed.
Lemma makes_ret s1 s shape f y : good s -> quiet s1 s -> has s f y -> shape (arena s) y -> wp p (mret y) (makes shape s1 f) s.
Proof. intros Hg Hq Hh Hs. by apply wp_ret. Qed.

(** *** Ground nodes *)
Lemma memo_makes s e f : good s -> Forall (known s) (children_of e) -> normal wrappers (arena s) e ->
  (forall inp, denote inp (value inp (arena s)) e = f inp) ->
  wp p (cse.memo_expr e) (makes (is_expr e) s f) s.
Proof.
  intros Hg Hk Hn Hf. eapply wp_mono; [apply (memo_yields N (normal_prefix wrappers wrappers_prefix)); done|].
  intros y s' [[Hg' Hq Hky Hv] He]. split; [done|]. split; [done|]. split; [|done].
  split; [done|]. split; [by eapply known_lt|]. intros inp. by rewrite Hv.
Qed.
Lemma constant_makes s e : good s -> wp p (algsimp.constant cse.rewriter e) (makes (is_expr (Constant e)) s (fun _ => e)) s.
Proof. intros Hg. by apply memo_makes. Qed.
Lemma ground_linear_makes s e x : good s -> e <> 0 -> known s x -> atom (arena s) x ->
  wp p (algsimp.ground_linear cse.rewriter e x) (makes (is_expr (Linear e x)) s (fun inp => e * value inp (arena s) x)) s.
Proof.
  intros Hg He Hk Ha. unfold algsimp.ground_linear. apply wp_bind, wp_assert; [by rewrite (proj2 (is_zero_false e))|].
  apply memo_makes; [done|by repeat constructor|done|done].
Qed.
Lemma ground_quadratic_makes s e x y : good s -> e <> 0 -> known s x -> known s y -> irreducible (arena s) x y ->
  wp p (algsimp.ground_quadratic cse.rewriter e x y) (makes no_osum s (fun inp => e * (value inp (arena s) x * value inp (arena s) y))) s.
Proof.
  intros Hg He Hx Hy Hi. unfold algsimp.ground_quadratic. apply wp_bind, wp_assert; [by rewrite (proj2 (is_zero_false e))|].
  cbn [rw_quadratic cse.rewriter]. unfold cse.canonical2.
  destruct (x <? y)%nat; (eapply makes_from; [apply memo_makes with (f := fun inp => e * (value inp (arena s) x * value inp (arena s) y)); [done|by repeat constructor| |]|done|]).
  - by split.
  - done.
  - intros a z Hz. unfold no_osum, osum. by rewrite Hz.
  - split; [done|]. by apply irreducible_sym.
  - intros inp. cbn. ring.
  - intros a z Hz. unfold no_osum, osum. by rewrite Hz.
Qed.

(** *** Scaling *)
Lemma is_expr_no_osum e a y : is_expr e a y -> match e with Sum _ false => False | _ => True end -> no_osum a y.
Proof. intros Hy. unfold no_osum, osum. rewrite Hy. by destruct e as [|l []| | | | |]. Qed.
Lemma atom_no_osum a x : atom a x -> no_osum a x.
Proof. unfold atom, no_osum, osum. by destruct (expr_at a x) as [[|l []| | | | |]|]. Qed.

Lemma zero_makes s e f : good s -> e = 0 -> (forall inp, f inp = 0) ->
  wp p (algsimp.constant cse.rewriter e) (makes no_osum s f) s.
Proof.
  intros Hg He Hf. eapply makes_from; [by apply constant_makes|intros inp; by rewrite Hf|].
  intros a y Hy. by eapply is_expr_no_osum.
Qed.

Definition scaled s e x := makes no_osum s (fun inp => e * value inp (arena s) x).
(** The two shortcuts of [linear0]. *)
Lemma linear0_head fuel s e x ex : good s -> known s x -> expr_at (arena s) x = Some ex -> no_osum (arena s) x ->
  (e <> 0 -> e <> 1 -> wp p (match ex with
    | Constant e1 => algsimp.constant cse.rewriter (e * e1)
    | Linear e1 x => match fuel with O => out_of_fuel | S fuel => algsimp.linear0_loop cse.rewriter fuel (e * e1) x end
    | Quadratic e1 x y => algsimp.ground_quadratic cse.rewriter (e * e1) x y
    | _ => algsimp.ground_linear cse.rewriter e x
    end) (scaled s e x) s) ->
  wp p (algsimp.linear0_loop cse.rewriter fuel e x) (scaled s e x) s.
Proof.
  intros Hg Hk Hx Hno Hm. assert (algsimp.linear0_loop cse.rewriter fuel e x =
    (ex ← expr_of x; if is_zero e then algsimp.constant cse.rewriter e else if bool_decide (e = 1) then mret x else
     match ex with
     | Constant e1 => algsimp.constant cse.rewriter (e * e1)
     | Linear e1 x => match fuel with O => out_of_fuel | S fuel => algsimp.linear0_loop cse.rewriter fuel (e * e1) x end
     | Quadratic e1 x y => algsimp.ground_quadratic cse.rewriter (e * e1) x y
     | _ => algsimp.ground_linear cse.rewriter e x
     end)) as -> by (by destruct fuel).
  apply wp_bind. eapply wp_eq; [by apply expr_of_at|]. destruct (is_zero e) eqn:Hz.
  { apply is_zero_spec in Hz. apply zero_makes; [done..|]. intros inp. rewrite Hz. ring. }
  apply is_zero_false in Hz. destruct (bool_decide_reflect (e = 1)) as [->|He1]; [|by apply Hm].
  apply makes_ret; [done|reflexivity|eapply has_value; [|by apply has_known]; intros inp; cbn; ring|done].
Qed.
Lemma linear0_atom fuel s e x : good s -> known s x -> atom (arena s) x ->
  wp p (algsimp.linear0_loop cse.rewriter fuel e x) (scaled s e x) s.
Proof.
  intros Hg Hk Ha. destruct (has_at s _ x Hg (has_known s x Hg Hk)) as [ex Hx].
  apply (linear0_head fuel s e x ex); [done..|by apply atom_no_osum|]. intros Hz _.
  assert (wp p (algsimp.ground_linear cse.rewriter e x) (scaled s e x) s) as Hl.
  { eapply makes_from; [by apply ground_linear_makes|done|]. intros a y Hy. by eapply is_expr_no_osum. }
  unfold atom in Ha. rewrite Hx in Ha. by destruct ex as [i|l []| |c|c z|c z z'|l z].
Qed.
Lemma linear0_makes s e x : good s -> known s x -> no_osum (arena s) x ->
  wp p (algsimp.linear0 cse.rewriter e x) (scaled s e x) s.
Proof.
  intros Hg Hk Hno. destruct (has_at s _ x Hg (has_known s x Hg Hk)) as [ex Hx].
  pose proof (known_node _ _ _ _ Hg Hk Hx) as Hn. pose proof (known_children _ _ _ _ Hg Hk Hx) as Hch.
  pose proof (fun inp => value_node inp _ _ _ (inv_wf _ _ Hg) Hx) as Hv.
  destruct ex as [i|l b| |c|c z|c z z'|l z]; try (apply linear0_atom; [done..|unfold atom; rewrite Hx]; done).
  - destruct b; [apply linear0_atom; [done..|unfold atom; by rewrite Hx]|]. unfold no_osum, osum in Hno. by rewrite Hx in Hno.
  - apply (linear0_head _ _ _ _ _ Hg Hk Hx Hno). intros _ _. eapply makes_from; [by apply constant_makes| |].
    + intros inp. by rewrite Hv.
    + intros a y Hy. by eapply is_expr_no_osum.
  - apply (linear0_head _ _ _ _ _ Hg Hk Hx Hno). intros He _. cbn in Hn, Hch. destruct Hn as [Hc Ha].
    pose proof (child_lt _ _ _ z (inv_wf _ _ Hg) Hx ltac:(cbn; set_solver)) as Hlt. destruct x as [|x]; [lia|].
    eapply makes_from; [apply linear0_atom; [done| |done]|intros inp; rewrite Hv; cbn; ring|done].
    by apply Forall_cons in Hch as [? _].
  - apply (linear0_head _ _ _ _ _ Hg Hk Hx Hno). intros He _. cbn in Hn, Hch. destruct Hn as [Hc Ha].
    apply Forall_cons in Hch as [H1 Hch]. apply Forall_cons in Hch as [H2 _].
    eapply makes_from; [apply ground_quadratic_makes; [done| |done..]|intros inp; rewrite Hv; cbn; ring|done].
    by apply mul_neq_zero.
Qed.

(** *** Sums *)
(** The pairs of a sum: left alone, or a node under the constant one. *)
Definition pair_ok (a : list (Node E)) (x y : ExprNode) : Prop :=
  irreducible a x y \/ (is_expr (Constant 1) a x /\ no_osum a y) \/ (is_expr (Constant 1) a y /\ no_osum a x).
Definition triple_ok s (t : algsimp.triple (E:=E)) : Prop :=
  known s t.1.2 /\ known s t.2 /\ pair_ok (arena s) t.1.2 t.2.
Definition triple_value (inp : nat -> E) (a : list (Node E)) (t : algsimp.triple (E:=E)) : E :=
  t.1.1 * (value inp a t.1.2 * value inp a t.2).

Lemma pair_ok_sym a x y : pair_ok a x y -> pair_ok a y x.
Proof. intros [?%irreducible_sym|[[? ?]|[? ?]]]; unfold pair_ok; auto. Qed.
Lemma triple_ok_ext s s' t : good s -> CseFacts.ext s s' -> triple_ok s t -> triple_ok s' t.
Proof.
  intros Hg He (Hx & Hy & Hp). pose proof (known_lt _ _ _ Hg Hx) as Lx. pose proof (known_lt _ _ _ Hg Hy) as Ly.
  split; [by eapply known_ext|]. split; [by eapply known_ext|]. destruct He as [Ha Hm].
  destruct Hp as [Hi|[[Ho Hn]|[Ho Hn]]]; [left; by eapply irreducible_old|right; left|right; right];
    (split; [by eapply expr_at_prefix|by eapply (no_osum_ext s s')]).
Qed.
Lemma triple_value_ext inp s s' t : good s -> CseFacts.ext s s' -> triple_ok s t ->
  triple_value inp (arena s') t = triple_value inp (arena s) t.
Proof. intros Hg He (Hx & Hy & _). unfold triple_value. by rewrite !(value_known inp _ s s') by done. Qed.

Lemma canonical_ok s e x y : triple_ok s (e, x, y) -> triple_ok s (algsimp.canonical e x y).
Proof.
  unfold algsimp.canonical. destruct (x <? y)%nat; [done|]. intros (? & ? & ?). split; [done|]. split; [done|]. by apply pair_ok_sym.
Qed.
Lemma canonical_value inp a e x y : triple_value inp a (algsimp.canonical e x y) = triple_value inp a (e, x, y).
Proof. unfold algsimp.canonical, triple_value. destruct (x <? y)%nat; cbn; ring. Qed.

Definition renders s (f : (nat -> E) -> E) (t : algsimp.triple (E:=E)) s' : Prop :=
  good s' /\ quiet s s' /\ triple_ok s' t /\ forall inp, triple_value inp (arena s') t = f inp.

(** A node under the constant one. *)
Lemma under_one s e n (Q : algsimp.triple (E:=E) -> State E -> Prop) : good s -> known s n -> no_osum (arena s) n ->
  (forall o s', good s' -> quiet s s' -> known s' o -> is_expr (Constant 1) (arena s') o -> triple_ok s' (e, o, n) ->
     (forall inp, triple_value inp (arena s') (e, o, n) = e * value inp (arena s) n) -> Q (algsimp.canonical e o n) s') ->
  wp p (o ← algsimp.one cse.rewriter; mret (algsimp.canonical e o n)) Q s.
Proof.
  intros Hg Hk Hno HQ. apply wp_bind. eapply wp_mono; [by apply (constant_makes s 1)|].
  intros o s' (Hg' & Hq & (Hko & _ & Hvo) & He). apply wp_ret. apply HQ; [done..| |].
  - split; [done|]. split; [by eapply known_ext; [apply Hq|]|]. right. left. split; [done|].
    eapply no_osum_ext; [apply Hq|by eapply known_lt|done].
  - intros inp. unfold triple_value. cbn. rewrite Hvo, (value_known inp N s s' n) by (done || apply Hq). ring.
Qed.
Lemma unquadratic_renders s n : good s -> known s n -> no_osum (arena s) n ->
  wp p (algsimp.unquadratic cse.rewriter n) (renders s (fun inp => value inp (arena s) n)) s.
Proof.
  intros Hg Hk Hno. destruct (has_at s _ n Hg (has_known s n Hg Hk)) as [ex Hx].
  pose proof (known_node _ _ _ _ Hg Hk Hx) as Hn. pose proof (known_children _ _ _ _ Hg Hk Hx) as Hch.
  pose proof (fun inp => value_node inp _ _ _ (inv_wf _ _ Hg) Hx) as Hv.
  assert (forall e z, known s z -> no_osum (arena s) z -> (forall inp, e * value inp (arena s) z = value inp (arena s) n) ->
    wp p (o ← algsimp.one cse.rewriter; mret (algsimp.canonical e o z)) (renders s (fun inp => value inp (arena s) n)) s) as Hone.
  { intros e z Hkz Hnz Hz. apply under_one; [done..|]. intros o s' Hg' Hq _ _ Ht Htv. split; [done|]. split; [done|].
    split; [by apply canonical_ok|]. intros inp. by rewrite canonical_value, Htv, Hz. }
  unfold algsimp.unquadratic. apply wp_bind. eapply wp_eq; [by apply expr_of_at|].
  destruct ex as [i|l b| |c|c z|c z z'|l z]; try (apply Hone; [done..|intros inp; ring]).
  - apply wp_bind. eapply wp_mono; [by apply (constant_makes s 1)|]. intros o s1 (Hg1 & Hq1 & Ho & He).
    apply wp_bind. eapply wp_mono; [by apply (constant_makes s1 1)|]. intros o' s2 (Hg2 & Hq2 & Ho' & He').
    apply wp_ret. destruct (has_ext s1 s2 _ o (quiet_ext _ _ Hq2) Ho) as (Hk2 & _ & Hv2). destruct Ho' as (Hk2' & _ & Hv2').
    split; [done|]. split; [by transitivity s1|]. split; [split; [done|]; split; [done|]; right; left|].
    + split; [eapply expr_at_prefix; [apply Hq2|exact He]|]. by eapply is_expr_no_osum.
    + intros inp. unfold triple_value. cbn. rewrite Hv2, Hv2', Hv. cbn. ring.
  - cbn in Hn, Hch. apply Forall_cons in Hch as [Hkz _]. destruct Hn as [_ Ha].
    apply Hone; [done|by apply atom_no_osum|]. intros inp. by rewrite Hv.
  - cbn in Hn, Hch. apply Forall_cons in Hch as [Hkz Hch]. apply Forall_cons in Hch as [Hkz' _]. destruct Hn as [_ Ha].
    apply wp_ret. split; [done|]. split; [reflexivity|]. split; [apply canonical_ok; split; [done|]; split; [done|]; by left|].
    intros inp. by rewrite canonical_value, Hv.
Qed.

(** Flattening keeps the sum and leaves no ordinary sum among the terms. *)
Lemma sum_elements s x l b : good s -> known s x -> expr_at (arena s) x = Some (Sum l b) ->
  Forall (fun y => known s y /\ no_osum (arena s) y) l /\ forall inp, value inp (arena s) x = sigma l (value inp (arena s)).
Proof.
  intros Hg Hk Hx. pose proof (known_node _ _ _ _ Hg Hk Hx) as [_ Hn]. pose proof (known_children _ _ _ _ Hg Hk Hx) as Hch.
  split; [|intros inp; by rewrite (value_node inp _ _ _ (inv_wf _ _ Hg) Hx)].
  cbn in Hch. rewrite Forall_forall in *. intros y Hy. split; [by apply Hch|by apply Hn].
Qed.
Lemma flatten_sum_ok s l : good s -> Forall (known s) l ->
  exists flat, algsimp.flatten_sum l s = Ok (flat, s) /\ Forall (fun y => known s y /\ no_osum (arena s) y) flat /\
    forall inp, sigma flat (value inp (arena s)) = sigma l (value inp (arena s)).
Proof.
  intros Hg Hl. unfold algsimp.flatten_sum, mbind, comp_bind.
  rewrite (mapM_reads expr_of (fun x => default One (expr_at (arena s) x))).
  2:{ intros x Hx. rewrite Forall_forall in Hl. destruct (has_at s _ x Hg (has_known s x Hg (Hl x Hx))) as [e He].
      rewrite He. by apply expr_of_at. }
  generalize (omap (algsimp.is_sum true) (map (λ x : ExprNode, default One (expr_at (arena s) x)) l)). intros sums.
  eexists. split; [reflexivity|]. clear -Hg Hl H0. induction Hl as [|x l Hk Hl [IHf IHv]]; [split; [constructor|done]|].
  cbn [map zip_with concat]. set (part := match _ with Sum _ _ => _ | _ => _ end).
  assert (Forall (fun y => known s y /\ no_osum (arena s) y) part /\ forall inp, sigma part (value inp (arena s)) = value inp (arena s) x) as [Hp Hpv].
  { destruct (has_at s _ x Hg (has_known s x Hg Hk)) as [e He]. subst part. rewrite He. change (default One (Some e)) with e. cbn iota beta.
    assert (no_osum (arena s) x -> Forall (fun y => known s y /\ no_osum (arena s) y) [x] /\ forall inp, sigma [x] (value inp (arena s)) = value inp (arena s) x) as Hself.
    { intros Hno. split; [by repeat constructor|]. intros inp. rewrite sigma_cons. cbn. ring. }
    destruct e as [i|l' []| |c|c z|c z z'|l' z]; try (apply Hself; by eapply is_expr_no_osum).
    - destruct (bool_decide (l' ∈ sums)); [|apply Hself; by eapply is_expr_no_osum].
      destruct (sum_elements s x l' true Hg Hk He) as [Hf Hv]. by split.
    - destruct (sum_elements s x l' false Hg Hk He) as [Hf Hv]. by split. }
  split; [by apply Forall_app|]. intros inp. by rewrite sigma_app, sigma_cons, Hpv, IHv.
Qed.

(** Neighbours over the same pair are added up. *)
Lemma fold_triples_ok s l : forall last, triple_ok s last -> Forall (triple_ok s) l ->
  Forall (triple_ok s) (algsimp.fold_triples last l) /\
  forall inp, sigma (algsimp.fold_triples last l) (triple_value inp (arena s))
              = triple_value inp (arena s) last + sigma l (triple_value inp (arena s)).
Proof.
  induction l as [|[[e x] y] l IH]; intros [[e0 x0] y0] Hlast Hl; cbn [algsimp.fold_triples].
  { split; [by apply Forall_singleton|]. intros inp. by rewrite !sigma_cons. }
  apply Forall_cons in Hl as [Ht Hl]. destruct (_ && _) eqn:Heq.
  - apply andb_true_iff in Heq as [->%Nat.eqb_eq ->%Nat.eqb_eq]. destruct (IH (e0 + e, x, y)) as [IHf IHv]; [done..|].
    split; [done|]. intros inp. rewrite IHv, sigma_cons. unfold triple_value. cbn. ring.
  - destruct (IH (e, x, y)) as [IHf IHv]; [done..|]. split; [by constructor|]. intros inp. by rewrite !sigma_cons, IHv.
Qed.
Lemma folded_ok s l : Forall (triple_ok s) l -> Forall (triple_ok s) (algsimp.folded l) /\
  forall inp, sigma (algsimp.folded l) (triple_value inp (arena s)) = sigma l (triple_value inp (arena s)).
Proof.
  destruct l as [|t l]; intros Hl; [done|]. apply Forall_cons in Hl as [Ht Hl].
  destruct (fold_triples_ok s l t Ht Hl) as [Hf Hv]. split; [done|]. intros inp. by rewrite sigma_cons, <- Hv.
Qed.

(** Constants are summed apart from the other terms. *)
Lemma foldl_fadd (l : list E) acc : foldl fadd acc l = acc + fsum l.
Proof. revert acc. induction l as [|x l IH]; intros acc; cbn [foldl fsum]; [ring|]. rewrite IH. ring. Qed.
Lemma constants_apart s ys : good s -> Forall (known s) ys ->
  let es := map (fun y => default One (expr_at (arena s) y)) ys in
  let others := (filter (fun q => algsimp.constant_of q.2 = None) (zip ys es)).*1 in
  (forall y, y ∈ others -> y ∈ ys) /\
  forall inp, sigma ys (value inp (arena s)) = sigma others (value inp (arena s)) + foldl fadd 0 (omap algsimp.constant_of es).
Proof.
  intros Hg Hk. cbn zeta. induction Hk as [|y ys Hy Hk [IHin IHv]]; [split; [done|intros inp; cbn; ring]|].
  cbn [map zip zip_with]. destruct (has_at s _ y Hg (has_known s y Hg Hy)) as [e He]. rewrite He.
  change (default One (Some e)) with e. pose proof (fun inp => value_node inp _ _ _ (inv_wf _ _ Hg) He) as Hv.
  rewrite filter_cons. cbn [snd omap list_omap]. rewrite foldl_fadd in IHv. destruct (algsimp.constant_of e) as [c|] eqn:Hc.
  - rewrite decide_False by done. split; [intros z Hz; right; by apply IHin|]. intros inp.
    destruct e; try done. cbn in Hc. injection Hc as ->. rewrite sigma_cons, IHv, Hv, foldl_fadd. cbn. ring.
  - rewrite decide_True by done. cbn [fmap list_fmap fst].
    split; [intros z [->|Hz]%elem_of_cons; [by left|right; by apply IHin]|]. intros inp.
    rewrite !sigma_cons, IHv, foldl_fadd. ring.
Qed.

(** The pairs [sum] passes to [quadratic]. *)
Definition quad_ok (quad : E -> ExprNode -> ExprNode -> comp E ExprNode) : Prop :=
  forall s e x y, good s -> known s x -> known s y -> pair_ok (arena s) x y ->
    wp p (quad e x y) (makes no_osum s (fun inp => e * (value inp (arena s) x * value inp (arena s) y))) s.

Lemma Forall2_sigma {X Y} (l : list X) (l' : list Y) (g : X -> E) (g' : Y -> E) :
  Forall2 (fun x y => g' y = g x) l l' -> sigma l' g' = sigma l g.
Proof. induction 1 as [|x y l l' Hxy _ IH]; [done|]. by rewrite !sigma_cons, IH, Hxy. Qed.
Lemma Forall2_Forall_r {X Y} (P : X -> Y -> Prop) (Q : Y -> Prop) l l' :
  Forall2 P l l' -> (forall x y, P x y -> Q y) -> Forall Q l'.
Proof. intros HF HQ. induction HF; constructor; eauto. Qed.

(** The terms of a sum, folded and rebuilt. *)
Lemma sum_terms_ok quad l s : quad_ok quad -> good s -> Forall (known s) l ->
  wp p (flat_l ← algsimp.flatten_sum l; triples ← mapM (algsimp.unquadratic cse.rewriter) flat_l;
        mapM (fun '(e, x, y) => quad e x y) (algsimp.folded (merge_sort algsimp.triple_le triples)))
    (fun ys s' => good s' /\ quiet s s' /\ Forall (fun y => known s' y /\ no_osum (arena s') y) ys /\
       forall inp, sigma ys (value inp (arena s')) = sigma l (value inp (arena s))) s.
Proof.
  intros Hquad Hg Hl. destruct (flatten_sum_ok s l Hg Hl) as (flat & Hf & Hflat & Hfv).
  apply wp_bind. eapply wp_eq; [exact Hf|]. apply wp_bind. eapply wp_mono.
  { apply (wp_mapM p good quiet (fun x t s' => triple_ok s' t /\ forall inp, triple_value inp (arena s') t = value inp (arena s) x)).
    - intros x t s1 s2 Hg1 [He _ _] [Ht Hv]. split; [by eapply triple_ok_ext|]. intros inp. by rewrite (triple_value_ext inp s1 s2).
    - intros x s1 Hx Hg1 Hq. rewrite Forall_forall in Hflat. destruct (Hflat x Hx) as [Hk Hno].
      eapply wp_mono; [apply unquadratic_renders; [done|by eapply known_ext; [apply Hq|]|]|].
      + eapply no_osum_ext; [apply Hq|by eapply known_lt|done].
      + intros t s2 (Hg2 & Hq2 & Ht & Hv). split; [done|]. split; [done|]. split; [done|]. intros inp.
        rewrite Hv. by eapply value_known; [|apply Hq|].
    - exact Hg. }
  cbn beta. intros triples s1 (Hg1 & Hq1 & HF1).
  assert (Forall (triple_ok s1) (merge_sort algsimp.triple_le triples)) as Hts.
  { rewrite merge_sort_Permutation. eapply Forall2_Forall_r; [exact HF1|]. by intros x t []. }
  destruct (folded_ok s1 _ Hts) as [Hfold Hfoldv]. eapply wp_mono.
  { apply (wp_mapM p good quiet (fun t y s' => (has s' (fun inp => triple_value inp (arena s1) t) y) /\ no_osum (arena s') y)).
    - intros t y s2 s3 Hg2 [He _ _] [Hh Hno]. split; [by eapply has_ext|]. eapply no_osum_ext; [done|apply Hh|done].
    - intros [[e x] y] s2 Ht Hg2 Hq2. rewrite Forall_forall in Hfold. pose proof (Hfold _ Ht) as Hok.
      destruct (triple_ok_ext s1 s2 _ Hg1 (quiet_ext _ _ Hq2) Hok) as (Kx & Ky & Hp). cbn [fst snd] in *.
      eapply wp_mono; [by apply Hquad|]. intros z s3 (Hg3 & Hq3 & Hh & Hno). split; [done|]. split; [done|]. split; [|done].
      eapply has_value; [|exact Hh]. intros inp. cbn beta. apply (triple_value_ext inp s1 s2 (e, x, y)); [done|apply Hq2|done].
    - exact Hg1. }
  cbn beta. intros ys s2 (Hg2 & Hq2 & HF2). split; [done|]. split; [by transitivity s1|]. split.
  - eapply Forall2_Forall_r; [exact HF2|]. by intros t y [[? _] ?].
  - intros inp. rewrite (Forall2_sigma (algsimp.folded (merge_sort algsimp.triple_le triples)) ys (triple_value inp (arena s1))).
    2:{ eapply Forall2_impl; [exact HF2|]. by intros t y [(_ & _ & ->) _]. }
    rewrite Hfoldv, (sigma_perm _ triples) by apply merge_sort_Permutation.
    rewrite <- Hfv. apply Forall2_sigma. eapply Forall2_impl; [exact HF1|]. by intros x t [_ ->].
Qed.

(** The sum of the nodes that are left. *)
Lemma final_sum_makes fl b s : good s -> Forall (fun y => known s y /\ no_osum (arena s) y) fl ->
  wp p (match fl with [] => algsimp.constant cse.rewriter 0 | [x] => mret x | _ => rw_sum cse.rewriter fl b end)
    (makes anything s (fun inp => sigma fl (value inp (arena s)))) s.
Proof.
  intros Hg Hfl.
  assert (forall y, fl = [y] -> wp p (mret y) (makes anything s (fun inp => sigma fl (value inp (arena s)))) s) as Hsingle.
  { intros y ->. apply Forall_cons in Hfl as [[Hy _] _]. apply makes_ret; [done|reflexivity| |done].
    eapply has_value; [|by apply has_known]. intros inp. cbn. ring. }
  assert (fl <> [] -> wp p (rw_sum cse.rewriter fl b) (makes anything s (fun inp => sigma fl (value inp (arena s)))) s) as Hmany.
  { intros Hne. eapply wp_mono; [apply (cse_sum_yields N (normal_prefix wrappers wrappers_prefix)); [done| |]|].
    - eapply Forall_impl; [exact Hfl|]. by intros y [].
    - split; [|rewrite sort_ids_perm; eapply Forall_impl; [exact Hfl|]; by intros y []].
      intros Hnil. apply Hne. apply Permutation_nil_r. by rewrite <- Hnil, sort_ids_perm.
    - intros y s3 [[Hg3 Hq3 Hky3 Hv3] _]. split; [done|]. split; [done|]. split; [|done].
      split; [done|]. split; [by eapply known_lt|done]. }
  destruct fl as [|y [|y' fl]]; [|by apply Hsingle|by apply Hmany].
  eapply makes_from; [by apply constant_makes|done|done].
Qed.
(** The constants, added up, join the other terms unless they cancel. *)
Lemma with_constant_ok others c s : good s -> Forall (fun y => known s y /\ no_osum (arena s) y) others ->
  wp p (if is_zero c then mret others else y ← algsimp.constant cse.rewriter c; mret (others ++ [y]))
    (fun fl s' => good s' /\ quiet s s' /\ Forall (fun y => known s' y /\ no_osum (arena s') y) fl /\
       forall inp, sigma fl (value inp (arena s')) = sigma others (value inp (arena s)) + c) s.
Proof.
  intros Hg Ho. destruct (is_zero c) eqn:Hz.
  - apply is_zero_spec in Hz. apply wp_ret. split; [done|]. split; [reflexivity|]. split; [done|]. intros inp. rewrite Hz. ring.
  - apply wp_bind. eapply wp_mono; [by apply (constant_makes s c)|]. intros y s2 (Hg2 & Hq2 & Hh & He). apply wp_ret.
    split; [done|]. split; [done|]. split.
    + apply Forall_app. split; [|constructor; [split; [apply Hh|by eapply is_expr_no_osum]|constructor]].
      eapply Forall_impl; [exact Ho|]. intros z [Hkz Hnz]. split; [by eapply known_ext; [apply Hq2|]|].
      eapply no_osum_ext; [apply Hq2|by eapply known_lt|done].
    + intros inp. rewrite sigma_app, sigma_cons. destruct Hh as (_ & _ & ->). cbn [sigma map fsum].
      rewrite (sigma_ext others (value inp (arena s2)) (value inp (arena s))); [unfold sigma; cbn; ring|].
      intros z Hz'. rewrite Forall_forall in Ho. destruct (Ho z Hz') as [Hkz _]. eapply value_known; [done|apply Hq2|done].
Qed.
Lemma sum_with_makes quad l b s : quad_ok quad -> good s -> Forall (known s) l ->
  wp p (algsimp.sum_with cse.rewriter quad l b) (makes anything s (fun inp => sigma l (value inp (arena s)))) s.
Proof.
  intros Hquad Hg Hl. unfold algsimp.sum_with.
  assert (forall (k : list ExprNode -> comp E ExprNode), (flat_l ← algsimp.flatten_sum l; triples ← mapM (algsimp.unquadratic cse.rewriter) flat_l;
     ys ← mapM (fun '(e, x, y) => quad e x y) (algsimp.folded (merge_sort algsimp.triple_le triples)); k ys) s
   = (ys ← (flat_l ← algsimp.flatten_sum l; triples ← mapM (algsimp.unquadratic cse.rewriter) flat_l;
        mapM (fun '(e, x, y) => quad e x y) (algsimp.folded (merge_sort algsimp.triple_le triples))); k ys) s) as Hassoc.
  { intros k. unfold mbind, comp_bind. destruct (algsimp.flatten_sum l s) as [[f s1]| |]; [|done..].
    by destruct (mapM (algsimp.unquadratic cse.rewriter) f s1) as [[t s2]| |]. }
  unfold wp. cbn zeta. rewrite Hassoc. apply wp_bind. eapply wp_mono; [by apply sum_terms_ok|].
  cbn beta. intros ys s1 (Hg1 & Hq1 & Hys & Hv). apply wp_bind.
  assert (Forall (known s1) ys) as Hky by (eapply Forall_impl; [exact Hys|]; by intros y []).
  eapply wp_eq.
  { apply (mapM_reads expr_of (fun y => default One (expr_at (arena s1) y))). intros y Hy. rewrite Forall_forall in Hky.
    destruct (has_at s1 _ y Hg1 (has_known s1 y Hg1 (Hky y Hy))) as [e He]. rewrite He. by apply expr_of_at. }
  destruct (constants_apart s1 ys Hg1 Hky) as [Hin Hapart]. cbn zeta in *.
  set (others := (filter _ _).*1) in *. set (c := foldl fadd 0 _) in *.
  assert (Forall (fun y => known s1 y /\ no_osum (arena s1) y) others) as Ho.
  { apply Forall_forall. intros y Hy. rewrite Forall_forall in Hys. by apply Hys, Hin. }
  apply wp_bind. eapply wp_mono; [by apply with_constant_ok|].
  cbn beta. intros fl s2 (Hg2 & Hq2 & Hfl & Hflv). apply (makes_trans s s2 _ _ (fun inp => sigma fl (value inp (arena s2)))).
  { by transitivity s1. } { intros inp. by rewrite Hflv, <- Hapart, Hv. }
  by apply final_sum_makes.
Qed.

(** *** Products *)
(** Mapping an operation over the elements of a sum, then adding up. *)
Lemma mapped_sum_makes (op : ExprNode -> comp E ExprNode) (g : (nat -> E) -> ExprNode -> E) quad l s :
  quad_ok quad -> good s ->
  (forall x s', x ∈ l -> good s' -> quiet s s' -> wp p (op x) (makes anything s' (fun inp => g inp x)) s') ->
  wp p (mapped ← mapM op l; algsimp.sum_with cse.rewriter quad mapped false)
    (makes anything s (fun inp => sigma l (g inp))) s.
Proof.
  intros Hquad Hg Hop. apply wp_bind. eapply wp_mono.
  { apply (wp_mapM p good quiet (fun x y s' => has s' (fun inp => g inp x) y)).
    - intros x y s1 s2 _ [He _ _]. by apply has_ext.
    - intros x s1 Hx Hg1 Hq1. eapply wp_mono; [by apply Hop|]. by intros y s2 (? & ? & ? & _).
    - exact Hg. }
  cbn beta. intros ys s1 (Hg1 & Hq1 & HF). eapply makes_trans; [exact Hq1| |apply sum_with_makes; [done|done|]].
  - intros inp. apply Forall2_sigma. eapply Forall2_impl; [exact HF|]. by intros x y (_ & _ & ->).
  - eapply Forall2_Forall_r; [exact HF|]. by intros x y [].
Qed.

Lemma linear_with_makes quad e x s : quad_ok quad -> good s -> known s x ->
  wp p (algsimp.linear_with cse.rewriter quad e x)
    (makes (fun a y => osum (arena s) x = false -> no_osum a y) s (fun inp => e * value inp (arena s) x)) s.
Proof.
  intros Hquad Hg Hk. destruct (has_at s _ x Hg (has_known s x Hg Hk)) as [ex Hx]. unfold algsimp.linear_with.
  apply wp_bind. eapply wp_eq; [by apply expr_of_at|].
  assert (osum (arena s) x = false -> wp p (algsimp.linear0 cse.rewriter e x)
    (makes (fun a y => osum (arena s) x = false -> no_osum a y) s (fun inp => e * value inp (arena s) x)) s) as H1.
  { intros Hno. eapply makes_from; [by apply linear0_makes|done|done]. }
  destruct ex as [i|l []| |c|c z|c z z'|l z]; try (apply H1; unfold osum; by rewrite Hx).
  destruct (sum_elements s x l false Hg Hk Hx) as [Hl Hv]. rewrite Forall_forall in Hl.
  eapply makes_from.
  - apply (mapped_sum_makes _ (fun inp y => e * value inp (arena s) y)); [done..|]. intros y s' Hy Hg' Hq.
    destruct (Hl y Hy) as [Hky Hno]. eapply makes_from; [apply linear0_makes; [done|by eapply known_ext; [apply Hq|]|]| |done].
    + eapply no_osum_ext; [apply Hq|by eapply known_lt|done].
    + intros inp. cbn beta. by rewrite (value_known inp _ s s') by (done || apply Hq).
  - intros inp. cbn beta. rewrite Hv, <- sigma_mul. done.
  - intros a y _ Hno. unfold osum in Hno. by rewrite Hx in Hno.
Qed.

Lemma distributes_ok s x e : good s -> known s x -> expr_at (arena s) x = Some e ->
  algsimp.distributes e s = Ok (match e with Sum l false => if distributive (arena s) x then Some l else None | _ => None end, s).
Proof.
  intros Hg Hk Hx. pose proof (known_children _ _ _ _ Hg Hk Hx) as Hch.
  destruct e as [i|l []| |c|c z|c z z'|l z]; try done. unfold algsimp.distributes.
  erewrite bind_eq; [|apply (mapM_reads algsimp.low_degree (low (arena s)))].
  2:{ intros y Hy. rewrite Forall_forall in Hch. specialize (Hch y Hy).
      destruct (has_at s _ y Hg (has_known s y Hg Hch)) as [ey Hey]. unfold algsimp.low_degree, mbind, comp_bind.
      rewrite (expr_of_at _ _ _ Hey). unfold low. by rewrite Hey. }
  unfold distributive. rewrite Hx. replace (forallb (fun b => b) (map (low (arena s)) l)) with (forallb (low (arena s)) l); [done|].
  clear. induction l as [|y l IH]; [done|]. cbn. by rewrite IH.
Qed.

(** One iteration of [quadratic] on operands with known expressions. *)
Lemma quadratic_step fuel e x y ex ey s Q :
  good s -> known s x -> known s y -> expr_at (arena s) x = Some ex -> expr_at (arena s) y = Some ey ->
  wp p (let linear := algsimp.linear_with cse.rewriter (algsimp.quadratic_loop cse.rewriter fuel) in
    let quad := algsimp.quadratic_loop cse.rewriter fuel in
    if is_zero e then algsimp.constant cse.rewriter e
    else match ex, ey with
    | Constant e1, _ => linear (e * e1) y
    | _, Constant e1 => linear (e * e1) x
    | Linear e1 x1, _ => quad (e * e1) x1 y
    | _, Linear e1 x1 => quad (e * e1) x1 x
    | _, _ =>
        if any_sum (arena s) x && any_sum (arena s) y then algsimp.ground_quadratic cse.rewriter e x y
        else if distributive (arena s) y then mapped ← mapM (fun z => quad e z x) (children_of ey); algsimp.sum_with cse.rewriter quad mapped false
        else if distributive (arena s) x then mapped ← mapM (fun z => quad e z y) (children_of ex); algsimp.sum_with cse.rewriter quad mapped false
        else algsimp.ground_quadratic cse.rewriter e x y
    end) Q s ->
  wp p (algsimp.quadratic_loop cse.rewriter (S fuel) e x y) Q s.
Proof.
  intros Hg Hkx Hky Hx Hy Hw. cbn [algsimp.quadratic_loop].
  apply wp_bind. eapply wp_eq; [by apply expr_of_at|]. apply wp_bind. eapply wp_eq; [by apply expr_of_at|].
  cbn zeta in *. destruct (is_zero e); [done|].
  pose proof (distributes_ok s x ex Hg Hkx Hx) as Dx. pose proof (distributes_ok s y ey Hg Hky Hy) as Dy.
  unfold any_sum in Hw. rewrite Hx, Hy in Hw. unfold distributive in *. rewrite Hx in *. rewrite Hy in *.
  destruct ex as [i|l []| |c|c z|c z z'|l z], ey as [i'|l' []| |c'|c' w|c' w w'|l' w]; try done;
    cbn [algsimp.is_any_sum andb children_of] in *; try done;
    (apply wp_bind; eapply wp_eq; [exact Dy|]); try (destruct (forallb _ l'); [done|]);
    try done; (apply wp_bind; eapply wp_eq; [exact Dx|]); try (destruct (forallb _ l); [done|]); done.
Qed.

Lemma linear_with_simple quad e x s : good s -> known s x -> no_osum (arena s) x ->
  wp p (algsimp.linear_with cse.rewriter quad e x) (scaled s e x) s.
Proof.
  intros Hg Hk Hno. destruct (has_at s _ x Hg (has_known s x Hg Hk)) as [ex Hx]. unfold algsimp.linear_with.
  apply wp_bind. eapply wp_eq; [by apply expr_of_at|]. pose proof (linear0_makes s e x Hg Hk Hno) as Hl.
  unfold no_osum, osum in Hno. rewrite Hx in Hno. by destruct ex as [i|l []| |c|c z|c z z'|l z].
Qed.

(** The pairs of a sum need one iteration. *)
Lemma quadratic_loop_pairs fuel : quad_ok (algsimp.quadratic_loop cse.rewriter (S fuel)).
Proof.
  intros s e x y Hg Hkx Hky Hp.
  destruct (has_at s _ x Hg (has_known s x Hg Hkx)) as [ex Hx]. destruct (has_at s _ y Hg (has_known s y Hg Hky)) as [ey Hy].
  apply (quadratic_step fuel e x y ex ey); [done..|]. cbn zeta. destruct (is_zero e) eqn:Hz.
  { apply is_zero_spec in Hz. apply zero_makes; [done..|]. intros inp. rewrite Hz. ring. }
  apply is_zero_false in Hz. pose proof (fun inp => value_node inp _ _ _ (inv_wf _ _ Hg) Hx) as Vx.
  pose proof (fun inp => value_node inp _ _ _ (inv_wf _ _ Hg) Hy) as Vy. destruct Hp as [Hi|[[Ho Hno]|[Ho Hno]]].
  - pose proof (ground_quadratic_makes s e x y Hg Hz Hkx Hky Hi) as Hgr. destruct Hi as (S1 & S2 & Hs).
    assert (any_sum (arena s) x && any_sum (arena s) y = false -> distributive (arena s) x = false /\ distributive (arena s) y = false) as Hs'
      by (destruct Hs as [[-> ->]|?]; done).
    unfold scalar in S1, S2. rewrite Hx in S1. rewrite Hy in S2.
    destruct (any_sum (arena s) x && any_sum (arena s) y) eqn:Hany.
    + by destruct ex; try done; destruct ey.
    + destruct Hs' as [-> ->]; [done|]. by destruct ex; try done; destruct ey.
  - unfold is_expr in Ho. rewrite Hx in Ho. injection Ho as ->. eapply makes_from; [by apply linear_with_simple| |done].
    intros inp. cbn beta. rewrite Vx. cbn. ring.
  - unfold is_expr in Ho. rewrite Hy in Ho. injection Ho as ->.
    assert (wp p (algsimp.linear_with cse.rewriter (algsimp.quadratic_loop cse.rewriter fuel) (e * 1) x)
      (makes no_osum s (fun inp => e * (value inp (arena s) x * value inp (arena s) y))) s) as Hl.
    { eapply makes_from; [by apply linear_with_simple| |done]. intros inp. cbn beta. rewrite Vy. cbn. ring. }
    destruct ex as [i|l b| |c|c z|c z z'|l z]; try exact Hl. eapply makes_from; [apply linear_with_simple; [done..|]| |done].
    + eapply is_expr_no_osum; [exact Hy|done].
    + intros inp. cbn beta. rewrite Vx. cbn. ring.
Qed.

Lemma quadratic_loop_makes fuel : forall e x y s, good s -> known s x -> known s y -> (2 + x + y <= fuel)%nat ->
  wp p (algsimp.quadratic_loop cse.rewriter fuel e x y) (makes anything s (fun inp => e * (value inp (arena s) x * value inp (arena s) y))) s.
Proof.
  induction fuel as [|fuel IH]; intros e x y s Hg Hkx Hky Hf; [lia|].
  assert (quad_ok (algsimp.quadratic_loop cse.rewriter fuel)) as Hquad by (destruct fuel; [lia|apply quadratic_loop_pairs]).
  destruct (has_at s _ x Hg (has_known s x Hg Hkx)) as [ex Hx]. destruct (has_at s _ y Hg (has_known s y Hg Hky)) as [ey Hy].
  apply (quadratic_step fuel e x y ex ey); [done..|]. cbn zeta. destruct (is_zero e) eqn:Hz.
  { apply is_zero_spec in Hz. eapply makes_from; [by apply constant_makes| |done]. intros inp. cbn beta. rewrite Hz. ring. }
  apply is_zero_false in Hz. pose proof (fun inp => value_node inp _ _ _ (inv_wf _ _ Hg) Hx) as Vx.
  pose proof (fun inp => value_node inp _ _ _ (inv_wf _ _ Hg) Hy) as Vy.
  set (target := makes anything s _).
  assert (forall e1 z w, known s z -> known s w -> (2 + z + w <= fuel)%nat ->
    (forall inp, e1 * (value inp (arena s) z * value inp (arena s) w) = e * (value inp (arena s) x * value inp (arena s) y)) ->
    wp p (algsimp.quadratic_loop cse.rewriter fuel e1 z w) target s) as Hrec.
  { intros e1 z w Hkz Hkw Hfz Hv. eapply makes_from; [by apply IH|done|done]. }
  assert (forall e1 z, known s z -> (forall inp, e1 * value inp (arena s) z = e * (value inp (arena s) x * value inp (arena s) y)) ->
    wp p (algsimp.linear_with cse.rewriter (algsimp.quadratic_loop cse.rewriter fuel) e1 z) target s) as Hlin.
  { intros e1 z Hkz Hv. eapply makes_from; [by apply linear_with_makes|done|done]. }
  assert (forall z w l b, known s z -> expr_at (arena s) z = Some (Sum l b) -> known s w -> (2 + z + w <= S fuel)%nat ->
    (forall inp, value inp (arena s) z * value inp (arena s) w = value inp (arena s) x * value inp (arena s) y) ->
    wp p (mapped ← mapM (fun u => algsimp.quadratic_loop cse.rewriter fuel e u w) l;
          algsimp.sum_with cse.rewriter (algsimp.quadratic_loop cse.rewriter fuel) mapped false) target s) as Hdist.
  { intros z w l b Hkz Hez Hkw Hfz Hv. destruct (sum_elements s z l b Hg Hkz Hez) as [Hl Hvz]. rewrite Forall_forall in Hl.
    eapply makes_from; [apply (mapped_sum_makes _ (fun inp u => e * (value inp (arena s) u * value inp (arena s) w))); [done..|]| |done].
    - intros u s' Hu Hg' Hq. destruct (Hl u Hu) as [Hku _].
      pose proof (child_lt _ _ _ u (inv_wf _ _ Hg) Hez Hu) as Hlt.
      eapply makes_from; [apply IH; [done|by eapply known_ext; [apply Hq|]..|lia]| |done].
      intros inp. cbn beta. by rewrite !(value_known inp N s s') by (done || apply Hq).
    - intros inp. cbn beta. rewrite <- Hv, Hvz.
      rewrite (sigma_ext l _ (fun u => (e * value inp (arena s) w) * value inp (arena s) u)) by (intros; ring).
      rewrite sigma_mul. ring. }
  pose proof (known_children _ _ _ _ Hg Hkx Hx) as Cx. pose proof (known_children _ _ _ _ Hg Hky Hy) as Cy.
  pose proof (fun c => child_lt _ _ _ c (inv_wf _ _ Hg) Hx) as Lx. pose proof (fun c => child_lt _ _ _ c (inv_wf _ _ Hg) Hy) as Ly.
  rewrite Forall_forall in Cx, Cy. cbn [children_of] in *.
  assert (scalar (arena s) x = false -> scalar (arena s) y = false ->
    wp p (if any_sum (arena s) x && any_sum (arena s) y then algsimp.ground_quadratic cse.rewriter e x y
      else if distributive (arena s) y then mapped ← mapM (fun z => algsimp.quadratic_loop cse.rewriter fuel e z x) (children_of ey); algsimp.sum_with cse.rewriter (algsimp.quadratic_loop cse.rewriter fuel) mapped false
      else if distributive (arena s) x then mapped ← mapM (fun z => algsimp.quadratic_loop cse.rewriter fuel e z y) (children_of ex); algsimp.sum_with cse.rewriter (algsimp.quadratic_loop cse.rewriter fuel) mapped false
      else algsimp.ground_quadratic cse.rewriter e x y) target s) as Hrest.
  { intros S1 S2. assert (irreducible (arena s) x y -> wp p (algsimp.ground_quadratic cse.rewriter e x y) target s) as Hgr.
    { intros Hi. eapply makes_from; [by apply ground_quadratic_makes|done|done]. }
    destruct (any_sum (arena s) x && any_sum (arena s) y) eqn:Hany.
    { apply andb_true_iff in Hany as [? ?]. apply Hgr. split; [done|]. split; [done|]. by left. }
    destruct (distributive (arena s) y) eqn:Dy.
    { unfold distributive in Dy. rewrite Hy in Dy. destruct ey as [|l []| | | | |]; try done.
      apply (Hdist y x l false); [done..|lia|intros inp; ring]. }
    destruct (distributive (arena s) x) eqn:Dx.
    { unfold distributive in Dx. rewrite Hx in Dx. destruct ex as [|l []| | | | |]; try done.
      apply (Hdist x y l false); [done..|lia|done]. }
    apply Hgr. split; [done|]. split; [done|]. by right. }
  unfold scalar in Hrest. rewrite Hx, Hy in Hrest.
  assert (forall c, ey = Constant c -> wp p (algsimp.linear_with cse.rewriter (algsimp.quadratic_loop cse.rewriter fuel) (e * c) x) target s) as Hyc.
  { intros c ->. apply Hlin; [done|]. intros inp. rewrite Vy. cbn. ring. }
  assert (forall c w, ey = Linear c w -> wp p (algsimp.quadratic_loop cse.rewriter fuel (e * c) w x) target s) as Hyl.
  { intros c w ->. assert (w ∈ children_of (Linear c w)) as Hw by by left. specialize (Ly w Hw). specialize (Cy w Hw).
    apply Hrec; [done..|lia|]. intros inp. rewrite Vy. cbn. ring. }
  assert (forall c w, ex = Linear c w -> wp p (algsimp.quadratic_loop cse.rewriter fuel (e * c) w y) target s) as Hxl.
  { intros c w ->. assert (w ∈ children_of (Linear c w)) as Hw by by left. specialize (Lx w Hw). specialize (Cx w Hw).
    apply Hrec; [done..|lia|]. intros inp. rewrite Vx. cbn. ring. }
  destruct ex as [i|l b| |c|c z|c z z'|l z].
  4: { apply Hlin; [done|]. intros inp. rewrite Vx. cbn. ring. }
  all: destruct ey as [i'|l' b'| |c'|c' w|c' w w'|l' w];
    first [exact (Hrest eq_refl eq_refl)|exact (Hyc c' eq_refl)|exact (Hyl c' w eq_refl)|exact (Hxl c z eq_refl)].
Qed.

(** *** The rewriter *)
Lemma makes_yields s m shape f : wp p m (makes shape s f) s -> wp p m (yields good quiet known s f) s.
Proof. intros Hm. eapply wp_mono; [exact Hm|]. intros y s' (Hg & Hq & (Hk & _ & Hv) & _). by split. Qed.
Lemma algsimp_ok : RewriterOk p (algsimp.rewriter cse.rewriter) good quiet known (fun _ => True) (fun _ => True).
Proof.
  split.
  - apply _.
  - by intros s s' [].
  - intros s x. apply known_lt.
  - intros s s' x _ [He _ _]. by apply known_ext.
  - intros i s Hg. eapply makes_yields, memo_makes; [done..|by intros].
  - intros s Hg. eapply makes_yields. by apply (constant_makes s 1).
  - intros e s _ Hg. eapply makes_yields. by apply constant_makes.
  - intros l b s _ Hg Hl. eapply makes_yields, sum_with_makes; [apply quadratic_loop_pairs|done..].
  - intros e x s _ Hg Hx. eapply makes_yields, linear_with_makes; [apply quadratic_loop_pairs|done..].
  - intros e x y s _ Hg Hx Hy. eapply makes_yields, quadratic_loop_makes; [done..|lia].
Qed.
End algsimp.

(** ** The first pass ([assertion::rewrite]) *)
Section rewrite.
Context {E : Type} `{AlgebraicFieldLaws E} `{!EqDecision E} `{!Comparable E} `{HashOrder} `{!HashOrderLaws}.

(** The nodes of the table below a list of roots, in normal form and free of
    wrappers, are zero exactly when the assertions of the source hold. *)
Record simplified (src : list (Node E)) (items items' : list AssertionItem) (s : State E) : Prop := {
  sf_inv : inv (normal no_wrappers) s;
  sf_known : Forall (fun it => known s (ai_expr it)) items';
  sf_distinct : NoDup (map ai_expr items');
  sf_sound inp : zeros inp (arena s) items' <-> satisfied inp src items
}.

#[local] Instance algsimp_stripped p : RewriterOk p (algsimp.rewriter cse.rewriter) (inv (normal no_wrappers)) quiet known (fun _ => True) (fun _ => True).
Proof. apply algsimp_ok, no_wrappers_prefix. Qed.

Lemma zeros_same inp a a' (items items' : list AssertionItem) :
  Forall2 (fun it it' => value inp a' (ai_expr it') = value inp a (ai_expr it)) items items' -> zeros inp a' items' <-> zeros inp a items.
Proof.
  intros HF. split; intros Hz it Hin; apply list_elem_of_lookup in Hin as [i Hl].
  - destruct (Forall2_lookup_l _ _ _ _ _ HF Hl) as (it' & Hl' & <-). apply Hz. by eapply list_elem_of_lookup_2.
  - destruct (Forall2_lookup_r _ _ _ _ _ HF Hl) as (it' & Hl' & ->). apply Hz. by eapply list_elem_of_lookup_2.
Qed.

Lemma rewrite_ok p src items tracker :
  arena_wf src -> Forall (fun it => ai_expr it < length src)%nat items ->
  wp p (assertion.rewrite src items tracker) (fun r s' => simplified src items r.1 s') empty_arena.
Proof.
  intros Hwf Hr. unfold assertion.rewrite. apply wp_bind. eapply wp_mono.
  { apply strip_all_ok; [done..|apply inv_empty|done]. }
  intros [items1 t1] s1 (Hi1 & _ & Hk1 & Hz1). cbn [fst] in *. apply wp_bind. eapply wp_eq; [reflexivity|].
  apply wp_bind. eapply wp_eq; [reflexivity|]. cbn [arena new_cse].
  pose proof (inv_new_cse _ (normal no_wrappers) _ Hi1) as Hi2. apply wp_bind. eapply wp_mono.
  { apply (walk_values p (algsimp.rewriter cse.rewriter) (inv (normal no_wrappers)) quiet known (fun _ => True) (fun _ => True) (arena s1) (inv_wf _ _ Hi1)).
    - eapply Forall_impl; [exact Hk1|]. intros it. by apply (known_lt unwrapped).
    - intros x n Hx Hn. assert (known s1 x) as Hkx by (eapply reaches_known; [done|by apply Forall_map|done]).
      assert (expr_at (arena s1) x = Some (v n)) as He by (unfold expr_at; by rewrite Hn).
      pose proof (known_node _ _ _ _ Hi1 Hkx He) as Hu. by destruct (v n).
    - exact Hi2. }
  cbn beta. intros items2 s2 (Hi3 & Hq & HF). apply wp_ret.
  destruct (assertion.dedup_assertions items2 t1) as [items3 t3] eqn:Hd. destruct (dedup_exprs _ _ _ _ Hd) as [Hx Hnd].
  cbn [fst]. split; [done| |done|].
  - apply Forall_forall. intros it Hin. assert (ai_expr it ∈ map ai_expr items2) as Hin' by (apply Hx, list_elem_of_fmap; eauto).
    apply list_elem_of_fmap in Hin' as (it' & -> & Hin'). apply list_elem_of_lookup in Hin' as [i Hl].
    by destruct (Forall2_lookup_r _ _ _ _ _ HF Hl) as (it0 & _ & _ & Hg & _).
  - intros inp. rewrite <- Hz1, (zeros_exprs inp _ items3 items2) by exact Hx. apply zeros_same.
    eapply Forall2_impl; [exact HF|]. intros it it' (_ & _ & Hv). by rewrite Hv.
Qed.
End rewrite.
