(* ===== verification/CopyFacts.v ===== *)
(** * Copy wires

    The copy pass turns every expression into inputs, products of operands of
    equal depth and sums of terms of one depth, without changing any value. *)
From stdpp Require Import prelude gmap sorting strings.
From Stdlib Require Import Lia NArith Ring Ring_theory.
From S2P Require Import Prelude Words Interfaces Field FieldFacts Scope CompilerIR CompilerPasses CompilerSem CseFacts RewriterFacts AlgsimpFacts.

Local Open Scope fe_scope.
Local Open Scope nat_scope.

Section copy.
Context {E : Type} `{AlgebraicFieldLaws E} `{!EqDecision E}.
Add Ring field_ring_copy : (field_ring (E:=E)).
(** With [p], coefficients may be zero and the pass may panic. *)
Context (p : bool).
Implicit Types s : State E.
Implicit Types a b : list (Node E).

Definition coefficient_ok (e : E) : Prop := p = false -> e <> 0%fe.
(** What the elements of a sum are. *)
Definition term a (x : ExprNode) : Prop :=
  match expr_at a x with Some (Input _) | Some One | Some (Quadratic _ _ _) => True | _ => False end.
Definition levelled a (e : Expr E) : Prop :=
  match e with
  | Input _ | One => True
  | Quadratic e x y => coefficient_ok e /\ depth_at a x = depth_at a y
  | Sum l _ => l <> [] /\ exists d, Forall (fun x => term a x /\ term_depth_at a x = d) l
  | _ => False
  end.

Lemma term_old a b x : a `prefix_of` b -> x < length a -> term a x -> term b x.
Proof. intros Hp Hx. unfold term. by rewrite (expr_at_old a b). Qed.
Lemma term_depth_at_prefix a b x : a `prefix_of` b -> x < length a -> term_depth_at b x = term_depth_at a x.
Proof. intros [r ->] Hx. unfold term_depth_at. by rewrite lookup_app_l. Qed.
Lemma levelled_prefix a b e : a `prefix_of` b -> scoped a e -> levelled a e -> levelled b e.
Proof.
  unfold scoped. rewrite Forall_forall. intros Hp Hs. destruct e; cbn [levelled children_of] in *; try done.
  - intros [Hne (d & Hf)]. split; [done|]. exists d. rewrite Forall_forall in *. intros x Hx. destruct (Hf x Hx) as [Ht Hd].
    split; [eapply term_old; [done|by apply Hs|done]|]. rewrite (term_depth_at_prefix a b); [done..|by apply Hs].
  - intros [He Hd]. split; [done|]. rewrite !(depth_at_prefix a b); [done|done|apply Hs; set_solver|done|apply Hs; set_solver].
Qed.

(** The memo of [one_at_depth]. *)
Definition ones_ok s : Prop := forall d n, ones s !! d = Some n ->
  known s n /\ n < length (arena s) /\ depth_at (arena s) n = d /\ forall inp, value inp (arena s) n = 1%fe.
Record copy_inv s : Prop := { ci_inv : inv levelled s; ci_ones : ones_ok s }.

Definition leaves (shape : list (Node E) -> ExprNode -> Prop) s (f : (nat -> E) -> E) (y : ExprNode) s' : Prop :=
  copy_inv s' /\ ext s s' /\ has s' f y /\ shape (arena s') y.
Definition at_depth (d : nat) a (x : ExprNode) : Prop := depth_at a x = d.
Definition term_at_depth (d : nat) a (x : ExprNode) : Prop := term a x /\ depth_at a x = d.

Lemma leaves_from s (m : comp E ExprNode) (shape shape' : list (Node E) -> ExprNode -> Prop) f g :
  wp p m (leaves shape s f) s -> (forall inp, f inp = g inp) -> (forall a y, shape a y -> shape' a y) ->
  wp p m (leaves shape' s g) s.
Proof.
  intros Hm Hfg Hs. eapply wp_mono; [exact Hm|]. intros y s' (Hg & Hq & Hh & Hsh).
  split; [done|]. split; [done|]. split; [by eapply has_value|by apply Hs].
Qed.
Lemma leaves_trans s1 s (m : comp E ExprNode) shape f g :
  ext s1 s -> (forall inp, f inp = g inp) -> wp p m (leaves shape s f) s -> wp p m (leaves shape s1 g) s.
Proof.
  intros Hq Hfg Hm. eapply wp_mono; [exact Hm|]. intros y s' (Hg & Hq' & Hh & Hsh).
  split; [done|]. split; [by transitivity s|]. split; [by eapply has_value|done].
Qed.
Lemma ones_ext s s' : ext s s' -> ones s' = ones s -> ones_ok s -> ones_ok s'.
Proof.
  intros He Ho Hk d n Hn. rewrite Ho in Hn. destruct (Hk d n Hn) as (Hkn & Hl & Hd & Hv). split; [by eapply known_ext|].
  pose proof (prefix_length _ _ (ext_arena _ _ He)). split; [lia|]. split; [by rewrite (depth_at_prefix (arena s)) by (done || apply He)|].
  intros inp. by rewrite (value_ext inp s s').
Qed.

(** What is known of a node of the table. *)
Lemma copy_known_at s x : copy_inv s -> known s x -> exists e, expr_at (arena s) x = Some e /\ levelled (arena s) e /\
  Forall (known s) (children_of e) /\ depth_at (arena s) x = depth_in (arena s) e /\
  forall inp, value inp (arena s) x = denote inp (value inp (arena s)) e.
Proof.
  intros [Hi _] Hk. destruct (known_at _ _ _ Hi Hk) as (e & Hm & He). exists e. split; [done|].
  split; [by eapply (inv_nodes _ _ Hi)|]. split; [by eapply (inv_closed _ _ Hi)|]. split.
  - pose proof He as He'. apply fmap_Some in He' as (n & Hn & ->). unfold depth_at. rewrite Hn. exact (inv_depth _ _ Hi _ _ Hn).
  - intros inp. apply value_node; [apply Hi|done].
Qed.
Lemma copy_lt s x : copy_inv s -> known s x -> x < length (arena s).
Proof. intros [Hi _]. by apply (known_lt levelled). Qed.
Lemma node_reads s x : copy_inv s -> known s x -> exists n, node_of x s = Ok (n, s) /\ arena s !! x = Some n /\
  depth n = depth_at (arena s) x /\ depth_term n = term_depth_at (arena s) x.
Proof.
  intros Hi Hk. destruct (lookup_lt_is_Some_2 _ _ (copy_lt _ _ Hi Hk)) as [n Hn]. exists n.
  split; [by apply node_of_at|]. split; [done|]. unfold depth_at, term_depth_at, ExprNode in *. by rewrite Hn.
Qed.
Lemma depth_of_ok s x : copy_inv s -> known s x -> copy.depth_of x s = Ok (depth_at (arena s) x, s).
Proof.
  intros Hi Hk. destruct (node_reads s x Hi Hk) as (n & Hn & _ & Hd & _). unfold copy.depth_of.
  erewrite bind_eq by exact Hn. by rewrite Hd.
Qed.
Lemma term_depths s x : copy_inv s -> known s x -> term (arena s) x ->
  (exists n, node_of x s = Ok (n, s) /\ match v n with Input _ | One => term_depth_at (arena s) x = 1 /\ depth_at (arena s) x = 0
     | Quadratic _ _ _ => term_depth_at (arena s) x = depth n /\ depth_at (arena s) x = depth n /\ 1 <= depth n | _ => False end).
Proof.
  intros Hi Hk Ht. destruct (node_reads s x Hi Hk) as (n & Hn & Ha & Hd & Htd). exists n. split; [done|].
  destruct (copy_known_at s x Hi Hk) as (e & He & _ & _ & Hde & _). unfold term in Ht. rewrite He in Ht.
  assert (v n = e) as Hv by (unfold expr_at in He; rewrite Ha in He; cbn in He; congruence).
  rewrite Hv. unfold depth_term in Htd. rewrite Hv in Htd. destruct e; try done; cbn in Hde; rewrite <- Htd, <- Hd in *; split_and!; lia.
Qed.
Lemma depth_term_ok s x : copy_inv s -> known s x -> term (arena s) x -> copy.depth_term x s = Ok (term_depth_at (arena s) x, s).
Proof.
  intros Hi Hk Ht. destruct (term_depths s x Hi Hk Ht) as (n & Hn & Hm). unfold copy.depth_term.
  erewrite bind_eq by exact Hn. destruct (v n); try done; [by destruct Hm as [-> _]..|by destruct Hm as (-> & _ & _)].
Qed.
(** A term sits at its depth, or is an input or one counted as depth one. *)
Lemma term_depth_cases s x : copy_inv s -> known s x -> term (arena s) x ->
  1 <= term_depth_at (arena s) x /\ (term_depth_at (arena s) x = depth_at (arena s) x \/ depth_at (arena s) x = 0 /\ term_depth_at (arena s) x = 1).
Proof.
  intros Hi Hk Ht. destruct (term_depths s x Hi Hk Ht) as (n & _ & Hm). destruct (v n); try done; lia.
Qed.
Lemma has_copy_known s y : copy_inv s -> known s y -> has s (fun inp => value inp (arena s) y) y.
Proof. intros Hi Hk. split; [done|]. split; [by apply copy_lt|done]. Qed.

(** *** Ground nodes *)
Lemma memo_leaves s e f : copy_inv s -> Forall (known s) (children_of e) -> levelled (arena s) e ->
  (forall inp, denote inp (value inp (arena s)) e = f inp) ->
  wp p (cse.memo_expr e) (leaves (fun a y => expr_at a y = Some e /\ depth_at a y = depth_in (arena s) e) s f) s.
Proof.
  intros [Hi Ho] Hk Hn Hf. eapply wp_mono; [by apply (memo_yields levelled levelled_prefix)|].
  intros y s' [[Hg' Hq Hky Hv] He]. assert (copy_inv s') as Hc by (split; [done|by eapply ones_ext; [apply Hq|apply Hq|]]).
  split; [done|]. split; [apply Hq|]. split; [split; [done|]; split; [by eapply known_lt|]; intros inp; by rewrite Hv|].
  split; [done|]. destruct (copy_known_at s' y Hc Hky) as (e' & He' & _ & _ & Hd & _). rewrite He in He'. injection He' as <-.
  rewrite Hd. apply depth_in_prefix; [apply Hq|]. by eapply known_scoped.
Qed.
Lemma ground_quadratic_leaves s e x y : copy_inv s -> coefficient_ok e -> known s x -> known s y ->
  depth_at (arena s) x = depth_at (arena s) y ->
  wp p (copy.ground_quadratic cse.rewriter e x y) (leaves (term_at_depth (S (depth_at (arena s) x))) s
    (fun inp => e * (value inp (arena s) x * value inp (arena s) y))%fe) s.
Proof.
  intros Hi He Hx Hy Hd. unfold copy.ground_quadratic. apply wp_bind. eapply wp_eq; [by apply depth_of_ok|].
  apply wp_bind. eapply wp_eq; [by apply depth_of_ok|]. apply wp_bind, wp_assert; [by rewrite Hd, Nat.eqb_refl|].
  cbn [rw_quadratic cse.rewriter]. unfold cse.canonical2.
  destruct (x <? y); (eapply leaves_from; [apply memo_leaves with (f := fun inp => (e * (value inp (arena s) x * value inp (arena s) y))%fe); [done|by repeat constructor| |]|done|]).
  1, 4: by split.
  1, 3: intros inp; cbn; ring.
  all: intros a z [Hz Hdz]; split; [unfold term; by rewrite Hz|]; rewrite Hdz; cbn; lia.
Qed.
Lemma one_leaves s : copy_inv s -> wp p (rw_one cse.rewriter) (leaves (term_at_depth 0) s (fun _ => 1%fe)) s.
Proof.
  intros Hi. eapply leaves_from; [by apply (memo_leaves s One (fun _ => 1%fe))|done|].
  intros a y [Hy Hd]. split; [unfold term; by rewrite Hy|done].
Qed.

(** *** Copies *)
Lemma coefficient_one : coefficient_ok 1%fe.
Proof. intros _. apply one_neq_zero. Qed.
#[local] Hint Resolve coefficient_one : core.

Lemma set_one_leaves s d n : copy_inv s -> has s (fun _ => 1%fe) n -> depth_at (arena s) n = d ->
  wp p (copy.set_one d n ;; mret n) (leaves (at_depth d) s (fun _ => 1%fe)) s.
Proof.
  intros Hi Hh Hd. apply wp_bind. eapply wp_eq; [reflexivity|]. apply wp_ret. destruct Hh as ([e Hk] & Hl & Hv).
  split; [split|].
  - by destruct Hi as [[] _]; split.
  - intros d' n'. cbn [ones arena]. destruct (decide (d' = d)) as [->|Hne].
    + rewrite lookup_insert_eq. intros [= <-]. split; [by exists e|]. by split.
    + rewrite lookup_insert_ne by done. intros Hn. destruct (ci_ones _ Hi _ _ Hn) as ([e' Hk'] & Hrest). split; [by exists e'|done].
  - split; [by split|]. split; [|done]. split; [by exists e|]. by split.
Qed.
Lemma one_at_depth_leaves d : forall s, copy_inv s -> wp p (copy.one_at_depth cse.rewriter d) (leaves (at_depth d) s (fun _ => 1%fe)) s.
Proof.
  induction d as [|d IH]; intros s Hi; cbn [copy.one_at_depth];
    (apply wp_bind; eapply wp_eq; [reflexivity|]); (destruct (ones s !! _) as [n|] eqn:Hn;
    [apply wp_ret; destruct (ci_ones _ Hi _ _ Hn) as (Hk & Hl & Hd & Hv); split; [done|]; split; [reflexivity|]; split; [by split|done]|]).
  - apply wp_bind. eapply wp_mono; [by apply one_leaves|]. intros n s1 (Hi1 & He1 & Hh & [_ Hd]).
    eapply leaves_trans; [exact He1|done|]. by apply set_one_leaves.
  - apply wp_bind, wp_bind. eapply wp_mono; [by apply IH|]. intros oo s0 (Hi0 & He0 & (Hko & Hlo & Hvo) & Hdo).
    eapply wp_mono; [by apply ground_quadratic_leaves|]. intros n s1 (Hi1 & He1 & Hh & [_ Hd]). rewrite Hdo in Hd.
    eapply leaves_trans; [by transitivity s0|done|]. apply set_one_leaves; [done| |done].
    eapply has_value; [|exact Hh]. intros inp. cbn beta. rewrite Hvo. ring.
Qed.

Lemma depth_ext s s' x : ext s s' -> x < length (arena s) -> depth_at (arena s') x = depth_at (arena s) x.
Proof. intros He. apply depth_at_prefix. apply He. Qed.

Lemma copy_leaves s x : copy_inv s -> known s x ->
  wp p (copy.copy cse.rewriter x) (leaves (term_at_depth (S (depth_at (arena s) x))) s (fun inp => value inp (arena s) x)) s.
Proof.
  intros Hi Hk. unfold copy.copy. apply wp_bind. eapply wp_eq; [by apply depth_of_ok|].
  apply wp_bind. eapply wp_mono; [by apply one_at_depth_leaves|]. intros oo s1 (Hi1 & He1 & (Hko & Hlo & Hvo) & Hdo).
  unfold at_depth in Hdo. pose proof (known_ext _ _ _ He1 Hk) as Hk1. pose proof (copy_lt _ _ Hi Hk) as Hlx.
  destruct (copy_known_at s1 x Hi1 Hk1) as (e & Hx & Hn & Hch & Hd & Hv). apply wp_bind. eapply wp_eq; [by apply expr_of_at|].
  rewrite (depth_ext s s1) in Hd by done.
  assert (wp p (copy.ground_quadratic cse.rewriter 1%fe oo x) (leaves (term_at_depth (S (depth_at (arena s) x))) s (fun inp => value inp (arena s) x)) s1) as Hplain.
  { eapply leaves_trans; [exact He1| |eapply leaves_from; [apply ground_quadratic_leaves; [done..|by rewrite Hdo, (depth_ext s s1)]|done|]].
    - intros inp. cbn beta. rewrite Hvo, (value_ext inp s s1) by done. ring.
    - intros a y. by rewrite Hdo. }
  destruct e as [i|l b| |c|c z|c z z'|l z]; try done.
  cbn in Hn, Hch, Hd. apply Forall_cons in Hch as [Hz Hch]. apply Forall_cons in Hch as [Hz' _]. destruct Hn as [Hc Hdz].
  apply wp_bind. eapply wp_mono; [by apply (ground_quadratic_leaves s1)|]. intros sq s2 (Hi2 & He2 & (Hks & Hls & Hvs) & [_ Hds]).
  assert (depth_at (arena s2) oo = depth_at (arena s) x) as Hdo2 by (rewrite (depth_ext s1 s2) by done; done).
  eapply leaves_trans; [by transitivity s1| |eapply leaves_from; [apply (ground_quadratic_leaves s2); [done|done|by eapply known_ext|done|]|done|]].
  - intros inp. cbn beta. rewrite Hvs, (value_ext inp s1 s2), Hvo by done. rewrite <- (value_ext inp s s1), Hv by done. cbn. ring.
  - rewrite Hdo2, Hds. lia.
  - intros a y. by rewrite Hdo2.
Qed.

Definition lifted (d : nat) a (x : ExprNode) : Prop := term a x /\ term_depth_at a x = d.
Lemma lift_loop_leaves d fuel : forall x s, copy_inv s -> known s x -> term (arena s) x ->
  term_depth_at (arena s) x <= d -> d - depth_at (arena s) x <= fuel ->
  wp p (copy.lift_loop cse.rewriter fuel d x) (leaves (lifted d) s (fun inp => value inp (arena s) x)) s.
Proof.
  induction fuel as [|fuel IH]; intros x s Hi Hk Ht Hd Hf; cbn [copy.lift_loop];
    (apply wp_bind; eapply wp_eq; [by apply depth_term_ok|]);
    destruct (term_depth_cases s x Hi Hk Ht) as [H1 Hc];
    (destruct (Nat.eqb_spec (term_depth_at (arena s) x) d) as [Hdx|Hne];
      [apply wp_ret; split; [done|]; split; [reflexivity|]; split; [by apply has_copy_known|done]|]);
    rewrite (proj2 (Nat.ltb_ge d _)) by done; [lia|].
  apply wp_bind. eapply wp_mono; [by apply copy_leaves|]. intros y s1 (Hi1 & He1 & (Hky & Hly & Hvy) & Hty & Hdy).
  eapply leaves_trans; [exact He1| |apply IH; [done..| |]].
  - intros inp. cbn beta. by rewrite Hvy.
  - destruct (term_depth_cases s1 y Hi1 Hky Hty) as [? Hcy]. lia.
  - lia.
Qed.
Lemma lift_leaves d x s : copy_inv s -> known s x -> term (arena s) x -> term_depth_at (arena s) x <= d ->
  wp p (copy.lift cse.rewriter d x) (leaves (lifted d) s (fun inp => value inp (arena s) x)) s.
Proof. intros Hi Hk Ht Hd. apply lift_loop_leaves; [done..|lia]. Qed.

(** *** Sums *)
Lemma term_depth_ext s s' x : ext s s' -> x < length (arena s) -> term_depth_at (arena s') x = term_depth_at (arena s) x.
Proof. intros He. apply term_depth_at_prefix. apply He. Qed.
Lemma lifted_ext s s' d x : ext s s' -> x < length (arena s) -> lifted d (arena s) x -> lifted d (arena s') x.
Proof. intros He Hl [Ht Hd]. split; [eapply term_old; [apply He|done|done]|by rewrite (term_depth_ext s s')]. Qed.
Lemma max_list_ge l x : x ∈ l -> x <= max_list l.
Proof. unfold max_list. induction l as [|y l IH]; [by intros ?%not_elem_of_nil|]. intros [->|Hx]%elem_of_cons; cbn; [lia|]. specialize (IH Hx). lia. Qed.
Lemma max_list_const l d : l <> [] -> Forall (eq d) l -> max_list l = d.
Proof.
  destruct l as [|x l]; [done|]. intros _ Hf. unfold max_list. apply Forall_cons in Hf as [<- Hf]. cbn.
  induction Hf as [|y l -> Hf IH]; cbn; lia.
Qed.
Lemma max_list_in l : l <> [] -> max_list l ∈ l.
Proof.
  unfold max_list. induction l as [|x l IH]; [done|]. intros _. cbn. destruct l as [|y l]; [cbn; rewrite Nat.max_0_r; by left|].
  destruct (Nat.max_spec x (foldr Nat.max 0 (y :: l))) as [[_ ->]|[_ ->]]; [right; by apply IH|by left].
Qed.

(** A sum of terms of one depth. *)
Definition shallow (d : nat) a (x : ExprNode) : Prop := depth_at a x <= d.
Lemma level_sum_leaves s d l (pr : bool) : copy_inv s -> l <> [] -> Forall (fun x => known s x /\ lifted d (arena s) x) l ->
  wp p (rw_sum cse.rewriter l pr) (leaves (shallow d) s (fun inp => sigma l (value inp (arena s)))) s.
Proof.
  intros Hi Hne Hl. cbn [rw_sum cse.rewriter]. assert (cse.sort_ids l <> []) as Hne'.
  { intros Hnil. apply Hne. apply Permutation_nil_r. by rewrite <- Hnil, sort_ids_perm. }
  eapply leaves_from; [apply memo_leaves with (f := fun inp => sigma l (value inp (arena s))); [done|..]|done|].
  - cbn. rewrite sort_ids_perm. eapply Forall_impl; [exact Hl|]. by intros x [].
  - split; [done|]. exists d. rewrite sort_ids_perm. eapply Forall_impl; [exact Hl|]. by intros x [_ ?].
  - intros inp. cbn. apply sigma_perm, sort_ids_perm.
  - intros a y [_ Hd]. unfold shallow. rewrite Hd. cbn. rewrite (max_list_const _ d); [done|by destruct (cse.sort_ids l)|].
    apply Forall_map. rewrite sort_ids_perm. eapply Forall_impl; [exact Hl|]. by intros x [_ [_ ->]].
Qed.

(** The terms of maximal depth and the others. *)
Lemma filter_zip_map {X} (g : X -> nat) (P : nat -> Prop) `{!forall n, Decision (P n)} l :
  (filter (fun q => P q.2) (zip l (map g l))).*1 = filter (fun x => P (g x)) l.
Proof.
  induction l as [|x l IH]; [done|]. cbn [map zip zip_with]. rewrite !filter_cons. cbn [snd].
  destruct (decide (P (g x))); cbn [fmap list_fmap fst]; by rewrite <- IH.
Qed.
Lemma sigma_split {X} (P : X -> Prop) `{!forall x, Decision (P x)} l (g : X -> E) :
  (sigma l g = sigma (filter P l) g + sigma (filter (fun x => ~ P x) l) g)%fe.
Proof.
  induction l as [|x l IH]; [cbn; ring|]. rewrite !filter_cons.
  destruct (decide (P x)) as [HP|HP]; [rewrite decide_False by tauto|rewrite decide_True by done]; rewrite !sigma_cons, IH; ring.
Qed.
Lemma length_filter_split {X} (P : X -> Prop) `{!forall x, Decision (P x)} l :
  length l = length (filter P l) + length (filter (fun x => ~ P x) l).
Proof.
  induction l as [|x l IH]; [done|]. rewrite !filter_cons.
  destruct (decide (P x)) as [HP|HP]; [rewrite decide_False by tauto|rewrite decide_True by done]; cbn; lia.
Qed.
(** Terms that are already at their depth are returned as they are. *)
Lemma lift_here s d l : copy_inv s -> Forall (fun x => known s x /\ lifted d (arena s) x) l ->
  mapM (copy.lift cse.rewriter d) l s = Ok (l, s).
Proof.
  intros Hi Hl. rewrite <- (map_id l) at 2. apply mapM_reads. intros x Hx. rewrite Forall_forall in Hl. destruct (Hl x Hx) as [Hk [Ht Hd]].
  unfold copy.lift. cbn [copy.lift_loop]. erewrite bind_eq by (by apply depth_term_ok). by rewrite Hd, Nat.eqb_refl.
Qed.

(** One round of [sum_no_nested_sums] on at least two terms. *)
Lemma sum_round fuel x y l s Q : copy_inv s -> Forall (fun z => known s z /\ term (arena s) z) (x :: y :: l) ->
  let all := x :: y :: l in
  let d := max_list (map (term_depth_at (arena s)) all) in
  let yes := filter (fun z => term_depth_at (arena s) z = d) all in
  let no := filter (fun z => term_depth_at (arena s) z <> d) all in
  wp p (match no with
    | [] => rw_sum cse.rewriter yes false
    | _ => match fuel with
           | O => out_of_fuel
           | S fuel =>
               folded_no ← copy.sum_no_nested_loop cse.rewriter fuel no;
               copied_no ← copy.copy cse.rewriter folded_no;
               lifted_no ← copy.lift cse.rewriter d copied_no;
               copy.sum_no_nested_loop cse.rewriter fuel (yes ++ [lifted_no])
           end
    end) Q s ->
  wp p (copy.sum_no_nested_loop cse.rewriter fuel (x :: y :: l)) Q s.
Proof.
  intros Hi Hl all d yes no Hw. assert (mapM copy.depth_term all s = Ok (map (term_depth_at (arena s)) all, s)) as Hds.
  { apply mapM_reads. intros z Hz. rewrite Forall_forall in Hl. destruct (Hl z Hz). by apply depth_term_ok. }
  assert (mapM (copy.lift cse.rewriter d) yes s = Ok (yes, s)) as Hlift.
  { apply lift_here; [done|]. apply Forall_forall. intros z Hz. apply list_elem_of_filter in Hz as [Hz Hin].
    rewrite Forall_forall in Hl. by destruct (Hl z Hin). }
  assert (copy.sum_no_nested_loop cse.rewriter fuel all = (ds ← mapM copy.depth_term all;
      let d := max_list ds in
      let yes := (filter (fun p => p.2 = d) (zip all ds)).*1 in
      let no := (filter (fun p => p.2 <> d) (zip all ds)).*1 in
      yes_lifted ← mapM (copy.lift cse.rewriter d) yes;
      match no with
      | [] => rw_sum cse.rewriter yes_lifted false
      | _ =>
          match fuel with
          | O => out_of_fuel
          | S fuel =>
              folded_no ← copy.sum_no_nested_loop cse.rewriter fuel no;
              copied_no ← copy.copy cse.rewriter folded_no;
              lifted_no ← copy.lift cse.rewriter d copied_no;
              copy.sum_no_nested_loop cse.rewriter fuel (yes_lifted ++ [lifted_no])
          end
      end)) as Heq by (by destruct fuel).
  fold all. rewrite Heq. apply wp_bind. eapply wp_eq; [exact Hds|]. cbn zeta. fold d.
  assert ((filter (fun q : ExprNode * nat => q.2 = d) (zip all (map (term_depth_at (arena s)) all))).*1 = yes) as ->
    by exact (filter_zip_map (term_depth_at (arena s)) (fun n => n = d) all).
  assert ((filter (fun q : ExprNode * nat => q.2 <> d) (zip all (map (term_depth_at (arena s)) all))).*1 = no) as ->
    by exact (filter_zip_map (term_depth_at (arena s)) (fun n => n <> d) all).
  apply wp_bind. eapply wp_eq; [exact Hlift|]. exact Hw.
Qed.

Lemma filter_all {X} (P : X -> Prop) `{!forall x, Decision (P x)} l : Forall P l -> filter P l = l.
Proof. induction 1 as [|x l Hx _ IH]; [done|]. rewrite filter_cons, decide_True by done. by rewrite IH. Qed.
Lemma filter_none {X} (P : X -> Prop) `{!forall x, Decision (P x)} l : Forall (fun x => ~ P x) l -> filter P l = [].
Proof. induction 1 as [|x l Hx _ IH]; [done|]. by rewrite filter_cons, decide_False by done. Qed.

Lemma sum_level_leaves fuel d l s : copy_inv s -> l <> [] -> Forall (fun x => known s x /\ lifted d (arena s) x) l ->
  wp p (copy.sum_no_nested_loop cse.rewriter fuel l) (leaves (shallow d) s (fun inp => sigma l (value inp (arena s)))) s.
Proof.
  intros Hi Hne Hl. destruct l as [|x [|y l]]; [done| |].
  - apply Forall_cons in Hl as [[Hk [Ht Hd]] _]. destruct fuel; cbn [copy.sum_no_nested_loop]; apply wp_ret;
      (split; [done|]; split; [reflexivity|]; split; [eapply has_value; [|by apply has_copy_known]; intros inp; cbn; ring|];
       destruct (term_depth_cases s x Hi Hk Ht); unfold shallow; lia).
  - assert (max_list (map (term_depth_at (arena s)) (x :: y :: l)) = d) as Hm.
    { apply max_list_const; [done|]. apply Forall_map. eapply Forall_impl; [exact Hl|]. by intros z [_ [_ ->]]. }
    apply sum_round; [done|eapply Forall_impl; [exact Hl|]; by intros z [? []]|]. cbn zeta. rewrite Hm.
    rewrite (filter_none (fun z => term_depth_at (arena s) z <> d)), (filter_all (fun z => term_depth_at (arena s) z = d)).
    + by apply level_sum_leaves.
    + eapply Forall_impl; [exact Hl|]. by intros z [_ [_ ?]].
    + eapply Forall_impl; [exact Hl|]. by intros z [_ [_ ?]] ?.
Qed.

Lemma sum_no_nested_leaves fuel : forall l s, copy_inv s -> Forall (fun z => known s z /\ term (arena s) z) l ->
  (p = false -> l <> []) -> length l <= fuel ->
  wp p (copy.sum_no_nested_loop cse.rewriter fuel l)
    (leaves (shallow (max_list (map (term_depth_at (arena s)) l))) s (fun inp => sigma l (value inp (arena s)))) s.
Proof.
  induction fuel as [|fuel IH]; intros l s Hi Hl Hne Hf; destruct l as [|x [|y l]]; try (cbn in Hf; lia).
  1, 2: cbn; unfold wp; cbn; destruct p; [done|]; by destruct Hne.
  { apply Forall_cons in Hl as [[Hk Ht] _]. cbn [copy.sum_no_nested_loop]. apply wp_ret. split; [done|]. split; [reflexivity|].
    split; [eapply has_value; [|by apply has_copy_known]; intros inp; cbn; ring|].
    destruct (term_depth_cases s x Hi Hk Ht). unfold shallow. cbn. lia. }
  apply sum_round; [done..|]. cbn zeta. set (all := x :: y :: l) in *. set (td := term_depth_at (arena s)).
  set (d := max_list (map td all)). set (yes := filter (fun z => td z = d) all). set (no := filter (fun z => td z <> d) all).
  assert (yes <> []) as Hyes.
  { assert (d ∈ map td all) as Hd by by apply max_list_in. apply list_elem_of_fmap in Hd as (z & Hz & Hin).
    intros Hnil. apply (not_elem_of_nil z). fold yes in Hnil. rewrite <- Hnil. apply list_elem_of_filter. by split. }
  assert (Forall (fun z => known s z /\ lifted d (arena s) z) yes) as Hly.
  { apply Forall_forall. intros z Hz. apply list_elem_of_filter in Hz as [Hz Hin]. rewrite Forall_forall in Hl.
    destruct (Hl z Hin). by repeat split. }
  assert (Forall (fun z => known s z /\ term (arena s) z) no) as Hln.
  { apply Forall_forall. intros z Hz. apply list_elem_of_filter in Hz as [_ Hin]. rewrite Forall_forall in Hl. by apply Hl. }
  assert (forall inp, sigma all (value inp (arena s)) = sigma yes (value inp (arena s)) + sigma no (value inp (arena s)))%fe as Hsplit.
  { intros inp. apply sigma_split. }
  destruct (decide (no = [])) as [Hno|Hno].
  { rewrite Hno. eapply leaves_from; [by apply (level_sum_leaves s d yes)| |done]. intros inp. cbn beta. rewrite Hsplit, Hno. cbn. ring. }
  assert (max_list (map td no) < d) as Hlt.
  { assert (max_list (map td no) ∈ map td no) as Hin by (apply max_list_in; by destruct no).
    apply list_elem_of_fmap in Hin as (z & Hz & Hin). apply list_elem_of_filter in Hin as [Hzd Hin].
    assert (td z <= d) by (apply max_list_ge, list_elem_of_fmap; by exists z). lia. }
  destruct no as [|n0 no0] eqn:Eno; [done|]. rewrite <- Eno in *. clear Hno.
  apply wp_bind. eapply wp_mono; [apply IH; [done..|by rewrite Eno|]|].
  { pose proof (length_filter_split (fun z => td z = d) all) as Hlen. change (length all = length yes + length no) in Hlen.
    destruct yes; [done|]. cbn [length] in Hlen. lia. }
  intros f s1 (Hi1 & He1 & (Hkf & Hlf & Hvf) & Hdf). unfold shallow in Hdf. fold td in Hdf.
  assert (depth_at (arena s1) f < d) as Hdf1 by lia.
  apply wp_bind. eapply wp_mono; [by apply copy_leaves|]. intros c s2 (Hi2 & He2 & (Hkc & Hlc & Hvc) & Htc & Hdc).
  apply wp_bind. eapply wp_mono; [apply (lift_leaves d); [done..|]|].
  { destruct (term_depth_cases s2 c Hi2 Hkc Htc) as [? [|[? ?]]]; lia. }
  intros z s3 (Hi3 & He3 & (Hkz & Hlz & Hvz) & Hliftz). assert (ext s s3) as He by (transitivity s1; [done|]; by transitivity s2).
  eapply leaves_trans; [exact He| |apply sum_level_leaves; [done|by destruct yes|]].
  - intros inp. cbn beta. rewrite sigma_app, Hsplit, <- Hvf, <- Hvc, <- Hvz. unfold sigma at 2. cbn [map fsum].
    rewrite (sigma_ext yes (value inp (arena s3)) (value inp (arena s))); [ring|].
    intros w Hw. apply value_ext; [done|]. apply copy_lt; [done|]. rewrite Forall_forall in Hly. by apply Hly.
  - apply Forall_app. split; [|by apply Forall_singleton]. eapply Forall_impl; [exact Hly|]. intros w [Hkw Hlw].
    split; [by eapply known_ext|]. eapply lifted_ext; [done|by apply copy_lt|done].
Qed.

(** *** Products *)
Lemma quadratic_loop_leaves fuel : forall e x y s, copy_inv s -> coefficient_ok e -> known s x -> known s y ->
  Nat.max (depth_at (arena s) x) (depth_at (arena s) y) - Nat.min (depth_at (arena s) x) (depth_at (arena s) y) <= fuel ->
  wp p (copy.quadratic_loop cse.rewriter fuel e x y) (leaves term s (fun inp => e * (value inp (arena s) x * value inp (arena s) y))%fe) s.
Proof.
  induction fuel as [|fuel IH]; intros e x y s Hi He Hx Hy Hf; cbn [copy.quadratic_loop];
    (apply wp_bind; eapply wp_eq; [by apply depth_of_ok|]); (apply wp_bind; eapply wp_eq; [by apply depth_of_ok|]);
    (destruct (Nat.eqb_spec (depth_at (arena s) x) (depth_at (arena s) y)) as [Hd|Hd];
      [eapply leaves_from; [by apply ground_quadratic_leaves|done|by intros a z []]|]); [lia|].
  assert (forall z w, known s z -> known s w -> depth_at (arena s) z < depth_at (arena s) w ->
    Nat.max (depth_at (arena s) z) (depth_at (arena s) w) - Nat.min (depth_at (arena s) z) (depth_at (arena s) w) <= S fuel ->
    (forall inp, value inp (arena s) z * value inp (arena s) w = value inp (arena s) x * value inp (arena s) y)%fe ->
    wp p (z' ← copy.copy cse.rewriter z; copy.quadratic_loop cse.rewriter fuel e z' w)
      (leaves term s (fun inp => e * (value inp (arena s) x * value inp (arena s) y))%fe) s) as Hstep.
  { intros z w Hz Hw Hlt Hfz Hv. apply wp_bind. eapply wp_mono; [by apply copy_leaves|]. intros z' s1 (Hi1 & He1 & (Hkz & Hlz & Hvz) & _ & Hdz).
    pose proof (copy_lt _ _ Hi Hw) as Hlw. assert (depth_at (arena s1) w = depth_at (arena s) w) as Hdw by by apply depth_ext.
    eapply leaves_trans; [exact He1| |apply IH; [done|done|done|by eapply known_ext|lia]].
    intros inp. cbn beta. rewrite Hvz, (value_ext inp s s1), <- Hv by done. done. }
  destruct (Nat.ltb_spec (depth_at (arena s) x) (depth_at (arena s) y)); [by apply Hstep|].
  apply Hstep; [done..|lia|lia|]. intros inp. ring.
Qed.
Lemma quadratic_leaves e x y s : copy_inv s -> coefficient_ok e -> known s x -> known s y ->
  wp p (copy.quadratic cse.rewriter e x y) (leaves term s (fun inp => e * (value inp (arena s) x * value inp (arena s) y))%fe) s.
Proof.
  intros Hi He Hx Hy. unfold copy.quadratic. apply wp_bind. eapply wp_eq; [by apply depth_of_ok|].
  apply wp_bind. eapply wp_eq; [by apply depth_of_ok|]. apply quadratic_loop_leaves; [done..|lia].
Qed.
Lemma linear_leaves e x s : copy_inv s -> coefficient_ok e -> known s x ->
  wp p (copy.linear cse.rewriter e x) (leaves term s (fun inp => e * value inp (arena s) x)%fe) s.
Proof.
  intros Hi He Hx. unfold copy.linear. apply wp_bind. eapply wp_mono; [by apply one_leaves|]. intros o s1 (Hi1 & He1 & (Hko & _ & Hvo) & _).
  eapply leaves_trans; [exact He1| |apply quadratic_leaves; [done..|by eapply known_ext]].
  intros inp. cbn beta. rewrite Hvo, (value_ext inp s s1) by (done || by apply copy_lt). ring.
Qed.

Lemma sum_leaves l pr s : copy_inv s -> (p = false -> l <> []) -> Forall (known s) l ->
  wp p (copy.sum cse.rewriter l pr) (leaves (fun _ _ => True) s (fun inp => sigma l (value inp (arena s)))) s.
Proof.
  intros Hi Hne Hl. unfold copy.sum. apply wp_bind. eapply wp_mono.
  { apply (wp_mapM p copy_inv ext (fun x y s' => has s' (fun inp => value inp (arena s) x) y /\ term (arena s') y)).
    - intros x y s1 s2 _ He [Hh Ht]. split; [by eapply has_ext|]. eapply term_old; [apply He|apply Hh|done].
    - intros x s1 Hin Hi1 He1. rewrite Forall_forall in Hl. pose proof (Hl x Hin) as Hk. pose proof (known_ext _ _ _ He1 Hk) as Hk1.
      destruct (copy_known_at s1 x Hi1 Hk1) as (e & Hx & Hn & _). apply wp_bind. eapply wp_eq; [by apply expr_of_at|].
      assert (has s1 (fun inp => value inp (arena s) x) x) as Hh.
      { eapply has_value; [|by apply has_copy_known]. intros inp. cbn beta. apply value_ext; [done|by apply copy_lt]. }
      assert (match e with Sum _ _ => False | _ => True end -> wp p (mret x) (fun y s' => copy_inv s' /\ ext s1 s' /\ has s' (fun inp => value inp (arena s) x) y /\ term (arena s') y) s1) as Hself.
      { intros Hns. apply wp_ret. split; [done|]. split; [reflexivity|]. split; [done|]. unfold term. rewrite Hx. by destruct e. }
      destruct e as [i|l' b| |c|c z|c z z'|l' z]; try by apply Hself.
      change (wp p (copy.linear cse.rewriter 1%fe x) (leaves term s1 (fun inp => value inp (arena s) x)) s1).
      eapply leaves_from; [by apply linear_leaves| |done]. intros inp. cbn beta. destruct Hh as (_ & _ & ->). ring.
    - exact Hi. }
  cbn beta. intros ys s1 (Hi1 & He1 & HF). eapply leaves_trans; [exact He1| |eapply leaves_from; [apply sum_no_nested_leaves; [done|..|done]|done|done]].
  - intros inp. cbn beta. apply Forall2_sigma. eapply Forall2_impl; [exact HF|]. by intros x y [(_ & _ & ->) _].
  - eapply Forall2_Forall_r; [exact HF|]. by intros x y [[? _] ?].
  - intros Hp Hnil. apply (Hne Hp). apply Forall2_length in HF. rewrite Hnil in HF. by destruct l.
Qed.
Lemma constant_leaves e s : copy_inv s -> coefficient_ok e ->
  wp p (copy.constant cse.rewriter e) (leaves term s (fun _ => e)) s.
Proof.
  intros Hi He. unfold copy.constant. destruct (bool_decide_reflect (e = 1%fe)) as [->|Hne].
  { eapply leaves_from; [by apply one_leaves|done|by intros a y []]. }
  apply wp_bind. unfold lift_comp. destruct (is_zero e) eqn:Hz; cbn [negb rust_assert].
  { unfold wp. cbn. destruct p eqn:Hp; [done|]. apply is_zero_spec in Hz. by destruct (He Hp). }
  eapply wp_eq; [reflexivity|]. apply wp_bind. eapply wp_mono; [by apply one_leaves|]. intros o s1 (Hi1 & He1 & (Hko & Hlo & Hvo) & _).
  apply wp_bind. eapply wp_mono; [by apply one_leaves|]. intros o' s2 (Hi2 & He2 & (Hko' & Hlo' & Hvo') & _).
  eapply leaves_trans; [by transitivity s1| |apply quadratic_leaves; [done|done|by eapply known_ext|done]].
  intros inp. cbn beta. rewrite Hvo', (value_ext inp s1 s2), Hvo by done. ring.
Qed.

(** *** The rewriter *)
Lemma leaves_yields s m shape f : wp p m (leaves shape s f) s -> wp p m (yields copy_inv ext known s f) s.
Proof. intros Hm. eapply wp_mono; [exact Hm|]. intros y s' (Hi & He & (Hk & _ & Hv) & _). by split. Qed.
#[export] Instance copy_ok : RewriterOk p (copy.rewriter cse.rewriter) copy_inv ext known coefficient_ok (fun l => p = false -> l <> []).
Proof.
  split.
  - apply _.
  - done.
  - intros s x. apply copy_lt.
  - intros s s' x _ He. by apply known_ext.
  - intros i s Hi. eapply leaves_yields, memo_leaves; done.
  - intros s Hi. eapply leaves_yields. by apply one_leaves.
  - intros e s He Hi. eapply leaves_yields. by apply constant_leaves.
  - intros l b s Hne Hi Hl. eapply leaves_yields. by apply sum_leaves.
  - intros e x s He Hi Hx. eapply leaves_yields. by apply linear_leaves.
  - intros e x y s He Hi Hx Hy. eapply leaves_yields. by apply quadratic_leaves.
Qed.
End copy.

(** ** The second pass ([copy::rewrite]) *)
Section rewrite.
Context {E : Type} `{AlgebraicFieldLaws E} `{!EqDecision E} `{!Comparable E}.

(** The expressions of the second pass and what they are worth. *)
Record copied (p : bool) (src : list (Node E)) (items items' : list AssertionItem) (s : State E) : Prop := {
  cp_inv : inv (levelled p) s;
  cp_items : Forall2 (fun it it' => ai_id it' = ai_id it /\ known s (ai_expr it') /\
    forall inp, value inp (arena s) (ai_expr it') = value inp src (ai_expr it)) items items'
}.

Lemma copy_rewrite_ok p items s1 :
  inv (normal no_wrappers) s1 -> Forall (fun it => known s1 (ai_expr it)) items ->
  (p = false -> forall x e, reaches (arena s1) (map ai_expr items) x -> expr_at (arena s1) x = Some (Constant e) -> e <> 0%fe) ->
  wp p (copy.rewrite (arena s1) items) (fun items' s' => copied p (arena s1) items items' s') empty_arena.
Proof.
  intros Hi Hk Hc. unfold copy.rewrite. eapply wp_mono.
  - apply (walk_values p (copy.rewriter cse.rewriter) (copy_inv p) ext known (coefficient_ok p) (fun l => p = false -> l <> []) (arena s1) (inv_wf _ _ Hi)).
    + eapply Forall_impl; [exact Hk|]. intros it. by apply (known_lt (normal no_wrappers)).
    + intros x n Hx Hn. assert (known s1 x) as Hkx by (eapply reaches_known; [done|by apply Forall_map|done]).
      assert (expr_at (arena s1) x = Some (v n)) as He by (unfold expr_at; by rewrite Hn).
      pose proof (known_node _ _ _ _ Hi Hkx He) as Hnf. destruct (v n) as [i|l b| |c|c z|c z z'|l z]; cbn in Hnf |- *; try done.
      * intros l' Hl' _ ->. destruct Hnf as [Hne _]. by destruct l.
      * intros Hp. by apply (Hc Hp x).
      * intros _. apply Hnf.
      * intros _. apply Hnf.
    + split; [apply inv_empty|]. intros d n Hn. cbn in Hn. by rewrite lookup_empty in Hn.
  - cbn beta. intros items' s' ([Hi' _] & _ & HF). split; [done|]. eapply Forall2_impl; [exact HF|]. by intros it it' (? & ? & ?).
Qed.
End rewrite.
