(* ===== verification/Quad.v ===== *)
(** * Quadratic circuits

    [src/rust/compile/compiler/src/{quad,ir_to_quad}.rs]: the wires of a
    circuit as inputs, sums of quadratic terms and assertions, and the
    translation of levelled expressions into them. *)
From stdpp Require Import prelude gmap sorting strings.
From Stdlib Require Import Lia NArith.
From S2P Require Import Prelude Field Scope CompilerIR CompilerPasses.

Module quad.
Definition Wire : Type := nat.
Definition Term (E : Type) : Type := E * Wire * Wire.
Inductive WExpr (E : Type) :=
| Unspecified
| Input (position_in_input_array : nat)
| Sum (terms : list (Term E))
| Assert0 (w : Wire).
Arguments Unspecified {_}. Arguments Input {_} _. Arguments Sum {_} _. Arguments Assert0 {_} _.
End quad.

Module ir_to_quad.
Definition ONE_WIRE : quad.Wire := 0.

(** The wires built so far and the [WireMemoizer]. *)
Record QuadState (E : Type) := { nodes : list (quad.WExpr E); cache : list (option quad.Wire) }.
Arguments nodes {_} _. Arguments cache {_} _. Arguments Build_QuadState {_} _ _.

Definition qcomp (E A : Type) : Type := QuadState E -> outcome fuel_error (A * QuadState E).
#[export] Instance qcomp_ret {E} : MRet (qcomp E) := fun A a s => Ok (a, s).
#[export] Instance qcomp_bind {E} : MBind (qcomp E) := fun A B k m s =>
  match m s with Ok (a, s') => k a s' | Err e => Err e | Panic => Panic end.
Definition lift_q {E A} (m : outcome fuel_error A) : qcomp E A := fun s => a ← m; Ok (a, s).
Definition q_out_of_fuel {E A} : qcomp E A := fun _ => Err OutOfFuel.

Section ir_to_quad.
Context {E : Type} `{AlgebraicField E}.

Definition push_node (n : quad.WExpr E) : qcomp E quad.Wire := fun s =>
  Ok (length (nodes s), {| nodes := nodes s ++ [n]; cache := cache s |}).

(** [WireMemoizer::call] *)
Definition cached_wire (id : nat) : qcomp E (option quad.Wire) := fun s =>
  Ok (match cache s !! id with Some o => o | None => None end, s).
Definition remember (id : nat) (w : quad.Wire) : qcomp E unit := fun s =>
  Ok (tt, {| nodes := nodes s; cache := set_at None (cache s) id (Some w) |}).
Definition call (id : nat) (f : qcomp E quad.Wire) : qcomp E quad.Wire :=
  found ← cached_wire id;
  match found with
  | Some w => mret w
  | None => w ← f; remember id w ;; mret w
  end.

(** [compile_term] for a given [walk_eltw]; the two call each other. *)
Definition compile_term (walk : ExprNode -> qcomp E quad.Wire) (arena : list (Node E)) (x : ExprNode)
  : qcomp E (quad.Term E) :=
  node ← lift_q (index arena x);
  match v node with
  | Quadratic e x y =>
      lift_q (rust_assert (negb (is_zero e))) ;;
      wx ← walk x;
      wy ← walk y;
      mret (e, wx, wy)
  | Input _ => w ← walk x; mret (1%fe, ONE_WIRE, w)
  | One => mret (1%fe, ONE_WIRE, ONE_WIRE)
  | _ => lift_q Panic
  end.

(** The recursion goes to older nodes. *)
Fixpoint walk_eltw (fuel : nat) (arena : list (Node E)) (x : ExprNode) : qcomp E quad.Wire :=
  match fuel with
  | O => q_out_of_fuel
  | S fuel =>
      call x (
        node ← lift_q (index arena x);
        match v node with
        | Input position => push_node (quad.Input position)
        | Sum list _ =>
            lift_q (rust_assert (negb (Nat.eqb (length list) 0))) ;;
            terms ← mapM (compile_term (walk_eltw fuel arena) arena) list;
            push_node (quad.Sum terms)
        | One => mret ONE_WIRE
        | Quadratic _ _ _ =>
            term ← compile_term (walk_eltw fuel arena) arena x;
            push_node (quad.Sum [term])
        | _ => lift_q Panic
        end)
  end.

(** The wires asserted so far, the debug records and the tracker. *)
Record AssertState := {
  assertion_wires : gmap quad.Wire AssertionId;
  quad_asserts : list (nat * AssertionId);
  q_tracker : AssertionScope
}.
Definition assert_item (arena : list (Node E)) (a : AssertState) (item : AssertionItem) : qcomp E AssertState :=
  wx ← walk_eltw (S (ai_expr item)) arena (ai_expr item);
  match assertion_wires a !! wx with
  | Some existing_id =>
      mret {| assertion_wires := assertion_wires a; quad_asserts := quad_asserts a;
              q_tracker := scope.union (q_tracker a) existing_id (ai_id item) |}
  | None =>
      quad_node_idx ← push_node (quad.Assert0 wx);
      mret {| assertion_wires := <[wx := ai_id item]> (assertion_wires a);
              quad_asserts := quad_asserts a ++ [(quad_node_idx, ai_id item)];
              q_tracker := q_tracker a |}
  end.
Fixpoint assert_items (arena : list (Node E)) (a : AssertState) (items : list AssertionItem) : qcomp E AssertState :=
  match items with
  | [] => mret a
  | item :: items => a ← assert_item arena a item; assert_items arena a items
  end.

Definition rewrite (arena : list (Node E)) (x : list AssertionItem) (tracker : AssertionScope)
  : outcome fuel_error (list (quad.WExpr E) * list (nat * AssertionId) * AssertionScope) :=
  '(a, s) ← assert_items arena {| assertion_wires := ∅; quad_asserts := []; q_tracker := tracker |} x
              {| nodes := [quad.Input 0]; cache := [] |};
  mret (nodes s, quad_asserts a, q_tracker a).
End ir_to_quad.
End ir_to_quad.
