(* ===== verification/SchedulerV1.v ===== *)
(** * The version 1 scheduler

    [src/rust/compile/compiler/src/v1/{scheduler,top}.rs]: from a quadratic
    circuit to the layers of a circuit file, and the compiler from end to
    end. *)
From stdpp Require Import prelude gmap sorting strings.
From Stdlib Require Import Lia NArith.
From S2P Require Import Prelude Words Interfaces DeltaTable Util Circuit Field Scope CompilerIR CompilerPasses Quad.

(** [usize::MAX], the identifier of a wire that has none. *)
Definition INVALID_WIRE_ID : N := 2 ^ 64 - 1.

Record WireRef := { wr_layer : nat; wr_index : N }.
Record AssertionSymbol := { sym_wire : WireRef; sym_id : AssertionId }.
Record CircuitDebugSymbols := { symbols : list AssertionSymbol; sym_tracker : AssertionScope }.
Record CircuitGeometry := {
  g_ninput : nat; g_npublic_input : nat; g_noutput : nat; g_nwires : nat;
  g_nterms : nat; g_nlayers : nat; g_nassertions : nat
}.

Module scheduler.
Section scheduler.
Context {E : Type} `{AlgebraicField E} `{SerializableField E} {Err : Type}.
Local Open Scope fe_scope.

Definition is_assert (n : quad.WExpr E) : bool := match n with quad.Assert0 _ => true | _ => false end.
Definition sum_terms (n : quad.WExpr E) : option (list (quad.Term E)) :=
  match n with quad.Sum terms => Some terms | _ => None end.

(** ** Checks on the nodes *)
Definition need_node (nodes : list (quad.WExpr E)) (needed : list bool) (i : nat) : outcome Err (list bool) :=
  node ← index nodes i;
  match node with
  | quad.Unspecified => Panic
  | quad.Input _ =>
      b ← index needed i;
      rust_assert (b || Nat.eqb i 0) ;;
      mret needed
  | quad.Assert0 w => needed ← store needed i true; store needed w true
  | quad.Sum terms =>
      b ← index needed i;
      rust_assert b ;;
      foldM (fun needed '(_, w0, w1) => needed ← store needed w0 true; store needed w1 true) needed terms
  end.
Definition assert_all_needed (nodes : list (quad.WExpr E)) : outcome Err unit :=
  foldM (need_node nodes) (replicate (length nodes) false) (rev (seq 0 (length nodes))) ;;
  mret tt.

(** ** Depths *)
Definition depth_of_node (depth : list nat) (node : quad.WExpr E) : outcome Err nat :=
  match node with
  | quad.Unspecified => Panic
  | quad.Input _ => mret 0%nat
  | quad.Assert0 w => index depth w
  | quad.Sum terms =>
      rust_assert (negb (Nat.eqb (length terms) 0)) ;;
      ds ← mapM (fun '(_, x, y) => dx ← index depth x; dy ← index depth y; mret (1 + Nat.max dx dy)%nat) terms;
      mret (max_list ds)
  end.
Definition assert_layering (depth : list nat) (i : nat) (node : quad.WExpr E) : outcome Err unit :=
  d ← index depth i;
  match node with
  | quad.Unspecified => Panic
  | quad.Input _ => rust_assert (Nat.eqb d 0)
  | quad.Assert0 w => dw ← index depth w; rust_assert (Nat.eqb d dw)
  | quad.Sum terms =>
      rust_assert (negb (Nat.eqb (length terms) 0)) ;;
      foldM (fun _ '(e, x, y) =>
        rust_assert (negb (is_zero e)) ;;
        dx ← index depth x; rust_assert (Nat.eqb d (dx + 1)) ;;
        dy ← index depth y; rust_assert (Nat.eqb d (dy + 1))) tt terms
  end.

(** Assertions below the last layer become terms with coefficient zero. *)
Definition materialize (max_depth : nat) (st : list (quad.WExpr E) * list nat) (i : nat)
  : outcome Err (list (quad.WExpr E) * list nat) :=
  let '(nodes, depth) := st in
  node ← index nodes i;
  match node with
  | quad.Assert0 w =>
      d ← index depth i;
      if Nat.ltb d max_depth then
        nodes ← store nodes i (quad.Sum [(0, w, w)]);
        depth ← store depth i (d + 1)%nat;
        mret (nodes, depth)
      else mret (nodes, depth)
  | _ => mret (nodes, depth)
  end.
Definition materialize_assertions (nodes : list (quad.WExpr E)) (depth : list nat) (max_depth : nat) :=
  foldM (materialize max_depth) (nodes, depth) (seq 0 (length nodes)).

Definition compute_node_depths (nodes : list (quad.WExpr E)) : outcome Err (list (quad.WExpr E) * list nat * nat) :=
  depth ← foldM (fun depth i => node ← index nodes i; d ← depth_of_node depth node; store depth i d)
            (replicate (length nodes) 0%nat) (seq 0 (length nodes));
  foldM (fun _ '(i, node) => assert_layering depth i node) tt (imap pair nodes) ;;
  let raw_max_depth := max_list depth in
  max_depth ← (if Nat.eqb raw_max_depth 0 then rust_assert (existsb is_assert nodes) ;; mret 1%nat
               else mret raw_max_depth);
  '(nodes, depth) ← materialize_assertions nodes depth max_depth;
  mret (nodes, depth, max_depth).

Definition group_by_depth (depth : list nat) (max_depth : nat) : outcome Err (list (list nat)) :=
  foldM (fun nodes_by_depth '(i, d) => at_d ← index nodes_by_depth d; store nodes_by_depth d (at_d ++ [i]))
    (replicate (max_depth + 1) []) (imap pair depth).

(** ** Wire identifiers *)
Record RenamedTerm := { rt_k : E; rlop0 : N; rlop1 : N }.
Definition compare_renamed_term (a b : RenamedTerm) : comparison :=
  then_with (then_with (N.compare (rlop1 a) (rlop1 b)) (N.compare (rlop0 a) (rlop0 b)))
    (cmp_bytes (to_bytes (rt_k a)) (to_bytes (rt_k b))).
Record RenamedNode := { original_node_index : nat; rlterms : list RenamedTerm }.
(** Backwards from the last terms; when one list runs out, the longer comes
    first. *)
Fixpoint compare_from_end (a b : list RenamedTerm) : comparison :=
  match a, b with
  | x :: a', y :: b' => then_with (compare_renamed_term x y) (compare_from_end a' b')
  | _, _ => Nat.compare (length b) (length a)
  end.
Definition compare_renamed_node (a b : RenamedNode) : comparison :=
  compare_from_end (rev (rlterms a)) (rev (rlterms b)).

Definition le_by {X} (cmp : X -> X -> comparison) (a b : X) : Prop := cmp a b <> Gt.
#[export] Instance le_by_dec {X} (cmp : X -> X -> comparison) : RelDecision (le_by cmp).
Proof. intros a b. unfold le_by. apply _. Defined.
(** No two neighbours of a sorted list compare equal. *)
Fixpoint no_ties {X} (cmp : X -> X -> comparison) (l : list X) : bool :=
  match l with
  | x :: ((y :: _) as l') => match cmp x y with Eq => false | _ => no_ties cmp l' end
  | _ => true
  end.
(** Sorting distinct elements; the comparison of nodes panics on a tie, and
    sorting compares neighbours. *)
Definition sort_distinct {X} (cmp : X -> X -> comparison) (l : list X) : outcome Err (list X) :=
  let sorted := merge_sort (le_by cmp) l in
  rust_assert (no_ties cmp sorted) ;;
  mret sorted.

Definition layer_nodes (nodes : list (quad.WExpr E)) (at_d : list nat)
  : outcome Err (list (nat * list (quad.Term E))) :=
  foldM (fun l i => node ← index nodes i;
           mret (match sum_terms node with Some terms => l ++ [(i, terms)] | None => l end)) [] at_d.

Definition rename_term (ids : list N) (t : quad.Term E) : outcome Err RenamedTerm :=
  let '(e, w0, w1) := t in
  id0 ← index ids w0;
  id1 ← index ids w1;
  mret {| rt_k := e; rlop0 := N.min id0 id1; rlop1 := N.max id0 id1 |}.
Definition rename_node (ids : list N) (n : nat * list (quad.Term E)) : outcome Err RenamedNode :=
  rlterms ← mapM (rename_term ids) n.2;
  rlterms ← sort_distinct compare_renamed_term rlterms;
  mret {| original_node_index := n.1; rlterms := rlterms |}.

Definition assign_inputs (nodes : list (quad.WExpr E)) (ids : list N) (at_0 : list nat) : outcome Err (list N) :=
  foldM (fun ids i => node ← index nodes i;
           match node with quad.Input position => store ids i (N.of_nat position) | _ => mret ids end) ids at_0.
Definition assign_layer (nodes : list (quad.WExpr E)) (ids : list N) (at_d : list nat) : outcome Err (list N) :=
  ln ← layer_nodes nodes at_d;
  renamed_nodes ← mapM (rename_node ids) ln;
  renamed_nodes ← sort_distinct compare_renamed_node renamed_nodes;
  foldM (fun ids '(wid, rn) => store ids (original_node_index rn) (N.of_nat wid)) ids (imap pair renamed_nodes).
Definition assign_wire_ids (nodes : list (quad.WExpr E)) (nodes_by_depth : list (list nat)) (max_depth : nat)
  : outcome Err (list N) :=
  let ids := replicate (length nodes) INVALID_WIRE_ID in
  ids ← match nodes_by_depth with [] => mret ids | at_0 :: _ => assign_inputs nodes ids at_0 end;
  foldM (assign_layer nodes) ids (drop 1 (take (max_depth + 1) nodes_by_depth)).

(** ** Terms *)
Definition quad_term (ids : list N) (g : N) (t : quad.Term E) : outcome Err (Term E) :=
  let '(e, w0, w1) := t in
  id0 ← index ids w0;
  id1 ← index ids w1;
  mret (canonical_term {| t_k := e; t_g := wrap32 g; t_h0 := wrap32 id0; t_h1 := wrap32 id1 |}).
Definition collect_layer (nodes : list (quad.WExpr E)) (ids : list N) (at_d : list nat)
  : outcome Err (list (Term E) * nat) :=
  ln ← layer_nodes nodes at_d;
  keyed ← mapM (fun n : nat * list (quad.Term E) => key ← index ids n.1; mret (key, n.2)) ln;
  let sorted := merge_sort (le_by (fun a b => N.compare a.1 b.1)) keyed in
  ts ← mapM (fun n : N * list (quad.Term E) => mapM (quad_term ids n.1) n.2) sorted;
  mret (concat ts, length ln).
Definition collect_quads (nodes : list (quad.WExpr E)) (nodes_by_depth : list (list nat)) (max_depth : nat) (ids : list N)
  : outcome Err (list (list (Term E)) * list nat) :=
  ls ← mapM (collect_layer nodes ids) (drop 1 (take (max_depth + 1) nodes_by_depth));
  mret (ls.*1, ls.*2).

Definition visit_term (st : list bool * list bool) (t : Term E) : outcome Err (list bool * list bool) :=
  let '(visited, arr) := st in
  visited ← store visited (N.to_nat (t_h0 t)) true;
  visited ← store visited (N.to_nat (t_h1 t)) true;
  arr ← (if is_zero (t_k t) then store arr (N.to_nat (t_g t)) true else mret arr);
  mret (visited, arr).
(** One layer: its inputs must all be read, or asserted below; the constant
    one of the inputs need not. *)
Definition check_layer (st : nat * list bool) (layer : list (Term E) * nat) : outcome Err (nat * list bool) :=
  let '(l, v) := st in
  let '(terms, layer_noutput) := layer in
  '(visited, arr) ← foldM visit_term (v, replicate layer_noutput false) terms;
  rust_assert (forallb (fun '(i, val) => val || (Nat.eqb l 0 && Nat.eqb i 0)) (imap pair visited)) ;;
  mret (S l, arr).
Definition check_connectivity (ninput noutput : nat) (terms_in_layer : list (list (Term E))) (nwires_in_layer : list nat)
  : outcome Err unit :=
  rust_assert (Nat.ltb 0 ninput) ;;
  let n := length terms_in_layer in
  outs ← mapM (fun l => if Nat.eqb l (n - 1) then mret noutput else index nwires_in_layer l) (seq 0 n);
  foldM check_layer (0%nat, replicate ninput false) (zip terms_in_layer outs) ;;
  mret tt.

Definition validate_and_count_inputs (nodes : list (quad.WExpr E)) : outcome Err nat :=
  let positions := omap (fun n => match n with quad.Input position => Some position | _ => None end) nodes in
  let ninput_positions := (1 + max_list positions)%nat in
  if Nat.eqb (length positions) ninput_positions then mret (length positions) else Panic.

(** ** Debug symbols *)
Definition symbol_of (nodes : list (quad.WExpr E)) (wire_ids : list N) (depth : list nat) (max_depth : nat)
    (l : list AssertionSymbol) (a : nat * AssertionId) : outcome Err (list AssertionSymbol) :=
  let '(quad_idx, id) := a in
  match nodes !! quad_idx with
  | None => mret l
  | Some node =>
      let target_idx := match node with quad.Assert0 w => w | _ => quad_idx end in
      match wire_ids !! target_idx with
      | None => mret l
      | Some wid =>
          if (wid =? INVALID_WIRE_ID)%N then mret l
          else
            d ← index depth target_idx;
            rust_assert (Nat.leb d max_depth) ;;
            mret (l ++ [{| sym_wire := {| wr_layer := max_depth - d; wr_index := wid |}; sym_id := id |}])
      end
  end.
Definition symbol_cmp (a b : AssertionSymbol) : comparison :=
  then_with (Nat.compare (wr_layer (sym_wire a)) (wr_layer (sym_wire b)))
    (N.compare (wr_index (sym_wire a)) (wr_index (sym_wire b))).
Definition extract_debug_symbols (nodes : list (quad.WExpr E)) (quad_asserts : list (nat * AssertionId))
    (wire_ids : list N) (depth : list nat) (max_depth : nat) (tracker : AssertionScope)
  : outcome Err CircuitDebugSymbols :=
  sym_list ← foldM (symbol_of nodes wire_ids depth max_depth) [] quad_asserts;
  mret {| symbols := merge_sort (le_by symbol_cmp) sym_list; sym_tracker := tracker |}.

(** ** Encoding *)
Definition add_constant (st : list E * gmap (list u8) N) (t : Term E) : list E * gmap (list u8) N :=
  let '(constants, constant_to_idx) := st in
  match constant_to_idx !! to_bytes (t_k t) with
  | Some _ => st
  | None => (constants ++ [t_k t],
             <[to_bytes (t_k t) := wrap32 (N.of_nat (length constants))]> constant_to_idx)
  end.
Definition collect_constants (terms_in_layer : list (list (Term E))) : list E * gmap (list u8) N :=
  foldl add_constant ([], ∅) (concat terms_in_layer).

Record LayerBuilder := {
  lb_deltas : list TermDelta;
  lb_delta_to_idx : gmap (N * N * N * N) N;
  lb_segment : list N;
  lb_prev : N * N * N
}.
Definition delta_key (d : TermDelta) : N * N * N * N := (d_g d, (d_h d).1, (d_h d).2, d_k_index d).
Definition add_term (constant_to_idx : gmap (list u8) N) (b : LayerBuilder) (t : Term E) : outcome Err LayerBuilder :=
  k_index ← unwrap (constant_to_idx !! to_bytes (t_k t));
  let '(prev_g, prev_h0, prev_h1) := lb_prev b in
  let d := {| d_g := wrapping_sub32 (t_g t) prev_g;
              d_h := (wrapping_sub32 (t_h0 t) prev_h0, wrapping_sub32 (t_h1 t) prev_h1);
              d_k_index := k_index |} in
  let here := (t_g t, t_h0 t, t_h1 t) in
  match lb_delta_to_idx b !! delta_key d with
  | Some i => mret {| lb_deltas := lb_deltas b; lb_delta_to_idx := lb_delta_to_idx b;
                      lb_segment := lb_segment b ++ [i]; lb_prev := here |}
  | None =>
      let i := wrap32 (N.of_nat (length (lb_deltas b))) in
      mret {| lb_deltas := lb_deltas b ++ [d]; lb_delta_to_idx := <[delta_key d := i]> (lb_delta_to_idx b);
              lb_segment := lb_segment b ++ [i]; lb_prev := here |}
  end.
Definition build_layer (constant_to_idx : gmap (list u8) N) (layer_sorted : list (Term E)) (layer_ninput logw : nat)
  : outcome Err Layer :=
  rust_assert (no_ties compare_term layer_sorted) ;;
  b ← foldM (add_term constant_to_idx)
        {| lb_deltas := []; lb_delta_to_idx := ∅; lb_segment := []; lb_prev := (0, 0, 0)%N |} layer_sorted;
  unrolled_deltas ← mapM (fun idx => index (lb_deltas b) (N.to_nat idx)) (lb_segment b);
  mret (new_compressed layer_ninput logw [unrolled_deltas] [0%N]).
Definition ordered_layers (terms_in_layer : list (list (Term E))) (ninput : nat) (nwires_in_layer : list nat)
    (constant_to_idx : gmap (list u8) N) : outcome Err (list Layer) :=
  mapM (fun '(terms, nw) =>
    lw ← ceil_log2 nw;
    build_layer constant_to_idx (merge_sort (le_by compare_term) terms) nw lw)
    (zip terms_in_layer (ninput :: nwires_in_layer)).

(** ** [schedule] *)
Context `{Sha256}.
Definition schedule (c : list (quad.WExpr E)) (quad_asserts : list (nat * AssertionId))
    (npublic_input subfield_boundary : nat) (tracker : AssertionScope)
  : outcome Err (Circuit E * CircuitGeometry * CircuitDebugSymbols) :=
  let nassertions := length (filter (fun n => is_assert n = true) c) in
  rust_assert (Nat.eqb (length quad_asserts) nassertions) ;;
  assert_all_needed c ;;
  '(nodes, depth, max_depth) ← compute_node_depths c;
  nodes_by_depth ← group_by_depth depth max_depth;
  wire_ids ← assign_wire_ids nodes nodes_by_depth max_depth;
  syms ← extract_debug_symbols nodes quad_asserts wire_ids depth max_depth tracker;
  rust_assert (Nat.eqb (length (symbols syms)) nassertions) ;;
  '(terms_in_layer, nwires_in_layer) ← collect_quads nodes nodes_by_depth max_depth wire_ids;
  ninput ← validate_and_count_inputs nodes;
  rust_assert (Nat.leb 1 npublic_input) ;;
  rust_assert (Nat.leb npublic_input ninput) ;;
  rust_assert (Nat.leb subfield_boundary ninput) ;;
  noutput ← index nwires_in_layer (max_depth - 1);
  check_connectivity ninput noutput terms_in_layer nwires_in_layer ;;
  let '(constants, constant_to_idx) := collect_constants terms_in_layer in
  c_layers ← ordered_layers terms_in_layer ninput nwires_in_layer constant_to_idx;
  nterms ← foldM (fun n l => k ← num_terms l; mret (n + k)%nat) 0%nat c_layers;
  lv ← ceil_log2 noutput;
  let raw_circuit := {|
    ninput := ninput; npublic_input := npublic_input; noutput := noutput; logv := lv;
    subfield_boundary := subfield_boundary; constants := constants; layers := rev c_layers |} in
  cid ← compute_id raw_circuit;
  mret ({| raw := raw_circuit; id := cid |},
        {| g_ninput := ninput; g_npublic_input := npublic_input; g_noutput := noutput;
           g_nwires := list_sum nwires_in_layer; g_nterms := nterms; g_nlayers := length c_layers;
           g_nassertions := nassertions |},
        syms).
End scheduler.
End scheduler.

(** ** [compile]

    The program is what [build] returns: the arena it filled, the assertions
    and their tracker. *)
Module compiler.
Section compiler.
Context {E : Type} `{AlgebraicField E} `{SerializableField E} `{!Comparable E} `{HashOrder} `{Sha256}.

Record Program := {
  source_arena : list (Node E);
  assertions : list AssertionItem;
  source_tracker : AssertionScope;
  p_npublic_input : nat;
  p_subfield_boundary : nat
}.

Definition compile (src : Program) : outcome fuel_error (Circuit E * CircuitGeometry * CircuitDebugSymbols) :=
  '(simplified, tracker, s1) ← assertion.rewrite (source_arena src) (assertions src) (source_tracker src) empty_arena;
  '(copy_propagated, s2) ← copy.rewrite (arena s1) simplified empty_arena;
  '(quad_circuit, quad_asserts, tracker) ← ir_to_quad.rewrite (arena s2) copy_propagated tracker;
  '(circuit, info, symbols) ←
    scheduler.schedule quad_circuit quad_asserts (p_npublic_input src) (p_subfield_boundary src) tracker;
  rust_assert (Nat.ltb 0 (g_ninput info)) ;;
  rust_assert (Nat.ltb 0 (g_nterms info)) ;;
  mret (circuit, info, symbols).
End compiler.
End compiler.
