(* ===== verification/QuadFacts.v ===== *)
(** * Facts about quadratic circuits

    The value of a wire, and [ir_to_quad::rewrite]: wires that compute the
    nodes they translate, and one assertion per asserted wire. *)
From stdpp Require Import prelude gmap sorting strings.
From Stdlib Require Import Lia NArith Ring Ring_theory.
From S2P Require Import Prelude Words Interfaces Field FieldFacts Scope CompilerIR CompilerPasses CompilerSem CseFacts RewriterFacts AlgsimpFacts CopyFacts Quad.

Local Open Scope fe_scope.

(** ** The value of a wire *)
Section wires.
Context {E : Type} `{AlgebraicField E}.
Implicit Types ns : list (quad.WExpr E).

Definition operands (n : quad.WExpr E) : list quad.Wire :=
  match n with
  | quad.Sum ts => concat (map (fun t => [t.1.2; t.2]) ts)
  | quad.Assert0 w => [w]
  | _ => []
  end.
(** A wire that carries a value of its own. *)
Definition carries ns (w : quad.Wire) : Prop :=
  match ns !! w with Some (quad.Input _) | Some (quad.Sum _) => True | _ => False end.
Definition quad_wf ns : Prop := forall i n, ns !! i = Some n ->
  n <> quad.Unspecified /\ Forall (fun w => (w < i)%nat /\ carries ns w) (operands n).

Context (inp : nat -> E).
Definition term_value (ρ : quad.Wire -> E) (t : quad.Term E) : E := t.1.1 * (ρ t.1.2 * ρ t.2).
Definition denote_wire (ρ : quad.Wire -> E) (n : quad.WExpr E) : E :=
  match n with
  | quad.Input p => inp p
  | quad.Sum ts => sigma ts (term_value ρ)
  | quad.Assert0 w => ρ w
  | quad.Unspecified => 0
  end.
Definition wire_values ns : list E := foldl (fun ρ n => ρ ++ [denote_wire (at0 ρ) n]) [] ns.
Definition wire_value ns (w : quad.Wire) : E := at0 (wire_values ns) w.

Lemma denote_wire_ext ρ ρ' n : (forall w, w ∈ operands n -> ρ w = ρ' w) -> denote_wire ρ n = denote_wire ρ' n.
Proof.
  destruct n as [|p|ts|w]; cbn [denote_wire operands]; intros Hw; try done.
  - unfold sigma. f_equal. apply map_ext_in. intros t Ht. unfold term_value.
    assert (forall w, w ∈ [t.1.2; t.2] -> ρ w = ρ' w) as Ht'.
    { intros w Hin. apply Hw. apply list_elem_of_In, in_concat. exists [t.1.2; t.2]. split; [by apply (in_map (fun t => [t.1.2; t.2]))|by apply list_elem_of_In]. }
    rewrite !Ht' by set_solver. done.
  - apply Hw. set_solver.
Qed.
Lemma wire_values_from ρ ns : exists r, foldl (fun ρ n => ρ ++ [denote_wire (at0 ρ) n]) ρ ns = ρ ++ r /\ length r = length ns.
Proof.
  revert ρ. induction ns as [|n ns IH]; intros ρ; cbn [foldl]; [exists []; by rewrite app_nil_r|].
  destruct (IH (ρ ++ [denote_wire (at0 ρ) n])) as (r & -> & Hr). rewrite <- app_assoc. cbn [app].
  eexists. split; [reflexivity|]. cbn [length]. by rewrite Hr.
Qed.
Lemma length_wire_values ns : length (wire_values ns) = length ns.
Proof. unfold wire_values. by destruct (wire_values_from [] ns) as (r & -> & ?). Qed.
Lemma wire_value_app ns b w : (w < length ns)%nat -> wire_value (ns ++ b) w = wire_value ns w.
Proof.
  intros Hw. unfold wire_value, wire_values. rewrite foldl_app. fold (wire_values ns).
  destruct (wire_values_from (wire_values ns) b) as (r & -> & _). unfold at0.
  rewrite lookup_app_l; [done|]. by rewrite length_wire_values.
Qed.
Lemma wire_value_node ns i n : ns !! i = Some n -> Forall (fun w => w < i)%nat (operands n) ->
  wire_value ns i = denote_wire (wire_value ns) n.
Proof.
  intros Hn Hc. pose proof (lookup_lt_Some _ _ _ Hn) as Hlt.
  rewrite <- (take_drop_middle ns i n Hn) at 1. change (n :: drop (S i) ns) with ([n] ++ drop (S i) ns).
  rewrite app_assoc, wire_value_app by (rewrite length_app, length_take; cbn; lia).
  unfold wire_value at 1, wire_values. rewrite foldl_app. cbn [foldl]. fold (wire_values (take i ns)).
  assert (length (wire_values (take i ns)) = i) as Hl by (rewrite length_wire_values, length_take; lia).
  unfold at0 at 1. rewrite lookup_app_r by lia. rewrite Hl, Nat.sub_diag. cbn.
  apply denote_wire_ext. intros c Hin. rewrite Forall_forall in Hc. specialize (Hc c Hin).
  fold (wire_value (take i ns) c). rewrite <- (take_drop i ns) at 2. symmetry. apply wire_value_app. rewrite length_take. lia.
Qed.

Lemma carries_lt ns w : carries ns w -> (w < length ns)%nat.
Proof. unfold carries. destruct (ns !! w) as [n|] eqn:Hn; [intros _; by eapply lookup_lt_Some|done]. Qed.
Lemma carries_app ns b w : carries ns w -> carries (ns ++ b) w.
Proof. intros Hc. pose proof (carries_lt _ _ Hc). unfold carries in *. by rewrite lookup_app_l. Qed.
Lemma quad_wf_snoc ns n : quad_wf ns -> n <> quad.Unspecified -> Forall (carries ns) (operands n) -> quad_wf (ns ++ [n]).
Proof.
  intros Hwf Hn Ho i m Hi. apply lookup_app_Some in Hi as [Hi|[Hge Hi]].
  - destruct (Hwf i m Hi) as [Hm Hf]. split; [done|]. eapply Forall_impl; [exact Hf|]. intros w [? ?]. split; [done|]. by apply carries_app.
  - apply list_lookup_singleton_Some in Hi as [Hz <-]. split; [done|]. eapply Forall_impl; [exact Ho|]. intros w Hw.
    split; [apply carries_lt in Hw; lia|by apply carries_app].
Qed.

(** Every assertion of the circuit holds. *)
Definition all_asserted ns : Prop := forall i w, ns !! i = Some (quad.Assert0 w) -> wire_value ns w = 0.
End wires.

Section translate.
Context {E : Type} `{AlgebraicFieldLaws E} `{!EqDecision E}.
Add Ring field_ring_quad : (field_ring (E:=E)).
Context (p : bool).
Import ir_to_quad.
Implicit Types q : QuadState E.

Definition qwp {A} (m : qcomp E A) (Q : A -> QuadState E -> Prop) q : Prop :=
  match m q with Ok (a, q') => Q a q' | Err _ => False | Panic => Is_true p end.
Lemma qwp_bind {A B} (m : qcomp E A) (k : A -> qcomp E B) Q q : qwp m (fun a => qwp (k a) Q) q -> qwp (m ≫= k) Q q.
Proof.
  unfold qwp. change ((m ≫= k) q) with (match m q with Ok (a, s') => k a s' | Err e => Err e | Panic => Panic end).
  by destruct (m q) as [[a q']| |].
Qed.
Lemma qwp_mono {A} (m : qcomp E A) (Q Q' : A -> QuadState E -> Prop) q : qwp m Q q -> (forall a q', Q a q' -> Q' a q') -> qwp m Q' q.
Proof. unfold qwp. destruct (m q) as [[a q']| |]; auto. Qed.
Lemma qwp_eq {A} (m : qcomp E A) Q q a q' : m q = Ok (a, q') -> Q a q' -> qwp m Q q.
Proof. unfold qwp. by intros ->. Qed.
Lemma qwp_ret {A} (a : A) Q q : Q a q -> qwp (mret a) Q q.
Proof. done. Qed.

(** The arena of the copy pass. *)
Context (s : State E) (Hs : inv (levelled p) s).

Record quad_inv q : Prop := {
  qi_wf : quad_wf (nodes q);
  qi_one : nodes q !! ONE_WIRE = Some (quad.Input 0);
  qi_cache x w : cache q !! x = Some (Some w) -> carries (nodes q) w /\
    forall inp, inp 0%nat = 1 -> wire_value inp (nodes q) w = value inp (arena s) x
}.
(** Wires are only added; assertions only by the outer loop. *)
Definition qext q q' : Prop := exists r, nodes q' = nodes q ++ r /\ Forall (fun n => match n with quad.Assert0 _ => False | _ => True end) r.
#[local] Instance qext_preorder : PreOrder qext.
Proof.
  split; [intros q; exists []; by rewrite app_nil_r|]. intros q q1 q2 (r & E1 & F1) (r2 & E2 & F2).
  exists (r ++ r2). rewrite E2, E1, app_assoc. split; [done|]. by apply Forall_app.
Qed.
Lemma qext_carries q q' w : qext q q' -> carries (nodes q) w -> carries (nodes q') w.
Proof. intros (r & -> & _). apply carries_app. Qed.
Lemma qext_value inp q q' w : qext q q' -> carries (nodes q) w -> wire_value inp (nodes q') w = wire_value inp (nodes q) w.
Proof. intros (r & -> & _) Hc. apply wire_value_app. by apply carries_lt. Qed.

(** A wire for the node [x]. *)
Definition wire_for (x : ExprNode) q (w : quad.Wire) q' : Prop :=
  quad_inv q' /\ qext q q' /\ carries (nodes q') w /\ forall inp, inp 0%nat = 1 -> wire_value inp (nodes q') w = value inp (arena s) x.
Definition term_for (x : ExprNode) (q' : QuadState E) (t : quad.Term E) : Prop :=
  carries (nodes q') t.1.2 /\ carries (nodes q') t.2 /\
  forall inp, inp 0%nat = 1 -> term_value (wire_value inp (nodes q')) t = value inp (arena s) x.
Lemma term_for_ext x q q' t : qext q q' -> term_for x q t -> term_for x q' t.
Proof.
  intros He (H1 & H2 & Hv). split; [by eapply qext_carries|]. split; [by eapply qext_carries|]. intros inp Hi.
  rewrite <- Hv by done. unfold term_value. by rewrite !(qext_value inp q q').
Qed.

Lemma one_wire q : quad_inv q -> carries (nodes q) ONE_WIRE /\ forall inp, inp 0%nat = 1 -> wire_value inp (nodes q) ONE_WIRE = 1.
Proof.
  intros Hq. pose proof (qi_one _ Hq) as H0'. split; [unfold carries; by rewrite H0'|]. intros inp Hi.
  rewrite (wire_value_node inp _ _ _ H0') by constructor. done.
Qed.
Lemma push_ok q n : quad_inv q -> n <> quad.Unspecified -> Forall (carries (nodes q)) (operands n) ->
  quad_inv {| nodes := nodes q ++ [n]; cache := cache q |}.
Proof.
  intros Hq Hn Ho. split; cbn [nodes cache].
  - apply quad_wf_snoc; [apply Hq|done..].
  - apply lookup_app_l_Some, Hq.
  - intros x w Hc. destruct (qi_cache _ Hq x w Hc) as [Hw Hv]. split; [by apply carries_app|]. intros inp Hi.
    rewrite wire_value_app by (by apply carries_lt). by apply Hv.
Qed.
Lemma push_value inp q n : Forall (carries (nodes q)) (operands n) ->
  wire_value inp (nodes q ++ [n]) (length (nodes q)) = denote_wire inp (wire_value inp (nodes q)) n.
Proof.
  intros Ho. rewrite (wire_value_node inp _ _ n).
  - apply denote_wire_ext. intros w Hw. apply wire_value_app. rewrite Forall_forall in Ho. by apply carries_lt, Ho.
  - by rewrite lookup_app_r, Nat.sub_diag.
  - eapply Forall_impl; [exact Ho|]. intros w. by apply carries_lt.
Qed.
Lemma push_wire x q n : quad_inv q -> match n with quad.Input _ | quad.Sum _ => True | _ => False end ->
  Forall (carries (nodes q)) (operands n) ->
  (forall inp, inp 0%nat = 1 -> denote_wire inp (wire_value inp (nodes q)) n = value inp (arena s) x) ->
  qwp (push_node n) (wire_for x q) q.
Proof.
  intros Hq Hn Ho Hv. eapply qwp_eq; [reflexivity|]. split; [apply push_ok; [done|by destruct n|done]|]. split; [|split].
  - exists [n]. split; [done|]. repeat constructor. by destruct n.
  - unfold carries. cbn [nodes]. rewrite lookup_app_r, Nat.sub_diag by done. by destruct n.
  - intros inp Hi. cbn [nodes]. rewrite push_value by done. by apply Hv.
Qed.

Lemma call_ok x q (f : qcomp E quad.Wire) : quad_inv q -> qwp f (wire_for x q) q -> qwp (call x f) (wire_for x q) q.
Proof.
  intros Hq Hf. unfold call. apply qwp_bind. eapply qwp_eq; [reflexivity|]. set (o := match _ with Some o => o | None => None end).
  destruct o as [w|] eqn:Ho.
  { assert (cache q !! x = Some (Some w)) as Hc by (subst o; unfold ExprNode in *; by destruct (cache q !! x); simplify_eq).
    apply qwp_ret. destruct (qi_cache _ Hq x w Hc) as [Hw Hv]. split; [done|]. split; [reflexivity|]. by split. }
  apply qwp_bind. eapply qwp_mono; [exact Hf|].
  intros w q1 (Hq1 & He1 & Hw & Hv). apply qwp_bind. eapply qwp_eq; [reflexivity|]. apply qwp_ret.
  split; [|split; [by destruct He1 as (r & ? & ?); exists r|by split]]. split; cbn [nodes ir_to_quad.cache]; [apply Hq1..|].
  intros y w' Hy. destruct (decide (y = x)) as [->|Hne].
  - rewrite set_at_eq in Hy. by injection Hy as <-.
  - apply set_at_inv in Hy; [by apply Hq1|done..].
Qed.

(** The facts about a node of the copy pass. *)
Lemma arena_node x : known s x -> exists n, arena s !! x = Some n /\ levelled p (arena s) (v n) /\
  Forall (known s) (children_of (v n)) /\ (forall c, c ∈ children_of (v n) -> (c < x)%nat) /\
  forall inp, value inp (arena s) x = denote inp (value inp (arena s)) (v n).
Proof.
  intros Hk. destruct (known_at _ _ _ Hs Hk) as (e & Hm & He). pose proof He as He'. apply fmap_Some in He' as (n & Hn & ->).
  exists n. split; [done|]. split; [by eapply (inv_nodes _ _ Hs)|]. split; [by eapply (inv_closed _ _ Hs)|]. split.
  - intros c. apply (child_lt (arena s)); [apply Hs|done].
  - intros inp. apply value_node; [apply Hs|done].
Qed.

Lemma stuck {A} (Q : A -> QuadState E -> Prop) q : Is_true p -> qwp (lift_q Panic) Q q.
Proof. done. Qed.
Lemma compile_term_ok (walk : ExprNode -> qcomp E quad.Wire) x q : quad_inv q -> known s x -> term (arena s) x ->
  (forall y q', known s y -> (y < x \/ (y = x /\ exists i, expr_at (arena s) x = Some (Input i)))%nat -> quad_inv q' -> qwp (walk y) (wire_for y q') q') ->
  qwp (compile_term walk (arena s) x) (fun t q' => quad_inv q' /\ qext q q' /\ term_for x q' t) q.
Proof.
  intros Hq Hk Ht Hwalk. destruct (arena_node x Hk) as (n & Hn & Hlev & Hch & Hlt & Hv).
  assert (expr_at (arena s) x = Some (v n)) as Hx by (unfold expr_at; by rewrite Hn). unfold term in Ht. rewrite Hx in Ht.
  unfold compile_term. apply qwp_bind. apply (qwp_eq _ _ _ n q); [unfold lift_q; by rewrite (proj2 (index_Ok _ _ _) Hn)|].
  destruct (v n) as [i|l b| |c|c z|c z z'|l z] eqn:Hvn; try done.
  - apply qwp_bind. eapply qwp_mono; [apply Hwalk; [done|right; split; [done|by exists i]|done]|].
    intros w q1 (Hq1 & He1 & Hw & Hwv). apply qwp_ret. split; [done|]. split; [done|]. destruct (one_wire q1 Hq1) as [H1 H1v].
    split; [done|]. split; [done|]. intros inp Hi. unfold term_value. cbn [fst snd]. rewrite H1v, Hwv by done. ring.
  - apply qwp_ret. split; [done|]. split; [reflexivity|]. destruct (one_wire q Hq) as [H1 H1v]. split; [done|]. split; [done|].
    intros inp Hi. unfold term_value. cbn [fst snd]. rewrite H1v, Hv by done. cbn. ring.
  - cbn in Hlev, Hch. apply Forall_cons in Hch as [Hz Hch]. apply Forall_cons in Hch as [Hz' _].
    apply qwp_bind. unfold lift_q. destruct (is_zero c) eqn:Hc; cbn [negb rust_assert].
    { apply stuck. apply is_zero_spec in Hc. destruct Hlev as [Hco _]. unfold coefficient_ok in Hco. destruct p; [done|]. by apply Hco. }
    eapply qwp_eq; [reflexivity|]. apply qwp_bind. eapply qwp_mono; [apply Hwalk; [done|left; apply Hlt; by left|done]|].
    intros w q1 (Hq1 & He1 & Hw & Hwv). apply qwp_bind. eapply qwp_mono; [apply Hwalk; [done|left; apply Hlt; right; by left|done]|].
    intros w' q2 (Hq2 & He2 & Hw' & Hwv'). apply qwp_ret. split; [done|]. split; [by transitivity q1|].
    split; [by eapply qext_carries|]. split; [done|]. intros inp Hi. unfold term_value. cbn [fst snd].
    rewrite (qext_value inp q1 q2), Hwv, Hwv', Hv by done. done.
Qed.

Lemma compile_terms_ok (walk : ExprNode -> qcomp E quad.Wire) l : forall q, quad_inv q -> Forall (fun x => known s x /\ term (arena s) x) l ->
  (forall x y q', x ∈ l -> known s y -> (y < x \/ (y = x /\ exists i, expr_at (arena s) x = Some (Input i)))%nat -> quad_inv q' -> qwp (walk y) (wire_for y q') q') ->
  qwp (mapM (compile_term walk (arena s)) l) (fun ts q' => quad_inv q' /\ qext q q' /\ Forall2 (fun x t => term_for x q' t) l ts) q.
Proof.
  induction l as [|x l IH]; intros q Hq Hl Hwalk; cbn [mapM].
  { apply qwp_ret. split; [done|]. split; [reflexivity|constructor]. }
  apply Forall_cons in Hl as [[Hk Ht] Hl]. apply qwp_bind. eapply qwp_mono.
  { apply compile_term_ok; [done..|]. intros y q'. apply Hwalk. by left. }
  cbn beta. intros t q1 (Hq1 & He1 & Ht1). apply qwp_bind. eapply qwp_mono; [apply IH; [done..|]|].
  { intros x' y q' Hx'. apply Hwalk. by right. }
  cbn beta. intros ts q2 (Hq2 & He2 & HF). apply qwp_ret. split; [done|]. split; [by transitivity q1|].
  constructor; [by eapply term_for_ext|done].
Qed.
Lemma terms_carry q l ts : Forall2 (fun x t => term_for x q t) l ts -> Forall (carries (nodes q)) (operands (quad.Sum ts)).
Proof.
  intros HF. cbn. apply Forall_concat, Forall_map. eapply Forall2_Forall_r; [exact HF|].
  intros x t (H1 & H2 & _). by repeat constructor.
Qed.
Lemma terms_value q l ts inp : inp 0%nat = 1 -> Forall2 (fun x t => term_for x q t) l ts ->
  denote_wire inp (wire_value inp (nodes q)) (quad.Sum ts) = sigma l (value inp (arena s)).
Proof. intros Hi HF. cbn. apply Forall2_sigma. eapply Forall2_impl; [exact HF|]. intros x t (_ & _ & Hv). by apply Hv. Qed.

Lemma walk_eltw_ok fuel : forall x q, quad_inv q -> known s x -> (x < fuel)%nat ->
  qwp (walk_eltw fuel (arena s) x) (wire_for x q) q.
Proof.
  induction fuel as [|fuel IH]; intros x q Hq Hk Hf; [lia|]. cbn [walk_eltw]. apply call_ok; [done|].
  destruct (arena_node x Hk) as (n & Hn & Hlev & Hch & Hlt & Hv).
  assert (expr_at (arena s) x = Some (v n)) as Hx by (unfold expr_at; by rewrite Hn).
  apply qwp_bind. apply (qwp_eq _ _ _ n q); [unfold lift_q; by rewrite (proj2 (index_Ok _ _ _) Hn)|].
  assert (forall l, Forall (known s) l -> (forall c, c ∈ l -> (c < x)%nat) -> Forall (term (arena s)) l ->
    (forall inp, value inp (arena s) x = sigma l (value inp (arena s))) ->
    qwp (terms ← mapM (compile_term (walk_eltw fuel (arena s)) (arena s)) l; push_node (quad.Sum terms)) (wire_for x q) q) as Hsum.
  { intros l Hkl Hlx Htl Hvl. apply qwp_bind. eapply qwp_mono.
    - apply compile_terms_ok; [done| |].
      + apply Forall_forall. intros c Hc. rewrite Forall_forall in Hkl, Htl. by split; [apply Hkl|apply Htl].
      + intros c y q' Hc Hky Hyc Hq'. apply IH; [done..|]. specialize (Hlx c Hc). lia.
    - cbn beta. intros ts q1 (Hq1 & He1 & HF). eapply qwp_mono; [apply (push_wire x q1); [done|done|by eapply terms_carry|]|].
      + intros inp Hi. by rewrite (terms_value q1 l ts), Hvl.
      + intros w q2 (Hq2 & He2 & Hw). split; [done|]. split; [by transitivity q1|done]. }
  destruct (v n) as [i|l b| |c|c z|c z z'|l z] eqn:Hvn; cbn in Hlev; try done.
  - apply push_wire; [done|done|constructor|]. intros inp Hi. by rewrite Hv.
  - destruct Hlev as [Hne (d & Hl)]. apply qwp_bind. eapply qwp_eq; [unfold lift_q; by destruct l|].
    apply Hsum; [done..| |done]. eapply Forall_impl; [exact Hl|]. by intros y [].
  - apply qwp_ret. destruct (one_wire q Hq) as [H1 H1v]. split; [done|]. split; [reflexivity|]. split; [done|].
    intros inp Hi. by rewrite H1v, Hv.
  - apply qwp_bind. eapply qwp_mono; [apply compile_term_ok; [done|done|unfold term; by rewrite Hx|]|].
    { intros y q' Hky [Hyx|[-> (i & Hi)]] Hq'; [apply IH; [done..|lia]|]. by rewrite Hx in Hi. }
    cbn beta. intros t q1 (Hq1 & He1 & Ht1).
    assert (Forall2 (fun y t => term_for y q1 t) [x] [t]) as HF by (constructor; [done|constructor]).
    eapply qwp_mono; [apply (push_wire x q1); [done|done|by eapply terms_carry|]|].
    + intros inp Hi. rewrite (terms_value q1 [x] [t]) by done. cbn. ring.
    + intros w q2 (Hq2 & He2 & Hw). split; [done|]. split; [by transitivity q1|done].
Qed.

(** *** Assertions *)
Record asserts (done_ : list AssertionItem) (a : AssertState) q : Prop := {
  as_quad : quad_inv q;
  as_wires w : is_Some (assertion_wires a !! w) <-> exists i, nodes q !! i = Some (quad.Assert0 w);
  as_carries w : is_Some (assertion_wires a !! w) -> carries (nodes q) w;
  as_forth it : it ∈ done_ -> exists w, is_Some (assertion_wires a !! w) /\
    forall inp, inp 0%nat = 1 -> wire_value inp (nodes q) w = value inp (arena s) (ai_expr it);
  as_back w : is_Some (assertion_wires a !! w) -> exists it, it ∈ done_ /\
    forall inp, inp 0%nat = 1 -> wire_value inp (nodes q) w = value inp (arena s) (ai_expr it)
}.
Lemma asserts_ext done_ a q q' : asserts done_ a q -> quad_inv q' -> qext q q' -> asserts done_ a q'.
Proof.
  intros [H1 H2 H3 H4 H5] Hq' He. split; [done|..].
  - intros w. rewrite H2. destruct He as (r & Hr & Hf). rewrite Hr. split; intros [i Hi].
    + exists i. by apply lookup_app_l_Some.
    + apply lookup_app_Some in Hi as [Hi|[_ Hi]]; [by exists i|]. rewrite Forall_lookup in Hf. by destruct (Hf _ _ Hi).
  - intros w Hw. eapply qext_carries; [done|by apply H3].
  - intros it Hit. destruct (H4 it Hit) as (w & Hw & Hv). exists w. split; [done|]. intros inp Hi. rewrite <- Hv by done. apply qext_value; [done|by apply H3].
  - intros w Hw. destruct (H5 w Hw) as (it & Hit & Hv). exists it. split; [done|]. intros inp Hi. rewrite <- Hv by done. apply qext_value; [done|by apply H3].
Qed.

Lemma assert_item_ok done_ a item q : asserts done_ a q -> known s (ai_expr item) ->
  qwp (assert_item (arena s) a item) (fun a' q' => asserts (done_ ++ [item]) a' q') q.
Proof.
  intros Ha Hk. unfold assert_item. apply qwp_bind. eapply qwp_mono; [apply walk_eltw_ok; [apply Ha|done|lia]|].
  intros w q1 (Hq1 & He1 & Hw & Hv). pose proof (asserts_ext _ _ _ _ Ha Hq1 He1) as [H1 H2 H3 H4 H5].
  destruct (assertion_wires a !! w) as [eid|] eqn:Hlook.
  - apply qwp_ret. split; cbn [assertion_wires]; [done..| |].
    + intros it [Hit|Hit%list_elem_of_singleton]%elem_of_app; [by apply H4|]. subst it. exists w. by rewrite Hlook.
    + intros w' Hw'. destruct (H5 w' Hw') as (it & Hit & Hvi). exists it. split; [set_solver|done].
  - apply qwp_bind. eapply qwp_eq; [reflexivity|]. apply qwp_ret. set (q2 := {| nodes := nodes q1 ++ [quad.Assert0 w]; cache := cache q1 |}).
    assert (forall u, carries (nodes q1) u -> carries (nodes q2) u /\ forall inp, wire_value inp (nodes q2) u = wire_value inp (nodes q1) u) as Hold.
    { intros u Hu. split; [by apply carries_app|]. intros inp. apply wire_value_app. by apply carries_lt. }
    split; cbn [assertion_wires].
    + apply push_ok; [done|done|by repeat constructor].
    + intros u. rewrite lookup_insert_is_Some. cbn [q2 nodes]. split.
      * intros [->|[_ Hu]]; [exists (length (nodes q1)); by rewrite lookup_app_r, Nat.sub_diag|].
        apply H2 in Hu as [i Hi]. exists i. by apply lookup_app_l_Some.
      * intros [i Hi]. apply lookup_app_Some in Hi as [Hi|[_ Hi]].
        -- destruct (decide (w = u)); [by left|]. right. split; [done|]. apply H2. by exists i.
        -- apply list_lookup_singleton_Some in Hi as [_ [= ->]]. by left.
    + intros u [->|[_ Hu]]%lookup_insert_is_Some; [by apply Hold|]. by apply Hold, H3.
    + intros it [Hit|Hit%list_elem_of_singleton]%elem_of_app.
      * destruct (H4 it Hit) as (u & Hu & Hvu). exists u. rewrite lookup_insert_is_Some'. split; [by right|]. intros inp Hi.
        rewrite (proj2 (Hold u (H3 u Hu))). by apply Hvu.
      * subst it. exists w. rewrite lookup_insert_eq. split; [done|]. intros inp Hi. rewrite (proj2 (Hold w Hw)). by apply Hv.
    + intros u [<-|[_ Hu]]%lookup_insert_is_Some.
      * exists item. split; [set_solver|]. intros inp Hi. rewrite (proj2 (Hold w Hw)). by apply Hv.
      * destruct (H5 u Hu) as (it & Hit & Hvi). exists it. split; [set_solver|]. intros inp Hi. rewrite (proj2 (Hold u (H3 u Hu))). by apply Hvi.
Qed.
Lemma assert_items_ok items : forall done_ a q, asserts done_ a q -> Forall (fun it => known s (ai_expr it)) items ->
  qwp (assert_items (arena s) a items) (fun a' q' => asserts (done_ ++ items) a' q') q.
Proof.
  induction items as [|item items IH]; intros done_ a q Ha Hk; cbn [assert_items]; [rewrite app_nil_r; by apply qwp_ret|].
  apply Forall_cons in Hk as [Hki Hk]. apply qwp_bind. eapply qwp_mono; [by apply assert_item_ok|].
  intros a1 q1 Ha1. eapply qwp_mono; [by apply IH|]. intros a2 q2. by rewrite <- app_assoc.
Qed.

(** The quadratic circuit of a levelled program. *)
Record translated (items : list AssertionItem) (ns : list (quad.WExpr E)) : Prop := {
  tr_wf : quad_wf ns;
  tr_one : ns !! ONE_WIRE = Some (quad.Input 0);
  tr_sound inp : inp 0%nat = 1 -> all_asserted inp ns <-> zeros inp (arena s) items
}.
Lemma rewrite_translates items tracker : Forall (fun it => known s (ai_expr it)) items ->
  match rewrite (arena s) items tracker with
  | Ok (ns, _, _) => translated items ns
  | Err _ => False
  | Panic => Is_true p
  end.
Proof.
  intros Hk. unfold rewrite. set (a0 := {| assertion_wires := ∅ |}). set (q0 := {| nodes := [quad.Input 0] |}).
  assert (asserts [] a0 q0) as Ha0.
  { split.
    - split; [|done|by intros x w; cbn; rewrite lookup_nil]. intros i n Hi. apply list_lookup_singleton_Some in Hi as [_ <-]. by split.
    - intros w. cbn. rewrite lookup_empty. split; [by intros []|]. intros [i Hi]. by apply list_lookup_singleton_Some in Hi as [_ ?].
    - intros w. cbn. rewrite lookup_empty. by intros [].
    - by intros it ?%not_elem_of_nil.
    - intros w. cbn. rewrite lookup_empty. by intros []. }
  pose proof (assert_items_ok items [] a0 q0 Ha0 Hk) as Hw. unfold qwp in Hw.
  destruct (assert_items (arena s) a0 items q0) as [[a q]| |]; cbn; [|done..]. cbn [app] in Hw.
  split; [apply Hw..|]. intros inp Hi. split.
  - intros Hall it Hit. destruct (as_forth _ _ _ Hw it Hit) as (w & Hsome & Hv). rewrite <- Hv by done.
    apply (as_wires _ _ _ Hw) in Hsome as [i Hn]. by eapply Hall.
  - intros Hz i w Hn. assert (is_Some (assertion_wires a !! w)) as Hsome by (apply (as_wires _ _ _ Hw); by exists i).
    destruct (as_back _ _ _ Hw w Hsome) as (it & Hit & Hv). rewrite Hv by done. by apply Hz.
Qed.
End translate.
