(* ===== verification/LayerBuild.v ===== *)
(** * Building layers

    [new_compressed] and the encoder of the version 1 scheduler: the layer
    they build expands to the terms it was given; then the phases of the
    scheduler up to its layers: levels, needed wires and numbering. *)
From stdpp Require Import prelude gmap sorting strings.
From Stdlib Require Import Lia NArith.
From S2P Require Import Prelude Words Interfaces DeltaTable Util Circuit Field FieldFacts Scope CompilerIR CompilerPasses CompilerSem CopyFacts Quad SchedulerV1 QuadFacts.

Lemma omap_lookup_all {X} (l : list X) idxs ds :
  Forall2 (fun i d => l !! N.to_nat i = Some d) idxs ds -> omap (fun i => l !! N.to_nat i) idxs = ds.
Proof. induction 1 as [|i d idxs ds Hi _ IH]; cbn; [done|]. by rewrite Hi, IH. Qed.
Lemma Forall2_lookup_suffix {X} (l r : list X) idxs ds :
  Forall2 (fun i d => l !! N.to_nat i = Some d) idxs ds -> Forall2 (fun i d => (l ++ r) !! N.to_nat i = Some d) idxs ds.
Proof. intros HF. eapply Forall2_impl; [exact HF|]. intros i d. apply lookup_app_l_Some. Qed.

(** ** Deduplicating runs *)
Lemma compress_run_spec run : forall db,
  Exact.invariant db -> (N.of_nat (length (Exact.deltas db) + length run) <= 2 ^ 32)%N ->
  Exact.invariant (compress_run db run).2 /\
  (exists r, Exact.deltas (compress_run db run).2 = Exact.deltas db ++ r /\ length r <= length run /\ Forall (fun d => d ∈ run) r) /\
  Forall2 (fun i d => Exact.deltas (compress_run db run).2 !! N.to_nat i = Some d) (compress_run db run).1 run.
Proof.
  induction run as [|d run IH] using rev_ind; intros db Hinv Hlen.
  { cbn. split; [done|]. split; [exists []; by rewrite app_nil_r|constructor]. }
  rewrite length_app in Hlen. cbn [length] in Hlen.
  destruct (IH db Hinv ltac:(lia)) as (Hi & (r & Hr & Hrl & Hrin) & HF). unfold compress_run in *.
  rewrite foldl_app. cbn [foldl]. destruct (foldl _ _ run) as [seg b]. cbn [fst snd] in *.
  destruct d as [dg [dh0 dh1] vi]. cbn [d_g d_h d_k_index fst snd].
  assert (N.of_nat (length (Exact.deltas b)) < 2 ^ 32)%N as Hb by (rewrite Hr, length_app; lia).
  pose proof (Exact.exact_dedup_spec b dg dh0 dh1 vi Hi Hb) as Hd.
  destruct (Exact.dedup b dg dh0 dh1 vi) as [i b']. destruct Hd as (Hi' & (suf & Hsuf & Hcase) & Hlook). cbn [fst snd].
  split; [done|]. split.
  - exists (r ++ suf). rewrite Hsuf, Hr, app_assoc. split; [done|]. rewrite !length_app. cbn [length]. split.
    + destruct Hcase as [-> | ->]; cbn [length]; lia.
    + apply Forall_app. split; [eapply Forall_impl; [exact Hrin|]; intros d Hd; apply elem_of_app; by left|].
      destruct Hcase as [-> | ->]; [constructor|]. constructor; [|constructor]. apply elem_of_app. right. by apply list_elem_of_singleton.
  - apply Forall2_app; [|by constructor]. rewrite Hsuf. by apply Forall2_lookup_suffix.
Qed.
Lemma new_compressed_one nw logw run nconst :
  (N.of_nat (length run) <= 2 ^ 32)%N -> Forall (fun d => N.to_nat (d_k_index d) < nconst) run ->
  layer_deltas (new_compressed nw logw [run] [0%N]) = run /\ layer_wf nconst (new_compressed nw logw [run] [0%N]).
Proof.
  intros Hlen Hk. destruct (compress_run_spec run Exact.new Exact.exact_new_invariant Hlen) as (Hi & (r & Hr & _ & Hin) & HF).
  unfold new_compressed. cbn [foldl]. destruct (compress_run Exact.new run) as [seg b]. cbn [fst snd app] in *. split.
  - unfold layer_deltas, layer_indices. cbn [Circuit.deltas delta_segments delta_tokens omap list_omap].
    change ([seg] !! N.to_nat 0) with (Some seg). cbn [concat]. rewrite app_nil_r. by apply omap_lookup_all.
  - split; cbn [Circuit.deltas delta_segments delta_tokens].
    + constructor; [cbn; lia|constructor].
    + constructor; [|constructor]. eapply Forall2_Forall_l; [exact HF|]. apply Forall_forall. intros d _ i Hl. by eapply lookup_lt_Some.
    + rewrite Hr. cbn. eapply Forall_impl; [exact Hin|]. intros d. by rewrite Forall_forall in Hk; apply Hk.
Qed.
Lemma new_compressed_count {Err} nw logw run : @num_terms Err (new_compressed nw logw [run] [0%N]) = Ok (length run).
Proof.
  assert (length (compress_run Exact.new run).1 = length run) as Hl.
  { unfold compress_run. induction run as [|d run IH] using rev_ind; [done|].
    rewrite foldl_app. cbn [foldl]. destruct (foldl _ _ run) as [seg b]. destruct (Exact.dedup _ _ _ _ _) as [i b'].
    cbn [fst] in *. by rewrite !length_app, IH. }
  unfold num_terms, new_compressed. cbn [foldl]. destruct (compress_run Exact.new run) as [seg b]. cbn [fst] in Hl.
  cbn [app delta_segments delta_tokens foldM]. rewrite (index_lookup _ _ seg) by done. mstep. cbn. by rewrite Hl.
Qed.

Import scheduler.
Section build.
Context {E : Type} `{AlgebraicField E} `{SerializableFieldLaws E} {Err : Type}.
Implicit Types (t : Term E) (ts : list (Term E)) (m : gmap (list u8) N) (b : LayerBuilder).

(** ** The table of constants *)
Definition constants_ok (constants : list E) m : Prop := forall k i, m !! to_bytes k = Some i -> constants !! N.to_nat i = Some k.

Lemma scheduled_constants_ok (tss : list (list (Term E))) :
  (N.of_nat (length (concat tss)) <= 2 ^ 32)%N ->
  constants_ok (collect_constants tss).1 (collect_constants tss).2.
Proof.
  unfold collect_constants. generalize (concat tss) as ts. intros ts Hlen.
  enough (constants_ok (foldl add_constant ([], ∅) ts).1 (foldl add_constant ([], ∅) ts).2 /\
    length (foldl add_constant ([], ∅) ts).1 <= length ts) as [? _] by done.
  induction ts as [|t ts IH] using rev_ind; cbn [foldl].
  { split; [|done]. intros k i. cbn. by rewrite lookup_empty. }
  rewrite length_app in *. cbn [length] in *. destruct (IH ltac:(lia)) as [Hc Hl]. rewrite foldl_app. cbn [foldl].
  destruct (foldl add_constant ([], ∅) ts) as [cs m]. cbn [fst snd] in *. unfold add_constant.
  destruct (m !! to_bytes (t_k t)) as [i|] eqn:Hm; cbn [fst snd]; [split; [done|lia]|]. rewrite length_app. cbn [length]. split; [|lia].
  intros k i. destruct (decide (to_bytes (t_k t) = to_bytes k)) as [Hk|Hne].
  - rewrite Hk, lookup_insert_eq. intros [= <-]. rewrite wrap32_small, Nat2N.id by lia.
    rewrite lookup_app_r, Nat.sub_diag by done. cbn. f_equal. by apply to_bytes_inj.
  - rewrite lookup_insert_ne by done. intros Hi. apply lookup_app_l_Some. by apply Hc.
Qed.

(** ** Delta encoding *)
Definition term_u32 t : Prop := (t_g t < 2 ^ 32 /\ t_h0 t < 2 ^ 32 /\ t_h1 t < 2 ^ 32)%N.
Lemma terms_from_app (cs : list E) p ds d : terms_from cs p (ds ++ [d]) = terms_from cs p ds ++ terms_from cs (foldl apply_delta p ds) [d].
Proof.
  revert p. induction ds as [|d' ds IH]; intros p; [done|]. cbn [app terms_from foldl].
  destruct (cs !! N.to_nat (d_k_index d')); cbn [app]; by rewrite IH.
Qed.

Record encodes (constants : list E) ts b (ds : list TermDelta) : Prop := {
  en_segment : Forall2 (fun i d => lb_deltas b !! N.to_nat i = Some d) (lb_segment b) ds;
  en_terms : terms_from constants (0, 0, 0)%N ds = ts;
  en_prev : lb_prev b = foldl apply_delta (0, 0, 0)%N ds;
  en_prev_u32 : ((lb_prev b).1.1 < 2 ^ 32 /\ (lb_prev b).1.2 < 2 ^ 32 /\ (lb_prev b).2 < 2 ^ 32)%N;
  en_index key i : lb_delta_to_idx b !! key = Some i -> exists d, lb_deltas b !! N.to_nat i = Some d /\ delta_key d = key;
  en_length : (length (lb_deltas b) <= length ts)%nat;
  en_k : Forall (fun d => N.to_nat (d_k_index d) < length constants)%nat ds
}.
Lemma delta_key_inj d d' : delta_key d = delta_key d' -> d = d'.
Proof. destruct d as [g [h0 h1] k], d' as [g' [h0' h1'] k']. unfold delta_key. cbn. congruence. Qed.

Lemma add_term_ok constants m ts b ds t b' :
  constants_ok constants m -> encodes constants ts b ds -> term_u32 t -> (N.of_nat (length ts) < 2 ^ 32)%N ->
  @add_term E _ Err m b t = Ok b' -> exists d, encodes constants (ts ++ [t]) b' (ds ++ [d]).
Proof.
  intros Hm [Hseg Hts Hprev Hpu Hidx Hlen Hk] (Tg & T0 & T1) Hsmall. unfold add_term. intros Ha.
  apply bind_Ok_inv in Ha as (ki & Hki & Ha). apply unwrap_Ok, Hm in Hki.
  destruct (lb_prev b) as [[pg p0] p1] eqn:Hpb. cbn [fst snd] in Hpu. destruct Hpu as (Pg & P0 & P1).
  set (d := {| d_g := wrapping_sub32 (t_g t) pg |}) in Ha. exists d.
  assert (apply_delta (pg, p0, p1) d = (t_g t, t_h0 t, t_h1 t)) as Hap.
  { unfold apply_delta, d. cbn [d_g d_h fst snd]. by rewrite !wrapping_add_sub32. }
  assert (terms_from constants (0, 0, 0)%N (ds ++ [d]) = ts ++ [t]) as Htf.
  { rewrite terms_from_app, Hts, <- Hprev. cbn [terms_from]. rewrite Hap. cbn [d d_k_index]. rewrite Hki. by destruct t. }
  assert (foldl apply_delta (0, 0, 0)%N (ds ++ [d]) = (t_g t, t_h0 t, t_h1 t)) as Hfp by (by rewrite foldl_app, <- Hprev; cbn [foldl]).
  assert (Forall (fun d => N.to_nat (d_k_index d) < length constants)%nat (ds ++ [d])) as Hk'.
  { apply Forall_app. split; [done|]. constructor; [|constructor]. cbn [d d_k_index]. by eapply lookup_lt_Some. }
  destruct (lb_delta_to_idx b !! delta_key d) as [i|] eqn:Hlook; apply Ok_inj in Ha as <-.
  - destruct (Hidx _ _ Hlook) as (d' & Hd' & ->%delta_key_inj). split; cbn [lb_segment lb_deltas lb_delta_to_idx lb_prev fst snd]; [|done..| |done].
    + apply Forall2_app; [done|]. by constructor.
    + rewrite length_app. lia.
  - split; cbn [lb_segment lb_deltas lb_delta_to_idx lb_prev fst snd]; [|done..| | |done].
    + apply Forall2_app; [by apply Forall2_lookup_suffix|]. constructor; [|constructor].
      by rewrite wrap32_small, Nat2N.id, lookup_app_r, Nat.sub_diag by lia.
    + intros key i. destruct (decide (delta_key d = key)) as [<-|Hne].
      * rewrite lookup_insert_eq. intros [= <-]. exists d. split; [|done].
        by rewrite wrap32_small, Nat2N.id, lookup_app_r, Nat.sub_diag by lia.
      * rewrite lookup_insert_ne by done. intros Hi. destruct (Hidx _ _ Hi) as (d' & Hd' & Hkey). exists d'. split; [by apply lookup_app_l_Some|done].
    + rewrite !length_app. cbn [length]. lia.
Qed.

Lemma add_terms_ok constants m ts b :
  constants_ok constants m -> Forall term_u32 ts -> (N.of_nat (length ts) <= 2 ^ 32)%N ->
  foldM (@add_term E _ Err m) {| lb_deltas := []; lb_delta_to_idx := ∅; lb_segment := []; lb_prev := (0, 0, 0)%N |} ts = Ok b ->
  exists ds, encodes constants ts b ds.
Proof.
  intros Hm. revert b. induction ts as [|t ts IH] using rev_ind; intros b Hu Hlen Hr.
  { injection Hr as <-. exists []. split; cbn; [constructor|done..| | |constructor]; [|lia]. intros key i. by rewrite lookup_empty. }
  rewrite length_app in Hlen. cbn [length] in Hlen. apply Forall_app in Hu as [Hu Hut]. apply Forall_cons in Hut as [Hut _].
  rewrite foldM_app in Hr. apply bind_Ok_inv in Hr as (b1 & Hb1 & Hr). cbn [foldM] in Hr. apply bind_Ok_inv in Hr as (b2 & Hb2 & [= <-]).
  destruct (IH b1 Hu ltac:(lia) Hb1) as [ds Hds]. destruct (add_term_ok _ _ _ _ _ _ _ Hm Hds Hut ltac:(lia) Hb2) as [d Hd]. by eexists.
Qed.

Lemma mapM_index {X} (l : list X) (idxs : list N) r :
  mapM (fun i => @index Err X l (N.to_nat i)) idxs = Ok r <-> Forall2 (fun i d => l !! N.to_nat i = Some d) idxs r.
Proof.
  revert r. induction idxs as [|i idxs IH]; intros r; cbn [mapM].
  - split; [intros [= <-]; constructor|]. by intros ->%Forall2_nil_inv_l.
  - split.
    + intros Hr. apply bind_Ok_inv in Hr as (x & Hx & Hr). apply bind_Ok_inv in Hr as (xs & Hxs & [= <-]). apply index_Ok in Hx.
      constructor; [done|]. by apply IH.
    + intros HF. apply Forall2_cons_inv_l in HF as (x & xs & Hx & HF & ->). rewrite (proj2 (index_Ok _ _ _) Hx). mstep.
      by rewrite (proj2 (IH _) HF).
Qed.

(** [build_layer], when it succeeds. *)
Lemma build_layer_ok constants m ts ni lw l :
  constants_ok constants m -> Forall term_u32 ts -> (N.of_nat (length ts) <= 2 ^ 32)%N ->
  @build_layer E _ Err m ts ni lw = Ok l ->
  layer_wf (length constants) l /\ layer_terms l constants = ts /\ nw l = ni /\ logw l = lw /\ no_ties compare_term ts = true.
Proof.
  intros Hm Hu Hlen Hr. unfold build_layer in Hr. apply bind_Ok_inv in Hr as (u & Hnt & Hr). apply rust_assert_Ok in Hnt.
  apply bind_Ok_inv in Hr as (b & Hb & Hr). apply bind_Ok_inv in Hr as (ds' & Hds & [= <-]).
  destruct (add_terms_ok _ _ _ _ Hm Hu Hlen Hb) as [ds Hen]. apply mapM_index in Hds.
  assert (ds' = ds) as ->.
  { rewrite <- (omap_lookup_all _ _ _ Hds). apply omap_lookup_all, Hen. }
  assert (length ds = length ts) as Hl.
  { rewrite <- (en_terms _ _ _ _ Hen), terms_from_length; [done|apply Hen]. }
  destruct (new_compressed_one ni lw ds (length constants)) as [Hld Hwf]; [by rewrite Hl|apply Hen|].
  split; [done|]. split; [|by unfold new_compressed; cbn [foldl]; destruct (compress_run Exact.new ds)].
  unfold layer_terms. rewrite Hld. apply Hen.
Qed.
Lemma build_layer_count m ts ni lw l : @build_layer E _ Err m ts ni lw = Ok l -> @num_terms Err l = Ok (length ts).
Proof.
  intros Hr. unfold build_layer in Hr. apply bind_Ok_inv in Hr as (u & _ & Hr).
  apply bind_Ok_inv in Hr as (b & Hb & Hr). apply bind_Ok_inv in Hr as (ds & Hds & [= <-]). apply mapM_index, Forall2_length in Hds.
  rewrite new_compressed_count, <- Hds. f_equal.
  apply (foldM_Ok_invariant (fun done b => length (lb_segment b) = length done)) in Hb; [done|done|].
  intros done t s s' Hs Ha. unfold add_term in Ha. apply bind_Ok_inv in Ha as (ki & _ & Ha). destruct (lb_prev s) as [[? ?] ?].
  rewrite length_app. cbn [length]. destruct (lb_delta_to_idx s !! _); apply Ok_inj in Ha as <-; cbn [lb_segment]; by rewrite length_app, Hs.
Qed.
End build.

(** * Facts about the version 1 scheduler

    What each stage of [schedule] has established when it succeeds: every
    sum is read, levels one apart, assertions pushed down to gates with
    coefficient zero, and wire identifiers that number every level. *)
Local Open Scope fe_scope.

(** ** Loops that succeeded *)
Section loops.
Context {Err : Type}.

Lemma store_inv {A} (v : list A) i a v' : @store Err A v i a = Ok v' <-> (i < length v)%nat /\ v' = <[i:=a]> v.
Proof. unfold store. destruct (Nat.ltb_spec i (length v)); split; [by intros [= <-]|by intros [_ ->]|done|lia]. Qed.
Lemma mapM_Ok_inv {A B} (f : A -> outcome Err B) l r : mapM f l = Ok r -> Forall2 (fun x y => f x = Ok y) l r.
Proof.
  revert r. induction l as [|x l IH]; intros r; cbn [mapM]; [intros [= <-]; constructor|]. intros Hr.
  apply bind_Ok_inv in Hr as (y & Hy & Hr). apply bind_Ok_inv in Hr as (ys & Hys & [= <-]). constructor; [done|by apply IH].
Qed.
Lemma foldM_forall {A} (f : A -> outcome Err unit) l u : foldM (fun _ x => f x) tt l = Ok u -> Forall (fun x => f x = Ok tt) l.
Proof.
  intros Hr. apply (foldM_Ok_invariant (fun done _ => Forall (fun x => f x = Ok tt) done)) in Hr; [done|constructor|].
  intros done x s [] Hd Hx. apply Forall_app. split; [done|]. by constructor.
Qed.
Lemma foldM_seq_Ok {S} (I : nat -> S -> Prop) (body : S -> nat -> outcome Err S) n s0 s :
  I 0%nat s0 -> (forall i s s', (i < n)%nat -> I i s -> body s i = Ok s' -> I (i + 1)%nat s') ->
  foldM body s0 (seq 0 n) = Ok s -> I n s.
Proof.
  intros H0' Hstep. revert s. induction n as [|n IH]; intros s Hr; [by injection Hr as <-|].
  rewrite seq_S, foldM_app in Hr. apply bind_Ok_inv in Hr as (s1 & H1' & Hr). cbn [foldM] in Hr.
  apply bind_Ok_inv in Hr as (s2 & H2' & [= <-]). rewrite <- Nat.add_1_r. eapply (Hstep n s1); [lia| |done].
  apply IH; [|done]. intros i s s' Hi. apply Hstep. lia.
Qed.
Lemma foldM_imap_Ok {S A} (I : nat -> S -> Prop) (body : S -> nat * A -> outcome Err S) l s0 s :
  I 0%nat s0 -> (forall i x s s', l !! i = Some x -> I i s -> body s (i, x) = Ok s' -> I (i + 1)%nat s') ->
  foldM body s0 (imap pair l) = Ok s -> I (length l) s.
Proof.
  intros H0' Hstep. revert s. induction l as [|x l IH] using rev_ind; intros s Hr; [by injection Hr as <-|].
  rewrite imap_app, foldM_app in Hr. cbn [imap] in Hr. unfold compose in Hr. rewrite Nat.add_0_r in Hr. apply bind_Ok_inv in Hr as (s1 & H1' & Hr). cbn [foldM] in Hr.
  apply bind_Ok_inv in Hr as (s2 & H2' & [= <-]). rewrite length_app. cbn [length].
  eapply (Hstep _ x s1); [by rewrite lookup_app_r, Nat.sub_diag| |done].
  apply IH; [|done]. intros i y s s' Hi. apply Hstep. by apply lookup_app_l_Some.
Qed.
Lemma foldM_length {S A} (len : S -> nat) (body : S -> A -> outcome Err S) l s0 s :
  (forall s x s', body s x = Ok s' -> len s' = len s) -> foldM body s0 l = Ok s -> len s = len s0.
Proof.
  intros Hstep Hr. apply (foldM_Ok_invariant (fun _ s => len s = len s0)) in Hr; [done|done|].
  intros done x s1 s2 Hl Hb. by rewrite (Hstep _ _ _ Hb).
Qed.
End loops.

Section nodes.
Context {E : Type} `{AlgebraicFieldLaws E} `{SerializableField E} {Err : Type}.
Import scheduler.
Implicit Types (c nodes : list (quad.WExpr E)) (depth : list nat) (D : nat).

(** ** Every sum is read *)
Definition read_by c (w : nat) : Prop := exists j n, c !! j = Some n /\ w ∈ operands n.
Lemma operands_term (ts : list (quad.Term E)) e w0 w1 : (e, w0, w1) ∈ ts -> w0 ∈ operands (quad.Sum ts) /\ w1 ∈ operands (quad.Sum ts).
Proof.
  intros Hin. cbn. assert (forall w, w ∈ [w0; w1] -> w ∈ concat (map (fun t : quad.Term E => [t.1.2; t.2]) ts)) as Hc.
  { intros w Hw. apply list_elem_of_In, in_concat. exists [w0; w1]. split; [|by apply list_elem_of_In].
    apply in_map_iff. exists (e, w0, w1). split; [done|by apply list_elem_of_In]. }
  split; apply Hc; set_solver.
Qed.
Lemma assert_all_needed_ok c u : @assert_all_needed E Err c = Ok u ->
  forall i ts, c !! i = Some (quad.Sum ts) -> read_by c i.
Proof.
  unfold assert_all_needed. intros Hr. apply bind_Ok_inv in Hr as (needed & Hr & _).
  set (used := fun w => read_by c w \/ exists v, c !! w = Some (quad.Assert0 v)).
  apply (foldM_Ok_invariant (fun done needed => (forall w, needed !! w = Some true -> used w) /\
    (forall i ts, i ∈ done -> c !! i = Some (quad.Sum ts) -> used i))) in Hr.
  - destruct Hr as [_ Hr]. intros i ts Hi. destruct (Hr i ts) as [?|[v Hv]]; [|done|done|by rewrite Hi in Hv].
    apply list_elem_of_In. rewrite <- in_rev. apply in_seq. apply lookup_lt_Some in Hi. lia.
  - split; [|by intros ? ? ?%not_elem_of_nil]. intros w Hw. by apply lookup_replicate in Hw as [? _].
  - intros done i s s' [Hs Hd] Hstep. unfold need_node in Hstep. apply bind_Ok_inv in Hstep as (node & Hn & Hstep). apply index_Ok in Hn.
    assert (forall (v : list bool) w v', (forall w, v !! w = Some true -> used w) -> used w -> @store Err _ v w true = Ok v' -> forall w, v' !! w = Some true -> used w) as Hst.
    { intros v w v' Hv Hw [_ ->]%store_inv u' Hu'. apply list_lookup_insert_Some in Hu' as [(<- & _ & _)|[_ Hu']]; [done|by apply Hv]. }
    destruct node as [|p|ts|w]; [done|..].
    + apply bind_Ok_inv in Hstep as (b & _ & Hstep). apply bind_Ok_inv in Hstep as (u' & _ & [= <-]). split; [done|].
      intros j ts' [Hj|Hj%list_elem_of_singleton]%elem_of_app; [by apply Hd|]. congruence.
    + apply bind_Ok_inv in Hstep as (b & Hb & Hstep). apply index_Ok in Hb. apply bind_Ok_inv in Hstep as (u' & Hbt & Hstep).
      apply rust_assert_Ok in Hbt as ->. split.
      * apply (foldM_Ok_invariant (fun dn s => (forall w, s !! w = Some true -> used w) \/ exists x, x ∈ dn /\ x ∉ ts)) in Hstep.
        -- destruct Hstep as [?|(x & ? & ?)]; done.
        -- by left.
        -- intros dn [[e w0] w1] s1 s2 [Hs1|(x & Hx & Hxn)] Hb'; [|right; exists x; set_solver].
           apply bind_Ok_inv in Hb' as (s3 & H3 & Hb'). destruct (decide ((e, w0, w1) ∈ ts)) as [Hin|Hnin].
           ++ left. destruct (operands_term ts e w0 w1 Hin) as [Ho0 Ho1].
              assert (read_by c w0 /\ read_by c w1) as [Hr0 Hr1] by (split; by exists i, (quad.Sum ts)).
              apply (Hst s3 w1 s2); [apply (Hst s1 w0 s3); [done|by left|done]|by left|done].
           ++ right. exists (e, w0, w1). set_solver.
      * intros j ts' [Hj|Hj%list_elem_of_singleton]%elem_of_app; [by apply Hd|]. subst j. intros _. by apply Hs.
    + apply bind_Ok_inv in Hstep as (s1 & H1' & Hstep). split.
      * apply (Hst s1 w s'); [apply (Hst s i s1); [done|right; by exists w|done]| |done].
        left. exists i, (quad.Assert0 w). split; [done|by apply list_elem_of_singleton].
      * intros j ts' [Hj|Hj%list_elem_of_singleton]%elem_of_app; [by apply Hd|]. congruence.
Qed.

(** ** Levels *)
Record levels c depth : Prop := {
  lv_length : length depth = length c;
  lv_input i p : c !! i = Some (quad.Input p) -> depth !! i = Some 0%nat;
  lv_sum i ts : c !! i = Some (quad.Sum ts) -> ts <> [] /\ exists d, depth !! i = Some (S d) /\
    Forall (fun t => t.1.1 <> 0 /\ depth !! t.1.2 = Some d /\ depth !! t.2 = Some d) ts;
  lv_assert i w : c !! i = Some (quad.Assert0 w) -> exists d, depth !! i = Some d /\ depth !! w = Some d
}.
Lemma assert_layering_ok c depth u : length depth = length c ->
  foldM (fun _ '(i, node) => @assert_layering E _ Err depth i node) tt (imap pair c) = Ok u -> levels c depth.
Proof.
  intros Hl Hr. assert (forall i n, c !! i = Some n -> @assert_layering E _ Err depth i n = Ok tt) as Hall.
  { apply (foldM_forall (fun '(i, node) => assert_layering depth i node)) in Hr. rewrite Forall_lookup in Hr.
    intros i n Hi. apply (Hr i (i, n)). rewrite list_lookup_imap, Hi. done. }
  clear Hr. unfold assert_layering in Hall. split; [done|..].
  - intros i p Hi. specialize (Hall _ _ Hi). apply bind_Ok_inv in Hall as (d & Hd & Hall). apply index_Ok in Hd.
    cbn in Hall. apply rust_assert_Ok, Nat.eqb_eq in Hall. by subst.
  - intros i ts Hi. specialize (Hall _ _ Hi). apply bind_Ok_inv in Hall as (d & Hd & Hall). apply index_Ok in Hd.
    cbn in Hall. apply bind_Ok_inv in Hall as (u' & Hne & Hall). apply rust_assert_Ok, negb_true_iff, Nat.eqb_neq in Hne.
    assert (forall t, t ∈ ts -> t.1.1 <> 0 /\ exists d', d = S d' /\ depth !! t.1.2 = Some d' /\ depth !! t.2 = Some d') as Ht.
    { apply (foldM_forall (fun '(e, x, y) => rust_assert (negb (is_zero e)) ;; dx ← index depth x; rust_assert (Nat.eqb d (dx + 1)) ;; dy ← index depth y; rust_assert (Nat.eqb d (dy + 1)))) in Hall.
      rewrite Forall_forall in Hall. intros [[e x] y] Hin. specialize (Hall _ Hin). cbn in Hall.
      apply bind_Ok_inv in Hall as (u1 & He & Hall). apply rust_assert_Ok, negb_true_iff, is_zero_false in He.
      apply bind_Ok_inv in Hall as (dx & Hx & Hall). apply index_Ok in Hx. apply bind_Ok_inv in Hall as (u2 & Hdx & Hall). apply rust_assert_Ok, Nat.eqb_eq in Hdx.
      apply bind_Ok_inv in Hall as (dy & Hy & Hall). apply index_Ok in Hy. apply rust_assert_Ok, Nat.eqb_eq in Hall.
      split; [done|]. exists dx. split; [lia|]. split; [exact Hx|]. etransitivity; [exact Hy|]. f_equal. lia. }
    destruct ts as [|t ts]; [done|]. split; [done|]. destruct (Ht t ltac:(by left)) as (_ & d' & -> & _). exists d'. split; [done|].
    apply Forall_forall. intros t' Ht'. destruct (Ht t' Ht') as (He & d2 & [= <-] & Hx). done.
  - intros i w Hi. specialize (Hall _ _ Hi). apply bind_Ok_inv in Hall as (d & Hd & Hall). apply index_Ok in Hd.
    cbn in Hall. apply bind_Ok_inv in Hall as (dw & Hw & Hall). apply index_Ok in Hw. apply rust_assert_Ok, Nat.eqb_eq in Hall.
    exists d. split; [done|]. by subst.
Qed.

(** ** Assertions pushed down *)
Record layered c nodes depth D : Prop := {
  ly_nodes : length nodes = length c;
  ly_depth : length depth = length c;
  ly_pos : (0 < D)%nat;
  ly_input i p : c !! i = Some (quad.Input p) -> nodes !! i = Some (quad.Input p) /\ depth !! i = Some 0%nat;
  ly_sum i ts : c !! i = Some (quad.Sum ts) -> nodes !! i = Some (quad.Sum ts) /\ ts <> [] /\
    exists d, (d < D)%nat /\ depth !! i = Some (S d) /\
    Forall (fun t => t.1.1 <> 0 /\ depth !! t.1.2 = Some d /\ depth !! t.2 = Some d) ts;
  ly_assert i w : c !! i = Some (quad.Assert0 w) -> exists d, depth !! w = Some d /\
    if decide (d < D)%nat then nodes !! i = Some (quad.Sum [(0, w, w)]) /\ depth !! i = Some (S d)
    else d = D /\ nodes !! i = Some (quad.Assert0 w) /\ depth !! i = Some D
}.
(** What one iteration leaves at the position it visits. *)
Definition pushed D c depth i (n : quad.WExpr E) (d : nat) : Prop :=
  match c !! i, depth !! i with
  | Some (quad.Assert0 w), Some d0 => if decide (d0 < D)%nat then n = quad.Sum [(0, w, w)] /\ d = (d0 + 1)%nat else n = quad.Assert0 w /\ d = d0
  | Some n0, Some d0 => n = n0 /\ d = d0
  | _, _ => False
  end.
Lemma materialize_assertions_ok c depth D nodes' depth' : length depth = length c ->
  @materialize_assertions E _ Err c depth D = Ok (nodes', depth') ->
  length nodes' = length c /\ length depth' = length c /\
  forall i n d, nodes' !! i = Some n -> depth' !! i = Some d -> pushed D c depth i n d.
Proof.
  intros Hl Hr. unfold materialize_assertions in Hr.
  apply (foldM_seq_Ok (fun k st => length st.1 = length c /\ length st.2 = length c /\
    (forall i, (k <= i)%nat -> st.1 !! i = c !! i /\ st.2 !! i = depth !! i) /\
    (forall i n d, (i < k)%nat -> st.1 !! i = Some n -> st.2 !! i = Some d -> pushed D c depth i n d))) in Hr.
  - cbn in Hr. destruct Hr as (Hn & Hd & _ & Hp). split; [done|]. split; [done|]. intros i n d Hi. apply Hp; [|done].
    apply lookup_lt_Some in Hi. lia.
  - cbn. split; [done|]. split; [done|]. split; [done|lia].
  - intros k [n1 d1] [n2 d2] Hk (Hn & Hd & Hsame & Hp) Hstep. cbn [fst snd] in *. unfold materialize in Hstep.
    apply bind_Ok_inv in Hstep as (node & Hnode & Hstep). apply index_Ok in Hnode.
    destruct (Hsame k ltac:(lia)) as [Hck Hdk]. rewrite Hck in Hnode.
    assert (pushed D c depth k node (default 0%nat (depth !! k)) -> (n1, d1) = (n2, d2) -> length n2 = length c /\ length d2 = length c /\
      (forall i, (k + 1 <= i)%nat -> n2 !! i = c !! i /\ d2 !! i = depth !! i) /\
      (forall i n d, (i < k + 1)%nat -> n2 !! i = Some n -> d2 !! i = Some d -> pushed D c depth i n d)) as Hkeep.
    { intros Hpk [= <- <-]. split; [done|]. split; [done|]. split; [intros i Hi; apply Hsame; lia|]. intros i n d Hi Hin Hid.
      destruct (decide (i = k)) as [->|]; [|apply Hp; [lia|done..]]. rewrite Hck in Hin. rewrite Hdk in Hid. rewrite Hid in Hpk. cbn in Hpk. congruence. }
    destruct (lookup_lt_is_Some_2 depth k) as [dk Hdk']; [lia|].
    destruct node as [|p|ts|w]; cbn in Hstep; try (apply Ok_inj in Hstep; apply Hkeep; [unfold pushed; by rewrite Hnode, Hdk'|done]).
    apply bind_Ok_inv in Hstep as (d & Hd' & Hstep). apply index_Ok in Hd'. rewrite Hdk, Hdk' in Hd'. injection Hd' as <-.
    destruct (Nat.ltb_spec dk D) as [Hlt|Hge].
    + apply bind_Ok_inv in Hstep as (n3 & [Hs1 ->]%store_inv & Hstep). apply bind_Ok_inv in Hstep as (d3 & [Hs2 ->]%store_inv & [= <- <-]).
      rewrite !length_insert. split; [done|]. split; [done|]. split.
      * intros i Hi. rewrite !list_lookup_insert_ne by lia. apply Hsame. lia.
      * intros i n d Hi. destruct (decide (i = k)) as [->|Hne].
        -- rewrite !list_lookup_insert_eq by done. intros [= <-] [= <-]. unfold pushed. rewrite Hnode, Hdk'. by rewrite decide_True.
        -- rewrite !list_lookup_insert_ne by done. apply Hp. lia.
    + apply Ok_inj in Hstep. apply Hkeep; [|done]. unfold pushed. rewrite Hnode, Hdk'. cbn. rewrite decide_False by lia. done.
Qed.
Lemma compute_node_depths_ok c nodes depth D : quad_wf c ->
  @compute_node_depths E _ Err c = Ok (nodes, depth, D) -> layered c nodes depth D.
Proof.
  intros Hwf Hr. unfold compute_node_depths in Hr. apply bind_Ok_inv in Hr as (depth0 & Hd0 & Hr).
  assert (length depth0 = length c) as Hl0.
  { apply (foldM_length length) in Hd0; [by rewrite Hd0, length_replicate|]. intros s x s' Hb. apply bind_Ok_inv in Hb as (n & _ & Hb).
    apply bind_Ok_inv in Hb as (d & _ & Hb). apply store_inv in Hb as [_ ->]. apply length_insert. }
  apply bind_Ok_inv in Hr as (u & Hlay & Hr). apply assert_layering_ok in Hlay; [|done]. destruct Hlay as [_ Hin Hsum Has].
  apply bind_Ok_inv in Hr as (D' & HD & Hr). apply bind_Ok_inv in Hr as ([n2 d2] & Hm & [= <- <- <-]).
  assert (0 < D' /\ forall i d, depth0 !! i = Some d -> d <= D')%nat as [Hpos Hmax].
  { assert (forall i d, depth0 !! i = Some d -> d <= max_list depth0)%nat as Hle by (intros i d Hi; apply max_list_ge; by eapply list_elem_of_lookup_2).
    destruct (Nat.eqb_spec (max_list depth0) 0) as [Hz|Hnz].
    - apply bind_Ok_inv in HD as (u' & _ & [= <-]). split; [lia|]. intros i d Hi. specialize (Hle i d Hi). lia.
    - injection HD as <-. split; [lia|done]. }
  destruct (materialize_assertions_ok _ _ _ _ _ Hl0 Hm) as (Hln & Hld & Hp).
  assert (forall i n d, c !! i = Some n -> depth0 !! i = Some d -> match n with quad.Assert0 _ => False | _ => True end -> n2 !! i = Some n /\ d2 !! i = Some d) as Hsame.
  { intros i n d Hi Hdi Hna. pose proof (lookup_lt_Some _ _ _ Hi) as Hlt. destruct (lookup_lt_is_Some_2 n2 i) as [n' Hn']; [lia|].
    destruct (lookup_lt_is_Some_2 d2 i) as [d' Hd']; [lia|]. specialize (Hp _ _ _ Hn' Hd'). unfold pushed in Hp. rewrite Hi, Hdi in Hp.
    rewrite Hn', Hd'. by destruct n; [destruct Hp as [-> ->]..|]. }
  assert (forall i w, c !! i = Some (quad.Assert0 w) \/ (exists ts, c !! i = Some (quad.Sum ts) /\ w ∈ operands (quad.Sum ts)) ->
    exists n, c !! w = Some n /\ match n with quad.Assert0 _ => False | _ => True end) as Hoper.
  { intros i w Hc. assert (carries c w) as Hcw.
    { destruct Hc as [Hc|(ts & Hc & Hw)]; apply Hwf in Hc as [_ Hf]; rewrite Forall_forall in Hf; apply Hf; [by apply list_elem_of_singleton|done]. }
    unfold carries in Hcw. destruct (c !! w) as [n|]; [|done]. exists n. split; [done|]. by destruct n. }
  split; [done..| | |].
  - intros i p Hi. by apply Hsame; [|apply (Hin i p)|].
  - intros i ts Hi. destruct (Hsum i ts Hi) as (Hne & d & Hd & Hts). destruct (Hsame _ _ _ Hi Hd I) as [Hn Hd'].
    split; [done|]. split; [done|]. exists d. specialize (Hmax _ _ Hd). split; [lia|]. split; [done|].
    apply Forall_forall. intros [[e x] y] Ht. rewrite Forall_forall in Hts. destruct (Hts _ Ht) as (He & Hx & Hy). cbn [fst snd] in *.
    destruct (operands_term ts e x y Ht) as [Ox Oy].
    destruct (Hoper i x) as (nx & Hnx & Hnax); [right; by exists ts|]. destruct (Hoper i y) as (ny & Hny & Hnay); [right; by exists ts|].
    split; [done|]. split; [by eapply Hsame|by eapply Hsame].
  - intros i w Hi. destruct (Has i w Hi) as (d & Hd & Hdw). destruct (Hoper i w ltac:(by left)) as (nw & Hnw & Hna).
    exists d. split; [by eapply Hsame|]. pose proof (lookup_lt_Some _ _ _ Hi) as Hlt.
    destruct (lookup_lt_is_Some_2 n2 i) as [n' Hn']; [lia|]. destruct (lookup_lt_is_Some_2 d2 i) as [d' Hd']; [lia|].
    specialize (Hp _ _ _ Hn' Hd'). unfold pushed in Hp. rewrite Hi, Hd in Hp. specialize (Hmax _ _ Hd).
    destruct (decide (d < D')%nat); destruct Hp as [-> ->]; rewrite Hn', Hd'; [by rewrite Nat.add_1_r|]. assert (d = D') as -> by lia. done.
Qed.

(** ** Levels as lists *)
Lemma group_by_depth_ok depth D by_depth : @group_by_depth Err depth D = Ok by_depth ->
  length by_depth = (D + 1)%nat /\
  forall d l, by_depth !! d = Some l -> NoDup l /\ forall i, i ∈ l <-> depth !! i = Some d.
Proof.
  unfold group_by_depth. intros Hr.
  apply (foldM_imap_Ok (fun k g => length g = (D + 1)%nat /\
    forall d l, g !! d = Some l -> NoDup l /\ forall i, i ∈ l <-> (i < k)%nat /\ depth !! i = Some d)) in Hr.
  - destruct Hr as [Hl Hg]. split; [done|]. intros d l Hd. destruct (Hg d l Hd) as [Hnd Hi]. split; [done|].
    intros i. rewrite Hi. split; [by intros []|]. intros Hdi. split; [by eapply lookup_lt_Some|done].
  - split; [apply length_replicate|]. intros d l [-> _]%lookup_replicate. split; [constructor|].
    intros i. split; [by intros ?%not_elem_of_nil|lia].
  - intros k e g g' Hk [Hl Hg] Hstep. apply bind_Ok_inv in Hstep as (l0 & Hl0 & [Hlt ->]%store_inv). apply index_Ok in Hl0.
    rewrite length_insert. split; [done|]. intros d l Hd.
    apply list_lookup_insert_Some in Hd as [(<- & <- & _)|[Hne Hd]].
    + destruct (Hg _ _ Hl0) as [Hnd Hi]. split.
      * apply NoDup_app. split; [done|]. split; [|apply NoDup_singleton]. intros x Hx ->%list_elem_of_singleton. apply Hi in Hx. lia.
      * intros i. rewrite elem_of_app, list_elem_of_singleton, Hi. split.
        -- intros [[? ?]| ->]; split; done || lia.
        -- intros [Hlt' Hdi]. destruct (decide (i = k)); [by right|]. left. split; [lia|done].
    + destruct (Hg _ _ Hd) as [Hnd Hi]. split; [done|]. intros i. rewrite Hi. split; intros [Hlt' Hdi]; split; try done; [lia|].
      destruct (decide (i = k)) as [->|]; [congruence|lia].
Qed.

(** The gates of a level. *)
Definition gate_at nodes (i : nat) : option (nat * list (quad.Term E)) :=
  match nodes !! i with Some (quad.Sum ts) => Some (i, ts) | _ => None end.
Definition gates nodes (at_d : list nat) : list (nat * list (quad.Term E)) := omap (gate_at nodes) at_d.
Lemma elem_of_gates nodes at_d i ts : (i, ts) ∈ gates nodes at_d <-> i ∈ at_d /\ nodes !! i = Some (quad.Sum ts).
Proof.
  unfold gates. rewrite list_elem_of_omap. unfold gate_at. split.
  - intros (j & Hj & Hg). destruct (nodes !! j) as [[]|] eqn:Hn; simplify_eq. done.
  - intros [Hi Hn]. exists i. by rewrite Hn.
Qed.
Lemma NoDup_gates nodes at_d : NoDup at_d -> NoDup (gates nodes at_d).*1.
Proof.
  induction 1 as [|i l Hi _ IH]; [constructor|]. unfold gates in *. cbn [omap list_omap]. unfold gate_at at 1.
  destruct (nodes !! i) as [[]|]; try done. cbn. constructor; [|done].
  intros ((j & ts) & Hj & Hin)%list_elem_of_fmap. cbn in Hj. subst j. by apply elem_of_gates in Hin as [? _].
Qed.
Lemma layer_nodes_ok nodes at_d ln : @layer_nodes E Err nodes at_d = Ok ln -> ln = gates nodes at_d.
Proof.
  unfold layer_nodes. intros Hr. apply (foldM_Ok_invariant (fun done l => l = gates nodes done)) in Hr; [done|done|].
  intros done i s s' -> Hstep. apply bind_Ok_inv in Hstep as (n & Hn & [= <-]). apply index_Ok in Hn.
  unfold gates. rewrite omap_app. cbn [omap list_omap]. assert (gate_at nodes i = match n with quad.Sum ts => Some (i, ts) | _ => None end) as -> by (unfold gate_at; rewrite Hn; by destruct n). by destruct n; cbn; rewrite ?app_nil_r.
Qed.

(** ** Wire identifiers *)
Lemma sort_distinct_perm {X} (cmp : X -> X -> comparison) l l' : @sort_distinct Err X cmp l = Ok l' -> l' ≡ₚ l.
Proof. unfold sort_distinct. intros Hr. apply bind_Ok_inv in Hr as (u & _ & [= <-]). apply merge_sort_Permutation. Qed.
Lemma assign_layer_ok nodes ids at_d ids' : NoDup at_d -> @assign_layer E _ Err nodes ids at_d = Ok ids' ->
  length ids' = length ids /\ exists order, order ≡ₚ (gates nodes at_d).*1 /\
  (forall i, i ∉ at_d -> ids' !! i = ids !! i) /\ (forall k i, order !! k = Some i -> ids' !! i = Some (N.of_nat k)).
Proof.
  intros Hnd Hr. unfold assign_layer in Hr. apply bind_Ok_inv in Hr as (ln & ->%layer_nodes_ok & Hr).
  apply bind_Ok_inv in Hr as (rns & Hrns & Hr). apply bind_Ok_inv in Hr as (sorted & Hs & Hr). apply sort_distinct_perm in Hs.
  set (order := original_node_index <$> sorted).
  assert (order ≡ₚ (gates nodes at_d).*1) as Hord.
  { unfold order. rewrite Hs. apply mapM_Ok_inv in Hrns. clear -Hrns. induction Hrns as [|n rn ln rns Hn _ IH]; [done|].
    cbn. unfold rename_node in Hn. apply bind_Ok_inv in Hn as (ts & _ & Hn). apply bind_Ok_inv in Hn as (ts' & _ & [= <-]). cbn. by rewrite IH. }
  assert (NoDup order) as Hndo by (rewrite Hord; by apply NoDup_gates).
  assert (forall k rn, sorted !! k = Some rn -> order !! k = Some (original_node_index rn)) as Hlook by (intros k rn Hk; unfold order; by rewrite list_lookup_fmap, Hk).
  apply (foldM_imap_Ok (fun k s => length s = length ids /\ (forall i, i ∉ order -> s !! i = ids !! i) /\
    (forall j i, (j < k)%nat -> order !! j = Some i -> s !! i = Some (N.of_nat j)))) in Hr.
  - destruct Hr as (Hl & Hout & Hin). split; [done|]. exists order. split; [done|]. split.
    + intros i Hi. apply Hout. rewrite Hord. intros ((j & ts) & -> & Hg)%list_elem_of_fmap. by apply elem_of_gates in Hg as [? _].
    + intros k i Hk. apply Hin; [|done]. apply lookup_lt_Some in Hk. by unfold order in Hk; rewrite length_fmap in Hk.
  - split; [done|]. split; [done|lia].
  - intros k rn s s' Hk (Hl & Hout & Hin) [Hlt ->]%store_inv. pose proof (Hlook _ _ Hk) as Hok.
    rewrite length_insert. split; [done|]. split.
    + intros i Hi. rewrite list_lookup_insert_ne; [by apply Hout|]. intros <-. apply Hi. by eapply list_elem_of_lookup_2.
    + intros j i Hj Hji. destruct (decide (j = k)) as [->|Hne].
      * rewrite Hok in Hji. injection Hji as <-. by rewrite list_lookup_insert_eq.
      * rewrite list_lookup_insert_ne; [apply Hin; [lia|done]|]. intros Heq. apply Hne. rewrite Heq in Hok. by eapply NoDup_lookup.
Qed.
Lemma assign_inputs_ok nodes ids at_0 ids' : @assign_inputs E Err nodes ids at_0 = Ok ids' ->
  length ids' = length ids /\ forall i p, i ∈ at_0 -> nodes !! i = Some (quad.Input p) -> ids' !! i = Some (N.of_nat p).
Proof.
  intros Hr. unfold assign_inputs in Hr.
  apply (foldM_Ok_invariant (fun done s => length s = length ids /\ forall i p, i ∈ done -> nodes !! i = Some (quad.Input p) -> s !! i = Some (N.of_nat p))) in Hr; [done| |].
  - split; [done|]. by intros i p ?%not_elem_of_nil.
  - intros done i s s' [Hl Hin] Hstep. apply bind_Ok_inv in Hstep as (n & Hn & Hstep). apply index_Ok in Hn.
    assert (s' = s /\ (forall p, n <> quad.Input p) \/ exists p, n = quad.Input p /\ (i < length s)%nat /\ s' = <[i:=N.of_nat p]> s) as Hs'.
    { destruct n as [|p| |]; [by left; apply Ok_inj in Hstep| |by left; apply Ok_inj in Hstep..].
      right. apply store_inv in Hstep. by exists p. }
    split; [destruct Hs' as [[-> _]|(p & _ & _ & ->)]; by rewrite ?length_insert|].
    intros j p Hj Hjp. destruct (decide (j = i)) as [->|Hne].
    + rewrite Hn in Hjp. injection Hjp as ->. destruct Hs' as [[_ Hnp]|(p' & [= <-] & Hlt & ->)]; [by destruct (Hnp p)|].
      by rewrite list_lookup_insert_eq.
    + assert (j ∈ done) as Hjd by (apply elem_of_app in Hj as [?|?%list_elem_of_singleton]; done).
      destruct Hs' as [[-> _]|(p' & _ & _ & ->)]; rewrite ?list_lookup_insert_ne by done; by apply Hin.
Qed.

(** Every level is numbered from zero; inputs keep their positions. *)
Record numbered nodes depth (by_depth : list (list nat)) (ids : list N) : Prop := {
  nb_input i p : depth !! i = Some 0%nat -> nodes !! i = Some (quad.Input p) -> ids !! i = Some (N.of_nat p);
  nb_level d at_d : by_depth !! S d = Some at_d -> exists order, order ≡ₚ (gates nodes at_d).*1 /\
    forall k i, order !! k = Some i -> ids !! i = Some (N.of_nat k)
}.
Lemma assign_wire_ids_ok nodes depth D by_depth ids :
  length by_depth = (D + 1)%nat ->
  (forall d l, by_depth !! d = Some l -> NoDup l /\ forall i, i ∈ l <-> depth !! i = Some d) ->
  @assign_wire_ids E _ Err nodes by_depth D = Ok ids -> numbered nodes depth by_depth ids.
Proof.
  intros Hl Hby Hr. unfold assign_wire_ids in Hr. destruct by_depth as [|at_0 rest]; [cbn in Hl; lia|].
  rewrite take_ge in Hr by (rewrite Hl; lia). change (drop 1 (at_0 :: rest)) with rest in Hr. apply bind_Ok_inv in Hr as (ids0 & H0' & Hr).
  apply assign_inputs_ok in H0' as [_ Hin]. clear Hl. revert ids Hr. induction rest as [|at_d rest IH] using rev_ind; intros ids Hr.
  { injection Hr as <-. split; [|done]. intros i p Hd. apply Hin. by apply (Hby 0%nat at_0). }
  rewrite foldM_app in Hr. apply bind_Ok_inv in Hr as (ids1 & Hids1 & Hr). cbn [foldM] in Hr. apply bind_Ok_inv in Hr as (ids2 & Ha & [= <-]).
  assert ((rest ++ [at_d]) !! length rest = Some at_d) as Hlast by (by rewrite lookup_app_r, Nat.sub_diag).
  destruct (Hby (S (length rest)) at_d Hlast) as [Hnd Hat].
  assert (forall d l, (at_0 :: rest) !! d = Some l -> NoDup l /\ forall i, i ∈ l <-> depth !! i = Some d) as Hby'.
  { intros d l Hd. apply Hby. change (at_0 :: rest ++ [at_d]) with ((at_0 :: rest) ++ [at_d]). by apply lookup_app_l_Some. }
  destruct (IH Hby' _ Hids1) as [Hi1 Hl1]. destruct (assign_layer_ok _ _ _ _ Hnd Ha) as (_ & order & Hord & Hout & Hk). split.
  - intros i p Hd Hn. rewrite Hout; [by apply Hi1|]. rewrite Hat. congruence.
  - intros d l Hd. change ((rest ++ [at_d]) !! d = Some l) in Hd. apply lookup_app_Some in Hd as [Hd|[Hge Hd]].
    + destruct (Hl1 d l Hd) as (o & Ho & Hok). exists o. split; [done|]. intros k i Hki. rewrite Hout; [by apply (Hok k)|].
      rewrite Hat. destruct (Hby' (S d) l Hd) as [_ Hlat]. assert (i ∈ l) as Hil.
      { assert (i ∈ (gates nodes l).*1) as ((j & ts) & -> & Hg)%list_elem_of_fmap by (rewrite <- Ho; by eapply list_elem_of_lookup_2). by apply elem_of_gates in Hg as [? _]. }
      apply Hlat in Hil. rewrite Hil. intros [= Hd']. apply lookup_lt_Some in Hd. lia.
    + apply list_lookup_singleton_Some in Hd as [_ <-]. by exists order.
Qed.

(** ** Terms *)
Definition id_of (ids : list N) (i : nat) : N := default 0%N (ids !! i).
Definition gate_term (ids : list N) (g : N) (t : quad.Term E) : Term E :=
  canonical_term {| t_k := t.1.1; t_g := wrap32 g; t_h0 := wrap32 (id_of ids t.1.2); t_h1 := wrap32 (id_of ids t.2) |}.
Lemma quad_term_ok ids g t r : @quad_term E Err ids g t = Ok r -> r = gate_term ids g t.
Proof.
  destruct t as [[e x] y]. unfold quad_term, gate_term, id_of. cbn [fst snd]. intros Hr.
  apply bind_Ok_inv in Hr as (a & Ha & Hr). apply bind_Ok_inv in Hr as (b & Hb & [= <-]). apply index_Ok in Ha, Hb.
  unfold quad.Wire in *. by rewrite Ha, Hb.
Qed.
Lemma mapM_pure_inv {A B} (f : A -> outcome Err B) (g : A -> B) l r : (forall x y, f x = Ok y -> y = g x) -> mapM f l = Ok r -> r = map g l.
Proof. intros Hfg Hr. apply mapM_Ok_inv in Hr. induction Hr as [|x y l r Hx _ IH]; [done|]. cbn. by rewrite (Hfg _ _ Hx), IH. Qed.
Definition level_terms nodes (ids : list N) (at_d : list nat) : list (Term E) :=
  flat_map (fun g => map (gate_term ids (id_of ids g.1)) g.2) (gates nodes at_d).
Lemma collect_layer_ok nodes ids at_d ts n : @collect_layer E Err nodes ids at_d = Ok (ts, n) ->
  n = length (gates nodes at_d) /\ ts ≡ₚ level_terms nodes ids at_d.
Proof.
  unfold collect_layer. intros Hr. apply bind_Ok_inv in Hr as (ln & ->%layer_nodes_ok & Hr).
  apply bind_Ok_inv in Hr as (keyed & Hk & Hr). apply bind_Ok_inv in Hr as (tss & Hts & [= <- <-]). split; [done|].
  apply (mapM_pure_inv _ (fun g => (id_of ids g.1, g.2))) in Hk as ->.
  2: { intros g y Hy. apply bind_Ok_inv in Hy as (k & Hkg & [= <-]). apply index_Ok in Hkg. unfold id_of. by rewrite Hkg. }
  apply (mapM_pure_inv _ (fun g => map (gate_term ids g.1) g.2)) in Hts as ->.
  2: { intros g y Hy. apply (mapM_pure_inv _ (gate_term ids g.1)) in Hy; [done|]. intros t r. apply quad_term_ok. }
  rewrite <- flat_map_concat_map. unfold level_terms. rewrite merge_sort_Permutation.
  induction (gates nodes at_d) as [|g gs IH]; [done|]. cbn. by rewrite IH.
Qed.
End nodes.
