(* ===== verification/SchedulerSound.v ===== *)
(** * The meaning of a schedule

    The levels of a scheduled circuit compute the values of the wires that
    were numbered there, so that evaluation succeeds exactly when every
    assertion of the quadratic circuit holds. *)
From stdpp Require Import prelude gmap sorting strings.
From Stdlib Require Import Lia NArith Ring Ring_theory.
From S2P Require Import Prelude Words Interfaces DeltaTable Util Circuit Field FieldFacts SumcheckProof SumcheckV1 EvalFacts Scope CompilerIR CompilerPasses CompilerSem RewriterFacts Quad SchedulerV1 QuadFacts LayerBuild.

Local Open Scope fe_scope.

Section sums.
Context {E : Type} `{AlgebraicFieldLaws E}.
Add Ring field_ring_levels : (field_ring (E:=E)).

Lemma square_zero (a : E) : a * a = 0 -> a = 0.
Proof.
  intros Ha. destruct (is_zero a) eqn:Hz; [by apply is_zero_spec|]. apply is_zero_false in Hz.
  destruct (invert_spec a Hz) as (i & _ & Hi). transitivity (a * (a * i)); [rewrite Hi; ring|].
  transitivity (a * a * i); [ring|]. rewrite Ha. ring.
Qed.
Lemma sigma_flat_map {X Y} (f : X -> list Y) l (g : Y -> E) : sigma (flat_map f l) g = sigma l (fun x => sigma (f x) g).
Proof. induction l as [|x l IH]; [done|]. cbn [flat_map]. by rewrite sigma_app, sigma_cons, IH. Qed.
Lemma sigma_one {X} (l : list X) (x : X) (g : X -> E) : NoDup l -> x ∈ l -> (forall y, y ∈ l -> y <> x -> g y = 0) -> sigma l g = g x.
Proof.
  intros Hnd. revert x. induction Hnd as [|y l Hy Hnd IH]; intros x Hx Hg; [by apply not_elem_of_nil in Hx|].
  rewrite sigma_cons. apply elem_of_cons in Hx as [->|Hx].
  - rewrite sigma_zero; [ring|]. intros z Hz. apply Hg; [by right|]. by intros ->.
  - rewrite (IH x Hx), (Hg y); [ring|by left|by intros ->|]. intros z Hz. apply Hg. by right.
Qed.
Lemma output_value_perm (w : list E) (ts ts' : list (Term E)) i : ts ≡ₚ ts' -> output_value w ts i = output_value w ts' i.
Proof. apply sigma_perm. Qed.
Lemma layer_spec_perm (w v : list E) nv (ts ts' : list (Term E)) : ts ≡ₚ ts' -> layer_spec w v nv ts -> layer_spec w v nv ts'.
Proof.
  intros Hp [L W O V A]. split; [done|by rewrite <- Hp..| |by rewrite <- Hp].
  intros i Hi. rewrite (V i Hi). by apply output_value_perm.
Qed.
End sums.

Section schedule.
Context {E : Type} `{AlgebraicFieldLaws E} `{SerializableField E}.
Add Ring field_ring_schedule : (field_ring (E:=E)).
Implicit Types (c nodes : list (quad.WExpr E)) (depth : list nat).

(** The wires of level [d]: its gates, or the inputs. *)
Definition level_size nodes (by_depth : list (list nat)) (ninput d : nat) : nat :=
  match d with O => ninput | S _ => length (gates nodes (default [] (by_depth !! d))) end.

(** A circuit whose layers hold the levels of [c]. *)
Record schedules c (circuit : Circuit E) nodes depth D (by_depth : list (list nat)) (ids : list N) : Prop := {
  sd_wf : quad_wf c;
  sd_read i ts : c !! i = Some (quad.Sum ts) -> read_by c i;
  sd_layered : layered c nodes depth D;
  sd_by_length : length by_depth = (D + 1)%nat;
  sd_by d at_d : by_depth !! d = Some at_d -> NoDup at_d /\ forall i, i ∈ at_d <-> depth !! i = Some d;
  sd_numbered : numbered nodes depth by_depth ids;
  sd_position i p : nodes !! i = Some (quad.Input p) -> (p < ninput (raw circuit))%nat;
  sd_small d : (d <= D)%nat -> (N.of_nat (level_size nodes by_depth (ninput (raw circuit)) d) < 2 ^ 32)%N;
  sd_length : length (layers (raw circuit)) = D;
  sd_layer d at_d : (d < D)%nat -> by_depth !! S d = Some at_d -> exists l,
    layers (raw circuit) !! (D - 1 - d)%nat = Some l /\ layer_wf (length (constants (raw circuit))) l /\
    layer_terms l (constants (raw circuit)) ≡ₚ level_terms nodes ids at_d /\
    nw l = level_size nodes by_depth (ninput (raw circuit)) d;
  sd_noutput : noutput (raw circuit) = level_size nodes by_depth (ninput (raw circuit)) D
}.

Context c circuit nodes depth D by_depth ids (Hs : schedules c circuit nodes depth D by_depth ids).
#[local] Abbreviation size := (level_size nodes by_depth (ninput (raw circuit))).

(** ** Live wires *)
(** A wire numbered at level [d]. *)
Definition live (d i : nat) : Prop := depth !! i = Some d /\
  match nodes !! i with Some (quad.Input _) | Some (quad.Sum _) => True | _ => False end.

Lemma node_cases i n : nodes !! i = Some n -> exists m, c !! i = Some m.
Proof.
  intros Hi. apply lookup_lt_is_Some_2. rewrite <- (ly_nodes _ _ _ _ (sd_layered _ _ _ _ _ _ _ Hs)). by eapply lookup_lt_Some.
Qed.
(** A gate of the schedule: a sum, or an assertion pushed below [D]. *)
Lemma gate_inv i ts : nodes !! i = Some (quad.Sum ts) -> exists d, (d < D)%nat /\ depth !! i = Some (S d) /\
  (forall t, t ∈ ts -> live d t.1.2 /\ live d t.2) /\
  (c !! i = Some (quad.Sum ts) /\ Forall (fun t => t.1.1 <> 0) ts \/ exists w, c !! i = Some (quad.Assert0 w) /\ ts = [(0, w, w)]).
Proof.
  intros Hi. destruct (node_cases _ _ Hi) as [m Hm]. destruct Hs as [Hwf _ Hl _ _ _ _ _ _ _ _].
  assert (forall d w, carries c w -> depth !! w = Some d -> live d w) as Hlive.
  { intros d w Hc Hd. split; [done|]. unfold carries in Hc. destruct (c !! w) as [n|] eqn:Hn; [|done]. destruct n as [|p|ts'|w']; try done.
    - apply (ly_input _ _ _ _ Hl) in Hn as [-> _]. done.
    - apply (ly_sum _ _ _ _ Hl) in Hn as [-> _]. done. }
  pose proof (Hwf _ _ Hm) as [Hne Hop]. destruct m as [|p|ts'|w]; [done|..].
  - apply (ly_input _ _ _ _ Hl) in Hm as [Hm _]. congruence.
  - destruct (ly_sum _ _ _ _ Hl _ _ Hm) as (Hn & _ & d & Hd & Hdi & Hf). assert (ts' = ts) as -> by congruence.
    exists d. split; [done|]. split; [done|]. pose proof (proj1 (Forall_forall _ _) Hf) as Hf'. pose proof (proj1 (Forall_forall _ _) Hop) as Hop'. split.
    + intros [[e x] y] Ht. destruct (Hf' _ Ht) as (_ & Hx & Hy). destruct (operands_term ts e x y Ht) as [Ox Oy].
      split; apply Hlive; try done; by apply Hop'.
    + left. split; [done|]. apply Forall_forall. intros t Ht. by apply Hf'.
  - destruct (ly_assert _ _ _ _ Hl _ _ Hm) as (d & Hd & Hcase). destruct (decide (d < D)%nat) as [Hlt|]; [|destruct Hcase as (_ & Hn & _); congruence].
    destruct Hcase as [Hn Hdi]. assert (ts = [(0, w, w)]) as -> by congruence. exists d. split; [done|]. split; [done|].
    apply Forall_cons in Hop as [[_ Hc] _]. split; [|right; by exists w]. intros t ->%list_elem_of_singleton. by split; apply Hlive.
Qed.
Lemma live_value i d : live d i -> exists m, c !! i = Some m.
Proof. intros [_ Hl]. destruct (nodes !! i) as [n|] eqn:Hn; [by eapply node_cases|done]. Qed.
(** ** Positions *)
Definition level (d : nat) : list nat := default [] (by_depth !! d).
Lemma level_at d : (d <= D)%nat -> by_depth !! d = Some (level d).
Proof.
  intros Hd. unfold level. destruct (lookup_lt_is_Some_2 by_depth d) as [l ->]; [|done]. rewrite (sd_by_length _ _ _ _ _ _ _ Hs). lia.
Qed.
Lemma input_inv i p : nodes !! i = Some (quad.Input p) -> depth !! i = Some 0%nat /\ c !! i = Some (quad.Input p).
Proof.
  intros Hi. destruct (node_cases _ _ Hi) as [m Hm]. pose proof (sd_layered _ _ _ _ _ _ _ Hs) as Hl. destruct m as [|p'|ts|w].
  - by apply (sd_wf _ _ _ _ _ _ _ Hs) in Hm as [? _].
  - destruct (ly_input _ _ _ _ Hl _ _ Hm) as [Hn Hd]. split; [done|]. congruence.
  - destruct (ly_sum _ _ _ _ Hl _ _ Hm) as [Hn _]. congruence.
  - destruct (ly_assert _ _ _ _ Hl _ _ Hm) as (d & _ & Hc). destruct (decide (d < D)%nat); destruct Hc as (? & ?); [congruence|]. destruct H3. congruence.
Qed.
Lemma live_gate d i : live (S d) i -> exists ts, nodes !! i = Some (quad.Sum ts) /\ (i, ts) ∈ gates nodes (level (S d)) /\ (S d <= D)%nat.
Proof.
  intros [Hd Hl]. destruct (nodes !! i) as [[|p|ts|w]|] eqn:Hn; try done.
  - apply input_inv in Hn as [Hd' _]. congruence.
  - exists ts. split; [done|]. destruct (gate_inv _ _ Hn) as (d' & Hlt & Hd' & _). assert (d' = d) as -> by congruence.
    split; [|lia]. apply elem_of_gates. split; [|done]. by apply (sd_by _ _ _ _ _ _ _ Hs (S d) _ (level_at (S d) ltac:(lia))).
Qed.
Lemma gate_live d i ts : (S d <= D)%nat -> (i, ts) ∈ gates nodes (level (S d)) -> live (S d) i /\ nodes !! i = Some (quad.Sum ts).
Proof.
  intros Hd Hg. apply elem_of_gates in Hg as [Hi Hn]. split; [|done]. split; [|by rewrite Hn].
  by apply (sd_by _ _ _ _ _ _ _ Hs (S d) _ (level_at (S d) ltac:(lia))).
Qed.
(** Level [S d] is numbered by a list of its gates. *)
Lemma level_order d : (S d <= D)%nat -> exists order, NoDup order /\ length order = size (S d) /\
  (forall i, i ∈ order <-> live (S d) i) /\ forall k i, order !! k = Some i -> id_of ids i = N.of_nat k.
Proof.
  intros Hd. destruct (nb_level _ _ _ _ (sd_numbered _ _ _ _ _ _ _ Hs) d _ (level_at (S d) Hd)) as (order & Hord & Hk).
  exists order. destruct (sd_by _ _ _ _ _ _ _ Hs (S d) _ (level_at (S d) Hd)) as [Hnd _].
  split; [rewrite Hord; by apply NoDup_gates|]. split; [rewrite Hord; cbn; apply length_fmap|]. split.
  - intros i. rewrite Hord. split.
    + intros ((j & ts) & -> & Hg)%list_elem_of_fmap. by apply (gate_live d j ts).
    + intros (ts & _ & Hg & _)%live_gate. apply list_elem_of_fmap. by exists (i, ts).
  - intros k i Hi. unfold id_of. by rewrite (Hk _ _ Hi).
Qed.
Lemma live_position d i : (d <= D)%nat -> live d i -> exists k, (k < size d)%nat /\ id_of ids i = N.of_nat k.
Proof.
  intros Hd Hl. destruct d as [|d].
  - destruct Hl as [Hdi Hl]. destruct (nodes !! i) as [[|p|ts|w]|] eqn:Hn; try done.
    + exists p. split; [by eapply (sd_position _ _ _ _ _ _ _ Hs)|]. unfold id_of. by rewrite (nb_input _ _ _ _ (sd_numbered _ _ _ _ _ _ _ Hs) i p).
    + destruct (gate_inv _ _ Hn) as (d & _ & Hd' & _). congruence.
  - destruct (level_order d Hd) as (order & _ & Hlen & Hin & Hk). pose proof (proj2 (Hin i) Hl) as (k & Hki)%list_elem_of_lookup.
    exists k. split; [rewrite <- Hlen; by eapply lookup_lt_Some|by apply Hk].
Qed.
Lemma live_id d i : (d <= D)%nat -> live d i -> wrap32 (id_of ids i) = id_of ids i /\ (N.to_nat (id_of ids i) < size d)%nat.
Proof.
  intros Hd Hl. destruct (live_position d i Hd Hl) as (k & Hk & ->). pose proof (sd_small _ _ _ _ _ _ _ Hs d Hd) as Hsm.
  rewrite Nat2N.id. split; [apply wrap32_small; lia|done].
Qed.
Lemma live_id_inj d i j : (S d <= D)%nat -> live (S d) i -> live (S d) j -> id_of ids i = id_of ids j -> i = j.
Proof.
  intros Hd Hi Hj Heq. destruct (level_order d Hd) as (order & _ & _ & Hin & Hk).
  pose proof (proj2 (Hin i) Hi) as (a & Ha)%list_elem_of_lookup. pose proof (proj2 (Hin j) Hj) as (b & Hb)%list_elem_of_lookup.
  rewrite (Hk _ _ Ha), (Hk _ _ Hb) in Heq. apply Nat2N.inj in Heq. congruence.
Qed.

(** ** Layers *)
Lemma layer_at d : (d < D)%nat -> exists l, layers (raw circuit) !! (D - 1 - d)%nat = Some l /\
  layer_wf (length (constants (raw circuit))) l /\
  layer_terms l (constants (raw circuit)) ≡ₚ level_terms nodes ids (level (S d)) /\ nw l = size d.
Proof. intros Hd. apply (sd_layer _ _ _ _ _ _ _ Hs); [done|]. apply level_at. lia. Qed.
Lemma outputs_size_level d : (d < D)%nat -> outputs_size circuit (D - 1 - d) = size (S d).
Proof.
  intros Hd. destruct (D - 1 - d)%nat as [|j] eqn:Hj; cbn [outputs_size].
  - rewrite (sd_noutput _ _ _ _ _ _ _ Hs). f_equal. lia.
  - destruct (layer_at (S d)) as (l & Hl & _ & _ & Hnw); [lia|]. replace (D - 1 - S d)%nat with j in Hl by lia. by rewrite Hl.
Qed.
Lemma terms_live d t : (d < D)%nat -> t ∈ level_terms nodes ids (level (S d)) ->
  exists i ts q, nodes !! i = Some (quad.Sum ts) /\ live (S d) i /\ q ∈ ts /\ t = gate_term ids (id_of ids i) q /\ live d q.1.2 /\ live d q.2.
Proof.
  intros Hd Ht. unfold level_terms in Ht. apply list_elem_of_In, in_flat_map in Ht as ([i ts] & Hg%list_elem_of_In & Ht).
  apply in_map_iff in Ht as (q & <- & Hq%list_elem_of_In). cbn [fst snd] in *. destruct (gate_live d i ts ltac:(lia) Hg) as [Hl Hn].
  destruct (gate_inv _ _ Hn) as (d' & _ & Hd' & Hops & _). assert (d' = d) as -> by (destruct Hl; congruence).
  exists i, ts, q. split; [done|]. split; [done|]. split; [done|]. split; [done|]. by apply Hops.
Qed.
Lemma gate_term_fields g q : t_k (gate_term (E:=E) ids g q) = q.1.1 /\ t_g (gate_term ids g q) = wrap32 g /\
  (t_h0 (gate_term ids g q) = wrap32 (id_of ids q.1.2) /\ t_h1 (gate_term ids g q) = wrap32 (id_of ids q.2) \/
   t_h0 (gate_term ids g q) = wrap32 (id_of ids q.2) /\ t_h1 (gate_term ids g q) = wrap32 (id_of ids q.1.2)).
Proof. unfold gate_term, canonical_term. cbn [t_h0 t_h1]. destruct (_ <? _)%N; cbn; split; try split; auto. Qed.


Context (inputs : list E) (Hinputs : length inputs = ninput (raw circuit)).
#[local] Abbreviation inp := (at0 inputs).
(** ** The values the wires should have *)
Definition level_value (i : nat) : E := match c !! i with Some (quad.Assert0 _) => 0 | _ => wire_value inp c i end.
Lemma gate_value i ts : nodes !! i = Some (quad.Sum ts) ->
  level_value i = sigma ts (fun t => t.1.1 * (level_value t.1.2 * level_value t.2)).
Proof.
  intros Hi. destruct (gate_inv _ _ Hi) as (d & _ & _ & _ & [[Hc _]|(w & Hc & ->)]); unfold level_value at 1; rewrite Hc; [|cbn; ring].
  destruct (sd_wf _ _ _ _ _ _ _ Hs _ _ Hc) as [_ Hop]. rewrite (wire_value_node inp c i (quad.Sum ts)); [|done|eapply Forall_impl; [exact Hop|by intros ? []]].
  cbn. apply sigma_ext. intros [[e x] y] Ht. unfold term_value. cbn [fst snd]. rewrite Forall_forall in Hop.
  destruct (operands_term ts e x y Ht) as [Ox Oy].
  assert (forall w, carries c w -> level_value w = wire_value inp c w) as Hv.
  { intros w Hw. unfold carries in Hw. unfold level_value, quad.Wire in *. by destruct (c !! w) as [[]|]. }
  rewrite !Hv; [done|by apply Hop..].
Qed.

(** ** The wires of every level *)
Fixpoint wires (d : nat) : list E :=
  match d with
  | O => inputs
  | S d' => tab (output_value (wires d') (level_terms nodes ids (level (S d')))) (size (S d'))
  end.
Lemma gate_canonical (w : list E) (t : Term E) : gate w (canonical_term t) = gate w t.
Proof. unfold gate, canonical_term. destruct (_ <? _)%N; cbn; ring. Qed.
Definition valued (d : nat) (w : list E) : Prop :=
  length w = size d /\ forall i, live d i -> at0 w (N.to_nat (id_of ids i)) = level_value i.
Lemma gate_product d w g t : (d <= D)%nat -> valued d w -> live d t.1.2 -> live d t.2 ->
  gate w (gate_term ids g t) = level_value t.1.2 * level_value t.2.
Proof.
  destruct t as [[e x] y]. cbn [fst snd]. intros Hd [_ Hw] Hx Hy. unfold gate_term. cbn [fst snd]. rewrite gate_canonical. unfold gate. cbn [t_h0 t_h1].
  rewrite (proj1 (live_id d _ Hd Hx)), (proj1 (live_id d _ Hd Hy)), !Hw by done. done.
Qed.
Lemma wires_valued d : (d <= D)%nat -> valued d (wires d).
Proof.
  induction d as [|d IH]; intros Hd.
  - split; [done|]. intros i [Hdi Hl]. cbn [wires]. destruct (nodes !! i) as [[|p|ts|w]|] eqn:Hn; try done.
    + destruct (input_inv _ _ Hn) as [_ Hc]. unfold level_value, id_of. rewrite Hc, (nb_input _ _ _ _ (sd_numbered _ _ _ _ _ _ _ Hs) i p) by done.
      change (default 0%N (Some (N.of_nat p))) with (N.of_nat p). rewrite Nat2N.id. by rewrite (wire_value_node inp c i (quad.Input p)) by (done || constructor).
    + destruct (gate_inv _ _ Hn) as (d & _ & Hd' & _). congruence.
  - specialize (IH ltac:(lia)). split; [apply length_tab|]. intros i Hl. cbn [wires]. destruct (live_id (S d) i Hd Hl) as [_ Hlt].
    rewrite at0_tab by done. destruct (live_gate d i Hl) as (ts & Hn & Hg & _). rewrite (gate_value i ts Hn).
    unfold output_value, level_terms. rewrite sigma_flat_map.
    assert (forall g, g ∈ gates nodes (level (S d)) -> forall k,
      sigma (map (gate_term ids (id_of ids g.1)) g.2) (fun t => if is_zero (t_k t) then 0 else if Nat.eqb (N.to_nat (t_g t)) k then t_k t * gate (wires d) t else 0)
      = if Nat.eqb (N.to_nat (id_of ids g.1)) k then sigma g.2 (fun t => t.1.1 * (level_value t.1.2 * level_value t.2)) else 0) as Hgate.
    { intros [j ts'] Hj k. cbn [fst snd]. rewrite sigma_map. destruct (gate_live d j ts' ltac:(lia) Hj) as [Hlj Hnj].
      destruct (gate_inv _ _ Hnj) as (d' & _ & Hd' & Hops & _). assert (d' = d) as -> by (destruct Hlj; congruence).
      destruct (live_id (S d) j Hd Hlj) as [Hwr _].
      assert (forall t, t ∈ ts' -> t_k (gate_term ids (id_of ids j) t) = t.1.1 /\ t_g (gate_term ids (id_of ids j) t) = id_of ids j /\
        gate (wires d) (gate_term ids (id_of ids j) t) = level_value t.1.2 * level_value t.2) as Ht.
      { intros t Ht. destruct (Hops t Ht) as [Hx Hy]. split; [|split; [|apply (gate_product d); [lia|done..]]]; unfold gate_term, canonical_term; destruct (_ <? _)%N; done. }
      destruct (Nat.eqb_spec (N.to_nat (id_of ids j)) k) as [Hk|Hk].
      - apply sigma_ext. intros t Hin. destruct (Ht t Hin) as (-> & -> & ->). rewrite (proj2 (Nat.eqb_eq _ _) Hk).
        destruct (is_zero t.1.1) eqn:Hz; [|done]. apply is_zero_spec in Hz as ->. ring.
      - apply sigma_zero. intros t Hin. destruct (Ht t Hin) as (-> & -> & ->). rewrite (proj2 (Nat.eqb_neq _ _) Hk). by destruct (is_zero t.1.1). }
    rewrite (sigma_one _ (i, ts)); [by rewrite Hgate, Nat.eqb_refl| |done|].
    + eapply NoDup_fmap_1. apply NoDup_gates. apply (sd_by _ _ _ _ _ _ _ Hs (S d) _ (level_at (S d) Hd)).
    + intros [j ts'] Hj Hne. rewrite Hgate by done. cbn [fst snd]. destruct (Nat.eqb_spec (N.to_nat (id_of ids j)) (N.to_nat (id_of ids i))) as [Heq|]; [|done].
      exfalso. apply Hne. destruct (gate_live d j ts' ltac:(lia) Hj) as [Hlj Hnj]. assert (j = i) as -> by (apply (live_id_inj d); [done..|by apply N2Nat.inj]). congruence.
Qed.

(** ** Evaluation *)
(** The assertions pushed below the outputs. *)
Definition pushed_hold (d : nat) : Prop :=
  Forall (fun t => t_k t = 0 -> gate (wires d) t = 0) (level_terms nodes ids (level (S d))).
Lemma wires_layer d : (d < D)%nat -> pushed_hold d ->
  layer_spec (wires d) (wires (S d)) (size (S d)) (level_terms nodes ids (level (S d))).
Proof.
  intros Hd Hp. destruct (wires_valued d ltac:(lia)) as [Hlen _]. split; [apply length_tab| | |by intros i Hi; cbn [wires]; rewrite at0_tab|done].
  - apply Forall_forall. intros t Ht. destruct (terms_live d t Hd Ht) as (i & ts & q & _ & _ & _ & -> & Hx & Hy). rewrite Hlen.
    destruct (live_id d _ ltac:(lia) Hx) as [Ex Lx], (live_id d _ ltac:(lia) Hy) as [Ey Ly].
    destruct (gate_term_fields (id_of ids i) q) as (_ & _ & [[-> ->]|[-> ->]]); destruct q as [[e x] y]; cbn [fst snd] in *; rewrite Ex, Ey; done.
  - apply Forall_forall. intros t Ht _. destruct (terms_live d t Hd Ht) as (i & ts & q & _ & Hi & _ & -> & _).
    destruct (gate_term_fields (id_of ids i) q) as (_ & -> & _). destruct (live_id (S d) i ltac:(lia) Hi) as [-> Hlt]. done.
Qed.
Lemma run_unique V : V D = inputs -> wires_run circuit V -> forall d, (d <= D)%nat -> V (D - d)%nat = wires d /\ ((d < D)%nat -> pushed_hold d).
Proof.
  intros HV Hrun. assert (forall d, (d <= D)%nat -> V (D - d)%nat = wires d) as Hw.
  { induction d as [|d IH]; intros Hd; [by rewrite Nat.sub_0_r|]. specialize (IH ltac:(lia)).
    destruct (layer_at d ltac:(lia)) as (l & Hl & _ & Hp & _). specialize (Hrun _ _ Hl). replace (S (D - 1 - d)) with (D - d)%nat in Hrun by lia.
    rewrite outputs_size_level, IH in Hrun by lia. replace (D - S d)%nat with (D - 1 - d)%nat by lia. cbn [wires]. apply at0_ext.
    - rewrite (ls_length _ _ _ _ Hrun). by rewrite length_tab.
    - rewrite (ls_length _ _ _ _ Hrun). intros i Hi. rewrite at0_tab by done. rewrite (ls_values _ _ _ _ Hrun) by done. by apply output_value_perm. }
  intros d Hd. split; [by apply Hw|]. intros Hlt. destruct (layer_at d Hlt) as (l & Hl & _ & Hp & _). specialize (Hrun _ _ Hl).
  replace (S (D - 1 - d)) with (D - d)%nat in Hrun by lia. rewrite Hw in Hrun by lia. unfold pushed_hold. rewrite <- Hp. apply Hrun.
Qed.

Lemma level_value_assert i w : c !! i = Some (quad.Assert0 w) -> carries c w /\ level_value w = wire_value inp c w.
Proof.
  intros Hi. destruct (sd_wf _ _ _ _ _ _ _ Hs _ _ Hi) as [_ [[_ Hc] _]%Forall_cons]. split; [done|].
  unfold carries in Hc. unfold level_value, quad.Wire in *. by destruct (c !! w) as [[]|].
Qed.
Lemma asserted_wires : all_asserted inp c <-> (forall d, (d < D)%nat -> pushed_hold d) /\ Forall (eq 0) (wires D).
Proof.
  pose proof (sd_layered _ _ _ _ _ _ _ Hs) as Hl. split.
  - intros Hall. assert (forall i ts q, nodes !! i = Some (quad.Sum ts) -> q ∈ ts -> q.1.1 = 0 -> level_value q.1.2 * level_value q.2 = 0) as Hzero.
    { intros i ts q Hi Hq Hz. destruct (gate_inv _ _ Hi) as (d & _ & _ & _ & [[_ Hne]|(w & Hc & ->)]).
      - rewrite Forall_forall in Hne. by destruct (Hne q Hq).
      - apply list_elem_of_singleton in Hq as ->. cbn [fst snd]. destruct (level_value_assert _ _ Hc) as [_ ->]. rewrite (Hall _ _ Hc). ring. }
    split.
    + intros d Hd. apply Forall_forall. intros t Ht Hz. destruct (terms_live d t Hd Ht) as (i & ts & q & Hi & _ & Hq & -> & Hx & Hy).
      destruct (gate_term_fields (id_of ids i) q) as (Hk & _). rewrite Hk in Hz.
      rewrite (gate_product d) by (lia || done || by apply wires_valued; lia). by eapply Hzero.
    + apply Forall_forall. intros e He. destruct (wires_valued D ltac:(lia)) as [Hlen Hv].
      apply list_elem_of_lookup in He as [k Hk]. pose proof (lookup_lt_Some _ _ _ Hk) as Hlt. rewrite Hlen in Hlt.
      pose proof (ly_pos _ _ _ _ Hl) as Hpos. assert (S (D - 1) = D) as HSD by lia.
      destruct (level_order (D - 1) ltac:(lia)) as (order & _ & Hol & Hin & Hid). rewrite HSD in Hol, Hin. destruct (lookup_lt_is_Some_2 order k) as [i Hi]; [lia|].
      assert (live D i) as Hlive by (apply Hin; by eapply list_elem_of_lookup_2). specialize (Hv i Hlive).
      rewrite (Hid _ _ Hi), Nat2N.id in Hv. unfold at0 in Hv at 1. rewrite Hk in Hv. change (default 0 (Some e)) with e in Hv. rewrite Hv. symmetry.
      destruct (live_gate (D - 1) i ltac:(by rewrite HSD)) as (ts & Hn & _). destruct (gate_inv _ _ Hn) as (d & _ & Hdi & _ & [[Hc _]|(w & Hc & _)]); [|unfold level_value; by rewrite Hc].
      destruct (sd_read _ _ _ _ _ _ _ Hs _ _ Hc) as (j & n & Hj & Ho). destruct n as [|p|ts'|w]; try by apply not_elem_of_nil in Ho.
      * exfalso. destruct (ly_sum _ _ _ _ Hl _ _ Hj) as (_ & _ & d' & Hd' & _ & Hf). rewrite Forall_forall in Hf.
        cbn in Ho. apply list_elem_of_In, in_concat in Ho as (ws & Hws & Ho). apply in_map_iff in Hws as (q & <- & Hq%list_elem_of_In).
        destruct (Hf q Hq) as (_ & Hx & Hy). destruct Hlive as [Hdep _]. cbn in Ho. assert (Some D = Some d') as [= ?]; [|lia].
        destruct Ho as [<-|[<-|[]]]; (etransitivity; [symmetry; exact Hdep|]); [exact Hx|exact Hy].
      * apply list_elem_of_singleton in Ho as <-. destruct (level_value_assert _ _ Hj) as [_ ->]. by eapply Hall.
  - intros [Hp Hz] i w Hi. destruct (level_value_assert _ _ Hi) as [Hcw <-]. destruct (ly_assert _ _ _ _ Hl _ _ Hi) as (d & Hdw & Hcase).
    destruct (decide (d < D)%nat) as [Hlt|].
    + destruct Hcase as [Hn Hdi]. destruct (gate_inv _ _ Hn) as (d' & _ & Hd' & Hops & _). assert (d' = d) as -> by congruence.
      destruct (Hops (0, w, w) ltac:(by left)) as [Hlw _]. cbn [fst snd] in Hlw. apply square_zero.
      rewrite <- (gate_product d (wires d) (id_of ids i) (0, w, w)) by (done || lia || by apply wires_valued; lia).
      specialize (Hp d Hlt). unfold pushed_hold in Hp. rewrite Forall_forall in Hp. apply Hp.
      * unfold level_terms. apply list_elem_of_In, in_flat_map. exists (i, [(0, w, w)]). split.
        -- apply list_elem_of_In. destruct (live_gate d i) as (ts & Hts & Hg & _); [split; [done|by rewrite Hn]|]. rewrite Hn in Hts. injection Hts as <-. exact Hg.
        -- by left.
      * apply gate_term_fields.
    + destruct Hcase as (-> & Hn & Hdi). destruct (wires_valued D ltac:(lia)) as [Hlen Hv].
      assert (live D w) as Hlw.
      { split; [done|]. unfold carries in Hcw. destruct (c !! w) as [m|] eqn:Hm; [|done]. destruct m as [|p|ts|w']; try done.
        - apply (ly_input _ _ _ _ Hl) in Hm as [-> _]. done.
        - apply (ly_sum _ _ _ _ Hl) in Hm as [-> _]. done. }
      rewrite <- (Hv w Hlw). unfold at0. destruct (wires D !! N.to_nat (id_of ids w)) as [e|] eqn:He; [|done].
      rewrite Forall_lookup in Hz. symmetry. by eapply Hz.
Qed.

Lemma layers_wf : Forall (layer_wf (length (constants (raw circuit)))) (layers (raw circuit)).
Proof.
  apply Forall_lookup. intros k l Hl. pose proof (lookup_lt_Some _ _ _ Hl) as Hlt. rewrite (sd_length _ _ _ _ _ _ _ Hs) in Hlt.
  destruct (layer_at (D - 1 - k)) as (l' & Hl' & Hwf & _); [lia|]. replace (D - 1 - (D - 1 - k))%nat with k in Hl' by lia. by simplify_eq.
Qed.
Theorem schedules_evaluate : (exists ls, eval_circuit inputs circuit = Ok ls) <-> all_asserted inp c.
Proof.
  pose proof (ly_pos _ _ _ _ (sd_layered _ _ _ _ _ _ _ Hs)) as Hpos. pose proof (sd_length _ _ _ _ _ _ _ Hs) as HD.
  rewrite eval_circuit_iff; [|intros Hn; rewrite Hn in HD; cbn in HD; lia|apply layers_wf]. rewrite HD, asserted_wires. split.
  - intros (V & HV & Hrun & Hz). pose proof (run_unique V HV Hrun) as Hu. split.
    + intros d Hd. apply (Hu d); lia.
    + destruct (Hu D ltac:(lia)) as [Hw _]. rewrite Nat.sub_diag in Hw. by rewrite <- Hw.
  - intros [Hp Hz]. exists (fun l => wires (D - l)). split; [by rewrite Nat.sub_diag|]. split; [|by rewrite Nat.sub_0_r].
    intros k l Hl. pose proof (lookup_lt_Some _ _ _ Hl) as Hlt. rewrite HD in Hlt.
    destruct (layer_at (D - 1 - k)) as (l' & Hl' & _ & Hperm & _); [lia|]. replace (D - 1 - (D - 1 - k))%nat with k in Hl' by lia.
    assert (l' = l) as -> by congruence. replace k with (D - 1 - (D - 1 - k))%nat at 3 by lia. rewrite outputs_size_level by lia.
    replace (D - S k)%nat with (D - 1 - k)%nat by lia. replace (D - k)%nat with (S (D - 1 - k)) by lia.
    eapply layer_spec_perm; [symmetry; exact Hperm|]. apply wires_layer; [lia|]. apply Hp. lia.
Qed.
End schedule.
