(* ===== verification/SchedulerRun.v ===== *)
(** * Running the version 1 scheduler

    A successful [schedule] returns a circuit whose layers hold the levels
    of the quadratic circuit, well-formed in the sense of the protocols; the
    compiler as the composition of its passes. *)
From stdpp Require Import prelude gmap sorting strings.
From Stdlib Require Import Lia NArith ZifyNat.
From S2P Require Import Prelude Words Interfaces DeltaTable Util Circuit Field FieldFacts SumcheckProof SumcheckV1 EvalFacts Completeness ZkVerify Scope CompilerIR CompilerPasses CompilerSem CseFacts RewriterFacts AlgsimpFacts CopyFacts Quad SchedulerV1 QuadFacts LayerBuild SchedulerSound.

Import scheduler.

(** ** Comparisons that order *)
Lemma cmp_bytes_antisym a b : cmp_bytes a b = CompOpp (cmp_bytes b a).
Proof.
  revert b. induction a as [|x a IH]; intros [|y b]; cbn; try done.
  rewrite (N.compare_antisym (u8_to_N y)). destruct (N.compare (u8_to_N y) (u8_to_N x)); cbn; [apply IH|done..].
Qed.
Lemma morton_antisym x0 x1 y0 y1 : morton.cmp x0 x1 y0 y1 = CompOpp (morton.cmp y0 y1 x0 x1).
Proof.
  set (n := N.to_nat (x0 + x1 + y0 + y1)).
  assert (forall x, (x <= x0 + x1 + y0 + y1)%N -> (x < 2 ^ N.of_nat n)%N) as Hb.
  { intros x Hx. unfold n. rewrite N2Nat.id. eapply N.le_lt_trans; [exact Hx|]. apply N.pow_gt_lin_r. lia. }
  rewrite !(morton.cmp_key n) by (apply Hb; lia). apply N.compare_antisym.
Qed.
Lemma then_with_opp c d : CompOpp (then_with c d) = then_with (CompOpp c) (CompOpp d).
Proof. by destruct c. Qed.
Lemma compare_term_antisym {A} `{SerializableField A} (t s : Term A) : compare_term t s = CompOpp (compare_term s t).
Proof.
  unfold compare_term. rewrite !then_with_opp. rewrite <- morton_antisym, <- N.compare_antisym, <- cmp_bytes_antisym. done.
Qed.
#[local] Instance compare_term_total {A} `{SerializableField A} : Total (le_by (compare_term (A:=A))).
Proof.
  intros t s. unfold le_by. rewrite (compare_term_antisym s t). destruct (compare_term t s); cbn; [by left..|by right].
Qed.
Lemma sorted_terms_morton {A} `{SerializableField A} (ts : list (Term A)) : morton_sorted (merge_sort (le_by compare_term) ts).
Proof.
  unfold morton_sorted. pose proof (Sorted_merge_sort (le_by compare_term) ts) as Hs.
  assert (forall t s : Term A, le_by compare_term t s -> morton.cmp (t_h0 t) (t_h1 t) (t_h0 s) (t_h1 s) <> Gt) as Himp.
  { intros t s Hts Hgt. apply Hts. unfold compare_term. by rewrite Hgt. }
  induction Hs as [|t l _ IH Hhd]; constructor; [done|]. destruct Hhd; constructor. by apply Himp.
Qed.

Lemma ceil_log2_bound {Err} n k : @ceil_log2 Err n = Ok k -> (N.of_nat n < 2 ^ 32)%N -> (n <= 2 ^ k)%nat /\ sane_logw k = true.
Proof.
  intros Hk Hn. destruct (ceil_log2_spec n k Hk) as [Hle Hlo]. split; [done|]. unfold sane_logw, MAX_LOGW.
  enough (k <= 32) by (apply andb_true_iff; split; [apply Nat.leb_le|apply Nat.ltb_lt]; lia).
  destruct Hlo as [->|Hlo]; [lia|]. assert (N.of_nat (2 ^ (k - 1)) < 2 ^ 32)%N as Hp by lia. rewrite Nat2N.inj_pow in Hp.
  apply N.pow_lt_mono_r_iff in Hp; lia.
Qed.
Lemma rev_lookup {X} (l : list X) i : (i < length l)%nat -> rev l !! (length l - 1 - i)%nat = l !! i.
Proof.
  intros Hi. rewrite rev_alt. change (rev_append l []) with (reverse l). rewrite reverse_lookup by lia. f_equal. lia.
Qed.
Lemma list_sum_ge l i (n : nat) : l !! i = Some n -> (n <= list_sum l)%nat.
Proof. revert i. induction l as [|m l IH]; intros [|i] Hi; simplify_eq/=; [lia|]. specialize (IH _ Hi). lia. Qed.

(** ** Computations that panic or succeed *)
Definition no_err {X A} (m : outcome X A) : Prop := match m with Err _ => False | _ => True end.
Lemma no_err_bind {X A B} (m : outcome X A) (k : A -> outcome X B) : no_err m -> (forall a, no_err (k a)) -> no_err (m ≫= k).
Proof. destruct m; cbn; auto. Qed.
Lemma no_err_foldM {X A S} (f : S -> A -> outcome X S) l : (forall s a, no_err (f s a)) -> forall s, no_err (foldM f s l).
Proof. intros Hf. induction l as [|a l IH]; intros s; [done|]. apply no_err_bind; auto. Qed.
Lemma no_err_mapM {X A B} (f : A -> outcome X B) l : (forall a, no_err (f a)) -> no_err (mapM f l).
Proof. intros Hf. induction l as [|a l IH]; [done|]. apply no_err_bind; [done|]. intros b. by apply no_err_bind. Qed.
Lemma no_err_fmap {X A B} (f : A -> B) (m : outcome X A) : no_err m -> no_err (f <$> m).
Proof. by destruct m. Qed.
Lemma no_err_ret {X A} (a : A) : no_err (mret a : outcome X A).
Proof. done. Qed.
Lemma no_err_index {X A} (l : list A) i : no_err (@index X A l i).
Proof. unfold index. by destruct (l !! i). Qed.
Lemma no_err_store {X A} (l : list A) i a : no_err (@store X A l i a).
Proof. unfold store. by destruct (i <? length l)%nat. Qed.
Lemma no_err_assert {X} b : no_err (@rust_assert X b).
Proof. by destruct b. Qed.
Lemma no_err_unwrap {X A} (o : option A) : no_err (@unwrap X A o).
Proof. by destruct o. Qed.
Lemma no_err_ceil_log2 {X} n : no_err (@ceil_log2 X n).
Proof. by destruct n as [|[|n]]. Qed.
#[local] Ltac no_err := repeat first
  [ exact I | apply no_err_ret | apply no_err_index | apply no_err_store | apply no_err_assert | apply no_err_unwrap | apply no_err_ceil_log2
  | apply no_err_bind; [|intros ?] | apply no_err_foldM; intros ? ? | apply no_err_mapM; intros ? | apply no_err_fmap
  | match goal with |- context [match ?x with _ => _ end] => destruct x end ].

Section run.
Context {E : Type} `{AlgebraicFieldLaws E} `{SerializableFieldLaws E} {Err : Type} `{Sha256}.
Implicit Types (c nodes : list (quad.WExpr E)) (circuit : Circuit E).

(** The limits of the encoding: wires and terms are [u32]s. *)
Definition fits (info : CircuitGeometry) : Prop :=
  (N.of_nat (g_ninput info) < 2 ^ 32 /\ N.of_nat (g_nwires info) < 2 ^ 32 /\ N.of_nat (g_nterms info) < 2 ^ 32)%N.

Lemma input_positions nodes n i p : @validate_and_count_inputs E Err nodes = Ok n -> nodes !! i = Some (quad.Input p) -> (p < n)%nat.
Proof.
  unfold validate_and_count_inputs. set (ps := omap _ nodes). intros Hr Hi.
  destruct (Nat.eqb_spec (length ps) (1 + max_list ps)) as [Heq|]; [|done]. injection Hr as <-.
  assert (p ∈ ps) as Hp by (apply list_elem_of_omap; exists (quad.Input p); split; [by eapply list_elem_of_lookup_2|done]).
  apply max_list_ge in Hp. lia.
Qed.

Lemma collect_quads_ok nodes ids by_depth D tss nws : length by_depth = (D + 1)%nat ->
  @collect_quads E Err nodes by_depth D ids = Ok (tss, nws) ->
  length tss = D /\ length nws = D /\ forall d at_d, by_depth !! S d = Some at_d -> exists ts,
    tss !! d = Some ts /\ nws !! d = Some (length (gates nodes at_d)) /\ ts ≡ₚ level_terms nodes ids at_d.
Proof.
  intros Hl Hr. unfold collect_quads in Hr. apply bind_Ok_inv in Hr as (ls & Hls & [= <- <-]).
  destruct by_depth as [|at_0 rest]; [cbn in Hl; lia|]. cbn [length] in Hl. rewrite take_ge in Hls by (cbn; lia).
  change (drop 1 (at_0 :: rest)) with rest in Hls. apply mapM_Ok_inv in Hls. pose proof (Forall2_length _ _ _ Hls) as Hlen.
  rewrite !length_fmap. split; [lia|]. split; [lia|]. intros d at_d Hd. change (rest !! d = Some at_d) in Hd.
  destruct (Forall2_lookup_l _ _ _ _ _ Hls Hd) as ([ts n] & Hn & Hc). apply collect_layer_ok in Hc as [-> Hp].
  exists ts. by rewrite !list_lookup_fmap, Hn.
Qed.

Lemma gate_term_u32 ids g q : term_u32 (gate_term (E:=E) ids g q).
Proof.
  destruct (gate_term_fields ids g q) as (_ & Hg & [[H0' H1']|[H0' H1']]); unfold term_u32; rewrite Hg, H0', H1'; split; try split; apply wrap32_lt.
Qed.
Lemma level_terms_u32 nodes ids at_d : Forall term_u32 (level_terms nodes ids at_d).
Proof.
  apply Forall_forall. intros t Ht. unfold level_terms in Ht. apply list_elem_of_In, in_flat_map in Ht as (g & _ & Ht).
  apply in_map_iff in Ht as (q & <- & _). apply gate_term_u32.
Qed.

(** One layer of the circuit. *)
Record layer_of (constants : list E) (ts : list (Term E)) (ninput_ : nat) (l : Layer) : Prop := {
  lf_wf : layer_wf (length constants) l;
  lf_terms : layer_terms l constants = merge_sort (le_by compare_term) ts;
  lf_nw : nw l = ninput_;
  lf_logw : sane_logw (logw l) = true;
  lf_size : (ninput_ <= 2 ^ logw l)%nat;
  lf_pos : ninput_ <> 0%nat
}.
Lemma ordered_layers_ok tss ni nws ls nterms :
  length nws = length tss -> (forall n, n ∈ ni :: nws -> (N.of_nat n < 2 ^ 32)%N) ->
  Forall (Forall term_u32) tss ->
  @ordered_layers E _ Err tss ni nws (collect_constants tss).2 = Ok ls ->
  foldM (fun n l => k ← @num_terms Err l; mret (n + k)%nat) 0%nat ls = Ok nterms -> (N.of_nat nterms < 2 ^ 32)%N ->
  length ls = length tss /\ forall d ts, tss !! d = Some ts -> exists n l, (ni :: nws) !! d = Some n /\ ls !! d = Some l /\
    layer_of (collect_constants tss).1 ts n l.
Proof.
  intros Hln Hn32 Hu32 Hr Hnt Hsm. unfold ordered_layers in Hr. apply mapM_Ok_inv in Hr.
  pose proof (Forall2_length _ _ _ Hr) as Hlen. rewrite length_zip in Hlen. cbn [length] in Hlen.
  assert (nterms = length (concat tss)) as Hcount.
  { assert (Forall2 (fun p l => @num_terms Err l = Ok (length p.1)) (zip tss (ni :: nws)) ls) as HF.
    { eapply Forall2_impl; [exact Hr|]. intros [ts n] l Hl. apply bind_Ok_inv in Hl as (lw & _ & Hl). rewrite (build_layer_count _ _ _ _ _ Hl).
      cbn [fst]. f_equal. by rewrite merge_sort_Permutation. }
    assert (forall zs ls a r, Forall2 (fun (p : list (Term E) * nat) l => @num_terms Err l = Ok (length p.1)) zs ls ->
      foldM (fun n l => k ← @num_terms Err l; mret (n + k)%nat) a ls = Ok r -> r = (a + length (concat zs.*1))%nat) as Hsum.
    { induction zs as [|z zs IH]; intros ls' a r HF' Hr'.
      - apply Forall2_nil_inv_l in HF' as ->. injection Hr' as <-. cbn. lia.
      - apply Forall2_cons_inv_l in HF' as (l & ls'' & Hl & HF' & ->). cbn [foldM] in Hr'. rewrite Hl in Hr'. cbn [mbind] in Hr'.
        apply (IH ls'') in Hr'; [|done]. rewrite Hr'. cbn. rewrite length_app. lia. }
    rewrite (Hsum _ _ _ _ HF Hnt), fst_zip by (cbn; lia). lia. }
  split; [lia|]. intros d ts Hd. pose proof (lookup_lt_Some _ _ _ Hd) as Hlt.
  destruct (lookup_lt_is_Some_2 (ni :: nws) d) as [n Hn]; [cbn; lia|].
  assert (zip tss (ni :: nws) !! d = Some (ts, n)) as Hz by (rewrite lookup_zip_with, Hd, Hn; done).
  destruct (Forall2_lookup_l _ _ _ _ _ Hr Hz) as (l & Hl & Hb). exists n, l. split; [done|]. split; [done|].
  apply bind_Ok_inv in Hb as (lw & Hlw & Hb).
  assert (N.of_nat (length (concat tss)) <= 2 ^ 32)%N as Hall by lia.
  assert (length ts <= length (concat tss))%nat as Hts.
  { rewrite <- (take_drop_middle tss d ts Hd), concat_app, length_app. cbn. rewrite length_app. lia. }
  assert (Forall term_u32 (merge_sort (le_by compare_term) ts)) as Hu by (rewrite merge_sort_Permutation; by eapply Forall_lookup_1).
  assert (N.of_nat (length (merge_sort (le_by compare_term) ts)) <= 2 ^ 32)%N as Hlts by (rewrite merge_sort_Permutation; lia).
  destruct (build_layer_ok _ _ _ _ _ _ (scheduled_constants_ok tss Hall) Hu Hlts Hb) as (Hwf & Hterms & Hnw & Hlg & _).
  destruct (ceil_log2_bound _ _ Hlw) as [Hle Hsane]; [apply Hn32; by eapply list_elem_of_lookup_2|].
  split; [done|done|done|by rewrite Hlg|by rewrite Hlg|]. intros ->. done.
Qed.

(** ** The circuit of a schedule *)
Record scheduled c circuit nodes depth D (by_depth : list (list nat)) (ids : list N) : Prop := {
  sc_schedules : schedules c circuit nodes depth D by_depth ids;
  sc_layers d : (d < D)%nat -> exists l ts, layers (raw circuit) !! (D - 1 - d)%nat = Some l /\
    layer_of (constants (raw circuit)) ts (level_size nodes by_depth (ninput (raw circuit)) d) l;
  sc_outputs : level_size nodes by_depth (ninput (raw circuit)) D <> 0%nat;
  sc_logv : (noutput (raw circuit) <= 2 ^ logv (raw circuit))%nat /\ sane_logw (logv (raw circuit)) = true;
  sc_public : (npublic_input (raw circuit) <= ninput (raw circuit))%nat /\ (subfield_boundary (raw circuit) <= ninput (raw circuit))%nat
}.
Lemma schedule_ok c quad_asserts npub sub tracker circuit info syms : quad_wf c ->
  @schedule E _ _ Err _ c quad_asserts npub sub tracker = Ok (circuit, info, syms) -> fits info ->
  g_ninput info = ninput (raw circuit) /\ exists nodes depth D by_depth ids, scheduled c circuit nodes depth D by_depth ids.
Proof.
  intros Hwf Hr. unfold schedule in Hr.
  apply bind_Ok_inv in Hr as (u0 & _ & Hr). apply bind_Ok_inv in Hr as (u1 & Hread & Hr).
  apply bind_Ok_inv in Hr as ([[nodes depth] D] & Hdepth & Hr). apply bind_Ok_inv in Hr as (by_depth & Hby & Hr).
  apply bind_Ok_inv in Hr as (ids & Hids & Hr). apply bind_Ok_inv in Hr as (sy & _ & Hr). apply bind_Ok_inv in Hr as (u2 & _ & Hr).
  apply bind_Ok_inv in Hr as ([tss nws] & Hquads & Hr). apply bind_Ok_inv in Hr as (ni & Hni & Hr).
  apply bind_Ok_inv in Hr as (u3 & _ & Hr). apply bind_Ok_inv in Hr as (u4 & Hnpub%rust_assert_Ok%Nat.leb_le & Hr).
  apply bind_Ok_inv in Hr as (u5 & Hsub%rust_assert_Ok%Nat.leb_le & Hr).
  apply bind_Ok_inv in Hr as (nout & Hnout%index_Ok & Hr). apply bind_Ok_inv in Hr as (u6 & _ & Hr).
  destruct (collect_constants tss) as [constants constant_to_idx] eqn:Hconst.
  apply bind_Ok_inv in Hr as (ls & Hls & Hr). apply bind_Ok_inv in Hr as (nterms & Hnt & Hr).
  apply bind_Ok_inv in Hr as (lv & Hlv & Hr). apply bind_Ok_inv in Hr as (cid & _ & [= <- <- <-]).
  unfold fits. cbn [g_ninput g_nwires g_nterms raw]. intros (F1 & F2 & F3). split; [done|].
  pose proof (compute_node_depths_ok _ _ _ _ Hwf Hdepth) as Hlay. destruct (group_by_depth_ok _ _ _ Hby) as [Hbl Hbd].
  pose proof (assign_wire_ids_ok _ _ _ _ _ Hbl Hbd Hids) as Hnum.
  destruct (collect_quads_ok _ _ _ _ _ _ Hbl Hquads) as (Htl & Hnl & Hlevels).
  assert (forall d, (S d <= D)%nat -> exists at_d, by_depth !! S d = Some at_d /\ nws !! d = Some (level_size nodes by_depth ni (S d))) as Hnws.
  { intros d Hd. destruct (lookup_lt_is_Some_2 by_depth (S d)) as [at_d Hat]; [lia|]. exists at_d. split; [done|].
    destruct (Hlevels _ _ Hat) as (ts & _ & Hn & _). cbn. by rewrite Hat. }
  assert (forall d, (d <= D)%nat -> (ni :: nws) !! d = Some (level_size nodes by_depth ni d)) as Hsize.
  { intros [|d] Hd; [done|]. by destruct (Hnws d Hd) as (at_d & _ & Hn). }
  assert (forall n, n ∈ ni :: nws -> (N.of_nat n < 2 ^ 32)%N) as Hn32.
  { intros n [->|Hin]%elem_of_cons; [done|]. apply list_elem_of_lookup in Hin as [j Hj]. apply list_sum_ge in Hj. lia. }
  assert (Forall (Forall term_u32) tss) as Hu32.
  { apply Forall_lookup. intros d ts Hd. pose proof (lookup_lt_Some _ _ _ Hd) as Hlt. destruct (Hnws d ltac:(lia)) as (at_d & Hat & _).
    destruct (Hlevels _ _ Hat) as (ts' & Hts' & _ & Hp). assert (ts' = ts) as -> by congruence. rewrite Hp. apply level_terms_u32. }
  destruct (ordered_layers_ok tss ni nws ls nterms ltac:(lia) Hn32 Hu32 ltac:(by rewrite Hconst) Hnt F3) as [Hll Hlayers].
  rewrite Hconst in Hlayers. cbn [fst] in Hlayers.
  assert (noutput_eq : nout = level_size nodes by_depth ni D).
  { pose proof (ly_pos _ _ _ _ Hlay) as Hpos. destruct (Hnws (D - 1)%nat ltac:(lia)) as (at_d & _ & Hn).
    replace (S (D - 1)) with D in Hn by lia. congruence. }
  assert (forall d, (d < D)%nat -> exists at_d ts l, by_depth !! S d = Some at_d /\ ts ≡ₚ level_terms nodes ids at_d /\
    rev ls !! (D - 1 - d)%nat = Some l /\ layer_of constants ts (level_size nodes by_depth ni d) l) as Hlayer.
  { intros d Hd. destruct (Hnws d Hd) as (at_d & Hat & _). destruct (Hlevels _ _ Hat) as (ts & Hts & _ & Hp).
    destruct (Hlayers d ts Hts) as (n & l & Hn & Hl & Hof). exists at_d, ts, l. split; [done|]. split; [done|].
    replace D with (length ls) by lia. rewrite rev_lookup by lia. split; [done|].
    rewrite Hsize in Hn by lia. by injection Hn as ->. }
  exists nodes, depth, D, by_depth, ids. split; cbn [raw Circuit.constants Circuit.ninput Circuit.noutput Circuit.layers Circuit.logv npublic_input subfield_boundary].
  - split; cbn [raw Circuit.constants Circuit.ninput Circuit.noutput Circuit.layers]; [done| |done|done|done|done| | | | |done].
    + by eapply assert_all_needed_ok.
    + intros i p. by apply input_positions.
    + intros d Hd. apply Hn32. eapply list_elem_of_lookup_2. by apply Hsize.
    + rewrite length_rev. lia.
    + intros d at_d Hd Hat. destruct (Hlayer d Hd) as (at_d' & ts & l & Hat' & Hp & Hl & [Hlwf Hlt Hnw _ _]).
      assert (at_d' = at_d) as -> by congruence. exists l. split; [done|]. split; [done|]. split; [|done].
      rewrite Hlt, merge_sort_Permutation. done.
  - intros d Hd. destruct (Hlayer d Hd) as (at_d & ts & l & _ & _ & Hl & Hof). by exists l, ts.
  - intros Hz. rewrite <- noutput_eq in Hz. subst nout. cbn in Hlv. rewrite Hz in Hlv. done.
  - subst nout. eapply ceil_log2_bound; [exact Hlv|]. apply Hn32. eapply list_elem_of_lookup_2. by apply Hsize.
  - done.
Qed.

(** ** Well-formed for the protocols *)
Section wellformed.
Context c circuit nodes depth D (by_depth : list (list nat)) (ids : list N) (Hsc : scheduled c circuit nodes depth D by_depth ids).
#[local] Abbreviation size := (level_size nodes by_depth (ninput (raw circuit))).
#[local] Lemma Hs : schedules c circuit nodes depth D by_depth ids.
Proof. apply Hsc. Qed.

Lemma wires_size_level d : (d < D)%nat -> wires_size circuit (D - 1 - d) = size d.
Proof.
  intros Hd. unfold wires_size. destruct d as [|d].
  - rewrite lookup_ge_None_2; [done|]. rewrite (sd_length _ _ _ _ _ _ _ Hs). lia.
  - replace (S (D - 1 - S d)) with (D - 1 - d)%nat by lia.
    destruct (layer_at _ _ _ _ _ _ _ Hs d) as (l & -> & _); [lia|]. apply (outputs_size_level _ _ _ _ _ _ _ Hs). lia.
Qed.
Lemma level_nonempty d : (d < D)%nat -> level_terms nodes ids (level by_depth (S d)) <> [].
Proof.
  intros Hd Hnil. assert (size (S d) <> 0%nat) as Hpos.
  { destruct (decide (S d = D)) as [->|]; [apply Hsc|]. destruct (sc_layers _ _ _ _ _ _ _ Hsc (S d)) as (l & ts & _ & Hof); [lia|]. apply Hof. }
  destruct (level_order _ _ _ _ _ _ _ Hs d ltac:(lia)) as (order & _ & Hlen & Hin & _).
  destruct order as [|i order]; [cbn [length] in Hlen; lia|]. assert (live nodes depth (S d) i) as Hl by (apply Hin; by left).
  destruct (live_gate _ _ _ _ _ _ _ Hs d i Hl) as (ts & Hn & Hg & _).
  assert (ts <> []) as Hne.
  { destruct (gate_inv _ _ _ _ _ _ _ Hs _ _ Hn) as (d' & _ & _ & _ & [[Hc _]|(w & _ & ->)]); [|done].
    by destruct (ly_sum _ _ _ _ (sd_layered _ _ _ _ _ _ _ Hs) _ _ Hc) as (_ & ? & _). }
  destruct ts as [|q ts]; [done|]. apply (not_elem_of_nil (gate_term ids (id_of ids i) q)). rewrite <- Hnil.
  unfold level_terms. apply list_elem_of_In, in_flat_map. exists (i, q :: ts). split; [by apply list_elem_of_In|by left].
Qed.
Lemma layer_facts k l : layers (raw circuit) !! k = Some l -> exists d, (d < D)%nat /\ k = (D - 1 - d)%nat /\
  layer_terms l (constants (raw circuit)) ≡ₚ level_terms nodes ids (level by_depth (S d)) /\
  exists ts, layer_of (constants (raw circuit)) ts (size d) l.
Proof.
  intros Hl. pose proof (lookup_lt_Some _ _ _ Hl) as Hlt. rewrite (sd_length _ _ _ _ _ _ _ Hs) in Hlt.
  exists (D - 1 - k)%nat. split; [lia|]. split; [lia|]. assert (D - 1 - (D - 1 - k) = k)%nat as Hk by lia.
  destruct (layer_at _ _ _ _ _ _ _ Hs (D - 1 - k)) as (l1 & Hl1 & _ & Hp & _); [lia|].
  destruct (sc_layers _ _ _ _ _ _ _ Hsc (D - 1 - k)) as (l2 & ts & Hl2 & Hof); [lia|]. rewrite Hk in Hl1, Hl2.
  assert (l1 = l) as -> by congruence. assert (l2 = l) as -> by congruence. split; [done|]. by exists ts.
Qed.
Lemma scheduled_wires_ok : wires_ok circuit.
Proof.
  intros k l Hl. destruct (layer_facts k l Hl) as (d & Hd & -> & Hp & _). rewrite Hp, wires_size_level by done.
  apply Forall_forall. intros t Ht. destruct (terms_live _ _ _ _ _ _ _ Hs d t Hd Ht) as (i & ts & q & _ & _ & _ & -> & Hx & Hy).
  destruct (live_id _ _ _ _ _ _ _ Hs d _ ltac:(lia) Hx) as [Ex Lx], (live_id _ _ _ _ _ _ _ Hs d _ ltac:(lia) Hy) as [Ey Ly].
  destruct (gate_term_fields ids (id_of ids i) q) as (_ & _ & [[-> ->]|[-> ->]]); destruct q as [[e x] y]; cbn [fst snd] in *; rewrite Ex, Ey; done.
Qed.
Lemma scheduled_circuit_ok : circuit_ok circuit.
Proof.
  pose proof (ly_pos _ _ _ _ (sd_layered _ _ _ _ _ _ _ Hs)) as Hpos. split; [|apply Hsc..|].
  - intros Hnil. pose proof (sd_length _ _ _ _ _ _ _ Hs) as HD. rewrite Hnil in HD. cbn in HD. lia.
  - intros k l Hl. destruct (layer_facts k l Hl) as (d & Hd & -> & Hp & ts & [Hwf Ht Hnw Hlg Hsz Hnz]). split; [done|done|..].
    + by rewrite wires_size_level.
    + rewrite wires_size_level by done. apply (sd_small _ _ _ _ _ _ _ Hs). lia.
    + intros Hnil. rewrite Hnil in Hp. symmetry in Hp. apply Permutation_nil_r in Hp. by apply level_nonempty in Hp.
    + rewrite Hp, (outputs_size_level _ _ _ _ _ _ _ Hs) by done. apply Forall_forall. intros t Hin.
      destruct (terms_live _ _ _ _ _ _ _ Hs d t Hd Hin) as (i & ts' & q & _ & Hi & _ & -> & _).
      destruct (gate_term_fields ids (id_of ids i) q) as (_ & -> & _). by destruct (live_id _ _ _ _ _ _ _ Hs (S d) i ltac:(lia) Hi) as [-> Hlt].
    + rewrite Ht. apply sorted_terms_morton.
Qed.
End wellformed.

(** ** The scheduler panics or succeeds *)
Lemma schedule_no_err c quad_asserts npub sub tracker : no_err (@schedule E _ _ Err _ c quad_asserts npub sub tracker).
Proof.
  unfold schedule. no_err; unfold symbol_of, quad_term, validate_and_count_inputs, check_layer, visit_term, depth_of_node, materialize, rename_term, id_put_const, id_put; cbv zeta; no_err.
Qed.
End run.

(** * Running the compiler

    The passes of [compile] in sequence: a program that compiles has a
    circuit that evaluates exactly on the inputs satisfying the program. *)

Section compile.
Context {E : Type} `{AlgebraicFieldLaws E} `{SerializableFieldLaws E} `{!Comparable E} `{HashOrder} `{!HashOrderLaws} `{Sha256}.
Import compiler.

(** A program: an arena whose nodes point to older nodes, and roots in it. *)
Record program_ok (src : Program (E:=E)) : Prop := {
  po_arena : arena_wf (source_arena src);
  po_roots : Forall (fun it => ai_expr it < length (source_arena src)) (assertions src)
}.
(** The circuit stands for the program. *)
Record compiled (src : Program (E:=E)) (circuit : Circuit E) : Prop := {
  cd_circuit : circuit_ok circuit;
  cd_wires : wires_ok circuit;
  cd_public : npublic_input (raw circuit) = p_npublic_input src /\ npublic_input (raw circuit) <= ninput (raw circuit);
  cd_boundary : subfield_boundary (raw circuit) = p_subfield_boundary src /\ subfield_boundary (raw circuit) <= ninput (raw circuit);
  cd_eval inputs : length inputs = ninput (raw circuit) -> at0 inputs 0 = 1%fe ->
    (exists ls, eval_circuit inputs circuit = Ok ls) <-> satisfied (at0 inputs) (source_arena src) (assertions src)
}.

Lemma schedule_fields (c : list (quad.WExpr E)) quad_asserts npub sub tracker circuit info syms :
  scheduler.schedule (Err:=fuel_error) c quad_asserts npub sub tracker = Ok (circuit, info, syms) ->
  npublic_input (raw circuit) = npub /\ subfield_boundary (raw circuit) = sub.
Proof.
  unfold scheduler.schedule. intros Hr. repeat (apply bind_Ok_inv in Hr as (? & _ & Hr); repeat case_match); by injection Hr as <- <- <-.
Qed.

(** The passes before the scheduler. *)
Lemma front_end_ok (src : Program (E:=E)) items1 t1 s1 items2 s2 ns asserts t2 : program_ok src ->
  assertion.rewrite (source_arena src) (assertions src) (source_tracker src) empty_arena = Ok (items1, t1, s1) ->
  copy.rewrite (arena s1) items1 empty_arena = Ok (items2, s2) ->
  ir_to_quad.rewrite (arena s2) items2 t1 = Ok (ns, asserts, t2) ->
  quad_wf ns /\ forall inp, inp 0 = 1%fe -> all_asserted inp ns <-> satisfied inp (source_arena src) (assertions src).
Proof.
  intros [Hwf Hroots] H1' H2' H3'. pose proof (rewrite_ok true _ _ (source_tracker src) Hwf Hroots) as R1.
  unfold wp in R1. rewrite H1' in R1. destruct R1 as [Hi1 Hk1 _ Hs1]. cbn [fst] in *.
  pose proof (copy_rewrite_ok true items1 s1 Hi1 Hk1 ltac:(done)) as R2. unfold wp in R2. rewrite H2' in R2. destruct R2 as [Hi2 Hf2].
  assert (Forall (fun it => known s2 (ai_expr it)) items2) as Hk2 by (eapply Forall2_Forall_r; [exact Hf2|]; by intros it it' (_ & ? & _)).
  pose proof (rewrite_translates true s2 Hi2 items2 t1 Hk2) as R3. rewrite H3' in R3. destruct R3 as [Hq _ Hs3].
  split; [done|]. intros inp Hone. rewrite Hs3, <- Hs1 by done. apply zeros_same. eapply Forall2_impl; [exact Hf2|]. by intros it it' (_ & _ & ?).
Qed.

Lemma compile_spec (src : Program (E:=E)) : program_ok src ->
  match compile src with
  | Ok (circuit, info, _) => g_ninput info = ninput (raw circuit) /\ (fits info -> compiled src circuit)
  | Err _ => False
  | Panic => True
  end.
Proof.
  intros Hsrc. pose proof Hsrc as [Hwf Hroots]. unfold compile.
  pose proof (rewrite_ok true _ _ (source_tracker src) Hwf Hroots) as R1. unfold wp in R1.
  destruct (assertion.rewrite (source_arena src) (assertions src) (source_tracker src) empty_arena) as [[[items1 t1] s1]| |] eqn:H1'; [|done..].
  cbn [mbind outcome_bind]. destruct R1 as [Hi1 Hk1 _ _]. cbn [fst] in *.
  pose proof (copy_rewrite_ok true items1 s1 Hi1 Hk1 ltac:(done)) as R2. unfold wp in R2.
  destruct (copy.rewrite (arena s1) items1 empty_arena) as [[items2 s2]| |] eqn:H2'; [|done..]. cbn [mbind outcome_bind]. destruct R2 as [Hi2 Hf2].
  assert (Forall (fun it => known s2 (ai_expr it)) items2) as Hk2 by (eapply Forall2_Forall_r; [exact Hf2|]; by intros it it' (_ & ? & _)).
  pose proof (rewrite_translates true s2 Hi2 items2 t1 Hk2) as R3.
  destruct (ir_to_quad.rewrite (arena s2) items2 t1) as [[[ns asserts] t2]| |] eqn:H3'; [|done..]. cbn [mbind outcome_bind]. clear R3.
  destruct (front_end_ok _ _ _ _ _ _ _ _ _ Hsrc H1' H2' H3') as [Hq Hall].
  pose proof (schedule_no_err (Err:=fuel_error) ns asserts (p_npublic_input src) (p_subfield_boundary src) t2) as Hne.
  destruct (scheduler.schedule ns asserts (p_npublic_input src) (p_subfield_boundary src) t2) as [[[circuit info] syms]| |] eqn:Hr; [|done..].
  cbn [mbind outcome_bind]. destruct (Nat.ltb 0 (g_ninput info)); [|done]. cbn [rust_assert]. mstep.
  destruct (Nat.ltb 0 (g_nterms info)); [|done]. cbn [rust_assert]. mstep. cbn [mret outcome_ret].
  assert (g_ninput info = ninput (raw circuit)) as Hni.
  { clear -Hr. unfold scheduler.schedule in Hr. repeat (apply bind_Ok_inv in Hr as (? & _ & Hr); repeat case_match). by injection Hr as <- <- <-. }
  split; [done|]. intros Hfit. destruct (schedule_ok _ _ _ _ _ _ _ _ Hq Hr Hfit) as (_ & nodes & depth & D & by_depth & ids & Hsc).
  destruct (schedule_fields _ _ _ _ _ _ _ _ Hr) as [Hp Hb]. destruct (sc_public _ _ _ _ _ _ _ Hsc) as [Hpl Hbl].
  split; [by eapply scheduled_circuit_ok|by eapply scheduled_wires_ok|done|done|].
  intros inputs Hi Hone. rewrite <- Hall by done. by eapply schedules_evaluate; [apply Hsc|].
Qed.
End compile.
