(* ===== verification/CompilerTheorems.v ===== *)
(** * Theorems: the circuit compiler

    From a source program to a circuit: what each pass preserves, and the
    compiler end to end, down to proofs about the source program. *)
From stdpp Require Import prelude gmap sorting strings.
From Stdlib Require Import Lia NArith.
From S2P Require Import Prelude Words Interfaces DeltaTable Util Circuit Merkle Gf2_128 Field FieldFacts Gf2_128Facts Interpolation Transcript TranscriptTheorems SumcheckProof SumcheckV1 SumcheckProtocol SumcheckProofFacts SumcheckLayer EvalFacts Completeness Gf2_128Sampling CompletenessTheorems RangeInterpolation Ligero TableauFacts LigeroBatch LigeroChecks LigeroSamples ZkV1 ZkV1Facts ZkComplete ZkVerify ZkTheorems Scope CompilerIR CompilerPasses CompilerSem CseFacts RewriterFacts AlgsimpFacts CopyFacts Quad SchedulerV1 QuadFacts LayerBuild SchedulerSound SchedulerRun.

Section compile.
Context {E : Type} `{AlgebraicFieldLaws E} `{SerializableFieldLaws E} `{!Comparable E} `{HashOrder} `{!HashOrderLaws} `{Sha256}.

(** C8: simplification.  On every arena whose nodes point to older nodes,
    stripping the nested assertions and simplifying the expressions below
    them terminates, never panics and never runs out of fuel; no two of the
    assertions it returns name one node, its nodes are in normal form without
    wrappers, and for every assignment of the inputs they are zero exactly
    when the assertions of the source hold, those attached to nodes below
    other assertions included. *)
Theorem simplify_sound (src : list (Node E)) items tracker :
  arena_wf src -> Forall (fun it => ai_expr it < length src) items ->
  exists items' tracker' s, assertion.rewrite src items tracker empty_arena = Ok (items', tracker', s) /\
    NoDup (map ai_expr items') /\ inv (normal no_wrappers) s /\
    forall inp, zeros inp (arena s) items' <-> satisfied inp src items.
Proof.
  intros Hwf Hr. pose proof (rewrite_ok false src items tracker Hwf Hr) as Hw. unfold wp in Hw.
  destruct (assertion.rewrite src items tracker empty_arena) as [[[items' t'] s]| |]; [|done..].
  destruct Hw as [Hi Hk Hd Hs]. by exists items', t', s.
Qed.

(** C6: scheduling.  A quadratic circuit whose wires point to older wires is
    either refused by a panic or scheduled: within the limits of the
    encoding, the circuit is well-formed for the protocols, every wire its
    terms name exists, and evaluation succeeds on an input exactly when every
    assertion of the quadratic circuit holds on it. *)
Theorem schedule_correct (c : list (quad.WExpr E)) quad_asserts npub sub tracker :
  quad_wf c ->
  match scheduler.schedule (Err:=fuel_error) c quad_asserts npub sub tracker with
  | Ok (circuit, info, _) => fits info ->
      circuit_ok circuit /\ wires_ok circuit /\ g_ninput info = ninput (raw circuit) /\
      forall inputs, length inputs = ninput (raw circuit) ->
        (exists ls, eval_circuit inputs circuit = Ok ls) <-> all_asserted (at0 inputs) c
  | Err _ => False
  | Panic => True
  end.
Proof.
  intros Hwf. pose proof (schedule_no_err (Err:=fuel_error) c quad_asserts npub sub tracker) as Hne.
  destruct (scheduler.schedule c quad_asserts npub sub tracker) as [[[circuit info] syms]| |] eqn:Hr; [|done..].
  intros Hfit. destruct (schedule_ok _ _ _ _ _ _ _ _ Hwf Hr Hfit) as (Hni & nodes & depth & D & by_depth & ids & Hsc).
  split; [by eapply scheduled_circuit_ok|]. split; [by eapply scheduled_wires_ok|]. split; [done|].
  intros inputs Hi. by eapply schedules_evaluate; [apply Hsc|].
Qed.

(** C3: the compiler.  A program whose nodes point to older nodes either is
    refused by a panic or compiles; it never runs out of fuel.  Within the
    limits of the encoding the circuit is well-formed for the protocols and,
    for every input vector that starts with one, evaluation succeeds exactly
    when every assertion of the source program holds. *)
Theorem compile_correct (src : compiler.Program (E:=E)) :
  program_ok src ->
  match compiler.compile src with
  | Ok (circuit, info, _) => fits info ->
      circuit_ok circuit /\ wires_ok circuit /\ g_ninput info = ninput (raw circuit) /\
      npublic_input (raw circuit) = compiler.p_npublic_input src /\
      forall inputs, length inputs = ninput (raw circuit) -> at0 inputs 0 = fone ->
        (exists ls, eval_circuit inputs circuit = Ok ls) <->
        satisfied (at0 inputs) (compiler.source_arena src) (compiler.assertions src)
  | Err _ => False
  | Panic => True
  end.
Proof.
  intros Hsrc. pose proof (compile_spec src Hsrc) as Hc.
  destruct (compiler.compile src) as [[[circuit info] syms]| |]; [|done..]. destruct Hc as [Hni Hc]. intros Hfit.
  destruct (Hc Hfit) as [H1' H2' [H3' _] _ H4']. done.
Qed.
End compile.

Section proofs.
Context {E : Type} `{AF : AlgebraicField E} `{!AlgebraicFieldLaws E} `{!RuntimeField E} `{!RuntimeFieldLaws E} `{!InterpolationField E}.
Context (N0 : nat) `{!InterpolationFieldLaws E N0}.
Context `{SF : SerializableField E} `{!SerializableFieldLaws E} `{SS : SupportsSampling E}.
Context `{SU : Subfield E} `{RI : !RangeInterpolatorFactory E} `{!RangeInterpolatorLaws E}.
Context `{SHL : Sha256Laws} `{AE : Aes256} `{!SamplingLaws E}.
Context `{!Comparable E} `{HashOrder} `{!HashOrderLaws}.

(** C2: from a program to a proof.  When a program compiles within the
    limits of the encoding, for public and private inputs that satisfy every
    assertion of the program (the first input being one, private inputs below
    the boundary in the subfield) and Ligero parameters that fit, [commit]
    and [prove] succeed on the compiled circuit and [verify] accepts the
    proof, unless the opened columns cannot be drawn. *)
Theorem program_proved {G} `{RandomEngine G} (src : compiler.Program (E:=E)) circuit info syms config p pubs wit (ts : Transcript) (rng : G) :
  3 <= N0 -> serialized_size_bytes (E:=E) <= 128 -> program_ok src ->
  compiler.compile src = Ok (circuit, info, syms) -> fits info ->
  length pubs = compiler.p_npublic_input src -> length wit = ninput (raw circuit) - compiler.p_npublic_input src ->
  at0 (pubs ++ wit) 0 = fone ->
  satisfied (at0 (pubs ++ wit)) (compiler.source_arena src) (compiler.assertions src) ->
  Forall (fun e => sf_contains e = true) (take (compiler.p_subfield_boundary src - compiler.p_npublic_input src) wit) ->
  (exists n, serialized_elements (from_circuit circuit) = Ok n) ->
  param.try_new (E:=E) (length wit + pad_total (from_circuit circuit)) (length (layers (raw circuit))) config = Some p ->
  0 < cfg_nreq config ->
  (forall g : G, exists (e : E) g', elt_field g = Ok (e, g')) ->
  (forall g : G, exists (e : E) g', elt_subfield g = Ok (e, g') /\ sf_contains e = true) ->
  engine_ok (rng_bytes (G:=G)) ->
  (forall t, pseudorandom_generator t = None -> can_draw (E:=E) (zk_draws p circuit) t) ->
  let zp := {| zp_circuit := circuit; zp_config := config |} in
  let zv := {| zv_circuit := circuit; zv_config := config |} in
  exists ci geom ts0 rng', zk_prover.commit zp wit ts rng = Ok (ci, geom, ts0, rng') /\
    exists ts1, forall fuel,
      match ligero_transcript.gen_idx fuel p ts1 with
      | Ok (idx, ts') => exists zkp,
          zk_prover.prove fuel zp pubs wit ci ts0 = Ok (zkp, ts') /\
          zk_verifier.recv_commitment (Err:=zk_outcome) zv zkp ts = Ok ts0 /\
          zk_verifier.verify fuel zv pubs zkp ts0 = Ok ts'
      | Err e => zk_prover.prove fuel zp pubs wit ci ts0 = Err (Stuck e)
      | Panic => zk_prover.prove fuel zp pubs wit ci ts0 = Panic
      end.
Proof.
  intros HN Hsize Hsrc Hc Hfit Hp Hw Hone Hsat Hsub Hser Hpar Hnreq Hf Hsf He Hd zp zv.
  pose proof (compile_spec src Hsrc) as Hspec. rewrite Hc in Hspec. destruct Hspec as [_ Hspec].
  destruct (Hspec Hfit) as [Hcirc _ [Hpub Hpl] [Hbnd Hbl] Heval].
  assert (zk_ok circuit config p pubs wit) as Hzk.
  { split; [done|done|done|by rewrite Hpub, <- Hw|done|by rewrite Hpub|by rewrite Hpub|by rewrite Hpub, Hbnd|].
    apply Heval; [rewrite length_app; lia|done|done]. }
  destruct (zk_run N0 HN Hsize circuit config p pubs wit ts rng Hzk Hf Hsf He Hd) as (ci & geom & ts0 & rng' & Hcm & _ & ts1 & Hrun).
  by exists ci, geom, ts0, rng'; split; [|exists ts1].
Qed.
End proofs.

(** ** Programs over GF(2^128) *)
#[local] Existing Instances toy_sha256 toy_sha256_laws toy_aes toy_aes_laws.
#[local] Instance toy_compare : Comparable Gf2_128 := fun a b => cmp_bytes (to_bytes a) (to_bytes b).
#[local] Instance toy_order : HashOrder := map snd.
#[local] Instance toy_order_laws : HashOrderLaws.
Proof. intros l. reflexivity. Qed.
#[local] Instance toy_generator : RandomEngine N := toy_engine.

Module Programs.
(** What the builder leaves when it runs a program. *)
Definition build (m : comp Gf2_128 (list AssertionItem * AssertionScope)) : compiler.Program (E:=Gf2_128) :=
  match m empty_arena with
  | Ok ((items, tracker), s) =>
      {| compiler.source_arena := arena s; compiler.assertions := items; compiler.source_tracker := tracker;
         compiler.p_npublic_input := 1; compiler.p_subfield_boundary := 0 |}
  | _ => {| compiler.source_arena := []; compiler.assertions := []; compiler.source_tracker := scope.new;
            compiler.p_npublic_input := 0; compiler.p_subfield_boundary := 0 |}
  end.
(** [x * y = z] *)
Definition product : compiler.Program := build (
  x ← logic.input 1; y ← logic.input 2; z ← logic.input 3; xy ← logic.mul x y; d ← logic.sub xy z;
  logic.assert0 scope.new "product" d).
(** [x * y = 0], attached to [x], and [(y * x)^2 + x = 0]. *)
Definition attached : compiler.Program := build (
  x ← logic.input 1; y ← logic.input 2; s ← logic.mul x y;
  '(a, t) ← logic.assert0 scope.new "attached" s;
  w ← logic.with_assertions a x; d ← logic.mul y w; d2 ← logic.mul d d; e ← logic.add d2 w;
  logic.assert0 t "root" e).
(** [x + y + (x + y)], the second sum kept as a wire. *)
Definition precious_copy : compiler.Program := build (
  x ← logic.input 1; y ← logic.input 2; s ← logic.add x y; p ← logic.precious s; d ← logic.sum [x; y; p];
  logic.assert0 scope.new "copy" d).
(** [x - x], the second [x] carrying the assertion [x * y = 0]. *)
Definition cancelled : compiler.Program := build (
  x ← logic.input 1; y ← logic.input 2; s ← logic.mul x y;
  '(a, t) ← logic.assert0 scope.new "attached" s;
  w ← logic.with_assertions a x; d ← logic.sub x w;
  logic.assert0 t "root" d).
End Programs.

Definition arena_wf_b (a : list (Node Gf2_128)) : bool :=
  forallb (fun '(i, n) => forallb (fun c => Nat.ltb c i) (children_of (v n))) (imap pair a).
Lemma arena_wf_check (a : list (Node Gf2_128)) : arena_wf_b a = true -> arena_wf a.
Proof.
  unfold arena_wf_b. intros Hb i n Hi. rewrite forallb_forall in Hb.
  assert (In (i, n) (imap pair a)) as Hin.
  { apply list_elem_of_In, list_elem_of_lookup. exists i. by rewrite list_lookup_imap, Hi. }
  specialize (Hb _ Hin). cbn in Hb. rewrite forallb_forall in Hb. apply Forall_forall. intros c Hc.
  apply Nat.ltb_lt, Hb. by apply list_elem_of_In.
Qed.
Lemma program_check (src : compiler.Program (E:=Gf2_128)) :
  arena_wf_b (compiler.source_arena src) && forallb (fun it => Nat.ltb (ai_expr it) (length (compiler.source_arena src))) (compiler.assertions src) = true ->
  program_ok src.
Proof.
  intros [Ha Hr]%andb_true_iff. split; [by apply arena_wf_check|]. rewrite forallb_forall in Hr.
  apply Forall_forall. intros it Hit. apply Nat.ltb_lt, Hr. by apply list_elem_of_In.
Qed.
Lemma attached_ok : program_ok Programs.attached.
Proof. apply program_check. vm_compute. reflexivity. Qed.
Lemma product_ok : program_ok Programs.product.
Proof. apply program_check. vm_compute. reflexivity. Qed.

(** *** The programs the compiler refuses *)
(** A sum flattened next to a wire that copies it: the copy pass makes two
    equal terms of it and the scheduler panics. *)
Lemma precious_copy_panics : program_ok Programs.precious_copy /\ compiler.compile Programs.precious_copy = Panic.
Proof. split; [apply program_check|]; vm_compute; reflexivity. Qed.
(** A root that simplifies to zero once its assertions are stripped. *)
Lemma cancelled_panics : program_ok Programs.cancelled /\ compiler.compile Programs.cancelled = Panic.
Proof. split; [apply program_check|]; vm_compute; reflexivity. Qed.

(** ** Witnesses *)
Definition attached_first := match @assertion.rewrite Gf2_128 _ elt_eq_dec _ _ (compiler.source_arena Programs.attached) (compiler.assertions Programs.attached)
  (compiler.source_tracker Programs.attached) empty_arena with Ok (items, _, s) => (items, arena s) | _ => ([], []) end.
Lemma simplify_sound_witness :
  length attached_first.1 = 2 /\
  forall inp, zeros inp attached_first.2 attached_first.1 <->
    satisfied inp (compiler.source_arena Programs.attached) (compiler.assertions Programs.attached).
Proof.
  destruct (simplify_sound (compiler.source_arena Programs.attached) (compiler.assertions Programs.attached) (compiler.source_tracker Programs.attached)
    (po_arena _ attached_ok) (po_roots _ attached_ok)) as (items & t & s & Hr & _ & _ & Hs).
  split; [vm_compute; reflexivity|]. unfold attached_first. rewrite Hr. exact Hs.
Defined.

Definition fits_b (info : CircuitGeometry) : bool :=
  ((N.of_nat (g_ninput info) <? 2 ^ 32) && (N.of_nat (g_nwires info) <? 2 ^ 32) && (N.of_nat (g_nterms info) <? 2 ^ 32))%N.
Lemma fits_check info : fits_b info = true -> fits info.
Proof. intros [[?%N.ltb_lt ?%N.ltb_lt]%andb_true_iff ?%N.ltb_lt]%andb_true_iff. done. Qed.
Definition compiled_product :=
  match compiler.compile Programs.product with Ok r => Some r | _ => None end.
Definition product_circuit : Circuit Gf2_128 :=
  match compiled_product with Some (c, _, _) => c
  | None => {| raw := {| ninput := 0; npublic_input := 0; noutput := 0; logv := 0; subfield_boundary := 0; constants := []; layers := [] |}; id := [] |} end.
Lemma product_compiles : exists info syms, compiler.compile Programs.product = Ok (product_circuit, info, syms) /\ fits info.
Proof.
  assert (match compiler.compile Programs.product with Ok (_, info, _) => fits_b info | _ => false end = true) as Hb by (vm_compute; reflexivity).
  unfold product_circuit, compiled_product. destruct (compiler.compile Programs.product) as [[[c info] syms]| |]; [|done..].
  exists info, syms. split; [done|]. by apply fits_check.
Qed.
Lemma compile_correct_witness :
  ninput (raw product_circuit) = 4 /\ length (layers (raw product_circuit)) = 1 /\
  forall inputs, length inputs = 4 -> at0 inputs 0 = gf 1 ->
    (exists ls, eval_circuit inputs product_circuit = Ok ls) <->
    satisfied (at0 inputs) (compiler.source_arena Programs.product) (compiler.assertions Programs.product).
Proof.
  split; [vm_compute; reflexivity|]. split; [vm_compute; reflexivity|].
  pose proof (compile_correct Programs.product product_ok) as Hc. destruct product_compiles as (info & syms & Hr & Hfit). rewrite Hr in Hc.
  destruct (Hc Hfit) as (_ & _ & _ & _ & He). intros inputs Hi Hone. apply He; [|exact Hone]. rewrite Hi. vm_compute. reflexivity.
Defined.

(** One gate: the product of two wires equals the third. *)
Definition one_gate : list (quad.WExpr Gf2_128) :=
  [quad.Input 0; quad.Input 1; quad.Input 2; quad.Input 3; quad.Sum [(gf 1, 1, 2); (gf 1, 0, 3)]; quad.Assert0 4].
Lemma one_gate_wf : quad_wf one_gate.
Proof.
  intros i n Hi. do 6 (destruct i as [|i]; [injection Hi as <-; split; [discriminate|]; repeat constructor; lia|]). discriminate.
Qed.
Definition scheduled_gate := scheduler.schedule (Err:=fuel_error) one_gate [(5, 0)] 1 0 scope.new.
Lemma schedule_correct_witness :
  match scheduled_gate with
  | Ok (circuit, info, _) => ninput (raw circuit) = 4 /\ circuit_ok circuit /\
      forall inputs, length inputs = 4 -> (exists ls, eval_circuit inputs circuit = Ok ls) <-> all_asserted (at0 inputs) one_gate
  | _ => False
  end.
Proof.
  assert (match scheduled_gate with Ok (c, info, _) => Nat.eqb (ninput (raw c)) 4 && fits_b info | _ => false end = true) as Hb by (vm_compute; reflexivity).
  pose proof (schedule_correct one_gate [(5, 0)] 1 0 scope.new one_gate_wf) as Hs. unfold scheduled_gate in *.
  destruct (scheduler.schedule one_gate [(5, 0)] 1 0 scope.new) as [[[c info] syms]| |]; [|discriminate Hb..].
  apply andb_true_iff in Hb as [Hn%Nat.eqb_eq Hb]. destruct (Hs (fits_check _ Hb)) as (Hc & _ & _ & He).
  split; [exact Hn|]. split; [exact Hc|]. intros inputs Hi. apply He. rewrite Hn. exact Hi.
Defined.

Definition product_pubs : list Gf2_128 := [gf 1].
Definition product_wit : list Gf2_128 := [gf 2; gf 3; gf 6].
Definition product_pads : nat := Eval vm_compute in pad_total (from_circuit product_circuit).
Definition product_param : LigeroParam := param.layout_of (3 + product_pads) 1 Product.config 2.
Lemma product_satisfied : satisfied (at0 (product_pubs ++ product_wit)) (compiler.source_arena Programs.product) (compiler.assertions Programs.product).
Proof.
  assert (forallb (fun it => is_zero (value (at0 (product_pubs ++ product_wit)) (compiler.source_arena Programs.product) (ai_expr it)))
    (compiler.assertions Programs.product) = true) as Hz by (vm_compute; reflexivity).
  assert (forallb (fun n => match v n with WithAssertions _ _ => false | _ => true end) (compiler.source_arena Programs.product) = true) as Hw by (vm_compute; reflexivity).
  rewrite forallb_forall in Hz, Hw. split.
  - intros it Hit. apply is_zero_spec, Hz. by apply list_elem_of_In.
  - intros x l z _ Hx. unfold expr_at in Hx. apply fmap_Some in Hx as (n & Hn & Hv).
    specialize (Hw n ltac:(apply list_elem_of_In; by eapply list_elem_of_lookup_2)). rewrite <- Hv in Hw. discriminate Hw.
Qed.
Lemma program_proved_witness :
  let zp := {| zp_circuit := product_circuit; zp_config := Product.config |} in
  let zv := {| zv_circuit := product_circuit; zv_config := Product.config |} in
  exists ci geom ts0 rng', zk_prover.commit zp product_wit (Transcript_new [x2a]) 7%N = Ok (ci, geom, ts0, rng') /\
    exists ts1, forall fuel,
      match ligero_transcript.gen_idx fuel product_param ts1 with
      | Ok (idx, ts') => exists zkp,
          zk_prover.prove fuel zp product_pubs product_wit ci ts0 = Ok (zkp, ts') /\
          zk_verifier.recv_commitment (Err:=zk_outcome) zv zkp (Transcript_new [x2a]) = Ok ts0 /\
          zk_verifier.verify fuel zv product_pubs zkp ts0 = Ok ts'
      | _ => True
      end.
Proof.
  destruct product_compiles as (info & syms & Hr & Hfit).
  assert (exists n, serialized_elements (from_circuit product_circuit) = Ok n) as Hser by (eexists; vm_compute; reflexivity).
  assert (param.try_new (E:=Gf2_128) (length product_wit + pad_total (from_circuit product_circuit)) (length (layers (raw product_circuit))) Product.config
    = Some product_param) as Hpar by (vm_compute; reflexivity).
  assert (length product_wit = ninput (raw product_circuit) - compiler.p_npublic_input Programs.product) as Hwit by (vm_compute; reflexivity).
  destruct (program_proved 6 Programs.product product_circuit info syms Product.config product_param product_pubs product_wit (Transcript_new [x2a]) 7%N)
    as (ci & geom & ts0 & rng' & Hc & ts1 & Hrun).
  - lia.
  - vm_compute. lia.
  - exact product_ok.
  - exact Hr.
  - exact Hfit.
  - vm_compute. reflexivity.
  - exact Hwit.
  - vm_compute. reflexivity.
  - exact product_satisfied.
  - constructor.
  - exact Hser.
  - exact Hpar.
  - cbn. lia.
  - exact toy_elements.
  - exact toy_sub_elements.
  - exact toy_rng_total.
  - intros t Ht. apply can_draw_fresh; [exact Ht|vm_compute; lia].
  - exists ci, geom, ts0, rng'. split; [exact Hc|]. exists ts1. intros fuel. specialize (Hrun fuel).
    destruct (ligero_transcript.gen_idx fuel product_param ts1) as [[idx ts']| |]; [exact Hrun|exact I|exact I].
Defined.
