(* ===== verification/Logic.v ===== *)
(** * The logic interface ([src/rust/compile/logic/src/logic.rs])

    A circuit is written once against the trait [Logic] and run by a backend
    that evaluates it or compiles it.  [LogicLaws] is what the circuits rely
    on: how the operations act on the values of wires and what an assertion
    stands for. *)
From stdpp Require Import prelude strings pretty.
From Stdlib Require Import Lia NArith Ring Ring_theory.
From S2P Require Import Prelude Words Interfaces Field FieldFacts CompilerIR.

(** ** Computations of a backend

    A backend has a state (an arena, an assertion tracker); building a circuit
    may panic. *)
Definition lcomp (St A : Type) : Type := St -> outcome fuel_error (A * St).
#[export] Instance lcomp_ret {St} : MRet (lcomp St) := fun A a s => Ok (a, s).
#[export] Instance lcomp_bind {St} : MBind (lcomp St) := fun A B k m s =>
  match m s with Ok (a, s') => k a s' | Err e => Err e | Panic => Panic end.
Definition lift_l {St A} (m : outcome fuel_error A) : lcomp St A := fun s => a ← m; Ok (a, s).
(** [assert!(b)] *)
Definition assert_l {St} (b : bool) : lcomp St unit := lift_l (rust_assert b).

Fixpoint foldL {St S X} (body : S -> X -> lcomp St S) (st : S) (xs : list X) : lcomp St S :=
  match xs with
  | [] => mret st
  | x :: xs => st ← body st x; foldL body st xs
  end.

(** ** [util/src/array.rs]

    The functions passed to them build circuits. *)
Module array.
Section array.
Context {St : Type}.

Fixpoint recur {T R} (fuel : nat) (f : R -> R -> lcomp St R) (base : T -> lcomp St R)
    (a : list T) (i0 i1 : nat) : lcomp St R :=
  if 1 <? i1 - i0 then
    match fuel with
    | O => lift_l (Err OutOfFuel)
    | S fuel =>
        let im := i0 + (i1 - i0) / 2 in
        l ← recur fuel f base a i0 im;
        r ← recur fuel f base a im i1;
        f l r
    end
  else if i1 - i0 =? 1 then x ← lift_l (index a i0); base x
  else lift_l Panic.
(** The length halves at each level. *)
Definition tree_fold {T R} (a : list T) (f : R -> R -> lcomp St R) (base : T -> lcomp St R) : lcomp St R :=
  assert_l (negb (length a =? 0)) ;; recur (length a) f base a 0 (length a).
Definition tree_fold2 {T1 T2 R} (a : list T1) (b : list T2) (f : R -> R -> lcomp St R)
    (base : T1 -> T2 -> lcomp St R) : lcomp St R :=
  assert_l (length a =? length b) ;;
  assert_l (negb (length a =? 0)) ;;
  recur (length a) f (fun p => base p.1 p.2) (zip a b) 0 (length a).

Definition init {T} (n : nat) (f : nat -> lcomp St T) : lcomp St (list T) := mapM f (seq 0 n).
Definition map {T R} (a : list T) (f : T -> lcomp St R) : lcomp St (list R) := mapM f a.
Definition map2 {T1 T2 R} (a : list T1) (b : list T2) (f : T1 -> T2 -> lcomp St R) : lcomp St (list R) :=
  assert_l (length a =? length b) ;;
  mapM (fun i => x ← lift_l (index a i); y ← lift_l (index b i); f x y) (seq 0 (length a)).
Definition map3 {T1 T2 T3 R} (a : list T1) (b : list T2) (c : list T3) (f : T1 -> T2 -> T3 -> lcomp St R)
  : lcomp St (list R) :=
  assert_l (length a =? length b) ;;
  assert_l (length a =? length c) ;;
  mapM (fun i => x ← lift_l (index a i); y ← lift_l (index b i); z ← lift_l (index c i); f x y z)
    (seq 0 (length a)).
End array.
End array.

(** ** The trait and its provided methods *)
Module logic.
Class Logic (E : Type) := {
  St : Type;
  Wire : Type;
  Assertions : Type;
  zero : lcomp St Wire;
  one : lcomp St Wire;
  konst : E -> lcomp St Wire;
  precious : Wire -> lcomp St Wire;
  sum : list Wire -> lcomp St Wire;
  neg : Wire -> lcomp St Wire;
  add : Wire -> Wire -> lcomp St Wire;
  sub : Wire -> Wire -> lcomp St Wire;
  mul : Wire -> Wire -> lcomp St Wire;
  mulk : E -> Wire -> lcomp St Wire;
  quadratic : E -> Wire -> Wire -> lcomp St Wire;
  ok : lcomp St Assertions;
  assert0 : string -> Wire -> lcomp St Assertions;
  assert_all : string -> list Assertions -> lcomp St Assertions;
  with_assertions : Assertions -> Wire -> lcomp St Wire
}.
Class LogicIO (E : Type) `{Logic E} := {
  input : nat -> lcomp St Wire;
  position_in_input_array : Wire -> lcomp St nat
}.

Section provided.
Context {E : Type} `{Logic E}.

(** [body] is a closure whose variables live through the iterations;
    [assert_mapi_vars] also returns what they are afterwards. *)
Definition assert_mapi_vars {V} (name : string) (range : list nat)
    (body : V -> nat -> lcomp St (Assertions * V)) (vars : V) : lcomp St (Assertions * V) :=
  '(indexed, _, vars) ← foldL (fun '(indexed, i, vars) idx =>
      '(a, vars) ← body vars idx;
      tagged ← assert_all (name +:+ "." +:+ pretty (i : nat)) [a];
      mret (indexed ++ [tagged], S i, vars)) ([], 0, vars) range;
  r ← assert_all name indexed;
  mret (r, vars).
Definition assert_mapi {V} (name : string) (range : list nat)
    (body : V -> nat -> lcomp St (Assertions * V)) (vars : V) : lcomp St Assertions :=
  r ← assert_mapi_vars name range body vars; mret r.1.

Definition mone : lcomp St Wire := o ← one; neg o.
Definition negmul (x y : Wire) : lcomp St Wire := m ← mul x y; neg m.
Definition assert_eq (name : string) (x y : Wire) : lcomp St Assertions := d ← sub x y; assert0 name d.
Definition slicing (name : string) (witness computed : Wire) : lcomp St Wire :=
  a ← assert_eq name witness computed; with_assertions a witness.
Definition assert_inverse (name : string) (x y : Wire) : lcomp St Assertions :=
  o ← one; p ← mul x y; assert_eq name p o.
Definition dot (a b : list Wire) : lcomp St Wire :=
  assert_l (length a =? length b) ;;
  products ← mapM (fun '(x, y) => mul x y) (zip a b);
  sum products.
Definition prod (elements : list Wire) : lcomp St Wire :=
  match elements with
  | [] => one
  | _ => array.tree_fold elements mul mret
  end.
Definition next `{!LogicIO E} (pos : nat) : lcomp St (Wire * nat) := w ← input pos; mret (w, S pos).
End provided.
End logic.

(** ** Specifications

    Facts about a circuit are stated in a world: what is known of the state.
    [refines w m y]: from every state of the world [w] the computation ends in
    a state of a later world and returns what the relation pairs with [y] in
    that world; it panics only if [pan]. *)
Class Models (W St : Type) := models : W -> St -> Prop.
Section refines.
Context {W St : Type} `{Models W St} (inv : W -> Prop) (ext : relation W).

Definition refines {A B} (pan : Prop) (R : W -> A -> B -> Prop) (w : W) (m : lcomp St A) (y : B) : Prop :=
  forall s, models w s ->
    match m s with
    | Ok (x, s') => exists w', models w' s' /\ inv w' /\ ext w w' /\ R w' x y
    | Err _ => False
    | Panic => pan
    end.

Lemma refines_bind `{!Transitive ext} {A1 B1 A2 B2} (pan1 pan : Prop) (R1 : W -> A1 -> B1 -> Prop) (R2 : W -> A2 -> B2 -> Prop)
    w m k y1 y2 :
  refines pan1 R1 w m y1 -> (pan1 -> pan) ->
  (forall x w', inv w' -> ext w w' -> R1 w' x y1 -> refines pan R2 w' (k x) y2) ->
  refines pan R2 w (m ≫= k) y2.
Proof.
  unfold refines. intros Hm Hp Hk s Hs. change ((m ≫= k) s) with (match m s with Ok (a, s') => k a s' | Err e => Err e | Panic => Panic end).
  specialize (Hm s Hs). destruct (m s) as [[x s']| |]; [|done|by apply Hp]. destruct Hm as (w' & Hs' & Hi & He & HR).
  specialize (Hk x w' Hi He HR s' Hs'). destruct (k x s') as [[z s'']| |]; [|done..]. destruct Hk as (w'' & ? & ? & ? & ?).
  exists w''. split; [done|]. split; [done|]. split; [by transitivity w'|done].
Qed.
Lemma refines_ret `{!Reflexive ext} {A B} pan (R : W -> A -> B -> Prop) w x y :
  inv w -> R w x y -> refines pan R w (mret x) y.
Proof. intros Hi HR s Hs. exists w. split; [done|]. split; [done|]. by split. Qed.
Lemma refines_mono {A B B'} (pan pan' : Prop) (R : W -> A -> B -> Prop) (R' : W -> A -> B' -> Prop) w m y y' :
  refines pan R w m y -> (pan -> pan') -> (forall x w', inv w' -> ext w w' -> R w' x y -> R' w' x y') -> refines pan' R' w m y'.
Proof.
  unfold refines. intros Hm Hp HR s Hs. specialize (Hm s Hs). destruct (m s) as [[x s']| |]; [|done|by apply Hp].
  destruct Hm as (w' & Hs' & Hi & He & Hx). exists w'. split; [done|]. split; [done|]. split; [done|]. by apply HR.
Qed.
Lemma refines_assert {A B} pan (R : W -> A -> B -> Prop) b w (k : unit -> lcomp St A) y :
  (b = false -> pan) -> (b = true -> refines pan R w (k tt) y) -> refines pan R w (assert_l b ≫= k) y.
Proof. intros Hp Hk s Hs. destruct b; [exact (Hk eq_refl s Hs)|exact (Hp eq_refl)]. Qed.
Lemma refines_lift {A B A1} pan (R : W -> A -> B -> Prop) (a : A1) w (k : A1 -> lcomp St A) y :
  refines pan R w (k a) y -> refines pan R w (lift_l (Ok a) ≫= k) y.
Proof. done. Qed.
Lemma refines_index {A B A1} pan (R : W -> A -> B -> Prop) (l : list A1) i a w (k : A1 -> lcomp St A) y :
  l !! i = Some a -> refines pan R w (k a) y -> refines pan R w (lift_l (index l i) ≫= k) y.
Proof. intros Hl. by rewrite (proj2 (index_Ok _ _ _) Hl). Qed.
End refines.

(** Relations that survive the growth of the world. *)
Class Mono {W A B} (ext : relation W) (R : W -> A -> B -> Prop) := mono s s' x y : ext s s' -> R s x y -> R s' x y.
Definition eqR {W A} (_ : W) (x y : A) : Prop := x = y.
Definition listR {W A B} (R : W -> A -> B -> Prop) (s : W) (xs : list A) (ys : list B) : Prop := Forall2 (R s) xs ys.
Definition pairR {W A1 A2 B1 B2} (R1 : W -> A1 -> B1 -> Prop) (R2 : W -> A2 -> B2 -> Prop) (s : W) (x : A1 * A2) (y : B1 * B2) : Prop :=
  R1 s x.1 y.1 /\ R2 s x.2 y.2.
#[export] Instance eqR_mono {W A} (ext : relation W) : Mono ext (@eqR W A).
Proof. by intros s s' x y _. Qed.
#[export] Instance listR_mono {W A B} (ext : relation W) (R : W -> A -> B -> Prop) `{!Mono ext R} : Mono ext (listR R).
Proof. intros s s' x y He HF. eapply Forall2_impl; [exact HF|]. intros ? ?. by apply mono. Qed.
#[export] Instance pairR_mono {W A1 A2 B1 B2} (ext : relation W) (R1 : W -> A1 -> B1 -> Prop) (R2 : W -> A2 -> B2 -> Prop)
  `{!Mono ext R1} `{!Mono ext R2} : Mono ext (pairR R1 R2).
Proof. intros s s' x y He [H1 H2]. split; by eapply mono. Qed.

(** Carry the facts about a state to a later one. *)
Ltac carry s s' He :=
  repeat match goal with
  | H : ?R s ?x ?y |- _ => lazymatch H with He => fail | _ => idtac end; apply (mono s s' x y He) in H
  end;
  repeat match goal with H : ?inv s |- _ => clear H end;
  clear He; try clear s.

Section loops.
Context {W St : Type} `{Models W St} (inv : W -> Prop) (ext : relation W) `{!PreOrder ext}.
#[local] Abbreviation refines := (refines inv ext).

Lemma refines_mapM {A B A' B'} (pan : Prop) (R1 : W -> A -> A' -> Prop) `{!Mono ext R1} (R2 : W -> B -> B' -> Prop) `{!Mono ext R2}
    (f : A -> lcomp St B) (g : A' -> B') xs ys s :
  inv s -> listR R1 s xs ys ->
  (forall x y s', y ∈ ys -> inv s' -> ext s s' -> R1 s' x y -> refines pan R2 s' (f x) (g y)) ->
  refines pan (listR R2) s (mapM f xs) (map g ys).
Proof.
  intros Hi HF. revert s Hi HF. revert ys. induction xs as [|x xs IH]; intros ys s Hi HF Hf.
  { inversion HF; subst. apply refines_ret; [apply _|done|constructor]. }
  inversion HF as [|? y ? ys' Hxy HF']; subst. cbn [mapM map]. eapply refines_bind; [apply _|apply Hf; [by left|done|done|done]|done|].
  intros z s1 Hi1 He1 Hz. eapply refines_bind; [apply _|apply (IH ys'); [done| |]|done|].
  - eapply listR_mono; [exact _|exact He1|exact HF'].
  - intros x' y' s' Hin Hi' He' Hx'. apply Hf; [by right|done|by transitivity s1|done].
  - intros zs s2 Hi2 He2 Hzs. apply refines_ret; [apply _|done|]. constructor; [by eapply mono|exact Hzs].
Qed.
(** A loop over a list with a reference for each step. *)
Lemma refines_foldL {X S B} (pan : Prop) (R : W -> S -> B -> Prop) (body : S -> X -> lcomp St S) (step : B -> X -> B) : forall xs s st b,
  inv s -> R s st b ->
  (forall st b x s', x ∈ xs -> inv s' -> R s' st b -> refines pan R s' (body st x) (step b x)) ->
  refines pan R s (foldL body st xs) (foldl step b xs).
Proof.
  induction xs as [|x xs IH]; intros s st b Hi HR Hb; cbn [foldL foldl]; [by apply refines_ret; [apply _|..]|].
  eapply refines_bind; [apply _|apply Hb; [by left|done|done]|done|]. intros st1 s1 Hi1 _ H1.
  apply IH; [done|done|]. intros st' b' x' s' Hx. apply Hb. by right.
Qed.

(** The fold over a tree, for a reference that depends on the slices. *)
Lemma recur_ok {T T' R R'} (pan : list T' -> Prop) (RT : W -> T -> T' -> Prop) `{!Mono ext RT} (RR : W -> R -> R' -> Prop) `{!Mono ext RR}
    (f : R -> R -> lcomp St R) (base : T -> lcomp St R) (ref : list T' -> R') a b :
  (forall l1 l2, pan l1 \/ pan l2 -> pan (l1 ++ l2)) ->
  (forall x y s, inv s -> y ∈ b -> RT s x y -> refines (pan [y]) RR s (base x) (ref [y])) ->
  (forall l1 l2 r1 r2 s, inv s -> l1 <> [] -> l2 <> [] -> (exists p q, b = p ++ (l1 ++ l2) ++ q) -> RR s r1 (ref l1) -> RR s r2 (ref l2) ->
     refines (pan (l1 ++ l2)) RR s (f r1 r2) (ref (l1 ++ l2))) ->
  forall fuel i0 i1 s, i0 < i1 -> i1 <= length a -> i1 - i0 <= fuel -> inv s -> listR RT s a b ->
    refines (pan (take (i1 - i0) (drop i0 b))) RR s (array.recur fuel f base a i0 i1) (ref (take (i1 - i0) (drop i0 b))).
Proof.
  intros Hpan Hbase Hf. induction fuel as [|fuel IH]; intros i0 i1 s Hi01 Hi1 Hfuel Hinv HF; [lia|].
  pose proof (Forall2_length _ _ _ HF) as Hlen. cbn [array.recur].
  destruct (Nat.ltb_spec 1 (i1 - i0)) as [Hlt|Hge].
  - set (im := i0 + (i1 - i0) / 2).
    assert (i0 < im < i1) as Him by (subst im; pose proof (Nat.div_str_pos (i1 - i0) 2); pose proof (Nat.div_lt (i1 - i0) 2); lia).
    assert (take (i1 - i0) (drop i0 b) = take (im - i0) (drop i0 b) ++ take (i1 - im) (drop im b)) as Hsplit.
    { replace (i1 - i0) with ((im - i0) + (i1 - im)) by lia. rewrite <- take_take_drop, drop_drop. do 3 f_equal. lia. }
    eapply refines_bind; [apply _|apply (IH i0 im); [lia|lia|lia|done|done]|rewrite Hsplit; intros; apply Hpan; by left|].
    intros l s1 Hi1' He1 Hl. eapply refines_bind; [apply _|apply (IH im i1); [lia|lia|lia|done|by eapply listR_mono]|rewrite Hsplit; intros; apply Hpan; by right|].
    intros r s2 Hi2 He2 Hr. rewrite Hsplit. apply Hf; [done| | | |by eapply mono|done].
    + intros Hnil%(f_equal length). rewrite length_take, length_drop in Hnil. cbn in Hnil. lia.
    + intros Hnil%(f_equal length). rewrite length_take, length_drop in Hnil. cbn in Hnil. lia.
    + exists (take i0 b), (drop (i1 - i0) (drop i0 b)). rewrite <- Hsplit, take_drop. symmetry. apply take_drop.
  - replace (i1 - i0) with 1 in * by lia. cbn [Nat.eqb].
    destruct (lookup_lt_is_Some_2 a i0) as [x Hx]; [lia|]. destruct (Forall2_lookup_l _ _ _ _ _ HF Hx) as (y & Hy & Hxy).
    rewrite (drop_S _ _ _ Hy). cbn [take]. eapply refines_index; [exact Hx|]. apply Hbase; [done|by eapply list_elem_of_lookup_2|done].
Qed.
Lemma tree_fold_ok {T T' R R'} (pan : list T' -> Prop) (RT : W -> T -> T' -> Prop) `{!Mono ext RT} (RR : W -> R -> R' -> Prop) `{!Mono ext RR}
    (f : R -> R -> lcomp St R) (base : T -> lcomp St R) (ref : list T' -> R') a b s :
  (forall l1 l2, pan l1 \/ pan l2 -> pan (l1 ++ l2)) ->
  (forall x y s, inv s -> y ∈ b -> RT s x y -> refines (pan [y]) RR s (base x) (ref [y])) ->
  (forall l1 l2 r1 r2 s, inv s -> l1 <> [] -> l2 <> [] -> (exists p q, b = p ++ (l1 ++ l2) ++ q) -> RR s r1 (ref l1) -> RR s r2 (ref l2) ->
     refines (pan (l1 ++ l2)) RR s (f r1 r2) (ref (l1 ++ l2))) ->
  inv s -> b <> [] -> listR RT s a b -> refines (pan b) RR s (array.tree_fold a f base) (ref b).
Proof.
  intros Hpan Hbase Hf Hi Hb HF. pose proof (Forall2_length _ _ _ HF) as Hlen. assert (length b <> 0) as Hnz by by destruct b.
  unfold array.tree_fold. apply refines_assert.
  { intros Hz. apply negb_false_iff, Nat.eqb_eq in Hz. lia. }
  intros _. pose proof (recur_ok pan RT RR f base ref a b Hpan Hbase Hf (length a) 0 (length a) s) as Hr.
  rewrite Nat.sub_0_r, drop_0, (take_ge b) in Hr by lia. apply Hr; [lia..|done|done].
Qed.
End loops.

(** ** What circuits rely on

    [C] is a condition under which every attached assertion holds.  [den C w x v]:
    the wire [x] has the value [v].  [asserts C w a P]: the assertions of [a]
    hold exactly when [P] does; those attached to the wires they mention hold
    when [C] does.  A backend with [ll_rejects] may panic on an assertion that
    fails whatever the inputs. *)
Class LogicLaws (E : Type) `{AlgebraicField E} `{!logic.Logic E} (C : Prop) := {
  World : Type;
  ll_models :: Models World logic.St;
  ll_inv : World -> Prop;
  ll_ext : relation World;
  ll_preorder :: PreOrder ll_ext;
  ll_rejects : Prop;
  den : World -> logic.Wire -> E -> Prop;
  asserts : World -> logic.Assertions -> Prop -> Prop;
  den_mono :: Mono ll_ext den;
  asserts_mono :: Mono ll_ext asserts;
  asserts_iff w a P Q : (P <-> Q) -> asserts w a P -> asserts w a Q;
  ll_zero w : ll_inv w -> refines ll_inv ll_ext False den w logic.zero fzero;
  ll_one w : ll_inv w -> refines ll_inv ll_ext False den w logic.one fone;
  ll_konst e w : ll_inv w -> refines ll_inv ll_ext False den w (logic.konst e) e;
  ll_precious x v w : ll_inv w -> den w x v -> refines ll_inv ll_ext False den w (logic.precious x) v;
  ll_sum xs vs w : ll_inv w -> listR den w xs vs -> refines ll_inv ll_ext False den w (logic.sum xs) (fsum vs);
  ll_neg x v w : ll_inv w -> den w x v -> refines ll_inv ll_ext False den w (logic.neg x) (fneg v);
  ll_add x y u v w : ll_inv w -> den w x u -> den w y v -> refines ll_inv ll_ext False den w (logic.add x y) (fadd u v);
  ll_sub x y u v w : ll_inv w -> den w x u -> den w y v -> refines ll_inv ll_ext False den w (logic.sub x y) (fsub u v);
  ll_mul x y u v w : ll_inv w -> den w x u -> den w y v -> refines ll_inv ll_ext False den w (logic.mul x y) (fmul u v);
  ll_mulk e y v w : ll_inv w -> den w y v -> refines ll_inv ll_ext False den w (logic.mulk e y) (fmul e v);
  ll_quadratic e x y u v w : ll_inv w -> den w x u -> den w y v ->
    refines ll_inv ll_ext False den w (logic.quadratic e x y) (fmul e (fmul u v));
  ll_ok w : ll_inv w -> refines ll_inv ll_ext False asserts w logic.ok True;
  ll_assert0 name x v w : ll_inv w -> name <> ""%string -> den w x v ->
    refines ll_inv ll_ext (ll_rejects /\ v <> fzero) asserts w (logic.assert0 name x) (v = fzero);
  ll_assert_all name l Ps w : ll_inv w -> name <> ""%string -> listR asserts w l Ps ->
    refines ll_inv ll_ext False asserts w (logic.assert_all name l) (Forall id Ps);
  ll_with_assertions (P : Prop) a x v w : ll_inv w -> (C -> P) -> asserts w a P -> den w x v ->
    refines ll_inv ll_ext False den w (logic.with_assertions a x) v
}.
#[export] Hint Mode LogicLaws ! - - - : typeclass_instances.
#[global] Arguments den {_ _ _} C {_}.
#[global] Arguments asserts {_ _ _} C {_}.

(** A circuit that returns a wire, bits or numbers always does; a circuit
    that asserts [P] may be rejected when [P] fails. *)
Section laws.
Context {E : Type} {C : Prop} `{LogicLaws E C}.
Definition returns {A B} (R : World -> A -> B -> Prop) (s : World) (m : lcomp logic.St A) (y : B) : Prop :=
  refines ll_inv ll_ext False R s m y.
Definition checks (s : World) (m : lcomp logic.St logic.Assertions) (P : Prop) : Prop :=
  refines ll_inv ll_ext (ll_rejects /\ ~ P) (asserts C) s m P.

Lemma checks_iff s m (P Q : Prop) : (P <-> Q) -> checks s m P -> checks s m Q.
Proof.
  intros HPQ Hm. eapply refines_mono; [exact Hm|by rewrite HPQ|]. intros x s' _ _. by apply asserts_iff.
Qed.
Lemma returns_bind {A1 B1 A2 B2} pan (R1 : World -> A1 -> B1 -> Prop) (R2 : World -> A2 -> B2 -> Prop) s m k y1 y2 :
  returns R1 s m y1 ->
  (forall x s', ll_inv s' -> ll_ext s s' -> R1 s' x y1 -> refines ll_inv ll_ext pan R2 s' (k x) y2) ->
  refines ll_inv ll_ext pan R2 s (m ≫= k) y2.
Proof. intros Hm Hk. eapply refines_bind; [apply _|exact Hm|done|exact Hk]. Qed.
Lemma checks_bind {A2 B2} pan (R2 : World -> A2 -> B2 -> Prop) s m k (P : Prop) y2 :
  checks s m P -> (ll_rejects -> ~ P -> pan) ->
  (forall a s', ll_inv s' -> ll_ext s s' -> asserts C s' a P -> refines ll_inv ll_ext pan R2 s' (k a) y2) ->
  refines ll_inv ll_ext pan R2 s (m ≫= k) y2.
Proof. intros Hm Hp Hk. eapply refines_bind; [apply _|exact Hm|by intros []; apply Hp|exact Hk]. Qed.
Lemma returns_ret {A B} pan (R : World -> A -> B -> Prop) s x y : ll_inv s -> R s x y -> refines ll_inv ll_ext pan R s (mret x) y.
Proof. apply refines_ret, _. Qed.
Lemma returns_any {A B} pan (R : World -> A -> B -> Prop) s m y : returns R s m y -> refines ll_inv ll_ext pan R s m y.
Proof. intros Hm. by eapply refines_mono. Qed.
Lemma returns_eq {A B} pan (R : World -> A -> B -> Prop) s m (y y' : B) : refines ll_inv ll_ext pan R s m y' -> y = y' -> refines ll_inv ll_ext pan R s m y.
Proof. by intros ? ->. Qed.
End laws.
#[global] Arguments checks {_} C {_ _ _}.

Create HintDb gadget.
#[export] Hint Resolve ll_zero ll_one ll_konst ll_precious ll_sum ll_neg ll_add ll_sub ll_mul ll_mulk ll_quadratic
  ll_ok ll_with_assertions : gadget.
#[export] Hint Extern 1 (listR _ _ [] _) => apply Forall2_nil_2 : gadget.
#[export] Hint Extern 1 (listR _ _ (_ :: _) _) => apply Forall2_cons_2 : gadget.
#[export] Hint Extern 1 (Forall2 _ [] _) => apply Forall2_nil_2 : gadget.
#[export] Hint Extern 1 (Forall2 _ (_ :: _) _) => apply Forall2_cons_2 : gadget.
Lemma by_returns {E C} `{LogicLaws E C} {A B} (R : World -> A -> B -> Prop) s m y :
  refines ll_inv ll_ext False R s m y -> returns R s m y.
Proof. done. Qed.
#[export] Hint Extern 1 (returns _ _ _ _) => apply by_returns : gadget.

(** One step of a circuit; the facts known so far are carried along. *)
Ltac next x :=
  let s' := fresh "s" in let Hi := fresh "Hi" in let He := fresh "He" in let Hx := fresh "H" x in
  intros x s' Hi He Hx;
  lazymatch type of He with ll_ext ?s _ => carry s s' He end.
Ltac step x := eapply returns_bind; [solve [eauto 8 with gadget]|next x].
Ltac step_by tac x := eapply returns_bind; [tac|next x].
Ltac check_by tac x := eapply checks_bind; [tac| |next x].
(** The last step, up to an equation of values. *)
Ltac last_step := eapply returns_eq; [apply returns_any; solve [eauto 8 with gadget]|].

Section provided.
Context {E : Type} `{AlgebraicFieldLaws E} `{!logic.Logic E} (C : Prop) `{!LogicLaws E C}.
Local Open Scope fe_scope.
Add Ring field_ring_logic : (field_ring (E:=E)).

Definition fprod (l : list E) : E := foldr fmul 1 l.
Lemma fprod_app l1 l2 : fprod (l1 ++ l2) = fprod l1 * fprod l2.
Proof.
  unfold fprod. induction l1 as [|x l1 IH]; cbn [app foldr]; [ring|]. rewrite IH. ring.
Qed.

Lemma mone_ok s : ll_inv s -> returns (den C) s logic.mone mone.
Proof. intros Hi. unfold logic.mone, mone. step o. last_step. ring. Qed.
Lemma negmul_ok x y v w s : ll_inv s -> den C s x v -> den C s y w -> returns (den C) s (logic.negmul x y) (- (v * w)).
Proof. intros Hi Hx Hy. unfold logic.negmul. step m. last_step. done. Qed.

Lemma assert0_ok name x v (P : Prop) s : ll_inv s -> name <> ""%string -> den C s x v -> (v = 0 <-> P) -> checks C s (logic.assert0 name x) P.
Proof. intros Hi Hn Hx HP. eapply checks_iff; [exact HP|]. by apply ll_assert0. Qed.
Lemma assert_all_ok name l Ps (P : Prop) s : ll_inv s -> name <> ""%string -> listR (asserts C) s l Ps -> (Forall id Ps <-> P) ->
  checks C s (logic.assert_all name l) P.
Proof. intros Hi Hn Hl HP. eapply checks_iff; [exact HP|]. eapply refines_mono; [by apply ll_assert_all|done|done]. Qed.
Lemma sub_zero_iff (v w : E) : v - w = 0 <-> v = w.
Proof.
  split; [|intros ->; ring]. intros Hs. replace v with ((v - w) + w) by ring. rewrite Hs. ring.
Qed.
Lemma assert_eq_ok name x y v w s : ll_inv s -> name <> ""%string -> den C s x v -> den C s y w -> checks C s (logic.assert_eq name x y) (v = w).
Proof. intros Hi Hn Hx Hy. unfold logic.assert_eq. step d. eapply assert0_ok; [done..|]. apply sub_zero_iff. Qed.
(** A [witness] that should equal a computed wire stands for it. *)
Lemma slicing_ok name x y v w s : ll_inv s -> name <> ""%string -> (C -> v = w) -> den C s x v -> den C s y w ->
  refines ll_inv ll_ext (ll_rejects /\ v <> w) (den C) s (logic.slicing name x y) v.
Proof.
  intros Hi Hn HC Hx Hy. unfold logic.slicing. check_by ltac:(by eapply assert_eq_ok) a; [done|].
  apply returns_any. by eapply ll_with_assertions.
Qed.
Lemma assert_inverse_ok name x y v w s : ll_inv s -> name <> ""%string -> den C s x v -> den C s y w ->
  checks C s (logic.assert_inverse name x y) (v * w = 1).
Proof. intros Hi Hn Hx Hy. unfold logic.assert_inverse. step o. step p. by apply assert_eq_ok. Qed.

Lemma dot_ok a b vs ws s : ll_inv s -> length a = length b -> listR (den C) s a vs -> listR (den C) s b ws ->
  returns (den C) s (logic.dot a b) (fsum (zip_with fmul vs ws)).
Proof.
  intros Hi Hl Ha Hb. unfold logic.dot. apply refines_assert; [by rewrite (proj2 (Nat.eqb_eq _ _) Hl)|]. intros _.
  step_by ltac:(eapply (refines_mapM _ _ _ (pairR (den C) (den C)) (den C) _ (fun p : E * E => p.1 * p.2) (zip a b) (zip vs ws)); [done| |]) ps.
  - clear Hl. revert b ws Hb. induction Ha as [|x v a vs Hx Ha IH]; intros b ws Hb; [constructor|].
    destruct Hb as [|y w b ws Hy Hb]; [constructor|]. constructor; [done|by apply IH].
  - intros [x y] [v w] s' _ Hi' He [Hx Hy]. by apply ll_mul.
  - eapply returns_eq; [by apply ll_sum|]. f_equal. rewrite zip_with_zip.
    apply map_ext. by intros [].
Qed.
Lemma prod_ok xs vs s : ll_inv s -> listR (den C) s xs vs -> returns (den C) s (logic.prod xs) (fprod vs).
Proof.
  intros Hi Hx. unfold logic.prod. destruct Hx as [|x v xs vs Hx Hxs]; [by apply ll_one|].
  apply (tree_fold_ok ll_inv ll_ext (fun _ => False) (den C) (den C)); [tauto| | |done|done|by constructor].
  - intros y w s' Hi' _ Hy. apply refines_ret; [apply _|done|]. replace (fprod [w]) with w; [done|]. cbn. ring.
  - intros l1 l2 r1 r2 s' Hi' _ _ _ Hr1 Hr2. rewrite fprod_app. by apply ll_mul.
Qed.

(** The iterations of [assert_mapi] with the values of the closure's
    variables. *)
Fixpoint mapi_props {B} (step : B -> nat -> Prop * B) (b : B) (range : list nat) : list Prop :=
  match range with
  | [] => []
  | i :: range => let '(P, b) := step b i in P :: mapi_props step b range
  end.
Definition mapi_vars {B} (step : B -> nat -> Prop * B) (b : B) (range : list nat) : B :=
  foldl (fun b i => (step b i).2) b range.
(** [RV range]: the variables when [range] is left to go. *)
Lemma assert_mapi_vars_ok {V B} name range (body : V -> nat -> lcomp logic.St (logic.Assertions * V)) vars
    (RV : list nat -> World -> V -> B -> Prop) `{!forall l, Mono ll_ext (RV l)} (step : B -> nat -> Prop * B) b s :
  ll_inv s -> name <> ""%string -> RV range s vars b ->
  (forall vars b i rest s', i ∈ range -> ll_inv s' -> ll_ext s s' -> RV (i :: rest) s' vars b ->
    refines ll_inv ll_ext (ll_rejects /\ ~ (step b i).1) (pairR (asserts C) (RV rest)) s' (body vars i) (step b i)) ->
  refines ll_inv ll_ext (ll_rejects /\ ~ Forall id (mapi_props step b range)) (pairR (asserts C) (RV [])) s
    (logic.assert_mapi_vars name range body vars) (Forall id (mapi_props step b range), mapi_vars step b range).
Proof.
  intros Hi Hn HV Hb. unfold logic.assert_mapi_vars.
  cut (forall range indexed k vars b s1 Ps, ll_inv s1 -> ll_ext s s1 -> RV range s1 vars b ->
    (forall vars b i rest s', i ∈ range -> ll_inv s' -> ll_ext s s' -> RV (i :: rest) s' vars b ->
      refines ll_inv ll_ext (ll_rejects /\ ~ (step b i).1) (pairR (asserts C) (RV rest)) s' (body vars i) (step b i)) ->
    listR (asserts C) s1 indexed Ps ->
    refines ll_inv ll_ext (ll_rejects /\ ~ Forall id (mapi_props step b range))
      (fun s' r (y : list Prop * B) => listR (asserts C) s' r.1.1 y.1 /\ RV [] s' r.2 y.2) s1
      (foldL (fun '(indexed, i, vars) idx =>
        '(a, vars) ← body vars idx;
        tagged ← logic.assert_all (name +:+ "." +:+ pretty (i : nat)) [a];
        mret (indexed ++ [tagged], S i, vars)) (indexed, k, vars) range) (Ps ++ mapi_props step b range, mapi_vars step b range)).
  - intros Hloop. eapply refines_bind; [apply _|apply (Hloop range [] 0%nat vars b s []); [done|done|done|exact Hb|constructor]|done|].
    intros [[indexed k'] vars'] s' Hi' He' [Hx HV']. cbn [fst snd app] in *.
    eapply returns_bind; [by apply ll_assert_all|]. intros r s2 Hi2 He2 Hr. apply (returns_ret _ (pairR (asserts C) (RV []))); [done|].
    split; [done|]. by apply (mono s' s2).
  - clear Hi HV Hb vars b range. intros range. induction range as [|i range IH]; intros indexed k vars b s1 Ps Hi He HV Hb Hx; cbn [foldL mapi_props].
    + apply refines_ret; [apply _|done|]. cbn [fst snd]. by rewrite app_nil_r.
    + pose proof (Hb vars b i range s1 ltac:(by left) Hi He HV) as Hbody. cbn [mapi_vars foldl]. destruct (step b i) as [P b'] eqn:Hstep. cbn [fst snd] in *.
      eapply refines_bind; [apply _|eapply refines_bind; [apply _|exact Hbody| |]| |].
      * exact id.
      * intros [a vars'] s2 Hi2 He2 [Ha HV']. cbn [fst snd] in *.
        eapply returns_bind; [apply (ll_assert_all _ [a] [P]); [done| |by repeat constructor]|].
        { destruct name; [done|]. discriminate. }
        intros tagged s3 Hi3 He3 Ht. apply (returns_ret _
          (fun s' (st : list logic.Assertions * nat * V) (y : Prop * B) => RV range s' st.2 y.2 /\ st.1.2 = S k /\
             exists tagged, st.1.1 = indexed ++ [tagged] /\ asserts C s' tagged (Forall id [y.1])) _ _ (P, b')); [done|].
        split; [by apply (mono s2 s3)|]. split; [done|]. by exists tagged.
      * intros [? Hf]. split; [done|]. rewrite Forall_cons. tauto.
      * intros [[indexed' k'] vars'] s2 Hi2 He2 (HV' & Hk & tagged & Hx' & Ht). cbn [fst snd] in *. subst indexed' k'.
        replace (Ps ++ P :: mapi_props step b' range) with ((Ps ++ [P]) ++ mapi_props step b' range) by by rewrite <- app_assoc.
        eapply refines_mono; [eapply (IH _ (S k) vars' b' s2)|..].
        -- done.
        -- by transitivity s1.
        -- done.
        -- intros vars2 b2 i2 rest s' Hin. apply Hb. by right.
        -- apply Forall2_app; [by apply (mono (R:=listR (asserts C)) s1 s2)|]. constructor; [|constructor]. eapply asserts_iff; [|exact Ht]. rewrite Forall_singleton. done.
        -- intros [? Hf]. split; [done|]. rewrite Forall_cons. tauto.
        -- done.
Qed.
Lemma assert_mapi_gen {V B} name range (body : V -> nat -> lcomp logic.St (logic.Assertions * V)) vars
    (RV : list nat -> World -> V -> B -> Prop) `{!forall l, Mono ll_ext (RV l)} (step : B -> nat -> Prop * B) b (P : Prop) s :
  ll_inv s -> name <> ""%string -> RV range s vars b ->
  (forall vars b i rest s', i ∈ range -> ll_inv s' -> ll_ext s s' -> RV (i :: rest) s' vars b ->
    refines ll_inv ll_ext (ll_rejects /\ ~ (step b i).1) (pairR (asserts C) (RV rest)) s' (body vars i) (step b i)) ->
  (Forall id (mapi_props step b range) <-> P) ->
  checks C s (logic.assert_mapi name range body vars) P.
Proof.
  intros Hi Hn HV Hb HP. eapply checks_iff; [exact HP|]. unfold logic.assert_mapi, checks.
  eapply refines_bind; [apply _|by eapply (assert_mapi_vars_ok name range body vars RV)|done|].
  intros [r vars'] s' Hi' He' [Hr _]. by apply (returns_ret _ (asserts C)).
Qed.
(** No variables: one proposition per index. *)
Lemma assert_mapi_ok name range (body : unit -> nat -> lcomp logic.St (logic.Assertions * unit)) (Q : nat -> Prop) (P : Prop) s :
  ll_inv s -> name <> ""%string ->
  (forall i s', i ∈ range -> ll_inv s' -> ll_ext s s' ->
    refines ll_inv ll_ext (ll_rejects /\ ~ Q i) (pairR (asserts C) eqR) s' (body tt i) (Q i, tt)) ->
  (Forall Q range <-> P) ->
  checks C s (logic.assert_mapi name range body tt) P.
Proof.
  intros Hi Hn Hb HP. apply (assert_mapi_gen name range body tt (fun _ => eqR) (fun _ i => (Q i, tt)) tt); [done|done|done| |].
  - intros [] [] i rest s' Hin Hi' He _. by apply Hb.
  - rewrite <- HP. clear. induction range as [|i range IH]; cbn [mapi_props]; [by rewrite !Forall_nil|]. by rewrite !Forall_cons, IH.
Qed.
(** The body of such a loop. *)
Lemma unit_body s m (P : Prop) : checks C s m P ->
  refines ll_inv ll_ext (ll_rejects /\ ~ P) (pairR (asserts C) (@eqR World unit)) s (r ← m; mret (r, tt)) (P, tt).
Proof. intros Hm. eapply checks_bind; [exact Hm|done|]. intros a s' Hi He Ha. by apply returns_ret. Qed.
End provided.
#[export] Hint Resolve mone_ok negmul_ok prod_ok : gadget.
