(* ===== verification/Boolean.v ===== *)
(** * Boolean circuits ([src/rust/circuits/boolean/src/circuit.rs])

    A bit is a constant, a wire with the value zero or one, the complement of
    such a wire, or a wire with the value one for false and minus one for
    true.  Every operation computes the boolean function of its name whatever
    the representations of its operands. *)
From stdpp Require Import prelude strings pretty.
From Stdlib Require Import Lia NArith Ring Ring_theory.
From S2P Require Import Prelude Words Interfaces Field FieldFacts CompilerIR Logic.

Inductive Inner (W : Type) :=
| ITrue
| IFalse
| IP (x : W)
| IN (x : W)
| IX (x : W).
Arguments ITrue {_}. Arguments IFalse {_}. Arguments IP {_} _. Arguments IN {_} _. Arguments IX {_} _.
(** The newtype [Bitw]. *)
Definition Bitw (E : Type) `{logic.Logic E} : Type := Inner logic.Wire.
Record Boolean (E : Type) := { two : E; mtwo : E; half : E; mhalf : E }.
Arguments two {_} _. Arguments mtwo {_} _. Arguments half {_} _. Arguments mhalf {_} _.

Module boolean.
Section boolean.
Context {E : Type} `{AlgebraicField E} `{!logic.Logic E}.
Local Open Scope fe_scope.
#[local] Abbreviation M := (lcomp logic.St).

Definition new : outcome fuel_error (Boolean E) :=
  let two := 1 + 1 in
  '(half, mhalf) ← (if is_zero two then mret (0, 0) else h ← unwrap (invert two); mret (h, - h));
  mret {| two := two; mtwo := mone + mone; half := half; mhalf := mhalf |}.

Context (self : Boolean E).

Definition konst (b : bool) : Bitw E := if b then ITrue else IFalse.
Definition trueb : Bitw E := ITrue.
Definition falseb : Bitw E := IFalse.
Definition zext (a : list (Bitw E)) (n : nat) : M (list (Bitw E)) :=
  assert_l (length a <=? n)%nat ;; mret (a ++ replicate (n - length a) falseb).

Definition as_eltw (x : Bitw E) : M logic.Wire :=
  match x with
  | IFalse => logic.zero
  | ITrue => logic.one
  | IP xv => mret xv
  | IN xv => o ← logic.one; logic.sub o xv
  | IX xv =>
      assert_l (negb (is_zero (two self))) ;;
      k ← logic.konst (half self); m ← logic.mulk (mhalf self) xv; logic.sum [k; m]
  end.
Definition positive (x : Bitw E) : M (Bitw E) := w ← as_eltw x; mret (IP w).
Definition as_x (x : Bitw E) : M logic.Wire :=
  match x with
  | ITrue => logic.konst mone
  | IFalse => logic.one
  | IP xv => o ← logic.one; m ← logic.mulk (mtwo self) xv; logic.sum [o; m]
  | IN xv => o ← logic.konst mone; m ← logic.mulk (two self) xv; logic.sum [o; m]
  | IX xv => assert_l (negb (is_zero (two self))) ;; mret xv
  end.
Definition precious (x : Bitw E) : M (Bitw E) :=
  match x with
  | ITrue => mret ITrue
  | IFalse => mret IFalse
  | IP xv => w ← logic.precious xv; mret (IP w)
  | IN xv => w ← logic.precious xv; mret (IN w)
  | IX xv => w ← logic.precious xv; mret (IX w)
  end.
Definition of_eltw (x : logic.Wire) : M (Bitw E) :=
  xx ← logic.mul x x; d ← logic.sub x xx;
  zero_or_one ← logic.assert0 "is_boolean" d;
  w ← logic.with_assertions zero_or_one x;
  mret (IP w).
Definition of_eltw_with_assertion (x : logic.Wire) (assertion : logic.Assertions) : M (Bitw E) :=
  w ← logic.with_assertions assertion x; mret (IP w).
Definition b (bit : Bitw E) : Bitw E :=
  match bit with
  | ITrue => ITrue | IFalse => IFalse
  | IP xv => IP xv | IN xv => IN xv | IX xv => IX xv
  end.
Definition notb (x : Bitw E) : M (Bitw E) :=
  match x with
  | ITrue => mret IFalse
  | IFalse => mret ITrue
  | IP xv => mret (IN xv)
  | IN xv => mret (IP xv)
  | IX xv => w ← logic.neg xv; mret (IX w)
  end.
Definition or_assuming_at_most_one_true (x y : Bitw E) : M (Bitw E) :=
  match x, y with
  | ITrue, _ | _, ITrue => mret ITrue
  | IFalse, _ => mret (b y)
  | _, IFalse => mret (b x)
  | IP x, IP y => w ← logic.add x y; mret (IP w)
  | IP x, IN y => w ← logic.sub y x; mret (IN w)
  | IN x, IP y => w ← logic.sub x y; mret (IN w)
  | IN x, IN y => o ← logic.one; mone ← logic.neg o; w ← logic.sum [x; y; mone]; mret (IN w)
  | _, _ => ap ← as_eltw x; bp ← as_eltw y; w ← logic.add ap bp; mret (IP w)
  end.
Definition sum_assuming_at_most_one_true (a : list (Bitw E)) : M (Bitw E) :=
  elts ← mapM as_eltw a; w ← logic.sum elts; mret (IP w).
(** The case of a complement and a wire calls [andb] with the operands
    swapped. *)
Definition andb_pn (x y : logic.Wire) : M (Bitw E) :=
  m ← logic.mul x y; negmul ← logic.neg m;
  p ← logic.precious x; w ← logic.sum [p; negmul]; mret (IP w).
Definition andb (x y : Bitw E) : M (Bitw E) :=
  match x, y with
  | ITrue, _ => mret (b y)
  | _, ITrue => mret (b x)
  | IFalse, _ | _, IFalse => mret IFalse
  | IP x, IP y => w ← logic.mul x y; mret (IP w)
  | IP x, IN y => andb_pn x y
  | IN x, IP y => andb_pn y x
  | IN x, IN y =>
      m ← logic.mul x y; negmul ← logic.neg m;
      p ← logic.precious x; q ← logic.precious y; w ← logic.sum [p; q; negmul]; mret (IN w)
  | _, _ => ap ← as_eltw x; bp ← as_eltw y; w ← logic.mul ap bp; mret (IP w)
  end.
Definition tree_andb (x y : Bitw E) : M (Bitw E) := r ← andb x y; positive r.
Definition orb (x y : Bitw E) : M (Bitw E) := nx ← notb x; ny ← notb y; r ← andb nx ny; notb r.
Definition tree_orb (x y : Bitw E) : M (Bitw E) := nx ← notb x; ny ← notb y; r ← tree_andb nx ny; notb r.

Definition xor_base (x y : logic.Wire) : M logic.Wire :=
  if is_zero (two self) then logic.add x y
  else
    p ← logic.precious x; q ← logic.precious y; m ← logic.mul x y; k ← logic.mulk (mtwo self) m;
    logic.sum [p; q; k].
(** [xorb] calls itself on complemented operands until both are wires. *)
Definition xorb (x y : Bitw E) : M (Bitw E) :=
  match x, y with
  | IFalse, _ => mret (b y)
  | _, IFalse => mret (b x)
  | ITrue, _ => notb y
  | _, ITrue => notb x
  | IX _, _ | _, IX _ =>
      if is_zero (two self) then xe ← as_eltw x; ye ← as_eltw y; w ← logic.add xe ye; mret (IP w)
      else xx ← as_x x; yx ← as_x y; w ← logic.mul xx yx; mret (IX w)
  | IP x, IP y => w ← xor_base x y; mret (IP w)
  | IP x, IN y => w ← xor_base x y; notb (IP w)
  | IN x, IP y => w ← xor_base x y; notb (IP w)
  | IN x, IN y => w ← xor_base x y; mret (IP w)
  end.
Definition tree_xorb (x y : Bitw E) : M (Bitw E) :=
  if is_zero (two self) then xorb x y
  else match x, y with
  | IFalse, z | z, IFalse => mret z
  | ITrue, z | z, ITrue => notb z
  | _, _ => ax ← as_x x; bx ← as_x y; w ← logic.mul ax bx; mret (IX w)
  end.
Definition eqb (x y : Bitw E) : M (Bitw E) := r ← xorb x y; notb r.
Definition neqb (x y : Bitw E) : M (Bitw E) := xorb x y.
Definition parity (a : list (Bitw E)) : M (Bitw E) :=
  match a with [] => mret falseb | _ => array.tree_fold a tree_xorb mret end.

Definition mulbe (x : Bitw E) (e : logic.Wire) : M logic.Wire := w ← as_eltw x; logic.mul w e.
Definition muxe (x : Bitw E) (iftrue iffalse : logic.Wire) : M logic.Wire :=
  t ← mulbe x iftrue; nx ← notb x; f ← mulbe nx iffalse; logic.sum [t; f].
Definition one_hot_muxe (selector : list (Bitw E)) (data : nat -> M logic.Wire) : M logic.Wire :=
  elts ← mapM (fun '(i, s) => d ← data i; mulbe s d) (zip (seq 0 (length selector)) selector);
  logic.sum elts.
Definition muxb (x iftrue iffalse : Bitw E) : M (Bitw E) :=
  t ← andb x iftrue; nx ← notb x; f ← andb nx iffalse; or_assuming_at_most_one_true t f.
Definition one_hot_muxb (selector : list (Bitw E)) (data : nat -> M (Bitw E)) : M (Bitw E) :=
  bitws ← mapM (fun '(i, s) => d ← data i; andb s d) (zip (seq 0 (length selector)) selector);
  sum_assuming_at_most_one_true bitws.
Definition maj (x y z : Bitw E) : M (Bitw E) :=
  g ← andb x y; p ← xorb x y; pg ← precious g; pz ← andb p z; or_assuming_at_most_one_true pg pz.
Definition xor3 (x y z : Bitw E) : M (Bitw E) := r ← xorb y z; xorb x r.
Definition impliesb (x y : Bitw E) : M (Bitw E) := nx ← notb x; orb y nx.
Definition ltb (x y : Bitw E) : M (Bitw E) := nx ← notb x; andb y nx.
Definition chi_laneb (x y z : Bitw E) : M (Bitw E) :=
  if is_zero (two self) then not_y ← notb y; and_not_y_z ← andb not_y z; xorb x and_not_y_z
  else
    xx ← as_x x; xy ← as_x y; xz ← as_x z;
    w ← logic.mul xx xy;
    nw ← logic.neg w; t ← logic.sum [xx; w]; m ← logic.mul t xz;
    num ← logic.sum [xx; nw; m];
    r ← logic.mulk (half self) num; mret (IX r).

Definition assert_false (name : string) (x : Bitw E) : M logic.Assertions := w ← as_eltw x; logic.assert0 name w.
Definition assert_true (name : string) (x : Bitw E) : M logic.Assertions := nx ← notb x; assert_false name nx.
Definition assert_eq (name : string) (x y : Bitw E) : M logic.Assertions :=
  match x, y with
  | ITrue, ITrue | IFalse, IFalse => logic.ok
  | ITrue, IFalse | IFalse, ITrue => o ← logic.one; logic.assert0 name o
  | IP xv, IP yv | IN xv, IN yv | IX xv, IX yv => d ← logic.sub xv yv; logic.assert0 name d
  | _, _ => xe ← as_eltw x; ye ← as_eltw y; d ← logic.sub xe ye; logic.assert0 name d
  end.

(** [BooleanIO] *)
Definition input `{!logic.LogicIO E} (position : nat) : M (Bitw E) := w ← logic.input position; of_eltw w.
Definition next `{!logic.LogicIO E} (pos : nat) : M (Bitw E * nat) := w ← input pos; mret (w, S pos).
Definition position_in_input_array `{!logic.LogicIO E} (x : Bitw E) : M nat :=
  w ← as_eltw x; logic.position_in_input_array w.
End boolean.
End boolean.

(** ** Correctness *)
Section facts.
Context {E : Type} `{AlgebraicFieldLaws E} `{!logic.Logic E} (C : Prop) `{!LogicLaws E C}.
Local Open Scope fe_scope.
Add Ring field_ring_boolean : (field_ring (E:=E)).

Record boolean_ok (self : Boolean E) : Prop := {
  bo_two : two self = 1 + 1;
  bo_mtwo : mtwo self = - (1 + 1);
  bo_mhalf : mhalf self = - half self;
  bo_half : two self <> 0 -> half self * two self = 1
}.
Lemma boolean_new : exists self, boolean.new = Ok self /\ boolean_ok self.
Proof.
  unfold boolean.new. destruct (is_zero (1 + 1 : E)) eqn:Hz.
  - eexists. split; [reflexivity|]. apply is_zero_spec in Hz. split; cbn [two mtwo half mhalf]; [done|unfold mone; ring|ring|done].
  - assert ((1 + 1 : E) <> 0) as Hne by (intros Hc; apply is_zero_spec in Hc; congruence).
    destruct (invert_spec _ Hne) as (h & Hh & Hm). rewrite Hh. cbn [unwrap mbind outcome_bind].
    eexists. split; [reflexivity|]. split; cbn [two mtwo half mhalf]; [done|unfold mone; ring|done|].
    intros _. transitivity ((1 + 1) * h); [ring|exact Hm].
Qed.

(** The value of a bit as a wire and as a sign. *)
Definition of_bool (x : bool) : E := if x then 1 else 0.
Definition sign (x : bool) : E := if x then - (1) else 1.
Definition bit (s : World) (b : Bitw E) (x : bool) : Prop :=
  match b with
  | ITrue => x = true
  | IFalse => x = false
  | IP w => den C s w (of_bool x)
  | IN w => den C s w (of_bool (negb x))
  | IX w => (1 + 1 : E) <> 0 /\ den C s w (sign x)
  end.
#[export] Instance bit_mono : Mono ll_ext bit.
Proof.
  intros s s' b x He. destruct b; cbn; [done|done|by apply (mono s s')|by apply (mono s s')|]. intros [Ht Hd]. split; [done|by apply (mono s s')].
Qed.

Context (self : Boolean E) (Hself : boolean_ok self).

Lemma two_zero : is_zero (two self) = true <-> (1 + 1 : E) = 0.
Proof. rewrite is_zero_spec, (bo_two _ Hself). done. Qed.
Lemma two_nonzero : (1 + 1 : E) <> 0 -> is_zero (two self) = false.
Proof. intros Hne. apply not_true_iff_false. by rewrite two_zero. Qed.
Lemma half_sign x : (1 + 1 : E) <> 0 -> half self + mhalf self * sign x = of_bool x.
Proof.
  intros Hne. pose proof (bo_half _ Hself) as Hh. rewrite (bo_two _ Hself) in Hh. specialize (Hh Hne).
  rewrite (bo_mhalf _ Hself). destruct x; cbn [sign of_bool]; [|ring].
  transitivity (half self * (1 + 1)); [ring|exact Hh].
Qed.
Lemma sign_mul x y : sign x * sign y = sign (xorb x y).
Proof. destruct x, y; cbn [sign xorb]; ring. Qed.
Lemma sign_neg x : - sign x = sign (negb x).
Proof. destruct x; cbn; ring. Qed.
Lemma of_bool_neg x : 1 - of_bool x = of_bool (negb x).
Proof. destruct x; cbn; ring. Qed.
Lemma of_bool_mul x y : of_bool x * of_bool y = of_bool (x && y).
Proof. destruct x, y; cbn; ring. Qed.
Lemma of_bool_inj x y : of_bool x = of_bool y <-> x = y.
Proof.
  split; [|by intros ->]. pose proof one_neq_zero. destruct x, y; cbn; [done|..|done]; intros Hx; [done|by symmetry in Hx].
Qed.
Lemma of_bool_zero x : of_bool x = 0 <-> x = false.
Proof. apply (of_bool_inj x false). Qed.
Lemma sign_inj x y : (1 + 1 : E) <> 0 -> sign x = sign y <-> x = y.
Proof.
  intros Hne. split; [|by intros ->]. assert (- (1) <> (1 : E)) as Hm.
  { intros Hc. apply Hne. rewrite <- Hc at 1. ring. }
  destruct x, y; cbn; [done|by intros|by intros Hx; symmetry in Hx|done].
Qed.

Lemma bit_b s b x : bit s b x -> bit s (boolean.b b) x.
Proof. by destruct b. Qed.
Lemma konst_ok s x : bit s (boolean.konst x) x.
Proof. by destruct x. Qed.

Lemma as_eltw_ok s b x : ll_inv s -> bit s b x -> returns (den C) s (boolean.as_eltw self b) (of_bool x).
Proof.
  intros Hi Hb. destruct b as [| |w|w|w]; cbn [bit boolean.as_eltw] in *; try subst x.
  - by apply ll_one.
  - by apply ll_zero.
  - by apply returns_ret.
  - step o. last_step. destruct x; cbn; ring.
  - destruct Hb as [Hne Hw]. apply refines_assert; [by rewrite two_nonzero|]. intros _.
    step k. step m. last_step. rewrite <- (half_sign x Hne). cbn. ring.
Qed.
Lemma as_x_ok s b x : ll_inv s -> (1 + 1 : E) <> 0 -> bit s b x -> returns (den C) s (boolean.as_x self b) (sign x).
Proof.
  intros Hi Hne Hb. destruct b as [| |w|w|w]; cbn [bit boolean.as_x] in *; try subst x.
  - eapply returns_eq; [by apply ll_konst|]. cbn. unfold mone. ring.
  - by apply ll_one.
  - step o. step m. last_step. rewrite (bo_mtwo _ Hself). destruct x; cbn; ring.
  - step o. step m. last_step. rewrite (bo_two _ Hself). unfold mone. destruct x; cbn; ring.
  - apply refines_assert; [by rewrite two_nonzero|]. intros _. apply returns_ret; [done|apply Hb].
Qed.

(** A wire with the right value is a bit. *)
Lemma wire_bit s m v x : returns (den C) s m v -> v = of_bool x -> returns bit s (w ← m; mret (IP w)) x.
Proof. intros Hm ->. eapply returns_bind; [exact Hm|]. intros w s' Hi He Hw. by apply returns_ret. Qed.
Lemma wire_not s m v x : returns (den C) s m v -> v = of_bool (negb x) -> returns bit s (w ← m; mret (IN w)) x.
Proof. intros Hm ->. eapply returns_bind; [exact Hm|]. intros w s' Hi He Hw. by apply returns_ret. Qed.
Lemma wire_sign s m v x : (1 + 1 : E) <> 0 -> returns (den C) s m v -> v = sign x -> returns bit s (w ← m; mret (IX w)) x.
Proof. intros Hne Hm ->. eapply returns_bind; [exact Hm|]. intros w s' Hi He Hw. by apply returns_ret. Qed.

Lemma positive_ok s b x : ll_inv s -> bit s b x -> returns bit s (boolean.positive self b) x.
Proof. intros Hi Hb. by eapply wire_bit; [apply as_eltw_ok|]. Qed.
Lemma precious_ok s b x : ll_inv s -> bit s b x -> returns bit s (boolean.precious b) x.
Proof.
  intros Hi Hb. destruct b as [| |w|w|w]; cbn [bit boolean.precious] in *.
  - by apply returns_ret.
  - by apply returns_ret.
  - by eapply wire_bit; [apply ll_precious|].
  - by eapply wire_not; [apply ll_precious|].
  - destruct Hb. by eapply wire_sign; [|apply ll_precious|].
Qed.
Lemma notb_ok s b x : ll_inv s -> bit s b x -> returns bit s (boolean.notb b) (negb x).
Proof.
  intros Hi Hb. destruct b as [| |w|w|w]; cbn [bit boolean.notb] in *; try subst x.
  - by apply returns_ret.
  - by apply returns_ret.
  - apply returns_ret; [done|]. cbn. by rewrite negb_involutive.
  - by apply returns_ret.
  - destruct Hb. eapply wire_sign; [done|by apply ll_neg|apply sign_neg].
Qed.
Lemma of_eltw_ok s w x : ll_inv s -> den C s w (of_bool x) -> returns bit s (boolean.of_eltw w) x.
Proof.
  intros Hi Hw. unfold boolean.of_eltw. step xx. step d.
  eapply checks_bind; [eapply (assert0_ok C _ _ _ True); [done..|]|tauto|].
  { split; [done|]. intros _. destruct x; cbn; ring. }
  next a. eapply wire_bit; [|reflexivity]. by apply (ll_with_assertions True a).
Qed.
Lemma of_eltw_with_assertion_ok s w x a (P : Prop) : ll_inv s -> den C s w (of_bool x) -> (C -> P) -> asserts C s a P ->
  returns bit s (boolean.of_eltw_with_assertion w a) x.
Proof. intros Hi Hw HP Ha. eapply wire_bit; [|reflexivity]. by apply (ll_with_assertions P a). Qed.
Lemma zext_ok s a l n : ll_inv s -> (length l <= n)%nat -> listR bit s a l -> returns (listR bit) s (boolean.zext a n) (l ++ replicate (n - length l) false).
Proof.
  intros Hi Hn Ha. pose proof (Forall2_length _ _ _ Ha) as Hl. unfold boolean.zext.
  apply refines_assert; [intros Hc%Nat.leb_gt; lia|]. intros _. apply returns_ret; [done|].
  apply Forall2_app; [done|]. rewrite Hl. induction (n - length l)%nat; [constructor|]. by constructor.
Qed.
End facts.
#[export] Hint Resolve as_eltw_ok positive_ok precious_ok notb_ok bit_b konst_ok : gadget.

Section operations.
Context {E : Type} `{AlgebraicFieldLaws E} `{!logic.Logic E} (C : Prop) `{!LogicLaws E C}.
Local Open Scope fe_scope.
Add Ring field_ring_boolean2 : (field_ring (E:=E)).
Context (self : Boolean E) (Hself : boolean_ok self).
#[local] Abbreviation bit := (bit C).

Lemma or_ok s a b x y : ll_inv s -> x && y = false -> bit s a x -> bit s b y ->
  returns bit s (boolean.or_assuming_at_most_one_true self a b) (x || y).
Proof.
  intros Hi Hxy Ha Hb.
  assert (forall v, v = of_bool x + of_bool y -> v = of_bool (x || y)) as Hor.
  { intros v ->. destruct x, y; try discriminate; cbn; ring. }
  assert (returns bit s (ap ← boolean.as_eltw self a; bp ← boolean.as_eltw self b; w ← logic.add ap bp; mret (IP w)) (x || y)) as Hmix.
  { step xw. step yw. eapply wire_bit; [by apply ll_add|by apply Hor]. }
  destruct a as [| |w|w|w], b as [| |w'|w'|w']; cbn [Boolean.bit boolean.or_assuming_at_most_one_true boolean.b] in *;
    try (subst x; cbn [orb]); try (subst y; rewrite ?orb_true_r, ?orb_false_r); try (by apply returns_ret); try exact Hmix.
  - eapply wire_not; [by apply ll_sub|]. destruct x, y; try discriminate; cbn; ring.
  - eapply wire_not; [by apply ll_sub|]. destruct x, y; try discriminate; cbn; ring.
  - step o. step m. eapply wire_not; [solve [eauto 10 with gadget]|]. destruct x, y; try discriminate; cbn; ring.
Qed.
Lemma andb_ok s a b x y : ll_inv s -> bit s a x -> bit s b y -> returns bit s (boolean.andb self a b) (x && y).
Proof.
  intros Hi Ha Hb.
  assert (returns bit s (ap ← boolean.as_eltw self a; bp ← boolean.as_eltw self b; w ← logic.mul ap bp; mret (IP w)) (x && y)) as Hmix.
  { step xw. step yw. eapply wire_bit; [by apply ll_mul|apply of_bool_mul]. }
  assert (forall w w' x y s, ll_inv s -> den C s w (of_bool x) -> den C s w' (of_bool (negb y)) -> returns bit s (boolean.andb_pn w w') (x && y)) as Hpn.
  { clear s x y a b Hi Ha Hb Hmix. intros w w' x y s Hi Hw Hw'. unfold boolean.andb_pn. step m. step nm. step p.
    eapply wire_bit; [solve [eauto 10 with gadget]|]. destruct x, y; cbn; ring. }
  destruct a as [| |w|w|w], b as [| |w'|w'|w']; cbn [Boolean.bit boolean.andb boolean.b] in *;
    try (subst x; cbn [andb]); try (subst y; rewrite ?andb_true_r, ?andb_false_r); try (by apply returns_ret); try exact Hmix.
  - by apply Hpn.
  - rewrite andb_comm. by apply Hpn.
  - step m. step nm. step p. step q. eapply wire_not; [solve [eauto 10 with gadget]|]. destruct x, y; cbn; ring.
Qed.
Hint Resolve andb_ok : gadget.
Lemma tree_andb_ok s a b x y : ll_inv s -> bit s a x -> bit s b y -> returns bit s (boolean.tree_andb self a b) (x && y).
Proof. intros Hi Ha Hb. unfold boolean.tree_andb. step r. by apply positive_ok. Qed.
Hint Resolve tree_andb_ok : gadget.
Lemma orb_ok s a b x y : ll_inv s -> bit s a x -> bit s b y -> returns bit s (boolean.orb self a b) (x || y).
Proof.
  intros Hi Ha Hb. unfold boolean.orb. step nx. step ny. step r. eapply returns_eq; [by apply notb_ok|].
  by rewrite negb_andb, !negb_involutive.
Qed.
Lemma tree_orb_ok s a b x y : ll_inv s -> bit s a x -> bit s b y -> returns bit s (boolean.tree_orb self a b) (x || y).
Proof.
  intros Hi Ha Hb. unfold boolean.tree_orb. step nx. step ny. step r. eapply returns_eq; [by apply notb_ok|].
  by rewrite negb_andb, !negb_involutive.
Qed.

Lemma xor_base_ok s w w' x y : ll_inv s -> den C s w (of_bool x) -> den C s w' (of_bool y) ->
  returns (den C) s (boolean.xor_base self w w') (of_bool (xorb x y)).
Proof.
  intros Hi Hw Hw'. unfold boolean.xor_base. destruct (is_zero (two self)) eqn:Hz.
  - apply (two_zero self Hself) in Hz. eapply returns_eq; [by apply ll_add|]. destruct x, y; cbn; [by rewrite Hz|ring..].
  - step p. step q. step m. step k. eapply returns_eq; [solve [eauto 10 with gadget]|].
    rewrite (bo_mtwo _ Hself). destruct x, y; cbn; ring.
Qed.
Hint Resolve xor_base_ok : gadget.
Lemma xorb_ok s a b x y : ll_inv s -> bit s a x -> bit s b y -> returns bit s (boolean.xorb self a b) (xorb x y).
Proof.
  intros Hi Ha Hb.
  assert ((1 + 1 : E) <> 0 -> returns bit s (if is_zero (two self)
      then xe ← boolean.as_eltw self a; ye ← boolean.as_eltw self b; w ← logic.add xe ye; mret (IP w)
      else xx ← boolean.as_x self a; yx ← boolean.as_x self b; w ← logic.mul xx yx; mret (IX w)) (xorb x y)) as Hmix.
  { intros Hne. rewrite (two_nonzero self Hself Hne). step_by ltac:(by apply (as_x_ok C)) xx. step_by ltac:(by apply (as_x_ok C)) yx.
    eapply wire_sign; [done|by apply ll_mul|apply sign_mul]. }
  destruct a as [| |w|w|w], b as [| |w'|w'|w']; cbn [Boolean.bit boolean.xorb boolean.b] in *;
    try (apply Hmix; tauto); try (subst x; rewrite ?xorb_true_l, ?xorb_false_l); try (subst y; rewrite ?xorb_true_r, ?xorb_false_r);
    try (by apply returns_ret); try (by apply (notb_ok C)).
  - eapply wire_bit; [by apply xor_base_ok|done].
  - step z. apply returns_ret; [done|]. cbn. replace (negb (xorb x y)) with (xorb x (negb y)) by by destruct x, y. exact Hz.
  - step z. apply returns_ret; [done|]. cbn. replace (negb (xorb x y)) with (xorb (negb x) y) by by destruct x, y. exact Hz.
  - eapply wire_bit; [by apply xor_base_ok|]. by destruct x, y.
Qed.
Hint Resolve xorb_ok : gadget.
Lemma tree_xorb_ok s a b x y : ll_inv s -> bit s a x -> bit s b y -> returns bit s (boolean.tree_xorb self a b) (xorb x y).
Proof.
  intros Hi Ha Hb. unfold boolean.tree_xorb. destruct (is_zero (two self)) eqn:Hz; [by apply xorb_ok|].
  assert ((1 + 1 : E) <> 0) as Hne by (intros Hc; apply (two_zero self Hself) in Hc; congruence).
  assert (returns bit s (ax ← boolean.as_x self a; bx ← boolean.as_x self b; w ← logic.mul ax bx; mret (IX w)) (xorb x y)) as Hmix.
  { step_by ltac:(by apply (as_x_ok C)) xx. step_by ltac:(by apply (as_x_ok C)) yx.
    eapply wire_sign; [done|by apply ll_mul|apply sign_mul]. }
  destruct a as [| |w|w|w], b as [| |w'|w'|w']; try exact Hmix; cbn [Boolean.bit] in Ha, Hb;
    try (subst x; rewrite ?xorb_true_l, ?xorb_false_l); try (subst y; rewrite ?xorb_true_r, ?xorb_false_r);
    try (by apply returns_ret); by apply (notb_ok C).
Qed.
Hint Resolve tree_xorb_ok : gadget.
Lemma eqb_ok s a b x y : ll_inv s -> bit s a x -> bit s b y -> returns bit s (boolean.eqb self a b) (Bool.eqb x y).
Proof. intros Hi Ha Hb. unfold boolean.eqb. step r. eapply returns_eq; [by apply notb_ok|]. by destruct x, y. Qed.
Lemma parity_ok s a l : ll_inv s -> listR bit s a l -> returns bit s (boolean.parity self a) (foldr xorb false l).
Proof.
  intros Hi Ha. unfold boolean.parity. destruct a as [|b a]; [inversion Ha; by apply returns_ret|].
  apply (tree_fold_ok ll_inv ll_ext (fun _ => False) bit bit); [tauto| | |done|by inversion Ha|done].
  - intros x y s' Hi' _ Hx. apply returns_ret; [done|]. cbn. by rewrite xorb_false_r.
  - intros l1 l2 r1 r2 s' Hi' _ _ _ Hr1 Hr2. eapply returns_eq; [by apply tree_xorb_ok|].
    clear. induction l1 as [|x l1 IH]; cbn; [done|]. by rewrite IH, xorb_assoc.
Qed.
End operations.
#[export] Hint Resolve or_ok andb_ok tree_andb_ok orb_ok tree_orb_ok xorb_ok tree_xorb_ok eqb_ok : gadget.
#[export] Hint Extern 5 (_ && _ = false) => (reflexivity || assumption) : gadget.

Section selections.
Context {E : Type} `{AlgebraicFieldLaws E} `{!logic.Logic E} (C : Prop) `{!LogicLaws E C}.
Local Open Scope fe_scope.
Add Ring field_ring_boolean3 : (field_ring (E:=E)).
Context (self : Boolean E) (Hself : boolean_ok self).
#[local] Abbreviation bit := (bit C).

(** How many of a list are true. *)
Definition count (l : list bool) : nat := length (filter (fun x => x = true) l).
Lemma count_cons x l : count (x :: l) = ((if x then 1 else 0) + count l)%nat.
Proof. unfold count. by destruct x; [rewrite filter_cons_True|rewrite filter_cons_False]. Qed.
Lemma count_app l l' : count (l ++ l') = (count l + count l')%nat.
Proof. unfold count. by rewrite filter_app, length_app. Qed.
Definition any (l : list bool) : bool := existsb id l.
Lemma any_count l : any l = negb (count l =? 0)%nat.
Proof. induction l as [|[] l IH]; [done|..]; rewrite count_cons; cbn; [done|]. exact IH. Qed.
Lemma fsum_of_bool l : (count l <= 1)%nat -> fsum (map of_bool l) = (of_bool (any l) : E).
Proof.
  induction l as [|x l IH]; [done|]. rewrite count_cons. intros Hc. cbn [map fsum]. rewrite IH by lia.
  destruct x; cbn [of_bool any existsb id orb]; [|unfold any; ring].
  rewrite any_count. replace (count l) with 0%nat by lia. cbn. ring.
Qed.

Lemma sum_assuming_ok s a l : ll_inv s -> (count l <= 1)%nat -> listR bit s a l -> returns bit s (boolean.sum_assuming_at_most_one_true self a) (any l).
Proof.
  intros Hi Hc Ha. unfold boolean.sum_assuming_at_most_one_true.
  step_by ltac:(eapply (refines_mapM ll_inv ll_ext _ bit (den C) _ of_bool); [done|exact Ha|intros; by apply as_eltw_ok]) elts.
  eapply wire_bit; [by apply ll_sum|]. by apply fsum_of_bool.
Qed.
Lemma mulbe_ok s b x e v : ll_inv s -> bit s b x -> den C s e v -> returns (den C) s (boolean.mulbe self b e) (if x then v else 0).
Proof. intros Hi Hb He. unfold boolean.mulbe. step w. last_step. destruct x; cbn; ring. Qed.
Hint Resolve mulbe_ok : gadget.
Lemma muxe_ok s b x t f v w : ll_inv s -> bit s b x -> den C s t v -> den C s f w ->
  returns (den C) s (boolean.muxe self b t f) (if x then v else w).
Proof. intros Hi Hb Ht Hf. unfold boolean.muxe. step tw. step nx. step fw. last_step. destruct x; cbn; ring. Qed.
Lemma muxb_ok s b t f x y z : ll_inv s -> bit s b x -> bit s t y -> bit s f z -> returns bit s (boolean.muxb self b t f) (if x then y else z).
Proof.
  intros Hi Hb Ht Hf. unfold boolean.muxb. step tw. step nx. step fw. eapply returns_eq; [apply (or_ok C); [done|done| |done|done]|].
  - by destruct x, y, z.
  - by destruct x, y, z.
Qed.
Lemma maj_ok s a b c x y z : ll_inv s -> bit s a x -> bit s b y -> bit s c z ->
  returns bit s (boolean.maj self a b c) ((x && y) || (x && z) || (y && z)).
Proof.
  intros Hi Ha Hb Hc. unfold boolean.maj. step g. step p. step pg. step pz. eapply returns_eq; [apply (or_ok C); [done|done| |done|done]|].
  - by destruct x, y, z.
  - by destruct x, y, z.
Qed.
Lemma xor3_ok s a b c x y z : ll_inv s -> bit s a x -> bit s b y -> bit s c z -> returns bit s (boolean.xor3 self a b c) (xorb x (xorb y z)).
Proof. intros Hi Ha Hb Hc. unfold boolean.xor3. step r. by apply xorb_ok. Qed.
Lemma impliesb_ok s a b x y : ll_inv s -> bit s a x -> bit s b y -> returns bit s (boolean.impliesb self a b) (implb x y).
Proof. intros Hi Ha Hb. unfold boolean.impliesb. step nx. eapply returns_eq; [by apply orb_ok|]. by destruct x, y. Qed.
Lemma ltb_ok s a b x y : ll_inv s -> bit s a x -> bit s b y -> returns bit s (boolean.ltb self a b) (negb x && y).
Proof. intros Hi Ha Hb. unfold boolean.ltb. step nx. eapply returns_eq; [by apply andb_ok|]. by destruct x, y. Qed.
Lemma chi_laneb_ok s a b c x y z : ll_inv s -> bit s a x -> bit s b y -> bit s c z ->
  returns bit s (boolean.chi_laneb self a b c) (xorb x (negb y && z)).
Proof.
  intros Hi Ha Hb Hc. unfold boolean.chi_laneb. destruct (is_zero (two self)) eqn:Hz.
  - step ny. step m. by apply xorb_ok.
  - assert ((1 + 1 : E) <> 0) as Hne by (intros Ht; apply (two_zero self Hself) in Ht; congruence).
    pose proof (bo_half _ Hself) as Hh. rewrite (bo_two _ Hself) in Hh. specialize (Hh Hne).
    step_by ltac:(by apply (as_x_ok C)) xx. step_by ltac:(by apply (as_x_ok C)) xy. step_by ltac:(by apply (as_x_ok C)) xz.
    step w. step nw. step t. step m. step num. eapply wire_sign; [done|by apply ll_mulk|].
    transitivity (half self * (1 + 1) * sign (xorb x (negb y && z))); [|rewrite Hh; ring].
    destruct x, y, z; cbn; ring.
Qed.

(** Selection by a one-hot vector. *)
Lemma count_select vals l : (count (imap (fun i x => x && vals i) l) <= count l)%nat.
Proof.
  revert vals. induction l as [|x l IH]; intros vals; [done|]. rewrite imap_cons, !count_cons.
  specialize (IH (vals ∘ S)). unfold compose in *. destruct x, (vals 0%nat); cbn [andb] in *; lia.
Qed.
Lemma one_hot_muxb_ok s sel l (data : nat -> lcomp logic.St (Bitw E)) (vals : nat -> bool) : ll_inv s -> (count l <= 1)%nat -> listR bit s sel l ->
  (forall i s', (i < length l)%nat -> ll_inv s' -> ll_ext s s' -> returns bit s' (data i) (vals i)) ->
  returns bit s (boolean.one_hot_muxb self sel data) (any (imap (fun i x => x && vals i) l)).
Proof.
  intros Hi Hc Hs Hd. unfold boolean.one_hot_muxb. pose proof (Forall2_length _ _ _ Hs) as Hl.
  step_by ltac:(eapply (refines_mapM ll_inv ll_ext _ (pairR eqR bit) bit _ (fun p : nat * bool => p.2 && vals p.1)
    (zip (seq 0 (length sel)) sel) (zip (seq 0 (length l)) l)); [done| |]) bitws.
  - rewrite Hl. clear - Hs. generalize (seq 0 (length l)). intros idx. revert idx.
    induction Hs as [|b x sel l Hb Hs IH]; intros [|i idx]; try constructor; [by split|apply IH].
  - intros [i b] [i' x] s' Hin Hi' He [Heq Hb]. cbn in Heq, Hb. unfold eqR in Heq. subst i'. cbn [fst snd].
    apply elem_of_zip_l in Hin. apply elem_of_seq in Hin.
    step_by ltac:(apply Hd; [lia|done|done]) d. by apply andb_ok.
  - assert (map (fun p : nat * bool => p.2 && vals p.1) (zip (seq 0 (length l)) l) = imap (fun i x => x && vals i) l) as Heq.
    { clear. apply list_eq. intros i. change (map ?f ?l) with (f <$> l). rewrite list_lookup_fmap, lookup_zip_with, list_lookup_imap.
      destruct (l !! i) as [x|] eqn:Hx; [by rewrite lookup_seq_lt by (by eapply lookup_lt_Some)|].
      apply lookup_ge_None in Hx. by rewrite lookup_seq_ge. }
    rewrite Heq in Hbitws. eapply sum_assuming_ok; [done| |exact Hbitws].
    etransitivity; [apply count_select|done].
Qed.

Lemma assert_false_ok s name b x : ll_inv s -> name <> ""%string -> bit s b x -> checks C s (boolean.assert_false self name b) (x = false).
Proof. intros Hi Hn Hb. unfold boolean.assert_false. step w. eapply assert0_ok; [done..|]. apply of_bool_zero. Qed.
Lemma assert_true_ok s name b x : ll_inv s -> name <> ""%string -> bit s b x -> checks C s (boolean.assert_true self name b) (x = true).
Proof.
  intros Hi Hn Hb. unfold boolean.assert_true. step nx. eapply checks_iff; [|by apply assert_false_ok]. by destruct x.
Qed.
Lemma assert_eq_bits_ok s name a b x y : ll_inv s -> name <> ""%string -> bit s a x -> bit s b y ->
  checks C s (boolean.assert_eq self name a b) (x = y).
Proof.
  intros Hi Hn Ha Hb.
  assert (checks C s (xe ← boolean.as_eltw self a; ye ← boolean.as_eltw self b; d ← logic.sub xe ye; logic.assert0 name d) (x = y)) as Hmix.
  { step xe. step ye. step d. eapply assert0_ok; [done..|]. rewrite sub_zero_iff. apply of_bool_inj. }
  destruct a as [| |w|w|w], b as [| |w'|w'|w']; try exact Hmix; cbn [Boolean.bit boolean.assert_eq] in *; try subst x; try subst y.
  - eapply checks_iff; [|eapply refines_mono; [by apply ll_ok|done|done]]. done.
  - step o. eapply assert0_ok; [done..|]. split; [|done]. intros Hc. by destruct one_neq_zero.
  - step o. eapply assert0_ok; [done..|]. split; [|done]. intros Hc. by destruct one_neq_zero.
  - eapply checks_iff; [|eapply refines_mono; [by apply ll_ok|done|done]]. done.
  - step d. eapply assert0_ok; [done..|]. rewrite sub_zero_iff, of_bool_inj. destruct x, y; done.
  - destruct Ha as [Hne Ha], Hb as [_ Hb]. step d. eapply assert0_ok; [done..|]. rewrite sub_zero_iff. by apply sign_inj.
Qed.
End selections.
#[export] Hint Resolve mulbe_ok muxe_ok muxb_ok maj_ok xor3_ok impliesb_ok ltb_ok chi_laneb_ok : gadget.
