(* ===== verification/Arithmetic.v ===== *)
(** * Bit-vector circuits ([src/rust/circuits/arithmetic/src/circuit.rs])

    Little-endian vectors of bits: comparison and addition by a parallel
    prefix of carries, their checks, shifts, selections and the encoding of a
    vector in one field element; then these circuits against the natural
    numbers their vectors stand for. *)
From stdpp Require Import prelude strings pretty.
From Stdlib Require Import Lia NArith ZArith ZifyNat ZifyN Ring Ring_theory.
From S2P Require Import Prelude Words Interfaces Field FieldFacts CompilerIR Logic Boolean.

(** [CompileField] ([src/rust/compile/algebra/src/field.rs]): elements that
    encode vectors of bits. *)
Class CompileField (E : Type) `{AlgebraicField E} := {
  pseudo_basis : nat -> outcome fuel_error E;
  pseudo_dimension : nat;
  pseudo_basis_unsafe : nat -> outcome fuel_error E;
  pseudo_dimension_of_multiplicative_group : nat
}.

Module arithmetic.
Section arithmetic.
Context {E : Type} `{AlgebraicField E} `{!logic.Logic E} (self : Boolean E).
#[local] Abbreviation M := (lcomp logic.St).
#[local] Abbreviation Bitw := (Bitw E).

Definition bit_name (i : nat) : string := "bit." +:+ pretty i.
Definition assert_false (name : string) (a : list Bitw) : M logic.Assertions :=
  logic.assert_mapi name (seq 0 (length a))
    (fun _ i => x ← lift_l (index a i); r ← boolean.assert_false self (bit_name i) x; mret (r, tt)) tt.
Definition assert_true (name : string) (a : list Bitw) : M logic.Assertions :=
  logic.assert_mapi name (seq 0 (length a))
    (fun _ i => x ← lift_l (index a i); r ← boolean.assert_true self (bit_name i) x; mret (r, tt)) tt.

(** *** Fields *)
Definition basis_terms (basis : nat -> outcome fuel_error E) (a : list Bitw) : M logic.Wire :=
  terms ← mapM (fun '(i, x) => field_coef ← lift_l (basis i); w ← boolean.as_eltw self x; logic.mulk field_coef w)
    (zip (seq 0 (length a)) a);
  logic.sum terms.
Definition as_eltw_field `{!CompileField E} (a : list Bitw) : M logic.Wire :=
  assert_l (length a <=? pseudo_dimension) ;; basis_terms pseudo_basis a.
Definition as_eltw_unsafe `{!CompileField E} (a : list Bitw) : M logic.Wire := basis_terms pseudo_basis_unsafe a.

Definition assert_eq `{!CompileField E} (name : string) (a b : list Bitw) : M logic.Assertions :=
  let dim := pseudo_dimension in
  assert_l (length a =? length b) ;;
  let n := length a in
  if n =? 0 then logic.ok
  else
    assert_l (negb (dim =? 0)) ;;
    let k := (n + dim - 1) / dim in
    logic.assert_mapi name (seq 0 k) (fun '(remaining_n, remaining_k, idx) _ =>
      let chunk_size := remaining_n / remaining_k in
      chunk_a ← lift_l (slice a idx (idx + chunk_size));
      chunk_b ← lift_l (slice b idx (idx + chunk_size));
      let idx := idx + chunk_size in
      let remaining_n := remaining_n - chunk_size in
      let remaining_k := remaining_k - 1 in
      elt_a ← as_eltw_field chunk_a;
      elt_b ← as_eltw_field chunk_b;
      r ← logic.assert_eq "chunk_eq" elt_a elt_b;
      mret (r, (remaining_n, remaining_k, idx))) (n, k, 0).

Definition exactly_one_step (l r : Bitw * logic.Assertions) : M (Bitw * logic.Assertions) :=
  both ← boolean.andb self l.1 r.1;
  at_most_one ← boolean.assert_false self "at_most_one" both;
  combined_assert ← logic.assert_all "at_most_one_step" [l.2; r.2; at_most_one];
  combined_any ← boolean.or_assuming_at_most_one_true self l.1 r.1;
  mret (combined_any, combined_assert).
Definition assert_exactly_one (a : list Bitw) : M logic.Assertions :=
  match a with
  | [] => lift_l Panic
  | [single] => boolean.assert_true self "single" single
  | _ =>
      '(any_root, assert_root) ← array.tree_fold a exactly_one_step
        (fun x => o ← logic.ok; mret (boolean.b x, o));
      t ← boolean.assert_true self "any_root" any_root;
      logic.assert_all "assert_exactly_one" [t; assert_root]
  end.

(** *** Parallel prefix

    [sklansky] updates [arr[i0..i1]]; the ranges halve. *)
Definition scan_loop (reduce : Bitw * Bitw -> Bitw * Bitw -> M (Bitw * Bitw)) (prev : Bitw * Bitw)
    (arr : list (Bitw * Bitw)) (k : nat) : M (list (Bitw * Bitw)) :=
  item ← lift_l (index arr k);
  r ← reduce prev item;
  lift_l (store arr k r).
Fixpoint sklansky (fuel : nat) (arr : list (Bitw * Bitw)) (i0 i1 : nat)
    (reduce : Bitw * Bitw -> Bitw * Bitw -> M (Bitw * Bitw)) : M (list (Bitw * Bitw)) :=
  if 1 <? i1 - i0 then
    match fuel with
    | O => lift_l (Err OutOfFuel)
    | S fuel =>
        let im := i0 + (i1 - i0) / 2 in
        arr ← sklansky fuel arr i0 im reduce;
        arr ← sklansky fuel arr im i1 reduce;
        p ← lift_l (index arr (im - 1));
        foldL (scan_loop reduce (boolean.b p.1, boolean.b p.2)) arr (seq im (i1 - im))
    end
  else mret arr.
Definition scan (reduce : Bitw * Bitw -> Bitw * Bitw -> M (Bitw * Bitw)) (oarr : list (Bitw * Bitw))
  : M (list (Bitw * Bitw)) :=
  let arr := map (fun p => (boolean.b p.1, boolean.b p.2)) oarr in
  if length arr =? 0 then mret arr else sklansky (length arr) arr 0 (length arr) reduce.

Definition lt_reduce (a b : Bitw * Bitw) : M (Bitw * Bitw) :=
  let '(eq0, lt0) := a in
  let '(eq1, lt1) := b in
  p0 ← boolean.precious eq0; p1 ← boolean.precious eq1; e ← boolean.tree_andb self p0 p1;
  l1 ← boolean.precious lt1; q1 ← boolean.precious eq1; l0 ← boolean.precious lt0; el ← boolean.andb self q1 l0;
  l ← boolean.or_assuming_at_most_one_true self l1 el;
  mret (e, l).
Definition lt_base (a b : Bitw) : M (Bitw * Bitw) := e ← boolean.eqb self a b; l ← boolean.ltb self a b; mret (e, l).

Definition unchecked_sub (a b : list Bitw) : M (list Bitw * Bitw) :=
  assert_l (length a =? length b) ;;
  let n := length a in
  assert_l (0 <? n) ;;
  olteq ← array.init n (fun i => x ← lift_l (index a i); y ← lift_l (index b i); lt_base x y);
  lteq ← scan lt_reduce olteq;
  c ← array.init n (fun i =>
    carry ← (if i =? 0 then mret boolean.falseb else p ← lift_l (index lteq (i - 1)); mret (boolean.b p.2));
    o ← lift_l (index olteq i);
    boolean.eqb self o.1 carry);
  p ← lift_l (index lteq (n - 1));
  mret (c, boolean.b p.2).
Definition unchecked_add (a b : list Bitw) : M (list Bitw * Bitw) :=
  assert_l (length a =? length b) ;;
  not_a ← mapM boolean.notb a;
  '(c, carry) ← unchecked_sub not_a b;
  not_c ← mapM boolean.notb c;
  mret (not_c, carry).
Definition checked_add (a b : list Bitw) : M (list Bitw * logic.Assertions) :=
  assert_l (length a =? length b) ;;
  '(sum, carry) ← unchecked_add a b;
  r ← boolean.assert_false self "no_carry" carry;
  mret (sum, r).
Definition checked_sub (a b : list Bitw) : M (list Bitw * logic.Assertions) :=
  assert_l (length a =? length b) ;;
  '(diff, borrow) ← unchecked_sub a b;
  r ← boolean.assert_false self "no_borrow" borrow;
  mret (diff, r).
Definition wrapping_add (a b : list Bitw) : M (list Bitw) :=
  assert_l (length a =? length b) ;; r ← unchecked_add a b; mret r.1.
Definition wrapping_sub (a b : list Bitw) : M (list Bitw) :=
  assert_l (length a =? length b) ;; r ← unchecked_sub a b; mret r.1.

Definition assert_wrapping_add (c a b : list Bitw) : M logic.Assertions :=
  assert_l (length a =? length b) ;;
  assert_l (length a =? length c) ;;
  let n := length a in
  if n =? 0 then logic.ok
  else
    c0 ← lift_l (index c 0); a0 ← lift_l (index a 0); b0 ← lift_l (index b 0);
    x0 ← boolean.xorb self a0 b0;
    first_assert ← boolean.assert_eq self "bit0" c0 x0;
    cy ← array.init (n - 1) (fun i =>
      x ← lift_l (index a (i + 1)); y ← lift_l (index b (i + 1)); z ← lift_l (index c (i + 1));
      boolean.xor3 self x y z);
    rest_assert ← logic.assert_mapi "rest_assert" (seq 0 (n - 1)) (fun _ i =>
      text_eq_to ← (if i =? 0 then boolean.andb self a0 b0
        else prev ← lift_l (index cy (i - 1)); x ← lift_l (index a i); y ← lift_l (index b i); boolean.maj self prev x y);
      cyi ← lift_l (index cy i);
      r ← boolean.assert_eq self "bit_carry" cyi text_eq_to;
      mret (r, tt)) tt;
    logic.assert_all "assert_wrapping_add" [first_assert; rest_assert].
Definition assert_checked_add (c a b : list Bitw) : M logic.Assertions :=
  assert_l (length a =? length b) ;;
  assert_l (length a =? length c) ;;
  let n := length a in
  if n =? 0 then logic.ok
  else
    x ← lift_l (index a (n - 1)); y ← lift_l (index b (n - 1));
    carry_out ← (if n =? 1 then boolean.andb self x y
      else z ← lift_l (index c (n - 1)); cy_n_minus_2 ← boolean.xor3 self x y z; boolean.maj self cy_n_minus_2 x y);
    wrapping ← assert_wrapping_add c a b;
    no_carry ← boolean.assert_false self "no_carry_out" carry_out;
    logic.assert_all "assert_checked_add" [wrapping; no_carry].

(** *** Reductions *)
Definition fold {R} (a : list Bitw) (f : R -> R -> M R) (base : Bitw -> M R) (default : R) : M R :=
  if length a =? 0 then mret default else array.tree_fold a f base.
Definition fold2 {R} (a b : list Bitw) (f : R -> R -> M R) (base : Bitw -> Bitw -> M R) (default : R) : M R :=
  assert_l (length a =? length b) ;;
  if length a =? 0 then mret default else array.tree_fold2 a b f base.
Definition all (f : Bitw -> M Bitw) (a : list Bitw) : M Bitw := fold a (boolean.tree_andb self) f boolean.trueb.
Definition any (f : Bitw -> M Bitw) (a : list Bitw) : M Bitw := fold a (boolean.tree_orb self) f boolean.falseb.
Definition eqb (a b : list Bitw) : M Bitw :=
  assert_l (length a =? length b) ;; fold2 a b (boolean.tree_andb self) (boolean.eqb self) boolean.trueb.
Definition neqb (a b : list Bitw) : M Bitw :=
  assert_l (length a =? length b) ;; eq ← eqb a b; boolean.notb eq.
Definition eqmask (a : list Bitw) (b mask : N) : M Bitw :=
  '(eq_bits, _, _) ← foldL (fun '(eq_bits, cur_mask, cur_b) bit_a =>
    eq_bits ← (if N.eqb (N.land cur_mask 1) 1 then
        eq_bit ← (if N.eqb (N.land cur_b 1) 1 then mret bit_a else boolean.notb bit_a);
        mret (eq_bits ++ [eq_bit])
      else mret eq_bits);
    mret (eq_bits, N.shiftr cur_mask 1, N.shiftr cur_b 1)) ([], mask, b) a;
  all mret eq_bits.
Definition lt (a b : list Bitw) : M Bitw :=
  assert_l (length a =? length b) ;;
  res ← fold2 a b lt_reduce lt_base (boolean.trueb, boolean.falseb);
  mret res.2.
Definition leq (a b : list Bitw) : M Bitw := assert_l (length a =? length b) ;; l ← lt b a; boolean.notb l.
Definition gt (a b : list Bitw) : M Bitw := assert_l (length a =? length b) ;; lt b a.
Definition geq (a b : list Bitw) : M Bitw := assert_l (length a =? length b) ;; leq b a.

(** *** Elementwise *)
Definition muxb (b iftrue iffalse : list Bitw) : M (list Bitw) :=
  assert_l (length b =? length iftrue) ;; assert_l (length b =? length iffalse) ;;
  array.map3 b iftrue iffalse (boolean.muxb self).
Definition xor3 (a b c : list Bitw) : M (list Bitw) :=
  assert_l (length a =? length b) ;; assert_l (length a =? length c) ;; array.map3 a b c (boolean.xor3 self).
Definition maj (a b c : list Bitw) : M (list Bitw) :=
  assert_l (length a =? length b) ;; assert_l (length a =? length c) ;; array.map3 a b c (boolean.maj self).
Definition map2_checked (f : Bitw -> Bitw -> M Bitw) (a b : list Bitw) : M (list Bitw) :=
  assert_l (length a =? length b) ;; array.map2 a b f.
Definition andb := map2_checked (boolean.andb self).
Definition orb := map2_checked (boolean.orb self).
Definition or_assuming_at_most_one_true := map2_checked (boolean.or_assuming_at_most_one_true self).
Definition xorb := map2_checked (boolean.xorb self).
Definition tree_xorb := map2_checked (boolean.tree_xorb self).
Definition eq := map2_checked (boolean.eqb self).
Definition ltb := map2_checked (boolean.ltb self).
Definition impliesb := map2_checked (boolean.impliesb self).
Definition notb (a : list Bitw) : M (list Bitw) := array.map a boolean.notb.
Definition precious (a : list Bitw) : M (list Bitw) := array.map a boolean.precious.

(** *** Shifts *)
Definition shl (s : nat) (a : list Bitw) : M (list Bitw) :=
  array.init (length a) (fun i => if s <=? i then x ← lift_l (index a (i - s)); mret (boolean.b x) else mret boolean.falseb).
Definition shr (s : nat) (a : list Bitw) : M (list Bitw) :=
  array.init (length a) (fun i => if i + s <? length a then x ← lift_l (index a (i + s)); mret (boolean.b x) else mret boolean.falseb).
Definition rotr (s : nat) (a : list Bitw) : M (list Bitw) :=
  if length a =? 0 then mret []
  else array.init (length a) (fun i => x ← lift_l (index a ((i + s) mod length a)); mret (boolean.b x)).
(** The remainder of [isize] takes the sign of the dividend. *)
Definition rotl_index (n i s : nat) : nat :=
  Z.to_nat (Z.rem (Z.of_nat i - Z.of_nat s) (Z.of_nat n) + Z.of_nat n) mod n.
Definition rotl (s : nat) (a : list Bitw) : M (list Bitw) :=
  if length a =? 0 then mret []
  else array.init (length a) (fun i => x ← lift_l (index a (rotl_index (length a) i s)); mret (boolean.b x)).

(** *** Constants *)
Definition konst (bools : list bool) : list Bitw := map boolean.konst bools.
Definition zero (n : nat) : list Bitw := map (fun _ => boolean.falseb) (seq 0 n).
Definition is_zero (a : list Bitw) : M Bitw := eqb a (zero (length a)).
(** [(z.checked_shr(i).unwrap_or(0) & 1) == 1] at a width. *)
Definition shifted_bit (width : nat) (z : N) (i : nat) : bool :=
  N.eqb (N.land (if i <? width then N.shiftr z (N.of_nat i) else 0%N) 1) 1.
Definition of_u64 (n : nat) (z : N) : outcome fuel_error (list Bitw) :=
  rust_assert (if n <? 64 then N.ltb z (N.shiftl 1 (N.of_nat n)) else true) ;;
  mret (map (fun i => boolean.konst (shifted_bit 64 z i)) (seq 0 n)).
Definition of_u8 (z : N) : outcome fuel_error (list Bitw) := of_u64 8 z.
Definition of_u32 (z : N) : list Bitw := map (fun i => boolean.konst (shifted_bit 32 z i)) (seq 0 32).
Definition of_u64_val (z : N) : list Bitw := map (fun i => boolean.konst (shifted_bit 64 z i)) (seq 0 64).
Definition relint (f : list Bitw -> list Bitw -> M Bitw) (a : list Bitw) (i : N) : M Bitw :=
  k ← lift_l (of_u64 (length a) i); f a k.

Definition one_hot_mux (n : nat) (selector : list Bitw) (data : nat -> M (list Bitw)) : M (list Bitw) :=
  addends ← array.init (length selector) (fun i =>
    addend ← data i; assert_l (length addend =? n) ;; mret addend);
  array.init n (fun j =>
    boolean.one_hot_muxb self selector (fun i => addend ← lift_l (index addends i); lift_l (index addend j))).
End arithmetic.
End arithmetic.

(** ** Numbers *)
Local Open Scope N_scope.
Fixpoint num (l : list bool) : N := match l with [] => 0 | x :: l => N.b2n x + 2 * num l end.
Lemma num_lt l : num l < 2 ^ N.of_nat (length l).
Proof.
  induction l as [|x l IH]; [done|]. cbn [num length]. rewrite Nat2N.inj_succ, N.pow_succ_r'. destruct x; cbn [N.b2n]; lia.
Qed.
Lemma num_app l l' : num (l ++ l') = num l + 2 ^ N.of_nat (length l) * num l'.
Proof.
  induction l as [|x l IH]; [cbn; lia|]. cbn [num length app]. rewrite IH, Nat2N.inj_succ, N.pow_succ_r'. lia.
Qed.
Lemma num_inj l l' : length l = length l' -> num l = num l' -> l = l'.
Proof.
  revert l'. induction l as [|x l IH]; intros [|x' l'] Hl Hn; try done. cbn [num length] in *. injection Hl as Hl.
  assert (x = x' /\ num l = num l') as [-> Hn'] by (destruct x, x'; cbn [N.b2n] in Hn; split; try done; lia).
  f_equal. by apply IH.
Qed.
Lemma num_complement l : num l + num (map negb l) + 1 = 2 ^ N.of_nat (length l).
Proof.
  induction l as [|x l IH]; [done|]. cbn [num length map]. rewrite Nat2N.inj_succ, N.pow_succ_r'. destruct x; cbn [N.b2n negb]; lia.
Qed.
Lemma num_replicate n : num (replicate n false) = 0.
Proof. induction n as [|n IH]; cbn [replicate num N.b2n]; [done|]. lia. Qed.
Lemma num_testbit l i : N.testbit (num l) (N.of_nat i) = default false (l !! i).
Proof.
  revert i. induction l as [|x l IH]; intros i; [by destruct (N.of_nat i)|]. cbn [num]. rewrite N.add_comm.
  destruct i as [|i]; [apply N.testbit_0_r|]. rewrite Nat2N.inj_succ, N.testbit_succ_r. apply IH.
Qed.
Local Close Scope N_scope.

Section facts.
Context {E : Type} `{AlgebraicFieldLaws E} `{!logic.Logic E} (C : Prop) `{!LogicLaws E C}.
Context (self : Boolean E) (Hself : boolean_ok self).
#[local] Abbreviation bit := (bit C).
#[local] Abbreviation bits := (listR (Boolean.bit C)).

Lemma init_ok {A B} pan (R : World -> A -> B -> Prop) `{!Mono ll_ext R} n (f : nat -> lcomp logic.St A) (g : nat -> B) s : ll_inv s ->
  (forall i s', i < n -> ll_inv s' -> ll_ext s s' -> refines ll_inv ll_ext pan R s' (f i) (g i)) ->
  refines ll_inv ll_ext pan (listR R) s (array.init n f) (map g (seq 0 n)).
Proof.
  intros Hi Hf. apply (refines_mapM ll_inv ll_ext pan eqR R f g); [done| |].
  - induction (seq 0 n); by constructor.
  - intros i i' s' Hin Hi' He Hii. unfold eqR in Hii. subst i'. apply Hf; [|done|done]. apply elem_of_seq in Hin. lia.
Qed.
Lemma bits_length s a l : bits s a l -> length a = length l.
Proof. apply Forall2_length. Qed.
Lemma bits_at s a l i x : bits s a l -> l !! i = Some x -> exists b, a !! i = Some b /\ bit s b x.
Proof. intros Ha Hx. destruct (Forall2_lookup_r _ _ _ _ _ Ha Hx) as (b & ? & ?). by exists b. Qed.
Lemma assert_lengths {A B X Y} pan (R : World -> A -> B -> Prop) (a : list X) (b : list Y) s k y : ll_inv s -> length a = length b ->
  refines ll_inv ll_ext pan R s (k tt) y -> refines ll_inv ll_ext pan R s (assert_l (length a =? length b) ≫= k) y.
Proof. intros Hi Hl Hk. apply refines_assert; [intros Hc%Nat.eqb_neq; lia|done]. Qed.

(** ** Parallel prefix *)
Section scan.
Context {B : Type} (op : B -> B -> B) (op_assoc : forall x y z, op x (op y z) = op (op x y) z).
Fixpoint scan1 (v : option B) (l : list B) : list B :=
  match l with
  | [] => []
  | x :: l => let y := match v with Some v => op v x | None => x end in y :: scan1 (Some y) l
  end.
Lemma scan1_length v l : length (scan1 v l) = length l.
Proof. revert v. induction l as [|x l IH]; intros v; cbn; [done|]. by rewrite IH. Qed.
Lemma scan1_some v l : scan1 (Some v) l = map (op v) (scan1 None l).
Proof.
  assert (forall l w, map (op v) (scan1 (Some w) l) = scan1 (Some (op v w)) l) as Hm.
  { clear l. induction l as [|x l IH]; intros w; cbn; [done|]. by rewrite IH, op_assoc. }
  destruct l as [|x l]; [done|]. cbn. by rewrite Hm.
Qed.
Lemma scan1_app v l l' w : last (scan1 v l) = Some w -> scan1 v (l ++ l') = scan1 v l ++ scan1 (Some w) l'.
Proof.
  revert v. induction l as [|x l IH]; intros v Hw; [done|]. cbn [scan1 app] in *. f_equal.
  destruct l as [|y l]; [cbn in *; by injection Hw as ->|]. apply IH. exact Hw.
Qed.

Context (R : World -> Bitw E * Bitw E -> B -> Prop) `{!Mono ll_ext R} (reduce : Bitw E * Bitw E -> Bitw E * Bitw E -> lcomp logic.St (Bitw E * Bitw E)).
Context (R_b : forall s p y, R s p y -> R s (boolean.b p.1, boolean.b p.2) y).
Context (reduce_ok : forall s p q x y, ll_inv s -> R s p x -> R s q y -> returns R s (reduce p q) (op x y)).

Lemma scan_loop_ok v prev m : forall p q arr s, ll_inv s -> R s prev v -> listR R s arr (p ++ m ++ q) ->
  returns (listR R) s (foldL (arithmetic.scan_loop reduce prev) arr (seq (length p) (length m))) (p ++ map (op v) m ++ q).
Proof.
  induction m as [|x m IH]; intros p q arr s Hi Hp Ha; cbn [foldL seq length map app]; [by apply returns_ret|].
  assert ((p ++ (x :: m) ++ q) !! length p = Some x) as Hx by (rewrite lookup_app_r, Nat.sub_diag by done; done).
  destruct (Forall2_lookup_r _ _ _ _ _ Ha Hx) as (item & Hitem & Hr).
  eapply (returns_bind _ (fun s' arr' l' => listR R s' arr' l') _ _ _ _ (p ++ (op v x :: m) ++ q)).
  - unfold arithmetic.scan_loop. eapply refines_index; [exact Hitem|].
    eapply returns_bind; [by apply reduce_ok|]. intros r s1 Hi1 He1 Hr1.
    rewrite store_Ok by (by eapply lookup_lt_Some). apply (returns_ret False (listR R) s1 (<[length p := r]> arr)); [done|].
    apply (mono s s1) in Ha; [|done]. pose proof (Forall2_insert _ _ _ _ _ (length p) Ha Hr1) as Hins.
    by rewrite insert_app_r_alt, Nat.sub_diag in Hins by done.
  - intros arr' s1 Hi1 He1 Ha1. replace (S (length p)) with (length (p ++ [op v x])) by (rewrite length_app; cbn; lia).
    eapply returns_eq; [apply (IH (p ++ [op v x]) q); [done|by apply (mono s s1)|]|]; by rewrite <- app_assoc.
Qed.
Lemma sklansky_ok fuel : forall p m q arr s, length m <= fuel -> ll_inv s -> listR R s arr (p ++ m ++ q) ->
  returns (listR R) s (arithmetic.sklansky fuel arr (length p) (length p + length m) reduce) (p ++ scan1 None m ++ q).
Proof.
  induction fuel as [|fuel IH]; intros p m q arr s Hf Hi Ha.
  { destruct m as [|]; [|cbn in Hf; lia]. cbn. replace (1 <? length p + 0 - length p) with false by (symmetry; apply Nat.ltb_ge; lia). by apply returns_ret. }
  cbn [arithmetic.sklansky]. replace (length p + length m - length p) with (length m) by lia.
  destruct (Nat.ltb_spec 1 (length m)) as [Hlt|Hge]; cycle 1.
  { destruct m as [|x [|]]; [by apply returns_ret|by apply returns_ret|cbn in Hge; lia]. }
  set (h := (length m / 2)%nat). assert (0 < h < length m) as Hh by (subst h; pose proof (Nat.div_str_pos (length m) 2); pose proof (Nat.div_lt (length m) 2); lia).
  rewrite <- (take_drop h m) in Ha |- *. set (m1 := take h m) in *. set (m2 := drop h m) in *.
  assert (length m1 = h) as Hm1 by (subst m1; rewrite length_take; lia). assert (length m2 = length m - h) as Hm2 by (subst m2; by rewrite length_drop).
  clearbody m1 m2. rewrite length_app, Hm1, Hm2. rewrite <- app_assoc in Ha. rewrite <- Hm1 in *. replace (length m - length m1) with (length m2) by lia.
  eapply returns_bind; [apply (IH p m1 (m2 ++ q)); [lia|done|exact Ha]|]. intros arr1 s1 Hi1 He1 Ha1.
  assert (length (p ++ scan1 None m1) = length p + length m1) as Hl1 by by rewrite length_app, scan1_length.
  eapply returns_bind.
  { rewrite Nat.add_assoc, <- Hl1. apply (IH (p ++ scan1 None m1) m2 q); [lia|done|]. by rewrite <- app_assoc. }
  intros arr2 s2 Hi2 He2 Ha2. destruct (last (scan1 None m1)) as [w|] eqn:Hlast.
  2: { apply last_None in Hlast. apply (f_equal length) in Hlast. rewrite scan1_length in Hlast. cbn in Hlast. lia. }
  assert (((p ++ scan1 None m1) ++ scan1 None m2 ++ q) !! (length p + length m1 - 1) = Some w) as Hw.
  { rewrite lookup_app_l by lia. rewrite last_lookup in Hlast. rewrite scan1_length in Hlast.
    rewrite lookup_app_r by lia. replace (length p + length m1 - 1 - length p) with (pred (length m1)) by lia. done. }
  destruct (Forall2_lookup_r _ _ _ _ _ Ha2 Hw) as (pr & Hpr & Hrw). eapply refines_index; [exact Hpr|].
  eapply returns_eq.
  - rewrite Nat.add_assoc. replace (length p + length m1 + length m2 - (length p + length m1)) with (length (scan1 None m2)) by (rewrite scan1_length; lia).
    rewrite <- Hl1. apply scan_loop_ok with (q := q); [done|by apply R_b|]. done.
  - rewrite (scan1_app _ _ _ w) by done. rewrite scan1_some. by rewrite <- !app_assoc.
Qed.
Lemma scan_ok oarr l s : ll_inv s -> listR R s oarr l -> returns (listR R) s (arithmetic.scan reduce oarr) (scan1 None l).
Proof.
  intros Hi Ha. unfold arithmetic.scan. set (arr := map _ oarr). assert (listR R s arr l) as Ha'.
  { subst arr. clear - Ha R_b. unfold listR in *. induction Ha; constructor; [by apply R_b|done]. }
  pose proof (Forall2_length _ _ _ Ha') as Hl. destruct (Nat.eqb_spec (length arr) 0) as [Hz|Hz].
  - rewrite Hz in Hl. destruct l; [|done]. by apply returns_ret.
  - pose proof (sklansky_ok (length arr) [] l [] arr s) as Hs. cbn [length app] in Hs. rewrite !app_nil_r in Hs. rewrite Hl at 2. apply Hs; [lia|done|done].
Qed.
End scan.
End facts.

(** ** Comparison *)
Section compare.
Local Open Scope N_scope.
(** Equal, and less: of the numbers two columns stand for. *)
Definition cmp (l : list (bool * bool)) : bool * bool := (num l.*1 =? num l.*2, num l.*1 <? num l.*2).
Definition lt_op (x y : bool * bool) : bool * bool := (x.1 && y.1, y.2 || (y.1 && x.2)).
Lemma lt_op_assoc x y z : lt_op x (lt_op y z) = lt_op (lt_op x y) z.
Proof. destruct x as [[] []], y as [[] []], z as [[] []]; reflexivity. Qed.
Lemma cmp_one x y : cmp [(x, y)] = (Bool.eqb x y, negb x && y).
Proof. by destruct x, y. Qed.
Lemma cmp_apart l : (cmp l).1 && (cmp l).2 = false.
Proof. unfold cmp. cbn [fst snd]. destruct (N.eqb_spec (num l.*1) (num l.*2)); [|done]. cbn. apply N.ltb_ge. lia. Qed.
Lemma cmp_app l l' : cmp (l ++ l') = lt_op (cmp l) (cmp l').
Proof.
  unfold cmp, lt_op. cbn [fst snd]. rewrite !fmap_app, !num_app, !length_fmap.
  pose proof (num_lt l.*1) as B1. pose proof (num_lt l.*2) as B2. rewrite !length_fmap in B1, B2.
  set (p := 2 ^ N.of_nat (length l)) in *. set (a := num l.*1) in *. set (b := num l.*2) in *.
  set (a' := num l'.*1) in *. set (b' := num l'.*2) in *. clearbody p a b a' b'. f_equal.
  - destruct (N.eqb_spec a b) as [->|Hne], (N.eqb_spec a' b') as [->|Hne']; cbn [andb]; apply N.eqb_eq || apply N.eqb_neq; nia.
  - destruct (N.ltb_spec a' b') as [Hlt|Hge]; cbn [orb]; [apply N.ltb_lt; nia|].
    destruct (N.eqb_spec a' b') as [->|Hne]; cbn [andb].
    + destruct (N.ltb_spec a b); [apply N.ltb_lt|apply N.ltb_ge]; nia.
    + apply N.ltb_ge. nia.
Qed.
Lemma scan1_cmp l : forall v i, (i < length l)%nat ->
  scan1 lt_op (Some (cmp v)) (map (fun p => cmp [p]) l) !! i = Some (cmp (v ++ take (S i) l)).
Proof.
  induction l as [|p l IH]; intros v i Hi; cbn [length] in Hi; [lia|]. cbn [map scan1]. rewrite <- cmp_app.
  destruct i as [|i]; [done|]. cbn [lookup list_lookup]. rewrite IH by lia. by rewrite <- app_assoc.
Qed.
Lemma scan1_cmp_at l i : (i < length l)%nat -> scan1 lt_op None (map (fun p => cmp [p]) l) !! i = Some (cmp (take (S i) l)).
Proof.
  destruct l as [|p l]; intros Hi; [cbn in Hi; lia|]. cbn [map scan1]. destruct i as [|i]; [done|].
  apply (scan1_cmp l [p] i). cbn in Hi. lia.
Qed.
End compare.

Section numbers.
Context {E : Type} `{AlgebraicFieldLaws E} `{!logic.Logic E} (C : Prop) `{!LogicLaws E C}.
Context (self : Boolean E) (Hself : boolean_ok self).
#[local] Abbreviation bit := (bit C).
#[local] Abbreviation bits := (listR (Boolean.bit C)).

Definition ltR (s : World) (p : Bitw E * Bitw E) (y : bool * bool) : Prop := pairR bit bit s p y /\ y.1 && y.2 = false.
#[export] Instance ltR_mono : Mono ll_ext ltR.
Proof. intros s s' p y He [Hp Hy]. split; [by apply (mono s s')|done]. Qed.
Lemma ltR_b s p y : ltR s p y -> ltR s (boolean.b p.1, boolean.b p.2) y.
Proof. intros [[Hb1 Hb2] Hy]. split; [|done]. split; by apply bit_b. Qed.
Lemma lt_reduce_ok s p q x y : ll_inv s -> ltR s p x -> ltR s q y -> returns ltR s (arithmetic.lt_reduce self p q) (lt_op x y).
Proof.
  intros Hi [[Hp1 Hp2] Hx] [[Hq1 Hq2] Hy]. destruct p as [eq0 lt0], q as [eq1 lt1], x as [x1 x2], y as [y1 y2]. cbn [fst snd] in *.
  unfold arithmetic.lt_reduce. step p0. step p1. step e. step l1. step q1. step l0. step el.
  step_by ltac:(apply (or_ok C self Hself _ l1 el y2 (y1 && x2)); [done| |done|done]; by destruct y1, y2) l.
  apply returns_ret; [done|]. split; [by split|]. unfold lt_op. cbn [fst snd]. by destruct x1, x2, y1, y2.
Qed.
Lemma lt_base_ok s a b x y : ll_inv s -> bit s a x -> bit s b y -> returns ltR s (arithmetic.lt_base self a b) (cmp [(x, y)]).
Proof.
  intros Hi Ha Hb. unfold arithmetic.lt_base. step e. step l. rewrite cmp_one. apply returns_ret; [done|].
  split; [by split|]. by destruct x, y.
Qed.

(** [fold2] over two vectors of one length. *)
Lemma fold2_ok {R R'} (RR : World -> R -> R' -> Prop) `{!Mono ll_ext RR} f base default (ref : list (bool * bool) -> R') s a b l m :
  ll_inv s -> bits s a l -> bits s b m -> length l = length m ->
  (forall s, ll_inv s -> RR s default (ref [])) ->
  (forall x y x' y' s, ll_inv s -> bit s x x' -> bit s y y' -> returns RR s (base x y) (ref [(x', y')])) ->
  (forall l1 l2 r1 r2 s, ll_inv s -> RR s r1 (ref l1) -> RR s r2 (ref l2) -> returns RR s (f r1 r2) (ref (l1 ++ l2))) ->
  returns RR s (arithmetic.fold2 a b f base default) (ref (zip l m)).
Proof.
  intros Hi Ha Hb Hlm Hd Hbase Hf. pose proof (bits_length C _ _ _ Ha) as Hla. pose proof (bits_length C _ _ _ Hb) as Hlb.
  unfold arithmetic.fold2. apply assert_lengths; [done|lia|]. destruct (Nat.eqb_spec (length a) 0) as [Hz|Hnz].
  { destruct l; [|cbn in *; lia]. apply returns_ret; [done|]. by apply Hd. }
  unfold array.tree_fold2. apply assert_lengths; [done|lia|].
  apply refines_assert; [|]. { intros Hc. apply negb_false_iff, Nat.eqb_eq in Hc. lia. }
  intros _.
  assert (listR (pairR bit bit) s (zip a b) (zip l m)) as Hz.
  { clear - Ha Hb. revert b m Hb. induction Ha as [|x x' a l Hx Ha IH]; intros b m Hb; [constructor|].
    destruct Hb as [|y y' b m Hy Hb]; [constructor|]. constructor; [by split|]. by apply IH. }
  pose proof (recur_ok ll_inv ll_ext (fun _ => False) (pairR bit bit) RR f (fun p => base p.1 p.2) ref (zip a b) (zip l m)) as Hr.
  assert (length (zip a b) = length a) as Hlz by (rewrite length_zip; lia).
  assert (length (zip l m) = length a) as Hlz' by (rewrite length_zip; lia).
  specialize (Hr ltac:(tauto)). rewrite <- (take_ge (zip l m) (length a - 0)) by lia. rewrite <- (drop_0 (zip l m)).
  apply Hr; [| |lia|lia|lia|done|done].
  - intros [x y] [x' y'] s' Hi' _ [Hx Hy]. by apply Hbase.
  - intros l1 l2 r1 r2 s' Hi' _ _ _. by apply Hf.
Qed.
Lemma zip_fst (l m : list bool) : length l = length m -> (zip l m).*1 = l.
Proof. intros Hl. apply fst_zip. lia. Qed.
Lemma zip_snd (l m : list bool) : length l = length m -> (zip l m).*2 = m.
Proof. intros Hl. apply snd_zip. lia. Qed.

Lemma lt_ok s a b l m : ll_inv s -> bits s a l -> bits s b m -> length l = length m ->
  returns bit s (arithmetic.lt self a b) (num l <? num m)%N.
Proof.
  intros Hi Ha Hb Hlm. unfold arithmetic.lt. apply assert_lengths; [done|by rewrite (bits_length C _ _ _ Ha), (bits_length C _ _ _ Hb)|].
  eapply returns_bind; [apply (fold2_ok ltR _ _ _ cmp s a b l m); [done..| | |]|].
  - intros s' _. by split.
  - intros x y x' y' s' Hi' Hx Hy. by apply lt_base_ok.
  - intros l1 l2 r1 r2 s' Hi' H1' H2'. rewrite cmp_app. by apply lt_reduce_ok.
  - intros res s1 Hi1 He1 [[_ Hlt] _]. apply returns_ret; [done|]. unfold cmp in Hlt. cbn [fst snd] in Hlt.
    by rewrite zip_fst, zip_snd in Hlt.
Qed.
Lemma eqb_vec_ok s a b l m : ll_inv s -> bits s a l -> bits s b m -> length l = length m ->
  returns bit s (arithmetic.eqb self a b) (num l =? num m)%N.
Proof.
  intros Hi Ha Hb Hlm. unfold arithmetic.eqb. apply assert_lengths; [done|by rewrite (bits_length C _ _ _ Ha), (bits_length C _ _ _ Hb)|].
  eapply returns_eq; [apply (fold2_ok bit _ _ _ (fun l => (cmp l).1) s a b l m); [done..| | |]|].
  - done.
  - intros x y x' y' s' Hi' Hx Hy. rewrite cmp_one. by apply eqb_ok.
  - intros l1 l2 r1 r2 s' Hi' H1' H2'. rewrite cmp_app. by apply tree_andb_ok.
  - unfold cmp. cbn [fst]. by rewrite zip_fst, zip_snd.
Qed.
Lemma leq_ok s a b l m : ll_inv s -> bits s a l -> bits s b m -> length l = length m ->
  returns bit s (arithmetic.leq self a b) (num l <=? num m)%N.
Proof.
  intros Hi Ha Hb Hlm. unfold arithmetic.leq. apply assert_lengths; [done|by rewrite (bits_length C _ _ _ Ha), (bits_length C _ _ _ Hb)|].
  step_by ltac:(by apply (lt_ok _ b a m l)) r. last_step. rewrite N.leb_antisym. done.
Qed.

(** ** Addition *)
Lemma sub_bits l : forall m c, length l = length m ->
  exists d bo, length d = length l /\
    (forall i, i < length l -> d !! i = Some (Bool.eqb (Bool.eqb (l !!! i) (m !!! i))
       ((num (take i l) <? num (take i m) + N.b2n c)%N))) /\
    bo = (num l <? num m + N.b2n c)%N /\
    (num d + num m + N.b2n c = num l + 2 ^ N.of_nat (length l) * N.b2n bo)%N.
Proof.
  induction l as [|x l IH]; intros [|y m] c Hl; try done.
  { exists [], c. split; [done|]. split; [cbn; lia|]. cbn. destruct c; done. }
  injection Hl as Hl. set (c' := (N.b2n x <? N.b2n y + N.b2n c)%N). destruct (IH m c' Hl) as (d & bo & Hd & Hi & Hbo & Hn).
  assert (forall p q, ((N.b2n x + 2 * p <? N.b2n y + 2 * q + N.b2n c) = (p <? q + N.b2n c'))%N) as Hc.
  { intros p q. subst c'. destruct x, y, c; cbn [N.b2n] in *;
    match goal with |- _ = (_ <? _ + N.b2n ?t)%N => let v := eval vm_compute in t in change t with v end; cbn [N.b2n];
    match goal with |- (?u <? ?v)%N = (?w <? ?z)%N => destruct (N.ltb_spec u v), (N.ltb_spec w z); try done; lia end. }
  exists (Bool.eqb (Bool.eqb x y) c :: d), bo. split; [cbn; lia|]. split.
  - intros [|i] Hlt; cbn [lookup list_lookup take num length lookup_total list_lookup_total] in *.
    + f_equal. f_equal. by destruct c.
    + rewrite Hi by lia. f_equal. f_equal. by rewrite Hc.
  - split; [rewrite Hbo; cbn [num]; by rewrite Hc|]. cbn [num length]. rewrite Nat2N.inj_succ, N.pow_succ_r'.
    enough (N.b2n (Bool.eqb (Bool.eqb x y) c) + N.b2n y + N.b2n c = N.b2n x + 2 * N.b2n c')%N by lia.
    subst c'. by destruct x, y, c.
Qed.

(** The vector of a number. *)
Definition vec (n : nat) (v : N) : list bool := map (fun i => N.testbit v (N.of_nat i)) (seq 0 n).
Lemma length_vec n v : length (vec n v) = n.
Proof. unfold vec. by rewrite length_map, length_seq. Qed.
Lemma vec_num l : vec (length l) (num l) = l.
Proof.
  apply list_eq. intros i. unfold vec. change (map ?f ?l) with (f <$> l). rewrite list_lookup_fmap.
  destruct (l !! i) as [x|] eqn:Hx.
  - rewrite lookup_seq_lt by (by eapply lookup_lt_Some). cbn. by rewrite num_testbit, Hx.
  - apply lookup_ge_None in Hx. by rewrite lookup_seq_ge.
Qed.
Lemma num_vec n v : (num (vec n v) = v mod 2 ^ N.of_nat n)%N.
Proof.
  apply N.bits_inj. intros i. destruct (N.ltb_spec i (N.of_nat n)) as [Hlt|Hge].
  - rewrite N.mod_pow2_bits_low by done. replace i with (N.of_nat (N.to_nat i)) by lia. rewrite num_testbit. unfold vec.
    change (map ?f ?l) with (f <$> l). rewrite list_lookup_fmap, lookup_seq_lt by lia. done.
  - rewrite N.mod_pow2_bits_high by done. replace i with (N.of_nat (N.to_nat i)) by lia. rewrite num_testbit.
    rewrite lookup_ge_None_2; [done|]. rewrite length_vec. lia.
Qed.
Lemma vec_unique n v l : length l = n -> (num l = v mod 2 ^ N.of_nat n)%N -> l = vec n v.
Proof. intros Hl Hn. apply num_inj; [by rewrite length_vec|]. by rewrite num_vec. Qed.
Lemma pow2_pos n : (0 < 2 ^ N.of_nat n)%N.
Proof. apply N.neq_0_lt_0. apply N.pow_nonzero. done. Qed.

Lemma seq_zip {A B} `{Inhabited A} `{Inhabited B} (f : A * B -> bool * bool) (l : list A) (m : list B) : length l = length m ->
  map (fun i => f (l !!! i, m !!! i)) (seq 0 (length l)) = map f (zip l m).
Proof.
  intros Hl. apply list_eq. intros i. change (map ?f ?l) with (f <$> l). rewrite !list_lookup_fmap, lookup_zip_with.
  destruct (l !! i) as [x|] eqn:Hx.
  - pose proof (lookup_lt_Some _ _ _ Hx) as Hlt. rewrite lookup_seq_lt by done. destruct (lookup_lt_is_Some_2 m i) as [y Hy]; [lia|].
    rewrite Hy. cbn. by rewrite (list_lookup_total_correct _ _ _ Hx), (list_lookup_total_correct _ _ _ Hy).
  - apply lookup_ge_None in Hx. by rewrite lookup_seq_ge.
Qed.
Lemma unchecked_sub_ok s a b l m : ll_inv s -> bits s a l -> bits s b m -> length l = length m -> 0 < length l ->
  returns (pairR bits bit) s (arithmetic.unchecked_sub self a b)
    (vec (length l) (num l + 2 ^ N.of_nat (length l) - num m)%N, (num l <? num m)%N).
Proof.
  intros Hi Ha Hb Hlm Hpos. pose proof (bits_length C _ _ _ Ha) as Hla. pose proof (bits_length C _ _ _ Hb) as Hlb.
  unfold arithmetic.unchecked_sub. apply assert_lengths; [done|lia|].
  apply refines_assert; [intros Hc%Nat.ltb_ge; lia|intros _]. rewrite Hla.
  step_by ltac:(eapply (init_ok C False ltR _ _ (fun i => cmp [(l !!! i, m !!! i)])); [done|]) olteq.
  { intros i s' Hlt Hi' He. destruct (lookup_lt_is_Some_2 l i Hlt) as [x Hx]. destruct (lookup_lt_is_Some_2 m i) as [y Hy]; [lia|].
    apply (mono s s') in Ha; [|done]. apply (mono s s') in Hb; [|done].
    destruct (bits_at C _ _ _ _ _ Ha Hx) as (p & Hp & Hpx). destruct (bits_at C _ _ _ _ _ Hb Hy) as (q & Hq & Hqy).
    eapply refines_index; [exact Hp|]. eapply refines_index; [exact Hq|].
    rewrite (list_lookup_total_correct _ _ _ Hx), (list_lookup_total_correct _ _ _ Hy). by apply lt_base_ok. }
  rewrite (seq_zip (fun p => cmp [p]) l m Hlm) in Holteq.
  step_by ltac:(eapply (scan_ok C lt_op lt_op_assoc ltR _ ltR_b); [intros; by apply lt_reduce_ok|done|exact Holteq]) lteq.
  destruct (sub_bits l m false Hlm) as (d & bo & Hd & Hdi & Hbo & Hn).
  cbn [N.b2n] in Hbo, Hn. rewrite N.add_0_r in Hbo, Hn.
  assert (forall i s', i < length l -> listR ltR s' lteq (scan1 lt_op None (map (fun p => cmp [p]) (zip l m))) ->
    exists p, lteq !! i = Some p /\ bit s' p.2 (num (take (S i) l) <? num (take (S i) m))%N) as Hcarry.
  { intros i s' Hlt Hl'. assert (length (zip l m) = length l) as Hz by (rewrite length_zip; lia).
    destruct (Forall2_lookup_r _ _ _ i _ Hl' (scan1_cmp_at (zip l m) i ltac:(lia))) as (p & Hp & [[_ Hp2] _]).
    exists p. split; [done|]. unfold cmp in Hp2. cbn [snd] in Hp2. by rewrite !fmap_take, zip_fst, zip_snd in Hp2. }
  step_by ltac:(eapply (init_ok C False bit _ _ (fun i => d !!! i)); [done|]) c.
  { intros i s' Hlt Hi' He. apply (mono s s') in Holteq; [|done]. apply (mono s s') in Hlteq; [|done].
    assert (map (fun p => cmp [p]) (zip l m) !! i = Some (cmp [(l !!! i, m !!! i)])) as Hci.
    { rewrite <- seq_zip by done. change (map ?f ?l) with (f <$> l). rewrite list_lookup_fmap, lookup_seq_lt by done. done. }
    destruct (Forall2_lookup_r _ _ _ _ _ Holteq Hci) as (o & Ho & [[Ho1 _] _]). rewrite cmp_one in Ho1. cbn [fst] in Ho1.
    pose proof (Hdi i Hlt) as Hdi'. cbn [N.b2n] in Hdi'. rewrite N.add_0_r in Hdi'. rewrite (list_lookup_total_correct _ _ _ Hdi').
    destruct i as [|i]; cbn [Nat.eqb].
    - eapply returns_bind; [apply (returns_ret _ bit _ _ false); [done|done]|]. intros carry s2 Hi2 He2 Hc2.
      apply (mono s' s2) in Ho1; [|done]. eapply refines_index; [exact Ho|]. by apply eqb_ok.
    - destruct (Hcarry i s' ltac:(lia) Hlteq) as (p & Hp & Hp2). replace (S i - 1) with i by lia.
      eapply (returns_bind _ bit _ _ _ _ (num (take (S i) l) <? num (take (S i) m))%N).
      { eapply refines_index; [exact Hp|]. apply returns_ret; [done|by apply bit_b]. }
      intros carry s2 Hi2 He2 Hc2. apply (mono s' s2) in Ho1; [|done]. eapply refines_index; [exact Ho|]. by apply eqb_ok. }
  destruct (Hcarry (length l - 1) _ ltac:(lia) Hlteq) as (p & Hp & Hp2). eapply refines_index; [exact Hp|].
  apply returns_ret; [done|]. replace (S (length l - 1)) with (length l) in Hp2 by lia. rewrite !take_ge in Hp2 by lia.
  split; [|by apply bit_b]. cbn [fst]. replace (vec _ _) with (map (fun i => d !!! i) (seq 0 (length l))); [done|].
  assert (map (fun i => d !!! i) (seq 0 (length l)) = d) as ->.
  { rewrite <- Hd. clear. apply list_eq. intros i. change (map ?f ?l) with (f <$> l). rewrite list_lookup_fmap. destruct (d !! i) as [x|] eqn:Hx.
    - rewrite lookup_seq_lt by (by eapply lookup_lt_Some). cbn. by rewrite (list_lookup_total_correct _ _ _ Hx).
    - apply lookup_ge_None in Hx. by rewrite lookup_seq_ge. }
  apply vec_unique; [done|]. pose proof (num_lt d) as Bd. pose proof (num_lt m) as Bm. pose proof (num_lt l) as Bl. rewrite Hd in Bd. rewrite <- Hlm in Bm.
  apply (N.mod_unique _ _ (if num l <? num m then 0 else 1)%N); [done|]. rewrite Hbo in Hn. destruct (num l <? num m)%N; cbn [N.b2n] in Hn; lia.
Qed.
Lemma notb_vec_ok s a l : ll_inv s -> bits s a l -> returns bits s (mapM boolean.notb a) (map negb l).
Proof. intros Hi Ha. apply (refines_mapM ll_inv ll_ext False bit bit boolean.notb negb); [done|done|]. intros x y s' _ Hi' _ Hx. by apply notb_ok. Qed.
Lemma unchecked_add_ok s a b l m : ll_inv s -> bits s a l -> bits s b m -> length l = length m -> 0 < length l ->
  returns (pairR bits bit) s (arithmetic.unchecked_add self a b)
    (vec (length l) (num l + num m), (2 ^ N.of_nat (length l) <=? num l + num m)%N).
Proof.
  intros Hi Ha Hb Hlm Hpos. unfold arithmetic.unchecked_add. apply assert_lengths; [done|by rewrite (bits_length C _ _ _ Ha), (bits_length C _ _ _ Hb)|].
  step_by ltac:(by apply notb_vec_ok) na.
  step_by ltac:(apply (unchecked_sub_ok _ _ _ (map negb l) m); [done..|by rewrite length_map|by rewrite length_map]) r.
  destruct r as [c carry]. destruct Hr as [Hc Hcarry]. cbn [fst snd] in *. rewrite length_map in Hc.
  step_by ltac:(by apply notb_vec_ok) nc. apply returns_ret; [done|].
  pose proof (num_complement l) as Hcl. pose proof (num_lt m) as Bm. rewrite <- Hlm in Bm. pose proof (num_lt l) as Bl. split; cbn [fst snd].
  - match goal with H : listR _ _ nc ?v |- listR _ _ nc ?w => replace w with v; [exact H|] end.
    apply vec_unique; [by rewrite length_map, length_vec|].
    match goal with |- context [map negb ?v] => pose proof (num_complement v) as Hcv; rewrite length_vec, num_vec in Hcv; set (nv := num (map negb v)) in * end.
    set (p := (2 ^ N.of_nat (length l))%N) in *. set (q := num (map negb l)) in *. clearbody nv p q.
    destruct (N.ltb_spec q (num m)) as [Hlt|Hge].
    + rewrite N.mod_small in Hcv by lia. apply (N.mod_unique _ _ 1%N); lia.
    + rewrite <- (N.mod_unique (q + p - num m) p 1 (q - num m)) in Hcv by lia. apply (N.mod_unique _ _ 0%N); lia.
  - match goal with H : Boolean.bit _ _ carry ?v |- Boolean.bit _ _ carry ?w => replace w with v; [exact H|] end.
    destruct (N.ltb_spec (num (map negb l)) (num m)), (N.leb_spec (2 ^ N.of_nat (length l)) (num l + num m)); try done; lia.
Qed.
End numbers.
#[export] Hint Resolve lt_ok eqb_vec_ok leq_ok unchecked_sub_ok unchecked_add_ok : gadget.

(** ** Carries *)
Section carries.
Local Open Scope N_scope.
Definition carry_in (l m : list bool) (i : nat) : bool := 2 ^ N.of_nat i <=? num (take i l) + num (take i m).
Definition maj (x y z : bool) : bool := (x && y) || (x && z) || (y && z).
Lemma num_take_S l i : (i < length l)%nat -> num (take (S i) l) = num (take i l) + 2 ^ N.of_nat i * N.b2n (l !!! i).
Proof.
  intros Hi. destruct (lookup_lt_is_Some_2 l i Hi) as [x Hx]. rewrite (take_S_r _ _ _ Hx), num_app, length_take, (list_lookup_total_correct _ _ _ Hx).
  rewrite Nat.min_l by lia. cbn [num]. lia.
Qed.
Lemma num_take_lt l i : num (take i l) < 2 ^ N.of_nat i.
Proof.
  eapply N.lt_le_trans; [apply num_lt|]. apply N.pow_le_mono_r; [done|]. rewrite length_take. lia.
Qed.
Lemma carry_in_0 l m : carry_in l m 0 = false.
Proof. done. Qed.
Lemma carry_in_S l m i : (i < length l)%nat -> (i < length m)%nat -> carry_in l m (S i) = maj (carry_in l m i) (l !!! i) (m !!! i).
Proof.
  intros Hl Hm. unfold carry_in. rewrite !num_take_S by done. pose proof (num_take_lt l i) as Bl. pose proof (num_take_lt m i) as Bm.
  rewrite Nat2N.inj_succ, N.pow_succ_r'. set (p := 2 ^ N.of_nat i) in *. set (a := num (take i l)) in *. set (b := num (take i m)) in *.
  destruct (l !!! i), (m !!! i); cbn [N.b2n]; destruct (N.leb_spec p (a + b)) as [Hc|Hc]; cbn [maj andb orb];
    apply N.leb_le || apply N.leb_gt; lia.
Qed.
Lemma sum_bit l m i : length l = length m -> (i < length l)%nat ->
  N.testbit (num l + num m) (N.of_nat i) = xorb (l !!! i) (xorb (m !!! i) (carry_in l m i)).
Proof.
  intros Hlm Hi. destruct (lookup_lt_is_Some_2 l i Hi) as [x Hx]. destruct (lookup_lt_is_Some_2 m i) as [y Hy]; [lia|].
  rewrite (list_lookup_total_correct _ _ _ Hx), (list_lookup_total_correct _ _ _ Hy).
  rewrite <- (take_drop_middle l i x Hx) at 1. rewrite <- (take_drop_middle m i y Hy) at 1. rewrite !num_app, !length_take, !Nat.min_l by lia.
  unfold carry_in. pose proof (num_take_lt l i) as Bl. pose proof (num_take_lt m i) as Bm. cbn [num].
  set (p := 2 ^ N.of_nat i) in *. set (a := num (take i l)) in *. set (b := num (take i m)) in *. set (u := num (drop (S i) l)). set (w := num (drop (S i) m)).
  rewrite N.testbit_eqb. fold p.
  replace (a + p * (N.b2n x + 2 * u) + (b + p * (N.b2n y + 2 * w))) with ((a + b) + (N.b2n x + N.b2n y + 2 * (u + w)) * p) by lia.
  assert (p <> 0) as Hp by (apply N.pow_nonzero; done). rewrite N.div_add by done.
  destruct (N.leb_spec p (a + b)) as [Hc|Hc].
  - rewrite <- (N.div_unique (a + b) p 1 (a + b - p)) by lia.
    replace (1 + (N.b2n x + N.b2n y + 2 * (u + w))) with ((1 + N.b2n x + N.b2n y) + (u + w) * 2) by lia. rewrite N.Div0.mod_add. by destruct x, y.
  - rewrite N.div_small by lia. replace (0 + (N.b2n x + N.b2n y + 2 * (u + w))) with ((N.b2n x + N.b2n y) + (u + w) * 2) by lia.
    rewrite N.Div0.mod_add. by destruct x, y.
Qed.
(** [c] is the sum when each carry, read off the next bit of [c], follows
    from the one before. *)
Definition next_carry (l m c : list bool) (i : nat) : bool := xorb (l !!! S i) (xorb (m !!! S i) (c !!! S i)).
Definition carry_ok (l m c : list bool) (i : nat) : Prop :=
  next_carry l m c i = match i with O => (l !!! O) && (m !!! O) | S j => maj (next_carry l m c j) (l !!! i) (m !!! i) end.
Lemma carries_iff l m c : length l = length m -> length l = length c -> (0 < length l)%nat ->
  (c !!! O = xorb (l !!! O) (m !!! O) /\ Forall (carry_ok l m c) (seq 0 (length l - 1))) <-> num c = (num l + num m) mod 2 ^ N.of_nat (length l).
Proof.
  intros Hlm Hlc Hpos.
  assert (forall i, (i < length l)%nat -> c !!! i = N.testbit (num c) (N.of_nat i)) as Hc.
  { intros i Hi. rewrite num_testbit. destruct (lookup_lt_is_Some_2 c i) as [z Hz]; [lia|]. by rewrite Hz, (list_lookup_total_correct _ _ _ Hz). }
  split.
  - intros [H0' HF]. rewrite Forall_forall in HF.
    assert (forall i, (S i < length l)%nat -> next_carry l m c i = carry_in l m (S i)) as Hk.
    { induction i as [|i IH]; intros Hi.
      - assert (carry_ok l m c 0) as Hok by (apply HF, elem_of_seq; lia). unfold carry_ok in Hok. rewrite Hok, carry_in_S by lia.
        rewrite carry_in_0. by destruct (l !!! 0%nat), (m !!! 0%nat).
      - assert (carry_ok l m c (S i)) as Hok by (apply HF, elem_of_seq; lia). unfold carry_ok in Hok. rewrite Hok, carry_in_S, IH by lia. done. }
    rewrite <- num_vec. f_equal. apply list_eq. intros i. unfold vec. change (map ?f ?l) with (f <$> l). rewrite list_lookup_fmap.
    destruct (decide (i < length l)%nat) as [Hi|Hi]; [|rewrite lookup_seq_ge, lookup_ge_None_2 by lia; done].
    rewrite lookup_seq_lt by done. cbn. rewrite sum_bit by done. destruct (lookup_lt_is_Some_2 c i) as [z Hz]; [lia|]. rewrite Hz. f_equal.
    rewrite <- (list_lookup_total_correct _ _ _ Hz). destruct i as [|i].
    + rewrite H0', carry_in_0. by destruct (l !!! 0%nat), (m !!! 0%nat).
    + rewrite <- Hk by done. unfold next_carry. by destruct (l !!! S i), (m !!! S i), (c !!! S i).
  - intros Hn. assert (forall i, (i < length l)%nat -> c !!! i = xorb (l !!! i) (xorb (m !!! i) (carry_in l m i))) as Hs.
    { intros i Hi. rewrite Hc, Hn, N.mod_pow2_bits_low by lia. by apply sum_bit. }
    assert (forall i, (S i < length l)%nat -> next_carry l m c i = carry_in l m (S i)) as Hk.
    { intros i Hi. unfold next_carry. rewrite Hs by done. by destruct (l !!! S i), (m !!! S i), (carry_in l m (S i)). }
    split; [rewrite Hs, carry_in_0 by done; by destruct (l !!! 0%nat), (m !!! 0%nat)|]. apply Forall_forall. intros i Hi. apply elem_of_seq in Hi.
    unfold carry_ok. rewrite Hk, carry_in_S by lia. destruct i as [|i]; [rewrite carry_in_0; by destruct (l !!! 0%nat), (m !!! 0%nat)|].
    by rewrite Hk by lia.
Qed.
End carries.

(** ** Assertions *)
Section assertions.
Context {E : Type} `{AlgebraicFieldLaws E} `{!logic.Logic E} (C : Prop) `{!LogicLaws E C}.
Context (self : Boolean E) (Hself : boolean_ok self).
#[local] Abbreviation bit := (bit C).
#[local] Abbreviation bits := (listR (Boolean.bit C)).

Lemma checked_add_vec_ok s a b l m : ll_inv s -> bits s a l -> bits s b m -> length l = length m -> 0 < length l ->
  refines ll_inv ll_ext (ll_rejects /\ ~ (num l + num m < 2 ^ N.of_nat (length l))%N) (pairR bits (asserts C)) s (arithmetic.checked_add self a b)
    (vec (length l) (num l + num m), (num l + num m < 2 ^ N.of_nat (length l))%N).
Proof.
  intros Hi Ha Hb Hlm Hpos. unfold arithmetic.checked_add. apply assert_lengths; [done|by rewrite (bits_length C _ _ _ Ha), (bits_length C _ _ _ Hb)|].
  step r. destruct r as [sum carry]. destruct Hr as [Hsum Hcarry]. cbn [fst snd] in *.
  check_by ltac:(eapply checks_iff; [apply N.leb_gt|by apply assert_false_ok]) a0; [done|].
  apply returns_ret; [done|]. by split.
Qed.
Lemma checked_sub_ok s a b l m : ll_inv s -> bits s a l -> bits s b m -> length l = length m -> 0 < length l ->
  refines ll_inv ll_ext (ll_rejects /\ ~ (num m <= num l)%N) (pairR bits (asserts C)) s (arithmetic.checked_sub self a b)
    (vec (length l) (num l + 2 ^ N.of_nat (length l) - num m), (num m <= num l)%N).
Proof.
  intros Hi Ha Hb Hlm Hpos. unfold arithmetic.checked_sub. apply assert_lengths; [done|by rewrite (bits_length C _ _ _ Ha), (bits_length C _ _ _ Hb)|].
  step r. destruct r as [sum carry]. destruct Hr as [Hsum Hcarry]. cbn [fst snd] in *.
  check_by ltac:(eapply checks_iff; [apply N.ltb_ge|by apply assert_false_ok]) a0; [done|].
  apply returns_ret; [done|]. by split.
Qed.
Lemma wrapping_add_ok s a b l m : ll_inv s -> bits s a l -> bits s b m -> length l = length m -> 0 < length l ->
  returns bits s (arithmetic.wrapping_add self a b) (vec (length l) (num l + num m)).
Proof.
  intros Hi Ha Hb Hlm Hpos. unfold arithmetic.wrapping_add. apply assert_lengths; [done|by rewrite (bits_length C _ _ _ Ha), (bits_length C _ _ _ Hb)|].
  step r. by apply returns_ret; [|apply Hr].
Qed.
Lemma wrapping_sub_ok s a b l m : ll_inv s -> bits s a l -> bits s b m -> length l = length m -> 0 < length l ->
  returns bits s (arithmetic.wrapping_sub self a b) (vec (length l) (num l + 2 ^ N.of_nat (length l) - num m)).
Proof.
  intros Hi Ha Hb Hlm Hpos. unfold arithmetic.wrapping_sub. apply assert_lengths; [done|by rewrite (bits_length C _ _ _ Ha), (bits_length C _ _ _ Hb)|].
  step r. by apply returns_ret; [|apply Hr].
Qed.

Lemma bits_index {A B} pan (R : World -> A -> B -> Prop) s a l i (k : Bitw E -> lcomp logic.St A) y : bits s a l -> i < length l ->
  (forall b, bit s b (l !!! i) -> refines ll_inv ll_ext pan R s (k b) y) ->
  refines ll_inv ll_ext pan R s (lift_l (index a i) ≫= k) y.
Proof.
  intros Ha Hi Hk. destruct (lookup_lt_is_Some_2 l i Hi) as [x Hx]. destruct (bits_at C _ _ _ _ _ Ha Hx) as (b & Hb & Hbx).
  eapply refines_index; [exact Hb|]. apply Hk. by rewrite (list_lookup_total_correct _ _ _ Hx).
Qed.

Lemma assert_wrapping_add_ok s c a b n l m : ll_inv s -> bits s c n -> bits s a l -> bits s b m -> length l = length m -> length l = length n ->
  checks C s (arithmetic.assert_wrapping_add self c a b) (num n = (num l + num m) mod 2 ^ N.of_nat (length l))%N.
Proof.
  intros Hi Hc Ha Hb Hlm Hln. pose proof (bits_length C _ _ _ Ha) as La. pose proof (bits_length C _ _ _ Hb) as Lb. pose proof (bits_length C _ _ _ Hc) as Lc.
  unfold arithmetic.assert_wrapping_add. do 2 (apply assert_lengths; [done|lia|]). rewrite La. destruct (Nat.eqb_spec (length l) 0) as [Hz|Hnz].
  { destruct l, n, m; try done. eapply checks_iff; [|eapply refines_mono; [by apply ll_ok|done|done]]. done. }
  apply (bits_index _ _ _ _ n); [done|lia|]. intros c0 Hc0. apply (bits_index _ _ _ _ l); [done|lia|]. intros a0 Ha0.
  apply (bits_index _ _ _ _ m); [done|lia|]. intros b0 Hb0. step x0.
  check_by ltac:(by apply assert_eq_bits_ok) fst_a; [intros Hr Hf; split; [exact Hr|]; rewrite <- carries_iff by lia; tauto|].
  step_by ltac:(eapply (init_ok C False bit _ _ (next_carry l m n)); [done|]) cy.
  { intros i s' Hlt Hi' He. apply (mono _ s') in Ha; [|done]. apply (mono _ s') in Hb; [|done]. apply (mono _ s') in Hc; [|done].
    unfold next_carry. rewrite Nat.add_1_r.
    apply (bits_index _ _ _ _ l); [done|lia|]. intros x Hx. apply (bits_index _ _ _ _ m); [done|lia|]. intros y Hy.
    apply (bits_index _ _ _ _ n); [done|lia|]. intros z Hz. by apply xor3_ok. }
  assert (forall i, i < length l - 1 -> map (next_carry l m n) (seq 0 (length l - 1)) !!! i = next_carry l m n i) as Hnc.
  { intros i Hlt. apply list_lookup_total_correct. change (map ?f ?l) with (f <$> l). by rewrite list_lookup_fmap, lookup_seq_lt. }
  assert (length (map (next_carry l m n) (seq 0 (length l - 1))) = length l - 1) as Hncl by by rewrite length_map, length_seq.
  check_by ltac:(eapply (assert_mapi_ok C _ _ _ (carry_ok l m n)); [done|done| |reflexivity]) rest.
  { intros i s' Hin Hi' He. apply elem_of_seq in Hin. apply (mono _ s') in Hcy; [|done]. apply (mono _ s') in Ha; [|done].
    apply (mono _ s') in Hb; [|done]. apply (mono _ s') in Ha0; [|done]. apply (mono _ s') in Hb0; [|done].
    assert (returns bit s' (if (i =? 0)%nat then boolean.andb self a0 b0 else prev ← lift_l (index cy (i - 1)); x ← lift_l (index a i); y ← lift_l (index b i); boolean.maj self prev x y)
      match i with O => (l !!! O) && (m !!! O) | S j => maj (next_carry l m n j) (l !!! i) (m !!! i) end) as Ht.
    { destruct i as [|i]; [by apply andb_ok|]. cbn [Nat.eqb]. replace (S i - 1) with i by lia.
      eapply (bits_index False bit _ _ _ _ _ _ Hcy); [lia|]. intros p Hp. rewrite Hnc in Hp by lia.
      apply (bits_index _ _ _ _ l); [done|lia|]. intros x Hx. apply (bits_index _ _ _ _ m); [done|lia|]. intros y Hy.
      by apply maj_ok. }
    step_by ltac:(exact Ht) t. eapply (bits_index _ _ _ _ _ _ _ _ Hcy); [lia|]. intros cyi Hcyi. rewrite Hnc in Hcyi by lia.
    apply unit_body. by apply assert_eq_bits_ok. }
  { intros Hr Hf. split; [exact Hr|]. rewrite <- carries_iff by lia. tauto. }
  apply (assert_all_ok C _ _ [n !!! 0 = xorb (l !!! 0) (m !!! 0); Forall (carry_ok l m n) (seq 0 (length l - 1))]); [done|done|by repeat constructor|].
  rewrite Forall_cons, Forall_singleton. unfold id. apply carries_iff; lia.
Qed.
Lemma last_bit_carry l m n : length l = length m -> length l = length n -> 0 < length l -> (num n = (num l + num m) mod 2 ^ N.of_nat (length l))%N ->
  (if length l =? 1 then (l !!! (length l - 1)) && (m !!! (length l - 1))
   else maj (next_carry l m n (length l - 2)) (l !!! (length l - 1)) (m !!! (length l - 1))) = carry_in l m (length l).
Proof.
  intros Hlm Hln Hpos Hn. apply carries_iff in Hn as [H0' HF]; [|lia..]. rewrite Forall_forall in HF.
  assert (forall i, S i < length l -> next_carry l m n i = carry_in l m (S i)) as Hk.
  { induction i as [|i IH]; intros Hlt.
    - assert (carry_ok l m n 0) as Hok by (apply HF, elem_of_seq; lia). unfold carry_ok in Hok. rewrite Hok, carry_in_S, carry_in_0 by lia.
      by destruct (l !!! 0), (m !!! 0).
    - assert (carry_ok l m n (S i)) as Hok by (apply HF, elem_of_seq; lia). unfold carry_ok in Hok. by rewrite Hok, carry_in_S, IH by lia. }
  replace (carry_in l m (length l)) with (carry_in l m (S (length l - 1))) by (f_equal; lia). rewrite carry_in_S by lia.
  destruct (Nat.eqb_spec (length l) 1) as [->|Hne]; [rewrite carry_in_0; by destruct (l !!! (1 - 1)), (m !!! (1 - 1))|].
  rewrite Hk by lia. do 2 f_equal. lia.
Qed.
Lemma assert_checked_add_ok s c a b n l m : ll_inv s -> bits s c n -> bits s a l -> bits s b m -> length l = length m -> length l = length n ->
  checks C s (arithmetic.assert_checked_add self c a b) (num n = num l + num m)%N.
Proof.
  intros Hi Hc Ha Hb Hlm Hln. pose proof (bits_length C _ _ _ Ha) as La. pose proof (bits_length C _ _ _ Hb) as Lb. pose proof (bits_length C _ _ _ Hc) as Lc.
  unfold arithmetic.assert_checked_add. do 2 (apply assert_lengths; [done|lia|]). rewrite La. destruct (Nat.eqb_spec (length l) 0) as [Hz|Hnz].
  { destruct l, n, m; try done. eapply checks_iff; [|eapply refines_mono; [by apply ll_ok|done|done]]. done. }
  apply (bits_index _ _ _ _ l); [done|lia|]. intros x Hx. apply (bits_index _ _ _ _ m); [done|lia|]. intros y Hy.
  set (co := if length l =? 1 then (l !!! (length l - 1)) && (m !!! (length l - 1))
   else maj (next_carry l m n (length l - 2)) (l !!! (length l - 1)) (m !!! (length l - 1))).
  assert ((num n = (num l + num m) mod 2 ^ N.of_nat (length l))%N /\ co = false <-> (num n = num l + num m)%N) as Hiff.
  { pose proof (num_lt n) as Bn. rewrite <- Hln in Bn. split.
    - intros [Hn Hco]. pose proof (last_bit_carry l m n Hlm Hln ltac:(lia) Hn) as Hl. fold co in Hl. rewrite Hco in Hl. unfold carry_in in Hl.
      symmetry in Hl. apply N.leb_gt in Hl. rewrite !take_ge in Hl by lia. rewrite N.mod_small in Hn by lia. done.
    - intros Hn. assert (num n = (num l + num m) mod 2 ^ N.of_nat (length l))%N as Hm by (rewrite N.mod_small by lia; done). split; [done|].
      pose proof (last_bit_carry l m n Hlm Hln ltac:(lia) Hm) as Hl. fold co in Hl. rewrite Hl. unfold carry_in. rewrite !take_ge by lia. apply N.leb_gt. lia. }
  eapply (returns_bind _ bit _ _ _ _ co).
  { subst co. destruct (Nat.eqb_spec (length l) 1) as [H1l|H1l]; [by apply andb_ok|].
    apply (bits_index _ _ _ _ n); [done|lia|]. intros z Hz. step p. apply maj_ok; [done..| |done|done].
    unfold next_carry. replace (S (length l - 2)) with (length l - 1) by lia. done. }
  next co'. check_by ltac:(by apply (assert_wrapping_add_ok _ c a b n l m)) w; [rewrite <- Hiff; tauto|].
  check_by ltac:(by apply assert_false_ok) nc; [rewrite <- Hiff; tauto|].
  apply (assert_all_ok C _ _ [(num n = (num l + num m) mod 2 ^ N.of_nat (length l))%N; co = false]); [done|done|by repeat constructor|].
  rewrite Forall_cons, Forall_singleton. unfold id. exact Hiff.
Qed.
End assertions.

(** ** Vectors in one field element

    [basis i]: the weight of bit [i].  Vectors no longer than the dimension
    are told apart by their sums. *)
Class CompileFieldLaws (E : Type) `{CompileField E} := {
  basis : nat -> E;
  pseudo_basis_ok i : i < pseudo_dimension -> pseudo_basis i = Ok (basis i);
  pseudo_basis_unsafe_ok i : i < pseudo_dimension -> pseudo_basis_unsafe i = Ok (basis i);
  basis_inj (l m : list bool) : length l = length m -> length l <= pseudo_dimension ->
    fsum (imap (fun i x => fmul (basis i) (of_bool x)) l) = fsum (imap (fun i x => fmul (basis i) (of_bool x)) m) -> l = m;
  pseudo_dimension_pos : 0 < pseudo_dimension
}.

Section encoding.
Context {E : Type} `{AlgebraicFieldLaws E} `{!logic.Logic E} (C : Prop) `{!LogicLaws E C} `{!CompileField E} `{!CompileFieldLaws E}.
Context (self : Boolean E) (Hself : boolean_ok self).
#[local] Abbreviation bit := (bit C).
#[local] Abbreviation bits := (listR (Boolean.bit C)).

Definition encode (l : list bool) : E := fsum (imap (fun i x => fmul (basis i) (of_bool x)) l).
Lemma encode_inj l m : length l = length m -> length l <= pseudo_dimension -> encode l = encode m <-> l = m.
Proof. intros Hl Hd. split; [by apply basis_inj|by intros ->]. Qed.

Lemma indexed_ok s a l : bits s a l -> listR (pairR eqR bit) s (zip (seq 0 (length a)) a) (zip (seq 0 (length l)) l).
Proof.
  intros Ha. rewrite (bits_length C _ _ _ Ha). generalize (seq 0 (length l)). intros idx. revert idx.
  induction Ha as [|b x a l Hb Ha IH]; intros [|i idx]; try constructor; [by split|apply IH].
Qed.
Lemma indexed_map {B} (f : nat -> bool -> B) l : map (fun p => f p.1 p.2) (zip (seq 0 (length l)) l) = imap f l.
Proof.
  apply list_eq. intros i. change (map ?f ?l) with (f <$> l). rewrite list_lookup_fmap, lookup_zip_with, list_lookup_imap.
  destruct (l !! i) as [x|] eqn:Hx; [by rewrite lookup_seq_lt by (by eapply lookup_lt_Some)|].
  apply lookup_ge_None in Hx. by rewrite lookup_seq_ge.
Qed.
Lemma indexed_in {B} (l : list B) p : p ∈ zip (seq 0 (length l)) l -> p.1 < length l.
Proof. destruct p as [i x]. intros Hin. apply elem_of_zip_l, elem_of_seq in Hin. cbn. lia. Qed.
Lemma basis_terms_ok (f : nat -> outcome fuel_error E) s a l : (forall i, i < length l -> f i = Ok (basis i)) -> ll_inv s -> bits s a l ->
  returns (den C) s (arithmetic.basis_terms self f a) (encode l).
Proof.
  intros Hf Hi Ha. unfold arithmetic.basis_terms.
  step_by ltac:(eapply (refines_mapM ll_inv ll_ext False (pairR eqR bit) (den C) _ (fun p => fmul (basis p.1) (of_bool p.2))); [done|by apply indexed_ok|]) ts.
  - intros [i b] [i' x] s' Hin Hi' He [Heq Hb]. cbn [fst snd] in *. unfold eqR in Heq. subst i'.
    rewrite Hf by (by apply indexed_in in Hin). eapply refines_lift. step w. by apply ll_mulk.
  - rewrite (indexed_map (fun i x => fmul (basis i) (of_bool x))) in Hts. by apply ll_sum.
Qed.
Lemma as_eltw_field_ok s a l : length l <= pseudo_dimension -> ll_inv s -> bits s a l -> returns (den C) s (arithmetic.as_eltw_field self a) (encode l).
Proof.
  intros Hl Hi Ha. unfold arithmetic.as_eltw_field. apply refines_assert; [|].
  { intros Hc%Nat.leb_gt. rewrite (bits_length C _ _ _ Ha) in Hc. lia. }
  intros _. apply basis_terms_ok; [|done|done]. intros i Hlt. apply pseudo_basis_ok. lia.
Qed.
Lemma as_eltw_unsafe_ok s a l : length l <= pseudo_dimension -> ll_inv s -> bits s a l -> returns (den C) s (arithmetic.as_eltw_unsafe self a) (encode l).
Proof.
  intros Hl Hi Ha. apply basis_terms_ok; [|done|done]. intros i Hlt. apply pseudo_basis_unsafe_ok. lia.
Qed.

(** Equality, one chunk of bits at a time. *)
Definition chunk_step (l m : list bool) (st : nat * nat * nat) (i : nat) : Prop * (nat * nat * nat) :=
  let '(rn, rk, idx) := st in
  (take (rn / rk) (drop idx l) = take (rn / rk) (drop idx m), (rn - rn / rk, rk - 1, idx + rn / rk)).
Definition chunk_inv (n : nat) (range : list nat) (_ : World) (v b : nat * nat * nat) : Prop :=
  v = b /\ let '(rn, rk, idx) := b in rk = length range /\ rn + idx = n /\ rn <= rk * pseudo_dimension.
#[local] Instance chunk_inv_mono n range : Mono ll_ext (chunk_inv n range).
Proof. by intros s s' v b _. Qed.
Lemma chunk_shrinks rn k d : 0 < d -> rn <= S k * d -> rn / S k <= d /\ rn - rn / S k <= k * d.
Proof.
  intros Hd Hrn. pose proof (Nat.div_mod_eq rn (S k)) as Hdm. pose proof (Nat.mod_upper_bound rn (S k)) as Hm.
  set (q := rn / S k) in *. set (r := rn mod S k) in *. clearbody q r.
  assert (q <= d) as Hq by nia. split; [done|]. destruct (decide (q = d)) as [->|]; nia.
Qed.
Lemma chunks_iff l m range rn idx : length l = length m -> rn + idx = length l -> rn <= length range * pseudo_dimension ->
  Forall id (mapi_props (chunk_step l m) (rn, length range, idx) range) <-> drop idx l = drop idx m.
Proof.
  intros Hlm. revert rn idx. induction range as [|i range IH]; intros rn idx Hn Hd; cbn [mapi_props chunk_step length].
  - split; [|by constructor]. intros _. rewrite !drop_ge by (cbn in Hd; lia). done.
  - cbn [length] in Hd. destruct (chunk_shrinks rn (length range) pseudo_dimension pseudo_dimension_pos Hd) as [Hq Hr].
    rewrite Forall_cons. replace (S (length range) - 1) with (length range) by lia.
    pose proof (Nat.Div0.div_le_upper_bound rn (S (length range)) rn ltac:(nia)) as Hle.
    rewrite IH by lia. unfold id. set (q := (rn / S (length range))%nat) in *.
    rewrite <- !(drop_drop _ q idx). split; [|by intros ->].
    intros [Ht Hdr]. by rewrite <- (take_drop q (drop idx l)), Ht, Hdr, take_drop.
Qed.
Lemma bits_slice s a l i j : bits s a l -> i <= j <= length l -> exists c, slice (E:=fuel_error) a i j = Ok c /\ bits s c (take (j - i) (drop i l)).
Proof.
  intros Ha Hij. pose proof (bits_length C _ _ _ Ha) as La. rewrite slice_Ok by lia. eexists. split; [reflexivity|].
  by apply Forall2_take, Forall2_drop.
Qed.
Lemma assert_eq_vec_ok s name a b l m : ll_inv s -> name <> ""%string -> bits s a l -> bits s b m -> length l = length m ->
  checks C s (arithmetic.assert_eq self name a b) (l = m).
Proof.
  intros Hi Hn Ha Hb Hlm. pose proof (bits_length C _ _ _ Ha) as La. pose proof (bits_length C _ _ _ Hb) as Lb. pose proof pseudo_dimension_pos as Hd.
  unfold arithmetic.assert_eq. apply assert_lengths; [done|lia|]. rewrite La. destruct (Nat.eqb_spec (length l) 0) as [Hz|Hnz].
  { destruct l, m; try done. eapply checks_iff; [|eapply refines_mono; [by apply ll_ok|done|done]]. done. }
  apply refines_assert; [|intros _]. { intros Hc. apply negb_false_iff, Nat.eqb_eq in Hc. lia. }
  set (k := (length l + pseudo_dimension - 1) / pseudo_dimension).
  assert (length l <= k * pseudo_dimension) as Hk.
  { subst k. pose proof (Nat.div_mod_eq (length l + pseudo_dimension - 1) pseudo_dimension) as Hdm.
    pose proof (Nat.mod_upper_bound (length l + pseudo_dimension - 1) pseudo_dimension). nia. }
  apply (assert_mapi_gen C _ _ _ _ (chunk_inv (length l)) (chunk_step l m) (length l, k, 0)); [done|done| | |].
  - split; [done|]. rewrite length_seq. split; [done|]. split; [lia|done].
  - intros vars [[rn rk] idx] i rest s' _ Hi' He [-> (Hrk & Hsum & Hrn)]. cbn [length] in Hrk. cbn [chunk_step fst]. subst rk.
    destruct (chunk_shrinks rn (length rest) pseudo_dimension Hd Hrn) as [Hq Hr].
    pose proof (Nat.Div0.div_le_upper_bound rn (S (length rest)) rn ltac:(nia)) as Hle. set (q := (rn / S (length rest))%nat) in *.
    apply (mono s s') in Ha; [|done]. apply (mono s s') in Hb; [|done].
    destruct (bits_slice s' a l idx (idx + q) Ha) as (ca & Hca & Hba); [lia|]. destruct (bits_slice s' b m idx (idx + q) Hb) as (cb & Hcb & Hbb); [lia|].
    rewrite Hca, Hcb. do 2 eapply refines_lift. replace (idx + q - idx) with q in Hba, Hbb by lia.
    assert (length (take q (drop idx l)) = q) as Hl1 by (rewrite length_take, length_drop; lia).
    assert (length (take q (drop idx m)) = q) as Hl2 by (rewrite length_take, length_drop; lia).
    step_by ltac:(apply as_eltw_field_ok; [|done|exact Hba]; lia) ea. step_by ltac:(apply as_eltw_field_ok; [|done|exact Hbb]; lia) eb.
    check_by ltac:(eapply checks_iff; [|by apply (assert_eq_ok C)]; apply encode_inj; lia) r; [done|].
    apply returns_ret; [done|]. split; [done|]. split; [done|]. cbn [fst snd]. split; [lia|]. split; [lia|]. by replace (S (length rest) - 1) with (length rest) by lia.
  - replace k with (length (seq 0 k)) at 1 by apply length_seq. rewrite chunks_iff; [done|done|lia|]. by rewrite length_seq.
Qed.
Lemma constant_iff (l : list bool) y : Forall (fun i => l !!! i = y) (seq 0 (length l)) <-> l = replicate (length l) y.
Proof.
  rewrite Forall_forall. split.
  - intros Hf. apply list_eq. intros i. destruct (decide (i < length l)) as [Hlt|Hge].
    + rewrite lookup_replicate_2 by done. destruct (lookup_lt_is_Some_2 l i Hlt) as [x Hx]. rewrite Hx. f_equal.
      rewrite <- (list_lookup_total_correct _ _ _ Hx). apply Hf, elem_of_seq. lia.
    + rewrite !lookup_ge_None_2; [done|rewrite length_replicate|]; lia.
  - intros Hl i Hin%elem_of_seq. apply list_lookup_total_correct. rewrite Hl. apply lookup_replicate_2. lia.
Qed.
Lemma bitwise_check s name a l y (check : string -> Bitw E -> lcomp logic.St logic.Assertions) :
  ll_inv s -> name <> ""%string -> bits s a l ->
  (forall s i b x, ll_inv s -> bit s b x -> checks C s (check (arithmetic.bit_name i) b) (x = y)) ->
  checks C s (logic.assert_mapi name (seq 0 (length a)) (fun _ i => x ← lift_l (index a i); r ← check (arithmetic.bit_name i) x; mret (r, tt)) tt)
    (l = replicate (length l) y).
Proof.
  intros Hi Hn Ha Hc. rewrite (bits_length C _ _ _ Ha).
  apply (assert_mapi_ok C _ _ _ (fun i => l !!! i = y)); [done|done| |apply constant_iff].
  intros i s' Hin Hi' He. apply elem_of_seq in Hin. apply (mono s s') in Ha; [|done].
  eapply bits_index; [exact Ha|lia|]. intros b Hb. apply unit_body. by apply Hc.
Qed.
Lemma assert_false_vec_ok s name a l : ll_inv s -> name <> ""%string -> bits s a l ->
  checks C s (arithmetic.assert_false self name a) (l = replicate (length l) false).
Proof. intros Hi Hn Ha. apply bitwise_check; [done..|]. intros. by apply assert_false_ok. Qed.
Lemma assert_true_vec_ok s name a l : ll_inv s -> name <> ""%string -> bits s a l ->
  checks C s (arithmetic.assert_true self name a) (l = replicate (length l) true).
Proof. intros Hi Hn Ha. apply bitwise_check; [done..|]. intros. by apply assert_true_ok. Qed.
End encoding.

(** ** Elementwise operations, shifts and constants *)
Section elementwise.
Context {E : Type} `{AlgebraicFieldLaws E} `{!logic.Logic E} (C : Prop) `{!LogicLaws E C}.
Context (self : Boolean E) (Hself : boolean_ok self).
#[local] Abbreviation bit := (bit C).
#[local] Abbreviation bits := (listR (Boolean.bit C)).

(** The vector of a function on its indices. *)
Definition tabulate (n : nat) (f : nat -> bool) : list bool := map f (seq 0 n).
Lemma length_tabulate n f : length (tabulate n f) = n.
Proof. unfold tabulate. by rewrite length_map, length_seq. Qed.
Lemma tabulate_at n f i : i < n -> tabulate n f !!! i = f i.
Proof. intros Hi. apply list_lookup_total_correct. unfold tabulate. change (map ?f ?l) with (f <$> l). by rewrite list_lookup_fmap, lookup_seq_lt. Qed.
Lemma tabulate_ext n f g : (forall i, i < n -> f i = g i) -> tabulate n f = tabulate n g.
Proof. intros Hfg. apply map_ext_in. intros i Hi%list_elem_of_In%elem_of_seq. apply Hfg. lia. Qed.
Lemma tabulate_lookup l : tabulate (length l) (fun i => l !!! i) = l.
Proof.
  apply list_eq. intros i. unfold tabulate. change (map ?f ?l) with (f <$> l). rewrite list_lookup_fmap. destruct (l !! i) as [x|] eqn:Hx.
  - rewrite lookup_seq_lt by (by eapply lookup_lt_Some). cbn. by rewrite (list_lookup_total_correct _ _ _ Hx).
  - apply lookup_ge_None in Hx. by rewrite lookup_seq_ge.
Qed.
Lemma tabulate_map (f : bool -> bool) l : tabulate (length l) (fun i => f (l !!! i)) = map f l.
Proof.
  transitivity (map f (tabulate (length l) (fun i => l !!! i))); [|by rewrite tabulate_lookup]. unfold tabulate. by rewrite map_map.
Qed.

Lemma init_bits_ok n f g s : ll_inv s -> (forall i s', i < n -> ll_inv s' -> ll_ext s s' -> returns bit s' (f i) (g i)) ->
  returns bits s (array.init n f) (tabulate n g).
Proof. apply init_ok, _. Qed.

Lemma map2_ok f g s a b l m : ll_inv s -> bits s a l -> bits s b m -> length l = length m ->
  (forall s x y x' y', ll_inv s -> bit s x x' -> bit s y y' -> returns bit s (f x y) (g x' y')) ->
  returns bits s (arithmetic.map2_checked f a b) (tabulate (length l) (fun i => g (l !!! i) (m !!! i))).
Proof.
  intros Hi Ha Hb Hlm Hf. pose proof (bits_length C _ _ _ Ha) as La. pose proof (bits_length C _ _ _ Hb) as Lb.
  unfold arithmetic.map2_checked, array.map2. do 2 (apply assert_lengths; [done|lia|]). rewrite La. apply init_bits_ok; [done|].
  intros i s' Hlt Hi' He. apply (mono s s') in Ha; [|done]. apply (mono s s') in Hb; [|done].
  eapply (bits_index C _ _ _ _ _ _ _ _ Ha); [lia|]. intros x Hx. eapply (bits_index C _ _ _ _ _ _ _ _ Hb); [lia|]. intros y Hy. by apply Hf.
Qed.
Lemma map3_ok f g s a b c l m n : ll_inv s -> bits s a l -> bits s b m -> bits s c n -> length l = length m -> length l = length n ->
  (forall s x y z x' y' z', ll_inv s -> bit s x x' -> bit s y y' -> bit s z z' -> returns bit s (f x y z) (g x' y' z')) ->
  returns bits s (array.map3 a b c f) (tabulate (length l) (fun i => g (l !!! i) (m !!! i) (n !!! i))).
Proof.
  intros Hi Ha Hb Hc Hlm Hln Hf. pose proof (bits_length C _ _ _ Ha) as La. pose proof (bits_length C _ _ _ Hb) as Lb. pose proof (bits_length C _ _ _ Hc) as Lc.
  unfold array.map3. do 2 (apply assert_lengths; [done|lia|]). rewrite La. apply init_bits_ok; [done|].
  intros i s' Hlt Hi' He. apply (mono s s') in Ha; [|done]. apply (mono s s') in Hb; [|done]. apply (mono s s') in Hc; [|done].
  eapply (bits_index C _ _ _ _ _ _ _ _ Ha); [lia|]. intros x Hx. eapply (bits_index C _ _ _ _ _ _ _ _ Hb); [lia|]. intros y Hy.
  eapply (bits_index C _ _ _ _ _ _ _ _ Hc); [lia|]. intros z Hz. by apply Hf.
Qed.
Lemma muxb_vec_ok s a b c l m n : ll_inv s -> bits s a l -> bits s b m -> bits s c n -> length l = length m -> length l = length n ->
  returns bits s (arithmetic.muxb self a b c) (tabulate (length l) (fun i => if (l !!! i : bool) then m !!! i else n !!! i)).
Proof.
  intros Hi Ha Hb Hc Hlm Hln. unfold arithmetic.muxb.
  do 2 (apply assert_lengths; [done|rewrite ?(bits_length C _ _ _ Ha), ?(bits_length C _ _ _ Hb), ?(bits_length C _ _ _ Hc); done|]).
  apply (map3_ok _ (fun x y z : bool => if x then y else z)); [done..|]. intros. by apply muxb_ok.
Qed.
Lemma xor3_vec_ok s a b c l m n : ll_inv s -> bits s a l -> bits s b m -> bits s c n -> length l = length m -> length l = length n ->
  returns bits s (arithmetic.xor3 self a b c) (tabulate (length l) (fun i => xorb (l !!! i) (xorb (m !!! i) (n !!! i)))).
Proof.
  intros Hi Ha Hb Hc Hlm Hln. unfold arithmetic.xor3.
  do 2 (apply assert_lengths; [done|rewrite ?(bits_length C _ _ _ Ha), ?(bits_length C _ _ _ Hb), ?(bits_length C _ _ _ Hc); done|]).
  apply (map3_ok _ (fun x y z : bool => xorb x (xorb y z))); [done..|]. intros. by apply xor3_ok.
Qed.
Lemma maj_vec_ok s a b c l m n : ll_inv s -> bits s a l -> bits s b m -> bits s c n -> length l = length m -> length l = length n ->
  returns bits s (arithmetic.maj self a b c) (tabulate (length l) (fun i => maj (l !!! i) (m !!! i) (n !!! i))).
Proof.
  intros Hi Ha Hb Hc Hlm Hln. unfold arithmetic.maj.
  do 2 (apply assert_lengths; [done|rewrite ?(bits_length C _ _ _ Ha), ?(bits_length C _ _ _ Hb), ?(bits_length C _ _ _ Hc); done|]).
  apply (map3_ok _ maj); [done..|]. intros. by apply maj_ok.
Qed.
Lemma bitwise_ok s a b l m : ll_inv s -> bits s a l -> bits s b m -> length l = length m ->
  returns bits s (arithmetic.andb self a b) (tabulate (length l) (fun i => (l !!! i) && (m !!! i))) /\
  returns bits s (arithmetic.orb self a b) (tabulate (length l) (fun i => (l !!! i) || (m !!! i))) /\
  returns bits s (arithmetic.xorb self a b) (tabulate (length l) (fun i => xorb (l !!! i) (m !!! i))) /\
  returns bits s (arithmetic.tree_xorb self a b) (tabulate (length l) (fun i => xorb (l !!! i) (m !!! i))) /\
  returns bits s (arithmetic.eq self a b) (tabulate (length l) (fun i => Bool.eqb (l !!! i) (m !!! i))) /\
  returns bits s (arithmetic.ltb self a b) (tabulate (length l) (fun i => negb (l !!! i) && (m !!! i))) /\
  returns bits s (arithmetic.impliesb self a b) (tabulate (length l) (fun i => implb (l !!! i) (m !!! i))).
Proof.
  intros Hi Ha Hb Hlm. split_and!;
    [apply (map2_ok _ andb)|apply (map2_ok _ orb)|apply (map2_ok _ xorb)|apply (map2_ok _ xorb)|apply (map2_ok _ Bool.eqb)
    |apply (map2_ok _ (fun x y => negb x && y))|apply (map2_ok _ implb)]; try done; intros.
  - by apply andb_ok.
  - by apply orb_ok.
  - by apply xorb_ok.
  - by apply tree_xorb_ok.
  - by apply eqb_ok.
  - by apply ltb_ok.
  - by apply impliesb_ok.
Qed.
Lemma notb_vec_values s a l : ll_inv s -> bits s a l -> returns bits s (arithmetic.notb a) (map negb l).
Proof. apply (notb_vec_ok C). Qed.
Lemma precious_vec_ok s a l : ll_inv s -> bits s a l -> returns bits s (arithmetic.precious a) l.
Proof.
  intros Hi Ha. eapply returns_eq; [apply (refines_mapM ll_inv ll_ext False bit bit boolean.precious id a l); [done|done|]|symmetry; apply map_id].
  intros x y s' _ Hi' _ Hx. by apply precious_ok.
Qed.

Lemma read_bit s a l i : ll_inv s -> bits s a l -> i < length l -> returns bit s (x ← lift_l (index a i); mret (boolean.b x)) (l !!! i).
Proof. intros Hi Ha Hlt. eapply bits_index; [exact Ha|done|]. intros b Hb. apply returns_ret; [done|by apply bit_b]. Qed.
Definition shl_bits (k : nat) (l : list bool) := tabulate (length l) (fun i => if k <=? i then l !!! (i - k) else false).
Definition shr_bits (k : nat) (l : list bool) := tabulate (length l) (fun i => if i + k <? length l then l !!! (i + k) else false).
Definition rotr_bits (k : nat) (l : list bool) := tabulate (length l) (fun i => l !!! ((i + k) mod length l)).
Definition rotl_bits (k : nat) (l : list bool) := tabulate (length l) (fun i => l !!! (arithmetic.rotl_index (length l) i k)).
Lemma shl_ok k s a l : ll_inv s -> bits s a l -> returns bits s (arithmetic.shl k a) (shl_bits k l).
Proof.
  intros Hi Ha. unfold arithmetic.shl, shl_bits. rewrite (bits_length C _ _ _ Ha). apply init_bits_ok; [done|]. intros i s' Hlt Hi' He.
  apply (mono s s') in Ha; [|done]. destruct (Nat.leb_spec k i); [apply read_bit; [done|done|lia]|by apply returns_ret].
Qed.
Lemma shr_ok k s a l : ll_inv s -> bits s a l -> returns bits s (arithmetic.shr k a) (shr_bits k l).
Proof.
  intros Hi Ha. unfold arithmetic.shr, shr_bits. rewrite (bits_length C _ _ _ Ha). apply init_bits_ok; [done|]. intros i s' Hlt Hi' He.
  apply (mono s s') in Ha; [|done]. destruct (Nat.ltb_spec (i + k) (length l)); [by apply read_bit|by apply returns_ret].
Qed.
Lemma rotr_ok k s a l : ll_inv s -> bits s a l -> returns bits s (arithmetic.rotr k a) (rotr_bits k l).
Proof.
  intros Hi Ha. unfold arithmetic.rotr, rotr_bits. rewrite (bits_length C _ _ _ Ha). destruct (Nat.eqb_spec (length l) 0) as [Hz|Hnz].
  { destruct l; [|done]. apply returns_ret; [done|constructor]. }
  apply init_bits_ok; [done|]. intros i s' Hlt Hi' He. apply (mono s s') in Ha; [|done]. apply read_bit; [done|done|]. by apply Nat.mod_upper_bound.
Qed.
Lemma rotl_ok k s a l : ll_inv s -> bits s a l -> returns bits s (arithmetic.rotl k a) (rotl_bits k l).
Proof.
  intros Hi Ha. unfold arithmetic.rotl, rotl_bits. rewrite (bits_length C _ _ _ Ha). destruct (Nat.eqb_spec (length l) 0) as [Hz|Hnz].
  { destruct l; [|done]. apply returns_ret; [done|constructor]. }
  apply init_bits_ok; [done|]. intros i s' Hlt Hi' He. apply (mono s s') in Ha; [|done]. apply read_bit; [done|done|]. by apply Nat.mod_upper_bound.
Qed.
(** Rotating to the left undoes rotating to the right. *)
Lemma rotl_index_ok n i k : i < n -> k <= n -> (arithmetic.rotl_index n i k + k) mod n = i.
Proof.
  intros Hi Hk. unfold arithmetic.rotl_index. rewrite Nat.Div0.add_mod_idemp_l.
  destruct (Nat.leb_spec k i) as [Hki|Hki].
  - rewrite Z.rem_small by lia. replace (Z.to_nat _ + k) with (i + 1 * n) by lia. rewrite Nat.Div0.mod_add. by apply Nat.mod_small.
  - destruct (decide (k - i = n)) as [Heq|Hne].
    + replace (Z.of_nat i - Z.of_nat k)%Z with ((-1) * Z.of_nat n)%Z by lia. rewrite Z.rem_mul by lia.
      replace (Z.to_nat _ + k) with (i + 2 * n) by lia. rewrite Nat.Div0.mod_add. by apply Nat.mod_small.
    + replace (Z.of_nat i - Z.of_nat k)%Z with (- Z.of_nat (k - i))%Z by lia. rewrite Z.rem_opp_l, Z.rem_small by lia.
      replace (Z.to_nat _ + k) with (i + 1 * n) by lia. rewrite Nat.Div0.mod_add. by apply Nat.mod_small.
Qed.
Lemma rotl_rotr k l : k <= length l -> rotl_bits k (rotr_bits k l) = l.
Proof.
  intros Hk. transitivity (tabulate (length l) (fun i => l !!! i)); [|apply tabulate_lookup].
  unfold rotl_bits, rotr_bits. rewrite !length_tabulate. apply tabulate_ext. intros i Hi.
  rewrite tabulate_at by (apply Nat.mod_upper_bound; lia). by rewrite rotl_index_ok.
Qed.

Lemma konst_vec_ok s l : bits s (arithmetic.konst l) l.
Proof. induction l as [|x l IH]; constructor; [by apply konst_ok|done]. Qed.
Lemma shifted_bit_ok w z i : (z < 2 ^ N.of_nat w)%N -> arithmetic.shifted_bit w z i = N.testbit z (N.of_nat i).
Proof.
  intros Hz. unfold arithmetic.shifted_bit. change 1%N with (N.ones 1) at 1. rewrite N.land_ones. change (2 ^ 1)%N with 2%N.
  destruct (Nat.ltb_spec i w) as [Hlt|Hge].
  - rewrite N.testbit_eqb, N.shiftr_div_pow2. done.
  - cbn. symmetry. destruct (N.eq_dec z 0) as [->|Hnz]; [by rewrite N.bits_0|]. apply N.bits_above_log2. apply N.log2_lt_pow2; [lia|].
    eapply N.lt_le_trans; [exact Hz|]. apply N.pow_le_mono_r; lia.
Qed.
Lemma constants_ok s w z n : (z < 2 ^ N.of_nat w)%N -> bits s (map (fun i => boolean.konst (arithmetic.shifted_bit w z i)) (seq 0 n)) (vec n z).
Proof.
  intros Hz. unfold vec. induction (seq 0 n) as [|i l IH]; constructor; [|exact IH]. rewrite shifted_bit_ok by done. apply konst_ok.
Qed.
Lemma of_u32_ok s z : (z < 2 ^ 32)%N -> bits s (arithmetic.of_u32 z) (vec 32 z).
Proof. apply (constants_ok s 32 z 32). Qed.
Lemma of_u64_ok s n z : (z < 2 ^ 64)%N -> (z < 2 ^ N.of_nat n)%N -> exists a, arithmetic.of_u64 n z = Ok a /\ bits s a (vec n z).
Proof.
  intros Hz Hn. unfold arithmetic.of_u64. assert ((if (n <? 64)%nat then (z <? N.shiftl 1 (N.of_nat n))%N else true) = true) as ->.
  { destruct (n <? 64)%nat; [|done]. apply N.ltb_lt. by rewrite N.shiftl_1_l. }
  cbn. eexists. split; [reflexivity|]. by apply (constants_ok s 64 z n).
Qed.
(** Integers that do not fit are rejected. *)
Lemma of_u64_too_wide n z : n < 64 -> (2 ^ N.of_nat n <= z)%N -> arithmetic.of_u64 (E:=E) n z = Panic.
Proof.
  intros Hn Hz. unfold arithmetic.of_u64. rewrite (proj2 (Nat.ltb_lt _ _) Hn), N.shiftl_1_l. by rewrite (proj2 (N.ltb_ge _ _) Hz).
Qed.
Lemma zero_ok s n : bits s (arithmetic.zero n) (replicate n false).
Proof.
  unfold arithmetic.zero. generalize 0. induction n as [|n IH]; intros k; cbn [seq map replicate]; constructor; [done|apply IH].
Qed.
Lemma is_zero_vec_ok s a l : ll_inv s -> bits s a l -> returns bit s (arithmetic.is_zero self a) (num l =? 0)%N.
Proof.
  intros Hi Ha. unfold arithmetic.is_zero. rewrite (bits_length C _ _ _ Ha). eapply returns_eq.
  - apply (eqb_vec_ok C self Hself _ _ _ l (replicate (length l) false)); [done|done|apply zero_ok|by rewrite length_replicate].
  - by rewrite num_replicate.
Qed.
Lemma neqb_vec_ok s a b l m : ll_inv s -> bits s a l -> bits s b m -> length l = length m ->
  returns bit s (arithmetic.neqb self a b) (negb (num l =? num m)%N).
Proof.
  intros Hi Ha Hb Hlm. unfold arithmetic.neqb. apply assert_lengths; [done|by rewrite (bits_length C _ _ _ Ha), (bits_length C _ _ _ Hb)|].
  step r. by apply notb_ok.
Qed.

(** Quantifiers over the bits. *)
Lemma fold_ok (f : Bitw E -> lcomp logic.St (Bitw E)) (p : bool -> bool) op (opb : bool -> bool -> bool) e default s a l :
  ll_inv s -> bits s a l -> (forall s b x, ll_inv s -> bit s b x -> returns bit s (f b) (p x)) ->
  (forall s x y x' y', ll_inv s -> bit s x x' -> bit s y y' -> returns bit s (op x y) (opb x' y')) ->
  (forall x y z, opb x (opb y z) = opb (opb x y) z) -> (forall x, opb e x = x) -> (forall x, opb x e = x) -> bit s default e ->
  returns bit s (arithmetic.fold a op f default) (foldr opb e (map p l)).
Proof.
  intros Hi Ha Hf Hop Hassoc Hl Hr Hd. unfold arithmetic.fold. rewrite (bits_length C _ _ _ Ha). destruct (Nat.eqb_spec (length l) 0) as [Hz|Hnz].
  { destruct l; [|done]. by apply returns_ret. }
  apply (tree_fold_ok ll_inv ll_ext (fun _ => False) bit bit _ _ (fun l => foldr opb e (map p l))); [tauto| | |done|by destruct l|done].
  - intros x y s' Hi' _ Hx. cbn. rewrite Hr. by apply Hf.
  - intros l1 l2 r1 r2 s' Hi' _ _ _ Hr1 Hr2. eapply returns_eq; [by apply Hop|].
    rewrite map_app, foldr_app. generalize (foldr opb e (map p l2)). intros y. clear - Hassoc Hl.
    induction (map p l1) as [|x l IH]; cbn; [by rewrite Hl|]. by rewrite IH, Hassoc.
Qed.
Lemma all_ok f p s a l : ll_inv s -> bits s a l -> (forall s b x, ll_inv s -> bit s b x -> returns bit s (f b) (p x)) ->
  returns bit s (arithmetic.all self f a) (forallb p l).
Proof.
  intros Hi Ha Hf. eapply returns_eq; [apply (fold_ok f p _ andb true); [done..| | | | |]|].
  - intros. by apply tree_andb_ok.
  - apply andb_assoc.
  - done.
  - apply andb_true_r.
  - done.
  - clear. induction l as [|x l IH]; cbn; [done|]. by rewrite IH.
Qed.
Lemma any_ok f p s a l : ll_inv s -> bits s a l -> (forall s b x, ll_inv s -> bit s b x -> returns bit s (f b) (p x)) ->
  returns bit s (arithmetic.any self f a) (existsb p l).
Proof.
  intros Hi Ha Hf. eapply returns_eq; [apply (fold_ok f p _ orb false); [done..| | | | |]|].
  - intros. by apply tree_orb_ok.
  - apply orb_assoc.
  - done.
  - apply orb_false_r.
  - done.
  - clear. induction l as [|x l IH]; cbn; [done|]. by rewrite IH.
Qed.
End elementwise.
