(* ===== verification/Bitvec.v ===== *)
(** * Fixed-width vectors ([src/rust/circuits/{bitvec,memcmp,analog_adder}/src/circuit.rs])

    [BitvecLogic] is [Arithmetic] on vectors whose width is part of their
    type; [Memcmp] compares strings of bytes; [AnalogAdder] asserts that a
    vector is a sum modulo a power of two, with one of two encodings of sums
    in the field. *)
From stdpp Require Import prelude strings pretty.
From Stdlib Require Import Lia NArith ZArith ZifyNat ZifyN Ring Ring_theory.
From S2P Require Import Prelude Words Interfaces Field FieldFacts CompilerIR Logic Boolean Arithmetic.

(** A vector of the type [Bitvec<L, N>] is the list of its [N] bits; [width]
    is the type's parameter where an operation looks at it. *)
Record BitvecLogic (E : Type) := { bv_arith : Boolean E; bv_boolean : Boolean E }.
Arguments bv_arith {_} _. Arguments bv_boolean {_} _. Arguments Build_BitvecLogic {_} _ _.

Module bitvec.
Section bitvec.
Context {E : Type} `{AlgebraicField E} `{!logic.Logic E}.
#[local] Abbreviation M := (lcomp logic.St).
#[local] Abbreviation Bitw := (Bitw E).
#[local] Abbreviation Bitvec := (list Bitw).

(** [Bitvec::new] *)
Definition checked (width : nat) (bits : list Bitw) : M Bitvec := assert_l (length bits =? width) ;; mret bits.
Definition is_empty (width : nat) : bool := width =? 0.
Definition bit (v : Bitvec) (k : nat) : outcome fuel_error Bitw := index v k.

(** [BitvecLogic::new]: an [Arithmetic] has a [Boolean] of its own. *)
Definition new : outcome fuel_error (BitvecLogic E) :=
  arith ← boolean.new; boolean ← boolean.new; mret (Build_BitvecLogic arith boolean).

Context (self : BitvecLogic E).
#[local] Abbreviation arith := (bv_arith self).

Definition b (x : Bitw) : Bitw := boolean.b x.
Definition from_fn (width : nat) (f : nat -> M Bitw) : M Bitvec := array.init width f.
Definition from_vec (width : nat) (vec : list Bitw) : option Bitvec := if length vec =? width then Some vec else None.
Definition zext_bit (width : nat) (bv : Bitvec) (i : nat) : outcome fuel_error Bitw :=
  if i <? width then x ← index bv i; mret (b x) else mret boolean.falseb.
Definition map (bv : Bitvec) (f : Bitw -> M Bitw) : M Bitvec := array.map bv f.
Definition map2 (x y : Bitvec) (f : Bitw -> Bitw -> M Bitw) : M Bitvec := array.map2 x y f.
Definition map3 (x y z : Bitvec) (f : Bitw -> Bitw -> Bitw -> M Bitw) : M Bitvec := array.map3 x y z f.
Definition fold {R} (bv : Bitvec) (f : R -> R -> M R) (base : Bitw -> M R) (default : R) : M R :=
  arithmetic.fold bv f base default.
Definition fold2 {R} (x y : Bitvec) (f : R -> R -> M R) (base : Bitw -> Bitw -> M R) (default : R) : M R :=
  arithmetic.fold2 x y f base default.
Definition all (bv : Bitvec) (f : Bitw -> M Bitw) : M Bitw := arithmetic.all arith f bv.
Definition any (bv : Bitvec) (f : Bitw -> M Bitw) : M Bitw := arithmetic.any arith f bv.

Definition eqb : Bitvec -> Bitvec -> M Bitw := arithmetic.eqb arith.
Definition neqb : Bitvec -> Bitvec -> M Bitw := arithmetic.neqb arith.
Definition eqmask : Bitvec -> N -> N -> M Bitw := arithmetic.eqmask arith.
Definition lt : Bitvec -> Bitvec -> M Bitw := arithmetic.lt arith.
Definition leq : Bitvec -> Bitvec -> M Bitw := arithmetic.leq arith.
Definition gt : Bitvec -> Bitvec -> M Bitw := arithmetic.gt arith.
Definition geq : Bitvec -> Bitvec -> M Bitw := arithmetic.geq arith.
Definition relint (bv : Bitvec) (f : Bitvec -> Bitvec -> M Bitw) (i : N) : M Bitw := arithmetic.relint f bv i.

Definition unchecked_add : Bitvec -> Bitvec -> M (Bitvec * Bitw) := arithmetic.unchecked_add arith.
Definition unchecked_sub : Bitvec -> Bitvec -> M (Bitvec * Bitw) := arithmetic.unchecked_sub arith.
Definition checked_add : Bitvec -> Bitvec -> M (Bitvec * logic.Assertions) := arithmetic.checked_add arith.
Definition checked_sub : Bitvec -> Bitvec -> M (Bitvec * logic.Assertions) := arithmetic.checked_sub arith.
Definition wrapping_add : Bitvec -> Bitvec -> M Bitvec := arithmetic.wrapping_add arith.
Definition wrapping_sub : Bitvec -> Bitvec -> M Bitvec := arithmetic.wrapping_sub arith.
Definition assert_wrapping_add : Bitvec -> Bitvec -> Bitvec -> M logic.Assertions := arithmetic.assert_wrapping_add arith.
Definition assert_checked_add : Bitvec -> Bitvec -> Bitvec -> M logic.Assertions := arithmetic.assert_checked_add arith.

Definition muxb : Bitvec -> Bitvec -> Bitvec -> M Bitvec := arithmetic.muxb arith.
Definition select (width : nat) (x : Bitw) (iftrue iffalse : Bitvec) : M Bitvec :=
  boolean ← lift_l boolean.new;
  bits ← mapM (fun i => t ← lift_l (bit iftrue i); f ← lift_l (bit iffalse i); boolean.muxb boolean x t f) (seq 0 width);
  checked width bits.
Definition xor3 : Bitvec -> Bitvec -> Bitvec -> M Bitvec := arithmetic.xor3 arith.
Definition maj : Bitvec -> Bitvec -> Bitvec -> M Bitvec := arithmetic.maj arith.
Definition andb : Bitvec -> Bitvec -> M Bitvec := arithmetic.andb arith.
Definition chi_laneb (x y z : Bitvec) : M Bitvec := map3 x y z (boolean.chi_laneb (bv_boolean self)).
Definition orb : Bitvec -> Bitvec -> M Bitvec := arithmetic.orb arith.
Definition or_assuming_at_most_one_true : Bitvec -> Bitvec -> M Bitvec := arithmetic.or_assuming_at_most_one_true arith.
Definition xorb : Bitvec -> Bitvec -> M Bitvec := arithmetic.xorb arith.
Definition tree_xorb : Bitvec -> Bitvec -> M Bitvec := arithmetic.tree_xorb arith.
Definition eq : Bitvec -> Bitvec -> M Bitvec := arithmetic.eq arith.
Definition ltb : Bitvec -> Bitvec -> M Bitvec := arithmetic.ltb arith.
Definition notb : Bitvec -> M Bitvec := arithmetic.notb.
Definition impliesb : Bitvec -> Bitvec -> M Bitvec := arithmetic.impliesb arith.
Definition precious : Bitvec -> M Bitvec := arithmetic.precious.
Definition shl : nat -> Bitvec -> M Bitvec := arithmetic.shl.
Definition shr : nat -> Bitvec -> M Bitvec := arithmetic.shr.
Definition rotl : nat -> Bitvec -> M Bitvec := arithmetic.rotl.
Definition rotr : nat -> Bitvec -> M Bitvec := arithmetic.rotr.

Definition as_eltw_field `{!CompileField E} : Bitvec -> M logic.Wire := arithmetic.as_eltw_field arith.
Definition as_eltw_unsafe `{!CompileField E} : Bitvec -> M logic.Wire := arithmetic.as_eltw_unsafe arith.
Definition zero (width : nat) : Bitvec := arithmetic.zero width.
Definition is_zero : Bitvec -> M Bitw := arithmetic.is_zero arith.
Definition of_u64 (width : nat) (z : N) : outcome fuel_error Bitvec := arithmetic.of_u64 width z.
Definition of_bit (width : nat) (x : Bitw) : Bitvec := replicate width x.
Definition of_u8 (z : N) : outcome fuel_error Bitvec := arithmetic.of_u8 z.
Definition of_u32 (z : N) : Bitvec := arithmetic.of_u32 z.
Definition of_u64_val (z : N) : Bitvec := arithmetic.of_u64_val z.

Definition assert_false : string -> Bitvec -> M logic.Assertions := arithmetic.assert_false arith.
Definition assert_true : string -> Bitvec -> M logic.Assertions := arithmetic.assert_true arith.
Definition assert_eq `{!CompileField E} : string -> Bitvec -> Bitvec -> M logic.Assertions := arithmetic.assert_eq arith.
Definition assert_neq (name : string) (x y : Bitvec) : M logic.Assertions :=
  neq ← neqb x y; boolean.assert_true (bv_boolean self) name neq.
Definition one_hot_mux (width : nat) (selector : list Bitw) (data : nat -> M Bitvec) : M Bitvec :=
  arithmetic.one_hot_mux arith width selector data.

Definition shl_safe (width k : nat) (a : Bitvec) : M (Bitvec * logic.Assertions) :=
  assert_l (k <? width) ;;
  boolean ← lift_l boolean.new;
  assertions ← logic.assert_mapi "shl_exact" (seq (width - k) k)
    (fun _ i => x ← lift_l (bit a i); r ← boolean.assert_false boolean ("overflow_bit." +:+ pretty (i : nat)) x; mret (r, tt)) tt;
  shifted ← shl k a;
  mret (shifted, assertions).
(** The sizes add up to the width of [bv]. *)
Definition split (m k : nat) (bv : Bitvec) : outcome fuel_error (Bitvec * Bitvec) :=
  low ← slice bv 0 m; low ← unwrap (from_vec m low);
  high ← slice bv m (m + k); high ← unwrap (from_vec k high);
  mret (low, high).
(** The new width is no smaller. *)
Definition zext (m : nat) (bv : Bitvec) : M Bitvec := bits ← boolean.zext bv m; checked m bits.

(** [BitvecIO] *)
Context `{!logic.LogicIO E}.
Definition input (width start_position : nat) : M Bitvec :=
  array.init width (fun i => boolean.input (start_position + i)).
Definition next (width pos : nat) : M (Bitvec * nat) := bv ← input width pos; mret (bv, pos + width).
Definition position_in_input_array (bv : Bitvec) : M nat :=
  x ← lift_l (bit bv 0); boolean.position_in_input_array arith x.
End bitvec.
End bitvec.

Module memcmp.
Section memcmp.
Context {E : Type} `{AlgebraicField E} `{!logic.Logic E} (arithmetic : Boolean E).

(** The most significant byte is the first. *)
Definition arrange (bytes : list (list (Bitw E))) : list (Bitw E) := concat (rev bytes).
Definition leq (a b : list (list (Bitw E))) : lcomp logic.St (Bitw E) :=
  arithmetic.leq arithmetic (arrange a) (arrange b).
End memcmp.
End memcmp.
