(* ===== verification/AnalogAdder.v ===== *)
(** * Sums in the field ([src/rust/circuits/analog_adder/src/circuit.rs])

    [AnalogAdder] asserts that a vector is the sum of others modulo a power
    of two with one multiplication chain: in a prime field the difference of
    the sums is a small multiple of the power; in GF(2^128) the numbers are
    exponents of a generator. *)
From stdpp Require Import prelude strings pretty.
From Stdlib Require Import Lia NArith ZArith ZifyNat ZifyN Ring Ring_theory.
From S2P Require Import Prelude Words Interfaces Field FieldFacts CompilerIR Logic Boolean Arithmetic Bitvec.

Class SupportsU64Conversions (E : Type) := u64_to_element : N -> outcome fuel_error E.
Class CompileBinaryField (E : Type) := generator : E.

Record AnalogAdder (E : Type) := { ad_bv : BitvecLogic E; ad_boolean : Boolean E }.
Arguments ad_bv {_} _. Arguments ad_boolean {_} _. Arguments Build_AnalogAdder {_} _ _.

(** [FieldWrappingSum]: how a field asserts sums of vectors of a width. *)
Class FieldWrappingSum (E : Type) `{!logic.Logic E} :=
  assert_wrapping_sum : AnalogAdder E -> nat -> list (Bitw E) -> list (list (list (Bitw E))) -> lcomp logic.St logic.Assertions.

Module adder.
Section adder.
Context {E : Type} `{AlgebraicField E} `{!logic.Logic E} `{!CompileField E}.
#[local] Abbreviation M := (lcomp logic.St).
#[local] Abbreviation Bitvec := (list (Bitw E)).

Definition new : outcome fuel_error (AnalogAdder E) :=
  bv ← bitvec.new; boolean ← boolean.new; mret (Build_AnalogAdder bv boolean).

(** [1usize.checked_shl(dim - N).unwrap_or(usize::MAX)] *)
Definition max_terms (shift : nat) : N := if shift <? 64 then N.shiftl 1 (N.of_nat shift) else (2 ^ 64 - 1)%N.
Definition check_capacity (width n : nat) : M unit :=
  assert_l (0 <? n) ;;
  let dim := pseudo_dimension_of_multiplicative_group in
  assert_l (width <? dim) ;;
  assert_l (N.ltb (N.of_nat n) (max_terms (dim - width))).

Context (adder : AnalogAdder E).

(** *** Prime fields *)
Definition offset_factor `{!SupportsU64Conversions E} (z : logic.Wire) (two_to_n : E) (i : nat) : M logic.Wire :=
  i_element ← lift_l (u64_to_element (N.of_nat i));
  i_wire ← logic.konst i_element;
  offset_wire ← logic.mulk two_to_n i_wire;
  logic.sub z offset_wire.
Definition wrapping_sum_fp `{!SupportsU64Conversions E} (width : nat) (expected : Bitvec) (terms : list (list Bitvec))
  : M logic.Assertions :=
  let flat_terms := concat terms in
  let n := length flat_terms in
  check_capacity width n ;;
  p ← bitvec.as_eltw_field (ad_bv adder) expected;
  group_sums ← mapM (fun g => eltw_g ← mapM (bitvec.as_eltw_field (ad_bv adder)) g; logic.sum eltw_g) terms;
  c ← logic.sum group_sums;
  diff_c_p ← logic.sub c p;
  z ← logic.precious diff_c_p;
  two_to_n ← lift_l (pseudo_basis_unsafe width);
  factors ← mapM (offset_factor z two_to_n) (seq 0 n);
  prod ← logic.prod factors;
  logic.assert0 "assert_wrapping_sum_prime" prod.

(** *** GF(2^128)

    [v[i] = op(v[i - 1])] for the indices from one on. *)
Definition fill_step (op : logic.Wire -> M logic.Wire) (v : list logic.Wire) (i : nat) : M (list logic.Wire) :=
  prev ← lift_l (index v (i - 1)); x ← op prev; lift_l (store v i x).
Definition fill (op : logic.Wire -> M logic.Wire) (first : logic.Wire) (n : nat) : M (list logic.Wire) :=
  foldL (fill_step op) (replicate n first) (seq 1 (n - 1)).
Definition inject (basis : list logic.Wire) (v : Bitvec) : M logic.Wire :=
  factors ← mapM (fun '(i, b_wire) =>
    bit ← lift_l (bitvec.bit v i); bit_wire ← boolean.as_eltw (ad_boolean adder) bit;
    o ← logic.one; basis_minus_one ← logic.sub b_wire o;
    term ← logic.mul basis_minus_one bit_wire;
    o ← logic.one; logic.add o term) (zip (seq 0 (length basis)) basis);
  logic.prod factors.
Definition wrapping_sum_gf2 `{!CompileBinaryField E} (width : nat) (expected : Bitvec) (terms : list (list Bitvec))
  : M logic.Assertions :=
  let n := sum_list_with length terms in
  check_capacity width n ;;
  alpha ← logic.konst generator;
  basis ← fill (fun x => logic.mul x x) alpha width;
  last ← lift_l (if width =? 0 then Panic else index basis (width - 1));
  alpha_k ← logic.mul last last;
  want ← inject basis expected;
  group_prods ← mapM (fun g => g_inject ← mapM (inject basis) g; logic.prod g_inject) terms;
  got ← logic.prod group_prods;
  o ← logic.one;
  p ← fill (fun x => logic.mul x alpha_k) o n;
  ff ← mapM (fun p_elt => m ← logic.mul p_elt want; logic.sub got m) p;
  prod ← logic.prod ff;
  logic.assert0 "assert_wrapping_sum_gf2" prod.
End adder.
End adder.

(** ** Numbers in a field *)
Section numbers.
Context {E : Type} `{AlgebraicFieldLaws E}.
Local Open Scope fe_scope.
Add Ring field_ring_adder : (field_ring (E:=E)).

(** [n] times one, and [g] to the power [n]. *)
Definition fnat (n : N) : E := N.iter n (fadd 1) 0.
Definition fpow (g : E) (n : N) : E := N.iter n (fmul g) 1.
Lemma fnat_0 : fnat 0 = 0.
Proof. done. Qed.
Lemma fnat_1 : fnat 1 = 1.
Proof. unfold fnat. cbn. ring. Qed.
Lemma fpow_0 g : fpow g 0 = 1.
Proof. done. Qed.
Lemma fpow_1 g : fpow g 1 = g.
Proof. unfold fpow. cbn. ring. Qed.
Lemma fnat_succ n : fnat (N.succ n) = 1 + fnat n.
Proof. apply N.iter_succ. Qed.
Lemma fnat_add m n : fnat (m + n)%N = fnat m + fnat n.
Proof.
  induction m as [|m IH] using N.peano_ind; [rewrite N.add_0_l, fnat_0; ring|].
  rewrite N.add_succ_l, !fnat_succ, IH. ring.
Qed.
Lemma fnat_mul m n : fnat (m * n)%N = fnat m * fnat n.
Proof.
  induction m as [|m IH] using N.peano_ind; [rewrite N.mul_0_l, fnat_0; ring|].
  rewrite N.mul_succ_l, fnat_add, fnat_succ, IH. ring.
Qed.
Lemma fpow_succ g n : fpow g (N.succ n) = g * fpow g n.
Proof. apply N.iter_succ. Qed.
Lemma fpow_add g m n : fpow g (m + n)%N = fpow g m * fpow g n.
Proof.
  induction m as [|m IH] using N.peano_ind; [rewrite N.add_0_l, fpow_0; ring|].
  rewrite N.add_succ_l, !fpow_succ, IH. ring.
Qed.
Lemma fpow_mul g m n : fpow g (m * n)%N = fpow (fpow g m) n.
Proof.
  induction n as [|n IH] using N.peano_ind; [by rewrite N.mul_0_r|].
  rewrite N.mul_succ_r, N.add_comm, fpow_add, IH. symmetry. apply fpow_succ.
Qed.
Lemma fpow_twice g n : fpow g (2 * n)%N = fpow (g * g) n.
Proof. rewrite fpow_mul. f_equal. change 2%N with (N.succ 1). rewrite fpow_succ, fpow_1. ring. Qed.
Lemma fprod_zero l : fprod l = 0 <-> Exists (fun x => x = 0) l.
Proof.
  induction l as [|x l IH]; [rewrite Exists_nil; split; [apply one_neq_zero|done]|].
  rewrite Exists_cons, <- IH. change (fprod (x :: l)) with (x * fprod l). split.
  - intros Hp. destruct (is_zero x) eqn:Hx; [left; by apply is_zero_spec|right].
    destruct (is_zero (fprod l)) eqn:Hl; [by apply is_zero_spec|]. exfalso.
    apply (mul_neq_zero x (fprod l)); [intros ->|intros Hz|done]; by rewrite ?Hz, (proj2 (is_zero_spec _) eq_refl) in *.
  - intros [->| ->]; ring.
Qed.

(** [sum of bit i * 2^i] and [product of g^(bit i * 2^i)]. *)
Lemma encode_num_from l : forall k, fsum (imap (fun i x => fnat (2 ^ N.of_nat (k + i)) * of_bool x) l) = fnat (2 ^ N.of_nat k * num l).
Proof.
  induction l as [|x l IH]; intros k; [by rewrite N.mul_0_r|]. rewrite imap_cons. cbn [fsum num].
  replace (imap ((fun i x => fnat (2 ^ N.of_nat (k + i)) * of_bool x) ∘ S) l) with (imap (fun i x => fnat (2 ^ N.of_nat (S k + i)) * of_bool x) l)
    by (apply imap_ext; intros; cbn; by rewrite Nat.add_succ_r).
  rewrite IH, Nat.add_0_r. rewrite N.mul_add_distr_l, fnat_add, Nat2N.inj_succ, N.pow_succ_r', N.mul_assoc, (N.mul_comm 2). f_equal.
  destruct x; cbn [of_bool N.b2n]; rewrite ?N.mul_1_r, ?N.mul_0_r; [ring|rewrite fnat_0; ring].
Qed.
Lemma encode_num l : fsum (imap (fun i x => fnat (2 ^ N.of_nat i) * of_bool x) l) = fnat (num l).
Proof. transitivity (fnat (2 ^ N.of_nat 0 * num l)); [apply (encode_num_from l 0)|]. cbn [N.of_nat N.pow]. by rewrite N.mul_1_l. Qed.
Lemma fpow_num g l : fprod (imap (fun i (x : bool) => 1 + (Nat.iter i (fun x => x * x) g - 1) * of_bool x) l) = fpow g (num l).
Proof.
  revert g. induction l as [|x l IH]; intros g; [done|]. rewrite imap_cons. cbn [num].
  rewrite fpow_add, fpow_twice, <- IH. unfold fprod. cbn [foldr]. f_equal.
  - destruct x; cbn [of_bool N.b2n Nat.iter nat_rect]; rewrite ?fpow_1, ?fpow_0; ring.
  - f_equal. apply imap_ext. intros i y _. cbn [compose]. by rewrite Nat.iter_succ_r.
Qed.
End numbers.

(** What is asked of a prime field: below two to its dimension, numbers are
    different elements.  What is asked of a binary field: below a capacity,
    so are the powers of its generator. *)
Class PrimeFieldLaws (E : Type) `{AlgebraicField E} `{!CompileField E} `{!CompileFieldLaws E} `{!SupportsU64Conversions E} := {
  basis_power i : basis i = fnat (2 ^ N.of_nat i);
  prime_dimensions : pseudo_dimension_of_multiplicative_group <= pseudo_dimension;
  unsafe_power i : i < pseudo_dimension_of_multiplicative_group -> pseudo_basis_unsafe i = Ok (fnat (2 ^ N.of_nat i));
  u64_number n : (n < 2 ^ N.of_nat pseudo_dimension_of_multiplicative_group)%N -> u64_to_element n = Ok (fnat n);
  fnat_inj a b : (a < 2 ^ N.of_nat pseudo_dimension_of_multiplicative_group)%N ->
    (b < 2 ^ N.of_nat pseudo_dimension_of_multiplicative_group)%N -> fnat a = fnat b -> a = b
}.
Class BinaryFieldLaws (E : Type) `{AlgebraicField E} `{!CompileBinaryField E} (capacity : N) := {
  generator_nonzero : generator <> (fzero : E);
  generator_inj a b : (a < capacity)%N -> (b < capacity)%N -> fpow generator a = fpow (generator : E) b -> a = b
}.

(** The sum of the numbers of a list of vectors. *)
Definition total (ls : list (list bool)) : N := foldr (fun l n => num l + n)%N 0%N ls.
Lemma total_app ls ls' : total (ls ++ ls') = (total ls + total ls')%N.
Proof. induction ls as [|l ls IH]; [done|]. cbn [app]. change (total (l :: ?x)) with (num l + total x)%N. rewrite IH. lia. Qed.
Lemma total_lt width ls : Forall (fun l => length l = width) ls -> ls <> [] -> (total ls < N.of_nat (length ls) * 2 ^ N.of_nat width)%N.
Proof.
  intros Hl Hne. assert (total ls + N.of_nat (length ls) <= N.of_nat (length ls) * 2 ^ N.of_nat width)%N as Hle.
  { clear Hne. induction Hl as [|l ls Hl _ IH]; [done|]. change (total (l :: ?x)) with (num l + total x)%N. cbn [length]. rewrite Nat2N.inj_succ, N.mul_succ_l. pose proof (num_lt l). rewrite Hl in *. lia. }
  destruct ls; [done|]. cbn [length] in *. rewrite Nat2N.inj_succ, N.mul_succ_l in *. lia.
Qed.
(** Which multiple of the power to subtract. *)
Lemma wrapping_sum_iff width n p S : (p < 2 ^ N.of_nat width)%N -> (S < N.of_nat n * 2 ^ N.of_nat width)%N ->
  (exists i, i < n /\ S = (p + N.of_nat i * 2 ^ N.of_nat width)%N) <-> p = (S mod 2 ^ N.of_nat width)%N.
Proof.
  intros Hp HS. assert (2 ^ N.of_nat width <> 0)%N as Hz by (apply N.pow_nonzero; lia). split.
  - intros (i & _ & ->). rewrite N.Div0.mod_add, N.mod_small by lia. done.
  - intros ->. exists (N.to_nat (S / 2 ^ N.of_nat width)). pose proof (N.Div0.div_lt_upper_bound S (2 ^ N.of_nat width) (N.of_nat n)).
    pose proof (N.div_mod S (2 ^ N.of_nat width) Hz). split; [lia|]. rewrite N2Nat.id. lia.
Qed.
Lemma below_max_terms n shift : (N.of_nat n < adder.max_terms shift)%N -> (N.of_nat n < 2 ^ N.of_nat shift)%N.
Proof.
  unfold adder.max_terms. destruct (Nat.ltb_spec shift 64); [by rewrite N.shiftl_1_l|]. intros Hn.
  eapply N.lt_le_trans; [exact Hn|]. transitivity (2 ^ 64)%N; [lia|]. apply N.pow_le_mono_r; lia.
Qed.

Section sums.
Context {E : Type} `{AlgebraicFieldLaws E} `{!logic.Logic E} (C : Prop) `{!LogicLaws E C} `{!CompileField E}.
Context (self : AnalogAdder E) (Hbv : boolean_ok (bv_arith (ad_bv self))) (Hself : boolean_ok (ad_boolean self)).
#[local] Abbreviation bits := (listR (Boolean.bit C)).

Lemma check_capacity_ok {A B} pan (R : World -> A -> B -> Prop) width n s k y : 0 < n -> width < pseudo_dimension_of_multiplicative_group ->
  (N.of_nat n < adder.max_terms (pseudo_dimension_of_multiplicative_group - width))%N ->
  refines ll_inv ll_ext pan R s (k tt) y -> refines ll_inv ll_ext pan R s (adder.check_capacity (E:=E) width n ≫= k) y.
Proof.
  intros Hn Hw Hm Hk st Hst. specialize (Hk st Hst). unfold adder.check_capacity.
  by rewrite (proj2 (Nat.ltb_lt _ _) Hn), (proj2 (Nat.ltb_lt _ _) Hw), (proj2 (N.ltb_lt _ _) Hm).
Qed.

(** *** A running list *)
Lemma fill_ok op f s w v n : ll_inv s -> den C s w v ->
  (forall s' x u, ll_inv s' -> ll_ext s s' -> den C s' x u -> returns (den C) s' (op x) (f u)) ->
  returns (listR (den C)) s (adder.fill op w n) (map (fun i => Nat.iter i f v) (seq 0 n)).
Proof.
  intros Hi Hw Hop. unfold adder.fill.
  destruct n as [|n]; [by apply returns_ret; [|constructor]|]. cbn [Nat.sub]. rewrite Nat.sub_0_r.
  cut (forall m k s' l, 0 < k -> ll_inv s' -> ll_ext s s' -> listR (den C) s' l (map (fun i => Nat.iter i f v) (seq 0 k) ++ replicate m v) ->
    returns (listR (den C)) s' (foldL (adder.fill_step op) l (seq k m)) (map (fun i => Nat.iter i f v) (seq 0 (k + m)))).
  { intros Hloop. refine (Hloop n 1 s (replicate (S n) w) ltac:(lia) Hi ltac:(done) _). constructor; [done|].
    by apply Forall2_replicate. }
  intros m. induction m as [|m IH]; intros k s' l Hk Hi' He Hl; cbn [seq foldL].
  { apply returns_ret; [done|]. rewrite Nat.add_0_r. by rewrite app_nil_r in Hl. }
  assert ((map (fun i => Nat.iter i f v) (seq 0 k) ++ replicate (S m) v) !! (k - 1) = Some (Nat.iter (k - 1) f v)) as Hp.
  { rewrite lookup_app_l by (rewrite length_map, length_seq; lia). change (map ?f ?l) with (f <$> l).
    rewrite list_lookup_fmap, lookup_seq_lt by lia. done. }
  destruct (Forall2_lookup_r _ _ _ _ _ Hl Hp) as (prev & Hprev & Hd).
  eapply (returns_bind _ (listR (den C)) (listR (den C)) _ _ _ (map (fun i => Nat.iter i f v) (seq 0 (S k)) ++ replicate m v)).
  - unfold adder.fill_step. eapply refines_index; [exact Hprev|].
    eapply returns_bind; [apply Hop; [done|done|exact Hd]|]. intros x s2 Hi2 He2 Hx.
    pose proof (Forall2_length _ _ _ Hl) as Hlen. rewrite length_app, length_map, length_seq, length_replicate in Hlen.
    unfold store. rewrite (proj2 (Nat.ltb_lt k (length l))) by lia.
    change (lift_l (Ok (<[k:=x]> l))) with (mret (M:=lcomp logic.St) (<[k:=x]> l)). apply returns_ret; [done|].
    replace (map (fun i => Nat.iter i f v) (seq 0 (S k)) ++ replicate m v) with
      (<[k := f (Nat.iter (k - 1) f v)]> (map (fun i => Nat.iter i f v) (seq 0 k) ++ replicate (S m) v)).
    + apply Forall2_insert; [|done]. by apply (mono (R:=listR (den C)) s' s2).
    + rewrite seq_S, map_app, <- app_assoc. cbn [map app]. rewrite insert_app_r_alt by (rewrite length_map, length_seq; lia).
      rewrite length_map, length_seq, Nat.sub_diag, Nat.add_0_l. destruct k as [|k]; [lia|]. cbn. by rewrite Nat.sub_0_r.
  - intros l' s2 Hi2 He2 Hl'. replace (k + S m)%nat with (S k + m)%nat by lia. apply IH; [lia|done|by transitivity s'|done].
Qed.
Local Open Scope fe_scope.
Add Ring field_ring_sums : (field_ring (E:=E)).

#[local] Abbreviation dim := pseudo_dimension_of_multiplicative_group.
(** The vectors have the width, and there are some but not too many. *)
Record sum_fits (width : nat) (e : list bool) (ls : list (list bool)) : Prop := {
  sum_expected : length e = width;
  sum_terms : Forall (fun l => length l = width) ls;
  sum_some : ls <> [];
  sum_width : (width < dim)%nat;
  sum_count : (N.of_nat (length ls) < adder.max_terms (dim - width))%N
}.
Lemma listR_eq {A} (s : World) (l : list A) : listR eqR s l l.
Proof. induction l; by constructor. Qed.
Lemma terms_concat s (terms : list (list (list (Bitw E)))) ts : listR (listR bits) s terms ts -> listR bits s (concat terms) (concat ts).
Proof. induction 1; [constructor|]. by apply Forall2_app. Qed.
Lemma sum_range width e ls : sum_fits width e ls ->
  (num e < 2 ^ N.of_nat width /\ total ls < N.of_nat (length ls) * 2 ^ N.of_nat width /\
   (N.of_nat (length ls) + 1) * 2 ^ N.of_nat width <= 2 ^ N.of_nat dim)%N.
Proof.
  intros [He Hl Hne Hw Hc]. rewrite <- He at 1. split; [apply num_lt|]. split; [by apply total_lt|].
  apply below_max_terms in Hc. transitivity (2 ^ N.of_nat (dim - width) * 2 ^ N.of_nat width)%N; [apply N.mul_le_mono_r; lia|].
  rewrite <- N.pow_add_r. apply N.pow_le_mono_r; lia.
Qed.
Lemma sum_check {A B} pan (R : World -> A -> B -> Prop) width e ls n s k y : sum_fits width e ls -> n = length ls ->
  refines ll_inv ll_ext pan R s (k tt) y -> refines ll_inv ll_ext pan R s (adder.check_capacity (E:=E) width n ≫= k) y.
Proof. intros [_ _ Hne Hw Hc] ->. apply check_capacity_ok; [by destruct ls; [|cbn; lia]|done|done]. Qed.

Section prime.
Context `{!CompileFieldLaws E} `{!SupportsU64Conversions E} `{!PrimeFieldLaws E}.

Lemma encode_fnat l : encode l = fnat (num l).
Proof.
  unfold encode. rewrite <- encode_num. f_equal. apply imap_ext. intros i x _. by rewrite basis_power.
Qed.
Lemma as_fnat s a l : (length l < dim)%nat -> ll_inv s -> bits s a l -> returns (den C) s (bitvec.as_eltw_field (ad_bv self) a) (fnat (num l)).
Proof.
  intros Hl Hi Ha. rewrite <- encode_fnat. apply as_eltw_field_ok; [done| |done|done]. pose proof prime_dimensions (E:=E). lia.
Qed.
Lemma fsum_fnat ls : fsum (map (fun l => fnat (num l)) ls) = fnat (total ls).
Proof. induction ls as [|l ls IH]; [done|]. cbn [map fsum]. change (total (l :: ls)) with (num l + total ls)%N. by rewrite fnat_add, IH. Qed.
Lemma fsum_groups ts : fsum (map (fun ls => fnat (total ls)) ts) = fnat (total (concat ts)).
Proof. induction ts as [|ls ts IH]; [done|]. cbn [map fsum concat]. by rewrite total_app, fnat_add, IH. Qed.

Lemma group_sum_ok s g ls : ll_inv s -> Forall (fun l => length l < dim)%nat ls -> listR bits s g ls ->
  returns (den C) s (eltw_g ← mapM (bitvec.as_eltw_field (ad_bv self)) g; logic.sum eltw_g) (fnat (total ls)).
Proof.
  intros Hi Hl Hg. rewrite Forall_forall in Hl.
  step_by ltac:(eapply (refines_mapM ll_inv ll_ext False bits (den C) _ (fun l => fnat (num l))); [done|exact Hg|]) x.
  - intros a l s' Hin Hi' _ Ha. by apply as_fnat; [apply Hl|..].
  - rewrite <- fsum_fnat. by apply ll_sum.
Qed.
Lemma offset_factor_ok s z v width i : ll_inv s -> (width < dim)%nat -> (N.of_nat i < 2 ^ N.of_nat dim)%N -> den C s z v ->
  returns (den C) s (adder.offset_factor z (fnat (2 ^ N.of_nat width)) i) (v - fnat (N.of_nat i * 2 ^ N.of_nat width)).
Proof.
  intros Hi Hw Hlt Hz. unfold adder.offset_factor. rewrite u64_number by done. eapply refines_lift.
  step k. step m. last_step. rewrite fnat_mul. ring.
Qed.

Lemma wrapping_sum_fp_ok width s expected e terms ts : ll_inv s -> bits s expected e -> listR (listR bits) s terms ts ->
  sum_fits width e (concat ts) ->
  checks C s (adder.wrapping_sum_fp self width expected terms) (num e = total (concat ts) mod 2 ^ N.of_nat width)%N.
Proof.
  intros Hi He Ht Hfit. destruct (sum_range _ _ _ Hfit) as (Hp & HS & Hcap).
  pose proof (Forall2_length _ _ _ (terms_concat _ _ _ Ht)) as Hlen.
  pose proof (sum_terms _ _ _ Hfit) as Hl. pose proof (sum_width _ _ _ Hfit) as Hw. rewrite Forall_forall in Hl.
  unfold adder.wrapping_sum_fp. eapply sum_check; [exact Hfit|done|].
  step_by ltac:(apply as_fnat; [by rewrite (sum_expected _ _ _ Hfit)|done|exact He]) p.
  step_by ltac:(eapply (refines_mapM ll_inv ll_ext False (listR bits) (den C) _ (fun ls => fnat (total ls))); [done|exact Ht|]) gs.
  { intros g ls s' Hin Hi' _ Hg. apply group_sum_ok; [done| |done]. apply Forall_forall. intros l Hlin.
    rewrite Hl; [done|]. apply list_elem_of_In, in_concat. exists ls. split; by apply list_elem_of_In. }
  step c. rewrite fsum_groups in Hc. step d. step z. rewrite unsafe_power by done. eapply refines_lift. rewrite Hlen.
  set (n := length (concat ts)) in *. set (S := total (concat ts)) in *.
  step_by ltac:(eapply (refines_mapM ll_inv ll_ext False eqR (den C) _ (fun i => (fnat S - fnat (num e)) - fnat (N.of_nat i * 2 ^ N.of_nat width)) (seq 0 n) (seq 0 n)); [done|by apply listR_eq|]) ff.
  { intros i i' s' Hin Hi' He' Heq. unfold eqR in Heq. subst i'. apply elem_of_seq in Hin.
    apply offset_factor_ok; [done|done|nia|by eapply mono]. }
  step_by ltac:(by apply prod_ok) r. eapply assert0_ok; [done|done|exact Hr|].
  rewrite fprod_zero, <- (wrapping_sum_iff width n) by done. rewrite Exists_exists. split.
  - intros (x & Hx & Hxz). apply list_elem_of_fmap in Hx as (i & -> & Hin%elem_of_seq). exists i. split; [lia|].
    apply fnat_inj; [nia|nia|]. rewrite fnat_add. apply sub_zero_iff. rewrite <- Hxz. ring.
  - intros (i & Hin & HSi). eexists. split; [apply list_elem_of_fmap; exists i; split; [done|apply elem_of_seq; lia]|].
    rewrite HSi, fnat_add. ring.
Qed.
End prime.

Section binary.
Context `{!CompileBinaryField E} (capacity : N) `{!BinaryFieldLaws E capacity}.
#[local] Abbreviation g := (generator : E).

Lemma fprod_fpow (ns : list N) : fprod (map (fpow g) ns) = fpow g (foldr N.add 0%N ns).
Proof. induction ns as [|n ns IH]; [done|]. unfold fprod in *. cbn [map foldr]. by rewrite fpow_add, IH. Qed.
Lemma fprod_numbers ls : fprod (map (fun l => fpow g (num l)) ls) = fpow g (total ls).
Proof.
  rewrite <- (map_map num (fpow g)), fprod_fpow. f_equal. induction ls as [|l ls IH]; [done|]. cbn [map foldr]. by rewrite IH.
Qed.
Lemma fprod_groups ts : fprod (map (fun ls => fpow g (total ls)) ts) = fpow g (total (concat ts)).
Proof.
  rewrite <- (map_map total (fpow g)), fprod_fpow. f_equal. induction ts as [|ls ts IH]; [done|]. cbn [map foldr concat].
  by rewrite IH, total_app.
Qed.
Lemma iter_square (x : E) i : Nat.iter i (fun x => x * x) x = fpow x (2 ^ N.of_nat i).
Proof.
  induction i as [|i IH]; [by rewrite fpow_1|]. cbn [Nat.iter nat_rect]. unfold Nat.iter in IH. rewrite IH, <- fpow_add.
  f_equal. rewrite Nat2N.inj_succ, N.pow_succ_r'. lia.
Qed.
Lemma iter_times (x : E) i : Nat.iter i (fun y => y * x) 1 = fpow x (N.of_nat i).
Proof.
  induction i as [|i IH]; [done|]. cbn [Nat.iter nat_rect]. unfold Nat.iter in IH. rewrite IH, Nat2N.inj_succ, fpow_succ. ring.
Qed.

Lemma inject_ok s basis v l : ll_inv s ->
  listR (den C) s basis (map (fun i => Nat.iter i (fun x => x * x) g) (seq 0 (length l))) -> bits s v l ->
  returns (den C) s (adder.inject self basis v) (fpow g (num l)).
Proof.
  intros Hi Hb Hv. pose proof (Forall2_length _ _ _ Hb) as Hlen. rewrite length_map, length_seq in Hlen. unfold adder.inject. rewrite Hlen.
  set (B := map _ _) in *.
  step_by ltac:(eapply (refines_mapM ll_inv ll_ext False (pairR eqR (den C)) (den C) _ (fun p => 1 + (p.2 - 1) * of_bool (l !!! p.1))
    _ (zip (seq 0 (length l)) B)); [done| |]) ff.
  - clear -Hb. revert Hb. generalize (seq 0 (length l)) at 1 2. intros idx Hb. revert idx.
    induction Hb as [|x y basis B Hx Hb IH]; intros [|i idx]; try constructor; [by split|apply IH].
  - intros [i x] [i' y] s' Hin Hi' He [Heq Hx]. cbn [fst snd] in *. unfold eqR in Heq. subst i'.
    apply elem_of_zip_l, elem_of_seq in Hin. apply (mono (R:=bits) s s') in Hv; [|done].
    destruct (Forall2_lookup_r _ _ _ i (l !!! i) Hv) as (b & Hbi & Hbit); [apply list_lookup_lookup_total_lt; lia|].
    eapply refines_index; [exact Hbi|]. step_by ltac:(by eapply as_eltw_ok) w. step o. step m. step t. step o1. last_step. ring.
  - eapply returns_eq; [by apply prod_ok|]. rewrite <- fpow_num. f_equal. apply list_eq. intros i.
    change (map ?f ?l) with (f <$> l). rewrite list_lookup_fmap, list_lookup_imap, lookup_zip_with.
    destruct (l !! i) as [x|] eqn:Hx.
    + pose proof (lookup_lt_Some _ _ _ Hx). subst B. change (map ?f ?l) with (f <$> l). rewrite list_lookup_fmap, lookup_seq_lt by done.
      cbn. by rewrite (list_lookup_total_correct _ _ _ Hx).
    + apply lookup_ge_None in Hx. by rewrite lookup_seq_ge.
Qed.

Lemma injects_ok s basis vs ls width : ll_inv s ->
  listR (den C) s basis (map (fun i => Nat.iter i (fun x => x * x) g) (seq 0 width)) -> Forall (fun l => length l = width) ls ->
  listR bits s vs ls ->
  returns (den C) s (g_inject ← mapM (adder.inject self basis) vs; logic.prod g_inject) (fpow g (total ls)).
Proof.
  intros Hi Hb Hl Hv. rewrite Forall_forall in Hl.
  step_by ltac:(eapply (refines_mapM ll_inv ll_ext False bits (den C) _ (fun l => fpow g (num l))); [done|exact Hv|]) ps.
  - intros v l s' Hin Hi' He Hbits. apply inject_ok; [done| |done]. rewrite (Hl l Hin). by apply (mono (R:=listR (den C)) s s').
  - rewrite <- fprod_numbers. by apply prod_ok.
Qed.
Lemma power_zero_iff S p i width : (S < capacity)%N -> (p + N.of_nat i * 2 ^ N.of_nat width < capacity)%N ->
  fpow g S - Nat.iter i (fun y => y * fpow g (2 ^ N.of_nat width)) 1 * fpow g p = 0 <-> S = (p + N.of_nat i * 2 ^ N.of_nat width)%N.
Proof.
  intros HS Hp. rewrite iter_times, <- fpow_mul, <- fpow_add, sub_zero_iff. rewrite (N.mul_comm (2 ^ _)), (N.add_comm _ p).
  split; [by apply generator_inj|by intros ->].
Qed.

Lemma wrapping_sum_gf2_ok width s expected e terms ts : ll_inv s -> bits s expected e -> listR (listR bits) s terms ts ->
  sum_fits width e (concat ts) -> (0 < width)%nat -> (N.of_nat (length (concat ts)) * 2 ^ N.of_nat width <= capacity)%N ->
  checks C s (adder.wrapping_sum_gf2 self width expected terms) (num e = total (concat ts) mod 2 ^ N.of_nat width)%N.
Proof.
  intros Hi He Ht Hfit Hpos Hcap. destruct (sum_range _ _ _ Hfit) as (Hp & HS & _).
  pose proof (sum_terms _ _ _ Hfit) as Hl. pose proof (sum_expected _ _ _ Hfit) as Hwe.
  assert (sum_list_with length terms = length (concat ts)) as Hlen.
  { rewrite <- (Forall2_length _ _ _ (terms_concat _ _ _ Ht)). induction terms as [|g terms IH] in |- *; [done|].
    cbn [sum_list_with concat]. by rewrite length_app, IH. }
  unfold adder.wrapping_sum_gf2. eapply sum_check; [exact Hfit|exact Hlen|]. rewrite Hlen.
  set (n := length (concat ts)) in *. set (S := total (concat ts)) in *.
  step alpha. step_by ltac:(eapply (fill_ok _ (fun x => x * x)); [done|exact Halpha|by intros; apply ll_mul]) bs.
  assert (map (fun i => Nat.iter i (fun x => x * x) g) (seq 0 width) !! (width - 1)%nat = Some (fpow g (2 ^ N.of_nat (width - 1)%nat))) as Hlast.
  { change (map ?f ?l) with (f <$> l). rewrite list_lookup_fmap, lookup_seq_lt by lia. cbn [fmap option_fmap option_map]. by rewrite iter_square. }
  destruct (Forall2_lookup_r _ _ _ _ _ Hbs Hlast) as (last & Hl' & Hd). destruct (Nat.eqb_spec width 0) as [|_]; [lia|].
  eapply refines_index; [exact Hl'|]. step ak.
  rewrite <- fpow_add in Hak. replace (2 ^ N.of_nat (width - 1)%nat + 2 ^ N.of_nat (width - 1)%nat)%N with (2 ^ N.of_nat width)%N in Hak
    by (replace (N.of_nat width) with (N.succ (N.of_nat (width - 1)%nat)) by lia; rewrite N.pow_succ_r'; lia).
  step_by ltac:(apply inject_ok; [done|by rewrite Hwe|exact He]) want.
  step_by ltac:(eapply (refines_mapM ll_inv ll_ext False (listR bits) (den C) _ (fun ls => fpow g (total ls))); [done|exact Ht|]) gp.
  { intros vs ls s' Hin Hi' He' Hv. eapply injects_ok; [done|by eapply mono| |exact Hv].
    rewrite Forall_forall in Hl |- *. intros l Hlin. apply Hl, list_elem_of_In, in_concat. exists ls. split; by apply list_elem_of_In. }
  step_by ltac:(by apply prod_ok) got. rewrite fprod_groups in Hgot. step o.
  step_by ltac:(eapply (fill_ok _ (fun y => y * fpow g (2 ^ N.of_nat width))); [done|exact Ho|intros; apply ll_mul; [done..|eapply (mono (R:=den C)); eassumption]]) pw.
  step_by ltac:(eapply (refines_mapM ll_inv ll_ext False (den C) (den C) _ (fun y => fpow g S - y * fpow g (num e))); [done|exact Hpw|]) ff.
  { intros y y' s' Hin Hi' He' Hy. eapply (mono (R:=den C)) in Hgot; [|exact He']. eapply (mono (R:=den C)) in Hwant; [|exact He'].
    step m. apply returns_any. by apply ll_sub. }
  step_by ltac:(by apply prod_ok) r. eapply assert0_ok; [done|done|exact Hr|].
  rewrite fprod_zero, <- (wrapping_sum_iff width n) by done. rewrite Exists_exists. clear Hff Hr Hpw Hgot Hwant. split.
  - intros (x & Hx & Hxz). apply list_elem_of_fmap in Hx as (y & -> & Hy). apply list_elem_of_fmap in Hy as (i & -> & Hin%elem_of_seq).
    exists i. split; [lia|]. apply power_zero_iff in Hxz; [done|nia|nia].
  - intros (i & Hin & HSi). eexists. split.
    + apply list_elem_of_fmap. eexists. split; [done|]. apply list_elem_of_fmap. exists i. split; [done|apply elem_of_seq; lia].
    + apply power_zero_iff; [nia|nia|done].
Qed.
End binary.
End sums.

(** ** The interface

    What circuits rely on: below the limit of the field, sums of vectors are
    asserted as numbers are added. *)
Class FieldWrappingSumLaws (E : Type) (C : Prop) `{AlgebraicField E} `{!logic.Logic E} `{!LogicLaws E C} `{!FieldWrappingSum E} := {
  sum_limit : nat -> nat -> Prop;
  assert_wrapping_sum_ok self width s expected e terms ts :
    boolean_ok (bv_arith (ad_bv self)) -> boolean_ok (ad_boolean self) ->
    ll_inv s -> listR (Boolean.bit C) s expected e -> listR (listR (listR (Boolean.bit C))) s terms ts ->
    length e = width -> Forall (fun l => length l = width) (concat ts) -> sum_limit width (length (concat ts)) ->
    checks C s (assert_wrapping_sum self width expected terms) (num e = total (concat ts) mod 2 ^ N.of_nat width)%N
}.

Section instances.
Context {E : Type} `{AlgebraicFieldLaws E} `{!logic.Logic E} (C : Prop) `{!LogicLaws E C} `{!CompileField E}.
#[local] Abbreviation dim := pseudo_dimension_of_multiplicative_group.
Definition field_limit (width n : nat) : Prop :=
  0 < n /\ width < dim /\ (N.of_nat n < adder.max_terms (dim - width))%N.
Lemma field_limit_fits width e ls : length e = width -> Forall (fun l => length l = width) ls -> field_limit width (length ls) ->
  sum_fits width e ls.
Proof. intros He Hl (Hn & Hw & Hc). split; [done|done|by destruct ls; [cbn in Hn; lia|]|done|done]. Qed.

Definition fp_wrapping_sum `{!SupportsU64Conversions E} : FieldWrappingSum E := fun self => adder.wrapping_sum_fp self.
Definition gf2_wrapping_sum `{!CompileBinaryField E} : FieldWrappingSum E := fun self => adder.wrapping_sum_gf2 self.
#[refine] Definition fp_sum_laws `{!CompileFieldLaws E} `{!SupportsU64Conversions E} `{!PrimeFieldLaws E} :
  @FieldWrappingSumLaws E C _ _ _ fp_wrapping_sum := {| sum_limit := field_limit |}.
Proof.
  intros self width s expected e terms ts Hb1 Hb2 Hi He Ht Hle Hlt Hf.
  refine (wrapping_sum_fp_ok C self Hb1 width s expected e terms ts Hi He Ht _). by apply field_limit_fits.
Defined.
#[refine] Definition gf2_sum_laws `{!CompileBinaryField E} (capacity : N) `{!BinaryFieldLaws E capacity} :
  @FieldWrappingSumLaws E C _ _ _ gf2_wrapping_sum :=
  {| sum_limit width n := field_limit width n /\ 0 < width /\ (N.of_nat n * 2 ^ N.of_nat width <= capacity)%N |}.
Proof.
  intros self width s expected e terms ts Hb1 Hb2 Hi He Ht Hle Hlt (Hf & Hw & Hc).
  refine (wrapping_sum_gf2_ok C self Hb2 capacity width s expected e terms ts Hi He Ht _ Hw Hc). by apply field_limit_fits.
Defined.
End instances.
