(* ===== verification/CompileFields.v ===== *)
(** * The fields of the compiler ([src/rust/compile/algebra/src/{gf2_128,fp,nat,p256,q256}.rs])

    GF(2^128) and the prime fields with what circuits ask of them: a basis
    for encoding bits, conversions of integers and, for GF(2^128), a
    generator whose powers below 2^64 are different. *)
From stdpp Require Import prelude strings.
From Stdlib Require Import Lia NArith ZArith Znumtheory Zmod ZifyNat ZifyN Ring Ring_theory.
From S2P Require Import Prelude Words Interfaces Gf2_128 Field FieldFacts Gf2_128Facts CompilerIR Logic Boolean Arithmetic Bitvec AnalogAdder.
Local Open Scope nat_scope.

(** ** GF(2^128)

    The elements and their arithmetic are those of the reference
    implementation. *)
Module compile_gf2_128.
Definition pseudo_basis (i : nat) : outcome fuel_error Gf2_128 :=
  rust_assert (i <? 128) ;; mret (gf (N.shiftl 1 (N.of_nat i))).
Definition pseudo_basis_unsafe (i : nat) : outcome fuel_error Gf2_128 := pseudo_basis i.
Definition pseudo_dimension : nat := 128.
Definition pseudo_dimension_of_multiplicative_group : nat := 128.
Definition u64_to_element (n : N) : outcome fuel_error Gf2_128 := mret (gf n).
Definition u128_to_element (n : N) : outcome fuel_error Gf2_128 := mret (gf n).
Definition generator : Gf2_128 := gf 2.
End compile_gf2_128.

#[export] Instance gf_compile_field : CompileField Gf2_128 := {|
  pseudo_basis := compile_gf2_128.pseudo_basis;
  pseudo_dimension := compile_gf2_128.pseudo_dimension;
  pseudo_basis_unsafe := compile_gf2_128.pseudo_basis_unsafe;
  pseudo_dimension_of_multiplicative_group := compile_gf2_128.pseudo_dimension_of_multiplicative_group
|}.
#[export] Instance gf_u64_conversions : SupportsU64Conversions Gf2_128 := compile_gf2_128.u64_to_element.
#[export] Instance gf_binary_field : CompileBinaryField Gf2_128 := compile_gf2_128.generator.

(** *** The basis *)
Section gf_basis.
Add Ring gf_ring_compile : (field_ring (E:=Gf2_128)).
Local Open Scope N_scope.
Definition gf_basis (i : nat) : Gf2_128 := gf (2 ^ N.of_nat i).
Lemma gf_pseudo_basis i : (i < 128)%nat -> compile_gf2_128.pseudo_basis i = Ok (gf_basis i).
Proof.
  intros Hi. unfold compile_gf2_128.pseudo_basis, gf_basis. rewrite (proj2 (Nat.ltb_lt _ _) Hi). cbn [rust_assert mbind].
  by rewrite N.shiftl_1_l.
Qed.
Lemma pow2_128 i : (i < 128)%nat -> 2 ^ N.of_nat i < 2 ^ 128.
Proof. intros Hi. apply N.pow_lt_mono_r; lia. Qed.
Lemma gf_term_testbit i x j : (i < 128)%nat ->
  N.testbit (gf_val (fmul (gf_basis i) (of_bool x))) j = (N.of_nat i =? j) && x.
Proof.
  intros Hi. destruct x; cbn [of_bool].
  - replace (fmul (gf_basis i) fone) with (gf_basis i) by ring.
    unfold gf_basis. rewrite gf_val_gf by by apply pow2_128. by rewrite N.pow2_bits_eqb, andb_true_r.
  - replace (fmul (gf_basis i) fzero) with gf_zero by (change gf_zero with (fzero : Gf2_128); ring).
    by rewrite gf_val_0, N.bits_0, andb_false_r.
Qed.
Lemma gf_encode_testbit l : forall k j, (k + length l <= 128)%nat ->
  N.testbit (gf_val (fsum (imap (fun i x => fmul (gf_basis (k + i)) (of_bool x)) l))) j
  = if (N.of_nat k <=? j) then default false (l !! (N.to_nat j - k)%nat) else false.
Proof.
  induction l as [|x l IH]; intros k j Hk; [cbn; by destruct (N.of_nat k <=? j)|]. rewrite imap_cons. cbn [fsum length] in *.
  change (fadd ?a ?b) with (gf_add a b). rewrite gf_val_add, N.lxor_spec, gf_term_testbit by lia. rewrite Nat.add_0_r.
  replace (imap ((fun i x => fmul (gf_basis (k + i)) (of_bool x)) ∘ S) l) with (imap (fun i x => fmul (gf_basis (S k + i)) (of_bool x)) l)
    by (apply imap_ext; intros; cbn; by rewrite Nat.add_succ_r).
  rewrite IH by lia. destruct (N.eqb_spec (N.of_nat k) j) as [<-|Hne].
  - rewrite (proj2 (N.leb_gt (N.of_nat (S k)) _)), N.leb_refl, Nat2N.id, Nat.sub_diag, xorb_false_r by lia. done.
  - rewrite andb_false_l, xorb_false_l. destruct (N.leb_spec (N.of_nat k) j) as [Hle|Hlt].
    + rewrite (proj2 (N.leb_le _ _)) by lia. by replace (N.to_nat j - k)%nat with (S (N.to_nat j - S k)) by lia.
    + by rewrite (proj2 (N.leb_gt _ _)) by lia.
Qed.
Lemma gf_encode_num l : (length l <= 128)%nat -> gf_val (fsum (imap (fun i x => fmul (gf_basis i) (of_bool x)) l)) = num l.
Proof.
  intros Hl. apply N.bits_inj. intros j. transitivity (default false (l !! N.to_nat j)).
  - rewrite <- (Nat.sub_0_r (N.to_nat j)). pose proof (gf_encode_testbit l 0 j Hl) as Hj. rewrite (proj2 (N.leb_le _ _)) in Hj by lia. exact Hj.
  - by rewrite <- num_testbit, N2Nat.id.
Qed.
#[export] Instance gf_compile_field_laws : CompileFieldLaws Gf2_128.
Proof.
  refine {| basis := gf_basis |}.
  - exact gf_pseudo_basis.
  - exact gf_pseudo_basis.
  - intros l m Hlen Hl Heq. apply num_inj; [done|]. cbn in Hl. unfold compile_gf2_128.pseudo_dimension in Hl.
    by rewrite <- gf_encode_num, Heq, gf_encode_num by lia.
  - apply Nat.ltb_lt. reflexivity.
Defined.
End gf_basis.

(** *** The powers of the generator

    The multiplicative group has (2^64 + 1)(2^64 - 1) elements; no power of
    the generator to a quotient of its order by a prime factor of 2^64 - 1 is
    one, so its order has the factor 2^64 - 1. *)
Section gf_order.
Local Open Scope N_scope.
Add Ring gf_ring_order : (field_ring (E:=Gf2_128)).
#[local] Abbreviation g := compile_gf2_128.generator.

(** Powers of the generator on the bits. *)
Definition is_power (n x : N) : Prop := x < 2 ^ 128 /\ gf_val (fpow g n) = x.
Definition times (a b : N) : N := (Nat.iter 128 gf_mul_step (0, a, b)).1.1.
Fixpoint power (p : positive) (x : N) : N :=
  match p with
  | xH => x
  | xO p => sqL (power p x)
  | xI p => times x (sqL (power p x))
  end.

Lemma is_power_times m n x y : is_power m x -> is_power n y -> is_power (m + n) (times x y).
Proof.
  intros [Hx <-] [Hy <-]. assert (gf_val (fpow g (m + n)) = times (gf_val (fpow g m)) (gf_val (fpow g n))) as Heq.
  { rewrite fpow_add. change (fmul ?a ?b) with (gf_mul a b). rewrite gf_val_mul. unfold times. by rewrite gf_mul_iter. }
  split; [rewrite <- Heq; apply gf_val_lt|done].
Qed.
Lemma is_power_square n x : is_power n x -> is_power (2 * n) (sqL x).
Proof.
  intros [Hlt <-]. rewrite <- square_sqL by done. replace (2 * n) with (n + n) by lia.
  assert (gf_val (fpow g (n + n)) = mulN (gf_val (fpow g n)) (gf_val (fpow g n))) as Heq by (rewrite fpow_add; apply gf_val_mul).
  split; [apply mulN_lt, gf_val_lt|done].
Qed.
Lemma is_power_power p n x : is_power n x -> is_power (N.pos p * n) (power p x).
Proof.
  intros Hx. induction p as [p IH|p IH|]; cbn [power]; [| |by rewrite N.mul_1_l].
  - replace (N.pos p~1 * n) with (n + 2 * (N.pos p * n)) by lia. by apply is_power_times, is_power_square.
  - replace (N.pos p~0 * n) with (2 * (N.pos p * n)) by lia. by apply is_power_square.
Qed.
Lemma is_power_generator : is_power 1 2.
Proof. split; [done|]. by rewrite fpow_1. Qed.

Definition order : N := 2 ^ 128 - 1.
Definition small_order : N := 2 ^ 64 - 1.
Definition small_primes : list N := [3; 5; 17; 257; 641; 65537; 6700417].
Definition positive_of (n : N) : positive := match n with N0 => xH | Npos p => p end.
Lemma quotients_checked : forallb (fun q => negb (power (positive_of (order / q)) 2 =? 1)) small_primes = true.
Proof. vm_compute. reflexivity. Qed.
Lemma quotient_power q : q ∈ small_primes -> fpow g (order / q) <> fone.
Proof.
  intros Hq Heq. pose proof quotients_checked as Hall. rewrite forallb_forall in Hall.
  specialize (Hall q (proj1 (list_elem_of_In _ _) Hq)). apply negb_true_iff, N.eqb_neq in Hall. apply Hall.
  assert (exists p, order / q = N.pos p) as [p Hp].
  { unfold small_primes in Hq. repeat (apply elem_of_cons in Hq as [->|Hq]; [eexists; vm_compute; reflexivity|]). by apply elem_of_nil in Hq. }
  rewrite Hp in *. cbn [positive_of]. destruct (is_power_power p 1 2 is_power_generator) as [_ <-].
  by rewrite N.mul_1_r, Heq.
Qed.
(** 128 squarings are the identity. *)
Lemma generator_order : fpow g order = fone.
Proof.
  assert (forall k x, x < 2 ^ 128 -> is_power (2 ^ N.of_nat k) (Nat.iter k sqL 2)) as Hk.
  { intros k _ _. induction k as [|k IH]; [exact is_power_generator|]. rewrite Nat2N.inj_succ, N.pow_succ_r'. cbn [Nat.iter nat_rect]. by apply is_power_square. }
  destruct (Hk 128%nat 0 eq_refl) as [_ Heq]. rewrite frobenius in Heq by done.
  replace (2 ^ N.of_nat 128) with (N.succ order) in Heq by reflexivity. rewrite fpow_succ in Heq.
  generalize dependent (fpow g order). clear. intros x Hx.
  assert (fmul g x = fmul g fone) as Hmul.
  { transitivity g; [apply gf_eq; rewrite Hx; reflexivity|ring]. }
  destruct (invert_spec g) as (i & _ & Hi); [by intros ?%(f_equal gf_val)|].
  transitivity (fmul i (fmul g x)); [|rewrite Hmul; transitivity (fmul g i); [ring|exact Hi]].
  transitivity (fmul (fmul g i) x); [rewrite Hi; ring|ring].
Qed.
Lemma fpow_one_mul d k : fpow g d = fone -> fpow g (d * k) = fone.
Proof.
  intros Hd. rewrite fpow_mul, Hd. clear. induction k as [|k IH] using N.peano_ind; [done|]. rewrite fpow_succ, IH. ring.
Qed.
Lemma fpow_gcd e : 0 < e -> fpow g e = fone -> fpow g (N.gcd e order) = fone.
Proof.
  intros He Hpow. destruct (N.gcd_bezout_pos e order He) as (a & b & Hab). 
  transitivity (fmul (fpow g (N.gcd e order)) (fpow g (b * order))).
  - rewrite (N.mul_comm b), (fpow_one_mul _ _ generator_order). ring.
  - rewrite <- fpow_add, <- Hab, N.mul_comm. by apply fpow_one_mul.
Qed.

(** *** Primes by trial division *)
Definition trial (p : Z) (n : nat) : bool := forallb (fun d => negb (p mod Z.of_nat d =? 0)%Z) (seq 2 n).
Lemma trial_prime p n : (1 < p < (Z.of_nat n + 2) * (Z.of_nat n + 2))%Z -> trial p n = true -> Z.prime p.
Proof.
  intros [Hp Hn] Ht. split; [done|]. intros d Hd [c Hc]. unfold trial in Ht. rewrite forallb_forall in Ht.
  assert (forall x y, (1 < x)%Z -> (p = y * x)%Z -> (x < Z.of_nat n + 2)%Z -> False) as Hno.
  { intros x y Hx Hxy Hlt. specialize (Ht (Z.to_nat x) ltac:(apply in_seq; lia)). apply negb_true_iff, Z.eqb_neq in Ht.
    apply Ht. rewrite Z2Nat.id, Hxy by lia. apply Z_mod_mult. }
  destruct (Z.lt_ge_cases d (Z.of_nat n + 2)) as [Hlt|Hge]; [by apply (Hno d c); lia|].
  apply (Hno c d); [nia|lia|]. nia.
Qed.
Definition trial_steps (p : Z) : nat := Z.to_nat (Z.min 2587 (p - 2)).
Lemma small_primes_prime q : q ∈ small_primes -> Z.prime (Z.of_N q).
Proof.
  intros Hq. assert (forallb (fun q => let p := Z.of_N q in let n := trial_steps p in
      (1 <? p)%Z && (p <? (Z.of_nat n + 2) * (Z.of_nat n + 2))%Z && trial p n) small_primes = true) as Hall by (vm_compute; reflexivity).
  rewrite forallb_forall in Hall. specialize (Hall _ (proj1 (list_elem_of_In _ _) Hq)). cbn zeta in Hall.
  apply andb_true_iff in Hall as [Hlt Ht]. apply andb_true_iff in Hlt as [H1%Z.ltb_lt H2%Z.ltb_lt]. by eapply trial_prime.
Qed.
Lemma coprime_product (ls : list N) k : Forall (fun q => Z.coprime k (Z.of_N q)) ls -> Z.coprime k (Z.of_N (foldr N.mul 1 ls)).
Proof.
  induction 1 as [|q ls Hq _ IH]; [apply Z.gcd_1_r|]. cbn [foldr]. rewrite N2Z.inj_mul. by apply Z.coprime_mul_r.
Qed.

Lemma no_small_power e : 0 < e -> e < small_order -> fpow g e <> fone.
Proof.
  intros He Hlt Hpow. apply fpow_gcd in Hpow; [|done]. set (d := N.gcd e order) in *.
  assert (d <= e) as Hd by (apply N.divide_pos_le; [done|apply N.gcd_divide_l]).
  destruct (N.gcd_divide_r e order) as [k Hk]. fold d in Hk.
  assert (Z.coprime (Z.of_N k) (Z.of_N small_order)) as Hcop.
  { replace small_order with (foldr N.mul 1 small_primes) by (vm_compute; reflexivity). apply coprime_product, Forall_forall.
    intros q Hq. unfold Z.coprime. rewrite Z.gcd_comm. apply Z.coprime_prime_l; [by apply small_primes_prime|]. intros [c Hc].
    apply (quotient_power q Hq). assert (0 < q) as Hqp by (unfold small_primes in Hq; repeat (apply elem_of_cons in Hq as [->|Hq]; [done|]); by apply elem_of_nil in Hq).
    replace (order / q) with (d * Z.to_N c); [by apply fpow_one_mul|]. apply N.div_unique_exact; [lia|]. rewrite Hk. nia. }
  assert (Z.of_N k | Z.of_N (2 ^ 64 + 1))%Z as Hdiv.
  { apply (Z.gauss _ (Z.of_N small_order)); [|done]. exists (Z.of_N d). rewrite <- !N2Z.inj_mul, (N.mul_comm d), <- Hk.
    reflexivity. }
  apply Z.divide_pos_le in Hdiv; [|done]. apply N2Z.inj_le in Hdiv.
  assert (order = (2 ^ 64 + 1) * small_order) as Ho by (vm_compute; reflexivity). nia.
Qed.
#[export] Instance gf_binary_laws : BinaryFieldLaws Gf2_128 (2 ^ 64 - 1).
Proof.
  assert (g <> fzero) as Hz by by intros ?%(f_equal gf_val).
  assert (forall a d, fpow g a = fpow g (a + d) -> 0 < d -> d < small_order -> False) as Hno.
  { intros a d Heq Hd Hlt. apply (no_small_power d Hd Hlt). rewrite fpow_add in Heq.
    assert (fpow g a <> fzero) as Hne.
    { clear -Hz. induction a as [|a IH] using N.peano_ind; [apply one_neq_zero|]. rewrite fpow_succ. by apply mul_neq_zero. }
    destruct (invert_spec _ Hne) as (i & _ & Hi). generalize dependent (fpow g a). generalize (fpow g d). intros x y Hxy _ Hi.
    transitivity (fmul (fmul y i) x); [rewrite Hi; ring|]. transitivity (fmul (fmul y x) i); [ring|]. by rewrite <- Hxy. }
  split; [exact Hz|]. intros a b Ha Hb Heq. destruct (N.lt_trichotomy a b) as [Hlt|[->|Hlt]]; [|done|].
  - exfalso. apply (Hno a (b - a)); [by replace (a + (b - a)) with b by lia|lia|]. unfold small_order. lia.
  - exfalso. apply (Hno b (a - b)); [by replace (b + (a - b)) with a by lia|lia|]. unfold small_order. lia.
Qed.
End gf_order.

(** ** Numbers of a fixed width ([src/rust/compile/algebra/src/nat.rs])

    [CompileNat] is a [BigUint] of at most [W] words of 64 bits. *)
Module compile_nat.
Section nat.
Context (W : nat).
Local Open Scope N_scope.
Definition assert_fits (val : N) : outcome fuel_error unit := rust_assert (N.size val <=? N.of_nat (W * 64)).
Definition bit_width : nat := W * 64.
Definition from_biguint (val : N) : outcome fuel_error N := assert_fits val ;; mret val.
Definition to_limbs (n : N) : outcome fuel_error (list N) :=
  assert_fits n ;; mret (map (fun i => N.shiftr n (64 * N.of_nat i) mod 2 ^ 64) (seq 0 W)).
(** Two digits of 32 bits for a limb. *)
Fixpoint from_limbs (limbs : list N) : N :=
  match limbs with
  | [] => 0
  | limb :: limbs => limb mod 2 ^ 32 + 2 ^ 32 * (N.shiftr limb 32 mod 2 ^ 32 + 2 ^ 32 * from_limbs limbs)
  end.
Definition from_u64 (val : N) : outcome fuel_error N := from_biguint val.
Definition to_bytes_le (n : N) : outcome fuel_error (list u8) := assert_fits n ;; mret (to_le_bytes (W * 8) n).
Definition from_bytes_le (bytes : list u8) : outcome fuel_error N :=
  rust_assert (Nat.eqb (length bytes) (W * 8)) ;; mret (from_le_bytes bytes).
Definition bit (n : N) (i : nat) : bool := N.land (N.shiftr n (N.of_nat i)) 1 =? 1.
Definition to_bits (n : N) (k : nat) : list bool := map (bit n) (seq 0 k).

Lemma from_limbs_cons limb limbs : limb < 2 ^ 64 -> from_limbs (limb :: limbs) = limb + 2 ^ 64 * from_limbs limbs.
Proof.
  intros Hl. cbn [from_limbs]. rewrite N.shiftr_div_pow2. rewrite (N.mod_small (limb / 2 ^ 32)) by (apply N.Div0.div_lt_upper_bound; done).
  pose proof (N.div_mod limb (2 ^ 32) ltac:(done)). change (2 ^ 64) with (2 ^ 32 * 2 ^ 32). lia.
Qed.
Lemma limbs_round_trip k : forall n, n < 2 ^ (64 * N.of_nat k) -> from_limbs (map (fun i => N.shiftr n (64 * N.of_nat i) mod 2 ^ 64) (seq 0 k)) = n.
Proof.
  induction k as [|k IH]; intros n Hn; [cbn in *; lia|]. rewrite <- cons_seq. cbn [map]. rewrite from_limbs_cons by by apply N.mod_lt.
  rewrite <- seq_shift, map_map. change (64 * N.of_nat 0) with 0. rewrite N.shiftr_0_r.
  rewrite (map_ext _ (fun i => N.shiftr (n / 2 ^ 64) (64 * N.of_nat i) mod 2 ^ 64)).
  - rewrite IH; [pose proof (N.div_mod n (2 ^ 64) ltac:(done)); lia|]. apply N.Div0.div_lt_upper_bound. rewrite <- N.pow_add_r.
    replace (64 + 64 * N.of_nat k) with (64 * N.of_nat (S k)) by lia. done.
  - intros i. rewrite <- N.shiftr_div_pow2, N.shiftr_shiftr. do 2 f_equal. lia.
Qed.
Lemma to_from_limbs n : N.size n <= N.of_nat (W * 64) -> exists limbs, to_limbs n = Ok limbs /\ from_limbs limbs = n.
Proof.
  intros Hn. unfold to_limbs, assert_fits. rewrite (proj2 (N.leb_le _ _) Hn). eexists. split; [reflexivity|].
  apply limbs_round_trip. eapply N.lt_le_trans; [apply N.size_gt|]. apply N.pow_le_mono_r; lia.
Qed.
Lemma bit_testbit n i : bit n i = N.testbit n (N.of_nat i).
Proof.
  unfold bit. change 1 with (N.ones 1). rewrite N.land_ones, N.pow_1_r, <- N.bit0_mod, N.shiftr_spec', N.add_0_l. by destruct (N.testbit _ _).
Qed.
End nat.
End compile_nat.

(** ** Prime fields

    An element is a [BigUint], here a number; the operations keep it below
    the modulus.  [modpow] is the library's: it is only known to be a power. *)
Class BigUintPow := modpow : N -> N -> N -> N.
Class BigUintPowLaws `{BigUintPow} := modpow_ok a e m : (1 < m)%N -> modpow a e m = (a ^ e mod m)%N.

Module fp.
Local Open Scope N_scope.
Record FpParameters := { length_bytes : nat; modulo : N }.
Record FpField := { f_length_bytes : nat; f_modulo : N; f_basis : list N; f_dimension : nat }.
Definition new_field (params : FpParameters) : outcome fuel_error FpField :=
  let modulo := modulo params in
  let bits := N.size modulo in
  rust_assert (1 <? modulo) ;;
  rust_assert ((bits + 7) / 8 <=? N.of_nat (length_bytes params)) ;;
  let dimension := N.to_nat (bits - 1) in
  let basis := map (fun i => N.shiftl 1 (N.of_nat i) mod modulo) (seq 0 dimension) in
  mret {| f_length_bytes := length_bytes params; f_modulo := modulo; f_basis := basis; f_dimension := dimension |}.

Section ops.
Context (self : FpField) `{BigUintPow}.
#[local] Abbreviation modulo := (f_modulo self).
#[local] Abbreviation length_bytes := (f_length_bytes self).

(** [BigUint] subtraction panics below zero. *)
Definition big_sub (a b : N) : outcome fuel_error N := rust_assert (b <=? a) ;; mret (a - b).
Definition zero : N := 0.
Definition one : N := 1.
Definition add (a b : N) : N := (a + b) mod modulo.
Definition sub (a b : N) : outcome fuel_error N :=
  if b <=? a then mret (a - b) else d ← big_sub b a; big_sub modulo d.
Definition mul (a b : N) : N := (a * b) mod modulo.
Definition invert (a : N) : outcome fuel_error N :=
  rust_assert (negb (a =? zero)) ;; e ← big_sub modulo 2; mret (modpow a e modulo).

Definition pseudo_basis (i : nat) : outcome fuel_error N := index (f_basis self) i.
Definition pseudo_dimension : nat := f_dimension self.
(** Not reduced. *)
Definition pseudo_basis_unsafe (i : nat) : N := N.shiftl 1 (N.of_nat i).
Definition pseudo_dimension_of_multiplicative_group : outcome fuel_error nat :=
  order ← big_sub modulo 1; rust_assert (1 <=? N.size order) ;; mret (N.to_nat (N.size order - 1)).
Definition characteristic : N := modulo.

Definition to_bytes (e : N) : list u8 := to_le_bytes length_bytes e.
Definition bytes_to_element (bs : list u8) : outcome string N :=
  reject_if (negb (Nat.eqb (length bs) length_bytes)) "Invalid size"%string ;;
  let value := from_le_bytes bs in
  reject_if (modulo <=? value) "Out of bounds"%string ;;
  mret value.

(** [n] and [i] are small enough for [u64]. *)
Definition lookup_point (n i : nat) : outcome fuel_error N :=
  rust_assert (1 <=? n)%nat ;; sub (2 * N.of_nat i) (N.of_nat n - 1).
Definition u64_to_element (n : N) : outcome fuel_error N := rust_assert (n <? modulo) ;; mret n.
Definition u128_to_element (n : N) : outcome fuel_error N := rust_assert (n <? modulo) ;; mret n.
Definition reduce_nat (n : N) : N := n mod modulo.
End ops.
End fp.

(** The fields of the curve P-256 ([p256.rs] and [q256.rs]). *)
Definition p256_params : fp.FpParameters :=
  {| fp.length_bytes := 32; fp.modulo := 0xffffffff00000001000000000000000000000000ffffffffffffffffffffffff%N |}.
Definition q256_params : fp.FpParameters :=
  {| fp.length_bytes := 32; fp.modulo := 0xffffffff00000000ffffffffffffffffbce6faada7179e84f3b9cac2fc632551%N |}.
Example new_p256_fields : (f ← fp.new_field p256_params; mret (fp.f_dimension f)) = Ok 255 /\ (f ← fp.new_field q256_params; mret (fp.f_dimension f)) = Ok 255.
Proof. split; vm_compute; reflexivity. Qed.

(** *** The field of the reduced elements *)
Record Fp (p : positive) := mk_fp { fp_n : N; fp_canonical : (fp_n <? N.pos p)%N = true }.
Arguments mk_fp {_} _ _. Arguments fp_n {_} _. Arguments fp_canonical {_} _.
Section residues.
Context (p : positive).
Local Open Scope N_scope.
(** The element a number stands for. *)
Definition residue (x : N) : Fp p :=
  match Bool.bool_dec (x mod N.pos p <? N.pos p) true with
  | left Hx => mk_fp (x mod N.pos p) Hx
  | right _ => mk_fp 0 eq_refl
  end.
Definition fp_params : fp.FpParameters :=
  {| fp.modulo := N.pos p; fp.length_bytes := N.to_nat ((N.size (N.pos p) + 7) / 8) |}.
Definition fp_self : fp.FpField :=
  let dimension := N.to_nat (N.size (N.pos p) - 1) in
  {| fp.f_length_bytes := fp.length_bytes fp_params; fp.f_modulo := N.pos p;
     fp.f_basis := map (fun i => N.shiftl 1 (N.of_nat i) mod N.pos p) (seq 0 dimension); fp.f_dimension := dimension |}.
Lemma new_field_ok : 1 < N.pos p -> fp.new_field fp_params = Ok fp_self.
Proof.
  intros Hp. unfold fp.new_field. cbn [fp_params fp.modulo fp.length_bytes]. rewrite (proj2 (N.ltb_lt _ _) Hp), N2Nat.id, N.leb_refl. reflexivity.
Qed.
Lemma fp_eq (a b : Fp p) : fp_n a = fp_n b -> a = b.
Proof. destruct a as [x Hx], b as [y Hy]. cbn. intros ->. f_equal. apply Eqdep_dec.UIP_dec. decide equality. Qed.
Lemma fp_n_lt (a : Fp p) : fp_n a < N.pos p.
Proof. apply N.ltb_lt, fp_canonical. Qed.
Lemma fp_n_residue x : fp_n (residue x) = x mod N.pos p.
Proof.
  unfold residue. destruct (Bool.bool_dec _ true) as [|Hne]; [done|]. exfalso. apply Hne, N.ltb_lt, N.mod_lt. done.
Qed.
Lemma residue_n a : residue (fp_n a) = a.
Proof. apply fp_eq. rewrite fp_n_residue. apply N.mod_small, fp_n_lt. Qed.
Lemma residue_mod x : residue (x mod N.pos p) = residue x.
Proof. apply fp_eq. rewrite !fp_n_residue. by apply N.Div0.mod_mod. Qed.
Lemma residue_eq x y : x mod N.pos p = y mod N.pos p -> residue x = residue y.
Proof. intros Heq. apply fp_eq. by rewrite !fp_n_residue. Qed.
Lemma residue_inj x y : x < N.pos p -> y < N.pos p -> residue x = residue y -> x = y.
Proof. intros Hx Hy Heq. apply (f_equal fp_n) in Heq. by rewrite !fp_n_residue, !N.mod_small in Heq. Qed.

Context `{BigUintPow}.
Definition of_result (r : outcome fuel_error N) : Fp p := match r with Ok x => residue x | _ => residue 0 end.
#[export] Instance fp_algebraic_field : AlgebraicField (Fp p) := {|
  fzero := residue fp.zero; fone := residue fp.one;
  fadd a b := residue (fp.add fp_self (fp_n a) (fp_n b));
  fsub a b := of_result (fp.sub fp_self (fp_n a) (fp_n b));
  fmul a b := residue (fp.mul fp_self (fp_n a) (fp_n b));
  fneg a := of_result (fp.sub fp_self fp.zero (fp_n a));
  Field.invert a := match fp.invert fp_self (fp_n a) with Ok x => Some (residue x) | _ => None end;
  is_zero a := fp_n a =? 0
|}.
(** Subtraction of reduced elements does not panic. *)
Lemma fp_sub_ok x y : x < N.pos p -> y < N.pos p -> exists d, fp.sub fp_self x y = Ok d /\ d < N.pos p + 1 /\ d mod N.pos p = (x + (N.pos p - y)) mod N.pos p.
Proof.
  intros Hx Hy. unfold fp.sub. destruct (N.leb_spec y x) as [Hle|Hlt].
  - exists (x - y). split; [done|]. split; [lia|]. replace (x + (N.pos p - y)) with (x - y + 1 * N.pos p) by lia. by rewrite N.Div0.mod_add.
  - exists (N.pos p - (y - x)). split; [|split; [lia|f_equal; lia]]. unfold fp.big_sub. cbn [fp_self fp.f_modulo].
    rewrite (proj2 (N.leb_le x y)) by lia. cbn [rust_assert mbind outcome_bind mret outcome_ret]. by rewrite (proj2 (N.leb_le (y - x) (N.pos p))) by lia.
Qed.
End residues.

Section prime_field.
Context (p : positive) `{BigUintPowLaws}.
Local Open Scope N_scope.
#[local] Abbreviation r := (residue p).

Lemma r_add x y : fadd (r x) (r y) = r (x + y).
Proof. cbn [fadd fp_algebraic_field]. unfold fp.add. cbn [fp_self fp.f_modulo]. rewrite !fp_n_residue, <- N.Div0.add_mod. apply residue_mod. Qed.
Lemma r_mul x y : fmul (r x) (r y) = r (x * y).
Proof. cbn [fmul fp_algebraic_field]. unfold fp.mul. cbn [fp_self fp.f_modulo]. rewrite !fp_n_residue, <- N.Div0.mul_mod. apply residue_mod. Qed.
Lemma r_sub (a b : Fp p) : fsub a b = r (fp_n a + (N.pos p - fp_n b)).
Proof.
  cbn [fsub fp_algebraic_field]. destruct (fp_sub_ok p (fp_n a) (fp_n b) (fp_n_lt p a) (fp_n_lt p b)) as (d & -> & _ & Hd).
  cbn [of_result]. by apply residue_eq.
Qed.
Lemma r_neg (a : Fp p) : fneg a = r (N.pos p - fp_n a).
Proof.
  cbn [fneg fp_algebraic_field]. destruct (fp_sub_ok p fp.zero (fp_n a) ltac:(done) (fp_n_lt p a)) as (d & -> & _ & Hd).
  cbn [of_result]. by apply residue_eq.
Qed.
Lemma residues (P : Fp p -> Prop) : (forall x, x < N.pos p -> P (r x)) -> forall a, P a.
Proof. intros HP a. rewrite <- (residue_n p a). apply HP, fp_n_lt. Qed.
Lemma fp_n_small x : x < N.pos p -> fp_n (r x) = x.
Proof. intros Hx. rewrite fp_n_residue. by apply N.mod_small. Qed.
Lemma r_modulus x : r (x + N.pos p) = r x.
Proof. apply residue_eq. rewrite <- (N.mul_1_l (N.pos p)) at 1. apply N.Div0.mod_add. Qed.

Lemma fp_ring : ring_theory (fzero : Fp p) fone fadd fmul fsub fneg eq.
Proof.
  split; repeat (refine (residues _ _); intros ? ?).
  1-7: change (fzero : Fp p) with (r 0); change (fone : Fp p) with (r 1); rewrite ?r_add, ?r_mul, ?r_add, ?r_mul; f_equal; lia.
  - rewrite r_sub, r_neg, r_add, !fp_n_small by done. done.
  - rewrite r_neg, r_add, fp_n_small by done. change (fzero : Fp p) with (r 0). rewrite <- (r_modulus 0). f_equal. lia.
Qed.

Context (Hprime : Z.prime (Z.pos p)).
Lemma modulus_ge_2 : 2 <= N.pos p.
Proof. apply Z.prime_ge_2 in Hprime. lia. Qed.
Lemma fp_invert_ok x : 0 < x -> x < N.pos p -> exists i, fp.invert (fp_self p) x = Ok i /\ fmul (r x) (r i) = r 1.
Proof.
  intros Hx Hlt. pose proof modulus_ge_2. unfold fp.invert, fp.big_sub, fp.zero. cbn [fp_self fp.f_modulo].
  rewrite (proj2 (N.eqb_neq x 0)) by lia. rewrite (proj2 (N.leb_le 2 _)) by lia.
  eexists. split; [reflexivity|]. rewrite r_mul. apply residue_eq. rewrite modpow_ok by lia.
  rewrite N.Div0.mul_mod_idemp_r. replace (x * x ^ (N.pos p - 2)) with (x ^ (N.pos p - 1))
    by (replace (N.pos p - 1) with (N.succ (N.pos p - 2)) by lia; by rewrite N.pow_succ_r').
  rewrite (N.mod_small 1) by lia. apply N2Z.inj. rewrite N2Z.inj_mod, N2Z.inj_pow, N2Z.inj_sub by lia.
  apply Z.fermat_nz; [done|]. cbn [Z.of_N]. rewrite Z.mod_small; lia.
Qed.
Lemma fp_laws : AlgebraicFieldLaws (Fp p).
Proof.
  pose proof modulus_ge_2 as Hp. split.
  - exact fp_ring.
  - intros Heq. apply residue_inj in Heq; unfold fp.one, fp.zero in *; lia.
  - refine (residues _ _). intros x Hx. cbn [is_zero fp_algebraic_field]. rewrite N.eqb_eq, fp_n_small by done. split; [by intros ->|].
    intros Heq. apply (f_equal fp_n) in Heq. rewrite !fp_n_residue, !N.mod_small in Heq by (unfold fp.zero; lia). done.
  - cbn [Field.invert fp_algebraic_field]. change (fzero : Fp p) with (r 0). by rewrite fp_n_small by lia.
  - refine (residues _ _). intros x Hx Hne. cbn [Field.invert fp_algebraic_field]. rewrite fp_n_small by done.
    destruct (fp_invert_ok x) as (i & -> & Hi); [|done|by exists (r i)].
    destruct (N.eq_dec x 0) as [->|]; [by destruct Hne|lia].
Qed.

(** *** Encoding numbers *)
#[export] Instance fp_compile_field : CompileField (Fp p) := {|
  pseudo_basis i := r <$> fp.pseudo_basis (fp_self p) i;
  pseudo_dimension := fp.pseudo_dimension (fp_self p);
  pseudo_basis_unsafe i := mret (r (fp.pseudo_basis_unsafe i));
  pseudo_dimension_of_multiplicative_group := match fp.pseudo_dimension_of_multiplicative_group (fp_self p) with Ok n => n | _ => 0%nat end
|}.
#[export] Instance fp_u64_conversions : SupportsU64Conversions (Fp p) := fun n => r <$> fp.u64_to_element (fp_self p) n.

Lemma fp_dimension : pseudo_dimension (E:=Fp p) = N.to_nat (N.log2 (N.pos p)).
Proof. unfold pseudo_dimension, fp_compile_field, fp.pseudo_dimension, fp_self. cbn [fp.f_dimension]. rewrite N.size_log2 by done. lia. Qed.
Lemma fp_dimension_multiplicative : pseudo_dimension_of_multiplicative_group (E:=Fp p) = N.to_nat (N.log2 (N.pos p - 1)).
Proof.
  pose proof modulus_ge_2 as Hp. unfold pseudo_dimension_of_multiplicative_group, fp_compile_field, fp.pseudo_dimension_of_multiplicative_group, fp.big_sub.
  cbn [fp_self fp.f_modulo]. rewrite (proj2 (N.leb_le 1 (N.pos p))) by lia. cbn [rust_assert mbind outcome_bind mret outcome_ret].
  rewrite N.size_log2 by lia. rewrite (proj2 (N.leb_le 1 _)) by lia. cbn [rust_assert mbind outcome_bind mret outcome_ret]. lia.
Qed.
Lemma below_dimension i : (i < N.to_nat (N.log2 (N.pos p)))%nat -> 2 ^ N.of_nat i < N.pos p.
Proof.
  intros Hi. apply N.lt_le_trans with (2 ^ N.log2 (N.pos p)); [apply N.pow_lt_mono_r; lia|apply N.log2_spec; done].
Qed.
#[local] Instance fp_laws_here : AlgebraicFieldLaws (Fp p) := fp_laws.
Lemma fnat_residue n : fnat n = r n.
Proof. induction n as [|n IH] using N.peano_ind; [done|]. rewrite fnat_succ, IH. change (fone : Fp p) with (r 1). rewrite r_add. f_equal. lia. Qed.
Lemma fp_encode_num (l : list bool) : fsum (imap (fun i x => fmul (r (2 ^ N.of_nat i)) (of_bool x)) l) = r (num l).
Proof. rewrite <- fnat_residue, <- encode_num. f_equal. apply imap_ext. intros i x _. by rewrite fnat_residue. Qed.
Lemma fp_compile_field_laws : CompileFieldLaws (Fp p).
Proof.
  pose proof modulus_ge_2 as Hp. refine {| basis i := r (2 ^ N.of_nat i) |}.
  - intros i Hi. rewrite fp_dimension in Hi. unfold pseudo_basis, fp_compile_field, fp.pseudo_basis, index. cbn [fp_self fp.f_basis].
    change (map ?f ?l) with (f <$> l). rewrite list_lookup_fmap, N.size_log2, lookup_seq_lt by (first [done|lia]). cbn [fmap option_fmap option_map outcome_fmap].
    rewrite N.shiftl_1_l. f_equal. apply residue_mod.
  - intros i _. unfold pseudo_basis_unsafe, fp_compile_field, fp.pseudo_basis_unsafe. by rewrite N.shiftl_1_l.
  - intros l m Hlen Hl Heq. rewrite fp_dimension in Hl. rewrite !fp_encode_num in Heq.
    assert (forall l, (length l <= N.to_nat (N.log2 (N.pos p)))%nat -> num l < N.pos p) as Hlt.
    { intros l' Hl'. apply N.lt_le_trans with (2 ^ N.of_nat (length l')); [apply num_lt|]. transitivity (2 ^ N.log2 (N.pos p)); [apply N.pow_le_mono_r; lia|apply N.log2_spec; done]. }
    apply num_inj; [done|]. apply residue_inj in Heq; [done|apply Hlt; lia..].
  - rewrite fp_dimension. pose proof (N.log2_pos (N.pos p) ltac:(lia)). lia.
Defined.
#[local] Existing Instance fp_compile_field_laws.
Lemma fp_prime_laws : PrimeFieldLaws (Fp p).
Proof.
  pose proof modulus_ge_2 as Hp. assert (2 ^ N.log2 (N.pos p - 1) <= N.pos p - 1) as Hle by (apply N.log2_spec; lia).
  assert (forall i, i < 2 ^ N.of_nat (N.to_nat (N.log2 (N.pos p - 1))) -> i < N.pos p) as Hlt by (intros i; rewrite N2Nat.id; lia).
  split; rewrite ?fp_dimension_multiplicative.
  - intros i. by rewrite fnat_residue.
  - rewrite fp_dimension. pose proof (N.log2_le_mono (N.pos p - 1) (N.pos p) ltac:(lia)). lia.
  - intros i _. unfold pseudo_basis_unsafe, fp_compile_field, fp.pseudo_basis_unsafe. by rewrite N.shiftl_1_l, fnat_residue.
  - intros n Hn. apply Hlt in Hn. unfold u64_to_element, fp_u64_conversions, fp.u64_to_element. cbn [fp_self fp.f_modulo]. rewrite (proj2 (N.ltb_lt _ _) Hn).
    by rewrite fnat_residue.
  - intros a b Ha Hb. rewrite !fnat_residue. apply residue_inj; by apply Hlt.
Qed.
End prime_field.

(** *** Encoding elements as bytes *)
Section fp_bytes.
Context (p : positive) `{BigUintPow}.
Local Open Scope N_scope.
#[export] Instance fp_eq_dec : EqDecision (Fp p).
Proof. intros a b. destruct (decide (fp_n a = fp_n b)) as [Heq|Hne]; [left; by apply fp_eq|right; congruence]. Defined.
#[export] Instance fp_serializable : SerializableField (Fp p) := {|
  is_binary := false;
  serialized_size_bytes := fp.f_length_bytes (fp_self p);
  Interfaces.to_bytes a := fp.to_bytes (fp_self p) (fp_n a);
  Interfaces.bytes_to_element bs := residue p <$> fp.bytes_to_element (fp_self p) bs;
  serialized_mone := fp.to_bytes (fp_self p) (fp_n (mone : Fp p))
|}.
Lemma size_fits : N.pos p < 256 ^ N.of_nat (fp.f_length_bytes (fp_self p)).
Proof.
  cbn [fp_self fp.f_length_bytes fp.length_bytes fp_params]. rewrite N2Nat.id. change 256 with (2 ^ 8). rewrite <- N.pow_mul_r.
  apply N.lt_le_trans with (2 ^ N.size (N.pos p)); [apply N.size_gt|]. apply N.pow_le_mono_r; [done|].
  pose proof (N.div_mod (N.size (N.pos p) + 7) 8 ltac:(done)). pose proof (N.mod_lt (N.size (N.pos p) + 7) 8 ltac:(done)). lia.
Qed.
#[export] Instance fp_serializable_laws : SerializableFieldLaws (Fp p).
Proof.
  split; intros e; cbn; unfold fp.to_bytes, fp.bytes_to_element; rewrite length_to_le_bytes; [done|].
  rewrite Nat.eqb_refl. cbn [negb reject_if mbind outcome_bind].
  rewrite from_to_le_bytes by (pose proof size_fits; pose proof (fp_n_lt p e); lia).
  cbn [fp_self fp.f_modulo]. rewrite (proj2 (N.leb_gt _ _)) by apply fp_n_lt. cbn. by rewrite residue_n.
Qed.
#[export] Instance fp_canonical_field : CanonicalField (Fp p).
Proof.
  split. intros bs e He. cbn in He. unfold fp.bytes_to_element in He.
  destruct (Nat.eqb_spec (length bs) (fp.f_length_bytes (fp_self p))) as [Hl|]; [|done]. cbn in He.
  destruct (N.leb_spec (N.pos p) (from_le_bytes bs)) as [|Hlt]; [done|]. cbn in He. injection He as <-.
  cbn. unfold fp.to_bytes. rewrite fp_n_residue, N.mod_small by done. rewrite <- Hl. apply to_from_le_bytes.
Qed.
End fp_bytes.
