(* ===== verification/Limb.v ===== *)
(** * Numbers as arrays of limbs ([src/rust/runtime/algebra/src/limb/{mod,limb_32,limb_64}.rs])

    The library is built with limbs of 64 or of 32 bits; the width is the
    class [LimbWidth], with the two builds as instances.  Additions and
    subtractions propagate their carries in place; a slice the code borrows
    from an array is taken out of it and written back. *)
From stdpp Require Import prelude.
From Stdlib Require Import Lia NArith ZArith ZifyNat ZifyN.
From S2P Require Import Prelude Words.
Local Open Scope N_scope.

(** ** The width of a limb

    Arrays have the length their type announces: [W] words of 64 bits or [L]
    limbs. *)
Class LimbWidth := {
  LIMB_BITS : N;
  LIMBS_PER_U64 : nat;
  u64_to_limbs : N -> list N;
  limbs_to_u64 : forall {E}, list N -> outcome E N;
  words64_to_limbs : forall {E}, nat -> list N -> outcome E (list N);
  limbs_to_words64 : forall {E}, nat -> list N -> outcome E (list N);
  mulhl_one : N -> N -> N * N
}.
Abbreviation B := (2 ^ LIMB_BITS).

Module limb_64.
Section limb_64.
Context {E : Type}.
Definition u64_to_limbs (val : N) : list N := [val].
Definition limbs_to_u64 (limbs : list N) : outcome E N := index limbs 0.
Definition words64_to_limbs (L : nat) (words : list N) : outcome E (list N) :=
  foldM (fun limbs '(i, word) => if (i <? L)%nat then store limbs i word else mret limbs)
    (replicate L 0) (imap pair words).
Definition limbs_to_words64 (W : nat) (limbs : list N) : outcome E (list N) :=
  foldM (fun words '(i, limb) => if (i <? W)%nat then store words i limb else mret words)
    (replicate W 0) (imap pair limbs).
Definition mulhl_one (a b : N) : N * N :=
  let p := a * b in (wrap64 p, wrap64 (N.shiftr p 64)).
End limb_64.
End limb_64.

Module limb_32.
Section limb_32.
Context {E : Type}.
Definition u64_to_limbs (val : N) : list N := [wrap32 val; wrap32 (N.shiftr val 32)].
Definition limbs_to_u64 (limbs : list N) : outcome E N :=
  l0 ← index limbs 0; l1 ← index limbs 1; mret (N.lor l0 (shl64 l1 32)).
Definition words64_to_limbs (L : nat) (words : list N) : outcome E (list N) :=
  foldM (fun limbs i =>
    limbs ← (if (2 * i <? L)%nat then word ← index words i; store limbs (2 * i) (wrap32 word) else mret limbs);
    if (2 * i + 1 <? L)%nat then word ← index words i; store limbs (2 * i + 1) (wrap32 (N.shiftr word 32)) else mret limbs)
    (replicate L 0) (seq 0 (length words)).
Definition limbs_to_words64 (W : nat) (limbs : list N) : outcome E (list N) :=
  let L := length limbs in
  foldM (fun words i =>
    low ← (if (2 * i <? L)%nat then index limbs (2 * i) else mret 0);
    high ← (if (2 * i + 1 <? L)%nat then index limbs (2 * i + 1) else mret 0);
    store words i (N.lor low (shl64 high 32)))
    (replicate W 0) (seq 0 W).
Definition mulhl_one (a b : N) : N * N :=
  let p := a * b in (wrap32 p, wrap32 (N.shiftr p 32)).
End limb_32.
End limb_32.

Definition width_64 : LimbWidth := {|
  LIMB_BITS := 64; LIMBS_PER_U64 := 1;
  u64_to_limbs := limb_64.u64_to_limbs; limbs_to_u64 := @limb_64.limbs_to_u64;
  words64_to_limbs := @limb_64.words64_to_limbs; limbs_to_words64 := @limb_64.limbs_to_words64;
  mulhl_one := limb_64.mulhl_one
|}.
Definition width_32 : LimbWidth := {|
  LIMB_BITS := 32; LIMBS_PER_U64 := 2;
  u64_to_limbs := limb_32.u64_to_limbs; limbs_to_u64 := @limb_32.limbs_to_u64;
  words64_to_limbs := @limb_32.words64_to_limbs; limbs_to_words64 := @limb_32.limbs_to_words64;
  mulhl_one := limb_32.mulhl_one
|}.

(** ** Operations ([limb/mod.rs]) *)
Section ops.
Context `{LimbWidth} {E : Type}.

(** [a.carrying_add(b, carry)] and [a.borrowing_sub(b, borrow)] *)
Definition carrying_add (a b : N) (carry : bool) : N * bool :=
  let s := a + b + N.b2n carry in (s mod B, B <=? s).
Definition borrowing_sub (a b : N) (borrow : bool) : N * bool :=
  let t := b + N.b2n borrow in if a <? t then (a + B - t, true) else (a - t, false).
(** [x << k], [x.wrapping_mul(y)] and [x.wrapping_sub(y)] on limbs *)
Definition shl (x k : N) : N := N.shiftl x k mod B.
Definition wrapping_mul (x y : N) : N := (x * y) mod B.
Definition wrapping_sub (x y : N) : N := (x + B - y) mod B.

Definition add_limb (a b : list N) : outcome E (list N * N) :=
  '(a, carry) ← foldM (fun '(a, carry) i =>
      ai ← index a i; bi ← index b i;
      let '(sum, c) := carrying_add ai bi carry in
      a ← store a i sum; mret (a, c)) (a, false) (seq 0 (length a));
  mret (a, N.b2n carry).

Definition sub_limb (a b : list N) : outcome E (list N * N) :=
  '(a, borrow) ← foldM (fun '(a, borrow) i =>
      ai ← index a i; bi ← index b i;
      let '(diff, bor) := borrowing_sub ai bi borrow in
      a ← store a i diff; mret (a, bor)) (a, false) (seq 0 (length a));
  mret (a, N.b2n borrow).

(** Halving in place, from the most significant limb: [shr_1] and the loops
    written out in [fp_generic.rs]. *)
Definition shr_1 (a : list N) : outcome E (list N) :=
  '(a, _) ← foldM (fun '(a, carry) i =>
      ai ← index a i;
      let new_carry := shl ai (LIMB_BITS - 1) in
      a ← store a i (N.lor (N.shiftr ai 1) carry); mret (a, new_carry)) (a, 0) (rev (seq 0 (length a)));
  mret a.

Definition propagate_carry (a : list N) (start : nat) (carry : bool) : outcome E (list N) :=
  rust_assert (start <=? length a)%nat ;;
  '(a, _) ← foldM (fun '(a, carry) i =>
      ai ← index a i;
      let '(sum, c) := carrying_add ai 0 carry in
      a ← store a i sum; mret (a, c)) (a, carry) (seq start (length a - start));
  mret a.

(** Writing back a borrowed slice that starts at [start]. *)
Definition write_back (a : list N) (start : nat) (s : list N) : list N :=
  take start a ++ s ++ drop (start + length s) a.

Definition accum (a : list N) (start : nat) (b : list N) : outcome E (list N) :=
  rust_assert (start + length b <=? length a)%nat ;;
  dest ← slice a start (start + length b);
  '(dest, carry) ← add_limb dest b;
  propagate_carry (write_back a start dest) (start + length b) (negb (carry =? 0)).

Definition is_zero_slice (a : list N) : bool := forallb (fun x => x =? 0) a.
Definition is_one_slice (a : list N) : outcome E bool :=
  a0 ← index a 0; mret ((a0 =? 1) && forallb (fun x => x =? 0) (drop 1 a)).

Definition mulhl (x : N) (y : list N) : list N * list N :=
  (map (fun yi => (mulhl_one x yi).1) y, map (fun yi => (mulhl_one x yi).2) y).

Definition mul_accum (a : list N) (start : nat) (x : N) (y : list N) : outcome E (list N) :=
  let '(l, h) := mulhl x y in a ← accum a start l; accum a (start + 1) h.
Definition mul_accum_zero (a : list N) (start : nat) (x : N) (y : list N) : outcome E (list N) :=
  let '(l, h) := mulhl x y in
  a ← slice_mut a start (start + length y) (fun dst => clone_from_slice dst l);
  accum a (start + 1) h.

(** The loop returns at the first difference from the top. *)
Fixpoint lt_from (a b : list N) (order : list nat) : outcome E bool :=
  match order with
  | [] => mret false
  | i :: order =>
      ai ← index a i; bi ← index b i;
      if ai <? bi then mret true else if bi <? ai then mret false else lt_from a b order
  end.
Definition lt (a b : list N) : outcome E bool := lt_from a b (rev (seq 0 (length a))).

(** The portable conditional moves ([arch/generic.rs]). *)
Definition cmovne (a : list N) (x y : N) (b : list N) : outcome E (list N) :=
  let mask := if negb (x =? y) then 1 else 0 in
  let mask := wrap64 (2 ^ 64 - mask) mod B in
  foldM (fun a i =>
    ai ← index a i; bi ← index b i;
    store a i (N.lor (N.land ai (N.lxor mask (B - 1))) (N.land bi mask))) a (seq 0 (length a)).
Definition cmovnz (a : list N) (nz : N) (b : list N) : outcome E (list N) := cmovne a nz 0 b.

Definition maybe_minus_m (a : list N) (ah : N) (negm : list N) : outcome E (list N) :=
  '(a1, ah1) ← add_limb negm a; cmovne a ah ah1 a1.
Definition maybe_plus_m (a : list N) (ah : N) (modulo : list N) : outcome E (list N) :=
  '(a1, _) ← add_limb a modulo; cmovnz a ah a1.
Definition accum_modular (a b negm : list N) : outcome E (list N) :=
  '(a, carry) ← add_limb a b; maybe_minus_m a carry negm.
End ops.

(** ** Loops over an array *)
Lemma insert_middle {A} (l r : list A) x y k : length l = k -> <[k := y]> (l ++ x :: r) = l ++ y :: r.
Proof. intros <-. rewrite <- (Nat.add_0_r (length l)). by rewrite insert_app_r. Qed.
Section loops.
Context {E C : Type}.

(** What a loop writes at each index, from the value there and the carry. *)
Fixpoint scan_up (g : nat -> N -> C -> N * C) (k : nat) (s : list N) (c : C) : list N * C :=
  match s with
  | [] => ([], c)
  | x :: s =>
      let '(y, c) := g k x c in let '(s, c) := scan_up g (S k) s c in (y :: s, c)
  end.
Fixpoint scan_down (g : nat -> N -> C -> N * C) (k : nat) (s : list N) (c : C) : list N * C :=
  match s with
  | [] => ([], c)
  | x :: s => let '(s, c) := scan_down g (S k) s c in let '(y, c) := g k x c in (y :: s, c)
  end.

Context (body : list N * C -> nat -> outcome E (list N * C)) (g : nat -> N -> C -> N * C) (n : nat).
Context (Hbody : forall a c i x, length a = n -> a !! i = Some x -> body (a, c) i = Ok (<[i := (g i x c).1]> a, (g i x c).2)).

Lemma up_loop s : forall p c, (length p + length s = n)%nat ->
  foldM body (p ++ s, c) (seq (length p) (length s)) = Ok (p ++ (scan_up g (length p) s c).1, (scan_up g (length p) s c).2).
Proof using Hbody.
  induction s as [|x s IH]; intros p c Hn; [done|]. cbn [length seq foldM] in *.
  rewrite (Hbody _ _ _ x) by (first [rewrite length_app; cbn; lia|by rewrite list_lookup_middle]). rewrite bind_Ok.
  replace (<[length p := (g (length p) x c).1]> (p ++ x :: s)) with ((p ++ [(g (length p) x c).1]) ++ s)
    by (by rewrite insert_middle, <- app_assoc).
  replace (S (length p)) with (length (p ++ [(g (length p) x c).1])) by (rewrite length_app; cbn; lia).
  rewrite IH by (rewrite length_app; cbn; lia). cbn [scan_up]. rewrite length_app, Nat.add_1_r. 
  destruct (g (length p) x c) as [y c']. cbn [fst snd]. destruct (scan_up g (S (length p)) s c') as [s' c'']. cbn. by rewrite <- app_assoc.
Qed.
Lemma scan_down_snoc s : forall k x c, scan_down g k (s ++ [x]) c =
  let '(y, c) := g (k + length s)%nat x c in let '(s, c) := scan_down g k s c in (s ++ [y], c).
Proof.
  induction s as [|z s IH]; intros k x c; cbn [app scan_down length].
  - rewrite Nat.add_0_r. by destruct (g k x c).
  - rewrite IH. replace (S k + length s)%nat with (k + S (length s))%nat by lia.
    destruct (g (k + S (length s))%nat x c) as [y c']. destruct (scan_down g (S k) s c') as [s' c'']. by destruct (g k z c'').
Qed.
Lemma down_loop s : forall t c, (length s + length t = n)%nat ->
  foldM body (s ++ t, c) (rev (seq 0 (length s))) = Ok ((scan_down g 0 s c).1 ++ t, (scan_down g 0 s c).2).
Proof using Hbody.
  induction s as [|x s IH] using rev_ind; intros t c Hn; [done|]. rewrite length_app, Nat.add_1_r in *.
  rewrite seq_S, rev_app_distr. cbn [rev app foldM Nat.add]. rewrite <- app_assoc. cbn [app].
  rewrite (Hbody _ _ _ x) by (first [rewrite length_app; cbn; lia|by rewrite list_lookup_middle]). rewrite bind_Ok.
  replace (<[length s := (g (length s) x c).1]> (s ++ x :: t)) with (s ++ (g (length s) x c).1 :: t)
    by by rewrite insert_middle.
  rewrite IH by (cbn; lia). rewrite scan_down_snoc. cbn [Nat.add]. destruct (g (length s) x c) as [y c']. cbn [fst snd].
  destruct (scan_down g 0 s c') as [s' c'']. cbn. by rewrite <- app_assoc.
Qed.
End loops.
Lemma up_loop_all {E C} (body : list N * C -> nat -> outcome E (list N * C)) g a c :
  (forall a' c i x, length a' = length a -> a' !! i = Some x -> body (a', c) i = Ok (<[i := (g i x c).1]> a', (g i x c).2)) ->
  foldM body (a, c) (seq 0 (length a)) = Ok (scan_up g 0 a c).
Proof.
  intros Hbody. pose proof (up_loop body g (length a) Hbody a [] c eq_refl) as Hup. cbn [app length] in Hup. rewrite Hup. by destruct (scan_up _ _ _ _).
Qed.
Lemma down_loop_all {E C} (body : list N * C -> nat -> outcome E (list N * C)) g a c :
  (forall a' c i x, length a' = length a -> a' !! i = Some x -> body (a', c) i = Ok (<[i := (g i x c).1]> a', (g i x c).2)) ->
  foldM body (a, c) (rev (seq 0 (length a))) = Ok (scan_down g 0 a c).
Proof.
  intros Hbody. pose proof (down_loop body g (length a) Hbody a [] c ltac:(cbn; lia)) as Hd. rewrite !app_nil_r in Hd. rewrite Hd. by destruct (scan_down _ _ _ _).
Qed.

Lemma map_loop {E} (body : list N -> nat -> outcome E (list N)) (f : nat -> N -> N) n :
  (forall a i x, length a = n -> a !! i = Some x -> body a i = Ok (<[i := f i x]> a)) ->
  forall s p, (length p + length s = n)%nat ->
  foldM body (p ++ s) (seq (length p) (length s)) = Ok (p ++ imap (fun i => f (length p + i)%nat) s).
Proof.
  intros Hbody. induction s as [|x s IH]; intros p Hn; [done|]. cbn [length seq foldM] in *.
  rewrite (Hbody _ _ x) by (first [rewrite length_app; cbn; lia|by rewrite list_lookup_middle]). rewrite bind_Ok, insert_middle by done.
  specialize (IH (p ++ [f (length p) x])). rewrite length_app, Nat.add_1_r, <- !app_assoc in IH. cbn [app] in IH. rewrite IH by lia.
  rewrite imap_cons, Nat.add_0_r. do 3 f_equal. apply imap_ext. intros i y _. cbn. f_equal. lia.
Qed.

(** A counted loop that keeps an invariant. *)
Lemma seq_loop {E S} (I : nat -> S -> Prop) (body : S -> nat -> outcome E S) m : forall i s,
  (forall j s, (i <= j < i + m)%nat -> I j s -> exists s', body s j = Ok s' /\ I (j + 1)%nat s') ->
  I i s -> exists s', foldM body s (seq i m) = Ok s' /\ I (i + m)%nat s'.
Proof.
  induction m as [|m IH]; intros i s Hstep Hs; [exists s; by rewrite Nat.add_0_r|]. cbn [seq foldM].
  destruct (Hstep i s ltac:(lia) Hs) as (s' & -> & Hs'). rewrite bind_Ok. rewrite Nat.add_1_r in Hs'.
  destruct (IH (Datatypes.S i) s') as (s'' & Hf & Hs''); [intros j t Hj; apply Hstep; lia|done|]. exists s''. by rewrite Nat.add_succ_r.
Qed.

(** ** The number an array stands for *)
Fixpoint digits_value (base : N) (l : list N) : N :=
  match l with [] => 0 | x :: l => x + base * digits_value base l end.
Definition digits (base : N) (l : list N) : Prop := Forall (fun x => x < base) l.

Section digits.
Context (base : N) (Hbase : 0 < base).
#[local] Abbreviation val := (digits_value base).
#[local] Abbreviation size l := (base ^ N.of_nat (@length N l)).

Lemma size_cons x l : size (x :: l) = base * size l.
Proof using. cbn [length]. by rewrite Nat2N.inj_succ, N.pow_succ_r'. Qed.
Lemma size_pos n : 0 < base ^ N.of_nat n.
Proof using Hbase. apply N.neq_0_lt_0, N.pow_nonzero. lia. Qed.
Lemma digits_lt l : digits base l -> val l < size l.
Proof using Hbase.
  induction 1 as [|x l Hx _ IH]; [cbn; lia|]. rewrite size_cons. cbn [digits_value]. nia.
Qed.
Lemma digits_app l m : val (l ++ m) = val l + size l * val m.
Proof using. clear Hbase. induction l as [|x l IH]; [cbn [app length digits_value]; by rewrite N.mul_1_l|]. rewrite size_cons. cbn [app digits_value]. rewrite IH. lia. Qed.
Lemma digits_inj l : forall m, length l = length m -> digits base l -> digits base m -> val l = val m -> l = m.
Proof using Hbase.
  induction l as [|x l IH]; intros [|y m] Hlen Hl Hm Heq; try done. cbn [digits_value] in Heq.
  apply Forall_cons in Hl as [Hx Hl], Hm as [Hy Hm].
  assert (x = y) as ->.
  { rewrite <- (N.mod_small x base), <- (N.mod_small y base) by done.
    rewrite <- (N.Div0.mod_add x (val l) base), <- (N.Div0.mod_add y (val m) base). f_equal. lia. }
  f_equal. apply IH; [by injection Hlen|done..|]. nia.
Qed.
Lemma digits_replicate_0 n : val (replicate n 0) = 0.
Proof using. clear Hbase. induction n as [|n IH]; [done|]. cbn [replicate digits_value]. rewrite IH. lia. Qed.
Lemma digits_zeros n : digits base (replicate n 0).
Proof using Hbase. by apply Forall_replicate. Qed.
Lemma digits_take_drop n l : (n <= length l)%nat -> val l = val (take n l) + base ^ N.of_nat n * val (drop n l).
Proof using. clear Hbase. intros Hn. rewrite <- (take_drop n l) at 1. rewrite digits_app, length_take, Nat.min_l by done. done. Qed.
Lemma digits_drop n l : (n <= length l)%nat -> digits base l -> val (drop n l) = val l / base ^ N.of_nat n.
Proof using Hbase.
  intros Hn Hl. apply N.div_unique with (val (take n l)); [|rewrite (digits_take_drop n) by done; lia].
  assert (digits base (take n l)) as Ht%digits_lt by by apply Forall_take. rewrite length_take, Nat.min_l in Ht by done. done.
Qed.
Lemma digits_exist n : forall x, x < base ^ N.of_nat n -> exists l, length l = n /\ digits base l /\ val l = x.
Proof using Hbase.
  induction n as [|n IH]; intros x Hx; [exists []; split; [done|]; split; [constructor|]; cbn in *; lia|].
  rewrite Nat2N.inj_succ, N.pow_succ_r' in Hx. destruct (IH (x / base)) as (l & Hl & Hd & Hv); [by apply N.Div0.div_lt_upper_bound|].
  exists (x mod base :: l). split; [cbn; lia|]. split; [constructor; [apply N.mod_lt; lia|done]|]. cbn [digits_value]. rewrite Hv.
  pose proof (N.div_mod x base). lia.
Qed.
Lemma digits_zero l : val l = 0 -> Forall (fun x => x = 0) l.
Proof using Hbase. induction l as [|x l IH]; [done|]. cbn [digits_value]. intros Heq. constructor; [lia|]. apply IH. nia. Qed.
End digits.

Lemma digits_regroup base k words (limbs : list (list N)) : 0 < base ->
  Forall2 (fun w ls => length ls = k /\ digits base ls /\ digits_value base ls = w) words limbs ->
  length (concat limbs) = (length words * k)%nat /\ digits base (concat limbs)
  /\ digits_value base (concat limbs) = digits_value (base ^ N.of_nat k) words.
Proof.
  intros Hb. induction 1 as [|w ls words limbs (Hk & Hd & Hv) _ (IHl & IHd & IHv)]; [split; [done|split; [constructor|done]]|]. cbn [concat length digits_value].
  rewrite length_app, IHl, Hk. split; [lia|]. split; [by apply Forall_app|]. rewrite digits_app, Hk, Hv, IHv. done.
Qed.

Lemma to_le_bytes_app n : forall m u v, u < 256 ^ N.of_nat n ->
  to_le_bytes n u ++ to_le_bytes m v = to_le_bytes (n + m) (u + 256 ^ N.of_nat n * v).
Proof.
  induction n as [|n IH]; intros m u v Hu; [change (256 ^ N.of_nat 0) with 1 in *; replace u with 0 by lia; by rewrite N.mul_1_l|].
  change (to_le_bytes (S n) u) with (as_u8 u :: to_le_bytes n (N.shiftr u 8)).
  change (to_le_bytes (S n + m) ?x) with (as_u8 x :: to_le_bytes (n + m) (N.shiftr x 8)).
  cbn [app]. rewrite !N.shiftr_div_pow2. change (2 ^ 8) with 256. rewrite Nat2N.inj_succ, N.pow_succ_r' in *.
  assert (u + 256 * 256 ^ N.of_nat n * v = u + 256 ^ N.of_nat n * v * 256) as -> by lia. f_equal.
  - apply u8_to_N_inj. rewrite !as_u8_to_N. by rewrite N.Div0.mod_add.
  - rewrite IH by (apply N.Div0.div_lt_upper_bound; lia). by rewrite N.div_add.
Qed.

Lemma from_le_bytes_app a b : from_le_bytes (a ++ b) = from_le_bytes a + 256 ^ N.of_nat (length a) * from_le_bytes b.
Proof.
  induction a as [|x a IH]; [change (256 ^ N.of_nat (length (@nil u8))) with 1; by rewrite N.mul_1_l|]. cbn [app length]. unfold from_le_bytes; fold from_le_bytes.
  rewrite IH, Nat2N.inj_succ, N.pow_succ_r'. lia.
Qed.
(** Reading an array of digits of [k] bytes. *)
Lemma chunks_value k n : forall bytes : list u8, length bytes = (n * k)%nat ->
  digits (256 ^ N.of_nat k) (map (fun i => from_le_bytes (take k (drop (i * k) bytes))) (seq 0 n))
  /\ digits_value (256 ^ N.of_nat k) (map (fun i => from_le_bytes (take k (drop (i * k) bytes))) (seq 0 n)) = from_le_bytes bytes.
Proof.
  induction n as [|n IH]; intros bytes Hl; [destruct bytes; [split; [constructor|done]|done]|]. rewrite <- cons_seq, <- seq_shift. cbn [map digits_value]. rewrite map_map.
  rewrite (map_ext _ (fun i => from_le_bytes (take k (drop (i * k) (drop k bytes))))) by (intros i; by rewrite drop_drop).
  destruct (IH (drop k bytes)) as [Hd Hv]; [rewrite length_drop; lia|]. rewrite Hv. cbn [Nat.mul]. rewrite drop_0.
  assert (length (take k bytes) = k) as Hk by (rewrite length_take; lia). split.
  - constructor; [|done]. rewrite <- Hk at 2. apply from_le_bytes_bound.
  - rewrite <- (take_drop k bytes) at 3. rewrite from_le_bytes_app, Hk. done.
Qed.

(** ** What every width promises *)
Class LimbWidthLaws `{LimbWidth} := {
  limbs_per_word : LIMB_BITS * N.of_nat LIMBS_PER_U64 = 64;
  whole_bytes : LIMB_BITS mod 8 = 0;
  mulhl_one_ok a b : a < B -> b < B ->
    (mulhl_one a b).1 < B /\ (mulhl_one a b).2 < B /\ (mulhl_one a b).1 + B * (mulhl_one a b).2 = a * b;
  u64_to_limbs_ok v : v < 2 ^ 64 ->
    length (u64_to_limbs v) = LIMBS_PER_U64 /\ digits B (u64_to_limbs v) /\ digits_value B (u64_to_limbs v) = v;
  limbs_to_u64_ok {E} l : length l = LIMBS_PER_U64 -> digits B l -> limbs_to_u64 (E:=E) l = Ok (digits_value B l);
  words64_to_limbs_ok {E} words : digits (2 ^ 64) words ->
    exists limbs, words64_to_limbs (E:=E) (length words * LIMBS_PER_U64) words = Ok limbs
      /\ length limbs = (length words * LIMBS_PER_U64)%nat /\ digits B limbs /\ digits_value B limbs = digits_value (2 ^ 64) words;
  limbs_to_words64_ok {E} W limbs : length limbs = (W * LIMBS_PER_U64)%nat -> digits B limbs ->
    exists words, limbs_to_words64 (E:=E) W limbs = Ok words
      /\ length words = W /\ digits (2 ^ 64) words /\ digits_value (2 ^ 64) words = digits_value B limbs
}.

(** *** Filling an array *)
Section fill.
Context {E : Type}.
Lemma fill_loop (body : list N -> nat -> outcome E (list N)) (f : nat -> N) n z :
  (forall s i, (i < n)%nat -> length s = n -> body s i = store s i (f i)) ->
  foldM body (replicate n z) (seq 0 n) = Ok (map f (seq 0 n)).
Proof.
  intros Hbody. enough (forall m k, (k + m = n)%nat -> foldM body (map f (seq 0 k) ++ replicate m z) (seq k m) = Ok (map f (seq 0 n))) as Hgen
    by (exact (Hgen n 0%nat eq_refl)).
  induction m as [|m IH]; intros k Hk; [cbn; rewrite app_nil_r; by replace k with n by lia|]. cbn [seq foldM replicate].
  rewrite Hbody by (first [lia|rewrite length_app, length_map, length_seq; cbn; rewrite length_replicate; lia]).
  rewrite store_Ok by (rewrite length_app, length_map, length_seq; cbn; lia). rewrite bind_Ok.
  replace (<[k:=f k]> (map f (seq 0 k) ++ z :: replicate m z)) with (map f (seq 0 (S k)) ++ replicate m z); [apply IH; lia|].
  rewrite seq_S, map_app, <- app_assoc. cbn [app map Nat.add].
  symmetry. apply insert_middle. by rewrite length_map, length_seq.
Qed.
End fill.

(** *** 64 bits *)
Lemma words_loop {E} L words : forall (p : list N), (length p + length words = L)%nat ->
  foldM (E:=E) (fun limbs '(i, word) => if (i <? L)%nat then store limbs i word else mret limbs)
    (p ++ replicate (length words) 0) (imap (fun i w => ((length p + i)%nat, w)) words) = Ok (p ++ words).
Proof.
  induction words as [|w words IH]; intros p HL; [done|]. cbn [length] in HL. rewrite imap_cons. cbn [length replicate foldM]. rewrite Nat.add_0_r.
  rewrite (proj2 (Nat.ltb_lt _ _)) by lia. rewrite store_Ok by (rewrite length_app; cbn; lia). rewrite bind_Ok, insert_middle by done.
  specialize (IH (p ++ [w])). rewrite length_app, <- !app_assoc in IH. cbn [app length] in IH. rewrite <- IH by lia. f_equal. apply imap_ext. intros i x _. cbn. f_equal. lia.
Qed.
Lemma words_loop_all {E} words :
  foldM (E:=E) (fun limbs '(i, word) => if (i <? length words)%nat then store limbs i word else mret limbs)
    (replicate (length words) 0) (imap pair words) = Ok words.
Proof. exact (words_loop (length words) words [] eq_refl). Qed.
Lemma width_64_laws : @LimbWidthLaws width_64.
Proof.
  split; cbn [width_64 LIMB_BITS LIMBS_PER_U64 u64_to_limbs limbs_to_u64 words64_to_limbs limbs_to_words64 mulhl_one]; try done.
  - intros a b Ha Hb. cbn. unfold wrap64. rewrite N.shiftr_div_pow2, (N.mod_small (_ / _)) by (apply N.Div0.div_lt_upper_bound; nia).
    pose proof (N.div_mod (a * b) (2 ^ 64) ltac:(done)). pose proof (N.mod_lt (a * b) (2 ^ 64) ltac:(done)).
    split; [done|]. split; [apply N.Div0.div_lt_upper_bound; nia|lia].
  - intros v Hv. cbn [limb_64.u64_to_limbs length digits_value]. split; [done|]. split; [by repeat constructor|lia].
  - intros E [|x [|]] Hl _; try done. cbn [digits_value]. change (Ok (E:=E) x = Ok (x + 2 ^ 64 * 0)). f_equal. lia.
  - intros E words Hw. rewrite Nat.mul_1_r. exists words. split; [apply words_loop_all|done].
  - intros E W limbs Hl Hd. rewrite Nat.mul_1_r in Hl. subst W. exists limbs. split; [apply words_loop_all|done].
Qed.

(** *** 32 bits *)
Lemma word_limbs v : v < 2 ^ 64 ->
  length (limb_32.u64_to_limbs v) = 2%nat /\ digits (2 ^ 32) (limb_32.u64_to_limbs v) /\ digits_value (2 ^ 32) (limb_32.u64_to_limbs v) = v.
Proof.
  intros Hv. unfold limb_32.u64_to_limbs, wrap32. rewrite N.shiftr_div_pow2, (N.mod_small (_ / _)) by (apply N.Div0.div_lt_upper_bound; lia).
  split; [done|]. split; [repeat constructor; [by apply N.mod_lt|apply N.Div0.div_lt_upper_bound; lia]|].
  cbn [digits_value]. pose proof (N.div_mod v (2 ^ 32) ltac:(done)). lia.
Qed.
Lemma limbs_word x y : x < 2 ^ 32 -> y < 2 ^ 32 -> N.lor x (shl64 y 32) = x + 2 ^ 32 * y.
Proof.
  intros Hx Hy. unfold shl64, wrap64. rewrite N.mod_small by (rewrite N.shiftl_mul_pow2; nia). rewrite lor_disjoint_add by done. lia.
Qed.
Lemma pairs_loop {E} words : forall (q : list N) (p : list N), length p = (2 * length q)%nat ->
  foldM (E:=E) (fun limbs i =>
    limbs ← (if (2 * i <? length (q ++ words) * 2)%nat then word ← index (q ++ words) i; store limbs (2 * i) (wrap32 word) else mret limbs);
    if (2 * i + 1 <? length (q ++ words) * 2)%nat then word ← index (q ++ words) i; store limbs (2 * i + 1) (wrap32 (N.shiftr word 32)) else mret limbs)
    (p ++ replicate (length words * 2) 0) (seq (length q) (length words)) = Ok (p ++ concat (map limb_32.u64_to_limbs words)).
Proof.
  induction words as [|w words IH]; intros q p Hp; [done|]. specialize (IH (q ++ [w]) (p ++ limb_32.u64_to_limbs w)).
  rewrite <- !(app_assoc q) in IH. cbn [app] in IH. rewrite <- app_assoc in IH. cbn [length seq foldM map concat].
  rewrite (length_app q). cbn [length]. rewrite !(proj2 (Nat.ltb_lt _ _)) by lia.
  assert (index (E:=E) (q ++ w :: words) (length q) = Ok w) as -> by by apply index_Ok, list_lookup_middle.
  rewrite bind_Ok. replace (S (length words) * 2)%nat with (2 + length words * 2)%nat by lia. cbn [replicate Nat.add]. rewrite <- Hp.
  rewrite store_Ok by (rewrite length_app; cbn; lia). rewrite !bind_Ok, insert_middle by done.
  rewrite store_Ok by (rewrite length_app; cbn; lia). rewrite bind_Ok.
  change (wrap32 w :: 0 :: replicate (length words * 2) 0) with ([wrap32 w] ++ 0 :: replicate (length words * 2) 0).
  rewrite app_assoc, insert_middle by (by rewrite length_app).
  rewrite (length_app q), Nat.add_1_r, (length_app p) in IH. rewrite (length_app q) in IH. cbn [length limb_32.u64_to_limbs app] in IH.
  rewrite <- !app_assoc in *. cbn [app limb_32.u64_to_limbs] in *. apply IH. lia.
Qed.
Lemma pairs_of W : forall (limbs : list N), length limbs = (W * 2)%nat ->
  concat (map (fun i => [limbs !!! (2 * i)%nat; limbs !!! (2 * i + 1)%nat]) (seq 0 W)) = limbs.
Proof.
  induction W as [|W IH]; intros [|x [|y limbs]] Hl; try done. rewrite <- cons_seq, <- seq_shift. cbn [map concat app].
  f_equal. f_equal. rewrite map_map. transitivity (concat (map (fun i => [limbs !!! (2 * i)%nat; limbs !!! (2 * i + 1)%nat]) (seq 0 W))); [|apply IH; cbn in Hl; lia]. f_equal. apply map_ext. intros i.
  replace (2 * S i)%nat with (S (S (2 * i))) by lia. replace (S (S (2 * i)) + 1)%nat with (S (S (2 * i + 1))) by lia. done.
Qed.
Lemma width_32_laws : @LimbWidthLaws width_32.
Proof.
  split; cbn [width_32 LIMB_BITS LIMBS_PER_U64 u64_to_limbs limbs_to_u64 words64_to_limbs limbs_to_words64 mulhl_one]; try done.
  - intros a b Ha Hb. cbn. unfold wrap32. rewrite N.shiftr_div_pow2, (N.mod_small (_ / _)) by (apply N.Div0.div_lt_upper_bound; nia).
    pose proof (N.div_mod (a * b) (2 ^ 32) ltac:(done)). pose proof (N.mod_lt (a * b) (2 ^ 32) ltac:(done)).
    split; [done|]. split; [apply N.Div0.div_lt_upper_bound; nia|lia].
  - exact word_limbs.
  - intros E [|x [|y [|]]] Hl Hd; try done. apply Forall_cons in Hd as [Hx Hd], Hd as [Hy _]. unfold limb_32.limbs_to_u64. cbn [index lookup list_lookup].
    rewrite !bind_Ok, limbs_word by done. cbn [digits_value]. change (Ok (E:=E) (x + 2 ^ 32 * y) = Ok (x + 2 ^ 32 * (y + 2 ^ 32 * 0))). f_equal. lia.
  - intros E words Hw. exists (concat (map limb_32.u64_to_limbs words)). split; [apply (pairs_loop words [] []); done|].
    pose proof (digits_regroup (2 ^ 32) 2 words (map limb_32.u64_to_limbs words) ltac:(done)) as Hr. apply Hr.
    clear Hr. induction Hw as [|w words Hw' _ IH]; constructor; [by apply word_limbs|done].
  - intros E W limbs Hl Hd.
    set (f := fun i => N.lor (limbs !!! (2 * i)%nat) (shl64 (limbs !!! (2 * i + 1)%nat) 32)).
    assert (forall i, (i < length limbs)%nat -> limbs !!! i < 2 ^ 32) as Hlt.
    { intros i Hi. unfold digits in Hd. rewrite Forall_lookup in Hd. apply (Hd i). by apply list_lookup_lookup_total_lt. }
    exists (map f (seq 0 W)). split.
    + unfold limb_32.limbs_to_words64. apply fill_loop. intros s i Hi Hs. rewrite !(proj2 (Nat.ltb_lt _ _)), !index_lt by lia. done.
    + pose proof (digits_regroup (2 ^ 32) 2 (map f (seq 0 W)) (map (fun i => [limbs !!! (2 * i)%nat; limbs !!! (2 * i + 1)%nat]) (seq 0 W)) ltac:(done)) as Hr.
      rewrite pairs_of, length_map, length_seq in Hr by done. split; [by rewrite length_map, length_seq|].
      assert (forall i, (i < W)%nat -> f i = limbs !!! (2 * i)%nat + 2 ^ 32 * limbs !!! (2 * i + 1)%nat) as Hf.
      { intros i Hi. unfold f. apply limbs_word; apply Hlt; lia. }
      split; [|symmetry; apply Hr].
      * apply Forall_map, Forall_seq. intros i [_ Hi]. rewrite Hf by lia. pose proof (Hlt (2 * i)%nat ltac:(lia)). pose proof (Hlt (2 * i + 1)%nat ltac:(lia)). nia.
      * apply Forall2_fmap, Forall_Forall2_diag, Forall_seq. intros i [_ Hi]. rewrite Hf by lia. split; [done|].
        split; [repeat constructor; apply Hlt; lia|]. cbn [digits_value]. lia.
Qed.

(** ** What the operations compute *)
Section facts.
Context `{LimbWidthLaws} {E : Type}.
#[local] Abbreviation value := (digits_value B).
#[local] Abbreviation wf := (digits B).
#[local] Abbreviation size l := (B ^ N.of_nat (@length N l)).

Lemma B_pos : 0 < B.
Proof. apply N.neq_0_lt_0, N.pow_nonzero. lia. Qed.
Lemma limb_bits : 8 <= LIMB_BITS /\ LIMB_BITS <= 64 /\ (0 < LIMBS_PER_U64)%nat.
Proof.
  pose proof limbs_per_word as Hw. pose proof whole_bytes as Hb. pose proof (N.div_mod LIMB_BITS 8 ltac:(done)).
  destruct (decide (LIMBS_PER_U64 = 0%nat)) as [Hz|Hz]; [rewrite Hz in Hw; lia|]. split; [|split; [nia|lia]].
  destruct (decide (LIMB_BITS / 8 = 0)) as [Hz'|]; [|lia]. rewrite Hz' in *. assert (LIMB_BITS = 0) as Hz2 by lia. rewrite Hz2 in Hw. lia.
Qed.
Lemma B_word : B ^ N.of_nat LIMBS_PER_U64 = 2 ^ 64.
Proof. by rewrite <- N.pow_mul_r, limbs_per_word. Qed.
Lemma B_gt_1 : 1 < B.
Proof. pose proof limb_bits. apply N.pow_gt_1; lia. Qed.
Hint Resolve B_pos : core.

Lemma value_lt l : wf l -> value l < size l.
Proof. by apply digits_lt. Qed.
Lemma value_inj l m : length l = length m -> wf l -> wf m -> value l = value m -> l = m.
Proof. by apply digits_inj. Qed.
Lemma wf_total l i : wf l -> (i < length l)%nat -> l !!! i < B.
Proof. unfold digits. rewrite Forall_lookup. intros Hl Hi. apply (Hl i). by apply list_lookup_lookup_total_lt. Qed.
(** A number and what overflowed. *)
Lemma value_mod l c n : wf l -> value l + size l * c = n -> value l = n mod size l.
Proof. intros Hl <-. rewrite N.mul_comm, N.Div0.mod_add. symmetry. apply N.mod_small. by apply value_lt. Qed.

Lemma carrying_add_ok a b c : a < B -> b < B ->
  (carrying_add a b c).1 < B /\ (carrying_add a b c).1 + B * N.b2n (carrying_add a b c).2 = a + b + N.b2n c.
Proof.
  intros Ha Hb. cbn [carrying_add fst snd]. set (s := a + b + N.b2n c). assert (s < 2 * B) by (unfold s; destruct c; cbn [N.b2n]; lia).
  split; [apply N.mod_lt; lia|]. destruct (N.leb_spec B s); cbn [N.b2n].
  - replace s with (s - B + 1 * B) at 1 by lia. rewrite N.Div0.mod_add, N.mod_small by lia. lia.
  - rewrite N.mod_small by lia. lia.
Qed.
Lemma borrowing_sub_ok a b c : a < B -> b < B ->
  (borrowing_sub a b c).1 < B /\ (borrowing_sub a b c).1 + b + N.b2n c = a + B * N.b2n (borrowing_sub a b c).2.
Proof.
  intros Ha Hb. unfold borrowing_sub. destruct (N.ltb_spec a (b + N.b2n c)); cbn [fst snd N.b2n]; (split; [destruct c; cbn [N.b2n] in *; lia|]); destruct c; cbn [N.b2n] in *; lia.
Qed.

(** *** Addition and subtraction *)
Lemma scan_add s : forall b q c, length s = length b -> wf s -> wf b ->
  let '(r, c') := scan_up (fun i x c => carrying_add x ((q ++ b) !!! i) c) (length q) s c in
  length r = length s /\ wf r /\ value r + size r * N.b2n c' = value s + value b + N.b2n c.
Proof.
  induction s as [|x s IH]; intros [|y b] q c Hlen Hs Hb; try done.
  - cbn. split; [done|]. split; [constructor|]. lia.
  - apply Forall_cons in Hs as [Hx Hs], Hb as [Hy Hb]. cbn [scan_up]. rewrite list_lookup_total_middle by done.
    destruct (carrying_add_ok x y c Hx Hy) as [Hr Heq]. destruct (carrying_add x y c) as [r c']. cbn [fst snd] in *.
    specialize (IH b (q ++ [y]) c'). rewrite <- app_assoc, length_app, Nat.add_1_r in IH. cbn [app] in IH.
    specialize (IH ltac:(by injection Hlen) Hs Hb). destruct (scan_up _ _ s c') as [r' c'']. destruct IH as (Hl & Hwf & IH).
    split; [cbn; lia|]. split; [by constructor|]. rewrite size_cons. cbn [digits_value]. nia.
Qed.
Lemma add_limb_ok a b : length a = length b -> wf a -> wf b ->
  exists r c, add_limb (E:=E) a b = Ok (r, N.b2n c) /\ length r = length a /\ wf r
    /\ value r + size r * N.b2n c = value a + value b.
Proof.
  intros Hlen Ha Hb. pose proof (scan_add a b [] false Hlen Ha Hb) as Hs. cbn [app length N.b2n] in Hs. unfold add_limb.
  rewrite (up_loop_all _ (fun i x c => carrying_add x (b !!! i) c)).
  - destruct (scan_up _ _ _ _) as [r c]. exists r, c. split; [done|]. destruct Hs as (? & ? & Hs). by rewrite N.add_0_r in Hs.
  - intros a' c i x Hl Hx. pose proof (lookup_lt_Some _ _ _ Hx). rewrite (proj2 (index_Ok a' i x) Hx), bind_Ok, index_lt, bind_Ok by lia.
    destruct (carrying_add _ _ _). by rewrite store_Ok.
Qed.
Lemma scan_sub s : forall b q c, length s = length b -> wf s -> wf b ->
  let '(r, c') := scan_up (fun i x c => borrowing_sub x ((q ++ b) !!! i) c) (length q) s c in
  length r = length s /\ wf r /\ value r + value b + N.b2n c = value s + size r * N.b2n c'.
Proof.
  induction s as [|x s IH]; intros [|y b] q c Hlen Hs Hb; try done.
  - cbn. split; [done|]. split; [constructor|]. lia.
  - apply Forall_cons in Hs as [Hx Hs], Hb as [Hy Hb]. cbn [scan_up]. rewrite list_lookup_total_middle by done.
    destruct (borrowing_sub_ok x y c Hx Hy) as [Hr Heq]. destruct (borrowing_sub x y c) as [r c']. cbn [fst snd] in *.
    specialize (IH b (q ++ [y]) c'). rewrite <- app_assoc, length_app, Nat.add_1_r in IH. cbn [app] in IH.
    specialize (IH ltac:(by injection Hlen) Hs Hb). destruct (scan_up _ _ s c') as [r' c'']. destruct IH as (Hl & Hwf & IH).
    split; [cbn; lia|]. split; [by constructor|]. rewrite size_cons. cbn [digits_value]. nia.
Qed.
Lemma sub_limb_ok a b : length a = length b -> wf a -> wf b ->
  exists r c, sub_limb (E:=E) a b = Ok (r, N.b2n c) /\ length r = length a /\ wf r
    /\ value r + value b = value a + size r * N.b2n c.
Proof.
  intros Hlen Ha Hb. pose proof (scan_sub a b [] false Hlen Ha Hb) as Hs. cbn [app length N.b2n] in Hs. unfold sub_limb.
  rewrite (up_loop_all _ (fun i x c => borrowing_sub x (b !!! i) c)).
  - destruct (scan_up _ _ _ _) as [r c]. exists r, c. split; [done|]. destruct Hs as (? & ? & Hs). by rewrite N.add_0_r in Hs.
  - intros a' c i x Hl Hx. pose proof (lookup_lt_Some _ _ _ Hx). rewrite (proj2 (index_Ok a' i x) Hx), bind_Ok, index_lt, bind_Ok by lia.
    destruct (borrowing_sub _ _ _). by rewrite store_Ok.
Qed.

(** *** Halving *)
Lemma scan_halve s : forall k t, t < 2 -> wf s ->
  let '(r, c) := scan_down (fun _ x carry => (N.lor (N.shiftr x 1) carry, shl x (LIMB_BITS - 1))) k s (2 ^ (LIMB_BITS - 1) * t) in
  exists t', c = 2 ^ (LIMB_BITS - 1) * t' /\ t' < 2 /\ length r = length s /\ wf r /\ 2 * value r + t' = value s + size s * t.
Proof.
  assert (B = 2 * 2 ^ (LIMB_BITS - 1)) as HB by (pose proof limb_bits; rewrite <- N.pow_succ_r'; f_equal; lia).
  induction s as [|x s IH]; intros k t Ht Hs; [exists t; cbn; repeat split; [done|constructor|lia]|].
  apply Forall_cons in Hs as [Hx Hs]. cbn [scan_down]. specialize (IH (S k) t Ht Hs). destruct (scan_down _ _ s _) as [r c].
  destruct IH as (t' & -> & Ht' & Hl & Hr & Heq). exists (x mod 2). pose proof (N.div_mod x 2 ltac:(done)). pose proof (N.mod_lt x 2 ltac:(done)).
  assert (shl x (LIMB_BITS - 1) = 2 ^ (LIMB_BITS - 1) * (x mod 2)) as ->.
  { unfold shl. rewrite N.shiftl_mul_pow2, HB, (N.mul_comm x), (N.mul_comm 2). by rewrite N.Div0.mul_mod_distr_l. }
  assert (x / 2 < 2 ^ (LIMB_BITS - 1)) by (apply N.Div0.div_lt_upper_bound; lia).
  assert (N.lor (N.shiftr x 1) (2 ^ (LIMB_BITS - 1) * t') = x / 2 + 2 ^ (LIMB_BITS - 1) * t') as ->.
  { rewrite N.shiftr_div_pow2. change (2 ^ 1) with 2. rewrite (N.mul_comm _ t'), <- N.shiftl_mul_pow2, lor_disjoint_add, N.shiftl_mul_pow2 by done. done. }
  split; [done|]. split; [done|]. split; [cbn; lia|]. split; [constructor; [nia|done]|]. rewrite size_cons. cbn [digits_value]. nia.
Qed.
Lemma shr_1_ok a : wf a -> exists r, shr_1 (E:=E) a = Ok r /\ length r = length a /\ wf r /\ value r = value a / 2.
Proof.
  intros Ha. pose proof (scan_halve a 0 0 eq_refl Ha) as Hs. rewrite !N.mul_0_r in Hs. unfold shr_1.
  rewrite (down_loop_all _ (fun _ x carry => (N.lor (N.shiftr x 1) carry, shl x (LIMB_BITS - 1)))).
  - destruct (scan_down _ _ _ _) as [r c]. destruct Hs as (t & _ & Ht & Hl & Hr & Heq). exists r. split; [done|]. split; [done|]. split; [done|].
    apply N.div_unique with t; lia.
  - intros a' c i x Hl Hx. rewrite (proj2 (index_Ok a' i x) Hx), bind_Ok. by rewrite store_Ok by (by eapply lookup_lt_Some).
Qed.

(** *** Accumulation *)
Lemma scan_carry s : forall k c, wf s ->
  let '(r, c') := scan_up (fun _ x c => carrying_add x 0 c) k s c in
  length r = length s /\ wf r /\ value r + size r * N.b2n c' = value s + N.b2n c.
Proof.
  induction s as [|x s IH]; intros k c Hs; [cbn; split; [done|]; split; [constructor|]; lia|].
  apply Forall_cons in Hs as [Hx Hs]. cbn [scan_up]. destruct (carrying_add_ok x 0 c Hx B_pos) as [Hr Heq].
  destruct (carrying_add x 0 c) as [r c']. cbn [fst snd] in *. specialize (IH (S k) c' Hs). destruct (scan_up _ _ s c') as [r' c''].
  destruct IH as (Hl & Hwf & IH). split; [cbn; lia|]. split; [by constructor|]. rewrite size_cons. cbn [digits_value]. nia.
Qed.
Lemma propagate_carry_ok p s c : wf s ->
  exists r c', propagate_carry (E:=E) (p ++ s) (length p) c = Ok (p ++ r) /\ length r = length s /\ wf r
    /\ value r + size r * N.b2n c' = value s + N.b2n c.
Proof.
  intros Hs. pose proof (scan_carry s (length p) c Hs) as Hscan. unfold propagate_carry. rewrite length_app, (proj2 (Nat.leb_le _ _)) by lia.
  cbn [rust_assert]. rewrite bind_Ok. replace (length p + length s - length p)%nat with (length s) by lia.
  rewrite (up_loop _ (fun _ x c => carrying_add x 0 c) (length p + length s)) by
    (first [done|intros a' c' i x Hl Hx; rewrite (proj2 (index_Ok a' i x) Hx), bind_Ok; destruct (carrying_add _ _ _); rewrite store_Ok by (by eapply lookup_lt_Some); done]).
  rewrite bind_Ok. destruct (scan_up _ _ _ _) as [r c']. cbn [fst snd]. by exists r, c'.
Qed.
Lemma accum_ok a start b : wf a -> wf b -> (start + length b <= length a)%nat ->
  exists r, accum (E:=E) a start b = Ok r /\ length r = length a /\ wf r
    /\ value r = (value a + B ^ N.of_nat start * value b) mod size a.
Proof.
  intros Ha Hb Hlen. unfold accum. rewrite (proj2 (Nat.leb_le _ _)) by done. cbn [rust_assert]. rewrite bind_Ok, slice_Ok, bind_Ok by lia.
  replace (start + length b - start)%nat with (length b) by lia. set (p := take start a). set (d := take (length b) (drop start a)). set (s := drop (start + length b) a).
  assert (a = p ++ d ++ s) as Hsplit by (unfold p, d, s; by rewrite <- drop_drop, !take_drop).
  assert (length p = start) as Hp by (unfold p; rewrite length_take; lia). assert (length d = length b) as Hd by (unfold d; rewrite length_take, length_drop; lia).
  rewrite Hsplit in Ha. apply Forall_app in Ha as [Hwp Ha], Ha as [Hwd Hws].
  destruct (add_limb_ok d b Hd Hwd Hb) as (r & c & -> & Hr & Hwr & Heq). rewrite bind_Ok. cbn beta iota.
  replace (write_back a start r) with ((p ++ r) ++ s) by (unfold write_back, p, s; by rewrite <- app_assoc, Hr, Hd).
  replace (negb (N.b2n c =? 0)) with c by by destruct c. replace (start + length b)%nat with (length (p ++ r)) by (rewrite length_app; lia).
  destruct (propagate_carry_ok (p ++ r) s c Hws) as (r' & c' & -> & Hr' & Hwr' & Heq'). eexists. split; [done|].
  rewrite <- app_assoc. assert (length (p ++ r ++ r') = length a) as Hla by (rewrite Hsplit, !length_app; lia).
  split; [done|]. assert (wf (p ++ r ++ r')) as Hwf by by repeat apply Forall_app_2. split; [done|].
  rewrite <- Hla. apply value_mod with (N.b2n c'); [done|]. rewrite Hsplit, !digits_app, !length_app, !Nat2N.inj_add, !N.pow_add_r, Hp, Hr.
  rewrite Hr, Hd in Heq. rewrite Hd. nia.
Qed.

Lemma mulhl_ok x y : x < B -> wf y ->
  length (mulhl x y).1 = length y /\ length (mulhl x y).2 = length y /\ wf (mulhl x y).1 /\ wf (mulhl x y).2
  /\ value (mulhl x y).1 + B * value (mulhl x y).2 = x * value y.
Proof.
  intros Hx Hy. cbn [mulhl fst snd]. rewrite !length_map. do 2 (split; [done|]).
  induction Hy as [|z y Hz _ (IHl & IHh & IH)]; cbn [map digits_value]; [split; [constructor|split; [constructor|lia]]|].
  destruct (mulhl_one_ok x z Hx Hz) as (Hlo & Hhi & Heq). split; [by constructor|]. split; [by constructor|]. nia.
Qed.
Lemma mul_accum_ok a start x y : x < B -> wf a -> wf y -> (start + 1 + length y <= length a)%nat ->
  exists r, mul_accum (E:=E) a start x y = Ok r /\ length r = length a /\ wf r
    /\ value r = (value a + B ^ N.of_nat start * (x * value y)) mod size a.
Proof.
  intros Hx Ha Hy Hlen. destruct (mulhl_ok x y Hx Hy) as (Hll & Hlh & Hl & Hh & Heq). unfold mul_accum. destruct (mulhl x y) as [l h]. cbn [fst snd] in *.
  destruct (accum_ok a start l) as (r & -> & Hr & Hwr & Hvr); [done..|lia|]. rewrite bind_Ok.
  destruct (accum_ok r (start + 1) h) as (r' & -> & Hr' & Hwr' & Hvr'); [done..|lia|]. exists r'. split; [done|]. split; [lia|]. split; [done|].
  rewrite Hvr', Hvr, Hr, N.Div0.add_mod_idemp_l, <- Heq. f_equal. rewrite Nat2N.inj_add, N.pow_add_r, N.pow_1_r. lia.
Qed.
Lemma mul_accum_zero_ok a start x y : x < B -> wf a -> wf y -> (start + 1 + length y <= length a)%nat ->
  Forall (fun z => z = 0) (take (length y) (drop start a)) ->
  mul_accum_zero (E:=E) a start x y = mul_accum a start x y.
Proof.
  intros Hx Ha Hy Hlen Hz. destruct (mulhl_ok x y Hx Hy) as (Hll & _ & Hl & _). unfold mul_accum_zero, mul_accum. destruct (mulhl x y) as [l h]. cbn [fst snd] in *.
  set (d := take (length y) (drop start a)) in *. assert (length d = length y) as Hd by (unfold d; rewrite length_take, length_drop; lia).
  rewrite (slice_mut_Ok a start (start + length y) _ l) by
    (first [lia|replace (start + length y - start)%nat with (length y) by lia; apply clone_from_slice_Ok; fold d; lia]).
  rewrite bind_Ok. destruct (accum_ok a start l) as (r & Hacc & Hr & Hwr & Hvr); [done..|lia|]. rewrite Hacc, bind_Ok.
  f_equal. apply value_inj; [rewrite !length_app, length_take, length_drop; lia| |done|].
  - repeat apply Forall_app_2; [by apply Forall_take|done|by apply Forall_drop].
  - rewrite Hvr. assert (a = take start a ++ d ++ drop (start + length y) a) as Hsplit by (unfold d; by rewrite <- drop_drop, !take_drop).
    assert (value d = 0) as Hd0.
    { clearbody d. clear -Hz. induction Hz as [|z d -> _ IH]; [done|]. cbn [digits_value]. rewrite IH. lia. }
    assert (length (take start a) = start) as Hts by (rewrite length_take; lia).
    rewrite <- (N.mod_small (value (take start a ++ l ++ drop (start + length y) a)) (size a)).
    + f_equal. rewrite Hsplit at 3. rewrite !digits_app, Hd0, Hll, Hd, Hts. lia.
    + apply N.lt_le_trans with (size (take start a ++ l ++ drop (start + length y) a)).
      * apply value_lt. repeat apply Forall_app_2; [by apply Forall_take|done|by apply Forall_drop].
      * apply N.pow_le_mono_r; [lia|]. rewrite !length_app, length_drop. lia.
Qed.

(** *** Comparison and selection *)
Lemma lt_from_ok a : forall b t u, length a = length b -> wf a -> wf b ->
  lt_from (E:=E) (a ++ t) (b ++ u) (rev (seq 0 (length a))) = Ok (value a <? value b).
Proof.
  induction a as [|x a IH] using rev_ind; intros b t u Hlen Ha Hb; [destruct b; done|].
  destruct b as [|y b _] using rev_ind; [rewrite length_app in Hlen; cbn in Hlen; lia|]. rewrite !length_app, !Nat.add_1_r in Hlen.
  apply Forall_app in Ha as [Ha Hx], Hb as [Hb Hy]. apply Forall_singleton in Hx, Hy.
  rewrite length_app, Nat.add_1_r, seq_S, rev_app_distr. cbn [rev app lt_from Nat.add]. rewrite <- !app_assoc. cbn [app].
  assert (index (E:=E) (a ++ x :: t) (length a) = Ok x) as -> by by apply index_Ok, list_lookup_middle.
  assert (index (E:=E) (b ++ y :: u) (length a) = Ok y) as -> by (apply index_Ok, list_lookup_middle; lia).
  rewrite !bind_Ok, !digits_app. cbn [digits_value]. rewrite !N.mul_0_r, !N.add_0_r. pose proof (value_lt a Ha) as Hva. pose proof (value_lt b Hb) as Hvb.
  assert (length a = length b) as Hab by lia. rewrite <- Hab in Hvb. rewrite <- Hab.
  destruct (N.ltb_spec x y) as [Hxy|Hxy]; [f_equal; symmetry; apply N.ltb_lt; nia|]. destruct (N.ltb_spec y x) as [Hyx|Hyx].
  - f_equal. symmetry. apply N.ltb_ge. nia.
  - assert (x = y) as -> by lia. rewrite (IH b (y :: t) (y :: u)) by (first [done|lia]). f_equal.
    destruct (N.ltb_spec (value a) (value b)); symmetry; [apply N.ltb_lt|apply N.ltb_ge]; nia.
Qed.
Lemma limbs_lt_ok a b : length a = length b -> wf a -> wf b -> lt (E:=E) a b = Ok (value a <? value b).
Proof. intros Hlen Ha Hb. pose proof (lt_from_ok a b [] [] Hlen Ha Hb) as Hlt. rewrite !app_nil_r in Hlt. exact Hlt. Qed.

Lemma full_mask : wrap64 (2 ^ 64 - 1) mod B = B - 1.
Proof.
  pose proof B_gt_1. pose proof limb_bits as (_ & Hle & _). unfold wrap64. rewrite (N.mod_small (2 ^ 64 - 1) (2 ^ 64)) by done.
  assert (2 ^ 64 = B * 2 ^ (64 - LIMB_BITS)) as Heq by (rewrite <- N.pow_add_r; f_equal; lia). assert (0 < 2 ^ (64 - LIMB_BITS)) by (apply N.neq_0_lt_0, N.pow_nonzero; lia).
  replace (2 ^ 64 - 1) with (B - 1 + (2 ^ (64 - LIMB_BITS) - 1) * B)
    by (assert (B <= B * 2 ^ (64 - LIMB_BITS)) by nia; rewrite N.mul_sub_distr_r, N.mul_1_l; lia). rewrite N.Div0.mod_add. apply N.mod_small. lia.
Qed.
Lemma land_full x : x < B -> N.land x (B - 1) = x.
Proof. intros Hx. rewrite land_ones_mod. by apply N.mod_small. Qed.
Lemma cmovne_ok a x y b : length a = length b -> wf a -> wf b -> cmovne (E:=E) a x y b = Ok (if x =? y then a else b).
Proof.
  intros Hlen Ha Hb. unfold cmovne. set (mask := wrap64 _ mod B).
  assert (forall u v, u < B -> v < B -> N.lor (N.land u (N.lxor mask (B - 1))) (N.land v mask) = if x =? y then u else v) as Hsel.
  { intros u v Hu Hv. unfold mask. destruct (x =? y); cbn [negb].
    - rewrite N.sub_0_r. unfold wrap64. rewrite N.Div0.mod_same, N.Div0.mod_0_l, N.lxor_0_l, N.land_0_r, N.lor_0_r. by apply land_full.
    - rewrite full_mask, N.lxor_nilpotent, N.land_0_r, N.lor_0_l. by apply land_full. }
  pose proof (map_loop (E:=E) (fun a i => ai ← index a i; bi ← index b i;
    store a i (N.lor (N.land ai (N.lxor mask (B - 1))) (N.land bi mask))) (fun i u => N.lor (N.land u (N.lxor mask (B - 1))) (N.land (b !!! i) mask)) (length a)) as Hmap.
  specialize (Hmap ltac:(intros a' i u Hl Hu; cbn beta; pose proof (lookup_lt_Some _ _ _ Hu); by rewrite (proj2 (index_Ok a' i u) Hu), bind_Ok, index_lt, bind_Ok, store_Ok by lia) a [] eq_refl).
  cbn [app length Nat.add] in Hmap. rewrite Hmap. f_equal. apply list_eq. intros i. rewrite list_lookup_imap.
  destruct (a !! i) as [u|] eqn:Hu; cbn [fmap option_fmap option_map].
  - pose proof (lookup_lt_Some _ _ _ Hu). assert (u = a !!! i) as Hua by (symmetry; by apply list_lookup_total_correct). rewrite Hsel; [|subst u; apply wf_total; [done|lia]|apply wf_total; [done|lia]].
    destruct (x =? y); [done|]. symmetry. apply list_lookup_lookup_total_lt. lia.
  - apply lookup_ge_None in Hu. symmetry. destruct (x =? y); apply lookup_ge_None; lia.
Qed.
Lemma cmovnz_ok a nz b : length a = length b -> wf a -> wf b -> cmovnz (E:=E) a nz b = Ok (if nz =? 0 then a else b).
Proof. apply cmovne_ok. Qed.

(** *** The low limb *)
Lemma low_limb s : wf s -> (0 < length s)%nat -> index (E:=E) s 0 = Ok (value s mod B).
Proof.
  intros Hw Hl. destruct s as [|x s]; [cbn in Hl; lia|]. apply Forall_cons in Hw as [Hx _]. cbn [digits_value].
  rewrite (N.mul_comm B), N.Div0.mod_add, N.mod_small by done. done.
Qed.
Lemma low_bit n : N.land (n mod B) 1 = n mod 2.
Proof.
  change 1 with (N.ones 1). rewrite N.land_ones. change (2 ^ 1) with 2. pose proof limb_bits as (Hb & _ & _).
  assert (exists h, B = h * 2) as [h Hh] by (exists (2 ^ (LIMB_BITS - 1)); rewrite N.mul_comm, <- N.pow_succ_r'; f_equal; lia).
  rewrite Hh. pose proof (N.div_mod n (h * 2)) as Hd. pose proof B_pos as HB. rewrite Hh in HB. rewrite Hd at 2 by lia.
  replace (h * 2 * (n / (h * 2)) + n mod (h * 2)) with (n mod (h * 2) + (h * (n / (h * 2))) * 2) by lia. by rewrite N.Div0.mod_add.
Qed.
Lemma is_one_slice_ok s : wf s -> (0 < length s)%nat -> is_one_slice (E:=E) s = Ok (value s =? 1).
Proof.
  intros Hw Hl. destruct s as [|x s]; [cbn in Hl; lia|]. unfold is_one_slice. cbn [index lookup list_lookup drop digits_value]. rewrite bind_Ok. change (mret ?b) with (Ok (E:=E) b). f_equal. rewrite drop_0.
  apply Forall_cons in Hw as [Hx Hw]. pose proof B_gt_1 as HB.
  assert (forallb (fun x => x =? 0) s = (value s =? 0)) as ->.
  { destruct (N.eqb_spec (value s) 0) as [Hz|Hnz].
    - apply digits_zero in Hz; [|done]. apply forallb_forall. intros y Hy%list_elem_of_In. rewrite Forall_forall in Hz. apply N.eqb_eq. by apply Hz.
    - apply not_true_is_false. intros Hall. apply Hnz. rewrite forallb_forall in Hall. clear -Hall. induction s as [|y s IH]; [done|]. cbn [digits_value].
      rewrite IH by (intros z Hz; apply Hall; by right). specialize (Hall y ltac:(by left)). apply N.eqb_eq in Hall. lia. }
  destruct (N.eqb_spec x 1) as [->|Hx1], (N.eqb_spec (value s) 0) as [Hz|Hnz]; cbn [andb]; symmetry; [apply N.eqb_eq|apply N.eqb_neq..]; try nia.
Qed.

(** *** Reduction *)
Context (M : N) (modulo negm : list N) (Hm : wf modulo) (Hn : wf negm) (Hlen : length negm = length modulo).
Context (Hmv : value modulo = M) (Hnv : value negm = size modulo - M) (HM : 0 < M).
Lemma maybe_minus_m_ok a ah : length a = length modulo -> wf a -> value a + size modulo * N.b2n ah < 2 * M ->
  exists r, maybe_minus_m (E:=E) a (N.b2n ah) negm = Ok r /\ length r = length a /\ wf r
    /\ value r = (value a + size modulo * N.b2n ah) mod M /\ value r < M.
Proof using All.
  intros Ha Hwa Hlt. unfold maybe_minus_m. destruct (add_limb_ok negm a ltac:(lia) Hn Hwa) as (a1 & ah1 & -> & H1 & Hw1 & Heq). rewrite bind_Ok. cbn beta iota.
  rewrite cmovne_ok by (first [done|lia]). rewrite Hnv, H1, Hlen in Heq. pose proof (value_lt a Hwa) as Hva. rewrite Ha in Hva.
  pose proof (value_lt a1 Hw1) as Hv1. rewrite H1, Hlen in Hv1. pose proof (value_lt modulo Hm) as Hvm. rewrite Hmv in Hvm. eexists. split; [done|].
  destruct ah, ah1; cbn [N.b2n N.eqb Pos.eqb] in *.
  - lia.
  - split; [lia|]. split; [done|]. assert (value a1 = value a + size modulo - M) as -> by lia. split; [|lia].
    apply N.mod_unique with 1; lia.
  - split; [lia|]. split; [done|]. assert (value a1 = value a - M) as -> by lia. split; [|lia]. apply N.mod_unique with 1; lia.
  - split; [done|]. split; [done|]. rewrite N.mul_0_r, N.add_0_r. rewrite N.mod_small by lia. split; [done|lia].
Qed.
Lemma accum_modular_ok a b : length a = length modulo -> length b = length modulo -> wf a -> wf b -> value a < M -> value b < M ->
  exists r, accum_modular (E:=E) a b negm = Ok r /\ length r = length a /\ wf r /\ value r = (value a + value b) mod M /\ value r < M.
Proof using All.
  intros Ha Hb Hwa Hwb Hva Hvb. unfold accum_modular. destruct (add_limb_ok a b ltac:(lia) Hwa Hwb) as (r & c & -> & Hr & Hwr & Heq). rewrite bind_Ok. cbn beta iota.
  rewrite Hr, Ha in Heq. destruct (maybe_minus_m_ok r c) as (r' & -> & Hr' & Hwr' & Hv & Hlt); [lia|done|lia|]. exists r'. rewrite Hv, Heq. rewrite Hv, Heq in Hlt.
  split; [done|]. split; [lia|]. done.
Qed.
Lemma sub_modular_ok a b : length a = length modulo -> length b = length modulo -> wf a -> wf b -> value a < M -> value b < M ->
  exists r, ('(a, ah) ← sub_limb (E:=E) a b; maybe_plus_m a ah modulo) = Ok r /\ length r = length a /\ wf r /\ value r = (value a + (M - value b)) mod M /\ value r < M.
Proof using All.
  intros Ha Hb Hwa Hwb Hva Hvb. destruct (sub_limb_ok a b ltac:(lia) Hwa Hwb) as (r & c & -> & Hr & Hwr & Heq). rewrite bind_Ok. cbn beta iota.
  unfold maybe_plus_m. destruct (add_limb_ok r modulo ltac:(lia) Hwr Hm) as (r1 & c1 & -> & Hr1 & Hwr1 & Heq1). rewrite bind_Ok. cbn beta iota.
  rewrite cmovnz_ok by (first [done|lia]). pose proof (value_lt r1 Hwr1) as Hv1. pose proof (value_lt r Hwr) as Hv. rewrite Hr1, Hr, Ha in Hv1. rewrite Hr, Ha in *. rewrite Hmv, Hr1 in Heq1.
  pose proof (value_lt modulo Hm) as Hvm. rewrite Hmv in Hvm.
  eexists. split; [done|]. destruct c; cbn [N.b2n N.eqb] in *.
  - split; [lia|]. split; [done|]. destruct c1; cbn [N.b2n] in *; [|lia]. assert (value r1 = value a + (M - value b)) as -> by lia. rewrite N.mod_small by lia. split; [done|lia].
  - split; [lia|]. split; [done|]. assert (value r = value a - value b) as -> by lia. split; [|lia]. apply N.mod_unique with 1; lia.
Qed.
End facts.
