(* ===== verification/Montgomery.v ===== *)
(** * Prime fields in Montgomery form ([src/rust/runtime/algebra/src/{fp_generic,p256/,q256,nat}.rs])

    An element is an array of [L] limbs that stands for [x * R mod M] with
    [R = 2^(64 W)].  [GenericStrategy] multiplies for any odd modulus,
    [P256Strategy] with the reduction step special to P-256, for limbs of 64
    and of 32 bits. *)
From stdpp Require Import prelude strings.
From Stdlib Require Import Lia NArith ZArith ZifyNat ZifyN.
From S2P Require Import Prelude Words Transcript Limb.
Local Open Scope N_scope.

(** ** Natural numbers of [W] words ([nat.rs]) *)
Module runtime_nat.
Section nat.
Context {E : Type} (W : nat).
Definition from_limbs (limbs : list N) : list N := limbs.
Definition limbs (n : list N) : list N := n.
(** From the most significant word. *)
Fixpoint cmp_from (a b : list N) (order : list nat) : outcome E comparison :=
  match order with
  | [] => mret Eq
  | i :: order =>
      ai ← index a i; bi ← index b i;
      match ai ?= bi with Eq => cmp_from a b order | ord => mret ord end
  end.
Definition cmp (a b : list N) : outcome E comparison := cmp_from a b (rev (seq 0 W)).
Definition from_u64 (val : N) : outcome E (list N) :=
  if (0 <? W)%nat then store (replicate W 0) 0 val else mret (replicate W 0).
Definition to_bytes_le (n : list N) : list u8 := foldl (fun bytes limb => bytes ++ to_le_bytes 8 limb) [] n.
Definition from_bytes_le (bytes : list u8) : outcome E (list N) :=
  rust_assert (Nat.eqb (length bytes) (W * 8)) ;;
  foldM (fun limbs i => buf ← slice bytes (i * 8) ((i + 1) * 8); store limbs i (from_le_bytes buf)) (replicate W 0) (seq 0 W).
Definition bit (n : list N) (i : nat) : outcome E bool :=
  let limb_idx := (i / 64)%nat in
  let bit_idx := (i mod 64)%nat in
  if (limb_idx <? W)%nat then
    limb ← index n limb_idx; mret (negb (N.land limb (shl64 1 (N.of_nat bit_idx)) =? 0))
  else mret false.
Definition to_bits (n : list N) (k : nat) : outcome E (list bool) :=
  foldM (fun bits i => b ← bit n i; mret (bits ++ [b])) [] (seq 0 k).
End nat.
End runtime_nat.

(** ** Strategies

    [add] and [sub] are provided methods; an implementation chooses the
    multiplication. *)
Class MontgomeryStrategy := montgomery_mul :
  forall {E}, list N -> list N -> list N -> list N -> N -> outcome E (list N).

Module strategy.
Section strategy.
Context `{LimbWidth} {E : Type}.
Definition add (a b negm : list N) : outcome E (list N) := accum_modular a b negm.
Definition sub (a b modulo : list N) : outcome E (list N) :=
  '(a, ah) ← sub_limb a b; maybe_plus_m a ah modulo.
End strategy.
End strategy.

Module fp_generic.
Section helpers.
Context `{LimbWidth} {E : Type}.
#[local] Abbreviation bits := (N.to_nat LIMB_BITS).

Definition wrapping_neg (x : N) : N := wrapping_sub 0 x.
Definition compute_m_prime (m0 : N) : N :=
  wrapping_neg (foldl (fun inv _ => wrapping_mul inv (wrapping_sub 2 (wrapping_mul m0 inv))) m0 (seq 0 6)).

(** One, doubled [n] times. *)
Definition doublings (n : nat) (x negm : list N) : outcome E (list N) :=
  foldM (fun x _ => accum_modular x x negm) x (seq 0 n).
Definition compute_r2 (L : nat) (negm : list N) : outcome E (list N) :=
  x ← store (replicate L 0) 0 1; doublings (2 * bits * L) x negm.
Definition compute_r (L : nat) (negm : list N) : outcome E (list N) :=
  x ← store (replicate L 0) 0 1; doublings (bits * L) x negm.

Definition reduction_step (t : list N) (i : nat) (modulo : list N) (m_prime : N) : outcome E (list N) :=
  ti ← index t i; mul_accum t i (wrapping_mul ti m_prime) modulo.

(** The window of [L + 2] limbs at [i], accumulated and reduced. *)
Definition window (L : nat) (t : list N) (i : nat) (acc : list N -> outcome E (list N)) (modulo : list N) (m_prime : N) : outcome E (list N) :=
  slice_mut t i (i + L + 2) (fun w => w ← acc w; reduction_step w 0 modulo m_prime).
Definition montgomery_mul (L : nat) (a b modulo negm : list N) (m_prime : N) : outcome E (list N) :=
  rust_assert (L <=? 16)%nat ;;
  let t := replicate 33 0 in
  t ← (if (0 <? L)%nat then
         a0 ← index a 0;
         t ← window L t 0 (fun w => mul_accum_zero w 0 a0 b) modulo m_prime;
         foldM (fun t i =>
           t ← store t (i + L + 1) 0;
           ai ← index a i;
           window L t i (fun w => mul_accum w 0 ai b) modulo m_prime) t (seq 1 (L - 1))
       else mret t);
  res ← slice t L (2 * L);
  top ← index t (2 * L);
  maybe_minus_m res top negm.
End helpers.
End fp_generic.

Definition GenericStrategy `{LimbWidth} (L : nat) : MontgomeryStrategy :=
  fun E a b modulo negm m_prime => fp_generic.montgomery_mul L a b modulo negm m_prime.

(** ** The P-256 strategies ([p256_64.rs] and [p256_32.rs]) *)
Module p256_64.
Section p256_64.
#[local] Existing Instance width_64.
Context {E : Type}.
Definition p256_reduction_step (a : list N) : outcome E (list N) :=
  r ← index a 0;
  let r_lo := shl r 32 in
  let r_hi := N.shiftr r 32 in
  '(a, _) ← sub_limb a [r; 0; 0; r_lo; r_hi; 0];
  accum a 1 [r_lo; r_hi; r; r].
(** The steps for the limbs of [a] are written out in the source. *)
Definition montgomery_mul (a b modulo negm : list N) (m_prime : N) : outcome E (list N) :=
  let t := replicate 9 0 in
  a0 ← index a 0;
  t ← mul_accum_zero t 0 a0 b;
  t ← slice_mut t 0 6 p256_reduction_step;
  t ← foldM (fun t i =>
    t ← store t (i + 5) 0;
    ai ← index a i;
    t ← mul_accum t i ai b;
    slice_mut t i (i + 6) p256_reduction_step) t [1; 2; 3]%nat;
  a ← slice t 4 8;
  top ← index t 8;
  maybe_minus_m a top negm.
End p256_64.
End p256_64.

Module p256_32.
Section p256_32.
#[local] Existing Instance width_32.
Context {E : Type}.
Definition p256_reduction_step (a : list N) : outcome E (list N) :=
  r ← index a 0;
  '(a, _) ← sub_limb a [r; 0; 0; 0; 0; 0; 0; r; 0; 0];
  accum a 3 [r; 0; 0; r; 0; r].
Definition montgomery_mul (a b modulo negm : list N) (m_prime : N) : outcome E (list N) :=
  let t := replicate 17 0 in
  a0 ← index a 0;
  t ← mul_accum_zero t 0 a0 b;
  t ← slice_mut t 0 10 p256_reduction_step;
  t ← foldM (fun t i =>
    t ← store t (i + 9) 0;
    ai ← index a i;
    t ← mul_accum t i ai b;
    slice_mut t i (i + 10) p256_reduction_step) t [1; 2; 3; 4; 5; 6; 7]%nat;
  a ← slice t 8 16;
  top ← index t 16;
  maybe_minus_m a top negm.
End p256_32.
End p256_32.
Definition P256Strategy_64 : MontgomeryStrategy := @p256_64.montgomery_mul.
Definition P256Strategy_32 : MontgomeryStrategy := @p256_32.montgomery_mul.

(** ** The field *)
Record FpGenericField := {
  f_modulo : list N;
  neg_modulo : list N;
  m_prime : N;
  r2 : list N;
  r : list N;
  accum_scale : list N;
  raw_half : list N
}.

Module field.
Section field.
Context `{LimbWidth} (W L ACCUM_L : nat) `{MontgomeryStrategy}.
#[local] Abbreviation bits := (N.to_nat LIMB_BITS).
Section construct.
Context {E : Type}.

Definition new_generic (modulo_words : list N) : outcome E FpGenericField :=
  rust_assert (0 <? W)%nat ;;
  rust_assert (Nat.eqb L (W * LIMBS_PER_U64)) ;;
  rust_assert (L * 2 + 1 <=? ACCUM_L)%nat ;;
  rust_assert (ACCUM_L + L <? 64)%nat ;;
  modulo ← words64_to_limbs L modulo_words;
  m0 ← index modulo 0;
  one ← is_one_slice modulo;
  rust_assert ((N.land m0 1 =? 1) && negb one) ;;
  '(neg_modulo, _) ← sub_limb (replicate L 0) modulo;
  r2 ← fp_generic.compute_r2 L neg_modulo;
  r ← fp_generic.compute_r L neg_modulo;
  accum_scale ← fp_generic.doublings ((ACCUM_L - 2 * L) * bits) r2 neg_modulo;
  raw_half_limbs ← shr_1 modulo;
  raw_half_limbs ← propagate_carry raw_half_limbs 0 true;
  mret {| f_modulo := modulo; neg_modulo := neg_modulo; m_prime := fp_generic.compute_m_prime m0; r2 := r2; r := r;
          accum_scale := accum_scale; raw_half := raw_half_limbs |}.
End construct.

Section ops.
Context (self : FpGenericField) {E : Type}.
#[local] Abbreviation mont_mul a b := (montgomery_mul a b (f_modulo self) (neg_modulo self) (m_prime self)).

Definition to_montgomery (standard : list N) : outcome E (list N) := mont_mul standard (r2 self).
Definition to_standard (mont : list N) : outcome E (list N) :=
  one_limbs ← store (replicate L 0) 0 1; mont_mul mont one_limbs.

Definition zero : list N := replicate L 0.
Definition one : list N := r self.
Definition add (a b : list N) : outcome E (list N) := strategy.add a b (neg_modulo self).
Definition sub (a b : list N) : outcome E (list N) := strategy.sub a b (f_modulo self).
Definition mul (a b : list N) : outcome E (list N) := mont_mul a b.
Definition neg (a : list N) : outcome E (list N) := sub zero a.
Definition is_zero (a : list N) : bool := bool_decide (a = zero).

Definition of_scalar (n : N) : outcome E (list N) :=
  let n_limbs := u64_to_limbs n in
  standard ← foldM (fun standard i => if (i <? L)%nat then ni ← index n_limbs i; store standard i ni else mret standard)
    (replicate L 0) (seq 0 LIMBS_PER_U64);
  to_montgomery standard.
Definition u64_to_element (n : N) : outcome E (list N) := of_scalar n.

(** The shift is written out in the source; it is that of [shr_1]. *)
Definition byhalf (a : list N) : outcome E (list N) :=
  a0 ← index a 0;
  let lsb := N.land a0 1 in
  a ← shr_1 a;
  if negb (lsb =? 0) then strategy.add a (raw_half self) (neg_modulo self) else mret a.

Definition fma (e1 a b : list N) : outcome E (list N) := prod ← mul a b; add e1 prod.
Definition fnms (e1 a b : list N) : outcome E (list N) := prod ← mul a b; sub e1 prod.

(** Accumulators hold unreduced sums of products. *)
Definition zero_accum : list N := replicate ACCUM_L 0.
Definition mac (acc x y : list N) : outcome E (list N) :=
  foldM (fun acc i => xi ← index x i; mul_accum acc i xi y) acc (seq 0 L).
Definition accum_reduce (acc : list N) : outcome E (list N) :=
  rust_assert (ACCUM_L + L <? 64)%nat ;;
  rust_assert (2 * L <? ACCUM_L)%nat ;;
  a ← foldM (fun a i =>
    acci ← index acc i;
    fp_generic.window L a i (fun w => accum w 0 [acci]) (f_modulo self) (m_prime self)) (replicate 64 0) (seq 0 ACCUM_L);
  res ← slice a ACCUM_L (ACCUM_L + L);
  top ← index a (ACCUM_L + L);
  res ← maybe_minus_m res top (neg_modulo self);
  mul res (accum_scale self).

Definition to_words64 (e : list N) : outcome E (list N) := limbs ← to_standard e; limbs_to_words64 W limbs.
Definition to_nat (e : list N) : outcome E (list N) := words ← to_words64 e; mret (runtime_nat.from_limbs words).
Definition reduce_nat (n : list N) : outcome E (list N) :=
  limbs ← words64_to_limbs L (runtime_nat.limbs n);
  small ← lt limbs (f_modulo self);
  if small : bool then to_montgomery limbs
  else acc ← mac zero_accum limbs (r2 self); accum_reduce acc.

Definition lookup_point (n i : nat) : outcome E (list N) :=
  two_i ← u64_to_element (2 * N.of_nat i);
  rust_assert (1 <=? n)%nat ;;
  n_minus_1 ← u64_to_element (N.of_nat n - 1);
  sub two_i n_minus_1.
Definition poly_evaluation_point (i : nat) : outcome E (list N) := u64_to_element (N.of_nat i).

Definition serialized_size_bytes : nat := W * 8.
#[local] Abbreviation limb_bytes := (N.to_nat (LIMB_BITS / 8)).
Definition to_bytes_into (e : list N) (dst : list u8) : outcome E (list u8) :=
  rust_assert (Nat.eqb (length dst) serialized_size_bytes) ;;
  standard ← to_standard e;
  let len := length dst in
  foldM (fun bytes '(i, limb) =>
    let le := to_le_bytes limb_bytes limb in
    let start := (i * limb_bytes)%nat in
    let stop := (start + limb_bytes)%nat in
    if (stop <=? len)%nat then slice_mut bytes start stop (fun d => clone_from_slice d le)
    else if (start <? len)%nat then slice_mut bytes start len (fun d => s ← slice le 0 (len - start); clone_from_slice d s)
    else mret bytes) dst (imap pair standard).
Definition to_bytes (e : list N) : outcome E (list u8) := to_bytes_into e (replicate serialized_size_bytes x00).
Definition serialized_mone : outcome E (list u8) := mone ← sub zero one; to_bytes mone.
End ops.

Definition bytes_to_limbs {E} (bytes : list u8) : outcome E (list N) :=
  let limb_bytes := N.to_nat (LIMB_BITS / 8) in
  foldM (fun limbs i =>
    let start := (i * limb_bytes)%nat in
    let stop := (start + limb_bytes)%nat in
    if (stop <=? length bytes)%nat then s ← slice bytes start stop; store limbs i (from_le_bytes s) else mret limbs)
    (replicate L 0) (seq 0 L).
Definition bytes_to_element (self : FpGenericField) (bytes : list u8) : outcome string (list N) :=
  reject_if (negb (Nat.eqb (length bytes) serialized_size_bytes)) "Invalid size"%string ;;
  limbs ← bytes_to_limbs bytes;
  small ← lt limbs (f_modulo self);
  reject_if (negb small) "Out of bounds"%string ;;
  to_montgomery self limbs.
Definition words64_to_element (self : FpGenericField) (words : list N) : outcome string (list N) :=
  limbs ← words64_to_limbs L words;
  small ← lt limbs (f_modulo self);
  reject_if (negb small) "Out of bounds"%string ;;
  to_montgomery self limbs.

(** Binary extended Euclid; a turn of the loop halves one of the numbers. *)
Fixpoint invert_loop (self : FpGenericField) (fuel : nat) (a b u v : list N) : outcome stuck (list N) :=
  match fuel with
  | O => Err OutOfFuel
  | S fuel =>
      if bool_decide (a = replicate L 0) then mret v
      else
        a0 ← index a 0;
        if N.land a0 1 =? 0 then
          a ← shr_1 a; u ← byhalf self u; invert_loop self fuel a b u v
        else
          small ← lt a b;
          let '(a, b, u, v) := if small : bool then (b, a, v, u) else (a, b, u, v) in
          '(a, _) ← sub_limb a b;
          a ← shr_1 a;
          u ← sub self u v;
          u ← byhalf self u;
          invert_loop self fuel a b u v
  end.
Definition invert_fuel : nat := 2 * (L * bits) + 1.
Definition invert (self : FpGenericField) (a : list N) : outcome stuck (list N) :=
  rust_assert (negb (is_zero a)) ;;
  a_limbs ← to_standard self a;
  invert_loop self invert_fuel a_limbs (f_modulo self) (one self) zero.
Definition newton_denominator (self : FpGenericField) (k i : nat) : outcome stuck (list N) :=
  val ← u64_to_element self (N.of_nat i); invert self val.

(** Rejection sampling from a source of bytes. *)
Fixpoint sample {G : Type} (self : FpGenericField) (rng : nat -> G -> outcome stuck (list u8 * G)) (fuel : nat) (g : G) : outcome stuck (list N * G) :=
  match fuel with
  | O => Err OutOfFuel
  | S fuel =>
      '(buf, g) ← rng (W * 8)%nat g;
      rust_assert (Nat.eqb (length buf) (W * 8)) ;;
      words ← runtime_nat.from_bytes_le W buf;
      res ← words64_to_limbs L words;
      small ← lt res (f_modulo self);
      if small : bool then e ← to_montgomery self res; mret (e, g) else sample self rng fuel g
  end.
End field.
End field.

(** ** The fields of P-256 ([p256/mod.rs] and [q256.rs]) *)
Definition P256_MODULUS : list N := [0xffffffffffffffff; 0x00000000ffffffff; 0x0000000000000000; 0xffffffff00000001].
Definition Q256_MODULUS : list N := [0xf3b9cac2fc632551; 0xbce6faada7179e84; 0xffffffffffffffff; 0xffffffff00000000].
Section p256_fields.
Context `{LimbWidth} {E : Type}.
Definition p256_new : outcome E FpGenericField := field.new_generic 4 (4 * LIMBS_PER_U64) (9 * LIMBS_PER_U64) P256_MODULUS.
Definition q256_new : outcome E FpGenericField := field.new_generic 4 (4 * LIMBS_PER_U64) (9 * LIMBS_PER_U64) Q256_MODULUS.
End p256_fields.
