(* ===== verification/MontgomeryFacts.v ===== *)
(** * Montgomery arithmetic is arithmetic modulo the prime

    The multiplication of either strategy divides the product by [R]; the
    operations on arrays of limbs are those of the integers modulo the prime
    under the representation [x * R mod M]; inversion terminates. *)
From stdpp Require Import prelude strings.
From Stdlib Require Import Lia NArith ZArith Znumtheory ZifyNat ZifyN.
From S2P Require Import Prelude Words Transcript Limb Montgomery.
Local Open Scope N_scope.

(** ** Congruence *)
Section congruence.
Context (M : N).
Definition eqm (a b : N) : Prop := a mod M = b mod M.
#[export] Instance eqm_equivalence : Equivalence eqm.
Proof. split; [done|by intros a b Hab|intros a b c Hab Hbc; by transitivity (b mod M)]. Qed.
#[export] Instance eqm_add : Proper (eqm ==> eqm ==> eqm) N.add.
Proof. intros a b Hab c d Hcd. unfold eqm in *. rewrite N.Div0.add_mod, Hab, Hcd. symmetry. apply N.Div0.add_mod. Qed.
#[export] Instance eqm_mul : Proper (eqm ==> eqm ==> eqm) N.mul.
Proof. intros a b Hab c d Hcd. unfold eqm in *. rewrite N.Div0.mul_mod, Hab, Hcd. symmetry. apply N.Div0.mul_mod. Qed.
Lemma eqm_mod a : eqm (a mod M) a.
Proof. apply N.Div0.mod_mod. Qed.
Lemma eqm_modulus a k : eqm (a + k * M) a.
Proof. apply N.Div0.mod_add. Qed.
Lemma eqm_small a b : eqm a b -> a < M -> b < M -> a = b.
Proof. unfold eqm. intros Heq Ha Hb. by rewrite !N.mod_small in Heq. Qed.
Lemma eqm_diff a b k l : a + k * M = b + l * M -> eqm a b.
Proof. intros Heq. by rewrite <- (eqm_modulus a k), Heq, eqm_modulus. Qed.
Lemma eqm_divide a b : eqm a b <-> (Z.of_N M | Z.of_N a - Z.of_N b)%Z.
Proof.
  unfold eqm. split.
  - intros Heq. destruct (N.eq_dec M 0) as [->|Hz]; [rewrite !N.mod_0_r in Heq; subst; exists 0%Z; lia|].
    exists (Z.of_N (a / M) - Z.of_N (b / M))%Z. pose proof (N.div_mod a M Hz). pose proof (N.div_mod b M Hz). nia.
  - intros [k Hk]. destruct (Z.le_gt_cases 0 k).
    + replace a with (b + Z.to_N k * M) by nia. apply N.Div0.mod_add.
    + replace b with (a + Z.to_N (- k) * M) by nia. symmetry. apply N.Div0.mod_add.
Qed.
(** Cancelling a unit. *)
Lemma eqm_cancel r a b : Z.coprime (Z.of_N M) (Z.of_N r) -> eqm (a * r) (b * r) -> eqm a b.
Proof.
  intros Hcop Heq. apply eqm_divide. apply eqm_divide in Heq. apply (Z.gauss _ (Z.of_N r)); [|done].
  replace (Z.of_N r * (Z.of_N a - Z.of_N b))%Z with (Z.of_N (a * r) - Z.of_N (b * r))%Z by nia. done.
Qed.
End congruence.
#[export] Hint Resolve eqm_mod : lf.

Lemma odd_coprime_pow2 M k : N.odd M = true -> Z.coprime (Z.of_N M) (Z.of_N (2 ^ k)).
Proof.
  intros Hodd. rewrite N2Z.inj_pow. change (Z.of_N 2) with 2%Z. 
  assert (Z.coprime (Z.of_N M) 2) as H2.
  { unfold Z.coprime. rewrite Z.gcd_comm. apply Z.coprime_prime_l; [exact Z.prime_2|]. intros [c Hc]. 
    apply N.odd_spec in Hodd as [d Hd]. lia. }
  induction k as [|k IH] using N.peano_ind; [apply Z.gcd_1_r|]. rewrite N2Z.inj_succ, Z.pow_succ_r by lia. by apply Z.coprime_mul_r.
Qed.

(** ** The inverse of the low limb *)
Section m_prime.
Context `{LimbWidthLaws}.
Definition inverse_to (m0 e inv : N) : Prop := (Z.of_N (2 ^ e) | Z.of_N m0 * Z.of_N inv - 1)%Z.
Lemma divide_mod_add (d n x y : Z) : (d | n)%Z -> (exists k, x = y + n * k)%Z -> (d | y)%Z -> (d | x)%Z.
Proof. intros Hn [k ->] Hy. apply Z.divide_add_r; [done|]. by apply Z.divide_mul_l. Qed.
Lemma pow2_divide a b : a <= b -> (Z.of_N (2 ^ a) | Z.of_N (2 ^ b))%Z.
Proof. intros Hab. exists (Z.of_N (2 ^ (b - a))). rewrite <- N2Z.inj_mul, <- N.pow_add_r. do 2 f_equal. lia. Qed.
Lemma wrap_sub_Z (b p pq pm q d : N) : pm < b -> p = b * pq + pm -> 2 + b - pm = b * q + d ->
  (Z.of_N d = 2 - Z.of_N p + Z.of_N b * (1 + Z.of_N pq - Z.of_N q))%Z.
Proof. intros Hpm -> Hq. assert (2 + b = b * q + d + pm) by lia. lia. Qed.
Lemma wrap_mul_Z (b m inv d k q x : Z) : (d = 2 - m * inv + b * k -> inv * d = b * q + x ->
  m * x - 1 = - (m * inv - 1) * (m * inv - 1) + b * (m * (inv * k - q)))%Z.
Proof. intros Hd Hx. assert (x = inv * d - b * q)%Z as -> by (clear Hd; lia). rewrite Hd. ring. Qed.
Lemma newton_step m0 e inv : m0 < B -> inv < B -> e <= LIMB_BITS -> inverse_to m0 e inv ->
  inverse_to m0 (N.min (2 * e) LIMB_BITS) (wrapping_mul inv (wrapping_sub 2 (wrapping_mul m0 inv))).
Proof.
  intros Hm Hinv He [c Hc]. unfold inverse_to, wrapping_mul, wrapping_sub. pose proof B_gt_1 as HB.
  set (d := (2 + B - (m0 * inv) mod B) mod B). assert (exists k, Z.of_N d = 2 - Z.of_N m0 * Z.of_N inv + Z.of_N B * k)%Z as [k Hd].
  { replace (Z.of_N m0 * Z.of_N inv)%Z with (Z.of_N (m0 * inv)) by lia. exists (1 + Z.of_N (m0 * inv / B) - Z.of_N ((2 + B - (m0 * inv) mod B) / B))%Z.
    apply (wrap_sub_Z _ _ _ ((m0 * inv) mod B)); [by apply N.mod_lt; lia|apply N.div_mod; lia|apply N.div_mod; lia]. }
  pose proof (N.div_mod (inv * d) B ltac:(lia)) as Hdiv.
  apply (divide_mod_add _ (Z.of_N B) _ (- (Z.of_N m0 * Z.of_N inv - 1) * (Z.of_N m0 * Z.of_N inv - 1))%Z).
  - apply pow2_divide. clear. lia.
  - exists (Z.of_N m0 * (Z.of_N inv * k - Z.of_N (inv * d / B)))%Z. apply (wrap_mul_Z _ _ _ _ _ _ _ Hd).
    rewrite <- !N2Z.inj_mul, <- N2Z.inj_add. f_equal. exact Hdiv.
  - rewrite Hc. apply Z.divide_trans with (Z.of_N (2 ^ e) * Z.of_N (2 ^ e))%Z.
    + rewrite <- N2Z.inj_mul, <- N.pow_add_r. apply pow2_divide. clear. lia.
    + exists (- c * c)%Z. ring.
Qed.
Lemma compute_m_prime_ok m0 : m0 < B -> N.odd m0 = true ->
  fp_generic.compute_m_prime m0 < B /\ (m0 * fp_generic.compute_m_prime m0 + 1) mod B = 0.
Proof.
  intros Hm Hodd. pose proof B_gt_1 as HB. pose proof limb_bits as (Hb8 & Hb64 & _). unfold fp_generic.compute_m_prime, fp_generic.wrapping_neg.
  set (body := fun inv (_ : nat) => _).
  assert (forall k, (k <= 6)%nat -> foldl body m0 (seq 0 k) < B /\ inverse_to m0 (N.min (3 * 2 ^ N.of_nat k) LIMB_BITS) (foldl body m0 (seq 0 k))) as Hk.
  { induction k as [|k IH]; intros Hk.
    - split; [done|]. cbn [seq foldl]. rewrite N.min_l by (cbn; lia). apply N.odd_spec in Hodd as [d ->]. unfold inverse_to.
      assert (exists h, d * (d + 1) = 2 * h) as [h Hh].
      { destruct (N.Even_or_Odd d) as [[h ->]|[h ->]]; [exists (h * (2 * h + 1))|exists ((2 * h + 1) * (h + 1))]; lia. }
      change (2 ^ (3 * 2 ^ N.of_nat 0)) with 8. exists (Z.of_N h). nia.
    - rewrite seq_S, foldl_app. cbn [foldl]. destruct IH as [Hlt IH]; [lia|]. split; [unfold body, wrapping_mul; apply N.mod_lt; lia|].
      apply newton_step in IH; [|done|done|lia]. replace (N.min (3 * 2 ^ N.of_nat (S k)) LIMB_BITS) with (N.min (2 * N.min (3 * 2 ^ N.of_nat k) LIMB_BITS) LIMB_BITS); [exact IH|].
      rewrite Nat2N.inj_succ, N.pow_succ_r'. lia. }
  specialize (Hk 6%nat ltac:(lia)). destruct Hk as [Hlt [c Hc]]. rewrite N.min_r in Hc by (cbn; lia). set (inv := foldl body m0 (seq 0 6)) in *.
  split; [apply N.mod_lt; lia|]. unfold wrapping_sub. rewrite N.add_0_l.
  rewrite <- N.Div0.add_mod_idemp_l, N.Div0.mul_mod_idemp_r, N.Div0.add_mod_idemp_l.
  assert (0 <= c)%Z by nia. replace (m0 * (B - inv) + 1) with ((m0 - Z.to_N c) * B); [apply N.Div0.mod_mul|].
  assert (Z.to_N c <= m0) by nia. nia.
Qed.
End m_prime.

(** ** Multiplication *)
Section reduction.
Context `{LimbWidthLaws} {E : Type}.
#[local] Abbreviation value := (digits_value B).
#[local] Abbreviation wf := (digits B).

(** The number stored from limb [i] up. *)
Definition tail (t : list N) (i : nat) (T : N) : Prop := wf t /\ value (drop i t) = T.
Lemma tail_zero t i k T j : tail t i T -> T < B ^ N.of_nat k -> (i + k <= j < length t)%nat -> t !! j = Some 0.
Proof.
  intros [Ht Hv] HT Hj. assert (value (drop k (drop i t)) = 0) as Hz.
  { rewrite digits_drop by (first [exact B_pos|rewrite length_drop; lia|by apply Forall_drop]). apply N.div_small. by rewrite Hv. }
  apply digits_zero in Hz; [|exact B_pos]. rewrite Forall_lookup in Hz.
  destruct (lookup_lt_is_Some_2 t j ltac:(lia)) as [x Hx]. rewrite Hx. f_equal. apply (Hz (j - (i + k))%nat). rewrite !lookup_drop. rewrite <- Hx. f_equal. lia.
Qed.
Lemma tail_value t i T : tail t i T -> (i <= length t)%nat -> value t = value (take i t) + B ^ N.of_nat i * T.
Proof. intros [Ht <-] Hi. by apply digits_take_drop. Qed.
Lemma window_split t i k T : tail t i T -> (i + k <= length t)%nat -> T < B ^ N.of_nat k ->
  exists p w s, t = p ++ w ++ s /\ length p = i /\ length w = k /\ wf p /\ wf w /\ wf s /\ value s = 0 /\ value w = T.
Proof.
  intros [Ht Hv] Hlen HT. exists (take i t), (take k (drop i t)), (drop (i + k) t).
  assert (t = take i t ++ take k (drop i t) ++ drop (i + k) t) as Hsplit by by rewrite <- drop_drop, !take_drop.
  split; [done|]. split; [rewrite length_take; lia|]. split; [rewrite length_take, length_drop; lia|].
  split; [by apply Forall_take|]. split; [by apply Forall_take, Forall_drop|]. split; [by apply Forall_drop|].
  rewrite (digits_take_drop B k) in Hv by (rewrite length_drop; lia). rewrite drop_drop in Hv.
  destruct (N.eq_dec (value (drop (i + k) t)) 0) as [Hz|Hnz]; [split; [done|lia]|]. pose proof (N.pow_nonzero B (N.of_nat k)). pose proof B_pos. nia.
Qed.
Lemma tail_app p w s : wf p -> wf w -> wf s -> value s = 0 -> tail (p ++ w ++ s) (length p) (value w).
Proof.
  intros Hp Hw Hs Hz. split; [by repeat apply Forall_app_2|]. rewrite drop_app_length, digits_app, Hz. lia.
Qed.
(** A tail divisible by [B] moves up by a limb. *)
Lemma tail_next t i T : tail t i T -> (i < length t)%nat -> T mod B = 0 -> tail t (S i) (T / B).
Proof.
  intros [Ht Hv] Hi Hmod. split; [done|]. replace (drop (S i) t) with (drop 1 (drop i t)) by (rewrite drop_drop; f_equal; lia).
  rewrite digits_drop by (first [exact B_pos|rewrite length_drop; lia|by apply Forall_drop]). by rewrite Hv, N.pow_1_r.
Qed.
Lemma slice_mut_at {A} (p w s : list A) body w' : body w = Ok w' ->
  slice_mut (E:=E) (p ++ w ++ s) (length p) (length p + length w) body = Ok (p ++ w' ++ s).
Proof.
  intros Hb. rewrite (slice_mut_Ok _ _ _ _ w').
  - by rewrite take_app_length, <- drop_drop, !drop_app_length.
  - rewrite !length_app. lia.
  - rewrite drop_app_length. replace (length p + length w - length p)%nat with (length w) by lia. by rewrite take_app_length.
Qed.

Context (L : nat) (M : N) (modulo negm : list N) (m_prime : N).
Record modulus_ok : Prop := {
  mo_length : length modulo = L;
  mo_wf : wf modulo;
  mo_value : value modulo = M;
  mo_neg_length : length negm = L;
  mo_neg_wf : wf negm;
  mo_neg_value : value negm = B ^ N.of_nat L - M;
  mo_prime_lt : m_prime < B;
  mo_prime : (M * m_prime + 1) mod B = 0;
  mo_gt_1 : 1 < M;
  mo_odd : N.odd M = true
}.
Context (Hmod : modulus_ok).
#[local] Abbreviation R := (B ^ N.of_nat L).
Lemma M_lt_R : M < R.
Proof using H0 Hmod. rewrite <- (mo_value Hmod), <- (mo_length Hmod). apply value_lt, Hmod. Qed.

Lemma reduction_step_ok w : wf w -> length w = (L + 2)%nat -> value w + (B - 1) * M < B ^ N.of_nat (L + 2) ->
  exists w' q, fp_generic.reduction_step (E:=E) w 0 modulo m_prime = Ok w' /\ length w' = length w /\ wf w'
    /\ q < B /\ value w' = value w + q * M /\ value w' mod B = 0.
Proof using All.
  intros Hw Hlen Hlt. destruct w as [|w0 w]; [cbn in Hlen; lia|]. unfold fp_generic.reduction_step. cbn [index lookup list_lookup]. rewrite bind_Ok.
  apply Forall_cons in Hw as Hw'. destruct Hw' as [Hw0 _]. set (q := wrapping_mul w0 m_prime). pose proof B_gt_1 as HB.
  assert (q < B) as Hq by (apply N.mod_lt; lia).
  destruct (mul_accum_ok (E:=E) (w0 :: w) 0 q modulo) as (w' & -> & Hl & Hwf & Hv); [done|done|apply Hmod|rewrite (mo_length Hmod); lia|].
  exists w', q. rewrite (mo_value Hmod), N.pow_0_r, N.mul_1_l, Hlen in Hv. assert (q * M <= (B - 1) * M) by (apply N.mul_le_mono_r; lia).
  rewrite N.mod_small in Hv by lia.
  repeat split; try done. rewrite Hv. cbn [digits_value]. unfold q, wrapping_mul.
  replace (w0 + B * value w + (w0 * m_prime) mod B * M) with (w0 + (w0 * m_prime) mod B * M + value w * B) by lia. rewrite N.Div0.mod_add.
  rewrite <- N.Div0.add_mod_idemp_r, N.Div0.mul_mod_idemp_l, N.Div0.add_mod_idemp_r.
  replace (w0 + w0 * m_prime * M) with (w0 * (M * m_prime + 1)) by lia. by rewrite <- N.Div0.mul_mod_idemp_r, (mo_prime Hmod), N.mul_0_r, N.Div0.mod_0_l.
Qed.

(** One window: add [x], then a multiple of the modulus, and drop a limb. *)
Lemma window_ok t i T x (step : list N -> outcome E (list N)) :
  tail t i T -> (i + L + 2 <= length t)%nat -> T + x + (B - 1) * M < B ^ N.of_nat (L + 2) ->
  (forall w, wf w -> length w = (L + 2)%nat -> value w = T -> w = take (L + 2) (drop i t) ->
     exists w', step w = Ok w' /\ length w' = length w /\ wf w' /\ value w' = T + x) ->
  exists t' q T', fp_generic.window L t i step modulo m_prime = Ok t' /\ length t' = length t /\ q < B /\ B * T' = T + x + q * M /\ tail t' (S i) T'.
Proof using All.
  intros Ht Hlen Hlt Hstep. destruct (window_split t i (L + 2) T Ht ltac:(lia) ltac:(eapply N.le_lt_trans; [|exact Hlt]; rewrite <- N.add_assoc; apply N.le_add_r)) as (p & w & s & -> & Hp & Hw & Hwp & Hww & Hws & Hs0 & Hwv).
  destruct (Hstep w) as (w1 & Hw1 & Hl1 & Hwf1 & Hv1); [done|done|done|by rewrite <- Hp, drop_app_length, <- Hw, take_app_length|].
  destruct (reduction_step_ok w1 Hwf1 ltac:(lia) ltac:(rewrite Hv1; done)) as (w2 & q & Hw2 & Hl2 & Hwf2 & Hq & Hv2 & Hmod2).
  exists (p ++ w2 ++ s), q, (value w2 / B). subst i. unfold fp_generic.window. rewrite <- Nat.add_assoc, <- Hw.
  rewrite (slice_mut_at _ _ _ _ w2) by (rewrite Hw1; exact Hw2). split; [done|]. split; [rewrite !length_app; lia|]. split; [done|].
  split; [pose proof (N.div_mod (value w2) B) as Hd; pose proof B_pos; rewrite Hmod2 in Hd; lia|].
  apply tail_next; [by apply tail_app| |done]. rewrite !length_app. lia.
Qed.

(** The sum stays below the sum of the second factor and the modulus. *)
Lemma step_bound b T x q T' : T < b + M -> x <= (B - 1) * b -> q < B -> B * T' = T + x + q * M -> T' < b + M.
Proof using H H0 M. intros HT Hx Hq Heq. assert (q * M <= (B - 1) * M) by (apply N.mul_le_mono_r; lia). pose proof B_gt_1. nia. Qed.
Lemma window_room b T ai : b < M -> T < b + M -> ai < B -> T + ai * b + (B - 1) * M < B ^ N.of_nat (L + 2).
Proof using All.
  intros Hb HT Ha. rewrite Nat2N.inj_add, N.pow_add_r. pose proof M_lt_R as HMR. pose proof B_gt_1 as HB. change (N.of_nat 2) with 2.
  rewrite (N.pow_succ_r' B 1), N.pow_1_r. assert (ai * b <= (B - 1) * b) by (apply N.mul_le_mono_r; lia).
  assert (T + ai * b + (B - 1) * M < B * (2 * M)) by nia. assert (B * (2 * M) <= R * (B * B)) by nia. lia.
Qed.

(** The limbs from [i] up and the carry above them, reduced once. *)
Lemma finish_ok t i T : tail t i T -> (i + L < length t)%nat -> T < 2 * M ->
  exists r, (res ← slice t i (i + L); top ← index t (i + L); maybe_minus_m (E:=E) res top negm) = Ok r
    /\ length r = L /\ wf r /\ value r = T mod M /\ value r < M.
Proof using All.
  intros Ht Hlen HT. pose proof M_lt_R as HMR. pose proof B_gt_1 as HB.
  assert (T < B ^ N.of_nat (L + 1)) as HT1.
  { rewrite Nat2N.inj_add, N.pow_add_r, N.pow_1_r. apply N.lt_le_trans with (R * 2); [lia|]. apply N.mul_le_mono_l. lia. }
  destruct (window_split t i (L + 1) T Ht ltac:(lia) HT1) as (p & w & s & -> & Hp & Hw & Hwp & Hww & Hws & Hs0 & Hwv).
  destruct w as [|top res _] using rev_ind; [cbn in Hw; lia|]. rewrite length_app, Nat.add_1_r in Hw. assert (length res = L) as Hres by lia. clear Hw.
  apply Forall_app in Hww as [Hwr Htop]. apply Forall_singleton in Htop. rewrite digits_app, Hres in Hwv. cbn [digits_value] in Hwv. rewrite N.mul_0_r, N.add_0_r in Hwv.
  rewrite slice_Ok, bind_Ok by (rewrite !length_app in *; lia). replace (i + L - i)%nat with (length res) by lia.
  replace (drop i (p ++ (res ++ [top]) ++ s)) with (res ++ [top] ++ s) by (by rewrite <- Hp at 1; rewrite drop_app_length, <- app_assoc).
  rewrite take_app_length. assert (index (E:=E) (p ++ (res ++ [top]) ++ s) (i + L) = Ok top) as ->.
  { apply index_Ok. rewrite <- (app_assoc res), app_assoc. cbn [app]. apply list_lookup_middle. rewrite length_app. lia. }
  rewrite bind_Ok. assert (exists c, top = N.b2n c) as [c ->].
  { assert (top < 2) by nia. destruct (N.eq_dec top 0) as [->|]; [by exists false|exists true; cbn; lia]. }
  destruct (maybe_minus_m_ok (E:=E) M modulo negm) with (a := res) (ah := c) as (r & -> & Hr & Hwfr & Hv & Hlt);
    [apply Hmod..|rewrite (mo_length Hmod); apply Hmod|apply Hmod|by rewrite (mo_length Hmod), (mo_neg_value Hmod)|pose proof (mo_gt_1 Hmod); lia|by rewrite (mo_length Hmod)|done|rewrite (mo_length Hmod); lia|].
  rewrite (mo_length Hmod), Hwv in Hv. exists r. split; [done|]. split; [lia|]. done.
Qed.

(** *** Row by row *)
Section rows.
Context (a b : list N) (Ha : wf a) (Hla : length a = L) (Hb : wf b) (Hlb : length b = L) (Hvb : value b < M).
Definition rows (n i : nat) (t : list N) : Prop :=
  wf t /\ length t = n /\ exists T k, tail t i T /\ T < value b + M /\ T * B ^ N.of_nat i = value (take i a) * value b + k * M.
Lemma next_row n i T k x t' q T' : (i < L)%nat -> x = (a !!! i) * value b -> T < value b + M ->
  T * B ^ N.of_nat i = value (take i a) * value b + k * M ->
  length t' = n -> q < B -> B * T' = T + x + q * M -> tail t' (S i) T' -> rows n (S i) t'.
Proof using All.
  intros Hi -> HT Heq Hl Hq Hstep Ht'. split; [apply Ht'|]. split; [done|]. exists T', (k + B ^ N.of_nat i * q). split; [done|].
  split.
  - eapply step_bound; [exact HT| |exact Hq|exact Hstep]. apply N.mul_le_mono_r. pose proof (wf_total a i Ha ltac:(lia)). lia.
  - rewrite Nat2N.inj_succ, N.pow_succ_r'. destruct (lookup_lt_is_Some_2 a i ltac:(lia)) as [ai Hai].
    rewrite (take_S_r _ _ _ Hai), digits_app, length_take, Nat.min_l by lia. cbn [digits_value]. rewrite (list_lookup_total_correct _ _ _ Hai) in Hstep.
    replace (T' * (B * B ^ N.of_nat i)) with ((B * T') * B ^ N.of_nat i) by lia. rewrite Hstep. lia.
Qed.
Lemma rows_start n : rows n 0 (replicate n 0).
Proof using All.
  split; [apply digits_zeros, B_pos|]. split; [by rewrite length_replicate|]. exists 0, 0. split; [split; [apply digits_zeros, B_pos|apply digits_replicate_0]|].
  split; [pose proof (mo_gt_1 Hmod); lia|]. by rewrite take_0, !N.mul_0_l.
Qed.
Lemma sum_room T : T < value b + M -> T < B ^ N.of_nat (L + 1).
Proof using All.
  intros HT. rewrite Nat2N.inj_add, N.pow_add_r, N.pow_1_r. pose proof M_lt_R. pose proof B_gt_1 as HB.
  apply N.lt_le_trans with (R * 2); [lia|]. apply N.mul_le_mono_l. lia.
Qed.
(** The row above the sum is still empty. *)
Lemma rows_room n i t : rows n i t -> (i + L + 2 <= n)%nat ->
  exists T k, tail t i T /\ T < value b + M /\ T * B ^ N.of_nat i = value (take i a) * value b + k * M
    /\ store (E:=E) t (i + L + 1) 0 = Ok t /\ T < B ^ N.of_nat (L + 1).
Proof using All.
  intros (Hwf & Hl & T & k & Ht & HT & Heq) Hn. exists T, k. do 3 (split; [done|]).
  assert (T < B ^ N.of_nat (L + 1)) as HT1.
  { by apply sum_room. }
  split; [|done]. rewrite store_Ok by lia. f_equal. apply list_insert_id. apply (tail_zero t i (L + 1) T); [done..|lia].
Qed.
Lemma rows_finish n t : rows n L t -> (2 * L + 1 <= n)%nat ->
  exists r, (res ← slice t L (2 * L); top ← index t (2 * L); maybe_minus_m (E:=E) res top negm) = Ok r
    /\ length r = L /\ wf r /\ value r < M /\ eqm M (value r * R) (value a * value b).
Proof using All.
  intros (Hwf & Hl & T & k & Ht & HT & Heq) Hn. rewrite take_ge in Heq by lia.
  destruct (finish_ok t L T Ht) as (r & Hr & Hlr & Hwr & Hv & Hlt); [lia|lia|]. exists r. replace (2 * L)%nat with (L + L)%nat by lia.
  split; [done|]. split; [done|]. split; [done|]. split; [done|]. rewrite Hv, eqm_mod, Heq. apply eqm_modulus.
Qed.

Lemma generic_mul_ok : (0 < L <= 16)%nat ->
  exists r, fp_generic.montgomery_mul (E:=E) L a b modulo negm m_prime = Ok r
    /\ length r = L /\ wf r /\ value r < M /\ eqm M (value r * R) (value a * value b).
Proof using All.
  intros HL. unfold fp_generic.montgomery_mul. rewrite (proj2 (Nat.leb_le _ _)), (proj2 (Nat.ltb_lt _ _)) by lia. cbn [rust_assert].
  rewrite bind_Ok, index_lt, bind_Ok by lia. 
  destruct (rows_room 33 0 _ (rows_start 33) ltac:(lia)) as (T & k & Ht & HT & Heq & _ & HT1).
  assert (Hrow : forall i t T k step, (i < L)%nat -> tail t i T -> length t = 33%nat -> T < value b + M ->
      T * B ^ N.of_nat i = value (take i a) * value b + k * M ->
      (forall w, wf w -> length w = (L + 2)%nat -> value w = T -> w = take (L + 2) (drop i t) -> step w = mul_accum (E:=E) w 0 (a !!! i) b) ->
      exists t', fp_generic.window L t i step modulo m_prime = Ok t' /\ rows 33 (i + 1) t').
  { clear T k Ht HT Heq HT1. intros i t T k step Hi Ht Hl HT Heq Hstep. pose proof (wf_total a i Ha ltac:(lia)) as Hai.
    pose proof (window_room (value b) T (a !!! i) Hvb HT Hai) as Hroom.
    destruct (window_ok t i T ((a !!! i) * value b) step) as (t' & q & T' & Hw & Hl' & Hq & HT' & Ht'); [done|lia|done| |].
    - intros w Hw Hlw Hvw Htake. rewrite (Hstep w Hw Hlw Hvw Htake).
      destruct (mul_accum_ok (E:=E) w 0 (a !!! i) b) as (w' & -> & Hlw' & Hww' & Hvw'); [done..|lia|]. exists w'. repeat split; try done.
      rewrite Hvw', Hvw, N.pow_0_r, N.mul_1_l, Hlw. apply N.mod_small. eapply N.le_lt_trans; [|exact Hroom]. apply N.le_add_r.
    - exists t'. split; [done|]. rewrite Nat.add_1_r. eapply next_row; try done. lia. }
  destruct (Hrow 0%nat (replicate 33 0) T k (fun w => mul_accum_zero w 0 (a !!! 0%nat) b)) as (t1 & -> & Ht1); [lia|done|done|done|done| |].
  { intros w Hw Hlw Hvw Htake. apply mul_accum_zero_ok; [apply wf_total; [done|lia]|done|done|lia|]. rewrite drop_0. subst w.
    rewrite Hlb, drop_0, take_take. rewrite take_replicate. by apply Forall_replicate. }
  rewrite bind_Ok. edestruct (seq_loop (E:=E) (rows 33) (fun t i => t ← store t (i + L + 1) 0; ai ← index a i;
      fp_generic.window L t i (fun w => mul_accum w 0 ai b) modulo m_prime) (L - 1) 1 t1) as (t2 & -> & Ht2); [|done|].
  { intros i t Hi Ht'. destruct (rows_room 33 i t Ht' ltac:(lia)) as (T' & k' & Htail & HT' & Heq' & -> & _). rewrite bind_Ok, index_lt, bind_Ok by lia.
    apply (Hrow i t T' k'); try done; [lia|apply Ht']. }
  rewrite bind_Ok. replace (1 + (L - 1))%nat with L in Ht2 by lia. apply (rows_finish 33 t2 Ht2). lia.
Qed.

(** A row accumulated in the whole buffer, reduced by a step that agrees with
    the generic one. *)
Lemma whole_row n i t step : (i < L)%nat -> (i + L + 2 <= n)%nat -> rows n i t ->
  (forall w, wf w -> length w = (L + 2)%nat -> step w = fp_generic.reduction_step (E:=E) w 0 modulo m_prime) ->
  exists t', (t ← store t (i + L + 1) 0; ai ← index a i; t ← mul_accum t i ai b; slice_mut t i (i + L + 2) step) = Ok t' /\ rows n (i + 1) t'.
Proof using All.
  intros Hi Hn Hrows Hstep. destruct (rows_room n i t Hrows Hn) as (T & k & Ht & HT & Heq & -> & HT1). rewrite bind_Ok, index_lt, bind_Ok by lia.
  destruct Hrows as (Hwf & Hl & _). pose proof (wf_total a i Ha ltac:(lia)) as Hai. pose proof (window_room (value b) T (a !!! i) Hvb HT Hai) as Hroom.
  assert (T + (a !!! i) * value b < B ^ N.of_nat (L + 2)) as Hsum by (eapply N.le_lt_trans; [apply N.le_add_r|exact Hroom]).
  destruct (mul_accum_ok (E:=E) t i (a !!! i) b) as (t1 & -> & Hl1 & Hwf1 & Hv1); [done..|lia|]. rewrite bind_Ok.
  assert (tail t1 i (T + (a !!! i) * value b)) as Ht1.
  { split; [done|]. rewrite digits_drop by (first [exact B_pos|lia|done]). rewrite Hv1, (tail_value t i T Ht) by lia. rewrite <- N.add_assoc, <- N.mul_add_distr_l.
    pose proof (digits_lt B B_pos (take i t) ltac:(by apply Forall_take)) as Hlow. rewrite length_take, Nat.min_l in Hlow by lia.
    rewrite N.mod_small.
    - rewrite N.mul_comm, N.div_add by (apply N.pow_nonzero; pose proof B_pos; lia). rewrite N.div_small by done. done.
    - replace (length t) with (i + (length t - i))%nat by lia. rewrite Nat2N.inj_add, N.pow_add_r.
      assert (B ^ N.of_nat (L + 2) <= B ^ N.of_nat (length t - i)) by (apply N.pow_le_mono_r; [pose proof B_pos; lia|lia]).
      revert Hsum Hlow. generalize (B ^ N.of_nat i) (value (take i t)) (T + a !!! i * value b). intros; nia. }
  destruct (window_ok t1 i _ 0 (fun w => mret w) Ht1) as (t' & q & T' & Hw & Hl' & Hq & HT' & Ht'); [lia|by rewrite N.add_0_r| |].
  { intros w Hw Hlw Hvw _. exists w. rewrite N.add_0_r. done. }
  exists t'. split.
  - rewrite <- Hw. unfold fp_generic.window, slice_mut. rewrite slice_Ok by lia. rewrite bind_ret, Hstep; [done|by apply Forall_take, Forall_drop|rewrite length_take, length_drop; lia].
  - rewrite Nat.add_1_r. rewrite N.add_0_r in HT'. eapply next_row; try done. lia.
Qed.
Lemma whole_first n step : (0 < L)%nat -> (L + 2 <= n)%nat ->
  (forall w, wf w -> length w = (L + 2)%nat -> step w = fp_generic.reduction_step (E:=E) w 0 modulo m_prime) ->
  exists t', (a0 ← index a 0; t ← mul_accum_zero (replicate n 0) 0 a0 b; slice_mut t 0 (L + 2) step) = Ok t' /\ rows n 1 t'.
Proof using All.
  intros HL Hn Hstep. destruct (whole_row n 0 _ step HL Hn (rows_start n) Hstep) as (t' & Heq & Ht'). exists t'. split; [|done]. rewrite <- Heq.
  destruct (rows_room n 0 _ (rows_start n) Hn) as (? & ? & _ & _ & _ & -> & _). rewrite bind_Ok, !index_lt, !bind_Ok by lia.
  rewrite mul_accum_zero_ok; [done|apply wf_total; [done|lia]|apply digits_zeros, B_pos|done|rewrite length_replicate; lia|].
  rewrite drop_0, take_replicate. by apply Forall_replicate.
Qed.
Lemma whole_rows n t step (body : list N -> nat -> outcome E (list N)) : (0 < L)%nat -> (2 * L + 1 <= n)%nat -> rows n 1 t ->
  (forall w, wf w -> length w = (L + 2)%nat -> step w = fp_generic.reduction_step (E:=E) w 0 modulo m_prime) ->
  (forall t i, body t i = (t ← store t (i + L + 1) 0; ai ← index a i; t ← mul_accum t i ai b; slice_mut t i (i + L + 2) step)) ->
  exists t', foldM body t (seq 1 (L - 1)) = Ok t' /\ rows n L t'.
Proof using All.
  intros HL Hn Ht Hstep Hbody. destruct (seq_loop (E:=E) (rows n) body (L - 1) 1 t) as (t' & Hf & Ht'); [|done|].
  - intros i t' Hi Hr. rewrite Hbody. apply whole_row; [lia|lia|done|done].
  - exists t'. split; [done|]. by replace (1 + (L - 1))%nat with L in Ht' by lia.
Qed.
End rows.
End reduction.

(** *** The steps special to P-256

    The modulus is [2^256 - 2^224 + 2^192 + 2^96 - 1]; its low limb is the
    largest one, so the multiple to add is the low limb itself. *)
Definition P256 : N := 0xffffffff00000001000000000000000000000000ffffffffffffffffffffffff.
Section p256_steps.
Lemma eqm_sub_add m x y d z c e : x + y = z + m * c -> e = (x + d) mod m -> forall f, d = f + y -> e = (z + f) mod m.
Proof.
  intros Hx -> f ->. replace (x + (f + y)) with (z + f + c * m) by lia. apply N.Div0.mod_add.
Qed.
Section width_64.
#[local] Existing Instance width_64.
#[local] Existing Instance width_64_laws.
Context {E : Type}.
Lemma p256_64_step w modulo : digits B w -> length w = 6%nat -> digits B modulo -> length modulo = 4%nat -> digits_value B modulo = P256 ->
  p256_64.p256_reduction_step (E:=E) w = fp_generic.reduction_step w 0 modulo 1.
Proof.
  intros Hw Hlen Hm Hlm Hv. destruct w as [|r w]; [done|]. apply Forall_cons in Hw as Hr. destruct Hr as [Hr _]. change (r < 2 ^ 64) in Hr.
  unfold p256_64.p256_reduction_step, fp_generic.reduction_step. cbn [index lookup list_lookup]. rewrite !bind_Ok.
  set (lo := shl r 32). set (hi := N.shiftr r 32).
  assert (lo < 2 ^ 64) as Hlo by (apply N.mod_lt; done). assert (hi < 2 ^ 64) as Hhi by (unfold hi; rewrite N.shiftr_div_pow2; apply N.Div0.div_lt_upper_bound; lia).
  assert (lo + 2 ^ 64 * hi = r * 2 ^ 32) as Hsplit.
  { unfold lo, hi, shl. change B with (2 ^ 64). rewrite N.shiftl_mul_pow2, N.shiftr_div_pow2. change (2 ^ 64) with (2 ^ 32 * 2 ^ 32) at 1. rewrite N.Div0.mul_mod_distr_r.
    pose proof (N.div_mod r (2 ^ 32) ltac:(done)). lia. }
  destruct (sub_limb_ok (E:=E) (r :: w) [r; 0; 0; lo; hi; 0]) as (w1 & c & -> & Hl1 & Hw1 & Hv1); [done|done|by repeat constructor|]. rewrite bind_Ok. cbn beta iota.
  destruct (accum_ok (E:=E) w1 1 [lo; hi; r; r]) as (w2 & -> & Hl2 & Hw2 & Hv2); [done|by repeat constructor|cbn [length] in *; lia|].
  replace (wrapping_mul r 1) with r by (unfold wrapping_mul; rewrite N.mul_1_r; symmetry; by apply N.mod_small).
  destruct (mul_accum_ok (E:=E) (r :: w) 0 r modulo) as (w3 & -> & Hl3 & Hw3 & Hv3); [done|done|done|cbn [length] in *; lia|].
  f_equal. apply value_inj; [lia|done|done|]. rewrite Hv3, Hv, N.pow_0_r, N.mul_1_l.
  rewrite Hl1 in Hv1, Hv2. rewrite Hlen in *. change B with (2 ^ 64) in *. refine (eqm_sub_add _ _ _ _ _ _ _ Hv1 Hv2 _ _). cbn [digits_value]. unfold P256.
  change ((2 ^ 64) ^ N.of_nat 1) with (2 ^ 64). 
  replace lo with (r * 2 ^ 32 - 2 ^ 64 * hi) by lia. lia.
Qed.
End width_64.
Section width_32.
#[local] Existing Instance width_32.
#[local] Existing Instance width_32_laws.
Context {E : Type}.
Lemma p256_32_step w modulo : digits B w -> length w = 10%nat -> digits B modulo -> length modulo = 8%nat -> digits_value B modulo = P256 ->
  p256_32.p256_reduction_step (E:=E) w = fp_generic.reduction_step w 0 modulo 1.
Proof.
  intros Hw Hlen Hm Hlm Hv. destruct w as [|r w]; [done|]. apply Forall_cons in Hw as Hr. destruct Hr as [Hr _]. change (r < 2 ^ 32) in Hr.
  unfold p256_32.p256_reduction_step, fp_generic.reduction_step. cbn [index lookup list_lookup]. rewrite !bind_Ok.
  destruct (sub_limb_ok (E:=E) (r :: w) [r; 0; 0; 0; 0; 0; 0; r; 0; 0]) as (w1 & c & -> & Hl1 & Hw1 & Hv1); [done|done|by repeat constructor|]. rewrite bind_Ok. cbn beta iota.
  destruct (accum_ok (E:=E) w1 3 [r; 0; 0; r; 0; r]) as (w2 & -> & Hl2 & Hw2 & Hv2); [done|by repeat constructor|cbn [length] in *; lia|].
  replace (wrapping_mul r 1) with r by (unfold wrapping_mul; rewrite N.mul_1_r; symmetry; by apply N.mod_small).
  destruct (mul_accum_ok (E:=E) (r :: w) 0 r modulo) as (w3 & -> & Hl3 & Hw3 & Hv3); [done|done|done|cbn [length] in *; lia|].
  f_equal. apply value_inj; [lia|done|done|]. rewrite Hv3, Hv, N.pow_0_r, N.mul_1_l.
  rewrite Hl1 in Hv1, Hv2. rewrite Hlen in *. change B with (2 ^ 32) in *. refine (eqm_sub_add _ _ _ _ _ _ _ Hv1 Hv2 _ _). cbn [digits_value]. unfold P256.
  change ((2 ^ 32) ^ N.of_nat 3) with (2 ^ 96). lia.
Qed.
End width_32.
End p256_steps.

(** *** What a strategy promises *)
Class MontgomeryStrategyLaws `{LimbWidth} (L : nat) (M : N) `{MontgomeryStrategy} : Prop := montgomery_mul_ok :
  forall (E : Type) modulo negm m_prime a b, modulus_ok L M modulo negm m_prime ->
    digits B a -> length a = L -> digits B b -> length b = L -> digits_value B b < M ->
    exists r, montgomery_mul (E:=E) a b modulo negm m_prime = Ok r
      /\ length r = L /\ digits B r /\ digits_value B r < M
      /\ eqm M (digits_value B r * B ^ N.of_nat L) (digits_value B a * digits_value B b).
Lemma generic_strategy_laws `{LimbWidthLaws} L M : (0 < L <= 16)%nat -> @MontgomeryStrategyLaws _ L M (GenericStrategy L).
Proof. intros HL E modulo negm m_prime a b Hmod Ha Hla Hb Hlb Hvb. by apply generic_mul_ok. Qed.

(** The multiplier of a modulus that ends in ones is one. *)
Lemma p256_m_prime `{LimbWidthLaws} L modulo negm m_prime : modulus_ok L P256 modulo negm m_prime -> 1 < LIMB_BITS -> P256 mod B = B - 1 -> m_prime = 1.
Proof.
  intros Hmod Hbits HP. pose proof (mo_prime _ _ _ _ _ Hmod) as Hp. pose proof (mo_prime_lt _ _ _ _ _ Hmod) as Hlt. pose proof B_gt_1 as HB.
  rewrite <- N.Div0.add_mod_idemp_l, <- N.Div0.mul_mod_idemp_l, HP, N.Div0.add_mod_idemp_l in Hp.
  destruct (N.eq_dec m_prime 0) as [->|Hnz]; [rewrite N.mul_0_r, N.add_0_l, N.mod_small in Hp by lia; lia|].
  replace ((B - 1) * m_prime + 1) with ((B - m_prime + 1) + (m_prime - 1) * B) in Hp by nia. rewrite N.Div0.mod_add in Hp.
  destruct (N.eq_dec m_prime 1) as [|Hne]; [done|]. rewrite N.mod_small in Hp by lia. lia.
Qed.
Lemma p256_strategy_64_laws : @MontgomeryStrategyLaws width_64 4 P256 P256Strategy_64.
Proof.
  pose proof width_64_laws as HW. intros E modulo negm m_prime a b Hmod Ha Hla Hb Hlb Hvb.
  assert (m_prime = 1) as -> by (apply (p256_m_prime 4 modulo negm m_prime Hmod); done).
  set (step := p256_64.p256_reduction_step (E:=E)).
  assert (forall w, digits (2 ^ @LIMB_BITS width_64) w -> length w = (4 + 2)%nat -> step w = @fp_generic.reduction_step width_64 E w 0 modulo 1) as Hstep
    by (intros w Hw Hlw; apply p256_64_step; [done|done|apply Hmod..]).
  destruct (whole_first (E:=E) 4 P256 modulo negm 1 Hmod a b Ha Hla Hb Hlb Hvb 9 step ltac:(lia) ltac:(lia) Hstep) as (t1 & Hfirst & Ht1).
  destruct (whole_rows (E:=E) 4 P256 modulo negm 1 Hmod a b Ha Hla Hb Hlb Hvb 9 t1 step (fun t i =>
    t ← store t (i + 5) 0; ai ← index a i; t ← @mul_accum width_64 E t i ai b; slice_mut t i (i + 6) step)) as (t2 & Hrows & Ht2);
    [lia|lia|done|done|intros t i; by rewrite <- !Nat.add_assoc|].
  destruct (rows_finish (E:=E) 4 P256 modulo negm 1 Hmod a b Ha Hla Hb Hlb Hvb 9 t2 Ht2 ltac:(lia)) as (r & Hfinish & Hr).
  exists r. split; [|done]. unfold montgomery_mul, P256Strategy_64, p256_64.montgomery_mul. fold step.
  apply bind_Ok_inv in Hfirst as (a0 & -> & Hfirst). apply bind_Ok_inv in Hfirst as (t0 & Ht0 & Hfirst).
  rewrite bind_Ok, Ht0, bind_Ok. change (4 + 2)%nat with 6%nat in Hfirst. rewrite Hfirst, bind_Ok. change [1; 2; 3]%nat with (seq 1 (4 - 1)). rewrite Hrows, bind_Ok. exact Hfinish.
Qed.
Lemma p256_strategy_32_laws : @MontgomeryStrategyLaws width_32 8 P256 P256Strategy_32.
Proof.
  pose proof width_32_laws as HW. intros E modulo negm m_prime a b Hmod Ha Hla Hb Hlb Hvb.
  assert (m_prime = 1) as -> by (apply (p256_m_prime 8 modulo negm m_prime Hmod); done).
  set (step := p256_32.p256_reduction_step (E:=E)).
  assert (forall w, digits (2 ^ @LIMB_BITS width_32) w -> length w = (8 + 2)%nat -> step w = @fp_generic.reduction_step width_32 E w 0 modulo 1) as Hstep
    by (intros w Hw Hlw; apply p256_32_step; [done|done|apply Hmod..]).
  destruct (whole_first (E:=E) 8 P256 modulo negm 1 Hmod a b Ha Hla Hb Hlb Hvb 17 step ltac:(lia) ltac:(lia) Hstep) as (t1 & Hfirst & Ht1).
  destruct (whole_rows (E:=E) 8 P256 modulo negm 1 Hmod a b Ha Hla Hb Hlb Hvb 17 t1 step (fun t i =>
    t ← store t (i + 9) 0; ai ← index a i; t ← @mul_accum width_32 E t i ai b; slice_mut t i (i + 10) step)) as (t2 & Hrows & Ht2);
    [lia|lia|done|done|intros t i; by rewrite <- !Nat.add_assoc|].
  destruct (rows_finish (E:=E) 8 P256 modulo negm 1 Hmod a b Ha Hla Hb Hlb Hvb 17 t2 Ht2 ltac:(lia)) as (r & Hfinish & Hr).
  exists r. split; [|done]. unfold montgomery_mul, P256Strategy_32, p256_32.montgomery_mul. fold step.
  apply bind_Ok_inv in Hfirst as (a0 & -> & Hfirst). apply bind_Ok_inv in Hfirst as (t0 & Ht0 & Hfirst).
  rewrite bind_Ok, Ht0, bind_Ok. change (8 + 2)%nat with 10%nat in Hfirst. rewrite Hfirst, bind_Ok. change [1; 2; 3; 4; 5; 6; 7]%nat with (seq 1 (8 - 1)). rewrite Hrows, bind_Ok. exact Hfinish.
Qed.
