(* ===== verification/MontgomeryField.v ===== *)
(** * The fields of [fp_generic.rs] are the integers modulo a prime

    [represents e x]: the array [e] stands for the number [x].  Every
    operation of the field computes, on representations, the operation of the
    integers modulo the prime; encodings are canonical, inversion terminates. *)
From stdpp Require Import prelude strings.
From Stdlib Require Import Lia NArith ZArith Znumtheory ZifyNat ZifyN.
From S2P Require Import Prelude Words Transcript Limb Montgomery MontgomeryFacts.
Local Open Scope N_scope.

(** ** Natural numbers of words *)
Section nat.
Context {E : Type} (W : nat).
Lemma nat_from_bytes_ok bytes : length bytes = (W * 8)%nat ->
  exists n, runtime_nat.from_bytes_le (E:=E) W bytes = Ok n /\ length n = W /\ digits (2 ^ 64) n /\ digits_value (2 ^ 64) n = from_le_bytes bytes.
Proof.
  intros Hl. destruct (chunks_value 8 W bytes Hl) as [Hd Hv]. eexists. split; [|split; [|split; [exact Hd|exact Hv]]]; [|by rewrite length_map, length_seq].
  unfold runtime_nat.from_bytes_le. rewrite (proj2 (Nat.eqb_eq _ _) Hl). cbn [rust_assert]. rewrite bind_Ok. apply fill_loop. intros s i Hi Hs.
  rewrite slice_Ok, bind_Ok by lia. do 3 f_equal. lia.
Qed.
End nat.

Lemma unit_limbs_ok `{LimbWidthLaws} {E} L x : (0 < L)%nat -> x < B ->
  exists o, store (E:=E) (replicate L 0) 0 x = Ok o /\ length o = L /\ digits B o /\ digits_value B o = x.
Proof.
  intros HL Hx. rewrite store_Ok by (rewrite length_replicate; lia). eexists. split; [done|].
  rewrite length_insert, length_replicate. split; [done|]. destruct L as [|L']; [lia|]. cbn [replicate insert list_insert digits_value].
  split; [constructor; [done|apply digits_zeros, B_pos]|]. rewrite digits_replicate_0. lia.
Qed.
Lemma odd_mod_B `{LimbWidthLaws} n : N.odd (n mod B) = N.odd n.
Proof.
  rewrite <- !N.bit0_odd, N.mod_pow2_bits_low; [done|]. pose proof limb_bits. lia.
Qed.

Section field.
Context `{LimbWidthLaws} (W L ACCUM_L : nat) (M : N) `{MS : MontgomeryStrategy} `{SL : !MontgomeryStrategyLaws L M}.
#[local] Abbreviation value := (digits_value B).
#[local] Abbreviation wf := (digits B).
#[local] Abbreviation R := (B ^ N.of_nat L).

Definition valid (e : list N) : Prop := length e = L /\ wf e /\ value e < M.
Definition represents (e : list N) (x : N) : Prop := valid e /\ eqm M (value e) (x * R).

Record field_ok (f : FpGenericField) : Prop := {
  fo_modulus : modulus_ok L M (f_modulo f) (neg_modulo f) (m_prime f);
  fo_r2 : represents (r2 f) R;
  fo_r : represents (r f) 1;
  fo_scale : valid (accum_scale f) /\ eqm M (value (accum_scale f)) (B ^ N.of_nat ACCUM_L);
  fo_half : length (raw_half f) = L /\ wf (raw_half f) /\ 2 * value (raw_half f) = M + 1
}.
Context (f : FpGenericField) (Hf : field_ok f).
Context (HW : (0 < W)%nat) (HL : L = (W * LIMBS_PER_U64)%nat) (HA : (2 * L + 1 <= ACCUM_L)%nat) (HA64 : (ACCUM_L + L < 64)%nat).

Lemma L_pos : (0 < L)%nat.
Proof using All. pose proof limb_bits as (_ & _ & Hl). rewrite HL. by apply Nat.mul_pos_pos. Qed.
Lemma M_gt_1 : 1 < M.
Proof using All. exact (mo_gt_1 _ _ _ _ _ (fo_modulus f Hf)). Qed.
Lemma R_coprime k : Z.coprime (Z.of_N M) (Z.of_N (B ^ k)).
Proof using All. rewrite <- N.pow_mul_r. apply odd_coprime_pow2. exact (mo_odd _ _ _ _ _ (fo_modulus f Hf)). Qed.
Lemma cancel_R x y : eqm M (x * R) (y * R) -> eqm M x y.
Proof using All. apply eqm_cancel, R_coprime. Qed.
Lemma represents_valid e x : represents e x -> valid e.
Proof using All. by intros []. Qed.
Lemma represents_eqm e x y : represents e x -> eqm M x y -> represents e y.
Proof using All. intros [Hv Hx] Hxy. split; [done|]. by rewrite <- Hxy. Qed.
Lemma represents_unique e x y : represents e x -> represents e y -> eqm M x y.
Proof using All. intros [_ Hx] [_ Hy]. apply cancel_R. by rewrite <- Hx, <- Hy. Qed.
Lemma represents_inj e e' x : represents e x -> represents e' x -> e = e'.
Proof using All.
  intros [(Hl & Hw & Hv) Hx] [(Hl' & Hw' & Hv') Hx']. apply value_inj; [lia|done|done|]. apply (eqm_small M); [|done|done]. by rewrite Hx, Hx'.
Qed.

Section ops.
Context {E : Type}.
Lemma mont_ok a b x y : length a = L -> wf a -> valid b -> eqm M (value a) x -> eqm M (value b) (y * R) ->
  exists r, montgomery_mul (E:=E) a b (f_modulo f) (neg_modulo f) (m_prime f) = Ok r /\ valid r /\ eqm M (value r) (x * y).
Proof using All.
  intros Hla Hwa (Hlb & Hwb & Hvb) Hx Hy.
  destruct (montgomery_mul_ok E _ _ _ a b (fo_modulus f Hf) Hwa Hla Hwb Hlb Hvb) as (r & -> & Hlr & Hwr & Hvr & Heq).
  exists r. split; [done|]. split; [done|]. apply cancel_R. rewrite Heq, Hx, Hy. by rewrite N.mul_assoc.
Qed.
Lemma mul_ok a b x y : represents a x -> represents b y -> exists r, field.mul (E:=E) f a b = Ok r /\ represents r (x * y).
Proof using All.
  intros [(Hla & Hwa & _) Hx] [Hb Hy]. destruct (mont_ok a b _ _ Hla Hwa Hb Hx Hy) as (r & Hr & Hvr & Heq). exists r. split; [done|].
  split; [done|]. rewrite Heq. replace (x * R * y) with (x * y * R) by lia. done.
Qed.
(** Any array of [L] limbs stands for a number. *)
Lemma to_montgomery_ok s : length s = L -> wf s -> exists r, field.to_montgomery (E:=E) f s = Ok r /\ represents r (value s).
Proof using All.
  intros Hl Hw. destruct (fo_r2 f Hf) as [Hr2 Heq2]. destruct (mont_ok s (r2 f) (value s) R Hl Hw Hr2) as (r & Hr & Hvr & Heq); [done|done|].
  exists r. by split.
Qed.
Lemma unit_limbs x : x < B -> exists o, store (E:=E) (replicate L 0) 0 x = Ok o /\ length o = L /\ wf o /\ value o = x.
Proof using All. exact (unit_limbs_ok L x L_pos). Qed.
Lemma to_standard_ok e x : represents e x -> exists s, field.to_standard L (E:=E) f e = Ok s /\ length s = L /\ wf s /\ value s = x mod M.
Proof using All.
  intros [(Hl & Hw & _) Hx]. pose proof M_gt_1. unfold field.to_standard. destruct (unit_limbs 1 B_gt_1) as (o & -> & Hlo & Hwo & Hvo). rewrite bind_Ok.
  destruct (montgomery_mul_ok E _ _ _ e o (fo_modulus f Hf) Hw Hl Hwo Hlo) as (s & -> & Hls & Hws & Hvs & Heq); [lia|].
  exists s. do 3 (split; [done|]). apply (eqm_small M); [|done|apply N.mod_lt; lia]. rewrite eqm_mod. apply cancel_R. rewrite Heq, Hvo, N.mul_1_r. done.
Qed.

Lemma zero_represents : represents (field.zero L) 0.
Proof using All.
  unfold field.zero. split; [|by rewrite digits_replicate_0]. split; [by rewrite length_replicate|]. split; [apply digits_zeros, B_pos|].
  rewrite digits_replicate_0. pose proof M_gt_1. lia.
Qed.
Lemma is_zero_ok e x : represents e x -> field.is_zero L e = (x mod M =? 0).
Proof using All.
  intros He. pose proof M_gt_1. unfold field.is_zero. apply eq_bool_prop_intro. rewrite bool_decide_spec, Is_true_true, N.eqb_eq. split.
  - intros ->. pose proof (represents_unique _ _ _ zero_represents He) as Heq. unfold eqm in Heq. rewrite <- Heq. apply N.Div0.mod_0_l.
  - intros Hz. apply (represents_inj _ _ x He). apply (represents_eqm _ 0); [exact zero_represents|]. unfold eqm. by rewrite Hz, N.Div0.mod_0_l.
Qed.
Lemma add_ok a b x y : represents a x -> represents b y -> exists r, field.add (E:=E) f a b = Ok r /\ represents r (x + y).
Proof using All.
  intros [(Hla & Hwa & Hva) Hx] [(Hlb & Hwb & Hvb) Hy]. destruct (fo_modulus f Hf) as [Hml Hmw Hmv Hnl Hnw Hnv _ _ Hgt _].
  destruct (accum_modular_ok (E:=E) M (f_modulo f) (neg_modulo f)) with (a := a) (b := b) as (r & Hr & Hlr & Hwr & Hv & Hlt);
    [done|done|lia|done|by rewrite Hnv, Hml|lia|lia|lia|done..|].
  exists r. split; [done|]. split; [split; [lia|done]|]. rewrite Hv, eqm_mod, Hx, Hy. by rewrite N.mul_add_distr_r.
Qed.
Lemma sub_ok a b x y : represents a x -> represents b y -> exists r, field.sub (E:=E) f a b = Ok r /\ represents r (x + (M - y mod M)).
Proof using All.
  intros [(Hla & Hwa & Hva) Hx] [(Hlb & Hwb & Hvb) Hy]. destruct (fo_modulus f Hf) as [Hml Hmw Hmv Hnl Hnw Hnv _ _ Hgt _].
  destruct (sub_modular_ok (E:=E) M (f_modulo f) (neg_modulo f)) with (a := a) (b := b) as (r & Hr & Hlr & Hwr & Hv & Hlt);
    [done|done|lia|done|by rewrite Hnv, Hml|lia|lia|lia|done..|].
  exists r. split; [done|]. split; [split; [lia|done]|]. rewrite Hv, eqm_mod, Hx, N.mul_add_distr_r. 
  enough (eqm M (M - value b) ((M - y mod M) * R)) as -> by done. pose proof (N.mod_lt y M ltac:(lia)) as Hym. pose proof (N.div_mod y M ltac:(lia)) as Hyd.
  apply eqm_divide. apply eqm_divide in Hy as [k Hk]. exists (1 - Z.of_N R - Z.of_N (y / M) * Z.of_N R - k)%Z. nia.
Qed.
Lemma neg_ok a x : represents a x -> exists r, field.neg L (E:=E) f a = Ok r /\ represents r (M - x mod M).
Proof using All. intros Ha. exact (sub_ok _ _ _ _ zero_represents Ha). Qed.
Lemma fma_ok e a b x y z : represents e z -> represents a x -> represents b y -> exists r, field.fma (E:=E) f e a b = Ok r /\ represents r (z + x * y).
Proof using All.
  intros He Ha Hb. unfold field.fma. destruct (mul_ok a b x y Ha Hb) as (p & -> & Hp). rewrite bind_Ok. by apply add_ok.
Qed.
Lemma fnms_ok e a b x y z : represents e z -> represents a x -> represents b y ->
  exists r, field.fnms (E:=E) f e a b = Ok r /\ represents r (z + (M - (x * y) mod M)).
Proof using All.
  intros He Ha Hb. unfold field.fnms. destruct (mul_ok a b x y Ha Hb) as (p & -> & Hp). rewrite bind_Ok. by apply sub_ok.
Qed.
Lemma of_scalar_ok n : n < 2 ^ 64 -> exists r, field.of_scalar L (E:=E) f n = Ok r /\ represents r n.
Proof using All.
  intros Hn. unfold field.of_scalar. destruct (u64_to_limbs_ok n Hn) as (Hl & Hw & Hv). pose proof limb_bits as (_ & _ & HLp).
  assert (LIMBS_PER_U64 <= L)%nat as Hle by (rewrite HL; nia). set (ls := u64_to_limbs n) in *.
  destruct (seq_loop (E:=E) (fun i s => s = take i ls ++ replicate (L - i) 0) (fun s i => if (i <? L)%nat then ni ← index ls i; store s i ni else mret s)
    LIMBS_PER_U64 0 (replicate L 0)) as (s & -> & Hs); [|by rewrite Nat.sub_0_r|].
  - intros i s Hi ->. rewrite (proj2 (Nat.ltb_lt _ _)) by lia. destruct (lookup_lt_is_Some_2 ls i ltac:(lia)) as [x Hx].
    rewrite (proj2 (index_Ok ls i x) Hx), bind_Ok. rewrite store_Ok by (rewrite length_app, length_take, length_replicate; lia). eexists. split; [done|].
    replace (L - i)%nat with (S (L - (i + 1))) by lia. cbn [replicate]. rewrite insert_middle by (rewrite length_take; lia).
    rewrite Nat.add_1_r. by rewrite (take_S_r _ _ _ Hx), <- app_assoc.
  - rewrite bind_Ok. cbn [Nat.add] in Hs. rewrite take_ge in Hs by lia. rewrite <- Hv. replace (value ls) with (value s) by (rewrite Hs, digits_app, digits_replicate_0; lia).
    apply to_montgomery_ok; [rewrite Hs, length_app, length_replicate; lia|]. rewrite Hs. apply Forall_app_2; [done|apply digits_zeros, B_pos].
Qed.
Lemma byhalf_ok a x : represents a x -> exists r y, field.byhalf (E:=E) f a = Ok r /\ represents r y /\ eqm M (2 * y) x.
Proof using All.
  intros [(Hl & Hw & Hv) Hx]. pose proof L_pos as HLp. unfold field.byhalf. rewrite low_limb, bind_Ok, low_bit by (first [done|lia]).
  destruct (shr_1_ok (E:=E) a Hw) as (h & -> & Hlh & Hwh & Hvh). rewrite bind_Ok. pose proof (N.div_mod (value a) 2 ltac:(done)) as Hd.
  destruct (fo_half f Hf) as (Hlr & Hwr & Hvr). destruct (fo_modulus f Hf) as [Hml Hmw Hmv Hnl Hnw Hnv _ _ Hgt _].
  assert (forall e, valid e -> exists y, represents e y) as Hrep.
  { intros e He.
    destruct (unit_limbs 1 B_gt_1) as (o & _ & Hlo & Hwo & Hvo).
    destruct (montgomery_mul_ok E _ _ _ e o (fo_modulus f Hf)) as (t & _ & _ & _ & _ & Heq); [apply He|apply He|done|done|lia|].
    exists (value t). split; [done|]. by rewrite Heq, Hvo, N.mul_1_r. }
  enough (exists r, (if negb (value a mod 2 =? 0) then strategy.add (E:=E) h (raw_half f) (neg_modulo f) else mret h) = Ok r /\ valid r /\ eqm M (2 * value r) (value a)) as (r & Hr & Hvalid & Heq).
  { destruct (Hrep r Hvalid) as [y Hy]. exists r, y. split; [done|]. split; [done|]. apply cancel_R. rewrite <- Hx, <- Heq. destruct Hy as [_ Hy]. rewrite Hy.
    by rewrite N.mul_assoc. }
  destruct (N.eqb_spec (value a mod 2) 0) as [Hz|Hnz]; cbn [negb].
  - exists h. split; [done|]. split; [split; [lia|split; [done|lia]]|]. rewrite Hvh. replace (2 * (value a / 2)) with (value a) by lia. done.
  - destruct (accum_modular_ok (E:=E) M (f_modulo f) (neg_modulo f)) with (a := h) (b := raw_half f) as (r & Hr & Hlr' & Hwr' & Hv' & Hlt);
      [done|done|lia|done|by rewrite Hnv, Hml|lia|lia|lia|done|done|lia|lia|].
    exists r. split; [done|]. split; [split; [lia|done]|]. rewrite Hv', eqm_mod, Hvh. pose proof (N.mod_lt (value a) 2 ltac:(done)).
    replace (2 * (value a / 2 + value (raw_half f))) with (value a + 1 * M) by lia. apply eqm_modulus.
Qed.

(** *** Accumulators *)
Lemma mac_ok acc x y : length acc = ACCUM_L -> wf acc -> length x = L -> wf x -> length y = L -> wf y ->
  exists r, field.mac L (E:=E) acc x y = Ok r /\ length r = ACCUM_L /\ wf r /\ value r = (value acc + value x * value y) mod B ^ N.of_nat ACCUM_L.
Proof using All.
  intros Hla Hwa Hlx Hwx Hly Hwy. unfold field.mac.
  destruct (seq_loop (E:=E) (fun i r => length r = ACCUM_L /\ wf r /\ value r = (value acc + value (take i x) * value y) mod B ^ N.of_nat ACCUM_L)
    (fun acc i => xi ← index x i; mul_accum acc i xi y) L 0 acc) as (r & Hr & Hl & Hw & Hv).
  - intros i r Hi (Hl & Hw & Hv). destruct (lookup_lt_is_Some_2 x i ltac:(lia)) as [xi Hxi]. rewrite (proj2 (index_Ok x i xi) Hxi), bind_Ok.
    assert (xi < B) as Hxb by (unfold digits in Hwx; rewrite Forall_lookup in Hwx; by apply (Hwx i)).
    destruct (mul_accum_ok (E:=E) r i xi y) as (r' & -> & Hl' & Hw' & Hv'); [done..|lia|]. exists r'. split; [done|]. split; [lia|]. split; [done|].
    rewrite Hv', Hv, Hl, N.Div0.add_mod_idemp_l, Nat.add_1_r, (take_S_r _ _ _ Hxi), digits_app, length_take, Nat.min_l by lia. cbn [digits_value]. f_equal. lia.
  - split; [done|]. split; [done|]. rewrite take_0. cbn [digits_value]. rewrite N.mul_0_l, N.add_0_r, <- Hla. symmetry. apply N.mod_small. by apply value_lt.
  - exists r. split; [done|]. cbn [Nat.add] in Hv. rewrite take_ge in Hv by lia. done.
Qed.
Lemma accum_reduce_ok acc x : length acc = ACCUM_L -> wf acc -> eqm M (value acc) (x * R * R) ->
  exists r, field.accum_reduce L ACCUM_L f (E:=E) acc = Ok r /\ represents r x.
Proof using All.
  intros Hla Hwa Hx. unfold field.accum_reduce. rewrite !(proj2 (Nat.ltb_lt _ _)) by lia. cbn [rust_assert]. rewrite !bind_Ok.
  pose proof M_gt_1 as HM. pose proof B_gt_1 as HB. pose proof (M_lt_R L M _ _ _ (fo_modulus f Hf)) as HMR.
  assert (B ^ N.of_nat (L + 2) = B * (B * R)) as HL2 by (rewrite Nat2N.inj_add, N.pow_add_r; change (N.of_nat 2) with 2; rewrite (N.pow_succ_r' B 1), N.pow_1_r; lia).
  set (inv := fun i t => wf t /\ length t = 64%nat /\ exists T k, tail t i T /\ T <= M /\ T * B ^ N.of_nat i = value (take i acc) + k * M).
  destruct (seq_loop (E:=E) inv (fun a i => acci ← index acc i;
    fp_generic.window L a i (fun w => accum w 0 [acci]) (f_modulo f) (m_prime f)) ACCUM_L 0 (replicate 64 0)) as (t & -> & Ht).
  - intros i t Hi (Hwt & Hlt & T & k & Htail & HT & Heq). destruct (lookup_lt_is_Some_2 acc i ltac:(lia)) as [ai Hai]. rewrite (proj2 (index_Ok acc i ai) Hai), bind_Ok.
    assert (ai < B) as Hab by (unfold digits in Hwa; rewrite Forall_lookup in Hwa; by apply (Hwa i)).
    assert (T + ai + (B - 1) * M < B ^ N.of_nat (L + 2)) as Hroom.
    { rewrite HL2. assert (T + ai + (B - 1) * M < B * (M + 1)) by nia. assert (B * (M + 1) <= B * (B * R)) by (apply N.mul_le_mono_l; nia). lia. }
    destruct (window_ok (E:=E) L M _ _ _ (fo_modulus f Hf) t i T ai (fun w => accum w 0 [ai]) Htail) as (t' & q & T' & Hw & Hl' & Hq & HT' & Ht'); [lia|done| |].
    + intros w Hww Hlw Hvw _. destruct (accum_ok (E:=E) w 0 [ai]) as (w' & Hw' & Hlw' & Hww' & Hvw'); [done|by constructor|cbn; lia|].
      exists w'. split; [done|]. split; [done|]. split; [done|]. rewrite Hvw', Hvw, Hlw, N.pow_0_r, N.mul_1_l. cbn [digits_value]. rewrite N.mul_0_r, N.add_0_r.
      apply N.mod_small. eapply N.le_lt_trans; [|exact Hroom]. apply N.le_add_r.
    + exists t'. split; [done|]. split; [apply Ht'|]. split; [lia|]. exists T', (k + B ^ N.of_nat i * q). rewrite Nat.add_1_r. split; [done|]. split.
      * assert (q * M <= (B - 1) * M) by (apply N.mul_le_mono_r; lia). nia.
      * rewrite (take_S_r _ _ _ Hai), digits_app, length_take, Nat.min_l, Nat2N.inj_succ, N.pow_succ_r' by lia. cbn [digits_value].
        replace (T' * (B * B ^ N.of_nat i)) with ((B * T') * B ^ N.of_nat i) by lia. rewrite HT'. lia.
  - split; [apply digits_zeros, B_pos|]. split; [done|]. exists 0, 0. split; [split; [apply digits_zeros, B_pos|apply digits_replicate_0]|]. split; [lia|]. by rewrite take_0.
  - rewrite bind_Ok. cbn [Nat.add] in Ht. destruct Ht as (Hwt & Hlt & T & k & Htail & HT & Heq). rewrite take_ge in Heq by lia.
    destruct (finish_ok (E:=E) L M _ _ _ (fo_modulus f Hf) t ACCUM_L T Htail) as (res & Hres & Hlr & Hwr & Hv & Hvr); [lia|lia|].
    apply bind_Ok_inv in Hres as (res0 & -> & Hres). apply bind_Ok_inv in Hres as (top & -> & Hres). rewrite !bind_Ok, Hres, bind_Ok.
    destruct (fo_scale f Hf) as [(Hls & Hws & Hvs) Hscale].
    destruct (montgomery_mul_ok E _ _ _ res (accum_scale f) (fo_modulus f Hf) Hwr Hlr Hws Hls Hvs) as (r & Hr & Hlr' & Hwr' & Hvr' & Heqr).
    exists r. split; [exact Hr|]. split; [done|]. apply cancel_R. rewrite Heqr, Hv, eqm_mod, Hscale, Heq, eqm_modulus. exact Hx.
Qed.

(** *** Natural numbers and words *)
Lemma words_ok (words : list N) : digits (2 ^ 64) words -> length words = W ->
  exists limbs, words64_to_limbs (E:=E) L words = Ok limbs /\ length limbs = L /\ wf limbs /\ value limbs = digits_value (2 ^ 64) words.
Proof using All.
  intros Hw Hl. destruct (words64_to_limbs_ok (E:=E) words Hw) as (limbs & Hlimbs & Hll & Hwl & Hvl). rewrite Hl, <- HL in *. by exists limbs.
Qed.
Lemma to_words64_ok e x : represents e x ->
  exists words, field.to_words64 W L (E:=E) f e = Ok words /\ length words = W /\ digits (2 ^ 64) words /\ digits_value (2 ^ 64) words = x mod M.
Proof using All.
  intros He. unfold field.to_words64. destruct (to_standard_ok e x He) as (s & -> & Hls & Hws & Hvs). rewrite bind_Ok.
  destruct (limbs_to_words64_ok (E:=E) W s ltac:(lia) Hws) as (words & Hw & Hlw & Hdw & Hvw). exists words. by rewrite Hvw, Hvs.
Qed.
Lemma lt_modulus_ok s : length s = L -> wf s -> lt (E:=E) s (f_modulo f) = Ok (value s <? M).
Proof using All.
  intros Hl Hw. destruct (fo_modulus f Hf) as [Hml Hmw Hmv _ _ _ _ _ _ _]. rewrite limbs_lt_ok by (first [lia|done]). by rewrite Hmv.
Qed.
(** Numbers of [W] words above the modulus are reduced. *)
Lemma reduce_nat_ok (words : list N) : digits (2 ^ 64) words -> length words = W ->
  exists r, field.reduce_nat L ACCUM_L f (E:=E) words = Ok r /\ represents r (digits_value (2 ^ 64) words).
Proof using All.
  intros Hw Hl. unfold field.reduce_nat, runtime_nat.limbs. destruct (words_ok words Hw Hl) as (s & -> & Hls & Hws & Hvs). rewrite bind_Ok, lt_modulus_ok, bind_Ok by done.
  rewrite <- Hvs. destruct (N.ltb_spec (value s) M) as [Hlt|Hge]; [by apply to_montgomery_ok|].
  destruct (fo_r2 f Hf) as [(Hl2 & Hw2 & Hv2) Hr2].
  destruct (mac_ok (field.zero_accum ACCUM_L) s (r2 f)) as (acc & -> & Hla & Hwa & Hva); [by apply length_replicate|apply digits_zeros, B_pos|done..|].
  rewrite bind_Ok. apply accum_reduce_ok; [done|done|]. rewrite Hva. unfold field.zero_accum. rewrite digits_replicate_0, N.add_0_l.
  rewrite N.mod_small; [rewrite Hr2; by rewrite N.mul_assoc|]. apply N.lt_le_trans with (R * R).
  - pose proof (value_lt s Hws) as Hs. pose proof (value_lt (r2 f) Hw2) as Hs2. rewrite Hls in Hs. rewrite Hl2 in Hs2. nia.
  - rewrite <- N.pow_add_r. apply N.pow_le_mono_r; [pose proof B_pos; lia|lia].
Qed.
Lemma lookup_point_ok n i : (1 <= n)%nat -> N.of_nat n <= 2 ^ 64 -> 2 * N.of_nat i < 2 ^ 64 ->
  exists r, field.lookup_point L f (E:=E) n i = Ok r /\ represents r (2 * N.of_nat i + (M - (N.of_nat n - 1) mod M)).
Proof using All.
  intros Hn Hn64 Hi. unfold field.lookup_point, field.u64_to_element. destruct (of_scalar_ok (2 * N.of_nat i) Hi) as (a & -> & Ha).
  rewrite bind_Ok, (proj2 (Nat.leb_le _ _)) by done. cbn [rust_assert]. rewrite bind_Ok. destruct (of_scalar_ok (N.of_nat n - 1) ltac:(lia)) as (b & -> & Hb).
  rewrite bind_Ok. by apply sub_ok.
Qed.

(** *** Bytes *)
#[local] Abbreviation limb_bytes := (N.to_nat (LIMB_BITS / 8)).
Lemma limb_bytes_ok : 256 ^ N.of_nat limb_bytes = B /\ (LIMBS_PER_U64 * limb_bytes = 8)%nat /\ (0 < limb_bytes)%nat.
Proof using All.
  pose proof limbs_per_word as Hw. pose proof whole_bytes as Hb. pose proof (N.div_mod LIMB_BITS 8 ltac:(done)) as Hd. pose proof limb_bits as (Hb8 & _ & _). rewrite Hb, N.add_0_r in Hd.
  split; [|split; nia]. rewrite N2Nat.id. change 256 with (2 ^ 8). rewrite <- N.pow_mul_r. by rewrite <- Hd.
Qed.
Lemma bytes_of_limbs s : wf s -> concat (map (to_le_bytes limb_bytes) s) = to_le_bytes (length s * limb_bytes) (value s).
Proof using All.
  destruct limb_bytes_ok as (HB & _ & _). induction 1 as [|x s Hx Hs IH]; [done|]. cbn [map concat length digits_value]. rewrite IH.
  rewrite to_le_bytes_app by by rewrite HB. by rewrite HB.
Qed.
Lemma to_bytes_into_ok e x dst : represents e x -> length dst = (W * 8)%nat -> field.to_bytes_into W L f (E:=E) e dst = Ok (to_le_bytes (W * 8) (x mod M)).
Proof using All.
  intros He Hd. unfold field.to_bytes_into, field.serialized_size_bytes. rewrite (proj2 (Nat.eqb_eq _ _) Hd). cbn [rust_assert]. rewrite bind_Ok.
  destruct (to_standard_ok e x He) as (s & -> & Hls & Hws & Hvs). rewrite bind_Ok. rewrite <- Hvs. destruct limb_bytes_ok as (HB & Hper & Hlb).
  assert (length s * limb_bytes = W * 8)%nat as Hlen by (by rewrite Hls, HL, <- Nat.mul_assoc, Hper). rewrite <- Hlen, <- bytes_of_limbs by done. rewrite <- Hlen in Hd. clear Hvs Hws Hls Hlen He.
  rewrite Hd. remember (length s * limb_bytes)%nat as n eqn:Hn.
  set (body := fun (bytes : list u8) '(i, limb) => let le := to_le_bytes limb_bytes limb in let start := (i * limb_bytes)%nat in let stop := (start + limb_bytes)%nat in
    if (stop <=? n)%nat then slice_mut bytes start stop (fun d => clone_from_slice d le)
    else if (start <? n)%nat then slice_mut bytes start n (fun d => s ← slice le 0 (n - start); clone_from_slice d s) else mret bytes).
  enough (forall s k p d, length p = (k * limb_bytes)%nat -> length d = (length s * limb_bytes)%nat -> (length p + length d = n)%nat ->
    foldM (E:=E) body (p ++ d) (imap (fun i l => ((k + i)%nat, l)) s) = Ok (p ++ concat (map (to_le_bytes limb_bytes) s))) as Hgen.
  { specialize (Hgen s 0%nat [] dst eq_refl ltac:(lia) ltac:(cbn; lia)). exact Hgen. }
  clear -H0 Hlb. induction s as [|x s IH]; intros k p d Hp Hd Hn; [destruct d; [done|cbn in Hd; lia]|]. rewrite imap_cons. cbn [foldM length map concat] in *.
  assert (body (p ++ d) ((k + 0)%nat, x) = Ok ((p ++ to_le_bytes limb_bytes x) ++ drop limb_bytes d)) as ->.
  { unfold body. rewrite Nat.add_0_r, <- Hp. rewrite (proj2 (Nat.leb_le _ _)) by lia. rewrite <- (take_drop limb_bytes d) at 1.
    assert (length (take limb_bytes d) = limb_bytes) as Ht by (rewrite length_take; lia). rewrite <- Ht at 3.
    rewrite (slice_mut_at _ _ _ _ (to_le_bytes limb_bytes x)); [by rewrite <- app_assoc|]. apply clone_from_slice_Ok. by rewrite Ht, length_to_le_bytes. }
  rewrite bind_Ok. rewrite app_assoc. specialize (IH (k + 1)%nat (p ++ to_le_bytes limb_bytes x) (drop limb_bytes d)).
  rewrite length_app, length_drop, length_to_le_bytes in IH. rewrite <- IH by lia. f_equal. apply imap_ext. intros i y _. cbn. f_equal. lia.
Qed.
Lemma to_bytes_ok e x : represents e x -> field.to_bytes W L f (E:=E) e = Ok (to_le_bytes (W * 8) (x mod M)).
Proof using All. intros He. apply to_bytes_into_ok; [done|by apply length_replicate]. Qed.
Lemma bytes_to_limbs_ok bytes : length bytes = (W * 8)%nat ->
  exists s, field.bytes_to_limbs L (E:=E) bytes = Ok s /\ length s = L /\ wf s /\ value s = from_le_bytes bytes.
Proof using All.
  intros Hl. destruct limb_bytes_ok as (HB & Hper & Hlb). assert (length bytes = L * limb_bytes)%nat as Hlen by (by rewrite Hl, HL, <- Nat.mul_assoc, Hper).
  destruct (chunks_value limb_bytes L bytes Hlen) as [Hd Hv]. rewrite HB in Hd, Hv. eexists. split; [|split; [|split; [exact Hd|exact Hv]]]; [|by rewrite length_map, length_seq].
  unfold field.bytes_to_limbs. apply fill_loop. intros s i Hi Hs. assert (i * limb_bytes + limb_bytes <= L * limb_bytes)%nat by nia.
  rewrite (proj2 (Nat.leb_le _ _)) by lia. rewrite slice_Ok, bind_Ok by lia. do 3 f_equal. lia.
Qed.
End ops.

Lemma bytes_to_element_ok bytes :
  if (Nat.eqb (length bytes) (W * 8)) && (from_le_bytes bytes <? M) then
    exists r, field.bytes_to_element W L f bytes = Ok r /\ represents r (from_le_bytes bytes)
  else exists msg, field.bytes_to_element W L f bytes = Err msg.
Proof using All.
  unfold field.bytes_to_element, field.serialized_size_bytes. destruct (Nat.eqb_spec (length bytes) (W * 8)) as [Hl|]; cbn [andb negb reject_if]; [|by eexists].
  rewrite bind_Ok. destruct (bytes_to_limbs_ok (E:=string) bytes Hl) as (s & -> & Hls & Hws & Hvs). rewrite bind_Ok, lt_modulus_ok, bind_Ok, Hvs by done.
  destruct (from_le_bytes bytes <? M); cbn [negb reject_if]; [|by eexists]. rewrite bind_Ok, <- Hvs. by apply to_montgomery_ok.
Qed.
Lemma words64_to_element_ok words : digits (2 ^ 64) words -> length words = W ->
  if digits_value (2 ^ 64) words <? M then
    exists r, field.words64_to_element L f words = Ok r /\ represents r (digits_value (2 ^ 64) words)
  else exists msg, field.words64_to_element L f words = Err msg.
Proof using All.
  intros Hw Hl. unfold field.words64_to_element. destruct (words_ok (E:=string) words Hw Hl) as (s & -> & Hls & Hws & Hvs). rewrite bind_Ok, lt_modulus_ok, bind_Ok, Hvs by done.
  destruct (digits_value (2 ^ 64) words <? M); cbn [negb reject_if]; [|by eexists]. rewrite bind_Ok, <- Hvs. by apply to_montgomery_ok.
Qed.

(** ** Inversion *)
Definition coprime_to (a b : N) : Prop := forall d, (d | a) -> (d | b) -> d = 1.
Lemma eqm_add_cancel x y b : eqm M (x + b) (y + b) -> eqm M x y.
Proof using All. rewrite !eqm_divide. intros [k Hk]. exists k. lia. Qed.
Lemma eqm_halve x y : eqm M (2 * x) (2 * y) -> eqm M x y.
Proof using All.
  intros Heq. apply (eqm_cancel M (2 ^ 1)); [apply odd_coprime_pow2; exact (mo_odd _ _ _ _ _ (fo_modulus f Hf))|].
  change (2 ^ 1) with 2. by rewrite !(N.mul_comm _ 2).
Qed.
Lemma size_half n : n <> 0 -> N.size (n / 2) < N.size n.
Proof using. clear. destruct n as [|[p|p|]]; intros Hn; try done; rewrite <- N.div2_div; cbn; lia. Qed.
Lemma size_mono m n : m <= n -> N.size m <= N.size n.
Proof using.
  clear. intros Hmn. destruct (N.eq_dec m 0) as [->|Hm]; [apply N.le_0_l|]. rewrite !N.size_log2 by lia. apply -> N.succ_le_mono. by apply N.log2_le_mono.
Qed.
Lemma size_limbs s : wf s -> length s = L -> N.size (value s) <= LIMB_BITS * N.of_nat L.
Proof using All.
  intros Hw Hl. pose proof (value_lt s Hw) as Hlt. rewrite Hl, <- N.pow_mul_r in Hlt. destruct (N.eq_dec (value s) 0) as [->|Hz]; [apply N.le_0_l|].
  rewrite N.size_log2 by done. apply N.le_succ_l. by apply N.log2_lt_pow2; [lia|].
Qed.
Lemma is_zero_limbs s : length s = L -> wf s -> bool_decide (s = replicate L 0) = (value s =? 0).
Proof using All.
  intros Hl Hw. apply eq_bool_prop_intro. rewrite bool_decide_spec, Is_true_true, N.eqb_eq. split; [intros ->; apply digits_replicate_0|].
  intros Hz. apply value_inj; [by rewrite Hl, length_replicate|done|apply digits_zeros, B_pos|]. by rewrite digits_replicate_0.
Qed.

(** The state of the loop: both numbers are known multiples of [X]. *)
Record euclid (X : N) (a b u v : list N) (xu xv : N) : Prop := {
  eu_la : length a = L; eu_wa : wf a; eu_lb : length b = L; eu_wb : wf b;
  eu_u : represents u xu; eu_v : represents v xv;
  eu_a : eqm M (value a) (xu * X); eu_b : eqm M (value b) (xv * X);
  eu_coprime : coprime_to (value a) (value b); eu_odd : N.odd (value b) = true
}.
Definition inverts (X : N) (loop : list N -> list N -> list N -> list N -> outcome stuck (list N)) (fuel : nat) : Prop :=
  forall a b u v xu xv, euclid X a b u v xu xv -> N.size (value a) + N.size (value b) < N.of_nat fuel ->
  exists r y, loop a b u v = Ok r /\ represents r y /\ eqm M (y * X) 1.

Lemma even_turn X loop fuel a b u v xu xv : inverts X loop fuel -> euclid X a b u v xu xv -> value a <> 0 -> value a mod 2 = 0 ->
  N.size (value a) + N.size (value b) < N.of_nat (S fuel) ->
  exists r y, (a ← shr_1 a; u ← field.byhalf f u; loop a b u v) = Ok r /\ represents r y /\ eqm M (y * X) 1.
Proof using All.
  intros IH [Hla Hwa Hlb Hwb Hu Hv Ha Hb Hcop Hodd] Hnz Heven Hfuel. pose proof (N.div_mod (value a) 2 ltac:(done)).
  destruct (shr_1_ok (E:=stuck) a Hwa) as (h & -> & Hlh & Hwh & Hvh). rewrite bind_Ok. destruct (byhalf_ok (E:=stuck) u xu Hu) as (u' & yu & -> & Hu' & Hyu). rewrite bind_Ok.
  assert (value a = 2 * value h) as Hah by lia. apply (IH h b u' v yu xv); [split; try done; [lia| |]|].
  - apply eqm_halve. rewrite <- Hah, Ha, <- Hyu. by rewrite N.mul_assoc.
  - intros d Hd1 Hd2. apply Hcop; [|done]. rewrite Hah. by apply N.divide_mul_r.
  - rewrite Hvh. pose proof (size_half (value a) Hnz). lia.
Qed.
Lemma odd_turn X loop fuel a b u v xu xv : inverts X loop fuel -> euclid X a b u v xu xv -> value a <> 0 -> N.odd (value a) = true -> value b <= value a ->
  N.size (value a) + N.size (value b) < N.of_nat (S fuel) ->
  exists r y, ('(a, _) ← sub_limb a b; a ← shr_1 a; u ← field.sub f u v; u ← field.byhalf f u; loop a b u v) = Ok r /\ represents r y /\ eqm M (y * X) 1.
Proof using All.
  intros IH [Hla Hwa Hlb Hwb Hu Hv Ha Hb Hcop Hodd] Hnz Hodda Hle Hfuel.
  destruct (sub_limb_ok (E:=stuck) a b ltac:(lia) Hwa Hwb) as (s & c & -> & Hls & Hws & Hs). rewrite bind_Ok. cbn beta iota.
  pose proof (value_lt s Hws) as Hslt. rewrite Hls, Hla in Hs, Hslt. assert (value s = value a - value b) as Hsv.
  { pose proof (value_lt a Hwa) as Hal. rewrite Hla in Hal. destruct c; cbn [N.b2n] in Hs; lia. }
  destruct (shr_1_ok (E:=stuck) s Hws) as (h & -> & Hlh & Hwh & Hvh). rewrite bind_Ok.
  destruct (sub_ok (E:=stuck) u v xu xv Hu Hv) as (u1 & -> & Hu1). rewrite bind_Ok. destruct (byhalf_ok (E:=stuck) u1 _ Hu1) as (u' & yu & -> & Hu' & Hyu). rewrite bind_Ok.
  assert (value s = 2 * value h) as Hsh.
  { apply N.odd_spec in Hodd as [q Hq], Hodda as [q' Hq']. rewrite Hvh, Hsv. pose proof (N.div_mod (value a - value b) 2 ltac:(done)).
    replace (value a - value b) with ((q' - q) * 2) in * by lia. rewrite N.div_mul by done. lia. }
  apply (IH h b u' v yu xv); [split; try done; [lia| |]|].
  - apply eqm_halve. rewrite <- Hsh, N.mul_assoc, Hyu. apply (eqm_add_cancel _ _ (value b)). replace (value s + value b) with (value a) by lia. rewrite Ha, Hb.
    pose proof M_gt_1 as HM. pose proof (N.mod_lt xv M ltac:(lia)). pose proof (N.div_mod xv M ltac:(lia)).
    replace ((xu + (M - xv mod M)) * X + xv * X) with (xu * X + (X * (1 + xv / M)) * M) by nia. by rewrite eqm_modulus.
  - intros d Hd1 Hd2. apply Hcop; [|done]. replace (value a) with (2 * value h + value b) by lia. apply N.divide_add_r; [by apply N.divide_mul_r|done].
  - rewrite Hvh. pose proof (size_mono (value s) (value a) ltac:(lia)). destruct (N.eq_dec (value s) 0) as [Hz|Hz].
    + rewrite Hz. change (0 / 2) with 0. pose proof (size_half (value a) Hnz). change (N.size 0) with 0. lia.
    + pose proof (size_half (value s) Hz). lia.
Qed.
Lemma invert_loop_ok X fuel : inverts X (field.invert_loop L f fuel) fuel.
Proof using All.
  induction fuel as [|fuel IH]; intros a b u v xu xv Hst Hfuel; [lia|]. cbn [field.invert_loop]. pose proof Hst as [Hla Hwa Hlb Hwb Hu Hv Ha Hb Hcop Hodd].
  rewrite is_zero_limbs by done. destruct (N.eqb_spec (value a) 0) as [Hz|Hnz].
  { exists v, xv. split; [done|]. split; [done|]. rewrite <- Hb. rewrite (Hcop (value b)); [done|rewrite Hz; apply N.divide_0_r|done]. }
  pose proof L_pos as HLp. rewrite low_limb, bind_Ok, low_bit by (first [done|lia]). pose proof (N.div_mod (value a) 2 ltac:(done)) as Hdiv.
  destruct (N.eqb_spec (value a mod 2) 0) as [Heven|Hodda]; [by eapply even_turn|].
  rewrite limbs_lt_ok by (first [done|lia]). rewrite bind_Ok.
  assert (N.odd (value a) = true) as Hao by (apply N.odd_spec; exists (value a / 2); pose proof (N.mod_lt (value a) 2 ltac:(done)); lia).
  destruct (N.ltb_spec (value a) (value b)) as [Hlt|Hge]; [|by eapply odd_turn].
  eapply (odd_turn X _ _ b a v u xv xu); [done| |intros Hz; rewrite Hz in Hlt; lia|done|lia|lia]. split; try done. intros d Hd1 Hd2. by apply Hcop.
Qed.
Lemma invert_ok e x : represents e x -> x mod M <> 0 -> coprime_to (x mod M) M -> exists r y, field.invert L f e = Ok r /\ represents r y /\ eqm M (y * x) 1.
Proof using All.
  intros He Hnz Hcop. pose proof M_gt_1 as HM. unfold field.invert. rewrite (is_zero_ok (E:=stuck) e x He), (proj2 (N.eqb_neq _ _) Hnz). cbn [negb rust_assert]. rewrite bind_Ok.
  destruct (to_standard_ok (E:=stuck) e x He) as (s & -> & Hls & Hws & Hvs). rewrite bind_Ok. destruct (fo_modulus f Hf) as [Hml Hmw Hmv _ _ _ _ _ _ Hodd].
  apply (invert_loop_ok x _ s (f_modulo f) (field.one f) (field.zero L) 1 0); [split; try done; [exact (fo_r f Hf)|exact (zero_represents (E:=stuck))|..]|].
  - rewrite Hvs, N.mul_1_l. apply eqm_mod.
  - rewrite Hmv, N.mul_0_l. unfold eqm. rewrite N.Div0.mod_same. symmetry. apply N.Div0.mod_0_l.
  - by rewrite Hvs, Hmv.
  - by rewrite Hmv.
  - unfold field.invert_fuel. pose proof (size_limbs s Hws Hls). pose proof (size_limbs (f_modulo f) Hmw Hml). lia.
Qed.
Lemma invert_zero_ok e x : represents e x -> x mod M = 0 -> field.invert L f e = Panic.
Proof using All. intros He Hz. unfold field.invert. by rewrite (is_zero_ok (E:=stuck) e x He), Hz. Qed.

(** ** Sampling *)
(** Rejection sampling of a number below the modulus. *)
Fixpoint first_below {G} (rng : nat -> G -> outcome stuck (list u8 * G)) (fuel : nat) (g : G) : outcome stuck (N * G) :=
  match fuel with
  | O => Err OutOfFuel
  | S fuel =>
      '(buf, g) ← rng (W * 8)%nat g;
      rust_assert (Nat.eqb (length buf) (W * 8)) ;;
      if from_le_bytes buf <? M then mret (from_le_bytes buf, g) else first_below rng fuel g
  end.
Lemma sample_ok {G} (rng : nat -> G -> outcome stuck (list u8 * G)) fuel : forall g,
  match first_below rng fuel g with
  | Ok (n, g') => exists e, field.sample W L f rng fuel g = Ok (e, g') /\ represents e n /\ n < M
  | Err e => field.sample W L f rng fuel g = Err e
  | Panic => field.sample W L f rng fuel g = Panic
  end.
Proof using All.
  induction fuel as [|fuel IH]; intros g; [done|]. cbn [first_below field.sample]. destruct (rng (W * 8)%nat g) as [[buf g']|e|]; [|done|done]. rewrite !bind_Ok. cbn beta iota.
  destruct (Nat.eqb_spec (length buf) (W * 8)) as [Hl|]; [|done]. cbn [rust_assert]. rewrite !bind_Ok.
  destruct (nat_from_bytes_ok (E:=stuck) W buf Hl) as (words & -> & Hlw & Hww & Hvw). rewrite bind_Ok.
  destruct (words_ok (E:=stuck) words Hww Hlw) as (s & -> & Hls & Hws & Hvs). rewrite bind_Ok, lt_modulus_ok, bind_Ok, Hvs, Hvw by done.
  destruct (N.ltb_spec (from_le_bytes buf) M) as [Hlt|Hge]; [|apply IH].
  destruct (to_montgomery_ok (E:=stuck) s Hls Hws) as (e & -> & He). rewrite bind_Ok, Hvs, Hvw in *. exists e. done.
Qed.
End field.

(** ** The constructor *)
Section construct.
Context `{LimbWidthLaws} (W L ACCUM_L : nat) {E : Type}.
#[local] Abbreviation value := (digits_value B).
#[local] Abbreviation wf := (digits B).
#[local] Abbreviation R := (B ^ N.of_nat L).

Section doublings.
Context (M : N) (modulo negm : list N) (Hm : wf modulo) (Hn : wf negm) (Hlm : length modulo = L) (Hln : length negm = L).
Context (Hmv : value modulo = M) (Hnv : value negm = R - M) (HM : 1 < M).
Lemma doublings_ok n : forall x, length x = L -> wf x -> value x < M ->
  exists r, fp_generic.doublings (E:=E) n x negm = Ok r /\ length r = L /\ wf r /\ value r < M /\ eqm M (value r) (2 ^ N.of_nat n * value x).
Proof using All.
  intros x Hl Hw Hv. unfold fp_generic.doublings.
  destruct (seq_loop (E:=E) (fun i r => length r = L /\ wf r /\ value r < M /\ eqm M (value r) (2 ^ N.of_nat i * value x)) (fun x _ => accum_modular x x negm) n 0 x) as (r & Hr & Hinv);
    [|by rewrite N.mul_1_l|by exists r].
  intros i r _ (Hlr & Hwr & Hvr & Heq).
  destruct (accum_modular_ok (E:=E) M modulo negm) with (a := r) (b := r) as (r' & -> & Hlr' & Hwr' & Hv' & Hlt); [done|done|lia|done|by rewrite Hlm|lia|lia|lia|done..|].
  exists r'. split; [done|]. split; [lia|]. split; [done|]. split; [done|]. rewrite Hv', eqm_mod, Heq, Nat.add_1_r, Nat2N.inj_succ, N.pow_succ_r'.
  replace (2 ^ N.of_nat i * value x + 2 ^ N.of_nat i * value x) with (2 * 2 ^ N.of_nat i * value x) by lia. done.
Qed.
End doublings.

Lemma bits_pow k : 2 ^ N.of_nat (N.to_nat LIMB_BITS * k) = B ^ N.of_nat k.
Proof. rewrite Nat2N.inj_mul, N2Nat.id. by rewrite N.pow_mul_r. Qed.
Lemma new_generic_ok (words : list N) (M := digits_value (2 ^ 64) words) : (0 < W)%nat -> L = (W * LIMBS_PER_U64)%nat ->
  (2 * L + 1 <= ACCUM_L)%nat -> (ACCUM_L + L < 64)%nat -> length words = W -> digits (2 ^ 64) words -> N.odd M = true -> 1 < M ->
  exists f, field.new_generic (E:=E) W L ACCUM_L words = Ok f /\ field_ok L ACCUM_L M f.
Proof.
  intros HW HL HA HA64 Hlw Hww Hodd HM. unfold field.new_generic. rewrite (proj2 (Nat.ltb_lt 0 W)), (proj2 (Nat.eqb_eq L _)), (proj2 (Nat.leb_le (L * 2 + 1) _)), (proj2 (Nat.ltb_lt _ 64)) by lia.
  cbn [rust_assert]. rewrite !bind_Ok. destruct (words64_to_limbs_ok (E:=E) words Hww) as (modulo & Hmod & Hlm & Hwm & Hvm). rewrite Hlw, <- HL in *. rewrite Hmod, bind_Ok. fold M in Hvm.
  pose proof limb_bits as (_ & _ & HLp). assert (0 < L)%nat as HL0 by (rewrite HL; by apply Nat.mul_pos_pos). pose proof B_gt_1 as HB.
  rewrite low_limb, bind_Ok, is_one_slice_ok, bind_Ok by (first [done|lia]). rewrite low_bit, Hvm.
  assert ((M mod 2 =? 1) && negb (M =? 1) = true) as ->.
  { apply andb_true_iff. split; [apply N.eqb_eq; apply N.odd_spec in Hodd as [d ->]; rewrite N.add_comm, N.mul_comm; apply N.Div0.mod_add|].
    apply negb_true_iff, N.eqb_neq. lia. }
  cbn [rust_assert]. rewrite bind_Ok. pose proof (value_lt modulo Hwm) as HMR. rewrite Hlm, Hvm in HMR.
  destruct (sub_limb_ok (E:=E) (replicate L 0) modulo) as (negm & c & -> & Hln & Hwn & Hneg); [by rewrite length_replicate|apply digits_zeros, B_pos|done|].
  rewrite bind_Ok. cbn beta iota. rewrite length_replicate in Hln. rewrite digits_replicate_0, Hvm, Hln in Hneg. pose proof (value_lt negm Hwn) as Hnlt. rewrite Hln in Hnlt.
  assert (value negm = R - M) as Hnv by (destruct c; cbn [N.b2n] in Hneg; lia).
  destruct (unit_limbs_ok (E:=E) L 1 HL0 HB) as (o & Ho & Hlo & Hwo & Hvo). unfold fp_generic.compute_r2, fp_generic.compute_r. rewrite Ho, !bind_Ok.
  pose proof (doublings_ok M modulo negm Hwm Hwn Hlm Hln Hvm Hnv HM) as Hdouble.
  destruct (Hdouble (2 * N.to_nat LIMB_BITS * L)%nat o) as (r2 & -> & Hl2 & Hw2 & Hv2 & Hr2); [done|done|lia|]. rewrite bind_Ok.
  destruct (Hdouble (N.to_nat LIMB_BITS * L)%nat o) as (r & -> & Hlr & Hwr & Hvr & Hr); [done|done|lia|]. rewrite bind_Ok.
  destruct (Hdouble ((ACCUM_L - 2 * L) * N.to_nat LIMB_BITS)%nat r2) as (sc & -> & Hls & Hws & Hvs & Hs); [done..|]. rewrite bind_Ok.
  destruct (shr_1_ok (E:=E) modulo Hwm) as (h & -> & Hlh & Hwh & Hvh). rewrite bind_Ok.
  destruct (propagate_carry_ok (E:=E) [] h true Hwh) as (half & c' & Hprop & Hlhf & Hwhf & Hvhf). cbn [app length] in Hprop. rewrite Hprop, bind_Ok.
  destruct (compute_m_prime_ok (M mod B)) as [Hmp Hinv]; [apply N.mod_lt; lia|by rewrite odd_mod_B|]. rewrite Hvo, N.mul_1_r in Hr, Hr2. rewrite bits_pow in Hr.
  replace (2 * N.to_nat LIMB_BITS * L)%nat with (N.to_nat LIMB_BITS * (L + L))%nat in Hr2 by lia. rewrite bits_pow, Nat2N.inj_add, N.pow_add_r in Hr2.
  eexists. split; [reflexivity|]. split; cbn [f_modulo neg_modulo m_prime Montgomery.r2 Montgomery.r accum_scale raw_half].
  - split; try done. by rewrite <- N.Div0.add_mod_idemp_l, <- N.Div0.mul_mod_idemp_l, N.Div0.add_mod_idemp_l.
  - split; [done|]. exact Hr2.
  - split; [done|]. by rewrite N.mul_1_l.
  - split; [done|]. rewrite Hs, Hr2, Nat.mul_comm, bits_pow, <- !N.pow_add_r. replace (N.of_nat (ACCUM_L - 2 * L) + (N.of_nat L + N.of_nat L)) with (N.of_nat ACCUM_L) by lia. done.
  - split; [lia|]. split; [done|]. apply N.odd_spec in Hodd as [d Hd]. rewrite Hvm in Hvh. assert (value h = d) as Hhd by (rewrite Hvh, Hd; rewrite N.add_comm, N.mul_comm, N.div_add by done; done).
    rewrite Hhd, Hlhf, Hlh, Hlm in Hvhf. cbn [N.b2n] in Hvhf. destruct c'; cbn [N.b2n] in Hvhf; lia.
Qed.
End construct.
