(* ===== verification/RuntimeFields.v ===== *)
(** * Theorems about the fields of the runtime

    The prime of P-256, with a certificate; the fields of [fp_generic.rs]
    against the integers modulo their prime; the builds of P-256 against each
    other. *)
From stdpp Require Import prelude strings.
From Stdlib Require Import Lia NArith ZArith Znumtheory Zpow_facts Zmod ZifyNat ZifyN.
From S2P Require Import Prelude Words Interfaces Transcript Field CompileFields Limb Montgomery MontgomeryFacts MontgomeryField.
Local Open Scope Z_scope.

(** ** Primality certificates *)
(** A certificate: a witness and prime factors of [n - 1] whose product is
    above the square root of [n]. *)
Definition certifies (n a : Z) (qs : list Z) : bool :=
  let F := foldr Z.mul 1 qs in
  (1 <? n) && (n <? F * F) && ((n - 1) mod F =? 0) && (Zpow_mod a (n - 1) n =? 1)
  && forallb (fun q => (1 <? q) && ((n - 1) mod q =? 0) && (Z.gcd (Zpow_mod a ((n - 1) / q) n - 1) n =? 1)) qs.

Lemma prime_divisor n : 1 < n -> exists r, Z.prime r /\ (r | n) /\ (r = n \/ r * r <= n).
Proof.
  intros Hn. assert (exists r, 1 < r <= n /\ (r | n) /\ forall d, 1 < d < r -> ~ (d | n)) as (r & Hr & Hrn & Hmin).
  { assert (forall k : nat, (forall d, 1 < d < 2 + Z.of_nat k -> ~ (d | n)) \/ exists r, 1 < r <= n /\ (r | n) /\ forall d, 1 < d < r -> ~ (d | n)) as Hk.
    { induction k as [|k [IH|IH]]; [left; lia| |by right]. destruct (Z.eq_dec (n mod (2 + Z.of_nat k)) 0) as [Hd%Z.mod_divide|Hd]; [|lia|].
      - right. exists (2 + Z.of_nat k). split; [|done]. split; [lia|]. apply Z.divide_pos_le in Hd; lia.
      - left. intros d Hd2 Hdn. destruct (Z.eq_dec d (2 + Z.of_nat k)) as [->|]; [by apply Hd, Z.mod_divide; [lia|]|]. apply (IH d); [lia|done]. }
    destruct (Hk (Z.to_nat (n - 1))) as [Hnone|]; [|done]. exfalso. apply (Hnone n); [lia|apply Z.divide_refl]. }
  exists r. split; [|split; [done|]].
  - split; [lia|]. intros d Hd Hdr. apply (Hmin d Hd). by apply Z.divide_trans with r.
  - destruct Hrn as [c Hc]. destruct (Z.eq_dec c 1) as [->|Hc1]; [left; lia|]. right. assert (0 < c) by nia.
    destruct (Z.lt_ge_cases c r) as [Hlt|Hge]; [|nia]. exfalso. apply (Hmin c); [nia|]. exists r. lia.
Qed.
Lemma positive_bezout q m : Z.coprime q m -> 0 < m -> 2 <= q -> exists w k, 0 < w /\ 0 <= k /\ w * q = 1 + k * m.
Proof.
  intros [u [v Huv]]%Z.gcd_bezout Hm Hq. pose proof (Z.mod_pos_bound u m Hm). pose proof (Z.div_mod u m ltac:(lia)).
  exists (u mod m + m), (q - v - (u / m) * q). split; [lia|]. assert ((u mod m + m) * q = 1 + (q - v - (u / m) * q) * m) as Heq.
  { replace (u mod m) with (u - m * (u / m)) by lia. transitivity (u * q + v * m - v * m + (q - (u / m) * q) * m); [ring|]. rewrite Huv. ring. }
  split; [|done]. assert (2 * 1 <= (u mod m + m) * q) by (rewrite Z.mul_comm; apply Z.mul_le_mono_nonneg; lia). nia.
Qed.
(** The order of [a] modulo a prime divisor has every certified factor. *)
Lemma factor_divides n a q r : Z.prime q -> Z.prime r -> (r | n) -> (q | n - 1) -> 1 < n ->
  a ^ (n - 1) mod n = 1 -> Z.gcd (a ^ ((n - 1) / q) mod n - 1) n = 1 -> (q | r - 1).
Proof.
  intros Hq Hr Hrn [c Hc] Hn Hpow Hgcd. pose proof (Z.prime_ge_2 _ Hq) as Hq2. pose proof (Z.prime_ge_2 _ Hr) as Hr2.
  assert ((n - 1) / q = c) as Hdiv by (rewrite Hc; by apply Z.div_mul; lia). rewrite Hdiv in Hgcd. assert (0 < c) as Hc0 by nia.
  assert (forall x, x mod n mod r = x mod r) as Hmod by (intros x; by apply Z.mod_mod_divide).
  assert (a ^ (n - 1) mod r = 1) as Hpr by (rewrite <- Hmod, Hpow; apply Z.mod_small; lia).
  assert (a ^ c mod r <> 1) as Hne.
  { intros Heq. assert ((r | 1)) as H1; [|apply Z.divide_1_r_nonneg in H1; lia]. rewrite <- Hgcd. apply Z.gcd_greatest; [|done].
    apply Z.mod_divide; [lia|]. rewrite Zminus_mod, Hmod, Heq, Z.mod_1_l, Z.sub_diag by lia. apply Z.mod_0_l. lia. }
  destruct (Z.eq_dec ((r - 1) mod q) 0) as [Hz%Z.mod_divide|Hnz]; [done|lia|]. exfalso. apply Hne.
  assert (a mod r <> 0) as Ha.
  { intros Hz. rewrite Zpower_mod, Hz, Z.pow_0_l, Z.mod_0_l in Hpr by lia. done. }
  assert (Z.coprime q (r - 1)) as Hcop.
  { apply Z.coprime_prime_l; [done|]. intros [k Hk]. apply Hnz. rewrite Hk. apply Z_mod_mult. }
  destruct (positive_bezout q (r - 1) Hcop ltac:(lia) Hq2) as (w & k & Hw & Hk & Hwk).
  pose proof (Z.fermat_nz r a Hr Ha) as Hfermat.
  assert (forall x k, 0 <= x -> 0 <= k -> a ^ x mod r = 1 -> a ^ (x * k) mod r = 1) as Hone.
  { intros x k' Hx Hk' Hax. rewrite Z.pow_mul_r, Zpower_mod, Hax, Z.pow_1_l by lia. apply Z.mod_1_l. lia. }
  rewrite Hc in Hpr. assert (0 <= c * q /\ 0 <= k * c /\ 0 <= r - 1) as (H1 & H2 & H3) by (split; [|split]; [apply Z.mul_nonneg_nonneg; lia..|lia]).
  pose proof (Hone _ w H1 (Z.lt_le_incl _ _ Hw) Hpr) as Hleft.
  assert (c * q * w = (r - 1) * (k * c) + c) as Heq by (transitivity (c * (w * q)); [ring|rewrite Hwk; ring]).
  rewrite Heq, Z.pow_add_r, Zmult_mod, (Hone (r - 1) (k * c)), Z.mul_1_l, Z.mod_mod in Hleft by (first [done|apply Z.mul_nonneg_nonneg; done|lia]). exact Hleft.
Qed.
Lemma distinct_primes_divide qs m : Forall Z.prime qs -> NoDup qs -> Forall (fun q => (q | m)) qs -> (foldr Z.mul 1 qs | m).
Proof.
  intros Hp. induction Hp as [|q qs Hq Hqs IH]; intros Hnd Hd; [exists m; cbn; lia|]. apply NoDup_cons in Hnd as [Hnot Hnd]. apply Forall_cons in Hd as [Hqm Hd].
  specialize (IH Hnd Hd). destruct Hqm as [c ->]. cbn [foldr]. rewrite (Z.mul_comm c). apply Z.mul_divide_mono_l. apply (Z.gauss _ q); [by rewrite Z.mul_comm|].
  clear IH Hnd Hd. unfold Z.coprime. rewrite Z.gcd_comm. induction Hqs as [|q' qs Hq' Hqs IH]; [apply Z.gcd_1_r|]. cbn [foldr]. apply Z.coprime_mul_r.
  - apply Z.coprime_prime_l; [done|]. intros Hdiv. apply Z.prime_ge_2 in Hq. destruct Hq' as [Hq1 Hq'].
    destruct (Z.eq_dec q q') as [->|Hne]; [apply Hnot; by left|]. apply (Hq' q); [|done]. apply Z.divide_pos_le in Hdiv; lia.
  - apply IH. intros Hin. apply Hnot. by right.
Qed.
Lemma certified_prime n a qs : Forall Z.prime qs -> NoDup qs -> certifies n a qs = true -> Z.prime n.
Proof.
  unfold certifies. intros Hp Hnd Hcert. rewrite !andb_true_iff, !Z.ltb_lt, !Z.eqb_eq, forallb_forall in Hcert. destruct Hcert as ((((Hn & HF) & HFn) & Hpow) & Hqs).
  destruct (prime_divisor n Hn) as (r & Hr & Hrn & [->|Hsq]); [done|]. exfalso. pose proof (Z.prime_ge_2 _ Hr) as Hr2.
  rewrite Zpow_mod_correct in Hpow by lia. set (F := foldr Z.mul 1 qs) in *.
  assert (F | r - 1) as Hdiv.
  { apply distinct_primes_divide; [done|done|]. apply Forall_forall. intros q Hq. rewrite Forall_forall in Hp. pose proof (Hp q Hq) as Hqp.
    specialize (Hqs q (proj1 (list_elem_of_In _ _) Hq)). rewrite !andb_true_iff, Z.ltb_lt, !Z.eqb_eq in Hqs. destruct Hqs as ((Hq1 & Hqn) & Hgcd).
    rewrite Zpow_mod_correct in Hgcd by lia. apply (factor_divides n a q r); try done. apply Z.mod_divide; [lia|done]. }
  apply Z.divide_pos_le in Hdiv; [|lia]. assert (0 < F) as HF0.
  { unfold F. clear -Hp. induction Hp as [|q qs Hq _ IH]; [done|]. cbn [foldr]. apply Z.mul_pos_pos; [|done]. apply Z.prime_ge_2 in Hq. lia. }
  assert (F * F <= r * r) by (apply Z.mul_le_mono_nonneg; lia). lia.
Qed.

(** *** The prime of P-256 *)
Lemma trial_certified p : (1 <? p) && (p <? (Z.of_nat (trial_steps p) + 2) * (Z.of_nat (trial_steps p) + 2)) && trial p (trial_steps p) = true -> Z.prime p.
Proof. rewrite !andb_true_iff, !Z.ltb_lt. intros [[H1 H2] Ht]. by eapply trial_prime. Qed.
Lemma p256_prime : Z.prime (Z.of_N P256).
Proof.
  assert (Forall Z.prime [704251; 78283; 3677; 197]) as Hsmall.
  { repeat (apply Forall_cons_2; [apply trial_certified; vm_compute; reflexivity|]). apply Forall_nil_2. }
  do 4 apply Forall_cons in Hsmall as [? Hsmall]. clear Hsmall.
  assert (forall n a qs, Forall Z.prime qs -> bool_decide (NoDup qs) = true -> certifies n a qs = true -> Z.prime n) as Hcert.
  { intros n a qs Hp Hnd%bool_decide_eq_true. by apply certified_prime. }
  assert (Z.prime 46076956964474543) as H56 by (by apply (Hcert _ 2 [704251; 78283]); [auto|vm_compute..]).
  assert (Z.prime 66417393611) as H36 by (by apply (Hcert _ 2 [3677; 197]); [auto|vm_compute..]).
  assert (Z.prime 11290956913871) as H44 by (by apply (Hcert _ 2 [66417393611]); [auto|vm_compute..]).
  assert (Z.prime 774023187263532362759620327192479577272145303) as H150 by (by apply (Hcert _ 2 [46076956964474543; 11290956913871]); [auto|vm_compute..]).
  assert (Z.prime 835945042244614951780389953367877943453916927241) as H160
    by (by apply (Hcert _ 2 [774023187263532362759620327192479577272145303]); [auto|vm_compute..]).
  by apply (Hcert _ 2 [835945042244614951780389953367877943453916927241]); [auto|vm_compute..].
Qed.

(** ** The runtime fields against the integers modulo the prime *)
Local Close Scope Z_scope.
Local Open Scope N_scope.
Section refinement.
Context `{LimbWidthLaws} (W L ACCUM_L : nat) (p : positive) `{MS : MontgomeryStrategy} `{SL : !MontgomeryStrategyLaws L (N.pos p)} `{BigUintPowLaws}.

(** The array stands for the element of [CompileFields.fp]. *)
Definition stands_for (e : list N) (x : Fp p) : Prop := represents L (N.pos p) e (fp_n x).

(** What the operations of a field promise: those of the integers modulo [p],
    on representations that are unique and reach every element. *)
Record refines (f : FpGenericField) : Prop := {
  ref_unique a b x y : stands_for a x -> stands_for b y -> a = b <-> x = y;
  ref_onto x : exists a, stands_for a x;
  ref_zero : stands_for (field.zero L) fzero;
  ref_one : stands_for (field.one f) fone;
  ref_is_zero a x : stands_for a x -> field.is_zero L a = is_zero x;
  ref_add (E : Type) a b x y : stands_for a x -> stands_for b y -> exists r, field.add (E:=E) f a b = Ok r /\ stands_for r (fadd x y);
  ref_sub (E : Type) a b x y : stands_for a x -> stands_for b y -> exists r, field.sub (E:=E) f a b = Ok r /\ stands_for r (fsub x y);
  ref_mul (E : Type) a b x y : stands_for a x -> stands_for b y -> exists r, field.mul (E:=E) f a b = Ok r /\ stands_for r (fmul x y);
  ref_fma (E : Type) e a b z x y : stands_for e z -> stands_for a x -> stands_for b y ->
    exists r, field.fma (E:=E) f e a b = Ok r /\ stands_for r (fma z x y);
  ref_fnms (E : Type) e a b z x y : stands_for e z -> stands_for a x -> stands_for b y ->
    exists r, field.fnms (E:=E) f e a b = Ok r /\ stands_for r (fnms z x y);
  ref_invert a x : stands_for a x ->
    match Field.invert x with Some i => exists r, field.invert L f a = Ok r /\ stands_for r i | None => field.invert L f a = Panic end;
  ref_u64 (E : Type) n : n < 2 ^ 64 -> exists r, field.u64_to_element (E:=E) L f n = Ok r /\ stands_for r (residue p n);
  ref_reduce_nat (E : Type) words : digits (2 ^ 64) words -> length words = W ->
    exists r, field.reduce_nat L ACCUM_L f (E:=E) words = Ok r /\ stands_for r (residue p (digits_value (2 ^ 64) words));
  ref_to_nat (E : Type) a x : stands_for a x ->
    exists words, field.to_nat W L (E:=E) f a = Ok words /\ length words = W /\ digits (2 ^ 64) words /\ digits_value (2 ^ 64) words = fp_n x;
  ref_to_bytes (E : Type) a x : stands_for a x -> field.to_bytes W L f (E:=E) a = Ok (to_le_bytes (W * 8) (fp_n x));
  ref_from_bytes bytes : if Nat.eqb (length bytes) (W * 8) && (from_le_bytes bytes <? N.pos p)
    then exists r, field.bytes_to_element W L f bytes = Ok r /\ stands_for r (residue p (from_le_bytes bytes))
    else exists msg, field.bytes_to_element W L f bytes = Err msg
}.

Lemma stands_for_eqm e n : represents L (N.pos p) e n -> stands_for e (residue p n).
Proof using. intros [Hv He]. split; [done|]. rewrite He, fp_n_residue. by rewrite eqm_mod. Qed.
Lemma stands_for_residue e n x : represents L (N.pos p) e n -> residue p n = x -> stands_for e x.
Proof using. intros He <-. by apply stands_for_eqm. Qed.

Context (Hprime : Z.prime (Z.pos p)) (Hodd : N.odd (N.pos p) = true).
Context (HW : (0 < W)%nat) (HL : L = (W * LIMBS_PER_U64)%nat) (HA : (2 * L + 1 <= ACCUM_L)%nat) (HA64 : (ACCUM_L + L < 64)%nat).
Lemma residue_fp_add x y : residue p (fp_n x + fp_n y) = fadd x y.
Proof using H2. by rewrite <- (r_add p), !residue_n. Qed.
Lemma residue_fp_mul x y : residue p (fp_n x * fp_n y) = fmul x y.
Proof using H2. by rewrite <- (r_mul p), !residue_n. Qed.
Lemma residue_fp_sub x y : residue p (fp_n x + (N.pos p - fp_n y mod N.pos p)) = fsub x y.
Proof using H2. rewrite r_sub. f_equal. f_equal. f_equal. apply N.mod_small, fp_n_lt. Qed.
Lemma fp_coprime (x : Fp p) : fp_n x <> 0 -> coprime_to (fp_n x mod N.pos p) (N.pos p).
Proof using All.
  intros Hx d Hd1 Hd2. rewrite N.mod_small in Hd1 by apply fp_n_lt. destruct Hprime as [_ Hp]. pose proof (fp_n_lt p x) as Hlt.
  assert (d <> 0) by (intros ->; destruct Hd1 as [k Hk]; lia). pose proof (N.divide_pos_le d (fp_n x) ltac:(lia) Hd1).
  destruct (N.eq_dec d 1) as [|Hd]; [done|]. exfalso. apply (Hp (Z.of_N d)); [lia|]. destruct Hd2 as [k Hk]. exists (Z.of_N k). lia.
Qed.

Context (f : FpGenericField) (Hf : field_ok L ACCUM_L (N.pos p) f).
#[local] Abbreviation M := (N.pos p).
Add Ring fp_ring_refines : (fp_ring p).
Lemma fp_n_zero : fp_n (fzero : Fp p) = 0.
Proof using. exact (fp_n_residue p 0). Qed.
Lemma stands_for_unique a b x y : stands_for a x -> stands_for b y -> a = b <-> x = y.
Proof using All.
  intros Ha Hb. split.
  - intros ->. apply fp_eq. pose proof (represents_unique W L ACCUM_L M f Hf HW HL HA HA64 b _ _ Ha Hb) as Heq.
    by apply (eqm_small M); [|apply fp_n_lt..].
  - intros ->. exact (represents_inj W L ACCUM_L M f Hf HW HL HA HA64 a b _ Ha Hb).
Qed.
Lemma stands_for_invert a x : stands_for a x ->
  match Field.invert x with Some i => exists r, field.invert L f a = Ok r /\ stands_for r i | None => field.invert L f a = Panic end.
Proof using All.
  intros Ha. pose proof (fp_n_lt p x) as Hlt. pose proof (fp_laws p Hprime) as Hlaws. destruct (N.eq_dec (fp_n x) 0) as [Hz|Hnz].
  - assert (x = fzero) as -> by (apply fp_eq; by rewrite Hz, fp_n_zero). rewrite invert_zero.
    apply (invert_zero_ok W L ACCUM_L M f Hf HW HL HA HA64 a _ Ha). by rewrite Hz.
  - destruct (invert_spec x) as (i & -> & Hi); [intros ->; apply Hnz; by rewrite fp_n_zero|].
    destruct (invert_ok W L ACCUM_L M f Hf HW HL HA HA64 a (fp_n x) Ha) as (r & y & Hr & Hry & Hyx); [by rewrite N.mod_small|by apply fp_coprime|].
    exists r. split; [done|]. apply (stands_for_residue r y i Hry).
    assert (fmul x (residue p y) = fone) as Hy.
    { rewrite <- (residue_n p x) at 1. rewrite (r_mul p). apply residue_eq. rewrite N.mul_comm. exact Hyx. }
    transitivity (fmul (residue p y) (fmul x i)); [rewrite Hi; ring|]. transitivity (fmul (fmul x (residue p y)) i); [ring|rewrite Hy; ring].
Qed.
Lemma refines_ok : refines f.
Proof using All.
  split.
  - exact stands_for_unique.
  - intros x. destruct (digits_exist B B_pos L ((fp_n x * B ^ N.of_nat L) mod M)) as (a & Hl & Ha & Hv).
    { pose proof (M_lt_R L M _ _ _ (fo_modulus _ _ _ f Hf)). eapply N.lt_trans; [by apply N.mod_lt|done]. }
    exists a. split; [split; [done|split; [done|rewrite Hv; by apply N.mod_lt]]|]. rewrite Hv. apply eqm_mod.
  - apply (stands_for_residue _ 0); [exact (zero_represents (E:=stuck) W L ACCUM_L M f Hf HW HL HA HA64)|done].
  - apply (stands_for_residue _ 1); [exact (fo_r _ _ _ f Hf)|done].
  - intros a x Ha. rewrite (is_zero_ok (E:=stuck) W L ACCUM_L M f Hf HW HL HA HA64 a _ Ha). by rewrite N.mod_small by apply fp_n_lt.
  - intros E a b x y Ha Hb. destruct (add_ok (E:=E) W L ACCUM_L M f Hf HW HL HA HA64 a b _ _ Ha Hb) as (r & Hr & Hs).
    exists r. split; [done|]. apply (stands_for_residue r _ _ Hs), residue_fp_add.
  - intros E a b x y Ha Hb. destruct (sub_ok (E:=E) W L ACCUM_L M f Hf HW HL HA HA64 a b _ _ Ha Hb) as (r & Hr & Hs).
    exists r. split; [done|]. apply (stands_for_residue r _ _ Hs), residue_fp_sub.
  - intros E a b x y Ha Hb. destruct (mul_ok (E:=E) W L ACCUM_L M f Hf HW HL HA HA64 a b _ _ Ha Hb) as (r & Hr & Hs).
    exists r. split; [done|]. apply (stands_for_residue r _ _ Hs), residue_fp_mul.
  - intros E e a b z x y He Ha Hb. destruct (fma_ok (E:=E) W L ACCUM_L M f Hf HW HL HA HA64 e a b _ _ _ He Ha Hb) as (r & Hr & Hs).
    exists r. split; [done|]. apply (stands_for_residue r _ _ Hs). rewrite <- (residue_n p z) at 2. unfold fma. by rewrite <- residue_fp_mul, (r_add p).
  - intros E e a b z x y He Ha Hb. destruct (fnms_ok (E:=E) W L ACCUM_L M f Hf HW HL HA HA64 e a b _ _ _ He Ha Hb) as (r & Hr & Hs).
    exists r. split; [done|]. apply (stands_for_residue r _ _ Hs). unfold fnms. rewrite <- residue_fp_mul, r_sub. do 2 f_equal. by rewrite fp_n_residue.
  - exact stands_for_invert.
  - intros E n Hn. destruct (of_scalar_ok (E:=E) W L ACCUM_L M f Hf HW HL HA HA64 n Hn) as (r & Hr & Hs). exists r. split; [done|]. by apply stands_for_eqm.
  - intros E words Hw Hl. destruct (reduce_nat_ok (E:=E) W L ACCUM_L M f Hf HW HL HA HA64 words Hw Hl) as (r & Hr & Hs). exists r. split; [done|]. by apply stands_for_eqm.
  - intros E a x Ha. unfold field.to_nat. destruct (to_words64_ok (E:=E) W L ACCUM_L M f Hf HW HL HA HA64 a _ Ha) as (words & -> & Hl & Hw & Hv). rewrite bind_Ok.
    exists words. rewrite Hv, N.mod_small by apply fp_n_lt. done.
  - intros E a x Ha. rewrite (to_bytes_ok (E:=E) W L ACCUM_L M f Hf HW HL HA HA64 a _ Ha). by rewrite N.mod_small by apply fp_n_lt.
  - intros bytes. pose proof (bytes_to_element_ok W L ACCUM_L M f Hf HW HL HA HA64 bytes) as Hb. destruct (_ && _); [|done].
    destruct Hb as (r & Hr & Hs). exists r. split; [done|]. by apply stands_for_eqm.
Qed.
End refinement.

(** ** Inner products with delayed reduction *)
Section inner_products.
Context `{LimbWidthLaws} (W L ACCUM_L : nat) (M : N) `{MS : MontgomeryStrategy} `{SL : !MontgomeryStrategyLaws L M}.
(** The loop of the callers: multiply into one accumulator, reduce once. *)
Definition inner_product {E} (f : FpGenericField) (pairs : list (list N * list N)) : outcome E (list N) :=
  acc ← foldM (fun acc '(x, y) => field.mac L acc x y) (field.zero_accum ACCUM_L) pairs;
  field.accum_reduce L ACCUM_L f acc.
Definition sum_of_products (pairs : list (N * N)) : N := foldr (fun '(x, y) s => x * y + s) 0 pairs.

Context (f : FpGenericField) (Hf : field_ok L ACCUM_L M f).
Context (HW : (0 < W)%nat) (HL : L = (W * LIMBS_PER_U64)%nat) (HA : (2 * L + 1 <= ACCUM_L)%nat) (HA64 : (ACCUM_L + L < 64)%nat).
Definition pair_stands (xy : list N * list N) (mn : N * N) : Prop := represents L M xy.1 mn.1 /\ represents L M xy.2 mn.2.
Lemma mac_fold_ok {E} pairs nums : Forall2 pair_stands pairs nums -> forall acc, length acc = ACCUM_L -> digits B acc ->
  digits_value B acc + N.of_nat (length pairs) * (M * M) < B ^ N.of_nat ACCUM_L ->
  exists r, foldM (E:=E) (fun acc '(x, y) => field.mac L acc x y) acc pairs = Ok r /\ length r = ACCUM_L /\ digits B r
    /\ eqm M (digits_value B r) (digits_value B acc + sum_of_products nums * B ^ N.of_nat L * B ^ N.of_nat L).
Proof using All.
  induction 1 as [|[a b] [x y] pairs nums [[Hva Hxa] [Hvb Hyb]] _ IH]; intros acc Hla Hwa Hroom.
  - exists acc. repeat split; try done. cbn [sum_of_products foldr]. by rewrite !N.mul_0_l, N.add_0_r.
  - cbn [foldM fst snd length] in *. destruct Hva as (Hl1 & Hw1 & Hlt1), Hvb as (Hl2 & Hw2 & Hlt2).
    destruct (mac_ok (E:=E) W L ACCUM_L M f Hf HW HL HA HA64 acc a b Hla Hwa Hl1 Hw1 Hl2 Hw2) as (r & -> & Hlr & Hwr & Hvr). rewrite bind_Ok.
    rewrite Nat2N.inj_succ, N.mul_succ_l in Hroom.
    assert (digits_value B a * digits_value B b <= M * M) as Hab by (apply N.mul_le_mono; lia).
    rewrite N.mod_small in Hvr by lia.
    destruct (IH r Hlr Hwr ltac:(lia)) as (r' & Hr' & Hlr' & Hwr' & Heq). exists r'. split; [done|]. split; [done|]. split; [done|].
    rewrite Heq, Hvr, Hxa, Hyb. cbn [sum_of_products foldr]. fold (sum_of_products nums).
    replace (digits_value B acc + (x * y + sum_of_products nums) * B ^ N.of_nat L * B ^ N.of_nat L)
      with (digits_value B acc + x * B ^ N.of_nat L * (y * B ^ N.of_nat L) + sum_of_products nums * B ^ N.of_nat L * B ^ N.of_nat L) by lia. done.
Qed.
Lemma inner_product_ok {E} pairs nums : Forall2 pair_stands pairs nums -> N.of_nat (length pairs) * (M * M) < B ^ N.of_nat ACCUM_L ->
  exists r, inner_product (E:=E) f pairs = Ok r /\ represents L M r (sum_of_products nums).
Proof using All.
  intros Hp Hlen. unfold inner_product, field.zero_accum.
  destruct (mac_fold_ok (E:=E) pairs nums Hp (replicate ACCUM_L 0)) as (acc & -> & Hl & Hw & Heq); [by apply length_replicate|apply digits_zeros, B_pos|by rewrite digits_replicate_0|].
  rewrite bind_Ok. apply (accum_reduce_ok (E:=E) W L ACCUM_L M f Hf HW HL HA HA64 acc _ Hl Hw). rewrite Heq, digits_replicate_0. by rewrite N.add_0_l.
Qed.
End inner_products.

(** ** The builds of P-256

    The width of the limbs and the strategy are chosen when the library is
    built. *)
Definition p256 : positive := match P256 with N.pos p => p | N0 => 1%positive end.
Record build := { b_width : LimbWidth; b_strategy : MontgomeryStrategy }.
Definition b_limbs (b : build) : nat := 4 * @LIMBS_PER_U64 (b_width b).
Definition b_accum (b : build) : nat := 9 * @LIMBS_PER_U64 (b_width b).
Definition p256_builds : list build :=
  [{| b_width := width_64; b_strategy := @GenericStrategy width_64 4 |}; {| b_width := width_64; b_strategy := P256Strategy_64 |};
   {| b_width := width_32; b_strategy := @GenericStrategy width_32 8 |}; {| b_width := width_32; b_strategy := P256Strategy_32 |}].
Definition b_new {E} (b : build) : outcome E FpGenericField := @p256_new (b_width b) E.
Lemma p256_build_ok b : b ∈ p256_builds -> @LimbWidthLaws (b_width b) /\ @MontgomeryStrategyLaws (b_width b) (b_limbs b) (N.pos p256) (b_strategy b)
  /\ (b_accum b = 9 /\ b_limbs b = 4 \/ b_accum b = 18 /\ b_limbs b = 8)%nat /\ ((2 ^ @LIMB_BITS (b_width b)) ^ N.of_nat (b_accum b) = 2 ^ 576).
Proof.
  assert (@MontgomeryStrategyLaws width_64 4 (N.pos p256) (@GenericStrategy width_64 4)) as H1 by (apply @generic_strategy_laws; [exact width_64_laws|lia]).
  assert (@MontgomeryStrategyLaws width_32 8 (N.pos p256) (@GenericStrategy width_32 8)) as H2 by (apply @generic_strategy_laws; [exact width_32_laws|lia]).
  intros Hb. unfold p256_builds in Hb. repeat (apply elem_of_cons in Hb as [->|Hb]; [cbn [b_width b_strategy b_limbs b_accum width_64 width_32 LIMBS_PER_U64 LIMB_BITS]|]); [..|by apply elem_of_nil in Hb].
  - split; [exact width_64_laws|]. split; [exact H1|]. split; [by left|reflexivity].
  - split; [exact width_64_laws|]. split; [exact p256_strategy_64_laws|]. split; [by left|reflexivity].
  - split; [exact width_32_laws|]. split; [exact H2|]. split; [by right|reflexivity].
  - split; [exact width_32_laws|]. split; [exact p256_strategy_32_laws|]. split; [by right|reflexivity].
Qed.

(** ** Theorems *)

(** C9: For every prime modulus above two, [new_generic] accepts the modulus
    and the field it builds computes, on representations that are unique and
    reach every element, the operations of the integers modulo the prime:
    arithmetic, inversion (which terminates, and panics exactly on zero),
    conversions and the encoding of elements as bytes.  The strategy is any
    that multiplies as promised. *)
Theorem montgomery_refines_prime_field `{LimbWidthLaws} `{BigUintPowLaws} (E : Type) (W ACCUM_L : nat) (p : positive) (words : list N)
    (L := (W * LIMBS_PER_U64)%nat) `{MS : MontgomeryStrategy} `{SL : !MontgomeryStrategyLaws L (N.pos p)} :
  Z.prime (Z.pos p) -> 2 < N.pos p -> (0 < W)%nat -> (2 * L + 1 <= ACCUM_L)%nat -> (ACCUM_L + L < 64)%nat ->
  length words = W -> digits (2 ^ 64) words -> digits_value (2 ^ 64) words = N.pos p ->
  exists f, field.new_generic (E:=E) W L ACCUM_L words = Ok f /\ refines W L ACCUM_L p f.
Proof.
  intros Hprime Hp2 HW HA HA64 Hl Hw Hv.
  assert (N.odd (N.pos p) = true) as Hodd.
  { apply not_false_is_true. intros Heven. rewrite <- N.negb_even in Heven. apply negb_false_iff, N.even_spec in Heven as [k Hk].
    destruct Hprime as [_ Hp]. apply (Hp 2%Z); [lia|]. exists (Z.of_N k). lia. }
  destruct (new_generic_ok (E:=E) W L ACCUM_L words) as (f & Hf & Hok); [done|done|done|done|done|done|by rewrite Hv|rewrite Hv; lia|].
  exists f. split; [done|]. rewrite Hv in Hok. apply refines_ok; done.
Qed.
Definition exact_modpow : BigUintPow := fun a e m => (a ^ e mod m)%N.
Lemma exact_modpow_laws : @BigUintPowLaws exact_modpow.
Proof. by intros a e m _. Qed.
Lemma montgomery_refines_prime_field_witness :
  exists f, @p256_new width_64 string = Ok f /\ @refines width_64 4 4 9 p256 P256Strategy_64 exact_modpow f.
Proof.
  exact (@montgomery_refines_prime_field width_64 width_64_laws exact_modpow exact_modpow_laws string 4 9 p256 P256_MODULUS P256Strategy_64 p256_strategy_64_laws
    p256_prime eq_refl ltac:(lia) ltac:(cbn; lia) ltac:(cbn; lia) eq_refl ltac:(by repeat constructor) eq_refl).
Defined.

(** Canonical words of an element of P-256. *)
Definition canonical (words : list N) : Prop := length words = 4%nat /\ digits (2 ^ 64) words /\ digits_value (2 ^ 64) words < P256.
Section programs.
Context (b : build).
(** Decode, multiply and accumulate, reduce once and encode. *)
Definition b_decode (f : FpGenericField) (words : list N) : outcome string (list N) :=
  @field.words64_to_element (b_width b) (b_limbs b) (b_strategy b) f words.
Definition b_inner_product (pairs : list (list N * list N)) : outcome string (list N) :=
  f ← b_new b;
  pairs ← foldM (fun l '(x, y) => x ← b_decode f x; y ← b_decode f y; mret (l ++ [(x, y)])) [] pairs;
  e ← @inner_product (b_width b) (b_limbs b) (b_accum b) (b_strategy b) string f pairs;
  @field.to_words64 (b_width b) 4 (b_limbs b) (b_strategy b) f string e.
End programs.

Section build_lemmas.
Context (b : build) (Hb : b ∈ p256_builds).
#[local] Instance the_width : LimbWidth := b_width b.
#[local] Instance the_strategy : MontgomeryStrategy := b_strategy b.
Lemma b_new_ok {E} : exists f, b_new (E:=E) b = Ok f /\ field_ok (b_limbs b) (b_accum b) P256 f.
Proof using Hb.
  destruct (p256_build_ok b Hb) as (HW & _ & Hdims & _).
  apply (new_generic_ok (E:=E) 4 (b_limbs b) (b_accum b) P256_MODULUS); first [done|lia|by repeat constructor].
Qed.
Lemma b_decode_ok f words : field_ok (b_limbs b) (b_accum b) P256 f -> canonical words ->
  exists e, b_decode b f words = Ok e /\ represents (b_limbs b) P256 e (digits_value (2 ^ 64) words).
Proof using Hb.
  intros Hf (Hl & Hw & Hv). destruct (p256_build_ok b Hb) as (HW & HS & Hdims & _).
  pose proof (words64_to_element_ok 4 (b_limbs b) (b_accum b) P256 f Hf ltac:(lia) eq_refl ltac:(lia) ltac:(lia) words Hw Hl) as Hd.
  by rewrite (proj2 (N.ltb_lt _ _) Hv) in Hd.
Qed.
Lemma b_encode_ok {E} f e x : field_ok (b_limbs b) (b_accum b) P256 f -> represents (b_limbs b) P256 e x ->
  exists words, @field.to_words64 (b_width b) 4 (b_limbs b) (b_strategy b) f E e = Ok words /\ canonical words /\ digits_value (2 ^ 64) words = x mod P256.
Proof using Hb.
  intros Hf He. destruct (p256_build_ok b Hb) as (HW & HS & Hdims & _).
  destruct (to_words64_ok (E:=E) 4 (b_limbs b) (b_accum b) P256 f Hf ltac:(lia) eq_refl ltac:(lia) ltac:(lia) e x He) as (words & Hw & Hl & Hd & Hv).
  exists words. split; [done|]. split; [|done]. split; [done|]. split; [done|]. rewrite Hv. by apply N.mod_lt.
Qed.
Lemma b_sum_ok {E} f rs nums : field_ok (b_limbs b) (b_accum b) P256 f -> Forall2 (pair_stands (b_limbs b) P256) rs nums -> N.of_nat (length rs) <= 2 ^ 64 ->
  exists e, @inner_product (b_width b) (b_limbs b) (b_accum b) (b_strategy b) E f rs = Ok e /\ represents (b_limbs b) P256 e (sum_of_products nums).
Proof using Hb.
  intros Hf Hrs Hlen. destruct (p256_build_ok b Hb) as (HW & HS & Hdims & Hroom).
  apply (inner_product_ok (E:=E) 4 (b_limbs b) (b_accum b) P256 f Hf ltac:(lia) eq_refl ltac:(lia) ltac:(lia) rs _ Hrs).
  change (N.of_nat (length rs) * (P256 * P256) < (2 ^ @LIMB_BITS (b_width b)) ^ N.of_nat (b_accum b)).
  rewrite Hroom. apply N.le_lt_trans with (2 ^ 64 * (P256 * P256)); [by apply N.mul_le_mono_r|reflexivity].
Qed.
End build_lemmas.
Lemma canonical_inj v w : canonical v -> canonical w -> digits_value (2 ^ 64) v = digits_value (2 ^ 64) w -> v = w.
Proof. intros (Hl & Hv & _) (Hl' & Hw & _). apply digits_inj; [done|lia|done|done]. Qed.
Lemma canonical_exists n : n < P256 -> exists words, canonical words /\ digits_value (2 ^ 64) words = n.
Proof.
  intros Hn. destruct (digits_exist (2 ^ 64) ltac:(done) 4 n) as (words & Hl & Hd & Hv); [eapply N.lt_trans; [exact Hn|reflexivity]|].
  exists words. split; [|done]. split; [done|]. split; [done|]. by rewrite Hv.
Qed.
Definition pair_value (xy : list N * list N) : N * N := (digits_value (2 ^ 64) xy.1, digits_value (2 ^ 64) xy.2).

(** C10: Every build of P-256 (limbs of 64 or 32 bits, generic or special
    multiplication) computes the same inner products of canonical words, and
    they are exact modulo the prime: up to 2^64 products fit the accumulator
    that is reduced only once. *)
Theorem p256_inner_products (pairs : list (list N * list N)) :
  Forall (fun xy => canonical xy.1 /\ canonical xy.2) pairs -> N.of_nat (length pairs) <= 2 ^ 64 ->
  exists words, canonical words /\ digits_value (2 ^ 64) words = sum_of_products (map pair_value pairs) mod P256
    /\ forall b, b ∈ p256_builds -> b_inner_product b pairs = Ok words.
Proof.
  intros Hp Hlen. destruct (canonical_exists (sum_of_products (map pair_value pairs) mod P256)) as (words & Hw & Hv); [by apply N.mod_lt|].
  exists words. split; [done|]. split; [done|]. intros b Hb. destruct (p256_build_ok b Hb) as (HW & HS & Hdims & Hroom).
  unfold b_inner_product. destruct (b_new_ok b Hb (E:=string)) as (f & -> & Hf). rewrite bind_Ok.
  assert (forall ps l, Forall (fun xy => canonical xy.1 /\ canonical xy.2) ps -> exists rs,
    foldM (E:=string) (fun l '(x, y) => x ← b_decode b f x; y ← b_decode b f y; mret (l ++ [(x, y)])) l ps = Ok (l ++ rs)
    /\ Forall2 (@pair_stands (b_width b) (b_limbs b) P256) rs (map pair_value ps)) as Hdec.
  { clear -Hb Hf. intros ps. induction ps as [|[x y] ps IH]; intros l Hp; [exists []; split; [by rewrite app_nil_r|constructor]|].
    apply Forall_cons in Hp as [[Hx Hy] Hp]. cbn [foldM map fst snd] in *. destruct (b_decode_ok b Hb f x Hf Hx) as (ex & -> & Hex). destruct (b_decode_ok b Hb f y Hf Hy) as (ey & -> & Hey).
    rewrite !bind_Ok. destruct (IH (l ++ [(ex, ey)]) Hp) as (rs & Hrs & Hall). exists ((ex, ey) :: rs). rewrite bind_ret, Hrs. split; [by rewrite <- app_assoc|]. constructor; [done|done]. }
  destruct (Hdec pairs [] Hp) as (rs & -> & Hrs). cbn [app]. rewrite bind_Ok.
  destruct (b_sum_ok b Hb (E:=string) f rs _ Hf Hrs) as (e & -> & He); [by rewrite (Forall2_length _ _ _ Hrs), length_map|].
  rewrite bind_Ok. destruct (b_encode_ok b Hb (E:=string) f e _ Hf He) as (words' & -> & Hc & Hv'). f_equal. apply canonical_inj; [done|done|]. by rewrite Hv', Hv.
Qed.
Lemma p256_inner_products_witness :
  exists words, canonical words /\ digits_value (2 ^ 64) words = sum_of_products [(3, P256 - 1); (5, 7)] mod P256
    /\ forall b, b ∈ p256_builds -> b_inner_product b [([3; 0; 0; 0], [2 ^ 64 - 2; 2 ^ 32 - 1; 0; 0xffffffff00000001]); ([5; 0; 0; 0], [7; 0; 0; 0])] = Ok words.
Proof.
  refine (p256_inner_products [([3; 0; 0; 0], [2 ^ 64 - 2; 2 ^ 32 - 1; 0; 0xffffffff00000001]); ([5; 0; 0; 0], [7; 0; 0; 0])] _ _).
  - by repeat constructor.
  - by vm_compute.
Defined.

(** C40: The constructor does not check everything the arithmetic needs: over
    seventeen words of 64 bits [new_generic] accepts every odd modulus above
    one, and every multiplication of the field it returns panics, because the
    generic strategy has room for sixteen limbs. *)
Theorem new_generic_accepts_unusable_width {E} (words : list N) :
  length words = 17%nat -> digits (2 ^ 64) words -> N.odd (digits_value (2 ^ 64) words) = true -> 1 < digits_value (2 ^ 64) words ->
  exists f, @field.new_generic width_64 17 17 35 E words = Ok f
    /\ forall E' a b, @field.mul (@GenericStrategy width_64 17) f E' a b = Panic.
Proof.
  intros Hl Hw Hodd H1. destruct (@new_generic_ok width_64 width_64_laws 17 17 35 E words) as (f & Hf & _); try done; try (cbn; lia).
  exists f. split; [done|]. intros E' a b. reflexivity.
Qed.
Lemma new_generic_accepts_unusable_width_witness :
  exists f, @field.new_generic width_64 17 17 35 string (3 :: replicate 16 0) = Ok f
    /\ forall E' a b, @field.mul (@GenericStrategy width_64 17) f E' a b = Panic.
Proof.
  apply (new_generic_accepts_unusable_width (3 :: replicate 16 0)); [done| |done|done]. by repeat constructor.
Defined.
