(* ===== verification/Carryless.v ===== *)
(** * Carry-less multiplication ([src/rust/runtime/algebra/src/arch/generic.rs])

    The portable backend of GF(2^128) multiplies polynomials over GF(2) with
    integer multiplications: operands are thinned to every fourth bit, so that
    the carries of one coefficient stay below the next.  High halves come from
    the reversed operands, words of 128 bits from three products of words of
    64 bits, and the reduction folds the upper words. *)
From stdpp Require Import prelude sorting.
From Stdlib Require Import Lia NArith ZifyNat ZifyN.
From S2P Require Import Prelude Words Gf2_128 Gf2_128Facts Limb.
Local Open Scope N_scope.

(** ** The backend *)
(** [u64::reverse_bits], from the lowest bit up. *)
Definition reverse_bits (x : N) : N :=
  foldl (fun acc i => 2 * acc + N.b2n (N.testbit x (N.of_nat i))) 0 (seq 0 64).

Module generic.
Definition clmul64_lo (x y : N) : N :=
  let m0 := 0x1111111111111111 in
  let m1 := 0x2222222222222222 in
  let m2 := 0x4444444444444444 in
  let m3 := 0x8888888888888888 in
  let x0 := N.land x m0 in
  let x1 := N.land x m1 in
  let x2 := N.land x m2 in
  let x3 := N.land x m3 in
  let y0 := N.land y m0 in
  let y1 := N.land y m1 in
  let y2 := N.land y m2 in
  let y3 := N.land y m3 in
  let z0 := N.lxor (N.lxor (N.lxor (wrapping_mul64 x0 y0) (wrapping_mul64 x1 y3)) (wrapping_mul64 x2 y2)) (wrapping_mul64 x3 y1) in
  let z1 := N.lxor (N.lxor (N.lxor (wrapping_mul64 x0 y1) (wrapping_mul64 x1 y0)) (wrapping_mul64 x2 y3)) (wrapping_mul64 x3 y2) in
  let z2 := N.lxor (N.lxor (N.lxor (wrapping_mul64 x0 y2) (wrapping_mul64 x1 y1)) (wrapping_mul64 x2 y0)) (wrapping_mul64 x3 y3) in
  let z3 := N.lxor (N.lxor (N.lxor (wrapping_mul64 x0 y3) (wrapping_mul64 x1 y2)) (wrapping_mul64 x2 y1)) (wrapping_mul64 x3 y0) in
  N.lor (N.lor (N.lor (N.land z0 m0) (N.land z1 m1)) (N.land z2 m2)) (N.land z3 m3).
Definition clmul64_hi (x y : N) : N :=
  N.shiftr (reverse_bits (clmul64_lo (reverse_bits x) (reverse_bits y))) 1.
Definition clmul64 (x y : N) : N * N := (clmul64_lo x y, clmul64_hi x y).

Definition gf2_128_reduce (a b : N * N) : N * N :=
  let (a0, a1) := a in
  let (b0, b1) := b in
  (N.lxor (N.lxor (N.lxor (N.lxor a0 b1) (shl64 b1 1)) (shl64 b1 2)) (shl64 b1 7),
   N.lxor (N.lxor (N.lxor (N.lxor a1 b0) (N.shiftr b1 63)) (N.shiftr b1 62)) (N.shiftr b1 57)).

Definition gf2_128_mul (x y : Gf2_128) : Gf2_128 :=
  let x_v0 := wrap64 (gf_val x) in
  let x_v1 := wrap64 (N.shiftr (gf_val x) 64) in
  let y_v0 := wrap64 (gf_val y) in
  let y_v1 := wrap64 (N.shiftr (gf_val y) 64) in
  let t0 := clmul64 x_v0 y_v0 in
  let t2 := clmul64 x_v1 y_v1 in
  let t1 := clmul64 (N.lxor x_v0 x_v1) (N.lxor y_v0 y_v1) in
  let t1_xor := (N.lxor (N.lxor t1.1 t0.1) t2.1, N.lxor (N.lxor t1.2 t0.2) t2.2) in
  let t1_red := gf2_128_reduce t1_xor t2 in
  let t0_red := gf2_128_reduce t0 t1_red in
  gf (N.lor t0_red.1 (N.shiftl t0_red.2 64)).

(** The accumulator is an element. *)
Definition gf2_128_mac (acc x y : Gf2_128) : Gf2_128 :=
  let res := gf2_128_mul x y in gf (N.lxor (gf_val acc) (gf_val res)).
Definition gf2_128_accum_reduce (acc : Gf2_128) : Gf2_128 := acc.
End generic.

(** ** Products of sparse numbers

    A number is the list of its hexadecimal digits; those of a product are the
    coefficients of the product of polynomials, as long as they do not
    carry. *)
Fixpoint coef (xs ys : list N) (k : nat) : N :=
  match xs with
  | [] => 0
  | x :: xs => x * nth k ys 0 + match k with O => 0 | S k => coef xs ys k end
  end.
Fixpoint dadd (a b : list N) : list N :=
  match a, b with
  | [], b => b
  | a, [] => a
  | x :: a, y :: b => x + y :: dadd a b
  end.
Fixpoint dmul (xs ys : list N) : list N :=
  match xs with [] => [] | x :: xs => dadd (map (N.mul x) ys) (0 :: dmul xs ys) end.

Lemma dadd_value a : forall b, digits_value 16 (dadd a b) = digits_value 16 a + digits_value 16 b.
Proof. induction a as [|x a IH]; intros [|y b]; cbn [dadd digits_value]; rewrite ?IH; lia. Qed.
Lemma dmul_value xs ys : digits_value 16 (dmul xs ys) = digits_value 16 xs * digits_value 16 ys.
Proof.
  induction xs as [|x xs IH]; [done|]. cbn [dmul]. rewrite dadd_value. cbn [digits_value]. rewrite IH.
  assert (digits_value 16 (map (N.mul x) ys) = x * digits_value 16 ys) as ->; [|lia].
  clear. induction ys as [|y ys IH]; cbn [map digits_value]; [lia|]. rewrite IH. lia.
Qed.
Lemma dadd_nth a : forall b k, nth k (dadd a b) 0 = nth k a 0 + nth k b 0.
Proof. induction a as [|x a IH]; intros [|y b] [|k]; cbn [dadd nth]; rewrite ?IH; lia. Qed.
Lemma dmul_nth xs ys : forall k, nth k (dmul xs ys) 0 = coef xs ys k.
Proof.
  assert (forall x k, nth k (map (N.mul x) ys) 0 = x * nth k ys 0) as Hmap.
  { intros x. induction ys as [|y ys IH]; intros [|k]; cbn [map nth]; rewrite ?IH; lia. }
  induction xs as [|x xs IH]; intros k; [by destruct k|]. cbn [dmul coef]. rewrite dadd_nth, Hmap. f_equal. destruct k; [done|]. apply IH.
Qed.
Lemma coef_bound xs ys k : digits 2 xs -> digits 2 ys -> coef xs ys k <= N.of_nat (S k).
Proof.
  intros Hx Hy. revert k. induction Hx as [|x xs Hx _ IH]; intros k; cbn [coef]; [lia|].
  assert (nth k ys 0 <= 1) as Hn.
  { destruct (nth_in_or_default k ys 0) as [Hin| ->]; [|lia]. apply list_elem_of_In in Hin. unfold digits in Hy. rewrite Forall_forall in Hy. specialize (Hy _ Hin). lia. }
  assert (x * nth k ys 0 <= 1) by nia. destruct k as [|k]; [lia|]. specialize (IH k). lia.
Qed.
(** Without carries a digit shows its parity. *)
Lemma digit_parity k : forall ds, (forall j, (j < k)%nat -> nth j ds 0 < 16) -> N.testbit (digits_value 16 ds) (4 * N.of_nat k) = N.odd (nth k ds 0).
Proof.
  induction k as [|k IH]; intros ds Hd.
  - destruct ds as [|d ds]; [done|]. cbn [digits_value nth]. rewrite N.mul_0_r, N.bit0_odd. rewrite N.odd_add, N.odd_mul. cbn [N.odd andb]. by rewrite xorb_false_r.
  - destruct ds as [|d ds]; [cbn [digits_value nth]; by rewrite N.bits_0|]. cbn [digits_value nth].
    rewrite <- IH by (intros j Hj; apply (Hd (S j)); lia). pose proof (Hd 0%nat ltac:(lia)) as H0. cbn [nth] in H0.
    replace (4 * N.of_nat (S k)) with (4 * N.of_nat k + 4) by lia. rewrite <- N.div_pow2_bits. change (2 ^ 4) with 16.
    rewrite N.mul_comm, N.div_add, N.div_small by lia. done.
Qed.
Lemma sparse_product xs ys k : (k < 16)%nat -> digits 2 xs -> digits 2 ys ->
  N.testbit (digits_value 16 xs * digits_value 16 ys) (4 * N.of_nat k) = N.odd (coef xs ys k).
Proof.
  intros Hk Hx Hy. rewrite <- dmul_value, digit_parity, dmul_nth; [done|]. intros j Hj. rewrite dmul_nth. pose proof (coef_bound xs ys j Hx Hy). lia.
Qed.

(** ** Every fourth bit *)
Definition xors (l : list bool) : bool := foldr xorb false l.
Lemma xors_app l m : xors (l ++ m) = xorb (xors l) (xors m).
Proof. induction l as [|b l IH]; [symmetry; apply xorb_false_l|]. unfold xors in *. cbn. by rewrite IH, xorb_assoc. Qed.
Lemma xors_false l : Forall (fun b => b = false) l -> xors l = false.
Proof. induction 1 as [|b l -> _ IH]; [done|]. exact IH. Qed.
#[export] Instance xors_perm : Proper ((≡ₚ) ==> (=)) xors.
Proof.
  intros l m. induction 1 as [|b l m _ IH|b c l|l m n _ IH1 _ IH2]; [done|unfold xors in *; cbn; by rewrite IH|unfold xors; cbn; by destruct b, c, (foldr xorb false l)|congruence].
Qed.

Definition mask (a : nat) : N := nth a [0x1111111111111111; 0x2222222222222222; 0x4444444444444444; 0x8888888888888888] 0.
Definition sparse (a : nat) (x : N) : list N := map (fun k => N.b2n (N.testbit x (N.of_nat (4 * k + a)))) (seq 0 16).
Lemma sparse_digits a x : digits 2 (sparse a x).
Proof. apply Forall_map, Forall_forall. intros k _. cbn. by destruct (N.testbit _ _). Qed.
Lemma mask_testbit a n : (a < 4)%nat -> N.testbit (mask a) (N.of_nat n) = Nat.ltb n 64 && Nat.eqb (n mod 4) a.
Proof.
  intros Ha. destruct (Nat.ltb_spec n 64) as [Hn|Hn].
  - assert (forallb (fun a => forallb (fun n => Bool.eqb (N.testbit (mask a) (N.of_nat n)) (Nat.eqb (n mod 4) a)) (seq 0 64)) (seq 0 4) = true) as Hall by by vm_compute.
    rewrite forallb_forall in Hall. specialize (Hall a ltac:(apply in_seq; lia)). rewrite forallb_forall in Hall. apply eqb_prop, Hall, in_seq; lia.
  - assert (forall m, m < 2 ^ 64 -> N.testbit m (N.of_nat n) = false) as Hhigh.
    { intros m Hm. destruct (N.eq_dec m 0) as [->|]; [apply N.bits_0|]. apply N.bits_above_log2. apply N.log2_lt_pow2 in Hm; lia. }
    apply Hhigh. destruct a as [|[|[|[|a]]]]; [done..|lia].
Qed.
Lemma bits_digits l : forall n, N.testbit (digits_value 16 (map N.b2n l)) (N.of_nat n) = Nat.eqb (n mod 4) 0 && nth (n / 4) l false.
Proof.
  induction l as [|b l IH]; intros n; [cbn [map digits_value]; rewrite N.bits_0; by destruct (Nat.eqb _ _), (n / 4)%nat|]. cbn [map digits_value].
  destruct (Nat.lt_ge_cases n 4) as [Hn|Hn].
  - rewrite (Nat.mod_small n 4), (Nat.div_small n 4) by done. rewrite <- (N.mod_pow2_bits_low _ 4) by lia. change (2 ^ 4) with 16.
    rewrite (N.mul_comm 16), N.Div0.mod_add, N.mod_small by (by destruct b). cbn [nth]. destruct n as [|n]; [by destruct b|].
    cbn [Nat.eqb andb]. destruct b; [|apply N.bits_0]. cbn [N.b2n]. apply (N.pow2_bits_false 0). lia.
  - destruct (Nat.le_exists_sub 4 n Hn) as (m & -> & _). replace (N.of_nat (m + 4)) with (N.of_nat m + 4) by lia. rewrite <- N.div_pow2_bits. change (2 ^ 4) with 16.
    rewrite N.mul_comm, N.div_add, N.div_small by (by destruct b). rewrite N.add_0_l, IH.
    replace (m + 4)%nat with (m + 1 * 4)%nat by lia. by rewrite Nat.Div0.mod_add, Nat.div_add, Nat.add_1_r by done.
Qed.

Lemma sparse_land a x : (a < 4)%nat -> N.land x (mask a) = N.shiftl (digits_value 16 (sparse a x)) (N.of_nat a).
Proof.
  intros Ha. apply N.bits_inj. intros n. rewrite <- (N2Nat.id n). set (m := N.to_nat n). clearbody m. rewrite N.land_spec, mask_testbit by done.
  destruct (Nat.lt_ge_cases m a) as [Hm|Hm].
  - rewrite N.shiftl_spec_low by lia. destruct (Nat.eqb_spec (m mod 4) a) as [He|]; [|by rewrite !andb_false_r]. rewrite Nat.mod_small in He; lia.
  - rewrite N.shiftl_spec_high' by lia. replace (N.of_nat m - N.of_nat a) with (N.of_nat (m - a)) by lia.
    unfold sparse. rewrite <- (map_map (fun k => N.testbit x (N.of_nat (4 * k + a))) N.b2n), bits_digits.
    destruct (Nat.eqb_spec (m mod 4) a) as [He|He]; destruct (Nat.eqb_spec ((m - a) mod 4) 0) as [He'|He'].
    + assert (m = 4 * ((m - a) / 4) + a)%nat as Hma by lia. destruct (Nat.ltb_spec m 64) as [Hlt|Hge]; cbn [andb].
      * rewrite andb_true_r. rewrite (nth_indep _ false (N.testbit x (N.of_nat (4 * 0 + a)))) by (rewrite length_map, length_seq; lia).
        rewrite (map_nth (fun k => N.testbit x (N.of_nat (4 * k + a)))), seq_nth by lia. f_equal. lia.
      * rewrite andb_false_r. symmetry. apply nth_overflow. rewrite length_map, length_seq. lia.
    + lia.
    + lia.
    + by rewrite !andb_false_r.
Qed.
Lemma coef_odd (f g : nat -> bool) n : forall m s k, (k < m)%nat -> (k < n)%nat ->
  N.odd (coef (map (fun i => N.b2n (f i)) (seq s m)) (map (fun i => N.b2n (g i)) (seq 0 n)) k)
  = xors (map (fun i => f i && g (k + s - i)%nat) (seq s (S k))).
Proof.
  induction m as [|m IH]; intros s k Hm Hn; [lia|]. cbn [seq map coef xors foldr]. fold xors.
  assert (nth k (map (fun i => N.b2n (g i)) (seq 0 n)) 0 = N.b2n (g k)) as ->.
  { rewrite (nth_indep _ 0 (N.b2n (g 0%nat))) by (by rewrite length_map, length_seq). rewrite (map_nth (fun i => N.b2n (g i))), seq_nth by done. done. }
  rewrite N.odd_add. replace (k + s - s)%nat with k by lia. f_equal; [by destruct (f s), (g k)|]. destruct k as [|k]; [done|]. rewrite IH by lia.
  f_equal. apply map_ext. intros i. do 2 f_equal. lia.
Qed.

(** The terms of a product of sparse numbers that meet at bit [n]. *)
Definition partial_indices (a b n : nat) : list nat :=
  if (n <? a + b)%nat then [] else map (fun i => 4 * i + a)%nat (seq 0 (S ((n - (a + b)) / 4))).
Definition term (x y : N) (n i : nat) : bool := N.testbit x (N.of_nat i) && N.testbit y (N.of_nat (n - i)).
Lemma partial_product a b x y n : (a < 4)%nat -> (b < 4)%nat -> (n < 64)%nat -> ((n + 8 - (a + b)) mod 4 = 0)%nat ->
  N.testbit (wrapping_mul64 (N.land x (mask a)) (N.land y (mask b))) (N.of_nat n) = xors (map (term x y n) (partial_indices a b n)).
Proof.
  intros Ha Hb Hn Hmod. unfold wrapping_mul64, wrap64. rewrite N.mod_pow2_bits_low by lia. rewrite !sparse_land, !N.shiftl_mul_pow2 by done.
  replace (digits_value 16 (sparse a x) * 2 ^ N.of_nat a * (digits_value 16 (sparse b y) * 2 ^ N.of_nat b))
    with (digits_value 16 (sparse a x) * digits_value 16 (sparse b y) * 2 ^ N.of_nat (a + b)) by (rewrite Nat2N.inj_add, N.pow_add_r; lia).
  rewrite <- N.shiftl_mul_pow2. unfold partial_indices. destruct (Nat.ltb_spec n (a + b)) as [Hlow|Hhigh]; [rewrite N.shiftl_spec_low by lia; done|].
  rewrite N.shiftl_spec_high' by lia. set (k := ((n - (a + b)) / 4)%nat). assert (n = 4 * k + (a + b))%nat as Hk by lia. clearbody k.
  replace (N.of_nat n - N.of_nat (a + b)) with (4 * N.of_nat k) by lia.
  rewrite sparse_product by (first [lia|apply sparse_digits]). unfold sparse. rewrite coef_odd, map_map by lia.
  f_equal. apply map_ext_in. intros i Hi. apply in_seq in Hi. unfold term. do 3 f_equal. lia.
Qed.

Lemma testbit_above n x : x < 2 ^ n -> forall k, n <= k -> N.testbit x k = false.
Proof. intros Hx k Hk. rewrite <- (N.mod_small x (2 ^ n) Hx). by apply N.mod_pow2_bits_high. Qed.
Lemma below_bits n x : (forall k, n <= k -> N.testbit x k = false) -> x < 2 ^ n.
Proof.
  intros Hx. assert (x mod 2 ^ n = x) as <-; [|by apply N.mod_lt, N.pow_nonzero]. apply N.bits_inj. intros k.
  destruct (N.lt_ge_cases k n); [by apply N.mod_pow2_bits_low|]. by rewrite N.mod_pow2_bits_high, Hx.
Qed.

(** ** The low and the high half *)
Definition partials (n : nat) : list nat := concat (map (fun a => partial_indices a ((n mod 4 + 4 - a) mod 4) n) (seq 0 4)).
Lemma partials_all n : (n < 64)%nat -> partials n ≡ₚ seq 0 (S n).
Proof.
  intros Hn. assert (forallb (fun n => bool_decide (merge_sort (≤)%nat (partials n) = seq 0 (S n))) (seq 0 64) = true) as Hall by by vm_compute.
  rewrite forallb_forall in Hall. specialize (Hall n ltac:(apply in_seq; lia)). apply bool_decide_eq_true in Hall. rewrite <- Hall. symmetry. apply merge_sort_Permutation.
Qed.
Definition class (x y : N) (r : nat) : N :=
  foldl N.lxor 0 (map (fun a => wrapping_mul64 (N.land x (mask a)) (N.land y (mask ((r + 4 - a) mod 4)))) (seq 0 4)).
Lemma class_bit x y n : (n < 64)%nat -> N.testbit (class x y (n mod 4)) (N.of_nat n) = xors (map (term x y n) (seq 0 (S n))).
Proof.
  intros Hn. rewrite <- (partials_all n Hn). unfold partials. cbn [seq map concat]. rewrite app_nil_r, !map_app, !xors_app.
  rewrite <- !partial_product by lia. unfold class. cbn [seq map foldl]. rewrite !N.lxor_spec, N.bits_0, xorb_false_l. by rewrite !xorb_assoc.
Qed.
Lemma clmul64_lo_class x y : generic.clmul64_lo x y = foldl N.lor 0 (map (fun r => N.land (class x y r) (mask r)) (seq 0 4)).
Proof. reflexivity. Qed.
Lemma clmul64_lo_bit x y n : (n < 64)%nat -> N.testbit (generic.clmul64_lo x y) (N.of_nat n) = xors (map (term x y n) (seq 0 (S n))).
Proof.
  intros Hn. rewrite <- class_bit by done. rewrite clmul64_lo_class. pose proof (Nat.mod_upper_bound n 4 ltac:(done)) as Hr. cbn [seq map foldl].
  rewrite !N.lor_spec, !N.land_spec, !mask_testbit, N.bits_0 by lia. rewrite (proj2 (Nat.ltb_lt n 64) Hn). cbn [andb].
  destruct (n mod 4)%nat as [|[|[|[|r]]]]; [..|lia]; cbn [Nat.eqb]; by rewrite ?andb_true_r, ?andb_false_r, ?orb_false_r, ?orb_false_l.
Qed.
Lemma clmul64_lo_lt x y : generic.clmul64_lo x y < 2 ^ 64.
Proof.
  apply below_bits. intros k Hk. rewrite <- (N2Nat.id k). rewrite clmul64_lo_class. cbn [seq map foldl].
  rewrite !N.lor_spec, !N.land_spec, !mask_testbit, N.bits_0 by lia. rewrite (proj2 (Nat.ltb_ge (N.to_nat k) 64)) by lia. by rewrite !andb_false_r.
Qed.

Lemma reverse_bits_testbit x n : N.testbit (reverse_bits x) (N.of_nat n) = Nat.ltb n 64 && N.testbit x (N.of_nat (63 - n)).
Proof.
  assert (forall m n, N.testbit (foldl (fun acc i => 2 * acc + N.b2n (N.testbit x (N.of_nat i))) 0 (seq 0 m)) (N.of_nat n)
    = Nat.ltb n m && N.testbit x (N.of_nat (m - 1 - n))) as Hloop; [|exact (Hloop 64%nat n)].
  clear n. induction m as [|m IH]; intros n; [apply N.bits_0|]. rewrite seq_S, foldl_app. cbn [foldl Nat.add]. destruct n as [|n].
  - change (N.of_nat 0) with 0. rewrite N.testbit_0_r. replace (S m - 1 - 0)%nat with m by lia. done.
  - rewrite Nat2N.inj_succ, N.testbit_succ_r, IH. replace (S m - 1 - S n)%nat with (m - 1 - n)%nat by lia. done.
Qed.
Lemma xors_downwards (f : nat -> bool) a m : xors (map f (seq a m)) = xors (map (fun i => f (a + m - 1 - i)%nat) (seq 0 m)).
Proof.
  induction m as [|m IH]; [done|]. rewrite seq_S, map_app, xors_app, IH. cbn [seq map].
  change (xors [f (a + m)%nat]) with (xorb (f (a + m)%nat) false). rewrite xorb_false_r, xorb_comm.
  change (xors (?b :: ?l)) with (xorb b (xors l)). f_equal; [f_equal; lia|].
  rewrite <- seq_shift, map_map. f_equal. apply map_ext. intros i. f_equal. lia.
Qed.
(** Bit [64 + n] of the product. *)
Lemma clmul64_hi_bit x y n : (n < 64)%nat ->
  N.testbit (generic.clmul64_hi x y) (N.of_nat n) = xors (map (term x y (64 + n)) (seq (S n) (63 - n))).
Proof.
  intros Hn. unfold generic.clmul64_hi. rewrite N.shiftr_spec'. replace (N.of_nat n + 1) with (N.of_nat (S n)) by lia. rewrite reverse_bits_testbit.
  destruct (Nat.ltb_spec (S n) 64) as [Hlt|Hge]; cbn [andb]; [|by replace (63 - n)%nat with 0%nat by lia].
  rewrite clmul64_lo_bit by lia. replace (S (63 - S n)) with (63 - n)%nat by lia. rewrite (xors_downwards _ (S n)).
  f_equal. apply map_ext_in. intros i Hi. apply in_seq in Hi. unfold term. rewrite !reverse_bits_testbit.
  rewrite !(proj2 (Nat.ltb_lt _ 64)) by lia. cbn [andb]. do 3 f_equal; lia.
Qed.
Lemma clmul64_hi_lt x y : generic.clmul64_hi x y < 2 ^ 64.
Proof.
  apply below_bits. intros k Hk. rewrite <- (N2Nat.id k). unfold generic.clmul64_hi. rewrite N.shiftr_spec'.
  replace (N.of_nat (N.to_nat k) + 1) with (N.of_nat (S (N.to_nat k))) by lia. rewrite reverse_bits_testbit. by rewrite (proj2 (Nat.ltb_ge _ 64)) by lia.
Qed.

(** ** Products below the degree of the polynomial *)
Definition word (w : N * N) : N := N.lxor w.1 (N.shiftl w.2 64).
Lemma word_lt w : w.1 < 2 ^ 64 -> w.2 < 2 ^ 64 -> word w < 2 ^ 128.
Proof.
  intros H1 H2. apply lxor_lt; [eapply N.lt_trans; [exact H1|done]|]. rewrite N.shiftl_mul_pow2. change (2 ^ 128) with (2 ^ 64 * 2 ^ 64). by apply N.mul_lt_mono_pos_r.
Qed.
Lemma word_testbit w n : w.1 < 2 ^ 64 -> N.testbit (word w) (N.of_nat n) = if Nat.ltb n 64 then N.testbit w.1 (N.of_nat n) else N.testbit w.2 (N.of_nat (n - 64)).
Proof.
  intros Hw. unfold word. rewrite N.lxor_spec. destruct (Nat.ltb_spec n 64).
  - by rewrite N.shiftl_spec_low, xorb_false_r by lia.
  - rewrite (testbit_above 64) by (first [done|lia]). rewrite xorb_false_l, N.shiftl_spec_high' by lia. f_equal. lia.
Qed.
Lemma xsig_testbit l f n : N.testbit (xsig l f) n = xors (map (fun i => N.testbit (f i) n) l).
Proof. induction l as [|i l IH]; cbn [xsig map xors foldr]; [apply N.bits_0|]. by rewrite N.lxor_spec, IH. Qed.
Lemma xt_low t : t < 2 ^ 127 -> xt t = N.shiftl t 1.
Proof.
  intros Ht. unfold xt. rewrite (testbit_above 127) by done. rewrite u128_mod. apply N.mod_small. rewrite N.shiftl_mul_pow2.
  change (2 ^ 128) with (2 ^ 127 * 2 ^ 1). by apply N.mul_lt_mono_pos_r.
Qed.
Lemma iter_xt_low i a : (i <= 64)%nat -> a < 2 ^ 64 -> Nat.iter i xt a = N.shiftl a (N.of_nat i).
Proof.
  intros Hi Ha. induction i as [|i IH]; [by rewrite N.shiftl_0_r|]. rewrite Nat.iter_succ, IH by lia. rewrite xt_low.
  - rewrite N.shiftl_shiftl. f_equal. lia.
  - rewrite N.shiftl_mul_pow2. apply N.lt_le_trans with (2 ^ 64 * 2 ^ N.of_nat i); [apply N.mul_lt_mono_pos_r; [apply N.neq_0_lt_0, N.pow_nonzero|]; done|].
    rewrite <- N.pow_add_r. apply N.pow_le_mono_r; lia.
Qed.
Lemma xors_window f s m n : (s + m <= n)%nat -> (forall i, (i < s \/ s + m <= i)%nat -> f i = false) -> xors (map f (seq 0 n)) = xors (map f (seq s m)).
Proof.
  intros Hn Hf. assert (forall a k, (a + k <= s \/ s + m <= a)%nat -> xors (map f (seq a k)) = false) as Hout.
  { intros a k Hak. apply xors_false, Forall_map, Forall_forall. intros i Hi%list_elem_of_In%in_seq. cbn. apply Hf. lia. }
  replace n with (s + (m + (n - s - m)))%nat by lia. rewrite !seq_app, !map_app, !xors_app, (Hout 0%nat s), (Hout (0 + s + m)%nat) by lia. by rewrite xorb_false_l, xorb_false_r.
Qed.
Lemma clmul64_ok x y : x < 2 ^ 64 -> y < 2 ^ 64 -> word (generic.clmul64 x y) = mulN y x.
Proof.
  intros Hx Hy. apply N.bits_inj. intros k. rewrite <- (N2Nat.id k). set (n := N.to_nat k). clearbody n. clear k.
  rewrite word_testbit by apply clmul64_lo_lt. unfold mulN. rewrite xsig_testbit. cbn [generic.clmul64 fst snd].
  assert (forall i, N.testbit (sel x (fun i => Nat.iter i xt y) i) (N.of_nat n) = Nat.leb i n && term x y n i) as Hterm.
  { intros i. unfold sel, term. destruct (Nat.lt_ge_cases i 64) as [Hi|Hi].
    - destruct (N.testbit x (N.of_nat i)); cbn [andb]; [|rewrite N.bits_0; by rewrite andb_false_r]. rewrite iter_xt_low by (first [done|lia]).
      destruct (Nat.leb_spec i n); cbn [andb]; [rewrite N.shiftl_spec_high' by lia; f_equal; lia|by rewrite N.shiftl_spec_low by lia].
    - rewrite (testbit_above 64 x) by (first [done|lia]). rewrite N.bits_0. by rewrite andb_false_r. }
  assert (forall i, (64 <= i \/ 64 <= n - i)%nat -> term x y n i = false) as Hout.
  { intros i [Hi|Hi]; unfold term; [rewrite (testbit_above 64 x) by (first [done|lia]); done|rewrite (testbit_above 64 y) by (first [done|lia]); apply andb_false_r]. }
  rewrite (map_ext _ _ Hterm). destruct (Nat.ltb_spec n 64) as [Hn|Hn]; [rewrite clmul64_lo_bit by done|destruct (Nat.lt_ge_cases n 128) as [Hn'|Hn']].
  - rewrite (xors_window _ 0 (S n) 128) by (first [lia|intros i Hi; by rewrite (proj2 (Nat.leb_gt i n)) by lia]). f_equal.
    apply map_ext_in. intros i Hi%in_seq. by rewrite (proj2 (Nat.leb_le i n)) by lia.
  - rewrite clmul64_hi_bit by lia. rewrite (xors_window _ (S (n - 64)) (63 - (n - 64)) 128) by (first [lia|intros i Hi; rewrite Hout by lia; apply andb_false_r]).
    f_equal. apply map_ext_in. intros i Hi%in_seq. replace (64 + (n - 64))%nat with n by lia. by rewrite (proj2 (Nat.leb_le i n)) by lia.
  - rewrite (testbit_above 64) by (first [apply clmul64_hi_lt|lia]). symmetry. apply xors_false, Forall_map, Forall_forall. intros i Hi%list_elem_of_In%in_seq. cbn.
    rewrite Hout by lia. apply andb_false_r.
Qed.

(** ** Reduction and the product of 128-bit words *)
Definition shift64 (a : N) : N := Nat.iter 64 xt a.
Lemma shift64_linear : linear shift64.
Proof. apply linear_iter, xt_linear. Qed.
Definition reduced (b : N) : N * N := generic.gf2_128_reduce (0, 0) (wrap64 b, N.shiftr b 64).
Lemma reduce_split a b : generic.gf2_128_reduce a b = (N.lxor a.1 (generic.gf2_128_reduce (0, 0) b).1, N.lxor a.2 (generic.gf2_128_reduce (0, 0) b).2).
Proof. destruct a as [a0 a1], b as [b0 b1]. cbn [generic.gf2_128_reduce fst snd]. by rewrite !N.lxor_0_l, !N.lxor_assoc. Qed.
Lemma word_xor a b : word (N.lxor a.1 b.1, N.lxor a.2 b.2) = N.lxor (word a) (word b).
Proof. unfold word. cbn [fst snd]. rewrite N.shiftl_lxor. apply lxor4. Qed.
Lemma wrap64_linear : linear wrap64.
Proof. intros a b. unfold wrap64. rewrite <- !N.land_ones. apply N.bits_inj. intros k. rewrite !N.land_spec, !N.lxor_spec, !N.land_spec. by destruct (N.testbit a k), (N.testbit b k), (N.testbit _ k). Qed.
Lemma linear_comp g h : linear g -> linear h -> linear (fun a => g (h a)).
Proof. intros Hg Hh a b. by rewrite Hh, Hg. Qed.
Lemma linear_lxor g h : linear g -> linear h -> linear (fun a => N.lxor (g a) (h a)).
Proof. intros Hg Hh a b. rewrite Hg, Hh. apply lxor4. Qed.
Lemma shiftl_linear k : linear (fun a => N.shiftl a k).
Proof. intros a b. apply N.shiftl_lxor. Qed.
Lemma shiftr_linear k : linear (fun a => N.shiftr a k).
Proof. intros a b. apply N.shiftr_lxor. Qed.
Lemma id_linear : linear (fun a => a).
Proof. by intros a b. Qed.
Lemma zero_linear : linear (fun _ => 0).
Proof. by intros a b. Qed.
Lemma reduced_linear : linear (fun b => word (reduced b)).
Proof.
  unfold word, reduced. cbn [generic.gf2_128_reduce fst snd]. unfold shl64.
  repeat first [apply linear_lxor|exact zero_linear|exact wrap64_linear|apply shiftr_linear|apply (linear_comp (fun a => N.shiftl a _)); [apply shiftl_linear|]
    |apply (linear_comp (fun a => N.shiftr a _)); [apply shiftr_linear|]|apply (linear_comp wrap64); [apply wrap64_linear|]].
Qed.
Lemma reduced_ok b : b < 2 ^ 128 -> word (reduced b) = shift64 b.
Proof.
  apply (linear_ext 128 (fun b => word (reduced b)) shift64); [apply reduced_linear|apply shift64_linear|].
  assert (forallb (fun i => word (reduced (pow2 i)) =? shift64 (pow2 i)) (seq 0 128) = true) as Hall by by vm_compute.
  intros i Hi. rewrite forallb_forall in Hall. apply N.eqb_eq, Hall, in_seq. lia.
Qed.
Definition half (x : N) : Prop := x < 2 ^ 64.
Definition halves (w : N * N) : Prop := half w.1 /\ half w.2.
Lemma half_lxor x y : half x -> half y -> half (N.lxor x y).
Proof. apply lxor_lt. Qed.
Lemma half_wrap x : half (wrap64 x).
Proof. by apply N.mod_lt. Qed.
Lemma half_shiftr x k : half x -> half (N.shiftr x k).
Proof. intros Hx. unfold half in *. rewrite N.shiftr_div_pow2. eapply N.le_lt_trans; [|exact Hx]. apply N.Div0.div_le_upper_bound. pose proof (N.pow_nonzero 2 k ltac:(done)). nia. Qed.
Lemma half_upper x : x < 2 ^ 128 -> half (N.shiftr x 64).
Proof. intros Hx. unfold half. rewrite N.shiftr_div_pow2. by apply N.Div0.div_lt_upper_bound. Qed.
#[local] Hint Resolve half_lxor half_wrap half_shiftr half_upper : core.
Lemma word_parts w : halves w -> (wrap64 (word w), N.shiftr (word w) 64) = w.
Proof.
  intros [Hl Hh]. destruct w as [lo hi]. cbn [fst snd] in *. f_equal; apply N.bits_inj; intros k; rewrite <- (N2Nat.id k); set (n := N.to_nat k).
  - unfold wrap64. destruct (Nat.lt_ge_cases n 64); [rewrite N.mod_pow2_bits_low, word_testbit by (first [done|lia]); by rewrite (proj2 (Nat.ltb_lt n 64))|].
    by rewrite N.mod_pow2_bits_high, (testbit_above 64 lo) by (first [done|lia]).
  - rewrite N.shiftr_spec'. replace (N.of_nat n + 64) with (N.of_nat (n + 64)) by lia. rewrite word_testbit by done. rewrite (proj2 (Nat.ltb_ge (n + 64) 64)) by lia.
    cbn [snd]. by replace (n + 64 - 64)%nat with n by lia.
Qed.
Lemma word_of x : x < 2 ^ 128 -> word (wrap64 x, N.shiftr x 64) = x.
Proof.
  intros Hx. apply N.bits_inj. intros k. rewrite <- (N2Nat.id k). set (n := N.to_nat k). rewrite word_testbit by apply half_wrap. cbn [fst snd]. unfold wrap64.
  destruct (Nat.ltb_spec n 64); [by rewrite N.mod_pow2_bits_low by lia|]. rewrite N.shiftr_spec'. f_equal. lia.
Qed.
Lemma word_lor w : half w.1 -> N.lor w.1 (N.shiftl w.2 64) = word w.
Proof.
  intros Hw. apply N.bits_inj. intros k. rewrite <- (N2Nat.id k). set (n := N.to_nat k). rewrite word_testbit by done. rewrite N.lor_spec.
  destruct (Nat.ltb_spec n 64); [by rewrite N.shiftl_spec_low, orb_false_r by lia|]. rewrite (testbit_above 64 w.1) by (first [done|lia]).
  rewrite orb_false_l, N.shiftl_spec_high' by lia. f_equal. lia.
Qed.
Lemma reduce_ok a b : halves a -> halves b -> halves (generic.gf2_128_reduce a b) /\ word (generic.gf2_128_reduce a b) = N.lxor (word a) (shift64 (word b)).
Proof.
  intros Ha Hb. split.
  - destruct a as [a0 a1], b as [b0 b1], Ha as [Ha0 Ha1], Hb as [Hb0 Hb1]. cbn [generic.gf2_128_reduce fst snd] in *. unfold shl64. split; cbn [fst snd]; auto 10.
  - rewrite reduce_split, (word_xor a). f_equal. rewrite <- reduced_ok by (destruct Hb; by apply word_lt). unfold reduced. by rewrite word_parts.
Qed.
Lemma shift64_mul a b : shift64 (mulN a b) = mulN (shift64 a) b.
Proof. apply iter_xt_mulN. Qed.
Lemma shift64_half a : half a -> shift64 a = N.shiftl a 64.
Proof. intros Ha. by apply (iter_xt_low 64). Qed.
Lemma shift64_lt a : a < 2 ^ 128 -> shift64 a < 2 ^ 128.
Proof. apply iter_xt_lt. Qed.
Lemma half_128 a : half a -> a < 2 ^ 128.
Proof. intros Ha. eapply N.lt_trans; [exact Ha|done]. Qed.
#[local] Hint Resolve shift64_lt half_128 : core.
Lemma mulN_shift64_r a b : a < 2 ^ 128 -> b < 2 ^ 128 -> mulN a (shift64 b) = shift64 (mulN a b).
Proof. intros Ha Hb. rewrite (mulN_comm a (shift64 b)) by auto. by rewrite <- shift64_mul, mulN_comm. Qed.
(** Three products are enough. *)
Lemma karatsuba x0 x1 y0 y1 : half x0 -> half x1 -> half y0 -> half y1 ->
  mulN (word (y0, y1)) (word (x0, x1))
  = N.lxor (mulN y0 x0) (shift64 (N.lxor (N.lxor (N.lxor (mulN (N.lxor y0 y1) (N.lxor x0 x1)) (mulN y0 x0)) (mulN y1 x1)) (shift64 (mulN y1 x1)))).
Proof.
  intros Hx0 Hx1 Hy0 Hy1. unfold word. cbn [fst snd]. rewrite <- !shift64_half by done. rewrite (mulN_linear_l _ y0 (shift64 y1)), (mulN_linear_l _ y0 y1), !(mulN_linear_r _ x0).
  rewrite !mulN_shift64_r, <- !shift64_mul by auto. rewrite !shift64_linear. generalize (mulN y0 x0) (mulN y1 x1) (mulN y0 x1) (mulN y1 x0). intros a b c d.
  rewrite <- !shift64_linear. generalize (shift64 b). intros sb.
  assert (N.lxor (N.lxor (N.lxor (N.lxor a c) (N.lxor d b)) a) b = N.lxor c d) as ->.
  { apply N.bits_inj. intros k. rewrite !N.lxor_spec. by destruct (N.testbit a k), (N.testbit b k), (N.testbit c k), (N.testbit d k). }
  rewrite !shift64_linear. apply N.bits_inj. intros k. rewrite !N.lxor_spec. by rewrite !xorb_assoc.
Qed.
Lemma clmul64_halves x y : halves (generic.clmul64 x y).
Proof. split; [apply clmul64_lo_lt|apply clmul64_hi_lt]. Qed.
Lemma gf2_128_mul_ok x y : generic.gf2_128_mul x y = gf_mul x y.
Proof.
  apply gf_eq. rewrite gf_val_mul, (mulN_comm (gf_val x)) by apply gf_val_lt.
  transitivity (mulN (word (wrap64 (gf_val y), N.shiftr (gf_val y) 64)) (word (wrap64 (gf_val x), N.shiftr (gf_val x) 64))); [|by rewrite !word_of by apply gf_val_lt].
  unfold generic.gf2_128_mul.
  pose proof (half_wrap (gf_val x)) as Hx0. pose proof (half_wrap (gf_val y)) as Hy0. pose proof (half_upper _ (gf_val_lt x)) as Hx1. pose proof (half_upper _ (gf_val_lt y)) as Hy1.
  assert (forall a, half a -> wrap64 a = a) as Hwrap by (intros a Ha; by apply N.mod_small). rewrite !(Hwrap (N.shiftr _ 64)) by done.
  revert Hx0 Hx1 Hy0 Hy1. generalize (wrap64 (gf_val x)) (N.shiftr (gf_val x) 64) (wrap64 (gf_val y)) (N.shiftr (gf_val y) 64).
  intros x0 x1 y0 y1 Hx0 Hx1 Hy0 Hy1. rewrite karatsuba by done. rewrite <- !clmul64_ok by (first [done|by apply half_lxor]). cbv zeta.
  pose proof (clmul64_halves x0 y0) as H0. pose proof (clmul64_halves x1 y1) as H2. pose proof (clmul64_halves (N.lxor x0 x1) (N.lxor y0 y1)) as H1.
  revert H0 H1 H2. generalize (generic.clmul64 x0 y0) (generic.clmul64 x1 y1) (generic.clmul64 (N.lxor x0 x1) (N.lxor y0 y1)). intros t0 t2 t1 H0 H1 H2.
  rewrite <- (word_xor t1 t0), <- (word_xor _ t2). cbn [fst snd]. set (mid := (_, _)). assert (halves mid) as Hmid by (destruct H0, H1, H2; split; unfold mid; cbn [fst snd]; auto).
  destruct (reduce_ok mid t2 Hmid H2) as [Hr1 <-]. destruct (reduce_ok t0 _ H0 Hr1) as [Hr0 <-]. rewrite word_lor by apply Hr0. apply gf_val_gf. by apply word_lt; destruct Hr0.
Qed.

(** ** Theorems *)

(** C19: The portable backend, which multiplies polynomials over GF(2) by
    integer multiplications of sparse operands, agrees with the bitwise
    reference on every pair of elements, and its accumulator collects the sum
    of the products. *)
Theorem portable_backend_multiplies (x y : Gf2_128) (pairs : list (Gf2_128 * Gf2_128)) :
  generic.gf2_128_mul x y = gf_mul x y
  /\ generic.gf2_128_accum_reduce (foldl (fun acc xy => generic.gf2_128_mac acc xy.1 xy.2) gf_zero pairs)
     = foldl (fun acc xy => gf_add acc (gf_mul xy.1 xy.2)) gf_zero pairs.
Proof.
  split; [apply gf2_128_mul_ok|]. unfold generic.gf2_128_accum_reduce. generalize gf_zero. induction pairs as [|[a b] pairs IH]; intros acc; [done|].
  cbn [foldl fst snd]. unfold generic.gf2_128_mac at 2. rewrite gf2_128_mul_ok. apply IH.
Qed.
