(* ===== verification/Sha256Circuit.v ===== *)
(** * SHA-256 blocks ([src/rust/circuits/sha256/src/{constants,concrete,circuit,allocate,evaluate}.rs])

    The compression function on words and the circuit that asserts it: the
    schedule and the states between the rounds are inputs of the circuit,
    which asserts that each is the sum it should be. *)
From stdpp Require Import prelude strings.
From Stdlib Require Import Lia NArith ZArith ZifyNat ZifyN Ring Ring_theory.
From S2P Require Import Prelude Words Interfaces Field FieldFacts CompilerIR Logic Boolean Arithmetic Bitvec AnalogAdder.

(** A row of eight words of the tables is one number, first word first. *)
Definition row_words (row : N) : list N := rev (map (fun i => N.shiftr row (32 * N.of_nat i) mod 2 ^ 32)%N (seq 0 8)).
Definition K : list N := Eval vm_compute in concat (map row_words
  [0x428a2f98_71374491_b5c0fbcf_e9b5dba5_3956c25b_59f111f1_923f82a4_ab1c5ed5;
   0xd807aa98_12835b01_243185be_550c7dc3_72be5d74_80deb1fe_9bdc06a7_c19bf174;
   0xe49b69c1_efbe4786_0fc19dc6_240ca1cc_2de92c6f_4a7484aa_5cb0a9dc_76f988da;
   0x983e5152_a831c66d_b00327c8_bf597fc7_c6e00bf3_d5a79147_06ca6351_14292967;
   0x27b70a85_2e1b2138_4d2c6dfc_53380d13_650a7354_766a0abb_81c2c92e_92722c85;
   0xa2bfe8a1_a81a664b_c24b8b70_c76c51a3_d192e819_d6990624_f40e3585_106aa070;
   0x19a4c116_1e376c08_2748774c_34b0bcb5_391c0cb3_4ed8aa4a_5b9cca4f_682e6ff3;
   0x748f82ee_78a5636f_84c87814_8cc70208_90befffa_a4506ceb_bef9a3f7_c67178f2]%N).
Definition INITIAL : list N := Eval vm_compute in row_words
  0x6a09e667_bb67ae85_3c6ef372_a54ff53a_510e527f_9b05688c_1f83d9ab_5be0cd19%N.

(** ** The concrete function

    Words are numbers below 2^32, arrays are lists. *)
Module sha_concrete.
Local Open Scope N_scope.
Definition u32 (x : N) : N := x mod 2 ^ 32.
Definition not32 (x : N) : N := N.lxor x (2 ^ 32 - 1).
Definition wrapping_add (x y : N) : N := u32 (x + y).
Definition rotate_right (x k : N) : N := N.lor (N.shiftr x k) (u32 (N.shiftl x (32 - k))).

Definition ch (x y z : N) : N := N.lxor (N.land x y) (N.land (not32 x) z).
Definition maj (x y z : N) : N := N.lxor (N.lxor (N.land x y) (N.land x z)) (N.land y z).
Definition sigma0_upper (x : N) : N := N.lxor (N.lxor (rotate_right x 2) (rotate_right x 13)) (rotate_right x 22).
Definition sigma1_upper (x : N) : N := N.lxor (N.lxor (rotate_right x 6) (rotate_right x 11)) (rotate_right x 25).
Definition sigma0_lower (x : N) : N := N.lxor (N.lxor (rotate_right x 7) (rotate_right x 18)) (N.shiftr x 3).
Definition sigma1_lower (x : N) : N := N.lxor (N.lxor (rotate_right x 17) (rotate_right x 19)) (N.shiftr x 10).
Local Close Scope N_scope.

Record ConcreteGiven := { input_block : list N; h0 : list N }.
Record ConcreteDerived := { outw : list N; oute : list N; outa : list N; h1 : list N }.
Definition given (input_block h0 : list N) : ConcreteGiven := {| input_block := input_block; h0 := h0 |}.

(** An element of an array of words; the indices are in range. *)
Definition word (l : list N) (i : nat) : N := default 0%N (l !! i).
Definition schedule_word (w : list N) (i : nat) : N :=
  let s0 := sigma0_lower (word w (i - 15)) in
  let s1 := sigma1_lower (word w (i - 2)) in
  wrapping_add (wrapping_add (wrapping_add (word w (i - 16)) s0) (word w (i - 7))) s1.
(** [w] has 64 entries, the block first. *)
Definition schedule (block : list N) : list N :=
  foldl (fun w i => <[i := schedule_word w i]> w) (block ++ replicate 48 0%N) (seq 16 48).

(** The variables [a] to [h]. *)
Definition State : Type := N * N * N * N * N * N * N * N.
Definition round (w : list N) (st : State) (i : nat) : State :=
  let '(a, b, c, d, e, f, g, h) := st in
  let s1 := sigma1_upper e in
  let ch_val := ch e f g in
  let temp1 := wrapping_add (wrapping_add (wrapping_add (wrapping_add h s1) ch_val) (word K i)) (word w i) in
  let s0 := sigma0_upper a in
  let maj_val := maj a b c in
  let temp2 := wrapping_add s0 maj_val in
  (wrapping_add temp1 temp2, a, b, c, wrapping_add d temp1, e, f, g).
Definition state_a (st : State) : N := let '(a, _, _, _, _, _, _, _) := st in a.
Definition state_e (st : State) : N := let '(_, _, _, _, e, _, _, _) := st in e.
(** The rounds with the arrays they fill. *)
Fixpoint rounds (w : list N) (st : State) (range : list nat) : list N * list N * State :=
  match range with
  | [] => ([], [], st)
  | i :: range =>
      let st := round w st i in
      let '(oute, outa, last) := rounds w st range in
      (state_e st :: oute, state_a st :: outa, last)
  end.
Definition initial_state (h0 : list N) : State :=
  (word h0 0, word h0 1, word h0 2, word h0 3, word h0 4, word h0 5, word h0 6, word h0 7).
Definition state_words (st : State) : list N := let '(a, b, c, d, e, f, g, h) := st in [a; b; c; d; e; f; g; h].
Definition derived (given : ConcreteGiven) : ConcreteDerived :=
  let w := schedule (input_block given) in
  let '(oute, outa, last) := rounds w (initial_state (h0 given)) (seq 0 64) in
  {| outw := drop 16 w; oute := oute; outa := outa;
     h1 := zip_with wrapping_add (take 8 (h0 given)) (state_words last) |}.

Definition modern_elements (d : ConcreteDerived) : list N := outw d ++ oute d ++ outa d ++ h1 d.
Definition legacy_elements (d : ConcreteDerived) : list N :=
  outw d ++ flat_map (fun p => [p.1; p.2]) (zip (oute d) (outa d)) ++ h1 d.
End sha_concrete.

(** ** The circuit

    A word is a vector of 32 bits. *)
Module sha256.
Section sha256.
Context {E : Type} `{AlgebraicField E} `{!logic.Logic E}.
#[local] Abbreviation M := (lcomp logic.St).
#[local] Abbreviation V32 := (list (Bitw E)).

Record Given := { input_block : list V32; h0 : list V32 }.
Record Derived := { outw : list V32; oute : list V32; outa : list V32; h1 : list V32 }.

(** [Sha256] holds the vector operations. *)
Definition new : outcome fuel_error (BitvecLogic E) := bitvec.new.
Context (bv : BitvecLogic E).

Definition ch (x y z : V32) : M V32 := bitvec.muxb bv x y z.
Definition bigsigma0 (x : V32) : M V32 :=
  p ← bitvec.rotr 2 x; q ← bitvec.rotr 13 x; r ← bitvec.rotr 22 x; bitvec.xor3 bv p q r.
Definition bigsigma1 (x : V32) : M V32 :=
  p ← bitvec.rotr 6 x; q ← bitvec.rotr 11 x; r ← bitvec.rotr 25 x; bitvec.xor3 bv p q r.
Definition sigma0 (x : V32) : M V32 :=
  p ← bitvec.rotr 7 x; q ← bitvec.rotr 18 x; r ← bitvec.shr 3 x; bitvec.xor3 bv p q r.
Definition sigma1 (x : V32) : M V32 :=
  p ← bitvec.rotr 17 x; q ← bitvec.rotr 19 x; r ← bitvec.shr 10 x; bitvec.xor3 bv p q r.

Context `{!FieldWrappingSum E}.
Definition assert_schedule (adder : AnalogAdder E) (w : list V32) : M logic.Assertions :=
  logic.assert_mapi "schedule" (seq 16 48) (fun _ i =>
    wi ← lift_l (index w i);
    w2 ← lift_l (index w (i - 2)); s1 ← sigma1 w2;
    w7 ← lift_l (index w (i - 7));
    w15 ← lift_l (index w (i - 15)); s0 ← sigma0 w15;
    w16 ← lift_l (index w (i - 16));
    r ← assert_wrapping_sum adder 32 wi [[s1; w7; s0; w16]];
    mret (r, tt)) tt.
(** [state] is the closure's array of eight words. *)
Definition round_step (adder : AnalogAdder E) (w : list V32) (derived : Derived) (state : list V32) (t : nat)
  : M (logic.Assertions * list V32) :=
  match state with
  | [a; b; c; d; e; f; g; h] =>
      s1 ← bigsigma1 e;
      k ← lift_l (index K t);
      c1 ← ch e f g;
      wt ← lift_l (index w t);
      let t1 := [h; s1; bitvec.of_u32 k; c1; wt] in
      s0 ← bigsigma0 a; m ← bitvec.maj bv a b c;
      let t2 := [s0; m] in
      et ← lift_l (index (oute derived) t);
      oute_assertion ← assert_wrapping_sum adder 32 et [[d]; t1];
      at_ ← lift_l (index (outa derived) t);
      outa_assertion ← assert_wrapping_sum adder 32 at_ [t2; t1];
      r ← logic.assert_all "round_step" [oute_assertion; outa_assertion];
      mret (r, [at_; a; b; c; et; e; f; g])
  | _ => lift_l Panic
  end.
Definition assert_final (adder : AnalogAdder E) (given : Given) (derived : Derived) (state : list V32) : M logic.Assertions :=
  logic.assert_mapi "final" (seq 0 8) (fun _ i =>
    hi ← lift_l (index (h1 derived) i); h0i ← lift_l (index (h0 given) i); si ← lift_l (index state i);
    r ← assert_wrapping_sum adder 32 hi [[h0i; si]];
    mret (r, tt)) tt.
Definition assert_transform_block (given : Given) (derived : Derived) : M logic.Assertions :=
  let w := input_block given ++ outw derived in
  adder ← lift_l adder.new;
  schedule_assertions ← assert_schedule adder w;
  state ← mapM (fun i => lift_l (index (h0 given) i)) (seq 0 8);
  '(round_assertions, state) ← logic.assert_mapi_vars "rounds" (seq 0 64) (round_step adder w derived) state;
  final_assertions ← assert_final adder given derived state;
  logic.assert_all "sha256" [schedule_assertions; final_assertions; round_assertions].

(** *** [evaluate.rs]: constants *)
Definition evaluate_given (given : sha_concrete.ConcreteGiven) : Given :=
  {| input_block := map bitvec.of_u32 (sha_concrete.input_block given); h0 := map bitvec.of_u32 (sha_concrete.h0 given) |}.
Definition evaluate_derived (derived : sha_concrete.ConcreteDerived) : Derived :=
  {| outw := map bitvec.of_u32 (sha_concrete.outw derived); oute := map bitvec.of_u32 (sha_concrete.oute derived);
     outa := map bitvec.of_u32 (sha_concrete.outa derived); h1 := map bitvec.of_u32 (sha_concrete.h1 derived) |}.

(** *** [allocate.rs] *)
Context `{!logic.LogicIO E}.
(** [count] words, one after the other. *)
Fixpoint next_words (count pos : nat) : M (list V32 * nat) :=
  match count with
  | O => mret ([], pos)
  | S count => '(v, pos) ← bitvec.next 32 pos; '(vs, pos) ← next_words count pos; mret (v :: vs, pos)
  end.
Definition allocate_given (pos : nat) : M (Given * nat) :=
  '(input_block, pos) ← next_words 16 pos; '(h0, pos) ← next_words 8 pos;
  mret ({| input_block := input_block; h0 := h0 |}, pos).
Definition allocate_derived (pos : nat) : M (Derived * nat) :=
  '(outw, pos) ← next_words 48 pos; '(oute, pos) ← next_words 64 pos;
  '(outa, pos) ← next_words 64 pos; '(h1, pos) ← next_words 8 pos;
  mret ({| outw := outw; oute := oute; outa := outa; h1 := h1 |}, pos).
End sha256.
End sha256.

(** ** Words as vectors *)
Section bits.
Local Open Scope N_scope.
Lemma testbit_high n i : n < 2 ^ 32 -> 32 <= i -> N.testbit n i = false.
Proof.
  intros Hn Hi. destruct (N.eq_dec n 0) as [->|Hz]; [apply N.bits_0|]. apply N.bits_above_log2.
  assert (N.log2 n < 32) by (apply N.log2_lt_pow2; lia). lia.
Qed.
Lemma u32_testbit x i : N.testbit (sha_concrete.u32 x) i = (i <? 32) && N.testbit x i.
Proof.
  unfold sha_concrete.u32. destruct (N.ltb_spec i 32); [by rewrite N.mod_pow2_bits_low|by rewrite N.mod_pow2_bits_high].
Qed.
Lemma below_testbit x : (forall i, 32 <= i -> N.testbit x i = false) -> x < 2 ^ 32.
Proof.
  intros Hx. destruct (N.eq_dec x 0) as [->|Hz]; [done|]. apply N.log2_lt_pow2; [lia|].
  destruct (N.lt_ge_cases (N.log2 x) 32) as [|Hge]; [done|]. specialize (Hx _ Hge). by rewrite N.bit_log2 in Hx.
Qed.
Lemma rotate_right_testbit x k i : x < 2 ^ 32 -> 0 < k < 32 -> i < 32 ->
  N.testbit (sha_concrete.rotate_right x k) i = N.testbit x ((i + k) mod 32).
Proof.
  intros Hx Hk Hi. unfold sha_concrete.rotate_right. rewrite N.lor_spec, u32_testbit, N.shiftr_spec', (proj2 (N.ltb_lt i 32)) by lia.
  cbn [andb]. destruct (N.lt_ge_cases (i + k) 32) as [Hlt|Hge].
  - rewrite (N.mod_small _ _ Hlt), N.shiftl_spec_low by lia. by rewrite orb_false_r.
  - rewrite (testbit_high x (i + k)) by done. rewrite N.shiftl_spec_high' by lia. cbn [orb]. f_equal.
    replace (i + k) with (i + k - 32 + 1 * 32) by lia. rewrite N.Div0.mod_add, N.mod_small by lia. lia.
Qed.
Lemma rotate_right_below x k : x < 2 ^ 32 -> 0 < k < 32 -> sha_concrete.rotate_right x k < 2 ^ 32.
Proof.
  intros Hx Hk. apply below_testbit. intros i Hi. unfold sha_concrete.rotate_right.
  rewrite N.lor_spec, u32_testbit, N.shiftr_spec', (proj2 (N.ltb_ge i 32)), testbit_high by lia. done.
Qed.
Lemma shiftr_below x k : x < 2 ^ 32 -> N.shiftr x k < 2 ^ 32.
Proof. intros Hx. apply below_testbit. intros i Hi. rewrite N.shiftr_spec', testbit_high by lia. done. Qed.
Lemma lxor_below x y : x < 2 ^ 32 -> y < 2 ^ 32 -> N.lxor x y < 2 ^ 32.
Proof. intros Hx Hy. apply below_testbit. intros i Hi. by rewrite N.lxor_spec, !testbit_high. Qed.
Lemma land_below x y : x < 2 ^ 32 -> N.land x y < 2 ^ 32.
Proof. intros Hx. apply below_testbit. intros i Hi. by rewrite N.land_spec, testbit_high. Qed.
Lemma not32_testbit x i : i < 32 -> N.testbit (sha_concrete.not32 x) i = negb (N.testbit x i).
Proof.
  intros Hi. unfold sha_concrete.not32. rewrite N.lxor_spec. change (2 ^ 32 - 1) with (N.ones 32). rewrite N.ones_spec_low by done.
  apply xorb_true_r.
Qed.
Lemma not32_below x : x < 2 ^ 32 -> sha_concrete.not32 x < 2 ^ 32.
Proof. intros Hx. by apply lxor_below. Qed.
Lemma u32_below x : sha_concrete.u32 x < 2 ^ 32.
Proof. by apply N.mod_lt. Qed.
Local Close Scope N_scope.

#[local] Abbreviation v32 n := (vec 32 n).
Lemma tabulate_vec f n : (forall i, i < 32 -> f i = N.testbit n (N.of_nat i)) -> tabulate 32 f = v32 n.
Proof. intros Hf. apply tabulate_ext. intros i Hi. by apply Hf. Qed.
Lemma vec_at n i : i < 32 -> v32 n !!! i = N.testbit n (N.of_nat i).
Proof. exact (tabulate_at 32 (fun i => N.testbit n (N.of_nat i)) i). Qed.
Lemma rotr_vec k n : (n < 2 ^ 32)%N -> 0 < k < 32 -> rotr_bits k (v32 n) = v32 (sha_concrete.rotate_right n (N.of_nat k)).
Proof.
  intros Hn Hk. unfold rotr_bits. rewrite length_vec. apply tabulate_vec. intros i Hi.
  rewrite vec_at by (apply Nat.mod_upper_bound; lia). rewrite rotate_right_testbit by lia. f_equal. lia.
Qed.
Lemma shr_vec k n : (n < 2 ^ 32)%N -> shr_bits k (v32 n) = v32 (N.shiftr n (N.of_nat k)).
Proof.
  intros Hn. unfold shr_bits. rewrite length_vec. apply tabulate_vec. intros i Hi. rewrite N.shiftr_spec'.
  destruct (Nat.ltb_spec (i + k) 32); [rewrite vec_at by done; f_equal; lia|by rewrite testbit_high by lia].
Qed.
End bits.

(** ** What the circuit asserts of words *)
Section words.
Import sha_concrete.

Definition sums (ns : list N) : N := foldr N.add 0%N ns.
Lemma u32_add_l x y : u32 (u32 x + y) = u32 (x + y).
Proof. apply N.Div0.add_mod_idemp_l. Qed.
Lemma u32_add_r x y : u32 (x + u32 y) = u32 (x + y).
Proof. apply N.Div0.add_mod_idemp_r. Qed.
Ltac flatten_u32 := repeat first [rewrite u32_add_l | rewrite <- N.add_assoc].
(** Sums in the order of the circuit. *)
Definition schedule_sum (w : list N) (i : nat) : N :=
  sums [sigma1_lower (word w (i - 2)); word w (i - 7); sigma0_lower (word w (i - 15)); word w (i - 16)].
Lemma schedule_sum_ok w i : u32 (schedule_sum w i) = schedule_word w i.
Proof. unfold schedule_sum, schedule_word, wrapping_add, sums. cbn [foldr]. flatten_u32. f_equal. lia. Qed.
Definition temp1_terms (w : list N) (st : State) (t : nat) : list N :=
  let '(a, b, c, d, e, f, g, h) := st in [h; sigma1_upper e; word K t; ch e f g; word w t].
Definition temp2_terms (st : State) : list N := let '(a, b, c, d, e, f, g, h) := st in [sigma0_upper a; maj a b c].
Definition state_d (st : State) : N := let '(_, _, _, d, _, _, _, _) := st in d.
Lemma sha_round_sums w st t :
  u32 (sums (state_d st :: temp1_terms w st t)) = state_e (round w st t) /\
  u32 (sums (temp2_terms st ++ temp1_terms w st t)) = state_a (round w st t).
Proof.
  destruct st as [[[[[[[a b] c] d] e] f] g] h]. cbn [round state_d state_e state_a temp1_terms temp2_terms app sums foldr].
  set (t1 := wrapping_add _ (word w t)). assert (t1 = u32 (h + (sigma1_upper e + (word K t + (ch e f g + (word w t + 0)))))) as ->.
  { subst t1. unfold wrapping_add. flatten_u32. f_equal. lia. }
  unfold wrapping_add. split; [by rewrite u32_add_r|]. rewrite u32_add_l, u32_add_r. f_equal. lia.
Qed.

(** *** The schedule is the solution of its equations *)
Lemma schedule_word_local w w' i : 16 <= i -> (forall j, j < i -> w !! j = w' !! j) -> schedule_word w i = schedule_word w' i.
Proof. intros Hi Hw. unfold schedule_word, word. by rewrite !Hw by lia. Qed.
Lemma schedule_loop n : forall w, 16 <= length w ->
  let r := foldl (fun w i => <[i := schedule_word w i]> w) w (seq 16 n) in
  length r = length w /\ (forall j, j < 16 \/ 16 + n <= j -> r !! j = w !! j) /\
  (forall i, 16 <= i < 16 + n -> i < length w -> r !! i = Some (schedule_word r i)).
Proof.
  induction n as [|n IH]; intros w Hw; [by split; [|split; [|lia]]|]. rewrite seq_S, foldl_app. cbn [foldl].
  destruct (IH w Hw) as (Hl & Hout & Hin). set (r := foldl _ w (seq 16 n)) in *. cbn zeta in *.
  split; [by rewrite length_insert|]. split.
  - intros j Hj. rewrite list_lookup_insert_ne by lia. apply Hout. lia.
  - intros i Hi Hlt. rewrite (schedule_word_local (<[16 + n := _]> r) r i) by (first [lia|intros j Hj; apply list_lookup_insert_ne; lia]).
    destruct (decide (i = 16 + n)) as [->|Hne]; [apply list_lookup_insert_eq; lia|]. rewrite list_lookup_insert_ne by lia. apply Hin; lia.
Qed.
Lemma schedule_spec block : length block = 16 ->
  length (schedule block) = 64 /\ (forall j, j < 16 -> schedule block !! j = block !! j) /\
  (forall i, 16 <= i < 64 -> schedule block !! i = Some (schedule_word (schedule block) i)).
Proof.
  intros Hb. unfold schedule. destruct (schedule_loop 48 (block ++ replicate 48 0%N)) as (Hl & Hout & Hin); [rewrite length_app; lia|].
  generalize dependent (foldl (fun w i => <[i := schedule_word w i]> w) (block ++ replicate 48 0%N) (seq 16 48)).
  intros r Hl Hout Hin. rewrite length_app, length_replicate, Hb in *. split; [done|]. split.
  - intros j Hj. rewrite Hout by lia. by rewrite lookup_app_l by lia.
  - intros i Hi. apply Hin; lia.
Qed.
Lemma schedule_unique block w : length block = 16 -> length w = 64 -> take 16 w = block ->
  (forall i, 16 <= i < 64 -> word w i = schedule_word w i) <-> w = schedule block.
Proof.
  intros Hb Hw Ht. destruct (schedule_spec block Hb) as (Hl & Hout & Hin). generalize dependent (schedule block). intros r Hl Hout Hin. split.
  - intros Heq. assert (forall i, i < 64 -> w !! i = r !! i) as Hi.
    { intros i. induction i as [i IH] using (well_founded_induction lt_wf). intros Hlt.
      destruct (decide (i < 16)) as [Hs|Hs].
      - rewrite Hout by lia. by rewrite <- Ht, lookup_take_lt.
      - rewrite Hin by lia. destruct (lookup_lt_is_Some_2 w i) as [x Hx]; [lia|]. rewrite Hx. f_equal.
        rewrite <- (schedule_word_local w (r) i) by (first [lia|intros j Hj; apply IH; lia]).
        rewrite <- Heq by lia. unfold word. by rewrite Hx. }
    apply list_eq. intros i. destruct (decide (i < 64)) as [?|?]; [by apply Hi|]. by rewrite !lookup_ge_None_2 by lia.
  - intros -> i Hi. unfold word at 1. by rewrite Hin by lia.
Qed.

(** *** The rounds are the solution of theirs *)
Context (w oute outa : list N).
(** The states of the circuit are those it is given. *)
Definition round_prop (st : State) (t : nat) : Prop * State :=
  ((word oute t = state_e (round w st t) /\ word outa t = state_a (round w st t)),
   let '(a, b, c, d, e, f, g, h) := st in (word outa t, a, b, c, word oute t, e, f, g)).
Lemma round_prop_next st t : (round_prop st t).1 -> (round_prop st t).2 = round w st t.
Proof.
  destruct st as [[[[[[[a b] c] d] e] f] g] h]. cbn [round_prop fst snd]. intros [-> ->]. reflexivity.
Qed.
Lemma rounds_unique n : forall k st, k + n = length oute -> length outa = length oute ->
  (Forall id (mapi_props round_prop st (seq k n)) <-> (drop k oute, drop k outa) = (rounds w st (seq k n)).1) /\
  (Forall id (mapi_props round_prop st (seq k n)) -> mapi_vars round_prop st (seq k n) = (rounds w st (seq k n)).2).
Proof.
  induction n as [|n IH]; intros k st Hk Hl; cbn [seq mapi_props mapi_vars foldl rounds].
  - split; [|done]. rewrite !drop_ge by lia. split; [done|constructor].
  - destruct (lookup_lt_is_Some_2 oute k) as [e He]; [lia|]. destruct (lookup_lt_is_Some_2 outa k) as [a Ha]; [lia|].
    rewrite (drop_S _ _ _ He), (drop_S _ _ _ Ha).
    assert ((round_prop st k).1 <-> e = state_e (round w st k) /\ a = state_a (round w st k)) as Hhead.
    { cbn [round_prop fst]. unfold word. by rewrite He, Ha. }
    pose proof (round_prop_next st k) as Hnext. destruct (round_prop st k) as [P st'] eqn:HP. cbn [fst snd] in *.
    destruct (IH (S k) st') as [IH1 IH2]; [lia|done|]. destruct (IH (S k) (round w st k)) as [IH3 IH4]; [lia|done|].
    destruct (rounds w (round w st k) (seq (S k) n)) as [[es bs] last]. cbn [fst snd] in *. split.
    + rewrite Forall_cons. unfold id at 1. split.
      * intros [Hp Hr]. rewrite (Hnext Hp) in Hr. apply IH3 in Hr. apply Hhead in Hp as [-> ->]. by injection Hr as -> ->.
      * intros Heq. injection Heq as He' Hes Ha' Hbs. assert P as Hp by by apply Hhead. split; [done|]. rewrite (Hnext Hp). apply IH3. by rewrite Hes, Hbs.
    + rewrite Forall_cons. unfold id at 1. intros [Hp Hr]. rewrite (Hnext Hp) in *. by apply IH4.
Qed.
End words.

(** ** The circuit computes on words *)
Ltac listed := repeat (apply Forall2_cons_2 || apply Forall2_nil_2); eassumption.
Section circuit.
Context {E : Type} `{AlgebraicFieldLaws E} `{!logic.Logic E} (C : Prop) `{!LogicLaws E C}.
Context (bv : BitvecLogic E) (Hbv : boolean_ok (bv_arith bv)).
#[local] Abbreviation bits := (listR (Boolean.bit C)).

Definition word32 (s : World) (v : list (Bitw E)) (n : N) : Prop := (n < 2 ^ 32)%N /\ bits s v (vec 32 n).
#[export] Instance word32_mono : Mono ll_ext word32.
Proof. intros s s' v n He [Hn Hv]. split; [done|]. by apply (mono (R:=bits) s s'). Qed.
(** A vector of bits that are those of a word. *)
Lemma returns_word s m l n : returns bits s m l -> (n < 2 ^ 32)%N -> l = vec 32 n -> returns word32 s m n.
Proof. intros Hm Hn ->. eapply refines_mono; [exact Hm|done|]. intros v s' _ _ Hv. by split. Qed.

Lemma rotr_word k s v n : 0 < k < 32 -> ll_inv s -> word32 s v n -> returns word32 s (bitvec.rotr k v) (sha_concrete.rotate_right n (N.of_nat k)).
Proof.
  intros Hk Hi [Hn Hv]. eapply returns_word; [by apply rotr_ok|apply rotate_right_below; [done|lia]|by apply rotr_vec].
Qed.
Lemma shr_word k s v n : ll_inv s -> word32 s v n -> returns word32 s (bitvec.shr k v) (N.shiftr n (N.of_nat k)).
Proof. intros Hi [Hn Hv]. eapply returns_word; [by apply shr_ok|by apply shiftr_below|by apply shr_vec]. Qed.
Lemma xor3_word s u v w x y z : ll_inv s -> word32 s u x -> word32 s v y -> word32 s w z ->
  returns word32 s (bitvec.xor3 bv u v w) (N.lxor (N.lxor x y) z).
Proof.
  intros Hi [Hx Hu] [Hy Hv] [Hz Hw]. eapply returns_word; [by apply (xor3_vec_ok C _ Hbv _ _ _ _ _ _ _ Hi Hu Hv Hw); rewrite !length_vec|by repeat apply lxor_below|].
  rewrite length_vec. apply tabulate_vec. intros i Hlt. by rewrite !vec_at, !N.lxor_spec, xorb_assoc.
Qed.
Lemma maj_word s u v w x y z : ll_inv s -> word32 s u x -> word32 s v y -> word32 s w z ->
  returns word32 s (bitvec.maj bv u v w) (sha_concrete.maj x y z).
Proof.
  intros Hi [Hx Hu] [Hy Hv] [Hz Hw]. eapply returns_word; [by apply (maj_vec_ok C _ Hbv _ _ _ _ _ _ _ Hi Hu Hv Hw); rewrite !length_vec|by repeat apply lxor_below; apply land_below|].
  rewrite length_vec. apply tabulate_vec. intros i Hlt. unfold sha_concrete.maj. rewrite !vec_at, !N.lxor_spec, !N.land_spec by done.
  by destruct (N.testbit x _), (N.testbit y _), (N.testbit z _).
Qed.
Lemma ch_word s u v w x y z : ll_inv s -> word32 s u x -> word32 s v y -> word32 s w z ->
  returns word32 s (sha256.ch bv u v w) (sha_concrete.ch x y z).
Proof.
  intros Hi [Hx Hu] [Hy Hv] [Hz Hw]. eapply returns_word; [by apply (muxb_vec_ok C _ Hbv _ _ _ _ _ _ _ Hi Hu Hv Hw); rewrite !length_vec|apply lxor_below; apply land_below; [done|by apply not32_below]|].
  rewrite length_vec. apply tabulate_vec. intros i Hlt. unfold sha_concrete.ch. rewrite !vec_at, N.lxor_spec, !N.land_spec, not32_testbit by lia.
  by destruct (N.testbit x _), (N.testbit y _), (N.testbit z _).
Qed.
Lemma sigma_words s v n : ll_inv s -> word32 s v n ->
  returns word32 s (sha256.bigsigma0 bv v) (sha_concrete.sigma0_upper n) /\ returns word32 s (sha256.bigsigma1 bv v) (sha_concrete.sigma1_upper n) /\
  returns word32 s (sha256.sigma0 bv v) (sha_concrete.sigma0_lower n) /\ returns word32 s (sha256.sigma1 bv v) (sha_concrete.sigma1_lower n).
Proof.
  intros Hi Hv. split_and!.
  - unfold sha256.bigsigma0. step_by ltac:(apply (rotr_word 2); [lia|done|done]) p. step_by ltac:(apply (rotr_word 13); [lia|done|done]) q.
    step_by ltac:(apply (rotr_word 22); [lia|done|exact Hv]) r. by apply xor3_word.
  - unfold sha256.bigsigma1. step_by ltac:(apply (rotr_word 6); [lia|done|done]) p. step_by ltac:(apply (rotr_word 11); [lia|done|done]) q.
    step_by ltac:(apply (rotr_word 25); [lia|done|exact Hv]) r. by apply xor3_word.
  - unfold sha256.sigma0. step_by ltac:(apply (rotr_word 7); [lia|done|done]) p. step_by ltac:(apply (rotr_word 18); [lia|done|done]) q.
    step_by ltac:(apply (shr_word 3); [done|exact Hv]) r. by apply xor3_word.
  - unfold sha256.sigma1. step_by ltac:(apply (rotr_word 17); [lia|done|done]) p. step_by ltac:(apply (rotr_word 19); [lia|done|done]) q.
    step_by ltac:(apply (shr_word 10); [done|exact Hv]) r. by apply xor3_word.
Qed.

Context `{!FieldWrappingSum E} `{!FieldWrappingSumLaws E C}.
Context (adder : AnalogAdder E) (Ha1 : boolean_ok (bv_arith (ad_bv adder))) (Ha2 : boolean_ok (ad_boolean adder)).
(** Up to seven words are added up. *)
Context (Hlimit : forall n, 2 <= n <= 7 -> sum_limit 32 n).
#[local] Abbreviation words := (listR word32).

Lemma words_bits s vs ns : words s vs ns -> listR bits s vs (map (vec 32) ns) /\ Forall (fun n => n < 2 ^ 32)%N ns.
Proof. induction 1 as [|v n vs ns [Hn Hv] _ [IH1 IH2]]; [by split; constructor|]. by split; constructor. Qed.
Lemma total_words ns : Forall (fun n => n < 2 ^ 32)%N ns -> total (map (vec 32) ns) = sums ns.
Proof.
  induction 1 as [|n ns Hn _ IH]; [done|]. cbn [map]. change (total (?l :: ?ls)) with (num l + total ls)%N.
  change (sums (n :: ns)) with (n + sums ns)%N. rewrite IH, num_vec, N.mod_small by done. done.
Qed.
(** One sum of words. *)
Lemma sum_word_ok s expected e terms nss : ll_inv s -> word32 s expected e -> listR words s terms nss -> 2 <= length (concat nss) <= 7 ->
  checks C s (assert_wrapping_sum adder 32 expected terms) (e = sha_concrete.u32 (sums (concat nss))).
Proof.
  intros Hi [He Hx] Ht Hn. assert (listR (listR bits) s terms (map (map (vec 32)) nss) /\ Forall (fun n => n < 2 ^ 32)%N (concat nss)) as [Hterms Hall].
  { clear Hn. induction Ht as [|vs ns terms nss Hvs _ [IH1 IH2]]; [by split; constructor|]. apply words_bits in Hvs as [? ?].
    split; [by constructor|]. by apply Forall_app. }
  eapply checks_iff; [|eapply (assert_wrapping_sum_ok adder 32 s expected (vec 32 e) terms (map (map (vec 32)) nss)); [done..|apply length_vec| |]].
  - rewrite num_vec, N.mod_small by done. rewrite <- concat_map, total_words by done. done.
  - rewrite <- concat_map. apply Forall_map, Forall_forall. intros n _. apply length_vec.
  - rewrite <- concat_map, length_map. by apply Hlimit.
Qed.
Lemma word_at s vs ns i : words s vs ns -> i < length ns -> exists v, vs !! i = Some v /\ word32 s v (sha_concrete.word ns i).
Proof.
  intros Hv Hi. destruct (lookup_lt_is_Some_2 ns i Hi) as [n Hn]. destruct (Forall2_lookup_r _ _ _ _ _ Hv Hn) as (v & Hvi & Hw).
  exists v. split; [done|]. unfold sha_concrete.word. by rewrite Hn.
Qed.
(** [w[i]] *)
Lemma index_word {A B} pan (R : World -> A -> B -> Prop) s vs ns i k y : ll_inv s -> words s vs ns -> i < length ns ->
  (forall v, word32 s v (sha_concrete.word ns i) -> refines ll_inv ll_ext pan R s (k v) y) ->
  refines ll_inv ll_ext pan R s (lift_l (index vs i) ≫= k) y.
Proof. intros Hi Hv Hlt Hk. destruct (word_at _ _ _ _ Hv Hlt) as (v & Hvi & Hw). eapply refines_index; [exact Hvi|by apply Hk]. Qed.

Lemma sha_schedule_ok s w ws : ll_inv s -> words s w ws -> length ws = 64 ->
  checks C s (sha256.assert_schedule bv adder w) (forall i, 16 <= i < 64 -> sha_concrete.word ws i = sha_concrete.schedule_word ws i).
Proof.
  intros Hi Hw Hl. unfold sha256.assert_schedule.
  apply (assert_mapi_ok C _ _ _ (fun i => sha_concrete.word ws i = sha_concrete.schedule_word ws i)); [done|done| |].
  - intros i s' Hin%elem_of_seq Hi' He. apply (mono (R:=words) s s') in Hw; [|done].
    eapply index_word; [done|exact Hw|lia|]. intros wi Hwi.
    eapply index_word; [done|exact Hw|lia|]. intros w2 Hw2. step_by ltac:(by apply (sigma_words _ _ _ Hi' Hw2)) g1.
    eapply index_word; [done|exact Hw|lia|]. intros w7 Hw7.
    eapply index_word; [done|exact Hw|lia|]. intros w15 Hw15. step_by ltac:(by apply sigma_words) g0.
    eapply index_word; [done|exact Hw|lia|]. intros w16 Hw16.
    rewrite <- schedule_sum_ok. apply unit_body.
    refine (sum_word_ok _ _ _ _ [[sha_concrete.sigma1_lower (sha_concrete.word ws (i - 2)); sha_concrete.word ws (i - 7);
      sha_concrete.sigma0_lower (sha_concrete.word ws (i - 15)); sha_concrete.word ws (i - 16)]] Hi1 Hwi _ _); [listed|cbn; lia].
  - rewrite Forall_forall. split; intros Hq i Hin; apply Hq; [apply elem_of_seq|apply elem_of_seq in Hin]; lia.
Qed.

(** *** The rounds *)
Lemma K_words : Forall (fun k => k < 2 ^ 32)%N K /\ length K = 64.
Proof. split; [|done]. apply (bool_decide_unpack _). by vm_compute. Qed.
Lemma index_K {A B} pan (R : World -> A -> B -> Prop) s t k y : t < 64 ->
  (forall c, word32 s (bitvec.of_u32 c) (sha_concrete.word K t) -> refines ll_inv ll_ext pan R s (k c) y) ->
  refines ll_inv ll_ext pan R s (lift_l (index K t) ≫= k) y.
Proof.
  intros Ht Hk. destruct (lookup_lt_is_Some_2 K t) as [c Hc]; [by rewrite (proj2 K_words)|]. eapply refines_index; [exact Hc|]. apply Hk.
  unfold sha_concrete.word. rewrite Hc. cbn [default]. pose proof (proj1 K_words) as HF. rewrite Forall_forall in HF.
  specialize (HF c (list_elem_of_lookup_2 _ _ _ Hc)). split; [exact HF|]. by apply of_u32_ok.
Qed.
Definition stateR (_ : list nat) (s : World) (vars : list (list (Bitw E))) (st : sha_concrete.State) : Prop :=
  words s vars (sha_concrete.state_words st).
#[export] Instance stateR_mono l : Mono ll_ext (stateR l).
Proof. intros s s' vars st. apply (mono (R:=words)). Qed.
Lemma state_words_inv s vars st : words s vars (sha_concrete.state_words st) -> exists a b c d e f g h a' b' c' d' e' f' g' h',
  vars = [a; b; c; d; e; f; g; h] /\ st = (a', b', c', d', e', f', g', h') /\
  word32 s a a' /\ word32 s b b' /\ word32 s c c' /\ word32 s d d' /\ word32 s e e' /\ word32 s f f' /\ word32 s g g' /\ word32 s h h'.
Proof.
  destruct st as [[[[[[[a' b'] c'] d'] e'] f'] g'] h']. intros Hv.
  repeat match goal with H : Forall2 _ _ _ |- _ => inversion H; clear H; subst | H : listR _ _ _ _ |- _ => inversion H; clear H; subst end.
  do 16 eexists. split_and!; try reflexivity; assumption.
Qed.

Lemma round_step_ok rest s w ws derived oe oa vars st t : ll_inv s -> t < 64 -> words s w ws -> length ws = 64 ->
  words s (sha256.oute derived) oe -> length oe = 64 -> words s (sha256.outa derived) oa -> length oa = 64 ->
  words s vars (sha_concrete.state_words st) ->
  refines ll_inv ll_ext (ll_rejects /\ ~ (round_prop ws oe oa st t).1) (pairR (asserts C) (stateR rest)) s
    (sha256.round_step bv adder w derived vars t) (round_prop ws oe oa st t).
Proof.
  intros Hi Ht Hw Hlw Hoe Hle Hoa Hla Hst.
  apply state_words_inv in Hst as (a & b & c & d & e & f & g & h & a' & b' & c' & d' & e' & f' & g' & h' & -> & -> & Ha & Hb & Hc & Hd & He & Hf & Hg & Hh).
  pose proof (sha_round_sums ws (a', b', c', d', e', f', g', h') t) as [Hse Hsa].
  remember (round_prop ws oe oa (a', b', c', d', e', f', g', h') t).1 as P eqn:Hfst.
  assert (HP : (P <-> sha_concrete.word oe t = sha_concrete.u32 (sums [d'; h'; sha_concrete.sigma1_upper e'; sha_concrete.word K t; sha_concrete.ch e' f' g'; sha_concrete.word ws t]) /\
    sha_concrete.word oa t = sha_concrete.u32 (sums [sha_concrete.sigma0_upper a'; sha_concrete.maj a' b' c'; h'; sha_concrete.sigma1_upper e'; sha_concrete.word K t; sha_concrete.ch e' f' g'; sha_concrete.word ws t])))
    by (rewrite Hfst; cbn [round_prop fst]; rewrite <- Hse, <- Hsa; done).
  clear Hse Hsa. unfold sha256.round_step.
  step_by ltac:(by apply (sigma_words _ _ _ Hi He)) s1.
  apply index_K; [done|]. intros k HK.
  step_by ltac:(by apply ch_word) c1. eapply index_word; [done|exact Hw|lia|]. intros wt Hwt. cbn zeta.
  step_by ltac:(by apply (sigma_words _ a)) s2. step_by ltac:(by apply maj_word) m.
  eapply index_word; [done|exact Hoe|lia|]. intros et Het.
  check_by ltac:(refine (sum_word_ok _ _ _ _ [[d']; [h'; sha_concrete.sigma1_upper e'; sha_concrete.word K t; sha_concrete.ch e' f' g'; sha_concrete.word ws t]] _ Het _ _);
    [done|listed|cbn; lia]) p.
  { cbn [concat app]. tauto. }
  eapply index_word; [done|exact Hoa|lia|]. intros at_ Hat.
  check_by ltac:(refine (sum_word_ok _ _ _ _ [[sha_concrete.sigma0_upper a'; sha_concrete.maj a' b' c']; [h'; sha_concrete.sigma1_upper e'; sha_concrete.word K t; sha_concrete.ch e' f' g'; sha_concrete.word ws t]] _ Hat _ _);
    [done|listed|cbn; lia]) q.
  { cbn [concat app]. tauto. }
  check_by ltac:(eapply (assert_all_ok _ _ _ _ P); [done|done|listed|rewrite HP; cbn [concat app]; by rewrite !Forall_cons, Forall_nil, (right_id True and)]) r.
  { done. }
  apply returns_ret; [done|]. split; [cbn [fst]; by rewrite <- Hfst|]. cbn [round_prop snd sha_concrete.state_words]. listed.
Qed.

(** *** The sums of the end *)
Lemma final_ok s given derived state h0 h1 st : ll_inv s -> words s (sha256.h0 given) h0 -> length h0 = 8 ->
  words s (sha256.h1 derived) h1 -> length h1 = 8 -> words s state (sha_concrete.state_words st) ->
  checks C s (sha256.assert_final adder given derived state) (h1 = zip_with sha_concrete.wrapping_add h0 (sha_concrete.state_words st)).
Proof.
  intros Hi Hh Hl Hh1 Hl1 Hst. assert (length (sha_concrete.state_words st) = 8) as Hls by by destruct st as [[[[[[[? ?] ?] ?] ?] ?] ?] ?].
  generalize dependent (sha_concrete.state_words st). intros ss Hss Hls. unfold sha256.assert_final.
  apply (assert_mapi_ok C _ _ _ (fun i => sha_concrete.word h1 i = sha_concrete.u32 (sums [sha_concrete.word h0 i; sha_concrete.word ss i]))); [done|done| |].
  - intros i s' Hin%elem_of_seq Hi' He. apply (mono (R:=words) s s') in Hh; [|done]. apply (mono (R:=words) s s') in Hh1; [|done].
    apply (mono (R:=words) s s') in Hss; [|done].
    eapply index_word; [done|exact Hh1|lia|]. intros x Hx. eapply index_word; [done|exact Hh|lia|]. intros y Hy.
    eapply index_word; [done|exact Hss|lia|]. intros z Hz. apply unit_body.
    refine (sum_word_ok _ _ _ _ [[sha_concrete.word h0 i; sha_concrete.word ss i]] Hi' Hx _ _); [listed|cbn; lia].
  - rewrite Forall_forall. assert (forall i, i < 8 -> (sha_concrete.word h1 i = sha_concrete.u32 (sums [sha_concrete.word h0 i; sha_concrete.word ss i]) <->
      h1 !! i = zip_with sha_concrete.wrapping_add h0 ss !! i)) as Hat.
    { intros i Hlt. rewrite lookup_zip_with. unfold sha_concrete.word, sha_concrete.wrapping_add, sums. cbn [foldr].
      destruct (lookup_lt_is_Some_2 h0 i) as [x ->]; [lia|]. destruct (lookup_lt_is_Some_2 ss i) as [y ->]; [lia|].
      destruct (lookup_lt_is_Some_2 h1 i) as [z ->]; [lia|]. cbn. rewrite N.add_0_r. split; [by intros ->|congruence]. }
    split.
    + intros Hq. apply list_eq. intros i. destruct (decide (i < 8)) as [Hlt|Hge]; [apply Hat, Hq, elem_of_seq; lia|].
      rewrite !lookup_ge_None_2; [done|rewrite length_zip_with; lia|lia].
    + intros -> i Hin%elem_of_seq. apply Hat; [lia|done].
Qed.

(** ** A block *)
Record block_words (s : World) (given : sha256.Given) (derived : sha256.Derived)
    (G : sha_concrete.ConcreteGiven) (D : sha_concrete.ConcreteDerived) : Prop := {
  block_input : words s (sha256.input_block given) (sha_concrete.input_block G);
  block_h0 : words s (sha256.h0 given) (sha_concrete.h0 G);
  block_outw : words s (sha256.outw derived) (sha_concrete.outw D);
  block_oute : words s (sha256.oute derived) (sha_concrete.oute D);
  block_outa : words s (sha256.outa derived) (sha_concrete.outa D);
  block_h1 : words s (sha256.h1 derived) (sha_concrete.h1 D);
}.
End circuit.
(** The arrays have their lengths. *)
Record block_shape (G : sha_concrete.ConcreteGiven) (D : sha_concrete.ConcreteDerived) : Prop := {
  shape_input : length (sha_concrete.input_block G) = 16;
  shape_h0 : length (sha_concrete.h0 G) = 8;
  shape_outw : length (sha_concrete.outw D) = 48;
  shape_oute : length (sha_concrete.oute D) = 64;
  shape_outa : length (sha_concrete.outa D) = 64;
  shape_h1 : length (sha_concrete.h1 D) = 8;
}.
(** The equations hold together when the arrays are the function's. *)
Lemma derived_unique G D : block_shape G D ->
  let w := sha_concrete.input_block G ++ sha_concrete.outw D in
  let rp := round_prop w (sha_concrete.oute D) (sha_concrete.outa D) in
  let st := sha_concrete.initial_state (sha_concrete.h0 G) in
  (forall i, 16 <= i < 64 -> sha_concrete.word w i = sha_concrete.schedule_word w i) /\
  sha_concrete.h1 D = zip_with sha_concrete.wrapping_add (sha_concrete.h0 G) (sha_concrete.state_words (mapi_vars rp st (seq 0 64))) /\
  Forall id (mapi_props rp st (seq 0 64)) <-> D = sha_concrete.derived G.
Proof.
  intros [Hi Hh Hw He Ha H1] w rp st. subst w rp.
  destruct (rounds_unique (sha_concrete.input_block G ++ sha_concrete.outw D) (sha_concrete.oute D) (sha_concrete.outa D) 64 0 st) as [Hr Hv]; [lia|congruence|].
  pose proof (schedule_unique (sha_concrete.input_block G) (sha_concrete.input_block G ++ sha_concrete.outw D) Hi
    ltac:(rewrite length_app; lia) ltac:(rewrite <- Hi; apply take_app_length)) as Hs.
  assert (take 16 (sha_concrete.schedule (sha_concrete.input_block G)) = sha_concrete.input_block G) as Ht.
  { destruct (schedule_spec _ Hi) as (Hl & Hout & _). apply list_eq. intros i. destruct (decide (i < 16)) as [Hlt|Hge].
    - rewrite lookup_take_lt by done. by apply Hout.
    - rewrite !lookup_ge_None_2; [done|lia|]. rewrite length_take. lia. }
  unfold sha_concrete.derived. fold st. rewrite Hs, (take_ge (sha_concrete.h0 G)) by lia.
  generalize dependent (sha_concrete.schedule (sha_concrete.input_block G)). intros sch Hs Ht. clear Hs.
  assert (sha_concrete.outw D = drop 16 sch <-> sha_concrete.input_block G ++ sha_concrete.outw D = sch) as Hout.
  { split; [intros ->; rewrite <- Ht at 1; apply take_drop|intros <-; by rewrite drop_app_length']. }
  rewrite <- Hout. split.
  - intros (Hd & Hh1 & Hf). apply Hv in Hf as Hlast. apply Hr in Hf. rewrite Hlast in Hh1. clear Hr Hv Hlast.
    apply Hout in Hd as Heq. rewrite Heq in *. generalize dependent (sha_concrete.rounds sch st (seq 0 64)). intros [[es bs] last] Hfin Hf.
    cbn [fst snd] in *. rewrite !drop_0 in Hf. destruct D as [ow oe oa dh1]. cbn in *. congruence.
  - intros HD. assert (sha_concrete.outw D = drop 16 sch) as Hd.
    { rewrite HD. generalize (sha_concrete.rounds sch st (seq 0 64)). by intros [[es bs] last]. }
    apply Hout in Hd as Heq. rewrite Heq in *. rewrite !drop_0 in Hr.
    assert (Forall id (mapi_props (round_prop sch (sha_concrete.oute D) (sha_concrete.outa D)) st (seq 0 64))) as Hf.
    { apply Hr. rewrite HD. generalize (sha_concrete.rounds sch st (seq 0 64)). by intros [[es bs] last]. }
    split; [done|]. split; [|done]. rewrite (Hv Hf). rewrite HD at 1. generalize (sha_concrete.rounds sch st (seq 0 64)). by intros [[es bs] last].
Qed.

Section block.
Context {E : Type} `{AlgebraicFieldLaws E} `{!logic.Logic E} (C : Prop) `{!LogicLaws E C} `{!CompileField E}.
Context `{!FieldWrappingSum E} `{!FieldWrappingSumLaws E C} (Hlimit : forall n, 2 <= n <= 7 -> sum_limit 32 n).
Context (bv : BitvecLogic E) (Hbv : boolean_ok (bv_arith bv)).

Lemma initial_ok s h h0 : ll_inv s -> listR (word32 C) s h h0 -> length h0 = 8 ->
  returns (listR (word32 C)) s (mapM (fun i => lift_l (index h i)) (seq 0 8)) (sha_concrete.state_words (sha_concrete.initial_state h0)).
Proof.
  intros Hi Hh Hl. refine (refines_mapM ll_inv ll_ext False eqR (word32 C) _ (sha_concrete.word h0) (seq 0 8) (seq 0 8) s Hi ltac:(by apply listR_eq) _).
  intros i i' s' Hin%elem_of_seq Hi' He Heq. unfold eqR in Heq. subst i'. apply (mono (R:=listR (word32 C)) s s') in Hh; [|done].
  destruct (word_at C s' h h0 i Hh) as (v & Hv & Hw); [lia|]. unfold index. rewrite Hv. by apply returns_ret.
Qed.
Lemma transform_block_ok s given derived G D : ll_inv s -> block_words C s given derived G D -> block_shape G D ->
  checks C s (sha256.assert_transform_block bv given derived) (D = sha_concrete.derived G).
Proof.
  intros Hi Hb Hshape. eapply checks_iff; [by apply derived_unique|]. destruct Hb as [Hin Hh Hw Hoe Hoa Hh1], Hshape as [Li Lh Lw Le La L1].
  set (w := sha_concrete.input_block G ++ sha_concrete.outw D). cbn zeta.
  set (rp := round_prop w (sha_concrete.oute D) (sha_concrete.outa D)).
  assert (listR (word32 C) s (sha256.input_block given ++ sha256.outw derived) w) as Hws by by apply Forall2_app.
  assert (length w = 64) as Hlw by (subst w; rewrite length_app; lia). clearbody w. clear Hin Hw.
  unfold sha256.assert_transform_block.
  destruct (boolean_new (E:=E)) as (b & Hnew & Hok).
  assert (adder.new = Ok (Build_AnalogAdder (Build_BitvecLogic b b) b)) as -> by (unfold adder.new, bitvec.new; by rewrite Hnew).
  apply refines_lift. set (ad := Build_AnalogAdder _ b).
  check_by ltac:(by apply (sha_schedule_ok C bv Hbv ad Hok Hok Hlimit)) sa; [tauto|].
  step_by ltac:(by apply initial_ok) state. cbn [concat] in *.
  eapply refines_bind; [apply _|eapply (assert_mapi_vars_ok C "rounds" (seq 0 64) _ _ (stateR C) rp); [done|done|exact Hstate|]|tauto|].
  { intros vars b' t rest s' Hin%elem_of_seq Hi' He Hb. 
    refine (round_step_ok C bv Hbv ad Hok Hok Hlimit rest s' _ w derived _ _ vars b' t Hi' _ _ Hlw _ Le _ La Hb); [lia|by eapply (mono (R:=listR (word32 C)))..]. }
  intros [ra last] s' Hi' He [Hra Hlast]. cbn [fst snd] in *. lazymatch type of He with ll_ext ?w _ => carry w s' He end.
  check_by ltac:(by eapply (final_ok C ad Hok Hok Hlimit)) fa; [tauto|].
  eapply assert_all_ok; [done|done|listed|]. by rewrite !Forall_cons, Forall_nil, (right_id True and).
Qed.
End block.
