(* ===== verification/EvalLogic.v ===== *)
(** * Direct evaluation of circuits ([src/rust/compile/logic/src/eval.rs])

    [EvalLogic] runs a circuit on field elements.  A wire carries the
    assertions attached to it with what became of them; the assertions of a
    circuit are split into its own and the attached ones.  [eval_laws] shows
    that it implements [LogicLaws], and [run_correct] what a run reports. *)
From stdpp Require Import prelude gmap sorting strings.
From Stdlib Require Import Lia NArith Ring Ring_theory.
From S2P Require Import Prelude Words Interfaces Field FieldFacts Scope CompilerIR Logic.

(** [AssertionMap]; sharing is not modelled, maps are values. *)
Abbreviation AssertionMap := (gmap AssertionId AssertionStatus).

(** The order in which a hash map lists its keys, and [{:?}] of an element. *)
Class KeyOrder := keys : AssertionMap -> list AssertionId.
Class KeyOrderLaws `{KeyOrder} := keys_perm m : keys m ≡ₚ (map_to_list m).*1.
Class ShowElement (E : Type) := show_element : E -> string.

Record EvalWire (E : Type) := { w_value : E; w_assertions : AssertionMap }.
Arguments w_value {_} _. Arguments w_assertions {_} _. Arguments Build_EvalWire {_} _ _.
Record EvalAssertions := { ea_scoped : AssertionMap; ea_unscoped : AssertionMap }.

Module eval.
Section eval.
Context {E : Type} `{AlgebraicField E} `{!EqDecision E} `{KeyOrder} `{!ShowElement E}.
Local Open Scope fe_scope.

(** Where both maps have a key the right one counts ([extend]). *)
Definition merge_assertions (left right : AssertionMap) : AssertionMap :=
  if bool_decide (left = ∅) then right
  else if bool_decide (right = ∅) then left
  else right ∪ left.

(** A call of the assertion scope. *)
Definition tracked {A} (f : AssertionScope -> A * AssertionScope) : lcomp AssertionScope A := fun tracker => Ok (f tracker).

Definition wire (value : E) (assertions : AssertionMap) : EvalWire E := Build_EvalWire value assertions.
Definition combine (x y : EvalWire E) (value : E) : EvalWire E :=
  wire value (merge_assertions (w_assertions x) (w_assertions y)).
Definition result (scoped unscoped : AssertionMap) : EvalAssertions :=
  {| ea_scoped := scoped; ea_unscoped := unscoped |}.

Definition all_items (a : EvalAssertions) : AssertionMap := merge_assertions (ea_scoped a) (ea_unscoped a).
Definition is_ok (a : EvalAssertions) : bool := scope.is_ok (all_items a).
Definition is_err (a : EvalAssertions) : bool := scope.is_err (all_items a).
Definition failed_paths (tracker : AssertionScope) (a : EvalAssertions) : list string * AssertionScope :=
  scope.failed_paths tracker (all_items a).
Definition all_paths (tracker : AssertionScope) (a : EvalAssertions) : list string * AssertionScope :=
  scope.all_paths tracker (all_items a).
Definition passed_paths (tracker : AssertionScope) (a : EvalAssertions) : list string * AssertionScope :=
  scope.passed_paths tracker (all_items a).
Definition assert_all_passed (tracker : AssertionScope) (a : EvalAssertions) : outcome Empty_set AssertionScope :=
  scope.assert_all_passed tracker (all_items a).
Definition assert_any_failed_at (tracker : AssertionScope) (expected_path : string) (a : EvalAssertions)
  : outcome Empty_set AssertionScope :=
  scope.assert_any_failed_at tracker expected_path (all_items a).

Definition zero : lcomp AssertionScope (EvalWire E) := mret (wire 0 ∅).
Definition one : lcomp AssertionScope (EvalWire E) := mret (wire 1 ∅).
Definition konst (x : E) : lcomp AssertionScope (EvalWire E) := mret (wire x ∅).
Definition precious (x : EvalWire E) : lcomp AssertionScope (EvalWire E) := mret x.
Definition sum (xs : list (EvalWire E)) : lcomp AssertionScope (EvalWire E) :=
  let '(val, assertions) := foldl (fun '(val, assertions) x =>
    (val + w_value x, merge_assertions assertions (w_assertions x))) (0, ∅) xs in
  mret (wire val assertions).
Definition neg (x : EvalWire E) : lcomp AssertionScope (EvalWire E) := mret (wire (- w_value x) (w_assertions x)).
Definition add (x y : EvalWire E) : lcomp AssertionScope (EvalWire E) := mret (combine x y (w_value x + w_value y)).
Definition sub (x y : EvalWire E) : lcomp AssertionScope (EvalWire E) := mret (combine x y (w_value x - w_value y)).
Definition mul (x y : EvalWire E) : lcomp AssertionScope (EvalWire E) := mret (combine x y (w_value x * w_value y)).
Definition mulk (e : E) (y : EvalWire E) : lcomp AssertionScope (EvalWire E) := mret (wire (e * w_value y) (w_assertions y)).
Definition quadratic (e : E) (x y : EvalWire E) : lcomp AssertionScope (EvalWire E) :=
  mret (combine x y (e * (w_value x * w_value y))).
Definition ok : lcomp AssertionScope EvalAssertions := mret (result ∅ ∅).
Definition assert0 (name : string) (x : EvalWire E) : lcomp AssertionScope EvalAssertions :=
  assert_l (negb (bool_decide (name = ""%string))) ;;
  let status := if bool_decide (w_value x = 0) then Passed
                else Failed ("expected zero, got " +:+ show_element (w_value x)) in
  id ← tracked (fun tracker => scope.new_leaf tracker name);
  mret (result {[id := status]} (w_assertions x)).
Definition assert_all (name : string) (assertions : list EvalAssertions) : lcomp AssertionScope EvalAssertions :=
  assert_l (negb (bool_decide (name = ""%string))) ;;
  let '(scoped, unscoped) := foldl (fun '(scoped, unscoped) a =>
    (merge_assertions scoped (ea_scoped a), merge_assertions unscoped (ea_unscoped a))) (∅, ∅) assertions in
  tracked (fun tracker => (tt, foldl (fun tracker id => scope.prepend_scope tracker id name) tracker (keys scoped))) ;;
  mret (result scoped unscoped).
Definition with_assertions (assertions : EvalAssertions) (x : EvalWire E) : lcomp AssertionScope (EvalWire E) :=
  let attached := merge_assertions (ea_scoped assertions) (ea_unscoped assertions) in
  mret (wire (w_value x) (merge_assertions (w_assertions x) attached)).

Definition eval_logic : logic.Logic E := {|
  logic.St := AssertionScope; logic.Wire := EvalWire E; logic.Assertions := EvalAssertions;
  logic.zero := zero; logic.one := one; logic.konst := konst; logic.precious := precious; logic.sum := sum;
  logic.neg := neg; logic.add := add; logic.sub := sub; logic.mul := mul; logic.mulk := mulk;
  logic.quadratic := quadratic; logic.ok := ok; logic.assert0 := assert0; logic.assert_all := assert_all;
  logic.with_assertions := with_assertions
|}.

(** [input] and [position_in_input_array] are not supported. *)
#[local] Existing Instance eval_logic.
Definition eval_logic_io : logic.LogicIO E := {|
  logic.input _ := lift_l Panic;
  logic.position_in_input_array _ := lift_l Panic
|}.

(** [EvalContext::run] with a context of its own. *)
Definition run (build : lcomp AssertionScope EvalAssertions) : outcome fuel_error (EvalAssertions * AssertionScope) :=
  build scope.new.
End eval.
End eval.

(** ** The laws *)
Definition all_passed (m : AssertionMap) : Prop := map_Forall (fun _ status => status = Passed) m.

Section merge.
Implicit Types m w : AssertionMap.

Lemma merge_union left right : eval.merge_assertions left right = right ∪ left.
Proof.
  unfold eval.merge_assertions. repeat case_bool_decide; subst; [by rewrite (right_id_L ∅ (∪))|by rewrite (left_id_L ∅ (∪))|done].
Qed.
Lemma merge_subseteq w left right : left ⊆ w -> right ⊆ w -> eval.merge_assertions left right ⊆ w.
Proof. rewrite merge_union. intros Hl Hr. by apply map_union_least. Qed.
Lemma merge_passed w left right : left ⊆ w -> right ⊆ w ->
  all_passed (eval.merge_assertions left right) <-> all_passed left /\ all_passed right.
Proof.
  rewrite merge_union. intros Hl Hr.
  split.
  - intros Hp. split; intros id status Hid.
    + apply (Hp id). apply lookup_union_Some_raw. destruct (right !! id) as [status'|] eqn:Hr'; [|by right].
      left. pose proof (lookup_weaken _ _ _ _ Hid Hl) as Hw. pose proof (lookup_weaken _ _ _ _ Hr' Hr) as Hw'. congruence.
    + apply (Hp id). by apply lookup_union_Some_l.
  - intros [Pl Pr] id status [Hid|[_ Hid]]%lookup_union_Some_raw; [by apply (Pr id)|by apply (Pl id)].
Qed.
Lemma all_passed_empty : all_passed ∅.
Proof. apply map_Forall_empty. Qed.
Lemma is_ok_iff m : scope.is_ok m = true <-> all_passed m.
Proof.
  unfold scope.is_ok, all_passed. rewrite forallb_forall, map_Forall_to_list, Forall_forall.
  setoid_rewrite list_elem_of_In. split; intros Hm p Hp; specialize (Hm p Hp); destruct p as [id [|]]; done.
Qed.
End merge.

Section tracker.
Lemma compress_length fuel : forall rs root curr, length (compress fuel rs root curr) = length rs.
Proof.
  induction fuel as [|fuel IH]; intros rs root curr; cbn [compress]; [done|]. destruct (_ && _); [|done].
  by rewrite IH, length_alter.
Qed.
Lemma find_rep_length rs id : length (find_rep rs id).2 = length rs.
Proof. unfold find_rep. destruct (_ || _); [done|]. apply compress_length. Qed.
Lemma prepend_members_length name ms : forall st, length (foldl (scope.prepend_member name) st ms).1 = length st.1.
Proof.
  induction ms as [|m ms IH]; intros [rs t]; [done|]. cbn [foldl]. rewrite IH. cbn. destruct (rs !! m) as [r|]; [|done].
  destruct (tree.cons t name (r_scope r)). apply length_insert.
Qed.
Lemma prepend_scope_length s id name : length (records (scope.prepend_scope s id name)) = length (records s).
Proof.
  unfold scope.prepend_scope. destruct (is_nil id); [done|]. pose proof (find_rep_length (records s) id) as Hl.
  destruct (find_rep (records s) id) as [rep rs]. cbn [snd] in Hl. destruct (is_nil rep); [done|]. cbn [members].
  destruct (members s !! rep) as [ms|]; [|done]. cbn [records names].
  pose proof (prepend_members_length name ms (rs, names s)) as Hm. destruct (foldl _ _ ms) as [rs' t']. cbn in *. lia.
Qed.
Lemma prepend_scopes_length name ids : forall s,
  length (records (foldl (fun tracker id => scope.prepend_scope tracker id name) s ids)) = length (records s).
Proof. induction ids as [|id ids IH]; intros s; [done|]. cbn [foldl]. by rewrite IH, prepend_scope_length. Qed.
Lemma new_leaf_spec s name : exists t, scope.new_leaf s name = (length (records s), t) /\ length (records t) = S (length (records s)).
Proof.
  unfold scope.new_leaf. destruct (tree.cons _ _ _) as [sc t]. eexists. split; [done|]. cbn. rewrite length_app. cbn. lia.
Qed.
End tracker.

Section laws.
Context {E : Type} `{AlgebraicFieldLaws E} `{!EqDecision E} `{KeyOrder} `{!ShowElement E} (C : Prop).
Local Open Scope fe_scope.
Add Ring field_ring_eval : (field_ring (E:=E)).
#[local] Existing Instance eval.eval_logic.

(** The world: what became of every assertion so far. *)
Definition fates_models (w : AssertionMap) (s : AssertionScope) : Prop :=
  forall id, is_Some (w !! id) -> (id < length (records s))%nat.
#[local] Instance eval_models : Models AssertionMap AssertionScope := fates_models.
Definition eval_den (w : AssertionMap) (x : EvalWire E) (v : E) : Prop :=
  w_value x = v /\ w_assertions x ⊆ w /\ (C -> all_passed (w_assertions x)).
Definition eval_asserts (w : AssertionMap) (a : EvalAssertions) (P : Prop) : Prop :=
  ea_scoped a ⊆ w /\ ea_unscoped a ⊆ w /\ (all_passed (ea_scoped a) <-> P) /\ (C -> all_passed (ea_unscoped a)).

#[local] Instance eval_den_mono : Mono (⊆) eval_den.
Proof. intros w w' x v Hw (Hv & Ha & HC). split; [done|]. split; [by transitivity w|done]. Qed.
#[local] Instance eval_asserts_mono : Mono (⊆) eval_asserts.
Proof. intros w w' a P Hw (Hs & Hu & HP). split; [by transitivity w|]. split; [by transitivity w|done]. Qed.

Lemma eval_asserts_iff w a P Q : (P <-> Q) -> eval_asserts w a P -> eval_asserts w a Q.
Proof. intros HPQ (A & B & D & F). split; [done|]. split; [done|]. split; [by rewrite D|done]. Qed.

#[local] Abbreviation refines := (refines (fun _ : AssertionMap => True) (⊆)).
Lemma pure_ok {A B} pan (R : AssertionMap -> A -> B -> Prop) w x y : R w x y -> refines pan R w (mret x) y.
Proof. intros HR. by apply refines_ret; [apply _|done|]. Qed.
Lemma combine_den w x y u v r (f : E -> E -> E) : eval_den w x u -> eval_den w y v ->
  r = f (w_value x) (w_value y) -> eval_den w (eval.combine x y r) (f u v).
Proof.
  intros (<- & Hx & Cx) (<- & Hy & Cy) ->. split; [done|]. split; [by apply merge_subseteq|].
  intros HC. apply (merge_passed w); [done..|]. split; [by apply Cx|by apply Cy].
Qed.
Lemma eval_sum_den w xs vs : listR eval_den w xs vs -> refines False eval_den w (eval.sum xs) (fsum vs).
Proof.
  intros Hx. unfold eval.sum.
  cut (forall val assertions, assertions ⊆ w -> (C -> all_passed assertions) ->
    let r := foldl (fun '(val, assertions) x => (val + w_value x, eval.merge_assertions assertions (w_assertions x))) (val, assertions) xs in
    r.1 = val + fsum vs /\ r.2 ⊆ w /\ (C -> all_passed r.2)).
  { intros Hr. specialize (Hr 0 ∅ (map_empty_subseteq w) (fun _ => all_passed_empty)). cbn zeta in Hr.
    destruct (foldl _ _ xs) as [val assertions]. destruct Hr as (Hv & Hs & HC). apply pure_ok. split; [|done].
    cbn in *. rewrite Hv. ring. }
  induction Hx as [|x v xs vs (Hv & Ha & HC) _ IH]; intros val assertions Hs HCs; cbn [foldl].
  - split; [unfold fsum; cbn; ring|done].
  - destruct (IH (val + w_value x) (eval.merge_assertions assertions (w_assertions x))) as (H1' & H2' & H3').
    + by apply merge_subseteq.
    + intros Hc. apply (merge_passed w); [done..|]. auto.
    + split; [rewrite H1', Hv; unfold fsum; cbn; ring|done].
Qed.
Lemma assert0_den name x v w : name <> ""%string -> eval_den w x v -> refines False eval_asserts w (eval.assert0 name x) (v = 0).
Proof.
  intros Hn (Hv & Ha & HC). apply refines_assert; [rewrite bool_decide_eq_false_2 by done; done|]. intros _ s Hs.
  destruct (new_leaf_spec s name) as (t & Hnew & Ht). set (status := if bool_decide (w_value x = 0) then _ else _).
  unfold mbind, lcomp_bind, eval.tracked. rewrite Hnew.
  assert (w !! length (records s) = None) as Hfresh.
  { apply eq_None_not_Some. intros Hid%Hs. lia. }
  assert (w ⊆ <[length (records s) := status]> w) as Hw by by apply insert_subseteq.
  exists (<[length (records s) := status]> w). split; [|split; [done|split; [done|]]].
  - intros id. destruct (decide (id = length (records s))) as [->|Hne]; [lia|]. rewrite lookup_insert_ne by done.
    intros Hid%Hs. lia.
  - split; [|split; [by transitivity w|split; [|done]]].
    + apply map_singleton_subseteq_l, lookup_insert_eq.
    + cbn [ea_scoped eval.result]. unfold all_passed. rewrite map_Forall_singleton. subst status v.
      by case_bool_decide.
Qed.
Lemma assert_all_den name l Ps w : name <> ""%string -> listR eval_asserts w l Ps ->
  refines False eval_asserts w (eval.assert_all name l) (Forall id Ps).
Proof.
  intros Hn Hl. apply refines_assert; [rewrite bool_decide_eq_false_2 by done; done|]. intros _.
  cut (forall sc un (Q : Prop), sc ⊆ w -> un ⊆ w -> (all_passed sc <-> Q) -> (C -> all_passed un) ->
    let r := foldl (fun '(sc, un) a => (eval.merge_assertions sc (ea_scoped a), eval.merge_assertions un (ea_unscoped a))) (sc, un) l in
    eval_asserts w (eval.result r.1 r.2) (Q /\ Forall id Ps)).
  { intros Hr. specialize (Hr ∅ ∅ True (map_empty_subseteq w) (map_empty_subseteq w)). cbn zeta in Hr.
    destruct (foldl _ _ l) as [sc un]. intros s Hs. exists w. split; [|split; [done|split; [done|]]].
    - intros id Hid. rewrite prepend_scopes_length. by apply Hs.
    - eapply eval_asserts_iff; [|apply Hr; [split; [done|intros _; apply all_passed_empty]|intros _; apply all_passed_empty]]. tauto. }
  induction Hl as [|a P l Ps (Hs & Hu & HP & HC) _ IH]; intros sc un Q Hsc Hun HQ HCu; cbn [foldl].
  - split; [done|]. split; [done|]. split; [|done]. cbn. rewrite HQ, Forall_nil. tauto.
  - eapply eval_asserts_iff; [|apply (IH _ _ (Q /\ P))].
    + rewrite Forall_cons. unfold id at 2. tauto.
    + by apply merge_subseteq.
    + by apply merge_subseteq.
    + rewrite (merge_passed w) by done. by rewrite HQ, HP.
    + intros Hc. apply (merge_passed w); [done..|]. auto.
Qed.

#[refine] Definition eval_laws : LogicLaws E C := {|
  World := AssertionMap; ll_inv := fun _ => True; ll_ext := (⊆); ll_rejects := False;
  den := eval_den; asserts := eval_asserts
|}.
Proof.
  all: try (intros; apply pure_ok; split; [done|split; [apply map_empty_subseteq|intros _; apply all_passed_empty]]).
  - apply eval_asserts_iff.
  - intros x v w _ Hx. by apply pure_ok.
  - intros xs vs w _. apply eval_sum_den.
  - intros x v w _ (<- & Ha & HC). by apply pure_ok.
  - intros. apply pure_ok. by eapply (combine_den _ _ _ _ _ _ fadd).
  - intros. apply pure_ok. by eapply (combine_den _ _ _ _ _ _ fsub).
  - intros. apply pure_ok. by eapply (combine_den _ _ _ _ _ _ fmul).
  - intros e x v w _ (<- & Ha & HC). by apply pure_ok.
  - intros e x y u v w _ Hx Hy. apply pure_ok. by eapply (combine_den _ _ _ _ _ _ (fun u v => e * (u * v))).
  - intros w _. apply pure_ok. split; [apply map_empty_subseteq|]. split; [apply map_empty_subseteq|].
    split; [split; [done|intros _; apply all_passed_empty]|intros _; apply all_passed_empty].
  - intros name x v w _ Hn Hx. eapply refines_mono; [by apply assert0_den|done|done].
  - intros name l Ps w _ Hn Hl. by apply assert_all_den.
  - intros P a x v w _ HCP (As & Au & AP & AC) (Hv & Hx & HC). apply pure_ok. split; [done|].
    split; [by repeat apply merge_subseteq|]. intros Hc.
    apply (merge_passed w); [done|by apply merge_subseteq|]. split; [by apply HC|].
    apply (merge_passed w); [done..|]. split; [by apply AP, HCP|by apply AC].
Defined.
End laws.

(** ** Reports *)
Section reports.
Lemma group_step_passed (entries : list (AssertionId * AssertionStatus)) : forall rs (g : AssertionMap) reps,
  Forall (fun p => p.2 = Passed) entries -> all_passed g -> all_passed (foldl scope.group_step (rs, g, reps) entries).1.2.
Proof.
  induction entries as [|[id fate] entries IH]; intros rs g reps He Hg; [done|]. apply Forall_cons in He as [Hf He]. cbn in Hf. subst fate.
  cbn [foldl]. unfold scope.group_step at 2. destruct (find_rep rs id) as [rep rs']. destruct (is_nil rep); [by apply IH|].
  destruct (g !! rep); apply IH; [done..|]. by apply map_Forall_insert_2.
Qed.
Lemma sorted_fates_passed fates : all_passed fates -> Forall (fun p => p.2 = Passed) (scope.sorted_fates fates).
Proof.
  intros Hf. unfold scope.sorted_fates. rewrite merge_sort_Permutation.
  apply map_Forall_to_list in Hf. eapply Forall_impl; [exact Hf|]. by intros [].
Qed.
Lemma query_fates_passed s prefix fates : all_passed fates -> Forall (fun p => p.2 = Passed) (scope.query_fates s prefix fates).1.
Proof.
  intros Hf. unfold scope.query_fates.
  pose proof (group_step_passed _ (records s) ∅ [] (sorted_fates_passed _ Hf) all_passed_empty) as Hg.
  destruct (foldl _ _ _) as [[rs g] reps]. cbn [fst snd] in *. apply Forall_concat, Forall_map, Forall_forall. intros rep _. cbn.
  destruct (g !! rep) as [fate|] eqn:Hrep; [|constructor]. destruct (members s !! rep) as [ms|]; [|constructor].
  apply Forall_forall. intros p Hp. apply list_elem_of_omap in Hp as (m & _ & Hm). destruct (rs !! m); [|done].
  cbn in Hm. case_match; [|done]. injection Hm as <-. exact (Hg _ _ Hrep).
Qed.
Lemma assert_all_passed_iff s fates : (exists s', scope.assert_all_passed s fates = Ok s') <-> scope.is_ok fates = true.
Proof.
  unfold scope.assert_all_passed, scope.failed_paths. pose proof (query_fates_passed s "" fates) as Hq.
  destruct (scope.query_fates s "" fates) as [res s']. cbn [fst] in Hq. destruct (scope.is_ok fates) eqn:Hok; [|split; [by intros [? ?]|done]].
  split; [done|]. intros _. exists s'. apply is_ok_iff, Hq in Hok.
  replace (filter (fun p => negb (passes p.2)) res) with (@nil (string * AssertionStatus)); [done|].
  symmetry. clear Hq. induction Hok as [|[path fate] res Hp _ IH]; [done|]. cbn in Hp. subst fate. rewrite filter_cons_False; [done|]. by intros [].
Qed.
End reports.

Section run.
Context {E : Type} `{AlgebraicFieldLaws E} `{!EqDecision E} `{KeyOrder} `{!ShowElement E}.
#[local] Existing Instances eval.eval_logic eval_laws.

(** The nodes and assertions of a circuit start from nothing. *)
Definition eval_start : World (C:=True) := ∅.
Lemma run_correct (build : lcomp AssertionScope EvalAssertions) (P : Prop) : checks True eval_start build P ->
  exists a tracker, eval.run build = Ok (a, tracker) /\ (eval.is_ok a = true <-> P) /\
    ((exists tracker', eval.assert_all_passed tracker a = Ok tracker') <-> P).
Proof.
  intros Hb. unfold eval.run. specialize (Hb scope.new). destruct (build scope.new) as [[a t]| |].
  - destruct Hb as (w & _ & _ & _ & Hs & Hu & HP & HC); [by intros id [? ?]|]. exists a, t.
    assert (eval.is_ok a = true <-> P) as Hok.
    { unfold eval.is_ok. rewrite is_ok_iff. unfold eval.all_items. rewrite (merge_passed w), HP by done. tauto. }
    split; [done|]. split; [done|]. rewrite <- Hok. apply assert_all_passed_iff.
  - destruct Hb. by intros id [? ?].
  - destruct Hb as [[] _]. by intros id [? ?].
Qed.
End run.
