(* ===== verification/CompilerLogic.v ===== *)
(** * The compiler as a backend ([src/rust/compile/compiler/src/logic_impl.rs])

    A circuit run by [CompilerLogic] builds expressions in an arena.
    [compiler_laws]: for every assignment of the inputs, the value of each
    expression is the value of the circuit's wire and the assertions it returns
    are zero exactly when the circuit asserts something true.  [built_correct]
    says so of a whole program; [compile] builds and compiles it. *)
From stdpp Require Import prelude gmap strings.
From Stdlib Require Import Lia NArith Ring Ring_theory.
From S2P Require Import Prelude Words Interfaces Field FieldFacts Scope CompilerIR CompilerPasses CompilerSem CseFacts RewriterFacts AlgsimpFacts Quad SchedulerV1 Logic.

Module backend.
Section backend.
Context {E : Type} `{AlgebraicField E} `{!EqDecision E} `{!Comparable E}.

(** The arena with the tables of its rewriter, and the assertion tracker. *)
Definition St : Type := State E * AssertionScope.
Definition on_arena {A} (m : comp E A) : lcomp St A := fun '(s, tracker) =>
  '(a, s) ← m s; Ok (a, (s, tracker)).
Definition on_both {A} (m : AssertionScope -> comp E (A * AssertionScope)) : lcomp St A := fun '(s, tracker) =>
  '(a, tracker, s) ← m tracker s; Ok (a, (s, tracker)).

Definition compiler_logic : logic.Logic E := {|
  Logic.logic.St := St; Logic.logic.Wire := ExprNode; Logic.logic.Assertions := list AssertionItem;
  Logic.logic.zero := on_arena CompilerPasses.logic.zero;
  Logic.logic.one := on_arena CompilerPasses.logic.one;
  Logic.logic.konst x := on_arena (CompilerPasses.logic.konst x);
  Logic.logic.precious x := on_arena (CompilerPasses.logic.precious x);
  Logic.logic.sum xs := on_arena (CompilerPasses.logic.sum xs);
  Logic.logic.neg x := on_arena (CompilerPasses.logic.neg x);
  Logic.logic.add x y := on_arena (CompilerPasses.logic.add x y);
  Logic.logic.sub x y := on_arena (CompilerPasses.logic.sub x y);
  Logic.logic.mul x y := on_arena (CompilerPasses.logic.mul x y);
  Logic.logic.mulk e y := on_arena (CompilerPasses.logic.mulk e y);
  Logic.logic.quadratic e x y := on_arena (CompilerPasses.logic.quadratic e x y);
  Logic.logic.ok := mret [];
  Logic.logic.assert0 name x := on_both (fun tracker => CompilerPasses.logic.assert0 tracker name x);
  Logic.logic.assert_all name l := on_both (fun tracker => CompilerPasses.logic.assert_all tracker name l);
  Logic.logic.with_assertions a x := on_arena (CompilerPasses.logic.with_assertions a x)
|}.
#[local] Existing Instance compiler_logic.
Definition compiler_logic_io : logic.LogicIO E := {|
  Logic.logic.input position := on_arena (CompilerPasses.logic.input position);
  Logic.logic.position_in_input_array x := on_arena (o ← position_in_input_array x; lift_comp (unwrap o))
|}.
End backend.
End backend.

(** ** The laws *)
Section laws.
Context {E : Type} `{AlgebraicFieldLaws E} `{!EqDecision E} `{!Comparable E} (inp : nat -> E) (C : Prop).
Local Open Scope fe_scope.
Add Ring field_ring_compiler_logic : (field_ring (E:=E)).
#[local] Existing Instance backend.compiler_logic.

(** Under [C] every assertion attached to a node is zero. *)
Definition attached_hold (a : list (Node E)) (l : list AssertionItem) : Prop := C -> zeros inp a l.
Lemma attached_prefix a b l : a `prefix_of` b -> Forall (fun it => ai_expr it < length a)%nat l -> attached_hold a l -> attached_hold b l.
Proof.
  rewrite Forall_forall. intros Hp Hl Ha HC it Hit. rewrite (value_prefix _ a b) by auto. by apply Ha.
Qed.
#[local] Abbreviation N := (normal attached_hold).
#[local] Abbreviation good := (inv N).
#[local] Instance algsimp_attached : RewriterOk false (algsimp.rewriter cse.rewriter) good quiet known (fun _ => True) (fun _ => True).
Proof. apply algsimp_ok, attached_prefix. Qed.

#[local] Instance arena_models : Models (State E) (backend.St (E:=E)) := fun w s => s.1 = w.
Definition node_den (w : State E) (x : ExprNode) (v : E) : Prop :=
  known w x /\ (x < length (arena w))%nat /\ value inp (arena w) x = v.
Definition items_known (w : State E) (items : list AssertionItem) : Prop :=
  Forall (fun it => known w (ai_expr it)) items /\ Forall (fun it => ai_expr it < length (arena w))%nat items.
Definition items_assert (w : State E) (items : list AssertionItem) (P : Prop) : Prop :=
  items_known w items /\ (zeros inp (arena w) items <-> P).
Definition refines_arena {A B} := @refines (State E) (backend.St (E:=E)) _ good quiet A B.
#[local] Abbreviation refines := refines_arena.

Lemma known_items w items : good w -> Forall (fun it => known w (ai_expr it)) items -> items_known w items.
Proof. intros Hi Hk. split; [done|]. eapply Forall_impl; [exact Hk|]. intros it. by apply (known_lt N). Qed.
Lemma items_known_later w w' items : quiet w w' -> items_known w items -> items_known w' items.
Proof.
  intros [He _ _] [Hk Hl]. split; [eapply Forall_impl; [exact Hk|]; intros it; by eapply known_ext|].
  eapply Forall_impl; [exact Hl|]. intros it Hit. cbn in *. destruct He as [Ha _]. apply prefix_length in Ha. lia.
Qed.
#[local] Instance node_den_mono : Mono quiet node_den.
Proof.
  intros w w' x v [He _ _] (Hk & Hl & <-). split; [by eapply known_ext|]. split; [|by apply value_ext].
  destruct He as [Ha _]. apply prefix_length in Ha. lia.
Qed.
#[local] Instance items_assert_mono : Mono quiet items_assert.
Proof.
  intros w w' items P Hq [Hk HP]. split; [by eapply items_known_later|]. rewrite <- HP.
  destruct Hk as [_ Hlt], Hq as [He _ _]. rewrite Forall_forall in Hlt.
  split; intros Hz it Hit; [rewrite <- (value_ext inp w w')|rewrite (value_ext inp w w')]; auto.
Qed.
Lemma yields_den m f v w : good w -> wp false m (yields good quiet known w f) w -> f inp = v ->
  refines False node_den w (backend.on_arena m) v.
Proof.
  intros Hi Hm Hf [s t] Hs. change (s = w) in Hs. subst s. unfold wp in Hm. cbn [backend.on_arena]. destruct (m w) as [[y s']| |]; [|done..].
  destruct Hm as [Hi' Hq Hk Hv]. exists s'. split; [done|]. split; [done|]. split; [done|]. split; [done|]. split; [by apply (known_lt N)|]. by rewrite Hv.
Qed.

(** *** Wrappers *)
Lemma with_assertions_ok p a x s : good s -> known s x -> Forall (fun it => known s (ai_expr it)) a -> attached_hold (arena s) a ->
  wp p (rw_with_assertions (algsimp.rewriter cse.rewriter) a x) (yields good quiet known s (fun inp => value inp (arena s) x)) s.
Proof.
  intros Hi Hx Ha HC. cbn [rw_with_assertions algsimp.rewriter]. destruct a as [|it a]; [by apply wp_ret|].
  eapply wp_mono; [apply (memo_yields N (normal_prefix attached_hold attached_prefix) p s (WithAssertions (it :: a) x)); [done| |done]|by intros y s' [Hy _]].
  constructor; [done|]. apply Forall_map. exact Ha.
Qed.
Definition wrapper_ok (s : State E) (l : list AssertionItem) : Prop :=
  Forall (fun it => known s (ai_expr it)) l /\ attached_hold (arena s) l.
Lemma wrapper_later s s' l : good s -> quiet s s' -> wrapper_ok s l -> wrapper_ok s' l.
Proof.
  intros Hi [He _ _] [Hk Ha]. split; [eapply Forall_impl; [exact Hk|]; intros it; by eapply known_ext|].
  apply (attached_prefix (arena s)); [apply He|by apply known_items|done].
Qed.
Lemma extract_ok p fuel : forall x s, good s -> known s x -> (x < fuel)%nat ->
  wp p (extract_assertions fuel x) (fun r s' => s' = s /\ Forall (wrapper_ok s) r.1 /\ known s r.2 /\
    forall inp, value inp (arena s) r.2 = value inp (arena s) x) s.
Proof.
  induction fuel as [|fuel IH]; intros x s Hi Hx Hlt; [lia|]. destruct (known_at _ _ _ Hi Hx) as (e & Hm & He).
  cbn [extract_assertions]. apply wp_bind. eapply wp_eq; [by apply expr_of_at|]. destruct e as [| | | | | |l z].
  1-6: by apply wp_ret.
  pose proof (known_children _ _ _ _ Hi Hx He) as Hch. apply Forall_cons in Hch as [Hz Hl]. rewrite Forall_map in Hl.
  assert (z < x)%nat as Hzx by (eapply child_lt; [apply Hi|exact He|by left]). pose proof (known_node _ _ _ _ Hi Hx He) as Hn.
  apply wp_bind. eapply wp_mono; [apply (IH z); [done|done|lia]|]. intros [rest y] s' (-> & Hr & Hy & Hv). apply wp_ret.
  split; [done|]. split; [by constructor|]. split; [done|]. intros inp'. cbn [snd] in *. rewrite Hv. symmetry.
  etransitivity; [by eapply value_node; [apply Hi|]|]. done.
Qed.
Lemma rewrap_ok p assertions : forall acc s, good s -> known s acc -> Forall (wrapper_ok s) assertions ->
  wp p (foldC (fun acc a => rw_with_assertions (algsimp.rewriter cse.rewriter) a acc) acc assertions)
    (yields good quiet known s (fun inp => value inp (arena s) acc)) s.
Proof.
  induction assertions as [|a assertions IH]; intros acc s Hi Hk Ha; cbn [foldC]; [by apply wp_ret|].
  apply Forall_cons in Ha as [[Hka Hca] Ha]. apply wp_bind. eapply wp_mono; [by apply with_assertions_ok|].
  intros y s' [Hi' Hq Hy Hv]. eapply wp_mono; [apply IH; [done|done|]|].
  - eapply Forall_impl; [exact Ha|]. intros l. by apply wrapper_later.
  - intros z s'' [Hi'' Hq' Hz Hv']. split; [done|by transitivity s'|done|]. intros inp'. by rewrite Hv'.
Qed.
Lemma promote_ok x s : good s -> known s x ->
  wp false (promote_sum_to_precious x (algsimp.rewriter cse.rewriter)) (yields good quiet known s (fun inp => value inp (arena s) x)) s.
Proof.
  intros Hi Hx. unfold promote_sum_to_precious. apply wp_bind. eapply wp_mono; [apply extract_ok; [done|done|lia]|].
  intros [assertions inner] s' (-> & Ha & Hk & Hv). cbn [fst snd] in *. destruct (known_at _ _ _ Hi Hk) as (e & Hm & He).
  apply wp_bind. eapply wp_eq; [by apply expr_of_at|]. destruct e as [|l b| | | | |]; try by apply wp_ret.
  apply wp_bind. eapply wp_mono; [apply (ro_sum (R:=algsimp.rewriter cse.rewriter)); [done|done|exact (known_children _ _ _ _ Hi Hk He)]|].
  intros y s1 [Hi1 Hq1 Hy1 Hv1]. eapply wp_mono; [apply rewrap_ok; [done|done|]|].
  - apply Forall_rev. eapply Forall_impl; [exact Ha|]. intros a. by apply wrapper_later.
  - intros z s2 [Hi2 Hq2 Hy2 Hv2]. split; [done|by transitivity s1|done|]. intros inp'. rewrite Hv2, Hv1, <- Hv. symmetry.
    by apply (value_node inp' (arena s) inner (Sum l b)); [apply Hi|].
Qed.

(** *** Assertions *)
Lemma mul_zero_iff (e x : E) : e <> 0 -> e * x = 0 <-> x = 0.
Proof.
  intros He. split; [|intros ->; ring]. intros Hm. destruct (invert_spec e He) as (i & _ & Hi).
  replace x with (e * i * x) by (rewrite Hi; ring). replace (e * i * x) with (i * (e * x)) by ring. rewrite Hm. ring.
Qed.
Lemma assert0_loop_ok fuel : forall x s, good s -> known s x -> (x <= fuel)%nat ->
  match algsimp.assert0_loop cse.rewriter fuel x s with
  | Ok (l, s') => s' = s /\ Forall (known s) l /\ ((forall y, y ∈ l -> value inp (arena s) y = 0) <-> value inp (arena s) x = 0)
  | Panic => value inp (arena s) x <> 0
  | Err _ => False
  end.
Proof.
  assert (forall x s, good s -> known s x -> (forall c, expr_at (arena s) x = Some (Constant c) -> False) -> 
    s = s /\ Forall (known s) [x] /\ ((forall y, y ∈ [x] -> value inp (arena s) y = 0) <-> value inp (arena s) x = 0)) as Hnode.
  { intros x s _ Hx _. split; [done|]. split; [by constructor|]. setoid_rewrite list_elem_of_singleton. naive_solver. }
  assert (forall c x s, good s -> value inp (arena s) x = c ->
    match (if is_zero c then rw_ok cse.rewriter else lift_comp Panic) s with
    | Ok (l, s') => s' = s /\ Forall (known s) l /\ ((forall y, y ∈ l -> value inp (arena s) y = 0) <-> value inp (arena s) x = 0)
    | Panic => value inp (arena s) x <> 0
    | Err _ => False
    end) as Hconstant.
  { intros c x s _ ->. destruct (is_zero c) eqn:Hz; [|by intros Hc%is_zero_spec; congruence].
    apply is_zero_spec in Hz. split; [done|]. split; [constructor|]. split; [done|]. intros _ y Hy. by apply not_elem_of_nil in Hy. }
  induction fuel as [|fuel IH]; intros x s Hi Hx Hle; destruct (known_at _ _ _ Hi Hx) as (e & Hm & He);
    pose proof (value_node inp _ _ _ (inv_wf _ _ Hi) He) as Hv; pose proof (known_node _ _ _ _ Hi Hx He) as Hn;
    pose proof (known_children _ _ _ _ Hi Hx He) as Hch;
    cbn [algsimp.assert0_loop]; erewrite bind_eq by (by apply expr_of_at).
  all: destruct e as [| | |c|c z| |]; try (apply Hnode; [done|done|]; intros c Hc; congruence); try (by apply Hconstant).
  all: destruct Hn as [Hc _]; assert (z < x)%nat as Hzx by (eapply child_lt; [apply Hi|exact He|by left]); try lia.
  cbn [denote] in Hv. apply Forall_cons in Hch as [Hz _]. pose proof (IH z s Hi Hz ltac:(lia)) as Hl.
  assert (is_zero c = false) as Hnz by (apply not_true_iff_false; by rewrite is_zero_spec).
  erewrite bind_eq by (by rewrite Hnz). destruct (algsimp.assert0_loop cse.rewriter fuel z s) as [[l s']| |]; [|done|].
  - destruct Hl as (-> & Hk & Hl). split; [done|]. split; [done|]. by rewrite Hv, mul_zero_iff.
  - by rewrite Hv, mul_zero_iff.
Qed.
Lemma assert0_items name x v w : good w -> name <> ""%string -> node_den w x v ->
  refines (v <> 0) items_assert w (logic.assert0 name x) (v = 0).
Proof.
  intros Hi Hn (Hk & _ & <-) [s t] Hs. change (s = w) in Hs. subst s.
  cbn [logic.assert0 backend.compiler_logic backend.on_both]. unfold CompilerPasses.logic.assert0.
  erewrite bind_eq by (by rewrite bool_decide_eq_false_2). destruct (scope.new_leaf t name) as [id t'].
  pose proof (assert0_loop_ok x x w Hi Hk ltac:(lia)) as Hl.
  change (rw_assert0 CompilerPasses.logic.next x) with (algsimp.assert0_loop (E:=E) cse.rewriter x x).
  destruct (algsimp.assert0_loop cse.rewriter x x w) as [[l s']| |] eqn:Hr; [|done|].
  - destruct Hl as (-> & Hkl & Hl). erewrite bind_eq by exact Hr. cbn. exists w. split; [done|]. split; [done|]. split; [done|].
    split; [apply known_items; [done|]; by rewrite Forall_map|]. rewrite <- Hl, zeros_map, map_map. cbn. by rewrite map_id.
  - unfold mbind, comp_bind. by rewrite Hr.
Qed.

Lemma assert_all_foldl name (l : list AssertionItem) : forall items seen roots tracker,
  seen = map (fun it => (ai_expr it, ai_id it)) items ->
  forall it, it ∈ (foldl (CompilerPasses.logic.assert_all_step name) (items, seen, roots, tracker) l).1.1.1 <-> it ∈ items \/ it ∈ l.
Proof.
  induction l as [|x l IH]; intros items seen roots tracker -> it; cbn [foldl]; [rewrite elem_of_nil; cbn; tauto|].
  rewrite elem_of_cons. set (seen := map _ items).
  assert (map (fun it => (ai_expr it, ai_id it)) (items ++ [x]) = seen ++ [(ai_expr x, ai_id x)]) as Hs by apply map_app.
  assert (CompilerPasses.logic.assert_all_step name (items, seen, roots, tracker) x =
    if bool_decide ((ai_expr x, ai_id x) ∈ seen) then (items, seen, roots, tracker)
    else let (root, tracker) := scope.find tracker (ai_id x) in
         if bool_decide (root ∈ roots) then (items ++ [x], seen ++ [(ai_expr x, ai_id x)], roots, tracker)
         else (items ++ [x], seen ++ [(ai_expr x, ai_id x)], roots ++ [root], scope.prepend_scope tracker (ai_id x) name)) as -> by done.
  case_bool_decide as Hx.
  - rewrite IH by done. split; [tauto|]. intros [?|[->|?]]; [by left| |by right]. left.
    subst seen. apply list_elem_of_fmap in Hx as (y & Hxy & Hy). destruct x, y. cbn in Hxy. by injection Hxy as -> ->.
  - destruct (scope.find tracker (ai_id x)) as [root tracker']. destruct (bool_decide (root ∈ roots)); rewrite IH by done;
      rewrite elem_of_app, list_elem_of_singleton; tauto.
Qed.
Lemma assert_all_items name l Ps w : good w -> name <> ""%string -> listR items_assert w l Ps ->
  refines False items_assert w (logic.assert_all name l) (Forall id Ps).
Proof.
  intros Hi Hn Hl [s t] Hs. change (s = w) in Hs. subst s.
  cbn [logic.assert_all backend.compiler_logic backend.on_both]. unfold CompilerPasses.logic.assert_all.
  erewrite bind_eq by (by rewrite bool_decide_eq_false_2).
  pose proof (assert_all_foldl name (concat l) [] [] [] t eq_refl) as Hf.
  destruct (foldl _ _ (concat l)) as [[[items seen] roots] t']. cbn [fst] in Hf. cbn. exists w. split; [done|]. split; [done|]. split; [done|].
  assert (forall it, it ∈ items <-> it ∈ concat l) as Hin by (intros it; rewrite Hf, elem_of_nil; tauto).
  split.
  - apply known_items; [done|]. apply Forall_forall. intros it Hit%Hin. revert it Hit. apply Forall_forall.
    apply Forall_concat. clear Hin Hf. induction Hl as [|a P l Ps [[Ha _] _] _ IH]; by constructor.
  - transitivity (zeros inp (arena w) (concat l)).
    { unfold zeros. by setoid_rewrite Hin. }
    clear Hin Hf. induction Hl as [|a P l Ps [_ Ha] _ IH]; [by split; [constructor|intros _ it ?%not_elem_of_nil]|].
    rewrite Forall_cons, <- IH. unfold id at 1. rewrite <- Ha. cbn [concat]. unfold zeros. setoid_rewrite elem_of_app. naive_solver.
Qed.

#[local] Abbreviation R := (algsimp.rewriter cse.rewriter).
Lemma den_known w x v : node_den w x v -> known w x.
Proof. by intros []. Qed.
Lemma den_list w xs vs : listR node_den w xs vs -> Forall (known w) xs /\ sigma xs (value inp (arena w)) = fsum vs.
Proof.
  induction 1 as [|x v xs vs (Hk & _ & Hv) _ [Hf IH]]; [done|]. split; [by constructor|]. by rewrite sigma_cons, IH, Hv.
Qed.
Lemma linear_den e x v w : good w -> node_den w x v -> refines False node_den w (backend.on_arena (rw_linear R e x)) (e * v).
Proof. intros Hi (Hk & _ & <-). by eapply yields_den; [|apply (ro_linear (R:=R))|]. Qed.
Lemma quadratic_den e x y u v w : good w -> node_den w x u -> node_den w y v ->
  refines False node_den w (backend.on_arena (rw_quadratic R e x y)) (e * (u * v)).
Proof. intros Hi (Hx & _ & <-) (Hy & _ & <-). by eapply yields_den; [|apply (ro_quadratic (R:=R))|]. Qed.
Lemma sum_den xs vs w : good w -> listR node_den w xs vs -> refines False node_den w (backend.on_arena (rw_sum R xs false)) (fsum vs).
Proof. intros Hi [Hf Hv]%den_list. by eapply yields_den; [|apply (ro_sum (R:=R))|]. Qed.
Lemma constant_den e w : good w -> refines False node_den w (backend.on_arena (rw_constant R e)) e.
Proof. intros Hi. by eapply yields_den; [|apply (ro_constant (R:=R))|]. Qed.
Lemma sub_den x y u v w : good w -> node_den w x u -> node_den w y v ->
  refines False node_den w (backend.on_arena (CompilerPasses.logic.sub x y)) (u - v).
Proof.
  intros Hi (Hx & _ & <-) (Hy & _ & <-). eapply (yields_den _ (fun inp => value inp (arena w) x - value inp (arena w) y)); [done| |done].
  unfold CompilerPasses.logic.sub. apply wp_bind. eapply wp_mono; [by apply (ro_linear (R:=R))|].
  intros y' s1 [Hi1 Hq1 Hy1 Hv1]. eapply wp_mono; [apply (ro_sum (R:=R)); [done|done|]|].
  - constructor; [by eapply known_ext, Hx; apply Hq1|by constructor].
  - intros z s2 [Hi2 Hq2 Hz2 Hv2]. split; [done|by transitivity s1|done|]. intros inp'. rewrite Hv2, !sigma_cons, Hv1.
    rewrite (value_known inp' N w s1 x) by (done || apply Hq1). unfold sigma, mone. cbn. ring.
Qed.
Lemma attach_den (P : Prop) a x v w : good w -> (C -> P) -> items_assert w a P -> node_den w x v ->
  refines False node_den w (backend.on_arena (CompilerPasses.logic.with_assertions a x)) v.
Proof.
  intros Hi HCP [[Ha _] HP] (Hx & _ & <-). eapply yields_den; [done|apply with_assertions_ok; [done|done|done|]|done].
  intros HC. by apply HP, HCP.
Qed.

#[refine] Definition compiler_laws : LogicLaws E C := {|
  World := State E; ll_inv := good; ll_ext := quiet; ll_rejects := True; den := node_den; asserts := items_assert
|}.
Proof.
  - intros w a P Q HPQ [Ha HP]. split; [done|]. by rewrite HP.
  - apply constant_den.
  - apply constant_den.
  - apply constant_den.
  - intros x v w Hi (Hx & _ & <-). by eapply yields_den; [|apply promote_ok|].
  - apply sum_den.
  - intros x v w Hi Hx. replace (- v) with (mone * v) by (unfold mone; ring). by apply linear_den.
  - intros x y u v w Hi Hx Hy. replace (u + v) with (fsum [u; v]) by (cbn; ring). apply sum_den; [done|]. by repeat (apply Forall2_cons_2; [done|]).
  - apply sub_den.
  - intros x y u v w Hi Hx Hy. replace (u * v) with (1 * (u * v)) by ring. by apply quadratic_den.
  - apply linear_den.
  - apply quadratic_den.
  - intros w Hi. apply refines_ret; [apply _|done|]. split; [by split|]. split; [done|]. by intros _ it ?%not_elem_of_nil.
  - intros name x v w Hi Hn Hx. eapply refines_mono; [by apply assert0_items|done|done].
  - intros name l Ps w Hi Hn Hl. by apply assert_all_items.
  - apply attach_den.
Defined.
#[local] Existing Instance compiler_laws.

Lemma input_ok position w : good w -> 0 < position -> returns node_den w (logic.input (LogicIO:=backend.compiler_logic_io) position) (inp position).
Proof.
  intros Hi Hp. cbn [logic.input backend.compiler_logic_io]. eapply (yields_den _ (fun inp => inp position)); [done| |done]. unfold CompilerPasses.logic.input.
  apply wp_bind. rewrite (proj2 (Nat.ltb_lt 0 position) Hp). apply wp_lift. by apply (ro_input (R:=R)).
Qed.

(** The assertions of a node hold when [C] does. *)
Lemma satisfied_zeros w items : good w -> items_known w items -> C -> zeros inp (arena w) items -> satisfied inp (arena w) items.
Proof.
  intros Hi [Hk _] HC Hz. split; [done|]. intros x l z Hx He. assert (known w x) as Hkx by (eapply reaches_known; [done|by rewrite Forall_map|done]).
  exact (known_node _ _ _ _ Hi Hkx He HC).
Qed.
End laws.

(** ** Whole programs *)
Section built.
Context {E : Type} `{AlgebraicFieldLaws E} `{!EqDecision E} `{!Comparable E}.
#[local] Existing Instances backend.compiler_logic.

(** The circuit asserts [P] of the inputs [inp]. *)
Definition builds (inp : nat -> E) (circuit : lcomp (backend.St (E:=E)) (list AssertionItem)) (P : Prop) : Prop :=
  @checks E True _ _ (compiler_laws inp True) empty_arena circuit P.

(** The program it leaves is satisfied when [P] holds; it is only refused
    when [P] does not. *)
Lemma built_correct inp circuit P tracker : builds inp circuit P ->
  match circuit (empty_arena, tracker) with
  | Ok (items, (s, _)) =>
      arena_wf (arena s) /\ Forall (fun it => ai_expr it < length (arena s)) items /\ (satisfied inp (arena s) items <-> P)
  | Err _ => False
  | Panic => ~ P
  end.
Proof.
  intros Hb. specialize (Hb (empty_arena, tracker) eq_refl). destruct (circuit (empty_arena, tracker)) as [[items [s t]]| |]; [|done|].
  - destruct Hb as (w & Hw & Hi & _ & Hk & HP). change (s = w) in Hw. subst w.
    split; [apply Hi|]. split; [apply Hk|]. rewrite <- HP. split; [by intros []|]. by apply (satisfied_zeros inp True).
  - by destruct Hb as [_ Hn].
Qed.
End built.

(** [compile] runs the circuit on a new arena and a new tracker. *)
Section compile.
Context {E : Type} `{AlgebraicField E} `{SerializableField E} `{!Comparable E} `{HashOrder} `{Sha256}.
Definition build_program (build : lcomp (backend.St (E:=E)) (list AssertionItem * nat * nat)) : outcome fuel_error (compiler.Program (E:=E)) :=
  '(assertions, npublic_input, subfield_boundary, (source_arena, source_tracker)) ← build (empty_arena, scope.new);
  mret {| compiler.source_arena := arena source_arena; compiler.assertions := assertions; compiler.source_tracker := source_tracker;
          compiler.p_npublic_input := npublic_input; compiler.p_subfield_boundary := subfield_boundary |}.
Definition compile (build : lcomp (backend.St (E:=E)) (list AssertionItem * nat * nat)) :=
  src ← build_program build; compiler.compile src.
End compile.
