(* ===== verification/GadgetTheorems.v ===== *)
(** * Theorems: circuits

    Bits, bit vectors, sums in the field and SHA-256 on every backend; the
    reports of a direct evaluation; and circuits run on the compiler, down to
    the compiled circuit. *)
From stdpp Require Import prelude gmap sorting strings.
From Stdlib Require Import Lia NArith ZArith.
From S2P Require Import Prelude Words Interfaces DeltaTable Circuit Gf2_128 Field FieldFacts Gf2_128Facts MerkleTheorems SumcheckV1 Completeness ZkVerify Scope CompilerIR CompilerPasses CompilerSem CseFacts RewriterFacts AlgsimpFacts Quad SchedulerV1 LayerBuild SchedulerSound SchedulerRun Logic Boolean Arithmetic Bitvec AnalogAdder CompileFields Sha256Circuit EvalLogic CompilerLogic.

(** ** On every backend *)
Section circuits.
Context {E : Type} `{AlgebraicFieldLaws E} `{!logic.Logic E} (C : Prop) `{!LogicLaws E C}.
#[local] Abbreviation bit := (Boolean.bit C).
#[local] Abbreviation bits := (listR bit).

Lemma new_boolean_ok self : boolean.new = Ok self -> boolean_ok self.
Proof. intros Hnew. destruct (boolean_new (E:=E)) as (self' & Hnew' & Hself). rewrite Hnew in Hnew'. by injection Hnew' as ->. Qed.
Lemma new_bitvec_ok self : bitvec.new = Ok self -> boolean_ok (bv_arith self).
Proof.
  destruct (boolean_new (E:=E)) as (b & Hb & Hok). unfold bitvec.new. rewrite !Hb. by intros [= <-].
Qed.
Lemma new_adder_ok self : adder.new = Ok self -> boolean_ok (bv_arith (ad_bv self)) /\ boolean_ok (ad_boolean self).
Proof.
  destruct (boolean_new (E:=E)) as (b & Hb & Hok). unfold adder.new, bitvec.new. rewrite !Hb. by intros [= <-].
Qed.

(** C18: bits. *)
Theorem boolean_operations self s a b c x y z : boolean.new = Ok self -> ll_inv s -> bit s a x -> bit s b y -> bit s c z ->
  returns bit s (boolean.notb a) (negb x) /\
  returns bit s (boolean.andb self a b) (x && y) /\
  returns bit s (boolean.orb self a b) (x || y) /\
  returns bit s (boolean.xorb self a b) (xorb x y) /\
  returns bit s (boolean.eqb self a b) (Bool.eqb x y) /\
  returns bit s (boolean.muxb self a b c) (if x then y else z) /\
  returns bit s (boolean.maj self a b c) (maj x y z) /\
  forall name, name <> ""%string -> checks C s (boolean.assert_true self name a) (x = true).
Proof.
  intros Hself%new_boolean_ok Hi Ha Hb Hc.
  split_and!; [by apply notb_ok|by apply andb_ok|by apply orb_ok|by apply xorb_ok|by apply eqb_ok|by apply muxb_ok|by apply maj_ok|].
  intros name Hname. by apply assert_true_ok.
Qed.

(** C14: numbers. *)
Theorem vector_arithmetic self s a b l m : boolean.new = Ok self -> ll_inv s -> bits s a l -> bits s b m -> length l = length m -> 0 < length l ->
  returns (pairR bits bit) s (arithmetic.unchecked_add self a b) (vec (length l) (num l + num m), (2 ^ N.of_nat (length l) <=? num l + num m)%N) /\
  returns (pairR bits bit) s (arithmetic.unchecked_sub self a b) (vec (length l) (num l + 2 ^ N.of_nat (length l) - num m)%N, (num l <? num m)%N) /\
  returns bit s (arithmetic.lt self a b) (num l <? num m)%N /\
  returns bit s (arithmetic.eqb self a b) (num l =? num m)%N /\
  forall c n, bits s c n -> length n = length l ->
    checks C s (arithmetic.assert_wrapping_add self c a b) (num n = (num l + num m) mod 2 ^ N.of_nat (length l))%N /\
    checks C s (arithmetic.assert_checked_add self c a b) (num n = num l + num m)%N.
Proof.
  intros Hself%new_boolean_ok Hi Ha Hb Hlm Hpos.
  split_and!; [by apply unchecked_add_ok|by apply unchecked_sub_ok|by apply lt_ok|by apply eqb_vec_ok|].
  intros c n Hc Hn. split; [by eapply assert_wrapping_add_ok|by eapply assert_checked_add_ok].
Qed.

(** C5: a block of SHA-256.  In a field that sums up to seven words, on every
    backend, the circuit asserts exactly that the derived words are those the
    compression function computes: the message schedule, the states after the
    64 rounds and the new hash. *)
Theorem sha256_block_asserted `{!FieldWrappingSum E} `{!FieldWrappingSumLaws E C} bv s given derived G D :
  (forall n, 2 <= n <= 7 -> sum_limit 32 n) -> sha256.new = Ok bv -> ll_inv s ->
  block_words C s given derived G D -> block_shape G D ->
  checks C s (sha256.assert_transform_block bv given derived) (D = sha_concrete.derived G).
Proof.
  intros Hlimit Hbv%new_bitvec_ok Hi Hw Hs. by apply (transform_block_ok C Hlimit bv Hbv).
Qed.
End circuits.

(** ** Sums of words in the field *)
Section sums.
Context (C : Prop).

(** C7: sums over GF(2^128).  The powers of the generator below 2^64 - 1 are
    different, so one product asserts exactly that a vector is the sum of the
    others modulo a power of two. *)
Theorem gf2_128_wrapping_sum `{!logic.Logic Gf2_128} `{!LogicLaws Gf2_128 C} self width s expected e terms ts :
  adder.new = Ok self -> ll_inv s -> listR (Boolean.bit C) s expected e -> listR (listR (listR (Boolean.bit C))) s terms ts ->
  length e = width -> Forall (fun l => length l = width) (concat ts) -> 0 < width < 64 -> 0 < length (concat ts) ->
  (N.of_nat (length (concat ts)) * 2 ^ N.of_nat width < 2 ^ 64)%N ->
  checks C s (adder.wrapping_sum_gf2 self width expected terms) (num e = total (concat ts) mod 2 ^ N.of_nat width)%N.
Proof.
  intros [_ Hself]%new_adder_ok Hi He Ht Hle Hlt Hw Hn Hcap.
  apply (wrapping_sum_gf2_ok C self Hself (2 ^ 64 - 1)); [done..| |lia|revert Hcap; change (2 ^ 64)%N with (N.succ (2 ^ 64 - 1)); apply N.lt_succ_r].
  apply (field_limit_fits (E:=Gf2_128)); [done|done|]. split; [done|].
  change (pseudo_dimension_of_multiplicative_group (E:=Gf2_128)) with 128. split; [lia|].
  unfold adder.max_terms. destruct (Nat.ltb_spec (128 - width) 64); [lia|]. 
  assert (2 ^ 1 <= 2 ^ N.of_nat width)%N as Hge by (apply N.pow_le_mono_r; lia).
  change (2 ^ 64)%N with 18446744073709551616%N in *. change (2 ^ 1)%N with 2%N in Hge. nia.
Qed.
(** C15: sums in a prime field.  The difference of the sums is a small
    multiple of the power of two, and numbers below the modulus are different
    elements. *)
Theorem prime_wrapping_sum (p : positive) `{BigUintPowLaws} `{!logic.Logic (Fp p)} `{!LogicLaws (Fp p) C} self width s expected e terms ts :
  Z.prime (Z.pos p) -> adder.new = Ok self -> ll_inv s ->
  listR (Boolean.bit C) s expected e -> listR (listR (listR (Boolean.bit C))) s terms ts ->
  length e = width -> Forall (fun l => length l = width) (concat ts) -> 0 < length (concat ts) ->
  (N.of_nat width < N.log2 (N.pos p - 1))%N -> (N.of_nat (length (concat ts)) < 2 ^ N.min 63 (N.log2 (N.pos p - 1) - N.of_nat width))%N ->
  checks C s (adder.wrapping_sum_fp self width expected terms) (num e = total (concat ts) mod 2 ^ N.of_nat width)%N.
Proof.
  intros Hp. pose proof (fp_laws p Hp). intros [Hself _]%new_adder_ok Hi He Ht Hle Hlt Hn Hw Hcap.
  pose (Hlaws := fp_compile_field_laws p Hp). pose proof (fp_prime_laws p Hp) as Hprime.
  apply (wrapping_sum_fp_ok (H:=fp_algebraic_field p) C self Hself width s expected e terms ts Hi He Ht).
  apply field_limit_fits; [done|done|]. split; [done|].
  rewrite fp_dimension_multiplicative by done. split; [lia|]. unfold adder.max_terms.
  eapply N.lt_le_trans; [exact Hcap|]. destruct (Nat.ltb_spec (N.to_nat (N.log2 (N.pos p - 1)) - width) 64) as [Hlt64|Hge].
  - rewrite N.shiftl_1_l. apply N.pow_le_mono_r; lia.
  - transitivity (2 ^ 63)%N; [apply N.pow_le_mono_r; lia|done].
Qed.
End sums.

(** ** Direct evaluation *)
(** C36: what a direct evaluation reports.  A circuit that asserts [P] on every
    backend runs to the end; its assertions are all right, and
    [assert_all_passed] returns, exactly when [P] holds. *)
Theorem evaluation_reports {E : Type} `{AlgebraicFieldLaws E} `{!EqDecision E} `{KeyOrder} `{!ShowElement E}
    (circuit : forall (L : logic.Logic E), lcomp logic.St logic.Assertions) (P : Prop) :
  (forall (L : logic.Logic E) (laws : LogicLaws E True) s, ll_inv s -> checks True s (circuit L) P) ->
  exists a tracker, eval.run (circuit eval.eval_logic) = Ok (a, tracker) /\ (eval.is_ok a = true <-> P) /\
    ((exists tracker', eval.assert_all_passed tracker a = Ok tracker') <-> P).
Proof. intros Hc. apply run_correct. by apply (Hc eval.eval_logic (eval_laws True)). Qed.

(** ** Circuits on the compiler *)
Section compile.
Context {E : Type} `{AlgebraicFieldLaws E} `{SerializableFieldLaws E} `{!Comparable E} `{HashOrder} `{!HashOrderLaws} `{Sha256}.

(** C4: from a circuit to a compiled circuit.  When, for every assignment of
    the inputs in some domain, a circuit asserts [P], building and compiling
    it is either refused by a panic or gives, within the limits of the
    encoding, a circuit that evaluates successfully on an input vector of the
    domain that starts with one exactly when [P] holds of it. *)
Theorem circuit_compiles (D : (nat -> E) -> Prop) (circuit : lcomp (backend.St (E:=E)) (list AssertionItem)) (P : (nat -> E) -> Prop) npub sub inp0 :
  D inp0 -> (forall inp, D inp -> builds inp circuit (P inp)) ->
  match compile (a ← circuit; mret (a, npub, sub)) with
  | Ok (c, info, _) => fits info ->
      circuit_ok c /\ wires_ok c /\ npublic_input (raw c) = npub /\
      forall inputs, length inputs = ninput (raw c) -> at0 inputs 0 = fone -> D (at0 inputs) ->
        (exists ls, eval_circuit inputs c = Ok ls) <-> P (at0 inputs)
  | Err _ => False
  | Panic => True
  end.
Proof.
  intros HD Hc. unfold compile, build_program.
  pose proof (fun inp Hinp => built_correct inp circuit (P inp) scope.new (Hc inp Hinp)) as Hb.
  change ((a ← circuit; mret (a, npub, sub)) (empty_arena, scope.new)) with
    (match circuit (empty_arena, scope.new) with Ok (a, s) => Ok ((a, npub, sub), s) | Err e => Err e | Panic => Panic end).
  destruct (circuit (empty_arena, scope.new)) as [[items [s t]]| |]; [|exact (Hb inp0 HD)|done].
  cbn [mbind outcome_bind mret outcome_ret]. destruct (Hb inp0 HD) as (Hwf & Hroots & _).
  set (src := compiler.Build_Program _ _ _ _ _). pose proof (compile_spec src ltac:(by split)) as Hs.
  destruct (compiler.compile src) as [[[c info] syms]| |]; [|done..]. destruct Hs as [_ Hs]. intros Hfit.
  destruct (Hs Hfit) as [H1' H2' [H3' _] _ H4']. split; [done|]. split; [done|]. split; [done|].
  intros inputs Hl Hone Hin. rewrite (H4' inputs Hl Hone). apply (Hb (at0 inputs) Hin).
Qed.
End compile.

(** ** Witnesses

    Direct evaluation over GF(2^128). *)
#[local] Instance toy_keys : KeyOrder := fun m => (map_to_list m).*1.
#[local] Instance toy_show : ShowElement Gf2_128 := fun _ => "element"%string.
#[local] Existing Instances eval.eval_logic eval_laws.
#[local] Abbreviation gf_checks := (@checks Gf2_128 True _ eval.eval_logic (eval_laws True)).
#[local] Abbreviation gf_bit := (@Boolean.bit Gf2_128 _ eval.eval_logic True (eval_laws True)).

(** A wire with a value and no assertions. *)
Lemma value_den (v : Gf2_128) : den (E:=Gf2_128) True eval_start (eval.wire v ∅) v.
Proof. split; [done|]. split; [apply map_empty_subseteq|]. intros _. apply all_passed_empty. Qed.

Lemma boolean_operations_witness : exists self, boolean.new (E:=Gf2_128) = Ok self /\
  returns (E:=Gf2_128) gf_bit eval_start (boolean.xorb self (IP (eval.wire fone ∅)) (IN (eval.wire fone ∅))) true.
Proof.
  destruct (boolean_new (E:=Gf2_128)) as (self & Hnew & _). exists self. split; [exact Hnew|].
  apply (boolean_operations True self eval_start (IP (eval.wire fone ∅)) (IN (eval.wire fone ∅)) ITrue true false true Hnew I
    (value_den fone) (value_den fone) eq_refl).
Defined.

Lemma vector_arithmetic_witness : exists self, boolean.new (E:=Gf2_128) = Ok self /\
  exists a t, eval.run (arithmetic.assert_wrapping_add self (arithmetic.konst [true; false]) (arithmetic.konst [false; true]) (arithmetic.konst [true; true])) = Ok (a, t) /\
    eval.is_ok a = true.
Proof.
  destruct (boolean_new (E:=Gf2_128)) as (self & Hnew & _). exists self. split; [exact Hnew|].
  destruct (vector_arithmetic True self eval_start (arithmetic.konst [false; true]) (arithmetic.konst [true; true]) [false; true] [true; true] Hnew I
    (konst_vec_ok True eval_start _) (konst_vec_ok True eval_start _) eq_refl ltac:(apply Nat.ltb_lt; reflexivity)) as (_ & _ & _ & _ & Hadd).
  destruct (run_correct _ _ (proj1 (Hadd (arithmetic.konst [true; false]) [true; false] (konst_vec_ok True eval_start _) eq_refl))) as (a & t & Hr & Hok & _).
  exists a, t. split; [exact Hr|]. apply Hok. vm_compute. reflexivity.
Defined.

Lemma constants_listed (ls : list (list bool)) : listR (listR gf_bit) eval_start (map arithmetic.konst ls) ls.
Proof. induction ls as [|l ls IH]; constructor; [apply (konst_vec_ok True)|done]. Qed.
Lemma gf2_128_wrapping_sum_witness : exists self, adder.new (E:=Gf2_128) = Ok self /\
  exists a t, eval.run (adder.wrapping_sum_gf2 self 2 (arithmetic.konst [true; false]) [map arithmetic.konst [[false; true]; [true; true]]]) = Ok (a, t) /\
    eval.is_ok a = true.
Proof.
  destruct (boolean_new (E:=Gf2_128)) as (b & Hb & _).
  assert (adder.new (E:=Gf2_128) = Ok (Build_AnalogAdder (Build_BitvecLogic b b) b)) as Hnew by (unfold adder.new, bitvec.new; rewrite Hb; reflexivity).
  eexists. split; [exact Hnew|].
  destruct (run_correct _ _ (gf2_128_wrapping_sum True _ 2 eval_start (arithmetic.konst [true; false]) [true; false]
    [map arithmetic.konst [[false; true]; [true; true]]] [[[false; true]; [true; true]]] Hnew I (konst_vec_ok True eval_start _)
    ltac:(apply Forall2_cons_2; [apply constants_listed|apply Forall2_nil_2]) eq_refl ltac:(by repeat constructor) ltac:(lia) ltac:(cbn; lia)
    ltac:(vm_compute; reflexivity))) as (a & t & Hr & Hok & _).
  exists a, t. split; [exact Hr|]. apply Hok. vm_compute. reflexivity.
Defined.

(** Sums of bytes in the field with 65537 elements. *)
#[local] Instance powers : BigUintPow := fun a e m => (a ^ e mod m)%N.
#[local] Instance powers_ok : BigUintPowLaws.
Proof. by intros a e m _. Qed.
#[local] Abbreviation F := (Fp 65537).
Lemma prime_65537 : Z.prime 65537.
Proof. apply (small_primes_prime 65537). apply list_elem_of_In. vm_compute. tauto. Qed.
#[local] Instance F_laws : AlgebraicFieldLaws F := fp_laws 65537 prime_65537.
#[local] Instance F_show : ShowElement F := fun _ => "element"%string.
Lemma prime_constants_listed (ls : list (list bool)) :
  listR (listR (@Boolean.bit F _ eval.eval_logic True (eval_laws True))) eval_start (map arithmetic.konst ls) ls.
Proof. induction ls as [|l ls IH]; constructor; [apply (konst_vec_ok True)|done]. Qed.
Lemma prime_wrapping_sum_witness : exists self, adder.new (E:=F) = Ok self /\
  exists a t, eval.run (adder.wrapping_sum_fp self 8 (arithmetic.konst (vec 8 44)) [map arithmetic.konst [vec 8 200; vec 8 100]]) = Ok (a, t) /\
    eval.is_ok a = true.
Proof.
  destruct (boolean_new (E:=F)) as (b & Hb & _).
  assert (adder.new (E:=F) = Ok (Build_AnalogAdder (Build_BitvecLogic b b) b)) as Hnew by (unfold adder.new, bitvec.new; rewrite Hb; reflexivity).
  eexists. split; [exact Hnew|].
  destruct (run_correct _ _ (prime_wrapping_sum True 65537 _ 8 eval_start (arithmetic.konst (vec 8 44)) (vec 8 44)
    [map arithmetic.konst [vec 8 200; vec 8 100]] [[vec 8 200; vec 8 100]] prime_65537 Hnew I (konst_vec_ok True eval_start _)
    ltac:(apply Forall2_cons_2; [apply prime_constants_listed|apply Forall2_nil_2]) eq_refl ltac:(by repeat constructor) ltac:(cbn; lia)
    ltac:(vm_compute; reflexivity) ltac:(vm_compute; reflexivity))) as (a & t & Hr & Hok & _).
  exists a, t. split; [exact Hr|]. apply Hok. vm_compute. reflexivity.
Defined.

(** The block of the message "abc". *)
Definition abc : sha_concrete.ConcreteGiven :=
  sha_concrete.given ([0x61626380; 0; 0; 0; 0; 0; 0; 0; 0; 0; 0; 0; 0; 0; 0; 0x18])%N INITIAL.
Definition words_below (G : sha_concrete.ConcreteGiven) (D : sha_concrete.ConcreteDerived) : bool :=
  forallb (fun w => (w <? 2 ^ 32)%N)
    (sha_concrete.input_block G ++ sha_concrete.h0 G ++ sha_concrete.outw D ++ sha_concrete.oute D ++ sha_concrete.outa D ++ sha_concrete.h1 D).
Lemma evaluated_words (ns : list N) : forallb (fun w => (w <? 2 ^ 32)%N) ns = true ->
  listR (word32 (E:=Gf2_128) True) eval_start (map bitvec.of_u32 ns) ns.
Proof.
  intros Hn. rewrite forallb_forall in Hn. induction ns as [|n ns IH]; constructor; [|apply IH; intros x Hx; apply Hn; by right].
  assert (n < 2 ^ 32)%N by (apply N.ltb_lt, Hn; by left). split; [done|]. by apply of_u32_ok.
Qed.
Lemma evaluated_block G D : words_below G D = true ->
  block_words (E:=Gf2_128) True eval_start (sha256.evaluate_given G) (sha256.evaluate_derived D) G D.
Proof.
  unfold words_below. rewrite !forallb_app. intros Hb. repeat apply andb_true_iff in Hb as [? Hb].
  split; by apply evaluated_words.
Qed.
#[local] Existing Instances gf2_wrapping_sum.
#[local] Instance gf_sums : FieldWrappingSumLaws Gf2_128 True := gf2_sum_laws True (2 ^ 64 - 1).
Lemma gf_seven_words n : 2 <= n <= 7 -> sum_limit (C:=True) (E:=Gf2_128) 32 n.
Proof.
  intros Hn. split; [split; [lia|split; [apply Nat.ltb_lt; reflexivity|]]|split; [lia|]].
  - assert (N.of_nat n < 8)%N by lia. eapply N.lt_trans; [eassumption|]. reflexivity.
  - transitivity (7 * 2 ^ N.of_nat 32)%N; [apply N.mul_le_mono_r; lia|]. apply N.leb_le. reflexivity.
Qed.
Lemma sha256_block_asserted_witness :
  sha_concrete.h1 (sha_concrete.derived abc) =
    [0xba7816bf; 0x8f01cfea; 0x414140de; 0x5dae2223; 0xb00361a3; 0x96177a9c; 0xb410ff61; 0xf20015ad]%N /\
  exists bv, sha256.new (E:=Gf2_128) = Ok bv /\
    exists a t, eval.run (sha256.assert_transform_block bv (sha256.evaluate_given abc) (sha256.evaluate_derived (sha_concrete.derived abc))) = Ok (a, t) /\
      eval.is_ok a = true.
Proof.
  split; [vm_compute; reflexivity|]. destruct (boolean_new (E:=Gf2_128)) as (b & Hb & _).
  assert (sha256.new (E:=Gf2_128) = Ok (Build_BitvecLogic b b)) as Hnew by (unfold sha256.new, bitvec.new; rewrite Hb; reflexivity).
  eexists. split; [exact Hnew|].
  assert (words_below abc (sha_concrete.derived abc) = true) as Hwords by (vm_compute; reflexivity).
  assert (block_shape abc (sha_concrete.derived abc)) as Hshape by (split; vm_compute; reflexivity).
  remember (sha_concrete.derived abc) as D eqn:HD. generalize dependent abc. intros G HD Hwords Hshape.
  pose proof (sha256_block_asserted True _ eval_start (sha256.evaluate_given G) (sha256.evaluate_derived D) G D gf_seven_words Hnew I
    (evaluated_block G D Hwords) Hshape) as Hc.
  destruct (run_correct _ _ Hc) as (a & t & Hr & Hok & _). exists a, t. split; [exact Hr|]. apply Hok. exact HD.
Defined.

(** (x + 1)^2 = x^2 + 1 *)
Definition square_circuit (L : logic.Logic Gf2_128) : lcomp logic.St logic.Assertions :=
  x ← logic.konst (gf 3); y ← logic.mul x x; z ← logic.konst (gf 5); logic.assert_eq "square" y z.
Lemma evaluation_reports_witness : exists a tracker,
  eval.run (square_circuit eval.eval_logic) = Ok (a, tracker) /\ eval.is_ok a = true.
Proof.
  destruct (evaluation_reports square_circuit (fmul (gf 3) (gf 3) = gf 5)) as (a & t & Hr & Hok & _).
  - intros L laws s Hi. unfold square_circuit. step x. step y. step z. by apply assert_eq_ok.
  - exists a, t. split; [exact Hr|]. apply Hok. vm_compute. reflexivity.
Defined.

(** *** A compiled adder *)
#[local] Existing Instances toy_sha256.
#[local] Instance toy_compare : Comparable Gf2_128 := fun a b => cmp_bytes (to_bytes a) (to_bytes b).
#[local] Instance toy_order : HashOrder := map snd.
#[local] Instance toy_order_laws : HashOrderLaws.
Proof. intros l. reflexivity. Qed.
Module Adder.
#[local] Existing Instances backend.compiler_logic.
Definition input_bits (positions : list nat) : lcomp (backend.St (E:=Gf2_128)) (list (Bitw Gf2_128)) :=
  mapM (fun i => w ← logic.input (LogicIO:=backend.compiler_logic_io) i; mret (IP w)) positions.
(** [c = a + b] on two bits *)
Definition circuit : lcomp (backend.St (E:=Gf2_128)) (list AssertionItem) :=
  self ← lift_l (boolean.new (E:=Gf2_128));
  a ← input_bits [1; 2]; b ← input_bits [3; 4]; c ← input_bits [5; 6];
  @arithmetic.assert_wrapping_add Gf2_128 _ backend.compiler_logic self c a b.
Abbreviation compiled := (compile (a ← circuit; mret (a, 1, 0))).

Definition is_bit (e : Gf2_128) : Prop := e = of_bool (negb (is_zero e)).
Definition bits_at (inp : nat -> Gf2_128) (positions : list nat) : list bool := map (fun i => negb (is_zero (inp i))) positions.
Definition domain (inp : nat -> Gf2_128) : Prop := Forall (fun i => is_bit (inp i)) (seq 1 6).
Definition adds (inp : nat -> Gf2_128) : Prop :=
  (num (bits_at inp [5; 6]%nat) = (num (bits_at inp [1; 2]%nat) + num (bits_at inp [3; 4]%nat)) mod 4)%N.

Section proof.
Context (inp : nat -> Gf2_128) (Hinp : domain inp).
#[local] Existing Instance compiler_laws.
#[local] Abbreviation laws := (compiler_laws inp True).
#[local] Abbreviation bits := (listR (@Boolean.bit Gf2_128 _ backend.compiler_logic True laws)).
Lemma input_bits_ok positions w : ll_inv (LogicLaws:=laws) w -> Forall (fun i => 1 <= i < 7) positions ->
  returns (H1:=laws) bits w (input_bits positions) (bits_at inp positions).
Proof.
  intros Hi Hp. rewrite Forall_forall in Hp. unfold domain in Hinp. rewrite Forall_forall in Hinp.
  apply (refines_mapM _ _ False eqR (@Boolean.bit Gf2_128 _ backend.compiler_logic True laws) _ (fun i => negb (is_zero (inp i))) positions positions); [done|by apply listR_eq|].
  intros i j w' Hin Hi' _ Heq. unfold eqR in Heq. subst j. specialize (Hp i Hin).
  eapply (returns_bind (H1:=laws)); [apply (input_ok inp True i w'); [exact Hi'|lia]|]. intros x w2 Hi2 _ Hx. apply (returns_ret (H1:=laws)); [done|].
  cbn [Boolean.bit]. rewrite <- (Hinp i); [exact Hx|]. apply elem_of_seq. lia.
Qed.
Lemma circuit_ok : builds inp circuit (adds inp).
Proof.
  unfold builds, circuit. destruct (boolean_new (E:=Gf2_128)) as (self & -> & Hself). apply refines_lift.
  pose proof (inv_empty (normal (attached_hold inp True))) as Hi.
  step_by ltac:(apply (input_bits_ok [1; 2]); [exact Hi|by repeat (constructor; [lia|])]) a.
  step_by ltac:(apply (input_bits_ok [3; 4]); [done|by repeat (constructor; [lia|])]) b.
  step_by ltac:(apply (input_bits_ok [5; 6]); [done|by repeat (constructor; [lia|])]) c.
  by apply (assert_wrapping_add_ok True self Hself _ c a b (bits_at inp [5; 6]) (bits_at inp [1; 2]) (bits_at inp [3; 4])).
Qed.
End proof.
End Adder.

Definition adder_compiled := match Adder.compiled with Ok r => Some r | _ => None end.
Definition adder_circuit : Circuit Gf2_128 :=
  match adder_compiled with Some (c, _, _) => c
  | None => {| raw := {| ninput := 0; npublic_input := 0; noutput := 0; logv := 0; subfield_boundary := 0; constants := []; layers := [] |}; id := [] |} end.
Definition below_limits (info : CircuitGeometry) : bool :=
  ((N.of_nat (g_ninput info) <? 2 ^ 32) && (N.of_nat (g_nwires info) <? 2 ^ 32) && (N.of_nat (g_nterms info) <? 2 ^ 32))%N.
Lemma adder_compiles : exists info syms, Adder.compiled = Ok (adder_circuit, info, syms) /\ fits info.
Proof.
  assert (match Adder.compiled with Ok (_, info, _) => below_limits info | _ => false end = true) as Hb by (vm_compute; reflexivity).
  unfold adder_circuit, adder_compiled. destruct (Adder.compiled) as [[[c info] syms]| |]; [|done..].
  exists info, syms. split; [done|]. apply andb_true_iff in Hb as [[?%N.ltb_lt ?%N.ltb_lt]%andb_true_iff ?%N.ltb_lt]. done.
Qed.
Lemma circuit_compiles_witness :
  ninput (raw adder_circuit) = 7 /\
  forall inputs, length inputs = 7 -> at0 inputs 0 = gf 1 -> Adder.domain (at0 inputs) ->
    (exists ls, eval_circuit inputs adder_circuit = Ok ls) <-> Adder.adds (at0 inputs).
Proof.
  assert (ninput (raw adder_circuit) = 7) as Hn by (vm_compute; reflexivity). split; [exact Hn|].
  pose proof (circuit_compiles Adder.domain Adder.circuit Adder.adds 1 0 (fun _ => fzero) ltac:(by repeat constructor) Adder.circuit_ok) as Hc.
  destruct adder_compiles as (info & syms & Hr & Hfit). rewrite Hr in Hc.
  destruct (Hc Hfit) as (_ & _ & _ & He). intros inputs Hi Hone Hd. apply He; [by rewrite Hn|exact Hone|exact Hd].
Defined.
